(* ===== verification/_CoqProject ===== *)
-Q . S2P
Prelude.v
Int64.v
StaticOps.v
Fold.v
GoSem.v
FloatFacts.v
Emit.v
IrCost.v
PySem.v
EmitTyping.v
EmitEnv.v
EmitExpr.v
EmitOps.v
EmitSound.v
EmitTypes.v
EmitKinds.v
EmitGuards.v
EmitCheck.v
EmitStmt.v
EmitBlock.v
EmitLoops.v
EmitKindStmts.v
EmitCorrect.v
Ast.v
Bridge.v
PyAst.v
BridgeExpr.v
BridgeScope.v
BridgeStmts.v
Compile.v
BridgeFacts.v
EmitFacts.v
Gen.v
GenBridge.v
GenTrace.v
Lattice.v
Interner.v
Join.v
TypeSem.v
JoinSound.v
JoinFacts.v
Evidence.v
Annotation.v
AnnotationSound.v
Env.v
Narrow.v
Contagion.v
Stub.v
Rules.v
Census.v
Guards.v
Deopt.v
GuardSites.v
Decide.v
Heapq.v
Bisect.v
Bytes.v
Binascii.v
Quopri.v
IntBytes.v
Slice.v
HashKey.v
Dict.v
BridgeMono.v
Tree.v
Driver.v
DriverSound.v
BridgeCanon.v
Tables.v
Resume.v
Plan.v
PlanSound.v
C3.v
SetObj.v
Sre.v
SreSem.v
SreSound.v
SreMatch.v
SreLang.v
