(* ===== verification/Prelude.v ===== *)
(** * Unagi: a verification library for the unagi Python-to-Go compiler

    Unagi compiles Python to Go ahead of time.  A type-inference lattice
    (src/pkg/types) and a partitioner (src/pkg/partition) decide, function by
    function, whether a unit can run on the static tier: unboxed int64 and
    float64 code that falls back to a boxed twin (deopts) where the machine
    result would differ from Python's.  The bridge (src/pkg/ir) turns the
    accepted functions into a small model of the static tier, and the code
    generator (src/pkg/emit) turns that model into Go.  Everything else runs on
    the object runtime (src/pkg/objects, src/pkg/runtime).

    ** From the frontend tree to the emitted function

    - [Ast]: the nodes of src/pkg/frontend/ast.go the bridge looks at.  [Bridge]:
      src/pkg/ir/bridge.go, the lowering of a function to the emit model with
      every refusal.
    - [PyAst]: Python's own meaning of the tree, independent of the bridge.
    - [BridgeExpr]: a lowered expression evaluates to what its tree does.
      [BridgeScope]: the bridge's scopes compute definite assignment, with tracked
      globals and driven generators too (the name of a loop's generator handle
      apart), and its fresh names are fresh.  [BridgeStmts]: lowered blocks simulate the tree's.
    - [Compile]: the form of one unit (src/pkg/build/static.go); [staticForm_correct]
      composes the bridge's simulation with the generator's: the emitted Go does
      what Python does with the source function.  [BridgeFacts]: source functions
      the bridge accepts although the form differs from the source or is not Go.

    ** The code generator and what its output computes

    - [Int64]: src/pkg/runtime/statictier.go, the overflow-detecting helpers the
      emitted Go calls.  Each is exact: the flag is set exactly when Python's
      result is not an int64.
    - [StaticOps]: the emit model (operators, representations, expressions) and
      what the emitted integer operators compute; [intBin_agrees] relates them to
      Python's integers.
    - [GoSem]: the fragment of Go that is emitted, with a fuelled interpreter
      (block scopes, [:=], short-circuit, [switch]-free loops, multi-value
      returns); [FloatFacts]: the rounding of an int to a double.
    - [Emit]: src/pkg/emit, the builder and every lowering, to Go syntax trees.
    - [Gen]: src/pkg/emit/gen.go, generators as state machines; [Next_yields] steps
      the emitted machine through its segments' values as their code computes them
      (no trailer, a loop last), [loop_then_yield_lost] is a case it loses.
      [GenBridge]: src/pkg/ir/generator.go and genresolve.go, the split of a
      generator def into segments; [GenTrace]: the segments yield, in order, what
      Python's generator yields.
    - [IrCost]: the operand rules of src/pkg/ir/bridge.go, the census of cost.go
      and the guard-site walk of deopt.go.
    - [Fold]: src/pkg/ir/fold.go, constant folding and identity elimination.
    - [PySem]: the reference semantics, Python's own meaning of the same
      programs, and when a guard fires.  [EmitTyping]: the typing under which the
      generator is trusted.  [EmitTypes]: that typing is sound; [EmitKinds] and
      [EmitKindStmts]: so it is on ints of any size, through whole blocks;
      [EmitCheck]: an executable checker for it.
    - [EmitEnv], [EmitExpr], [EmitOps], [EmitSound] (expressions), [EmitStmt],
      [EmitBlock], [EmitLoops] (statements), [EmitCorrect] (functions): emitted
      code follows Python, by a simulation with the same fuel on both sides.
      An int operand of a true division or of a comparison with a float is taken
      as the double it rounds to, which is Python's value up to 2^53.
      [EmitGuards]: the deopt planner's guard walk agrees with the generator,
      whatever builder the code is built with.
      [GuardSites]: the site walk of src/pkg/ir/deopt.go; a function without
      sites is emitted without an edge to its boxed twin.
      [EmitFacts]: programs outside the typing where they disagree.

    ** The type lattice

    - [Lattice], [Interner], [Join]: src/pkg/types/lattice.go, interner.go,
      join.go; [TypeSem] gives the elements a meaning and [JoinSound] shows joins
      are defined and are upper bounds of canonical elements, which have no class
      with the exact-type bit; [JoinFacts] has canonical unions, the exact classes
      on which a join is no upper bound and the departures from the comments.
    - [Annotation]: src/pkg/types/annotation.go; [AnnotationSound] gives
      annotations a meaning of their own (a program name is looked up by its full
      path, a builtin one by its module) and shows that lowering returns, on
      recursive aliases too, and that the element holds every value the annotation
      names as long as no program class takes a builtin's name.
    - [Evidence], [Env], [Narrow], [Contagion], [Stub]: the files of the same
      names in src/pkg/types.

    ** The partitioner

    - [Rules] (rule.go, state.go), [Census] (census.go), [Guards] (cost.go,
      guard.go), [Deopt] (deopt.go, the site construction of driver.go),
      [Decide] (decision.go, partition.go) of src/pkg/partition.
    - [Tree]: the whole syntax tree with positions; [Driver]: driver.go, resolve.go
      and cycles.go, from a module to its decisions.  [BridgeMono]: what lowers
      against a resolver lowers to the same code against a larger one.
      [BridgeCanon]: the representations a lowered function has.  [DriverSound]:
      the rounds end in the least fixpoint and the seeded pass in the largest
      consistent set of recursive callees, so every callee a decision rests on is
      itself decided static with the signature its callers assume.

    ** The build

    - [Tables]: src/pkg/ir/globals.go and shapes.go, the resolvers of tracked
      globals and shape classes that the driver and the build share.
    - [Resume]: src/pkg/build/resume.go, the loops that are resumed after a deopt;
      the boxed twin gives what a run from the top gives.  [Plan]: the rest of
      src/pkg/build/static.go, from the decisions to the forms of the static file
      and the entries of the boxed lowering.  [PlanSound]: the emitted names differ,
      and every unit decided static lowers again against the build's resolvers;
      with the modules on which the plan and the decisions, or the plan and Python,
      part.

    ** Runtime modules

    - [Heapq], [Bisect]: src/pkg/runtime/heapqmod.go and bisectmod.go; a heap under
      a strict weak order, and what a push leaves when a comparison raises.
    - [Bytes]: machine bytes; [Binascii], [Quopri]: the codecs of
      src/pkg/runtime/binasciimod.go, with their round trips and the width of
      quoted-printable lines.
    - [IntBytes]: src/pkg/objects/intbytes.go, ints to bytes and back, below 2^61
      bytes.
    - [Slice]: src/pkg/objects/slice.go on lists; reading, assigning and deleting
      a slice touch exactly the positions Python's slice names.
    - [HashKey]: the canonical key of src/pkg/objects/dict.go and set.go; on plain
      objects two keys are the same string exactly when Python's keys are equal,
      frozensets by their elements' equality.
      [Dict]: the dict of dict.go, dictmethods.go and ordereddict.go refines an
      insertion-ordered association list.  [SetObj]: the sets of set.go with the
      operators of ops.go and inplace.go refine finite maps.
    - [C3]: c3Linearize of src/pkg/objects/class.go; the merge succeeds exactly
      when a consistent order exists, and every hierarchy that class statements
      build stores such orders.

    ** Regular expressions

    - [Sre]: src/pkg/sre, the virtual machine of Python's re: match, search, the
      character sets and the repeat stack, which is a store of nodes as the code
      shares them.  An index out of range is a panic, a code of error a result.
    - [SreSem]: patterns, the bytecode re._compiler writes for them, and their
      meaning, a backtracking search with continuations that knows nothing of the
      engine's states.  [SreSound]: the engine on that bytecode does what the
      meaning says, by induction on the pattern, with the repeat stack's nodes
      followed through every backtrack.  [SreMatch]: so match, fullmatch and
      search give the span Python's order finds first, the fast searches (prefix
      with overlap table, single literal, charset) lose no start; [stale_group]
      and [high_block] are inputs on which the engine departs from CPython's.
      [SreLang]: a meaning without order, which fullmatch and search decide for
      patterns without possessive and atomic parts.  Back-references, group
      conditions and the spans of groups are in [Sre] and in no theorem.

    ** Conventions

    Go [int] and [int64] are [Z] with the wrap-around written out; Go errors are
    the right of a sum or [None]; a Go map is a [gmap] and an iteration over it an
    explicit order of its keys; an interner, a builder and an environment are
    threaded as states.

    ** Fuel

    Loops of the program run on fuel and the theorems give the amount that is
    enough: the depth of the operands for joins ([JoinSound.Join_upper_bound]),
    the number of slots for the poison walk ([Contagion.poisonSet_reachable]), the
    list's length for the heap operations, the bit width for [PowInt64], the
    input's length for the codecs, one more than the statements of the module for
    the driver's rounds, than the seeds for its last pass, than the elements for
    the C3 merge and than the names taken for a Go name's suffix;
    [AnnotationSound.lower_total] shows that every annotation has enough fuel.  The
    regular expression engine runs on fuel for its recursion and for each loop, and
    the theorems of [SreMatch] give, for each pattern and text, a fuel from which
    the result is the same.  The interpreters of [GoSem] and [PySem] take fuel for
    the loops of the interpreted programs; the theorems run both on the same fuel,
    so a loop that ends in Python ends in the emitted code.

    ** Not modelled

    The frontend's lexer and parser (src/pkg/frontend, pylexer, pytoken):
    concrete syntax.  Its analyses that find the globals to track, the shape classes
    and the names a function binds (src/pkg/frontend/globals.go, scalarglobals.go,
    shapeclasses.go) are parameters.  The boxed lowering, the object runtime and the
    other runtime modules: their meaning is the whole of CPython's object model.
    The rest of the build, the command line, reports and test harnesses: I/O. *)

From Stdlib Require Export ZArith Lia Bool List String Ascii.
From stdpp Require Export base list gmap strings pretty.

(** ** Scope and tactics of the development *)

Declare Scope unagi_scope.
Delimit Scope unagi_scope with unagi.

(** Keys and messages are built by appending, so let it compute. *)
#[global] Arguments String.append : simpl nomatch.

(** Split every boolean conjunction, disjunction and comparison in the
    context into the proposition it decides. *)
Ltac bool_to_prop :=
  repeat match goal with
  | H : andb _ _ = true |- _ => apply andb_true_iff in H as [? ?]
  | H : orb _ _ = false |- _ => apply orb_false_iff in H as [? ?]
  | H : negb _ = true |- _ => apply negb_true_iff in H
  | H : negb _ = false |- _ => apply negb_false_iff in H
  | H : Z.eqb _ _ = true |- _ => apply Z.eqb_eq in H
  | H : Z.eqb _ _ = false |- _ => apply Z.eqb_neq in H
  | H : Z.leb _ _ = true |- _ => apply Z.leb_le in H
  | H : Z.leb _ _ = false |- _ => apply Z.leb_gt in H
  | H : Z.ltb _ _ = true |- _ => apply Z.ltb_lt in H
  | H : Z.ltb _ _ = false |- _ => apply Z.ltb_ge in H
  | H : Nat.eqb _ _ = true |- _ => apply Nat.eqb_eq in H
  | H : Nat.eqb _ _ = false |- _ => apply Nat.eqb_neq in H
  | H : Nat.ltb _ _ = true |- _ => apply Nat.ltb_lt in H
  | H : Nat.ltb _ _ = false |- _ => apply Nat.ltb_ge in H
  | H : Nat.leb _ _ = true |- _ => apply Nat.leb_le in H
  | H : Nat.leb _ _ = false |- _ => apply Nat.leb_gt in H
  | H : String.eqb _ _ = true |- _ => apply String.eqb_eq in H
  | H : String.eqb _ _ = false |- _ => apply String.eqb_neq in H
  | H : bool_decide _ = true |- _ => apply bool_decide_eq_true in H
  | H : bool_decide _ = false |- _ => apply bool_decide_eq_false in H
  end.

(** Case analysis on every [if] of the goal, boolean hypotheses decoded. *)
Ltac split_ifs :=
  repeat match goal with
  | |- context [if ?c then _ else _] => destruct c eqn:?
  end; bool_to_prop.

(** Case analysis on the [let '(x, y) := p in ...] and the [match]es blocking
    the goal or a hypothesis. *)
Ltac destruct_match_pairs :=
  repeat match goal with
  | H : context [let '(_, _) := ?p in _] |- _ => destruct p as [? [|]] eqn:?
  | |- context [let '(_, _) := ?p in _] => destruct p as [? [|]] eqn:?
  end.

(** ** Formatting *)

(** [strconv.Itoa] and [%d]. *)
Definition itoa (z : Z) : string := pretty z.

(** The byte that separates the parts of a composite key. *)
Definition nul : ascii := "000".

Fixpoint noNul (s : string) : bool :=
  match s with "" => true | String c s => negb (Ascii.eqb c nul) && noNul s end.

(** A part without the separator can be read back from a composite key. *)
Lemma nul_split a b x y :
  noNul a = true -> noNul b = true ->
  a +:+ String nul x = b +:+ String nul y -> a = b /\ x = y.
Proof.
  revert b. induction a as [|c a IH]; intros [|d b]; simpl; intros Ha Hb E; simplify_eq; try done.
  bool_to_prop. destruct (IH b) as [-> ->]; auto.
Qed.

Lemma nul_split_r a b x y :
  noNul x = true -> noNul y = true ->
  a +:+ String nul x = b +:+ String nul y -> a = b /\ x = y.
Proof.
  assert (forall c z, noNul (c +:+ String nul z) = false) as Hno.
  { induction c as [|d c IH]; intros z; simpl; [done|]. by rewrite IH, andb_false_r. }
  revert b. induction a as [|c a IH]; intros [|d b]; simpl; intros Hx Hy E; simplify_eq; try done.
  - by rewrite Hno in Hx.
  - by rewrite Hno in Hy.
  - destruct (IH b) as [-> ->]; auto.
Qed.

Lemma noNul_app a b : noNul (a +:+ b) = noNul a && noNul b.
Proof. induction a as [|c a IH]; simpl; [done|]. by rewrite IH, andb_assoc. Qed.

Lemma noNul_itoa z : noNul (itoa z) = true.
Proof.
  assert (forall n s, noNul s = true -> noNul (pretty_N_go n s) = true) as Hgo.
  { intros n. induction (N.lt_wf_0 n) as [n _ IH]. intros s Hs.
    destruct (decide (0 < n)%N) as [Hn|Hn].
    - rewrite pretty_N_go_step by done. apply IH; [by apply N.div_lt|]. simpl. rewrite Hs, andb_true_r.
      unfold pretty_N_char. by repeat case_match.
    - assert (n = 0%N) as -> by lia. by rewrite pretty_N_go_0. }
  assert (forall n : N, noNul (pretty n) = true) as HN.
  { intros n. unfold pretty, pretty_N. case_decide; [done|]. by apply Hgo. }
  unfold itoa, pretty, pretty_Z. destruct z; [done|apply HN|]. simpl. apply HN.
Qed.

(** ** Strings *)

Lemma app_assoc_str a b c : (a +:+ b) +:+ c = a +:+ (b +:+ c).
Proof. induction a as [|d a IH]; [done|]. simpl. by rewrite IH. Qed.
