(* ===== verification/Int64.v ===== *)
(** * Int64: the static tier's machine arithmetic

    Model of src/pkg/runtime/statictier.go: the overflow-detecting int64
    helpers the emitted Go calls, kept at their machine width.  A Go [int64]
    is a [Z] in [[-2^63, 2^63)]; every Go operator that can leave that range
    is written with its two's-complement wrap-around.  The theorems relate
    each helper to exact integer arithmetic: the flag is set exactly when the
    Python result does not fit, and the value is the Python result otherwise. *)

From S2P Require Import Prelude.
Local Open Scope Z_scope.

Definition MinInt64 : Z := - 2 ^ 63.
Definition MaxInt64 : Z := 2 ^ 63 - 1.

(** The value is representable as an int64. *)
Definition in64 (z : Z) : bool := (MinInt64 <=? z) && (z <=? MaxInt64).

(** Two's-complement truncation to 64 bits, what every Go operator does. *)
Definition wrap64 (z : Z) : Z := (z + 2 ^ 63) mod 2 ^ 64 - 2 ^ 63.

(** Conversion [uint64(b)]. *)
Definition toUint64 (z : Z) : Z := z mod 2 ^ 64.

(** Go's [/] and [%] truncate toward zero; the quotient of the most negative
    value by -1 wraps to itself. *)
Definition goQuot (a b : Z) : Z := wrap64 (Z.quot a b).
Definition goRem (a b : Z) : Z := wrap64 (Z.rem a b).

(** Go's shifts by an unsigned count: counts of 64 and more saturate. *)
Definition goShl (a n : Z) : Z := if n <? 64 then wrap64 (Z.shiftl a n) else 0.
Definition goShr (a n : Z) : Z :=
  if n <? 64 then Z.shiftr a n else if a <? 0 then -1 else 0.

Definition AddInt64 (a b : Z) : Z * bool :=
  let s := wrap64 (a + b) in
  (s, Bool.eqb (0 <=? a) (0 <=? b) && negb (Bool.eqb (0 <=? s) (0 <=? a))).

Definition SubInt64 (a b : Z) : Z * bool :=
  let d := wrap64 (a - b) in
  (d, negb (Bool.eqb (0 <=? a) (0 <=? b)) && negb (Bool.eqb (0 <=? d) (0 <=? a))).

Definition MulInt64 (a b : Z) : Z * bool :=
  if (a =? 0) || (b =? 0) then (0, false)
  else
    let p := wrap64 (a * b) in
    if ((a =? MinInt64) && (b =? -1)) || ((b =? MinInt64) && (a =? -1))
    then (p, true)
    else (p, negb (goQuot p a =? b)).

Definition FloorDivInt64 (a b : Z) : Z * bool :=
  if (a =? MinInt64) && (b =? -1) then (0, true)
  else
    let q := goQuot a b in
    if negb (goRem a b =? 0) && negb (Bool.eqb (a <? 0) (b <? 0))
    then (wrap64 (q - 1), false)
    else (q, false).

Definition FloorModInt64 (a b : Z) : Z :=
  let r := goRem a b in
  if negb (r =? 0) && negb (Bool.eqb (r <? 0) (b <? 0)) then wrap64 (r + b) else r.

(** The square-and-multiply loop of [PowInt64]; one unit of fuel per
    iteration.  [None] is the deopt return, and also what running out of fuel
    would give; [PowInt64_exact] shows 64 iterations are always enough. *)
Fixpoint powLoop (fuel : nat) (result base e : Z) : option Z :=
  if e <=? 0 then Some result
  else match fuel with
  | O => None
  | S fuel =>
    let step := if Z.land e 1 =? 1
                then let '(v, ovf) := MulInt64 result base in
                     if ovf then None else Some v
                else Some result in
    match step with
    | None => None
    | Some result =>
      let e := goShr e 1 in
      if 0 <? e
      then let '(v, ovf) := MulInt64 base base in
           if ovf then None else powLoop fuel result v e
      else powLoop fuel result base e
    end
  end.

Definition PowInt64 (a b : Z) : Z * bool :=
  if b <? 0 then (0, true)
  else match powLoop 64 1 a b with
       | Some r => (r, false)
       | None => (0, true)
       end.

Definition LShiftInt64 (a b : Z) : Z * bool :=
  if a =? 0 then (0, false)
  else
    let r := goShl a (toUint64 b) in
    if negb (goShr r (toUint64 b) =? a) then (0, true) else (r, false).

Definition RShiftInt64 (a b : Z) : Z := goShr a (toUint64 b).

Definition BoolToInt (b : bool) : Z := if b then 1 else 0.

Definition OrInt64 (a b : Z) : Z := if negb (a =? 0) then a else b.
Definition AndInt64 (a b : Z) : Z := if a =? 0 then a else b.
Definition OrStr (a b : string) : string := if negb (String.eqb a "") then a else b.
Definition AndStr (a b : string) : string := if String.eqb a "" then a else b.

#[global] Arguments wrap64 : simpl never.
#[global] Arguments AddInt64 : simpl never.
#[global] Arguments SubInt64 : simpl never.
#[global] Arguments MulInt64 : simpl never.
#[global] Arguments FloorDivInt64 : simpl never.
#[global] Arguments FloorModInt64 : simpl never.
#[global] Arguments PowInt64 : simpl never.
#[global] Arguments LShiftInt64 : simpl never.
#[global] Arguments RShiftInt64 : simpl never.

(** ** Wrap-around *)

Ltac unfold64 := unfold MinInt64, MaxInt64 in *.

Lemma in64_spec z : in64 z = true <-> MinInt64 <= z <= MaxInt64.
Proof. unfold in64. rewrite andb_true_iff, !Z.leb_le. reflexivity. Qed.

Lemma in64_false z : in64 z = false <-> z < MinInt64 \/ MaxInt64 < z.
Proof. unfold in64. rewrite andb_false_iff, !Z.leb_gt. reflexivity. Qed.

Lemma wrap64_small z : in64 z = true -> wrap64 z = z.
Proof.
  rewrite in64_spec. intros H. unfold wrap64. unfold64.
  rewrite Z.mod_small; lia.
Qed.

Lemma wrap64_range z : MinInt64 <= wrap64 z <= MaxInt64.
Proof.
  unfold wrap64. unfold64.
  pose proof (Z.mod_pos_bound (z + 2 ^ 63) (2 ^ 64) ltac:(lia)). lia.
Qed.

(** A wrapped value differs from the exact one by a multiple of [2^64]. *)
Lemma wrap64_congr z : exists k, wrap64 z = z + k * 2 ^ 64.
Proof.
  exists (- ((z + 2 ^ 63) / 2 ^ 64)). unfold wrap64.
  pose proof (Z.div_mod (z + 2 ^ 63) (2 ^ 64) ltac:(lia)). lia.
Qed.

#[export] Hint Resolve wrap64_range : core.

(** ** Addition and subtraction *)

Lemma AddInt64_exact a b :
  in64 a = true -> in64 b = true ->
  AddInt64 a b = (wrap64 (a + b), negb (in64 (a + b))).
Proof.
  rewrite !in64_spec. intros Ha Hb. unfold AddInt64.
  destruct (in64 (a + b)) eqn:E.
  - rewrite wrap64_small by done. apply in64_spec in E. f_equal.
    destruct (Z.leb_spec 0 a), (Z.leb_spec 0 b), (Z.leb_spec 0 (a + b)); simpl; lia.
  - apply in64_false in E. destruct (wrap64_congr (a + b)) as [k Hk].
    pose proof (wrap64_range (a + b)). unfold64. f_equal.
    destruct (Z.leb_spec 0 a), (Z.leb_spec 0 b), (Z.leb_spec 0 (wrap64 (a + b)));
      simpl; lia.
Qed.

Lemma SubInt64_exact a b :
  in64 a = true -> in64 b = true ->
  SubInt64 a b = (wrap64 (a - b), negb (in64 (a - b))).
Proof.
  rewrite !in64_spec. intros Ha Hb. unfold SubInt64.
  destruct (in64 (a - b)) eqn:E.
  - rewrite wrap64_small by done. apply in64_spec in E. f_equal.
    destruct (Z.leb_spec 0 a), (Z.leb_spec 0 b), (Z.leb_spec 0 (a - b)); simpl; lia.
  - apply in64_false in E. destruct (wrap64_congr (a - b)) as [k Hk].
    pose proof (wrap64_range (a - b)). unfold64. f_equal.
    destruct (Z.leb_spec 0 a), (Z.leb_spec 0 b), (Z.leb_spec 0 (wrap64 (a - b)));
      simpl; lia.
Qed.

(** ** Multiplication *)

(** The divide-back test of [MulInt64] is exact: if dividing the wrapped
    product by [a] gives [b] back, nothing was lost. *)
Lemma divide_back a b p k :
  MinInt64 <= a <= MaxInt64 -> a <> 0 -> p = a * b + k * 2 ^ 64 ->
  Z.quot p a = b -> k = 0.
Proof.
  intros Ha Hnz Hp Hq.
  pose proof (Z.quot_rem' p a) as Hdm. rewrite Hq in Hdm.
  pose proof (Z.rem_bound_abs p a Hnz). unfold64. lia.
Qed.

Lemma quot_range p a :
  MinInt64 <= p <= MaxInt64 -> a <> 0 -> ~ (p = MinInt64 /\ a = -1) ->
  MinInt64 <= Z.quot p a <= MaxInt64.
Proof.
  intros Hp Ha Hn. unfold64.
  assert (Habs : Z.abs (Z.quot p a) = Z.abs p / Z.abs a)
    by (rewrite <- Z.quot_abs by lia; apply Z.quot_div_nonneg; lia).
  destruct (Z.eq_dec a 1) as [->|]; [rewrite Z.quot_1_r; lia|].
  destruct (Z.eq_dec a (-1)) as [->|].
  - change (-1) with (- (1)). rewrite Z.quot_opp_r, Z.quot_1_r by lia. lia.
  - assert (Z.abs p / Z.abs a <= Z.abs p / 2) by (apply Z.div_le_compat_l; lia).
    assert (Z.abs p / 2 <= 2 ^ 62) by (apply Z.div_le_upper_bound; lia). lia.
Qed.

Lemma MulInt64_exact a b :
  in64 a = true -> in64 b = true ->
  snd (MulInt64 a b) = negb (in64 (a * b)) /\
  (in64 (a * b) = true -> fst (MulInt64 a b) = a * b).
Proof.
  intros Ha%in64_spec Hb%in64_spec. unfold MulInt64.
  destruct ((a =? 0) || (b =? 0)) eqn:Ez.
  { apply orb_true_iff in Ez as [Ez|Ez]; bool_to_prop; subst; simpl;
      rewrite ?Z.mul_0_r; auto. }
  bool_to_prop. cbv zeta.
  destruct ((a =? MinInt64) && (b =? -1) || (b =? MinInt64) && (a =? -1)) eqn:Em;
    simpl.
  { assert (in64 (a * b) = false) as ->; [|split; [done|intros [=]]].
    apply in64_false. apply orb_true_iff in Em as [Em|Em]; bool_to_prop; subst; unfold64; lia. }
  apply orb_false_iff in Em as [Em1 Em2].
  destruct (in64 (a * b)) eqn:E; (split; [f_equal|]).
  - rewrite wrap64_small by done. unfold goQuot.
    rewrite Z.mul_comm, Z.quot_mul by done. rewrite wrap64_small; [lia|by apply in64_spec].
  - intros _. by apply wrap64_small.
  - apply Z.eqb_neq. intros Hq. destruct (wrap64_congr (a * b)) as [k Hk].
    assert (~ (wrap64 (a * b) = MinInt64 /\ a = -1)) as Hn.
    { intros [Hw ->]. apply in64_false in E. unfold64.
      assert (b <> - 2 ^ 63) by (intros ->; simpl in Em2; lia). lia. }
    unfold goQuot in Hq. rewrite wrap64_small in Hq
      by (apply in64_spec, quot_range; auto).
    pose proof (divide_back a b _ k Ha ltac:(done) Hk Hq) as ->.
    apply in64_false in E. pose proof (wrap64_range (a * b)). lia.
  - done.
Qed.

(** ** Floor division and modulo *)

Lemma floor_from_trunc a b :
  b <> 0 ->
  a / b = (if negb (Z.rem a b =? 0) && negb (Bool.eqb (a <? 0) (b <? 0))
           then Z.quot a b - 1 else Z.quot a b) /\
  a mod b = (if negb (Z.rem a b =? 0) && negb (Bool.eqb (Z.rem a b <? 0) (b <? 0))
             then Z.rem a b + b else Z.rem a b).
Proof.
  intros Hb.
  pose proof (Z.quot_rem' a b) as Hqr.
  pose proof (Z.rem_bound_abs a b Hb) as Hbound.
  pose proof (Z.rem_sign_mul a b Hb) as Hsign.
  assert (H0 : a = 0 -> Z.rem a b = 0) by (intros ->; by apply Z.rem_0_l).
  set (q := Z.quot a b) in *. set (r := Z.rem a b) in *.
  destruct (Z.eqb_spec r 0) as [Hr|Hr]; simpl.
  - split.
    + symmetry. apply (Z.div_unique_exact a b); lia.
    + rewrite Hr. symmetry. apply Z.mod_unique with q; lia.
  - assert (Hs : (r <? 0) = (a <? 0)) by
      (destruct (Z.ltb_spec r 0), (Z.ltb_spec a 0); auto;
       assert (a <> 0) by auto; nia).
    rewrite Hs.
    destruct (Z.ltb_spec a 0), (Z.ltb_spec b 0); simpl; split; symmetry;
      (apply Z.div_unique with r; lia) || (apply Z.div_unique with (r + b); lia) ||
      (apply Z.mod_unique with q; lia) || (apply Z.mod_unique with (q - 1); lia).
Qed.

Lemma goRem_exact a b : in64 b = true -> b <> 0 -> goRem a b = Z.rem a b.
Proof.
  intros Hb%in64_spec Hnz. apply wrap64_small, in64_spec.
  pose proof (Z.rem_bound_abs a b Hnz). unfold64. lia.
Qed.

(** The flag is set exactly on [MinInt64 // -1]; everywhere else the value is
    the floored quotient. *)
Lemma FloorDivInt64_exact a b :
  in64 a = true -> in64 b = true -> b <> 0 ->
  snd (FloorDivInt64 a b) = negb (in64 (a / b)) /\
  (in64 (a / b) = true -> fst (FloorDivInt64 a b) = a / b).
Proof.
  intros Ha Hb Hnz. unfold FloorDivInt64. pose proof Ha as Ha'%in64_spec.
  destruct ((a =? MinInt64) && (b =? -1)) eqn:Em.
  { bool_to_prop. subst. by vm_compute. }
  assert (Hn : ~ (a = MinInt64 /\ b = -1)).
  { intros [-> ->]. by vm_compute in Em. }
  rewrite goRem_exact by done. unfold goQuot.
  rewrite (wrap64_small (Z.quot a b)) by (apply in64_spec, quot_range; auto).
  destruct (floor_from_trunc a b Hnz) as [-> _].
  pose proof (quot_range a b Ha' Hnz Hn) as Hq.
  destruct (negb (Z.rem a b =? 0) && negb (Bool.eqb (a <? 0) (b <? 0))) eqn:Ec; simpl.
  - bool_to_prop.
    assert (in64 (Z.quot a b - 1) = true) as Hin.
    { apply in64_spec. pose proof (Z.quot_rem' a b).
      pose proof (Z.rem_bound_abs a b Hnz). pose proof (Z.rem_sign_mul a b Hnz).
      destruct (Z.ltb_spec a 0), (Z.ltb_spec b 0); try discriminate; unfold64; nia. }
    rewrite Hin. split; [done|]. intros _. by apply wrap64_small.
  - assert (in64 (Z.quot a b) = true) as -> by (by apply in64_spec). done.
Qed.

Lemma FloorModInt64_exact a b :
  in64 a = true -> in64 b = true -> b <> 0 -> FloorModInt64 a b = a mod b.
Proof.
  intros Ha Hb Hnz. unfold FloorModInt64. rewrite goRem_exact by done.
  destruct (floor_from_trunc a b Hnz) as [_ ->].
  destruct (negb (Z.rem a b =? 0) && _) eqn:Ec; [|done].
  apply wrap64_small, in64_spec. apply in64_spec in Hb. bool_to_prop.
  pose proof (Z.rem_bound_abs a b Hnz).
  destruct (Z.ltb_spec (Z.rem a b) 0), (Z.ltb_spec b 0); try discriminate; unfold64; lia.
Qed.

(** ** Power *)

(** A value already out of range stays out of range under multiplication by a
    positive factor, so an intermediate overflow is a genuine one. *)
Lemma out_mul x m : in64 x = false -> 1 <= m -> in64 (x * m) = false.
Proof. rewrite !in64_false. unfold64. nia. Qed.

Lemma pow_even_pos b k : b <> 0 -> 0 <= k -> 1 <= (b * b) ^ k.
Proof. intros Hb Hk. assert (0 < (b * b) ^ k) by (apply Z.pow_pos_nonneg; nia). lia. Qed.

Lemma pow_half b e :
  0 < e ->
  b ^ e = (if Z.land e 1 =? 1 then b else 1) * (b * b) ^ (e / 2).
Proof.
  intros He. replace (Z.land e 1) with (e mod 2)
    by (symmetry; apply (Z.land_ones e 1); lia).
  pose proof (Z.div_mod e 2 ltac:(lia)) as Hdm.
  pose proof (Z.mod_pos_bound e 2 ltac:(lia)).
  assert (0 <= e / 2) by (apply Z.div_pos; lia).
  rewrite <- Z.pow_2_r, <- Z.pow_mul_r by lia.
  destruct (Z.eqb_spec (e mod 2) 1) as [Hm|Hm].
  - rewrite <- Z.pow_succ_r by lia. f_equal. lia.
  - rewrite Z.mul_1_l. f_equal. lia.
Qed.

Lemma square_overflow b r k :
  in64 (b * b) = false -> r <> 0 -> 0 < k -> in64 (r * (b * b) ^ k) = false.
Proof.
  intros Hb%in64_false Hr Hk.
  assert (b * b > 2 ^ 63).
  { unfold64. assert (Z.abs b <= 3037000499 \/ 3037000500 <= Z.abs b) by lia. nia. }
  assert (b * b <= (b * b) ^ k).
  { replace k with (1 + (k - 1)) by lia. rewrite Z.pow_add_r, Z.pow_1_r by lia.
    assert (1 <= (b * b) ^ (k - 1)) by (apply pow_even_pos; lia || nia). nia. }
  apply in64_false. unfold64. nia.
Qed.

Lemma powLoop_exact fuel : forall result base e,
  in64 result = true -> in64 base = true -> (result <> 0 \/ base = 0) ->
  0 <= e < 2 ^ Z.of_nat fuel ->
  powLoop fuel result base e =
    (if in64 (result * base ^ e) then Some (result * base ^ e) else None).
Proof.
  induction fuel as [|fuel IH]; intros result base e Hr Hb Hnz He; cbn [powLoop].
  { assert (e = 0) as -> by (simpl in He; lia). by rewrite Z.mul_1_r, Hr. }
  destruct (Z.leb_spec e 0).
  { assert (e = 0) as -> by lia. by rewrite Z.mul_1_r, Hr. }
  rewrite (pow_half base e) by lia.
  assert (Hsh : goShr e 1 = e / 2) by (unfold goShr; simpl; by rewrite Z.shiftr_div_pow2 by lia).
  assert (Hhalf : 0 <= e / 2 < 2 ^ Z.of_nat fuel).
  { split; [apply Z.div_pos; lia|]. apply Z.div_lt_upper_bound; [lia|].
    rewrite Nat2Z.inj_succ, Z.pow_succ_r in He by lia. lia. }
  destruct (MulInt64_exact base base Hb Hb) as [Hsq1 Hsq2].
  (* the multiply step *)
  assert (Hstep : forall r', in64 r' = true -> (r' <> 0 \/ base = 0) ->
    (if 0 <? goShr e 1
     then let '(v, ovf) := MulInt64 base base in
          if ovf then None else powLoop fuel r' v (goShr e 1)
     else powLoop fuel r' base (goShr e 1)) =
    (if in64 (r' * (base * base) ^ (e / 2))
     then Some (r' * (base * base) ^ (e / 2)) else None)).
  { intros r' Hr' Hnz'. rewrite Hsh. destruct (Z.ltb_spec 0 (e / 2)).
    - destruct (MulInt64 base base) as [v ovf]; simpl in *. subst ovf.
      destruct (in64 (base * base)) eqn:E; simpl.
      + rewrite Hsq2 by done. apply IH; auto. destruct Hnz' as [?| ->]; auto.
      + rewrite square_overflow; auto. destruct Hnz' as [?| ->]; [done|].
        by vm_compute in E.
    - assert (e / 2 = 0) as -> by lia. rewrite IH by (auto; lia). by rewrite !Z.pow_0_r. }
  cbv zeta. destruct (Z.land e 1 =? 1) eqn:Eodd.
  - destruct (MulInt64_exact result base Hr Hb) as [Hm1 Hm2].
    destruct (MulInt64 result base) as [v ovf]; simpl in *. subst ovf.
    rewrite Z.mul_assoc.
    destruct (in64 (result * base)) eqn:E; simpl.
    + rewrite Hm2 by done. apply Hstep; [done|]. destruct Hnz as [?| ->]; [|auto].
      destruct (Z.eq_dec base 0); [auto|left; nia].
    + rewrite out_mul; [done|done|]. apply pow_even_pos; [|lia].
      intros ->. rewrite Z.mul_0_r in E. by vm_compute in E.
  - rewrite Z.mul_1_l. by apply Hstep.
Qed.

(** 64 iterations suffice for every int64 exponent, and the deopt flag is
    raised exactly for a negative exponent or a power out of range. *)
Lemma PowInt64_exact a b :
  in64 a = true -> in64 b = true ->
  PowInt64 a b =
    (if b <? 0 then (0, true)
     else if in64 (a ^ b) then (a ^ b, false) else (0, true)).
Proof.
  intros Ha Hb%in64_spec. unfold PowInt64. destruct (Z.ltb_spec b 0); [done|].
  rewrite powLoop_exact; [|done|done|by left|unfold64; simpl; lia].
  rewrite Z.mul_1_l. by destruct (in64 (a ^ b)).
Qed.

(** ** Shifts *)

Lemma toUint64_id b : in64 b = true -> 0 <= b -> toUint64 b = b.
Proof. intros Hb%in64_spec H. unfold toUint64. unfold64. apply Z.mod_small; lia. Qed.

Lemma in64_shift_ge a b : a <> 0 -> 64 <= b -> in64 (a * 2 ^ b) = false.
Proof.
  intros Ha Hb. apply in64_false.
  assert (2 ^ 64 <= 2 ^ b) by (apply Z.pow_le_mono_r; lia). unfold64. nia.
Qed.

Lemma LShiftInt64_exact a b :
  in64 a = true -> in64 b = true -> 0 <= b ->
  LShiftInt64 a b = (if in64 (a * 2 ^ b) then (a * 2 ^ b, false) else (0, true)).
Proof.
  intros Ha Hb Hpos. unfold LShiftInt64. rewrite toUint64_id by done.
  destruct (Z.eqb_spec a 0) as [->|Hnz]; [done|]. cbv zeta. unfold goShl, goShr.
  destruct (Z.ltb_spec b 64).
  - rewrite Z.shiftl_mul_pow2, Z.shiftr_div_pow2 by lia.
    assert (0 < 2 ^ b) by (apply Z.pow_pos_nonneg; lia).
    destruct (in64 (a * 2 ^ b)) eqn:E.
    + rewrite wrap64_small, Z.div_mul by (done || lia). by rewrite Z.eqb_refl.
    + destruct (Z.eqb_spec (wrap64 (a * 2 ^ b) / 2 ^ b) a) as [Heq|]; [exfalso|done].
      destruct (wrap64_congr (a * 2 ^ b)) as [k Hk].
      assert (2 ^ 64 = 2 ^ b * 2 ^ (64 - b)) as Hp
        by (rewrite <- Z.pow_add_r by lia; f_equal; lia).
      rewrite Hk, Hp in Heq.
      replace (a * 2 ^ b + k * (2 ^ b * 2 ^ (64 - b)))
        with ((a + k * 2 ^ (64 - b)) * 2 ^ b) in Heq by ring.
      rewrite Z.div_mul in Heq by lia.
      assert (0 < 2 ^ (64 - b)) by (apply Z.pow_pos_nonneg; lia).
      assert (k = 0) as -> by nia.
      apply in64_false in E. pose proof (wrap64_range (a * 2 ^ b)). lia.
  - rewrite in64_shift_ge by lia.
    change (0 <? 0) with false. cbv iota. destruct (Z.eqb_spec 0 a); [lia|]. done.
Qed.

Lemma RShiftInt64_exact a b :
  in64 a = true -> in64 b = true -> 0 <= b ->
  RShiftInt64 a b = a / 2 ^ b /\ in64 (a / 2 ^ b) = true.
Proof.
  intros Ha Hb Hpos. unfold RShiftInt64. rewrite toUint64_id by done.
  apply in64_spec in Ha. assert (0 < 2 ^ b) by (apply Z.pow_pos_nonneg; lia).
  split.
  - unfold goShr. destruct (Z.ltb_spec b 64); [by rewrite Z.shiftr_div_pow2 by lia|].
    assert (2 ^ 64 <= 2 ^ b) by (apply Z.pow_le_mono_r; lia).
    destruct (Z.ltb_spec a 0).
    + apply Z.div_unique with (a + 2 ^ b); unfold64; lia.
    + symmetry. apply Z.div_small. unfold64. lia.
  - apply in64_spec. split.
    + apply Z.div_le_lower_bound; [lia|]. unfold64. nia.
    + apply Z.div_le_upper_bound; [lia|]. unfold64. nia.
Qed.
