(* ===== verification/StaticOps.v ===== *)
(** * StaticOps: the scalar expression model and its integer operators

    Models the data of src/pkg/emit/expr.go, cmp.go, call.go, gen.go and
    repr.go (operators, representations, expression nodes), and the behaviour
    of the Go emitted for a binary node on int and bool operands: the zero-divisor and negative-shift checks that raise, the
    overflow flags that deopt, and the value.  The refinement theorem relates
    that behaviour to Python's arbitrary-precision integers. *)

From Stdlib Require Export SpecFloat.
From S2P Require Import Prelude Int64.
Local Open Scope Z_scope.
Set Warnings "-register-all".

Inductive Op :=
  | OpAdd | OpSub | OpMul | OpDiv | OpFloorDiv | OpMod | OpPow
  | OpBitAnd | OpBitOr | OpBitXor | OpLShift | OpRShift.

Inductive CmpOp := CmpLt | CmpLe | CmpGt | CmpGe | CmpEq | CmpNe.

#[export] Instance Op_eq_dec : EqDecision Op.
Proof. solve_decision. Defined.

(** [Op.Overflows]: the operators whose int form carries a deopting guard. *)
Definition Overflows (o : Op) : bool :=
  match o with
  | OpAdd | OpSub | OpMul | OpFloorDiv | OpPow | OpLShift => true
  | _ => false
  end.

Inductive Scalar := NotScalar | SBool | SInt | SFloat | SStr.

#[export] Instance Scalar_eq_dec : EqDecision Scalar.
Proof. solve_decision. Defined.

(** [ShapeField] and [Shape], over the representation type they are part of. *)
Record ShapeField (R : Type) := mkShapeField { sfName : string; sfRepr : R }.
Record Shape (R : Type) := mkShape { shName : string; shFields : list (ShapeField R) }.

(** The representation of a value; the [Total] mark of the code, which nothing
    reads, is left out. *)
Inductive Repr := mkRepr {
  Go : string;
  RScalar : Scalar;
  Elem : option Repr;
  RShape : option (Shape Repr)
}.

Definition intRepr : Repr := mkRepr "int64" SInt None None.
Definition boolRepr : Repr := mkRepr "bool" SBool None None.

(** [Expr]: every node kind of the scalar expression model.  A float literal
    is a binary64 number of the Standard Library's specification of IEEE 754. *)
Inductive Expr :=
  | Var (Name : string) (R : Repr)
  | Int (V : Z)
  | Float (V : spec_float)
  | Bool (V : bool)
  | Str (V : string)
  | Bin (O : Op) (L R : Expr)
  | Index (Base Idx : Expr)
  | ListLit (ElemR : Repr) (Items : list Expr)
  | Attr (Base : Expr) (Name : string)
  | GenNew (Ty : string) (Fields : list (string * Expr))
  | Call (Name : string) (Args : list Expr) (Ret : Repr)
  | Cmp (O : CmpOp) (L R : Expr)
  | And (L R : Expr)
  | Or (L R : Expr)
  | Not (X : Expr)
  | Recv (Name : string) (R : Repr).

(** ** What the emitted Go does *)

(** The exceptions the static tier raises itself through the error channel. *)
Inductive exc := ZeroDivisionError | ValueError.

(** The result of running emitted code: a value, an exception returned in the
    error channel, or control handed to the boxed twin. *)
Inductive outcome (A : Type) := Ret (a : A) | Raise (e : exc) | Deopt.
Arguments Ret {A} _.
Arguments Raise {A} _.
Arguments Deopt {A}.

Definition obind {A B} (m : outcome A) (f : A -> outcome B) : outcome B :=
  match m with Ret a => f a | Raise e => Raise e | Deopt => Deopt end.

(** The guarded form [val, ovf := rt.F(x, y); if ovf { deopt }]. *)
Definition guarded (r : Z * bool) : outcome Z :=
  let '(val, ovf) := r in if ovf then Deopt else Ret val.

(** What the code emitted for a binary node does on two int operands, one arm
    per integer case of [Builder.lowerBin] (Emit.v has the emitter itself, and
    its proof goes through this function).  [None] is the float path of true
    division, which yields no int. *)
Definition intBin (op : Op) (x y : Z) : option (outcome Z) :=
  match op with
  | OpDiv => None
  | OpFloorDiv =>
      Some (if y =? 0 then Raise ZeroDivisionError else guarded (FloorDivInt64 x y))
  | OpMod => Some (if y =? 0 then Raise ZeroDivisionError else Ret (FloorModInt64 x y))
  | OpPow => Some (guarded (PowInt64 x y))
  | OpBitAnd => Some (Ret (Z.land x y))
  | OpBitOr => Some (Ret (Z.lor x y))
  | OpBitXor => Some (Ret (Z.lxor x y))
  | OpLShift => Some (if y <? 0 then Raise ValueError else guarded (LShiftInt64 x y))
  | OpRShift => Some (if y <? 0 then Raise ValueError else Ret (RShiftInt64 x y))
  | OpAdd => Some (guarded (AddInt64 x y))
  | OpSub => Some (guarded (SubInt64 x y))
  | OpMul => Some (guarded (MulInt64 x y))
  end.

(** ** Python's integers *)

(** What CPython's int type does for the operator: an int of any size, a
    float, or an exception. *)
Inductive pyres := PyInt (z : Z) | PyFloat | PyRaise (e : exc).

Definition pyIntOp (op : Op) (x y : Z) : pyres :=
  match op with
  | OpAdd => PyInt (x + y)
  | OpSub => PyInt (x - y)
  | OpMul => PyInt (x * y)
  | OpDiv => if y =? 0 then PyRaise ZeroDivisionError else PyFloat
  | OpFloorDiv => if y =? 0 then PyRaise ZeroDivisionError else PyInt (x / y)
  | OpMod => if y =? 0 then PyRaise ZeroDivisionError else PyInt (x mod y)
  | OpPow => if 0 <=? y then PyInt (x ^ y)
             else if x =? 0 then PyRaise ZeroDivisionError else PyFloat
  | OpBitAnd => PyInt (Z.land x y)
  | OpBitOr => PyInt (Z.lor x y)
  | OpBitXor => PyInt (Z.lxor x y)
  | OpLShift => if y <? 0 then PyRaise ValueError else PyInt (x * 2 ^ y)
  | OpRShift => if y <? 0 then PyRaise ValueError else PyInt (x / 2 ^ y)
  end.

(** The emitted code agrees with Python: a value is Python's int, an
    exception is Python's exception, and it hands over to the boxed twin only
    where Python's answer is not an int64. *)
Definition agrees (o : outcome Z) (p : pyres) : Prop :=
  match o with
  | Ret v => p = PyInt v /\ in64 v = true
  | Raise e => p = PyRaise e
  | Deopt => forall z, p = PyInt z -> in64 z = false
  end.

(** ** Bitwise operators stay in range *)

(** A value is an int64 exactly when the bits from 63 up all equal its sign. *)
Lemma in64_bits z :
  in64 z = true <-> forall n, 63 <= n -> Z.testbit z n = (z <? 0).
Proof.
  rewrite in64_spec. unfold64. split.
  - intros Hz n Hn. destruct (Z.ltb_spec z 0).
    + rewrite <- (Z.lnot_involutive z), Z.lnot_spec, Z.bits_above_log2; try lia.
      * unfold Z.lnot. lia.
      * destruct (Z.eq_dec z (-1)) as [->|]; [simpl; lia|].
        apply Z.lt_le_trans with 63; [|lia]. apply Z.log2_lt_pow2; unfold Z.lnot; lia.
    + destruct (Z.eq_dec z 0) as [->|]; [by rewrite Z.bits_0|].
      apply Z.bits_above_log2; [lia|]. apply Z.lt_le_trans with 63; [|lia].
      apply Z.log2_lt_pow2; lia.
  - intros Hb. destruct (Z.ltb_spec z 0) as [Hneg|Hpos].
    + destruct (Z_lt_le_dec z (- 2 ^ 63)) as [Hlt|]; [|lia]. exfalso.
      assert (Hl : 0 < Z.lnot z) by (unfold Z.lnot; lia).
      assert (63 <= Z.log2 (Z.lnot z)) by (apply Z.log2_le_pow2; unfold Z.lnot; lia).
      pose proof (Z.bit_log2 (Z.lnot z) Hl) as Hbit.
      rewrite Z.lnot_spec, (Hb _ ltac:(eassumption)) in Hbit by lia. discriminate.
    + destruct (Z_lt_le_dec (2 ^ 63 - 1) z) as [Hlt|]; [|lia]. exfalso.
      assert (63 <= Z.log2 z) by (apply Z.log2_le_pow2; lia).
      pose proof (Z.bit_log2 z ltac:(lia)) as Hbit.
      rewrite (Hb _ ltac:(eassumption)) in Hbit. discriminate.
Qed.

Lemma in64_bitop f (op : Z -> Z -> Z) x y :
  (forall n, 0 <= n -> Z.testbit (op x y) n = f (Z.testbit x n) (Z.testbit y n)) ->
  (op x y <? 0) = f (x <? 0) (y <? 0) ->
  in64 x = true -> in64 y = true -> in64 (op x y) = true.
Proof.
  rewrite !in64_bits. intros Hspec Hsign Hx Hy n Hn.
  rewrite Hspec, Hx, Hy by lia. by rewrite Hsign.
Qed.

Lemma in64_land x y : in64 x = true -> in64 y = true -> in64 (Z.land x y) = true.
Proof.
  apply (in64_bitop andb); [intros; apply Z.land_spec|].
  pose proof (Z.land_neg x y). lia.
Qed.

Lemma in64_lor x y : in64 x = true -> in64 y = true -> in64 (Z.lor x y) = true.
Proof.
  apply (in64_bitop orb); [intros; apply Z.lor_spec|].
  pose proof (Z.lor_neg x y). lia.
Qed.

Lemma in64_lxor x y : in64 x = true -> in64 y = true -> in64 (Z.lxor x y) = true.
Proof.
  apply (in64_bitop xorb); [intros; apply Z.lxor_spec|].
  pose proof (Z.lxor_nonneg x y). destruct (Z.ltb_spec x 0), (Z.ltb_spec y 0);
    simpl; lia.
Qed.

Lemma in64_mod x y : in64 y = true -> y <> 0 -> in64 (x mod y) = true.
Proof.
  rewrite !in64_spec. unfold64. intros Hy Hnz.
  destruct (Z_lt_le_dec 0 y).
  - pose proof (Z.mod_pos_bound x y). lia.
  - pose proof (Z.mod_neg_bound x y). lia.
Qed.

(** A guarded helper that is exact agrees with the Python result it computes. *)
Lemma guarded_agrees r z :
  snd r = negb (in64 z) -> (in64 z = true -> fst r = z) -> agrees (guarded r) (PyInt z).
Proof.
  destruct r as [v ovf]; simpl. intros -> Hv. destruct (in64 z) eqn:E; simpl.
  - rewrite Hv by done. auto.
  - intros ? [= <-]. done.
Qed.

Lemma guarded_mul x y : in64 x = true -> in64 y = true -> in64 (x * y) = true ->
  Some (guarded (MulInt64 x y)) = Some (Ret (x * y)).
Proof.
  intros Hx Hy Hxy. destruct (MulInt64_exact x y Hx Hy) as [Hs Hf].
  destruct (MulInt64 x y) as [v o]; simpl in *. rewrite Hxy in *.
  subst. by rewrite Hf.
Qed.

(** Every value the emitted code yields for int64 operands is an int64, and
    the code agrees with Python. *)
Lemma intBin_agrees_py op x y o :
  in64 x = true -> in64 y = true -> intBin op x y = Some o ->
  agrees o (pyIntOp op x y).
Proof.
  intros Hx Hy. destruct op; cbn [intBin pyIntOp]; intros Ho;
    try discriminate Ho; apply (inj Some) in Ho as <-.
  - rewrite AddInt64_exact by done. apply guarded_agrees; [done|apply wrap64_small].
  - rewrite SubInt64_exact by done. apply guarded_agrees; [done|apply wrap64_small].
  - destruct (MulInt64_exact x y Hx Hy). by apply guarded_agrees.
  - destruct (Z.eqb_spec y 0); [done|].
    destruct (FloorDivInt64_exact x y Hx Hy ltac:(done)). by apply guarded_agrees.
  - destruct (Z.eqb_spec y 0); [done|]. rewrite FloorModInt64_exact by done.
    split; [done|]. by apply in64_mod.
  - rewrite PowInt64_exact by done. destruct (Z.ltb_spec y 0).
    + replace (0 <=? y) with false by lia. intros z. by destruct (x =? 0).
    + replace (0 <=? y) with true by lia. apply guarded_agrees; by destruct (in64 (x ^ y)).
  - split; [done|by apply in64_land].
  - split; [done|by apply in64_lor].
  - split; [done|by apply in64_lxor].
  - destruct (Z.ltb_spec y 0); [done|]. rewrite LShiftInt64_exact by done.
    apply guarded_agrees; by destruct (in64 (x * 2 ^ y)).
  - destruct (Z.ltb_spec y 0); [done|].
    destruct (RShiftInt64_exact x y) as [-> ?]; [done..|]. done.
Qed.

Lemma intBin_in64 op x y v :
  in64 x = true -> in64 y = true -> intBin op x y = Some (Ret v) ->
  in64 v = true /\ pyIntOp op x y = PyInt v.
Proof. intros Hx Hy H. by destruct (intBin_agrees_py op x y _ Hx Hy H). Qed.

(** C4: on every pair of int64 operands the code emitted for an
    integer operator agrees with Python's integers on every path: the value
    is Python's, the exceptions are Python's, and it deopts only where the
    Python result is not an int64. *)
Theorem intBin_agrees op x y o :
  in64 x = true -> in64 y = true -> intBin op x y = Some o ->
  agrees o (pyIntOp op x y).
Proof.
  apply intBin_agrees_py.
Qed.

Lemma intBin_agrees_witness :
  intBin OpFloorDiv (-7) 2 = Some (Ret (-4)) /\
  agrees (Ret (-4)) (pyIntOp OpFloorDiv (-7) 2).
Proof.
  split; [reflexivity|].
  apply (intBin_agrees OpFloorDiv (-7) 2); reflexivity.
Defined.
