(* ===== verification/Fold.v ===== *)
(** * Fold: constant folding and identity elimination in the bridge

    Model of src/pkg/ir/fold.go and of the binary-operator case of the bridge
    that uses it (src/pkg/ir/bridge.go).  The meaning of an expression is what
    the emitted Go does ([StaticOps.intBin]); every node other than literals
    and integer arithmetic keeps an arbitrary meaning, so the theorems hold
    whatever those nodes do. *)

From S2P Require Import Prelude Int64 StaticOps.
Local Open Scope Z_scope.

(** [foldIntOp]: the runtime helper on two constants, [None] where the helper
    would raise or deopt. *)
Definition foldIntOp (op : Op) (l r : Z) : option Z :=
  let keep (p : Z * bool) := let '(v, ovf) := p in if ovf then None else Some v in
  match op with
  | OpAdd => keep (AddInt64 l r)
  | OpSub => keep (SubInt64 l r)
  | OpMul => keep (MulInt64 l r)
  | OpFloorDiv => if r =? 0 then None else keep (FloorDivInt64 l r)
  | OpMod => if r =? 0 then None else Some (FloorModInt64 l r)
  | OpPow => keep (PowInt64 l r)
  | OpBitAnd => Some (Z.land l r)
  | OpBitOr => Some (Z.lor l r)
  | OpBitXor => Some (Z.lxor l r)
  | OpLShift => if r <? 0 then None else keep (LShiftInt64 l r)
  | OpRShift => if r <? 0 then None else Some (RShiftInt64 l r)
  | OpDiv => None
  end.

Fixpoint foldConstInt (e : Expr) : option Z :=
  match e with
  | Int v => Some v
  | Bin op l r =>
      match foldConstInt l with
      | None => None
      | Some l =>
        match foldConstInt r with
        | None => None
        | Some r =>
          match foldIntOp op l r with
          | Some v => if v =? MinInt64 then None else Some v
          | None => None
          end
        end
      end
  | _ => None
  end.

Definition isIntConst (e : Expr) (v : Z) : bool :=
  match e with Int n => n =? v | _ => false end.

Definition rightIdentity (op : Op) : option Z :=
  match op with
  | OpAdd | OpSub | OpBitOr | OpBitXor | OpLShift | OpRShift => Some 0
  | OpMul | OpFloorDiv | OpPow => Some 1
  | _ => None
  end.

Definition leftIdentity (op : Op) : option Z :=
  match op with
  | OpAdd | OpBitOr | OpBitXor => Some 0
  | OpMul => Some 1
  | _ => None
  end.

Definition isSInt (r : Repr) : bool := bool_decide (RScalar r = SInt).

Definition simplifyIntIdentity (op : Op) (l : Expr) (lr : Repr) (r : Expr) (rr : Repr)
    (res : Repr) : option (Expr * Repr) :=
  if negb (isSInt res) then None
  else
    let left :=
      match leftIdentity op with
      | Some c => if isSInt rr && isIntConst l c then Some (r, rr) else None
      | None => None
      end in
    match rightIdentity op with
    | Some c => if isSInt lr && isIntConst r c then Some (l, lr) else left
    | None => left
    end.

(** The binary case of the bridge: fold first, then the identities, then the
    node as written. *)
Definition bridgeBin (op : Op) (l : Expr) (lr : Repr) (r : Expr) (rr : Repr)
    (res : Repr) : Expr * Repr :=
  let node := Bin op l r in
  match foldConstInt node with
  | Some v => (Int v, res)
  | None =>
    match simplifyIntIdentity op l lr r rr res with
    | Some (s, sr) => (s, sr)
    | None => (node, res)
    end
  end.

(** ** Meaning of expressions *)

(** Run-time values; [VOther] is any non-integer value (a float, a string). *)
Inductive fvalue := VI (z : Z) | VB (b : bool) | VOther (tag : nat).

(** [asInt]: an int operand as it is, a bool through [rt.BoolToInt]. *)
Definition asInt (v : fvalue) : option Z :=
  match v with VI z => Some z | VB b => Some (BoolToInt b) | VOther _ => None end.

(** Every integer literal of the arithmetic skeleton is an int64, which Go's
    type [emit.Int{V int64}] guarantees. *)
Fixpoint lits_ok (e : Expr) : bool :=
  match e with
  | Int v => in64 v
  | Bin _ l r => lits_ok l && lits_ok r
  | _ => true
  end.

Section Eval.
(** The meaning of the nodes that are not literals or integer arithmetic. *)
Variable leaf : Expr -> outcome fvalue.

Fixpoint evalExpr (e : Expr) : outcome fvalue :=
  match e with
  | Int v => Ret (VI v)
  | Bool b => Ret (VB b)
  | Bin op l r =>
      obind (evalExpr l) (fun a =>
      obind (evalExpr r) (fun b =>
        match asInt a, asInt b with
        | Some x, Some y =>
            match intBin op x y with
            | Some o => obind o (fun z => Ret (VI z))
            | None => leaf e
            end
        | _, _ => leaf e
        end))
  | _ => leaf e
  end.

(** The representation a bridge pairs with an operand is honest: an operand
    of representation int evaluates only to int64 values. *)
Definition repr_ok (e : Expr) (r : Repr) : Prop :=
  RScalar r = SInt -> forall v, evalExpr e = Ret v -> exists z, v = VI z /\ in64 z = true.

Lemma foldIntOp_intBin op l r v :
  foldIntOp op l r = Some v -> intBin op l r = Some (Ret v).
Proof.
  destruct op; unfold foldIntOp, intBin, guarded; split_ifs; intros H;
    try discriminate; try congruence;
    destruct_match_pairs; by simplify_eq.
Qed.

Lemma foldConstInt_eval e v :
  lits_ok e = true -> foldConstInt e = Some v ->
  evalExpr e = Ret (VI v) /\ in64 v = true.
Proof.
  revert v. induction e as [| n | | | | op l IHl r IHr | | | | | | | | | |];
    intros v Hl; simpl in *; try discriminate; intros Hf.
  - by simplify_eq.
  - apply andb_true_iff in Hl as [Hl Hr].
    destruct (foldConstInt l) as [x|] eqn:El; [|discriminate].
    destruct (foldConstInt r) as [y|] eqn:Er; [|discriminate].
    destruct (IHl x Hl eq_refl) as [-> Hx], (IHr y Hr eq_refl) as [-> Hy].
    destruct (foldIntOp op x y) as [w|] eqn:Eo; [|discriminate].
    destruct (w =? MinInt64); simplify_eq.
    apply foldIntOp_intBin in Eo. simpl. rewrite Eo. split; [done|].
    by destruct (intBin_in64 op x y v Hx Hy Eo).
Qed.

(** An operator applied to its right identity returns the other operand
    unchanged, without raising or deopting. *)
Lemma rightIdentity_eval op c x :
  rightIdentity op = Some c -> in64 x = true -> intBin op x c = Some (Ret x).
Proof.
  intros Hc Hx. assert (in64 0 = true /\ in64 1 = true) as [H0 H1] by done.
  destruct op; cbn [rightIdentity leftIdentity] in Hc; try discriminate Hc;
    apply (inj Some) in Hc as <-; cbn [intBin];
    rewrite ?AddInt64_exact, ?SubInt64_exact, ?PowInt64_exact, ?LShiftInt64_exact by done;
    rewrite ?Z.add_0_r, ?Z.sub_0_r, ?Z.pow_1_r, ?Z.mul_1_r, ?Z.lor_0_r, ?Z.lxor_0_r;
    try done.
  - by rewrite wrap64_small, Hx.
  - by rewrite wrap64_small, Hx.
  - rewrite guarded_mul; by rewrite ?Z.mul_1_r.
  - pose proof (FloorDivInt64_exact x 1 Hx H1 ltac:(done)) as [Hs Hf].
    rewrite Z.div_1_r in *. destruct (FloorDivInt64 x 1) as [v o]; simpl in *.
    rewrite Hx in Hs. subst. by rewrite Hf.
  - by rewrite Hx.
  - by rewrite Hx.
Qed.

Lemma leftIdentity_eval op c x :
  leftIdentity op = Some c -> in64 x = true -> intBin op c x = Some (Ret x).
Proof.
  intros Hc Hx. assert (in64 0 = true /\ in64 1 = true) as [H0 H1] by done.
  destruct op; cbn [rightIdentity leftIdentity] in Hc; try discriminate Hc;
    apply (inj Some) in Hc as <-; cbn [intBin]; try done.
  - rewrite AddInt64_exact, Z.add_0_l by done. by rewrite wrap64_small, Hx.
  - rewrite guarded_mul; by rewrite ?Z.mul_1_l.
Qed.

Lemma isIntConst_eval e c : isIntConst e c = true -> evalExpr e = Ret (VI c).
Proof. destruct e; simpl; intros H; try discriminate. bool_to_prop. by subst. Qed.

Lemma simplifyIntIdentity_eval op l lr r rr res e er :
  repr_ok l lr -> repr_ok r rr ->
  simplifyIntIdentity op l lr r rr res = Some (e, er) ->
  evalExpr e = evalExpr (Bin op l r).
Proof.
  intros Hl Hr. unfold simplifyIntIdentity, isSInt.
  destruct (negb _); [discriminate|]. intros H.
  assert (Hcase : (exists c, rightIdentity op = Some c /\ RScalar lr = SInt /\
                     isIntConst r c = true /\ e = l) \/
                  (exists c, leftIdentity op = Some c /\ RScalar rr = SInt /\
                     isIntConst l c = true /\ e = r)).
  { destruct (rightIdentity op) as [c|], (leftIdentity op) as [c'|];
      repeat case_match; bool_to_prop; simplify_eq;
      (left; by eauto 10) || (right; by eauto 10). }
  destruct Hcase as [(c & Hc & Hs & Hk & ->)|(c & Hc & Hs & Hk & ->)]; simpl;
    rewrite (isIntConst_eval _ _ Hk); simpl.
  - destruct (evalExpr l) as [v| |] eqn:E; [|done..]. simpl.
    destruct (Hl Hs v E) as (z & -> & Hz). simpl. by rewrite (rightIdentity_eval op c).
  - destruct (evalExpr r) as [v| |] eqn:E; [|done..]. simpl.
    destruct (Hr Hs v E) as (z & -> & Hz). simpl. by rewrite (leftIdentity_eval op c).
Qed.

End Eval.

(** C21: whatever the operands do, the node the bridge builds for a binary
    operator behaves exactly as the operator written in the source: folding a
    constant expression and dropping an identity operand change neither the
    value nor an exception nor a deopt. *)
Theorem bridgeBin_preserves leaf op l lr r rr res :
  lits_ok (Bin op l r) = true -> repr_ok leaf l lr -> repr_ok leaf r rr ->
  evalExpr leaf (fst (bridgeBin op l lr r rr res)) = evalExpr leaf (Bin op l r).
Proof.
  intros Hlits Hl Hr. unfold bridgeBin.
  destruct (foldConstInt (Bin op l r)) as [v|] eqn:Ef.
  - by destruct (foldConstInt_eval leaf _ _ Hlits Ef) as [-> _].
  - destruct (simplifyIntIdentity op l lr r rr res) as [[e er]|] eqn:Es; [|done].
    by apply (simplifyIntIdentity_eval leaf) in Es.
Qed.

Lemma bridgeBin_preserves_witness :
  let x := Var "x" intRepr in
  let leaf := fun e => match e with Var _ _ => Ret (VI 41) | _ => Deopt end in
  bridgeBin OpMul x intRepr (Int 1) intRepr intRepr = (x, intRepr) /\
  evalExpr leaf (fst (bridgeBin OpMul x intRepr (Int 1) intRepr intRepr)) =
  evalExpr leaf (Bin OpMul x (Int 1)).
Proof.
  split; [reflexivity|].
  apply bridgeBin_preserves; [reflexivity|intros _ v [= <-]; eauto..].
Defined.
