(* ===== verification/GoSem.v ===== *)
(** * GoSem: the Go the static tier is emitted in

    The fragment of go/ast that src/pkg/emit builds and its meaning: values,
    block-scoped environments, expressions with the runtime helpers of
    src/pkg/runtime/statictier.go, and statements.  Loops run on fuel.  [None]
    is a program Go rejects or that panics (an undeclared name, a [:=] that
    declares nothing new, a division helper called with a zero divisor), or
    fuel that ran out. *)

From S2P Require Import Prelude Int64 StaticOps.
Local Open Scope Z_scope.

(** ** binary64 arithmetic *)

Definition prec : Z := 53.
Definition emax : Z := 1024.
Definition fadd : spec_float -> spec_float -> spec_float := SFadd prec emax.
Definition fsub : spec_float -> spec_float -> spec_float := SFsub prec emax.
Definition fmul : spec_float -> spec_float -> spec_float := SFmul prec emax.
Definition fdiv : spec_float -> spec_float -> spec_float := SFdiv prec emax.
Definition fzero : spec_float := S754_zero false.

(** [float64(z)]: the nearest binary64, ties to even. *)
Definition ofInt (z : Z) : spec_float := binary_normalize prec emax z 0 false.

(** The connectives of statictier.go on float64; [a != 0] is false for both
    zeros and true for NaN. *)
Definition OrFloat64 (a b : spec_float) : spec_float := if negb (SFeqb a fzero) then a else b.
Definition AndFloat64 (a b : spec_float) : spec_float := if SFeqb a fzero then a else b.

#[global] Arguments fadd : simpl never.
#[global] Arguments fsub : simpl never.
#[global] Arguments fmul : simpl never.
#[global] Arguments fdiv : simpl never.
#[global] Arguments ofInt : simpl never.
#[global] Arguments SFeqb : simpl never.
#[global] Arguments SFltb : simpl never.
#[global] Arguments SFleb : simpl never.

(** ** Values *)

(** A Python exception in the error channel: its type and message. *)
Record pyexc := mkExc { excType : string; excMsg : string }.

Inductive value :=
  | VInt (z : Z)
  | VFloat (f : spec_float)
  | VBool (b : bool)
  | VStr (s : string)
  | VList (l : list value)
  | VStruct (fs : list (string * value))
  | VNil
  | VErr (e : pyexc).

(** ** Syntax *)

Inductive token :=
  | ADD | SUB | MUL | QUO | AND | OR | XOR | LAND | LOR | NOT
  | EQL | NEQ | LSS | LEQ | GTR | GEQ
  | DEFINE | ASSIGN | ADD_ASSIGN | SUB_ASSIGN | MUL_ASSIGN | INC | DEC
  | BREAK | CONTINUE | ILLEGAL.

Inductive gexpr :=
  | GIdent (n : string)
  | GIntLit (z : Z)
  | GFloatLit (f : spec_float)
  | GStrLit (s : string)
  | GSel (x : gexpr) (n : string)
  | GCall (f : gexpr) (args : list gexpr)
  | GBinary (op : token) (x y : gexpr)
  | GUnary (op : token) (x : gexpr)
  | GParen (x : gexpr)
  | GIndex (x i : gexpr)
  | GComposite (ty : gexpr) (elts : list gexpr)
  | GKeyValue (k : string) (v : gexpr)
  | GArrayType (elt : gexpr)
  | GStar (x : gexpr)
  | GTypeAssert (x ty : gexpr).

Inductive gstmt :=
  | GAssign (lhs : list gexpr) (tok : token) (rhs : list gexpr)
  | GDecl (n : string) (ty : gexpr)
  | GIf (init : option gstmt) (cond : gexpr) (body : list gstmt) (els : option gstmt)
  | GFor (init : option gstmt) (cond : option gexpr) (post : option gstmt) (body : list gstmt)
  | GRange (key val : string) (x : gexpr) (body : list gstmt)
  | GIncDec (x : gexpr) (tok : token)
  | GReturn (results : list gexpr)
  | GBranch (tok : token)
  | GBlock (l : list gstmt).

(** ** Environments *)

(** One map per open block, innermost first. *)
Definition genv : Type := list (gmap string value).

Fixpoint glookup (x : string) (rho : genv) : option value :=
  match rho with
  | [] => None
  | f :: fs => match f !! x with Some v => Some v | None => glookup x fs end
  end.

(** [x = v]: the innermost declaration of [x]; the blank name takes anything. *)
Fixpoint gset1 (x : string) (v : value) (rho : genv) : option genv :=
  match rho with
  | [] => None
  | f :: fs =>
      match f !! x with
      | Some _ => Some (<[x := v]> f :: fs)
      | None => cons f <$> gset1 x v fs
      end
  end.

Definition gassign (x : string) (v : value) (rho : genv) : option genv :=
  if String.eqb x "_" then Some rho else gset1 x v rho.

Fixpoint gassigns (xs : list string) (vs : list value) (rho : genv) : option genv :=
  match xs, vs with
  | [], [] => Some rho
  | x :: xs, v :: vs => match gassign x v rho with Some r => gassigns xs vs r | None => None end
  | _, _ => None
  end.

Definition fresh (f : gmap string value) (x : string) : bool :=
  negb (String.eqb x "_") && bool_decide (f !! x = None).

Fixpoint gbindAll (xs : list string) (vs : list value) (f : gmap string value) :
    option (gmap string value) :=
  match xs, vs with
  | [], [] => Some f
  | x :: xs, v :: vs => gbindAll xs vs (if String.eqb x "_" then f else <[x := v]> f)
  | _, _ => None
  end.

(** [xs := vs] in the current block, which must declare at least one name. *)
Definition gdefine (xs : list string) (vs : list value) (rho : genv) : option genv :=
  match rho with
  | [] => None
  | f :: fs => if existsb (fresh f) xs then (fun f => f :: fs) <$> gbindAll xs vs f else None
  end.

(** ** Expressions *)

(** The comparison of two ordered values by an operator. *)
Definition cmpBy (op : token) (eq lt le : bool) : option value :=
  match op with
  | EQL => Some (VBool eq)
  | NEQ => Some (VBool (negb eq))
  | LSS => Some (VBool lt)
  | LEQ => Some (VBool le)
  | GTR => Some (VBool (negb le))
  | GEQ => Some (VBool (negb lt))
  | _ => None
  end.

(** Floats are only partially ordered: [>] and [>=] swap their operands. *)
Definition cmpFloat (op : token) (a b : spec_float) : option value :=
  match op with
  | EQL => Some (VBool (SFeqb a b))
  | NEQ => Some (VBool (negb (SFeqb a b)))
  | LSS => Some (VBool (SFltb a b))
  | LEQ => Some (VBool (SFleb a b))
  | GTR => Some (VBool (SFltb b a))
  | GEQ => Some (VBool (SFleb b a))
  | _ => None
  end.

Definition eqOnly (op : token) (eq : bool) : option value :=
  match op with EQL => Some (VBool eq) | NEQ => Some (VBool (negb eq)) | _ => None end.

Definition intTok (op : token) (a b : Z) : option value :=
  match op with
  | ADD => Some (VInt (wrap64 (a + b)))
  | SUB => Some (VInt (wrap64 (a - b)))
  | MUL => Some (VInt (wrap64 (a * b)))
  | AND => Some (VInt (Z.land a b))
  | OR => Some (VInt (Z.lor a b))
  | XOR => Some (VInt (Z.lxor a b))
  | _ => cmpBy op (a =? b) (a <? b) (a <=? b)
  end.

Definition floatTok (op : token) (a b : spec_float) : option value :=
  match op with
  | ADD => Some (VFloat (fadd a b))
  | SUB => Some (VFloat (fsub a b))
  | MUL => Some (VFloat (fmul a b))
  | QUO => Some (VFloat (fdiv a b))
  | _ => cmpFloat op a b
  end.

Definition strTok (op : token) (a b : string) : option value :=
  match op with
  | ADD => Some (VStr (a +:+ b))
  | _ => cmpBy op (String.eqb a b) (String.ltb a b) (String.leb a b)
  end.

Definition binTok (op : token) (v w : value) : option value :=
  match v, w with
  | VInt a, VInt b => intTok op a b
  | VFloat a, VFloat b => floatTok op a b
  | VStr a, VStr b => strTok op a b
  | VBool a, VBool b => eqOnly op (Bool.eqb a b)
  | VErr _, VNil => eqOnly op false
  | VNil, VNil => eqOnly op true
  | _, _ => None
  end.

(** The predeclared constants an identifier can name when no block declares it. *)
Definition universe (x : string) : option value :=
  if String.eqb x "true" then Some (VBool true)
  else if String.eqb x "false" then Some (VBool false)
  else if String.eqb x "nil" then Some VNil else None.

Definition resolve (x : string) (rho : genv) : option value :=
  match glookup x rho with Some v => Some v | None => universe x end.

(** The conversions and builtins the emitter uses. *)
Definition builtin (f : string) (vs : list value) : option value :=
  if String.eqb f "float64" then
    match vs with [VInt z] => Some (VFloat (ofInt z)) | [VFloat x] => Some (VFloat x) | _ => None end
  else if String.eqb f "int64" then match vs with [VInt z] => Some (VInt z) | _ => None end
  else if String.eqb f "len" then
    match vs with
    | [VList l] => Some (VInt (Z.of_nat (length l)))
    | [VStr s] => Some (VInt (Z.of_nat (String.length s)))
    | _ => None
    end
  else None.

(** The runtime helpers with one result.  The divisor of [FloorModInt64] is
    not zero: Go's [%] panics there. *)
Definition rtCall (f : string) (vs : list value) : option value :=
  match vs with
  | [VInt a; VInt b] =>
      if String.eqb f "FloorModInt64" then
        if b =? 0 then None else Some (VInt (FloorModInt64 a b))
      else if String.eqb f "RShiftInt64" then Some (VInt (RShiftInt64 a b))
      else if String.eqb f "OrInt64" then Some (VInt (OrInt64 a b))
      else if String.eqb f "AndInt64" then Some (VInt (AndInt64 a b))
      else None
  | [VFloat a; VFloat b] =>
      if String.eqb f "OrFloat64" then Some (VFloat (OrFloat64 a b))
      else if String.eqb f "AndFloat64" then Some (VFloat (AndFloat64 a b))
      else None
  | [VStr a; VStr b] =>
      if String.eqb f "OrStr" then Some (VStr (OrStr a b))
      else if String.eqb f "AndStr" then Some (VStr (AndStr a b))
      else None
  | [VBool b] => if String.eqb f "BoolToInt" then Some (VInt (BoolToInt b)) else None
  | [VStr m] =>
      if String.eqb f "ZeroDivisionError" || String.eqb f "ValueError"
      then Some (VErr (mkExc f m)) else None
  | _ => None
  end.

(** The overflow-reporting helpers: a value and the flag. *)
Definition withFlag (r : Z * bool) : value * value := (VInt r.1, VBool r.2).

Definition rtCall2 (f : string) (vs : list value) : option (value * value) :=
  match vs with
  | [VInt a; VInt b] =>
      if String.eqb f "AddInt64" then Some (withFlag (AddInt64 a b))
      else if String.eqb f "SubInt64" then Some (withFlag (SubInt64 a b))
      else if String.eqb f "MulInt64" then Some (withFlag (MulInt64 a b))
      else if String.eqb f "FloorDivInt64" then
        if b =? 0 then None else Some (withFlag (FloorDivInt64 a b))
      else if String.eqb f "PowInt64" then Some (withFlag (PowInt64 a b))
      else if String.eqb f "LShiftInt64" then Some (withFlag (LShiftInt64 a b))
      else None
  | _ => None
  end.

(** Constant expressions, which Go evaluates exactly at compile time. *)
Fixpoint isConst (e : gexpr) : bool :=
  match e with
  | GIntLit _ | GFloatLit _ | GStrLit _ => true
  | GParen x | GUnary _ x => isConst x
  | GBinary _ x y => isConst x && isConst y
  | GCall (GIdent f) [x] => (String.eqb f "float64" || String.eqb f "int64") && isConst x
  | _ => false
  end.

Definition arithTok (op : token) : bool :=
  match op with ADD | SUB | MUL | QUO => true | _ => false end.

(** A float literal is printed in its shortest decimal form, so a negative
    zero reads back as the constant 0, and an infinity or a NaN has no literal. *)
Definition litFloat (f : spec_float) : option value :=
  match f with
  | S754_zero _ => Some (VFloat fzero)
  | S754_finite _ _ _ => Some (VFloat f)
  | _ => None
  end.

Definition fieldOf (n : string) (v : value) : option value :=
  match v with
  | VStruct fs => snd <$> List.find (fun p => String.eqb (fst p) n) fs
  | _ => None
  end.

Definition indexOf (v i : value) : option value :=
  match v, i with
  | VList l, VInt z => if z <? 0 then None else l !! Z.to_nat z
  | _, _ => None
  end.

(** Expressions.  The exact arithmetic Go performs on constant float operands
    is not computed: an arithmetic operation on two of them has no value here. *)
Fixpoint eval (rho : genv) (e : gexpr) {struct e} : option value :=
  let evals := fix evals (l : list gexpr) : option (list value) :=
    match l with
    | [] => Some []
    | x :: l => v ← eval rho x; vs ← evals l; Some (v :: vs)
    end in
  match e with
  | GIdent x => resolve x rho
  | GIntLit z => Some (VInt z)
  | GFloatLit f => litFloat f
  | GStrLit s => Some (VStr s)
  | GSel x n => v ← eval rho x; fieldOf n v
  | GCall (GIdent f) args =>
      match glookup f rho with
      | Some _ => None
      | None => vs ← evals args; builtin f vs
      end
  | GCall (GSel (GIdent p) f) args =>
      if String.eqb p "rt" && bool_decide (glookup p rho = None)
      then vs ← evals args; rtCall f vs else None
  | GBinary LAND x y =>
      v ← eval rho x;
      match v with
      | VBool true => w ← eval rho y; match w with VBool b => Some (VBool b) | _ => None end
      | VBool false => Some (VBool false)
      | _ => None
      end
  | GBinary LOR x y =>
      v ← eval rho x;
      match v with
      | VBool false => w ← eval rho y; match w with VBool b => Some (VBool b) | _ => None end
      | VBool true => Some (VBool true)
      | _ => None
      end
  | GBinary op x y =>
      v ← eval rho x; w ← eval rho y;
      match v with
      | VFloat _ => if arithTok op && isConst x && isConst y then None else binTok op v w
      | _ => binTok op v w
      end
  | GUnary NOT x => v ← eval rho x; match v with VBool b => Some (VBool (negb b)) | _ => None end
  | GParen x => eval rho x
  | GIndex x i => v ← eval rho x; w ← eval rho i; indexOf v w
  | GComposite (GArrayType _) elts => VList <$> evals elts
  | GComposite (GIdent _) [] => Some (VStruct [])
  | _ => None
  end.

Fixpoint evals (rho : genv) (l : list gexpr) : option (list value) :=
  match l with
  | [] => Some []
  | x :: l => v ← eval rho x; vs ← evals rho l; Some (v :: vs)
  end.

(** ** Statements *)

(** How a statement ends: normally, at a jump, by returning values, or in a
    tail call that hands the function's work to another one. *)
Inductive gres :=
  | GNorm (rho : genv)
  | GBrk (rho : genv)
  | GCnt (rho : genv)
  | GRet (vs : list value)
  | GTail (f : string) (args : list value).

(** Leaving a block drops its map. *)
Definition gpop (r : gres) : gres :=
  match r with
  | GNorm rho => GNorm (tail rho)
  | GBrk rho => GBrk (tail rho)
  | GCnt rho => GCnt (tail rho)
  | r => r
  end.

Definition lhsNames : list gexpr -> option (list string) :=
  fix go l := match l with
  | [] => Some []
  | GIdent x :: l => xs ← go l; Some (x :: xs)
  | _ => None
  end.

Definition augOp (tok : token) : token :=
  match tok with ADD_ASSIGN => ADD | SUB_ASSIGN => SUB | MUL_ASSIGN => MUL | _ => ILLEGAL end.

(** The zero value of a declared variable. *)
Definition zeroOf (ty : gexpr) : value :=
  match ty with
  | GIdent t =>
      if String.eqb t "int64" then VInt 0
      else if String.eqb t "float64" then VFloat fzero
      else if String.eqb t "bool" then VBool false
      else if String.eqb t "string" then VStr ""
      else VStruct []
  | GArrayType _ => VList []
  | _ => VNil
  end.

Definition bindTok (tok : token) (xs : list string) (vs : list value) (rho : genv) : option genv :=
  match tok with
  | DEFINE => gdefine xs vs rho
  | ASSIGN => gassigns xs vs rho
  | _ => None
  end.

(** A loop: [cond] tested before each turn, [post] run after a turn that fell
    through or continued.  Each turn spends one unit of fuel. *)
Fixpoint gloop (k : nat) (cond : genv -> option bool) (body : genv -> option gres)
    (post : genv -> option gres) (rho : genv) : option gres :=
  match k with
  | O => None
  | S k =>
    b ← cond rho;
    if b : bool then
      r ← body rho;
      match r with
      | GNorm rho | GCnt rho =>
          p ← post rho; match p with GNorm rho => gloop k cond body post rho | _ => None end
      | GBrk rho => Some (GNorm rho)
      | r => Some r
      end
    else Some (GNorm rho)
  end.

(** [for key, val := range l]: one turn per element, in order. *)
Fixpoint grange (key val : string) (body : genv -> option gres) (i : nat) (l : list value)
    (rho : genv) : option gres :=
  match l with
  | [] => Some (GNorm rho)
  | v :: l =>
    r0 ← gdefine [key; val] [VInt (Z.of_nat i); v] (∅ :: rho);
    r ← body r0;
    match gpop r with
    | GNorm rho | GCnt rho => grange key val body (S i) l rho
    | GBrk rho => Some (GNorm rho)
    | r => Some r
    end
  end.

Section Exec.
(** The other static functions: a value, or an exception. *)
Context (callee : string -> list value -> value + pyexc).

(** A call with two results: an overflow-reporting helper, or a static
    function, whose results are its value and the error. *)
Definition call2 (rho : genv) (e : gexpr) : option (value * value) :=
  match e with
  | GCall (GSel (GIdent p) f) args =>
      if String.eqb p "rt" && bool_decide (glookup p rho = None)
      then vs ← evals rho args; rtCall2 f vs else None
  | GCall (GIdent f) args =>
      match glookup f rho with
      | Some _ => None
      | None =>
          vs ← evals rho args;
          Some (match callee f vs with inl v => (v, VNil) | inr e => (VNil, VErr e) end)
      end
  | _ => None
  end.

Definition execAssign (lhs : list gexpr) (tok : token) (rhs : list gexpr) (rho : genv) :
    option gres :=
  xs ← lhsNames lhs;
  match xs, rhs with
  | [_; _], [e] => p ← call2 rho e; GNorm <$> bindTok tok xs [p.1; p.2] rho
  | [x], [e] =>
      match tok with
      | ADD_ASSIGN | SUB_ASSIGN | MUL_ASSIGN =>
          v ← resolve x rho; w ← eval rho e; u ← binTok (augOp tok) v w;
          GNorm <$> gassign x u rho
      | _ => v ← eval rho e; GNorm <$> bindTok tok [x] [v] rho
      end
  | _, _ => vs ← evals rho rhs; GNorm <$> bindTok tok xs vs rho
  end.

Definition execReturn (rs : list gexpr) (rho : genv) : option gres :=
  match rs with
  | [GCall (GIdent f) args] =>
      match glookup f rho with
      | Some _ => None
      | None => vs ← evals rho args; Some (GTail f vs)
      end
  | _ => GRet <$> evals rho rs
  end.

Definition execIncDec (x : gexpr) (tok : token) (rho : genv) : option gres :=
  match x with
  | GIdent x =>
      v ← glookup x rho;
      match v, tok with
      | VInt z, INC => GNorm <$> gassign x (VInt (wrap64 (z + 1))) rho
      | VInt z, DEC => GNorm <$> gassign x (VInt (wrap64 (z - 1))) rho
      | _, _ => None
      end
  | _ => None
  end.

Definition evalCond (c : gexpr) (rho : genv) : option bool :=
  v ← eval rho c; match v with VBool b => Some b | _ => None end.

Fixpoint exec (n : nat) (s : gstmt) (rho : genv) {struct s} : option gres :=
  let execs := fix execs (l : list gstmt) (rho : genv) : option gres :=
    match l with
    | [] => Some (GNorm rho)
    | s :: l => r ← exec n s rho; match r with GNorm rho => execs l rho | r => Some r end
    end in
  let opt (o : option gstmt) (rho : genv) : option gres :=
    match o with None => Some (GNorm rho) | Some s => exec n s rho end in
  match s with
  | GAssign lhs tok rhs => execAssign lhs tok rhs rho
  | GDecl x ty => GNorm <$> gdefine [x] [zeroOf ty] rho
  | GReturn rs => execReturn rs rho
  | GIncDec x tok => execIncDec x tok rho
  | GBranch BREAK => Some (GBrk rho)
  | GBranch CONTINUE => Some (GCnt rho)
  | GBranch _ => None
  | GBlock l => gpop <$> execs l (∅ :: rho)
  | GIf init c body els =>
      r ← opt init (∅ :: rho);
      match r with
      | GNorm rho =>
          b ← evalCond c rho;
          gpop <$> (if b : bool then gpop <$> execs body (∅ :: rho) else opt els rho)
      | _ => None
      end
  | GFor init c post body =>
      r ← opt init (∅ :: rho);
      match r with
      | GNorm rho =>
          gpop <$> gloop n (fun rho => match c with Some c => evalCond c rho | None => Some true end)
            (fun rho => gpop <$> execs body (∅ :: rho)) (opt post) rho
      | _ => None
      end
  | GRange key val x body =>
      v ← eval rho x;
      match v with
      | VList l => grange key val (fun rho => gpop <$> execs body (∅ :: rho)) 0 l rho
      | _ => None
      end
  end.

Fixpoint execs (n : nat) (l : list gstmt) (rho : genv) : option gres :=
  match l with
  | [] => Some (GNorm rho)
  | s :: l => r ← exec n s rho; match r with GNorm rho => execs n l rho | r => Some r end
  end.

(** ** Functions *)

(** A declared static function: its name, its parameters and its body.  The
    parameters live in the body's own block, above the package's variables. *)
Record goFunc := mkGoFunc { gfName : string; gfParams : list (string * gexpr);
  gfResults : list gexpr; gfBody : list gstmt }.

Definition runFunc (n : nat) (globals : gmap string value) (f : goFunc) (args : list value) :
    option gres :=
  frame ← gbindAll (map fst (gfParams f)) args ∅;
  execs n (gfBody f) [frame; globals].
End Exec.
