(* ===== verification/FloatFacts.v ===== *)
(** * FloatFacts: rounding an integer to binary64

    The conversion of a non-zero int never rounds to a zero, so the static
    tier's check of a converted divisor against 0.0 is Python's check of the
    int. *)

From S2P Require Import Prelude Int64 StaticOps GoSem.
Local Open Scope Z_scope.

Lemma shr_1_pos m r s : 0 <= m -> shr_m (shr_1 (Build_shr_record m r s)) = m / 2.
Proof.
  intros Hm. destruct m as [|p|p]; [done| |lia].
  destruct p as [p|p|]; simpl; [..|done];
    [apply (Z.div_unique_pos _ 2 _ 1)|apply (Z.div_unique_pos _ 2 _ 0)]; lia.
Qed.

Lemma iter_shr p mrs : 0 <= shr_m mrs -> shr_m (iter_pos shr_1 p mrs) = shr_m mrs / 2 ^ Zpos p.
Proof.
  revert mrs. induction p as [p IH|p IH|]; intros mrs Hm; cbn [iter_pos].
  1, 2: assert (0 < 2 ^ Zpos p) as Hp by (by apply Z.pow_pos_nonneg).
  - destruct mrs as [m r s]. set (q := shr_1 _). assert (shr_m q = m / 2) as Eq by (by apply shr_1_pos).
    assert (0 <= shr_m q) by (rewrite Eq; apply Z.div_pos; simpl in *; lia).
    rewrite IH, IH; [|done|rewrite IH by done; apply Z.div_pos; [lia|by apply Z.pow_pos_nonneg]]. rewrite Eq. cbn [shr_m].
    rewrite !Z.div_div by lia. f_equal. rewrite Pos2Z.inj_xI.
    replace (2 * Zpos p + 1) with (Zpos p + Zpos p + 1) by lia. rewrite !Z.pow_add_r by lia. lia.
  - rewrite IH, IH; [|done|rewrite IH by done; apply Z.div_pos; [lia|by apply Z.pow_pos_nonneg]].
    rewrite !Z.div_div by lia. rewrite <- Z.pow_add_r by lia.
    by replace (Zpos p + Zpos p) with (Zpos p~0) by lia.
  - destruct mrs as [m r s]. by apply shr_1_pos.
Qed.

Lemma digits_bound p : 2 ^ (Zpos (digits2_pos p) - 1) <= Zpos p.
Proof.
  induction p as [p IH|p IH|]; simpl digits2_pos; [..|done];
    rewrite Pos2Z.inj_succ, Z.sub_1_r, Z.pred_succ;
    replace (Zpos (digits2_pos p)) with (1 + (Zpos (digits2_pos p) - 1)) by lia;
    rewrite Z.pow_add_r by lia; lia.
Qed.

(** Shifting to the precision keeps the leading bit. *)
Lemma shr_fexp_pos m e l :
  0 < m -> emin prec emax <= e ->
  let '(mrs, e') := shr_fexp prec emax m e l in 0 < shr_m mrs /\ emin prec emax <= e'.
Proof.
  intros Hm He. unfold shr_fexp, shr, fexp. destruct m as [|p|]; [lia| |lia]. simpl Zdigits2.
  assert (shr_m (shr_record_of_loc (Zpos p) l) = Zpos p) as Em by (by destruct l as [|[]]).
  destruct (Z.max _ _ - e) as [|n|n] eqn:En; [by rewrite Em| |by rewrite Em].
  rewrite iter_shr, Em by (rewrite Em; lia). split; [|lia].
  assert (Zpos n <= Zpos (digits2_pos p) - prec) by lia.
  apply Z.div_str_pos. split; [lia|]. etrans; [|apply digits_bound].
  apply Z.pow_le_mono_r; [done|]. unfold prec in *. lia.
Qed.

Lemma round_pos m l : 0 < m -> 0 < round_nearest_even m l.
Proof. intros Hm. destruct l as [|[]]; simpl; [done| |done|lia]. destruct (Z.even m); lia. Qed.

Lemma binary_round_nonzero s p : SFeqb (binary_round prec emax s p 0) fzero = false.
Proof.
  unfold binary_round. destruct (shl_align _ _ _) as [mz ez] eqn:E.
  assert (emin prec emax <= ez) as He.
  { unfold shl_align in E. destruct (fexp _ _ _ - 0) as [|d|d] eqn:Ed; injection E as _ <-;
      unfold fexp in *; unfold emin, prec, emax in *; lia. }
  unfold binary_round_aux. pose proof (shr_fexp_pos (Zpos mz) ez loc_Exact eq_refl He) as H1.
  destruct (shr_fexp prec emax (Zpos mz) ez loc_Exact) as [m1 e1]. destruct H1 as [H1 He1].
  pose proof (shr_fexp_pos _ e1 loc_Exact (round_pos _ (loc_of_shr_record m1) H1) He1) as H2.
  destruct (shr_fexp prec emax _ e1 loc_Exact) as [m2 e2]. destruct H2 as [H2 _].
  destruct (shr_m m2); [lia| |lia]. destruct (e2 <=? emax - prec); by destruct s.
Qed.

Lemma ofInt_nonzero z : z <> 0 -> SFeqb (ofInt z) fzero = false.
Proof. unfold ofInt. destruct z; [done|..]; intros _; apply binary_round_nonzero. Qed.
