(* ===== verification/Emit.v ===== *)
(** * Emit: the static tier's code generator

    Model of src/pkg/emit (emit.go, expr.go, cmp.go, call.go, stmt.go, func.go
    and the helpers of repr.go): the builder with its counters and its pending
    guard statements, the lowering of every expression and statement node, the
    deopt edges, and the assembly of a function.  The output is the syntax tree
    of [GoSem]; printing it is not modelled.  A refusal is a value of
    [emitErr], one constructor per error message. *)

From S2P Require Import Prelude Int64 StaticOps GoSem.
Local Open Scope Z_scope.

(** ** emit.go: node builders *)

Definition runtimePkg : string := "rt".
Definition ident (n : string) : gexpr := GIdent n.
Definition sel (pkg name : string) : gexpr := GSel (GIdent pkg) name.
Definition callExpr (fn : gexpr) (args : list gexpr) : gexpr := GCall fn args.
Definition intLit (v : Z) : gexpr := GIntLit v.
Definition floatLit (v : spec_float) : gexpr := GFloatLit v.
Definition strLit (s : string) : gexpr := GStrLit s.
Definition binary (op : token) (x y : gexpr) : gexpr := GBinary op x y.
Definition paren (x : gexpr) : gexpr := GParen x.
Definition define (n : string) (rhs : gexpr) : gstmt := GAssign [ident n] DEFINE [rhs].
Definition setStmt (lhs rhs : gexpr) : gstmt := GAssign [lhs] ASSIGN [rhs].
Definition augAssign (n : string) (op : Op) (rhs : gexpr) : gstmt :=
  GAssign [ident n] (match op with OpSub => SUB_ASSIGN | OpMul => MUL_ASSIGN | _ => ADD_ASSIGN end) [rhs].
Definition ifStmt (cond : gexpr) (body : list gstmt) : gstmt := GIf None cond body None.
Definition ret (results : list gexpr) : gstmt := GReturn results.

(** ** Operators and representations *)

Definition helper (o : Op) : string :=
  match o with OpAdd => "AddInt64" | OpSub => "SubInt64" | OpMul => "MulInt64" | _ => "" end.

Definition tok (o : Op) : token :=
  match o with
  | OpAdd => ADD | OpSub => SUB | OpMul => MUL | OpDiv => QUO
  | OpBitAnd => AND | OpBitOr => OR | OpBitXor => XOR
  | _ => ILLEGAL
  end.

Definition cmpTok (o : CmpOp) : token :=
  match o with
  | CmpLt => LSS | CmpLe => LEQ | CmpGt => GTR | CmpGe => GEQ | CmpEq => EQL | CmpNe => NEQ
  end.

Definition ordered (o : CmpOp) : bool := match o with CmpEq | CmpNe => false | _ => true end.

Definition floatRepr : Repr := mkRepr "float64" SFloat None None.
Definition strRepr : Repr := mkRepr "string" SStr None None.

Definition isScalar (s : Scalar) (r : Repr) : bool := bool_decide (RScalar r = s).
Definition arith (r : Repr) : bool := isScalar SInt r || isScalar SFloat r.
Definition numeric (r : Repr) : bool := isScalar SInt r || isScalar SFloat r || isScalar SBool r.

(** [Shape.Field]: the first field of that name. *)
Definition Field (s : Shape Repr) (name : string) : option Repr :=
  sfRepr Repr <$> List.find (fun f => String.eqb (sfName Repr f) name) (shFields Repr s).

Fixpoint goType (r : Repr) : gexpr :=
  match Elem r with Some e => GArrayType (goType e) | None => ident (Go r) end.

Definition zero (r : Repr) : gexpr :=
  match RScalar r with
  | SFloat => floatLit fzero
  | SInt => intLit 0
  | SBool => ident "false"
  | SStr => strLit ""
  | NotScalar =>
      match RShape r with
      | Some s => GComposite (ident (shName Repr s)) []
      | None => ident "nil"
      end
  end.

(** ** func.go: the builder *)

Record resumeFrame := mkFrame { handler : string; rargs : list gexpr }.

Record Builder := mkBuilder {
  fn : string;
  params : list string;
  bret : Repr;
  deopt : string;
  deoptUsed : bool;
  nTmp : nat;
  nFlag : nat;
  nErr : nat;
  nDeopt : nat;
  genDeopt : bool;
  pre : list gstmt;
  resume : list resumeFrame
}.

Inductive emitErr :=
  | ErrStrings (op : Op)
  | ErrNumeric (op : Op) (l r : Scalar)
  | ErrFloatOperand (op : Op)
  | ErrListItem (i : nat) (got want : string)
  | ErrNotShape (go : string)
  | ErrNoField (shape field : string)
  | ErrNotList (go : string)
  | ErrIndexRepr (go : string)
  | ErrCompare (op : CmpOp) (l r : Scalar)
  | ErrRaisingOperand (conn : string)
  | ErrConnective (l r : Scalar)
  | ErrNot (s : Scalar)
  | ErrBindArity (names values : nat)
  | ErrRangeOperand (go : string)
  | ErrTruthiness (s : Scalar)
  | ErrYieldScalar (got want : Scalar)
  | ErrGenGuard (name : string).

(** Building code: a builder threaded through, or a refusal. *)
Definition EM (A : Type) : Type := Builder -> (A * Builder) + emitErr.
Definition eret {A} (a : A) : EM A := fun b => inl (a, b).
Definition efail {A} (e : emitErr) : EM A := fun _ => inr e.
Definition ebind {A B} (m : EM A) (f : A -> EM B) : EM B := fun b =>
  match m b with inl (a, b) => f a b | inr e => inr e end.

Declare Scope emit_scope.
Delimit Scope emit_scope with emit.
Notation "x <- m ;; k" := (ebind m (fun x => k%emit))
  (at level 100, m at next level, right associativity) : emit_scope.
Notation "' p <- m ;; k" := (ebind m (fun p => k%emit))
  (at level 100, p pattern, m at next level, right associativity) : emit_scope.
Local Open Scope emit_scope.

Definition itoaN (n : nat) : string := itoa (Z.of_nat n).
Definition tmpName (n : nat) : string := "t" +:+ itoaN n.
Definition flagName (n : nat) : string := "ovf" +:+ itoaN n.
Definition excName (n : nat) : string := "exc" +:+ itoaN n.
Definition deoptParam (i : nat) : string := "d" +:+ itoaN i.

Definition temp : EM string := fun b =>
  inl (tmpName (nTmp b),
    mkBuilder (fn b) (params b) (bret b) (deopt b) (deoptUsed b) (S (nTmp b)) (nFlag b) (nErr b)
      (nDeopt b) (genDeopt b) (pre b) (resume b)).

Definition flag : EM string := fun b =>
  inl (flagName (nFlag b),
    mkBuilder (fn b) (params b) (bret b) (deopt b) (deoptUsed b) (nTmp b) (S (nFlag b)) (nErr b)
      (nDeopt b) (genDeopt b) (pre b) (resume b)).

Definition errName : EM string := fun b =>
  inl (excName (nErr b),
    mkBuilder (fn b) (params b) (bret b) (deopt b) (deoptUsed b) (nTmp b) (nFlag b) (S (nErr b))
      (nDeopt b) (genDeopt b) (pre b) (resume b)).

(** [b.pre = append(b.pre, ...)] *)
Definition append_ (ss : list gstmt) : EM unit := fun b =>
  inl (tt, mkBuilder (fn b) (params b) (bret b) (deopt b) (deoptUsed b) (nTmp b) (nFlag b) (nErr b)
    (nDeopt b) (genDeopt b) (pre b ++ ss) (resume b)).

Definition flush : EM (list gstmt) := fun b =>
  inl (pre b, mkBuilder (fn b) (params b) (bret b) (deopt b) (deoptUsed b) (nTmp b) (nFlag b)
    (nErr b) (nDeopt b) (genDeopt b) [] (resume b)).

Definition bget : EM Builder := fun b => inl (b, b).

Definition useDeopt : EM unit := fun b =>
  inl (tt, mkBuilder (fn b) (params b) (bret b) (deopt b) true (nTmp b) (nFlag b) (nErr b)
    (nDeopt b) (genDeopt b) (pre b) (resume b)).

Definition nextDeopt : EM nat := fun b =>
  inl (nDeopt b, mkBuilder (fn b) (params b) (bret b) (deopt b) (deoptUsed b) (nTmp b) (nFlag b)
    (nErr b) (S (nDeopt b)) (genDeopt b) (pre b) (resume b)).

Definition setResume (rs : list resumeFrame) : EM unit := fun b =>
  inl (tt, mkBuilder (fn b) (params b) (bret b) (deopt b) (deoptUsed b) (nTmp b) (nFlag b) (nErr b)
    (nDeopt b) (genDeopt b) (pre b) rs).

(** The entry snapshots, in parameter order. *)
Definition snapshots (b : Builder) : list gexpr :=
  map (fun i => ident (deoptParam i)) (seq 0 (length (params b))).

Definition deoptEdge : EM gstmt :=
  b <- bget ;;
  if genDeopt b then
    _ <- useDeopt ;;
    eret (ret [zero (bret b); ident "false"; sel "objects" "DeoptSignal"])
  else
    match last (resume b) with
    | Some f => _ <- useDeopt ;; eret (ret [callExpr (ident (handler f)) (rargs f)])
    | None =>
      if String.eqb (deopt b) "" then
        k <- nextDeopt ;;
        eret (ret [callExpr (ident (fn b +:+ "_deopt" +:+ itoaN k)) (map ident (params b))])
      else
        _ <- useDeopt ;;
        eret (ret [callExpr (ident (deopt b)) (snapshots b)])
    end.

(** ** expr.go: expressions *)

Definition toInt (x : gexpr) (r : Repr) : gexpr :=
  if isScalar SBool r then callExpr (sel runtimePkg "BoolToInt") [x] else x.

Definition toFloat (x : gexpr) (r : Repr) : gexpr :=
  match RScalar r with
  | SInt => callExpr (ident "float64") [x]
  | SBool => callExpr (ident "float64") [toInt x r]
  | _ => x
  end.

(** [if cond { return <zero>, rt.Exc("msg") }] *)
Definition raiseIf (cond : gexpr) (exc msg : string) : EM unit :=
  b <- bget ;;
  append_ [ifStmt cond [ret [zero (bret b); callExpr (sel runtimePkg exc) [strLit msg]]]].

Definition guardZeroDiv (divisor : gexpr) : EM unit :=
  raiseIf (binary EQL divisor (floatLit fzero)) "ZeroDivisionError" "division by zero".
Definition guardZeroDivInt (divisor : gexpr) : EM unit :=
  raiseIf (binary EQL divisor (intLit 0)) "ZeroDivisionError" "division by zero".
Definition guardNegShift (count : gexpr) : EM unit :=
  raiseIf (binary LSS count (intLit 0)) "ValueError" "negative shift count".

(** [val, ovf := rt.Helper(x, y); if ovf { deopt }], the value's name. *)
Definition guardedCall (h : string) (lx rx : gexpr) : EM (gexpr * Repr) :=
  val <- temp ;; ovf <- flag ;; edge <- deoptEdge ;;
  _ <- append_ [GAssign [ident val; ident ovf] DEFINE [callExpr (sel runtimePkg h) [lx; rx]];
                ifStmt (ident ovf) [edge]] ;;
  eret (ident val, intRepr).

Definition anyFloat (lr rr : Repr) : bool := isScalar SFloat lr || isScalar SFloat rr.

(** [lowerBin] after its operands are lowered. *)
Definition lowerBinOps (op : Op) (lx : gexpr) (lr : Repr) (rx : gexpr) (rr : Repr) :
    EM (gexpr * Repr) :=
  let li := toInt lx lr in
  let ri := toInt rx rr in
  if isScalar SStr lr || isScalar SStr rr then
    if negb (bool_decide (op = OpAdd)) || negb (isScalar SStr lr) || negb (isScalar SStr rr)
    then efail (ErrStrings op) else eret (binary ADD lx rx, strRepr)
  else if negb (numeric lr) || negb (numeric rr) then
    efail (ErrNumeric op (RScalar lr) (RScalar rr))
  else match op with
  | OpDiv =>
      let lf := toFloat lx lr in
      let rf := toFloat rx rr in
      _ <- guardZeroDiv rf ;; eret (binary QUO lf rf, floatRepr)
  | OpFloorDiv =>
      if anyFloat lr rr then efail (ErrFloatOperand op)
      else _ <- guardZeroDivInt ri ;; guardedCall "FloorDivInt64" li ri
  | OpMod =>
      if anyFloat lr rr then efail (ErrFloatOperand op)
      else _ <- guardZeroDivInt ri ;;
           eret (callExpr (sel runtimePkg "FloorModInt64") [li; ri], intRepr)
  | OpPow =>
      if anyFloat lr rr then efail (ErrFloatOperand op) else guardedCall "PowInt64" li ri
  | OpBitAnd | OpBitOr | OpBitXor =>
      if anyFloat lr rr then efail (ErrFloatOperand op)
      else eret (binary (tok op) li ri, intRepr)
  | OpLShift =>
      if anyFloat lr rr then efail (ErrFloatOperand op)
      else _ <- guardNegShift ri ;; guardedCall "LShiftInt64" li ri
  | OpRShift =>
      if anyFloat lr rr then efail (ErrFloatOperand op)
      else _ <- guardNegShift ri ;;
           eret (callExpr (sel runtimePkg "RShiftInt64") [li; ri], intRepr)
  | OpAdd | OpSub | OpMul =>
      if anyFloat lr rr then eret (binary (tok op) (toFloat lx lr) (toFloat rx rr), floatRepr)
      else guardedCall (helper op) li ri
  end.

(** ** cmp.go: comparisons and connectives *)

Fixpoint HasRaisingGuard (e : Expr) : bool :=
  match e with
  | Bin OpDiv _ _ => true
  | Bin _ l r | Cmp _ l r | And l r | Or l r => HasRaisingGuard l || HasRaisingGuard r
  | Not x => HasRaisingGuard x
  | _ => false
  end.

Definition connName (op : token) : string := match op with LOR => "or" | _ => "and" end.

Definition valueConnHelper (op : token) (s : Scalar) : option string :=
  let kind := match op with LOR => "Or" | _ => "And" end in
  match s with
  | SInt => Some (kind +:+ "Int64")
  | SFloat => Some (kind +:+ "Float64")
  | SStr => Some (kind +:+ "Str")
  | _ => None
  end.

Definition parenConn (x : gexpr) : gexpr :=
  match x with GBinary LAND _ _ | GBinary LOR _ _ => paren x | _ => x end.

Definition sameScalar (a b : Repr) : bool := bool_decide (RScalar a = RScalar b).

Definition lowerCmpOps (op : CmpOp) (lx : gexpr) (lr : Repr) (rx : gexpr) (rr : Repr) :
    EM (gexpr * Repr) :=
  if arith lr && arith rr then
    if anyFloat lr rr then eret (binary (cmpTok op) (toFloat lx lr) (toFloat rx rr), boolRepr)
    else eret (binary (cmpTok op) lx rx, boolRepr)
  else if (isScalar SStr lr && isScalar SStr rr) ||
          (isScalar SBool lr && isScalar SBool rr && negb (ordered op))
  then eret (binary (cmpTok op) lx rx, boolRepr)
  else efail (ErrCompare op (RScalar lr) (RScalar rr)).

Definition lowerBoolOps (op : token) (r : Expr) (lx : gexpr) (lr : Repr) (rx : gexpr) (rr : Repr) :
    EM (gexpr * Repr) :=
  if HasRaisingGuard r then efail (ErrRaisingOperand (connName op))
  else if isScalar SBool lr && isScalar SBool rr then
    eret (binary op (parenConn lx) (parenConn rx), boolRepr)
  else
    match (if sameScalar lr rr then valueConnHelper op (RScalar lr) else None) with
    | Some name => eret (callExpr (sel runtimePkg name) [lx; rx], lr)
    | None => efail (ErrConnective (RScalar lr) (RScalar rr))
    end.

Definition lowerNotOp (x : gexpr) (xr : Repr) : EM (gexpr * Repr) :=
  if negb (isScalar SBool xr) then efail (ErrNot (RScalar xr))
  else eret (GUnary NOT (match x with GBinary _ _ _ => paren x | _ => x end), boolRepr).

(** ** The aggregates *)

Definition listRepr (elem : Repr) : Repr := mkRepr ("[]" +:+ Go elem) NotScalar (Some elem) None.

Definition coerceItem (elem : Repr) (i : nat) (ix : gexpr) (ir : Repr) : EM gexpr :=
  if sameScalar ir elem then eret ix
  else if isScalar SFloat elem && numeric ir then eret (toFloat ix ir)
  else efail (ErrListItem i (Go ir) (Go elem)).

Definition lowerAttrOf (name : string) (bx : gexpr) (br : Repr) : EM (gexpr * Repr) :=
  match RShape br with
  | None => efail (ErrNotShape (Go br))
  | Some s =>
      match Field s name with
      | None => efail (ErrNoField (shName Repr s) name)
      | Some fr => eret (GSel bx name, fr)
      end
  end.

Definition lowerIndexOf (bx : gexpr) (elem : Repr) (ix : gexpr) (ir : Repr) : EM (gexpr * Repr) :=
  if negb (isScalar SInt ir) then efail (ErrIndexRepr (Go ir))
  else
    base <- temp ;; idx <- temp ;; edge <- deoptEdge ;;
    let oob := binary LOR (binary LSS (ident idx) (intLit 0))
      (binary GEQ (ident idx) (callExpr (ident "int64") [callExpr (ident "len") [ident base]])) in
    _ <- append_ [define base bx; define idx ix; ifStmt oob [edge]] ;;
    eret (GIndex (ident base) (ident idx), elem).

(** [val, exc := name(args); if exc != nil { return <zero>, exc }] *)
Definition lowerCallOf (name : string) (args : list gexpr) (r : Repr) : EM (gexpr * Repr) :=
  val <- temp ;; exc <- errName ;; b <- bget ;;
  _ <- append_ [GAssign [ident val; ident exc] DEFINE [callExpr (ident name) args];
                ifStmt (binary NEQ (ident exc) (ident "nil")) [ret [zero (bret b); ident exc]]] ;;
  eret (ident val, r).

(** ** The expression lowering *)

Definition genRecv : string := "g".

Fixpoint lowerExpr (e : Expr) : EM (gexpr * Repr) :=
  match e with
  | Var x r => eret (ident x, r)
  | Recv x r => eret (sel genRecv x, r)
  | Int v => eret (intLit v, intRepr)
  | Float v => eret (floatLit v, floatRepr)
  | Bool v => eret (ident (if v then "true" else "false"), boolRepr)
  | Str v => eret (strLit v, strRepr)
  | Bin op l r =>
      '(lx, lr) <- lowerExpr l ;; '(rx, rr) <- lowerExpr r ;; lowerBinOps op lx lr rx rr
  | Cmp op l r =>
      '(lx, lr) <- lowerExpr l ;; '(rx, rr) <- lowerExpr r ;; lowerCmpOps op lx lr rx rr
  | And l r =>
      '(lx, lr) <- lowerExpr l ;; '(rx, rr) <- lowerExpr r ;; lowerBoolOps LAND r lx lr rx rr
  | Or l r =>
      '(lx, lr) <- lowerExpr l ;; '(rx, rr) <- lowerExpr r ;; lowerBoolOps LOR r lx lr rx rr
  | Not x => '(gx, xr) <- lowerExpr x ;; lowerNotOp gx xr
  | Index base idx =>
      '(bx, br) <- lowerExpr base ;;
      match Elem br with
      | None => efail (ErrNotList (Go br))
      | Some elem => '(ix, ir) <- lowerExpr idx ;; lowerIndexOf bx elem ix ir
      end
  | Attr base name => '(bx, br) <- lowerExpr base ;; lowerAttrOf name bx br
  | ListLit elem items =>
      elts <- (fix go (i : nat) (l : list Expr) : EM (list gexpr) :=
        match l with
        | [] => eret []
        | it :: l =>
            '(ix, ir) <- lowerExpr it ;; x <- coerceItem elem i ix ir ;; xs <- go (S i) l ;;
            eret (x :: xs)
        end) 0%nat items ;;
      eret (GComposite (goType (listRepr elem)) elts, listRepr elem)
  | GenNew ty fields =>
      elts <- (fix go (l : list (string * Expr)) : EM (list gexpr) :=
        match l with
        | [] => eret []
        | (n, v) :: l => '(x, _) <- lowerExpr v ;; xs <- go l ;; eret (GKeyValue n x :: xs)
        end) fields ;;
      eret (GUnary AND (GComposite (ident ty) elts), mkRepr ("*" +:+ ty) NotScalar None None)
  | Call name args r =>
      xs <- (fix go (l : list Expr) : EM (list gexpr) :=
        match l with
        | [] => eret []
        | a :: l => '(x, _) <- lowerExpr a ;; xs <- go l ;; eret (x :: xs)
        end) args ;;
      lowerCallOf name xs r
  end.

(** The argument and item walks, by name. *)
Fixpoint lowerArgs (l : list Expr) : EM (list gexpr) :=
  match l with
  | [] => eret []
  | a :: l => '(x, _) <- lowerExpr a ;; xs <- lowerArgs l ;; eret (x :: xs)
  end.

Fixpoint lowerItems (elem : Repr) (i : nat) (l : list Expr) : EM (list gexpr) :=
  match l with
  | [] => eret []
  | it :: l =>
      '(ix, ir) <- lowerExpr it ;; x <- coerceItem elem i ix ir ;; xs <- lowerItems elem (S i) l ;;
      eret (x :: xs)
  end.

(** ** stmt.go: statements *)

Record ResumeInfo := mkResume { Handler : string; Carried : list string }.

Inductive Stmt :=
  | Define (Name : string) (Value : Expr)
  | AugAssign (Name : string) (O : Op) (R : Repr) (Value : Expr)
  | Assign (Name : string) (Value : Expr)
  | VarDecl (Name : string) (R : Repr)
  | Bind (Names : list string) (Values : list Expr) (Def : bool)
  | Return (Value : Expr)
  | ForRange (Bnd Idx : string) (Over : Expr) (Body : list Stmt)
  | ForGen (Bnd : string) (ElemR : Repr) (Gen : Expr) (Body : list Stmt) (Dpt : bool)
  | ForCount (V : string) (Start Stop : Expr) (Down : bool) (Body : list Stmt)
      (Rsm : option ResumeInfo)
  | While (Cond : Expr) (Body : list Stmt)
  | Break
  | Continue
  | If (Cond : Expr) (Then Else : list Stmt)
  | Discard (Value : Expr).

Definition genDone : string := "done".
Definition genErr : string := "err".
Definition enumRawIndex : string := "gi".

Definition truthyExpr (x : gexpr) (r : Repr) : EM gexpr :=
  match RScalar r with
  | SBool => eret x
  | SInt => eret (binary NEQ x (intLit 0))
  | SFloat => eret (binary NEQ x (floatLit fzero))
  | SStr => eret (binary NEQ x (strLit ""))
  | NotScalar =>
      match Elem r with
      | Some _ => eret (binary NEQ (callExpr (ident "len") [x]) (intLit 0))
      | None => efail (ErrTruthiness NotScalar)
      end
  end.

Definition soleIf (ss : list gstmt) : option gstmt :=
  match ss with [GIf i c b e] => Some (GIf i c b e) | _ => None end.

(** An untyped int literal is pinned to int64 where [:=] would infer int. *)
Definition pinInt (x : gexpr) (r : Repr) : gexpr :=
  if isScalar SInt r then match x with GIntLit _ => callExpr (ident "int64") [x] | _ => x end else x.

Fixpoint lowerValues (pin : bool) (l : list Expr) : EM (list gexpr) :=
  match l with
  | [] => eret []
  | v :: l =>
      '(x, xr) <- lowerExpr v ;; xs <- lowerValues pin l ;;
      eret ((if pin then pinInt x xr else x) :: xs)
  end.

(** The statement followed by nothing, its guards ahead of it. *)
Definition flushed (s : list gstmt) : EM (list gstmt) := g <- flush ;; eret (g ++ s).

(** The arguments a resume-enabled loop hands its twin. *)
Definition resumeArgs (v : string) (ri : ResumeInfo) (b : Builder) : list gexpr :=
  ident v :: map ident (Carried ri) ++ snapshots b.

Definition pushResume (v : string) (o : option ResumeInfo) : EM unit :=
  match o with
  | None => eret tt
  | Some ri => b <- bget ;; setResume (resume b ++ [mkFrame (Handler ri) (resumeArgs v ri b)])
  end.

Definition popResume (o : option ResumeInfo) : EM unit :=
  match o with None => eret tt | Some _ => b <- bget ;; setResume (removelast (resume b)) end.

(** The check of the error a driven generator's Next returned. *)
Definition genErrCheck (dpt : bool) : EM gstmt :=
  let isErr := binary NEQ (ident genErr) (ident "nil") in
  b <- bget ;;
  let propagate := ret [zero (bret b); ident genErr] in
  if dpt then
    edge <- deoptEdge ;;
    let assert := GTypeAssert (ident genErr) (GStar (sel "objects" "Deopt")) in
    eret (ifStmt isErr [GIf (Some (GAssign [ident "_"; ident "ok"] DEFINE [assert])) (ident "ok")
                          [edge] None; propagate])
  else eret (ifStmt isErr [propagate]).

Fixpoint lowerStmt (s : Stmt) : EM (list gstmt) :=
  let lowerBlock := fix lowerBlock (l : list Stmt) : EM (list gstmt) :=
    match l with
    | [] => eret []
    | s :: l => ss <- lowerStmt s ;; rest <- lowerBlock l ;; eret (ss ++ rest)
    end in
  match s with
  | Define x v => '(gx, xr) <- lowerExpr v ;; flushed [define x (pinInt gx xr)]
  | Assign x v => '(gx, _) <- lowerExpr v ;; flushed [setStmt (ident x) gx]
  | VarDecl x r => flushed [GDecl x (goType r)]
  | Bind xs vs def =>
      if negb (Nat.eqb (length xs) (length vs)) then efail (ErrBindArity (length xs) (length vs))
      else rhs <- lowerValues def vs ;;
           flushed [GAssign (map ident xs) (if def then DEFINE else ASSIGN) rhs]
  | AugAssign x op r v =>
      if isScalar SFloat r then
        '(gx, xr) <- lowerExpr v ;;
        flushed [augAssign x op (if isScalar SFloat xr then gx else toFloat gx xr)]
      else
        '(gx, _) <- lowerExpr (Bin op (Var x r) v) ;; flushed [setStmt (ident x) gx]
  | Discard (Call name args _) =>
      xs <- lowerArgs args ;; exc <- errName ;; b <- bget ;;
      flushed [GAssign [ident "_"; ident exc] DEFINE [callExpr (ident name) xs];
               ifStmt (binary NEQ (ident exc) (ident "nil")) [ret [zero (bret b); ident exc]]]
  | Discard v => '(gx, _) <- lowerExpr v ;; flushed [setStmt (ident "_") gx]
  | Return v => '(gx, _) <- lowerExpr v ;; flushed [ret [gx; ident "nil"]]
  | ForRange bnd idx over body =>
      '(ox, or) <- lowerExpr over ;;
      match Elem or with
      | None => efail (ErrRangeOperand (Go or))
      | Some _ =>
          body <- lowerBlock body ;;
          flushed [if String.eqb idx "" then GRange "_" bnd ox body
                   else GRange enumRawIndex bnd ox
                     (define idx (callExpr (ident "int64") [ident enumRawIndex]) :: body)]
      end
  | ForGen bnd _ gen body dpt =>
      '(gx, _) <- lowerExpr gen ;; guards <- flush ;; body <- lowerBlock body ;;
      errCheck <- genErrCheck dpt ;;
      let next := GAssign [ident bnd; ident genDone; ident genErr] DEFINE
        [callExpr (GSel gx "Next") []] in
      let doneCheck := ifStmt (ident genDone) [GBranch BREAK] in
      eret (guards ++ [GFor None None None (next :: errCheck :: doneCheck :: body)])
  | ForCount v start stop down body rsm =>
      '(sx, sr) <- lowerExpr start ;; '(ex, _) <- lowerExpr stop ;;
      guards <- flush ;;
      _ <- pushResume v rsm ;; body <- lowerBlock body ;; _ <- popResume rsm ;;
      eret (guards ++ [GFor (Some (define v (pinInt sx sr)))
        (Some (binary (if down then GTR else LSS) (ident v) ex))
        (Some (GIncDec (ident v) (if down then DEC else INC))) body])
  | While cond body =>
      '(cx, cr) <- lowerExpr cond ;; test <- truthyExpr cx cr ;; guards <- flush ;;
      body <- lowerBlock body ;; eret (guards ++ [GFor None (Some test) None body])
  | Break => flushed [GBranch BREAK]
  | Continue => flushed [GBranch CONTINUE]
  | If cond thn els =>
      '(cx, cr) <- lowerExpr cond ;; test <- truthyExpr cx cr ;; guards <- flush ;;
      thn <- lowerBlock thn ;;
      match els with
      | [] => eret (guards ++ [GIf None test thn None])
      | _ =>
          els <- lowerBlock els ;;
          eret (guards ++ [GIf None test thn
            (Some (match soleIf els with Some inner => inner | None => GBlock els end))])
      end
  end.

Fixpoint lowerBlock (l : list Stmt) : EM (list gstmt) :=
  match l with
  | [] => eret []
  | s :: l => ss <- lowerStmt s ;; rest <- lowerBlock l ;; eret (ss ++ rest)
  end.

(** ** func.go: functions *)

Record Param := mkParam { pName : string; pRepr : Repr }.
Record BindingGuard := mkBG { VerVar : string; Version : Z }.

Record Func := mkFunc {
  Name : string;
  Params : list Param;
  FRet : Repr;
  Body : list Stmt;
  DeoptHandler : string;
  BindingGuards : list BindingGuard
}.

Fixpoint entryGuards (gs : list BindingGuard) : EM (list gstmt) :=
  match gs with
  | [] => eret []
  | g :: gs =>
      edge <- deoptEdge ;; rest <- entryGuards gs ;;
      eret (ifStmt (binary NEQ (ident (VerVar g)) (intLit (Version g))) [edge] :: rest)
  end.

Definition snapshot (ps : list Param) : gstmt :=
  GAssign (map (fun i => ident (deoptParam i)) (seq 0 (length ps))) DEFINE
    (map (fun p => ident (pName p)) ps).

Definition newBuilder (f : Func) : Builder :=
  mkBuilder (Name f) (map pName (Params f)) (FRet f) (DeoptHandler f) false 0 0 0 0 false [] [].

Definition EmitFunc (f : Func) : goFunc + emitErr :=
  match (body <- lowerBlock (Body f) ;; guards <- entryGuards (BindingGuards f) ;;
         eret (guards ++ body)) (newBuilder f) with
  | inr e => inr e
  | inl (body, b) =>
      let body := if deoptUsed b && negb (Nat.eqb (length (Params f)) 0)
        then snapshot (Params f) :: body else body in
      inl (mkGoFunc (Name f) (map (fun p => (pName p, goType (pRepr p))) (Params f))
             [goType (FRet f); ident "error"] body)
  end.
