(* ===== verification/IrCost.v ===== *)
(** * IrCost: the bridge's type rules, cost walk and guard sites

    Model of the operand rules of src/pkg/ir/bridge.go ([binResult],
    [cmpOperands], [connScalar], [truthy], [joinReturns]), of the operation
    census of src/pkg/ir/cost.go and of the guard-site walk of
    src/pkg/ir/deopt.go, all over the emit model.  A refusal ("unsupported") is
    [None]. *)

From S2P Require Import Prelude Int64 StaticOps GoSem Emit.
Local Open Scope Z_scope.

(** ** bridge.go: the operand rules *)

Definition binResult (op : Op) (l r : Repr) : option Repr :=
  if isScalar SStr l || isScalar SStr r then
    if negb (bool_decide (op = OpAdd)) || negb (isScalar SStr l) || negb (isScalar SStr r)
    then None else Some strRepr
  else if negb (numeric l) || negb (numeric r) then None
  else match op with
  | OpFloorDiv | OpMod | OpPow | OpBitAnd | OpBitOr | OpBitXor | OpLShift | OpRShift =>
      if anyFloat l r then None else Some intRepr
  | OpDiv => Some floatRepr
  | OpAdd | OpSub | OpMul => if anyFloat l r then Some floatRepr else Some intRepr
  end.

Definition cmpOperands (op : CmpOp) (l r : Repr) : bool :=
  (arith l && arith r) || (isScalar SStr l && isScalar SStr r) ||
  (isScalar SBool l && isScalar SBool r && negb (ordered op)).

Definition connScalar (s : Scalar) : bool :=
  match s with SBool | SInt | SFloat | SStr => true | NotScalar => false end.

Definition truthy (r : Repr) : bool :=
  match RScalar r with
  | SBool | SInt | SFloat | SStr => true
  | NotScalar => match Elem r with Some _ => true | None => false end
  end.

(** The two branches' result; the outer [None] is the refusal. *)
Definition joinReturns (thn els : option Repr) : option (option Repr) :=
  match thn, els with
  | None, _ => Some els
  | _, None => Some thn
  | Some a, Some b => if sameScalar a b then Some thn else None
  end.

(** ** cost.go *)

Definition zeroRepr : Repr := mkRepr "" NotScalar None None.

Fixpoint reprOf (e : Expr) : Repr :=
  match e with
  | Var _ r | Recv _ r => r
  | Int _ => intRepr
  | Float _ => floatRepr
  | Bool _ => boolRepr
  | Str _ => strRepr
  | Bin op l r => default zeroRepr (binResult op (reprOf l) (reprOf r))
  | Cmp _ _ _ | Not _ => boolRepr
  | And l _ | Or l _ => reprOf l
  | Call _ _ r => r
  | Index b _ => default zeroRepr (Elem (reprOf b))
  | ListLit elem _ => listRepr elem
  | Attr _ _ | GenNew _ _ => zeroRepr
  end.

Record Cost := mkCost { UnboxedOps : Z; EntryGuards : Z; LoopGuards : Z }.

Definition noCost : Cost := mkCost 0 0 0.
Definition addOp (c : Cost) : Cost := mkCost (UnboxedOps c + 1) (EntryGuards c) (LoopGuards c).
Definition addGuard (c : Cost) : Cost := mkCost (UnboxedOps c) (EntryGuards c + 1) (LoopGuards c).

(** An operation of this tier that carries an overflow guard. *)
Definition guardedOp (op : Op) (l r : Expr) : bool :=
  match binResult op (reprOf l) (reprOf r) with
  | Some res => isScalar SInt res && Overflows op
  | None => false
  end.

Fixpoint costExpr (e : Expr) (c : Cost) : Cost :=
  match e with
  | Bin op l r =>
      let c := addOp (costExpr r (costExpr l c)) in if guardedOp op l r then addGuard c else c
  | Cmp _ l r | And l r | Or l r => addOp (costExpr r (costExpr l c))
  | Not x => addOp (costExpr x c)
  | Call _ args _ => addOp ((fix go l c := match l with [] => c | a :: l => go l (costExpr a c) end) args c)
  | Index b i => addGuard (addOp (costExpr i (costExpr b c)))
  | ListLit _ items =>
      addOp ((fix go l c := match l with [] => c | a :: l => go l (costExpr a c) end) items c)
  | GenNew _ fields =>
      addOp ((fix go (l : list (string * Expr)) c :=
        match l with [] => c | a :: l => go l (costExpr (snd a) c) end) fields c)
  | _ => c
  end.

(** A loop's guards all fire on its back edge. *)
Definition foldLoop (bc c : Cost) : Cost :=
  mkCost (UnboxedOps c + UnboxedOps bc) (EntryGuards c) (LoopGuards c + (EntryGuards bc + LoopGuards bc)).

Fixpoint costStmt (s : Stmt) (c : Cost) : Cost :=
  let costs := fix costs (l : list Stmt) (c : Cost) : Cost :=
    match l with [] => c | s :: l => costs l (costStmt s c) end in
  match s with
  | Define _ v | Assign _ v | Return v | Discard v => costExpr v c
  | Bind _ vs _ => fold_left (fun c v => costExpr v c) vs c
  | AugAssign _ _ r v =>
      let c := addOp (costExpr v c) in if isScalar SInt r then addGuard c else c
  | If cond thn els => costs els (costs thn (costExpr cond c))
  | While cond body => foldLoop (costs body (costExpr cond noCost)) c
  | ForCount _ start stop _ body _ =>
      foldLoop (costs body (costExpr stop (costExpr start noCost))) c
  | ForGen _ _ _ body _ => foldLoop (addOp (costs body noCost)) c
  | VarDecl _ _ | ForRange _ _ _ _ | Break | Continue => c
  end.

Definition CostOf (f : Func) : Cost := fold_left (fun c s => costStmt s c) (Body f) noCost.

(** ** deopt.go: guarded statements *)

Fixpoint exprGuarded (e : Expr) : bool :=
  match e with
  | Bin op l r => exprGuarded l || exprGuarded r || guardedOp op l r
  | Cmp _ l r | And l r | Or l r => exprGuarded l || exprGuarded r
  | Not x => exprGuarded x
  | Call _ args _ => (fix go l := match l with [] => false | a :: l => exprGuarded a || go l end) args
  | Index _ _ => true
  | ListLit _ items => (fix go l := match l with [] => false | a :: l => exprGuarded a || go l end) items
  | GenNew _ fields =>
      (fix go (l : list (string * Expr)) :=
        match l with [] => false | a :: l => exprGuarded (snd a) || go l end) fields
  | _ => false
  end.

Definition stmtGuarded (s : Stmt) : bool :=
  match s with
  | Define _ v | Assign _ v | Return v | Discard v => exprGuarded v
  | Bind _ vs _ => existsb exprGuarded vs
  | AugAssign _ _ r v => isScalar SInt r || exprGuarded v
  | If c _ _ | While c _ => exprGuarded c
  | ForCount _ start stop _ _ _ => exprGuarded start || exprGuarded stop
  | ForGen _ _ _ _ dpt => dpt
  | VarDecl _ _ | ForRange _ _ _ _ | Break | Continue => false
  end.
