(* ===== verification/PySem.v ===== *)
(** * PySem: what the scalar programs mean in Python

    The reference semantics of the emit model (StaticOps.Expr, Emit.Stmt): ints
    of any size, operands evaluated left to right, short-circuit connectives,
    exceptions with CPython's types and messages, a flat scope of locals, range
    bounds evaluated once.  An int operand of a true division, or of a comparison
    with a float, is taken as the nearest double: that is what CPython computes
    when a double holds the int, as it does up to 2 ^ 53 in magnitude; beyond it
    CPython divides and compares the exact int.  [PUnspec] is the float result of
    a negative power of ints.  [None] is a type error, an unbound name, or fuel
    that ran out. *)

From S2P Require Import Prelude Int64 StaticOps GoSem Emit.
Local Open Scope Z_scope.

Inductive pout := PRet (v : value) | PRaise (e : pyexc) | PUnspec.

Definition excZeroDiv : pyexc := mkExc "ZeroDivisionError" "division by zero".
Definition excNegShift : pyexc := mkExc "ValueError" "negative shift count".
Definition excZeroPow : pyexc := mkExc "ZeroDivisionError" "zero to a negative power".
Definition excIndex : pyexc := mkExc "IndexError" "list index out of range".

(** ** Arithmetic *)

(** bool is a subtype of int. *)
Definition asZ (v : value) : option Z :=
  match v with VInt z => Some z | VBool b => Some (BoolToInt b) | _ => None end.

(** A number as a float operand. *)
Definition asF (v : value) : option spec_float :=
  match v with VFloat f => Some f | _ => ofInt <$> asZ v end.

Definition pyInts (op : Op) (x y : Z) : pout :=
  match pyIntOp op x y with
  | PyInt z => PRet (VInt z)
  | PyFloat => PUnspec
  | PyRaise ZeroDivisionError =>
      PRaise (match op with OpPow => excZeroPow | _ => excZeroDiv end)
  | PyRaise ValueError => PRaise excNegShift
  end.

(** [int / int], divided as doubles. *)
Definition pyDivInts (x y : Z) : pout :=
  if y =? 0 then PRaise excZeroDiv else PRet (VFloat (fdiv (ofInt x) (ofInt y))).

Definition pyDivFloats (x y : spec_float) : pout :=
  if SFeqb y fzero then PRaise excZeroDiv else PRet (VFloat (fdiv x y)).

Definition pyFloats (op : Op) (x y : spec_float) : option pout :=
  match op with
  | OpAdd => Some (PRet (VFloat (fadd x y)))
  | OpSub => Some (PRet (VFloat (fsub x y)))
  | OpMul => Some (PRet (VFloat (fmul x y)))
  | OpDiv => Some (pyDivFloats x y)
  | _ => None
  end.

(** [&], [|] and [^] of two bools are bools. *)
Definition pyBoolBits (op : Op) (a b : bool) : option bool :=
  match op with
  | OpBitAnd => Some (a && b)
  | OpBitOr => Some (a || b)
  | OpBitXor => Some (xorb a b)
  | _ => None
  end.

Definition pyBits (op : Op) (v w : value) : option bool :=
  match v, w with VBool a, VBool b => pyBoolBits op a b | _, _ => None end.

Definition pyBin (op : Op) (v w : value) : option pout :=
  match pyBits op v w with Some c => Some (PRet (VBool c)) | None =>
  match v, w with
  | VStr a, VStr b => match op with OpAdd => Some (PRet (VStr (a +:+ b))) | _ => None end
  | _, _ =>
    match asZ v, asZ w with
    | Some x, Some y => Some (match op with OpDiv => pyDivInts x y | _ => pyInts op x y end)
    | _, _ => match asF v, asF w with Some x, Some y => pyFloats op x y | _, _ => None end
    end
  end end.

(** ** Comparison and truth *)

(** An int against a float, compared as doubles. *)
Definition pyCmpMixed (op : CmpOp) (v w : value) : option pout :=
  match asF v, asF w with
  | Some x, Some y => PRet <$> cmpFloat (cmpTok op) x y
  | _, _ => None
  end.

Definition pyCmp (op : CmpOp) (v w : value) : option pout :=
  match v, w with
  | VInt a, VInt b => PRet <$> cmpBy (cmpTok op) (a =? b) (a <? b) (a <=? b)
  | VFloat a, VFloat b => PRet <$> cmpFloat (cmpTok op) a b
  | VInt _, VFloat _ | VFloat _, VInt _ => pyCmpMixed op v w
  | VStr a, VStr b => PRet <$> cmpBy (cmpTok op) (String.eqb a b) (String.ltb a b) (String.leb a b)
  | VBool a, VBool b => PRet <$> eqOnly (cmpTok op) (Bool.eqb a b)
  | _, _ => None
  end.

Definition truth (v : value) : option bool :=
  match v with
  | VBool b => Some b
  | VInt z => Some (negb (z =? 0))
  | VFloat f => Some (negb (SFeqb f fzero))
  | VStr s => Some (negb (String.eqb s ""))
  | VList l => Some (negb (Nat.eqb (length l) 0))
  | _ => None
  end.

(** [l[i]] with Python's negative indices. *)
Definition pyIndex (v i : value) : option pout :=
  match v, i with
  | VList l, VInt z =>
      let n := Z.of_nat (length l) in
      let k := if z <? 0 then z + n else z in
      Some (if (k <? 0) || (n <=? k) then PRaise excIndex
            else match l !! Z.to_nat k with Some w => PRet w | None => PRaise excIndex end)
  | _, _ => None
  end.

(** ** Expressions *)

Definition pbind (m : option pout) (k : value -> option pout) : option pout :=
  match m with Some (PRet v) => k v | r => r end.

Section Py.
Context (callee : string -> list value -> value + pyexc).

Definition pyCall (f : string) (vs : list value) : pout :=
  match callee f vs with inl v => PRet v | inr e => PRaise e end.

Fixpoint pyEval (sg : gmap string value) (e : Expr) {struct e} : option pout :=
  let pyEvals := fix pyEvals (l : list Expr) (k : list value -> option pout) : option pout :=
    match l with
    | [] => k []
    | x :: l => pbind (pyEval sg x) (fun v => pyEvals l (fun vs => k (v :: vs)))
    end in
  match e with
  | Var x _ => PRet <$> sg !! x
  | Int z => Some (PRet (VInt z))
  | Float f => Some (PRet (VFloat f))
  | Bool b => Some (PRet (VBool b))
  | Str s => Some (PRet (VStr s))
  | Bin op l r => pbind (pyEval sg l) (fun v => pbind (pyEval sg r) (pyBin op v))
  | Cmp op l r => pbind (pyEval sg l) (fun v => pbind (pyEval sg r) (pyCmp op v))
  | And l r => pbind (pyEval sg l) (fun v =>
      match truth v with Some true => pyEval sg r | Some false => Some (PRet v) | None => None end)
  | Or l r => pbind (pyEval sg l) (fun v =>
      match truth v with Some true => Some (PRet v) | Some false => pyEval sg r | None => None end)
  | Not x => pbind (pyEval sg x) (fun v => (fun b => PRet (VBool (negb b))) <$> truth v)
  | Index b i => pbind (pyEval sg b) (fun v => pbind (pyEval sg i) (pyIndex v))
  | Attr b n => pbind (pyEval sg b) (fun v => PRet <$> fieldOf n v)
  | ListLit _ items => pyEvals items (fun vs => Some (PRet (VList vs)))
  | Call f args _ => pyEvals args (fun vs => Some (pyCall f vs))
  | GenNew _ _ | Recv _ _ => None
  end.

Fixpoint pyEvals (sg : gmap string value) (l : list Expr) (k : list value -> option pout) :
    option pout :=
  match l with
  | [] => k []
  | x :: l => pbind (pyEval sg x) (fun v => pyEvals sg l (fun vs => k (v :: vs)))
  end.

(** ** Guards *)

(** Whether the static tier's guard on an int operation fires: the exact
    result is not an int64 (a negative power is never one). *)
Definition opFires (op : Op) (x y : Z) : bool :=
  match pyIntOp op x y with
  | PyInt z => negb (in64 z)
  | PyFloat => true
  | PyRaise _ => match op with OpPow => true | _ => false end
  end.

Definition binFires (op : Op) (v w : value) : bool :=
  match asZ v, asZ w with
  | Some x, Some y => match op with OpDiv => false | _ => opFires op x y end
  | _, _ => false
  end.

(** A static index is guarded to the list's own positions. *)
Definition idxFires (v i : value) : bool :=
  match v, i with
  | VList l, VInt z => (z <? 0) || (Z.of_nat (length l) <=? z)
  | _, _ => false
  end.

(** After an operand: with its value, or anything when the value is open. *)
Definition whenVal (o : option pout) (k : value -> bool) : bool :=
  match o with Some (PRet v) => k v | Some PUnspec => true | _ => false end.

(** Some guard of the expression fires on the way to its value.  Guards are
    hoisted: those of a connective's right operand are evaluated even where
    Python stops at the left one. *)
Fixpoint fires (sg : gmap string value) (e : Expr) {struct e} : bool :=
  let firesL := fix firesL (l : list Expr) : bool :=
    match l with [] => false | x :: l => fires sg x || whenVal (pyEval sg x) (fun _ => firesL l) end in
  match e with
  | Bin op l r => fires sg l || whenVal (pyEval sg l) (fun v =>
      fires sg r || whenVal (pyEval sg r) (binFires op v))
  | Cmp _ l r => fires sg l || whenVal (pyEval sg l) (fun _ =>
      fires sg r || whenVal (pyEval sg r) (fun _ => false))
  | And l r | Or l r => fires sg l || whenVal (pyEval sg l) (fun _ => fires sg r)
  | Not x | Attr x _ => fires sg x
  | Index b i => fires sg b || whenVal (pyEval sg b) (fun v =>
      fires sg i || whenVal (pyEval sg i) (idxFires v))
  | ListLit _ items => firesL items
  | Call _ args _ => firesL args
  | _ => false
  end.

Fixpoint firesL (sg : gmap string value) (l : list Expr) : bool :=
  match l with [] => false | x :: l => fires sg x || whenVal (pyEval sg x) (fun _ => firesL sg l) end.

(** ** Statements *)

Inductive pres :=
  | PNorm (sg : gmap string value)
  | PBrk (sg : gmap string value)
  | PCnt (sg : gmap string value)
  | PDone (v : value)
  | PExc (e : pyexc)
  | POpen.

(** Evaluate, then go on with the value. *)
Definition withVal (o : option pout) (k : value -> option pres) : option pres :=
  match o with
  | Some (PRet v) => k v
  | Some (PRaise e) => Some (PExc e)
  | Some PUnspec => Some POpen
  | None => None
  end.

Definition withVals (sg : gmap string value) (l : list Expr) (k : list value -> option pres) :
    option pres :=
  withVal (pyEvals sg l (fun vs => Some (PRet (VList vs))))
    (fun v => match v with VList vs => k vs | _ => None end).

Fixpoint pyBind (xs : list string) (vs : list value) (sg : gmap string value) :
    gmap string value :=
  match xs, vs with x :: xs, v :: vs => pyBind xs vs (<[x := v]> sg) | _, _ => sg end.

(** One turn of fuel per iteration. *)
Fixpoint pyWhile (k : nat) (cond : gmap string value -> option pout)
    (body : gmap string value -> option pres) (sg : gmap string value) : option pres :=
  match k with
  | O => None
  | S k =>
    withVal (cond sg) (fun v =>
      match truth v with
      | Some true =>
          match body sg with
          | Some (PNorm sg) | Some (PCnt sg) => pyWhile k cond body sg
          | Some (PBrk sg) => Some (PNorm sg)
          | r => r
          end
      | Some false => Some (PNorm sg)
      | None => None
      end)
  end.

(** [for x in range(i, stop)], or counting down. *)
Fixpoint pyCount (k : nat) (x : string) (down : bool) (body : gmap string value -> option pres)
    (i stop : Z) (sg : gmap string value) : option pres :=
  match k with
  | O => None
  | S k =>
    if (if down then stop <? i else i <? stop) then
      match body (<[x := VInt i]> sg) with
      | Some (PNorm sg) | Some (PCnt sg) =>
          pyCount k x down body (if down then i - 1 else i + 1) stop sg
      | Some (PBrk sg) => Some (PNorm sg)
      | r => r
      end
    else Some (PNorm sg)
  end.

Fixpoint pyExec (n : nat) (s : Stmt) (sg : gmap string value) {struct s} : option pres :=
  let pyExecs := fix pyExecs (l : list Stmt) (sg : gmap string value) : option pres :=
    match l with
    | [] => Some (PNorm sg)
    | s :: l => match pyExec n s sg with Some (PNorm sg) => pyExecs l sg | r => r end
    end in
  match s with
  | Define x v | Assign x v => withVal (pyEval sg v) (fun v => Some (PNorm (<[x := v]> sg)))
  | VarDecl _ _ => Some (PNorm sg)
  | Bind xs vs _ => withVals sg vs (fun vs => Some (PNorm (pyBind xs vs sg)))
  | AugAssign x op r v =>
      withVal (pyEval sg (Bin op (Var x r) v)) (fun v => Some (PNorm (<[x := v]> sg)))
  | Discard v => withVal (pyEval sg v) (fun _ => Some (PNorm sg))
  | Return v => withVal (pyEval sg v) (fun v => Some (PDone v))
  | While c body => pyWhile n (fun sg => pyEval sg c) (pyExecs body) sg
  | ForCount x start stop down body _ =>
      withVal (pyEval sg start) (fun i => withVal (pyEval sg stop) (fun j =>
        match i, j with
        | VInt i, VInt j => pyCount n x down (pyExecs body) i j sg
        | _, _ => None
        end))
  | If c thn els =>
      withVal (pyEval sg c) (fun v =>
        match truth v with Some true => pyExecs thn sg | Some false => pyExecs els sg | None => None end)
  | Break => Some (PBrk sg)
  | Continue => Some (PCnt sg)
  | ForRange _ _ _ _ | ForGen _ _ _ _ _ => None
  end.

Fixpoint pyExecs (n : nat) (l : list Stmt) (sg : gmap string value) : option pres :=
  match l with
  | [] => Some (PNorm sg)
  | s :: l => match pyExec n s sg with Some (PNorm sg) => pyExecs n l sg | r => r end
  end.

(** ** Guards of statements *)

Definition whenNorm (p : option pres) (k : gmap string value -> bool) : bool :=
  match p with Some (PNorm sg) => k sg | Some POpen => true | _ => false end.

(** The next turn of a loop. *)
Definition whenTurn (p : option pres) (k : gmap string value -> bool) : bool :=
  match p with Some (PNorm sg | PCnt sg) => k sg | Some POpen => true | _ => false end.

Fixpoint whileFires (k : nat) (cond : gmap string value -> option pout)
    (body : gmap string value -> option pres) (bodyFires : gmap string value -> bool)
    (sg : gmap string value) : bool :=
  match k with
  | O => false
  | S k =>
    whenVal (cond sg) (fun v =>
      match truth v with
      | Some true => bodyFires sg || whenTurn (body sg) (whileFires k cond body bodyFires)
      | _ => false
      end)
  end.

Fixpoint countFires (k : nat) (x : string) (down : bool) (body : gmap string value -> option pres)
    (bodyFires : gmap string value -> bool) (i stop : Z) (sg : gmap string value) : bool :=
  match k with
  | O => false
  | S k =>
    if (if down then stop <? i else i <? stop) then
      let sg := <[x := VInt i]> sg in
      bodyFires sg ||
      whenTurn (body sg) (countFires k x down body bodyFires (if down then i - 1 else i + 1) stop)
    else false
  end.

(** Some guard fires while Python runs the statement. *)
Fixpoint stmtFires (n : nat) (s : Stmt) (sg : gmap string value) {struct s} : bool :=
  let blockFires := fix blockFires (l : list Stmt) (sg : gmap string value) : bool :=
    match l with
    | [] => false
    | s :: l => stmtFires n s sg || whenNorm (pyExec n s sg) (blockFires l)
    end in
  match s with
  | Define _ v | Assign _ v | Discard v | Return v => fires sg v
  | Bind _ vs _ => firesL sg vs
  | AugAssign x op r v => fires sg (Bin op (Var x r) v)
  | While c body => whileFires n (fun sg => pyEval sg c) (pyExecs n body) (blockFires body) sg
  | ForCount x start stop down body _ =>
      fires sg start || whenVal (pyEval sg start) (fun i =>
        match i, pyEval sg stop with
        | VInt i, Some (PRet (VInt j)) => countFires n x down (pyExecs n body) (blockFires body) i j sg
        | _, _ => false
        end)
  | If c thn els =>
      fires sg c || whenVal (pyEval sg c) (fun v =>
        match truth v with
        | Some true => blockFires thn sg
        | Some false => blockFires els sg
        | None => false
        end)
  | _ => false
  end.

Fixpoint blockFires (n : nat) (l : list Stmt) (sg : gmap string value) : bool :=
  match l with
  | [] => false
  | s :: l => stmtFires n s sg || whenNorm (pyExec n s sg) (blockFires n l)
  end.
End Py.
