(* ===== verification/EmitTyping.v ===== *)
(** * EmitTyping: the programs the code generator is trusted on

    The typing discipline under which Emit's output is shown to follow Python:
    names that do not collide with what the emitter generates, operands of the
    representations it expects, locals read only once assigned, loop bounds and
    loop conditions it can re-evaluate.  These are the conditions the bridge
    (src/pkg/ir/bridge.go) checks before it builds a node, and those it does not
    check but needs; EmitFacts shows what goes wrong without the latter. *)

From S2P Require Import Prelude Int64 StaticOps GoSem Emit IrCost PySem.
Local Open Scope Z_scope.

(** ** Names *)

Definition isDigit (c : ascii) : bool := (48 <=? Z.of_nat (nat_of_ascii c)) && (Z.of_nat (nat_of_ascii c) <=? 57).

Fixpoint digits (s : string) : bool :=
  match s with "" => true | String c s => isDigit c && digits s end.

Fixpoint afterPrefix (p s : string) : option string :=
  match p, s with
  | "", _ => Some s
  | String a p, String b s => if Ascii.eqb a b then afterPrefix p s else None
  | _, _ => None
  end.

(** [p] followed by a decimal number. *)
Definition numbered (p s : string) : bool :=
  match afterPrefix p s with Some (String c r) => digits (String c r) | _ => false end.

Definition generated (x : string) : bool :=
  numbered "t" x || numbered "ovf" x || numbered "exc" x || numbered "d" x.

(** The identifiers emitted code uses under their Go meaning. *)
Definition fixedNames : list string := ["true"; "false"; "nil"; "rt"; "float64"; "int64"; "len"; "_"].

Definition fixedName (x : string) : bool := existsb (String.eqb x) fixedNames.

Definition userName (x : string) : bool := negb (generated x) && negb (fixedName x).

(** ** Values of a representation *)

Definition scalarHas (s : Scalar) (v : value) : bool :=
  match s, v with
  | SInt, VInt z => in64 z
  | SFloat, VFloat _ | SBool, VBool _ | SStr, VStr _ => true
  | _, _ => false
  end.

Definition fieldHas (fs : list (string * value)) (f : ShapeField Repr) : bool :=
  match fieldOf (sfName Repr f) (VStruct fs) with
  | Some v => scalarHas (RScalar (sfRepr Repr f)) v
  | None => false
  end.

Definition hasRepr (r : Repr) (v : value) : bool :=
  match RScalar r with
  | NotScalar =>
      match Elem r, RShape r, v with
      | Some e, _, VList l => forallb (scalarHas (RScalar e)) l
      | None, Some s, VStruct fs => forallb (fieldHas fs) (shFields Repr s)
      | _, _, _ => false
      end
  | s => scalarHas s v
  end.

(** Two representations with the same values. *)
Definition sameRep (a b : Repr) : Prop :=
  RScalar a = RScalar b /\ Elem a = Elem b /\ RShape a = RShape b.

(** ** Expressions *)

(** Operands Go folds at compile time. *)
Fixpoint constant (e : Expr) : bool :=
  match e with
  | Int _ | Float _ | Str _ => true
  | Bin _ l r | Cmp _ l r | And l r | Or l r => constant l && constant r
  | Not x => constant x
  | _ => false
  end.

(** No operation of the expression raises by itself: the only guards it hoists
    are deopts. *)
Fixpoint noRaise (e : Expr) : bool :=
  match e with
  | Var _ _ | Int _ | Float _ | Bool _ | Str _ => true
  | Bin op l r =>
      match op with
      | OpDiv | OpFloorDiv | OpMod | OpLShift | OpRShift => false
      | _ => noRaise l && noRaise r
      end
  | Cmp _ l r | And l r | Or l r | Index l r => noRaise l && noRaise r
  | Not x | Attr x _ => noRaise x
  | ListLit _ items => (fix go l := match l with [] => true | a :: l => noRaise a && go l end) items
  | Call _ _ _ | GenNew _ _ | Recv _ _ => false
  end.

Fixpoint noRaises (l : list Expr) : bool :=
  match l with [] => true | a :: l => noRaise a && noRaises l end.

Definition connRepr (lr : Repr) : Repr := if isScalar SBool lr then boolRepr else lr.

(** A bitwise operation on two bools: a bool in Python, an int in the tier. *)
Definition boolBits (op : Op) (lr rr : Repr) : bool :=
  match op with
  | OpBitAnd | OpBitOr | OpBitXor => isScalar SBool lr && isScalar SBool rr
  | _ => false
  end.

Section Typing.
(** The static functions that can be called (parameters and result), and the
    function's deopt handler. *)
Context (sigs : string -> option (list Repr * Repr)) (h : string).

(** A name a local may have. *)
Definition localName (x : string) : Prop := userName x = true /\ sigs x = None /\ x <> h.

Inductive ety (G : gmap string Repr) : Expr -> Repr -> Prop :=
  | TVar x r : G !! x = Some r -> ety G (Var x r) r
  | TInt z : in64 z = true -> ety G (Int z) intRepr
  | TFloat f : litFloat f = Some (VFloat f) -> ety G (Float f) floatRepr
  | TBool b : ety G (Bool b) boolRepr
  | TStr s : ety G (Str s) strRepr
  | TBin op l r lr rr res :
      ety G l lr -> ety G r rr -> binResult op lr rr = Some res ->
      (isScalar SFloat res && constant l && constant r = false) -> boolBits op lr rr = false ->
      ety G (Bin op l r) res
  | TCmp op l r lr rr :
      ety G l lr -> ety G r rr -> cmpOperands op lr rr = true -> ety G (Cmp op l r) boolRepr
  | TAnd l r lr rr :
      ety G l lr -> ety G r rr -> sameScalar lr rr = true -> connScalar (RScalar lr) = true ->
      noRaise r = true -> ety G (And l r) (connRepr lr)
  | TOr l r lr rr :
      ety G l lr -> ety G r rr -> sameScalar lr rr = true -> connScalar (RScalar lr) = true ->
      noRaise r = true -> ety G (Or l r) (connRepr lr)
  | TNot x xr : ety G x xr -> isScalar SBool xr = true -> ety G (Not x) boolRepr
  | TIndex b i br ir elem :
      ety G b br -> ety G i ir -> isScalar NotScalar br = true -> Elem br = Some elem ->
      isScalar NotScalar elem = false -> isScalar SInt ir = true -> ety G (Index b i) elem
  | TAttr b n br s fr :
      ety G b br -> isScalar NotScalar br = true -> Elem br = None -> RShape br = Some s ->
      Field s n = Some fr -> isScalar NotScalar fr = false -> ety G (Attr b n) fr
  | TList elem items rs :
      etys G items rs -> Forall (fun r => sameScalar r elem = true) rs ->
      isScalar NotScalar elem = false -> ety G (ListLit elem items) (listRepr elem)
  | TCall f args rs ps r :
      sigs f = Some (ps, r) -> userName f = true -> etys G args rs -> Forall2 sameRep rs ps ->
      ety G (Call f args r) r
with etys (G : gmap string Repr) : list Expr -> list Repr -> Prop :=
  | TNil : etys G [] []
  | TCons e r es rs : ety G e r -> etys G es rs -> etys G (e :: es) (r :: rs).

(** ** Statements *)

(** What is known at a program point: the locals that are assigned on every
    path, and all the locals Go has declared here, with their types. *)
Record ctx := mkCtx { assigned : gmap string Repr; declared : gmap string Repr }.

(** The names a block assigns or declares. *)
Fixpoint writes (s : Stmt) : list string :=
  let block := fix block (l : list Stmt) : list string :=
    match l with [] => [] | s :: l => writes s ++ block l end in
  match s with
  | Define x _ | Assign x _ | AugAssign x _ _ _ => [x]
  | Bind xs _ _ => xs
  | While _ body => block body
  | ForCount x _ _ _ body _ | ForGen x _ _ body _ => x :: block body
  | ForRange x i _ body => x :: i :: block body
  | If _ thn els => block thn ++ block els
  | VarDecl _ _ | Return _ | Break | Continue | Discard _ => []
  end.

Fixpoint blockWrites (l : list Stmt) : list string :=
  match l with [] => [] | s :: l => writes s ++ blockWrites l end.

(** The lowering of the expression adds no statement. *)
Definition hoistsNothing (e : Expr) : Prop :=
  forall b, exists p, lowerExpr e b = inl (p, b).

(** A bound the loop may read again on every turn. *)
Inductive stableBound (G : gmap string Repr) (x : string) (body : list Stmt) : Expr -> Prop :=
  | BInt z : in64 z = true -> stableBound G x body (Int z)
  | BVar y r : G !! y = Some r -> isScalar SInt r = true -> y <> x -> y ∉ blockWrites body ->
      stableBound G x body (Var y r).

Fixpoint insertAll (xs : list string) (rs : list Repr) (G : gmap string Repr) : gmap string Repr :=
  match xs, rs with x :: xs, r :: rs => insertAll xs rs (<[x := r]> G) | _, _ => G end.

Definition foldOp (op : Op) : bool := match op with OpAdd | OpSub | OpMul => true | _ => false end.

Inductive sty (rt : Repr) : ctx -> Stmt -> ctx -> Prop :=
  | SDefine G D x v r :
      ety G v r -> localName x -> D !! x = None ->
      sty rt (mkCtx G D) (Define x v) (mkCtx (<[x := r]> G) (<[x := r]> D))
  | SAssign G D x v r r' :
      ety G v r' -> D !! x = Some r -> sameRep r' r ->
      sty rt (mkCtx G D) (Assign x v) (mkCtx (<[x := r]> G) D)
  | SVarDecl G D x r :
      localName x -> D !! x = None -> sty rt (mkCtx G D) (VarDecl x r) (mkCtx G (<[x := r]> D))
  | SBindDef G D xs vs rs :
      etys G vs rs -> length xs = length vs -> xs <> [] -> NoDup xs ->
      Forall (fun x => localName x /\ D !! x = None) xs ->
      sty rt (mkCtx G D) (Bind xs vs true) (mkCtx (insertAll xs rs G) (insertAll xs rs D))
  | SBindSet G D xs vs rs rs' :
      etys G vs rs' -> Forall2 (fun x r => D !! x = Some r) xs rs -> Forall2 sameRep rs' rs ->
      NoDup xs -> sty rt (mkCtx G D) (Bind xs vs false) (mkCtx (insertAll xs rs G) D)
  | SAug G D x op r r' v :
      foldOp op = true -> G !! x = Some r -> D !! x = Some r ->
      ety G (Bin op (Var x r) v) r' -> sameRep r' r ->
      sty rt (mkCtx G D) (AugAssign x op r v) (mkCtx G D)
  | SDiscard G D v r : ety G v r -> sty rt (mkCtx G D) (Discard v) (mkCtx G D)
  | SReturn G D v r : ety G v r -> sameRep r rt -> sty rt (mkCtx G D) (Return v) (mkCtx G D)
  | SWhile G D c cr body k :
      ety G c cr -> truthy cr = true -> hoistsNothing c -> stys rt (mkCtx G D) body k ->
      sty rt (mkCtx G D) (While c body) (mkCtx G D)
  | SForCount G D x start sr stop down body k :
      ety G start sr -> isScalar SInt sr = true -> stableBound G x body stop ->
      localName x -> D !! x = None -> x ∉ blockWrites body ->
      stys rt (mkCtx (<[x := intRepr]> G) (<[x := intRepr]> D)) body k ->
      sty rt (mkCtx G D) (ForCount x start stop down body None) (mkCtx G D)
  | SBreak G D : sty rt (mkCtx G D) Break (mkCtx G D)
  | SContinue G D : sty rt (mkCtx G D) Continue (mkCtx G D)
  | SIf G D c cr thn els G1 D1 G2 D2 G' :
      ety G c cr -> truthy cr = true ->
      stys rt (mkCtx G D) thn (mkCtx G1 D1) -> stys rt (mkCtx G D) els (mkCtx G2 D2) ->
      G ⊆ G' -> (forall x r, G' !! x = Some r ->
        G1 !! x = Some r /\ G2 !! x = Some r /\ is_Some (D !! x)) ->
      sty rt (mkCtx G D) (If c thn els) (mkCtx G' D)
with stys (rt : Repr) : ctx -> list Stmt -> ctx -> Prop :=
  | SNil k : stys rt k [] k
  | SCons k1 k2 k3 s l : sty rt k1 s k2 -> stys rt k2 l k3 -> stys rt k1 (s :: l) k3.
End Typing.

Scheme ety_mind := Minimality for ety Sort Prop with etys_mind := Minimality for etys Sort Prop.
Combined Scheme ety_etys_ind from ety_mind, etys_mind.
Scheme sty_mind := Minimality for sty Sort Prop with stys_mind := Minimality for stys Sort Prop.
Combined Scheme sty_stys_ind from sty_mind, stys_mind.
