(* ===== verification/EmitEnv.v ===== *)
(** * EmitEnv: generated names and block-scoped environments

    The freshness of the names the builder generates, and what executing emitted
    code can do to an environment: the innermost block grows by new names, the
    outer blocks keep their domains. *)

From S2P Require Import Prelude Int64 StaticOps GoSem Emit IrCost PySem EmitTyping.
Local Open Scope Z_scope.

(** ** Names *)

Lemma digits_app a b : digits (a +:+ b) = digits a && digits b.
Proof. induction a as [|c a IH]; simpl; [done|]. by rewrite IH, andb_assoc. Qed.

Lemma digits_go n s : digits s = true -> digits (pretty_N_go n s) = true.
Proof.
  revert s. induction (N.lt_wf_0 n) as [n _ IH]. intros s Hs.
  destruct (decide (0 < n)%N) as [Hn|Hn].
  - rewrite pretty_N_go_step by done. apply IH; [by apply N.div_lt|]. simpl. rewrite Hs, andb_true_r.
    unfold pretty_N_char. by repeat case_match.
  - assert (n = 0%N) as -> by lia. by rewrite pretty_N_go_0.
Qed.

Lemma digits_itoaN n : digits (itoaN n) = true.
Proof.
  assert (forall k : N, digits (pretty k) = true) as HN.
  { intros k. unfold pretty, pretty_N. case_decide; [done|]. by apply digits_go. }
  unfold itoaN, itoa, pretty, pretty_Z. destruct (Z.of_nat n) eqn:E; [done|apply HN|lia].
Qed.

Lemma pretty_go_nonempty n c s : exists c' s', pretty_N_go n (String c s) = String c' s'.
Proof.
  revert c s. induction (N.lt_wf_0 n) as [n _ IH]. intros c s.
  destruct (decide (0 < n)%N) as [Hn|Hn].
  - rewrite pretty_N_go_step by done. apply IH. by apply N.div_lt.
  - assert (n = 0%N) as -> by lia. rewrite pretty_N_go_0. eauto.
Qed.

Lemma itoaN_nonempty n : exists c s, itoaN n = String c s.
Proof.
  assert (forall k : N, exists c s, pretty k = String c s) as HN.
  { intros k. unfold pretty, pretty_N. case_decide; [eauto|].
    rewrite pretty_N_go_step by lia. apply pretty_go_nonempty. }
  unfold itoaN, itoa, pretty, pretty_Z. destruct (Z.of_nat n) eqn:E; [eauto|apply HN|lia].
Qed.

Lemma itoaN_inj m n : itoaN m = itoaN n -> m = n.
Proof. unfold itoaN, itoa. intros E. apply (inj pretty) in E. lia. Qed.

Lemma afterPrefix_app p s : afterPrefix p (p +:+ s) = Some s.
Proof. induction p as [|c p IH]; simpl; [by destruct s|]. by rewrite Ascii.eqb_refl. Qed.

Lemma numbered_itoa p n : numbered p (p +:+ itoaN n) = true.
Proof.
  unfold numbered. rewrite afterPrefix_app. destruct (itoaN_nonempty n) as (c & s & E).
  rewrite E. rewrite <- E. apply digits_itoaN.
Qed.

Lemma generated_names n :
  generated (tmpName n) = true /\ generated (flagName n) = true /\
  generated (excName n) = true /\ generated (deoptParam n) = true.
Proof.
  unfold generated. split_and!; unfold tmpName, flagName, excName, deoptParam;
    rewrite numbered_itoa, ?orb_true_r; done.
Qed.

Lemma user_not_generated x : userName x = true -> generated x = false.
Proof. unfold userName. intros H. by bool_to_prop. Qed.

Lemma user_not_fixed x : userName x = true -> fixedName x = false.
Proof. unfold userName. intros H. by bool_to_prop. Qed.

Lemma fixed_not_generated x : fixedName x = true -> generated x = false.
Proof.
  unfold fixedName. rewrite existsb_exists. intros (y & Hy & E). apply String.eqb_eq in E as ->.
  repeat destruct Hy as [<-|Hy]; try reflexivity. done.
Qed.

Lemma generated_ne x y : generated x = true -> generated y = false -> x <> y.
Proof. congruence. Qed.

(** The families of generated names are disjoint. *)
Lemma names_disjoint m n :
  tmpName m <> flagName n /\ tmpName m <> excName n /\ tmpName m <> deoptParam n /\
  flagName m <> excName n /\ flagName m <> deoptParam n /\ excName m <> deoptParam n.
Proof. by split_and!. Qed.

Lemma append_inj_l p a b : p +:+ a = p +:+ b -> a = b.
Proof. induction p; simpl; [done|]. intros [= E]. auto. Qed.

Lemma tmpName_inj m n : tmpName m = tmpName n -> m = n.
Proof. intros E%append_inj_l. by apply itoaN_inj. Qed.
Lemma flagName_inj m n : flagName m = flagName n -> m = n.
Proof. intros E%append_inj_l. by apply itoaN_inj. Qed.
Lemma excName_inj m n : excName m = excName n -> m = n.
Proof. intros E%append_inj_l. by apply itoaN_inj. Qed.
Lemma deoptParam_inj m n : deoptParam m = deoptParam n -> m = n.
Proof. intros E%append_inj_l. by apply itoaN_inj. Qed.

(** ** Environments *)

Definition same_dom (f f' : gmap string value) : Prop := forall x, f !! x = None <-> f' !! x = None.
Definition same_doms : genv -> genv -> Prop := Forall2 same_dom.

(** Executing statements in a block: the block may gain names that no outer
    block has, the outer blocks keep theirs. *)
Definition grows (rho rho' : genv) : Prop :=
  match rho, rho' with
  | f :: t, f' :: t' =>
      (forall x, f' !! x = None -> f !! x = None) /\
      (forall x, f !! x = None -> f' !! x <> None -> glookup x t = None) /\ same_doms t t'
  | _, _ => False
  end.

(** Executing hoisted statements: only generated names are added, and nothing
    else changes. *)
Definition extends (rho rho' : genv) : Prop :=
  match rho, rho' with
  | f :: t, f' :: t' =>
      t' = t /\ (forall x v, f !! x = Some v -> f' !! x = Some v) /\
      (forall x, f !! x = None -> f' !! x <> None -> generated x = true /\ glookup x t = None)
  | _, _ => False
  end.

Definition incl (rho rho' : genv) : Prop :=
  forall x v, glookup x rho = Some v -> glookup x rho' = Some v.

#[export] Instance same_doms_refl : Reflexive same_doms.
Proof. intros t. induction t; constructor; [by intros x|done]. Qed.

#[export] Instance same_doms_trans : Transitive same_doms.
Proof.
  intros t1 t2 t3 H1. revert t3. induction H1 as [|f1 f2 t1 t2 Hf Ht IH]; intros t3 H3;
    inversion H3 as [|? f3 ? t3' Hf' Ht']; subst; constructor; [|by apply IH].
  intros x. rewrite (Hf x). apply Hf'.
Qed.

Lemma same_doms_lookup t t' x : same_doms t t' -> glookup x t = None <-> glookup x t' = None.
Proof.
  induction 1 as [|f f' t t' Hf Ht IH]; simpl; [done|]. specialize (Hf x).
  destruct (f !! x), (f' !! x); naive_solver.
Qed.

Lemma grows_refl f t : grows (f :: t) (f :: t).
Proof. split_and!; [done|done|reflexivity]. Qed.

Lemma grows_trans r1 r2 r3 : grows r1 r2 -> grows r2 r3 -> grows r1 r3.
Proof.
  destruct r1 as [|f1 t1], r2 as [|f2 t2], r3 as [|f3 t3]; simpl; try done.
  intros (A1 & B1 & C1) (A2 & B2 & C2). split_and!; [auto| |by trans t2].
  intros x H1 H3. destruct (f2 !! x) eqn:E; [by apply B1; rewrite ?E|].
  apply (same_doms_lookup t1 t2 x C1). by apply B2.
Qed.

Lemma extends_refl f t : extends (f :: t) (f :: t).
Proof. split_and!; [done|done|naive_solver]. Qed.

Lemma extends_trans r1 r2 r3 : extends r1 r2 -> extends r2 r3 -> extends r1 r3.
Proof.
  destruct r1 as [|f1 t1], r2 as [|f2 t2], r3 as [|f3 t3]; simpl; try done.
  intros (-> & A1 & B1) (-> & A2 & B2). split_and!; [done|auto|].
  intros x H1 H3. destruct (f2 !! x) eqn:E; [apply B1|apply B2]; rewrite ?E; done.
Qed.

Lemma extends_grows r r' : extends r r' -> grows r r'.
Proof.
  destruct r as [|f t], r' as [|f' t']; simpl; try done. intros (-> & A & B).
  split_and!; [|by intros x H1 H2; apply B|reflexivity].
  intros x H. destruct (f !! x) eqn:E; [|done]. apply A in E. congruence.
Qed.

Lemma extends_incl r r' : extends r r' -> incl r r'.
Proof.
  destruct r as [|f t], r' as [|f' t']; simpl; try done. intros (-> & A & B) x v; simpl.
  destruct (f !! x) eqn:E; [by rewrite (A _ _ E)|].
  intros Hx. destruct (f' !! x) eqn:E'; [|done].
  destruct (B x E) as [_ H]; [by rewrite E'|congruence].
Qed.

Lemma incl_refl r : incl r r. Proof. by intros x v. Qed.
Lemma incl_trans r1 r2 r3 : incl r1 r2 -> incl r2 r3 -> incl r1 r3.
Proof. intros A B x v H. auto. Qed.

(** A name that is not generated keeps its status. *)
Lemma extends_none r r' x :
  extends r r' -> generated x = false -> glookup x r = None -> glookup x r' = None.
Proof.
  destruct r as [|f t], r' as [|f' t']; simpl; try done. intros (-> & A & B) Hg.
  destruct (f !! x) eqn:E; [done|]. intros Ht. destruct (f' !! x) eqn:E'; [|done].
  destruct (B x E) as [H _]; [by rewrite E'|congruence].
Qed.

Lemma grows_nonempty r r' : grows r r' -> exists f t f' t', r = f :: t /\ r' = f' :: t'.
Proof. destruct r, r'; try done. eauto 10. Qed.

(** Leaving a block: the outer names read the same, and the outer blocks are
    those the block was entered with. *)
Lemma grows_pop r r' :
  grows (∅ :: r) r' ->
  same_doms r (tail r') /\ (forall x, glookup x r <> None -> glookup x (tail r') = glookup x r').
Proof.
  destruct r' as [|f' t']; simpl; [done|]. intros (_ & B & C). split; [done|].
  intros x Hx. destruct (f' !! x) eqn:E; [|done]. exfalso. apply Hx, B; [done|by rewrite E].
Qed.

Lemma grows_same_doms f t r' : same_doms (f :: t) r' -> grows (f :: t) r'.
Proof.
  intros H. inversion H as [|? f' ? t' Hf Ht]; subst. split_and!; [by intros x; apply Hf| |done].
  intros x H1 H2. exfalso. by apply H2, Hf.
Qed.

(** ** Assignment and declaration *)

Lemma gset1_spec x v r :
  glookup x r <> None ->
  exists r', gset1 x v r = Some r' /\ same_doms r r' /\
    (forall y, glookup y r' = if String.eqb y x then Some v else glookup y r).
Proof.
  induction r as [|f t IH]; simpl; [done|]. destruct (f !! x) eqn:E.
  - intros _. eexists. split; [done|]. split.
    + constructor; [|reflexivity]. intros y. destruct (decide (x = y)) as [<-|Hn];
        [by rewrite lookup_insert_eq, E|by rewrite lookup_insert_ne].
    + intros y. simpl. destruct (String.eqb_spec y x) as [->|Hn]; [by rewrite lookup_insert_eq|].
      by rewrite lookup_insert_ne.
  - intros Hx. destruct (IH Hx) as (t' & Et & Hd & Hl). exists (f :: t'). rewrite Et. split; [done|].
    split; [constructor; [by intros y|done]|]. intros y. simpl. rewrite Hl.
    destruct (String.eqb_spec y x) as [->|Hn]; [by rewrite E|done].
Qed.

Lemma gassign_spec x v r :
  x <> "_" -> glookup x r <> None ->
  exists r', gassign x v r = Some r' /\ same_doms r r' /\
    (forall y, glookup y r' = if String.eqb y x then Some v else glookup y r).
Proof.
  intros Hx. unfold gassign. rewrite (proj2 (String.eqb_neq x "_") Hx). apply gset1_spec.
Qed.

(** Declaring one fresh name. *)
Lemma gdefine1 x v f t :
  x <> "_" -> glookup x (f :: t) = None -> gdefine [x] [v] (f :: t) = Some (<[x := v]> f :: t).
Proof.
  intros Hx Hn. simpl in *. unfold fresh. rewrite (proj2 (String.eqb_neq x "_") Hx). simpl.
  destruct (f !! x) eqn:E; [done|]. by rewrite bool_decide_true.
Qed.

(** Declaring two fresh names, the first possibly blank. *)
Lemma gdefine2 x y v w f t :
  x <> "_" -> y <> "_" -> glookup x (f :: t) = None ->
  gdefine [x; y] [v; w] (f :: t) = Some (<[y := w]> (<[x := v]> f) :: t).
Proof.
  intros Hx Hy Hn. simpl in *. unfold fresh.
  rewrite (proj2 (String.eqb_neq x "_") Hx), (proj2 (String.eqb_neq y "_") Hy). simpl.
  destruct (f !! x) eqn:E; [done|]. by rewrite bool_decide_true.
Qed.

Lemma extends_insert x v f t :
  generated x = true -> glookup x (f :: t) = None -> extends (f :: t) (<[x := v]> f :: t).
Proof.
  intros Hg Hn. simpl in Hn. destruct (f !! x) eqn:E; [done|]. split_and!; [done| |].
  - intros y w Hy. rewrite lookup_insert_ne; [done|congruence].
  - intros y Hy Hy'. destruct (decide (x = y)) as [<-|Hne]; [done|]. by rewrite lookup_insert_ne in Hy'.
Qed.

Lemma grows_insert x v f t :
  glookup x (f :: t) = None -> grows (f :: t) (<[x := v]> f :: t).
Proof.
  intros Hn. simpl in Hn. destruct (f !! x) eqn:E; [done|]. split_and!; [| |reflexivity].
  - intros y Hy. destruct (decide (x = y)) as [<-|Hne]; [done|]. by rewrite lookup_insert_ne in Hy.
  - intros y Hy Hy'. destruct (decide (x = y)) as [<-|Hne]; [done|]. by rewrite lookup_insert_ne in Hy'.
Qed.

Lemma glookup_insert x v f t y :
  glookup y (<[x := v]> f :: t) = if String.eqb y x then Some v else glookup y (f :: t).
Proof.
  simpl. destruct (String.eqb_spec y x) as [->|Hn]; [by rewrite lookup_insert_eq|].
  by rewrite lookup_insert_ne.
Qed.
