(* ===== verification/EmitExpr.v ===== *)
(** * EmitExpr: emitted expressions follow Python

    For every well-typed expression the lowering succeeds, and running the
    statements it hoists and then evaluating its Go expression gives Python's
    value, raises Python's exception, or hands the entry arguments to the deopt
    handler. *)

From S2P Require Import Prelude Int64 StaticOps GoSem Emit IrCost PySem EmitTyping EmitEnv.
Local Open Scope Z_scope.
Local Open Scope emit_scope.

Section Expressions.
Context (callee : string -> list value -> value + pyexc).
Context (sigs : string -> option (list Repr * Repr)) (h : string) (args : list value).

(** The static functions return what they declare, and the handler's name is
    an ordinary one. *)
Class Program : Prop := {
  callee_typed f ps r vs v : sigs f = Some (ps, r) -> Forall2 (fun p a => hasRepr p a = true) ps vs ->
    callee f vs = inl v -> hasRepr r v = true;
  handler_name : userName h = true /\ h <> "" /\ sigs h = None
}.
Context `{Program}.

Local Notation execs := (execs callee).
Local Notation exec := (exec callee).

(** ** Sequencing *)

Lemma execs_app n l1 l2 r :
  execs n (l1 ++ l2) r =
  match execs n l1 r with Some (GNorm r) => execs n l2 r | o => o end.
Proof.
  revert r. induction l1 as [|s l IH]; intros r; simpl; [done|].
  destruct (exec n s r) as [[]|]; simpl; auto.
Qed.

Lemma execs_cons n s l r :
  execs n (s :: l) r = match exec n s r with Some (GNorm r) => execs n l r | o => o end.
Proof. simpl. by destruct (exec n s r) as [[]|]. Qed.

(** The nested loops of the interpreters, by name. *)
Lemma eval_list r l :
  (fix go (l : list gexpr) : option (list value) :=
    match l with [] => Some [] | x :: l => v ← eval r x; vs ← go l; Some (v :: vs) end) l
  = evals r l.
Proof. induction l as [|x l IH]; simpl; [done|]. by rewrite IH. Qed.

Lemma exec_list n l r :
  (fix go (l : list gstmt) (r : genv) : option gres :=
    match l with
    | [] => Some (GNorm r)
    | s :: l => q ← exec n s r; match q with GNorm r => go l r | q => Some q end
    end) l r = execs n l r.
Proof. revert r. induction l as [|s l IH]; intros r; simpl; [done|]. destruct (exec n s r) as [[]|]; simpl; auto. Qed.

Lemma eval_builtin r f l :
  glookup f r = None -> eval r (GCall (GIdent f) l) = vs ← evals r l; builtin f vs.
Proof. intros E. cbn [eval]. rewrite E, eval_list. done. Qed.

Lemma eval_rt r f l :
  glookup "rt" r = None -> eval r (GCall (GSel (GIdent "rt") f) l) = vs ← evals r l; rtCall f vs.
Proof. intros E. cbn [eval]. rewrite E, eval_list. done. Qed.

Lemma exec_guard n c s r :
  exec n (ifStmt c [s]) r =
  b ← evalCond c (∅ :: r);
  gpop <$> (if b : bool then gpop <$> (q ← exec n s (∅ :: ∅ :: r);
    match q with GNorm r => Some (GNorm r) | q => Some q end) else Some (GNorm (∅ :: r))).
Proof. done. Qed.

(** ** Stable values *)

(** Names the program's locals never take. *)
Definition outside (x : string) : Prop :=
  fixedName x = true \/ (userName x = true /\ (sigs x <> None \/ x = h)).

Definition outside_free (r : genv) : Prop := forall x, outside x -> glookup x r = None.

(** The expression has that value here and wherever these names keep theirs. *)
Definition stable (r : genv) (e : gexpr) (v : value) : Prop :=
  forall r', incl r r' -> outside_free r' -> eval r' e = Some v.

Lemma stable_incl r r' e v : incl r r' -> stable r e v -> stable r' e v.
Proof. intros I S q Hq Ho. apply S; [by eapply incl_trans|done]. Qed.

Lemma stable_here r e v : outside_free r -> stable r e v -> eval r e = Some v.
Proof. intros Ho S. apply S; [apply incl_refl|done]. Qed.

Lemma outside_not_generated x : outside x -> generated x = false.
Proof. intros [Hf|[Hu _]]; [by apply fixed_not_generated|by apply user_not_generated]. Qed.

Lemma extends_outside r r' : extends r r' -> outside_free r -> outside_free r'.
Proof. intros E Ho x Hx. eapply extends_none; eauto using outside_not_generated. Qed.

Lemma push_incl r : incl r (∅ :: r). Proof. by intros x v. Qed.
Lemma push_outside r : outside_free r -> outside_free (∅ :: r). Proof. intros Ho x Hx. by apply Ho. Qed.

Lemma stable_push r e v : stable r e v -> stable (∅ :: r) e v.
Proof. apply stable_incl, push_incl. Qed.

Lemma fixed_outside x : fixedName x = true -> outside x. Proof. by left. Qed.

(** ** Builders *)

Lemma ebind_inv {A B} (m : EM A) (k : A -> EM B) b c b' :
  ebind m k b = inl (c, b') -> exists a b1, m b = inl (a, b1) /\ k a b1 = inl (c, b').
Proof. unfold ebind. destruct (m b) as [[a b1]|]; [eauto|done]. Qed.

Record bok (b : Builder) : Prop := {
  bok_gen : genDeopt b = false;
  bok_resume : resume b = [];
  bok_deopt : deopt b = h;
  bok_params : length (params b) = length args
}.

(** [b'] is [b] after the statements [P] were hoisted. *)
Record bnext (b b' : Builder) (P : list gstmt) : Prop := {
  bn_pre : pre b' = pre b ++ P;
  bn_tmp : (nTmp b <= nTmp b')%nat;
  bn_flag : (nFlag b <= nFlag b')%nat;
  bn_err : (nErr b <= nErr b')%nat;
  bn_used : deoptUsed b = true -> deoptUsed b' = true;
  bn_ret : bret b' = bret b;
  bn_same : genDeopt b' = genDeopt b /\ resume b' = resume b /\ deopt b' = deopt b /\
            params b' = params b /\ fn b' = fn b
}.

Lemma bnext_refl b : bnext b b [].
Proof. split; auto. by rewrite app_nil_r. Qed.

Lemma bnext_trans b1 b2 b3 P Q : bnext b1 b2 P -> bnext b2 b3 Q -> bnext b1 b3 (P ++ Q).
Proof.
  intros [A1 A2 A3 A4 A5 A6 A7] [B1 B2 B3 B4 B5 B6 B7]. split; try lia; auto; [|congruence|].
  - by rewrite B1, A1, app_assoc.
  - destruct A7 as (? & ? & ? & ? & ?), B7 as (? & ? & ? & ? & ?). split_and!; congruence.
Qed.

Lemma bnext_ok b b' P : bnext b b' P -> bok b -> bok b'.
Proof. intros [_ _ _ _ _ _ (? & ? & ? & Hp & ?)] []. split; try congruence. Qed.

(** The builder's next names are free. *)
Record freshB (b : Builder) (r : genv) : Prop := {
  fr_tmp i : (nTmp b <= i)%nat -> glookup (tmpName i) r = None;
  fr_flag i : (nFlag b <= i)%nat -> glookup (flagName i) r = None;
  fr_exc i : (nErr b <= i)%nat -> glookup (excName i) r = None
}.

Definition snap (r : genv) : Prop :=
  forall i v, args !! i = Some v -> glookup (deoptParam i) r = Some v.

Lemma snap_incl r r' : incl r r' -> snap r -> snap r'.
Proof. intros I S i v Hi. apply I. by apply S. Qed.

Lemma freshB_later b b' P r : bnext b b' P -> freshB b r -> freshB b' r.
Proof. intros N [A B C]. destruct N. split; intros i Hi; [apply A|apply B|apply C]; lia. Qed.

(** ** Guards *)

Definition used (b : Builder) : Builder :=
  mkBuilder (fn b) (params b) (bret b) (deopt b) true (nTmp b) (nFlag b) (nErr b) (nDeopt b)
    (genDeopt b) (pre b) (resume b).

Definition edge (b : Builder) : gstmt := ret [callExpr (ident h) (snapshots b)].

Lemma deoptEdge_spec b : bok b -> deoptEdge b = inl (edge b, used b).
Proof.
  intros [Hg Hr Hd _]. unfold deoptEdge, ebind, bget. rewrite Hg, Hr, Hd. simpl.
  destruct handler_name as (_ & Hne & _). rewrite (proj2 (String.eqb_neq h "") Hne). done.
Qed.

Lemma snapshot_eval r k l :
  (forall i v, l !! i = Some v -> glookup (deoptParam (k + i)) r = Some v) ->
  evals r (map (fun i => ident (deoptParam i)) (seq k (length l))) = Some l.
Proof.
  revert k. induction l as [|v l IH]; intros k Hl; simpl; [done|]. unfold resolve.
  rewrite <- (Nat.add_0_r k) at 1. rewrite (Hl 0%nat v eq_refl). simpl.
  rewrite IH; [done|]. intros i w Hi. rewrite Nat.add_succ_comm. by apply Hl.
Qed.

Lemma edge_exec n b r :
  bok b -> outside_free r -> snap r -> exec n (edge b) r = Some (GTail h args).
Proof.
  intros Hb Ho Hs. unfold edge, ret, callExpr, ident. cbn [GoSem.exec execReturn].
  rewrite (Ho h); [|right; destruct handler_name as (? & _); auto].
  unfold snapshots. rewrite (bok_params _ Hb), snapshot_eval; done.
Qed.

Lemma deopt_if n c o b r :
  bok b -> outside_free r -> (o = true -> snap r) -> eval (∅ :: r) c = Some (VBool o) ->
  exec n (ifStmt c [edge b]) r = Some (if o then GTail h args else GNorm r).
Proof.
  intros Hb Ho Hs Ec. rewrite exec_guard. unfold evalCond. rewrite Ec. cbn -[GoSem.exec edge].
  destruct o; [|done]. rewrite edge_exec; [done|done|by do 2 apply push_outside|].
  eapply snap_incl; [|by apply Hs]. by intros x v.
Qed.

Lemma eval_zero r rp : outside_free r -> exists z, eval r (zero rp) = Some z.
Proof.
  intros Ho. unfold zero, ident. destruct (RScalar rp); simpl; eauto.
  - destruct (RShape rp); [eauto|]. simpl. unfold resolve.
    rewrite (Ho "nil"); [by eexists|by left].
  - unfold resolve. rewrite (Ho "false"); [by eexists|by left].
Qed.

Lemma execReturn2 a b r : execReturn [a; b] r = GRet <$> evals r [a; b].
Proof. destruct a as [| | | |? ?|[] ?| | | | | | | | |]; done. Qed.

Lemma raise_if n c o exc msg rp r :
  outside_free r -> exc = "ZeroDivisionError" \/ exc = "ValueError" ->
  eval (∅ :: r) c = Some (VBool o) ->
  exists z, exec n (ifStmt c [ret [zero rp; callExpr (sel runtimePkg exc) [strLit msg]]]) r =
    Some (if o then GRet [z; VErr (mkExc exc msg)] else GNorm r).
Proof.
  intros Ho He Ec. pose proof (push_outside _ (push_outside _ Ho)) as Ho2.
  destruct (eval_zero _ rp Ho2) as [z Ez]. exists z.
  rewrite exec_guard. unfold evalCond. rewrite Ec. cbn -[GoSem.exec ret]. destruct o; [|done].
  unfold ret. cbn [GoSem.exec]. rewrite execReturn2. cbn [evals]. rewrite Ez.
  unfold callExpr, sel, runtimePkg. rewrite eval_rt by (apply Ho2; by left).
  by destruct He as [-> | ->].
Qed.

(** ** Outcomes *)

(** Python's outcome. *)
Definition allows (p : option pout) (q : pout) : Prop := p = Some q.

(** Running the hoisted statements [P] from [r], with [p] Python's outcome:
    a deopt with the entry arguments (only where a guard fires, [d]), an exception
    Python raises too (never when [nr]), or the value of [e]. *)
Inductive runs (n : nat) (P : list gstmt) (r : genv) (b : Builder) (nr : bool) (e : gexpr)
    (rp : Repr) (d : bool) (p : option pout) : Prop :=
  | RunTail : execs n P r = Some (GTail h args) -> d = true -> runs n P r b nr e rp d p
  | RunRaise z x : execs n P r = Some (GRet [z; VErr x]) -> nr = false -> allows p (PRaise x) ->
      runs n P r b nr e rp d p
  | RunVal r' v : execs n P r = Some (GNorm r') -> extends r r' -> freshB b r' -> stable r' e v ->
      hasRepr rp v = true -> allows p (PRet v) -> runs n P r b nr e rp d p.

(** A value that needs no statements. *)
Lemma runs_pure n f t b nr e rp d p v :
  freshB b (f :: t) -> stable (f :: t) e v -> hasRepr rp v = true -> allows p (PRet v) ->
  runs n [] (f :: t) b nr e rp d p.
Proof. intros Hf Hs Hv Hp. eapply RunVal; eauto using extends_refl. Qed.

Lemma stable_ident r x v : glookup x r = Some v -> stable r (GIdent x) v.
Proof. intros E r' I _. simpl. unfold resolve. by rewrite (I _ _ E). Qed.
End Expressions.
