(* ===== verification/EmitOps.v ===== *)
(** * EmitOps: the operators of the lowering

    What each operator's lowering emits for operands that are already lowered,
    and that running it follows Python. *)

From S2P Require Import Prelude Int64 StaticOps GoSem FloatFacts Emit IrCost PySem EmitTyping EmitEnv.
From S2P Require Import EmitExpr.
Local Open Scope Z_scope.
Local Open Scope emit_scope.

Section Operators.
Context (callee : string -> list value -> value + pyexc).
Context (sigs : string -> option (list Repr * Repr)) (h : string) (args : list value).
Context `{!Program callee sigs h}.

Local Notation execs := (execs callee).
Local Notation exec := (exec callee).
Local Notation outside := (outside sigs h).
Local Notation outside_free := (outside_free sigs h).
Local Notation stable := (stable sigs h).
Local Notation bok := (bok h args).
Local Notation snap := (snap args).
Local Notation runs := (runs callee sigs h args).

(** ** Coercions *)

Lemma hasRepr_scalar r v s : RScalar r = s -> s <> NotScalar -> hasRepr r v = scalarHas s v.
Proof. intros <- Hs. unfold hasRepr. by destruct (RScalar r). Qed.

Lemma isScalar_true s r : isScalar s r = true -> RScalar r = s.
Proof. apply bool_decide_eq_true_1. Qed.

Lemma isScalar_false s r : isScalar s r = false -> RScalar r <> s.
Proof. apply bool_decide_eq_false_1. Qed.

Lemma stable_builtin r f e v w :
  fixedName f = true -> stable r e v -> builtin f [v] = Some w ->
  stable r (callExpr (ident f) [e]) w.
Proof.
  intros Hf Hs Hb r' I Ho. unfold callExpr, ident. rewrite eval_builtin by (apply Ho; by left).
  simpl. by rewrite (Hs r' I Ho).
Qed.

Lemma stable_rt1 r f e v w :
  stable r e v -> rtCall f [v] = Some w -> stable r (callExpr (sel runtimePkg f) [e]) w.
Proof.
  intros Hs Hb r' I Ho. unfold callExpr, sel, runtimePkg. rewrite eval_rt by (apply Ho; by left).
  simpl. by rewrite (Hs r' I Ho).
Qed.

Lemma stable_rt2 r f e1 e2 v1 v2 w :
  stable r e1 v1 -> stable r e2 v2 -> rtCall f [v1; v2] = Some w ->
  stable r (callExpr (sel runtimePkg f) [e1; e2]) w.
Proof.
  intros H1 H2 Hb r' I Ho. unfold callExpr, sel, runtimePkg. rewrite eval_rt by (apply Ho; by left).
  simpl. by rewrite (H1 r' I Ho), (H2 r' I Ho).
Qed.

Lemma toInt_stable r e v rp :
  numeric rp = true -> isScalar SFloat rp = false -> hasRepr rp v = true -> stable r e v ->
  exists z, asZ v = Some z /\ in64 z = true /\ stable r (toInt e rp) (VInt z).
Proof.
  intros Hn Hf Hv Hs. unfold numeric, toInt in *. rewrite Hf, orb_false_r in Hn.
  destruct (isScalar SBool rp) eqn:Eb.
  - rewrite (hasRepr_scalar rp v SBool) in Hv by (by try apply isScalar_true). destruct v; try done.
    eexists. split; [done|]. split; [by destruct b|]. eapply stable_rt1; [done|reflexivity].
  - rewrite orb_false_r in Hn.
    rewrite (hasRepr_scalar rp v SInt) in Hv by (by try apply isScalar_true). destruct v; try done. eauto.
Qed.

Lemma toFloat_stable r e v rp :
  numeric rp = true -> hasRepr rp v = true -> stable r e v ->
  exists x, asF v = Some x /\ stable r (toFloat e rp) (VFloat x).
Proof.
  intros Hn Hv Hs. destruct (isScalar SFloat rp) eqn:Ef.
  - unfold toFloat. rewrite (isScalar_true _ _ Ef).
    rewrite (hasRepr_scalar rp v SFloat) in Hv by (by try apply isScalar_true). destruct v; try done. eauto.
  - destruct (toInt_stable r e v rp Hn Ef Hv Hs) as (z & Ez & _ & Hz). exists (ofInt z).
    assert (stable r (callExpr (ident "float64") [toInt e rp]) (VFloat (ofInt z))) as Hst
      by (by eapply stable_builtin).
    split; [destruct v; simpl in *; by simplify_eq|]. unfold toFloat.
    destruct (RScalar rp) eqn:E; try done.
    + unfold numeric, isScalar in Hn. by rewrite E in Hn.
    + unfold toInt, isScalar in Hst. by rewrite E in Hst.
    + unfold isScalar in Ef. by rewrite E in Ef.
    + unfold numeric, isScalar in Hn. by rewrite E in Hn.
Qed.

Lemma isConst_toInt e rp : isConst (toInt e rp) = true -> isConst e = true.
Proof. unfold toInt. by destruct (isScalar SBool rp). Qed.

Lemma isConst_toFloat e rp : isConst (toFloat e rp) = true -> isConst e = true.
Proof.
  unfold toFloat. destruct (RScalar rp) eqn:E; try done; simpl.
  - unfold toInt, isScalar. by rewrite bool_decide_true.
Qed.

(** ** Binary tokens *)

Lemma stable_binary r op x y v w u :
  op <> LAND -> op <> LOR -> stable r x v -> stable r y w -> binTok op v w = Some u ->
  (forall f, v = VFloat f -> arithTok op && isConst x && isConst y = false) ->
  stable r (binary op x y) u.
Proof.
  intros N1 N2 Hx Hy Hb Hc r' I Ho. unfold binary.
  assert (eval r' (GBinary op x y) = v ← eval r' x; w ← eval r' y;
    match v with
    | VFloat _ => if arithTok op && isConst x && isConst y then None else binTok op v w
    | _ => binTok op v w
    end) as -> by (by destruct op).
  rewrite (Hx r' I Ho), (Hy r' I Ho). simpl. destruct v; try done. by rewrite (Hc f eq_refl).
Qed.

(** ** Hoisted statements *)

Lemma bnext_append b P : forall b', append_ P b = inl (tt, b') -> bnext b b' P.
Proof. intros b' [= <-]. by split. Qed.

(** A check that raises, then the rest. *)
Lemma runs_raise n c o exc msg rp P r b nr e res d p :
  outside_free r -> exc = "ZeroDivisionError" \/ exc = "ValueError" -> stable r c (VBool o) ->
  (o = true -> nr = false /\ allows p (PRaise (mkExc exc msg))) ->
  (o = false -> runs n P r b nr e res d p) ->
  runs n (ifStmt c [ret [zero rp; callExpr (sel runtimePkg exc) [strLit msg]]] :: P) r b nr e res d p.
Proof.
  intros Ho He Hc Ht Hf.
  destruct (raise_if callee sigs h n c o exc msg rp r Ho He) as [z Ez].
  { apply Hc; [apply push_incl|by apply push_outside]. }
  destruct o.
  - destruct (Ht eq_refl). eapply (RunRaise _ _ _ _ _ _ _ _ _ _ _ _ _ z); [|done|done].
    by rewrite execs_cons, Ez.
  - destruct (Hf eq_refl) as [E|z' x E|r' v E]; [eapply RunTail|eapply RunRaise|eapply RunVal];
      try done; by rewrite execs_cons, Ez.
Qed.

Definition afterGuard (b : Builder) (P : list gstmt) : Builder :=
  mkBuilder (fn b) (params b) (bret b) (deopt b) true (S (nTmp b)) (S (nFlag b)) (nErr b) (nDeopt b)
    (genDeopt b) (pre b ++ P) (resume b).

Definition guardStmts (f : string) (lx rx : gexpr) (b : Builder) : list gstmt :=
  [GAssign [ident (tmpName (nTmp b)); ident (flagName (nFlag b))] DEFINE
     [callExpr (sel runtimePkg f) [lx; rx]];
   ifStmt (ident (flagName (nFlag b))) [edge h b]].

Lemma guardedCall_eq f lx rx b :
  bok b -> guardedCall f lx rx b =
    inl ((ident (tmpName (nTmp b)), intRepr), afterGuard b (guardStmts f lx rx b)).
Proof.
  intros Hb. unfold guardedCall, ebind, temp, flag.
  rewrite (deoptEdge_spec callee sigs h args); [done|].
  destruct Hb. by split.
Qed.

Lemma afterGuard_next b P : bnext b (afterGuard b P) P.
Proof. split; simpl; auto. Qed.

Lemma guardedCall_runs n f lx rx x y z o b r nr d p :
  bok b -> outside_free r -> freshB b r -> snap r ->
  stable r lx (VInt x) -> stable r rx (VInt y) ->
  rtCall2 f [VInt x; VInt y] = Some (VInt z, VBool o) ->
  (o = false -> in64 z = true /\ allows p (PRet (VInt z))) -> (o = true -> d = true) -> r <> [] ->
  runs n (guardStmts f lx rx b) r (afterGuard b (guardStmts f lx rx b)) nr
    (ident (tmpName (nTmp b))) intRepr d p.
Proof.
  intros Hb Ho Hf Hs Hx Hy Hc Hp Hd Hne. destruct r as [|fr t]; [done|].
  set (tn := tmpName (nTmp b)). set (fl := flagName (nFlag b)).
  assert (generated tn = true /\ generated fl = true) as [Gt Gf]
    by (destruct (generated_names (nTmp b)) as (? & _), (generated_names (nFlag b)) as (_ & ? & _); done).
  pose proof (fr_tmp _ _ Hf (nTmp b) (le_n _)) as Nt.
  pose proof (fr_flag _ _ Hf (nFlag b) (le_n _)) as Nf. fold tn in Nt. fold fl in Nf.
  set (r1 := <[fl := VBool o]> (<[tn := VInt z]> fr) :: t).
  assert (fl <> tn) as Hft by done.
  assert (extends (fr :: t) r1) as E1.
  { eapply extends_trans; [by apply (extends_insert tn (VInt z))|].
    apply extends_insert; [done|]. rewrite glookup_insert. by rewrite (proj2 (String.eqb_neq fl tn) Hft). }
  assert (exec n (GAssign [ident tn; ident fl] DEFINE [callExpr (sel runtimePkg f) [lx; rx]]) (fr :: t)
    = Some (GNorm r1)) as X1.
  { cbn [GoSem.exec execAssign lhsNames ident mbind option_bind]. unfold call2, callExpr, sel, runtimePkg.
    rewrite (Ho "rt") by (by left). cbn [evals]. rewrite (stable_here _ _ _ _ _ Ho Hx), (stable_here _ _ _ _ _ Ho Hy).
    cbn -[rtCall2 gdefine]. rewrite Hc. cbn -[gdefine].
    rewrite gdefine2; try done; by intros ->. }
  assert (glookup fl r1 = Some (VBool o)) as Lf by (unfold r1; by rewrite glookup_insert, String.eqb_refl).
  assert (glookup tn r1 = Some (VInt z)) as Lt.
  { unfold r1. rewrite !glookup_insert. by rewrite (proj2 (String.eqb_neq tn fl)), String.eqb_refl. }
  pose proof (extends_outside _ _ _ _ E1 Ho) as Ho1.
  assert (exec n (ifStmt (ident fl) [edge h b]) r1 = Some (if o then GTail h args else GNorm r1)) as X2.
  { eapply deopt_if; eauto.
    - intros _. eapply snap_incl; [by apply extends_incl|done].
    - apply (stable_ident sigs h r1); [done|apply push_incl|by apply push_outside]. }
  unfold guardStmts. fold tn fl. destruct o.
  - apply RunTail; [by rewrite execs_cons, X1, execs_cons, X2|auto].
  - destruct (Hp eq_refl) as [Hz Ha]. eapply (RunVal _ _ _ _ _ _ _ _ _ _ _ _ _ r1 (VInt z)); try done.
    + by rewrite execs_cons, X1, execs_cons, X2.
    + split; simpl nTmp; simpl nFlag; simpl nErr; intros i Hi; unfold r1; rewrite !glookup_insert;
        repeat match goal with |- context [String.eqb ?a ?b] => destruct (String.eqb_spec a b) as [E|_] end;
        try (apply tmpName_inj in E; lia); try (apply flagName_inj in E; lia); try done.
      * apply (fr_tmp _ _ Hf). lia.
      * apply (fr_flag _ _ Hf). lia.
      * apply (fr_exc _ _ Hf). lia.
    + by apply stable_ident.
Qed.

(** ** Python's side of the arithmetic *)

Lemma pyBin_ints op v w x y :
  asZ v = Some x -> asZ w = Some y -> pyBits op v w = None ->
  pyBin op v w = Some (match op with OpDiv => pyDivInts x y | _ => pyInts op x y end).
Proof. unfold pyBin. by destruct v, w; simpl; intros ? ? E; simplify_eq; rewrite ?E. Qed.

Lemma no_bits op lr rr v w :
  boolBits op lr rr = false -> numeric lr = true -> numeric rr = true ->
  hasRepr lr v = true -> hasRepr rr w = true -> pyBits op v w = None.
Proof.
  unfold boolBits, numeric, isScalar, hasRepr.
  destruct (RScalar lr) eqn:El, (RScalar rr) eqn:Er; simpl; intros Hb Hl Hr Hv Hw; try done;
    destruct v; try done; destruct w; try done; by destruct op.
Qed.

Lemma pyBin_floats op v w x y :
  asF v = Some x -> asF w = Some y -> asZ v = None \/ asZ w = None ->
  pyBin op v w = pyFloats op x y.
Proof. by destruct v, w; simpl; intros ? ? []; simplify_eq. Qed.

Lemma intBin_py op x y z :
  in64 x = true -> in64 y = true -> intBin op x y = Some (Ret z) ->
  in64 z = true /\ pyInts op x y = PRet (VInt z).
Proof.
  intros Hx Hy E. destruct (intBin_in64 op x y z Hx Hy E) as [Hz Hp]. split; [done|].
  unfold pyInts. by rewrite Hp.
Qed.

(** The emitted check deopts exactly on the results an int64 cannot hold. *)
Lemma intBin_fires op x y :
  in64 x = true -> in64 y = true -> intBin op x y = Some Deopt -> opFires op x y = true.
Proof.
  intros Hx Hy E. pose proof (intBin_agrees_py op x y _ Hx Hy E) as Ha. simpl in Ha. unfold opFires.
  destruct (pyIntOp op x y) as [z| |e] eqn:Ep; [by rewrite (Ha z)|done|].
  destruct op; cbn [pyIntOp intBin] in *; try done; destruct (y =? 0); try done; by destruct (y <? 0).
Qed.

(** Operators that raise nothing by themselves. *)
Definition opQuiet (op : Op) : bool :=
  match op with OpDiv | OpFloorDiv | OpMod | OpLShift | OpRShift => false | _ => true end.

(** What running a lowered operation is expected to do, for every environment
    in which its operands have values of their representations. *)
Definition binRuns (P : list gstmt) (b b' : Builder) (nr : bool) (e : gexpr) (res : Repr)
    (lx : gexpr) (lr : Repr) (rx : gexpr) (rr : Repr) (fire : value -> value -> bool)
    (py : value -> value -> option pout) : Prop :=
  forall n r v w, r <> [] -> outside_free r -> freshB b r -> (deoptUsed b' = true -> snap r) ->
    stable r lx v -> stable r rx w -> hasRepr lr v = true -> hasRepr rr w = true ->
    runs n P r b' nr e res (fire v w) (py v w).

(** The lowering of an operation succeeds, hoisting statements that run so. *)
Definition lowers (m : EM (gexpr * Repr)) (b : Builder) (nr : bool) (res : Repr) (cst : bool)
    (lx : gexpr) (lr : Repr) (rx : gexpr) (rr : Repr) (fire : value -> value -> bool)
    (py : value -> value -> option pout) : Prop :=
  exists e b' P, m b = inl ((e, res), b') /\ bnext b b' P /\ (isConst e = true -> cst = true) /\
    binRuns P b b' nr e res lx lr rx rr fire py.

Lemma lowers_pure e b nr res cst lx lr rx rr fire py :
  (isConst e = true -> cst = true) ->
  (forall r v w, r <> [] -> outside_free r -> stable r lx v -> stable r rx w ->
    hasRepr lr v = true -> hasRepr rr w = true ->
    exists u, stable r e u /\ hasRepr res u = true /\ allows (py v w) (PRet u)) ->
  lowers (eret (e, res)) b nr res cst lx lr rx rr fire py.
Proof.
  intros Hc Hr. exists e, b, []. split_and!; [done|apply bnext_refl|done|].
  intros n r v w Hne Ho Hf _ Hx Hy Hv Hw. destruct (Hr r v w) as (u & Hu & Hru & Ha); try done.
  destruct r; [done|]. by eapply runs_pure.
Qed.

(** The same on operands coerced to int64, the second within [good]. *)
Definition intLowers (m : EM (gexpr * Repr)) (b : Builder) (op : Op) (li ri : gexpr) (cst : bool)
    (good : Z -> bool) : Prop :=
  exists e b' P, m b = inl ((e, intRepr), b') /\ bnext b b' P /\ (isConst e = true -> cst = true) /\
    forall n r x y, r <> [] -> outside_free r -> freshB b r -> (deoptUsed b' = true -> snap r) ->
      stable r li (VInt x) -> stable r ri (VInt y) -> in64 x = true -> in64 y = true ->
      good y = true -> runs n P r b' (opQuiet op) e intRepr (opFires op x y) (Some (pyInts op x y)).

Lemma lowers_int m b op lx lr rx rr cst :
  numeric lr = true -> numeric rr = true -> anyFloat lr rr = false -> op <> OpDiv ->
  boolBits op lr rr = false ->
  intLowers m b op (toInt lx lr) (toInt rx rr) cst (fun _ => true) ->
  lowers m b (opQuiet op) intRepr cst lx lr rx rr (binFires op) (pyBin op).
Proof.
  intros Hl Hr Hfl Hop Hbb (e & b' & P & Em & Hn & Hc & Hrun).
  assert (forall v w, hasRepr lr v = true -> hasRepr rr w = true -> pyBits op v w = None) as Hnb
    by (intros; by eapply no_bits). unfold anyFloat in Hfl. bool_to_prop.
  exists e, b', P. split_and!; try done. intros n r v w Hne Ho Hf Hs Hx Hy Hv Hw.
  destruct (toInt_stable r lx v lr) as (x & Ex & ? & ?); try done.
  destruct (toInt_stable r rx w rr) as (y & Ey & ? & ?); try done.
  rewrite (pyBin_ints op v w x y Ex Ey) by auto. unfold binFires. rewrite Ex, Ey.
  destruct op; try done; by eapply Hrun.
Qed.

Lemma intLowers_guarded f b op li ri good cst :
  bok b ->
  (forall x y, in64 x = true -> in64 y = true -> good y = true -> exists z o,
    rtCall2 f [VInt x; VInt y] = Some (VInt z, VBool o) /\
    intBin op x y = Some (if o then Deopt else Ret z)) ->
  intLowers (guardedCall f li ri) b op li ri cst good.
Proof.
  intros Hb Hcall. eexists _, _, _. split_and!; [by apply guardedCall_eq|apply afterGuard_next|done|].
  intros n r x y Hne Ho Hf Hs Hx Hy Hx64 Hy64 Hg. destruct (Hcall x y Hx64 Hy64 Hg) as (z & o & Ec & Hz).
  eapply guardedCall_runs; try done; [by apply Hs| |]; intros ->.
  - destruct (intBin_py op x y z Hx64 Hy64 Hz) as [? ->]. by split.
  - by apply intBin_fires.
Qed.

(** The expression alone, when it cannot fail. *)
Lemma intLowers_pure e b op li ri good cst :
  (isConst e = true -> cst = true) ->
  (forall r x y, stable r li (VInt x) -> stable r ri (VInt y) -> in64 x = true -> in64 y = true ->
    good y = true -> exists z, intBin op x y = Some (Ret z) /\ stable r e (VInt z)) ->
  intLowers (eret (e, intRepr)) b op li ri cst good.
Proof.
  intros Hc Hr. exists e, b, []. split_and!; [done|apply bnext_refl|done|].
  intros n r x y Hne Ho Hf _ Hx Hy Hx64 Hy64 Hg. destruct (Hr r x y) as (z & E & Hz); try done.
  destruct (intBin_py op x y z Hx64 Hy64 E) as [? ->]. destruct r; [done|].
  eapply runs_pure; [done|done|done|done].
Qed.

(** A check that raises, then the lowering on what it lets through. *)
Lemma intLowers_check c exc msg m b op li ri cst (bad : Z -> bool) :
  bok b -> exc = "ZeroDivisionError" \/ exc = "ValueError" -> opQuiet op = false ->
  (forall r y, stable r ri (VInt y) -> stable r c (VBool (bad y))) ->
  (forall x y, bad y = true -> pyInts op x y = PRaise (mkExc exc msg)) ->
  (forall b1, bok b1 -> intLowers m b1 op li ri cst (fun y => negb (bad y))) ->
  intLowers (ebind (raiseIf c exc msg) (fun _ => m)) b op li ri cst (fun _ => true).
Proof.
  intros Hb He Hq Hc Hbad Hm.
  set (g := ifStmt c [ret [zero (bret b); callExpr (sel runtimePkg exc) [strLit msg]]]).
  set (b1 := mkBuilder (fn b) (params b) (bret b) (deopt b) (deoptUsed b) (nTmp b) (nFlag b) (nErr b)
    (nDeopt b) (genDeopt b) (pre b ++ [g]) (resume b)).
  assert (bnext b b1 [g]) as N1 by (by split).
  destruct (Hm b1) as (e & b' & P & Em & Hn & Hcst & Hrun); [by eapply bnext_ok|].
  exists e, b', (g :: P). split_and!; [done|by apply (bnext_trans _ _ _ [g] P N1)|done|].
  intros n r x y Hne Ho Hf Hs Hx Hy Hx64 Hy64 _.
  eapply (runs_raise n c (bad y)); try done; [by apply Hc| |].
  - intros Eb. split; [done|]. unfold allows. by rewrite (Hbad x y Eb).
  - intros Eb. apply Hrun; try done; [|by rewrite Eb].
    destruct Hf. by split.
Qed.

(** ** The binary operators *)

Lemma rt2_flag f op x y r :
  rtCall2 f [VInt x; VInt y] = Some (withFlag r) -> intBin op x y = Some (guarded r) ->
  exists z o, rtCall2 f [VInt x; VInt y] = Some (VInt z, VBool o) /\
    intBin op x y = Some (if o then Deopt else Ret z).
Proof. intros E ->. destruct r as [z o]. by exists z, o. Qed.

Lemma stable_lit r z : stable r (intLit z) (VInt z). Proof. by intros r' _ _. Qed.
Lemma stable_flit r f : litFloat f = Some (VFloat f) -> stable r (floatLit f) (VFloat f).
Proof. by intros E r' _ _. Qed.

Lemma stable_intCmp r op x y a c u :
  op <> LAND -> op <> LOR -> stable r x (VInt a) -> stable r y (VInt c) -> intTok op a c = Some u ->
  stable r (binary op x y) u.
Proof. intros. by eapply stable_binary. Qed.

Lemma lowerInt_spec op lx lr rx rr b :
  bok b -> numeric lr = true -> numeric rr = true -> anyFloat lr rr = false -> op <> OpDiv ->
  isScalar SStr lr = false -> isScalar SStr rr = false -> boolBits op lr rr = false ->
  lowers (lowerBinOps op lx lr rx rr) b (opQuiet op) intRepr (isConst lx && isConst rx) lx lr rx rr (binFires op) (pyBin op).
Proof.
  intros Hb Hl Hr Hf Hop Sl Sr Hbb. apply lowers_int; try done.
  unfold lowerBinOps. rewrite Sl, Sr, Hl, Hr, Hf. cbn [orb negb].
  set (li := toInt lx lr). set (ri := toInt rx rr).
  assert (forall tk, isConst (binary tk li ri) = true -> isConst lx && isConst rx = true) as Hcb.
  { intros tk Ht. simpl in Ht. bool_to_prop. by rewrite (isConst_toInt lx lr), (isConst_toInt rx rr). }
  destruct op; try done; cbn [tok helper].
  1, 2, 3: apply intLowers_guarded; [done|]; intros x y _ _ _; by eapply rt2_flag.
  - apply (intLowers_check _ _ _ _ _ _ _ _ _ (fun y => y =? 0)); [done|by left|done| | |].
    + intros r y Hy. by eapply stable_intCmp.
    + intros x y Hy. unfold pyInts, pyIntOp. by rewrite Hy.
    + intros b1 Hb1. apply intLowers_guarded; [done|]. intros x y _ _ Hy. bool_to_prop.
      apply (rt2_flag _ _ _ _ (FloorDivInt64 x y)); simpl; by rewrite (proj2 (Z.eqb_neq y 0)).
  - apply (intLowers_check _ _ _ _ _ _ _ _ _ (fun y => y =? 0)); [done|by left|done| | |].
    + intros r y Hy. by eapply stable_intCmp.
    + intros x y Hy. unfold pyInts, pyIntOp. by rewrite Hy.
    + intros b1 Hb1. apply intLowers_pure; [done|]. intros r x y Hx Hy _ _ Hg. bool_to_prop.
      cbn [intBin]. rewrite (proj2 (Z.eqb_neq y 0)) by done. eexists. split; [done|].
      eapply stable_rt2; [done|done|]. simpl. by rewrite (proj2 (Z.eqb_neq y 0)).
  - apply intLowers_guarded; [done|]; intros x y _ _ _; by eapply rt2_flag.
  - apply intLowers_pure; [by apply Hcb|]. intros r x y Hx Hy _ _ _. eexists. split; [done|].
    by eapply stable_intCmp.
  - apply intLowers_pure; [by apply Hcb|]. intros r x y Hx Hy _ _ _. eexists. split; [done|].
    by eapply stable_intCmp.
  - apply intLowers_pure; [by apply Hcb|]. intros r x y Hx Hy _ _ _. eexists. split; [done|].
    by eapply stable_intCmp.
  - apply (intLowers_check _ _ _ _ _ _ _ _ _ (fun y => y <? 0)); [done|by right|done| | |].
    + intros r y Hy. by eapply stable_intCmp.
    + intros x y Hy. unfold pyInts, pyIntOp. by rewrite Hy.
    + intros b1 Hb1. apply intLowers_guarded; [done|]. intros x y _ _ Hy.
      apply negb_true_iff in Hy. apply (rt2_flag _ _ _ _ (LShiftInt64 x y)); simpl; by rewrite ?Hy.
  - apply (intLowers_check _ _ _ _ _ _ _ _ _ (fun y => y <? 0)); [done|by right|done| | |].
    + intros r y Hy. by eapply stable_intCmp.
    + intros x y Hy. unfold pyInts, pyIntOp. by rewrite Hy.
    + intros b1 Hb1. apply intLowers_pure; [done|]. intros r x y Hx Hy _ _ Hg.
      apply negb_true_iff in Hg. cbn [intBin]. rewrite Hg. eexists. split; [done|].
      by eapply stable_rt2.
Qed.

Lemma anyFloat_none lr rr v w :
  anyFloat lr rr = true -> hasRepr lr v = true -> hasRepr rr w = true -> asZ v = None \/ asZ w = None.
Proof.
  unfold anyFloat. intros [H|H]%orb_true_iff Hv Hw; apply isScalar_true in H.
  - left. rewrite (hasRepr_scalar lr v SFloat) in Hv by done. by destruct v.
  - right. rewrite (hasRepr_scalar rr w SFloat) in Hw by done. by destruct w.
Qed.

(** Float arithmetic other than division. *)
Lemma lowerFloat_spec op lx lr rx rr b :
  numeric lr = true -> numeric rr = true -> anyFloat lr rr = true ->
  op = OpAdd \/ op = OpSub \/ op = OpMul -> isConst lx && isConst rx = false ->
  lowers (eret (binary (tok op) (toFloat lx lr) (toFloat rx rr), floatRepr)) b (opQuiet op) floatRepr
    (isConst lx && isConst rx) lx lr rx rr (binFires op) (pyBin op).
Proof.
  intros Hl Hr Hf Hop Hc.
  assert (isConst (toFloat lx lr) && isConst (toFloat rx rr) = false) as Hcf.
  { apply not_true_iff_false. intros Ht. bool_to_prop.
    by rewrite (isConst_toFloat lx lr), (isConst_toFloat rx rr) in Hc. }
  apply lowers_pure; [simpl; by rewrite Hcf|]. intros r v w Hne Ho Hx Hy Hv Hw.
  destruct (toFloat_stable r lx v lr Hl Hv Hx) as (x & Ex & Hxs).
  destruct (toFloat_stable r rx w rr Hr Hw Hy) as (y & Ey & Hys).
  exists (VFloat (match op with OpSub => fsub x y | OpMul => fmul x y | _ => fadd x y end)).
  rewrite (pyBin_floats op v w x y Ex Ey) by (by eapply anyFloat_none).
  split; [|split; [done|by destruct Hop as [->|[->| ->]]]].
  eapply stable_binary; [by destruct Hop as [->|[->| ->]]|by destruct Hop as [->|[->| ->]]|done|done| |].
  - by destruct Hop as [->|[->| ->]].
  - intros _ _. by rewrite <- andb_assoc, Hcf, andb_false_r.
Qed.

(** True division: the check of the divisor, then the quotient. *)
Lemma lowerDiv_spec lx lr rx rr b :
  bok b -> numeric lr = true -> numeric rr = true -> isConst lx && isConst rx = false ->
  lowers (_ <- guardZeroDiv (toFloat rx rr) ;; eret (binary QUO (toFloat lx lr) (toFloat rx rr), floatRepr))
    b false floatRepr (isConst lx && isConst rx) lx lr rx rr (binFires OpDiv) (pyBin OpDiv).
Proof.
  intros Hb Hl Hr Hc.
  assert (isConst (toFloat lx lr) && isConst (toFloat rx rr) = false) as Hcf.
  { apply not_true_iff_false. intros Ht. bool_to_prop.
    by rewrite (isConst_toFloat lx lr), (isConst_toFloat rx rr) in Hc. }
  set (c := binary EQL (toFloat rx rr) (floatLit fzero)).
  eexists _, _, [ifStmt c [ret [zero (bret b); callExpr (sel runtimePkg "ZeroDivisionError")
    [strLit "division by zero"]]]]. split_and!; [reflexivity|by split|simpl; by rewrite Hcf|].
  intros n r v w Hne Ho Hf _ Hx Hy Hv Hw.
  destruct (toFloat_stable r lx v lr Hl Hv Hx) as (x & Ex & Hxs).
  destruct (toFloat_stable r rx w rr Hr Hw Hy) as (y & Ey & Hys).
  assert (stable r c (VBool (SFeqb y fzero))) as Hcs.
  { eapply stable_binary; [done|done|done|by apply stable_flit|done|done]. }
  assert (allows (pyBin OpDiv v w) (if SFeqb y fzero then PRaise excZeroDiv else PRet (VFloat (fdiv x y)))) as Ha.
  { destruct (asZ v) as [a|] eqn:Ea, (asZ w) as [d|] eqn:Ed.
    1: { rewrite (pyBin_ints OpDiv v w a d Ea Ed) by by destruct v, w. unfold pyDivInts.
         assert (x = ofInt a) as -> by (destruct v; simpl in *; congruence).
         assert (y = ofInt d) as -> by (destruct w; simpl in *; congruence).
         destruct (Z.eqb_spec d 0) as [->|Hd]; [done|].
         rewrite (ofInt_nonzero d Hd). done. }
    all: rewrite (pyBin_floats OpDiv v w x y Ex Ey) by auto; unfold allows; simpl; unfold pyDivFloats;
      by destruct (SFeqb y fzero). }
  eapply (runs_raise n c (SFeqb y fzero)); [done|by left|done| |].
  - intros E. rewrite E in Ha. done.
  - intros E. rewrite E in Ha. destruct r; [done|]. eapply runs_pure; [by destruct Hf|..|done].
    + eapply stable_binary; [done|done|done|done|done|].
      intros _ _. by rewrite <- andb_assoc, Hcf, andb_false_r.
    + done.
Qed.

Lemma lowerStr_spec lx lr rx rr b :
  isScalar SStr lr = true -> isScalar SStr rr = true ->
  lowers (eret (binary ADD lx rx, strRepr)) b true strRepr (isConst lx && isConst rx) lx lr rx rr (binFires OpAdd) (pyBin OpAdd).
Proof.
  intros Hl Hr. apply lowers_pure; [done|]. intros r v w Hne Ho Hx Hy Hv Hw.
  rewrite (hasRepr_scalar lr v SStr) in Hv by (by try apply isScalar_true).
  rewrite (hasRepr_scalar rr w SStr) in Hw by (by try apply isScalar_true).
  destruct v; try done. destruct w; try done. eexists. split; [|split; [|done]]; [|done].
  by eapply stable_binary.
Qed.

(** Every pair of operands the type rule accepts is lowered, to code that
    follows Python. *)
Lemma lowerBinOps_spec op lx lr rx rr res b :
  bok b -> binResult op lr rr = Some res -> boolBits op lr rr = false ->
  (isScalar SFloat res = true -> isConst lx && isConst rx = false) ->
  lowers (lowerBinOps op lx lr rx rr) b (opQuiet op) res (isConst lx && isConst rx) lx lr rx rr (binFires op) (pyBin op).
Proof.
  intros Hb Hres Hbb Hc. unfold binResult in Hres.
  destruct (isScalar SStr lr || isScalar SStr rr) eqn:Es.
  { destruct (decide (op = OpAdd)) as [->|]; [|by destruct op].
    unfold lowerBinOps. rewrite Es. rewrite bool_decide_true in * by done. cbn [negb orb] in *.
    destruct (isScalar SStr lr) eqn:El, (isScalar SStr rr) eqn:Er; try done. injection Hres as <-.
    by apply lowerStr_spec. }
  destruct (negb (numeric lr) || negb (numeric rr)) eqn:En; [done|].
  apply orb_false_iff in En as [En%negb_false_iff Hn%negb_false_iff].
  destruct (anyFloat lr rr) eqn:Ef.
  - assert (op = OpDiv \/ op = OpAdd \/ op = OpSub \/ op = OpMul) as Hop by (destruct op; auto; done).
    assert (res = floatRepr) as -> by (destruct Hop as [->|[->|[->| ->]]]; by injection Hres as <-).
    unfold lowerBinOps. rewrite Es, En, Hn, Ef. cbn [negb orb].
    specialize (Hc eq_refl). destruct Hop as [->|Hop].
    + by apply lowerDiv_spec.
    + destruct Hop as [->|[->| ->]]; by (apply lowerFloat_spec; auto).
  - destruct (decide (op = OpDiv)) as [->|Hop].
    + injection Hres as <-. unfold lowerBinOps. rewrite Es, En, Hn. cbn [negb orb].
      by apply lowerDiv_spec; auto.
    + assert (res = intRepr) as -> by (destruct op; by injection Hres as <-).
      apply orb_false_iff in Es as []. by apply lowerInt_spec.
Qed.

(** ** Comparisons *)

Lemma cmpTok_plain op : cmpTok op <> LAND /\ cmpTok op <> LOR /\ arithTok (cmpTok op) = false.
Proof. by destruct op. Qed.

Lemma cmpFloat_some op x y : exists c, cmpFloat (cmpTok op) x y = Some (VBool c).
Proof. destruct op; simpl; eauto. Qed.

Lemma cmpBy_some op e l t : exists c, cmpBy (cmpTok op) e l t = Some (VBool c).
Proof. destruct op; simpl; eauto. Qed.

Lemma floatTok_cmp op x y : floatTok (cmpTok op) x y = cmpFloat (cmpTok op) x y.
Proof. by destruct op. Qed.

Lemma intTok_cmp op x y : intTok (cmpTok op) x y = cmpBy (cmpTok op) (x =? y) (x <? y) (x <=? y).
Proof. by destruct op. Qed.

Lemma strTok_cmp op x y :
  strTok (cmpTok op) x y = cmpBy (cmpTok op) (String.eqb x y) (String.ltb x y) (String.leb x y).
Proof. by destruct op. Qed.


Lemma arith_numeric r : arith r = true -> numeric r = true.
Proof. unfold arith, numeric. by intros ->. Qed.

Lemma arith_value r v : arith r = true -> hasRepr r v = true ->
  (isScalar SInt r = true /\ exists z, v = VInt z) \/ (isScalar SFloat r = true /\ exists x, v = VFloat x).
Proof.
  unfold arith. intros [E|E]%orb_true_iff Hv; [left|right]; (split; [done|]);
    apply isScalar_true in E; rewrite (hasRepr_scalar r v _ E) in Hv by done; destruct v; try done; eauto.
Qed.

Lemma mixed_cmp op v w x y lr rr c :
  arith lr = true -> arith rr = true -> anyFloat lr rr = true ->
  hasRepr lr v = true -> hasRepr rr w = true -> asF v = Some x -> asF w = Some y ->
  cmpFloat (cmpTok op) x y = Some c -> allows (pyCmp op v w) (PRet c).
Proof.
  intros Al Ar Hf Hv Hw Ex Ey Hc.
  destruct (anyFloat_none lr rr v w Hf Hv Hw) as [Hz|Hz];
  destruct (arith_value lr v Al Hv) as [[_ [a ->]]|[_ [a ->]]];
  destruct (arith_value rr w Ar Hw) as [[_ [d ->]]|[_ [d ->]]]; try done; simpl in *; simplify_eq;
    unfold pyCmpMixed; simpl; unfold allows; simpl; by rewrite Hc.
Qed.

Lemma lowerCmpOps_spec op lx lr rx rr b nr :
  cmpOperands op lr rr = true ->
  lowers (lowerCmpOps op lx lr rx rr) b nr boolRepr (isConst lx && isConst rx) lx lr rx rr (fun _ _ => false) (pyCmp op).
Proof.
  intros Hop. destruct (cmpTok_plain op) as (N1 & N2 & Na). unfold cmpOperands in Hop. unfold lowerCmpOps.
  destruct (arith lr && arith rr) eqn:Ea.
  - apply andb_true_iff in Ea as [Al Ar]. destruct (anyFloat lr rr) eqn:Ef.
    + apply lowers_pure.
      { simpl. intros Ht. bool_to_prop. by rewrite (isConst_toFloat lx lr), (isConst_toFloat rx rr). }
      intros r v w Hne Ho Hx Hy Hv Hw.
      destruct (toFloat_stable r lx v lr (arith_numeric _ Al) Hv Hx) as (x & Ex & Hxs).
      destruct (toFloat_stable r rx w rr (arith_numeric _ Ar) Hw Hy) as (y & Ey & Hys).
      destruct (cmpFloat_some op x y) as [c Hc]. exists (VBool c).
      split; [|split; [done|by apply (mixed_cmp op v w x y lr rr)]].
      eapply stable_binary; [done|done|done|done| |by rewrite Na]. simpl. by rewrite floatTok_cmp.
    + apply lowers_pure; [done|]. intros r v w Hne Ho Hx Hy Hv Hw.
      unfold anyFloat in Ef. bool_to_prop.
      destruct (arith_value lr v Al Hv) as [[_ [x ->]]|[? _]]; [|congruence].
      destruct (arith_value rr w Ar Hw) as [[_ [y ->]]|[? _]]; [|congruence].
      destruct (cmpBy_some op (x =? y) (x <? y) (x <=? y)) as [c Hc]. exists (VBool c).
      split; [|split; [done|unfold allows; simpl; by rewrite Hc]].
      eapply stable_intCmp; [done|done|done|done|]. by rewrite intTok_cmp.
  - rewrite orb_false_l in Hop. rewrite Hop. apply lowers_pure; [done|].
    intros r v w Hne Ho Hx Hy Hv Hw. apply orb_true_iff in Hop as [Hop|Hop]; bool_to_prop.
    + rewrite (hasRepr_scalar lr v SStr) in Hv by (by try apply isScalar_true).
      rewrite (hasRepr_scalar rr w SStr) in Hw by (by try apply isScalar_true).
      destruct v as [| | |x| | | |]; try done. destruct w as [| | |y| | | |]; try done.
      destruct (cmpBy_some op (String.eqb x y) (String.ltb x y) (String.leb x y)) as [c Hc]. exists (VBool c).
      split; [|split; [done|unfold allows; simpl; by rewrite Hc]].
      eapply stable_binary; [done|done|done|done| |done]. simpl. by rewrite strTok_cmp.
    + rewrite (hasRepr_scalar lr v SBool) in Hv by (by try apply isScalar_true).
      rewrite (hasRepr_scalar rr w SBool) in Hw by (by try apply isScalar_true).
      destruct v as [| |x| | | | |]; try done. destruct w as [| |y| | | | |]; try done.
      exists (VBool (match op with CmpEq => Bool.eqb x y | _ => negb (Bool.eqb x y) end)).
      split; [|split; [done|by destruct op]].
      eapply stable_binary; [done|done|done|done| |done]. by destruct op.
Qed.

(** ** Connectives and negation *)

Lemma parenConn_stable r e v : stable r e v -> stable r (parenConn e) v.
Proof. intros Hs r' I Ho. specialize (Hs r' I Ho). destruct e as [| | | | | |[]| | | | | | | |]; done. Qed.

Lemma isConst_parenConn e : isConst (parenConn e) = isConst e.
Proof. by destruct e as [| | | | | |[]| | | | | | | |]. Qed.

Lemma stable_not_paren r x v : stable r x v -> stable r (match x with GBinary _ _ _ => paren x | _ => x end) v.
Proof. intros Hs r' I Ho. specialize (Hs r' I Ho). by destruct x. Qed.

Lemma noRaise_HasRaisingGuard e : noRaise e = true -> HasRaisingGuard e = false.
Proof.
  induction e; simpl; intros Hq; try done; bool_to_prop; auto.
  - destruct O; try done; bool_to_prop; rewrite IHe1, IHe2; done.
  - by rewrite IHe1, IHe2.
  - by rewrite IHe1, IHe2.
  - by rewrite IHe1, IHe2.
Qed.

(** The value of a connective when both operands have been evaluated. *)
Definition connVal (op : token) (v w : value) : option value :=
  match truth v, op with
  | Some true, LOR | Some false, LAND => Some v
  | Some _, (LAND | LOR) => Some w
  | _, _ => None
  end.

Lemma truth_scalar r v : connScalar (RScalar r) = true -> hasRepr r v = true -> exists c, truth v = Some c.
Proof. unfold hasRepr. destruct (RScalar r); try done; destruct v; try done; simpl; eauto. Qed.

(** A connective yields one of its operands. *)
Lemma lowerBoolOps_spec op er lx lr rx rr b :
  (op = LAND \/ op = LOR) -> sameScalar lr rr = true -> connScalar (RScalar lr) = true -> noRaise er = true ->
  exists e, lowerBoolOps op er lx lr rx rr b = inl ((e, connRepr lr), b) /\
    (isConst e = true -> isConst lx && isConst rx = true) /\
    forall r v w, stable r lx v -> stable r rx w -> hasRepr lr v = true -> hasRepr rr w = true ->
      exists u, connVal op v w = Some u /\ stable r e u /\ hasRepr (connRepr lr) u = true.
Proof.
  intros Hop Hs Hcs Hq. apply bool_decide_eq_true in Hs.
  unfold lowerBoolOps, connRepr. rewrite (noRaise_HasRaisingGuard er Hq).
  assert (isScalar SBool rr = isScalar SBool lr) as -> by (unfold isScalar; by rewrite Hs).
  destruct (isScalar SBool lr) eqn:Eb; cbn [andb].
  - eexists. split; [done|]. split; [simpl; by rewrite !isConst_parenConn|].
    intros r v w Hx Hy Hv Hw. apply isScalar_true in Eb.
    rewrite (hasRepr_scalar lr v SBool) in Hv by done.
    rewrite (hasRepr_scalar rr w SBool) in Hw by (done || congruence).
    destruct v as [| |x| | | | |]; try done. destruct w as [| |y| | | | |]; try done.
    apply parenConn_stable in Hx, Hy.
    destruct Hop as [->| ->], x; (eexists; split; [done|]; split; [|done]);
      intros r' I Ho; unfold binary; cbn [eval]; rewrite (Hx r' I Ho); simpl; by rewrite ?(Hy r' I Ho).
  - assert (sameScalar lr rr = true) as -> by (by apply bool_decide_eq_true).
    destruct (RScalar lr) eqn:El; try done; [by unfold isScalar in Eb; rewrite El in Eb|..];
    (eexists; split; [by destruct Hop as [->| ->]|]; split; [done|]);
    intros r v w Hx Hy Hv Hw; pose proof Hv as Hv'; pose proof Hw as Hw';
    rewrite (hasRepr_scalar lr v _ El) in Hv by done; rewrite (hasRepr_scalar rr w _ (eq_sym Hs)) in Hw by done;
    destruct v as [x|x|x|x| | | |]; try done; destruct w as [y|y|y|y| | | |]; try done.
    + destruct Hop as [->| ->]; [exists (VInt (AndInt64 x y))|exists (VInt (OrInt64 x y))];
        (split; [unfold connVal, AndInt64, OrInt64; simpl; by destruct (x =? 0)|]);
        (split; [by eapply stable_rt2|]); unfold AndInt64, OrInt64, hasRepr in *; rewrite El, <- ?Hs in *; destruct (x =? 0); done.
    + destruct Hop as [->| ->]; [exists (VFloat (AndFloat64 x y))|exists (VFloat (OrFloat64 x y))];
        (split; [unfold connVal, AndFloat64, OrFloat64; simpl; by destruct (SFeqb x fzero)|]);
        (split; [by eapply stable_rt2|]); unfold hasRepr; by rewrite El.
    + destruct Hop as [->| ->]; [exists (VStr (AndStr x y))|exists (VStr (OrStr x y))];
        (split; [unfold connVal, AndStr, OrStr; simpl; by destruct (String.eqb x "")|]);
        (split; [by eapply stable_rt2|]); unfold hasRepr; by rewrite El.
Qed.

Lemma lowerNot_spec x xr b :
  isScalar SBool xr = true ->
  exists e, lowerNotOp x xr b = inl ((e, boolRepr), b) /\ (isConst e = true -> isConst x = true) /\
    forall r v, stable r x v -> hasRepr xr v = true ->
      exists c, truth v = Some c /\ stable r e (VBool (negb c)).
Proof.
  intros Hs. unfold lowerNotOp. rewrite Hs. eexists. split; [done|]. split; [by destruct x|].
  intros r v Hx Hv. rewrite (hasRepr_scalar xr v SBool) in Hv by (by try apply isScalar_true).
  destruct v as [| |c| | | | |]; try done. exists c. split; [done|].
  apply stable_not_paren in Hx. intros r' I Ho. cbn [eval]. by rewrite (Hx r' I Ho).
Qed.

(** ** Fresh names *)

(** Binding two generated names that the builder had not used yet. *)
Lemma fresh_two f t x y v w :
  generated x = true -> generated y = true -> x <> y ->
  glookup x (f :: t) = None -> glookup y (f :: t) = None ->
  let r' := <[y := w]> (<[x := v]> f) :: t in
  extends (f :: t) r' /\ glookup x r' = Some v /\ glookup y r' = Some w /\
  (forall z, z <> x -> z <> y -> glookup z r' = glookup z (f :: t)).
Proof.
  intros Gx Gy Hxy Nx Ny r'. unfold r'. split_and!.
  - eapply extends_trans; [by apply (extends_insert x v)|]. apply extends_insert; [done|].
    rewrite glookup_insert. by rewrite (proj2 (String.eqb_neq y x)).
  - rewrite !glookup_insert, String.eqb_refl. by rewrite (proj2 (String.eqb_neq x y)).
  - by rewrite glookup_insert, String.eqb_refl.
  - intros z Hx Hy. by rewrite !glookup_insert, (proj2 (String.eqb_neq z x)), (proj2 (String.eqb_neq z y)).
Qed.

Lemma gen_ne_blank x : generated x = true -> x <> "_".
Proof. by intros Hg ->. Qed.

Lemma define_exec n x e v f t :
  x <> "_" -> glookup x (f :: t) = None -> eval (f :: t) e = Some v ->
  exec n (define x e) (f :: t) = Some (GNorm (<[x := v]> f :: t)).
Proof.
  intros Hx Hn He. unfold define, ident. cbn -[eval gdefine]. rewrite He. cbn -[gdefine].
  by rewrite gdefine1.
Qed.

(** ** Indexing *)

Definition afterIndex (b : Builder) (P : list gstmt) : Builder :=
  mkBuilder (fn b) (params b) (bret b) (deopt b) true (S (S (nTmp b))) (nFlag b) (nErr b) (nDeopt b)
    (genDeopt b) (pre b ++ P) (resume b).

Definition outOfBounds (base idx : string) : gexpr :=
  binary LOR (binary LSS (ident idx) (intLit 0))
    (binary GEQ (ident idx) (callExpr (ident "int64") [callExpr (ident "len") [ident base]])).

Definition indexStmts (bx ix : gexpr) (b : Builder) : list gstmt :=
  [define (tmpName (nTmp b)) bx; define (tmpName (S (nTmp b))) ix;
   ifStmt (outOfBounds (tmpName (nTmp b)) (tmpName (S (nTmp b)))) [edge h b]].

Lemma lowerIndexOf_eq bx elem ix ir b :
  bok b -> isScalar SInt ir = true -> lowerIndexOf bx elem ix ir b =
    inl ((GIndex (ident (tmpName (nTmp b))) (ident (tmpName (S (nTmp b)))), elem),
         afterIndex b (indexStmts bx ix b)).
Proof.
  intros Hb Hi. unfold lowerIndexOf. rewrite Hi. unfold ebind, temp. cbn [negb].
  rewrite (deoptEdge_spec callee sigs h args); [done|]. destruct Hb. by split.
Qed.

Lemma afterIndex_next b P : bnext b (afterIndex b P) P.
Proof. split; simpl; auto. Qed.

Lemma outOfBounds_stable r base idx l z :
  glookup base r = Some (VList l) -> glookup idx r = Some (VInt z) ->
  stable r (outOfBounds base idx) (VBool ((z <? 0) || (Z.of_nat (length l) <=? z))).
Proof.
  intros Hb Hi r' I Ho. unfold outOfBounds, binary, intLit, callExpr, ident.
  cbn [eval]. unfold resolve. rewrite (I _ _ Hi), (I _ _ Hb), (Ho "int64"), (Ho "len") by (by left).
  simpl. destruct (z <? 0) eqn:E; simpl; [done|]. unfold intTok. simpl. f_equal. f_equal. lia.
Qed.

Lemma lowerIndex_runs n bx elem ix b r l z nr :
  bok b -> outside_free r -> freshB b r -> snap r -> r <> [] ->
  stable r bx (VList l) -> stable r ix (VInt z) ->
  forallb (scalarHas (RScalar elem)) l = true -> isScalar NotScalar elem = false ->
  runs n (indexStmts bx ix b) r (afterIndex b (indexStmts bx ix b)) nr
    (GIndex (ident (tmpName (nTmp b))) (ident (tmpName (S (nTmp b))))) elem
    (idxFires (VList l) (VInt z)) (pyIndex (VList l) (VInt z)).
Proof.
  intros Hb Ho Hf Hs Hne Hx Hy Hl Hel. destruct r as [|fr t]; [done|].
  set (x := tmpName (nTmp b)). set (y := tmpName (S (nTmp b))).
  assert (generated x = true /\ generated y = true) as [Gx Gy] by (by split; apply generated_names).
  assert (x <> y) as Hxy by (intros E; apply tmpName_inj in E; lia).
  assert (glookup x (fr :: t) = None) as Nx by (apply (fr_tmp _ _ Hf); lia).
  assert (glookup y (fr :: t) = None) as Ny by (apply (fr_tmp _ _ Hf); lia).
  destruct (fresh_two fr t x y (VList l) (VInt z) Gx Gy Hxy Nx Ny) as (E2 & L1 & L2 & L3).
  set (r2 := <[y := VInt z]> (<[x := VList l]> fr) :: t) in *.
  assert (extends (fr :: t) (<[x := VList l]> fr :: t)) as E1 by (by apply extends_insert).
  pose proof (extends_outside _ _ _ _ E1 Ho) as Ho1. pose proof (extends_outside _ _ _ _ E2 Ho) as Ho2.
  assert (execs n (indexStmts bx ix b) (fr :: t) =
    Some (if (z <? 0) || (Z.of_nat (length l) <=? z) then GTail h args else GNorm r2)) as X.
  { unfold indexStmts. fold x y.
    rewrite execs_cons, (define_exec n x bx (VList l));
      [|by apply gen_ne_blank|done|by eapply stable_here].
    rewrite execs_cons, (define_exec n y ix (VInt z)); [|by apply gen_ne_blank| |].
    - fold r2. rewrite execs_cons.
      rewrite (deopt_if callee sigs h args n _ ((z <? 0) || (Z.of_nat (length l) <=? z)) b r2);
        [by destruct (_ || _)|done|done| |].
      + intros _. eapply snap_incl; [by apply extends_incl|done].
      + apply (outOfBounds_stable r2); [done|done|apply push_incl|by apply push_outside].
    - rewrite glookup_insert. by rewrite (proj2 (String.eqb_neq y x)).
    - apply Hy; [by apply extends_incl|done]. }
  destruct ((z <? 0) || (Z.of_nat (length l) <=? z)) eqn:Eo; [by apply RunTail|].
  apply orb_false_iff in Eo as [Ez El].
  destruct (lookup_lt_is_Some_2 l (Z.to_nat z)) as [v Ev]; [lia|].
  eapply (RunVal _ _ _ _ _ _ _ _ _ _ _ _ _ r2 v); [done|done| | | |].
  - split; simpl nTmp; simpl nFlag; simpl nErr; intros i Hi; (rewrite L3; [by apply Hf; lia|..]);
      try (by intros E%tmpName_inj; lia); done.
  - intros r' I Ho'. cbn [eval ident]. unfold ident. cbn [eval]. unfold resolve.
    rewrite (I _ _ L1), (I _ _ L2). simpl. by rewrite Ez.
  - unfold hasRepr. apply isScalar_false in Hel.
    assert (scalarHas (RScalar elem) v = true) as Hv.
    { rewrite forallb_forall in Hl. apply Hl. apply list_elem_of_In. by eapply list_elem_of_lookup_2. }
    by destruct (RScalar elem).
  - unfold allows. simpl. rewrite Ez. simpl. rewrite Ez, El. simpl. by rewrite Ev.
Qed.

(** ** Calls *)

Lemma evals_stable r es vs : outside_free r -> Forall2 (stable r) es vs -> evals r es = Some vs.
Proof.
  intros Ho. induction 1 as [|e v es vs He Hes IH]; simpl; [done|].
  by rewrite (stable_here _ _ _ _ _ Ho He), IH.
Qed.

Definition afterCall (b : Builder) (P : list gstmt) : Builder :=
  mkBuilder (fn b) (params b) (bret b) (deopt b) (deoptUsed b) (S (nTmp b)) (nFlag b) (S (nErr b))
    (nDeopt b) (genDeopt b) (pre b ++ P) (resume b).

Definition errCheck (x : string) (rp : Repr) : gstmt :=
  ifStmt (binary NEQ (ident x) (ident "nil")) [ret [zero rp; ident x]].

Definition callStmts (name : string) (xs : list gexpr) (b : Builder) : list gstmt :=
  [GAssign [ident (tmpName (nTmp b)); ident (excName (nErr b))] DEFINE [callExpr (ident name) xs];
   errCheck (excName (nErr b)) (bret b)].

Lemma lowerCallOf_eq name xs rp b :
  lowerCallOf name xs rp b = inl ((ident (tmpName (nTmp b)), rp), afterCall b (callStmts name xs b)).
Proof. done. Qed.

Lemma afterCall_next b P : bnext b (afterCall b P) P.
Proof. split; simpl; auto. Qed.

(** The error check propagates an exception and lets nil through. *)
Lemma errCheck_exec n x rp r e :
  outside_free r -> glookup x r = Some e -> (e = VNil \/ exists ex, e = VErr ex) ->
  exists z, exec n (errCheck x rp) r =
    Some (match e with VErr ex => GRet [z; VErr ex] | _ => GNorm r end).
Proof.
  intros Ho Hx He. pose proof (push_outside _ _ _ (push_outside _ _ _ Ho)) as Ho2.
  destruct (eval_zero _ _ _ rp Ho2) as [z Ez]. exists z. unfold errCheck. rewrite exec_guard.
  assert (evalCond (binary NEQ (ident x) (ident "nil")) (∅ :: r) =
    Some (match e with VErr _ => true | _ => false end)) as ->.
  { unfold evalCond, binary, ident. cbn [eval]. unfold resolve. cbn [glookup]. rewrite !lookup_empty, Hx.
    rewrite (Ho "nil") by (by left). destruct He as [->|[ex ->]]; done. }
  destruct He as [->|[ex ->]]; cbn -[GoSem.exec ret]; [done|].
  unfold ret. cbn [GoSem.exec]. rewrite execReturn2. cbn [evals]. rewrite Ez.
  unfold ident. cbn [eval]. unfold resolve. cbn [glookup]. by rewrite !lookup_empty, Hx.
Qed.

Lemma call2_static r name xs vs :
  outside_free r -> outside name -> Forall2 (stable r) xs vs ->
  call2 callee r (callExpr (ident name) xs) =
  Some (match callee name vs with inl v => (v, VNil) | inr e => (VNil, VErr e) end).
Proof.
  intros Ho Hn Hvs. unfold callExpr, ident, call2. by rewrite (Ho name Hn), (evals_stable r xs vs Ho Hvs).
Qed.

Lemma lowerCall_runs n name xs vs rp b r nr d :
  outside_free r -> freshB b r -> r <> [] -> outside name -> Forall2 (stable r) xs vs ->
  (forall v, callee name vs = inl v -> hasRepr rp v = true) -> nr = false ->
  runs n (callStmts name xs b) r (afterCall b (callStmts name xs b)) nr (ident (tmpName (nTmp b))) rp
    d (Some (pyCall callee name vs)).
Proof.
  intros Ho Hf Hne Hname Hvs Hty Hnr. destruct r as [|fr t]; [done|].
  set (x := tmpName (nTmp b)). set (y := excName (nErr b)).
  assert (generated x = true /\ generated y = true) as [Gx Gy] by (by split; apply generated_names).
  assert (glookup x (fr :: t) = None) as Nx by (apply (fr_tmp _ _ Hf); lia).
  assert (glookup y (fr :: t) = None) as Ny by (apply (fr_exc _ _ Hf); lia).
  set (p := match callee name vs with inl v => (v, VNil) | inr e => (VNil, VErr e) end).
  destruct (fresh_two fr t x y p.1 p.2 Gx Gy ltac:(done) Nx Ny) as (E2 & L1 & L2 & L3).
  set (r2 := <[y := p.2]> (<[x := p.1]> fr) :: t) in *.
  pose proof (extends_outside _ _ _ _ E2 Ho) as Ho2.
  assert (exec n (GAssign [ident x; ident y] DEFINE [callExpr (ident name) xs]) (fr :: t) =
    Some (GNorm r2)) as X1.
  { cbn [GoSem.exec execAssign lhsNames ident mbind option_bind].
    rewrite (call2_static _ name xs vs Ho Hname Hvs). fold p. cbn -[gdefine].
    by rewrite gdefine2; auto using gen_ne_blank. }
  destruct (errCheck_exec n y (bret b) r2 p.2 Ho2 L2) as [z X2].
  { unfold p. destruct (callee name vs); simpl; eauto. }
  assert (execs n (callStmts name xs b) (fr :: t) =
    Some (match p.2 with VErr ex => GRet [z; VErr ex] | _ => GNorm r2 end)) as X.
  { unfold callStmts. fold x y. rewrite execs_cons, X1, execs_cons, X2. by destruct p.2. }
  unfold p, pyCall in *. destruct (callee name vs) as [v|e] eqn:Ec; cbn [fst snd] in *.
  - eapply (RunVal _ _ _ _ _ _ _ _ _ _ _ _ _ r2 v); [done|done| |by apply stable_ident|by apply Hty|done].
    split; simpl nTmp; simpl nFlag; simpl nErr; intros i Hi; (rewrite L3; [by apply Hf; lia|..]);
      try (by intros E%tmpName_inj; lia); try (by intros E%excName_inj; lia); done.
  - eapply RunRaise; [done|done|done].
Qed.

(** ** Attributes *)

Lemma lowerAttr_spec name bx br s fr b :
  RShape br = Some s -> Field s name = Some fr -> isScalar NotScalar fr = false ->
  isScalar NotScalar br = true -> Elem br = None ->
  lowerAttrOf name bx br b = inl ((GSel bx name, fr), b) /\
  forall r v, stable r bx v -> hasRepr br v = true ->
    exists u, fieldOf name v = Some u /\ stable r (GSel bx name) u /\ hasRepr fr u = true.
Proof.
  intros Hs Hf Hfr Hbr He. unfold lowerAttrOf. rewrite Hs, Hf. split; [done|].
  intros r v Hx Hv. unfold hasRepr in Hv. rewrite (isScalar_true _ _ Hbr), He, Hs in Hv.
  destruct v as [| | | | |fs| |]; try done. rewrite forallb_forall in Hv.
  unfold Field in Hf. destruct (List.find _ _) as [sf|] eqn:Efind; [|done].
  injection Hf as <-. apply find_some in Efind as [Hin Hname]. apply String.eqb_eq in Hname.
  specialize (Hv sf Hin). unfold fieldHas in Hv. rewrite Hname in Hv.
  destruct (fieldOf name (VStruct fs)) as [u|] eqn:Eu; [|done]. exists u. split; [done|]. split.
  - intros r' I Ho. cbn [eval]. by rewrite (Hx r' I Ho).
  - unfold hasRepr. apply isScalar_false in Hfr. by destruct (RScalar (sfRepr Repr sf)).
Qed.
End Operators.
