(* ===== verification/EmitSound.v ===== *)
(** * EmitSound: lowered expressions follow Python

    The composition of the operators of [EmitOps]: for every well-typed
    expression the lowering succeeds, and running the statements it hoists and
    then evaluating its Go expression gives Python's value, raises Python's
    exception, or hands the entry arguments to the deopt handler. *)

From S2P Require Import Prelude Int64 StaticOps GoSem Emit IrCost PySem EmitTyping EmitEnv EmitExpr EmitOps.
Local Open Scope Z_scope.
Local Open Scope emit_scope.

Section Sound.
Context (callee : string -> list value -> value + pyexc).
Context (sigs : string -> option (list Repr * Repr)) (h : string) (args : list value).
Context `{!Program callee sigs h}.

Local Notation execs := (execs callee).
Local Notation exec := (exec callee).
Local Notation outside := (outside sigs h).
Local Notation outside_free := (outside_free sigs h).
Local Notation stable := (stable sigs h).
Local Notation bok := (bok h args).
Local Notation snap := (snap args).
Local Notation runs := (runs callee sigs h args).
Local Notation pyEval := (pyEval callee).
Local Notation pyEvals := (pyEvals callee).

(** ** Sequencing outcomes *)

Lemma allows_pbind p k v q : allows p (PRet v) -> allows (k v) q -> allows (pbind p k) q.
Proof. unfold allows. by intros ->. Qed.

Lemma allows_raise p k x : allows p (PRaise x) -> allows (pbind p k) (PRaise x).
Proof. unfold allows. by intros ->. Qed.

Lemma runs_weaken n P r b nr nr' e rp (d d' : bool) p p' :
  (nr' = true -> nr = true) -> (d = true -> d' = true) -> (forall q, allows p q -> allows p' q) ->
  runs n P r b nr e rp d p -> runs n P r b nr' e rp d' p'.
Proof.
  intros Hn Hd Hp [Ht Hd'|z x Hx Hnr Ha|r' v Hx]; [apply RunTail; auto| |by eapply RunVal; eauto].
  eapply RunRaise; eauto. destruct nr'; [|done]. rewrite Hn in Hnr; done.
Qed.

(** The statements of a first operand, then those of the rest. *)
Lemma runs_seq n P Q r b1 b2 nr1 nr e1 r1 (d1 d : bool) p1 e res p :
  runs n P r b1 nr1 e1 r1 d1 p1 -> (nr = true -> nr1 = true) -> (d1 = true -> d = true) ->
  (forall x, allows p1 (PRaise x) -> allows p (PRaise x)) ->
  (forall r' v, extends r r' -> freshB b1 r' -> stable r' e1 v -> hasRepr r1 v = true ->
    allows p1 (PRet v) -> runs n Q r' b2 nr e res d p) ->
  runs n (P ++ Q) r b2 nr e res d p.
Proof.
  intros [Ht Hd|z x Hx Hnr Ha|r' v Hx He Hf Hs Hv Ha] Hq Hdd Hr Hk.
  - apply RunTail; [by rewrite execs_app, Ht|auto].
  - eapply RunRaise; [by rewrite execs_app, Hx| |by apply Hr]. destruct nr; [|done].
    rewrite Hq in Hnr; done.
  - destruct (Hk r' v He Hf Hs Hv Ha) as [Ht Hd|z x Hx' Hnr Ha'|r2 w Hx' He' Hf' Hs' Hv' Ha'].
    + apply RunTail; [by rewrite execs_app, Hx|done].
    + eapply RunRaise; [by rewrite execs_app, Hx|done|done].
    + eapply RunVal; [by rewrite execs_app, Hx|by eapply extends_trans|done..].
Qed.

Lemma whenVal_allows p v k : allows p (PRet v) -> k v = true -> whenVal p k = true.
Proof. unfold allows. by intros ->. Qed.

Lemma runs_pbind n P Q r b1 b2 nr1 nr e1 r1 d1 p1 e res fk k :
  runs n P r b1 nr1 e1 r1 d1 p1 -> (nr = true -> nr1 = true) ->
  (forall r' v, extends r r' -> freshB b1 r' -> stable r' e1 v -> hasRepr r1 v = true ->
    runs n Q r' b2 nr e res (fk v) (k v)) ->
  runs n (P ++ Q) r b2 nr e res (d1 || whenVal p1 fk) (pbind p1 k).
Proof.
  intros H1 Hn Hk. eapply runs_seq; [exact H1|done|by intros ->|intros; by apply allows_raise|].
  intros r' v He Hf Hs Hv Ha. eapply (runs_weaken _ _ _ _ nr); [done| | |by eapply Hk].
  - intros Hd. apply orb_true_iff. right. by eapply whenVal_allows.
  - intros q. by apply allows_pbind.
Qed.

(** ** The judgement *)

(** The locals known to be assigned have the same values on both sides. *)
Definition agree (G : gmap string Repr) (sg : gmap string value) (r : genv) : Prop :=
  forall x rp, G !! x = Some rp ->
    exists v, sg !! x = Some v /\ glookup x r = Some v /\ hasRepr rp v = true.

Lemma agree_incl G sg r r' : incl r r' -> agree G sg r -> agree G sg r'.
Proof. intros I A x rp Hx. destruct (A x rp Hx) as (v & ? & ? & ?). exists v. auto. Qed.

(** Where an expression is run. *)
Record ready (G : gmap string Repr) (sg : gmap string value) (b b' : Builder) (r : genv) : Prop := {
  rd_ne : r <> [];
  rd_out : outside_free r;
  rd_fresh : freshB b r;
  rd_snap : deoptUsed b' = true -> snap r;
  rd_agree : agree G sg r
}.

Lemma extends_ne r r' : extends r r' -> r' <> [].
Proof. by destruct r, r'. Qed.

Lemma ready_next G sg b b1 b' r r' P Q :
  bnext b b1 P -> bnext b1 b' Q -> ready G sg b b' r -> extends r r' -> freshB b1 r' ->
  ready G sg b1 b' r'.
Proof.
  intros N1 N2 [Hne Ho Hf Hs Ha] He Hf'. split.
  - by eapply extends_ne.
  - by eapply extends_outside.
  - done.
  - intros U. eapply snap_incl; [by apply extends_incl|auto].
  - eapply agree_incl; [by apply extends_incl|done].
Qed.

Lemma ready_first G sg b b1 b' r Q : bnext b1 b' Q -> ready G sg b b' r -> ready G sg b b1 r.
Proof. intros N [Hne Ho Hf Hs Ha]. split; auto. intros U. apply Hs. by apply N. Qed.

(** The lowering of [e] and what its code does. *)
Definition sound (G : gmap string Repr) (e : Expr) (rp : Repr) : Prop :=
  forall b, bok b -> exists gx b' P,
    lowerExpr e b = inl ((gx, rp), b') /\ bnext b b' P /\ (isConst gx = true -> constant e = true) /\
    forall n sg r, ready G sg b b' r -> runs n P r b' (noRaise e) gx rp (fires callee sg e) (pyEval sg e).

(** The outcomes of a list of expressions evaluated in order. *)
Inductive runsL (n : nat) (P : list gstmt) (r : genv) (b : Builder) (nr : bool) (es : list gexpr)
    (rs : list Repr) (d : bool) (py : (list value -> option pout) -> option pout) : Prop :=
  | RunLTail : execs n P r = Some (GTail h args) -> d = true -> runsL n P r b nr es rs d py
  | RunLRaise z x : execs n P r = Some (GRet [z; VErr x]) -> nr = false ->
      (forall k, allows (py k) (PRaise x)) -> runsL n P r b nr es rs d py
  | RunLVal r' vs : execs n P r = Some (GNorm r') -> extends r r' -> freshB b r' ->
      Forall2 (stable r') es vs -> Forall2 (fun rp v => hasRepr rp v = true) rs vs ->
      (forall k q, allows (k vs) q -> allows (py k) q) -> runsL n P r b nr es rs d py.

Definition pinBy (pin : bool) (x : gexpr) (r : Repr) : gexpr := if pin then pinInt x r else x.

Definition soundL (G : gmap string Repr) (es : list Expr) (rs : list Repr) : Prop :=
  forall b, bok b -> exists xs b' P,
    lowerArgs es b = inl (xs, b') /\
    (forall elem i, Forall (fun r => sameScalar r elem = true) rs ->
      lowerItems elem i es b = inl (xs, b')) /\
    (forall pin, lowerValues pin es b = inl (zip_with (pinBy pin) xs rs, b')) /\
    bnext b b' P /\
    forall n sg r, ready G sg b b' r -> runsL n P r b' (noRaises es) xs rs (firesL callee sg es) (pyEvals sg es).

Lemma ebind_eq {A B} (m m' : EM A) (k : A -> EM B) b : m b = m' b -> ebind m k b = ebind m' k b.
Proof. unfold ebind. by intros ->. Qed.

(** The nested walks, by name. *)
Lemma lowerExpr_list elem items b :
  lowerExpr (ListLit elem items) b =
  (elts <- lowerItems elem 0 items ;;
   eret (GComposite (goType (listRepr elem)) elts, listRepr elem)) b.
Proof.
  cbn [lowerExpr]. apply ebind_eq. generalize 0%nat. intros i.
  revert i b. induction items as [|it l IH]; intros i b; [done|]. simpl. unfold ebind.
  destruct (lowerExpr it b) as [[[ix ir] b1]|]; [|done].
  destruct (coerceItem elem i ix ir b1) as [[x b2]|]; [|done]. by rewrite <- IH.
Qed.

Lemma lowerExpr_call f l r b :
  lowerExpr (Call f l r) b = (xs <- lowerArgs l ;; lowerCallOf f xs r) b.
Proof.
  cbn [lowerExpr]. apply ebind_eq.
  revert b. induction l as [|a l IH]; intros b; [done|]. simpl. unfold ebind.
  destruct (lowerExpr a b) as [[[x xr] b1]|]; [|done]. by rewrite <- IH.
Qed.

Lemma pyEval_walk sg l k :
  (fix go (l : list Expr) (k : list value -> option pout) : option pout :=
    match l with
    | [] => k []
    | x :: l => pbind (pyEval sg x) (fun v => go l (fun vs => k (v :: vs)))
    end) l k = pyEvals sg l k.
Proof.
  revert k. induction l as [|x l IH]; intros k; [done|]. simpl.
  destruct (pyEval sg x) as [[v| |]|]; simpl; auto.
Qed.

Lemma fires_walk sg l :
  (fix go (l : list Expr) : bool :=
    match l with
    | [] => false
    | x :: l => fires callee sg x || whenVal (pyEval sg x) (fun _ => go l)
    end) l = firesL callee sg l.
Proof. induction l as [|x l IH]; [done|]. simpl. by rewrite IH. Qed.

Lemma noRaise_list elem items : noRaise (ListLit elem items) = noRaises items.
Proof. simpl. induction items as [|a l IH]; [done|]. simpl. by rewrite IH. Qed.

(** ** Leaves *)

Lemma sound_leaf G e gx rp :
  (forall b, lowerExpr e b = inl ((gx, rp), b)) -> (isConst gx = true -> constant e = true) ->
  (forall sg r, outside_free r -> agree G sg r ->
    exists v, stable r gx v /\ hasRepr rp v = true /\ pyEval sg e = Some (PRet v)) ->
  sound G e rp.
Proof.
  intros El Hc Hv b Hb. exists gx, b, []. split_and!; [done|apply bnext_refl|done|].
  intros n sg r [Hne Ho Hf _ Ha]. destruct (Hv sg r Ho Ha) as (v & Hs & Ht & Ep).
  destruct r as [|f t]; [done|]. eapply runs_pure; eauto.
Qed.

Lemma stable_bool r (c : bool) : stable r (ident (if c then "true" else "false")) (VBool c).
Proof.
  intros r' _ Ho. unfold ident. simpl. unfold resolve.
  rewrite (Ho (if c then "true" else "false")); [by destruct c|]. left. by destruct c.
Qed.

(** ** Two operands *)

(** Both operands lowered, their statements in order. *)
Lemma sound_two G l r lr rr b :
  sound G l lr -> sound G r rr -> bok b ->
  exists lx b1 P1 rx b2 P2,
    lowerExpr l b = inl ((lx, lr), b1) /\ lowerExpr r b1 = inl ((rx, rr), b2) /\
    bnext b b1 P1 /\ bnext b1 b2 P2 /\ bok b2 /\
    (isConst lx && isConst rx = true -> constant l && constant r = true) /\
    forall n sg ρ b3 Q, bnext b2 b3 Q -> ready G sg b b3 ρ ->
      runs n P1 ρ b1 (noRaise l) lx lr (fires callee sg l) (pyEval sg l) /\
      forall ρ', extends ρ ρ' -> freshB b1 ρ' ->
        runs n P2 ρ' b2 (noRaise r) rx rr (fires callee sg r) (pyEval sg r).
Proof.
  intros Hl Hr Hb. destruct (Hl b Hb) as (lx & b1 & P1 & El & N1 & C1 & R1).
  pose proof (bnext_ok _ _ _ _ _ N1 Hb) as Hb1.
  destruct (Hr b1 Hb1) as (rx & b2 & P2 & Er & N2 & C2 & R2).
  exists lx, b1, P1, rx, b2, P2. split_and!; try done; [by eapply bnext_ok| |].
  - rewrite !andb_true_iff. naive_solver.
  - intros n sg ρ b3 Q N3 Hrd. split.
    + apply R1. eapply ready_first; [exact N2|]. by eapply ready_first.
    + intros ρ' He Hf. apply R2. eapply ready_next; eauto. by eapply ready_first.
Qed.

(** A strict operation on two operands. *)
Lemma sound_strict G e l r lr rr res opf (nr : bool) fire py :
  sound G l lr -> sound G r rr ->
  (forall b, lowerExpr e b =
    ('(lx, lr) <- lowerExpr l ;; '(rx, rr) <- lowerExpr r ;; opf lx lr rx rr) b) ->
  (forall sg, pyEval sg e = pbind (pyEval sg l) (fun v => pbind (pyEval sg r) (py v))) ->
  (forall sg, whenVal (pyEval sg l) (fun v => fires callee sg r || whenVal (pyEval sg r) (fire v)) = true ->
    fires callee sg e = true) ->
  (forall sg, fires callee sg l = true -> fires callee sg e = true) ->
  (noRaise e = true -> nr && noRaise l && noRaise r = true) ->
  (forall lx rx, (isConst lx && isConst rx = true -> constant l && constant r = true) ->
    forall b, bok b -> exists cst, (cst = true -> constant e = true) /\
      lowers callee sigs h args (opf lx lr rx rr) b nr res cst lx lr rx rr fire py) ->
  sound G e res.
Proof.
  intros Hl Hr El Ep Hd Hdl Hn Hop b Hb.
  destruct (sound_two G l r lr rr b Hl Hr Hb)
    as (lx & b1 & P1 & rx & b2 & P2 & E1 & E2 & N1 & N2 & Hb2 & Hc & R).
  destruct (Hop lx rx Hc b2 Hb2) as (cst & Hcst & gx & b3 & P3 & E3 & N3 & C3 & R3).
  exists gx, b3, (P1 ++ P2 ++ P3). split_and!.
  - rewrite El. unfold ebind. by rewrite E1, E2.
  - eapply bnext_trans; [done|]. by eapply bnext_trans.
  - auto.
  - intros n sg ρ Hrd. destruct (R n sg ρ b3 P3 N3 Hrd) as [R1 R2]. rewrite Ep.
    eapply (runs_weaken _ _ _ _ (noRaise e) _ _ _ (fires callee sg l || whenVal (pyEval sg l)
      (fun v => fires callee sg r || whenVal (pyEval sg r) (fire v)))); [done| |done|].
    { intros [Hf|Hf]%orb_true_iff; auto. }
    eapply runs_pbind; [exact R1| |].
    { intros Hnr. apply Hn in Hnr. by bool_to_prop. }
    intros ρ1 v He1 Hf1 Hs1 Hv1. eapply runs_pbind; [by apply R2| |].
    { intros Hnr. apply Hn in Hnr. by bool_to_prop. }
    intros ρ2 w He2 Hf2 Hs2 Hv2. eapply runs_weaken with (nr := nr) (d := fire v w) (p := py v w); [|done|done|].
    { intros Hnr. apply Hn in Hnr. by bool_to_prop. }
    assert (ready G sg b2 b3 ρ2) as [? ? ? ? ?].
    { apply (ready_next G sg b b2 b3 ρ ρ2 (P1 ++ P2) P3); eauto using bnext_trans, extends_trans. }
    apply R3; try done. eapply stable_incl; [by apply extends_incl|done].
Qed.

(** ** Connectives *)

Lemma sound_conn G op e l r lr rr :
  (op = LAND \/ op = LOR) -> sound G l lr -> sound G r rr ->
  sameScalar lr rr = true -> connScalar (RScalar lr) = true -> noRaise r = true ->
  (forall b, lowerExpr e b =
    ('(lx, lr) <- lowerExpr l ;; '(rx, rr) <- lowerExpr r ;; lowerBoolOps op r lx lr rx rr) b) ->
  (forall sg, pyEval sg e = pbind (pyEval sg l) (fun v =>
    match truth v, op with
    | Some true, LOR | Some false, LAND => Some (PRet v)
    | Some _, _ => pyEval sg r
    | None, _ => None
    end)) ->
  (forall sg, fires callee sg e = fires callee sg l || whenVal (pyEval sg l) (fun _ => fires callee sg r)) ->
  (noRaise e = true -> noRaise l = true) -> (constant l && constant r = true -> constant e = true) ->
  sound G e (connRepr lr).
Proof.
  intros Hop Hl Hr Hs Hcs Hnr El Ep Hd Hn Hce b Hb.
  destruct (sound_two G l r lr rr b Hl Hr Hb)
    as (lx & b1 & P1 & rx & b2 & P2 & E1 & E2 & N1 & N2 & Hb2 & Hc & R).
  destruct (lowerBoolOps_spec sigs h op r lx lr rx rr b2 Hop Hs Hcs Hnr) as (gx & E3 & C3 & R3).
  exists gx, b2, (P1 ++ P2). split_and!.
  - rewrite El. unfold ebind. by rewrite E1, E2.
  - by eapply bnext_trans.
  - auto.
  - intros n sg ρ Hrd. destruct (R n sg ρ b2 [] (bnext_refl b2) Hrd) as [R1 R2]. rewrite Ep, Hd.
    eapply runs_pbind; [exact R1|done|]. intros ρ1 v He1 Hf1 Hs1 Hv1.
    destruct (R2 ρ1 He1 Hf1) as [Ht Hf|z x Hx Hq|ρ2 w Hx He2 Hf2 Hs2 Hw Ha]; [by apply RunTail|congruence|].
    destruct (R3 ρ2 v w) as (u & Eu & Su & Hu); [eapply stable_incl; [by apply extends_incl|done]|done..|].
    eapply RunVal; [done..|]. unfold connVal in Eu.
    destruct (truth v) as [[]|], Hop as [-> | ->]; simplify_eq; done.
Qed.

(** ** Lists of expressions *)

Lemma pinBy_stable r pin x v rp : stable r x v -> hasRepr rp v = true -> stable r (pinBy pin x rp) v.
Proof.
  intros Hs Hv. destruct pin; [|done]. simpl. unfold pinInt.
  destruct (isScalar SInt rp) eqn:Ei; [|done]. destruct x; try done.
  apply isScalar_true in Ei. rewrite (hasRepr_scalar _ _ SInt) in Hv by done.
  destruct v; try done. eapply stable_builtin; done.
Qed.

Lemma soundL_nil G : soundL G [] [].
Proof.
  intros b Hb. exists [], b, []. split_and!; try done; [apply bnext_refl|].
  intros n sg [|f t] [Hne Ho Hf _ _]; [done|]. eapply RunLVal; eauto using extends_refl.
Qed.

Lemma soundL_cons G e rp es rs : sound G e rp -> soundL G es rs -> soundL G (e :: es) (rp :: rs).
Proof.
  intros He Hes b Hb. destruct (He b Hb) as (x & b1 & P1 & E1 & N1 & C1 & R1).
  pose proof (bnext_ok _ _ _ _ _ N1 Hb) as Hb1.
  destruct (Hes b1 Hb1) as (xs & b2 & P2 & EA & EI & EV & N2 & R2).
  exists (x :: xs), b2, (P1 ++ P2). split_and!; [| | |by eapply bnext_trans|].
  - simpl. unfold ebind. by rewrite E1, EA.
  - intros elem i HF. inversion HF as [|? ? Hs HF']; subst. simpl. unfold ebind. rewrite E1.
    unfold coerceItem. rewrite Hs. simpl. by rewrite EI.
  - intros pin. simpl. unfold ebind. by rewrite E1, EV.
  - intros n sg ρ Hrd.
    destruct (R1 n sg ρ) as [Ht Hd|z ex Hx Hnr Ha|ρ1 v Hx X1 F1 S1 V1 A1]; [by eapply ready_first|..].
    + apply RunLTail; [by rewrite execs_app, Ht|simpl; by rewrite Hd].
    + eapply RunLRaise; [by rewrite execs_app, Hx|simpl; by rewrite Hnr|].
      intros k. by apply allows_raise.
    + destruct (R2 n sg ρ1) as [Ht Hd|z ex Hx' Hnr Ha|ρ2 vs Hx' X2 F2 S2 V2 A2]; [by eapply ready_next|..].
      * apply RunLTail; [by rewrite execs_app, Hx|]. simpl. apply orb_true_iff. right.
        by eapply whenVal_allows.
      * eapply RunLRaise; [by rewrite execs_app, Hx|simpl; by rewrite Hnr, andb_false_r|].
        intros k. by eapply allows_pbind.
      * eapply RunLVal; [by rewrite execs_app, Hx|by eapply extends_trans|done| |by constructor|].
        { constructor; [eapply stable_incl; [by apply extends_incl|done]|done]. }
        intros k q Hq. eapply allows_pbind; [done|]. by apply A2.
Qed.

(** ** Aggregates and calls *)

Lemma scalars_forallb elem rs vs :
  Forall (fun r => sameScalar r elem = true) rs -> isScalar NotScalar elem = false ->
  Forall2 (fun rp v => hasRepr rp v = true) rs vs -> forallb (scalarHas (RScalar elem)) vs = true.
Proof.
  intros HF He HV. apply isScalar_false in He.
  induction HV as [|rp v rs vs Hv HV IH]; [done|]. inversion HF as [|? ? Hs HF']; subst. simpl.
  unfold sameScalar in Hs. apply bool_decide_eq_true in Hs.
  rewrite (hasRepr_scalar rp v (RScalar elem)) in Hv by done. by rewrite Hv, IH.
Qed.

Lemma sound_listlit G elem items rs :
  soundL G items rs -> Forall (fun r => sameScalar r elem = true) rs ->
  isScalar NotScalar elem = false -> sound G (ListLit elem items) (listRepr elem).
Proof.
  intros Hl HF He b Hb. destruct (Hl b Hb) as (xs & b' & P & _ & EI & _ & N & R).
  exists (GComposite (goType (listRepr elem)) xs), b', P. split_and!; [|done|done|].
  - rewrite lowerExpr_list. unfold ebind. by rewrite EI.
  - intros n sg ρ Hrd. rewrite noRaise_list. cbn [PySem.pyEval fires]. rewrite pyEval_walk, fires_walk.
    destruct (R n sg ρ Hrd) as [Ht Hd|z x Hx Hnr Ha|ρ' vs Hx X F S V A];
      [by apply RunTail|by eapply RunRaise|].
    apply (RunVal _ _ _ _ _ _ _ _ _ _ _ _ _ ρ' (VList vs)); try done.
    + intros q I Ho. cbn [goType listRepr Elem]. cbn [eval]. rewrite eval_list.
      rewrite (evals_stable sigs h q xs vs Ho); [done|].
      eapply Forall2_impl; [done|]. intros ? ? Hs. by eapply stable_incl.
    + cbn. by eapply scalars_forallb.
    + by apply A.
Qed.

Lemma hasRepr_same a b v : sameRep a b -> hasRepr a v = hasRepr b v.
Proof. intros (E1 & E2 & E3). unfold hasRepr. by rewrite E1, E2, E3. Qed.

Lemma hasRepr_sames rs ps vs :
  Forall2 sameRep rs ps -> Forall2 (fun r v => hasRepr r v = true) rs vs ->
  Forall2 (fun r v => hasRepr r v = true) ps vs.
Proof.
  intros Hs. revert vs. induction Hs as [|r p rs ps Hr _ IH]; intros vs HV; inversion HV; subst; constructor;
    [by rewrite <- (hasRepr_same r p)|by apply IH].
Qed.

Lemma sound_call G f es rs ps rp :
  sigs f = Some (ps, rp) -> userName f = true -> soundL G es rs -> Forall2 sameRep rs ps ->
  sound G (Call f es rp) rp.
Proof.
  intros Hsig Hu Hl Hps b Hb. destruct (Hl b Hb) as (xs & b1 & P & EA & _ & _ & N & R).
  exists (ident (tmpName (nTmp b1))), (afterCall b1 (callStmts f xs b1)), (P ++ callStmts f xs b1).
  pose proof (afterCall_next b1 (callStmts f xs b1)) as N2. split_and!.
  - rewrite lowerExpr_call. unfold ebind. rewrite EA. apply lowerCallOf_eq.
  - by eapply bnext_trans.
  - done.
  - intros n sg ρ Hrd. cbn [PySem.pyEval fires noRaise]. rewrite pyEval_walk, fires_walk.
    destruct (R n sg ρ) as [Ht Hd|z x Hx Hnr Ha|ρ1 vs Hx X F S V A]; [by eapply ready_first|..].
    + apply RunTail; [by rewrite execs_app, Ht|done].
    + eapply RunRaise; [by rewrite execs_app, Hx|done|done].
    + pose proof (ready_next _ _ _ _ _ _ _ _ _ N N2 Hrd X F) as [Hne Ho Hf _ _].
      assert (outside f) as Hof by (right; split; [done|left; congruence]).
      assert (forall v, callee f vs = inl v -> hasRepr rp v = true) as Hty
        by (intros v; eapply callee_typed; [done|exact Hsig|by eapply hasRepr_sames]).
      pose proof (lowerCall_runs callee sigs h args n f xs vs rp b1 ρ1 false false Ho Hf Hne Hof S Hty eq_refl)
        as [Ht Hd|z x Hx' Hnr Ha|ρ2 v Hx' X2 F2 S2 V2 A2].
      * done.
      * eapply RunRaise; [by rewrite execs_app, Hx|done|]. by apply A.
      * eapply RunVal; [by rewrite execs_app, Hx|by eapply extends_trans|done|done|done|]. by apply A.
Qed.

Lemma sound_index G e i er ir elem :
  sound G e er -> sound G i ir -> isScalar NotScalar er = true -> Elem er = Some elem ->
  isScalar NotScalar elem = false -> isScalar SInt ir = true -> sound G (Index e i) elem.
Proof.
  intros He Hi Hns Hel Hsc Hint b Hb.
  destruct (sound_two G e i er ir b He Hi Hb)
    as (ex & b1 & P1 & ix & b2 & P2 & E1 & E2 & N1 & N2 & Hb2 & _ & R).
  pose proof (afterIndex_next b2 (indexStmts h ex ix b2)) as N3.
  do 2 eexists. exists (P1 ++ P2 ++ indexStmts h ex ix b2). split_and!.
  - cbn [lowerExpr]. unfold ebind. rewrite E1, Hel, E2. by eapply lowerIndexOf_eq.
  - eapply bnext_trans; [done|]. by eapply bnext_trans.
  - done.
  - intros n sg ρ Hrd. destruct (R n sg ρ _ _ N3 Hrd) as [R1 R2].
    eapply runs_pbind; [exact R1|simpl; intros Hq; by bool_to_prop|]. intros ρ1 v X1 F1 S1 V1.
    eapply runs_pbind; [by apply R2|simpl; intros Hq; by bool_to_prop|]. intros ρ2 w X2 F2 S2 V2.
    assert (ready G sg b2 (afterIndex b2 (indexStmts h ex ix b2)) ρ2) as [? ? ? Hsn ?].
    { eapply (ready_next G sg b b2 _ ρ ρ2 (P1 ++ P2)); eauto using bnext_trans, extends_trans. }
    apply isScalar_true in Hns, Hint. unfold hasRepr in V1. rewrite Hns, Hel in V1.
    rewrite (hasRepr_scalar ir w SInt) in V2 by done. destruct v, w; try done.
    apply lowerIndex_runs; try done; [by apply Hsn|].
    eapply stable_incl; [by apply extends_incl|done].
Qed.

(** A unary operation without statements of its own. *)
Lemma sound_unary G e x xr rp opf py :
  sound G x xr -> (forall b, lowerExpr e b = ('(gx, xr) <- lowerExpr x ;; opf gx xr) b) ->
  (forall sg, pyEval sg e = pbind (pyEval sg x) py) -> noRaise e = noRaise x ->
  (forall sg, fires callee sg e = fires callee sg x) ->
  (forall gx, (isConst gx = true -> constant x = true) -> forall b, exists g,
    opf gx xr b = inl ((g, rp), b) /\ (isConst g = true -> constant e = true) /\
    forall r v, stable r gx v -> hasRepr xr v = true ->
      exists u, py v = Some (PRet u) /\ stable r g u /\ hasRepr rp u = true) ->
  sound G e rp.
Proof.
  intros Hx El Ep Hn Hd Hop b Hb. destruct (Hx b Hb) as (gx & b1 & P & E1 & N & C & R).
  destruct (Hop gx C b1) as (g & E2 & C2 & R2). exists g, b1, P. split_and!; try done.
  - rewrite El. unfold ebind. by rewrite E1.
  - intros n sg ρ Hrd. rewrite Ep, Hn, Hd, <- (app_nil_r P).
    eapply runs_seq; [by apply R|done|done|intros ex; by apply allows_raise|].
    intros ρ' v X F S V A. destruct (R2 ρ' v S V) as (u & Eu & Su & Hu).
    apply (RunVal _ _ _ _ _ _ _ _ _ _ _ _ _ ρ' u); try done; [|by eapply allows_pbind].
    pose proof (extends_ne _ _ X). destruct ρ' as [|f t]; [done|]. apply extends_refl.
Qed.

(** ** Every expression *)

Lemma expr_sound_all G :
  (forall e rp, ety sigs G e rp -> sound G e rp) /\ (forall es rs, etys sigs G es rs -> soundL G es rs).
Proof.
  apply ety_etys_ind.
  - intros x rp Hx. apply (sound_leaf _ _ (ident x)); [done..|]. intros sg r Ho Ha.
    destruct (Ha x rp Hx) as (v & Hsg & Hl & Hv). exists v. split_and!; [by apply stable_ident|done|].
    simpl. by rewrite Hsg.
  - intros z Hz. apply (sound_leaf _ _ (intLit z)); [done..|]. intros sg r Ho Ha.
    exists (VInt z). split_and!; [apply stable_lit|done|done].
  - intros f Hf. apply (sound_leaf _ _ (floatLit f)); [done..|]. intros sg r Ho Ha.
    exists (VFloat f). split_and!; [by apply stable_flit|done|done].
  - intros c. apply (sound_leaf _ _ (ident (if c then "true" else "false"))); [done|by destruct c|].
    intros sg r Ho Ha. exists (VBool c). split_and!; [apply stable_bool|done|done].
  - intros t. apply (sound_leaf _ _ (strLit t)); [done..|]. intros sg r Ho Ha.
    exists (VStr t). split_and!; [by intros r' _ _|done|done].
  - intros op l r lr rr res _ Hl _ Hr Hres Hc Hbb.
    eapply (sound_strict G _ l r lr rr res (lowerBinOps op) (opQuiet op) (binFires op) (pyBin op)); try done.
    { intros sg Hf. simpl. by rewrite Hf, orb_true_r. }
    { intros sg Hf. simpl. by rewrite Hf. }
    { simpl. destruct op; simpl; try done. }
    intros lx rx Hk b Hb. exists (isConst lx && isConst rx). split; [done|].
    apply lowerBinOps_spec; [done|done|done|done|]. intros Hfl. destruct (isConst lx && isConst rx); [|done].
    rewrite Hfl in Hc. simpl in Hc. rewrite Hk in Hc; done.
  - intros op l r lr rr _ Hl _ Hr Hop.
    eapply (sound_strict G _ l r lr rr boolRepr (lowerCmpOps op) true (fun _ _ => false) (pyCmp op)); try done.
    { intros sg Hf. simpl. by rewrite Hf, orb_true_r. }
    { intros sg Hf. simpl. by rewrite Hf. }
    intros lx rx Hk b Hb. exists (isConst lx && isConst rx). split; [done|].
    by apply lowerCmpOps_spec.
  - intros l r lr rr _ Hl _ Hr Hs Hcs Hnr. eapply (sound_conn G LAND); eauto.
    simpl. intros Hq. by bool_to_prop.
  - intros l r lr rr _ Hl _ Hr Hs Hcs Hnr. eapply (sound_conn G LOR); eauto.
    simpl. intros Hq. by bool_to_prop.
  - intros x xr _ Hx Hb. eapply (sound_unary G _ x xr boolRepr lowerNotOp); eauto.
    intros gx C b. destruct (lowerNot_spec sigs h gx xr b Hb) as (g & E & Cg & R). exists g.
    split_and!; [done|auto|]. intros r v Sv Hv. destruct (R r v Sv Hv) as (c & Et & Su).
    exists (VBool (negb c)). rewrite Et. done.
  - intros e i er ir elem _ He _ Hi Hns Hel Hsc Hint. by eapply sound_index.
  - intros e nm er s fr _ He Hns Hel Hsh Hf Hsc.
    eapply (sound_unary G _ e er fr (lowerAttrOf nm)); eauto.
    intros gx C b. destruct (lowerAttr_spec sigs h nm gx er s fr b Hsh Hf Hsc Hns Hel) as [E R].
    exists (GSel gx nm). split_and!; [done|done|]. intros r v Sv Hv.
    destruct (R r v Sv Hv) as (u & Eu & Su & Hu). exists u. by rewrite Eu.
  - intros elem items rs _ Hl HF Hsc. by eapply sound_listlit.
  - intros f es rs ps rp Hsig Hu _ Hl Hps. by eapply sound_call.
  - apply soundL_nil.
  - intros e rp es rs _ He _ Hes. by apply soundL_cons.
Qed.
End Sound.

(** C3: the lowering of every well-typed expression succeeds, and its code follows
    Python from every state where the known locals agree: running the hoisted
    statements and evaluating the Go expression gives Python's value (on an
    environment extended with generated names only), raises Python's exception, or
    hands the entry arguments to the deopt handler where a guard fires; an
    expression without raising operations never raises. An int operand of a true
    division and of a comparison with a float counts as the double it rounds to:
    Python's exact value for an int within 2^53; beyond that the emitted comparison
    can differ from Python's ([EmitFacts.mixed_compare_rounds]). *)
Theorem lowerExpr_follows callee sigs h args G e rp b :
  Program callee sigs h -> ety sigs G e rp -> bok h args b ->
  exists gx b' P, lowerExpr e b = inl ((gx, rp), b') /\ pre b' = pre b ++ P /\
    forall n sg r, ready sigs h args G sg b b' r ->
      runs callee sigs h args n P r b' (noRaise e) gx rp (fires callee sg e) (pyEval callee sg e).
Proof.
  intros HP He Hb. destruct (proj1 (expr_sound_all callee sigs h args G) e rp He b Hb)
    as (gx & b' & P & E & N & _ & R). exists gx, b', P. split_and!; [done|apply N|done].
Qed.

Lemma lowerExpr_follows_witness :
  let callee := fun _ _ => inr (mkExc "" "") in
  let sigs := fun _ : string => None in
  let b := mkBuilder "f" ["x"; "y"] intRepr "boxed" false 0 0 0 0 false [] [] in
  let e := Bin OpFloorDiv (Var "x" intRepr) (Var "y" intRepr) in
  exists gx b' P, lowerExpr e b = inl ((gx, intRepr), b') /\
    runs callee sigs "boxed" [VInt 7; VInt (-2)] 0 P
      [{["x" := VInt 7; "y" := VInt (-2); "d0" := VInt 7; "d1" := VInt (-2)]}] b' false gx intRepr
      false (Some (PRet (VInt (-4)))).
Proof.
  intros callee sigs b e.
  assert (Program callee sigs "boxed") as HP by (split; [done|by split_and!]).
  set (G := {["x" := intRepr; "y" := intRepr]} : gmap string Repr).
  destruct (lowerExpr_follows callee sigs "boxed" [VInt 7; VInt (-2)] G e intRepr b HP)
    as (gx & b' & P & E & _ & R).
  { by eapply TBin; [constructor|constructor|..]. }
  { by split. }
  exists gx, b', P. split; [exact E|]. set (sg := {["x" := VInt 7; "y" := VInt (-2)]} : gmap string value).
  assert (pyEval callee sg e = Some (PRet (VInt (-4)))) as Ep by (vm_compute; reflexivity).
  assert (fires callee sg e = false) as Ef by (vm_compute; reflexivity).
  rewrite <- Ep. rewrite <- Ef at 2. apply (R 0%nat sg). split; try done.
  - intros x [Hf|[_ [Hs|Hh]]]; [|done|by subst]. unfold fixedName in Hf. apply existsb_exists in Hf as (y & Hy & Ey).
    apply String.eqb_eq in Ey as ->. simpl in Hy. by repeat destruct Hy as [<-|Hy].
  - intros _ [|[|i]] v [= <-]; vm_compute; reflexivity.
  - intros x q Hx. unfold G in Hx. rewrite lookup_insert_Some in Hx.
    destruct Hx as [[<- <-]|[_ Hx]]; [by exists (VInt 7)|]. apply lookup_singleton_Some in Hx as [<- <-].
    by exists (VInt (-2)).
Defined.
