(* ===== verification/EmitTypes.v ===== *)
(** * EmitTypes: the bridge's representations are a sound type system

    The representation the bridge computes for an expression (EmitTyping.ety,
    the operand rules of IrCost) is a type in the strong sense: Python's
    evaluation of a well-typed expression is never a type error, and its value
    is of the computed representation - a machine integer where the type is int -
    unless a guard of the static tier fires on the way. *)

From S2P Require Import Prelude Int64 StaticOps GoSem FloatFacts Emit IrCost PySem EmitTyping EmitEnv.
From S2P Require Import EmitExpr EmitOps EmitSound.
Local Open Scope Z_scope.

(** What a type says of an outcome of Python. *)
Definition typedOut (r : Repr) (p : option pout) : Prop :=
  match p with
  | None => False
  | Some (PRet v) => hasRepr r v = true
  | Some (PRaise _) => True
  | Some PUnspec => False
  end.

Definition typedEnv (G : gmap string Repr) (sg : gmap string value) : Prop :=
  forall x r, G !! x = Some r -> exists v, sg !! x = Some v /\ hasRepr r v = true.

Lemma typedOut_pbind r1 r p k :
  typedOut r1 p -> (forall v, p = Some (PRet v) -> hasRepr r1 v = true -> typedOut r (k v)) ->
  typedOut r (pbind p k).
Proof. destruct p as [[v| |]|]; simpl; auto. Qed.

(** ** The operators *)

Lemma hasInt v z : v = VInt z -> in64 z = true -> hasRepr intRepr v = true.
Proof. by intros -> ?. Qed.

Lemma numeric_value r v :
  numeric r = true -> hasRepr r v = true ->
  (exists z, asZ v = Some z /\ isScalar SFloat r = false) \/ (exists f, v = VFloat f /\ isScalar SFloat r = true).
Proof.
  unfold numeric, isScalar, hasRepr. destruct (RScalar r); simpl; try done; destruct v; try done; eauto.
Qed.

Lemma asZ_asF v z : asZ v = Some z -> asF v = Some (ofInt z).
Proof. destruct v; simpl; intros; by simplify_eq. Qed.

Lemma pyInts_typed op x y :
  op <> OpDiv -> opFires op x y = false -> typedOut intRepr (Some (pyInts op x y)).
Proof.
  unfold opFires, pyInts. destruct (pyIntOp op x y) as [z| |e]; [|done|].
  - intros _ H%negb_false_iff. by eapply hasInt.
  - by destruct e.
Qed.

Lemma pyDivInts_typed x y : typedOut floatRepr (Some (pyDivInts x y)).
Proof. unfold pyDivInts. by destruct (y =? 0). Qed.

(** Some operand is a float: the result is a float, if the operator has one. *)
Lemma pyFloats_typed op v w x y res :
  asF v = Some x -> asF w = Some y -> asZ v = None \/ asZ w = None ->
  op = OpAdd \/ op = OpSub \/ op = OpMul \/ op = OpDiv -> res = floatRepr ->
  typedOut res (pyBin op v w).
Proof.
  intros Hx Hy Hz Hop ->. rewrite (pyBin_floats op v w x y Hx Hy Hz).
  destruct Hop as [->|[->|[->| ->]]]; cbn [pyFloats]; try done. unfold pyDivFloats. by destruct (SFeqb y fzero).
Qed.

Lemma pyBin_typed op lr rr res v w :
  binResult op lr rr = Some res -> boolBits op lr rr = false ->
  hasRepr lr v = true -> hasRepr rr w = true -> binFires op v w = false ->
  typedOut res (pyBin op v w).
Proof.
  unfold binResult. intros E Hb Hv Hw Hf. destruct (isScalar SStr lr || isScalar SStr rr) eqn:Es.
  { destruct (bool_decide_reflect (op = OpAdd)) as [->|]; [|done]. simpl in E.
    destruct (isScalar SStr lr) eqn:El; [|done]. destruct (isScalar SStr rr) eqn:Er; [|done]. simplify_eq/=.
    rewrite (hasRepr_scalar lr v SStr) in Hv by (by try apply isScalar_true).
    rewrite (hasRepr_scalar rr w SStr) in Hw by (by try apply isScalar_true). by destruct v, w. }
  destruct (numeric lr) eqn:Nl; [|done]. destruct (numeric rr) eqn:Nr; [|done]. cbn [negb orb] in E.
  pose proof (no_bits op lr rr v w Hb Nl Nr Hv Hw) as Hnb.
  destruct (numeric_value lr v Nl Hv) as [(x & Ex & Fl)|(x & -> & Fl)],
    (numeric_value rr w Nr Hw) as [(y & Ey & Fr)|(y & -> & Fr)]; unfold anyFloat in E; rewrite Fl, Fr in E;
    cbn [orb] in E.
  - rewrite (pyBin_ints op v w x y Ex Ey Hnb). unfold binFires in Hf. rewrite Ex, Ey in Hf.
    destruct op; simplify_eq; try (by apply pyInts_typed); apply pyDivInts_typed.
  - eapply pyFloats_typed; [by apply asZ_asF|reflexivity|by right| |]; destruct op; simplify_eq; auto.
  - eapply pyFloats_typed; [reflexivity|by apply asZ_asF|by left| |]; destruct op; simplify_eq; auto.
  - eapply pyFloats_typed; [reflexivity|reflexivity|by left| |]; destruct op; simplify_eq; auto.
Qed.

Lemma pyCmp_typed op lr rr v w :
  cmpOperands op lr rr = true -> hasRepr lr v = true -> hasRepr rr w = true ->
  typedOut boolRepr (pyCmp op v w).
Proof.
  unfold cmpOperands, arith, isScalar, hasRepr. intros Ho Hv Hw.
  destruct (RScalar lr), (RScalar rr); try done; destruct v; try done; destruct w; try done; simpl in *;
    unfold pyCmpMixed;
    repeat match goal with
    | |- context [cmpBy (cmpTok op) ?a ?b ?c] => destruct (cmpBy_some op a b c) as [? ->]
    | |- context [cmpFloat (cmpTok op) ?a ?b] => destruct (cmpFloat_some op a b) as [? ->]
    end; try done.
  all: by destruct op.
Qed.

(** ** Every expression *)

Section Types.
Context (callee : string -> list value -> value + pyexc).
Context (sigs : string -> option (list Repr * Repr)) (h : string).
Context `{!Program callee sigs h}.
Local Notation pyEval := (pyEval callee).
Local Notation pyEvals := (pyEvals callee).
Local Notation fires := (fires callee).

Definition typesE (G : gmap string Repr) (e : Expr) (r : Repr) : Prop :=
  forall sg, typedEnv G sg -> fires sg e = false -> typedOut r (pyEval sg e).

Definition typesL (G : gmap string Repr) (es : list Expr) (rs : list Repr) : Prop :=
  forall sg, typedEnv G sg -> firesL callee sg es = false -> forall k res,
    (forall vs, Forall2 (fun r v => hasRepr r v = true) rs vs -> typedOut res (k vs)) ->
    typedOut res (pyEvals sg es k).

(** A binary node whose two operands are always evaluated. *)
Lemma types_strict G l r lr rr res sg fire py :
  typesE G l lr -> typesE G r rr -> typedEnv G sg ->
  fires sg l || whenVal (pyEval sg l) (fun v => fires sg r || whenVal (pyEval sg r) (fire v)) = false ->
  (forall v w, hasRepr lr v = true -> hasRepr rr w = true -> fire v w = false -> typedOut res (py v w)) ->
  typedOut res (pbind (pyEval sg l) (fun v => pbind (pyEval sg r) (py v))).
Proof.
  intros Hl Hr Hsg [F1 F2]%orb_false_iff Hop. eapply typedOut_pbind; [by apply Hl|]. intros v Ev Hv.
  rewrite Ev in F2. cbn [whenVal] in F2. apply orb_false_iff in F2 as [F2 F3].
  eapply typedOut_pbind; [by apply Hr|]. intros w Ew Hw. rewrite Ew in F3. by apply Hop.
Qed.

Lemma connRepr_has lr rr v :
  sameScalar lr rr = true -> connScalar (RScalar lr) = true ->
  hasRepr lr v = true \/ hasRepr rr v = true -> hasRepr (connRepr lr) v = true.
Proof.
  unfold sameScalar, connRepr, isScalar, hasRepr. intros E%bool_decide_eq_true Hc.
  rewrite <- E. destruct (RScalar lr) eqn:El; simpl; rewrite ?El; try done; by intros [|].
Qed.

Lemma types_index lr elem v i ir :
  isScalar NotScalar lr = true -> Elem lr = Some elem -> isScalar NotScalar elem = false ->
  isScalar SInt ir = true -> hasRepr lr v = true -> hasRepr ir i = true -> typedOut elem (pyIndex v i).
Proof.
  intros Hns He Hsc%isScalar_false Hi Hv Hw. apply isScalar_true in Hns, Hi.
  unfold hasRepr in Hv. rewrite Hns, He in Hv. rewrite (hasRepr_scalar ir i SInt) in Hw by done.
  destruct v; try done. destruct i; try done. cbn [pyIndex]. cbv zeta.
  destruct ((_ <? 0) || (_ <=? _)); [done|]. destruct (l !! _) eqn:El; [|done].
  unfold typedOut. rewrite (hasRepr_scalar elem v (RScalar elem)) by done.
  rewrite forallb_forall in Hv. apply Hv, list_elem_of_In. by eapply list_elem_of_lookup_2.
Qed.

Lemma find_field fs s n fr :
  forallb (fieldHas fs) s = true -> find (fun f => sfName Repr f =? n)%string s = Some fr ->
  exists v, fieldOf n (VStruct fs) = Some v /\ scalarHas (RScalar (sfRepr Repr fr)) v = true.
Proof.
  intros Hs [Hi En]%find_some. rewrite forallb_forall in Hs. specialize (Hs _ Hi).
  apply String.eqb_eq in En. unfold fieldHas in Hs. rewrite En in Hs.
  destruct (fieldOf n (VStruct fs)) as [v|]; [by exists v|done].
Qed.

Lemma types_attr br s n fr v :
  isScalar NotScalar br = true -> Elem br = None -> RShape br = Some s -> Field s n = Some fr ->
  isScalar NotScalar fr = false -> hasRepr br v = true -> typedOut fr (PRet <$> fieldOf n v).
Proof.
  intros Hns%isScalar_true He Hs Hf Hsc%isScalar_false Hv. unfold hasRepr in Hv. rewrite Hns, He, Hs in Hv.
  destruct v; try done. unfold Field in Hf. destruct (List.find _ _) as [f|] eqn:Ef; [|done].
  injection Hf as <-. destruct (find_field _ _ _ _ Hv Ef) as (u & -> & Hu).
  cbn [typedOut fmap option_fmap option_map]. by rewrite (hasRepr_scalar _ u (RScalar (sfRepr Repr f))).
Qed.

Lemma types_all G :
  (forall e r, ety sigs G e r -> typesE G e r) /\ (forall es rs, etys sigs G es rs -> typesL G es rs).
Proof.
  apply ety_etys_ind.
  - intros x r Hx sg Hsg _. destruct (Hsg x r Hx) as (v & E & Hv). cbn [PySem.pyEval]. by rewrite E.
  - intros z Hz sg _ _. exact Hz.
  - by intros f _ sg _ _.
  - by intros b sg _ _.
  - by intros s sg _ _.
  - intros op l r lr rr res _ Hl _ Hr Hres _ Hbb sg Hsg F. cbn [PySem.pyEval].
    eapply (types_strict G l r); eauto. intros. by eapply pyBin_typed.
  - intros op l r lr rr _ Hl _ Hr Hop sg Hsg F. cbn [PySem.pyEval].
    eapply (types_strict G l r lr rr _ _ (fun _ _ => false)); eauto. intros. by eapply pyCmp_typed.
  - intros l r lr rr _ Hl _ Hr Hs Hcs _ sg Hsg [F1 F2]%orb_false_iff. cbn [PySem.pyEval].
    eapply typedOut_pbind; [by apply Hl|]. intros v Ev Hv. rewrite Ev in F2.
    destruct (truth_scalar lr v Hcs Hv) as [[] ->]; [|by eapply (connRepr_has lr rr); auto].
    specialize (Hr sg Hsg F2). destruct (pyEval sg r) as [[w| |]|]; try done.
    eapply (connRepr_has lr rr); auto.
  - intros l r lr rr _ Hl _ Hr Hs Hcs _ sg Hsg [F1 F2]%orb_false_iff. cbn [PySem.pyEval].
    eapply typedOut_pbind; [by apply Hl|]. intros v Ev Hv. rewrite Ev in F2.
    destruct (truth_scalar lr v Hcs Hv) as [[] ->]; [by eapply (connRepr_has lr rr); auto|].
    specialize (Hr sg Hsg F2). destruct (pyEval sg r) as [[w| |]|]; try done.
    eapply (connRepr_has lr rr); auto.
  - intros x xr _ Hx Hb sg Hsg F. cbn [PySem.pyEval]. eapply typedOut_pbind; [by apply Hx|].
    intros v _ Hv. apply isScalar_true in Hb. rewrite (hasRepr_scalar xr v SBool) in Hv by done.
    by destruct v.
  - intros e i er ir elem _ He _ Hi Hns Hel Hsc Hint sg Hsg F. cbn [PySem.pyEval].
    eapply (types_strict G e i er ir); eauto. intros. by eapply types_index.
  - intros e n er s fr _ He Hns Hel Hsh Hf Hsc sg Hsg F. cbn [PySem.pyEval].
    eapply typedOut_pbind; [by apply He|]. intros v _ Hv. by eapply types_attr.
  - intros elem items rs _ Hl HF Hsc sg Hsg F. cbn [PySem.pyEval fires] in *.
    rewrite fires_walk in F. rewrite pyEval_walk. apply (Hl sg Hsg F). intros vs HV.
    cbn [typedOut]. unfold hasRepr. cbn [RScalar Elem listRepr]. by eapply scalars_forallb.
  - intros f es rs ps r Hsig Hu _ Hl Hps sg Hsg F. cbn [PySem.pyEval fires] in *.
    rewrite fires_walk in F. rewrite pyEval_walk. apply (Hl sg Hsg F). intros vs HV. unfold pyCall.
    destruct (callee f vs) as [v|] eqn:Ev; [|done]. eapply callee_typed; [done|exact Hsig|by eapply hasRepr_sames|done].
  - intros sg _ _ k res Hk. by apply Hk.
  - intros e r es rs _ He _ Hes sg Hsg [F1 F2]%orb_false_iff k res Hk. cbn [PySem.pyEvals].
    eapply typedOut_pbind; [by apply He|]. intros v Ev Hv. rewrite Ev in F2.
    apply (Hes sg Hsg F2). intros vs HV. apply Hk. by constructor.
Qed.
End Types.

(** C20: the representation the bridge gives an expression is a sound type as long as
    no guard of the static tier fires: with locals of their representations,
    Python's evaluation of a well-typed expression in which no guard fires is no
    type error and no power that leaves the ints, and its value, if it has one, is
    of that representation, an int being an int64. (Where a guard fires nothing is
    said: [(2 ** -1) << 1] is typed as an int and is a type error in Python.) *)
Theorem eval_type_safe callee sigs h G e r sg :
  Program callee sigs h -> ety sigs G e r -> typedEnv G sg -> fires callee sg e = false ->
  typedOut r (pyEval callee sg e).
Proof. intros HP He. by apply (proj1 (types_all callee sigs h G) e r He). Qed.

Lemma eval_type_safe_witness :
  let callee := fun _ _ => inr (mkExc "" "") in
  let e := Bin OpMul (Var "x" intRepr) (Bin OpDiv (Var "y" intRepr) (Int 2)) in
  let sg := {["x" := VInt 6; "y" := VInt (-5)]} : gmap string value in
  pyEval callee sg e = Some (PRet (VFloat (fmul (ofInt 6) (fdiv (ofInt (-5)) (ofInt 2))))) /\
  typedOut floatRepr (pyEval callee sg e).
Proof.
  intros callee e sg. split; [vm_compute; reflexivity|].
  apply (eval_type_safe callee (fun _ => None) "boxed" {["x" := intRepr; "y" := intRepr]}).
  - split; [done|by split_and!].
  - repeat econstructor.
  - intros x r Hx. rewrite lookup_insert_Some in Hx. destruct Hx as [[<- <-]|[_ Hx]]; [by exists (VInt 6)|].
    apply lookup_singleton_Some in Hx as [<- <-]. by exists (VInt (-5)).
  - vm_compute. reflexivity.
Defined.
