(* ===== verification/EmitKinds.v ===== *)
(** * EmitKinds: the types of Python's own run

    The typing of [EmitTyping] at the level of Python values: ints of any size.
    Whatever guards would fire, Python's run of a well-typed program stays
    within the kinds the typing gives its locals - the fact the bridge's
    rewrites rely on. *)

From S2P Require Import Prelude Int64 StaticOps GoSem Emit IrCost PySem EmitTyping EmitEnv EmitExpr EmitOps EmitSound EmitTypes.
Local Open Scope Z_scope.

Definition scalarKind (s : Scalar) (v : value) : bool :=
  match s, v with
  | SInt, VInt _ | SFloat, VFloat _ | SBool, VBool _ | SStr, VStr _ => true
  | _, _ => false
  end.

Definition fieldKind (fs : list (string * value)) (f : ShapeField Repr) : bool :=
  match fieldOf (sfName Repr f) (VStruct fs) with
  | Some v => scalarKind (RScalar (sfRepr Repr f)) v
  | None => false
  end.

(** [hasRepr], ints of any size. *)
Definition hasKind (r : Repr) (v : value) : bool :=
  match RScalar r with
  | NotScalar =>
      match Elem r, RShape r, v with
      | Some e, _, VList l => forallb (scalarKind (RScalar e)) l
      | None, Some s, VStruct fs => forallb (fieldKind fs) (shFields Repr s)
      | _, _, _ => false
      end
  | s => scalarKind s v
  end.

Lemma scalarHas_kind s v : scalarHas s v = true -> scalarKind s v = true.
Proof. by destruct s, v. Qed.

Lemma forallb_weaken {A} (f g : A -> bool) l :
  (forall x, f x = true -> g x = true) -> forallb f l = true -> forallb g l = true.
Proof. rewrite !forallb_forall. auto. Qed.

Lemma hasRepr_kind r v : hasRepr r v = true -> hasKind r v = true.
Proof.
  unfold hasRepr, hasKind. destruct (RScalar r); try apply scalarHas_kind.
  destruct (Elem r); [destruct v; try done; apply forallb_weaken; apply scalarHas_kind|].
  destruct (RShape r); [|done]. destruct v; try done. apply forallb_weaken. intros f.
  unfold fieldHas, fieldKind. destruct (fieldOf _ _); [apply scalarHas_kind|done].
Qed.

Lemma hasKind_scalar r v s : RScalar r = s -> s <> NotScalar -> hasKind r v = scalarKind s v.
Proof. intros <- Hs. unfold hasKind. by destruct (RScalar r). Qed.

Lemma hasKind_same a b v : sameRep a b -> hasKind a v = hasKind b v.
Proof. intros (E1 & E2 & E3). unfold hasKind. by rewrite E1, E2, E3. Qed.

Lemma hasKind_sames rs ps vs :
  Forall2 sameRep rs ps -> Forall2 (fun r v => hasKind r v = true) rs vs ->
  Forall2 (fun r v => hasKind r v = true) ps vs.
Proof.
  intros Hs. revert vs. induction Hs as [|r p rs ps Hr _ IH]; intros vs HV; inversion HV; subst; constructor;
    [by rewrite <- (hasKind_same r p)|by apply IH].
Qed.

(** What a kind says of an outcome. *)
Definition kindOut (r : Repr) (p : option pout) : Prop :=
  match p with
  | None => False
  | Some (PRet v) => hasKind r v = true
  | Some (PRaise _ | PUnspec) => True
  end.

Definition kindEnv (G : gmap string Repr) (sg : gmap string value) : Prop :=
  forall x r, G !! x = Some r -> exists v, sg !! x = Some v /\ hasKind r v = true.

Lemma kindOut_pbind r1 r p k :
  kindOut r1 p -> (forall v, p = Some (PRet v) -> hasKind r1 v = true -> kindOut r (k v)) ->
  kindOut r (pbind p k).
Proof. destruct p as [[v| |]|]; simpl; auto. Qed.

Lemma kindEnv_insert G sg x r v :
  kindEnv G sg -> hasKind r v = true -> kindEnv (<[x := r]> G) (<[x := v]> sg).
Proof.
  intros H Hv y q Hy. destruct (decide (x = y)) as [->|Hne].
  - rewrite lookup_insert_eq in Hy. simplify_eq. exists v. by rewrite lookup_insert_eq.
  - rewrite lookup_insert_ne in Hy by done. rewrite lookup_insert_ne by done. by apply H.
Qed.

Lemma kindEnv_sub G G' sg : G ⊆ G' -> kindEnv G' sg -> kindEnv G sg.
Proof. intros Hs H x r Hx. apply H. by eapply lookup_weaken. Qed.

(** ** The operators *)

Lemma numeric_kind r v :
  numeric r = true -> hasKind r v = true ->
  (exists z, asZ v = Some z /\ isScalar SFloat r = false) \/ (exists f, v = VFloat f /\ isScalar SFloat r = true).
Proof.
  unfold numeric, isScalar, hasKind. destruct (RScalar r); simpl; try done; destruct v; try done; eauto.
Qed.

Lemma pyInts_kind op x y : op <> OpDiv -> kindOut intRepr (Some (pyInts op x y)).
Proof. unfold pyInts. intros _. destruct (pyIntOp op x y) as [z| |[]]; done. Qed.

Lemma typedOut_kind r p : typedOut r p -> kindOut r p.
Proof. destruct p as [[v| |]|]; simpl; [apply hasRepr_kind|done..]. Qed.

Lemma no_bits_kind op lr rr v w :
  boolBits op lr rr = false -> numeric lr = true -> numeric rr = true ->
  hasKind lr v = true -> hasKind rr w = true -> pyBits op v w = None.
Proof.
  unfold boolBits, numeric, isScalar, hasKind.
  destruct (RScalar lr) eqn:El, (RScalar rr) eqn:Er; simpl; intros Hb Hl Hr Hv Hw; try done;
    destruct v; try done; destruct w; try done; by destruct op.
Qed.

Lemma pyBin_kind op lr rr res v w :
  binResult op lr rr = Some res -> boolBits op lr rr = false ->
  hasKind lr v = true -> hasKind rr w = true -> kindOut res (pyBin op v w).
Proof.
  unfold binResult. intros E Hb Hv Hw. destruct (isScalar SStr lr || isScalar SStr rr) eqn:Es.
  { destruct (bool_decide_reflect (op = OpAdd)) as [->|]; [|done]. simpl in E.
    destruct (isScalar SStr lr) eqn:El; [|done]. destruct (isScalar SStr rr) eqn:Er; [|done]. simplify_eq/=.
    rewrite (hasKind_scalar lr v SStr) in Hv by (by try apply isScalar_true).
    rewrite (hasKind_scalar rr w SStr) in Hw by (by try apply isScalar_true). by destruct v, w. }
  destruct (numeric lr) eqn:Nl; [|done]. destruct (numeric rr) eqn:Nr; [|done]. cbn [negb orb] in E.
  pose proof (no_bits_kind op lr rr v w Hb Nl Nr Hv Hw) as Hnb.
  destruct (numeric_kind lr v Nl Hv) as [(x & Ex & Fl)|(x & -> & Fl)],
    (numeric_kind rr w Nr Hw) as [(y & Ey & Fr)|(y & -> & Fr)]; unfold anyFloat in E; rewrite Fl, Fr in E;
    cbn [orb] in E.
  - rewrite (pyBin_ints op v w x y Ex Ey Hnb).
    destruct op; simplify_eq; try (by apply pyInts_kind); apply typedOut_kind, pyDivInts_typed.
  - eapply typedOut_kind, pyFloats_typed; [by apply asZ_asF|reflexivity|by right| |]; destruct op; simplify_eq; auto.
  - eapply typedOut_kind, pyFloats_typed; [reflexivity|by apply asZ_asF|by left| |]; destruct op; simplify_eq; auto.
  - eapply typedOut_kind, pyFloats_typed; [reflexivity|reflexivity|by left| |]; destruct op; simplify_eq; auto.
Qed.

Lemma pyCmp_kind op lr rr v w :
  cmpOperands op lr rr = true -> hasKind lr v = true -> hasKind rr w = true ->
  kindOut boolRepr (pyCmp op v w).
Proof.
  unfold cmpOperands, arith, isScalar, hasKind. intros Ho Hv Hw.
  destruct (RScalar lr), (RScalar rr); try done; destruct v; try done; destruct w; try done; simpl in *;
    unfold pyCmpMixed;
    repeat match goal with
    | |- context [cmpBy (cmpTok op) ?a ?b ?c] => destruct (cmpBy_some op a b c) as [? ->]
    | |- context [cmpFloat (cmpTok op) ?a ?b] => destruct (cmpFloat_some op a b) as [? ->]
    end; try done.
  all: by destruct op.
Qed.

Lemma truth_kind r v : truthy r = true -> hasKind r v = true -> exists c, truth v = Some c.
Proof.
  unfold truthy, hasKind. destruct (RScalar r), (Elem r), (RShape r), v; try done; eauto.
Qed.

Lemma connScalar_truthy r : connScalar (RScalar r) = true -> truthy r = true.
Proof. unfold truthy. by destruct (RScalar r). Qed.

Lemma connRepr_kind lr rr v :
  sameScalar lr rr = true -> connScalar (RScalar lr) = true ->
  hasKind lr v = true \/ hasKind rr v = true -> hasKind (connRepr lr) v = true.
Proof.
  unfold sameScalar, connRepr, isScalar, hasKind. intros E%bool_decide_eq_true Hc.
  rewrite <- E. destruct (RScalar lr) eqn:El; simpl; rewrite ?El; try done; by intros [|].
Qed.

Lemma kind_index lr elem v i ir :
  isScalar NotScalar lr = true -> Elem lr = Some elem -> isScalar NotScalar elem = false ->
  isScalar SInt ir = true -> hasKind lr v = true -> hasKind ir i = true -> kindOut elem (pyIndex v i).
Proof.
  intros Hns He Hsc%isScalar_false Hi Hv Hw. apply isScalar_true in Hns, Hi.
  unfold hasKind in Hv. rewrite Hns, He in Hv. rewrite (hasKind_scalar ir i SInt) in Hw by done.
  destruct v; try done. destruct i; try done. cbn [pyIndex]. cbv zeta.
  destruct ((_ <? 0) || (_ <=? _)); [done|]. destruct (l !! _) eqn:El; [|done].
  unfold kindOut. rewrite (hasKind_scalar elem v (RScalar elem)) by done.
  rewrite forallb_forall in Hv. apply Hv, list_elem_of_In. by eapply list_elem_of_lookup_2.
Qed.

Lemma kind_attr br s n fr v :
  isScalar NotScalar br = true -> Elem br = None -> RShape br = Some s -> Field s n = Some fr ->
  isScalar NotScalar fr = false -> hasKind br v = true -> kindOut fr (PRet <$> fieldOf n v).
Proof.
  intros Hns%isScalar_true He Hs Hf Hsc%isScalar_false Hv. unfold hasKind in Hv. rewrite Hns, He, Hs in Hv.
  destruct v; try done. unfold Field in Hf. destruct (List.find _ _) as [f|] eqn:Ef; [|done].
  injection Hf as <-. apply find_some in Ef as [Hi En]. apply String.eqb_eq in En.
  rewrite forallb_forall in Hv. specialize (Hv _ Hi). unfold fieldKind in Hv. rewrite En in Hv.
  destruct (fieldOf n (VStruct fs)) as [u|]; [|done].
  cbn [kindOut fmap option_fmap option_map]. by rewrite (hasKind_scalar _ u (RScalar (sfRepr Repr f))).
Qed.

Lemma kind_items elem rs vs :
  Forall (fun r => sameScalar r elem = true) rs -> isScalar NotScalar elem = false ->
  Forall2 (fun rp v => hasKind rp v = true) rs vs -> forallb (scalarKind (RScalar elem)) vs = true.
Proof.
  intros HF He HV. apply isScalar_false in He.
  induction HV as [|rp v rs vs Hv HV IH]; [done|]. inversion HF as [|? ? Hs HF']; subst. simpl.
  unfold sameScalar in Hs. apply bool_decide_eq_true in Hs.
  rewrite (hasKind_scalar rp v (RScalar elem)) in Hv by done. by rewrite Hv, IH.
Qed.

(** ** Every expression *)

(** A static callee keeps its declared kinds on ints of any size. *)
Class KindProgram (callee : string -> list value -> value + pyexc)
    (sigs : string -> option (list Repr * Repr)) : Prop :=
  callee_kind f ps r vs v : sigs f = Some (ps, r) -> Forall2 (fun p a => hasKind p a = true) ps vs ->
    callee f vs = inl v -> hasKind r v = true.

Section Kinds.
Context (callee : string -> list value -> value + pyexc).
Context (sigs : string -> option (list Repr * Repr)) (h : string).
Context `{!KindProgram callee sigs}.
Local Notation pyEval := (pyEval callee).
Local Notation pyEvals := (pyEvals callee).

Definition kindsE (G : gmap string Repr) (e : Expr) (r : Repr) : Prop :=
  forall sg, kindEnv G sg -> kindOut r (pyEval sg e).

Definition kindsL (G : gmap string Repr) (es : list Expr) (rs : list Repr) : Prop :=
  forall sg, kindEnv G sg -> forall k res,
    (forall vs, Forall2 (fun r v => hasKind r v = true) rs vs -> kindOut res (k vs)) ->
    kindOut res (pyEvals sg es k).

Lemma kinds_strict G l r lr rr res sg py :
  kindsE G l lr -> kindsE G r rr -> kindEnv G sg ->
  (forall v w, hasKind lr v = true -> hasKind rr w = true -> kindOut res (py v w)) ->
  kindOut res (pbind (pyEval sg l) (fun v => pbind (pyEval sg r) (py v))).
Proof.
  intros Hl Hr Hsg Hop. eapply kindOut_pbind; [by apply Hl|]. intros v _ Hv.
  eapply kindOut_pbind; [by apply Hr|]. intros w _ Hw. by apply Hop.
Qed.

Lemma kinds_conn G l r lr rr sg (c : bool) :
  kindsE G l lr -> kindsE G r rr -> sameScalar lr rr = true -> connScalar (RScalar lr) = true ->
  kindEnv G sg ->
  kindOut (connRepr lr) (pbind (pyEval sg l) (fun v =>
    match truth v with
    | Some b => if Bool.eqb b c then pyEval sg r else Some (PRet v)
    | None => None
    end)).
Proof.
  intros Hl Hr Hs Hc Hsg. eapply kindOut_pbind; [by apply Hl|]. intros v _ Hv.
  destruct (truth_kind lr v) as [b ->]; [by apply connScalar_truthy|done|].
  destruct (Bool.eqb b c); [|by eapply (connRepr_kind lr rr); auto].
  specialize (Hr sg Hsg). destruct (pyEval sg r) as [[w| |]|]; try done.
  eapply (connRepr_kind lr rr); auto.
Qed.

Lemma kinds_all G :
  (forall e r, ety sigs G e r -> kindsE G e r) /\ (forall es rs, etys sigs G es rs -> kindsL G es rs).
Proof.
  apply ety_etys_ind.
  - intros x r Hx sg Hsg. destruct (Hsg x r Hx) as (v & E & Hv). cbn [PySem.pyEval]. by rewrite E.
  - by intros z Hz sg _.
  - by intros f _ sg _.
  - by intros b sg _.
  - by intros s sg _.
  - intros op l r lr rr res _ Hl _ Hr Hres _ Hbb sg Hsg. cbn [PySem.pyEval].
    eapply (kinds_strict G l r); eauto. intros. by eapply pyBin_kind.
  - intros op l r lr rr _ Hl _ Hr Hop sg Hsg. cbn [PySem.pyEval].
    eapply (kinds_strict G l r lr rr); eauto. intros. by eapply pyCmp_kind.
  - intros l r lr rr _ Hl _ Hr Hs Hcs _ sg Hsg. cbn [PySem.pyEval].
    pose proof (kinds_conn G l r lr rr sg true Hl Hr Hs Hcs Hsg) as H.
    destruct (pyEval sg l) as [[v| |]|]; try done. cbn [pbind] in *. by destruct (truth v) as [[]|].
  - intros l r lr rr _ Hl _ Hr Hs Hcs _ sg Hsg. cbn [PySem.pyEval].
    pose proof (kinds_conn G l r lr rr sg false Hl Hr Hs Hcs Hsg) as H.
    destruct (pyEval sg l) as [[v| |]|]; try done. cbn [pbind] in *. by destruct (truth v) as [[]|].
  - intros x xr _ Hx Hb sg Hsg. cbn [PySem.pyEval]. eapply kindOut_pbind; [by apply Hx|].
    intros v _ Hv. apply isScalar_true in Hb. rewrite (hasKind_scalar xr v SBool) in Hv by done.
    by destruct v.
  - intros e i er ir elem _ He _ Hi Hns Hel Hsc Hint sg Hsg. cbn [PySem.pyEval].
    eapply (kinds_strict G e i er ir); eauto. intros. by eapply kind_index.
  - intros e n er s fr _ He Hns Hel Hsh Hf Hsc sg Hsg. cbn [PySem.pyEval].
    eapply kindOut_pbind; [by apply He|]. intros v _ Hv. by eapply kind_attr.
  - intros elem items rs _ Hl HF Hsc sg Hsg. cbn [PySem.pyEval]. rewrite pyEval_walk.
    apply (Hl sg Hsg). intros vs HV. cbn [kindOut]. unfold hasKind. cbn [RScalar Elem listRepr].
    by eapply kind_items.
  - intros f es rs ps r Hsig Hu _ Hl Hps sg Hsg. cbn [PySem.pyEval]. rewrite pyEval_walk.
    apply (Hl sg Hsg). intros vs HV. unfold pyCall.
    destruct (callee f vs) as [v|] eqn:Ev; [|done]. eapply callee_kind; [exact Hsig| |done].
    by eapply hasKind_sames.
  - intros sg _ k res Hk. by apply Hk.
  - intros e r es rs _ He _ Hes sg Hsg k res Hk. cbn [PySem.pyEvals].
    eapply kindOut_pbind; [by apply He|]. intros v Ev Hv.
    apply (Hes sg Hsg). intros vs HV. apply Hk. by constructor.
Qed.

Lemma ety_kind G e r sg : ety sigs G e r -> kindEnv G sg -> kindOut r (pyEval sg e).
Proof. intros H Hsg. by apply (proj1 (kinds_all G) e r H). Qed.
End Kinds.
