(* ===== verification/EmitGuards.v ===== *)
(** * EmitGuards: the guard walk agrees with the code generator

    The deopt planner (src/pkg/ir/deopt.go, over the operand rules of cost.go)
    predicts which expressions carry a deopting guard without lowering them.
    For the typed expressions without attributes the prediction is exact: the
    builder takes a deopt edge exactly for those. *)

From S2P Require Import Prelude Int64 StaticOps GoSem Emit IrCost PySem EmitTyping EmitEnv EmitExpr EmitOps EmitSound.
Local Open Scope Z_scope.
Local Open Scope emit_scope.

(** ** The planner's representations *)

(** No attribute read: [reprOf] has no case for one. *)
Fixpoint noAttr (e : Expr) : bool :=
  match e with
  | Attr _ _ => false
  | Bin _ l r | Cmp _ l r | And l r | Or l r | Index l r => noAttr l && noAttr r
  | Not x => noAttr x
  | ListLit _ items => (fix go l := match l with [] => true | a :: l => noAttr a && go l end) items
  | Call _ args _ => (fix go l := match l with [] => true | a :: l => noAttr a && go l end) args
  | _ => true
  end.

Fixpoint noAttrs (l : list Expr) : bool :=
  match l with [] => true | a :: l => noAttr a && noAttrs l end.

Lemma noAttr_walk l :
  (fix go (l : list Expr) : bool := match l with [] => true | a :: l => noAttr a && go l end) l = noAttrs l.
Proof. induction l as [|a l IH]; [done|]. simpl. by rewrite IH. Qed.

(** Some item carries a guard. *)
Definition anyGuarded (l : list Expr) : bool := existsb exprGuarded l.

Lemma guarded_walk l :
  (fix go (l : list Expr) : bool := match l with [] => false | a :: l => exprGuarded a || go l end) l = anyGuarded l.
Proof. induction l as [|a l IH]; [done|]. simpl. by rewrite IH. Qed.

(** Alike to the operand rules: the same scalar, the same element of a list. *)
Definition alike (a b : Repr) : Prop :=
  RScalar a = RScalar b /\ (RScalar b = NotScalar -> Elem a = Elem b).

Lemma alike_refl a : alike a a. Proof. done. Qed.

Lemma alike_scalar a b : alike a b -> forall s, isScalar s a = isScalar s b.
Proof. intros [E _] s. unfold isScalar. by rewrite E. Qed.

Lemma binResult_alike op a a' b b' :
  alike a a' -> alike b b' -> binResult op a b = binResult op a' b'.
Proof.
  intros Ha Hb. unfold binResult, anyFloat, numeric.
  by rewrite !(alike_scalar a a' Ha), !(alike_scalar b b' Hb).
Qed.

Lemma connRepr_alike a lr : alike a lr -> alike a (connRepr lr).
Proof.
  unfold connRepr. destruct (isScalar SBool lr) eqn:E; [|done]. apply isScalar_true in E.
  intros [Hs _]. split; [by rewrite Hs|done].
Qed.

Lemma reprOf_typed sigs G :
  (forall e rp, ety sigs G e rp -> noAttr e = true -> alike (reprOf e) rp) /\
  (forall es rs, etys sigs G es rs -> True).
Proof.
  apply ety_etys_ind; try done.
  - intros op l r lr rr res _ Hl _ Hr Hres _ _ Ha. simpl in *. bool_to_prop.
    by rewrite (binResult_alike op _ lr _ rr), Hres by auto.
  - intros l r lr rr _ Hl _ Hr Hs Hc _ Ha. simpl in *. bool_to_prop. apply connRepr_alike. auto.
  - intros l r lr rr _ Hl _ Hr Hs Hc _ Ha. simpl in *. bool_to_prop. apply connRepr_alike. auto.
  - intros b i br ir elem _ Hb _ Hi Hns Hel _ _ Ha. simpl in *. bool_to_prop.
    destruct Hb as [_ Hb]; [done|]. rewrite Hb, Hel; [done|]. by apply isScalar_true.
Qed.

(** ** The edges the builder takes *)

(** Some deopt edge was built: to the boxed twin of a named handler, to a resume
    frame's twin or to a generator's signal, which set the flag, or to a numbered
    handler, which are counted. *)
Definition edged (b : Builder) : bool := deoptUsed b || (0 <? nDeopt b)%nat.

(** [m] takes a deopt edge exactly if [g]. *)
Definition takes {A} (m : EM A) (b : Builder) (g : bool) : Prop :=
  forall a b', m b = inl (a, b') -> edged b' = edged b || g.

Lemma takes_ret {A} (a : A) b : takes (eret a) b false.
Proof. intros a' b' [= _ <-]. by rewrite orb_false_r. Qed.

Lemma takes_fail {A} e b g : takes (efail (A := A) e) b g.
Proof. by intros a b'. Qed.

Lemma takes_bind {A B} (m : EM A) (k : A -> EM B) b g1 g2 :
  takes m b g1 -> (forall a b1, m b = inl (a, b1) -> takes (k a) b1 g2) -> takes (ebind m k) b (g1 || g2).
Proof.
  intros H1 H2 a b' E. unfold ebind in E. destruct (m b) as [[a1 b1]|] eqn:Em; [|done].
  rewrite (H2 a1 b1 eq_refl _ _ E), (H1 _ _ Em). by rewrite orb_assoc.
Qed.

Lemma takes_skip {A B} (m : EM A) (k : A -> EM B) b g :
  takes m b false -> (forall a b1, takes (k a) b1 g) -> takes (ebind m k) b g.
Proof. intros H1 H2. by apply (takes_bind m k b false g). Qed.

Lemma takes_temp b : takes temp b false.
Proof. intros a b' [= _ <-]. by rewrite orb_false_r. Qed.
Lemma takes_flag b : takes flag b false.
Proof. intros a b' [= _ <-]. by rewrite orb_false_r. Qed.
Lemma takes_append ss b : takes (append_ ss) b false.
Proof. intros a b' [= _ <-]. by rewrite orb_false_r. Qed.
Lemma takes_raise c exc msg b : takes (raiseIf c exc msg) b false.
Proof. intros a b' [= _ <-]. by rewrite orb_false_r. Qed.

(** Whatever the builder, asking for the edge builds one. *)
Lemma takes_edge b : takes deoptEdge b true.
Proof.
  intros a b' E. rewrite orb_true_r. unfold deoptEdge, ebind, bget, useDeopt, nextDeopt, eret in E.
  destruct (genDeopt b); [by injection E as _ <-|]. destruct (last (resume b)); [by injection E as _ <-|].
  destruct (String.eqb (deopt b) ""); injection E as _ <-; [apply orb_true_r|done].
Qed.

Lemma takes_guarded f lx rx b : takes (guardedCall f lx rx) b true.
Proof.
  unfold guardedCall. apply takes_skip; [apply takes_temp|]. intros v b1. apply takes_skip; [apply takes_flag|]. intros o b2.
  apply (takes_bind _ _ _ true false); [apply takes_edge|]. intros e b3 _. apply takes_skip; [apply takes_append|].
  intros ? b4. apply takes_ret.
Qed.

(** An int operation takes an edge exactly if its operator can overflow. *)
Lemma takes_binOps op lx lr rx rr res b :
  binResult op lr rr = Some res ->
  takes (lowerBinOps op lx lr rx rr) b (isScalar SInt res && Overflows op).
Proof.
  intros Hres. unfold binResult in Hres. unfold lowerBinOps.
  destruct (isScalar SStr lr || isScalar SStr rr).
  { destruct (negb _ || _ || _); [done|]. simplify_eq. apply takes_ret. }
  destruct (negb (numeric lr) || negb (numeric rr)); [done|].
  destruct op; destruct (anyFloat lr rr); simplify_eq; cbn [Overflows andb];
    first [apply takes_ret|apply takes_guarded|apply takes_fail|
      apply takes_skip; [apply takes_raise|intros; first [apply takes_ret|apply takes_guarded]]].
Qed.

Lemma takes_cmpOps op lx lr rx rr b : takes (lowerCmpOps op lx lr rx rr) b false.
Proof.
  unfold lowerCmpOps. destruct (arith lr && arith rr); [destruct (anyFloat lr rr); apply takes_ret|].
  destruct (_ || _); [apply takes_ret|apply takes_fail].
Qed.

Lemma takes_boolOps op e lx lr rx rr b : takes (lowerBoolOps op e lx lr rx rr) b false.
Proof.
  unfold lowerBoolOps. destruct (HasRaisingGuard e); [apply takes_fail|].
  destruct (_ && _); [apply takes_ret|].
  destruct (if sameScalar lr rr then _ else _); [apply takes_ret|apply takes_fail].
Qed.

Lemma takes_notOp x xr b : takes (lowerNotOp x xr) b false.
Proof. unfold lowerNotOp. destruct (negb _); [apply takes_fail|apply takes_ret]. Qed.

Lemma takes_callOf f xs r b : takes (lowerCallOf f xs r) b false.
Proof. intros a b' [= _ <-]. by rewrite orb_false_r. Qed.

Lemma takes_coerce elem i ix ir b : takes (coerceItem elem i ix ir) b false.
Proof. unfold coerceItem. destruct (sameScalar _ _); [|destruct (_ && _)]; first [apply takes_ret|apply takes_fail]. Qed.

Lemma takes_indexOf bx elem ix ir b : takes (lowerIndexOf bx elem ix ir) b true.
Proof.
  unfold lowerIndexOf. destruct (negb _); [apply takes_fail|]. apply takes_skip; [apply takes_temp|]. intros v b1.
  apply takes_skip; [apply takes_temp|]. intros o b2. apply (takes_bind _ _ _ true false); [apply takes_edge|].
  intros e b3 _. apply takes_skip; [apply takes_append|]. intros ? b4. apply takes_ret.
Qed.

(** ** The representation of a lowered expression *)

Lemma binOps_repr op lx lr rx rr res b x r b' :
  binResult op lr rr = Some res -> lowerBinOps op lx lr rx rr b = inl ((x, r), b') -> r = res.
Proof.
  assert (forall f lx rx b, guardedCall f lx rx b = inl ((x, r), b') -> r = intRepr) as Hg.
  { clear. intros f lx rx b E. unfold guardedCall in E. apply ebind_inv in E as (v & b1 & _ & E).
    apply ebind_inv in E as (o & b2 & _ & E). apply ebind_inv in E as (e & b3 & _ & E).
    apply ebind_inv in E as (u & b4 & _ & E). by injection E. }
  unfold binResult, lowerBinOps. destruct (isScalar SStr lr || isScalar SStr rr).
  { destruct (negb _ || _ || _); [done|]. intros [= <-] [= _ <- _]. done. }
  destruct (negb (numeric lr) || negb (numeric rr)); [done|].
  destruct op; destruct (anyFloat lr rr); intros [= <-] E; try discriminate E; try (by apply Hg in E);
    try (by injection E); apply ebind_inv in E as (u & b1 & _ & E); try (by apply Hg in E); by injection E.
Qed.

Lemma conn_repr tok l r lr rr b p b' :
  (forall b p b', lowerExpr l b = inl (p, b') -> p.2 = lr) -> (forall b p b', lowerExpr r b = inl (p, b') -> p.2 = rr) ->
  sameScalar lr rr = true ->
  ('(lx, lr) <- lowerExpr l ;; '(rx, rr) <- lowerExpr r ;; lowerBoolOps tok r lx lr rx rr) b = inl (p, b') ->
  p.2 = connRepr lr.
Proof.
  intros Hl Hr Hs E. apply ebind_inv in E as ([lx lr'] & b1 & E1 & E). apply ebind_inv in E as ([rx rr'] & b2 & E2 & E).
  apply Hl in E1. apply Hr in E2. simpl in *. subst lr' rr'. unfold lowerBoolOps in E. rewrite Hs in E. unfold connRepr.
  assert (isScalar SBool rr = isScalar SBool lr) as Eb.
  { unfold sameScalar in Hs. apply bool_decide_eq_true in Hs. unfold isScalar. by rewrite Hs. }
  rewrite Eb, andb_diag in E. unfold eret, efail in E. destruct (HasRaisingGuard r); [done|].
  destruct (isScalar SBool lr); [by injection E as <- _|]. destruct (valueConnHelper _ _); [by injection E as <- _|done].
Qed.

Lemma lowered_repr sigs G :
  (forall e rp, ety sigs G e rp -> noAttr e = true -> forall b p b', lowerExpr e b = inl (p, b') -> p.2 = rp) /\
  (forall es rs, etys sigs G es rs -> True).
Proof.
  apply ety_etys_ind; try done; try (by (intros; match goal with E : lowerExpr _ _ = inl _ |- _ => by injection E as <- _ end)).
  - intros op l r lr rr res _ Hl _ Hr Hres _ _ Ha b [x rx] b' E. simpl in Ha. bool_to_prop. cbn [lowerExpr] in E.
    apply ebind_inv in E as ([lx lr'] & b1 & E1 & E). apply ebind_inv in E as ([yx rr'] & b2 & E2 & E).
    apply Hl in E1; [|done]. apply Hr in E2; [|done]. simpl in *. subst. by eapply binOps_repr.
  - intros op l r lr rr _ _ _ _ _ _ b [x rx] b' E. cbn [lowerExpr] in E.
    apply ebind_inv in E as ([lx lr'] & b1 & _ & E). apply ebind_inv in E as ([yx rr'] & b2 & _ & E).
    unfold lowerCmpOps, eret, efail in E. by repeat case_match; simplify_eq.
  - intros l r lr rr _ Hl _ Hr Hs Hc _ Ha b p b' E. simpl in Ha. bool_to_prop. eapply (conn_repr LAND l r); eauto.
  - intros l r lr rr _ Hl _ Hr Hs Hc _ Ha b p b' E. simpl in Ha. bool_to_prop. eapply (conn_repr LOR l r); eauto.
  - intros x xr _ _ _ _ b p b' E. cbn [lowerExpr] in E. apply ebind_inv in E as ([gx xr'] & b1 & _ & E).
    unfold lowerNotOp, eret, efail in E. by case_match; simplify_eq.
  - intros e i er ir elem _ He _ Hi _ Hel _ _ Ha b p b' E. simpl in Ha. bool_to_prop. cbn [lowerExpr] in E.
    apply ebind_inv in E as ([bx br] & b1 & E1 & E). apply He in E1; [|done]. simpl in E1. subst br. rewrite Hel in E.
    apply ebind_inv in E as ([ix ir'] & b2 & _ & E). unfold lowerIndexOf in E. destruct (negb _); [done|].
    repeat (apply ebind_inv in E as (? & ? & _ & E)). by injection E as <- _.
  - intros elem items rs _ _ _ _ _ b p b' E. rewrite lowerExpr_list in E.
    apply ebind_inv in E as (elts & b1 & _ & E). by injection E as <- _.
  - intros f es rs ps r _ _ _ _ _ _ b p b' E. rewrite lowerExpr_call in E.
    apply ebind_inv in E as (xs & b1 & _ & E). unfold lowerCallOf in E.
    repeat (apply ebind_inv in E as (? & ? & _ & E)). by injection E as <- _.
Qed.

Section Edges.
Context (sigs : string -> option (list Repr * Repr)).

(** Both operands, then the operation. *)
Lemma takes_two {A} G l r lr rr b gl gr g (k : gexpr -> Repr -> gexpr -> Repr -> EM A) :
  ety sigs G l lr -> ety sigs G r rr -> noAttr l = true -> noAttr r = true ->
  (forall b, takes (lowerExpr l) b gl) -> (forall b, takes (lowerExpr r) b gr) ->
  (forall lx rx b, takes (k lx lr rx rr) b g) ->
  takes ('(lx, lr) <- lowerExpr l ;; '(rx, rr) <- lowerExpr r ;; k lx lr rx rr) b (gl || (gr || g)).
Proof.
  intros Hl Hr Al Ar H1 H2 H3. apply takes_bind; [done|]. intros [lx lr'] b1 E1.
  apply (proj1 (lowered_repr sigs G) _ _ Hl Al) in E1. simpl in E1. subst lr'.
  apply takes_bind; [by apply H2|]. intros [rx rr'] b2 E2.
  apply (proj1 (lowered_repr sigs G) _ _ Hr Ar) in E2. simpl in E2. subst rr'. by apply H3.
Qed.

(** Every item is lowered, in both walks. *)
Definition takesItems (es : list Expr) (b : Builder) : Prop :=
  takes (lowerArgs es) b (anyGuarded es) /\ forall elem i, takes (lowerItems elem i es) b (anyGuarded es).

Lemma takes_all G :
  (forall e rp, ety sigs G e rp -> noAttr e = true -> forall b, takes (lowerExpr e) b (exprGuarded e)) /\
  (forall es rs, etys sigs G es rs -> noAttrs es = true -> forall b, takesItems es b).
Proof.
  apply ety_etys_ind; try (by intros; apply takes_ret).
  - intros op l r lr rr res Tl Hl Tr Hr Hres _ _ Ha b. simpl in *. apply andb_true_iff in Ha as [Hal Har].
    assert (guardedOp op l r = isScalar SInt res && Overflows op) as ->.
    { unfold guardedOp. rewrite (binResult_alike op _ lr _ rr), Hres; [done|..];
        by apply (proj1 (reprOf_typed sigs G)). }
    rewrite <- orb_assoc. eapply takes_two; eauto. intros lx rx b2. by apply takes_binOps.
  - intros op l r lr rr Tl Hl Tr Hr _ Ha b. simpl in *. apply andb_true_iff in Ha as [Hal Har].
    rewrite <- (orb_false_r (exprGuarded r)). eapply takes_two; eauto using takes_cmpOps.
  - intros l r lr rr Tl Hl Tr Hr _ _ _ Ha b. simpl in *. apply andb_true_iff in Ha as [Hal Har].
    rewrite <- (orb_false_r (exprGuarded r)).
    apply (takes_two G l r lr rr b _ _ false (lowerBoolOps LAND r)); eauto using takes_boolOps.
  - intros l r lr rr Tl Hl Tr Hr _ _ _ Ha b. simpl in *. apply andb_true_iff in Ha as [Hal Har].
    rewrite <- (orb_false_r (exprGuarded r)).
    apply (takes_two G l r lr rr b _ _ false (lowerBoolOps LOR r)); eauto using takes_boolOps.
  - intros x xr Tx Hx _ Ha b. simpl in *. rewrite <- (orb_false_r (exprGuarded x)).
    apply takes_bind; [auto|]. intros [gx r] b1 _. apply takes_notOp.
  - intros e i er ir elem Te He Ti Hi _ Hel _ _ Ha b. simpl in *. apply andb_true_iff in Ha as [Hae Hai].
    rewrite <- (orb_true_r (exprGuarded e)). apply takes_bind; [auto|]. intros [ex er'] b1 E1.
    apply (proj1 (lowered_repr sigs G) _ _ Te Hae) in E1. simpl in E1. subst er'. rewrite Hel.
    rewrite <- (orb_true_r (exprGuarded i)). apply takes_bind; [auto|]. intros [ix ir'] b2 _. apply takes_indexOf.
  - done.
  - intros elem items rs Tl Hl HF _ Ha b. cbn [noAttr exprGuarded] in *. rewrite noAttr_walk in Ha.
    rewrite guarded_walk. intros p b' E. rewrite lowerExpr_list in E. revert p b' E.
    rewrite <- (orb_false_r (anyGuarded items)). apply takes_bind; [by apply Hl|]. intros xs b1 _. apply takes_ret.
  - intros f es rs ps r _ _ Tl Hl _ Ha b. cbn [noAttr exprGuarded] in *. rewrite noAttr_walk in Ha.
    rewrite guarded_walk. intros p b' E. rewrite lowerExpr_call in E. revert p b' E.
    rewrite <- (orb_false_r (anyGuarded es)). apply takes_bind; [by apply Hl|]. intros xs b1 _. apply takes_callOf.
  - intros _ b. split; [|intros]; apply takes_ret.
  - intros e r es rs Te He Tl Hl Ha b. simpl in *. apply andb_true_iff in Ha as [Hae Hal].
    change (anyGuarded (e :: es)) with (exprGuarded e || anyGuarded es). split; [|intros elem i]; simpl;
      (apply takes_bind; [auto|]; intros [x xr] b1 _; rewrite <- (orb_false_r (anyGuarded es))).
    + apply takes_bind; [by apply Hl|]. intros xs b2 _. apply takes_ret.
    + apply takes_skip; [apply takes_coerce|]. intros y b2. apply takes_bind; [by apply Hl|]. intros xs b3 _. apply takes_ret.
Qed.
End Edges.

(** C34: for every well-typed expression without an attribute read, the
    deopt planner's walk predicts the code generator exactly: lowering the
    expression builds a deopt edge if and only if [exprGuarded] says it is a
    guard site, whatever the builder it is lowered with - of a function with a
    named handler or with numbered ones, of a loop's resume frame, or of a
    generator. *)
Theorem exprGuarded_exact sigs G e rp b p b' :
  ety sigs G e rp -> noAttr e = true -> lowerExpr e b = inl (p, b') -> edged b' = edged b || exprGuarded e.
Proof. intros He Ha. by eapply (proj1 (takes_all sigs G)). Qed.

Definition guardBuilder : Builder :=
  mkBuilder "f" [] intRepr "boxed" false 0 0 0 0 false [] [].

(** With a named handler, and without one. *)
Lemma exprGuarded_exact_witness :
  let e := Bin OpAdd (Bin OpMod (Int 7) (Int 2)) (Int 1) in
  let plainBuilder := mkBuilder "f" [] intRepr "" false 0 0 0 0 false [] [] in
  (exists p b', lowerExpr e guardBuilder = inl (p, b') /\ edged b' = edged guardBuilder || exprGuarded e) /\
  exists p b', lowerExpr e plainBuilder = inl (p, b') /\ deoptUsed b' = false /\ edged b' = exprGuarded e.
Proof.
  intros e plainBuilder.
  assert (ety (fun _ => None) ∅ e intRepr) as He.
  { eapply TBin; [eapply TBin; [by constructor|by constructor|reflexivity..]|by constructor|reflexivity..]. }
  split; eexists _, _; (split; [vm_compute; reflexivity|]).
  - eapply (exprGuarded_exact _ _ _ _ guardBuilder); [exact He|done|vm_compute; reflexivity].
  - split; [reflexivity|]. eapply (exprGuarded_exact _ _ _ _ plainBuilder); [exact He|done|vm_compute; reflexivity].
Defined.

(** A guarded addition of an attribute is a site the planner does not see:
    [reprOf] gives an attribute no representation. *)
Definition attrSum : Expr :=
  let p := mkRepr "P" NotScalar None (Some (mkShape Repr "P" [mkShapeField Repr "x" intRepr])) in
  Bin OpAdd (Attr (Var "p" p) "x") (Int 1).

Example attr_guard_missed :
  exprGuarded attrSum = false /\
  exists p b', lowerExpr attrSum guardBuilder = inl (p, b') /\ deoptUsed b' = true.
Proof. split; [reflexivity|]. eexists _, _. split; vm_compute; reflexivity. Qed.
