(* ===== verification/EmitCheck.v ===== *)
(** * EmitCheck: a checker for the typing of the emit model

    An executable version of the judgements of [EmitTyping], sound for them:
    whether a lowered function is one the correctness theorems speak about can
    be computed. *)

From S2P Require Import Prelude Int64 StaticOps GoSem Emit IrCost PySem EmitTyping EmitExpr EmitOps.
Local Open Scope Z_scope.
Local Open Scope emit_scope.

(** ** Equality of representations *)

Fixpoint reprEqb (a b : Repr) {struct a} : bool :=
  match a, b with
  | mkRepr g s e sh, mkRepr g' s' e' sh' =>
      String.eqb g g' && bool_decide (s = s') &&
      match e, e' with
      | Some x, Some y => reprEqb x y
      | None, None => true
      | _, _ => false
      end &&
      match sh, sh' with
      | Some (mkShape _ n fs), Some (mkShape _ n' fs') =>
          String.eqb n n' &&
          (fix go (l l' : list (ShapeField Repr)) : bool :=
            match l, l' with
            | [], [] => true
            | mkShapeField _ x r :: l, mkShapeField _ x' r' :: l' => String.eqb x x' && reprEqb r r' && go l l'
            | _, _ => false
            end) fs fs'
      | None, None => true
      | _, _ => false
      end
  end.

Lemma reprEqb_eq : forall a b, reprEqb a b = true -> a = b.
Proof.
  fix IH 1. intros [g s e sh] [g' s' e' sh']. cbn [reprEqb]. rewrite !andb_true_iff.
  intros [[[Hg Hs] He] Hsh].
  apply String.eqb_eq in Hg as ->. apply bool_decide_eq_true in Hs as ->.
  assert (e = e') as ->. { destruct e as [x|], e' as [y|]; try done. by rewrite (IH x y He). }
  f_equal. destruct sh as [[n fs]|], sh' as [[n' fs']|]; try done.
  apply andb_true_iff in Hsh as [Hn Hf]. apply String.eqb_eq in Hn as ->. do 2 f_equal.
  revert fs' Hf. induction fs as [|[x r] fs IHf]; intros [|[x' r'] fs'] Hf; try done.
  rewrite !andb_true_iff in Hf. destruct Hf as [[Hx Hr] Hf]. apply String.eqb_eq in Hx as ->.
  by rewrite (IH r r' Hr), (IHf fs' Hf).
Qed.

Lemma reprEqb_refl : forall a, reprEqb a a = true.
Proof.
  fix IH 1. intros [g s e sh]. cbn [reprEqb]. rewrite String.eqb_refl, bool_decide_true by done.
  assert ((match e with Some x => reprEqb x x | None => true end) = true) as He by (destruct e; [apply IH|done]).
  destruct e as [e|]; [rewrite He|]; cbn [andb]; (destruct sh as [[n fs]|]; [|done]); rewrite String.eqb_refl; cbn [andb];
    (induction fs as [|[x r] fs IHf]; [done|]); by rewrite String.eqb_refl, IH, IHf.
Qed.

#[export] Instance Repr_eq_dec : EqDecision Repr.
Proof.
  intros a b. destruct (reprEqb a b) eqn:E; [left; by apply reprEqb_eq|right].
  intros ->. by rewrite reprEqb_refl in E.
Defined.

(** [sameRep], computed. *)
Definition core (r : Repr) : Repr := mkRepr "" (RScalar r) (Elem r) (RShape r).
Definition sameRepb (a b : Repr) : bool := reprEqb (core a) (core b).

Lemma sameRepb_same a b : sameRepb a b = true -> sameRep a b.
Proof. intros H%reprEqb_eq. unfold core in H. by injection H. Qed.

(** ** Expressions *)

Definition floatOK (f : spec_float) : bool :=
  match f with S754_zero false | S754_finite _ _ _ => true | _ => false end.

Lemma floatOK_lit f : floatOK f = true -> litFloat f = Some (VFloat f).
Proof. by destruct f as [[]| | |]. Qed.

Definition need {A} (c : bool) (o : option A) : option A := if c then o else None.

Lemma need_inv {A} c (o : option A) y : need c o = Some y -> c = true /\ o = Some y.
Proof. by destruct c. Qed.

(** Take a successful check apart. *)
Ltac taken :=
  repeat match goal with
  | H : need _ _ = Some _ |- _ => let E := fresh "C" in apply need_inv in H as [E H]
  | H : (_ ≫= _) = Some _ |- _ =>
      let x := fresh "t" in let E := fresh "E" in apply bind_Some in H as (x & E & H)
  | H : _ && _ = true |- _ => let E := fresh "C" in apply andb_true_iff in H as [H E]
  | H : negb _ = true |- _ => apply negb_true_iff in H
  | H : bool_decide _ = true |- _ => apply bool_decide_eq_true in H
  | H : Some _ = Some _ |- _ => injection H as H
  end.

Section Check.
Context (sigs : string -> option (list Repr * Repr)) (h : string).

(** [e] in argument position of a walk. *)
Fixpoint typeOf (G : gmap string Repr) (e : Expr) {struct e} : option Repr :=
  let typesOf := fix typesOf (l : list Expr) : option (list Repr) :=
    match l with [] => Some [] | e :: l => r ← typeOf G e; rs ← typesOf l; Some (r :: rs) end in
  match e with
  | Var x r => q ← G !! x; need (reprEqb q r) (Some r)
  | Int z => need (in64 z) (Some intRepr)
  | Float f => need (floatOK f) (Some floatRepr)
  | Bool _ => Some boolRepr
  | Str _ => Some strRepr
  | Bin op l r =>
      lr ← typeOf G l; rr ← typeOf G r; res ← binResult op lr rr;
      need (negb (isScalar SFloat res && constant l && constant r) && negb (boolBits op lr rr)) (Some res)
  | Cmp op l r => lr ← typeOf G l; rr ← typeOf G r; need (cmpOperands op lr rr) (Some boolRepr)
  | And l r | Or l r =>
      lr ← typeOf G l; rr ← typeOf G r;
      need (sameScalar lr rr && connScalar (RScalar lr) && noRaise r) (Some (connRepr lr))
  | Not x => xr ← typeOf G x; need (isScalar SBool xr) (Some boolRepr)
  | Index b i =>
      br ← typeOf G b; ir ← typeOf G i; elem ← Elem br;
      need (isScalar NotScalar br && negb (isScalar NotScalar elem) && isScalar SInt ir) (Some elem)
  | Attr b n =>
      br ← typeOf G b; s ← RShape br; fr ← Field s n;
      need (isScalar NotScalar br && negb (isScalar NotScalar fr) &&
        match Elem br with None => true | _ => false end) (Some fr)
  | ListLit elem items =>
      rs ← typesOf items;
      need (forallb (fun r => sameScalar r elem) rs && negb (isScalar NotScalar elem)) (Some (listRepr elem))
  | Call f args r =>
      s ← sigs f; rs ← typesOf args;
      need (userName f && reprEqb s.2 r && Nat.eqb (length rs) (length s.1) &&
        forallb (fun p => sameRepb p.1 p.2) (combine rs s.1)) (Some r)
  | GenNew _ _ | Recv _ _ => None
  end.

Fixpoint typesOf (G : gmap string Repr) (l : list Expr) : option (list Repr) :=
  match l with [] => Some [] | e :: l => r ← typeOf G e; rs ← typesOf G l; Some (r :: rs) end.

Lemma typesOf_walk G l :
  (fix go (l : list Expr) : option (list Repr) :=
    match l with [] => Some [] | e :: l => r ← typeOf G e; rs ← go l; Some (r :: rs) end) l = typesOf G l.
Proof. induction l as [|e l IH]; [done|]. simpl. destruct (typeOf G e); [|done]. simpl. by rewrite IH. Qed.

Lemma combine_Forall2 {A B} (P : A * B -> bool) l l' :
  length l = length l' -> forallb P (combine l l') = true -> Forall2 (fun a b => P (a, b) = true) l l'.
Proof.
  revert l'. induction l as [|a l IH]; intros [|b l'] Hl Hf; simplify_eq/=; constructor;
    apply andb_true_iff in Hf as [? ?]; auto.
Qed.

Lemma forallb_Forall {A} (f : A -> bool) l : forallb f l = true -> Forall (fun x => f x = true) l.
Proof. rewrite forallb_forall, Forall_forall. intros H x Hx. by apply H, list_elem_of_In. Qed.

Lemma typeOf_sound G : forall e r, typeOf G e = Some r -> ety sigs G e r.
Proof.
  fix IH 1. intros e r E.
  destruct e as [x q|z|f|b|t|op l q|b i|elem items|b n| |f args q|op l q|l q|l q|x| ]; cbn [typeOf] in E; taken; try done.
  - apply reprEqb_eq in C. subst. by constructor.
  - subst. by constructor.
  - subst. constructor. by apply floatOK_lit.
  - subst. constructor.
  - subst. constructor.
  - subst. econstructor; [by apply IH|by apply IH|done..].
  - subst. econstructor; [by apply IH|by apply IH|done..].
  - rewrite typesOf_walk in E0. subst. eapply TList; [|by apply forallb_Forall|done]. clear C C0.
    revert t E0. induction items as [|a items IHl]; intros rs E; simpl in E; taken; subst; [constructor|].
    constructor; [by apply IH|by apply IHl].
  - subst. eapply TAttr; [by apply IH|done| |done..]. by destruct (Elem t).
  - rewrite typesOf_walk in E1. destruct t as [ps rp]. cbn [fst snd] in *. apply Nat.eqb_eq in C1.
    apply reprEqb_eq in C2. subst. eapply (TCall _ _ f args t0 ps); [done|done| |].
    + clear -IH E1. revert t0 E1. induction args as [|a items IHl]; intros rs E; simpl in E; taken; subst; [constructor|].
      constructor; [by apply IH|by apply IHl].
    + eapply Forall2_impl; [by apply (combine_Forall2 (fun p => sameRepb p.1 p.2))|]. intros. by apply sameRepb_same.
  - subst. econstructor; [by apply IH|by apply IH|done..].
  - subst. econstructor; [by apply IH|by apply IH|done..].
  - subst. econstructor; [by apply IH|by apply IH|done..].
  - subst. econstructor; [by apply IH|done..].
Qed.

Lemma typesOf_sound G l rs : typesOf G l = Some rs -> etys sigs G l rs.
Proof.
  revert rs. induction l as [|e l IH]; intros rs E; simpl in E; taken; subst; [constructor|].
  constructor; [by apply typeOf_sound|by apply IH].
Qed.

(** ** Conditions that hoist nothing *)

Fixpoint hoistFree (e : Expr) : bool :=
  match e with
  | Var _ _ | Int _ | Float _ | Bool _ | Str _ => true
  | Cmp _ l r | And l r | Or l r => hoistFree l && hoistFree r
  | Not x => hoistFree x
  | _ => false
  end.

Lemma lowerCmpOps_eq op lx lr rx rr b :
  cmpOperands op lr rr = true -> exists gx, lowerCmpOps op lx lr rx rr b = inl ((gx, boolRepr), b).
Proof.
  unfold cmpOperands, lowerCmpOps. destruct (arith lr && arith rr); [destruct (anyFloat lr rr); by eexists|].
  simpl. intros ->. by eexists.
Qed.

Lemma hoistFree_lower G e r b :
  hoistFree e = true -> ety sigs G e r -> exists gx, lowerExpr e b = inl ((gx, r), b).
Proof.
  intros Hf He. revert r Hf He. induction e; intros r' Hf He; try done; simpl in Hf;
    inversion He; subst; try by eexists.
  - taken. edestruct IHe1 as [gx E1]; [done..|]. edestruct IHe2 as [gy E2]; [done..|].
    cbn [lowerExpr]. unfold ebind. rewrite E1, E2. by apply lowerCmpOps_eq.
  - taken. edestruct IHe1 as [gx E1]; [done..|]. edestruct IHe2 as [gy E2]; [done..|].
    cbn [lowerExpr]. unfold ebind. rewrite E1, E2.
    edestruct (lowerBoolOps_spec sigs h LAND) as (gz & E3 & _); [by left|done..|]. rewrite E3. by eexists.
  - taken. edestruct IHe1 as [gx E1]; [done..|]. edestruct IHe2 as [gy E2]; [done..|].
    cbn [lowerExpr]. unfold ebind. rewrite E1, E2.
    edestruct (lowerBoolOps_spec sigs h LOR) as (gz & E3 & _); [by right|done..|]. rewrite E3. by eexists.
  - edestruct IHe as [gx E1]; [done..|]. cbn [lowerExpr]. unfold ebind. rewrite E1. unfold lowerNotOp.
    match goal with H : isScalar SBool _ = true |- _ => rewrite H end. by eexists.
Qed.

Lemma hoistFree_nothing G e r : hoistFree e = true -> ety sigs G e r -> hoistsNothing e.
Proof. intros Hf He b. destruct (hoistFree_lower G e r b Hf He) as [gx E]. by exists (gx, r). Qed.

(** ** Statements *)

Definition localOK (x : string) : bool :=
  userName x && match sigs x with None => true | Some _ => false end && negb (String.eqb x h).

Lemma localOK_name x : localOK x = true -> localName sigs h x.
Proof.
  unfold localOK. intros H. taken. split_and!; [done|by destruct (sigs x)|by apply String.eqb_neq].
Qed.

Definition unbound {A} (D : gmap string A) (x : string) : bool := bool_decide (D !! x = None).

(** The declared representations of the names. *)
Definition lookups (D : gmap string Repr) (xs : list string) : option (list Repr) := mapM (fun x => D !! x) xs.

Definition boundOK (G : gmap string Repr) (x : string) (body : list Stmt) (e : Expr) : bool :=
  match e with
  | Int z => in64 z
  | Var y r =>
      match G !! y with
      | Some q => reprEqb q r && isScalar SInt r && negb (String.eqb y x) && bool_decide (y ∉ blockWrites body)
      | None => false
      end
  | _ => false
  end.

Lemma boundOK_stable G x body e : boundOK G x body e = true -> stableBound G x body e.
Proof.
  destruct e; try done; simpl; [|by constructor]. destruct (G !! Name) as [q|] eqn:E; [|done]. intros H. taken.
  apply reprEqb_eq in H. subst. constructor; [done|done|by apply String.eqb_neq|done].
Qed.

(** What both arms of an [if] leave assigned. *)
Definition merged (D G1 G2 : gmap string Repr) : gmap string Repr :=
  filter (fun p => G2 !! p.1 = Some p.2 /\ is_Some (D !! p.1)) G1.

Definition within (G G' : gmap string Repr) : bool :=
  forallb (fun p => bool_decide (G' !! p.1 = Some p.2)) (map_to_list G).

Lemma within_sub G G' : within G G' = true -> G ⊆ G'.
Proof.
  unfold within. intros H%forallb_Forall. rewrite Forall_forall in H. apply map_subseteq_spec. intros x r Hx.
  specialize (H (x, r)). rewrite elem_of_map_to_list in H. specialize (H Hx). by apply bool_decide_eq_true in H.
Qed.

Fixpoint checkStmt (rt : Repr) (k : ctx) (s : Stmt) {struct s} : option ctx :=
  let checkBlock := fix checkBlock (k : ctx) (l : list Stmt) : option ctx :=
    match l with [] => Some k | s :: l => k ← checkStmt rt k s; checkBlock k l end in
  let (G, D) := k in
  match s with
  | Define x v =>
      r ← typeOf G v; need (localOK x && unbound D x) (Some (mkCtx (<[x := r]> G) (<[x := r]> D)))
  | Assign x v => q ← typeOf G v; r ← D !! x; need (sameRepb q r) (Some (mkCtx (<[x := r]> G) D))
  | VarDecl x r => need (localOK x && unbound D x) (Some (mkCtx G (<[x := r]> D)))
  | Bind xs vs true =>
      rs ← typesOf G vs;
      need (Nat.eqb (length xs) (length vs) && negb (Nat.eqb (length xs) 0) && bool_decide (NoDup xs) &&
        forallb (fun x => localOK x && unbound D x) xs) (Some (mkCtx (insertAll xs rs G) (insertAll xs rs D)))
  | Bind xs vs false =>
      qs ← typesOf G vs; rs ← lookups D xs;
      need (Nat.eqb (length qs) (length rs) && bool_decide (NoDup xs) &&
        forallb (fun p => sameRepb p.1 p.2) (combine qs rs)) (Some (mkCtx (insertAll xs rs G) D))
  | AugAssign x op r v =>
      g ← G !! x; d ← D !! x; q ← typeOf G (Bin op (Var x r) v);
      need (foldOp op && reprEqb g r && reprEqb d r && sameRepb q r) (Some k)
  | Discard v => _ ← typeOf G v; Some k
  | Return v => r ← typeOf G v; need (sameRepb r rt) (Some k)
  | While c body =>
      cr ← typeOf G c; _ ← checkBlock k body; need (truthy cr && hoistFree c) (Some k)
  | ForCount x start stop _ body None =>
      sr ← typeOf G start; _ ← checkBlock (mkCtx (<[x := intRepr]> G) (<[x := intRepr]> D)) body;
      need (isScalar SInt sr && boundOK G x body stop && localOK x && unbound D x &&
        bool_decide (x ∉ blockWrites body)) (Some k)
  | Break | Continue => Some k
  | If c thn els =>
      cr ← typeOf G c; k1 ← checkBlock k thn; k2 ← checkBlock k els;
      let G' := merged D (assigned k1) (assigned k2) in
      need (truthy cr && within G G') (Some (mkCtx G' D))
  | _ => None
  end.

Fixpoint checkBlock (rt : Repr) (k : ctx) (l : list Stmt) : option ctx :=
  match l with [] => Some k | s :: l => k ← checkStmt rt k s; checkBlock rt k l end.

Lemma checkBlock_walk rt k l :
  (fix go (k : ctx) (l : list Stmt) : option ctx :=
    match l with [] => Some k | s :: l => k ← checkStmt rt k s; go k l end) k l = checkBlock rt k l.
Proof. revert k. induction l as [|s l IH]; intros k; [done|]. simpl. by destruct (checkStmt rt k s); simpl. Qed.

Lemma lookups_Forall2 D xs rs : lookups D xs = Some rs -> Forall2 (fun x r => D !! x = Some r) xs rs.
Proof. apply mapM_Some_1. Qed.

Lemma sameRepb_all qs rs :
  length qs = length rs -> forallb (fun p => sameRepb p.1 p.2) (combine qs rs) = true -> Forall2 sameRep qs rs.
Proof.
  intros Hl Hf. eapply Forall2_impl; [by apply (combine_Forall2 (fun p => sameRepb p.1 p.2))|].
  intros. by apply sameRepb_same.
Qed.

Lemma locals_OK (D : gmap string Repr) xs :
  forallb (fun x => localOK x && unbound D x) xs = true -> Forall (fun x => localName sigs h x /\ D !! x = None) xs.
Proof.
  intros H%forallb_Forall. eapply Forall_impl; [exact H|]. simpl. intros x Hx. unfold unbound in Hx. taken.
  split; [by apply localOK_name|done].
Qed.

(** The statements of a block, given the soundness of each. *)
Ltac blocks rec rt l :=
  let k := fresh "k" in let k' := fresh "k'" in let E := fresh "E" in let IHl := fresh "IHl" in
  assert (forall k k', checkBlock rt k l = Some k' -> stys sigs h rt k l k')
    by (clear -rec; induction l as [|? ? IHl]; intros k k' E; simpl in E; taken; subst;
        [constructor|econstructor; [by apply rec|by apply IHl]]).

Lemma checkStmt_sound rt : forall s k k', checkStmt rt k s = Some k' -> sty sigs h rt k s k'.
Proof.
  fix IH 1. intros s [G D] k' E.
  destruct s as [x v|x op r v|x v|x r|xs vs []|v| | |x start stop down body []|c body| | |c thn els|v];
    cbn [checkStmt] in E; unfold unbound in *; try rewrite !checkBlock_walk in E; taken; try done; subst.
  - constructor; [by apply typeOf_sound|by apply localOK_name|done].
  - apply reprEqb_eq in C1, C2. subst. econstructor; [done|done|done|by apply typeOf_sound|by apply sameRepb_same].
  - econstructor; [by apply typeOf_sound|done|by apply sameRepb_same].
  - constructor; [by apply localOK_name|done].
  - apply Nat.eqb_eq in C. constructor; [by apply typesOf_sound|done| |done|by apply locals_OK].
    intros ->. done.
  - apply Nat.eqb_eq in C. econstructor; [by apply typesOf_sound|by apply lookups_Forall2|by apply sameRepb_all|done].
  - econstructor; [by apply typeOf_sound|by apply sameRepb_same].
  - blocks IH rt body. econstructor; [by apply typeOf_sound|done|by apply boundOK_stable|by apply localOK_name|done|done|eauto].
  - blocks IH rt body. apply typeOf_sound in E0. econstructor; [done|done|by eapply hoistFree_nothing|eauto].
  - constructor.
  - constructor.
  - blocks IH rt thn. blocks IH rt els. destruct t0 as [G1 D1], t1 as [G2 D2]. cbn [assigned] in *.
    eapply SIf; [by apply typeOf_sound|done|eauto|eauto|by apply within_sub|].
    intros y q Hy. apply map_lookup_filter_Some in Hy as (? & ? & ?). done.
  - econstructor. by apply typeOf_sound.
Qed.

Lemma checkBlock_sound rt l k k' : checkBlock rt k l = Some k' -> stys sigs h rt k l k'.
Proof.
  revert k. induction l as [|s l IH]; intros k E; simpl in E; taken; subst; [constructor|].
  econstructor; [by apply checkStmt_sound|by apply IH].
Qed.
End Check.
