(* ===== verification/EmitStmt.v ===== *)
(** * EmitStmt: lowered statements follow Python

    A simulation between the Go statements the code generator emits and the
    Python statements they come from, by induction on the typing of
    [EmitTyping].  Both sides run on the same fuel, so a loop that Python
    finishes is a loop the emitted code finishes. *)

From S2P Require Import Prelude Int64 StaticOps GoSem Emit IrCost PySem EmitTyping EmitEnv EmitExpr EmitOps EmitSound.
Local Open Scope Z_scope.
Local Open Scope emit_scope.

Section Statements.
Context (callee : string -> list value -> value + pyexc).
Context (sigs : string -> option (list Repr * Repr)) (h : string) (args : list value) (rt : Repr).
Context `{!Program callee sigs h}.

Local Notation execs := (execs callee).
Local Notation exec := (exec callee).
Local Notation outside := (outside sigs h).
Local Notation outside_free := (outside_free sigs h).
Local Notation stable := (stable sigs h).
Local Notation bok := (bok h args).
Local Notation snap := (snap args).
Local Notation runs := (runs callee sigs h args).
Local Notation pyEval := (pyEval callee).
Local Notation pyEvals := (pyEvals callee).
Local Notation pyExec := (pyExec callee).
Local Notation pyExecs := (pyExecs callee).
Local Notation localName := (localName sigs h).
Local Notation ready := (ready sigs h args).

(** ** The relation between the two states *)

(** The assigned locals are declared, and locals have ordinary names. *)
Definition wfctx (k : ctx) : Prop :=
  assigned k ⊆ declared k /\ forall x, is_Some (declared k !! x) -> localName x.

(** Of the names a local may have, Go has declared exactly those of [D]. *)
Definition shape (D : gmap string Repr) (r : genv) : Prop :=
  forall x, localName x -> (glookup x r = None <-> D !! x = None).

(** [U]: the function as a whole uses its deopt handler. *)
Record here (k : ctx) (sg : gmap string value) (b : Builder) (U : bool) (r : genv) : Prop := {
  hr_wf : wfctx k;
  hr_ne : r <> [];
  hr_out : outside_free r;
  hr_shape : shape (declared k) r;
  hr_fresh : freshB b r;
  hr_snap : U = true -> snap r;
  hr_agree : agree (assigned k) sg r
}.

Lemma here_ready k sg b b' U r :
  here k sg b U r -> (deoptUsed b' = true -> U = true) -> ready (assigned k) sg b b' r.
Proof. intros [] Hu. split; auto. Qed.

Lemma local_not_generated x : localName x -> generated x = false.
Proof. intros [Hu _]. by apply user_not_generated. Qed.

Lemma local_not_blank x : localName x -> x <> "_".
Proof. intros [Hu _] ->. by apply user_not_fixed in Hu. Qed.

Lemma local_not_outside x : localName x -> outside x -> False.
Proof.
  intros (Hu & Hs & Hh) [Hf|[_ [Hs'|Hh']]]; [|done|done].
  apply user_not_fixed in Hu. congruence.
Qed.

Lemma local_ne_generated x y : localName x -> generated y = true -> y <> x.
Proof. intros Hx%local_not_generated Hy. congruence. Qed.

(** After the statements an expression hoists. *)
Lemma here_extends k sg b b1 U r r' :
  here k sg b U r -> extends r r' -> freshB b1 r' -> here k sg b1 U r'.
Proof.
  intros [Hw Hne Ho Hsh Hf Hs Ha] He Hf'. split; try done.
  - by eapply extends_ne.
  - by eapply extends_outside.
  - intros x Hx. rewrite <- (Hsh x Hx). split.
    + intros Hn. destruct (glookup x r) eqn:E; [|done]. apply (extends_incl _ _ He) in E. congruence.
    + eapply extends_none; [done|]. by apply local_not_generated.
  - intros HU. eapply snap_incl; [by apply extends_incl|auto].
  - eapply agree_incl; [by apply extends_incl|done].
Qed.

(** ** What only depends on the domains *)

Lemma freshB_doms b r r' : same_doms r r' -> freshB b r -> freshB b r'.
Proof. intros Hd [A B C]. split; intros i Hi; apply (same_doms_lookup _ _ _ Hd); auto. Qed.

Lemma outside_doms r r' : same_doms r r' -> outside_free r -> outside_free r'.
Proof. intros Hd Ho x Hx. apply (same_doms_lookup _ _ _ Hd). auto. Qed.

Lemma shape_doms D r r' : same_doms r r' -> shape D r -> shape D r'.
Proof. intros Hd Hs x Hx. rewrite <- (same_doms_lookup _ _ _ Hd). auto. Qed.

Lemma same_doms_ne r r' : same_doms r r' -> r <> [] -> r' <> [].
Proof. by destruct 1. Qed.

(** Another environment with the same domains, given the values it must keep. *)
Lemma here_doms k k' sg sg' b b' U r r' P :
  here k sg b U r -> bnext b b' P -> declared k' = declared k -> wfctx k' -> same_doms r r' ->
  (U = true -> snap r') -> agree (assigned k') sg' r' -> here k' sg' b' U r'.
Proof.
  intros [Hw Hne Ho Hsh Hf Hs Ha] N Hd Hw' Hdom Hs' Ha'. split; try done.
  - by eapply same_doms_ne.
  - by eapply outside_doms.
  - rewrite Hd. by eapply shape_doms.
  - eapply freshB_later; [done|]. by eapply freshB_doms.
Qed.

(** Entering a block. *)
Lemma here_push k sg b U r : here k sg b U r -> here k sg b U (∅ :: r).
Proof.
  intros [Hw Hne Ho Hsh [Ft Ff Fe] Hs Ha]. split; try done.
Qed.

Lemma here_later k sg b b' U r P : here k sg b U r -> bnext b b' P -> here k sg b' U r.
Proof. intros [] N. split; try done. by eapply freshB_later. Qed.

(** ** Assignment *)

Lemma agree_set G sg r r' x rp v :
  agree G sg r -> hasRepr rp v = true ->
  (forall y, glookup y r' = if String.eqb y x then Some v else glookup y r) ->
  agree (<[x := rp]> G) (<[x := v]> sg) r'.
Proof.
  intros Ha Hv Hl y q Hy. rewrite Hl. destruct (String.eqb_spec y x) as [->|Hn].
  - rewrite lookup_insert_eq in Hy. simplify_eq. exists v. by rewrite lookup_insert_eq.
  - rewrite lookup_insert_ne in Hy by done. destruct (Ha y q Hy) as (w & ? & ? & ?). exists w.
    by rewrite lookup_insert_ne.
Qed.

Lemma snap_set r r' x v :
  localName x -> (forall y, glookup y r' = if String.eqb y x then Some v else glookup y r) ->
  snap r -> snap r'.
Proof.
  intros Hx Hl Hs i w Hi. rewrite Hl. destruct (String.eqb_spec (deoptParam i) x) as [E|_]; [|auto].
  exfalso. eapply local_ne_generated; [exact Hx|by apply (generated_names i)|done].
Qed.

Lemma wf_assign G D x rp : wfctx (mkCtx G D) -> D !! x = Some rp -> wfctx (mkCtx (<[x := rp]> G) D).
Proof. intros [Hs Hl] Hx. split; [|done]. simpl in *. by apply insert_subseteq_l. Qed.

Lemma here_set G D sg b U r x rp v :
  here (mkCtx G D) sg b U r -> D !! x = Some rp -> hasRepr rp v = true ->
  exists r', gassign x v r = Some r' /\ same_doms r r' /\
    here (mkCtx (<[x := rp]> G) D) (<[x := v]> sg) b U r'.
Proof.
  intros Hh Hx Hv. assert (localName x) as Hn by (apply Hh; by exists rp).
  destruct (gassign_spec x v r) as (r' & E & Hd & Hl).
  { by apply local_not_blank. }
  { rewrite (hr_shape _ _ _ _ _ Hh x Hn). simpl. congruence. }
  exists r'. split_and!; [done|done|]. eapply here_doms; [done|apply bnext_refl|done| |done|..].
  - eapply wf_assign; [apply Hh|done].
  - intros HU. eapply snap_set; [done|done|by apply Hh].
  - apply (agree_set _ _ r); [apply Hh|done|done].
Qed.

(** A new declaration, not yet assigned on the Python side. *)
Lemma here_decl G D sg b U f t x rp v :
  here (mkCtx G D) sg b U (f :: t) -> localName x -> D !! x = None ->
  here (mkCtx G (<[x := rp]> D)) sg b U (<[x := v]> f :: t) /\ grows (f :: t) (<[x := v]> f :: t).
Proof.
  intros Hh Hn Hx. destruct Hh as [[Hsub Hloc] _ Ho Hsh [Ft Ff Fe] Hs Ha]. simpl in *.
  assert (glookup x (f :: t) = None) as Hfree by by apply Hsh.
  pose proof (glookup_insert x v f t) as Hl.
  assert (forall y, generated y = true -> glookup y (<[x := v]> f :: t) = glookup y (f :: t)) as Hg.
  { intros y Hy. rewrite Hl. destruct (String.eqb_spec y x) as [->|]; [|done].
    apply local_not_generated in Hn. congruence. }
  split; [split; try done|by apply grows_insert].
  - split; simpl.
    { apply insert_subseteq_r; [|done]. destruct (G !! x) eqn:E; [|done].
      eapply lookup_weaken in E; [|done]. congruence. }
    intros y [q Hy]. destruct (decide (x = y)) as [<-|Hne]; [done|].
    rewrite lookup_insert_ne in Hy by done. eauto.
  - intros y Hy. rewrite Hl. destruct (String.eqb_spec y x) as [->|]; [|by apply Ho].
    exfalso. by eapply local_not_outside.
  - intros y Hy. rewrite Hl. simpl. destruct (String.eqb_spec y x) as [->|Hne].
    + rewrite lookup_insert_eq. done.
    + rewrite lookup_insert_ne by done. by apply Hsh.
  - split; intros i Hi; rewrite Hg by apply (generated_names i);
      first [by apply Ft|by apply Ff|by apply Fe].
  - intros HU i w Hi. rewrite Hg by apply (generated_names i). by apply Hs.
  - intros y q Hy. destruct (Ha y q Hy) as (w & ? & Hw & ?). exists w. split_and!; [done| |done].
    rewrite Hl. destruct (String.eqb_spec y x) as [->|]; [congruence|done].
Qed.

Lemma here_def G D sg b U f t x rp v :
  here (mkCtx G D) sg b U (f :: t) -> localName x -> D !! x = None -> hasRepr rp v = true ->
  here (mkCtx (<[x := rp]> G) (<[x := rp]> D)) (<[x := v]> sg) b U (<[x := v]> f :: t) /\
  grows (f :: t) (<[x := v]> f :: t).
Proof.
  intros Hh Hn Hx Hv. destruct (here_decl _ _ _ _ _ _ _ x rp v Hh Hn Hx) as [Hh' Hg]. split; [|done].
  destruct Hh'. split; try done.
  - eapply wf_assign; [done|]. apply lookup_insert_eq.
  - simpl. apply (agree_set _ _ (f :: t)); [apply Hh|done|]. apply glookup_insert.
Qed.

(** ** Outcomes *)

(** The emitted code's outcome from [r] against Python's: a deopt with the
    entry arguments, or the same ending in related states; [k'] is the context after a normal end and [G] the locals
    that stay known at a jump. *)
Inductive sim (G : gmap string Repr) (k' : ctx) (b : Builder) (U : bool) (r : genv) (d : bool) :
    option gres -> option pres -> Prop :=
  | SimTail p : d = true -> sim G k' b U r d (Some (GTail h args)) p
  | SimFuel : sim G k' b U r d None None
  | SimNorm r' sg' : grows r r' -> here k' sg' b U r' ->
      sim G k' b U r d (Some (GNorm r')) (Some (PNorm sg'))
  | SimBrk r' sg' : grows r r' -> agree G sg' r' -> (U = true -> snap r') ->
      sim G k' b U r d (Some (GBrk r')) (Some (PBrk sg'))
  | SimCnt r' sg' : grows r r' -> agree G sg' r' -> (U = true -> snap r') ->
      sim G k' b U r d (Some (GCnt r')) (Some (PCnt sg'))
  | SimRet v : hasRepr rt v = true -> sim G k' b U r d (Some (GRet [v; VNil])) (Some (PDone v))
  | SimExc z x : sim G k' b U r d (Some (GRet [z; VErr x])) (Some (PExc x)).

Lemma agree_sub G G' sg r : G ⊆ G' -> agree G' sg r -> agree G sg r.
Proof. intros Hs Ha x q Hx. apply Ha. by eapply lookup_weaken. Qed.

Lemma sim_start G G' k' b U r r1 (d d' : bool) g p :
  grows r r1 -> G ⊆ G' -> (d' = true -> d = true) -> sim G' k' b U r1 d' g p -> sim G k' b U r d g p.
Proof.
  intros Hg Hs Hd. destruct 1; econstructor; eauto using grows_trans, agree_sub.
Qed.

(** Go on after a normal end. *)
Definition gseq (g : option gres) (cont : genv -> option gres) : option gres :=
  match g with Some (GNorm r) => cont r | _ => g end.
Definition pseq (p : option pres) (cont : gmap string value -> option pres) : option pres :=
  match p with Some (PNorm sg) => cont sg | _ => p end.

Lemma execs_seq n s l r : execs n (s :: l) r = gseq (exec n s r) (execs n l).
Proof. simpl. by destruct (exec n s r) as [[]|]. Qed.

Lemma execs_app_seq n l1 l2 r : execs n (l1 ++ l2) r = gseq (execs n l1 r) (execs n l2).
Proof. rewrite execs_app. by destruct (execs n l1 r) as [[]|]. Qed.

Lemma pyExecs_seq n s l sg : pyExecs n (s :: l) sg = pseq (pyExec n s sg) (pyExecs n l).
Proof. simpl. by destruct (pyExec n s sg) as [[]|]. Qed.

Lemma sim_seq G k2 k3 b2 b3 U r d1 d g p cont pcont :
  sim G k2 b2 U r d1 g p -> G ⊆ assigned k2 -> (d1 = true -> d = true) ->
  (forall r' sg', p = Some (PNorm sg') -> here k2 sg' b2 U r' ->
    sim (assigned k2) k3 b3 U r' d (cont r') (pcont sg')) ->
  sim G k3 b3 U r d (gseq g cont) (pseq p pcont).
Proof.
  intros Hs HG Hd Hk. destruct Hs; try by econstructor; eauto.
  eapply sim_start; [done|done| |by apply Hk]. done.
Qed.

(** An expression, then what is done with its value. *)
Lemma sim_expr G k k' sg b b1 b' U r n P Q nr gx rp d1 d p K :
  here k sg b U r -> runs n P r b1 nr gx rp d1 p -> (d1 = true -> d = true) ->
  (forall r1 v, p = Some (PRet v) -> here k sg b1 U r1 -> stable r1 gx v -> hasRepr rp v = true ->
    sim G k' b' U r1 d (execs n Q r1) (K v)) ->
  sim G k' b' U r d (execs n (P ++ Q) r) (withVal p K).
Proof.
  intros Hh [Ht Hd|z x Hx _ Ha|r1 v Hx He Hf Hs Hv Ha] Hdd Hk.
  - rewrite execs_app, Ht. constructor. auto.
  - rewrite execs_app, Hx. unfold allows in Ha. rewrite Ha. constructor.
  - rewrite execs_app, Hx. unfold allows in Ha. rewrite Ha.
    eapply sim_start; [by apply extends_grows|done| |apply Hk; [done| |done..]]; [done|].
    by eapply here_extends.
Qed.

(** Leaving a block: only names of the outer block stay known. *)
Lemma pop_agree D G G1 sg r r' :
  shape D r -> (forall x, is_Some (D !! x) -> localName x) -> grows (∅ :: r) r' ->
  (forall x q, G !! x = Some q -> G1 !! x = Some q /\ is_Some (D !! x)) ->
  agree G1 sg r' -> agree G sg (tail r').
Proof.
  intros Hsh Hloc Hg HG Ha x q Hx. destruct (HG x q Hx) as [Hx1 Hd].
  destruct (Ha x q Hx1) as (v & ? & Hl & ?). exists v. split_and!; [done| |done].
  rewrite <- Hl. apply (grows_pop _ _ Hg). rewrite (Hsh x (Hloc x Hd)). destruct Hd. congruence.
Qed.

Lemma pop_snap r r' : grows (∅ :: r) r' -> snap r -> snap r' -> snap (tail r').
Proof.
  intros Hg Hs Hs' i v Hi. rewrite <- (Hs' i v Hi). apply (grows_pop _ _ Hg).
  rewrite (Hs i v Hi). done.
Qed.

Lemma pop_grows r r' : r <> [] -> grows (∅ :: r) r' -> grows r (tail r').
Proof. intros Hne Hg. destruct r; [done|]. apply grows_same_doms. by apply grows_pop. Qed.

Lemma sim_pop k k1 G' sg b b' U r d g p P :
  here k sg b U r -> bnext b b' P -> assigned k ⊆ G' ->
  (forall x q, G' !! x = Some q -> assigned k1 !! x = Some q /\ is_Some (declared k !! x)) ->
  wfctx (mkCtx G' (declared k)) ->
  sim (assigned k) k1 b' U (∅ :: r) d g p ->
  sim (assigned k) (mkCtx G' (declared k)) b' U r d (gpop <$> g) p.
Proof.
  intros Hh N HG HG' Hw Hs. pose proof Hh as [[Hsub Hloc] Hne Ho Hsh Hf Hsn Ha].
  assert (forall x q, assigned k !! x = Some q ->
    assigned k !! x = Some q /\ is_Some (declared k !! x)) as Hself.
  { intros x q Hx. split; [done|]. exists q. by eapply lookup_weaken. }
  destruct Hs as [p Hd| |r' sg' Hg Hh'|r' sg' Hg Ha' Hs'|r' sg' Hg Ha' Hs'|v Hv|z x]; simpl;
    try by constructor.
  - constructor; [by eapply pop_grows|].
    apply (here_doms k _ sg sg' b b' U r (tail r') P); [done|done|done|done|by apply grows_pop|..].
    + intros HU. eapply pop_snap; [done|auto|by apply Hh'].
    + eapply pop_agree; [done|done|done|exact HG'|apply Hh'].
  - constructor; [by eapply pop_grows|by eapply pop_agree|]. intros HU. eapply pop_snap; eauto.
  - constructor; [by eapply pop_grows|by eapply pop_agree|]. intros HU. eapply pop_snap; eauto.
Qed.
End Statements.
