(* ===== verification/EmitBlock.v ===== *)
(** * EmitBlock: every statement of the emit model

    The cases of the simulation of [EmitStmt], one lemma per statement, and
    their composition into blocks. *)

From S2P Require Import Prelude Int64 StaticOps GoSem Emit IrCost PySem EmitTyping EmitEnv EmitExpr EmitOps EmitSound EmitStmt.
Local Open Scope Z_scope.
Local Open Scope emit_scope.

Section Blocks.
Context (callee : string -> list value -> value + pyexc).
Context (sigs : string -> option (list Repr * Repr)) (h : string) (args : list value) (rt : Repr).
Context `{!Program callee sigs h}.

Local Notation execs := (execs callee).
Local Notation exec := (exec callee).
Local Notation outside := (outside sigs h).
Local Notation outside_free := (outside_free sigs h).
Local Notation stable := (stable sigs h).
Local Notation bok := (bok h args).
Local Notation snap := (snap args).
Local Notation runs := (runs callee sigs h args).
Local Notation pyEval := (pyEval callee).
Local Notation pyEvals := (pyEvals callee).
Local Notation pyExec := (pyExec callee).
Local Notation pyExecs := (pyExecs callee).
Local Notation localName := (localName sigs h).
Local Notation wfctx := (wfctx sigs h).
Local Notation here := (here sigs h args).
Local Notation sim := (sim sigs h args rt).
Local Notation sty := (sty sigs h rt).
Local Notation stys := (stys sigs h rt).

(** ** The typing keeps contexts well formed and only adds to them *)

Definition ctx_next (k k' : ctx) : Prop :=
  wfctx k -> wfctx k' /\ assigned k ⊆ assigned k' /\ declared k ⊆ declared k'.

Lemma ctx_next_refl k : ctx_next k k. Proof. done. Qed.

Lemma ctx_next_trans k1 k2 k3 : ctx_next k1 k2 -> ctx_next k2 k3 -> ctx_next k1 k3.
Proof.
  intros H1 H2 Hw. destruct (H1 Hw) as (Hw2 & ? & ?). destruct (H2 Hw2) as (? & ? & ?).
  split_and!; [done|by etrans|by etrans].
Qed.

Lemma wf_free G D x : wfctx (mkCtx G D) -> D !! x = None -> G !! x = None.
Proof.
  intros [Hs _] Hx. destruct (G !! x) eqn:E; [|done]. eapply lookup_weaken in E; [|done].
  simpl in E. congruence.
Qed.

Lemma next_decl G D x rp :
  localName x -> D !! x = None -> ctx_next (mkCtx G D) (mkCtx G (<[x := rp]> D)).
Proof.
  intros Hn Hx Hw. pose proof (wf_free _ _ _ Hw Hx) as Hg. destruct Hw as [Hs Hl]; simpl in *.
  split_and!; simpl; [|done|by apply insert_subseteq]. split; simpl; [by apply insert_subseteq_r|].
  intros y [q Hy]. destruct (decide (x = y)) as [<-|Hne]; [done|].
  rewrite lookup_insert_ne in Hy by done. eauto.
Qed.

Lemma next_assign G D x rp : D !! x = Some rp -> ctx_next (mkCtx G D) (mkCtx (<[x := rp]> G) D).
Proof.
  intros Hx Hw. split_and!; [by apply wf_assign| |done]. simpl.
  destruct (G !! x) as [q|] eqn:E; [|by apply insert_subseteq].
  pose proof (lookup_weaken _ _ _ _ E (proj1 Hw)) as E'. simpl in E'. simplify_eq.
  by rewrite insert_id.
Qed.

Lemma next_def G D x rp :
  localName x -> D !! x = None -> ctx_next (mkCtx G D) (mkCtx (<[x := rp]> G) (<[x := rp]> D)).
Proof.
  intros Hn Hx. eapply ctx_next_trans; [by apply next_decl|]. apply next_assign, lookup_insert_eq.
Qed.

Lemma next_defs G D xs rs :
  NoDup xs -> Forall (fun x => localName x /\ D !! x = None) xs ->
  ctx_next (mkCtx G D) (mkCtx (insertAll xs rs G) (insertAll xs rs D)).
Proof.
  revert G D rs. induction xs as [|x xs IH]; intros G D rs Hnd Hf; [done|].
  inversion Hnd as [|? ? Hx Hnd']; inversion Hf as [|? ? [Hn Hd] Hf']; subst.
  destruct rs as [|rp rs]; [done|]. simpl. eapply ctx_next_trans; [by apply next_def|].
  apply IH; [done|]. rewrite Forall_forall in *. intros y Hy. destruct (Hf' y Hy).
  split; [done|]. rewrite lookup_insert_ne; [done|]. by intros ->.
Qed.

Lemma next_sets G D xs rs :
  Forall2 (fun x r => D !! x = Some r) xs rs -> ctx_next (mkCtx G D) (mkCtx (insertAll xs rs G) D).
Proof.
  intros Hf. revert G. induction Hf as [|x rp xs rs Hx Hf IH]; intros G; [done|]. simpl.
  eapply ctx_next_trans; [by apply next_assign|apply IH].
Qed.

Lemma next_all :
  (forall k s k', sty k s k' -> ctx_next k k') /\ (forall k l k', stys k l k' -> ctx_next k k').
Proof.
  apply sty_stys_ind; try (intros; apply ctx_next_refl).
  - intros. by apply next_def.
  - intros. by apply next_assign.
  - intros. by apply next_decl.
  - intros. by apply next_defs.
  - intros. by apply next_sets.
  - intros G D c cr thn els G1 D1 G2 D2 G' _ _ _ H1 _ H2 Hs HG' Hw. destruct (H1 Hw) as ([Hs1 _] & _ & HD1).
    split_and!; [|done|done]. split; [|apply Hw]. simpl in *. apply map_subseteq_spec. intros x q Hx.
    destruct (HG' x q Hx) as (Hx1 & _ & [q' Hq']).
    pose proof (lookup_weaken _ _ _ _ Hx1 Hs1). pose proof (lookup_weaken _ _ _ _ Hq' HD1). congruence.
  - intros. by eapply ctx_next_trans.
Qed.

(** ** The judgement *)

Definition soundS (k : ctx) (s : Stmt) (k' : ctx) : Prop :=
  forall b, bok b -> pre b = [] -> exists ss b',
    lowerStmt s b = inl (ss, b') /\ bnext b b' [] /\
    forall n U sg r, (deoptUsed b' = true -> U = true) -> here k sg b U r ->
      sim (assigned k) k' b' U r (stmtFires callee n s sg) (execs n ss r) (pyExec n s sg).

Definition soundB (k : ctx) (l : list Stmt) (k' : ctx) : Prop :=
  forall b, bok b -> pre b = [] -> exists ss b',
    lowerBlock l b = inl (ss, b') /\ bnext b b' [] /\
    forall n U sg r, (deoptUsed b' = true -> U = true) -> here k sg b U r ->
      sim (assigned k) k' b' U r (blockFires callee n l sg) (execs n ss r) (pyExecs n l sg).

Definition cleared (b : Builder) : Builder :=
  mkBuilder (fn b) (params b) (bret b) (deopt b) (deoptUsed b) (nTmp b) (nFlag b) (nErr b) (nDeopt b)
    (genDeopt b) [] (resume b).

Lemma flushed_eq Q b : flushed Q b = inl (pre b ++ Q, cleared b).
Proof. done. Qed.

Lemma flush_eq b : flush b = inl (pre b, cleared b).
Proof. done. Qed.

Lemma cleared_next b b1 P : bnext b b1 P -> pre b = [] -> bnext b (cleared b1) [] /\ pre b1 = P.
Proof.
  intros [A1 A2 A3 A4 A5 A6 A7] Hp. split; [|by rewrite A1, Hp]. split; try done. by rewrite Hp.
Qed.

Lemma here_cleared k sg b U r : here k sg b U r -> here k sg (cleared b) U r.
Proof. intros [? ? ? ? [] ? ?]. by split. Qed.

Lemma bok_cleared b : bok b -> bok (cleared b).
Proof. intros []. by split. Qed.

Lemma expr_sound G e rp b : ety sigs G e rp -> bok b -> exists gx b' P,
    lowerExpr e b = inl ((gx, rp), b') /\ bnext b b' P /\ (isConst gx = true -> constant e = true) /\
    forall n sg r, ready sigs h args G sg b b' r -> runs n P r b' (noRaise e) gx rp (fires callee sg e) (pyEval sg e).
Proof. intros He. apply (proj1 (expr_sound_all callee sigs h args G) e rp He). Qed.

(** A statement that evaluates one expression and goes on with its value. *)
Lemma soundS_expr k k' s v rp (Q : gexpr -> Repr -> list gstmt) K :
  ety sigs (assigned k) v rp ->
  (forall b, lowerStmt s b = ('(gx, xr) <- lowerExpr v ;; flushed (Q gx xr)) b) ->
  (forall n sg, pyExec n s sg = withVal (pyEval sg v) (K sg)) ->
  (forall n sg, stmtFires callee n s sg = fires callee sg v) ->
  (forall gx n U sg b r d w, here k sg b U r -> stable r gx w -> hasRepr rp w = true ->
    sim (assigned k) k' b U r d (execs n (Q gx rp) r) (K sg w)) ->
  soundS k s k'.
Proof.
  intros Hv El Ep Ed Hk b Hb Hp. destruct (expr_sound _ _ _ b Hv Hb) as (gx & b1 & P & E & N & _ & R).
  destruct (cleared_next _ _ _ N Hp) as [N' HP]. exists (P ++ Q gx rp), (cleared b1).
  split_and!; [|done|].
  - rewrite El. unfold ebind. by rewrite E, flushed_eq, HP.
  - intros n U sg r HU Hh. rewrite Ep, Ed. eapply sim_expr; [done|apply R|done|].
    + eapply here_ready; [done|]. by apply HU.
    + intros r1 w _ Hh1 Hs Hw. apply Hk; [by apply here_cleared|done|done].
Qed.

(** ** Bindings *)

Lemma execs_one n s r : execs n [s] r = exec n s r.
Proof. rewrite execs_cons. by destruct (exec n s r) as [[]|]. Qed.

Lemma set_exec n x e v r :
  eval r e = Some v -> exec n (setStmt (ident x) e) r = GNorm <$> gassign x v r.
Proof.
  intros E. unfold setStmt, ident. cbn -[eval gassign]. rewrite E. simpl.
  by destruct (gassign x v r).
Qed.

Lemma sim_assign G D x rp v n e U sg b r d :
  here (mkCtx G D) sg b U r -> D !! x = Some rp -> stable r e v -> hasRepr rp v = true ->
  sim G (mkCtx (<[x := rp]> G) D) b U r d (execs n [setStmt (ident x) e] r) (Some (PNorm (<[x := v]> sg))).
Proof.
  intros Hh Hx Hs Hv. destruct (here_set _ _ _ _ _ _ _ _ _ _ _ v Hh Hx Hv) as (r' & E & Hd & Hh').
  rewrite execs_one, (set_exec n x e v) by (eapply stable_here; [apply Hh|done]). rewrite E. simpl.
  constructor; [|done]. pose proof (hr_ne _ _ _ _ _ _ _ _ Hh). destruct r; [done|].
  by apply grows_same_doms.
Qed.

Lemma soundS_define G D x v rp :
  ety sigs G v rp -> localName x -> D !! x = None ->
  soundS (mkCtx G D) (Define x v) (mkCtx (<[x := rp]> G) (<[x := rp]> D)).
Proof.
  intros Hv Hn Hx. eapply (soundS_expr _ _ _ v rp (fun gx xr => [define x (pinInt gx xr)])
    (fun sg w => Some (PNorm (<[x := w]> sg)))); [done..|].
  intros gx n U sg b r d w Hh Hs Hw. pose proof (hr_ne _ _ _ _ _ _ _ _ Hh). destruct r as [|f t]; [done|].
  destruct (here_def _ _ _ _ _ _ _ _ _ _ x rp w Hh Hn Hx Hw) as [Hh' Hg].
  rewrite execs_one, (define_exec _ n x _ w f t).
  - by constructor.
  - by eapply local_not_blank.
  - by apply (hr_shape _ _ _ _ _ _ _ _ Hh).
  - eapply stable_here; [apply Hh|]. by apply (pinBy_stable sigs h _ true).
Qed.

Lemma soundS_assign G D x v rp rp' :
  ety sigs G v rp' -> D !! x = Some rp -> sameRep rp' rp ->
  soundS (mkCtx G D) (Assign x v) (mkCtx (<[x := rp]> G) D).
Proof.
  intros Hv Hx He. eapply (soundS_expr _ _ _ v rp' (fun gx _ => [setStmt (ident x) gx])
    (fun sg w => Some (PNorm (<[x := w]> sg)))); [done..|].
  intros gx n U sg b r d w Hh Hs Hw. apply sim_assign; try done. by rewrite <- (hasRepr_same _ _ _ He).
Qed.

Lemma soundS_decl G D x rp :
  localName x -> D !! x = None -> soundS (mkCtx G D) (VarDecl x rp) (mkCtx G (<[x := rp]> D)).
Proof.
  intros Hn Hx b Hb Hp. exists [GDecl x (goType rp)], (cleared b). split_and!.
  - simpl. by rewrite flushed_eq, Hp.
  - apply (cleared_next b b []); [apply bnext_refl|done].
  - intros n U sg r HU Hh. pose proof (hr_ne _ _ _ _ _ _ _ _ Hh). destruct r as [|f t]; [done|].
    destruct (here_decl _ _ _ _ _ _ _ _ _ _ x rp (zeroOf (goType rp)) Hh Hn Hx) as [Hh' Hg].
    rewrite execs_one. cbn [GoSem.exec]. rewrite gdefine1.
    + constructor; [done|]. by apply here_cleared.
    + by eapply local_not_blank.
    + by apply (hr_shape _ _ _ _ _ _ _ _ Hh).
Qed.

(** ** Several names at once *)

Lemma lhsNames_idents xs : lhsNames (map ident xs) = Some xs.
Proof. induction xs as [|x xs IH]; simpl; [done|]. by rewrite IH. Qed.

Lemma assign_exec n xs tok es vs r :
  length xs = length es -> tok = DEFINE \/ tok = ASSIGN -> evals r es = Some vs ->
  exec n (GAssign (map ident xs) tok es) r = GNorm <$> bindTok tok xs vs r.
Proof.
  intros Hl Ht E. cbn [GoSem.exec]. unfold execAssign. rewrite lhsNames_idents. simpl.
  destruct xs as [|x [|y [|z xs]]], es as [|e1 [|e2 [|e3 es]]]; try done; try by rewrite E.
  simpl in E. destruct (eval r e1) as [v|]; [|done]. simpl in E. simplify_eq.
  by destruct Ht as [-> | ->].
Qed.

Lemma gassigns_here G D sg b U r xs rs vs :
  here (mkCtx G D) sg b U r -> Forall2 (fun x rp => D !! x = Some rp) xs rs ->
  Forall2 (fun rp v => hasRepr rp v = true) rs vs ->
  exists r', gassigns xs vs r = Some r' /\ same_doms r r' /\
    here (mkCtx (insertAll xs rs G) D) (pyBind xs vs sg) b U r'.
Proof.
  intros Hh Hf. revert G sg r vs Hh. induction Hf as [|x rp xs rs Hx Hf IH]; intros G sg r vs Hh HV.
  - inversion HV; subst. by exists r.
  - inversion HV as [|? v ? vs' Hv HV']; subst. simpl.
    destruct (here_set _ _ _ _ _ _ _ _ _ _ _ v Hh Hx Hv) as (r1 & E & Hd & Hh1). rewrite E.
    destruct (IH _ _ _ _ Hh1 HV') as (r2 & E2 & Hd2 & Hh2). exists r2. split_and!; [done| |done].
    by etrans.
Qed.

Lemma gbindAll_here G D sg b U f t xs rs vs :
  here (mkCtx G D) sg b U (f :: t) -> NoDup xs -> length xs = length rs ->
  Forall (fun x => localName x /\ D !! x = None) xs ->
  Forall2 (fun rp v => hasRepr rp v = true) rs vs ->
  exists f', gbindAll xs vs f = Some f' /\ grows (f :: t) (f' :: t) /\
    here (mkCtx (insertAll xs rs G) (insertAll xs rs D)) (pyBind xs vs sg) b U (f' :: t).
Proof.
  revert G D sg f rs vs. induction xs as [|x xs IH]; intros G D sg f rs vs Hh Hnd Hl Hf HV.
  - destruct rs; [|done]. inversion HV; subst. exists f. split; [done|]. split; [apply grows_refl|done].
  - destruct rs as [|rp rs]; [done|]. inversion HV as [|? v ? vs' Hv HV']; subst.
    inversion Hnd as [|? ? Hx Hnd']; inversion Hf as [|? ? [Hn Hd] Hf']; subst. simpl.
    rewrite (proj2 (String.eqb_neq x "_")) by by eapply local_not_blank.
    destruct (here_def _ _ _ _ _ _ _ _ _ _ x rp v Hh Hn Hd Hv) as [Hh1 Hg1].
    destruct (IH _ _ _ _ rs vs' Hh1) as (f' & E & Hg & Hh'); [done|simpl in Hl; lia| |done|].
    + rewrite Forall_forall in *. intros y Hy. destruct (Hf' y Hy). split; [done|].
      rewrite lookup_insert_ne; [done|]. by intros ->.
    + exists f'. split; [done|]. split; [exact (grows_trans _ _ _ Hg1 Hg)|done].
Qed.

Lemma etys_length G es rs : etys sigs G es rs -> length es = length rs.
Proof. induction 1; simpl; auto. Qed.

(** The values of a list of expressions, then what is done with them. *)
Lemma soundS_exprs k k' s es rs pin (Q : list gexpr -> list gstmt) K :
  etys sigs (assigned k) es rs ->
  (forall b, lowerStmt s b = (xs <- lowerValues pin es ;; flushed (Q xs)) b) ->
  (forall n sg, pyExec n s sg = withVals callee sg es (K sg)) ->
  (forall n sg, stmtFires callee n s sg = firesL callee sg es) ->
  (forall xs n U sg b r d ws, here k sg b U r -> length xs = length es -> evals r xs = Some ws ->
    Forall2 (fun rp w => hasRepr rp w = true) rs ws ->
    sim (assigned k) k' b U r d (execs n (Q xs) r) (K sg ws)) ->
  soundS k s k'.
Proof.
  intros Hes El Ep Ed Hk b Hb Hp. pose proof (etys_length _ _ _ Hes) as Hlen.
  destruct (proj2 (expr_sound_all callee sigs h args (assigned k)) es rs Hes b Hb)
    as (xs & b1 & P & _ & _ & EV & N & R).
  destruct (cleared_next _ _ _ N Hp) as [N' HP].
  exists (P ++ Q (zip_with (pinBy pin) xs rs)), (cleared b1). split_and!; [|done|].
  - rewrite El. unfold ebind. by rewrite EV, flushed_eq, HP.
  - intros n U sg r HU Hh. rewrite Ep, Ed, execs_app. unfold withVals.
    destruct (R n sg r) as [Ht Hd|z x Hx _ Ha|r1 ws Hx He Hf S V A].
    + eapply here_ready; [done|]. by apply HU.
    + rewrite Ht. by constructor.
    + rewrite Hx, (Ha (fun vs => Some (PRet (VList vs)))). constructor.
    + rewrite Hx, (A (fun vs => Some (PRet (VList vs))) (PRet (VList ws)) eq_refl). simpl.
      pose proof (here_extends _ _ _ _ _ _ _ _ _ _ Hh He Hf) as Hh1.
      eapply sim_start; [by apply extends_grows|done|done|]. apply Hk; [by apply here_cleared| | |done].
      * rewrite length_zip_with. apply Forall2_length in S, V. lia.
      * apply (evals_stable sigs h); [apply Hh1|]. clear -S V. revert rs V.
        induction S as [|x w xs ws Sx S IH]; intros rs V; inversion V; subst; [done|]. simpl.
        constructor; [by apply pinBy_stable|by apply IH].
Qed.

Lemma bind_lower xs es def b :
  length xs = length es ->
  lowerStmt (Bind xs es def) b =
  (ys <- lowerValues def es ;;
   flushed [GAssign (map ident xs) (if def then DEFINE else ASSIGN) ys]) b.
Proof. intros Hl. simpl. by rewrite Hl, Nat.eqb_refl. Qed.

Lemma soundS_bindDef G D xs es rs :
  etys sigs G es rs -> length xs = length es -> xs <> [] -> NoDup xs ->
  Forall (fun x => localName x /\ D !! x = None) xs ->
  soundS (mkCtx G D) (Bind xs es true) (mkCtx (insertAll xs rs G) (insertAll xs rs D)).
Proof.
  intros Hes Hl Hne Hnd Hf. eapply soundS_exprs; [done|intros b; by apply bind_lower|done|done|].
  intros ys n U sg b r d ws Hh Hly E HV. pose proof (hr_ne _ _ _ _ _ _ _ _ Hh).
  destruct r as [|f t]; [done|]. pose proof (etys_length _ _ _ Hes).
  destruct (gbindAll_here _ _ _ _ _ _ _ xs rs ws Hh Hnd) as (f' & Eb & Hg & Hh'); [lia|done|done|].
  rewrite execs_one, (assign_exec n xs DEFINE ys ws) by (auto; lia). simpl.
  destruct xs as [|x xs]; [done|]. inversion Hf as [|? ? [Hn Hd] _]; subst.
  assert (fresh f x = true) as Hfr.
  { unfold fresh. rewrite (proj2 (String.eqb_neq x "_")) by by eapply local_not_blank.
    simpl. apply bool_decide_eq_true. pose proof (proj2 (hr_shape _ _ _ _ _ _ _ _ Hh x Hn) Hd) as Hx.
    simpl in Hx. by destruct (f !! x). }
  cbn [existsb]. rewrite Hfr, Eb. by constructor.
Qed.

Lemma soundS_bindSet G D xs es rs rs' :
  etys sigs G es rs' -> Forall2 (fun x r => D !! x = Some r) xs rs -> Forall2 sameRep rs' rs ->
  soundS (mkCtx G D) (Bind xs es false) (mkCtx (insertAll xs rs G) D).
Proof.
  intros Hes Hf Hs. pose proof (etys_length _ _ _ Hes). pose proof (Forall2_length _ _ _ Hf).
  pose proof (Forall2_length _ _ _ Hs).
  eapply soundS_exprs; [done|intros b; apply bind_lower; lia|done|done|].
  intros ys n U sg b r d ws Hh Hly E HV.
  assert (Forall2 (fun rp v => hasRepr rp v = true) rs ws) as HV'.
  { clear -Hs HV. revert ws HV. induction Hs as [|a c rs' rs Hac Hs IH]; intros ws HV;
      inversion HV; subst; constructor; auto. by rewrite <- (hasRepr_same a c). }
  destruct (gassigns_here _ _ _ _ _ _ xs rs ws Hh Hf HV') as (r' & Eg & Hd & Hh').
  rewrite execs_one, (assign_exec n xs ASSIGN ys ws) by (auto; lia). simpl. rewrite Eg.
  constructor; [|done]. pose proof (hr_ne _ _ _ _ _ _ _ _ Hh). destruct r; [done|].
  by apply grows_same_doms.
Qed.

(** ** Augmented assignment *)

Lemma soundS_augInt G D x op rp rp' v :
  G !! x = Some rp -> D !! x = Some rp -> isScalar SFloat rp = false ->
  ety sigs G (Bin op (Var x rp) v) rp' -> sameRep rp' rp ->
  soundS (mkCtx G D) (AugAssign x op rp v) (mkCtx G D).
Proof.
  intros Hg Hd Hf Hv He.
  eapply (soundS_expr _ _ _ _ rp' (fun gx _ => [setStmt (ident x) gx])
    (fun sg w => Some (PNorm (<[x := w]> sg)))); [exact Hv| |done|done|].
  { intros b. simpl. by rewrite Hf. }
  intros gx n U sg b r d w Hh Hs Hw. rewrite <- (insert_id G x rp Hg) at 2.
  apply sim_assign; try done. by rewrite <- (hasRepr_same _ _ _ He).
Qed.

Lemma aug_exec n x op e a c u r :
  foldOp op = true -> glookup x r = Some (VFloat a) -> eval r e = Some (VFloat c) ->
  pyFloats op a c = Some (PRet u) -> exec n (augAssign x op e) r = GNorm <$> gassign x u r.
Proof.
  intros Hop Hx He Hu. unfold augAssign, ident. cbn -[eval gassign]. unfold resolve. rewrite Hx, He.
  by destruct op; simpl in *; simplify_eq.
Qed.

Lemma toFloat_when rp gx : (if isScalar SFloat rp then gx else toFloat gx rp) = toFloat gx rp.
Proof.
  destruct (isScalar SFloat rp) eqn:E; [|done]. apply isScalar_true in E. unfold toFloat. by rewrite E.
Qed.

Lemma aug_float op lr rr v w rp :
  foldOp op = true -> isScalar SFloat lr = true -> binResult op lr rr = Some rp ->
  hasRepr lr v = true -> hasRepr rr w = true ->
  numeric rr = true /\ exists a, v = VFloat a /\ forall c, asF w = Some c ->
    exists u, pyBin op v w = Some (PRet (VFloat u)) /\ pyFloats op a c = Some (PRet (VFloat u)).
Proof.
  intros Hop Hl Hb Hv Hw. apply isScalar_true in Hl. rewrite (hasRepr_scalar lr v SFloat) in Hv by done.
  destruct v as [|a| | | | | |]; try done. unfold binResult in Hb.
  unfold isScalar at 1 3 in Hb. rewrite Hl in Hb. simpl in Hb.
  destruct (isScalar SStr rr) eqn:Es; [by destruct op|].
  destruct (negb (numeric lr) || negb (numeric rr)) eqn:En; [done|].
  apply orb_false_iff in En as [_ En%negb_false_iff]. split; [done|]. exists a. split; [done|].
  intros c Hc. rewrite (pyBin_floats op (VFloat a) w a c); [|done|done|by left].
  destruct op; simpl in *; try done; eauto.
Qed.

Lemma soundS_augFloat G D x op rp rp' v :
  foldOp op = true -> G !! x = Some rp -> D !! x = Some rp -> isScalar SFloat rp = true ->
  ety sigs G (Bin op (Var x rp) v) rp' -> soundS (mkCtx G D) (AugAssign x op rp v) (mkCtx G D).
Proof.
  intros Hop Hg Hd Hf Hv. inversion Hv as [| | | | |? ? ? lr rr ? Hl Hr Hb Hc _| | | | | | | |]; subst.
  inversion Hl; subst. intros b Hbk Hp.
  destruct (expr_sound _ _ _ b Hr Hbk) as (gx & b1 & P & E & N & _ & R).
  destruct (cleared_next _ _ _ N Hp) as [N' HP].
  exists (P ++ [augAssign x op (toFloat gx rr)]), (cleared b1). split_and!; [|done|].
  - simpl. rewrite Hf. unfold ebind. by rewrite E, flushed_eq, HP, toFloat_when.
  - intros n U sg r HU Hh. destruct (hr_agree _ _ _ _ _ _ _ _ Hh x lr Hg) as (a0 & Hsg & Hlk & Ha0).
    cbn [PySem.pyExec PySem.pyEval stmtFires fires]. rewrite Hsg. simpl.
    assert (forall p K, withVal (pbind p (pyBin op a0)) K =
      withVal p (fun w => withVal (pyBin op a0 w) K)) as Hassoc by (by intros [[| |]|]).
    rewrite Hassoc. eapply sim_expr; [done|apply R|by intros ->|].
    { apply (here_ready _ _ _ (mkCtx G D) _ _ _ U); [done|]. by apply HU. }
    intros r1 w _ Hh1 Hs1 Hw. destruct (aug_float op lr rr a0 w rp' Hop Hf Hb Ha0 Hw) as (Hnum & a & -> & Hu).
    destruct (toFloat_stable sigs h r1 gx w rr Hnum Hw Hs1) as (c & Hc1 & Hs2).
    destruct (Hu c Hc1) as (u & Eu & Ef). rewrite Eu. cbn [withVal].
    destruct (hr_agree _ _ _ _ _ _ _ _ Hh1 x lr Hg) as (a1 & Hsg1 & Hlk1 & _). simplify_eq.
    assert (hasRepr lr (VFloat u) = true) as Hru.
    { apply isScalar_true in Hf. by rewrite (hasRepr_scalar lr _ SFloat). }
    destruct (here_set _ _ _ _ _ _ _ _ _ _ _ (VFloat u) Hh1 Hd Hru) as (r' & Eg & Hdm & Hh').
    rewrite execs_one, (aug_exec n x op _ a c (VFloat u)); [|done|done| |done].
    + rewrite Eg. rewrite insert_id in Hh' by done. constructor; [|by apply here_cleared].
      pose proof (hr_ne _ _ _ _ _ _ _ _ Hh1). destruct r1; [done|]. by apply grows_same_doms.
    + eapply stable_here; [apply Hh1|done].
Qed.

(** ** Discarded values, return and jumps *)

Lemma fresh_define_blank x w f t :
  generated x = true -> glookup x (f :: t) = None ->
  gdefine ["_"; x] [VNil; w] (f :: t) = Some (<[x := w]> f :: t) /\
  forall v, gdefine ["_"; x] [v; w] (f :: t) = Some (<[x := w]> f :: t).
Proof.
  intros Hx Hn. assert (forall v, gdefine ["_"; x] [v; w] (f :: t) = Some (<[x := w]> f :: t)) as H; [|auto].
  intros v. simpl in *. unfold fresh. rewrite (proj2 (String.eqb_neq x "_")) by by apply gen_ne_blank.
  simpl. destruct (f !! x) eqn:E; [done|]. by rewrite bool_decide_true.
Qed.

Definition afterErr (b : Builder) : Builder :=
  mkBuilder (fn b) (params b) (bret b) (deopt b) (deoptUsed b) (nTmp b) (nFlag b) (S (nErr b)) (nDeopt b)
    (genDeopt b) [] (resume b).

Lemma fresh_afterErr b w f t :
  freshB b (f :: t) -> freshB (afterErr b) (<[excName (nErr b) := w]> f :: t).
Proof.
  intros [A B C]. split; intros i Hi; rewrite glookup_insert; simpl in Hi.
  - rewrite (proj2 (String.eqb_neq _ _)) by done. by apply A.
  - rewrite (proj2 (String.eqb_neq _ _)) by done. by apply B.
  - rewrite (proj2 (String.eqb_neq _ _)) by (intros E%excName_inj; lia). apply C. lia.
Qed.

Lemma soundS_discardCall G D f es rs ps rp :
  sigs f = Some (ps, rp) -> userName f = true -> etys sigs G es rs -> Forall2 sameRep rs ps ->
  soundS (mkCtx G D) (Discard (Call f es rp)) (mkCtx G D).
Proof.
  intros Hsig Hu Hes Hps b Hb Hp.
  destruct (proj2 (expr_sound_all callee sigs h args G) es rs Hes b Hb)
    as (xs & b1 & P & EA & _ & _ & N & R).
  destruct (cleared_next _ _ _ N Hp) as [N' HP].
  exists (P ++ [GAssign [ident "_"; ident (excName (nErr b1))] DEFINE [callExpr (ident f) xs];
                errCheck (excName (nErr b1)) (bret b1)]), (afterErr b1). split_and!.
  - cbn [lowerStmt]. unfold ebind. rewrite EA. cbn. by rewrite HP.
  - destruct N' as [? ? ? ? ? ? ?]. split; simpl in *; auto.
  - intros n U sg r HU Hh. cbn [PySem.pyExec PySem.pyEval stmtFires fires].
    rewrite pyEval_walk, fires_walk, execs_app. destruct (R n sg r) as [Ht Hd|z x Hx _ Ha|r1 ws Hx He Hf S V A].
    + apply (here_ready _ _ _ (mkCtx G D) _ _ _ U); [done|]. by apply HU.
    + rewrite Ht. by constructor.
    + rewrite Hx, (Ha (fun vs => Some (pyCall callee f vs))). constructor.
    + rewrite Hx. pose proof (here_extends _ _ _ _ _ _ _ _ _ _ Hh He Hf) as Hh1.
      eapply sim_start; [by apply extends_grows|done|done|]. clear He Hx R. pose proof (hr_ne _ _ _ _ _ _ _ _ Hh1).
      assert (outside f) as Hof by (right; split; [done|left; congruence]).
      destruct r1 as [|fr t]; [done|]. set (exc := excName (nErr b1)).
      assert (generated exc = true) as Hge by apply (generated_names (nErr b1)).
      assert (glookup exc (fr :: t) = None) as Hfe by (apply Hf; lia).
      rewrite execs_cons. unfold ident at 1 2. cbn [GoSem.exec]. unfold execAssign. cbn [lhsNames mbind option_bind].
      rewrite (call2_static callee sigs h (fr :: t) f xs ws) by (done || apply Hh1). cbn [mbind option_bind].
      set (e := match callee f ws with inl _ => VNil | inr ex => VErr ex end).
      assert (GNorm <$> bindTok DEFINE ["_"; exc]
        [(match callee f ws with inl v => (v, VNil) | inr ex => (VNil, VErr ex) end).1;
         (match callee f ws with inl v => (v, VNil) | inr ex => (VNil, VErr ex) end).2] (fr :: t)
        = Some (GNorm (<[exc := e]> fr :: t))) as ->.
      { subst e. unfold bindTok. destruct (callee f ws); cbn [fst snd];
          rewrite (proj2 (fresh_define_blank exc _ fr t Hge Hfe)); done. }
      pose proof (extends_insert exc e fr t Hge Hfe) as He2.
      pose proof (here_extends _ _ _ _ _ _ _ _ _ _ Hh1 He2 (fresh_afterErr b1 e fr t Hf)) as Hh2.
      rewrite execs_one.
      destruct (errCheck_exec callee sigs h n exc (bret b1) (<[exc := e]> fr :: t) e) as [z Ez].
      { apply Hh2. }
      { by rewrite glookup_insert, String.eqb_refl. }
      { subst e. destruct (callee f ws); eauto. }
      rewrite Ez. specialize (A (fun vs => Some (pyCall callee f vs))). subst e.
      destruct (callee f ws) as [v|ex] eqn:Ec.
      * rewrite (A (PRet v)); [|unfold pyCall, allows; by rewrite Ec].
        constructor; [by apply extends_grows|done].
      * rewrite (A (PRaise ex)); [constructor|unfold pyCall, allows; by rewrite Ec].
Qed.

Lemma soundS_discard G D v rp : ety sigs G v rp -> soundS (mkCtx G D) (Discard v) (mkCtx G D).
Proof.
  intros Hv. destruct v; try (inversion Hv; subst; by eapply soundS_discardCall).
  all: eapply (soundS_expr _ _ _ _ rp (fun gx _ => [setStmt (ident "_") gx])
    (fun sg _ => Some (PNorm sg))); [exact Hv|done|done|done|].
  all: intros gx n U sg b r d w Hh Hs Hw.
  all: rewrite execs_one, (set_exec n "_" gx w) by (eapply stable_here; [apply Hh|done]).
  all: constructor; [|done]; pose proof (hr_ne _ _ _ _ _ _ _ _ Hh); destruct r; [done|]; apply grows_refl.
Qed.

Lemma soundS_return G D v rp : ety sigs G v rp -> sameRep rp rt -> soundS (mkCtx G D) (Return v) (mkCtx G D).
Proof.
  intros Hv He. eapply (soundS_expr _ _ _ v rp (fun gx _ => [ret [gx; ident "nil"]])
    (fun _ w => Some (PDone w))); [done..|].
  intros gx n U sg b r d w Hh Hs Hw. rewrite execs_one. unfold ret. cbn [GoSem.exec].
  rewrite execReturn2. cbn [evals]. rewrite (stable_here sigs h r gx w) by (done || apply Hh).
  unfold ident. simpl. unfold resolve. rewrite (hr_out _ _ _ _ _ _ _ _ Hh "nil") by by left.
  simpl. constructor. by rewrite <- (hasRepr_same _ _ _ He).
Qed.

Lemma soundS_jump G D s t :
  (forall b, lowerStmt s b = flushed [GBranch t] b) ->
  (forall n U sg b r, here (mkCtx G D) sg b U r -> grows r r ->
    sim G (mkCtx G D) b U r (stmtFires callee n s sg) (exec n (GBranch t) r) (pyExec n s sg)) ->
  soundS (mkCtx G D) s (mkCtx G D).
Proof.
  intros El Hs b Hb Hp. exists [GBranch t], (cleared b). split_and!.
  - by rewrite El, flushed_eq, Hp.
  - apply (cleared_next b b []); [apply bnext_refl|done].
  - intros n U sg r HU Hh. rewrite execs_one. apply Hs; [by apply here_cleared|].
    pose proof (hr_ne _ _ _ _ _ _ _ _ Hh). destruct r; [done|apply grows_refl].
Qed.

Lemma soundS_break G D : soundS (mkCtx G D) Break (mkCtx G D).
Proof. apply (soundS_jump _ _ _ BREAK); [done|]. intros n U sg b r [] Hg. by constructor. Qed.

Lemma soundS_continue G D : soundS (mkCtx G D) Continue (mkCtx G D).
Proof. apply (soundS_jump _ _ _ CONTINUE); [done|]. intros n U sg b r [] Hg. by constructor. Qed.
End Blocks.
