(* ===== verification/EmitLoops.v ===== *)
(** * EmitLoops: branches, loops and blocks

    The control-flow cases of the simulation, and the theorem for every
    well-typed block. *)

From S2P Require Import Prelude Int64 StaticOps GoSem Emit IrCost PySem EmitTyping EmitEnv EmitExpr EmitOps EmitSound EmitStmt EmitBlock.
Local Open Scope Z_scope.
Local Open Scope emit_scope.

Section Loops.
Context (callee : string -> list value -> value + pyexc).
Context (sigs : string -> option (list Repr * Repr)) (h : string) (args : list value) (rt : Repr).
Context `{!Program callee sigs h}.

Local Notation execs := (execs callee).
Local Notation exec := (exec callee).
Local Notation outside_free := (outside_free sigs h).
Local Notation stable := (stable sigs h).
Local Notation bok := (bok h args).
Local Notation snap := (snap args).
Local Notation pyEval := (pyEval callee).
Local Notation pyExec := (pyExec callee).
Local Notation pyExecs := (pyExecs callee).
Local Notation localName := (localName sigs h).
Local Notation wfctx := (wfctx sigs h).
Local Notation here := (here sigs h args).
Local Notation sim := (sim sigs h args rt).
Local Notation sty := (sty sigs h rt).
Local Notation stys := (stys sigs h rt).
Local Notation soundS := (soundS callee sigs h args rt).
Local Notation soundB := (soundB callee sigs h args rt).

(** ** The nested walks, by name *)

Lemma ebind_inl {A B} (m : EM A) (k : A -> EM B) b a b' :
  m b = inl (a, b') -> ebind m k b = k a b'.
Proof. unfold ebind. by intros ->. Qed.

Lemma lower_walk l b :
  (fix go (l : list Stmt) : EM (list gstmt) :=
    match l with
    | [] => eret []
    | s :: l => ss <- lowerStmt s ;; rest <- go l ;; eret (ss ++ rest)
    end) l b = lowerBlock l b.
Proof.
  revert b. induction l as [|s l IH]; intros b; [done|]. cbn [lowerBlock]. unfold ebind.
  destruct (lowerStmt s b) as [[ss b1]|]; [|done]. by rewrite IH.
Qed.

Lemma py_walk n l sg :
  (fix go (l : list Stmt) (sg : gmap string value) : option pres :=
    match l with
    | [] => Some (PNorm sg)
    | s :: l => match pyExec n s sg with Some (PNorm sg) => go l sg | r => r end
    end) l sg = pyExecs n l sg.
Proof.
  revert sg. induction l as [|s l IH]; intros sg; [done|]. simpl.
  destruct (pyExec n s sg) as [[]|]; auto.
Qed.

Lemma whenNorm_ext p k k' : (forall sg, k sg = k' sg) -> whenNorm p k = whenNorm p k'.
Proof. intros He. destruct p as [[]|]; simpl; auto. Qed.

Lemma fires_walk_block n l sg :
  (fix go (l : list Stmt) (sg : gmap string value) : bool :=
    match l with
    | [] => false
    | s :: l => stmtFires callee n s sg || whenNorm (pyExec n s sg) (go l)
    end) l sg = blockFires callee n l sg.
Proof.
  revert sg. induction l as [|s l IH]; intros sg; [done|]. simpl. f_equal. by apply whenNorm_ext.
Qed.

Lemma whileFires_ext j c body f f' sg :
  (forall sg, f sg = f' sg) -> whileFires j c body f sg = whileFires j c body f' sg.
Proof.
  intros He. revert sg. induction j as [|j IH]; intros sg; [done|]. simpl.
  destruct (c sg) as [[v| |]|]; simpl; try done. destruct (truth v) as [[]|]; try done.
  rewrite He. f_equal. destruct (body sg) as [[]|]; simpl; auto.
Qed.

Lemma countFires_ext j x down body f f' i e sg :
  (forall sg, f sg = f' sg) -> countFires j x down body f i e sg = countFires j x down body f' i e sg.
Proof.
  intros He. revert i sg. induction j as [|j IH]; intros i sg; [done|]. simpl.
  destruct (if down then _ else _); [|done]. rewrite He. f_equal. destruct (body _) as [[]|]; simpl; auto.
Qed.

Lemma gloop_ext j c body body' post r :
  (forall r, body r = body' r) -> gloop j c body post r = gloop j c body' post r.
Proof.
  intros He. revert r. induction j as [|j IH]; intros r; [done|]. simpl.
  destruct (c r) as [[]|]; simpl; try done. rewrite <- He. destruct (body r) as [[]|]; simpl; try done.
  all: destruct (post _) as [[]|]; simpl; auto.
Qed.

Lemma pyWhile_ext j c body body' sg :
  (forall sg, body sg = body' sg) -> pyWhile j c body sg = pyWhile j c body' sg.
Proof.
  intros He. revert sg. induction j as [|j IH]; intros sg; [done|]. simpl.
  destruct (c sg) as [[v| |]|]; simpl; try done. destruct (truth v) as [[]|]; try done.
  rewrite <- He. destruct (body sg) as [[]|]; auto.
Qed.

Lemma pyCount_ext j x down body body' i e sg :
  (forall sg, body sg = body' sg) -> pyCount j x down body i e sg = pyCount j x down body' i e sg.
Proof.
  intros He. revert i sg. induction j as [|j IH]; intros i sg; [done|]. simpl.
  destruct (if down then _ else _); [|done]. rewrite <- He.
  destruct (body _) as [[]|]; auto.
Qed.

Lemma exec_if n c body els r :
  exec n (GIf None c body els) r =
  b ← evalCond c (∅ :: r);
  gpop <$> (if b : bool then gpop <$> execs n body (∅ :: ∅ :: r)
            else match els with None => Some (GNorm (∅ :: r)) | Some s => exec n s (∅ :: r) end).
Proof. cbn [GoSem.exec mbind option_bind]. destruct (evalCond c (∅ :: r)) as [[]|]; simpl; [|done..].
  by rewrite exec_list. Qed.

Lemma exec_block n l r : exec n (GBlock l) r = gpop <$> execs n l (∅ :: r).
Proof. cbn [GoSem.exec]. by rewrite exec_list. Qed.

Lemma exec_while n c body r :
  exec n (GFor None (Some c) None body) r =
  gpop <$> gloop n (evalCond c) (fun r => gpop <$> execs n body (∅ :: r)) (fun r => Some (GNorm r)) (∅ :: r).
Proof.
  cbn [GoSem.exec mbind option_bind]. f_equal. apply gloop_ext. intros q. by rewrite exec_list.
Qed.

Lemma exec_for n init c post body r r1 :
  exec n init (∅ :: r) = Some (GNorm r1) ->
  exec n (GFor (Some init) (Some c) (Some post) body) r =
  gpop <$> gloop n (evalCond c) (fun r => gpop <$> execs n body (∅ :: r)) (exec n post) r1.
Proof.
  intros E. cbn [GoSem.exec]. rewrite E. cbn [mbind option_bind]. f_equal. apply gloop_ext.
  intros q. by rewrite exec_list.
Qed.

(** ** Python leaves alone what a block does not write *)

Definition keeps (ws : list string) (sg : gmap string value) (p : option pres) : Prop :=
  match p with
  | Some (PNorm sg' | PBrk sg' | PCnt sg') => forall x, x ∉ ws -> sg' !! x = sg !! x
  | _ => True
  end.

Lemma keeps_withVal ws sg o K : (forall v, keeps ws sg (K v)) -> keeps ws sg (withVal o K).
Proof. intros H. destruct o as [[v| |]|]; simpl; try done; apply H. Qed.

Lemma keeps_insert ws sg x v : x ∈ ws -> keeps ws sg (Some (PNorm (<[x := v]> sg))).
Proof. intros Hx y Hy. rewrite lookup_insert_ne; [done|]. by intros ->. Qed.

Lemma keeps_weaken ws ws' sg p : (forall x, x ∈ ws -> x ∈ ws') -> keeps ws sg p -> keeps ws' sg p.
Proof. intros Hs. destruct p as [[]|]; simpl; try done; intros Hk x Hx; apply Hk; auto. Qed.

Lemma keeps_seq ws ws' sg p K :
  keeps ws sg p -> (forall sg', keeps ws' sg' (K sg')) ->
  keeps (ws ++ ws') sg (pseq p K).
Proof.
  intros Hp HK. destruct p as [[sg1| | | | |]|]; simpl in *; try done.
  - specialize (HK sg1). destruct (K sg1) as [[]|]; simpl in *; try done;
      intros x Hx; rewrite HK by set_solver; apply Hp; set_solver.
  - intros x Hx. apply Hp. set_solver.
  - intros x Hx. apply Hp. set_solver.
Qed.

(** A further step from a state that already kept the names. *)
Lemma keeps_from ws sg sg' p :
  (forall x, x ∉ ws -> sg' !! x = sg !! x) -> keeps ws sg' p -> keeps ws sg p.
Proof. intros H. destruct p as [[]|]; simpl; try done; intros Hk x Hx; rewrite Hk; auto. Qed.

Lemma keeps_bind ws xs vs sg : (forall x, x ∈ xs -> x ∈ ws) -> keeps ws sg (Some (PNorm (pyBind xs vs sg))).
Proof.
  revert vs sg. induction xs as [|x xs IH]; intros vs sg Hs; [by destruct vs|].
  destruct vs as [|v vs]; [done|]. cbn [pyBind]. apply (keeps_from _ _ (<[x := v]> sg)).
  - apply (keeps_insert ws sg x v). apply Hs. set_solver.
  - apply IH. intros y Hy. apply Hs. set_solver.
Qed.

Lemma keeps_while ws j c body sg :
  (forall sg, keeps ws sg (body sg)) -> keeps ws sg (pyWhile j c body sg).
Proof.
  intros Hb. revert sg. induction j as [|j IH]; intros sg; [done|]. simpl. apply keeps_withVal.
  intros v. destruct (truth v) as [[]|]; [|done..]. specialize (Hb sg).
  destruct (body sg) as [[]|]; simpl in *; try done; by eapply keeps_from.
Qed.

Lemma keeps_count ws j x down body i e sg :
  x ∈ ws -> (forall sg, keeps ws sg (body sg)) -> keeps ws sg (pyCount j x down body i e sg).
Proof.
  intros Hx Hb. revert i sg. induction j as [|j IH]; intros i sg; [done|]. simpl.
  destruct (if down then _ else _); [|done]. specialize (Hb (<[x := VInt i]> sg)).
  eapply (keeps_from _ _ (<[x := VInt i]> sg)); [by apply (keeps_insert ws sg x (VInt i))|].
  destruct (body _) as [[]|]; simpl in *; try done; by eapply keeps_from.
Qed.

Lemma writes_walk l :
  (fix go (l : list Stmt) : list string := match l with [] => [] | s :: l => writes s ++ go l end) l
  = blockWrites l.
Proof. induction l as [|s l IH]; [done|]. simpl. by rewrite IH. Qed.

Lemma keeps_all :
  (forall k s k', sty k s k' -> forall n sg, keeps (writes s) sg (pyExec n s sg)) /\
  (forall k l k', stys k l k' -> forall n sg, keeps (blockWrites l) sg (pyExecs n l sg)).
Proof.
  apply sty_stys_ind; intros; cbn [PySem.pyExec writes]; rewrite ?writes_walk; try done.
  - apply keeps_withVal. intros w. apply keeps_insert. set_solver.
  - apply keeps_withVal. intros w. apply keeps_insert. set_solver.
  - apply keeps_withVal. intros []; try done. by apply keeps_bind.
  - apply keeps_withVal. intros []; try done. by apply keeps_bind.
  - apply keeps_withVal. intros w. apply keeps_insert. set_solver.
  - by apply keeps_withVal.
  - by apply keeps_withVal.
  - erewrite pyWhile_ext by (intros; apply py_walk). by apply keeps_while.
  - apply keeps_withVal. intros v1. apply keeps_withVal. intros v2. destruct v1, v2; try done.
    erewrite pyCount_ext by (intros; apply py_walk). apply keeps_count; [set_solver|].
    intros sg'. eapply keeps_weaken; [|eauto]. set_solver.
  - apply keeps_withVal. intros v. rewrite !py_walk. destruct (truth v) as [[]|]; [..|done];
      (eapply keeps_weaken; [|eauto]; set_solver).
  - rewrite pyExecs_seq. cbn [blockWrites]. by apply keeps_seq.
Qed.

(** ** Conditions *)

Lemma stable_test r x y v w c :
  stable r x v -> stable r y w -> binTok NEQ v w = Some (VBool c) -> stable r (binary NEQ x y) (VBool c).
Proof. intros Hx Hy E. by eapply stable_binary. Qed.

Lemma truthy_stable cx cr b :
  truthy cr = true -> exists test, truthyExpr cx cr b = inl (test, b) /\
    forall r v, stable r cx v -> hasRepr cr v = true ->
      exists c, truth v = Some c /\ stable r test (VBool c).
Proof.
  unfold truthy, truthyExpr. intros Ht. destruct (RScalar cr) eqn:Es.
  - destruct (Elem cr) as [el|] eqn:Ee; [|done]. eexists. split; [done|]. intros r v Hs Hv.
    unfold hasRepr in Hv. rewrite Es, Ee in Hv. destruct v as [| | | |l| | |]; try done.
    eexists. split; [done|].
    eapply stable_test; [by eapply stable_builtin|apply stable_lit|]. simpl. do 2 f_equal. by destruct l.
  - eexists. split; [done|]. intros r v Hs Hv. rewrite (hasRepr_scalar cr v _ Es) in Hv by done.
    destruct v; try done. eauto.
  - eexists. split; [done|]. intros r v Hs Hv. rewrite (hasRepr_scalar cr v _ Es) in Hv by done.
    destruct v; try done. eexists. split; [done|]. by eapply stable_test; [|apply stable_lit|].
  - eexists. split; [done|]. intros r v Hs Hv. rewrite (hasRepr_scalar cr v _ Es) in Hv by done.
    destruct v; try done. eexists. split; [done|]. by eapply stable_test; [|by apply stable_flit|].
  - eexists. split; [done|]. intros r v Hs Hv. rewrite (hasRepr_scalar cr v _ Es) in Hv by done.
    destruct v; try done. eexists. split; [done|].
    apply (stable_test r _ _ (VStr s) (VStr "")); [done|by intros r' _ _|done].
Qed.

Lemma cond_eval r test c : outside_free r -> stable r test (VBool c) -> evalCond test r = Some c.
Proof. intros Ho Hs. unfold evalCond. by rewrite (stable_here sigs h r test (VBool c)). Qed.

Lemma sim_later G k' b b' U r d g p P : bnext b b' P -> sim G k' b U r d g p -> sim G k' b' U r d g p.
Proof. intros N. destruct 1; econstructor; eauto using here_later. Qed.

(** ** Branches *)

Lemma soleIf_spec ss s : soleIf ss = Some s -> ss = [s].
Proof. destruct ss as [|[] []]; simpl; try done. congruence. Qed.

Lemma sim_branch k k1 G' sg b b' U r d g p P :
  here k sg b U r -> bnext b b' P -> wfctx (mkCtx G' (declared k)) -> assigned k ⊆ G' ->
  (forall x q, G' !! x = Some q -> assigned k1 !! x = Some q /\ is_Some (declared k !! x)) ->
  sim (assigned k) k1 b' U (∅ :: ∅ :: r) d g p ->
  sim (assigned k) (mkCtx G' (declared k)) b' U r d (gpop <$> (gpop <$> g)) p.
Proof.
  intros Hh N Hw Hs HG Hsim. eapply (sim_pop _ _ _ _ k (mkCtx G' (declared k))); [done|done|done| |done|].
  - intros x q Hx. split; [exact Hx|]. by eapply HG.
  - eapply (sim_pop _ _ _ _ k k1); try done. by apply here_push.
Qed.

Lemma if_lower c cx cr test b b1 b2 thn els T :
  lowerExpr c b = inl ((cx, cr), b1) -> truthyExpr cx cr b1 = inl (test, b1) ->
  lowerBlock thn (cleared b1) = inl (T, b2) ->
  forall E b3, lowerBlock els b2 = inl (E, b3) ->
  lowerStmt (If c thn els) b =
  inl (pre b1 ++ [GIf None test T (match els with [] => None | _ =>
    Some (match soleIf E with Some inner => inner | None => GBlock E end) end)], b3).
Proof.
  intros E1 E2 E3 E b3 E4. cbn [lowerStmt]. erewrite ebind_inl by exact E1. cbn beta iota.
  erewrite ebind_inl by exact E2. erewrite ebind_inl by apply flush_eq.
  erewrite ebind_inl by (rewrite lower_walk; exact E3).
  destruct els as [|s els]; [cbn in E4; unfold eret in *; by simplify_eq|].
  erewrite ebind_inl by (rewrite (lower_walk (s :: els)); exact E4). done.
Qed.

Lemma soundS_if G D c cr thn els G1 D1 G2 D2 G' :
  ety sigs G c cr -> truthy cr = true -> soundB (mkCtx G D) thn (mkCtx G1 D1) ->
  stys (mkCtx G D) els (mkCtx G2 D2) -> soundB (mkCtx G D) els (mkCtx G2 D2) -> G ⊆ G' ->
  (forall x r, G' !! x = Some r -> G1 !! x = Some r /\ G2 !! x = Some r /\ is_Some (D !! x)) ->
  (wfctx (mkCtx G D) -> wfctx (mkCtx G' D)) ->
  soundS (mkCtx G D) (If c thn els) (mkCtx G' D).
Proof.
  intros Hc Ht Hthn Htels Hels HG HG' Hwf b Hb Hp.
  destruct (expr_sound callee sigs h args _ _ _ b Hc Hb) as (cx & b1 & P & E1 & N & _ & R).
  destruct (cleared_next _ _ _ N Hp) as [N' HP].
  pose proof (bok_cleared _ _ _ (bnext_ok _ _ _ _ _ N Hb)) as Hb1.
  destruct (truthy_stable cx cr b1 Ht) as (test & E2 & Htest).
  destruct (Hthn _ Hb1 eq_refl) as (T & b2 & E3 & N2 & S2).
  assert (pre b2 = []) as Hp2 by (by rewrite (bn_pre _ _ _ N2)).
  destruct (Hels _ (bnext_ok _ _ _ _ _ N2 Hb1) Hp2) as (E & b3 & E4 & N3 & S3).
  eexists _, b3. split_and!.
  { by eapply if_lower. }
  { apply (bnext_trans b (cleared b1) b3 [] []); [done|]. by apply (bnext_trans _ b2 _ [] []). }
  intros n U sg r HU Hh. cbn [PySem.pyExec stmtFires]. rewrite HP.
  assert (deoptUsed b2 = true -> U = true) as HU2 by (intros ?; by apply HU, N3).
  eapply sim_expr; [done|apply R|by intros ->|].
  { apply (here_ready _ _ _ (mkCtx G D) _ _ _ U); [done|]. intros Hu. by apply HU2, N2. }
  intros r1 v Ev Hh1 Hs1 Hv. apply here_cleared in Hh1. destruct (Htest r1 v Hs1 Hv) as (cb & Etr & Hst).
  assert (forall d d' g p, d' = (if cb then blockFires callee n thn sg else blockFires callee n els sg) ->
    (d = fires callee sg c || d') -> sim G (mkCtx G' D) b3 U r1 d' g p -> sim G (mkCtx G' D) b3 U r1 d g p) as Hweak.
  { intros d d' g p _ -> Hsim. destruct Hsim; econstructor; eauto. by apply orb_true_iff; right. }
  rewrite Ev. cbn [whenVal]. rewrite Etr, !fires_walk_block, !py_walk, execs_one, exec_if.
  rewrite (cond_eval _ _ cb) by (first [apply push_outside, Hh1|by apply stable_push]).
  cbn [mbind option_bind]. eapply Hweak; [reflexivity|by destruct cb|]. clear Hweak. destruct cb.
  - apply (sim_later _ _ b2 b3 _ _ _ _ _ [] N3). eapply (sim_branch (mkCtx G D) (mkCtx G1 D1)); [done|done|..].
    + apply Hwf, Hh1.
    + done.
    + intros x q Hx. destruct (HG' x q Hx) as (Hx1 & _ & Hd). split; [exact Hx1|exact Hd].
    + apply S2; [done|]. do 2 apply here_push. done.
  - assert (forall x q, G' !! x = Some q -> assigned (mkCtx G2 D2) !! x = Some q /\
      is_Some (declared (mkCtx G D) !! x)) as HG2.
    { intros x q Hx. by destruct (HG' x q Hx) as (_ & ? & ?). }
    pose proof (bnext_trans _ _ _ _ _ N2 N3) as N23.
    destruct els as [|s els].
    + inversion Htels; subst. cbn in E4. unfold eret in E4. simplify_eq. simpl.
      constructor; [pose proof (hr_ne _ _ _ _ _ _ _ _ Hh1); destruct r1; [done|apply grows_refl]|].
      eapply (here_doms _ _ _ (mkCtx G2 D2)); [exact Hh1|exact N2|done| |reflexivity|apply Hh1|].
      * apply Hwf, Hh1.
      * intros x q Hx. apply (hr_agree _ _ _ _ _ _ _ _ Hh1). by apply HG2.
    + destruct (soleIf E) as [inner|] eqn:Es.
      * apply soleIf_spec in Es as ->. rewrite <- execs_one.
        eapply (sim_pop _ _ _ _ (mkCtx G D) (mkCtx G2 D2)); [exact Hh1|exact N23|done|exact HG2|apply Hwf, Hh1|].
        apply S3; [done|]. apply here_push. by eapply here_later.
      * rewrite exec_block. eapply (sim_branch (mkCtx G D) (mkCtx G2 D2)); [exact Hh1|exact N23|apply Hwf, Hh1|done|exact HG2|].
        apply S3; [done|]. do 2 apply here_push. by eapply here_later.
Qed.

(** ** One turn of a loop *)

(** What both interpreters do after a turn's body. *)
Definition gturn (g : option gres) (cont : genv -> option gres) : option gres :=
  match g with
  | Some (GNorm r) | Some (GCnt r) => cont r
  | Some (GBrk r) => Some (GNorm r)
  | _ => g
  end.
Definition pturn (p : option pres) (cont : gmap string value -> option pres) : option pres :=
  match p with
  | Some (PNorm sg) | Some (PCnt sg) => cont sg
  | Some (PBrk sg) => Some (PNorm sg)
  | _ => p
  end.

Lemma gloop_S j c body post r :
  gloop (S j) c body post r =
  b ← c r;
  if b : bool then gturn (body r) (fun r =>
    p ← post r; match p with GNorm r => gloop j c body post r | _ => None end)
  else Some (GNorm r).
Proof. simpl. destruct (c r) as [[]|]; simpl; try done. by destruct (body r) as [[]|]. Qed.

Lemma pyWhile_S j c body sg :
  pyWhile (S j) c body sg =
  withVal (c sg) (fun v =>
    match truth v with
    | Some true => pturn (body sg) (pyWhile j c body)
    | Some false => Some (PNorm sg)
    | None => None
    end).
Proof.
  simpl. destruct (c sg) as [[v| |]|]; simpl; try done. destruct (truth v) as [[]|]; try done.
  by destruct (body sg) as [[]|].
Qed.

Lemma whileFires_S j c body f sg :
  whileFires (S j) c body f sg =
  whenVal (c sg) (fun v =>
    match truth v with Some true => f sg || whenTurn (body sg) (whileFires j c body f) | _ => false end).
Proof. done. Qed.

Lemma countFires_S j x down body f i e sg :
  countFires (S j) x down body f i e sg =
  if (if down then e <? i else i <? e) then
    f (<[x := VInt i]> sg) || whenTurn (body (<[x := VInt i]> sg))
      (countFires j x down body f (if down then i - 1 else i + 1) e)
  else false.
Proof. done. Qed.

Lemma pyCount_S j x down body i e sg :
  pyCount (S j) x down body i e sg =
  if (if down then e <? i else i <? e) then
    pturn (body (<[x := VInt i]> sg)) (pyCount j x down body (if down then i - 1 else i + 1) e)
  else Some (PNorm sg).
Proof. simpl. destruct (if down then _ else _); [|done]. by destruct (body _) as [[]|]. Qed.

(** The body of a turn runs in its own block; [k0] is what is known after the loop. *)
Lemma sim_turn k k0 k1 sg b b1 b2 U r d1 d g p P ws cont pcont :
  here k sg b U r -> bnext b b1 P -> assigned k ⊆ assigned k1 -> keeps ws sg p ->
  sim (assigned k) k1 b1 U (∅ :: r) d1 g p -> (d1 = true -> d = true) ->
  (forall r' sg', p = Some (PNorm sg') \/ p = Some (PCnt sg') ->
    here k sg' b U r' -> (forall x, x ∉ ws -> sg' !! x = sg !! x) ->
    sim (assigned k0) k0 b2 U r' d (cont r') (pcont sg')) ->
  (forall r' sg', here k sg' b U r' -> here k0 sg' b2 U r') ->
  sim (assigned k0) k0 b2 U r d (gturn (gpop <$> g) cont) (pturn p pcont).
Proof.
  intros Hh N Hsub Hkp Hs Hd Hcont Hbrk. pose proof Hh as [[Hgd Hloc] Hne Ho Hsh Hf Hsn Ha].
  assert (forall r' sg', grows (∅ :: r) r' -> agree (assigned k) sg' r' -> (U = true -> snap r') ->
    grows r (tail r') /\ here k sg' b U (tail r')) as Hout.
  { intros r' sg' Hg Ha' Hs'. split; [by apply pop_grows|].
    apply (here_doms _ _ _ k k sg sg' b b U r (tail r') []); try done.
    - apply bnext_refl.
    - by apply grows_pop.
    - intros HU. eapply pop_snap; eauto.
    - eapply pop_agree; [exact Hsh|exact Hloc|exact Hg| |exact Ha']. intros x q Hx. split; [done|].
      exists q. by eapply lookup_weaken. }
  destruct Hs as [p Hd1| |r' sg' Hg Hh'|r' sg' Hg Ha' Hs'|r' sg' Hg Ha' Hs'|v Hv|z x]; simpl in *;
    try by constructor; auto.
  - destruct (Hout r' sg' Hg) as [Hgr Hhr]; [apply (agree_sub _ (assigned k1)); [done|apply Hh']|apply Hh'|].
    apply (sim_start _ _ _ _ (assigned k0) (assigned k0) _ _ _ _ _ d d _ _ Hgr); [done|done|apply Hcont; auto].
  - destruct (Hout r' sg' Hg Ha' Hs') as [Hgr Hhr]. constructor; [done|by apply Hbrk].
  - destruct (Hout r' sg' Hg Ha' Hs') as [Hgr Hhr]. apply (sim_start _ _ _ _ (assigned k0) (assigned k0) _ _ _ _ _ d d _ _ Hgr); [done|done|apply Hcont; auto].
Qed.

(** The guards of a later turn count. *)
Lemma turn_next G k b U r f1 f p sg' g q :
  p = Some (PNorm sg') \/ p = Some (PCnt sg') -> sim G k b U r (f sg') g q ->
  sim G k b U r (f1 || whenTurn p f) g q.
Proof.
  intros Hp Hs. assert (f sg' = true -> f1 || whenTurn p f = true) as Hd.
  { intros Hf. apply orb_true_iff. right. by destruct Hp as [-> | ->]. }
  destruct Hs; econstructor; eauto.
Qed.

Lemma cleared_id b : pre b = [] -> cleared b = b.
Proof. destruct b; simpl; by intros ->. Qed.

(** ** while *)

(** Without hoisted statements an expression is its value. *)
Lemma hoists_value G c cr b sg r gx :
  ety sigs G c cr -> lowerExpr c b = inl ((gx, cr), b) -> bok b -> ready sigs h args G sg b b r ->
  exists v, stable r gx v /\ hasRepr cr v = true /\ allows (pyEval sg c) (PRet v).
Proof.
  intros Hc El Hb Hr. destruct (expr_sound callee sigs h args _ _ _ b Hc Hb) as (gx' & b' & P & E & N & _ & R).
  rewrite El in E. simplify_eq. destruct N as [Hpre _ _ _ _ _ _].
  apply (f_equal length) in Hpre. rewrite length_app in Hpre. destruct P; [|simpl in Hpre; lia].
  destruct (R 0%nat sg r Hr) as [Ht|z x Hx|r' v Hx He Hf Hs Hv Ha]; simpl in *; simplify_eq. eauto.
Qed.

Lemma while_loop G D c cr cx test body k1 T b b' U n j sg r :
  ety sigs G c cr -> lowerExpr c b = inl ((cx, cr), b) -> bok b -> (deoptUsed b' = true -> U = true) ->
  (forall r v, stable r cx v -> hasRepr cr v = true ->
    exists c, truth v = Some c /\ stable r test (VBool c)) ->
  bnext b b' [] -> G ⊆ assigned k1 -> (forall n sg, keeps (blockWrites body) sg (pyExecs n body sg)) ->
  (forall sg r, here (mkCtx G D) sg b U r ->
    sim G k1 b' U r (blockFires callee n body sg) (execs n T r) (pyExecs n body sg)) ->
  here (mkCtx G D) sg b U r ->
  sim G (mkCtx G D) b' U r
    (whileFires j (fun sg => pyEval sg c) (pyExecs n body) (blockFires callee n body) sg)
    (gloop j (evalCond test) (fun r => gpop <$> execs n T (∅ :: r)) (fun r => Some (GNorm r)) r)
    (pyWhile j (fun sg => pyEval sg c) (pyExecs n body) sg).
Proof.
  intros Hc El Hb HU Htest N Hsub Hkp Hbody. revert sg r. induction j as [|j IH]; intros sg r Hh; [constructor|].
  rewrite gloop_S, pyWhile_S, whileFires_S.
  destruct (hoists_value G c cr b sg r cx) as (v & Hs & Hv & Ha); [done..| |].
  { apply (here_ready _ _ _ (mkCtx G D) _ _ _ U); [done|]. intros Hu. by apply HU, N. }
  destruct (Htest r v Hs Hv) as (cb & Et & Hst). rewrite (cond_eval r test cb) by (done || apply Hh).
  unfold allows in Ha. rewrite Ha. cbn [mbind option_bind withVal whenVal]. rewrite Et. destruct cb.
  - apply (sim_turn (mkCtx G D) (mkCtx G D) k1 sg b b' b' U r (blockFires callee n body sg) _ _ _ []
      (blockWrites body)); try done.
    + by apply Hbody, here_push.
    + by intros ->.
    + intros r' sg' Hp Hh' _. eapply turn_next; [exact Hp|by apply IH].
    + intros r' sg' Hh'. by eapply here_later.
  - constructor; [|by eapply here_later]. pose proof (hr_ne _ _ _ _ _ _ _ _ Hh).
    destruct r; [done|apply grows_refl].
Qed.

Lemma soundS_while G D c cr body k1 :
  ety sigs G c cr -> truthy cr = true -> hoistsNothing c -> stys (mkCtx G D) body k1 ->
  soundB (mkCtx G D) body k1 -> soundS (mkCtx G D) (While c body) (mkCtx G D).
Proof.
  intros Hc Ht Hhn Hty Hbody b Hb Hp.
  destruct (expr_sound callee sigs h args _ _ _ b Hc Hb) as (cx & b0 & P & E1 & N & _ & _).
  destruct (Hhn b) as [p Eh]. rewrite Eh in E1. simplify_eq. rename b0 into b.
  destruct (truthy_stable cx cr b Ht) as (test & E2 & Htest).
  destruct (Hbody b Hb Hp) as (T & b2 & E3 & N2 & S2).
  exists [GFor None (Some test) None T], b2. split_and!.
  - cbn [lowerStmt]. erewrite ebind_inl by exact Eh. cbn beta iota.
    erewrite ebind_inl by exact E2. erewrite ebind_inl by apply flush_eq. rewrite cleared_id by done.
    erewrite ebind_inl by (rewrite lower_walk; exact E3). by rewrite Hp.
  - done.
  - intros n U sg r HU Hh. rewrite execs_one, exec_while. cbn [PySem.pyExec stmtFires].
    erewrite pyWhile_ext by (intros; apply py_walk).
    erewrite whileFires_ext by (intros; apply fires_walk_block).
    eapply (sim_pop _ _ _ _ (mkCtx G D) (mkCtx G D)); [exact Hh|exact N2|done| |apply Hh|].
    + intros x q Hx. split; [done|]. exists q. eapply lookup_weaken; [exact Hx|apply Hh].
    + eapply while_loop; eauto using here_push.
      * apply (proj2 (next_all sigs h rt) _ _ _ Hty). apply Hh.
      * apply (proj2 (keeps_all) _ _ _ Hty).
Qed.

(** ** Counted loops *)

(** The bound is a literal or a local the loop leaves alone: the same value
    before every turn, on both sides. *)
Lemma bound_stable G x body stop :
  stableBound G x body stop -> exists ex er,
    (forall b, lowerExpr stop b = inl ((ex, er), b)) /\
    (forall sg r, agree G sg r -> exists e, in64 e = true /\ pyEval sg stop = Some (PRet (VInt e))) /\
    (forall sg sg', (forall y, y ∉ blockWrites body -> y <> x -> sg' !! y = sg !! y) ->
      pyEval sg' stop = pyEval sg stop) /\
    (forall sg r e, agree G sg r -> outside_free r -> pyEval sg stop = Some (PRet (VInt e)) ->
      eval r ex = Some (VInt e)).
Proof.
  destruct 1 as [z Hz|y rp Hy Hr Hne Hw].
  - exists (intLit z), intRepr. split_and!; [done|by eauto|done|]. intros sg r e _ _ E. simpl in *. by simplify_eq.
  - exists (ident y), rp. apply isScalar_true in Hr. split_and!; [done| | |].
    + intros sg r Ha. destruct (Ha y rp Hy) as (v & Hs & _ & Hv).
      rewrite (hasRepr_scalar rp v SInt) in Hv by done. destruct v; try done. simpl. rewrite Hs. eauto.
    + intros sg sg' Hk. simpl. by rewrite Hk.
    + intros sg r e Ha _ E. destruct (Ha y rp Hy) as (v & Hs & Hl & _). simpl in *. rewrite Hs in E.
      simpl in E. simplify_eq. unfold resolve. by rewrite Hl.
Qed.

Lemma agree_without G x rp v sg r :
  G !! x = None -> agree (<[x := rp]> G) (<[x := v]> sg) r -> agree G sg r.
Proof.
  intros Hx Ha y q Hy. assert (x <> y) by congruence. destruct (Ha y q) as (w & Hs & ? & ?).
  { by rewrite lookup_insert_ne. }
  rewrite lookup_insert_ne in Hs by done. eauto.
Qed.

Lemma count_cond r x i e ex (down : bool) :
  glookup x r = Some (VInt i) -> eval r ex = Some (VInt e) ->
  evalCond (binary (if down then GTR else LSS) (ident x) ex) r = Some (if down then e <? i else i <? e).
Proof.
  intros Hx He. unfold evalCond, binary, ident. destruct down; cbn [eval]; unfold resolve;
    rewrite Hx, He; simpl; [|done]. by rewrite Z.ltb_antisym.
Qed.

(** Counting by one from a bounded index does not overflow. *)
Lemma count_step n x i r (down : bool) e :
  glookup x r = Some (VInt i) -> in64 i = true -> in64 e = true ->
  (if down then e <? i else i <? e) = true ->
  let i' := if down then i - 1 else i + 1 in
  in64 i' = true /\
  exec n (GIncDec (ident x) (if down then DEC else INC)) r = GNorm <$> gassign x (VInt i') r.
Proof.
  intros Hx Hi He Hc i'. assert (in64 i' = true) as Hi'.
  { subst i'. apply in64_spec in Hi, He. apply in64_spec. destruct down; apply Z.ltb_lt in Hc; lia. }
  split; [done|]. cbn [GoSem.exec]. unfold execIncDec, ident. rewrite Hx.
  subst i'. destruct down; simpl; rewrite wrap64_small; try done; by destruct (gassign _ _ _).
Qed.

Lemma count_loop G D x stop ex er (down : bool) e body k1 T b b' U n j i sg r :
  let kx := mkCtx (<[x := intRepr]> G) (<[x := intRepr]> D) in
  let k0 := mkCtx G (<[x := intRepr]> D) in
  stableBound G x body stop -> lowerExpr stop b = inl ((ex, er), b) ->
  G !! x = None -> wfctx k0 -> bnext b b' [] -> assigned kx ⊆ assigned k1 -> x ∉ blockWrites body ->
  (forall sg, keeps (blockWrites body) sg (pyExecs n body sg)) ->
  (forall sg r, here kx sg b U r ->
    sim (assigned kx) k1 b' U r (blockFires callee n body sg) (execs n T r) (pyExecs n body sg)) ->
  in64 e = true -> in64 i = true -> pyEval sg stop = Some (PRet (VInt e)) ->
  here kx (<[x := VInt i]> sg) b U r ->
  sim G k0 b' U r
    (countFires j x down (pyExecs n body) (blockFires callee n body) i e sg)
    (gloop j (evalCond (binary (if down then GTR else LSS) (ident x) ex))
      (fun r => gpop <$> execs n T (∅ :: r)) (exec n (GIncDec (ident x) (if down then DEC else INC))) r)
    (pyCount j x down (pyExecs n body) i e sg).
Proof.
  intros kx k0 Hst El Hxg Hw0 N Hsub Hxw Hkp Hbody He.
  destruct (bound_stable _ _ _ _ Hst) as (ex' & er' & El' & _ & Hfr & Hev).
  rewrite El' in El. simplify_eq. clear El'. revert i sg r.
  induction j as [|j IH]; intros i sg r Hi Est Hh; [constructor|].
  rewrite gloop_S, pyCount_S, countFires_S.
  assert (forall sg' r', here kx sg' b U r' -> here k0 sg' b' U r') as Hexit.
  { intros sg' r' Hh'. apply (here_doms _ _ _ kx k0 sg' sg' b b' U r' r' []); try done; [apply Hh'|].
    apply (agree_sub _ (<[x := intRepr]> G)); [by apply insert_subseteq|apply Hh']. }
  assert (agree G sg r) as HaG by (eapply agree_without; [done|apply Hh]).
  destruct (hr_agree _ _ _ _ _ _ _ _ Hh x intRepr (lookup_insert_eq _ _ _)) as (vx & Hsx & Hlx & _).
  rewrite lookup_insert_eq in Hsx. simplify_eq.
  rewrite (count_cond r x i e); [|done|by eapply Hev; [|apply Hh|]]. cbn [mbind option_bind].
  destruct (if down then e <? i else i <? e) eqn:Hc.
  - apply (sim_turn kx k0 k1 (<[x := VInt i]> sg) b b' b' U r
      (blockFires callee n body (<[x := VInt i]> sg)) _ _ _ [] (blockWrites body)); try done.
    + by apply Hbody, here_push.
    + by intros ->.
    + intros r' sg' Hp Hh' Hk.
      destruct (hr_agree _ _ _ _ _ _ _ _ Hh' x intRepr (lookup_insert_eq _ _ _)) as (vx & Hsx & Hlx' & _).
      rewrite Hk, lookup_insert_eq in Hsx by done. simplify_eq.
      destruct (count_step n x i r' down e Hlx' Hi He Hc) as [Hi' ->].
      destruct (here_set _ _ _ _ _ _ _ _ _ x intRepr (VInt (if down then i - 1 else i + 1)) Hh'
        (lookup_insert_eq _ _ _) Hi') as (r2 & Eg & Hd & Hh2).
      rewrite Eg. cbn [mbind option_bind fmap option_fmap option_map].
      rewrite (insert_id (<[x := intRepr]> G)) in Hh2 by apply lookup_insert_eq.
      eapply turn_next; [exact Hp|]. eapply (sim_start _ _ _ _ G G _ _ _ _ r2); [|done|done|].
      { pose proof (hr_ne _ _ _ _ _ _ _ _ Hh'). destruct r'; [done|]. by apply grows_same_doms. }
      apply IH; [done| |done]. rewrite <- Est. apply Hfr. intros y Hy Hyx. rewrite Hk by done.
      by rewrite lookup_insert_ne.
    + intros r' sg' Hh'. by apply Hexit.
  - constructor; [pose proof (hr_ne _ _ _ _ _ _ _ _ Hh); destruct r; [done|apply grows_refl]|].
    apply (here_doms _ _ _ kx k0 (<[x := VInt i]> sg) sg b b' U r r []); try done. apply Hh.
Qed.

Lemma count_lower x start sx sr stop ex er down body b b1 T b2 :
  lowerExpr start b = inl ((sx, sr), b1) -> (forall b, lowerExpr stop b = inl ((ex, er), b)) ->
  lowerBlock body (cleared b1) = inl (T, b2) ->
  lowerStmt (ForCount x start stop down body None) b =
  inl (pre b1 ++ [GFor (Some (define x (pinInt sx sr)))
    (Some (binary (if down then GTR else LSS) (ident x) ex))
    (Some (GIncDec (ident x) (if down then DEC else INC))) T], b2).
Proof.
  intros E1 E2 E3. cbn [lowerStmt]. erewrite ebind_inl by exact E1. cbn beta iota.
  erewrite ebind_inl by apply E2. cbn beta iota. erewrite ebind_inl by apply flush_eq.
  erewrite ebind_inl by done. erewrite ebind_inl by (rewrite lower_walk; exact E3). done.
Qed.

Lemma soundS_count G D x start sr stop down body k1 :
  let kx := mkCtx (<[x := intRepr]> G) (<[x := intRepr]> D) in
  ety sigs G start sr -> isScalar SInt sr = true -> stableBound G x body stop ->
  localName x -> D !! x = None -> x ∉ blockWrites body -> stys kx body k1 -> soundB kx body k1 ->
  soundS (mkCtx G D) (ForCount x start stop down body None) (mkCtx G D).
Proof.
  intros kx Hs Hsi Hst Hn Hx Hxw Hty Hbody b Hb Hp.
  destruct (expr_sound callee sigs h args _ _ _ b Hs Hb) as (sx & b1 & P & E1 & N & _ & R).
  destruct (cleared_next _ _ _ N Hp) as [N' HP].
  pose proof (bok_cleared _ _ _ (bnext_ok _ _ _ _ _ N Hb)) as Hb1.
  destruct (bound_stable _ _ _ _ Hst) as (ex & er & El & Hval & _).
  destruct (Hbody _ Hb1 eq_refl) as (T & b2 & E3 & N2 & S2).
  eexists _, b2. split_and!; [by apply (count_lower x start sx sr stop ex er)|
    by apply (bnext_trans _ (cleared b1) _ [] [])|].
  intros n U sg r HU Hh. cbn [PySem.pyExec stmtFires]. rewrite HP.
  eapply sim_expr; [done|apply R|by intros ->|].
  { apply (here_ready _ _ _ (mkCtx G D) _ _ _ U); [done|]. intros Hu. by apply HU, N2. }
  intros r1 v Ev Hh1 Hs1 Hv. apply here_cleared in Hh1. apply isScalar_true in Hsi.
  destruct (Hval sg r1) as (e & He & Est); [apply Hh1|]. rewrite Est. cbn [withVal].
  pose proof Hv as Hv'. rewrite (hasRepr_scalar sr v SInt) in Hv' by done. destruct v as [i| | | | | | |]; try done.
  destruct (here_def _ _ _ _ _ _ _ _ _ _ x intRepr (VInt i) (here_push _ _ _ _ _ _ _ _ Hh1) Hn Hx Hv')
    as [Hh2 _].
  pose proof (proj2 (next_all sigs h rt) _ _ _ Hty (hr_wf _ _ _ _ _ _ _ _ Hh2)) as (_ & Hsub & _).
  rewrite execs_one. erewrite exec_for.
  2:{ apply (define_exec callee n x _ (VInt i) ∅ r1).
      - by eapply local_not_blank.
      - by apply (hr_shape _ _ _ _ _ _ _ _ Hh1).
      - eapply stable_here; [apply push_outside, Hh1|]. apply stable_push.
        by apply (pinBy_stable sigs h _ true). }
  erewrite pyCount_ext by (intros; apply py_walk). rewrite Ev. cbn [whenVal].
  erewrite countFires_ext by (intros; apply fires_walk_block).
  assert (wfctx (mkCtx G (<[x := intRepr]> D))) as Hw0 by (eapply next_decl; [done|done|apply Hh1]).
  eapply (sim_pop _ _ _ _ (mkCtx G D) (mkCtx G (<[x := intRepr]> D))); [exact Hh1|exact N2|done| |apply Hh1|].
  - intros y q Hy. split; [done|]. exists q. eapply lookup_weaken; [exact Hy|apply Hh1].
  - eapply (sim_start _ _ _ _ G G _ _ _ _ (<[x := VInt i]> ∅ :: r1)); [by apply grows_insert,
      (hr_shape _ _ _ _ _ _ _ _ Hh1)|done|intros Hf; apply orb_true_iff; right; exact Hf|].
    eapply (count_loop G D x stop ex er down e body k1 T (cleared b1)); try done.
    + eapply wf_free; [apply Hh1|done].
    + apply (proj2 keeps_all _ _ _ Hty).
    + intros sg' r' Hh'. by apply S2.
Qed.

(** ** Blocks *)

Lemma soundB_nil k : soundB k [] k.
Proof.
  intros b Hb Hp. exists [], b. split_and!; [done|apply bnext_refl|]. intros n U sg r HU Hh.
  constructor; [|done]. pose proof (hr_ne _ _ _ _ _ _ _ _ Hh). destruct r; [done|apply grows_refl].
Qed.

Lemma soundB_cons k1 k2 k3 s l :
  (wfctx k1 -> assigned k1 ⊆ assigned k2) -> soundS k1 s k2 -> soundB k2 l k3 -> soundB k1 (s :: l) k3.
Proof.
  intros Hsub Hs Hl b Hb Hp. destruct (Hs b Hb Hp) as (ss & b1 & E1 & N1 & S1).
  assert (pre b1 = []) as Hp1 by (by rewrite (bn_pre _ _ _ N1), Hp).
  destruct (Hl b1 (bnext_ok _ _ _ _ _ N1 Hb) Hp1) as (ls & b2 & E2 & N2 & S2).
  exists (ss ++ ls), b2. split_and!.
  - cbn [lowerBlock]. unfold ebind. by rewrite E1, E2.
  - by apply (bnext_trans _ b1 _ [] []).
  - intros n U sg r HU Hh. rewrite execs_app_seq, pyExecs_seq.
    eapply sim_seq; [apply S1; [|done]|apply Hsub, Hh|by cbn [blockFires]; intros ->|].
    + intros Hu. by apply HU, N2.
    + intros r' sg' Hp' Hh'. cbn [blockFires].
      pose proof (S2 n U sg' r' HU Hh') as Hs2. destruct Hs2; econstructor; eauto.
      apply orb_true_iff. right. by rewrite Hp'.
Qed.

Lemma block_sound_all :
  (forall k s k', sty k s k' -> soundS k s k') /\ (forall k l k', stys k l k' -> soundB k l k').
Proof.
  apply sty_stys_ind.
  - intros. by apply soundS_define.
  - intros. by eapply soundS_assign.
  - intros. by apply soundS_decl.
  - intros. by apply soundS_bindDef.
  - intros. by eapply soundS_bindSet.
  - intros G D x op r r' v Hop Hg Hd Hv Hs. destruct (isScalar SFloat r) eqn:Hf;
      [by eapply soundS_augFloat|by eapply soundS_augInt].
  - intros. by eapply soundS_discard.
  - intros. by eapply soundS_return.
  - intros. by eapply soundS_while.
  - intros. by eapply soundS_count.
  - intros. apply soundS_break.
  - intros. apply soundS_continue.
  - intros G D c cr thn els G1 D1 G2 D2 G' Hc Ht Ht1 H1 Ht2 H2 Hs HG.
    eapply soundS_if; [done..|]. intros Hw.
    apply (proj1 (next_all sigs h rt) (mkCtx G D) (If c thn els) (mkCtx G' D)); [|done].
    by eapply SIf.
  - apply soundB_nil.
  - intros k1 k2 k3 s l Hs H1 Hl H2. eapply soundB_cons; [|done|done]. intros Hw.
    by apply (proj1 (next_all sigs h rt) _ _ _ Hs).
Qed.
End Loops.
