(* ===== verification/EmitKindStmts.v ===== *)
(** * EmitKindStmts: blocks keep the kinds of their locals

    Subject reduction for the statements of the emit model: Python's run of a
    well-typed block leaves every local the typing calls assigned with a value
    of its kind, on every way out of the block, and returns a value of the
    result's kind. *)

From S2P Require Import Prelude Int64 StaticOps GoSem Emit IrCost PySem EmitTyping EmitEnv EmitExpr EmitOps EmitSound EmitStmt EmitBlock EmitLoops EmitTypes EmitKinds.
Local Open Scope Z_scope.

Section Stmts.
Context (callee : string -> list value -> value + pyexc).
Context (sigs : string -> option (list Repr * Repr)) (h : string) (rt : Repr).
Context `{!KindProgram callee sigs}.
Local Notation pyEval := (pyEval callee).
Local Notation pyEvals := (pyEvals callee).
Local Notation pyExec := (pyExec callee).
Local Notation pyExecs := (pyExecs callee).
Local Notation wfctx := (wfctx sigs h).

Definition kindRes (G : gmap string Repr) (k : ctx) (p : option pres) : Prop :=
  match p with
  | Some (PNorm sg) => kindEnv (assigned k) sg
  | Some (PBrk sg | PCnt sg) => kindEnv G sg
  | Some (PDone v) => hasKind rt v = true
  | _ => True
  end.

Lemma kindRes_sub G G' k k' p :
  kindRes G k p -> G' ⊆ G -> assigned k' ⊆ assigned k -> kindRes G' k' p.
Proof. intros Hp HG Hk. destruct p as [[]|]; try done; cbn in *; by eapply kindEnv_sub. Qed.

Lemma kindRes_withVal G k e r sg f :
  ety sigs G e r -> kindEnv G sg ->
  (forall v, pyEval sg e = Some (PRet v) -> hasKind r v = true -> kindRes G k (f v)) ->
  kindRes G k (withVal (pyEval sg e) f).
Proof.
  intros He Hsg Hf. pose proof (ety_kind callee sigs G e r sg He Hsg) as Hk.
  destruct (pyEval sg e) as [[v| |]|]; try done. by apply Hf.
Qed.

Lemma kinds_list G es rs sg k v :
  etys sigs G es rs -> kindEnv G sg -> pyEvals sg es k = Some (PRet v) ->
  exists vs, Forall2 (fun r v => hasKind r v = true) rs vs /\ k vs = Some (PRet v).
Proof.
  intros He Hsg. revert k. induction He as [|e r es rs He Hes IH]; intros k Hv.
  - by exists [].
  - cbn [PySem.pyEvals] in Hv. pose proof (ety_kind callee sigs G e r sg He Hsg) as Hk.
    destruct (pyEval sg e) as [[w| |]|]; try done. cbn [pbind] in Hv.
    destruct (IH _ Hv) as (vs & HV & E). exists (w :: vs). split; [by constructor|done].
Qed.

Lemma kindRes_withVals G k es rs sg f :
  etys sigs G es rs -> kindEnv G sg ->
  (forall vs, Forall2 (fun r v => hasKind r v = true) rs vs -> kindRes G k (f vs)) ->
  kindRes G k (withVals callee sg es f).
Proof.
  intros He Hsg Hf. unfold withVals.
  destruct (pyEvals sg es _) as [[v| |]|] eqn:E; try done.
  destruct (kinds_list G es rs sg _ v He Hsg E) as (vs & HV & Ev). simplify_eq. by apply Hf.
Qed.

Lemma kindEnv_binds G sg xs rs vs :
  kindEnv G sg -> Forall2 (fun r v => hasKind r v = true) rs vs ->
  kindEnv (insertAll xs rs G) (pyBind xs vs sg).
Proof.
  revert G sg rs vs. induction xs as [|x xs IH]; intros G sg rs vs Hsg HV; [done|].
  destruct HV as [|r v rs vs Hv HV]; [done|]. cbn [insertAll pyBind]. apply IH; [|done].
  by apply kindEnv_insert.
Qed.

Definition keepsKinds (k : ctx) (run : nat -> gmap string value -> option pres) (k' : ctx) : Prop :=
  wfctx k -> forall n sg, kindEnv (assigned k) sg -> kindRes (assigned k) k' (run n sg).

Lemma kinds_while G D n j c cr body k sg :
  ety sigs G c cr -> truthy cr = true -> wfctx (mkCtx G D) -> G ⊆ assigned k ->
  keepsKinds (mkCtx G D) (fun n => pyExecs n body) k -> kindEnv G sg ->
  kindRes G (mkCtx G D) (pyWhile j (fun sg => pyEval sg c) (pyExecs n body) sg).
Proof.
  intros Hc Ht Hw Hs Hb. revert sg. induction j as [|j IH]; intros sg Hsg; [done|].
  rewrite pyWhile_S. eapply kindRes_withVal; [done|done|]. intros v _ Hv.
  destruct (truth_kind cr v Ht Hv) as [[] ->]; [|done]. specialize (Hb Hw n sg Hsg).
  destruct (pyExecs n body sg) as [[]|]; try done; cbn [pturn]; try by apply IH.
  apply IH. by eapply kindEnv_sub.
Qed.

Lemma kinds_count G D n j x down body k i stop sg :
  wfctx (mkCtx (<[x := intRepr]> G) (<[x := intRepr]> D)) -> D !! x = None -> G !! x = None ->
  <[x := intRepr]> G ⊆ assigned k ->
  keepsKinds (mkCtx (<[x := intRepr]> G) (<[x := intRepr]> D)) (fun n => pyExecs n body) k ->
  kindEnv G sg -> kindRes G (mkCtx G D) (pyCount j x down (pyExecs n body) i stop sg).
Proof.
  intros Hw Hx Hgx Hs Hb. revert i sg. induction j as [|j IH]; intros i sg Hsg; [done|].
  rewrite pyCount_S. destruct (if down then _ else _); [|done].
  assert (G ⊆ <[x := intRepr]> G) as HG by by apply insert_subseteq.
  specialize (Hb Hw n (<[x := VInt i]> sg)). cbn [assigned] in Hb.
  assert (kindEnv (<[x := intRepr]> G) (<[x := VInt i]> sg)) as Hi by by apply kindEnv_insert.
  specialize (Hb Hi). destruct (pyExecs n body _) as [[sg'|sg'|sg'| | |]|]; try done; cbn [pturn kindRes] in *.
  - apply IH. eapply kindEnv_sub; [|exact Hb]. by etrans.
  - by eapply kindEnv_sub.
  - apply IH. by eapply kindEnv_sub.
Qed.

Lemma kinds_seq k1 k2 k3 s l :
  wfctx k1 -> assigned k1 ⊆ assigned k2 -> (wfctx k1 -> wfctx k2) ->
  keepsKinds k1 (fun n => pyExec n s) k2 -> keepsKinds k2 (fun n => pyExecs n l) k3 ->
  keepsKinds k1 (fun n => pyExecs n (s :: l)) k3.
Proof.
  intros Hw Hs Hw2 H1 H2 _ n sg Hsg. cbn [PySem.pyExecs]. specialize (H1 Hw n sg Hsg).
  destruct (pyExec n s sg) as [[sg'| | | | |]|]; try done. cbn [kindRes] in H1.
  by eapply kindRes_sub; [apply (H2 (Hw2 Hw) n sg' H1)|..].
Qed.

Lemma kinds_block :
  (forall k s k', sty sigs h rt k s k' -> keepsKinds k (fun n => pyExec n s) k') /\
  (forall k l k', stys sigs h rt k l k' -> keepsKinds k (fun n => pyExecs n l) k').
Proof.
  apply sty_stys_ind.
  - intros G D x v r Hv Hn Hx Hw n sg Hsg. cbn [PySem.pyExec]. eapply kindRes_withVal; [done|done|].
    intros w _ Hk. by apply kindEnv_insert.
  - intros G D x v r r' Hv Hx Hr Hw n sg Hsg. cbn [PySem.pyExec]. eapply kindRes_withVal; [done|done|].
    intros w _ Hk. apply kindEnv_insert; [done|]. by rewrite <- (hasKind_same r' r).
  - intros G D x r _ _ Hw n sg Hsg. done.
  - intros G D xs vs rs Hv _ _ _ _ Hw n sg Hsg. cbn [PySem.pyExec]. eapply kindRes_withVals; [done|done|].
    intros ws HV. by apply kindEnv_binds.
  - intros G D xs vs rs rs' Hv _ Hr _ Hw n sg Hsg. cbn [PySem.pyExec]. eapply kindRes_withVals; [done|done|].
    intros ws HV. apply kindEnv_binds; [done|]. by eapply hasKind_sames.
  - intros G D x op r r' v _ Hx Hd Hv Hr Hw n sg Hsg. cbn [PySem.pyExec].
    eapply kindRes_withVal; [done|done|]. intros w _ Hk. cbn [kindRes assigned].
    rewrite <- (insert_id G x r Hx). apply kindEnv_insert; [done|]. by rewrite <- (hasKind_same r' r).
  - intros G D v r Hv Hw n sg Hsg. cbn [PySem.pyExec]. by eapply kindRes_withVal.
  - intros G D v r Hv Hr Hw n sg Hsg. cbn [PySem.pyExec]. eapply kindRes_withVal; [done|done|].
    intros w _ Hk. cbn. by rewrite <- (hasKind_same r rt).
  - intros G D c cr body k Hc Ht _ Hb IH Hw n sg Hsg. cbn [PySem.pyExec].
    erewrite pyWhile_ext by (intros; apply py_walk). eapply kinds_while; eauto.
    apply (proj2 (next_all sigs h rt) _ _ _ Hb). done.
  - intros G D x start sr stop down body k Hst Hsr Hbd Hn Hx _ Hb IH Hw n sg Hsg. cbn [PySem.pyExec].
    pose proof (wf_free sigs h G D x Hw Hx) as Hgx. destruct (next_def sigs h G D x intRepr Hn Hx Hw) as (Hw' & _).
    destruct (proj2 (next_all sigs h rt) _ _ _ Hb Hw') as (_ & Hsub & _).
    eapply kindRes_withVal; [done|done|]. intros i _ Hi.
    assert (exists br, ety sigs G stop br) as [br Hbr].
    { destruct Hbd; eexists; by constructor. }
    eapply kindRes_withVal; [done|done|]. intros j _ Hj. destruct i, j; try done.
    erewrite pyCount_ext by (intros; apply py_walk). by eapply kinds_count.
  - by intros G D Hw n sg Hsg.
  - by intros G D Hw n sg Hsg.
  - intros G D c cr thn els G1 D1 G2 D2 G' Hc Ht H1 IH1 H2 IH2 Hsub HG' Hw n sg Hsg. cbn [PySem.pyExec].
    eapply kindRes_withVal; [done|done|]. intros v _ Hv. destruct (truth_kind cr v Ht Hv) as [b ->].
    assert (G' ⊆ G1 /\ G' ⊆ G2) as [Hg1 Hg2].
    { split; apply map_subseteq_spec; intros x q Hx; by destruct (HG' x q Hx) as (? & ? & _). }
    destruct b; rewrite py_walk; [specialize (IH1 Hw n sg Hsg)|specialize (IH2 Hw n sg Hsg)];
      by eapply kindRes_sub.
  - intros k Hw n sg Hsg. done.
  - intros k1 k2 k3 s l Hs H1 Hl H2 Hw. destruct (proj1 (next_all sigs h rt) _ _ _ Hs Hw) as (Hw2 & Hsub & _).
    by apply (kinds_seq k1 k2 k3).
Qed.
End Stmts.
