(* ===== verification/EmitCorrect.v ===== *)
(** * EmitCorrect: emitted functions follow Python

    The entry of an emitted function (parameters, snapshots, binding guards)
    put in front of the block theorem of [EmitLoops]: what a whole emitted
    function computes, for every function the typing of [EmitTyping] accepts. *)

From S2P Require Import Prelude Int64 StaticOps GoSem Emit IrCost PySem EmitTyping EmitEnv EmitExpr EmitOps EmitSound EmitStmt EmitBlock EmitLoops.
Local Open Scope Z_scope.
Local Open Scope emit_scope.

(** The outcome of the emitted function against Python's run of its body: the
    same result, or the deopt handler called with the entry arguments, and that
    that only where [d], some guard fires in Python's run.  The error channel carries
    Python's exception.  A negative power of ints ([POpen]) is a float, and
    only the handler may be called. *)
Definition follows (h : string) (args : list value) (d : bool) (g : option gres) (p : option pres) : Prop :=
  d = true /\ g = Some (GTail h args) \/
  match p with
  | Some (PDone v) => g = Some (GRet [v; VNil])
  | Some (PExc x) => exists z, g = Some (GRet [z; VErr x])
  | Some POpen => False
  | Some (PNorm _) => exists r, g = Some (GNorm r)
  | Some (PBrk _) => exists r, g = Some (GBrk r)
  | Some (PCnt _) => exists r, g = Some (GCnt r)
  | None => g = None
  end.

(** Every name the module binds and the function calls is as the function was
    compiled against. *)
Definition versionsOK (globals : gmap string value) (gs : list BindingGuard) : bool :=
  forallb (fun g => match globals !! VerVar g with Some (VInt z) => z =? Version g | _ => false end) gs.

(** The context at entry: the parameters, and the package's version counters. *)
Definition entryCtx (f : Func) (globals : gmap string value) : ctx :=
  mkCtx (insertAll (map pName (Params f)) (map pRepr (Params f)) ∅)
        (insertAll (map pName (Params f)) (map pRepr (Params f)) ((fun _ => intRepr) <$> globals)).

Section Correct.
Context (callee : string -> list value -> value + pyexc).
Context (sigs : string -> option (list Repr * Repr)) (h : string) (args : list value).
Context `{!Program callee sigs h}.

Local Notation execs := (execs callee).
Local Notation exec := (exec callee).
Local Notation outside_free := (outside_free sigs h).
Local Notation bok := (bok h args).
Local Notation snap := (snap args).
Local Notation pyExecs := (pyExecs callee).
Local Notation localName := (localName sigs h).
Local Notation here := (here sigs h args).

Lemma sim_follows rt G k b U r d g p : sim sigs h args rt G k b U r d g p -> follows h args d g p.
Proof. unfold follows. destruct 1; simpl; eauto. Qed.

(** ** Parameters and snapshots *)

Lemma gbindAll_other xs vs f f' y : gbindAll xs vs f = Some f' -> y ∉ xs -> f' !! y = f !! y.
Proof.
  revert vs f. induction xs as [|x xs IH]; intros [|v vs] f E Hy; simpl in E; simplify_eq; [done|].
  rewrite (IH _ _ E) by set_solver. destruct (String.eqb x "_"); [done|].
  rewrite lookup_insert_ne; [done|set_solver].
Qed.

Lemma deoptParam_notin i k m : (i < k)%nat -> deoptParam i ∉ map deoptParam (seq k m).
Proof.
  intros Hi Hin. apply list_elem_of_In, in_map_iff in Hin as (j & Ej & Hj).
  apply deoptParam_inj in Ej. apply in_seq in Hj. lia.
Qed.

Lemma gbindAll_snapshot k l f :
  exists f', gbindAll (map deoptParam (seq k (length l))) l f = Some f' /\
    forall i v, l !! i = Some v -> f' !! deoptParam (k + i) = Some v.
Proof.
  revert k f. induction l as [|v l IH]; intros k f; [by exists f|]. cbn [length seq map gbindAll].
  rewrite (proj2 (String.eqb_neq (deoptParam k) "_")) by (apply gen_ne_blank, (generated_names k)).
  destruct (IH (S k) (<[deoptParam k := v]> f)) as (f' & E & Hl). exists f'. split; [done|].
  intros [|i] w Hi; simpl in Hi; simplify_eq.
  - rewrite Nat.add_0_r, (gbindAll_other _ _ _ _ _ E) by (apply deoptParam_notin; lia).
    apply lookup_insert_eq.
  - rewrite <- Nat.add_succ_comm. by apply Hl.
Qed.

(** The snapshot statement, in an environment without generated names. *)
Lemma snapshot_exec n ps f t :
  Forall2 (fun p a => f !! pName p = Some a) ps args -> ps <> [] ->
  (forall i, glookup (deoptParam i) (f :: t) = None) ->
  exists f', exec n (snapshot ps) (f :: t) = Some (GNorm (f' :: t)) /\
    extends (f :: t) (f' :: t) /\ snap (f' :: t) /\
    (forall y, (forall i, y <> deoptParam i) -> f' !! y = f !! y).
Proof.
  intros Hps Hne Hfree. unfold snapshot. pose proof (Forall2_length _ _ _ Hps) as Hlen.
  destruct (gbindAll_snapshot 0 args f) as (f' & E & Hl).
  assert (forall y, (forall i, y <> deoptParam i) -> f' !! y = f !! y) as Hother.
  { intros y Hy. apply (gbindAll_other _ _ _ _ _ E). intros Hin.
    apply list_elem_of_In, in_map_iff in Hin as (j & <- & _). by apply (Hy j). }
  assert (evals (f :: t) (map (fun p => ident (pName p)) ps) = Some args) as Ev.
  { clear -Hps. induction Hps as [|p a ps args Hp Hps IH]; [done|]. simpl. unfold resolve. simpl.
    by rewrite Hp, IH. }
  exists f'. split; [|split; [split; [done|split]|split; [|done]]].
  - rewrite <- (map_map deoptParam ident), (assign_exec callee n _ DEFINE _ args);
      [|by rewrite !length_map, length_seq|by left|done].
    unfold bindTok, gdefine. rewrite Hlen, E.
    destruct args as [|a l]; [by destruct ps|]. simpl. unfold fresh at 1.
    rewrite (proj2 (String.eqb_neq (deoptParam 0) "_")) by done. simpl.
    specialize (Hfree 0%nat). simpl in Hfree. destruct (f !! deoptParam 0) eqn:E0; [done|].
    by rewrite bool_decide_true.
  - intros y v Hy. rewrite Hother; [done|]. intros i ->. specialize (Hfree i). simpl in Hfree.
    by rewrite Hy in Hfree.
  - intros y Hy Hy'. destruct (decide (Exists (fun i => y = deoptParam i) (seq 0 (length args)))) as [Hex|Hex].
    + apply Exists_exists in Hex as (i & _ & ->). split; [apply (generated_names i)|].
      specialize (Hfree i). simpl in Hfree. by rewrite Hy in Hfree.
    + exfalso. apply Hy'. rewrite (gbindAll_other _ _ _ _ _ E); [done|]. intros Hin.
      apply Hex, Exists_exists. apply list_elem_of_In, in_map_iff in Hin as (j & <- & Hj).
      exists j. by rewrite list_elem_of_In.
  - intros i v Hi. pose proof (Hl i v Hi) as Hv. simpl in *. by rewrite Hv.
Qed.

(** ** Binding guards *)

Lemma entryGuards_spec gs b :
  bok b -> exists ss b', entryGuards gs b = inl (ss, b') /\
    (deoptUsed b = true \/ gs <> [] -> deoptUsed b' = true) /\
    forall n globals f r, r = [f; globals] -> outside_free r -> (gs <> [] -> snap r) ->
      (forall g, In g gs -> f !! VerVar g = None /\ exists z, globals !! VerVar g = Some (VInt z)) ->
      execs n ss r = Some (if versionsOK globals gs then GNorm r else GTail h args).
Proof.
  revert b. induction gs as [|g gs IH]; intros b Hb.
  { exists [], b. split_and!; [done|naive_solver|done]. }
  assert (bok (used b)) as Hb' by (destruct Hb; by split).
  destruct (IH (used b) Hb') as (ss & b' & E & HU & Hx).
  exists (ifStmt (binary NEQ (ident (VerVar g)) (intLit (Version g))) [edge h b] :: ss), b'. split_and!.
  - simpl. unfold ebind. by rewrite (deoptEdge_spec callee sigs h args b Hb), E.
  - intros _. apply HU. by left.
  - intros n globals f r -> Ho Hs Hg. destruct (Hg g) as (Hf & z & Hz); [by left|].
    rewrite execs_cons, (deopt_if callee sigs h args n _ (negb (z =? Version g)));
      [|done|done|intros _; by apply Hs| ].
    + simpl. rewrite Hz. destruct (z =? Version g); simpl; [|done].
      apply (Hx n globals f); [done|done|intros _; by apply Hs|]. intros g' Hin. apply Hg. by right.
    + simpl. unfold resolve. simpl. rewrite Hf, Hz. done.
Qed.

(** ** The whole function *)

Record callable (f : Func) (globals : gmap string value) : Prop := {
  cl_handler : DeoptHandler f = h;
  cl_globals x : is_Some (globals !! x) -> localName x;
  cl_params : NoDup (map pName (Params f));
  cl_names : Forall (fun x => localName x /\ globals !! x = None) (map pName (Params f));
  cl_args : Forall2 (fun p a => hasRepr (pRepr p) a = true) (Params f) args;
  cl_versions g : In g (BindingGuards f) -> exists z, globals !! VerVar g = Some (VInt z)
}.

(** The environment the body starts in. *)
Lemma entry_here f globals :
  callable f globals -> exists frame,
    gbindAll (map pName (Params f)) args ∅ = Some frame /\
    here (entryCtx f globals) (pyBind (map pName (Params f)) args ∅) (newBuilder f) false [frame; globals].
Proof.
  intros [Hh Hg Hnd Hn Ha _].
  assert (forall x, generated x = true -> globals !! x = None) as Hgen.
  { intros x Hx. destruct (globals !! x) eqn:E; [|done].
    assert (localName x) as Hl by (apply Hg; eauto). apply local_not_generated in Hl. congruence. }
  assert (here (mkCtx ∅ ((fun _ => intRepr) <$> globals)) ∅ (newBuilder f) false [∅; globals]) as H0.
  { split; try done.
    - split; simpl; [apply map_empty_subseteq|]. intros x [r Hx]. apply Hg.
      rewrite lookup_fmap in Hx. by destruct (globals !! x).
    - intros x Hx. simpl. destruct (globals !! x) eqn:E; [|done]. exfalso.
      eapply local_not_outside; [apply Hg; by eauto|done].
    - intros x Hx. simpl. rewrite lookup_empty, lookup_fmap. by destruct (globals !! x).
    - split; intros i _; simpl; rewrite Hgen; try done; apply (generated_names i). }
  destruct (gbindAll_here sigs h args _ _ _ _ _ _ _ (map pName (Params f)) (map pRepr (Params f)) args H0)
    as (frame & E & _ & Hh'); [done|by rewrite !length_map| |by rewrite Forall2_fmap_l|by exists frame].
  eapply Forall_impl; [exact Hn|]. intros x [Hl Hx]. split; [done|]. by rewrite lookup_fmap, Hx.
Qed.

Lemma gbindAll_params xs vs f f' :
  gbindAll xs vs f = Some f' -> NoDup xs -> Forall (fun x => x <> "_") xs ->
  Forall2 (fun x v => f' !! x = Some v) xs vs.
Proof.
  revert vs f. induction xs as [|x xs IH]; intros [|v vs] f E Hnd Hb; simpl in E; simplify_eq; [done|].
  inversion Hnd; inversion Hb; subst. rewrite (proj2 (String.eqb_neq x "_")) in E by done.
  constructor; [|by eapply IH]. rewrite (gbindAll_other _ _ _ _ _ E) by done. apply lookup_insert_eq.
Qed.

(** The prefix of the body: the snapshot when some edge needs it. *)
Definition prefix (f : Func) (U : bool) : list gstmt :=
  if U && negb (Nat.eqb (length (Params f)) 0) then [snapshot (Params f)] else [].

Lemma entry_ready f globals n U :
  callable f globals -> exists frame frame',
    gbindAll (map pName (Params f)) args ∅ = Some frame /\
    execs n (prefix f U) [frame; globals] = Some (GNorm [frame'; globals]) /\
    here (entryCtx f globals) (pyBind (map pName (Params f)) args ∅) (newBuilder f) U [frame'; globals] /\
    forall y, is_Some (globals !! y) -> frame' !! y = None.
Proof.
  intros Hc. destruct (entry_here f globals Hc) as (frame & E & Hh). exists frame.
  destruct Hc as [Hd Hg Hnd Hn Ha Hv].
  assert (forall y, is_Some (globals !! y) -> frame !! y = None) as Hgf.
  { intros y Hy. rewrite (gbindAll_other _ _ _ _ _ E); [done|]. intros Hin. rewrite Forall_forall in Hn.
    destruct (Hn y Hin) as [_ Hy']. destruct Hy. congruence. }
  assert (forall y, generated y = true -> glookup y [frame; globals] = None) as Hgen.
  { assert (forall y, generated y = true -> localName y -> False) as Hnl.
    { intros y Hy Hl. apply local_not_generated in Hl. congruence. }
    intros y Hy. simpl. rewrite (gbindAll_other _ _ _ _ _ E).
    - rewrite lookup_empty. destruct (globals !! y) eqn:Ey; [|done]. exfalso. eapply Hnl; eauto.
    - intros Hin. rewrite Forall_forall in Hn. destruct (Hn y Hin). eauto. }
  assert (Forall2 (fun p a => frame !! pName p = Some a) (Params f) args) as Hps.
  { apply (Forall2_fmap_l pName (fun x v => frame !! x = Some v)).
    eapply gbindAll_params; [exact E|done|]. eapply Forall_impl; [exact Hn|]. intros x [Hl _]. by eapply local_not_blank. }
  destruct U; [|by exists frame].
  unfold prefix. destruct (Params f) as [|p ps] eqn:Ep; cbn [length Nat.eqb negb andb].
  - exists frame. inversion Hps as [E0|]; subst. split_and!; try done. destruct Hh. split; try done.
  - destruct (snapshot_exec n (p :: ps) frame [globals]) as (frame' & Ex & Hext & Hsn & Hoth).
    { done. } { done. } { intros i. apply Hgen, (generated_names i). }
    exists frame'. split; [done|]. split; [by rewrite execs_one, Ex|]. split.
    + assert (freshB (newBuilder f) [frame'; globals]) as Hfr.
      { split; intros i _; simpl; rewrite Hoth;
          first [apply Hgen, (generated_names i)|intros j; apply names_disjoint]. }
      destruct (here_extends _ _ _ _ _ _ _ _ _ _ Hh Hext Hfr). by split.
    + intros y Hy. rewrite Hoth; [by apply Hgf|]. intros i ->.
      apply Hg in Hy. apply local_not_generated in Hy. destruct (generated_names i) as (_ & _ & _ & Hi). congruence.
Qed.

Lemma emitted f globals k' :
  callable f globals -> stys sigs h (FRet f) (entryCtx f globals) (Body f) k' ->
  exists gf, EmitFunc f = inl gf /\ forall n,
    if versionsOK globals (BindingGuards f) then
      let sg := pyBind (map pName (Params f)) args ∅ in
      follows h args (blockFires callee n (Body f) sg)
        (runFunc callee n globals gf args) (pyExecs n (Body f) sg)
    else runFunc callee n globals gf args = Some (GTail h args).
Proof.
  intros Hc Hty. pose proof Hc as [Hd Hg Hnd Hn Ha Hv].
  assert (bok (newBuilder f)) as Hb.
  { split; try done. simpl. rewrite length_map. by eapply Forall2_length. }
  destruct (proj2 (block_sound_all callee sigs h args (FRet f)) _ _ _ Hty _ Hb eq_refl)
    as (ss & b1 & E1 & N1 & S1).
  destruct (entryGuards_spec (BindingGuards f) b1 (bnext_ok _ _ _ _ _ N1 Hb)) as (gs & b2 & E2 & HU & Hx).
  eexists. split.
  { unfold EmitFunc, ebind. rewrite E1, E2. reflexivity. }
  intros n. unfold runFunc. cbn [gfParams gfBody].
  destruct (entry_ready f globals n (deoptUsed b2) Hc) as (frame & frame' & Eb & Ep & Hh & Hgf).
  rewrite map_map.
  match goal with |- context [gbindAll ?l args ∅] => change l with (map pName (Params f)) end. rewrite Eb. cbn [mbind option_bind].
  match goal with |- context [execs n ?B _] =>
    assert (B = prefix f (deoptUsed b2) ++ gs ++ ss) as -> by (unfold prefix; by destruct (_ && _)) end.
  rewrite !execs_app, Ep, execs_app.
  rewrite (Hx n globals frame' [frame'; globals]); [|done|apply Hh| |].
  - destruct (versionsOK globals (BindingGuards f)); [|done].
    eapply sim_follows, S1; [|exact Hh]. intros Hu. apply HU. by left.
  - intros Hne. apply (hr_snap _ _ _ _ _ _ _ _ Hh). apply HU. by right.
  - intros g Hin. destruct (Hv g Hin) as [z Hz]. split; [apply Hgf; eauto|eauto].
Qed.
End Correct.

(** C2: for every function the typing accepts, every argument list of the
    parameters' representations and every fuel, the code generator succeeds and
    running what it emits gives Python's result or exception, or calls the deopt
    handler with exactly the arguments the function was entered with; the latter
    happens when a name the function was compiled against was rebound, and otherwise
    only if some guard fires in Python's run (an int result beyond int64, a negative
    power, an index outside the list). Fuel runs out on both sides or on neither. An
    int operand of a true division and of a comparison with a float counts as the
    double it rounds to: Python's exact value for an int within 2^53; beyond that
    the emitted comparison can differ from Python's
    ([EmitFacts.mixed_compare_rounds]). *)
Theorem EmitFunc_correct callee sigs h args f globals k' :
  Program callee sigs h -> callable sigs h args f globals ->
  stys sigs h (FRet f) (entryCtx f globals) (Body f) k' ->
  exists gf, EmitFunc f = inl gf /\ forall n,
    if versionsOK globals (BindingGuards f) then
      let sg := pyBind (map pName (Params f)) args ∅ in
      follows h args (blockFires callee n (Body f) sg)
        (runFunc callee n globals gf args) (pyExecs callee n (Body f) sg)
    else runFunc callee n globals gf args = Some (GTail h args).
Proof. intros HP Hc Hty. by eapply emitted. Qed.

(** ** An instance *)

(** [def sumTo(n): s = 0; for i in range(n): s += i; n = s; return n], compiled
    against version 3 of one module binding. *)
Definition sumTo : Func :=
  mkFunc "sumTo" [mkParam "n" intRepr] intRepr
    [Define "s" (Int 0);
     ForCount "i" (Int 0) (Var "n" intRepr) false [AugAssign "s" OpAdd intRepr (Var "i" intRepr)] None;
     Assign "n" (Var "s" intRepr);
     Return (Var "n" intRepr)] "sumTo_boxed" [mkBG "ver_range" 3].

Definition sumGlobals : gmap string value := {["ver_range" := VInt 3]}.
Definition noCallee (_ : string) (_ : list value) : value + pyexc := inr (mkExc "" "").
Definition noSigs (_ : string) : option (list Repr * Repr) := None.

Lemma sum_program : Program noCallee noSigs "sumTo_boxed".
Proof. split; [done|]. by split_and!. Qed.

Lemma sum_callable : callable noSigs "sumTo_boxed" [VInt 10] sumTo sumGlobals.
Proof.
  split; simpl.
  - done.
  - intros x [v Hx]. unfold sumGlobals in Hx. apply lookup_singleton_Some in Hx as [<- _]. by split_and!.
  - apply NoDup_singleton.
  - constructor; [|constructor]. by split_and!.
  - by repeat constructor.
  - intros g [<-|[]]. by exists 3.
Qed.

Lemma sum_typed : exists k', stys noSigs "sumTo_boxed" intRepr (entryCtx sumTo sumGlobals) (Body sumTo) k'.
Proof.
  eexists. simpl. eapply SCons; [by apply SDefine; [constructor|..]|].
  eapply SCons.
  { eapply SForCount; [by constructor|done|by eapply BVar; [..|set_solver]|by split_and!|done|set_solver|].
    eapply SCons; [|apply SNil].
    eapply SAug with (r' := intRepr); [done|done|done| |by split_and!].
    by eapply TBin; [constructor|constructor|..]. }
  eapply SCons; [eapply SAssign; [by constructor|done|by split_and!]|].
  eapply SCons; [|apply SNil]. by eapply SReturn; [constructor|split_and!].
Qed.

Lemma EmitFunc_correct_witness :
  exists k' gf, stys noSigs "sumTo_boxed" intRepr (entryCtx sumTo sumGlobals) (Body sumTo) k' /\
    EmitFunc sumTo = inl gf /\ runFunc noCallee 20 sumGlobals gf [VInt 10] = Some (GRet [VInt 45; VNil]) /\
    forall n, let sg := pyBind ["n"] [VInt 10] ∅ in
      follows "sumTo_boxed" [VInt 10] (blockFires noCallee n (Body sumTo) sg)
        (runFunc noCallee n sumGlobals gf [VInt 10]) (pyExecs noCallee n (Body sumTo) sg).
Proof.
  destruct sum_typed as [k' Hty].
  destruct (EmitFunc_correct noCallee noSigs "sumTo_boxed" [VInt 10] sumTo sumGlobals k'
    sum_program sum_callable Hty) as (gf & E & Hrun).
  exists k', gf. split_and!; [exact Hty|exact E| |exact Hrun].
  vm_compute in E. injection E as <-. vm_compute. reflexivity.
Defined.
