(* ===== verification/Ast.v ===== *)
(** * Ast: the frontend's syntax tree

    The nodes of src/pkg/frontend/ast.go the static tier's bridge looks at.
    Every other expression or statement node is [OtherExpr] or [OtherStmt]
    with the node's Go type; the bridge refuses those and its walks skip
    them.  Source positions are dropped. *)

From S2P Require Import Prelude.
From Stdlib Require Import SpecFloat.

Inductive BinKind :=
  | BinAdd | BinSub | BinMul | BinDiv | BinFloorDiv | BinMod | BinPow
  | BinBitOr | BinBitXor | BinBitAnd | BinLShift | BinRShift | BinMatMul.

Inductive UnaryKind := UnaryNeg | UnaryPos | UnaryNot | UnaryInvert.

Inductive BoolKind := BoolAnd | BoolOr.

Inductive CmpKind :=
  | CmpEq | CmpNe | CmpLt | CmpLe | CmpGt | CmpGe | CmpIn | CmpNotIn | CmpIs | CmpIsNot.

(** One call-site argument: the keyword's name, empty for a positional one;
    0 for a plain argument, 1 for [*], 2 for [**]; the value. *)
Record Arg (E : Type) := mkArg { argName : string; argStar : Z; argValue : E }.
Arguments mkArg {E}.
Arguments argName {E}.
Arguments argStar {E}.
Arguments argValue {E}.

Inductive Expr :=
  | Name (id : string)
  | IntLit (text : string)
  | FloatLit (val : spec_float)
  | StrLit (val : string)
  | BoolLit (val : bool)
  | ListLit (elts : list Expr)
  | TupleLit (elts : list Expr)
  | BinOp (op : BinKind) (left right : Expr)
  | UnaryOp (op : UnaryKind) (x : Expr)
  | BoolOp (kind : BoolKind) (values : list Expr)
  | Compare (left : Expr) (ops : list CmpKind) (rights : list Expr)
  | Call (fn : Expr) (args : list (Arg Expr))
  | Attribute (x : Expr) (name : string)
  | Subscript (x index : Expr)
  | SliceExpr (lo hi step : option Expr)
  | Yield (value : option Expr) (from : bool)
  | OtherExpr (node : string).

Inductive Stmt :=
  | ExprStmt (x : Expr)
  | Assign (targets : list Expr) (value : Expr)
  | AugAssign (target : Expr) (op : BinKind) (value : Expr)
  | AnnAssign (target annotation : Expr) (value : option Expr)
  | If (cond : Expr) (body els : list Stmt)
  | While (cond : Expr) (body els : list Stmt)
  | For (target iter : Expr) (body els : list Stmt) (async : bool)
  | Return (value : option Expr)
  | Pass
  | Break
  | Continue
  | OtherStmt (node : string).

Inductive ParamKind := ParamPlain | ParamPosOnly | ParamStar | ParamKwOnly | ParamStarStar.

Record Param := mkParam {
  paramName : string; paramKind : ParamKind; paramAnnotation : option Expr; paramDefault : option Expr }.

Record FuncDef := mkFuncDef {
  fnName : string; fnParams : list Param; fnReturns : option Expr; fnBody : list Stmt;
  fnDecorators : list Expr; fnAsync : bool }.

(** Induction over the nested lists of an expression. *)
Section Induction.
Context (P : Expr -> Prop).
Context (HName : forall x, P (Name x)) (HInt : forall t, P (IntLit t)) (HFloat : forall f, P (FloatLit f)).
Context (HStr : forall s, P (StrLit s)) (HBool : forall b, P (BoolLit b)).
Context (HList : forall l, Forall P l -> P (ListLit l)) (HTuple : forall l, Forall P l -> P (TupleLit l)).
Context (HBin : forall op l r, P l -> P r -> P (BinOp op l r)) (HUn : forall op x, P x -> P (UnaryOp op x)).
Context (HBoolOp : forall k l, Forall P l -> P (BoolOp k l)).
Context (HCmp : forall l ops rs, P l -> Forall P rs -> P (Compare l ops rs)).
Context (HCall : forall f args, P f -> Forall (fun a => P (argValue a)) args -> P (Call f args)).
Context (HAttr : forall x n, P x -> P (Attribute x n)) (HSub : forall x i, P x -> P i -> P (Subscript x i)).
Context (HSlice : forall a b c, P (SliceExpr a b c)) (HYield : forall v f, P (Yield v f)).
Context (HOther : forall n, P (OtherExpr n)).

Definition Expr_ind' : forall e, P e :=
  fix rec e :=
    let recs := fix recs (l : list Expr) : Forall P l :=
      match l with [] => Forall_nil_2 _ | x :: l => Forall_cons_2 _ _ _ (rec x) (recs l) end in
    match e with
    | Name x => HName x | IntLit t => HInt t | FloatLit f => HFloat f | StrLit s => HStr s
    | BoolLit b => HBool b | ListLit l => HList l (recs l) | TupleLit l => HTuple l (recs l)
    | BinOp op l r => HBin op l r (rec l) (rec r) | UnaryOp op x => HUn op x (rec x)
    | BoolOp k l => HBoolOp k l (recs l) | Compare l ops rs => HCmp l ops rs (rec l) (recs rs)
    | Call f args => HCall f args (rec f)
        ((fix go (l : list (Arg Expr)) : Forall (fun a => P (argValue a)) l :=
          match l with
          | [] => Forall_nil_2 _
          | a :: l => Forall_cons_2 (fun a => P (argValue a)) a l (rec (argValue a)) (go l)
          end) args)
    | Attribute x n => HAttr x n (rec x) | Subscript x i => HSub x i (rec x) (rec i)
    | SliceExpr a b c => HSlice a b c | Yield v f => HYield v f | OtherExpr n => HOther n
    end.
End Induction.

(** Induction over the blocks of a statement. *)
Section StmtInduction.
Context (P : Stmt -> Prop).
Context (HSimple : forall s, match s with If _ _ _ | While _ _ _ | For _ _ _ _ _ => True | _ => P s end).
Context (HIf : forall c t e, Forall P t -> Forall P e -> P (If c t e)).
Context (HWhile : forall c t e, Forall P t -> Forall P e -> P (While c t e)).
Context (HFor : forall x i t e a, Forall P t -> Forall P e -> P (For x i t e a)).

Definition Stmt_ind' : forall s, P s :=
  fix rec s :=
    let recs := fix recs (l : list Stmt) : Forall P l :=
      match l with [] => Forall_nil_2 _ | x :: l => Forall_cons_2 _ _ _ (rec x) (recs l) end in
    match s as s return (match s with If _ _ _ | While _ _ _ | For _ _ _ _ _ => True | _ => P s end -> P s) with
    | If c t e => fun _ => HIf c t e (recs t) (recs e)
    | While c t e => fun _ => HWhile c t e (recs t) (recs e)
    | For x i t e a => fun _ => HFor x i t e a (recs t) (recs e)
    | s => fun H => H
    end (HSimple s).
End StmtInduction.
