(* ===== verification/Bridge.v ===== *)
(** * Bridge: from the frontend tree to the static tier's model

    Model of src/pkg/ir/bridge.go: the translation of one function from the
    frontend's syntax tree to the emit model, every refusal included.  A
    refusal ("unsupported": the unit stays boxed) is [None].  The scope is
    passed and returned; the module globals read so far, which become the
    function's entry guards, are a state ([BM]).  A Go map iterated for its
    keys is a sorted list of them. *)

From S2P Require Import Prelude Ast Int64 StaticOps Fold GoSem Emit IrCost.
From Stdlib Require Import SpecFloat.
Local Open Scope Z_scope.

(** ** The lowering monad *)

Definition BM (A : Type) : Type := list string -> option (A * list string).
Definition bret {A} (a : A) : BM A := fun g => Some (a, g).
Definition unsupported {A} : BM A := fun _ => None.
Definition bbind {A B} (m : BM A) (k : A -> BM B) : BM B := fun g =>
  match m g with Some (a, g) => k a g | None => None end.
Definition blift {A} (o : option A) : BM A := fun g => match o with Some a => Some (a, g) | None => None end.

Declare Scope bridge_scope.
Delimit Scope bridge_scope with bridge.
Notation "x <- m ;; k" := (bbind m (fun x => k)) : bridge_scope.
Notation "' p <- m ;; k" := (bbind m (fun p => k)) : bridge_scope.
Local Open Scope bridge_scope.

(** [check c k]: refuse unless [c]. *)
Definition check {A} (c : bool) (k : BM A) : BM A := if c then k else unsupported.

(** ** Signatures and resolvers *)

(** A bound name and its representation. *)
Notation scope := (gmap string Repr).

Record StaticCallee := mkCallee { GoName : string; CParams : list Repr; CRet : Repr }.
Record GenParam := mkGenParam { GpName : string; GpRepr : Repr; Saved : bool }.
Record StaticGenerator := mkGenSig {
  SgGoName : string; SgParams : list GenParam; SgElem : Repr; SgDeopt : bool }.

(** A nil resolver is the one that resolves nothing. *)
Record lowerCtx := mkLowerCtx {
  reads : gset string;
  inLoop : bool;
  resolve : string -> option StaticCallee;
  globals : string -> option Repr;
  shapes : string -> option Repr;
  gens : string -> option StaticGenerator
}.

Definition loopCtx (c : lowerCtx) : lowerCtx :=
  mkLowerCtx (reads c) true (resolve c) (globals c) (shapes c) (gens c).

(** [bindingGuards.use]: the first read of a global records it. *)
Definition use (x : string) : BM unit := fun g =>
  Some (tt, if bool_decide (x ∈ g) then g else g ++ [x]).

Definition shadowVar (x : string) : string := "bshadow_" +:+ x.
Definition shadowVer (x : string) : string := "bver_" +:+ x.

Definition scalarRepr (name : string) : option Repr :=
  if String.eqb name "int" then Some intRepr
  else if String.eqb name "float" then Some floatRepr
  else if String.eqb name "bool" then Some boolRepr
  else if String.eqb name "str" then Some strRepr
  else None.

Definition annotationRepr (e : Ast.Expr) : option Repr :=
  match e with Ast.Name x => scalarRepr x | _ => None end.

Definition shapeAnnotationRepr (e : Ast.Expr) (c : lowerCtx) : option Repr :=
  match e with Ast.Name x => shapes c x | _ => None end.

Definition SignatureOf (f : Func) (goName : string) : StaticCallee :=
  mkCallee goName (map pRepr (Params f)) (FRet f).

(** A parameter with a scalar annotation, passed by position, no default. *)
Definition plainParam (p : Ast.Param) : option Repr :=
  match Ast.paramKind p, Ast.paramDefault p, Ast.paramAnnotation p with
  | (Ast.ParamPlain | Ast.ParamPosOnly), None, Some a => annotationRepr a
  | _, _, _ => None
  end.

Definition SignatureFromDef (fn : Ast.FuncDef) (goName : string) : option StaticCallee :=
  if Ast.fnAsync fn || negb (Nat.eqb (length (Ast.fnDecorators fn)) 0) then None
  else
    ps ← mapM plainParam (Ast.fnParams fn);
    match Ast.fnReturns fn with
    | Some a => r ← annotationRepr a; Some (mkCallee goName ps r)
    | None => None
    end.

(** ** Walks over the tree *)

Fixpoint targetHits (e : Ast.Expr) (name : string) : bool :=
  match e with
  | Ast.Name x => String.eqb x name
  | Ast.TupleLit elts => existsb (fun e => targetHits e name) elts
  | _ => false
  end.

Fixpoint stmtAssigns (name : string) (s : Ast.Stmt) : bool :=
  match s with
  | Ast.Assign ts _ => existsb (fun t => targetHits t name) ts
  | Ast.AnnAssign t _ _ | Ast.AugAssign t _ _ => targetHits t name
  | Ast.If _ b e | Ast.While _ b e => existsb (stmtAssigns name) b || existsb (stmtAssigns name) e
  | Ast.For t _ b e _ =>
      targetHits t name || existsb (stmtAssigns name) b || existsb (stmtAssigns name) e
  | _ => false
  end.

Definition bodyAssigns (l : list Ast.Stmt) (name : string) : bool := existsb (stmtAssigns name) l.

(** The names an assignment target binds, for the bound on [freshLocal]. *)
Fixpoint targetNames (e : Ast.Expr) : list string :=
  match e with
  | Ast.Name x => [x]
  | Ast.TupleLit elts => concat (map targetNames elts)
  | _ => []
  end.

Fixpoint assignedNames (s : Ast.Stmt) : list string :=
  match s with
  | Ast.Assign ts _ => concat (map targetNames ts)
  | Ast.AnnAssign t _ _ | Ast.AugAssign t _ _ => targetNames t
  | Ast.If _ b e | Ast.While _ b e => concat (map assignedNames b) ++ concat (map assignedNames e)
  | Ast.For t _ b e _ => targetNames t ++ concat (map assignedNames b) ++ concat (map assignedNames e)
  | _ => []
  end.

(** [freshLocal]: the prefix, then the prefix with a rising counter. *)
Definition candidate (prefix : string) (i : nat) : string :=
  match i with O => prefix | S _ => prefix +:+ itoa (Z.of_nat i) end.

Definition taken (sc : scope) (body : list Ast.Stmt) (loopVar cand : string) : bool :=
  bool_decide (is_Some (sc !! cand)) || String.eqb cand loopVar || bodyAssigns body cand.

Fixpoint freshLoop (fuel i : nat) (sc : scope) (body : list Ast.Stmt) (loopVar prefix : string) :
    option string :=
  match fuel with
  | O => None
  | S fuel =>
      if taken sc body loopVar (candidate prefix i)
      then freshLoop fuel (S i) sc body loopVar prefix else Some (candidate prefix i)
  end.

Definition freshFuel (sc : scope) (body : list Ast.Stmt) : nat :=
  2 + size sc + length (concat (map assignedNames body)).

Definition freshLocal (sc : scope) (body : list Ast.Stmt) (loopVar prefix : string) : option string :=
  freshLoop (freshFuel sc body) 0 sc body loopVar prefix.

(** The names an expression reads. *)
Fixpoint loadedInExpr (e : Ast.Expr) : gset string :=
  match e with
  | Ast.Name x => {[x]}
  | Ast.BinOp _ l r => loadedInExpr l ∪ loadedInExpr r
  | Ast.UnaryOp _ x | Ast.Attribute x _ => loadedInExpr x
  | Ast.BoolOp _ vs | Ast.TupleLit vs | Ast.ListLit vs => ⋃ map loadedInExpr vs
  | Ast.Compare l _ rs => loadedInExpr l ∪ ⋃ map loadedInExpr rs
  | Ast.Subscript x i => loadedInExpr x ∪ loadedInExpr i
  | _ => ∅
  end.

Definition loadedInOpt (e : option Ast.Expr) : gset string :=
  match e with Some e => loadedInExpr e | None => ∅ end.

Fixpoint loadedInStmt (s : Ast.Stmt) : gset string :=
  match s with
  | Ast.Return v => loadedInOpt v
  | Ast.ExprStmt x | Ast.Assign _ x => loadedInExpr x
  | Ast.AnnAssign _ _ v => loadedInOpt v
  | Ast.AugAssign t _ v => match t with Ast.Name x => {[x]} | _ => ∅ end ∪ loadedInExpr v
  | Ast.If c b e | Ast.While c b e =>
      loadedInExpr c ∪ ⋃ map loadedInStmt b ∪ ⋃ map loadedInStmt e
  | Ast.For _ i b e _ => loadedInExpr i ∪ ⋃ map loadedInStmt b ∪ ⋃ map loadedInStmt e
  | _ => ∅
  end.

Definition loadedNames (l : list Ast.Stmt) : gset string := ⋃ map loadedInStmt l.

(** ** Literals and operators *)

Definition digitOf (c : ascii) : option Z :=
  let n := Z.of_nat (nat_of_ascii c) in if (48 <=? n) && (n <=? 57) then Some (n - 48) else None.

Fixpoint digitsVal (acc : Z) (s : string) : option Z :=
  match s with
  | "" => Some acc
  | String c s => match digitOf c with Some d => digitsVal (10 * acc + d) s | None => None end
  end.

Definition decimal (s : string) : option Z := match s with "" => None | _ => digitsVal 0 s end.

(** The number a literal's text denotes. *)
Definition literal (s : string) : option Z :=
  match s with
  | String "-" s => Z.opp <$> decimal s
  | String "+" s => decimal s
  | s => decimal s
  end.

(** [strconv.ParseInt(text, 10, 64)]. *)
Definition ParseInt (s : string) : option Z := z ← literal s; if in64 z then Some z else None.

Definition constStep (e : Ast.Expr) : option Z :=
  match e with
  | Ast.UnaryOp Ast.UnaryNeg (Ast.IntLit t) => (fun v => wrap64 (- v)) <$> ParseInt t
  | Ast.IntLit t => ParseInt t
  | _ => None
  end.

Definition singleEvalSafe (e : Ast.Expr) : bool :=
  match e with
  | Ast.Name _ | Ast.IntLit _ | Ast.FloatLit _ | Ast.BoolLit _ | Ast.StrLit _ => true
  | _ => false
  end.

Definition cmpOp (k : Ast.CmpKind) : option CmpOp :=
  match k with
  | Ast.CmpEq => Some CmpEq | Ast.CmpNe => Some CmpNe | Ast.CmpLt => Some CmpLt
  | Ast.CmpLe => Some CmpLe | Ast.CmpGt => Some CmpGt | Ast.CmpGe => Some CmpGe
  | Ast.CmpIn | Ast.CmpNotIn | Ast.CmpIs | Ast.CmpIsNot => None
  end.

Definition binOp (k : Ast.BinKind) : option Op :=
  match k with
  | Ast.BinAdd => Some OpAdd | Ast.BinSub => Some OpSub | Ast.BinMul => Some OpMul
  | Ast.BinDiv => Some OpDiv | Ast.BinFloorDiv => Some OpFloorDiv | Ast.BinMod => Some OpMod
  | Ast.BinPow => Some OpPow | Ast.BinBitAnd => Some OpBitAnd | Ast.BinBitOr => Some OpBitOr
  | Ast.BinBitXor => Some OpBitXor | Ast.BinLShift => Some OpLShift | Ast.BinRShift => Some OpRShift
  | Ast.BinMatMul => None
  end.

(** The operators an augmented assignment lowers with. *)
Definition augOp (k : Ast.BinKind) : option Op :=
  match k with
  | Ast.BinAdd | Ast.BinSub | Ast.BinMul => binOp k
  | _ => None
  end.

(** ** Expressions *)

(** [lowerListLit] on the lowered items. *)
Definition lowerListLit (items : list (Expr * Repr)) : option (Expr * Repr) :=
  match items with
  | [] => None
  | (_, elem) :: _ =>
      if forallb (fun p => negb (isScalar NotScalar p.2) && sameScalar p.2 elem) items
      then Some (ListLit elem (map fst items), listRepr elem) else None
  end.

Definition lowerSubscript (base idx : Expr * Repr) : option (Expr * Repr) :=
  elem ← Elem base.2;
  if isScalar SInt idx.2 then Some (Index base.1 idx.1, elem) else None.

Definition lowerAttribute (base : Expr * Repr) (name : string) : option (Expr * Repr) :=
  s ← RShape base.2; fr ← Field s name; Some (Attr base.1 name, fr).

(** [lowerCompare]: adjacent pairs joined with And, left to right.  The tree
    has one operator per right operand. *)
Fixpoint lowerChain (acc : option Expr) (lhs : Expr * Repr) (ops : list Ast.CmpKind)
    (rights : list (Expr * Repr)) : option (Expr * Repr) :=
  match ops, rights with
  | [], [] => (fun e => (e, boolRepr)) <$> acc
  | k :: ops, rhs :: rights =>
      op ← cmpOp k;
      if cmpOperands op lhs.2 rhs.2 then
        let cmp := Cmp op lhs.1 rhs.1 in
        lowerChain (Some match acc with None => cmp | Some a => And a cmp end) rhs ops rights
      else None
  | _, _ => None
  end.

(** [lowerBoolOp] on the lowered operands. *)
Fixpoint lowerConn (k : Ast.BoolKind) (acc : Expr) (accR : Repr) (vs : list (Expr * Repr)) :
    option (Expr * Repr) :=
  match vs with
  | [] => Some (acc, if isScalar SBool accR then boolRepr else accR)
  | (r, rr) :: vs =>
      if sameScalar rr accR && negb (HasRaisingGuard r)
      then lowerConn k (match k with Ast.BoolAnd => And acc r | Ast.BoolOr => Or acc r end) accR vs
      else None
  end.

Definition lowerBoolOp (k : Ast.BoolKind) (vs : list (Expr * Repr)) : option (Expr * Repr) :=
  match vs with
  | (acc, accR) :: ((_ :: _) as rest) =>
      if connScalar (RScalar accR) then lowerConn k acc accR rest else None
  | _ => None
  end.

Definition positional {E} (args : list (Arg E)) : bool :=
  forallb (fun a => String.eqb (argName a) "" && (argStar a =? 0)) args.

(** [lowerCall] on the lowered arguments. *)
Definition lowerCall (callee : StaticCallee) (args : list (Expr * Repr)) : option (Expr * Repr) :=
  if Nat.eqb (length args) (length (CParams callee)) &&
     forallb (fun p => sameScalar p.1.2 p.2) (combine args (CParams callee))
  then Some (Call (GoName callee) (map fst args) (CRet callee), CRet callee) else None.

Definition lowerName (c : lowerCtx) (sc : scope) (x : string) : BM (Expr * Repr) :=
  match sc !! x with
  | Some r => bret (Var x r, r)
  | None =>
      match globals c x with
      | Some r => _ <- use x ;; bret (Var (shadowVar x) r, r)
      | None => unsupported
      end
  end.

Fixpoint lowerExpr (c : lowerCtx) (sc : scope) (e : Ast.Expr) {struct e} : BM (Expr * Repr) :=
  let lowerExprs := fix lowerExprs (l : list Ast.Expr) : BM (list (Expr * Repr)) :=
    match l with
    | [] => bret []
    | e :: l => p <- lowerExpr c sc e ;; ps <- lowerExprs l ;; bret (p :: ps)
    end in
  match e with
  | Ast.Name x => lowerName c sc x
  | Ast.IntLit t => v <- blift (ParseInt t) ;; bret (Int v, intRepr)
  | Ast.FloatLit f => bret (Float f, floatRepr)
  | Ast.BoolLit b => bret (Bool b, boolRepr)
  | Ast.StrLit s => bret (Str s, strRepr)
  | Ast.BinOp k lhs rhs =>
      op <- blift (binOp k) ;;
      '(l, lr) <- lowerExpr c sc lhs ;;
      '(r, rr) <- lowerExpr c sc rhs ;;
      res <- blift (binResult op lr rr) ;;
      bret (bridgeBin op l lr r rr res)
  | Ast.Compare lhs ops rights =>
      check (forallb singleEvalSafe (take (length ops - 1) rights))
        (l <- lowerExpr c sc lhs ;; rs <- lowerExprs rights ;; blift (lowerChain None l ops rs))
  | Ast.BoolOp k vs => ps <- lowerExprs vs ;; blift (lowerBoolOp k ps)
  | Ast.Call (Ast.Name f) args =>
      callee <- blift (resolve c f) ;;
      check (positional args)
        (ps <- (fix go (l : list (Arg Ast.Expr)) : BM (list (Expr * Repr)) :=
           match l with
           | [] => bret []
           | a :: l => p <- lowerExpr c sc (argValue a) ;; ps <- go l ;; bret (p :: ps)
           end) args ;;
         blift (lowerCall callee ps))
  | Ast.UnaryOp Ast.UnaryNot x =>
      '(x, xr) <- lowerExpr c sc x ;; check (isScalar SBool xr) (bret (Not x, boolRepr))
  | Ast.ListLit elts => ps <- lowerExprs elts ;; blift (lowerListLit ps)
  | Ast.Subscript x i =>
      match i with
      | Ast.SliceExpr _ _ _ => unsupported
      | _ => b <- lowerExpr c sc x ;; i <- lowerExpr c sc i ;; blift (lowerSubscript b i)
      end
  | Ast.Attribute x n => b <- lowerExpr c sc x ;; blift (lowerAttribute b n)
  | _ => unsupported
  end.

Fixpoint lowerExprs (c : lowerCtx) (sc : scope) (l : list Ast.Expr) : BM (list (Expr * Repr)) :=
  match l with
  | [] => bret []
  | e :: l => p <- lowerExpr c sc e ;; ps <- lowerExprs c sc l ;; bret (p :: ps)
  end.

(** ** Statements *)

(** A lowered block: its statements, the representation it returns, whether it
    always returns, and the scope after it. *)
Record lowered := mkLowered { lStmts : list Stmt; lRet : option Repr; lTerm : bool; lScope : scope }.

Definition plain (ss : list Stmt) (sc : scope) : BM lowered := bret (mkLowered ss None false sc).

(** Bind a name: a rebinding assigns, a first binding declares. *)
Definition bindName (x : string) (v : Expr) (r : Repr) (sc : scope) : BM lowered :=
  match sc !! x with
  | Some prev => check (sameScalar prev r) (plain [Assign x v] (<[x := r]> sc))
  | None => plain [Define x v] (<[x := r]> sc)
  end.

Definition lowerAssign (c : lowerCtx) (sc : scope) (x : string) (value : Ast.Expr) : BM lowered :=
  '(v, r) <- lowerExpr c sc value ;; bindName x v r sc.

Definition lowerAnnAssign (c : lowerCtx) (sc : scope) (x : string) (ann value : Ast.Expr) : BM lowered :=
  '(v, r) <- lowerExpr c sc value ;;
  check (match annotationRepr ann with Some want => sameScalar want r | None => true end)
    (bindName x v r sc).

Definition lowerAugAssign (c : lowerCtx) (sc : scope) (x : string) (k : Ast.BinKind) (value : Ast.Expr) :
    BM lowered :=
  op <- blift (augOp k) ;;
  tr <- blift (sc !! x) ;;
  '(v, vr) <- lowerExpr c sc value ;;
  _ <- blift (binResult op tr vr) ;;
  plain [AugAssign x op tr v] sc.

Definition pureDiscardable (e : Expr) : bool :=
  match e with Int _ | Float _ | Bool _ | Str _ | Var _ _ => true | _ => false end.

Definition lowerExprStmt (c : lowerCtx) (sc : scope) (x : Ast.Expr) : BM lowered :=
  '(v, _) <- lowerExpr c sc x ;; plain (if pureDiscardable v then [] else [Discard v]) sc.

Definition nameOf (e : Ast.Expr) : option string := match e with Ast.Name x => Some x | _ => None end.

Fixpoint distinct (l : list string) : bool :=
  match l with [] => true | x :: l => negb (existsb (String.eqb x) l) && distinct l end.

Fixpoint setScope (xs : list string) (rs : list Repr) (sc : scope) : scope :=
  match xs, rs with x :: xs, r :: rs => setScope xs rs (<[x := r]> sc) | _, _ => sc end.

(** Either every name is new, or every name is rebound to the same scalar. *)
Definition lowerTupleAssign (c : lowerCtx) (sc : scope) (tgts vals : list Ast.Expr) : BM lowered :=
  check (Nat.eqb (length tgts) (length vals) && Nat.leb 2 (length tgts))
    (names <- blift (mapM nameOf tgts) ;;
     check (distinct names)
       (ps <- lowerExprs c sc vals ;;
        let vs := map fst ps in let rs := map snd ps in
        let fresh := forallb (fun x => bool_decide (sc !! x = None)) names in
        let rebind := forallb (fun p => match sc !! p.1 with
          | Some prev => sameScalar prev p.2 | None => false end) (combine names rs) in
        check (fresh || rebind) (plain [Bind names vs fresh] (setScope names rs sc)))).

Definition newBindings (parent child : scope) : scope := child ∖ parent.

Definition allRead (c : lowerCtx) (m : scope) : bool :=
  forallb (fun p => bool_decide (p.1 ∈ reads c)) (map_to_list m).

(** [sort.Strings]. *)
Fixpoint insertString (x : string) (l : list string) : list string :=
  match l with [] => [x] | y :: l' => if String.leb x y then x :: l else y :: insertString x l' end.

Definition sortStrings (l : list string) : list string := foldr insertString [] l.

(** The names both arms bind, with the first arm's representation; refused
    when the arms disagree. *)
Definition joinScope (thenNew elseNew : scope) : option scope :=
  let both := filter (fun p => is_Some (elseNew !! p.1)) thenNew in
  if forallb (fun p => match elseNew !! p.1 with Some er => sameScalar p.2 er | None => true end)
       (map_to_list both)
  then Some both else None.

Definition joinDecls (joins : scope) : list Stmt :=
  map (fun x => VarDecl x (default zeroRepr (joins !! x))) (sortStrings (map fst (map_to_list joins))).

(** [lowerIf]: both arms are lowered twice, first to learn what they bind, then
    with the joined names in scope. *)
Definition lowerIf (c : lowerCtx) (cond : Ast.Expr) (hasElse : bool) (thn els : scope -> BM lowered)
    (sc : scope) : BM lowered :=
  let els sc := if hasElse then els sc else plain [] sc in
  '(x, cr) <- lowerExpr c sc cond ;;
  check (truthy cr)
    (t <- thn sc ;; e <- els sc ;;
     let thenNew := newBindings sc (lScope t) in
     let elseNew := newBindings sc (lScope e) in
     joins <- blift (joinScope thenNew elseNew) ;;
     check (allRead c thenNew && allRead c elseNew)
       (t2 <- thn (joins ∪ sc) ;; e2 <- els (joins ∪ sc) ;;
        ret <- blift (joinReturns (lRet t) (lRet e)) ;;
        bret (mkLowered (joinDecls joins ++ [If x (lStmts t2) (lStmts e2)]) ret
          (lTerm t && hasElse && lTerm e) (joins ∪ sc)))).

(** [lowerWhile]. *)
Definition lowerWhile (c : lowerCtx) (cond : Ast.Expr) (hasElse : bool) (body : scope -> BM lowered)
    (sc : scope) : BM lowered :=
  check (negb hasElse)
    ('(x, cr) <- lowerExpr c sc cond ;;
     let cc := costExpr x noCost in
     check (truthy cr && negb (EntryGuards cc + LoopGuards cc >? 0))
       (b <- body sc ;; plain [While x (lStmts b)] sc)).

(** The arguments of a [range] call: start, stop, and whether it counts down. *)
Definition rangeArgs (args : list (Arg Ast.Expr)) : option (option Ast.Expr * Ast.Expr * bool) :=
  if positional args then
    match args with
    | [stop] => Some (None, argValue stop, false)
    | [start; stop] => Some (Some (argValue start), argValue stop, false)
    | [start; stop; step] =>
        s ← constStep (argValue step);
        if s =? 1 then Some (Some (argValue start), argValue stop, false)
        else if s =? -1 then Some (Some (argValue start), argValue stop, true) else None
    | _ => None
    end
  else None.

Definition lowerStart (c : lowerCtx) (sc : scope) (start : option Ast.Expr) : BM Expr :=
  match start with
  | None => bret (Int 0)
  | Some e => '(s, sr) <- lowerExpr c sc e ;; check (isScalar SInt sr) (bret s)
  end.

(** The stop bound: a literal or a name the body leaves alone is read by the
    loop, anything else is hoisted into a fresh local. *)
Definition lowerStop (sc : scope) (body : list Ast.Stmt) (loopVar : string) (e : Ast.Expr)
    (stop : Expr) (stopR : Repr) : option (list Stmt * Expr) :=
  match e with
  | Ast.IntLit _ => Some ([], stop)
  | Ast.Name y => if bodyAssigns body y then None else Some ([], stop)
  | _ =>
      tmp ← freshLocal sc body loopVar "bound";
      Some ([Define tmp stop], Var tmp stopR)
  end.

(** [lowerFor] on a [range] call. *)
Definition lowerForRange (c : lowerCtx) (x : string) (args : list (Arg Ast.Expr))
    (stmts : list Ast.Stmt) (body : scope -> BM lowered) (sc : scope) : BM lowered :=
  '(start, stop, down) <- blift (rangeArgs args) ;;
  s <- lowerStart c sc start ;;
  '(t, tr) <- lowerExpr c sc stop ;;
  check (isScalar SInt tr)
    ('(pre, bnd) <- blift (lowerStop sc stmts x stop t tr) ;;
     check (negb (bodyAssigns stmts x))
       (b <- body (<[x := intRepr]> sc) ;;
        plain (pre ++ [ForCount x s bnd down (lStmts b) None]) sc)).

(** One argument of a driven generator: a field of the handle, or evaluated
    for its effect. *)
Fixpoint genArgs (args : list (Expr * Repr)) (ps : list GenParam) :
    option (list Stmt * list (string * Expr)) :=
  match args, ps with
  | [], [] => Some ([], [])
  | (v, r) :: args, p :: ps =>
      if sameScalar r (GpRepr p) then
        rest ← genArgs args ps;
        Some (if Saved p then (rest.1, (GpName p, v) :: rest.2)
              else if pureDiscardable v then rest else (Discard v :: rest.1, rest.2))
      else None
  | _, _ => None
  end.

(** [lowerForGen]. *)
Definition lowerForGen (c : lowerCtx) (x : string) (sig : StaticGenerator) (args : list (Arg Ast.Expr))
    (stmts : list Ast.Stmt) (body : scope -> BM lowered) (sc : scope) : BM lowered :=
  check (positional args && Nat.eqb (length args) (length (SgParams sig)) && negb (bodyAssigns stmts x))
    (ps <- lowerExprs c sc (map argValue args) ;;
     '(pre, fields) <- blift (genArgs ps (SgParams sig)) ;;
     handle <- blift (freshLocal sc stmts x "g") ;;
     let handleR := mkRepr ("*" +:+ SgGoName sig) NotScalar None None in
     b <- body (<[x := SgElem sig]> (<[handle := handleR]> sc)) ;;
     plain (pre ++ [Define handle (GenNew (SgGoName sig) fields);
                    ForGen x (SgElem sig) (Var handle handleR) (lStmts b) (SgDeopt sig)]) sc).

(** [lowerFor]: a driven generator, or a [range]. *)
Definition lowerFor (c : lowerCtx) (target iter : Ast.Expr) (stmts : list Ast.Stmt) (hasElse : bool)
    (body : scope -> BM lowered) (sc : scope) : BM lowered :=
  check (negb hasElse)
    match target, iter with
    | Ast.Name x, Ast.Call (Ast.Name f) args =>
        check (bool_decide (sc !! x = None))
          (if String.eqb f "range" then lowerForRange c x args stmts body sc
           else match gens c f with
                | Some sig => lowerForGen c x sig args stmts body sc
                | None => unsupported
                end)
    | _, _ => unsupported
    end.

Definition nonempty {A} (l : list A) : bool := match l with [] => false | _ => true end.

(** The result of a block so far and of its next statement. *)
Definition nextRet (ret rr : option Repr) : option (option Repr) :=
  match rr with
  | None => Some ret
  | Some r =>
      match ret with
      | Some r0 => if sameScalar r0 r then Some rr else None
      | None => Some rr
      end
  end.

Fixpoint lowerStmt (c : lowerCtx) (s : Ast.Stmt) (sc : scope) {struct s} : BM lowered :=
  let lowerBody := fix lowerBody (c : lowerCtx) (l : list Ast.Stmt) (ret : option Repr) (term : bool)
      (sc : scope) : BM lowered :=
    match l with
    | [] => bret (mkLowered [] ret term sc)
    | s :: l =>
        x <- lowerStmt c s sc ;;
        ret <- blift (nextRet ret (lRet x)) ;;
        y <- lowerBody c l ret (term || lTerm x) (lScope x) ;;
        bret (mkLowered (lStmts x ++ lStmts y) (lRet y) (lTerm y) (lScope y))
    end in
  match s with
  | Ast.Pass => plain [] sc
  | Ast.Break => check (inLoop c) (plain [Break] sc)
  | Ast.Continue => check (inLoop c) (plain [Continue] sc)
  | Ast.Return (Some e) =>
      '(v, r) <- lowerExpr c sc e ;; bret (mkLowered [Return v] (Some r) true sc)
  | Ast.If cond thn els =>
      lowerIf c cond (nonempty els) (lowerBody c thn None false) (lowerBody c els None false) sc
  | Ast.While cond body els =>
      lowerWhile c cond (nonempty els) (lowerBody (loopCtx c) body None false) sc
  | Ast.For target iter body els _ =>
      lowerFor c target iter body (nonempty els) (lowerBody (loopCtx c) body None false) sc
  | Ast.Assign [Ast.TupleLit tgts] (Ast.TupleLit vals) => lowerTupleAssign c sc tgts vals
  | Ast.Assign [Ast.Name x] value => lowerAssign c sc x value
  | Ast.AnnAssign (Ast.Name x) ann (Some value) => lowerAnnAssign c sc x ann value
  | Ast.AugAssign (Ast.Name x) k value => lowerAugAssign c sc x k value
  | Ast.ExprStmt x => lowerExprStmt c sc x
  | _ => unsupported
  end.

(** [lowerBody]; [ret] and [term] are what the statements before it gave. *)
Fixpoint lowerBody (c : lowerCtx) (l : list Ast.Stmt) (ret : option Repr) (term : bool) (sc : scope) :
    BM lowered :=
  match l with
  | [] => bret (mkLowered [] ret term sc)
  | s :: l =>
      x <- lowerStmt c s sc ;;
      ret <- blift (nextRet ret (lRet x)) ;;
      y <- lowerBody c l ret (term || lTerm x) (lScope x) ;;
      bret (mkLowered (lStmts x ++ lStmts y) (lRet y) (lTerm y) (lScope y))
  end.

(** ** Functions *)

Definition lowerParam (c : lowerCtx) (p : Ast.Param) : option Param :=
  match Ast.paramKind p, Ast.paramDefault p, Ast.paramAnnotation p with
  | (Ast.ParamPlain | Ast.ParamPosOnly), None, Some a =>
      mkParam (Ast.paramName p) <$>
        match annotationRepr a with Some r => Some r | None => shapeAnnotationRepr a c end
  | _, _, _ => None
  end.

(** The declared result agrees with the inferred one. *)
Definition returnsAgree (a : option Ast.Expr) (r : Repr) : bool :=
  match a with
  | None => true
  | Some a => match annotationRepr a with Some want => sameScalar want r | None => false end
  end.

Definition paramScope (ps : list Param) : scope :=
  fold_left (fun sc p => <[pName p := pRepr p]> sc) ps ∅.

Definition funcCtx (fn : Ast.FuncDef) (res : string -> option StaticCallee)
    (gl sh : string -> option Repr) (gn : string -> option StaticGenerator) : lowerCtx :=
  mkLowerCtx (loadedNames (Ast.fnBody fn)) false res gl sh gn.

Definition LowerFuncGen (fn : Ast.FuncDef) (res : string -> option StaticCallee)
    (gl sh : string -> option Repr) (gn : string -> option StaticGenerator) : option Func :=
  if Ast.fnAsync fn || nonempty (Ast.fnDecorators fn) then None
  else
    let c := funcCtx fn res gl sh gn in
    ps ← mapM (lowerParam c) (Ast.fnParams fn);
    match lowerBody c (Ast.fnBody fn) None false (paramScope ps) [] with
    | Some (b, guards) =>
        ret ← lRet b;
        if lTerm b && returnsAgree (Ast.fnReturns fn) ret
        then Some (mkFunc (Ast.fnName fn) ps ret (lStmts b) "" (map (fun x => mkBG (shadowVer x) 1) guards))
        else None
    | None => None
    end.

(** The narrower entry points. *)
Definition LowerFuncFull (fn : Ast.FuncDef) (res : string -> option StaticCallee)
    (gl sh : string -> option Repr) : option Func := LowerFuncGen fn res gl sh (fun _ => None).

Definition LowerFuncWith (fn : Ast.FuncDef) (res : string -> option StaticCallee) : option Func :=
  LowerFuncFull fn res (fun _ => None) (fun _ => None).

Definition LowerFunc (fn : Ast.FuncDef) : option Func :=
  LowerFuncFull fn (fun _ => None) (fun _ => None) (fun _ => None).
