(* ===== verification/PyAst.v ===== *)
(** * PyAst: what the frontend's tree means

    The reference semantics of the syntax tree itself (Ast), independent of the
    bridge: the scalar fragment of Python, with CPython's operators, truth,
    chained comparisons that evaluate each operand once, [range] arguments
    evaluated left to right, and the loop [else].  Outcomes are those of
    PySem.  [None] is what this fragment gives no meaning (another node, an
    unbound name, a type error) or fuel that ran out.  The name [range] is the
    builtin, and a called name the function the module binds it to. *)

From S2P Require Import Prelude Ast Int64 StaticOps GoSem PySem Bridge.
Local Open Scope Z_scope.

(** ** Expressions *)

(** The Python operators as the operators of PySem. *)
Definition pyOp (k : Ast.BinKind) : option Op :=
  match k with
  | Ast.BinAdd => Some OpAdd | Ast.BinSub => Some OpSub | Ast.BinMul => Some OpMul
  | Ast.BinDiv => Some OpDiv | Ast.BinFloorDiv => Some OpFloorDiv | Ast.BinMod => Some OpMod
  | Ast.BinPow => Some OpPow | Ast.BinBitAnd => Some OpBitAnd | Ast.BinBitOr => Some OpBitOr
  | Ast.BinBitXor => Some OpBitXor | Ast.BinLShift => Some OpLShift | Ast.BinRShift => Some OpRShift
  | Ast.BinMatMul => None
  end.

Definition pyCmpOp (k : Ast.CmpKind) : option CmpOp :=
  match k with
  | Ast.CmpEq => Some CmpEq | Ast.CmpNe => Some CmpNe | Ast.CmpLt => Some CmpLt
  | Ast.CmpLe => Some CmpLe | Ast.CmpGt => Some CmpGt | Ast.CmpGe => Some CmpGe
  | _ => None
  end.

Definition pyUnary (op : Ast.UnaryKind) (v : value) : option pout :=
  match op, v with
  | Ast.UnaryNot, _ => (fun b => PRet (VBool (negb b))) <$> truth v
  | Ast.UnaryNeg, VFloat f => Some (PRet (VFloat (SFopp f)))
  | Ast.UnaryPos, VFloat _ => Some (PRet v)
  | Ast.UnaryNeg, _ => (fun z => PRet (VInt (- z))) <$> asZ v
  | Ast.UnaryPos, _ => (fun z => PRet (VInt z)) <$> asZ v
  | Ast.UnaryInvert, _ => (fun z => PRet (VInt (- z - 1))) <$> asZ v
  end.

(** A connective's operands, evaluated until one decides. *)
Fixpoint connEval (k : Ast.BoolKind) (v : value) (rest : list (unit -> option pout)) : option pout :=
  match rest with
  | [] => Some (PRet v)
  | e :: rest =>
      match truth v with
      | Some b =>
          if match k with Ast.BoolAnd => b | Ast.BoolOr => negb b end
          then pbind (e tt) (fun w => connEval k w rest) else Some (PRet v)
      | None => None
      end
  end.

(** A comparison chain: each right operand once, until a pair is false. *)
Fixpoint chainEval (v : value) (ops : list Ast.CmpKind) (rest : list (unit -> option pout)) :
    option pout :=
  match ops, rest with
  | [k], [e] => op ← pyCmpOp k; pbind (e tt) (pyCmp op v)
  | k :: ops, e :: rest =>
      op ← pyCmpOp k;
      pbind (e tt) (fun w => pbind (pyCmp op v w) (fun c =>
        match truth c with
        | Some true => chainEval w ops rest
        | Some false => Some (PRet c)
        | None => None
        end))
  | _, _ => None
  end.

Section Sem.
Context (callee : string -> list value -> value + pyexc).

Fixpoint fEval (sg : gmap string value) (e : Ast.Expr) {struct e} : option pout :=
  let fEvals := fix fEvals (l : list Ast.Expr) (k : list value -> option pout) : option pout :=
    match l with
    | [] => k []
    | x :: l => pbind (fEval sg x) (fun v => fEvals l (fun vs => k (v :: vs)))
    end in
  match e with
  | Ast.Name x => PRet <$> sg !! x
  | Ast.IntLit t => (fun z => PRet (VInt z)) <$> literal t
  | Ast.FloatLit f => Some (PRet (VFloat f))
  | Ast.StrLit s => Some (PRet (VStr s))
  | Ast.BoolLit b => Some (PRet (VBool b))
  | Ast.BinOp k l r =>
      op ← pyOp k; pbind (fEval sg l) (fun v => pbind (fEval sg r) (pyBin op v))
  | Ast.UnaryOp op x => pbind (fEval sg x) (pyUnary op)
  | Ast.BoolOp k vs =>
      match vs with
      | x :: l => pbind (fEval sg x) (fun v => connEval k v (map (fun e (_ : unit) => fEval sg e) l))
      | [] => None
      end
  | Ast.Compare l ops rs =>
      pbind (fEval sg l) (fun v => chainEval v ops (map (fun e (_ : unit) => fEval sg e) rs))
  | Ast.Call (Ast.Name f) args =>
      if positional args then
        (fix go (l : list (Arg Ast.Expr)) (k : list value -> option pout) : option pout :=
          match l with
          | [] => k []
          | a :: l => pbind (fEval sg (argValue a)) (fun v => go l (fun vs => k (v :: vs)))
          end) args (fun vs => Some (pyCall callee f vs))
      else None
  | Ast.Attribute x n => pbind (fEval sg x) (fun v => PRet <$> fieldOf n v)
  | Ast.Subscript x i => pbind (fEval sg x) (fun v => pbind (fEval sg i) (pyIndex v))
  | Ast.ListLit elts => fEvals elts (fun vs => Some (PRet (VList vs)))
  | _ => None
  end.

Fixpoint fEvals (sg : gmap string value) (l : list Ast.Expr) (k : list value -> option pout) :
    option pout :=
  match l with
  | [] => k []
  | x :: l => pbind (fEval sg x) (fun v => fEvals sg l (fun vs => k (v :: vs)))
  end.

(** ** Statements *)

Fixpoint fWhile (k : nat) (cond : gmap string value -> option pout)
    (body els : gmap string value -> option pres) (sg : gmap string value) : option pres :=
  match k with
  | O => None
  | S k =>
    withVal (cond sg) (fun v =>
      match truth v with
      | Some true =>
          match body sg with
          | Some (PNorm sg) | Some (PCnt sg) => fWhile k cond body els sg
          | Some (PBrk sg) => Some (PNorm sg)
          | r => r
          end
      | Some false => els sg
      | None => None
      end)
  end.

(** [for x in range(i, stop, step)]; a step of zero has no meaning here. *)
Fixpoint fRange (k : nat) (x : string) (step : Z) (body els : gmap string value -> option pres)
    (i stop : Z) (sg : gmap string value) : option pres :=
  match k with
  | O => None
  | S k =>
    if (if 0 <? step then i <? stop else stop <? i) then
      match body (<[x := VInt i]> sg) with
      | Some (PNorm sg) | Some (PCnt sg) => fRange k x step body els (i + step) stop sg
      | Some (PBrk sg) => Some (PNorm sg)
      | r => r
      end
    else els sg
  end.

(** The values of a [range] call's arguments: start, stop and step. *)
Definition rangeVals (vs : list value) : option (Z * Z * Z) :=
  zs ← mapM asZ vs;
  match zs with
  | [stop] => Some (0, stop, 1)
  | [start; stop] => Some (start, stop, 1)
  | [start; stop; step] => if step =? 0 then None else Some (start, stop, step)
  | _ => None
  end.

Definition bindTarget (t : Ast.Expr) (v : value) (sg : gmap string value) : option (gmap string value) :=
  match t with Ast.Name x => Some (<[x := v]> sg) | _ => None end.

(** The targets of a chained assignment, left to right. *)
Fixpoint bindTargets (ts : list Ast.Expr) (v : value) (sg : gmap string value) :
    option (gmap string value) :=
  match ts with
  | [] => Some sg
  | t :: ts => sg ← bindTarget t v sg; bindTargets ts v sg
  end.

Definition fVals (sg : gmap string value) (l : list Ast.Expr) (k : list value -> option pres) :
    option pres :=
  withVal (fEvals sg l (fun vs => Some (PRet (VList vs))))
    (fun v => match v with VList vs => k vs | _ => None end).

Fixpoint fExec (n : nat) (s : Ast.Stmt) (sg : gmap string value) {struct s} : option pres :=
  let fExecs := fix fExecs (l : list Ast.Stmt) (sg : gmap string value) : option pres :=
    match l with
    | [] => Some (PNorm sg)
    | s :: l => match fExec n s sg with Some (PNorm sg) => fExecs l sg | r => r end
    end in
  match s with
  | Ast.Pass => Some (PNorm sg)
  | Ast.Break => Some (PBrk sg)
  | Ast.Continue => Some (PCnt sg)
  | Ast.ExprStmt x => withVal (fEval sg x) (fun _ => Some (PNorm sg))
  | Ast.Return (Some e) => withVal (fEval sg e) (fun v => Some (PDone v))
  | Ast.Assign [Ast.TupleLit tgts] (Ast.TupleLit vals) =>
      if Nat.eqb (length tgts) (length vals) then
        names ← mapM nameOf tgts;
        fVals sg vals (fun vs => Some (PNorm (pyBind names vs sg)))
      else None
  | Ast.Assign ts e => withVal (fEval sg e) (fun v => PNorm <$> bindTargets ts v sg)
  | Ast.AnnAssign t _ (Some e) => withVal (fEval sg e) (fun v => PNorm <$> bindTarget t v sg)
  | Ast.AugAssign (Ast.Name x) k e =>
      withVal (fEval sg (Ast.BinOp k (Ast.Name x) e)) (fun v => Some (PNorm (<[x := v]> sg)))
  | Ast.If c thn els =>
      withVal (fEval sg c) (fun v =>
        match truth v with Some true => fExecs thn sg | Some false => fExecs els sg | None => None end)
  | Ast.While c body els => fWhile n (fun sg => fEval sg c) (fExecs body) (fExecs els) sg
  | Ast.For (Ast.Name x) (Ast.Call (Ast.Name "range") args) body els false =>
      if positional args then
        fVals sg (map argValue args) (fun vs =>
          match rangeVals vs with
          | Some (i, stop, step) => fRange n x step (fExecs body) (fExecs els) i stop sg
          | None => None
          end)
      else None
  | _ => None
  end.

Fixpoint fExecs (n : nat) (l : list Ast.Stmt) (sg : gmap string value) : option pres :=
  match l with
  | [] => Some (PNorm sg)
  | s :: l => match fExec n s sg with Some (PNorm sg) => fExecs n l sg | r => r end
  end.
End Sem.
