(* ===== verification/BridgeExpr.v ===== *)
(** * BridgeExpr: lowered expressions mean what the tree means

    The bridge's translation of an expression - folded constants, dropped
    identities, expanded comparison chains and connectives - evaluates, in
    Python's own semantics, to the value of the tree it came from.  Module
    globals are left out here: the contexts resolve none. *)

From S2P Require Import Prelude Ast Int64 StaticOps Fold GoSem Emit IrCost PySem EmitTyping EmitOps.
From S2P Require Import EmitSound EmitTypes EmitKinds Bridge PyAst.
Local Open Scope Z_scope.

(** ** The monad *)

Lemma bbind_inv {A B} (m : BM A) (k : A -> BM B) g z :
  bbind m k g = Some z -> exists a g1, m g = Some (a, g1) /\ k a g1 = Some z.
Proof. unfold bbind. destruct (m g) as [[a g1]|]; [|done]. eauto. Qed.

Lemma blift_inv {A} (o : option A) g a g' : blift o g = Some (a, g') -> o = Some a /\ g' = g.
Proof. unfold blift. destruct o; [|done]. intros. by simplify_eq. Qed.

Lemma check_inv {A} (c : bool) (k : BM A) g z : check c k g = Some z -> c = true /\ k g = Some z.
Proof. by destruct c. Qed.

Lemma bret_inv {A} (x : A) g a g' : bret x g = Some (a, g') -> a = x /\ g' = g.
Proof. unfold bret. intros. by simplify_eq. Qed.

(** Take a successful run apart. *)
Ltac brun :=
  repeat match goal with
  | H : bbind _ _ _ = Some _ |- _ =>
      let a := fresh "a" in let g := fresh "g" in let E := fresh "E" in
      apply bbind_inv in H as (a & g & E & H)
  | H : blift _ _ = Some (_, _) |- _ => apply blift_inv in H as [H ->]
  | H : blift _ _ = Some ?z |- _ => is_var z; destruct z
  | H : check _ _ _ = Some _ |- _ => let E := fresh "C" in apply check_inv in H as [E H]
  | H : bret _ _ = Some (_, _) |- _ => apply bret_inv in H as [H ->]
  | H : plain _ _ _ = Some (_, _) |- _ => apply bret_inv in H as [H ->]
  | H : unsupported _ = Some _ |- _ => discriminate H
  | H : (let '(_, _) := ?p in _) _ = Some _ |- _ => is_var p; destruct p
  end.

(** ** The names an expression reads *)

Fixpoint freeNames (e : Ast.Expr) : gset string :=
  match e with
  | Ast.Name x => {[x]}
  | Ast.BinOp _ l r | Ast.Subscript l r => freeNames l ∪ freeNames r
  | Ast.UnaryOp _ x | Ast.Attribute x _ => freeNames x
  | Ast.BoolOp _ vs | Ast.TupleLit vs | Ast.ListLit vs => ⋃ map freeNames vs
  | Ast.Compare l _ rs => freeNames l ∪ ⋃ map freeNames rs
  | Ast.Call _ args => ⋃ map (fun a => freeNames (argValue a)) args
  | _ => ∅
  end.

Definition freeAll (l : list Ast.Expr) : gset string := ⋃ map freeNames l.

(** The static tier's view of the module: no tracked globals, no generators. *)
Definition localOnly (c : lowerCtx) : Prop := (forall x, globals c x = None) /\ (forall f, gens c f = None).

(** ** The list walks *)

Lemma lowerExprs_walk c sc l g :
  (fix go (l : list Ast.Expr) : BM (list (Expr * Repr)) :=
    match l with
    | [] => bret []
    | e :: l => bbind (lowerExpr c sc e) (fun p => bbind (go l) (fun ps => bret (p :: ps)))
    end) l g = lowerExprs c sc l g.
Proof.
  revert g. induction l as [|e l IH]; intros g; [done|]. simpl. unfold bbind.
  destruct (lowerExpr c sc e g) as [[p g1]|]; [|done]. by rewrite IH.
Qed.

Lemma lowerArgs_walk c sc args g :
  (fix go (l : list (Arg Ast.Expr)) : BM (list (Expr * Repr)) :=
    match l with
    | [] => bret []
    | a :: l => bbind (lowerExpr c sc (argValue a)) (fun p => bbind (go l) (fun ps => bret (p :: ps)))
    end) args g = lowerExprs c sc (map argValue args) g.
Proof.
  revert g. induction args as [|e l IH]; intros g; [done|]. simpl. unfold bbind.
  destruct (lowerExpr c sc (argValue e) g) as [[p g1]|]; [|done]. by rewrite IH.
Qed.

Lemma lowerExprs_cons c sc e l g ps g' :
  lowerExprs c sc (e :: l) g = Some (ps, g') ->
  exists p qs g1, ps = p :: qs /\ lowerExpr c sc e g = Some (p, g1) /\ lowerExprs c sc l g1 = Some (qs, g').
Proof. intros E. simpl in E. brun. subst. by do 3 eexists. Qed.

Lemma bbind_ext {A B} (m m' : BM A) (k : A -> BM B) g : m g = m' g -> bbind m k g = bbind m' k g.
Proof. unfold bbind. by intros ->. Qed.

Lemma bbind_ext2 {A B} (m : BM A) (k k' : A -> BM B) g :
  (forall a g, k a g = k' a g) -> bbind m k g = bbind m k' g.
Proof. intros He. unfold bbind. by destruct (m g) as [[]|]. Qed.

Section Eqs.
Context (c : lowerCtx) (sc : scope).
Local Open Scope bridge_scope.

Lemma lower_list l g :
  lowerExpr c sc (Ast.ListLit l) g = (ps <- lowerExprs c sc l ;; blift (lowerListLit ps)) g.
Proof. simpl. apply bbind_ext, lowerExprs_walk. Qed.

Lemma lower_bool k l g :
  lowerExpr c sc (Ast.BoolOp k l) g = (ps <- lowerExprs c sc l ;; blift (lowerBoolOp k ps)) g.
Proof. simpl. apply bbind_ext, lowerExprs_walk. Qed.

Lemma lower_compare l ops rs g :
  lowerExpr c sc (Ast.Compare l ops rs) g =
  check (forallb singleEvalSafe (take (length ops - 1) rs))
    (p <- lowerExpr c sc l ;; ps <- lowerExprs c sc rs ;; blift (lowerChain None p ops ps)) g.
Proof.
  simpl. unfold check. destruct (forallb _ _); [|done]. apply bbind_ext2. intros p g1.
  apply bbind_ext, lowerExprs_walk.
Qed.

Lemma lower_call f args g :
  lowerExpr c sc (Ast.Call (Ast.Name f) args) g =
  (callee <- blift (resolve c f) ;;
   check (positional args)
     (ps <- lowerExprs c sc (map argValue args) ;; blift (lowerCall callee ps))) g.
Proof.
  simpl. apply bbind_ext2. intros s g1. unfold check. destruct (positional args); [|done].
  apply bbind_ext, lowerArgs_walk.
Qed.
End Eqs.

Lemma lower_subscript c sc x i g p g' :
  lowerExpr c sc (Ast.Subscript x i) g = Some (p, g') ->
  exists a ga b, lowerExpr c sc x g = Some (a, ga) /\ lowerExpr c sc i ga = Some (b, g') /\
    lowerSubscript a b = Some p.
Proof. simpl. destruct i; try done; intros E; brun; exists a, g0, a0; done. Qed.

(** The names the module's view adds: the tracked globals are among [G], and
    the generators a loop may drive among those of [drv]. *)
Definition within (c : lowerCtx) (G : gset string) (drv : string -> bool) : Prop :=
  (forall x r, globals c x = Some r -> x ∈ G) /\ (forall f s, gens c f = Some s -> drv f = true).

Lemma localOnly_within c : localOnly c -> within c ∅ (fun _ => false).
Proof. intros [Hg Hn]. split; intros ? ? E; [by rewrite Hg in E|by rewrite Hn in E]. Qed.

(** Lowering succeeds only when every name the expression reads is in scope or
    a tracked global. *)
Lemma lower_free c G drv sc e : within c G drv -> forall g p g',
  lowerExpr c sc e g = Some (p, g') -> freeNames e ⊆ dom sc ∪ G.
Proof.
  intros [Hg _].
  assert (forall l, Forall (fun e => forall g p g', lowerExpr c sc e g = Some (p, g') -> freeNames e ⊆ dom sc ∪ G) l ->
    forall g ps g', lowerExprs c sc l g = Some (ps, g') -> freeAll l ⊆ dom sc ∪ G) as Hl.
  { induction 1 as [|x l Hx Hl IH]; intros g ps g' E; [unfold freeAll; simpl; set_solver|].
    apply lowerExprs_cons in E as (p & qs & g1 & -> & E1 & E2). unfold freeAll. simpl.
    pose proof (Hx _ _ _ E1). pose proof (IH _ _ _ E2). unfold freeAll in *. set_solver. }
  induction e using Ast.Expr_ind'; intros g p g' E; try done; try (simpl; set_solver).
  - simpl in E. unfold lowerName in E.
    destruct (sc !! x) eqn:Ex; [simpl; apply elem_of_dom_2 in Ex; set_solver|].
    destruct (globals c x) eqn:Egl; [|done]. apply Hg in Egl. simpl. set_solver.
  - rewrite lower_list in E. brun. by eapply Hl.
  - simpl in E. brun. simpl. apply IHe1 in E1. apply IHe2 in E2. set_solver.
  - simpl in E. destruct op; try done. brun. simpl. by eapply IHe.
  - rewrite lower_bool in E. brun. by eapply Hl.
  - rewrite lower_compare in E. brun. simpl. apply IHe in E0. eapply Hl in E1; [|done].
    unfold freeAll in *. set_solver.
  - destruct e; try done. rewrite lower_call in E. brun. eapply Hl in E1; [|by apply Forall_map].
    unfold freeAll in E1. by rewrite map_map in E1.
  - simpl in E. brun. simpl. by eapply IHe.
  - apply lower_subscript in E as (? & ? & ? & E1 & E2 & _). simpl. apply IHe1 in E1. apply IHe2 in E2.
    set_solver.
Qed.

(** ** The representation the bridge tracks *)

Lemma foldConst_bin op l r v :
  foldConstInt (Bin op l r) = Some v ->
  exists a b, foldConstInt l = Some a /\ foldConstInt r = Some b /\ foldIntOp op a b = Some v.
Proof.
  simpl. destruct (foldConstInt l) as [a|]; [|done]. destruct (foldConstInt r) as [b|]; [|done].
  destruct (foldIntOp op a b) as [z|] eqn:E; [|done]. destruct (z =? MinInt64); [done|].
  intros [= ->]. by exists a, b.
Qed.

(** The three outcomes of the binary case. *)
Lemma bridgeBin_cases op l lr r rr res x rx :
  bridgeBin op l lr r rr res = (x, rx) ->
  (exists v, foldConstInt (Bin op l r) = Some v /\ x = Int v /\ rx = res) \/
  foldConstInt (Bin op l r) = None /\
  ((exists z, rightIdentity op = Some z /\ r = Int z /\ RScalar lr = SInt /\ x = l /\ rx = lr) \/
   (exists z, leftIdentity op = Some z /\ l = Int z /\ RScalar rr = SInt /\ x = r /\ rx = rr) \/
   x = Bin op l r /\ rx = res).
Proof.
  unfold bridgeBin. destruct (foldConstInt (Bin op l r)) as [v|].
  { intros [= <- <-]. left. by exists v. }
  intros H. right. split; [done|]. revert H. unfold simplifyIntIdentity, isSInt.
  destruct (negb _); [intros [= <- <-]; auto|].
  assert (forall e z, isIntConst e z = true -> e = Int z) as Hc.
  { intros e z. destruct e; try done. simpl. intros ->%Z.eqb_eq. done. }
  destruct (rightIdentity op) as [z|] eqn:Er.
  - destruct (bool_decide_reflect (RScalar lr = SInt)) as [Hl|]; simpl.
    + destruct (isIntConst r z) eqn:Ez; [intros [= <- <-]; left; exists z; auto|].
      destruct (leftIdentity op) as [y|] eqn:El; [|intros [= <- <-]; auto].
      destruct (bool_decide_reflect (RScalar rr = SInt)); simpl; [|intros [= <- <-]; auto].
      destruct (isIntConst l y) eqn:Ey; [intros [= <- <-]; right; left; exists y; auto|intros [= <- <-]; auto].
    + destruct (leftIdentity op) as [y|] eqn:El; [|intros [= <- <-]; auto].
      destruct (bool_decide_reflect (RScalar rr = SInt)); simpl; [|intros [= <- <-]; auto].
      destruct (isIntConst l y) eqn:Ey; [intros [= <- <-]; right; left; exists y; auto|intros [= <- <-]; auto].
  - destruct (leftIdentity op) as [y|] eqn:El; [|intros [= <- <-]; auto].
    destruct (bool_decide_reflect (RScalar rr = SInt)); simpl; [|intros [= <- <-]; auto].
    destruct (isIntConst l y) eqn:Ey; [intros [= <- <-]; right; left; exists y; auto|intros [= <- <-]; auto].
Qed.

Lemma lowerConn_shape k acc accR ps x r :
  lowerConn k acc accR ps = Some (x, r) -> ps <> [] -> exists a b, x = And a b \/ x = Or a b.
Proof.
  revert acc. induction ps as [|[y ry] ps IH]; intros acc E Hne; [done|]. simpl in E.
  destruct (_ && _); [|done]. destruct ps as [|p ps].
  - simpl in E. destruct k; simplify_eq; eauto.
  - by apply IH in E.
Qed.

Lemma lowerChain_shape acc lhs ops rs x r :
  lowerChain acc lhs ops rs = Some (x, r) ->
  r = boolRepr /\ (acc = Some x \/ (exists a b, x = And a b) \/ (exists o a b, x = Cmp o a b)).
Proof.
  revert acc lhs rs. induction ops as [|k ops IH]; intros acc lhs [|p rs] E; simpl in E; try done.
  - destruct acc; simplify_eq/=. auto.
  - destruct (cmpOp k) as [op|]; [|done]. simpl in E. destruct (cmpOperands _ _ _); [|done].
    apply IH in E as [-> [H|[H|H]]]; [|auto..]. split; [done|]. right.
    destruct acc; simplify_eq; eauto 6.
Qed.

(** A constant expression the bridge returns is a literal. *)
Definition constLit (p : Expr * Repr) : Prop :=
  forall v, foldConstInt p.1 = Some v -> p.1 = Int v /\ p.2 = intRepr /\ in64 v = true.

Lemma foldIntOp_res op a b v res :
  foldIntOp op a b = Some v -> binResult op intRepr intRepr = Some res -> res = intRepr.
Proof. destruct op; try done; intros _ [= <-]; done. Qed.

Lemma lower_const c sc e : localOnly c -> forall g p g', lowerExpr c sc e g = Some (p, g') -> constLit p.
Proof.
  intros [Hg _]. induction e using Ast.Expr_ind'; intros g p g' E w Hv; try done.
  - simpl in E. unfold lowerName in E. rewrite Hg in E. destruct (sc !! x); [|done]. brun. by subst.
  - simpl in E. brun. subst. simpl in Hv. simplify_eq. unfold ParseInt in E0.
    destruct (literal t) as [z|]; [|done]. simpl in E0. destruct (in64 z) eqn:Ez; [|done]. by simplify_eq/=.
  - simpl in E. brun. by subst.
  - simpl in E. brun. by subst.
  - simpl in E. brun. by subst.
  - rewrite lower_list in E. brun. unfold lowerListLit in E. destruct a as [|[? ?] ?]; [done|].
    destruct (forallb _ _); [|done]. by simplify_eq/=.
  - simpl in E. brun. destruct p as [x rx]. symmetry in E. apply bridgeBin_cases in E.
    pose proof (IHe1 _ _ _ E1) as C1. pose proof (IHe2 _ _ _ E2) as C2. unfold constLit in C1, C2.
    cbn [fst snd] in *.
    destruct E as [(z & Hz & -> & ->)|(Hn & [(z & _ & -> & _ & -> & ->)|[(z & _ & -> & _ & -> & ->)|[-> ->]]])].
    + simpl in Hv. simplify_eq. destruct (foldConst_bin _ _ _ _ Hz) as (x & y & Hx & Hy & Ho).
      destruct (C1 x Hx) as (-> & -> & Ix). destruct (C2 y Hy) as (-> & -> & Iy).
      split; [done|]. split; [by eapply foldIntOp_res|].
      apply foldIntOp_intBin in Ho. by destruct (intBin_in64 _ _ _ _ Ix Iy Ho).
    + by apply C1.
    + by apply C2.
    + congruence.
  - simpl in E. destruct op; try done. brun. by subst.
  - rewrite lower_bool in E. brun. unfold lowerBoolOp in E. destruct a as [|[a ar] [|q l']]; try done.
    destruct (connScalar _); [|done]. destruct p as [x rx].
    apply lowerConn_shape in E as (? & ? & [->| ->]); [by simpl in Hv..|done].
  - rewrite lower_compare in E. brun. destruct p as [x rx].
    apply lowerChain_shape in E as [_ [H1|[(? & ? & ->)|(? & ? & ? & ->)]]]; by simpl in Hv.
  - destruct e; try done. rewrite lower_call in E. brun. unfold lowerCall in E.
    destruct (_ && _); [|done]. by simplify_eq/=.
  - simpl in E. brun. unfold lowerAttribute in E. destruct (RShape _); [|done]. simpl in E.
    destruct (Field _ _); [|done]. by simplify_eq/=.
  - apply lower_subscript in E as ([? ?] & ? & [? ?] & _ & _ & E). unfold lowerSubscript in E.
    destruct (Elem _); try done. simpl in E. destruct (isScalar _ _); [|done]. by simplify_eq/=.
Qed.

Section Typed.
Context (sigs : string -> option (list Repr * Repr)) (G : gmap string Repr).
Local Notation ety := (ety sigs).
Local Notation etys := (etys sigs).

(** The pieces of a well-typed expression are well typed. *)
Definition typedE (e : Expr) : Prop := exists r, ety G e r.

Lemma connRepr_idem r : connRepr (connRepr r) = connRepr r.
Proof. unfold connRepr. destruct (isScalar SBool r) eqn:E; [done|]. by rewrite E. Qed.

Lemma conn_ety k acc accR ps x r rx :
  lowerConn k acc accR ps = Some (x, r) -> ety G x rx ->
  typedE acc /\ Forall (fun p => typedE p.1) ps /\
  ((forall ra, ety G acc ra -> connRepr ra = connRepr accR) -> ps <> [] -> rx = connRepr accR).
Proof.
  revert acc rx. induction ps as [|[y ry] ps IH]; intros acc rx E Hx; simpl in E.
  - simplify_eq. split_and!; [by exists rx|constructor|done].
  - destruct (_ && _); [|done].
    set (acc' := match k with Ast.BoolAnd => And acc y | Ast.BoolOr => Or acc y end) in *.
    destruct (IH acc' rx E Hx) as ([ra Ha] & Hps & Hr).
    assert (exists la ly, ety G acc la /\ ety G y ly /\ ra = connRepr la) as (la & ly & Hla & Hly & ->)
      by (unfold acc' in Ha; destruct k; inversion Ha; subst; eauto 6).
    split_and!; [by exists la|constructor; [by exists ly|done]|]. intros Hacc _.
    assert (forall ra, ety G acc' ra -> ra = connRepr accR) as Hacc'.
    { intros ra H. unfold acc' in H. destruct k; inversion H; subst; by apply Hacc. }
    destruct ps as [|q ps].
    + simpl in E. injection E as -> _. by apply Hacc'.
    + apply Hr; [|done]. intros rb Hb. rewrite (Hacc' rb Hb). apply connRepr_idem.
Qed.

Lemma chain_ety acc lhs ops rs x r rx :
  lowerChain acc lhs ops rs = Some (x, r) -> ety G x rx ->
  (forall a, acc = Some a -> typedE a) /\ (ops <> [] -> typedE lhs.1) /\
  Forall (fun p => typedE p.1) rs /\
  ((forall a ra, acc = Some a -> ety G a ra -> ra = boolRepr) -> rx = boolRepr).
Proof.
  revert acc lhs rs. induction ops as [|k ops IH]; intros acc lhs [|p rs] E Hx; simpl in E; try done.
  - destruct acc as [a|]; simplify_eq/=. split_and!; [|done|constructor|by eauto].
    intros a [= <-]. by exists rx.
  - destruct (cmpOp k) as [op|]; [|done]. simpl in E. destruct (cmpOperands _ _ _); [|done].
    destruct (IH _ _ _ E Hx) as (Ha & Hp & Hrs & Hr). destruct (Ha _ eq_refl) as [ra Hta].
    assert (typedE lhs.1 /\ typedE p.1 /\ forall a, acc = Some a -> typedE a) as (Hl & Hpt & Hacc).
    { destruct acc as [a|].
      - inversion Hta as [| | | | | | |? ? ? ? Hc1 Hc2 | | | | | |]; subst. inversion Hc2; subst. split_and!; [by eexists..|].
        intros ? [= <-]. by eexists.
      - inversion Hta; subst. split_and!; [by eexists..|done]. }
    split_and!; [done|done|by constructor|]. intros Hb. apply Hr. intros a rb [= <-] Hab.
    destruct acc as [a|].
    + inversion Hab as [| | | | | | |? ? ? ? Hc1 Hc2 | | | | | |]; subst. unfold connRepr.
      by rewrite (Hb a _ eq_refl Hc1).
    + by inversion Hab.
Qed.

Lemma etys_typed es rs : etys G es rs -> Forall typedE es.
Proof. induction 1; constructor; [by eexists|done]. Qed.

Lemma lit_typed z : in64 z = true -> typedE (Int z).
Proof. intros. exists intRepr. by constructor. Qed.

(** The operands of a binary node, whatever it was rewritten to. *)
Lemma bin_typed op l lr r rr res x rx :
  bridgeBin op l lr r rr res = (x, rx) -> constLit (l, lr) -> constLit (r, rr) -> typedE x ->
  typedE l /\ typedE r.
Proof.
  intros E Cl Cr Hx. unfold constLit in *. cbn [fst snd] in *. apply bridgeBin_cases in E.
  destruct E as [(z & Hz & -> & ->)|(Hn & [(z & _ & -> & _ & -> & ->)|[(z & _ & -> & _ & -> & ->)|[-> ->]]])].
  - destruct (foldConst_bin _ _ _ _ Hz) as (a & b & Ha & Hb & _).
    destruct (Cl a Ha) as (-> & _ & Ia). destruct (Cr b Hb) as (-> & _ & Ib). split; by apply lit_typed.
  - split; [done|]. destruct (Cr z eq_refl) as (_ & _ & I). by apply lit_typed.
  - split; [|done]. destruct (Cl z eq_refl) as (_ & _ & I). by apply lit_typed.
  - destruct Hx as [q Hq]. inversion Hq; subst. split; by eexists.
Qed.

(** The bridge's representation is the type. *)
Lemma lower_repr c sc e : localOnly c -> forall g x r g' rx,
  lowerExpr c sc e g = Some ((x, r), g') -> ety G x rx -> rx = r.
Proof.
  intros Hloc. pose proof Hloc as [Hg _].
  induction e using Ast.Expr_ind'; intros g y ry g' rx E Hx; try done.
  - simpl in E. unfold lowerName in E. rewrite Hg in E. destruct (sc !! x); [|done]. brun. simplify_eq.
    by inversion Hx.
  - simpl in E. brun. simplify_eq. by inversion Hx.
  - simpl in E. brun. simplify_eq. by inversion Hx.
  - simpl in E. brun. simplify_eq. by inversion Hx.
  - simpl in E. brun. simplify_eq. by inversion Hx.
  - rewrite lower_list in E. brun. unfold lowerListLit in E. destruct a as [|[? ?] ?]; [done|].
    destruct (forallb _ _); [|done]. simplify_eq. by inversion Hx.
  - simpl in E. brun. symmetry in E. pose proof (lower_const _ _ _ Hloc _ _ _ E1) as C1.
    pose proof (lower_const _ _ _ Hloc _ _ _ E2) as C2. unfold constLit in C1, C2. cbn [fst snd] in *.
    apply bridgeBin_cases in E.
    destruct E as [(z & Hz & -> & ->)|(Hn & [(z & _ & -> & _ & -> & ->)|[(z & _ & -> & _ & -> & ->)|[-> ->]]])].
    + destruct (foldConst_bin _ _ _ _ Hz) as (u & v & Hu & Hv & Ho).
      destruct (C1 u Hu) as (-> & -> & _). destruct (C2 v Hv) as (-> & -> & _).
      inversion Hx; subst. symmetry. by eapply foldIntOp_res.
    + by eapply IHe1.
    + by eapply IHe2.
    + inversion Hx as [| | | | |? ? ? ? ? ? Hl Hr| | | | | | | |]; subst.
      pose proof (IHe1 _ _ _ _ _ E1 Hl). pose proof (IHe2 _ _ _ _ _ E2 Hr). by simplify_eq.
  - simpl in E. destruct op; try done. brun. simplify_eq. by inversion Hx.
  - rewrite lower_bool in E. brun. unfold lowerBoolOp in E. destruct a as [|[a ar] [|q l']]; try done.
    destruct (connScalar _); [|done].
    assert (ry = connRepr ar) as ->.
    { clear -E. revert a E. generalize (q :: l'). intros ps. induction ps as [|[u ru] ps IH]; intros a E; simpl in E.
      - by simplify_eq.
      - destruct (_ && _); [|done]. by apply IH in E. }
    destruct (conn_ety _ _ _ _ _ _ _ E Hx) as (_ & _ & Hr). apply Hr; [|done]. intros ra Ha.
    destruct l as [|e l]; [done|]. apply lowerExprs_cons in E0 as (p & qs & g1 & [= <- <-] & E1 & _).
    inversion H as [|? ? He _]; subst. by rewrite (He _ _ _ _ _ E1 Ha).
  - rewrite lower_compare in E. brun. destruct (lowerChain_shape _ _ _ _ _ _ E) as [-> _].
    by destruct (chain_ety _ _ _ _ _ _ _ E Hx) as (_ & _ & _ & Hr); apply Hr.
  - destruct e; try done. rewrite lower_call in E. brun. unfold lowerCall in E.
    destruct (_ && _); [|done]. simplify_eq/=. by inversion Hx.
  - simpl in E. brun. unfold lowerAttribute in E. destruct a as [b br]. cbn [fst snd] in E.
    destruct (RShape br) as [s|] eqn:Es; [|done]. simpl in E. destruct (Field s n) as [fr|] eqn:Ef; [|done].
    simplify_eq/=. inversion Hx as [| | | | | | | | | | |? ? br' s' ? Hb _ _ Hsh Hfl _| |]; subst.
    pose proof (IHe _ _ _ _ _ E0 Hb). by simplify_eq.
  - apply lower_subscript in E as ([b br] & ga & [i ir] & Eb & Ei & Es).
    unfold lowerSubscript in Es. cbn [fst snd] in Es. destruct (Elem br) as [el|] eqn:Ee; [|done].
    simpl in Es. destruct (isScalar _ _); [|done]. simplify_eq.
    inversion Hx as [| | | | | | | | | |? ? br' ? ? Hb _ _ Hel _ _| | |]; subst.
    pose proof (IHe1 _ _ _ _ _ Eb Hb). by simplify_eq.
Qed.
End Typed.

(** ** The rewrites keep the value *)

Lemma pyIntOp_right op c z : rightIdentity op = Some c -> pyIntOp op z c = PyInt z.
Proof.
  destruct op; try done; intros [= <-]; cbn [pyIntOp];
    rewrite ?Z.lor_0_r, ?Z.lxor_0_r, ?Z.pow_1_r, ?Z.div_1_r, ?Z.pow_0_r, ?Z.div_1_r, ?Z.mul_1_r;
    try done; simpl; rewrite ?Z.div_1_r, ?Z.mul_1_r; f_equal; lia.
Qed.

Lemma pyIntOp_left op c z : leftIdentity op = Some c -> pyIntOp op c z = PyInt z.
Proof. destruct op; try done; intros [= <-]; cbn [pyIntOp]; by rewrite ?Z.mul_1_l. Qed.

Lemma rightIdentity_div op c : rightIdentity op = Some c -> op <> OpDiv. Proof. by destruct op. Qed.
Lemma leftIdentity_div op c : leftIdentity op = Some c -> op <> OpDiv. Proof. by destruct op. Qed.

Lemma pyBin_int op x y : op <> OpDiv -> pyBin op (VInt x) (VInt y) = Some (pyInts op x y).
Proof. by destruct op. Qed.

Lemma pyInts_int op x y z : pyIntOp op x y = PyInt z -> pyInts op x y = PRet (VInt z).
Proof. unfold pyInts. by intros ->. Qed.

Section Sem.
Context (callee pcallee : string -> list value -> value + pyexc).
Context (sigs : string -> option (list Repr * Repr)).
Context `{!KindProgram callee sigs}.
Context (c : lowerCtx) (Hloc : localOnly c).
(** A resolved name is the static function it resolves to. *)
Context (Hres : forall f s, resolve c f = Some s -> forall vs, pcallee f vs = callee (GoName s) vs).
Context (G : gmap string Repr) (sg fsg : gmap string value) (Hsg : kindEnv G sg).
Local Notation pyEval := (PySem.pyEval callee sg).
Local Notation fEval := (PyAst.fEval pcallee fsg).
Local Notation typedE := (typedE sigs G).

Lemma fEvals_walk l k :
  (fix go (l : list Ast.Expr) (k : list value -> option pout) : option pout :=
    match l with
    | [] => k []
    | x :: l => pbind (fEval x) (fun v => go l (fun vs => k (v :: vs)))
    end) l k = fEvals pcallee fsg l k.
Proof.
  revert k. induction l as [|x l IH]; intros k; [done|]. simpl.
  destruct (fEval x) as [[v| |]|]; simpl; auto.
Qed.

Lemma fArgs_walk args k :
  (fix go (l : list (Arg Ast.Expr)) (k : list value -> option pout) : option pout :=
    match l with
    | [] => k []
    | a :: l => pbind (fEval (argValue a)) (fun v => go l (fun vs => k (v :: vs)))
    end) args k = fEvals pcallee fsg (map argValue args) k.
Proof.
  revert k. induction args as [|x l IH]; intros k; [done|]. simpl.
  destruct (fEval (argValue x)) as [[v| |]|]; simpl; auto.
Qed.

(** The value of an operand whose type is int. *)
Lemma int_value l lr v rl :
  ety sigs G l rl -> rl = lr -> RScalar lr = SInt -> pyEval l = Some (PRet v) -> exists z, v = VInt z.
Proof.
  intros Hl -> Hi Ev. pose proof (ety_kind callee sigs G l lr sg Hl Hsg) as Hk. rewrite Ev in Hk. cbn in Hk.
  rewrite (hasKind_scalar lr v SInt) in Hk by done. destruct v; try done. eauto.
Qed.

Lemma bin_sem op l lr r rr res x rx :
  bridgeBin op l lr r rr res = (x, rx) -> constLit (l, lr) -> constLit (r, rr) ->
  (forall q, ety sigs G l q -> q = lr) -> (forall q, ety sigs G r q -> q = rr) ->
  typedE l -> typedE r ->
  pyEval x = pbind (pyEval l) (fun v => pbind (pyEval r) (pyBin op v)).
Proof.
  intros E Cl Cr Ul Ur [tl Hl] [tr Hr]. unfold constLit in *. cbn [fst snd] in *. apply bridgeBin_cases in E.
  destruct E as [(z & Hz & -> & ->)|(Hn & [(z & Hz & -> & Hi & -> & ->)|[(z & Hz & -> & Hi & -> & ->)|[-> ->]]])];
    [| | |done].
  - destruct (foldConst_bin _ _ _ _ Hz) as (a & b & Ha & Hb & Ho).
    destruct (Cl a Ha) as (-> & _ & Ia). destruct (Cr b Hb) as (-> & _ & Ib).
    assert (op <> OpDiv) as Hd by by intros ->. cbn [PySem.pyEval pbind]. rewrite pyBin_int by done.
    apply foldIntOp_intBin in Ho. by destruct (intBin_py _ _ _ _ Ia Ib Ho) as [_ ->].
  - destruct (pyEval l) as [[v| |]|] eqn:Ev; try done. cbn [pbind PySem.pyEval].
    destruct (int_value l lr v tl Hl (Ul _ Hl) Hi Ev) as [y ->].
    rewrite pyBin_int by by eapply rightIdentity_div. by rewrite (pyInts_int op y z y) by by apply pyIntOp_right.
  - cbn [pbind PySem.pyEval]. destruct (pyEval r) as [[v| |]|] eqn:Ev; try done. cbn [pbind].
    destruct (int_value r rr v tr Hr (Ur _ Hr) Hi Ev) as [y ->].
    rewrite pyBin_int by by eapply leftIdentity_div. by rewrite (pyInts_int op z y y) by by apply pyIntOp_left.
Qed.

Definition thunks (ps : list (Expr * Repr)) : list (unit -> option pout) :=
  map (fun p (_ : unit) => pyEval p.1) ps.

Lemma connEval_ext k v es fs :
  Forall2 (fun e f : unit -> option pout => e tt = f tt) es fs -> connEval k v es = connEval k v fs.
Proof.
  intros H. revert v. induction H as [|e f es fs He H IH]; intros v; [done|]. simpl. rewrite He.
  destruct (truth v) as [b|]; [|done]. destruct (match k with Ast.BoolAnd => b | Ast.BoolOr => negb b end); [|done].
  destruct (f tt) as [[w| |]|]; simpl; auto.
Qed.

Lemma chainEval_ext v ops es fs :
  Forall2 (fun e f : unit -> option pout => e tt = f tt) es fs -> chainEval v ops es = chainEval v ops fs.
Proof.
  intros H. revert v ops. induction H as [|e f es fs He H IH]; intros v ops; [done|].
  destruct ops as [|k ops]; [done|].
  assert (forall w, chainEval w ops es = chainEval w ops fs) as IH' by (intros; apply IH).
  simpl. rewrite He. destruct H as [|e' f' es fs He' H].
  - destruct ops as [|k' ops]; [done|]. destruct (pyCmpOp k); [|done]. simpl.
    destruct (f tt) as [[w| |]|]; simpl; try done.
  - destruct ops as [|k' ops]; (destruct (pyCmpOp k); [|done]); simpl;
      (destruct (f tt) as [[w| |]|]; simpl; try done); (destruct (pyCmp _ v w) as [[u| |]|]; simpl; try done);
      (destruct (truth u) as [[]|]; try done); apply IH'.
Qed.

Lemma connEval_decided k v es :
  truth v = Some (match k with Ast.BoolAnd => false | Ast.BoolOr => true end) ->
  connEval k v es = Some (PRet v).
Proof. destruct es; [done|]. simpl. intros ->. by destruct k. Qed.

Lemma conn_sem k acc accR ps x r :
  lowerConn k acc accR ps = Some (x, r) ->
  pyEval x = pbind (pyEval acc) (fun v => connEval k v (thunks ps)).
Proof.
  revert acc. induction ps as [|[y ry] ps IH]; intros acc E; simpl in E.
  - simplify_eq. simpl. by destruct (pyEval x) as [[]|].
  - destruct (_ && _); [|done]. rewrite (IH _ E).
    assert (pyEval (match k with Ast.BoolAnd => And acc y | Ast.BoolOr => Or acc y end) =
      pbind (pyEval acc) (fun v => match truth v with
        | Some b => if match k with Ast.BoolAnd => b | Ast.BoolOr => negb b end then pyEval y else Some (PRet v)
        | None => None end)) as ->.
    { destruct k; simpl; destruct (pyEval acc) as [[v| |]|]; simpl; try done; by destruct (truth v) as [[]|]. }
    destruct (pyEval acc) as [[v| |]|]; simpl; try done. destruct (truth v) as [b|] eqn:Et; [|done].
    destruct k, b; simpl; try done; by apply connEval_decided.
Qed.

Lemma pyCmpOp_cmpOp k : pyCmpOp k = cmpOp k. Proof. by destruct k. Qed.
Lemma pyOp_binOp k : pyOp k = binOp k. Proof. by destruct k. Qed.

(** The guarded continuation of a connective's left value. *)
Definition onTrue (A B : option pout) : option pout :=
  pbind A (fun w => match truth w with Some true => B | Some false => Some (PRet w) | None => None end).

Lemma onTrue_assoc A B C : onTrue (onTrue A B) C = onTrue A (onTrue B C).
Proof. unfold onTrue. destruct A as [[w| |]|]; simpl; try done. destruct (truth w) as [[]|] eqn:E; simpl; by rewrite ?E. Qed.

Lemma chain_one k op (l r : Expr * Repr) :
  cmpOp k = Some op ->
  pyEval (Cmp op l.1 r.1) =
  pbind (pyEval l.1) (fun v => chainEval v [k] (thunks [r])).
Proof. intros Ek. simpl. destruct (pyEval l.1) as [[v| |]|]; simpl; try done. by rewrite pyCmpOp_cmpOp, Ek. Qed.

Lemma chain_step k k' op ops (l r q : Expr * Repr) rs :
  cmpOp k = Some op ->
  onTrue (pyEval (Cmp op l.1 r.1)) (pbind (pyEval r.1) (fun v => chainEval v (k' :: ops) (thunks (q :: rs)))) =
  pbind (pyEval l.1) (fun v => chainEval v (k :: k' :: ops) (thunks (r :: q :: rs))).
Proof.
  intros Ek. unfold onTrue. cbn [PySem.pyEval]. destruct (pyEval l.1) as [[v| |]|]; try done. cbn [pbind].
  cbn [chainEval thunks map]. rewrite (pyCmpOp_cmpOp k), Ek. cbn [mbind option_bind].
  by destruct (pyEval r.1) as [[w| |]|].
Qed.

Lemma chain_sem acc lhs ops rs x r :
  lowerChain acc lhs ops rs = Some (x, r) -> ops <> [] ->
  pyEval x =
  match acc with
  | None => pbind (pyEval lhs.1) (fun v => chainEval v ops (thunks rs))
  | Some a => onTrue (pyEval a) (pbind (pyEval lhs.1) (fun v => chainEval v ops (thunks rs)))
  end.
Proof.
  revert acc lhs rs. induction ops as [|k ops IH]; intros acc lhs [|p rs] E Hne; simpl in E; try done.
  destruct (cmpOp k) as [op|] eqn:Ek; [|done]. simpl in E. destruct (cmpOperands _ _ _); [|done].
  destruct ops as [|k' ops], rs as [|q rs]; try done.
  - injection E as <- _. destruct acc as [a|]; [|by apply chain_one].
    change (onTrue (pyEval a) (pyEval (Cmp op lhs.1 p.1)) =
      onTrue (pyEval a) (pbind (pyEval lhs.1) (fun v => chainEval v [k] (thunks [p])))).
    f_equal. by apply chain_one.
  - rewrite (IH _ _ _ E) by done. destruct acc as [a|]; [|by apply chain_step].
    change (pyEval (And a (Cmp op lhs.1 p.1))) with (onTrue (pyEval a) (pyEval (Cmp op lhs.1 p.1))).
    rewrite onTrue_assoc. f_equal. by apply chain_step.
Qed.

(** What the induction gives for one expression. *)
Definition means (e : Ast.Expr) : Prop := forall sc g x r g',
  lowerExpr c sc e g = Some ((x, r), g') -> typedE x ->
  (forall y, y ∈ freeNames e -> sg !! y = fsg !! y) -> pyEval x = fEval e.

Lemma means_list sc l g ps g' :
  Forall means l -> lowerExprs c sc l g = Some (ps, g') -> Forall (fun p => typedE p.1) ps ->
  (forall y, y ∈ freeAll l -> sg !! y = fsg !! y) -> Forall2 (fun p e => pyEval p.1 = fEval e) ps l.
Proof.
  intros Hm. revert g ps g'. induction Hm as [|e l He Hm IH]; intros g ps g' E Ht Hy.
  - simpl in E. brun. subst. constructor.
  - apply lowerExprs_cons in E as ([x r] & qs & g1 & -> & E1 & E2). inversion Ht; subst.
    unfold freeAll in Hy. simpl in Hy. constructor.
    + eapply He; [exact E1|done|]. intros y Hin. apply Hy. set_solver.
    + eapply IH; [exact E2|done|]. intros y Hin. apply Hy. unfold freeAll in Hin. set_solver.
Qed.

Lemma means_thunks (ps : list (Expr * Repr)) l :
  Forall2 (fun p e => pyEval p.1 = fEval e) ps l ->
  Forall2 (fun e f : unit -> option pout => e tt = f tt) (thunks ps) (map (fun e (_ : unit) => fEval e) l).
Proof. induction 1; simpl; constructor; auto. Qed.

Lemma means_evals (ps : list (Expr * Repr)) l k :
  Forall2 (fun p e => pyEval p.1 = fEval e) ps l ->
  pyEvals callee sg (map fst ps) k = fEvals pcallee fsg l k.
Proof.
  intros H. revert k. induction H as [|p e ps l Hp H IH]; intros k; [done|]. simpl. rewrite Hp.
  destruct (fEval e) as [[v| |]|]; simpl; auto.
Qed.

Lemma means_bin k l r : means l -> means r -> means (Ast.BinOp k l r).
Proof.
  intros Hl Hr sc g x q g' E Hx Hy. simpl in E. brun. destruct (bridgeBin _ _ _ _ _ _) as [y ry] eqn:Eb.
  simplify_eq. pose proof (lower_const _ _ _ Hloc _ _ _ E1) as C1. pose proof (lower_const _ _ _ Hloc _ _ _ E2) as C2.
  destruct (bin_typed sigs G _ _ _ _ _ _ _ _ Eb C1 C2 Hx) as [T1 T2].
  rewrite (bin_sem _ _ _ _ _ _ _ _ Eb C1 C2); [|by intros; eapply lower_repr|by intros; eapply lower_repr|done..].
  simpl. rewrite pyOp_binOp, E0. simpl. simpl in Hy.
  rewrite (Hl _ _ _ _ _ E1 T1), (Hr _ _ _ _ _ E2 T2); [done|..]; intros z Hz; apply Hy; set_solver.
Qed.

Lemma means_all e : means e.
Proof.
  induction e using Ast.Expr_ind'; intros sc g y ry g' E Hx Hy; try done.
  - simpl in E. unfold lowerName in E. destruct Hloc as [Hg _]. rewrite Hg in E.
    destruct (sc !! x); [|done]. brun. simplify_eq. simpl. rewrite Hy; [done|]. simpl. set_solver.
  - simpl in E. brun. simplify_eq. simpl. unfold ParseInt in E0. destruct (literal t); [|done]. simpl in E0.
    by destruct (in64 z); simplify_eq.
  - simpl in E. brun. by simplify_eq.
  - simpl in E. brun. by simplify_eq.
  - simpl in E. brun. by simplify_eq.
  - rewrite lower_list in E. brun. unfold lowerListLit in E.
    destruct a as [|[x0 r0] ps] eqn:Ea; [done|]. rewrite <- Ea in *. destruct (forallb _ _); [|done].
    simplify_eq. destruct Hx as [q Hq]. inversion Hq; subst. cbn [PySem.pyEval PyAst.fEval].
    rewrite pyEval_walk, fEvals_walk. apply (means_evals (_ :: _)). eapply means_list; eauto.
    apply Forall_map. by eapply etys_typed.
  - by eapply means_bin.
  - simpl in E. destruct op; try done. brun. simplify_eq. destruct Hx as [q Hq]. inversion Hq; subst. simpl.
    rewrite (IHe _ _ _ _ _ E0); [done|by eexists|done].
  - rewrite lower_bool in E. brun. unfold lowerBoolOp in E.
    destruct a as [|[x0 r0] [|q ps]]; try done. destruct (connScalar _); [|done]. destruct Hx as [rx Hx].
    destruct (conn_ety sigs G _ _ _ _ _ _ _ E Hx) as (T0 & Tps & _). rewrite (conn_sem _ _ _ _ _ _ E).
    pose proof (means_list _ _ _ _ _ H E0 (Forall_cons_2 _ (x0, r0) _ T0 Tps) Hy) as HF.
    inversion HF as [|? e ? l' He HF']; subst. cbn [PyAst.fEval]. cbn [fst] in He. rewrite He.
    destruct (fEval e) as [[v| |]|]; try done. cbn [pbind]. apply connEval_ext. by apply means_thunks.
  - rewrite lower_compare in E. brun. destruct Hx as [rx Hx].
    destruct (chain_ety sigs G _ _ _ _ _ _ _ E Hx) as (_ & Tl & Trs & _). simpl in Hy.
    destruct ops as [|k ops]; [by destruct a0|]. rewrite (chain_sem _ _ _ _ _ _ E) by done.
    destruct a as [x0 r0]. cbn [fst]. rewrite (IHe _ _ _ _ _ E0); [|by apply Tl|intros z Hz; apply Hy; set_solver].
    cbn [PyAst.fEval]. destruct (fEval e) as [[v| |]|]; try done. cbn [pbind]. apply chainEval_ext.
    apply means_thunks. eapply means_list; eauto. intros z Hz. apply Hy. unfold freeAll in Hz. set_solver.
  - destruct e; try done. rewrite lower_call in E. brun. unfold lowerCall in E.
    destruct (_ && _); [|done]. simplify_eq. destruct Hx as [q Hq]. inversion Hq; subst.
    cbn [PySem.pyEval PyAst.fEval]. rewrite C, pyEval_walk, fArgs_walk.
    rewrite (means_evals _ (map argValue args)).
    + assert (forall l k k', (forall vs, k vs = k' vs) -> fEvals pcallee fsg l k = fEvals pcallee fsg l k') as Hext.
      { induction l as [|x l IH]; intros k k' Hk; [apply Hk|]. simpl.
        destruct (fEval x) as [[v| |]|]; simpl; auto. }
      apply Hext. intros vs. unfold pyCall. by rewrite (Hres _ _ E0).
    + eapply means_list; [by apply Forall_map|exact E1| |].
      * apply Forall_map. by eapply etys_typed.
      * intros z Hz. apply Hy. simpl. unfold freeAll in Hz. by rewrite map_map in Hz.
  - simpl in E. brun. unfold lowerAttribute in E. destruct a as [b br]. cbn [fst snd] in E.
    destruct (RShape br) as [s|]; [|done]. simpl in E. destruct (Field s n); [|done]. simplify_eq/=.
    destruct Hx as [q Hq]. inversion Hq; subst. rewrite (IHe _ _ _ _ _ E0); [done|by eexists|done].
  - apply lower_subscript in E as ([b br] & ga & [i ir] & Eb & Ei & Es). unfold lowerSubscript in Es.
    cbn [fst snd] in Es. destruct (Elem br); [|done]. simpl in Es. destruct (isScalar _ _); [|done]. simplify_eq/=.
    destruct Hx as [q Hq]. inversion Hq; subst. simpl in Hy.
    rewrite (IHe1 _ _ _ _ _ Eb), (IHe2 _ _ _ _ _ Ei); [done|by eexists| |by eexists|];
      intros z Hz; apply Hy; set_solver.
Qed.
End Sem.
