(* ===== verification/BridgeScope.v ===== *)
(** * BridgeScope: nothing lowered reads an unbound name

    A definite-assignment analysis of the frontend's tree ([definite]), and the
    proof that the bridge's scope computes it: a block is lowered only if every
    name it reads is bound on every path that reaches the read or is a tracked
    global, so Python's UnboundLocalError is never hidden by Go's zero value.
    The one exception is the handle of a driven generator, whose name a loop's
    body may read.  Also the fresh names of hoisted temporaries. *)

From S2P Require Import Prelude Ast Int64 StaticOps Fold GoSem Emit IrCost PySem EmitTyping EmitEnv.
From S2P Require Import Bridge PyAst BridgeExpr.
Local Open Scope Z_scope.

(** ** Fresh names *)

Lemma candidate_inj p i j : candidate p i = candidate p j -> i = j.
Proof.
  assert (forall n, p <> p +:+ itoaN (S n)) as Hne.
  { intros n E. destruct (itoaN_nonempty (S n)) as (c & s & Es). rewrite Es in E.
    assert (p +:+ "" = p) as Ep by (clear; induction p; simpl; congruence).
    rewrite <- Ep in E at 1. by apply append_inj_l in E. }
  destruct i as [|i], j as [|j]; simpl; [done|intros E..].
  - by apply Hne in E.
  - symmetry in E. by apply Hne in E.
  - apply append_inj_l in E. by apply (itoaN_inj (S i) (S j)) in E.
Qed.

Lemma targetHits_names e : forall x, targetHits e x = true -> x ∈ targetNames e.
Proof.
  induction e using Ast.Expr_ind'; intros y Hy; simpl in *; try done.
  - apply String.eqb_eq in Hy as ->. by left.
  - apply existsb_exists in Hy as (e & He & Hy). apply list_elem_of_In in He.
    rewrite Forall_forall in H. apply list_elem_of_In, in_concat. exists (targetNames e).
    split; apply list_elem_of_In; [by apply list_elem_of_fmap_2|by apply H].
Qed.

Lemma existsb_concat {A} (f : A -> bool) (g : A -> list string) x l :
  Forall (fun a => f a = true -> x ∈ g a) l -> existsb f l = true -> x ∈ concat (map g l).
Proof.
  intros HF H. apply existsb_exists in H as (a & Ha & Hf). apply list_elem_of_In in Ha.
  rewrite Forall_forall in HF. apply list_elem_of_In, in_concat. exists (g a).
  split; apply list_elem_of_In; [by apply list_elem_of_fmap_2|by apply HF].
Qed.

Lemma stmtAssigns_names s : forall x, stmtAssigns x s = true -> x ∈ assignedNames s.
Proof.
  apply (Ast.Stmt_ind' (fun s => forall x, stmtAssigns x s = true -> x ∈ assignedNames s)); clear s;
    [intros s; destruct s; try done; intros y Hy|intros c t e Ht He y Hy|intros c t e Ht He y Hy
    |intros u i t e a Ht He y Hy]; cbn [stmtAssigns assignedNames] in *.
  - apply (existsb_concat (fun t => targetHits t y)); [|done]. apply Forall_forall. intros t _.
    apply targetHits_names.
  - by apply targetHits_names.
  - by apply targetHits_names.
  - apply orb_true_iff in Hy as [Hy|Hy]; apply elem_of_app; [left|right];
      (eapply existsb_concat; [|exact Hy]); (eapply Forall_impl; [eassumption|eauto]).
  - apply orb_true_iff in Hy as [Hy|Hy]; apply elem_of_app; [left|right];
      (eapply existsb_concat; [|exact Hy]); (eapply Forall_impl; [eassumption|eauto]).
  - apply orb_true_iff in Hy as [Hy|Hy]; [apply orb_true_iff in Hy as [Hy|Hy]|]; rewrite !elem_of_app;
      [left; by apply targetHits_names|right; left|right; right];
      (eapply existsb_concat; [|exact Hy]); (eapply Forall_impl; [eassumption|eauto]).
Qed.

Lemma bodyAssigns_names l x : bodyAssigns l x = true -> x ∈ concat (map assignedNames l).
Proof. apply existsb_concat, Forall_forall. intros s _. apply stmtAssigns_names. Qed.

Lemma freshLoop_none fuel i sc body x p :
  freshLoop fuel i sc body x p = None -> forall j, (i <= j < i + fuel)%nat -> taken sc body x (candidate p j) = true.
Proof.
  revert i. induction fuel as [|fuel IH]; intros i E j Hj; [lia|]. simpl in E.
  destruct (taken sc body x (candidate p i)) eqn:Et; [|done].
  destruct (decide (i = j)) as [->|Hne]; [done|]. apply (IH (S i)); [done|lia].
Qed.

Lemma freshLoop_some fuel i sc body x p y :
  freshLoop fuel i sc body x p = Some y -> taken sc body x y = false.
Proof.
  revert i. induction fuel as [|fuel IH]; intros i E; simpl in E; [done|].
  destruct (taken sc body x (candidate p i)) eqn:Et; [by eapply IH|]. by simplify_eq.
Qed.

(** [freshLocal] always finds a name: the counter stops within one more
    step than there are names in use, and the name is bound nowhere in scope, is
    not the loop's variable and is never assigned in the loop's body. *)
Theorem freshLocal_fresh sc body x p :
  exists y, freshLocal sc body x p = Some y /\ sc !! y = None /\ y <> x /\ bodyAssigns body y = false.
Proof.
  unfold freshLocal. destruct (freshLoop _ 0 sc body x p) as [y|] eqn:E.
  - exists y. split; [done|]. apply freshLoop_some in E. unfold taken in E.
    apply orb_false_iff in E as [E Hb]. apply orb_false_iff in E as [Hs Hx]. bool_to_prop.
    split_and!; [|done|done]. by apply eq_None_not_Some.
  - exfalso. pose proof (freshLoop_none _ _ _ _ _ _ E) as Ht.
    set (used := x :: elements (dom sc : gset string) ++ concat (map assignedNames body)).
    set (cands := map (candidate p) (seq 0 (freshFuel sc body))).
    assert (cands ⊆+ used) as Hsub.
    { apply NoDup_submseteq.
      - apply NoDup_fmap_2_strong; [|apply NoDup_seq]. intros i j _ _. apply candidate_inj.
      - intros y Hy. apply list_elem_of_fmap in Hy as (j & -> & Hj). apply elem_of_seq in Hj.
        specialize (Ht j ltac:(lia)). unfold taken in Ht. rewrite !orb_true_iff in Ht. unfold used.
        rewrite elem_of_cons, elem_of_app, elem_of_elements, elem_of_dom.
        destruct Ht as [[Ht|Ht]|Ht].
        + right; left. by apply bool_decide_eq_true in Ht.
        + left. by apply String.eqb_eq in Ht.
        + right; right. by apply bodyAssigns_names. }
    apply submseteq_length in Hsub. unfold cands, used in Hsub. rewrite length_map, length_seq in Hsub.
    simpl in Hsub. rewrite length_app in Hsub. change (length (elements (dom sc : gset string))) with (size (dom sc : gset string)) in Hsub.
    rewrite size_dom in Hsub. unfold freshFuel in Hsub. lia.
Qed.

(** With more names in scope, the name found is the same or is now in scope. *)
Lemma freshLocal_mono sc sc' body x p y y' : dom sc ⊆ dom sc' ->
  freshLocal sc body x p = Some y -> freshLocal sc' body x p = Some y' -> y' = y \/ y ∈ dom sc'.
Proof.
  intros Hd. unfold freshLocal. generalize (freshFuel sc body) (freshFuel sc' body) 0%nat. intros n.
  induction n as [|n IH]; intros n' i E E'; [done|]. destruct n' as [|n']; [done|]. simpl in E, E'.
  destruct (taken sc body x (candidate p i)) eqn:Et.
  - assert (taken sc' body x (candidate p i) = true) as Et'.
    { unfold taken in *. rewrite !orb_true_iff, !bool_decide_eq_true, <- !elem_of_dom in *. set_solver. }
    rewrite Et' in E'. by eapply IH.
  - injection E as <-. destruct (taken sc' body x (candidate p i)) eqn:Et'; [right|left; by injection E'].
    unfold taken in *. rewrite !orb_true_iff, bool_decide_eq_true, <- elem_of_dom in Et'.
    rewrite !orb_false_iff in Et. destruct Et as [[_ Hx] Hb]. rewrite Hx, Hb in Et'. naive_solver.
Qed.

Lemma freshLocal_dom sc sc' body x p : dom sc = dom sc' -> freshLocal sc body x p = freshLocal sc' body x p.
Proof.
  intros Hd. destruct (freshLocal_fresh sc body x p) as (y & E & _ & _ & _).
  destruct (freshLocal_fresh sc' body x p) as (y' & E' & Hy' & _ & _). rewrite E, E'.
  destruct (freshLocal_mono sc' sc body x p y' y ltac:(by rewrite Hd) E' E) as [->|H]; [done|].
  rewrite Hd in H. by apply not_elem_of_dom in Hy'.
Qed.

(** ** Definite assignment *)

Section Definite.
Context (G : gset string) (drv : string -> bool).

(** Every name of the expression is bound, or a tracked global. *)
Definition bound (X : gset string) (e : Ast.Expr) : bool := bool_decide (freeNames e ⊆ X ∪ G).
Definition boundAll (X : gset string) (l : list Ast.Expr) : bool := bool_decide (freeAll l ⊆ X ∪ G).

(** The name the loop's generator handle gets. *)
Definition handleName (X : gset string) (body : list Ast.Stmt) (x : string) : option string :=
  freshLocal (gset_to_gmap intRepr X) body x "g".

Definition when {A} (c : bool) (o : option A) : option A := if c then o else None.

(** The names surely bound after a statement that starts with [X] bound;
    [None] when it reads a name that may be unbound, or is a statement the static
    tier does not have. *)
Fixpoint definite (s : Ast.Stmt) (X : gset string) {struct s} : option (gset string) :=
  let definites := fix definites (l : list Ast.Stmt) (X : gset string) : option (gset string) :=
    match l with [] => Some X | s :: l => Y ← definite s X; definites l Y end in
  match s with
  | Ast.Pass | Ast.Break | Ast.Continue => Some X
  | Ast.ExprStmt e | Ast.Return (Some e) => when (bound X e) (Some X)
  | Ast.Assign [Ast.TupleLit tgts] (Ast.TupleLit vals) =>
      when (boundAll X vals) (names ← mapM nameOf tgts; Some (X ∪ list_to_set names))
  | Ast.Assign [Ast.Name x] e | Ast.AnnAssign (Ast.Name x) _ (Some e) => when (bound X e) (Some (X ∪ {[x]}))
  | Ast.AugAssign (Ast.Name x) _ e => when (bool_decide (x ∈ X) && bound X e) (Some X)
  | Ast.If c t e => when (bound X c) (Y ← definites t X; Z ← definites e X; Some (Y ∩ Z))
  | Ast.While c b [] => when (bound X c) (_ ← definites b X; Some X)
  | Ast.For (Ast.Name x) (Ast.Call (Ast.Name f) args) b [] _ =>
      when (boundAll X (map argValue args))
        (if String.eqb f "range" then _ ← definites b (X ∪ {[x]}); Some X
         else when (drv f) (h ← handleName X b x; _ ← definites b (X ∪ {[h; x]}); Some X))
  | _ => None
  end.

Fixpoint definites (l : list Ast.Stmt) (X : gset string) : option (gset string) :=
  match l with [] => Some X | s :: l => Y ← definite s X; definites l Y end.

Lemma definites_walk l X :
  (fix go (l : list Ast.Stmt) (X : gset string) : option (gset string) :=
    match l with [] => Some X | s :: l => Y ← definite s X; go l Y end) l X = definites l X.
Proof.
  revert X. induction l as [|s l IH]; intros X; [done|]. simpl. by destruct (definite s X).
Qed.

Lemma definite_if c t e X :
  definite (Ast.If c t e) X = when (bound X c) (Y ← definites t X; Z ← definites e X; Some (Y ∩ Z)).
Proof. cbn [definite]. by rewrite (definites_walk t X), (definites_walk e X). Qed.

Lemma definite_while c b X : definite (Ast.While c b []) X = when (bound X c) (_ ← definites b X; Some X).
Proof. cbn [definite]. by rewrite (definites_walk b X). Qed.

Lemma definite_for x f args b a X :
  definite (Ast.For (Ast.Name x) (Ast.Call (Ast.Name f) args) b [] a) X =
  when (boundAll X (map argValue args))
    (if String.eqb f "range" then _ ← definites b (X ∪ {[x]}); Some X
     else when (drv f) (h ← handleName X b x; _ ← definites b (X ∪ {[h; x]}); Some X)).
Proof.
  cbn [definite]. rewrite (definites_walk b _). by destruct (handleName X b x); simpl; rewrite ?(definites_walk b _).
Qed.

Lemma definite_assign x e X :
  definite (Ast.Assign [Ast.Name x] e) X = when (bound X e) (Some (X ∪ {[x]})).
Proof. done. Qed.

Lemma when_inv {A} c (o : option A) y : when c o = Some y -> c = true /\ o = Some y.
Proof. by destruct c. Qed.

Lemma when_true {A} c (o : option A) : c = true -> when c o = o.
Proof. by intros ->. Qed.

Lemma bound_mono X Y e : X ⊆ Y -> bound X e = true -> bound Y e = true.
Proof. unfold bound. rewrite !bool_decide_eq_true. set_solver. Qed.

Lemma boundAll_mono X Y e : X ⊆ Y -> boundAll X e = true -> boundAll Y e = true.
Proof. unfold boundAll. rewrite !bool_decide_eq_true. set_solver. Qed.

(** More names bound before, more names bound after, and none is lost. *)
Definition definiteOK (run : gset string -> option (gset string)) : Prop :=
  forall X X', run X = Some X' ->
    X ⊆ X' /\ forall Y, X ⊆ Y -> exists Y', run Y = Some Y' /\ X' ⊆ Y'.

Lemma definites_ok l : Forall (fun s => definiteOK (definite s)) l -> definiteOK (definites l).
Proof.
  induction 1 as [|s l Hs Hl IH]; intros X X' E; simpl in E.
  - simplify_eq. split; [done|]. intros Y HY. by exists Y.
  - destruct (definite s X) as [Z|] eqn:Es; [|done]. simpl in E. destruct (Hs X Z Es) as [H1 H2].
    destruct (IH Z X' E) as [H3 H4]. split; [by etrans|]. intros Y HY. destruct (H2 Y HY) as (Z' & E' & HZ).
    destruct (H4 Z' HZ) as (Y' & E2 & HY'). exists Y'. simpl. by rewrite E'.
Qed.

Lemma definite_for_ok x f args t a : Forall (fun s => definiteOK (definite s)) t ->
  definiteOK (definite (Ast.For (Ast.Name x) (Ast.Call (Ast.Name f) args) t [] a)).
Proof.
  intros Ht X X' E. rewrite definite_for in E. apply when_inv in E as [Ea E]. destruct (String.eqb f "range") eqn:Er.
  - destruct (definites t _) as [T|] eqn:E2; [|done]. injection E as <-.
    destruct (definites_ok t Ht _ T E2) as [_ H2]. split; [done|]. intros Y HY. exists Y. rewrite definite_for, Er.
    destruct (H2 (Y ∪ {[x]})) as (T' & -> & _); [set_solver|]. by rewrite (boundAll_mono X).
  - apply when_inv in E as [Ed E]. destruct (handleName X t x) as [h|] eqn:Eh; [|done]. simpl in E.
    destruct (definites t _) as [T|] eqn:E2; [|done]. injection E as <-.
    destruct (definites_ok t Ht _ T E2) as [_ H2]. split; [done|]. intros Y HY. exists Y. rewrite definite_for, Er, Ed.
    destruct (freshLocal_fresh (gset_to_gmap intRepr Y) t x "g") as (h' & Eh' & _).
    assert (h' = h \/ h ∈ Y) as Hh.
    { rewrite <- (dom_gset_to_gmap Y intRepr). eapply freshLocal_mono; [|exact Eh|exact Eh'].
      by rewrite !dom_gset_to_gmap. }
    unfold handleName. rewrite Eh'. simpl. destruct (H2 (Y ∪ {[h'; x]})) as (T' & -> & _); [set_solver|].
    by rewrite (boundAll_mono X).
Qed.

Lemma definite_ok s : definiteOK (definite s).
Proof.
  apply (Ast.Stmt_ind' (fun s => definiteOK (definite s))); clear s;
    [intros s; destruct s; try done; intros X X' E|intros c t e Ht He X X' E|intros c t e Ht He X X' E
    |intros u i t e a Ht He X X' E].
  - simpl in E. apply when_inv in E as [E [= <-]]. split; [done|]. intros Y HY. exists Y. simpl.
    by rewrite (bound_mono X).
  - destruct targets as [|[] [|? ?]]; try done; [|destruct value; try done]; cbn [definite] in *;
      apply when_inv in E as [E1 E2].
    + simplify_eq. split; [set_solver|]. intros Y HY. exists (Y ∪ {[id]}).
      rewrite (bound_mono X) by done. split; [done|set_solver].
    + destruct (mapM nameOf elts) as [names|] eqn:En; [|done]. simpl in E2. simplify_eq. split; [set_solver|].
      intros Y HY. exists (Y ∪ list_to_set names). rewrite (boundAll_mono X) by done. simpl.
      split; [done|set_solver].
  - destruct target; try done. cbn [definite] in *. apply when_inv in E as [E [= <-]].
    apply andb_true_iff in E as [Ei Eb]. apply bool_decide_eq_true in Ei. split; [done|]. intros Y HY. exists Y.
    rewrite (bound_mono X), bool_decide_true by set_solver. done.
  - destruct target, value; try done. cbn [definite] in *. apply when_inv in E as [E [= <-]].
    split; [set_solver|]. intros Y HY. exists (Y ∪ {[id]}). rewrite (bound_mono X) by done. split; [done|set_solver].
  - destruct value; try done. simpl in E. apply when_inv in E as [E [= <-]]. split; [done|].
    intros Y HY. exists Y. simpl. by rewrite (bound_mono X).
  - simpl in E. simplify_eq. split; [done|]. intros Y HY. by exists Y.
  - simpl in E. simplify_eq. split; [done|]. intros Y HY. by exists Y.
  - simpl in E. simplify_eq. split; [done|]. intros Y HY. by exists Y.
  - rewrite definite_if in E. apply when_inv in E as [E1 E].
    destruct (definites t X) as [T|] eqn:E2; [|done]. simpl in E.
    destruct (definites e X) as [F|] eqn:E3; [|done]. simpl in E. simplify_eq.
    destruct (definites_ok t Ht X T E2) as [H1 H2]. destruct (definites_ok e He X F E3) as [H3 H4].
    split; [set_solver|]. intros Y HY. rewrite definite_if. destruct (H2 Y HY) as (T' & -> & HT). destruct (H4 Y HY) as (F' & -> & HF).
    exists (T' ∩ F'). rewrite (bound_mono X) by done. simpl. split; [done|set_solver].
  - destruct e; try done. rewrite definite_while in E. apply when_inv in E as [E1 E].
    destruct (definites t X) as [T|] eqn:E2; [|done]. injection E as <-.
    destruct (definites_ok t Ht X T E2) as [_ H2]. split; [done|]. intros Y HY. exists Y. rewrite definite_while.
    destruct (H2 Y HY) as (T' & -> & _). by rewrite (bound_mono X).
  - destruct u; try done. destruct i as [| | | | | | | | | | |fn args| | | | |]; try done.
    destruct fn; try done. destruct e; try done. by eapply definite_for_ok.
Qed.

Lemma definites_all l : definiteOK (definites l).
Proof. apply definites_ok, Forall_forall. intros s _. apply definite_ok. Qed.
End Definite.
Arguments definite_assign {G drv}.
Arguments definite_ok {G drv}.
Arguments definites_all {G drv}.

(** ** The bridge's blocks, by name *)

Lemma lowerBody_walk c l ret term sc g :
  (fix go (c : lowerCtx) (l : list Ast.Stmt) (ret : option Repr) (term : bool) (sc : scope) : BM lowered :=
    match l with
    | [] => bret (mkLowered [] ret term sc)
    | s :: l =>
        bbind (lowerStmt c s sc) (fun x =>
        bbind (blift (nextRet ret (lRet x))) (fun ret =>
        bbind (go c l ret (term || lTerm x) (lScope x)) (fun y =>
        bret (mkLowered (lStmts x ++ lStmts y) (lRet y) (lTerm y) (lScope y)))))
    end) c l ret term sc g = lowerBody c l ret term sc g.
Proof.
  revert ret term sc g. induction l as [|s l IH]; intros ret term sc g; [done|]. simpl.
  apply bbind_ext2. intros x g1. apply bbind_ext2. intros r g2. apply bbind_ext, IH.
Qed.

Lemma lowerBody_cons c s l ret term sc g L g' :
  lowerBody c (s :: l) ret term sc g = Some (L, g') ->
  exists x y g1 ret', lowerStmt c s sc g = Some (x, g1) /\
    lowerBody c l ret' (term || lTerm x) (lScope x) g1 = Some (y, g') /\
    lStmts L = lStmts x ++ lStmts y /\ lScope L = lScope y.
Proof. intros E. simpl in E. brun. subst. by do 4 eexists. Qed.

(** What a lowered [if] is made of. *)
Lemma lower_if_inv c cond thn els sc g L g' :
  lowerStmt c (Ast.If cond thn els) sc g = Some (L, g') ->
  exists x cr t e t2 e2 joins g0 g1 g2 g3 g4,
    lowerExpr c sc cond g = Some ((x, cr), g0) /\
    lowerBody c thn None false sc g0 = Some (t, g1) /\
    lowerBody c els None false sc g1 = Some (e, g2) /\
    joinScope (newBindings sc (lScope t)) (newBindings sc (lScope e)) = Some joins /\
    lowerBody c thn None false (joins ∪ sc) g2 = Some (t2, g3) /\
    lowerBody c els None false (joins ∪ sc) g3 = Some (e2, g4) /\
    lStmts L = joinDecls joins ++ [If x (lStmts t2) (lStmts e2)] /\ lScope L = joins ∪ sc.
Proof.
  cbn [lowerStmt]. unfold lowerIf. intros E. brun. subst. cbn [lStmts lScope].
  assert (forall sc g z, (if nonempty els then
      (fix go (c : lowerCtx) (l : list Ast.Stmt) (ret : option Repr) (term : bool) (sc : scope) : BM lowered :=
        match l with
        | [] => bret (mkLowered [] ret term sc)
        | s :: l =>
            bbind (lowerStmt c s sc) (fun x =>
            bbind (blift (nextRet ret (lRet x))) (fun ret =>
            bbind (go c l ret (term || lTerm x) (lScope x)) (fun y =>
            bret (mkLowered (lStmts x ++ lStmts y) (lRet y) (lTerm y) (lScope y)))))
        end) c els None false sc else plain [] sc) g = Some z ->
    lowerBody c els None false sc g = Some z) as He.
  { intros sc' g' z H. rewrite <- lowerBody_walk. destruct els; exact H. }
  rewrite lowerBody_walk in E1, E4. apply He in E2, E5. do 12 eexists. split_and!; try done; try eassumption.
Qed.

(** What a lowered [while] is made of. *)
Lemma lower_while_inv c cond body els sc g L g' :
  lowerStmt c (Ast.While cond body els) sc g = Some (L, g') ->
  els = [] /\ exists x cr b g1,
    lowerExpr c sc cond g = Some ((x, cr), g1) /\
    lowerBody (loopCtx c) body None false sc g1 = Some (b, g') /\
    lStmts L = [While x (lStmts b)] /\ lScope L = sc.
Proof.
  cbn [lowerStmt]. unfold lowerWhile. intros E. brun. destruct els; [|done]. split; [done|].
  rewrite lowerBody_walk in E1. subst. by do 4 eexists.
Qed.

(** What a lowered [for] over a [range] is made of. *)
Record loweredRange (c : lowerCtx) (x : string) (args : list (Arg Ast.Expr)) (body : list Ast.Stmt)
    (sc : scope) (g : list string) (L : lowered) (g' : list string) : Prop := mkLR {
  lr_inv : exists start stop down s t tr pre bnd b g1 g2,
    rangeArgs args = Some (start, stop, down) /\
    lowerStart c sc start g = Some (s, g1) /\
    lowerExpr c sc stop g1 = Some ((t, tr), g2) /\ isScalar SInt tr = true /\
    lowerStop sc body x stop t tr = Some (pre, bnd) /\ bodyAssigns body x = false /\
    lowerBody (loopCtx c) body None false (<[x := intRepr]> sc) g2 = Some (b, g') /\
    lStmts L = pre ++ [ForCount x s bnd down (lStmts b) None];
  lr_scope : lScope L = sc;
  lr_fresh : sc !! x = None
}.

Record loweredGen (c : lowerCtx) (x : string) (sig : StaticGenerator) (args : list (Arg Ast.Expr)) (body : list Ast.Stmt)
    (sc : scope) (g : list string) (L : lowered) (g' : list string) : Prop := mkLG {
  lg_inv : exists ps g1 h hr b,
    lowerExprs c sc (map argValue args) g = Some (ps, g1) /\ freshLocal sc body x "g" = Some h /\
    lowerBody (loopCtx c) body None false (<[x := SgElem sig]> (<[h := hr]> sc)) g1 = Some (b, g');
  lg_scope : lScope L = sc
}.

Lemma lower_for_cases c target iter body els a sc g L g' :
  lowerStmt c (Ast.For target iter body els a) sc g = Some (L, g') ->
  els = [] /\ exists x f args, target = Ast.Name x /\ iter = Ast.Call (Ast.Name f) args /\
    ((f = "range" /\ loweredRange c x args body sc g L g') \/
     (f <> "range" /\ exists sig, gens c f = Some sig /\ loweredGen c x sig args body sc g L g')).
Proof.
  cbn [lowerStmt]. unfold lowerFor. intros E. brun. destruct els; [|done]. split; [done|].
  destruct target; try done. destruct iter as [| | | | | | | | | | |fn args| | | | |]; try done. destruct fn; try done.
  apply check_inv in E as [Hx E]. bool_to_prop. exists id, id0, args. split_and!; [done..|].
  destruct (String.eqb_spec id0 "range") as [->|Hn].
  - left. split; [done|]. unfold lowerForRange in E. brun.
    match goal with H : negb _ = true |- _ => apply negb_true_iff in H end. rewrite lowerBody_walk in E4. subst.
    split; [|done..]. do 11 eexists. split_and!; eauto.
  - right. split; [done|]. destruct (gens c id0) as [sig|] eqn:Eg; [|done]. exists sig. split; [done|].
    unfold lowerForGen in E. brun. rewrite lowerBody_walk in E3. subst. split; [|done]. do 5 eexists. split_and!; eauto.
Qed.

Lemma lower_for_inv c target iter body els a sc g L g' :
  localOnly c -> lowerStmt c (Ast.For target iter body els a) sc g = Some (L, g') ->
  els = [] /\ exists x args, target = Ast.Name x /\ iter = Ast.Call (Ast.Name "range") args /\
    loweredRange c x args body sc g L g'.
Proof.
  intros [_ Hgen] E. destruct (lower_for_cases _ _ _ _ _ _ _ _ _ _ E) as (-> & x & f & args & -> & -> & H). split; [done|].
  exists x, args. destruct H as [[-> H]|(_ & sig & Hs & _)]; [done|]. by rewrite Hgen in Hs.
Qed.

(** ** The scope is the definite assignment *)

Lemma bindName_inv x v r sc g L g' :
  bindName x v r sc g = Some (L, g') ->
  g' = g /\ lScope L = <[x := r]> sc /\ (lStmts L = [Define x v] \/ lStmts L = [Assign x v]).
Proof.
  unfold bindName. destruct (sc !! x); intros E; brun; subst; (split; [done|split; [done|auto]]).
Qed.

Lemma setScope_dom names rs sc :
  length names = length rs -> dom (setScope names rs sc) = dom sc ∪ list_to_set names.
Proof.
  revert rs sc. induction names as [|x names IH]; intros [|r rs] sc Hl; simplify_eq/=; [set_solver|].
  rewrite IH by done. set_solver.
Qed.

Lemma joinScope_dom (t e sc joins : scope) :
  dom sc ⊆ dom t -> dom sc ⊆ dom e ->
  joinScope (newBindings sc t) (newBindings sc e) = Some joins -> dom (joins ∪ sc) = dom t ∩ dom e.
Proof.
  unfold joinScope, newBindings. intros Ht He E. destruct (forallb _ _); [|done]. injection E as <-.
  apply set_eq. intros x. rewrite dom_union, elem_of_union, elem_of_intersection, !elem_of_dom.
  assert (is_Some (sc !! x) -> is_Some (t !! x) /\ is_Some (e !! x)) as Hsc by (rewrite <- !elem_of_dom; set_solver).
  unfold is_Some at 1. setoid_rewrite map_lookup_filter_Some. setoid_rewrite lookup_difference. simpl.
  destruct (sc !! x) as [r|] eqn:Es; [naive_solver|]. split.
  - intros [(r & Hr & Hx)|[? ?]]; [|done]. by split; [exists r|].
  - intros [[r Hr] Hx]. left. by exists r.
Qed.

Section Scope.
Context {G : gset string} {drv : string -> bool}.

Lemma lower_bound c sc e g p g' :
  within c G drv -> lowerExpr c sc e g = Some (p, g') -> bound G (dom sc) e = true.
Proof. intros Hc E. apply bool_decide_eq_true. by eapply lower_free. Qed.

Lemma lower_boundAll c sc l g ps g' :
  within c G drv -> lowerExprs c sc l g = Some (ps, g') -> boundAll G (dom sc) l = true.
Proof.
  intros Hc. unfold boundAll. rewrite bool_decide_eq_true. revert g ps. induction l as [|e l IH]; intros g ps E.
  - unfold freeAll. simpl. set_solver.
  - apply lowerExprs_cons in E as (p & qs & g1 & -> & E1 & E2). apply IH in E2. eapply lower_free in E1; [|done].
    unfold freeAll in *. simpl. set_solver.
Qed.

Lemma within_loop c : within c G drv -> within (loopCtx c) G drv.
Proof. done. Qed.

(** The scope the lowering ends with is what is definitely assigned. *)
Definition scopeOK (s : Ast.Stmt) : Prop := forall c sc g L g',
  within c G drv -> lowerStmt c s sc g = Some (L, g') -> definite G drv s (dom sc) = Some (dom (lScope L)).

Definition bodyScopeOK (l : list Ast.Stmt) : Prop := forall c ret term sc g L g',
  within c G drv -> lowerBody c l ret term sc g = Some (L, g') -> definites G drv l (dom sc) = Some (dom (lScope L)).

Lemma bodies_scope l : Forall scopeOK l -> bodyScopeOK l.
Proof.
  induction 1 as [|s l Hs Hl IH]; intros c ret term sc g L g' Hc E.
  - simpl in E. brun. by subst.
  - apply lowerBody_cons in E as (x & y & g1 & ret' & E1 & E2 & _ & ->). simpl.
    rewrite (Hs _ _ _ _ _ Hc E1). simpl. by eapply IH.
Qed.

Lemma scope_if cond t e : Forall scopeOK t -> Forall scopeOK e -> scopeOK (Ast.If cond t e).
Proof.
  intros Ht%bodies_scope He%bodies_scope c sc g L g' Hc E.
  destruct (lower_if_inv _ _ _ _ _ _ _ _ E) as (x & cr & lt & le & _ & _ & joins & g0 & g1 & g2 & _ & _ & Ex & Et & Ee & Ej & _ & _ & _ & ->).
  rewrite definite_if, (when_true _ _ (lower_bound _ _ _ _ _ _ Hc Ex)).
  pose proof (Ht _ _ _ _ _ _ _ Hc Et) as Dt. pose proof (He _ _ _ _ _ _ _ Hc Ee) as De.
  rewrite Dt, De. simpl. f_equal. symmetry. apply joinScope_dom; [| |done].
  - by apply (definites_all t _ _ Dt).
  - by apply (definites_all e _ _ De).
Qed.

Lemma scope_while cond t e : Forall scopeOK t -> scopeOK (Ast.While cond t e).
Proof.
  intros Ht%bodies_scope c sc g L g' Hc E.
  destruct (lower_while_inv _ _ _ _ _ _ _ _ E) as (-> & x & cr & b & g1 & Ex & Eb & _ & ->).
  rewrite definite_while, (when_true _ _ (lower_bound _ _ _ _ _ _ Hc Ex)).
  by rewrite (Ht _ _ _ _ _ _ _ (within_loop c Hc) Eb).
Qed.

(** The arguments of a [range] call, by position. *)
Lemma rangeArgs_inv args start stop down :
  rangeArgs args = Some (start, stop, down) ->
  positional args = true /\
  ((start = None /\ down = false /\ map argValue args = [stop]) \/
   (exists e, start = Some e /\ down = false /\ map argValue args = [e; stop]) \/
   exists e step, start = Some e /\ map argValue args = [e; stop; step] /\
     constStep step = Some (if down then -1 else 1)).
Proof.
  unfold rangeArgs. destruct (positional args); [|done]. intros E. split; [done|].
  destruct args as [|a [|b [|d [|]]]]; try done.
  - simplify_eq. by left.
  - simplify_eq. right; left. by eexists.
  - simpl in E. destruct (constStep (argValue d)) as [s|] eqn:Es; [|done]. simpl in E. right; right.
    destruct (Z.eqb_spec s 1) as [->|]; [simplify_eq; by do 2 eexists|].
    destruct (Z.eqb_spec s (-1)) as [->|]; [simplify_eq; by do 2 eexists|done].
Qed.

Lemma constStep_free e v : constStep e = Some v -> freeNames e = ∅.
Proof. destruct e as [| | | | | | | |[] []| | | | | | | |]; done. Qed.

Lemma range_bound c sc args start stop down g s g1 t tr g2 :
  within c G drv -> rangeArgs args = Some (start, stop, down) -> lowerStart c sc start g = Some (s, g1) ->
  lowerExpr c sc stop g1 = Some ((t, tr), g2) -> boundAll G (dom sc) (map argValue args) = true.
Proof.
  intros Hc Ea Es Et. apply rangeArgs_inv in Ea as [_ Ea]. eapply lower_free in Et; [|done].
  unfold boundAll. rewrite bool_decide_eq_true.
  assert (forall e, start = Some e -> freeNames e ⊆ dom sc ∪ G) as Hs.
  { intros e ->. simpl in Es. brun. by eapply lower_free. }
  destruct Ea as [(_ & _ & ->)|[(e & -> & _ & ->)|(e & step & -> & -> & Ec)]]; unfold freeAll; simpl;
    [set_solver|..]; specialize (Hs e eq_refl); [set_solver|]. rewrite (constStep_free _ _ Ec). set_solver.
Qed.

Lemma scope_for target iter t e a : Forall scopeOK t -> scopeOK (Ast.For target iter t e a).
Proof.
  intros Ht%bodies_scope c sc g L g' Hc E.
  destruct (lower_for_cases _ _ _ _ _ _ _ _ _ _ E) as (-> & x & f & args & -> & -> & H). rewrite definite_for.
  destruct H as [[-> [Hi -> _]]|(Hn & sig & Hs & [Hi ->])].
  - destruct Hi as (start & stop & down & s & bt & tr & pre & bnd & b & g1 & g2 & Ea & Es & Et & _ & _ & _ & Eb & _).
    rewrite (range_bound _ _ _ _ _ _ _ _ _ _ _ _ Hc Ea Es Et). simpl.
    apply (Ht _ _ _ _ _ _ _ (within_loop c Hc)) in Eb. rewrite dom_insert_L, union_comm_L in Eb. by rewrite Eb.
  - destruct Hi as (ps & g1 & h & hr & b & Ea & Eh & Eb). rewrite (lower_boundAll _ _ _ _ _ _ Hc Ea). simpl.
    destruct (String.eqb_spec f "range"); [done|]. rewrite (proj2 Hc _ _ Hs). unfold handleName.
    rewrite (freshLocal_dom _ sc) by apply dom_gset_to_gmap. rewrite Eh. simpl.
    apply (Ht _ _ _ _ _ _ _ (within_loop c Hc)) in Eb. rewrite !dom_insert_L in Eb.
    replace (dom sc ∪ {[h; x]} : gset string) with ({[x]} ∪ ({[h]} ∪ dom sc)) by set_solver. by rewrite Eb.
Qed.

Lemma lowerExprs_length c sc l g ps g' : lowerExprs c sc l g = Some (ps, g') -> length ps = length l.
Proof.
  revert g ps. induction l as [|e l IH]; intros g ps E; [simpl in E; brun; by subst|].
  apply lowerExprs_cons in E as (p & qs & g1 & -> & _ & E). simpl. by rewrite (IH _ _ E).
Qed.

(** What a lowered tuple assignment is made of. *)
Lemma lowerTuple_inv c sc tgts vals g L g' :
  lowerTupleAssign c sc tgts vals g = Some (L, g') ->
  exists names ps def, mapM nameOf tgts = Some names /\ lowerExprs c sc vals g = Some (ps, g') /\
    length tgts = length vals /\ length names = length vals /\
    lStmts L = [Bind names (map fst ps) def] /\ lScope L = setScope names (map snd ps) sc.
Proof.
  unfold lowerTupleAssign. intros E. brun. subst. apply andb_true_iff in C as [C _]. apply Nat.eqb_eq in C.
  pose proof (length_mapM _ _ _ E0) as Hl. do 3 eexists. split_and!; try done. congruence.
Qed.

(** Lowering a block follows its definite assignments: the bridge accepts a
    block only if every name it reads - in a branch, a loop or after one - is
    bound on every path to the read. *)
Lemma lower_definite s : scopeOK s.
Proof.
  apply (Ast.Stmt_ind' scopeOK); clear s;
    [intros s; destruct s; try done; intros c sc g L g' Hc E|apply scope_if|intros; by apply scope_while
    |intros; by apply scope_for].
  - cbn [lowerStmt] in E. unfold lowerExprStmt in E. brun. subst. simpl.
    by rewrite (when_true _ _ (lower_bound _ _ _ _ _ _ Hc E0)).
  - destruct targets as [|[] [|? ?]]; try done; [|destruct value; try done].
    + cbn [lowerStmt] in E. assert (lowerAssign c sc id value g = Some (L, g')) as E' by by destruct value.
      unfold lowerAssign in E'. brun. apply bindName_inv in E' as (-> & -> & _).
      rewrite dom_insert_L, union_comm_L. by rewrite (definite_assign id value), (when_true _ _ (lower_bound _ _ _ _ _ _ Hc E0)).
    + cbn [lowerStmt] in E. destruct (lowerTuple_inv _ _ _ _ _ _ _ E) as (names & ps & def & En & Ev & Hl & Hl' & _ & ->).
      cbn [definite]. rewrite (when_true _ _ (lower_boundAll _ _ _ _ _ _ Hc Ev)), En. simpl. f_equal.
      symmetry. apply setScope_dom. by rewrite length_map, (lowerExprs_length _ _ _ _ _ _ Ev).
  - destruct target; try done. cbn [lowerStmt] in E. unfold lowerAugAssign in E. brun. subst. cbn [definite lScope].
    rewrite (lower_bound _ _ _ _ _ _ Hc E2), bool_decide_true; [done|]. by eapply elem_of_dom_2.
  - destruct target, value; try done. cbn [lowerStmt] in E. unfold lowerAnnAssign in E. brun.
    apply bindName_inv in E as (-> & -> & _). cbn [definite].
    by rewrite (when_true _ _ (lower_bound _ _ _ _ _ _ Hc E0)), dom_insert_L, union_comm_L.
  - destruct value; try done. cbn [lowerStmt] in E. brun. subst. simpl.
    by rewrite (when_true _ _ (lower_bound _ _ _ _ _ _ Hc E0)).
  - cbn [lowerStmt] in E. brun. by subst.
  - cbn [lowerStmt] in E. brun. by subst.
  - cbn [lowerStmt] in E. brun. by subst.
Qed.

Lemma lower_definites l : bodyScopeOK l.
Proof. apply bodies_scope, Forall_forall. intros s _. apply lower_definite. Qed.
End Scope.
