(* ===== verification/BridgeStmts.v ===== *)
(** * BridgeStmts: lowered blocks do what the tree does

    A simulation between a block of the frontend's tree and the emit-model
    block the bridge lowers it to, both in Python's semantics and on the same
    fuel.  The two states agree on the names that are definitely assigned; the
    lowered one also has the hoisted loop bounds. *)

From S2P Require Import Prelude Ast Int64 StaticOps Fold GoSem Emit IrCost PySem EmitTyping EmitEnv.
From S2P Require Import EmitExpr EmitOps EmitSound EmitStmt EmitBlock EmitLoops EmitTypes EmitKinds EmitKindStmts.
From S2P Require Import Bridge PyAst BridgeExpr BridgeScope.
Local Open Scope Z_scope.

(** The analysis without tracked globals and driven generators. *)
Local Notation bound := (BridgeScope.bound ∅).
Local Notation boundAll := (BridgeScope.boundAll ∅).
Local Notation definite := (BridgeScope.definite ∅ (fun _ => false)).
Local Notation definites := (BridgeScope.definites ∅ (fun _ => false)).

(** ** What the simulation asks of the source *)

(** Evaluated without an exception wherever it has a type. *)
Fixpoint quiet (e : Ast.Expr) : bool :=
  match e with
  | Ast.Name _ | Ast.IntLit _ => true
  | Ast.BinOp (Ast.BinAdd | Ast.BinSub | Ast.BinMul) l r => quiet l && quiet r
  | _ => false
  end.

(** A bound the loop reads in place. *)
Definition inPlace (e : Ast.Expr) : bool := match e with Ast.Name _ | Ast.IntLit _ => true | _ => false end.

(** A computed stop bound is evaluated ahead of the start: that is only right
    when the start raises nothing.  An [async for] has no place in a plain
    function.  An expression statement that folds to an
    operand is dropped: that is only right when the operator raises nothing. *)
Fixpoint regular (s : Ast.Stmt) : bool :=
  match s with
  | Ast.ExprStmt (Ast.BinOp _ _ _) | Ast.For _ _ _ _ true => false
  | Ast.If _ t e | Ast.While _ t e => forallb regular t && forallb regular e
  | Ast.For _ (Ast.Call _ (a :: b :: _)) t e false =>
      (quiet (argValue a) || inPlace (argValue b)) && forallb regular t && forallb regular e
  | Ast.For _ _ t e false => forallb regular t && forallb regular e
  | _ => true
  end.

Definition calmE : Expr -> bool :=
  fix calmE e :=
    match e with
    | Var _ _ | Int _ => true
    | Bin op l r => foldOp op && calmE l && calmE r
    | _ => false
    end.

Lemma quiet_lower c sc e : localOnly c -> quiet e = true -> forall g x r g',
  lowerExpr c sc e g = Some ((x, r), g') -> calmE x = true.
Proof.
  intros [Hg _]. induction e using Ast.Expr_ind'; intros Hq g y ry g' E; try done.
  - simpl in E. unfold lowerName in E. rewrite Hg in E. destruct (sc !! x); [|done]. brun. by simplify_eq.
  - simpl in E. brun. by simplify_eq.
  - assert (quiet e1 = true /\ quiet e2 = true /\ forall o, binOp op = Some o -> foldOp o = true) as (Q1 & Q2 & Ho).
    { destruct op; try done; cbn [quiet] in Hq; apply andb_true_iff in Hq as [? ?]; split_and!; try done;
        intros o [= <-]; done. }
    simpl in E. brun. symmetry in E. apply bridgeBin_cases in E.
    destruct E as [(z & _ & -> & _)|(_ & [(z & _ & _ & _ & -> & _)|[(z & _ & _ & _ & -> & _)|[-> _]]])].
    + done.
    + by eapply IHe1.
    + by eapply IHe2.
    + simpl. by rewrite (Ho _ E0), (IHe1 Q1 _ _ _ _ E1), (IHe2 Q2 _ _ _ _ E2).
Qed.

Lemma pyBin_calm op v w p : foldOp op = true -> pyBin op v w = Some p -> exists u, p = PRet u.
Proof.
  intros Ho. destruct op; try done; destruct v, w; simpl; try done; intros [= <-]; eauto.
Qed.

Section Stmts.
Context (callee pcallee : string -> list value -> value + pyexc).
Context (sigs : string -> option (list Repr * Repr)) (h : string) (rt : Repr).
Context `{!KindProgram callee sigs}.
Local Notation pyEval := (PySem.pyEval callee).
Local Notation pyExec := (PySem.pyExec callee).
Local Notation pyExecs := (PySem.pyExecs callee).
Local Notation fEval := (PyAst.fEval pcallee).
Local Notation fExec := (PyAst.fExec pcallee).
Local Notation fExecs := (PyAst.fExecs pcallee).
Local Notation wfctx := (wfctx sigs h).
Local Notation sty := (sty sigs h rt).
Local Notation stys := (stys sigs h rt).

Lemma calm_ret G sg e r :
  calmE e = true -> ety sigs G e r -> kindEnv G sg -> exists v, pyEval sg e = Some (PRet v).
Proof.
  intros Hc He Hsg. revert r Hc He. induction e; intros r' Hc He; try done.
  - pose proof (ety_kind callee sigs G _ _ sg He Hsg) as Hk. cbn [PySem.pyEval] in *.
    destruct (sg !! _); [by eexists|done].
  - by eexists.
  - simpl in Hc. apply andb_true_iff in Hc as [[Ho H1]%andb_true_iff H2].
    pose proof (ety_kind callee sigs G _ _ sg He Hsg) as Hk. inversion He; subst. cbn [PySem.pyEval] in *.
    edestruct IHe1 as [v Ev]; [done..|]. edestruct IHe2 as [w Ew]; [done..|].
    rewrite Ev, Ew in *. cbn [pbind] in *. destruct (pyBin _ v w) as [p|] eqn:Ep; [|done].
    destruct (pyBin_calm _ _ _ _ Ho Ep) as [u ->]. by eexists.
Qed.

(** ** The two states *)

(** They agree on the names of [X], which are all bound. *)
Definition agreeOn (X : gset string) (sg fsg : gmap string value) : Prop :=
  forall y, y ∈ X -> is_Some (fsg !! y) /\ sg !! y = fsg !! y.

(** The same outcome; after a normal end the states agree on [X'], after a
    jump on [X]. *)
Definition sameRes (X X' : gset string) (p f : option pres) : Prop :=
  match p, f with
  | Some (PNorm sg), Some (PNorm fsg) => agreeOn X' sg fsg
  | Some (PBrk sg), Some (PBrk fsg) | Some (PCnt sg), Some (PCnt fsg) => agreeOn X sg fsg
  | Some (PDone v), Some (PDone w) => v = w
  | Some (PExc e), Some (PExc e') => e = e'
  | Some POpen, Some POpen | None, None => True
  | _, _ => False
  end.

Lemma agreeOn_sub X Y sg fsg : X ⊆ Y -> agreeOn Y sg fsg -> agreeOn X sg fsg.
Proof. intros Hs Ha y Hy. apply Ha. set_solver. Qed.

Lemma agreeOn_insert X sg fsg x v :
  agreeOn X sg fsg -> agreeOn (X ∪ {[x]}) (<[x := v]> sg) (<[x := v]> fsg).
Proof.
  intros Ha y Hy. destruct (decide (x = y)) as [->|Hn].
  - by rewrite !lookup_insert_eq.
  - rewrite !lookup_insert_ne by done. apply Ha. set_solver.
Qed.

(** A name outside [X] can change freely. *)
Lemma agreeOn_left X sg fsg x v : x ∉ X -> agreeOn X sg fsg -> agreeOn X (<[x := v]> sg) fsg.
Proof. intros Hx Ha y Hy. rewrite lookup_insert_ne by set_solver. by apply Ha. Qed.

Lemma agreeOn_bind X sg fsg xs vs :
  length xs = length vs -> agreeOn X sg fsg -> agreeOn (X ∪ list_to_set xs) (pyBind xs vs sg) (pyBind xs vs fsg).
Proof.
  revert X sg fsg vs. induction xs as [|x xs IH]; intros X sg fsg [|v vs] Hl Ha; simplify_eq/=.
  - eapply agreeOn_sub; [|done]. set_solver.
  - eapply agreeOn_sub; [|apply (IH (X ∪ {[x]})); [done|by apply agreeOn_insert]]. set_solver.
Qed.

Lemma sameRes_sub X1 X2 Y1 Y2 p f : X1 ⊆ X2 -> Y1 ⊆ Y2 -> sameRes X2 Y2 p f -> sameRes X1 Y1 p f.
Proof.
  intros HX HY. destruct p as [[]|], f as [[]|]; try done; simpl; by apply agreeOn_sub.
Qed.

Lemma sameRes_withVal X X' o f f' :
  (forall v, o = Some (PRet v) -> sameRes X X' (f v) (f' v)) -> sameRes X X' (withVal o f) (withVal o f').
Proof. destruct o as [[v| |]|]; simpl; auto. Qed.

Lemma sameRes_pseq X Y Z p f K K' :
  X ⊆ Y -> sameRes X Y p f ->
  (forall sg fsg, p = Some (PNorm sg) -> agreeOn Y sg fsg -> sameRes Y Z (K sg) (K' fsg)) ->
  sameRes X Z (pseq p K) (pseq f K').
Proof.
  intros Hs Hp HK. destruct p as [[]|], f as [[]|]; try done; simpl in *.
  eapply sameRes_sub; [exact Hs|reflexivity|by apply HK].
Qed.

(** ** Running blocks *)

Lemma fExecs_walk n l fsg :
  (fix go (l : list Ast.Stmt) (sg : gmap string value) : option pres :=
    match l with
    | [] => Some (PNorm sg)
    | s :: l => match fExec n s sg with Some (PNorm sg) => go l sg | r => r end
    end) l fsg = fExecs n l fsg.
Proof.
  revert fsg. induction l as [|s l IH]; intros fsg; [done|]. simpl. destruct (fExec n s fsg) as [[]|]; auto.
Qed.

Lemma fExecs_seq n s l fsg : fExecs n (s :: l) fsg = pseq (fExec n s fsg) (fExecs n l).
Proof. simpl. by destruct (fExec n s fsg) as [[]|]. Qed.

Lemma pyExecs_app n l1 l2 sg : pyExecs n (l1 ++ l2) sg = pseq (pyExecs n l1 sg) (pyExecs n l2).
Proof.
  revert sg. induction l1 as [|s l1 IH]; intros sg; [done|]. simpl.
  destruct (pyExec n s sg) as [[]|]; done.
Qed.

Lemma pyExecs_one n s sg : pyExecs n [s] sg = pyExec n s sg.
Proof. simpl. by destruct (pyExec n s sg) as [[]|]. Qed.

Lemma stys_app k l1 l2 k' : stys k (l1 ++ l2) k' -> exists k1, stys k l1 k1 /\ stys k1 l2 k'.
Proof.
  revert k. induction l1 as [|s l1 IH]; intros k H; [exists k; split; [constructor|done]|].
  inversion H as [|? k2 ? ? ? Hs Hl]; subst. destruct (IH _ Hl) as (k1 & H1 & H2).
  exists k1. split; [by econstructor|done].
Qed.

Lemma stys_one k s k' : stys k [s] k' -> sty k s k'.
Proof. intros H. inversion H as [|? ? ? ? ? Hs Hl]; subst. by inversion Hl; subst. Qed.

(** The kinds after a block that ends normally. *)
Lemma stys_kinds k l k' n sg sg' :
  stys k l k' -> wfctx k -> kindEnv (assigned k) sg -> pyExecs n l sg = Some (PNorm sg') ->
  kindEnv (assigned k') sg'.
Proof.
  intros Hl Hw Hsg E. pose proof (proj2 (kinds_block callee sigs h rt) _ _ _ Hl Hw n sg Hsg) as Hk.
  cbv beta in Hk. by rewrite E in Hk.
Qed.

Lemma stys_wf k l k' : stys k l k' -> wfctx k -> wfctx k' /\ assigned k ⊆ assigned k'.
Proof. intros Hl Hw. destruct (proj2 (next_all sigs h rt) _ _ _ Hl Hw) as (? & ? & _). done. Qed.

(** ** The judgement *)

(** The bridge's view of the module: no tracked globals, no generators, and a
    resolved name is the static function it resolves to. *)
Definition ctxOK (c : lowerCtx) : Prop :=
  localOnly c /\ forall f s, resolve c f = Some s -> forall vs, pcallee f vs = callee (GoName s) vs.

Definition simRun (X X' : gset string) (k : ctx) (run frun : nat -> gmap string value -> option pres) : Prop :=
  forall n sg fsg, kindEnv (assigned k) sg -> agreeOn X sg fsg -> sameRes X X' (run n sg) (frun n fsg).

Definition simS (s : Ast.Stmt) : Prop := forall c sc g L g' k k' X X',
  ctxOK c -> regular s = true -> lowerStmt c s sc g = Some (L, g') -> definite s X = Some X' ->
  X ⊆ dom sc -> wfctx k -> stys k (lStmts L) k' ->
  simRun X X' k (fun n => pyExecs n (lStmts L)) (fun n => fExec n s).

Definition simB (l : list Ast.Stmt) : Prop := forall c ret term sc g L g' k k' X X',
  ctxOK c -> forallb regular l = true -> lowerBody c l ret term sc g = Some (L, g') ->
  definites l X = Some X' -> X ⊆ dom sc -> wfctx k -> stys k (lStmts L) k' ->
  simRun X X' k (fun n => pyExecs n (lStmts L)) (fun n => fExecs n l).

(** What the bridge binds at least is what is definitely assigned. *)
Lemma definite_dom c s sc g L g' X X' :
  ctxOK c -> lowerStmt c s sc g = Some (L, g') -> definite s X = Some X' -> X ⊆ dom sc -> X' ⊆ dom (lScope L).
Proof.
  intros [Hc _] E Ed Hs. destruct (proj2 (definite_ok s X X' Ed) _ Hs) as (Y & EY & HY).
  pose proof (lower_definite s _ _ _ _ _ (localOnly_within c Hc) E). by simplify_eq.
Qed.

Lemma sim_body l : Forall simS l -> simB l.
Proof.
  induction 1 as [|s l Hs Hl IH]; intros c ret term sc g L g' k k' X X' Hc Hr E Ed HX Hw Ht n sg fsg Hk Ha.
  - simpl in E. brun. subst. simpl in Ed. by simplify_eq.
  - apply lowerBody_cons in E as (x & y & g1 & ret' & E1 & E2 & EL & _). rewrite EL in *. simpl in Hr.
    apply andb_true_iff in Hr as [Hr1 Hr2]. simpl in Ed. destruct (definite s X) as [Y|] eqn:Ey; [|done].
    simpl in Ed. destruct (stys_app _ _ _ _ Ht) as (k1 & T1 & T2). rewrite pyExecs_app, fExecs_seq.
    destruct (definite_ok s _ _ Ey) as [HXY _]. destruct (stys_wf _ _ _ T1 Hw) as [Hw1 _].
    apply (sameRes_pseq X Y); [exact HXY| |].
    { by apply (Hs c sc g x g1 k k1 X Y). }
    intros sg1 fsg1 En Ha1.
    apply (IH c ret' (term || lTerm x) (lScope x) g1 y g' k1 k' Y X'); try done; [by eapply definite_dom|by eapply stys_kinds].
Qed.

(** ** Expressions *)

Lemma expr_sim c sc e g x r g' G rx sg fsg X :
  ctxOK c -> lowerExpr c sc e g = Some ((x, r), g') -> ety sigs G x rx -> kindEnv G sg ->
  bound X e = true -> agreeOn X sg fsg -> pyEval sg x = fEval fsg e.
Proof.
  intros [Hl Hres] E Hx Hk Hb%bool_decide_eq_true Ha.
  eapply (means_all callee pcallee sigs c Hl Hres G sg fsg Hk e); [exact E|by exists rx|].
  intros y Hy. apply Ha. set_solver.
Qed.

Lemma exprs_sim c sc l g ps g' G rs sg fsg X K :
  ctxOK c -> lowerExprs c sc l g = Some (ps, g') -> etys sigs G (map fst ps) rs -> kindEnv G sg ->
  boundAll X l = true -> agreeOn X sg fsg -> pyEvals callee sg (map fst ps) K = fEvals pcallee fsg l K.
Proof.
  intros [Hl Hres] E Hx Hk Hb%bool_decide_eq_true Ha. apply means_evals.
  eapply (means_list callee pcallee sigs c Hl Hres G sg fsg Hk sc l g ps g'); [|exact E| |].
  - apply Forall_forall. intros e _. by apply (means_all callee pcallee sigs c Hl Hres G sg fsg Hk).
  - apply (Forall_map fst). by eapply etys_typed.
  - intros y Hy. apply Ha. set_solver.
Qed.

(** An expression both sides evaluate, then what each does with its value. *)
Lemma withVal_sim c sc e g x r g' G rx sg fsg X X' K K' :
  ctxOK c -> lowerExpr c sc e g = Some ((x, r), g') -> ety sigs G x rx -> kindEnv G sg ->
  bound X e = true -> agreeOn X sg fsg -> (forall v, hasKind rx v = true -> sameRes X X' (K v) (K' v)) ->
  sameRes X X' (withVal (pyEval sg x) K) (withVal (fEval fsg e) K').
Proof.
  intros Hc E Hx Hk Hb Ha HK. rewrite <- (expr_sim _ _ _ _ _ _ _ _ _ _ _ _ Hc E Hx Hk Hb Ha).
  apply sameRes_withVal. intros v Ev. apply HK.
  pose proof (ety_kind callee sigs G x rx sg Hx Hk) as Hv. by rewrite Ev in Hv.
Qed.

(** ** Simple statements *)

Lemma bind_sim c sc e g v r g' x k k' X s :
  ctxOK c -> lowerExpr c sc e g = Some ((v, r), g') -> bound X e = true ->
  s = Define x v \/ s = Assign x v -> stys k [s] k' ->
  simRun X (X ∪ {[x]}) k (fun n => pyExecs n [s])
    (fun n fsg => withVal (fEval fsg e) (fun v => Some (PNorm (<[x := v]> fsg)))).
Proof.
  intros Hc E Hb Hs Ht%stys_one n sg fsg Hk Ha. rewrite pyExecs_one.
  assert (pyExec n s sg = withVal (pyEval sg v) (fun v => Some (PNorm (<[x := v]> sg)))) as ->
    by (by destruct Hs; subst).
  assert (exists rv, ety sigs (assigned k) v rv) as [rv Hv]
    by (destruct Hs; subst; inversion Ht; subst; eauto).
  eapply withVal_sim; eauto. intros w _. by apply agreeOn_insert.
Qed.

Lemma bindName_sim c sc sc' e g v r g1 g2 g' x L k k' X :
  ctxOK c -> lowerExpr c sc e g = Some ((v, r), g1) -> bindName x v r sc' g2 = Some (L, g') ->
  bound X e = true -> stys k (lStmts L) k' ->
  simRun X (X ∪ {[x]}) k (fun n => pyExecs n (lStmts L))
    (fun n fsg => withVal (fEval fsg e) (fun v => Some (PNorm (<[x := v]> fsg)))).
Proof.
  intros Hc E EL Hb. destruct (bindName_inv _ _ _ _ _ _ _ EL) as (_ & _ & [-> | ->]); intros Ht;
    eapply bind_sim; eauto.
Qed.

(** A dropped expression statement evaluates without an exception. *)
Lemma dropped_ret c sc e g x r g' X fsg sg :
  ctxOK c -> lowerExpr c sc e g = Some ((x, r), g') -> pureDiscardable x = true ->
  regular (Ast.ExprStmt e) = true -> bound X e = true -> agreeOn X sg fsg ->
  exists v, fEval fsg e = Some (PRet v).
Proof.
  intros [Hl _] E Hp Hr Hb%bool_decide_eq_true Ha. destruct e; try done; try (by eexists).
  - simpl. destruct (Ha id) as [[v Hv] _]; [simpl in Hb; set_solver|]. rewrite Hv. by eexists.
  - simpl in E. brun. simplify_eq. unfold ParseInt in E0. simpl. destruct (literal text); [by eexists|done].
  - rewrite lower_list in E. brun. unfold lowerListLit in E. destruct a as [|[? ?] ?]; [done|].
    destruct (forallb _ _); [|done]. by simplify_eq.
  - simpl in E. destruct op; try done. brun. by simplify_eq.
  - rewrite lower_bool in E. brun. unfold lowerBoolOp in E. destruct a as [|[a ar] [|q l']]; try done.
    destruct (connScalar _); [|done]. by apply lowerConn_shape in E as (? & ? & [->| ->]).
  - rewrite lower_compare in E. brun.
    by apply lowerChain_shape in E as [_ [H|[(? & ? & ->)|(? & ? & ? & ->)]]].
  - destruct e; try done. rewrite lower_call in E. brun. unfold lowerCall in E.
    destruct (_ && _); [|done]. by simplify_eq.
  - simpl in E. brun. unfold lowerAttribute in E. destruct (RShape _); [|done]. simpl in E.
    destruct (Field _ _); [|done]. by simplify_eq/=.
  - apply lower_subscript in E as ([? ?] & ? & [? ?] & _ & _ & E). unfold lowerSubscript in E.
    destruct (Elem _); [|done]. simpl in E. destruct (isScalar _ _); [|done]. by simplify_eq/=.
Qed.

Lemma sim_exprStmt e : simS (Ast.ExprStmt e).
Proof.
  intros c sc g L g' k k' X X' Hc Hr E Ed _ _ Ht n sg fsg Hk Ha. cbn [lowerStmt] in E.
  unfold lowerExprStmt in E. brun. subst. cbn [lStmts] in *.
  simpl in Ed. apply when_inv in Ed as [Hb [= <-]]. cbn [PyAst.fExec].
  destruct (pureDiscardable e0) eqn:Ep.
  - destruct (dropped_ret _ _ _ _ _ _ _ _ _ _ Hc E0 Ep Hr Hb Ha) as [v ->]. done.
  - apply stys_one in Ht. inversion Ht; subst. rewrite pyExecs_one. cbn [PySem.pyExec].
    eapply withVal_sim; eauto.
Qed.

Lemma pyOp_augOp k op : augOp k = Some op -> pyOp k = Some op.
Proof. by destruct k. Qed.

Lemma sim_aug x op e : simS (Ast.AugAssign (Ast.Name x) op e).
Proof.
  intros c sc g L g' k k' X X' Hc Hr E Ed _ _ Ht n sg fsg Hk Ha. cbn [lowerStmt] in E.
  unfold lowerAugAssign in E. brun. subst. cbn [lStmts] in *. cbn [BridgeScope.definite] in Ed.
  apply when_inv in Ed as [[Hx Hb]%andb_true_iff [= <-]]. apply bool_decide_eq_true in Hx.
  apply stys_one in Ht. inversion Ht as [| | | | |? ? ? ? ? ? ? Hop Hgx _ He| | | | | | |]; subst.
  inversion He as [| | | | |? ? ? ? ? ? _ Hv| | | | | | | |]; subst. rewrite pyExecs_one.
  cbn [PySem.pyExec PyAst.fExec]. cbn [PySem.pyEval PyAst.fEval].
  rewrite (pyOp_augOp _ _ E0). cbn [mbind option_bind]. destruct (Ha x Hx) as [[v Hfx] ->]. rewrite Hfx.
  cbn [fmap option_fmap option_map pbind].
  rewrite (expr_sim _ _ _ _ _ _ _ _ _ _ _ _ Hc E2 Hv Hk Hb Ha). apply sameRes_withVal. intros w _.
  eapply agreeOn_sub; [|by apply agreeOn_insert]. set_solver.
Qed.

Lemma withVals_sim c sc l g ps g' G rs sg fsg X X' K K' :
  ctxOK c -> lowerExprs c sc l g = Some (ps, g') -> etys sigs G (map fst ps) rs -> kindEnv G sg ->
  boundAll X l = true -> agreeOn X sg fsg ->
  (forall vs, length vs = length l -> sameRes X X' (K vs) (K' vs)) ->
  sameRes X X' (withVals callee sg (map fst ps) K) (fVals pcallee fsg l K').
Proof.
  intros Hc E Hx Hk Hb Ha HK. unfold withVals, fVals.
  rewrite <- (exprs_sim _ _ _ _ _ _ _ _ _ _ _ _ Hc E Hx Hk Hb Ha). apply sameRes_withVal. intros v Ev.
  destruct (kinds_list callee sigs _ _ _ _ _ _ Hx Hk Ev) as (vs & HV & Hv). simplify_eq. apply HK.
  pose proof (Forall2_length _ _ _ HV). pose proof (etys_length sigs _ _ _ Hx).
  rewrite length_map, (lowerExprs_length _ _ _ _ _ _ E) in *. congruence.
Qed.

Lemma sim_tuple tgts vals : simS (Ast.Assign [Ast.TupleLit tgts] (Ast.TupleLit vals)).
Proof.
  intros c sc g L g' k k' X X' Hc Hr E Ed _ _ Ht n sg fsg Hk Ha. cbn [lowerStmt] in E.
  destruct (lowerTuple_inv _ _ _ _ _ _ _ E) as (names & ps & def & En & Ev & Hl & Hl' & EL & _).
  rewrite EL in *. cbn [BridgeScope.definite] in Ed. apply when_inv in Ed as [Hb Ed]. rewrite En in Ed. injection Ed as <-.
  apply stys_one in Ht. rewrite pyExecs_one. cbn [PySem.pyExec PyAst.fExec].
  rewrite Hl, Nat.eqb_refl, En. cbn [mbind option_bind].
  assert (exists rs, etys sigs (assigned k) (map fst ps) rs) as [rs Hrs] by (inversion Ht; subst; eauto).
  eapply withVals_sim; eauto. intros vs Hvs. apply agreeOn_bind; [congruence|done].
Qed.

Lemma sim_simple s :
  match s with Ast.If _ _ _ | Ast.While _ _ _ | Ast.For _ _ _ _ _ => True | _ => simS s end.
Proof.
  destruct s; try done; try apply sim_exprStmt;
    try (intros c sc g L g' k k' X X' Hc Hr E Ed _ _ Ht n sg fsg Hk Ha; simpl in E; brun; subst;
      simpl in Ed; by simplify_eq).
  - destruct targets as [|[] [|? ?]]; try (intros c sc g L g' k k' X X' Hc Hr E Ed; discriminate E).
    + intros c sc g L g' k k' X X' Hc Hr E Ed _ _ Ht n sg fsg Hk Ha. rewrite definite_assign in Ed.
      apply when_inv in Ed as [Hb [= <-]].
      assert (lowerAssign c sc id value g = Some (L, g')) as E' by (by destruct value). unfold lowerAssign in E'. brun.
      assert (fExec n (Ast.Assign [Ast.Name id] value) fsg =
        withVal (fEval fsg value) (fun v => Some (PNorm (<[id := v]> fsg)))) as -> by (by destruct value).
      by eapply (bindName_sim c sc).
    + destruct value; try (intros c sc g L g' k k' X X' Hc Hr E Ed; discriminate E). apply sim_tuple.
  - destruct target; try (intros c sc g L g' k k' X X' Hc Hr E Ed; discriminate E). apply sim_aug.
  - destruct target, value; try (intros c sc g L g' k k' X X' Hc Hr E Ed; discriminate E).
    intros c sc g L g' k k' X X' Hc Hr E Ed _ _ Ht n sg fsg Hk Ha. cbn [BridgeScope.definite] in Ed.
    apply when_inv in Ed as [Hb [= <-]]. cbn [lowerStmt] in E. unfold lowerAnnAssign in E. brun.
    by eapply (bindName_sim c sc).
  - destruct value; [|intros c sc g L g' k k' X X' Hc Hr E Ed; discriminate E].
    intros c sc g L g' k k' X X' Hc Hr E Ed _ _ Ht n sg fsg Hk Ha. cbn [lowerStmt] in E. brun. subst. cbn [lStmts] in *.
    simpl in Ed. apply when_inv in Ed as [Hb [= <-]]. apply stys_one in Ht. inversion Ht; subst.
    rewrite pyExecs_one. cbn [PySem.pyExec PyAst.fExec]. by eapply withVal_sim.
Qed.

(** ** Branches *)

Lemma joinDecls_run n joins sg : pyExecs n (joinDecls joins) sg = Some (PNorm sg).
Proof. unfold joinDecls. induction (sortStrings _) as [|x l IH]; [done|]. simpl. apply IH. Qed.

(** One arm of an [if], run where the joined names are in scope. *)
Lemma arm_sim l c sc g t g' joins k k1 X Y Z :
  simB l -> ctxOK c -> forallb regular l = true ->
  lowerBody c l None false (joins ∪ sc) g = Some (t, g') -> definites l X = Some Y -> X ⊆ dom sc ->
  wfctx k -> stys k (lStmts t) k1 -> Z ⊆ Y ->
  simRun X Z k (fun n => pyExecs n (lStmts t)) (fun n => fExecs n l).
Proof.
  intros Hl Hc Hr E Ed HX Hw Ht HZ n sg fsg Hk Ha. eapply sameRes_sub; [reflexivity|exact HZ|].
  apply (Hl c None false (joins ∪ sc) g t g' k k1 X Y); try done. set_solver.
Qed.

Lemma sim_if cond t e : Forall simS t -> Forall simS e -> simS (Ast.If cond t e).
Proof.
  intros Ht%sim_body He%sim_body c sc g L g' k k' X X' Hc Hr E Ed HX Hw Hty n sg fsg Hk Ha.
  destruct (lower_if_inv _ _ _ _ _ _ _ _ E)
    as (x & cr & lt & le & t2 & e2 & joins & g0 & g1 & g2 & g3 & g4 & Ex & _ & _ & _ & Et & Ee & EL & _).
  rewrite EL in *. rewrite definite_if in Ed. apply when_inv in Ed as [Hb Ed].
  destruct (definites t X) as [Y|] eqn:EY; [|done]. destruct (definites e X) as [Z|] eqn:EZ; [|done].
  injection Ed as <-. simpl in Hr. apply andb_true_iff in Hr as [Hr1 Hr2].
  destruct (stys_app _ _ _ _ Hty) as (k1 & T1 & T2%stys_one). destruct (stys_wf _ _ _ T1 Hw) as [Hw1 _].
  rewrite pyExecs_app, joinDecls_run. cbn [pseq]. rewrite pyExecs_one.
  pose proof (stys_kinds _ _ _ n sg sg T1 Hw Hk (joinDecls_run n joins sg)) as Hk1.
  inversion T2 as [| | | | | | | | | | | |G D ? cr' ? ? G1 D1 G2 D2 G' Hcr _ S1 S2 _ _]; subst.
  cbn [PySem.pyExec PyAst.fExec assigned] in *. eapply withVal_sim; eauto. intros v _.
  destruct (truth v) as [[]|]; [| |done]; rewrite py_walk, fExecs_walk.
  - eapply (arm_sim t c sc); eauto. set_solver.
  - eapply (arm_sim e c sc); eauto. set_solver.
Qed.

(** ** Loops *)

(** What a turn of a loop leaves. *)
Lemma turn_sim X Y p f K K' :
  X ⊆ Y -> sameRes X Y p f -> (forall sg fsg, p = Some (PNorm sg) \/ p = Some (PCnt sg) ->
    agreeOn X sg fsg -> sameRes X X (K sg) (K' fsg)) -> sameRes X X (pturn p K) (pturn f K').
Proof.
  intros Hs Hp HK. destruct p as [[]|], f as [[]|]; try done; simpl in *; apply HK; auto.
  by eapply agreeOn_sub.
Qed.

Lemma fWhile_S j c b els fsg :
  fWhile (S j) c b els fsg = withVal (c fsg) (fun v =>
    match truth v with
    | Some true => pturn (b fsg) (fWhile j c b els)
    | Some false => els fsg
    | None => None
    end).
Proof.
  simpl. destruct (c fsg) as [[v| |]|]; simpl; try done. destruct (truth v) as [[]|]; try done.
  by destruct (b fsg) as [[]|].
Qed.

Lemma fRange_S j x step b els i stop fsg :
  fRange (S j) x step b els i stop fsg =
  if (if 0 <? step then i <? stop else stop <? i) then
    pturn (b (<[x := VInt i]> fsg)) (fRange j x step b els (i + step) stop)
  else els fsg.
Proof. simpl. destruct (if 0 <? step then _ else _); [|done]. by destruct (b _) as [[]|]. Qed.

Lemma fWhile_ext j c b b' els els' fsg :
  (forall s, b s = b' s) -> (forall s, els s = els' s) -> fWhile j c b els fsg = fWhile j c b' els' fsg.
Proof.
  intros Hb He. revert fsg. induction j as [|j IH]; intros fsg; [done|]. rewrite !fWhile_S, <- Hb, <- He.
  destruct (c fsg) as [[v| |]|]; simpl; try done. destruct (truth v) as [[]|]; try done.
  destruct (b fsg) as [[]|]; simpl; auto.
Qed.

Lemma fRange_ext j x step b b' els els' i stop fsg :
  (forall s, b s = b' s) -> (forall s, els s = els' s) ->
  fRange j x step b els i stop fsg = fRange j x step b' els' i stop fsg.
Proof.
  intros Hb He. revert i fsg. induction j as [|j IH]; intros i fsg; [done|]. rewrite !fRange_S, <- Hb, <- He.
  destruct (if 0 <? step then _ else _); [|done]. destruct (b _) as [[]|]; simpl; auto.
Qed.

(** A jump or a turn keeps the kinds of the locals known before the loop. *)
Lemma turn_kinds G k l k1 n sg sg' :
  stys k l k1 -> wfctx k -> G ⊆ assigned k -> kindEnv (assigned k) sg ->
  pyExecs n l sg = Some (PNorm sg') \/ pyExecs n l sg = Some (PCnt sg') -> kindEnv G sg'.
Proof.
  intros Hl Hw HG Hk Hp. pose proof (proj2 (kinds_block callee sigs h rt) _ _ _ Hl Hw n sg Hk) as Hr.
  cbv beta in Hr. destruct (stys_wf _ _ _ Hl Hw) as [_ Hs].
  destruct Hp as [Hp|Hp]; rewrite Hp in Hr; simpl in Hr; (eapply kindEnv_sub; [|exact Hr]); [by etrans|done].
Qed.

Lemma sim_while cond t e : Forall simS t -> simS (Ast.While cond t e).
Proof.
  intros Hl%sim_body c sc g L g' k k' X X' Hc Hr E Ed HX Hw Hty n sg fsg Hk Ha.
  destruct (lower_while_inv _ _ _ _ _ _ _ _ E) as (-> & x & cr & b & g1 & Ex & Eb & EL & _).
  rewrite EL in *. rewrite definite_while in Ed. apply when_inv in Ed as [Hb Ed].
  destruct (definites t X) as [Y|] eqn:EY; [|done]. injection Ed as <-. simpl in Hr.
  apply andb_true_iff in Hr as [Hr _]. apply stys_one in Hty. rewrite pyExecs_one.
  inversion Hty as [| | | | | | | |G D ? cr' ? k1 Hcr _ _ Hbody| | | |]; subst. cbn [assigned] in *.
  cbn [PySem.pyExec PyAst.fExec]. erewrite pyWhile_ext by (intros; apply py_walk).
  erewrite fWhile_ext; [|intros; apply fExecs_walk|intros; reflexivity].
  assert (forall j sg fsg, kindEnv G sg -> agreeOn X sg fsg -> sameRes X X
    (pyWhile j (fun sg => pyEval sg x) (pyExecs n (lStmts b)) sg)
    (fWhile j (fun sg => fEval sg cond) (fExecs n t) (fExecs n []) fsg)) as Hloop; [|by apply Hloop].
  clear sg fsg Hk Ha. induction j as [|j IH]; intros sg fsg Hk Ha; [done|]. rewrite pyWhile_S, fWhile_S.
  eapply withVal_sim; eauto. intros v _. destruct (truth v) as [[]|]; [|done|done].
  apply (turn_sim X Y); [by apply (definites_all t _ _ EY)| |].
  - by apply (Hl (loopCtx c) None false sc g1 b g' (mkCtx G D) k1 X Y).
  - intros sg1 fsg1 Hp Ha1. apply IH; [|done]. by eapply (turn_kinds G (mkCtx G D)).
Qed.

Definition startEval (fsg : gmap string value) (start : option Ast.Expr) : option pout :=
  match start with None => Some (PRet (VInt 0)) | Some e => fEval fsg e end.

Lemma constStep_eval fsg e d : constStep e = Some d -> d = 1 \/ d = -1 -> fEval fsg e = Some (PRet (VInt d)).
Proof.
  unfold constStep, ParseInt. destruct e as [|t| | | | | | |[] []| | | | | | | |]; try done; simpl.
  - destruct (literal t) as [z|]; [|done]. simpl. destruct (in64 z); [|done]. by intros [= ->].
  - destruct (literal text) as [z|]; [|done]. simpl. destruct (in64 z) eqn:Ez; [|done].
    intros [= <-] Hd. cbn [pyUnary asZ fmap option_fmap option_map]. do 3 f_equal.
    unfold wrap64, in64, MinInt64, MaxInt64 in *. apply andb_true_iff in Ez as [?%Z.leb_le ?%Z.leb_le].
    destruct (decide (z = - 2 ^ 63)) as [->|]; [by destruct Hd|]. rewrite Z.mod_small; lia.
Qed.

(** The two bounds of a [range], evaluated left to right. *)
Definition rangeK (down : bool) (K : Z -> Z -> Z -> option pres) (v w : value) : option pres :=
  match asZ v, asZ w with Some i, Some j => K i j (if down then -1 else 1) | _, _ => None end.

Lemma range_eval args start stop down fsg K :
  rangeArgs args = Some (start, stop, down) ->
  fVals pcallee fsg (map argValue args) (fun vs =>
    match rangeVals vs with Some (i, j, d) => K i j d | None => None end) =
  withVal (startEval fsg start) (fun v => withVal (fEval fsg stop) (rangeK down K v)).
Proof.
  intros Ea. apply rangeArgs_inv in Ea as [_ Ea]. unfold rangeK, fVals.
  destruct Ea as [(-> & -> & ->)|[(e & -> & -> & ->)|(e & step & -> & -> & Ec)]]; simpl.
  - destruct (fEval fsg stop) as [[w| |]|]; simpl; try done. unfold rangeVals. simpl. by destruct (asZ w).
  - destruct (fEval fsg e) as [[v| |]|]; simpl; try done. destruct (fEval fsg stop) as [[w| |]|]; simpl; try done.
    unfold rangeVals. simpl. destruct (asZ v); simpl; [|done]. by destruct (asZ w).
  - destruct (fEval fsg e) as [[v| |]|]; simpl; try done. destruct (fEval fsg stop) as [[w| |]|]; simpl; try done.
    rewrite (constStep_eval fsg step _ Ec) by (by destruct down; auto). simpl. unfold rangeVals. simpl.
    destruct (asZ v); simpl; [|done]. destruct (asZ w); simpl; [|done]. by destruct down.
Qed.

(** The loop over the values, the states agreeing turn by turn. *)
Lemma range_sim G D n j x down body k1 t X Y i e sg fsg :
  wfctx (mkCtx (<[x := intRepr]> G) (<[x := intRepr]> D)) -> G !! x = None ->
  stys (mkCtx (<[x := intRepr]> G) (<[x := intRepr]> D)) body k1 ->
  simRun (X ∪ {[x]}) Y (mkCtx (<[x := intRepr]> G) (<[x := intRepr]> D)) (fun n => pyExecs n body) (fun n => fExecs n t) ->
  X ∪ {[x]} ⊆ Y -> kindEnv G sg -> agreeOn X sg fsg ->
  sameRes X X (pyCount j x down (pyExecs n body) i e sg)
    (fRange j x (if down then -1 else 1) (fExecs n t) (fExecs n []) i e fsg).
Proof.
  intros Hw Hx Hb Hsim HY. revert i sg fsg. induction j as [|j IH]; intros i sg fsg Hk Ha; [done|].
  rewrite pyCount_S, fRange_S.
  replace (if 0 <? (if down then -1 else 1) then i <? e else e <? i) with (if down then e <? i else i <? e)
    by by destruct down.
  destruct (if down then e <? i else i <? e); [|done].
  assert (kindEnv (<[x := intRepr]> G) (<[x := VInt i]> sg)) as Hk1 by by apply kindEnv_insert.
  apply (turn_sim X Y); [set_solver| |].
  - apply (sameRes_sub _ (X ∪ {[x]}) _ Y); [set_solver|done|].
    apply Hsim; [done|by apply agreeOn_insert].
  - intros sg1 fsg1 Hp Ha1. replace (if down then i - 1 else i + 1) with (i + (if down then -1 else 1)) by (destruct down; lia).
    apply IH; [|done]. eapply (turn_kinds G); [exact Hb|exact Hw|by apply insert_subseteq|exact Hk1|exact Hp].
Qed.

(** The start, when the stop is evaluated ahead of it. *)
Lemma start_calm c sc start g s g' G rx sg :
  ctxOK c -> lowerStart c sc start g = Some (s, g') ->
  match start with Some e => quiet e = true | None => True end ->
  ety sigs G s rx -> kindEnv G sg -> exists v, pyEval sg s = Some (PRet v).
Proof.
  intros [Hl _] E Hq Hs Hk. destruct start as [e|]; simpl in E; brun; [|subst; by eexists].
  subst. eapply calm_ret; [by eapply quiet_lower|done..].
Qed.

Lemma start_sim c sc start g s g' G rx sg fsg X :
  ctxOK c -> lowerStart c sc start g = Some (s, g') -> ety sigs G s rx -> kindEnv G sg ->
  match start with Some e => bound X e = true | None => True end -> agreeOn X sg fsg ->
  pyEval sg s = startEval fsg start.
Proof.
  intros Hc E Hs Hk Hb Ha. destruct start as [e|]; simpl in E; brun; [|by subst].
  subst. by eapply expr_sim.
Qed.

Lemma int_kind G e r sg v :
  ety sigs G e r -> isScalar SInt r = true -> kindEnv G sg -> pyEval sg e = Some (PRet v) -> exists z, v = VInt z.
Proof.
  intros He Hi%isScalar_true Hk Ev. pose proof (ety_kind callee sigs G e r sg He Hk) as H. rewrite Ev in H.
  cbn in H. rewrite (hasKind_scalar r v SInt) in H by done. destruct v; try done. eauto.
Qed.

(** Both loops start once both bounds are known. *)
Lemma count_sim n x (s : Expr) bnd down body t X sg fsg os ob :
  pyEval sg s = os -> pyEval sg bnd = ob ->
  (forall v, os = Some (PRet v) -> exists z, v = VInt z) ->
  (forall v, ob = Some (PRet v) -> exists z, v = VInt z) ->
  (forall i e, sameRes X X (pyCount n x down (pyExecs n body) i e sg)
    (fRange n x (if down then -1 else 1) (fExecs n t) (fExecs n []) i e fsg)) ->
  sameRes X X (pyExec n (ForCount x s bnd down body None) sg)
    (withVal os (fun v => withVal ob
      (rangeK down (fun i j d => fRange n x d (fExecs n t) (fExecs n []) i j fsg) v))).
Proof.
  intros Es Eb Hs Hb Hloop. cbn [PySem.pyExec]. rewrite Es, Eb.
  apply sameRes_withVal. intros v Hv. apply sameRes_withVal. intros w Hw.
  destruct (Hs v Hv) as [i ->]. destruct (Hb w Hw) as [j ->]. unfold rangeK. cbn [asZ].
  erewrite pyCount_ext by (intros; apply py_walk). apply Hloop.
Qed.

Lemma stop_inv sc body x e t tr pre bnd :
  lowerStop sc body x e t tr = Some (pre, bnd) ->
  (pre = [] /\ bnd = t) \/
  (inPlace e = false /\ exists tmp, pre = [Define tmp t] /\ bnd = Var tmp tr /\ sc !! tmp = None).
Proof.
  unfold lowerStop. intros E.
  assert (inPlace e = false -> (tmp ← freshLocal sc body x "bound"; Some ([Define tmp t], Var tmp tr)) = Some (pre, bnd) ->
    exists tmp, pre = [Define tmp t] /\ bnd = Var tmp tr /\ sc !! tmp = None) as Hf.
  { intros _ E'. destruct (freshLocal sc body x "bound") as [tmp|] eqn:Ef; [|done]. injection E' as <- <-.
    exists tmp. split_and!; try done. apply freshLoop_some in Ef. unfold taken in Ef.
    apply orb_false_iff in Ef as [[Ef _]%orb_false_iff _]. bool_to_prop. by apply eq_None_not_Some. }
  destruct e; auto; [destruct (bodyAssigns _ _); [done|]|]; simplify_eq; auto.
Qed.

Lemma args_bound X args start stop down :
  rangeArgs args = Some (start, stop, down) -> boundAll X (map argValue args) = true ->
  bound X stop = true /\ match start with Some e => bound X e = true | None => True end.
Proof.
  intros [_ Ea]%rangeArgs_inv. unfold BridgeScope.boundAll, BridgeScope.bound, freeAll. rewrite bool_decide_eq_true.
  destruct Ea as [(-> & _ & ->)|[(e & -> & _ & ->)|(e & step & -> & -> & _)]]; simpl; intros Hb;
    rewrite ?bool_decide_eq_true; set_solver.
Qed.

(** A computed stop comes with a quiet start. *)
Lemma regular_start x f args t e a start stop down :
  rangeArgs args = Some (start, stop, down) -> regular (Ast.For x (Ast.Call f args) t e a) = true ->
  a = false /\ forallb regular t = true /\
  (inPlace stop = false -> match start with Some e => quiet e = true | None => True end).
Proof.
  intros [_ Ea]%rangeArgs_inv. destruct args as [|u [|v rest]], a; simpl in Ea |- *; intros Hr; try done.
  - naive_solver.
  - apply andb_true_iff in Hr as [Hr _]. split_and!; [done..|]. naive_solver.
  - apply andb_true_iff in Hr as [[Hq Hr]%andb_true_iff _]. split_and!; [done..|].
    apply orb_true_iff in Hq. destruct Ea as [(-> & _)|[(? & -> & _ & [= <- <-])|(? & ? & -> & [= <- <-] & _)]];
      [done|..]; intros Hp; rewrite Hp in Hq; by destruct Hq.
Qed.

Lemma withVal_ext o K K' : (forall v, K v = K' v) -> withVal o K = withVal o K'.
Proof. intros He. destruct o as [[]|]; simpl; auto. Qed.

Lemma range_exec n x args t start stop down fsg :
  rangeArgs args = Some (start, stop, down) ->
  fExec n (Ast.For (Ast.Name x) (Ast.Call (Ast.Name "range") args) t [] false) fsg =
  withVal (startEval fsg start) (fun v => withVal (fEval fsg stop)
    (rangeK down (fun i j d => fRange n x d (fExecs n t) (fExecs n []) i j fsg) v)).
Proof.
  intros Ea. rewrite <- (range_eval args) by done. cbn [PyAst.fExec].
  destruct (rangeArgs_inv _ _ _ _ Ea) as [-> _]. unfold fVals. apply withVal_ext. intros v.
  destruct v; try done. destruct (rangeVals l) as [[[i j] d]|]; [|done].
  apply fRange_ext; [intros; apply fExecs_walk|done].
Qed.

(** What a lowered [range] loop needs to run as the tree's, from any context
    the loop is typed in. *)
Lemma loop_sim t c sc x b g g' n down X Y G D k1 sg fsg :
  simB t -> ctxOK c -> forallb regular t = true ->
  lowerBody (loopCtx c) t None false (<[x := intRepr]> sc) g = Some (b, g') ->
  definites t (X ∪ {[x]}) = Some Y -> X ⊆ dom sc ->
  wfctx (mkCtx G D) -> localName sigs h x -> D !! x = None ->
  stys (mkCtx (<[x := intRepr]> G) (<[x := intRepr]> D)) (lStmts b) k1 -> kindEnv G sg -> agreeOn X sg fsg ->
  forall i e, sameRes X X (pyCount n x down (pyExecs n (lStmts b)) i e sg)
    (fRange n x (if down then -1 else 1) (fExecs n t) (fExecs n []) i e fsg).
Proof.
  intros Hl Hc Hrt Eb EY HX Hw Hn Hx Hb Hk Ha i e.
  destruct (next_def sigs h G D x intRepr Hn Hx Hw) as (Hw' & _).
  eapply range_sim; [exact Hw'|by eapply wf_free|exact Hb| |by apply (definites_all t _ _ EY)|done|done].
  apply (Hl (loopCtx c) None false (<[x := intRepr]> sc) g b g' _ k1 (X ∪ {[x]}) Y); try done. set_solver.
Qed.

(** A computed stop: evaluated first, into a local outside [X]. *)
Lemma hoisted_sim c sc start g s g1 stop t tr g2 n x down body tb X k k' tmp sg fsg :
  ctxOK c -> lowerStart c sc start g = Some (s, g1) -> lowerExpr c sc stop g1 = Some ((t, tr), g2) ->
  isScalar SInt tr = true -> bound X stop = true ->
  match start with Some e => bound X e = true | None => True end ->
  match start with Some e => quiet e = true | None => True end ->
  tmp ∉ X -> wfctx k -> stys k [Define tmp t; ForCount x s (Var tmp tr) down body None] k' ->
  kindEnv (assigned k) sg -> agreeOn X sg fsg ->
  (forall G D k1 sg, wfctx (mkCtx G D) -> localName sigs h x -> D !! x = None ->
    stys (mkCtx (<[x := intRepr]> G) (<[x := intRepr]> D)) body k1 -> kindEnv G sg -> agreeOn X sg fsg ->
    forall i e, sameRes X X (pyCount n x down (pyExecs n body) i e sg)
      (fRange n x (if down then -1 else 1) (fExecs n tb) (fExecs n []) i e fsg)) ->
  sameRes X X (pyExecs n [Define tmp t; ForCount x s (Var tmp tr) down body None] sg)
    (withVal (startEval fsg start) (fun v => withVal (fEval fsg stop)
      (rangeK down (fun i j d => fRange n x d (fExecs n tb) (fExecs n []) i j fsg) v))).
Proof.
  intros Hc Es Et Hi Bt Bs Hq Htmp Hw Hty Hk Ha Hloop.
  inversion Hty as [|? k2 ? ? ? T1 T2]; subst. apply stys_one in T2.
  inversion T1 as [G D ? ? rt' Ht Hn Hd| | | | | | | | | | | |]; subst. cbn [assigned] in Hk.
  pose proof (lower_repr sigs G c sc stop (proj1 Hc) _ _ _ _ _ Et Ht) as ->.
  destruct (next_def sigs h G D tmp tr Hn Hd Hw) as (Hw2 & _).
  inversion T2 as [| | | | | | | | |? ? ? ? sr ? ? ? k1 Hs Hsr Hbd Hln Hdx _ Hbody| | |]; subst.
  assert (forall z, kindEnv (<[tmp := tr]> G) (<[tmp := VInt z]> sg)) as Hkz.
  { intros z. apply kindEnv_insert; [done|]. apply isScalar_true in Hi. by rewrite (hasKind_scalar tr _ SInt). }
  assert (forall z, pyEval (<[tmp := VInt z]> sg) s = startEval fsg start) as Hst.
  { intros z. eapply start_sim; eauto. by apply agreeOn_left. }
  destruct (start_calm _ _ _ _ _ _ _ _ _ Hc Es Hq Hs (Hkz 0)) as [v Hv]. rewrite Hst in Hv. rewrite Hv. cbn [withVal].
  rewrite pyExecs_seq. cbn [PySem.pyExec].
  rewrite <- (expr_sim _ _ _ _ _ _ _ _ _ _ _ _ Hc Et Ht Hk Bt Ha).
  destruct (pyEval sg t) as [[w| |]|] eqn:Ew; try done. cbn [withVal pseq].
  destruct (int_kind _ _ _ _ _ Ht Hi Hk Ew) as [z ->]. rewrite pyExecs_one.
  pose proof (count_sim n x s (Var tmp tr) down body tb X (<[tmp := VInt z]> sg) fsg (Some (PRet v)) (Some (PRet (VInt z)))) as Hcount.
  cbn [withVal] in Hcount. apply Hcount; clear Hcount.
  - by rewrite Hst.
  - cbn [PySem.pyEval]. by rewrite lookup_insert_eq.
  - intros u [= <-]. eapply (int_kind _ s sr (<[tmp := VInt z]> sg)); [done..|]. by rewrite Hst.
  - intros u [= <-]. by exists z.
  - intros i e. eapply Hloop; [exact Hw2|done|done|exact Hbody|done|]. by apply agreeOn_left.
Qed.

Lemma sim_for target iter t e a : Forall simS t -> simS (Ast.For target iter t e a).
Proof.
  intros Hl%sim_body c sc g L g' k k' X X' Hc Hr E Ed HX Hw Hty n sg fsg Hk Ha.
  destruct (lower_for_inv _ _ _ _ _ _ _ _ _ _ (proj1 Hc) E) as (-> & x & args & -> & -> & [Hi _ Hx]).
  destruct Hi as (start & stop & down & s & bt & tr & pre & bnd & b & g1 & g2 & Ea & Es & Et & Hit & Ep & _ & Eb & EL).
  rewrite EL in *. rewrite definite_for in Ed. apply when_inv in Ed as [Hb Ed]. simpl in Hb.
  destruct (definites t _) as [Y|] eqn:EY; [|done]. injection Ed as <-.
  destruct (regular_start _ _ _ _ _ _ _ _ _ Ea Hr) as (-> & Hrt & Hq).
  destruct (args_bound _ _ _ _ _ Ea Hb) as [Bt Bs]. rewrite (range_exec n x args t start stop down) by done.
  destruct (stop_inv _ _ _ _ _ _ _ _ Ep) as [(-> & ->)|(Hin & tmp & -> & -> & Htmp)].
  - cbn [app] in *. apply stys_one in Hty. rewrite pyExecs_one.
    inversion Hty as [| | | | | | | | |G D ? ? sr ? ? ? k1 Hs Hsr Hbd Hln Hdx _ Hbody| | |]; subst. cbn [assigned] in Hk.
    assert (exists br, ety sigs G bt br) as [br Hbr] by (destruct Hbd; eexists; by constructor).
    pose proof (lower_repr sigs G c sc stop (proj1 Hc) _ _ _ _ _ Et Hbr) as ->.
    apply count_sim.
    + by eapply start_sim.
    + by eapply expr_sim.
    + intros v Hv. eapply int_kind; [exact Hs|done|exact Hk|]. rewrite <- Hv. by eapply start_sim.
    + intros v Hv. eapply int_kind; [exact Hbr|done|exact Hk|]. rewrite <- Hv. by eapply expr_sim.
    + by eapply (loop_sim t c sc).
  - assert (tmp ∉ X) as Hout by (apply not_elem_of_dom in Htmp; set_solver). specialize (Hq Hin).
    eapply hoisted_sim; eauto. intros G D k1 sg' Hw' Hn Hd Hbody Hk' Ha'. by eapply (loop_sim t c sc).
Qed.

(** Every statement. *)
Lemma sim_all s : simS s.
Proof.
  apply (Ast.Stmt_ind' simS); clear s;
    [apply sim_simple|apply sim_if|intros; by apply sim_while|intros; by apply sim_for].
Qed.

Lemma sim_block l : simB l.
Proof. apply sim_body, Forall_forall. intros s _. apply sim_all. Qed.
End Stmts.
