(* ===== verification/Compile.v ===== *)
(** * Compile: from the frontend's tree to the emitted function

    The static half of src/pkg/build/static.go for one unit: lower the function
    with the bridge, name it and its deopt handler, and emit Go.  The theorem
    composes the bridge's simulation with the code generator's: the emitted Go
    does what Python does with the source. *)

From S2P Require Import Prelude Ast Int64 StaticOps Fold GoSem Emit IrCost PySem EmitTyping EmitEnv.
From S2P Require Import EmitExpr EmitOps EmitSound EmitStmt EmitBlock EmitLoops EmitTypes EmitKinds EmitCheck EmitKindStmts.
From S2P Require Import EmitCorrect Bridge PyAst BridgeExpr BridgeScope BridgeStmts.
Local Open Scope Z_scope.

(** The unit's form: the lowered function under its Go name; a deopt target
    gets its hand-off's name. *)
Definition formOf (name : string) (deopt : bool) (f : Func) : Func :=
  mkFunc name (Params f) (FRet f) (Body f) (if deopt then name +:+ "_deopt" else DeoptHandler f) (BindingGuards f).

(** A unit that does not lower or does not emit stops the build. *)
Definition staticForm (name : string) (deopt : bool) (fn : Ast.FuncDef)
    (res : string -> option StaticCallee) (gl sh : string -> option Repr)
    (gn : string -> option StaticGenerator) : option goFunc :=
  f ← LowerFuncGen fn res gl sh gn;
  match EmitFunc (formOf name deopt f) with inl gf => Some gf | inr _ => None end.

(** ** Parameters *)

Lemma lowerParam_name c p q : lowerParam c p = Some q -> pName q = Ast.paramName p.
Proof.
  unfold lowerParam. destruct (Ast.paramKind p), (Ast.paramDefault p), (Ast.paramAnnotation p); try done;
    destruct (annotationRepr _); try destruct (shapeAnnotationRepr _ _); intros [= <-]; done.
Qed.

Lemma lowerParams_names c ps qs : mapM (lowerParam c) ps = Some qs -> map pName qs = map Ast.paramName ps.
Proof.
  intros H%mapM_Some_1. induction H as [|p q ps qs Hp _ IH]; [done|]. simpl.
  by rewrite IH, (lowerParam_name _ _ _ Hp).
Qed.

Lemma paramScope_dom ps : dom (paramScope ps) =@{gset string} list_to_set (map pName ps).
Proof.
  unfold paramScope. assert (forall sc : scope, dom (fold_left (fun sc p => <[pName p := pRepr p]> sc) ps sc)
    =@{gset string} dom sc ∪ list_to_set (map pName ps)) as H.
  { induction ps as [|p ps IH]; intros sc; simpl; [set_solver|]. rewrite IH. set_solver. }
  rewrite H. set_solver.
Qed.

Lemma pyBind_bound xs vs sg y :
  length xs = length vs -> y ∈ xs \/ is_Some (sg !! y) -> is_Some (pyBind xs vs sg !! y).
Proof.
  revert vs sg. induction xs as [|x xs IH]; intros [|v vs] sg Hl Hy; simplify_eq/=; [set_solver|].
  apply IH; [done|]. destruct (decide (x = y)) as [->|Hn].
  - right. by rewrite lookup_insert_eq.
  - rewrite lookup_insert_ne by done. set_solver.
Qed.

(** What a lowered function is made of. *)
Lemma LowerFunc_inv fn res gl sh gn F :
  LowerFuncGen fn res gl sh gn = Some F ->
  exists b g, mapM (lowerParam (funcCtx fn res gl sh gn)) (Ast.fnParams fn) = Some (Params F) /\
    lowerBody (funcCtx fn res gl sh gn) (Ast.fnBody fn) None false (paramScope (Params F)) [] = Some (b, g) /\
    Body F = lStmts b /\ lTerm b = true /\ lRet b = Some (FRet F).
Proof.
  unfold LowerFuncGen. intros E. destruct (Ast.fnAsync fn || _); [done|].
  destruct (mapM _ _) as [ps|] eqn:Ep; [|done]. simpl in E. destruct (lowerBody _ _ _ _ _ _) as [[b g]|] eqn:Eb; [|done].
  destruct (lRet b) as [r|] eqn:Er; [|done]. simpl in E. destruct (lTerm b && _) eqn:Et; [|done].
  apply andb_true_iff in Et as [Et _]. injection E as <-. by exists b, g.
Qed.

(** C6: a lowered function reads only names that are bound.  Whatever globals
    are tracked ([G] has their names) and whatever generators may be driven,
    every name an expression of the body reads - in a branch, in a loop or
    after one - is a parameter, or is assigned on every path that reaches the
    read, or is a tracked global, so Python's UnboundLocalError is never hidden
    by a zero value of Go; an augmented assignment only updates a local so
    assigned.  One exception: in the body of a loop that drives a generator the
    name the loop's handle got counts as bound ([handleName]), where Python
    raises NameError. *)
Theorem LowerFunc_reads_bound fn res gl sh gn F (G : gset string) :
  (forall x r, gl x = Some r -> x ∈ G) -> LowerFuncGen fn res gl sh gn = Some F ->
  is_Some (definites G (fun f => bool_decide (is_Some (gn f))) (Ast.fnBody fn)
    (list_to_set (map Ast.paramName (Ast.fnParams fn)))).
Proof.
  intros HG E. destruct (LowerFunc_inv _ _ _ _ _ _ E) as (b & g & Ep & Eb & _).
  rewrite <- (lowerParams_names _ _ _ Ep), <- paramScope_dom. exists (dom (lScope b)).
  eapply lower_definites; [|exact Eb]. split; [exact HG|]. simpl. intros f s Hs. apply bool_decide_eq_true. by exists s.
Qed.

(** ** The two runs of the body *)

Lemma follows_same h args d g X X' p f : follows h args d g p -> sameRes X X' p f -> follows h args d g f.
Proof.
  intros [[Hd Hg]|Hp] Hs; [by left|right]. destruct p as [[]|], f as [[]|]; try done; naive_solver.
Qed.

Section Compile.
Context (callee pcallee : string -> list value -> value + pyexc).
Context (sigs : string -> option (list Repr * Repr)) (h : string) (args : list value).
Context `{!Program callee sigs h} `{!KindProgram callee sigs}.

Lemma entry_kinds f globals :
  callable sigs h args f globals ->
  kindEnv (assigned (entryCtx f globals)) (pyBind (map pName (Params f)) args ∅).
Proof.
  intros Hc. apply kindEnv_binds; [done|]. pose proof (cl_args _ _ _ _ _ Hc) as Ha.
  rewrite Forall2_fmap_l. eapply Forall2_impl; [exact Ha|]. intros. by apply hasRepr_kind.
Qed.

Lemma body_sim fn res sh F f globals k' n :
  (forall g s, res g = Some s -> forall vs, pcallee g vs = callee (GoName s) vs) ->
  LowerFuncGen fn res (fun _ => None) sh (fun _ => None) = Some F ->
  Params f = Params F -> callable sigs h args f globals ->
  stys sigs h (FRet F) (entryCtx f globals) (Body F) k' -> forallb regular (Ast.fnBody fn) = true ->
  let sg := pyBind (map Ast.paramName (Ast.fnParams fn)) args ∅ in
  exists X X', sameRes X X' (pyExecs callee n (Body F) sg) (fExecs pcallee n (Ast.fnBody fn) sg).
Proof.
  intros Hres E Hps Hc Ht Hr sg. destruct (LowerFunc_inv _ _ _ _ _ _ E) as (b & g & Ep & Eb & EB & _).
  rewrite EB in *. assert (sg = pyBind (map pName (Params f)) args ∅) as Hsg.
  { unfold sg. by rewrite Hps, (lowerParams_names _ _ _ Ep). }
  destruct (entry_here sigs h args f globals Hc) as (frame & _ & Hh).
  set (c := funcCtx fn res (fun _ => None) sh (fun _ => None)) in *.
  assert (ctxOK callee pcallee c) as Hok by done.
  pose proof (lower_definites _ _ _ _ _ _ _ _ (localOnly_within c (proj1 Hok)) Eb) as Hd.
  eexists _, _. eapply (sim_block callee pcallee sigs h (FRet F)); [exact Hok|exact Hr|exact Eb|exact Hd|done| |exact Ht| |].
  - apply Hh.
  - rewrite Hsg. by apply entry_kinds.
  - intros y Hy. split; [|done]. apply pyBind_bound.
    + rewrite <- (lowerParams_names _ _ _ Ep), <- Hps, length_map. by eapply Forall2_length, cl_args.
    + left. rewrite <- (lowerParams_names _ _ _ Ep). apply (elem_of_list_to_set (C := gset string)).
      by rewrite <- paramScope_dom.
Qed.
End Compile.


(** ** An instance *)

(** [def tri(n: int) -> int: s = 0; for i in range(n + 1): if i > 2: t = i * 2
    else: t = i; s += t; return s] *)
Definition annotated (x t : string) : Ast.Param := Ast.mkParam x Ast.ParamPlain (Some (Ast.Name t)) None.

Definition triDef : Ast.FuncDef :=
  Ast.mkFuncDef "tri" [annotated "n" "int"] (Some (Ast.Name "int"))
    [Ast.Assign [Ast.Name "s"] (Ast.IntLit "0");
     Ast.For (Ast.Name "i")
       (Ast.Call (Ast.Name "range") [mkArg "" 0 (Ast.BinOp Ast.BinAdd (Ast.Name "n") (Ast.IntLit "1"))])
       [Ast.If (Ast.Compare (Ast.Name "i") [Ast.CmpGt] [Ast.IntLit "2"])
          [Ast.Assign [Ast.Name "t"] (Ast.BinOp Ast.BinMul (Ast.Name "i") (Ast.IntLit "2"))]
          [Ast.Assign [Ast.Name "t"] (Ast.Name "i")];
        Ast.AugAssign (Ast.Name "s") Ast.BinAdd (Ast.Name "t")] [] false;
     Ast.Return (Some (Ast.Name "s"))] [] false.

Definition triFunc : Func :=
  mkFunc "tri" [mkParam "n" intRepr] intRepr
    [Define "s" (Int 0);
     Define "bound" (Bin OpAdd (Var "n" intRepr) (Int 1));
     ForCount "i" (Int 0) (Var "bound" intRepr) false
       [VarDecl "t" intRepr;
        If (Cmp CmpGt (Var "i" intRepr) (Int 2))
          [Assign "t" (Bin OpMul (Var "i" intRepr) (Int 2))]
          [Assign "t" (Var "i" intRepr)];
        AugAssign "s" OpAdd intRepr (Var "t" intRepr)] None;
     Return (Var "s" intRepr)] "" [].

Definition noRes (_ : string) : option StaticCallee := None.

Lemma tri_lowers : LowerFuncGen triDef noRes (fun _ => None) (fun _ => None) (fun _ => None) = Some triFunc.
Proof. vm_compute. reflexivity. Qed.

(** [def drive(n: int) -> int: s = 0; for x in gen(n): ...; s += x & K; return s]. *)
Definition driveDef (body : list Ast.Stmt) : Ast.FuncDef :=
  Ast.mkFuncDef "drive" [annotated "n" "int"] (Some (Ast.Name "int"))
    [Ast.Assign [Ast.Name "s"] (Ast.IntLit "0");
     Ast.For (Ast.Name "x") (Ast.Call (Ast.Name "gen") [mkArg "" 0 (Ast.Name "n")])
       (body ++ [Ast.AugAssign (Ast.Name "s") Ast.BinAdd (Ast.BinOp Ast.BinBitAnd (Ast.Name "x") (Ast.Name "K"))]) [] false;
     Ast.Return (Some (Ast.Name "s"))] [] false.

Definition trackK (x : string) : option Repr := if String.eqb x "K" then Some intRepr else None.
Definition driveGen (f : string) : option StaticGenerator :=
  if String.eqb f "gen" then Some (mkGenSig "static_gen" [mkGenParam "n" intRepr true] intRepr false) else None.
Definition driveFunc (body : list Ast.Stmt) : option Func := LowerFuncGen (driveDef body) noRes trackK (fun _ => None) driveGen.
Definition branchDef : Ast.FuncDef :=
  Ast.mkFuncDef "f" [annotated "n" "int"] None
    [Ast.If (Ast.Compare (Ast.Name "n") [Ast.CmpGt] [Ast.IntLit "2"]) [Ast.Assign [Ast.Name "t"] (Ast.Name "n")] [];
     Ast.Return (Some (Ast.Name "t"))] [] false.

(** The function lowers and reads bound names only; with [t] assigned in one
    branch it does not lower. *)
Lemma LowerFunc_reads_bound_witness :
  is_Some (definites {["K"]} (fun f => bool_decide (is_Some (driveGen f))) (Ast.fnBody (driveDef []))
    (list_to_set ["n"])) /\ LowerFunc branchDef = None.
Proof.
  split; [|vm_compute; reflexivity].
  apply (LowerFunc_reads_bound (driveDef []) noRes trackK (fun _ => None) driveGen (default triFunc (driveFunc [])) {["K"]}).
  - intros x r. unfold trackK. destruct (String.eqb_spec x "K"); [set_solver|done].
  - vm_compute. reflexivity.
Defined.

(** A loop's body may read its generator's handle: with the statement [g]
    ahead in the body the function lowers, to the same code, though no name
    [g] is bound and Python raises NameError. *)
Lemma handle_read : driveFunc [Ast.ExprStmt (Ast.Name "g")] = driveFunc [] /\ is_Some (driveFunc []) /\
  driveFunc [Ast.ExprStmt (Ast.Name "g2")] = None.
Proof. split_and!; [vm_compute; reflexivity|eexists; vm_compute; reflexivity|vm_compute; reflexivity]. Qed.

Lemma tri_callable : callable noSigs "static_tri_deopt" [VInt 4] (formOf "static_tri" true triFunc) ∅.
Proof.
  split; simpl; try done.
  - by intros x [v Hx].
  - apply NoDup_singleton.
  - constructor; [|constructor]. by split_and!.
  - by repeat constructor.
Qed.

Lemma tri_typed : exists k',
  stys noSigs "static_tri_deopt" intRepr (entryCtx (formOf "static_tri" true triFunc) ∅) (Body triFunc) k'.
Proof. eexists. apply checkBlock_sound. vm_compute. reflexivity. Qed.

