(* ===== verification/BridgeFacts.v ===== *)
(** * BridgeFacts: where the bridge leaves Python or Go

    Closed instances of source functions the bridge accepts although the form
    it builds means something else than the source, or is not Go. *)

From S2P Require Import Prelude Ast Int64 StaticOps Fold GoSem Emit IrCost PySem.
From S2P Require Import EmitTyping EmitCheck EmitCorrect Bridge PyAst BridgeStmts Compile.
Local Open Scope Z_scope.

(** A source function of annotated parameters, without a declared result. *)
Definition source (name : string) (ps : list (string * string)) (body : list Ast.Stmt) : Ast.FuncDef :=
  Ast.mkFuncDef name (map (fun p => annotated p.1 p.2) ps) None body [] false.

Definition rangeFor (x : string) (args : list Ast.Expr) (body : list Ast.Stmt) : Ast.Stmt :=
  Ast.For (Ast.Name x) (Ast.Call (Ast.Name "range") (map (mkArg "" 0) args)) body [] false.

(** [def f(a: int, b: int): for i in range(1 << a, 1 // b): pass; return 0] *)
Definition swapDef : Ast.FuncDef :=
  source "f" [("a", "int"); ("b", "int")]
    [rangeFor "i" [Ast.BinOp Ast.BinLShift (Ast.IntLit "1") (Ast.Name "a");
                   Ast.BinOp Ast.BinFloorDiv (Ast.IntLit "1") (Ast.Name "b")] [Ast.Pass];
     Ast.Return (Some (Ast.IntLit "0"))].

(** Two loops with computed bounds in one block. *)
Definition twiceDef : Ast.FuncDef :=
  source "f" [("n", "int")]
    [rangeFor "i" [Ast.BinOp Ast.BinAdd (Ast.Name "n") (Ast.IntLit "1")] [Ast.Pass];
     rangeFor "j" [Ast.BinOp Ast.BinAdd (Ast.Name "n") (Ast.IntLit "2")] [Ast.Pass];
     Ast.Return (Some (Ast.Name "n"))].

(** [x = [n]; x = ["a"]; return x[0]] *)
Definition relistDef : Ast.FuncDef :=
  source "f" [("n", "int")]
    [Ast.Assign [Ast.Name "x"] (Ast.ListLit [Ast.Name "n"]);
     Ast.Assign [Ast.Name "x"] (Ast.ListLit [Ast.StrLit "a"]);
     Ast.Return (Some (Ast.Subscript (Ast.Name "x") (Ast.IntLit "0")))].

(** [n += 3.0; return n] *)
Definition augDef : Ast.FuncDef :=
  source "f" [("n", "int")]
    [Ast.AugAssign (Ast.Name "n") Ast.BinAdd (Ast.FloatLit (ofInt 3)); Ast.Return (Some (Ast.Name "n"))].

(** The form's run on concrete arguments. *)
Definition formRun (fn : Ast.FuncDef) (n : nat) (args : list value) : option gres :=
  gf ← staticForm "f" true fn noRes (fun _ => None) (fun _ => None) (fun _ => None);
  runFunc noCallee n ∅ gf args.

Definition sourceRun (fn : Ast.FuncDef) (n : nat) (args : list value) : option pres :=
  fExecs noCallee n (Ast.fnBody fn) (pyBind (map Ast.paramName (Ast.fnParams fn)) args ∅).

(** The computed stop is evaluated ahead of the start: Python raises the
    start's exception, the form the stop's. *)
Theorem stop_before_start :
  sourceRun swapDef 5 [VInt (-1); VInt 0] = Some (PExc excNegShift) /\
  formRun swapDef 5 [VInt (-1); VInt 0] = Some (GRet [VInt 0; VErr excZeroDiv]).
Proof. split; vm_compute; reflexivity. Qed.

(** Two computed bounds of one block get the same temporary: the second
    declaration is one Go rejects. *)
Theorem bound_declared_twice :
  (map (fun s => match s with Define x _ => x | _ => "" end) ∘ Body) <$> LowerFunc twiceDef =
    Some ["bound"; ""; "bound"; ""; ""] /\
  sourceRun twiceDef 10 [VInt 3] = Some (PDone (VInt 3)) /\ formRun twiceDef 10 [VInt 3] = None.
Proof. split_and!; vm_compute; reflexivity. Qed.

(** Rebinding compares scalars only: a list of another element type is
    assigned to the same Go variable, which the typing of Go's locals refuses. *)
Theorem relisted_accepted :
  match LowerFunc relistDef with
  | Some F => checkBlock noSigs "f_deopt" (FRet F) (entryCtx (formOf "f" true F) ∅) (Body F) = None
  | None => False
  end.
Proof. vm_compute. reflexivity. Qed.

(** An int local takes a float augmented assignment: Python's result is a
    float, the form declares an int result and assigns a float64 to an int64. *)
Theorem aug_float_accepted :
  sourceRun augDef 5 [VInt 1] = Some (PDone (VFloat (ofInt 4))) /\
  FRet <$> LowerFunc augDef = Some intRepr.
Proof. split; vm_compute; reflexivity. Qed.

(** [for i in range(n): return 1.5] then [return 0] *)
Definition loopReturnDef : Ast.FuncDef :=
  source "f" [("n", "int")]
    [rangeFor "i" [Ast.Name "n"] [Ast.Return (Some (Ast.FloatLit (ofInt 3)))]; Ast.Return (Some (Ast.IntLit "0"))].

(** The result of a return inside a loop is not compared with the function's:
    Python returns a float where the form declares an int result. *)
Theorem loop_return_unchecked :
  sourceRun loopReturnDef 5 [VInt 1] = Some (PDone (VFloat (ofInt 3))) /\
  FRet <$> LowerFunc loopReturnDef = Some intRepr.
Proof. split; vm_compute; reflexivity. Qed.
