(* ===== verification/EmitFacts.v ===== *)
(** * EmitFacts: where emitted code and Python part

    Concrete functions outside the typing of [EmitTyping] (or inside it, where
    the reference semantics leaves a float open) on which the emitted code and
    Python disagree: each shows that a condition of [EmitFunc_correct] cannot be
    dropped. *)

From S2P Require Import Prelude Int64 StaticOps GoSem Emit IrCost PySem EmitTyping EmitCorrect.
Local Open Scope Z_scope.

(** The emitted function's outcome and Python's, on the same arguments. *)
Definition goRun (f : Func) (n : nat) (args : list value) : option gres :=
  match EmitFunc f with inl gf => runFunc noCallee n ∅ gf args | inr _ => None end.
Definition pyRun (f : Func) (n : nat) (args : list value) : option pres :=
  pyExecs noCallee n (Body f) (pyBind (map pName (Params f)) args ∅).

Definition intParams (xs : list string) : list Param := map (fun x => mkParam x intRepr) xs.

(** [return b != 0 and a % b == 0] *)
Definition divides : Func :=
  mkFunc "divides" (intParams ["a"; "b"]) boolRepr
    [Return (And (Cmp CmpNe (Var "b" intRepr) (Int 0))
                 (Cmp CmpEq (Bin OpMod (Var "a" intRepr) (Var "b" intRepr)) (Int 0)))] "divides_boxed" [].

(** The connective guard counts only true division as raising, so the
    zero check of a modulo in the right operand is hoisted past the left one:
    on [b = 0] Python returns False and the emitted function raises
    ZeroDivisionError, with no guard fired. *)
Theorem connective_hoists_raise :
  HasRaisingGuard (Bin OpMod (Var "a" intRepr) (Var "b" intRepr)) = false /\
  pyRun divides 1 [VInt 4; VInt 0] = Some (PDone (VBool false)) /\
  goRun divides 1 [VInt 4; VInt 0] = Some (GRet [VBool false; VErr excZeroDiv]) /\
  blockFires noCallee 1 (Body divides) (pyBind ["a"; "b"] [VInt 4; VInt 0] ∅) = false.
Proof. split_and!; vm_compute; reflexivity. Qed.

(** [while 12 % b >= 0: b -= 1; return b] *)
Definition untilZero : Func :=
  mkFunc "untilZero" (intParams ["b"]) intRepr
    [While (Cmp CmpGe (Bin OpMod (Int 12) (Var "b" intRepr)) (Int 0))
       [Assign "b" (Bin OpSub (Var "b" intRepr) (Int 1))];
     Return (Var "b" intRepr)] "untilZero_boxed" [].

(** The zero check of a loop condition is hoisted once, in front of
    the loop, and the condition's cost counts no guard for it: when the body
    makes the divisor zero Python raises ZeroDivisionError and the emitted loop
    divides by zero unguarded, which has no result. *)
Theorem while_condition_unguarded :
  costExpr (Cmp CmpGe (Bin OpMod (Int 12) (Var "b" intRepr)) (Int 0)) noCost = mkCost 2 0 0 /\
  pyRun untilZero 9 [VInt 3] = Some (PExc excZeroDiv) /\
  goRun untilZero 9 [VInt 3] = None.
Proof. split_and!; vm_compute; reflexivity. Qed.

(** [return a == x] with [a] an int and [x] a float. *)
Definition sameNumber : Func :=
  mkFunc "sameNumber" [mkParam "a" intRepr; mkParam "x" floatRepr] boolRepr
    [Return (Cmp CmpEq (Var "a" intRepr) (Var "x" floatRepr))] "sameNumber_boxed" [].

(** A mixed comparison rounds its int operand to a double first: the
    emitted code calls 2^53 + 1 and the double 2^53 equal, two numbers whose
    exact values differ. *)
Theorem mixed_compare_rounds :
  goRun sameNumber 1 [VInt (2 ^ 53 + 1); VFloat (ofInt (2 ^ 53))] = Some (GRet [VBool true; VNil]) /\
  ofInt (2 ^ 53) = S754_finite false (2 ^ 52) 1 /\ 2 ^ 52 * 2 ^ 1 <> 2 ^ 53 + 1.
Proof. split_and!; [vm_compute; reflexivity..|done]. Qed.

(** [return p & q] *)
Definition both : Func :=
  mkFunc "both" [mkParam "p" boolRepr; mkParam "q" boolRepr] intRepr
    [Return (Bin OpBitAnd (Var "p" boolRepr) (Var "q" boolRepr))] "both_boxed" [].

(** A bitwise operation on bools is an int in emitted code, a bool in Python. *)
Lemma bool_and_is_int :
  pyRun both 1 [VBool true; VBool true] = Some (PDone (VBool true)) /\
  goRun both 1 [VBool true; VBool true] = Some (GRet [VInt 1; VNil]).
Proof. split; vm_compute; reflexivity. Qed.
