(* ===== verification/Gen.v ===== *)
(** * Gen: static generators

    Model of src/pkg/emit/gen.go: a generator as a state-machine struct with a
    Next method, one switch case per segment, and the meaning of that machine
    under repeated calls of Next, the way a driving loop calls it. *)

From S2P Require Import Prelude Int64 StaticOps GoSem Emit IrCost PySem EmitTyping EmitEnv EmitExpr.
Local Open Scope Z_scope.
Local Open Scope emit_scope.

(** ** Generators *)

Record GenField := mkGenField { gName : string; gRepr : Repr }.
Record LoopYield := mkLoopYield { Induction : string; LBound : Expr }.
Record Segment := mkSegment {
  SPre : list Stmt;
  SYield : Expr;
  SLoop : option LoopYield;
  SGuard : option Expr
}.
Record Generator := mkGenerator {
  GName : string;
  GElem : Repr;
  GFields : list GenField;
  Segments : list Segment;
  Trailer : list Stmt;
  GDeopt : bool
}.

Definition stateField : string := "state".
Definition loopYieldTmp : string := "v".

(** The statements of a case: Go statements of the locals, and those that work
    on the receiver or leave the case. *)
Inductive mstmt :=
  | MGo (s : gstmt)
  | MSetState (k : Z)
  | MInc (field : string)
  | MYield (x : gexpr)
  | MIf (cond : gexpr) (body : list mstmt)
  | MFallthrough.

Definition assignable (got want : Repr) : bool :=
  sameScalar got want || (isScalar SInt got && isScalar SFloat want).

Definition lowerYield (gen : Generator) (y : Expr) : EM gexpr :=
  '(val, vr) <- lowerExpr y ;;
  if negb (assignable vr (GElem gen)) then efail (ErrYieldScalar (RScalar vr) (RScalar (GElem gen)))
  else eret (if isScalar SInt vr && isScalar SFloat (GElem gen) then toFloat val vr else val).

Definition gos (ss : list gstmt) : list mstmt := map MGo ss.

Definition linearCase (gen : Generator) (seg : Segment) (i : nat) : EM (list mstmt) :=
  pre <- lowerBlock (SPre seg) ;; val <- lowerYield gen (SYield seg) ;; fl <- flush ;;
  eret (gos (pre ++ fl) ++ [MSetState (Z.of_nat i + 1); MYield val]).

Definition loopCase (gen : Generator) (seg : Segment) (lp : LoopYield) (i : nat) : EM (list mstmt) :=
  '(bnd, _) <- lowerExpr (LBound lp) ;; boundFlush <- flush ;;
  pre <- lowerBlock (SPre seg) ;; val <- lowerYield gen (SYield seg) ;; fl <- flush ;;
  eret (gos boundFlush ++
    [MIf (binary LSS (sel genRecv (Induction lp)) bnd)
       (gos (pre ++ fl ++ [define loopYieldTmp val]) ++
        [MInc (Induction lp); MYield (ident loopYieldTmp)]);
     MSetState (Z.of_nat i + 1)]).

Definition guardedCase (gen : Generator) (seg : Segment) (g : Expr) (i : nat) (following : bool) :
    EM (list mstmt) :=
  '(c, _) <- lowerExpr g ;; guardFlush <- flush ;;
  pre <- lowerBlock (SPre seg) ;; val <- lowerYield gen (SYield seg) ;; fl <- flush ;;
  eret (gos guardFlush ++
    [MIf c (gos (pre ++ fl) ++ [MSetState (Z.of_nat i + 1); MYield val]);
     if following then MFallthrough else MSetState (Z.of_nat i + 1)]).

(** One case per segment; [following]: a case comes after this one. *)
Fixpoint genCases (gen : Generator) (i : nat) (segs : list Segment) : EM (list (list mstmt)) :=
  match segs with
  | [] => eret []
  | seg :: segs =>
      let following := match segs, Trailer gen with [], [] => false | _, _ => true end in
      c <- (match SLoop seg, SGuard seg with
            | Some lp, _ => loopCase gen seg lp i
            | None, Some g => guardedCase gen seg g i following
            | None, None => linearCase gen seg i
            end) ;;
      cs <- genCases gen (S i) segs ;; eret (c :: cs)
  end.

Definition trailerCase (gen : Generator) : EM (list (list mstmt)) :=
  t <- lowerBlock (Trailer gen) ;;
  match Trailer gen with
  | [] => eret []
  | _ => eret [gos t ++ [MSetState (Z.of_nat (length (Segments gen)) + 1)]]
  end.

(** The method Next: the cases of the switch, numbered from 0; after it the
    machine returns its zero value and done. *)
Definition genNext (gen : Generator) : EM (list (list mstmt)) :=
  cases <- genCases gen 0 (Segments gen) ;; trailer <- trailerCase gen ;; b <- bget ;;
  if negb (GDeopt gen) && (deoptUsed b || negb (Nat.eqb (nDeopt b) 0))
  then efail (ErrGenGuard (GName gen)) else eret (cases ++ trailer).

(** The struct's fields, the discriminant first. *)
Definition genStruct (gen : Generator) : list (string * gexpr) :=
  (stateField, ident "int") :: map (fun f => (gName f, goType (gRepr f))) (GFields gen).

Definition genBuilder (gen : Generator) (d : bool) : Builder :=
  mkBuilder (GName gen) [] (GElem gen) "" false 0 0 0 0 d [] [].

Definition EmitGenerator (gen : Generator) :
    (list (string * gexpr) * list (list mstmt)) + emitErr :=
  match genNext gen (genBuilder gen (GDeopt gen)) with
  | inl (cases, _) => inl (genStruct gen, cases)
  | inr e => inr e
  end.

Definition setDeopt (gen : Generator) : Generator :=
  mkGenerator (GName gen) (GElem gen) (GFields gen) (Segments gen) (Trailer gen) true.

(** Whether the machine carries a guard: a probe with the signal edge enabled. *)
Definition GeneratorGuarded (gen : Generator) : bool + emitErr :=
  match genNext (setDeopt gen) (genBuilder gen true) with
  | inl (_, b) => inl (deoptUsed b)
  | inr e => inr e
  end.

(** ** The machine *)

(** A struct value: the discriminant and the saved fields. *)
Record mach := mkMach { mState : Z; mFields : list (string * value) }.

Definition recvFrame (fs : list (string * value)) : gmap string value := {["g" := VStruct fs]}.

Definition fieldsOf (r : genv) : option (list (string * value)) :=
  match glookup "g" r with Some (VStruct fs) => Some fs | _ => None end.

Definition setField (n : string) (v : value) (fs : list (string * value)) : list (string * value) :=
  map (fun p => if String.eqb (fst p) n then (fst p, v) else p) fs.

(** How a case ends: past its last statement, with a yielded value, at a
    fallthrough; anything else (an exception, a hand-off) is outside this model. *)
Inductive mres :=
  | MNorm (st : Z) (r : genv)
  | MRet (v : value) (st : Z) (r : genv)
  | MFall (st : Z) (r : genv).

Definition mpop (m : mres) : mres :=
  match m with
  | MNorm st r => MNorm st (tail r)
  | MFall st r => MFall st (tail r)
  | m => m
  end.

Section Machine.
Context (callee : string -> list value -> value + pyexc) (n : nat).

Definition incField (f : string) (r : genv) : option genv :=
  fs ← fieldsOf r; v ← fieldOf f (VStruct fs);
  match v with VInt z => gassign "g" (VStruct (setField f (VInt (wrap64 (z + 1))) fs)) r | _ => None end.

Fixpoint mexec (s : mstmt) (st : Z) (r : genv) {struct s} : option mres :=
  let mexecs := fix mexecs (l : list mstmt) (st : Z) (r : genv) : option mres :=
    match l with
    | [] => Some (MNorm st r)
    | s :: l => m ← mexec s st r; match m with MNorm st r => mexecs l st r | m => Some m end
    end in
  match s with
  | MGo s => g ← exec callee n s r; match g with GNorm r => Some (MNorm st r) | _ => None end
  | MSetState k => Some (MNorm k r)
  | MInc f => r ← incField f r; Some (MNorm st r)
  | MYield x => v ← eval r x; Some (MRet v st r)
  | MIf c body =>
      b ← evalCond c (∅ :: r);
      if b : bool then mpop <$> (mpop <$> mexecs body st (∅ :: ∅ :: r)) else Some (MNorm st r)
  | MFallthrough => Some (MFall st r)
  end.

Fixpoint mexecs (l : list mstmt) (st : Z) (r : genv) : option mres :=
  match l with
  | [] => Some (MNorm st r)
  | s :: l => m ← mexec s st r; match m with MNorm st r => mexecs l st r | m => Some m end
  end.

(** What one call of Next returns: a value, or done; and the struct it leaves. *)
Inductive nextRes :=
  | NYield (v : value) (m : mach)
  | NDone (m : mach).

(** The case at the head, and those it can fall through to. *)
Fixpoint runCases (cases : list (list mstmt)) (st : Z) (fs : list (string * value)) : option nextRes :=
  match cases with
  | [] => None
  | c :: cs =>
      m ← mexecs c st [∅; recvFrame fs];
      match m with
      | MNorm st r => fs ← fieldsOf r; Some (NDone (mkMach st fs))
      | MRet v st r => fs ← fieldsOf r; Some (NYield v (mkMach st fs))
      | MFall st r => fs ← fieldsOf r; runCases cs st fs
      end
  end.

Definition Next (cases : list (list mstmt)) (m : mach) : option nextRes :=
  if (0 <=? mState m) && (mState m <? Z.of_nat (length cases))
  then runCases (drop (Z.to_nat (mState m)) cases) (mState m) (mFields m)
  else Some (NDone m).

(** A driving loop: at most [k] calls, stopping at the first done. *)
Fixpoint pull (k : nat) (cases : list (list mstmt)) (m : mach) : option (list value * bool) :=
  match k with
  | O => Some ([], false)
  | S k =>
    x ← Next cases m;
    match x with
    | NYield v m => p ← pull k cases m; let '(vs, d) := p : _ in Some (v :: vs, d)
    | NDone _ => Some ([], true)
    end
  end.

(** ** What a generator yields *)

(** Straight-line code ending in a value, from the given fields. *)
Definition blockVal (ss : list gstmt) (x : gexpr) (r : genv) : option (value * genv) :=
  g ← execs callee n ss r;
  match g with GNorm r => v ← eval r x; Some (v, r) | _ => None end.

(** The lowered code of a segment. *)
Inductive segCode :=
  | CLinear (ss : list gstmt) (x : gexpr)
  | CLoop (bs : list gstmt) (bound : gexpr) (ind : string) (ss : list gstmt) (x : gexpr)
  | CGuard (gs : list gstmt) (c : gexpr) (ss : list gstmt) (x : gexpr).

(** A counting loop that yields on every turn, for at most [k] turns. *)
Fixpoint loopYields (k : nat) (bs : list gstmt) (bound : gexpr) (ind : string) (ss : list gstmt)
    (x : gexpr) (fs : list (string * value)) : option (list value * list (string * value)) :=
  match k with
  | O => None
  | S k =>
    g ← execs callee n bs [∅; recvFrame fs];
    match g with
    | GNorm r =>
      c ← evalCond (binary LSS (sel genRecv ind) bound) (∅ :: r);
      if c : bool then
        p ← blockVal (ss ++ [define loopYieldTmp x]) (ident loopYieldTmp) (∅ :: ∅ :: r); let '(v, r) := p : _ in
        r ← incField ind r; fs ← fieldsOf r;
        p ← loopYields k bs bound ind ss x fs; let '(vs, fs) := p : _ in Some (v :: vs, fs)
      else fs ← fieldsOf r; Some ([], fs)
    | _ => None
    end
  end.

(** The values the segments yield in order, a loop running at most [k] turns. *)
Fixpoint segYields (k : nat) (cs : list segCode) (fs : list (string * value)) : option (list value) :=
  match cs with
  | [] => Some []
  | CLinear ss x :: cs =>
      p ← blockVal ss x [∅; recvFrame fs]; let '(v, r) := p : _ in fs ← fieldsOf r;
      vs ← segYields k cs fs; Some (v :: vs)
  | CGuard gs c ss x :: cs =>
      g ← execs callee n gs [∅; recvFrame fs];
      match g with
      | GNorm r =>
        b ← evalCond c (∅ :: r);
        if b : bool then
          p ← blockVal ss x (∅ :: ∅ :: r); let '(v, r) := p : _ in fs ← fieldsOf r;
          vs ← segYields k cs fs; Some (v :: vs)
        else fs ← fieldsOf r; segYields k cs fs
      | _ => None
      end
  | CLoop bs bound ind ss x :: cs =>
      p ← loopYields k bs bound ind ss x fs; let '(vs, fs) := p : _ in
      ws ← segYields k cs fs; Some (vs ++ ws)
  end.
End Machine.

(** ** The cases of a machine *)

(** The case a segment's code is laid out as. *)
Definition caseOf (i : nat) (following : bool) (c : segCode) : list mstmt :=
  match c with
  | CLinear ss x => gos ss ++ [MSetState (Z.of_nat i + 1); MYield x]
  | CLoop bs bound ind ss x =>
      gos bs ++ [MIf (binary LSS (sel genRecv ind) bound)
                   (gos (ss ++ [define loopYieldTmp x]) ++ [MInc ind; MYield (ident loopYieldTmp)]);
                 MSetState (Z.of_nat i + 1)]
  | CGuard gs c ss x =>
      gos gs ++ [MIf c (gos ss ++ [MSetState (Z.of_nat i + 1); MYield x]);
                 if following then MFallthrough else MSetState (Z.of_nat i + 1)]
  end.

Fixpoint casesOf (i : nat) (cs : list segCode) : list (list mstmt) :=
  match cs with
  | [] => []
  | c :: cs => caseOf i (match cs with [] => false | _ => true end) c :: casesOf (S i) cs
  end.

Definition isLoop (c : segCode) : bool := match c with CLoop _ _ _ _ _ => true | _ => false end.

(** The kind of the code is the kind of the segment. *)
Definition codeFor (seg : Segment) (c : segCode) : Prop :=
  match SLoop seg, SGuard seg, c with
  | Some lp, _, CLoop _ _ ind _ _ => ind = Induction lp
  | None, Some _, CGuard _ _ _ _ => True
  | None, None, CLinear _ _ => True
  | _, _, _ => False
  end.

Lemma linearCase_code gen seg i b c b' d :
  linearCase gen seg i b = inl (c, b') -> exists ss x, c = caseOf i d (CLinear ss x).
Proof.
  unfold linearCase. intros (pre & b1 & _ & E)%ebind_inv. apply ebind_inv in E as (val & b2 & _ & E).
  apply ebind_inv in E as (fl & b3 & _ & E). injection E as <- _. by exists (pre ++ fl), val.
Qed.

Lemma loopCase_code gen seg lp i b c b' d :
  loopCase gen seg lp i b = inl (c, b') -> exists bs bnd ss x, c = caseOf i d (CLoop bs bnd (Induction lp) ss x).
Proof.
  unfold loopCase. intros ([bnd br] & b1 & _ & E)%ebind_inv. apply ebind_inv in E as (bs & b2 & _ & E).
  apply ebind_inv in E as (pre & b3 & _ & E). apply ebind_inv in E as (val & b4 & _ & E).
  apply ebind_inv in E as (fl & b5 & _ & E). injection E as <- _. exists bs, bnd, (pre ++ fl), val.
  simpl. by rewrite <- app_assoc.
Qed.

Lemma guardedCase_code gen seg g i b c b' d :
  guardedCase gen seg g i d b = inl (c, b') -> exists gs gx ss x, c = caseOf i d (CGuard gs gx ss x).
Proof.
  unfold guardedCase. intros ([gx gr] & b1 & _ & E)%ebind_inv. apply ebind_inv in E as (gs & b2 & _ & E).
  apply ebind_inv in E as (pre & b3 & _ & E). apply ebind_inv in E as (val & b4 & _ & E).
  apply ebind_inv in E as (fl & b5 & _ & E). injection E as <- _. by exists gs, gx, (pre ++ fl), val.
Qed.

Lemma genCases_codes gen i segs b cases b' :
  Trailer gen = [] -> genCases gen i segs b = inl (cases, b') ->
  exists cs, cases = casesOf i cs /\ Forall2 codeFor segs cs.
Proof.
  intros Ht. revert i b cases b'. induction segs as [|seg segs IH]; intros i b cases b' E.
  { injection E as <- <-. by exists []. }
  cbn [genCases] in E. rewrite Ht in E. apply ebind_inv in E as (c & b1 & Ec & E).
  apply ebind_inv in E as (cs & b2 & Es & E). injection E as <- _.
  destruct (IH _ _ _ _ Es) as (codes & -> & Hf).
  assert (exists code, c = caseOf i (match codes with [] => false | _ => true end) code /\ codeFor seg code)
    as (code & -> & Hc).
  { unfold codeFor. replace (match codes with [] => false | _ => true end)
      with (match segs with [] => false | _ => true end) by by inversion Hf.
    destruct (SLoop seg) as [lp|]; [|destruct (SGuard seg) as [g|]].
    - eapply loopCase_code in Ec as (bs & bnd & ss & x & ->). by eexists.
    - apply guardedCase_code in Ec as (gs & gx & ss & x & ->). by eexists.
    - eapply linearCase_code in Ec as (ss & x & ->). by eexists. }
  exists (code :: codes). split; [done|by constructor].
Qed.

(** ** Running a machine *)

Section Run.
Context (callee : string -> list value -> value + pyexc) (n : nat).
Local Notation mexec := (mexec callee n).
Local Notation mexecs := (mexecs callee n).
Local Notation execs := (execs callee).
Local Notation runCases := (runCases callee n).
Local Notation Next := (Next callee n).
Local Notation pull := (pull callee n).
Local Notation blockVal := (blockVal callee n).
Local Notation loopYields := (loopYields callee n).
Local Notation segYields := (segYields callee n).

Lemma mexecs_gos ss l st r r' :
  execs n ss r = Some (GNorm r') -> mexecs (gos ss ++ l) st r = mexecs l st r'.
Proof.
  revert r. induction ss as [|s ss IH]; intros r E; simpl in E; [by simplify_eq|]. simpl.
  destruct (exec callee n s r) as [[r1| | | |]|]; simpl in *; try done. by apply IH.
Qed.

Lemma mexecs_walk l st r :
  (fix go (l : list mstmt) (st : Z) (r : genv) : option mres :=
    match l with
    | [] => Some (MNorm st r)
    | s :: l => m ← mexec s st r; match m with MNorm st r => go l st r | m => Some m end
    end) l st r = mexecs l st r.
Proof.
  revert st r. induction l as [|s l IH]; intros st r; [done|]. simpl.
  destruct (mexec s st r) as [[]|]; simpl; auto.
Qed.

Lemma mexecs_if c body l st r b :
  evalCond c (∅ :: r) = Some b ->
  mexecs (MIf c body :: l) st r =
  if b then m ← mexecs body st (∅ :: ∅ :: r);
            match mpop (mpop m) with MNorm st r => mexecs l st r | m => Some m end
  else mexecs l st r.
Proof.
  intros E. cbn [Gen.mexecs Gen.mexec]. rewrite E. cbn [mbind option_bind]. destruct b; [|done].
  rewrite mexecs_walk. destruct (mexecs body st (∅ :: ∅ :: r)) as [[]|]; done.
Qed.

(** A block that yields its value after the bookkeeping [MSetState]. *)
Lemma yield_block ss x st k r v r' :
  blockVal ss x r = Some (v, r') ->
  mexecs (gos ss ++ [MSetState k; MYield x]) st r = Some (MRet v k r').
Proof.
  unfold blockVal. destruct (execs n ss r) as [[r1| | | |]|] eqn:E; simpl; try done.
  destruct (eval r1 x) as [w|] eqn:Ex; simpl; [|done]. intros [= -> ->].
  erewrite mexecs_gos by done. simpl. by rewrite Ex.
Qed.

Lemma incField_other f r r' x :
  incField f r = Some r' -> x <> "g" -> glookup x r' = glookup x r.
Proof.
  unfold incField. intros E Hx. destruct (fieldsOf r) as [fs|] eqn:Ef; simpl in E; [|done].
  destruct (snd <$> find _ fs) as [[z| | | | | | |]|]; simpl in E; try done.
  destruct (gassign_spec "g" (VStruct (setField f (VInt (wrap64 (z + 1))) fs)) r) as (q & Eq & _ & Hl).
  { done. }
  { unfold fieldsOf in Ef. by destruct (glookup "g" r). }
  rewrite Eq in E. simplify_eq. rewrite Hl. by rewrite (proj2 (String.eqb_neq x "g")).
Qed.

(** A turn of a loop segment: the value is read before the counter moves. *)
Lemma yield_turn ss x ind st r v r1 r2 :
  blockVal (ss ++ [define loopYieldTmp x]) (ident loopYieldTmp) r = Some (v, r1) ->
  incField ind r1 = Some r2 ->
  mexecs (gos (ss ++ [define loopYieldTmp x]) ++ [MInc ind; MYield (ident loopYieldTmp)]) st r
  = Some (MRet v st r2).
Proof.
  unfold blockVal. intros Hb Hi.
  destruct (execs n (ss ++ [define loopYieldTmp x]) r) as [[q| | | |]|] eqn:E; cbn [mbind option_bind] in Hb; try done.
  assert (glookup "v" q = Some v /\ r1 = q) as [Hv ->].
  { unfold ident in Hb. cbn [eval] in Hb. unfold resolve, loopYieldTmp in Hb.
    change (universe "v") with (@None value) in Hb. destruct (glookup "v" q); [|done].
    cbn [mbind option_bind] in Hb. by simplify_eq. }
  erewrite mexecs_gos by done. cbn [Gen.mexecs Gen.mexec]. rewrite Hi. cbn [mbind option_bind].
  unfold ident. cbn [eval]. unfold resolve, loopYieldTmp. rewrite (incField_other _ _ _ "v" Hi) by done. by rewrite Hv.
Qed.

(** ** Machines without code after a loop *)

(** A loop is the last segment, and not right behind a guard. *)
Inductive flat : list segCode -> Prop :=
  | FNil : flat []
  | FLinear ss x cs : flat cs -> flat (CLinear ss x :: cs)
  | FGuard gs c ss x cs : flat cs -> (match cs with d :: _ => isLoop d = false | [] => True end) ->
      flat (CGuard gs c ss x :: cs)
  | FLoop bs bound ind ss x : flat [CLoop bs bound ind ss x].

(** What is left to be yielded when the machine is in state [i]. *)
Definition rest (i : Z) (cs : list segCode) (fs : list (string * value)) (vs : list value) : Prop :=
  flat cs /\ exists k, segYields k cs fs = Some vs.

(** Two machines that differ in how their state is written. *)
Ltac same_mach :=
  match goal with |- Some (?C (mkMach ?a ?f)) = Some (?C (mkMach ?b ?f)) =>
    replace b with a by (simpl; lia); reflexivity end.

(** One run of the cases from a flat code list: the next value, leaving the
    machine where the remaining ones are; or done, past the last case. *)
Lemma run_step cs : flat cs -> forall j k st fs vs,
  cs <> [] -> segYields k cs fs = Some vs ->
  (match cs with d :: _ => isLoop d = true -> st = Z.of_nat j | [] => True end) ->
  match vs with
  | [] => exists fs', runCases (casesOf j cs) st fs =
      Some (NDone (mkMach (Z.of_nat j + Z.of_nat (length cs)) fs'))
  | v :: vs => exists i cs' fs' k', runCases (casesOf j cs) st fs =
      Some (NYield v (mkMach (Z.of_nat j + Z.of_nat i) fs')) /\
      cs' = drop i cs /\ (i <= length cs)%nat /\ flat cs' /\ segYields k' cs' fs' = Some vs
  end.
Proof.
  induction 1 as [|ss x cs Hf IH|gs c ss x cs Hf IH Hnl|bs bound ind ss x];
    intros j k st fs vs Hne E Hst; [done|..].
  - cbn [Gen.segYields] in E. destruct (blockVal ss x [∅; recvFrame fs]) as [[v r]|] eqn:Eb; [|done].
    cbn [mbind option_bind] in E. destruct (fieldsOf r) as [fs'|] eqn:Ef; [|done].
    cbn [mbind option_bind] in E. destruct (segYields k cs fs') as [ws|] eqn:Es; [|done]. simplify_eq/=.
    exists 1%nat, cs, fs', k. split_and!; [|done|lia|done|done].
    cbn [Gen.runCases casesOf caseOf]. rewrite (yield_block _ _ _ _ _ v r Eb). cbn [mbind option_bind].
    by rewrite Ef.
  - cbn [Gen.segYields] in E. destruct (execs n gs [∅; recvFrame fs]) as [[r| | | |]|] eqn:Eg; try done.
    cbn [mbind option_bind] in E. destruct (evalCond c (∅ :: r)) as [b|] eqn:Ec; [|done].
    cbn [mbind option_bind] in E. cbn [Gen.runCases casesOf caseOf].
    erewrite mexecs_gos by done. erewrite mexecs_if by done. destruct b.
    + destruct (blockVal ss x (∅ :: ∅ :: r)) as [[v r1]|] eqn:Eb; [|done].
      cbn [mbind option_bind] in E. destruct (fieldsOf r1) as [fs'|] eqn:Ef; [|done].
      cbn [mbind option_bind] in E. destruct (segYields k cs fs') as [ws|] eqn:Es; [|done]. simplify_eq/=.
      exists 1%nat, cs, fs', k. split_and!; [|done|lia|done|done].
      rewrite (yield_block _ _ _ _ _ v r1 Eb). cbn [mbind option_bind mpop]. by rewrite Ef.
    + destruct (fieldsOf r) as [fs'|] eqn:Ef; [|done]. cbn [mbind option_bind] in E.
      destruct cs as [|d cs].
      * simplify_eq/=. exists fs'. rewrite Ef. simpl. same_mach.
      * cbn [Gen.mexecs Gen.mexec mbind option_bind]. rewrite Ef. cbn [mbind option_bind].
        specialize (IH (S j) k st fs' vs). destruct vs as [|v vs].
        -- destruct IH as [fs2 IH]; [done|done|by rewrite Hnl|]. exists fs2. rewrite IH.
           same_mach.
        -- destruct IH as (i & cs' & fs2 & k' & IH & -> & Hi & Hfl & Hs); [done|done|by rewrite Hnl|].
           exists (S i), (drop i (d :: cs)), fs2, k'. split_and!; [|done|simpl in *; lia|done|done].
           rewrite IH. same_mach.
  - specialize (Hst eq_refl). subst st. cbn [Gen.segYields] in E.
    destruct (loopYields k bs bound ind ss x fs) as [[ws fs']|] eqn:El; [|done]. simplify_eq/=.
    rewrite app_nil_r. destruct k as [|k]; [done|]. cbn [Gen.loopYields] in El.
    destruct (execs n bs [∅; recvFrame fs]) as [[r| | | |]|] eqn:Eb; try done. cbn [mbind option_bind] in El.
    destruct (evalCond _ (∅ :: r)) as [b|] eqn:Ec; [|done]. cbn [mbind option_bind] in El.
    erewrite mexecs_gos by done. erewrite mexecs_if by done. destruct b.
    + destruct (blockVal _ _ (∅ :: ∅ :: r)) as [[v r1]|] eqn:Ev; [|done]. cbn [mbind option_bind] in El.
      destruct (incField ind r1) as [r2|] eqn:Ei; [|done]. cbn [mbind option_bind] in El.
      destruct (fieldsOf r2) as [fs2|] eqn:Ef; [|done]. cbn [mbind option_bind] in El.
      destruct (loopYields k bs bound ind ss x fs2) as [[us fs3]|] eqn:El2; [|done]. simplify_eq/=.
      exists 0%nat, [CLoop bs bound ind ss x], fs2, k. split_and!; [|done|lia|constructor|].
      * rewrite (yield_turn _ _ _ _ _ v r1 r2 Ev Ei). cbn [mbind option_bind mpop]. rewrite Ef. simpl.
        same_mach.
      * cbn [Gen.segYields]. rewrite El2. simpl. by rewrite app_nil_r.
    + destruct (fieldsOf r) as [fs2|] eqn:Ef; [|done]. simplify_eq/=. exists fs'. rewrite Ef. simpl.
      same_mach.
Qed.

Lemma drop_casesOf j i cs : drop j (casesOf i cs) = casesOf (i + j) (drop j cs).
Proof.
  revert i cs. induction j as [|j IH]; intros i cs; [by rewrite Nat.add_0_r, !drop_0|].
  destruct cs as [|c cs]; [done|]. cbn [casesOf drop]. rewrite IH. f_equal. lia.
Qed.

Lemma casesOf_length i cs : length (casesOf i cs) = length cs.
Proof. revert i. induction cs as [|c cs IH]; intros i; simpl; auto. Qed.

Lemma pull_rest codes k : forall j K fs vs,
  (j <= length codes)%nat -> flat (drop j codes) -> segYields K (drop j codes) fs = Some vs ->
  pull k (casesOf 0 codes) (mkMach (Z.of_nat j) fs) = Some (take k vs, Nat.ltb (length vs) k).
Proof.
  induction k as [|k IH]; intros j K fs vs Hj Hf E; [done|]. cbn [Gen.pull]. unfold Gen.Next.
  cbn [mState mFields]. rewrite casesOf_length. destruct (Nat.eq_dec j (length codes)) as [->|Hne].
  - rewrite (proj2 (Z.ltb_ge _ _)), andb_false_r by lia. rewrite drop_all in E. simplify_eq/=. done.
  - rewrite (proj2 (Z.leb_le _ _)), (proj2 (Z.ltb_lt _ _)) by lia. cbn [andb].
    rewrite Nat2Z.id, drop_casesOf. cbn [Nat.add].
    assert (drop j codes <> []) as Hn.
    { intros Ed. apply (f_equal length) in Ed. rewrite length_drop in Ed. simpl in Ed. lia. }
    pose proof (run_step (drop j codes) Hf j K (Z.of_nat j) fs vs Hn E) as Hr.
    destruct vs as [|v vs].
    + destruct Hr as [fs' Hr]; [by destruct (drop j codes)|]. rewrite Hr. done.
    + destruct Hr as (i & cs' & fs' & k' & Hr & -> & Hi & Hfl & Hs); [by destruct (drop j codes)|].
      rewrite Hr. cbn [mbind option_bind]. rewrite <- Nat2Z.inj_add. rewrite drop_drop in Hfl, Hs.
      rewrite length_drop in Hi. rewrite (IH (j + i)%nat k' fs' vs) by (done || lia). done.
Qed.
End Run.

(** A loop only as the last segment, and not right behind a guard. *)
Fixpoint flatSegs (l : list Segment) : bool :=
  match l with
  | [] => true
  | s :: l =>
      match SLoop s, SGuard s, l with
      | Some _, _, _ :: _ => false
      | None, Some _, t :: _ => match SLoop t with Some _ => false | None => true end
      | _, _, _ => true
      end && flatSegs l
  end.

Lemma flat_codes segs codes : flatSegs segs = true -> Forall2 codeFor segs codes -> flat codes.
Proof.
  intros Hs Hf. induction Hf as [|s c segs codes Hc Hf IH]; [constructor|].
  cbn [flatSegs] in Hs. apply andb_true_iff in Hs as [Hk Hs]. specialize (IH Hs).
  unfold codeFor in Hc. destruct (SLoop s) as [lp|] eqn:El; [|destruct (SGuard s) as [g|] eqn:Eg].
  - destruct c as [| |]; try done. destruct Hf; [constructor|done].
  - destruct c as [| |]; try done. constructor; [done|]. destruct Hf as [|t d segs codes Hd Hf]; [done|].
    unfold codeFor in Hd. destruct (SLoop t); [done|]. destruct (SGuard t), d; done.
  - destruct c as [| |]; try done. by constructor.
Qed.

(** A machine emitted for segments whose loop, if any, comes last, and without a
    trailer, follows its segments: as long as the emitted code of each segment
    evaluates without an exception or a deopt ([segYields], which is what that code
    computes and not yet Python's meaning; [GenTrace] relates segments to the def),
    after any number of calls the values received are a prefix of the segments'
    values, and done is reported by the call after the last one and not before. A
    loop resumes at its saved counter, and a guard that does not hold goes on to the
    next segment in the same call. *)
Theorem Next_yields callee n gen cases b' :
  Trailer gen = [] -> flatSegs (Segments gen) = true ->
  genNext gen (genBuilder gen (GDeopt gen)) = inl (cases, b') ->
  (exists codes, cases = casesOf 0 codes /\ Forall2 codeFor (Segments gen) codes) /\
  forall codes K fs vs, cases = casesOf 0 codes -> Forall2 codeFor (Segments gen) codes ->
    segYields callee n K codes fs = Some vs ->
    forall k, pull callee n k cases (mkMach 0 fs) = Some (take k vs, Nat.ltb (length vs) k).
Proof.
  intros Ht Hfl E. unfold genNext in E. apply ebind_inv in E as (cs & b1 & Ec & E).
  apply ebind_inv in E as (tr & b2 & Et & E). unfold trailerCase in Et. rewrite Ht in Et.
  apply ebind_inv in Et as (x & b3 & _ & Et). injection Et as <- _.
  apply ebind_inv in E as (b4 & b5 & _ & E). destruct (negb (GDeopt gen) && _); [done|].
  injection E as <- _. destruct (genCases_codes _ _ _ _ _ _ Ht Ec) as (codes & -> & Hf).
  rewrite app_nil_r. split; [by exists codes|]. intros codes' K fs vs -> Hf' Es k.
  apply (pull_rest callee n codes' k 0%nat K fs vs); [lia|by eapply flat_codes|done].
Qed.

(** [def counter(n): if n < 2: yield 5; yield 7; for i in range(n): yield i] *)
Definition counter : Generator :=
  mkGenerator "counter" intRepr [mkGenField "n" intRepr; mkGenField "i" intRepr]
    [mkSegment [] (Int 5) None (Some (Cmp CmpLt (Recv "n" intRepr) (Int 2)));
     mkSegment [] (Int 7) None None;
     mkSegment [] (Recv "i" intRepr) (Some (mkLoopYield "i" (Recv "n" intRepr))) None] [] false.

Definition counterCodes : list segCode :=
  [CGuard [] (binary LSS (sel "g" "n") (intLit 2)) [] (intLit 5); CLinear [] (intLit 7);
   CLoop [] (sel "g" "n") "i" [] (sel "g" "i")].

Definition startFields : list (string * value) := [("n", VInt 3); ("i", VInt 0)].

Lemma Next_yields_witness :
  flatSegs (Segments counter) = true /\
  genNext counter (genBuilder counter false) = inl (casesOf 0 counterCodes, genBuilder counter false) /\
  forall k, pull (fun _ _ => inr (mkExc "" "")) 0 k (casesOf 0 counterCodes) (mkMach 0 startFields) =
    Some (take k [VInt 7; VInt 0; VInt 1; VInt 2], Nat.ltb 4 k).
Proof.
  split; [reflexivity|]. split; [reflexivity|].
  apply (proj2 (Next_yields (fun _ _ => inr (mkExc "" "")) 0 counter (casesOf 0 counterCodes)
    (genBuilder counter false) eq_refl eq_refl eq_refl) counterCodes 9%nat startFields); [reflexivity| |].
  - by repeat constructor.
  - vm_compute. reflexivity.
Defined.

(** [def tail(n): for i in range(n): yield i; yield 99] *)
Definition loopThenYield : Generator :=
  mkGenerator "tail" intRepr [mkGenField "n" intRepr; mkGenField "i" intRepr]
    [mkSegment [] (Recv "i" intRepr) (Some (mkLoopYield "i" (Recv "n" intRepr))) None;
     mkSegment [] (Int 99) None None] [] false.

(** A yield after a counting loop is lost: the call on which the
    loop's bound is reached leaves the switch and reports done, so a driving loop
    stops before the segment that follows. *)
Theorem loop_then_yield_lost :
  exists cases codes, EmitGenerator loopThenYield = inl (genStruct loopThenYield, cases) /\
    cases = casesOf 0 codes /\
    pull (fun _ _ => inr (mkExc "" "")) 0 9 cases (mkMach 0 startFields) =
      Some ([VInt 0; VInt 1; VInt 2], true) /\
    segYields (fun _ _ => inr (mkExc "" "")) 0 9 codes startFields =
      Some [VInt 0; VInt 1; VInt 2; VInt 99].
Proof.
  eexists _, [CLoop [] (sel "g" "n") "i" [] (sel "g" "i"); CLinear [] (intLit 99)].
  split_and!; [vm_compute; reflexivity|reflexivity|vm_compute; reflexivity..].
Qed.
