(* ===== verification/GenBridge.v ===== *)
(** * GenBridge: from a generator def to its segments

    Model of src/pkg/ir/generator.go (the split of a generator body into
    segments, the saved fields, every refusal), of the drive-site signature of
    src/pkg/ir/bridge.go and of the resolver of src/pkg/ir/genresolve.go.  A
    refusal is [None]; the module is given by the def statements of its body. *)

From S2P Require Import Prelude Ast Int64 StaticOps GoSem Emit IrCost Gen Bridge.
Local Open Scope Z_scope.

(** ** Yields *)

Fixpoint yieldIn (e : Ast.Expr) : bool :=
  match e with
  | Ast.Yield _ _ => true
  | Ast.BinOp _ l r => yieldIn l || yieldIn r
  | Ast.UnaryOp _ x => yieldIn x
  | Ast.BoolOp _ vs => existsb yieldIn vs
  | Ast.Compare l _ rs => yieldIn l || existsb yieldIn rs
  | _ => false
  end.

Definition yieldInOpt (e : option Ast.Expr) : bool := match e with Some e => yieldIn e | None => false end.

Fixpoint stmtYields (s : Ast.Stmt) : bool :=
  match s with
  | Ast.ExprStmt x | Ast.Assign _ x => yieldIn x
  | Ast.AnnAssign _ _ v | Ast.Return v => yieldInOpt v
  | Ast.If c b e | Ast.While c b e => yieldIn c || existsb stmtYields b || existsb stmtYields e
  | Ast.For _ i b e _ => yieldIn i || existsb stmtYields b || existsb stmtYields e
  | _ => false
  end.

Definition containsYield (l : list Ast.Stmt) : bool := existsb stmtYields l.

Definition IsGenerator (fn : Ast.FuncDef) : bool := containsYield (Ast.fnBody fn).

(** The value of a block that is one plain [yield e]. *)
Definition singleYield (body : list Ast.Stmt) : option Ast.Expr :=
  match body with [Ast.ExprStmt (Ast.Yield (Some v) false)] => Some v | _ => None end.

(** ** Saved fields *)

(** Reads of saved names go through the receiver, reads of the segment's locals
    stay; the saved names read are added to [referenced]. *)
Fixpoint recvify (saved locals : gset string) (e : Expr) (referenced : gset string) : option (Expr * gset string) :=
  let two mk l r :=
    p ← recvify saved locals l referenced; let '(l, refs) := p : _ in
    q ← recvify saved locals r refs; let '(r, refs) := q : _ in
    Some (mk l r, refs) in
  match e with
  | Var x r =>
      if bool_decide (x ∈ saved) then Some (Recv x r, {[x]} ∪ referenced)
      else if bool_decide (x ∈ locals) then Some (e, referenced) else None
  | Int _ | Float _ | Bool _ | Str _ => Some (e, referenced)
  | Bin op l r => two (Bin op) l r
  | Cmp op l r => two (Cmp op) l r
  | And l r => two And l r
  | Or l r => two Or l r
  | Not x => p ← recvify saved locals x referenced; let '(x, refs) := p : _ in Some (Not x, refs)
  | _ => None
  end.

(** ** The split *)

Record genState := mkGenState {
  gsScope : scope;
  gsLocals : gset string;
  gsRefs : gset string;
  gsPre : list Stmt;
  gsSegs : list Segment;
  gsInds : list GenField;
  gsElem : option Repr
}.

(** The element type is the first yield's. *)
Definition setElem (r : Repr) (el : option Repr) : option Repr :=
  match el with
  | None => Some r
  | Some e => if bool_decide (RScalar e = RScalar r) then el else None
  end.

(** A def without resolvers. *)
Definition genCtx (fn : Ast.FuncDef) : lowerCtx :=
  mkLowerCtx (loadedNames (Ast.fnBody fn)) false (fun _ => None) (fun _ => None) (fun _ => None) (fun _ => None).

Definition lowerAlone (c : lowerCtx) (sc : scope) (e : Ast.Expr) : option (Expr * Repr) := fst <$> lowerExpr c sc e [].

(** A segment added, its element type pinned. *)
Definition addSeg (st : genState) (refs : gset string) (r : Repr) (seg : Segment) (inds : list GenField)
    (locals : gset string) : option genState :=
  el ← setElem r (gsElem st);
  Some (mkGenState (gsScope st) locals refs [] (gsSegs st ++ [seg]) (gsInds st ++ inds) (Some el)).

Section Split.
Context (c : lowerCtx) (isParam : gset string).

Definition loopSegment (target iter : Ast.Expr) (body els : list Ast.Stmt) (st : genState) : option genState :=
  match gsPre st, els, target, iter with
  | [], [], Ast.Name x, Ast.Call (Ast.Name f) [a] =>
      if bool_decide (x ∈ isParam) || bool_decide (x ∈ map gName (gsInds st)) ||
         bool_decide (is_Some (gsScope st !! x)) then None
      else if negb (String.eqb f "range") || negb (argStar a =? 0) || negb (String.eqb (argName a) "") then None
      else
        p ← lowerAlone c (gsScope st) (argValue a); let '(bound, br) := p : _ in
        if negb (isScalar SInt br) then None
        else
          p ← recvify isParam (gsLocals st) bound (gsRefs st); let '(bound, refs) := p : _ in
          y ← singleYield body;
          p ← lowerAlone c (<[x := intRepr]> (gsScope st)) y; let '(v, r) := p : _ in
          p ← recvify ({[x]} ∪ isParam) ∅ v refs; let '(v, refs) := p : _ in
          addSeg st refs r (mkSegment [] v (Some (mkLoopYield x bound)) None) [mkGenField x intRepr] (gsLocals st)
  | _, _, _, _ => None
  end.

Definition guardSegment (cond : Ast.Expr) (body els : list Ast.Stmt) (st : genState) : option genState :=
  match gsPre st, els with
  | [], [] =>
      if yieldIn cond then None
      else
        p ← lowerAlone c (gsScope st) cond; let '(g, gr) := p : _ in
        if negb (isScalar SBool gr) then None
        else
          p ← recvify isParam (gsLocals st) g (gsRefs st); let '(g, refs) := p : _ in
          y ← singleYield body;
          p ← lowerAlone c (gsScope st) y; let '(v, r) := p : _ in
          p ← recvify isParam (gsLocals st) v refs; let '(v, refs) := p : _ in
          addSeg st refs r (mkSegment [] v None (Some g)) [] (gsLocals st)
  | _, _ => None
  end.

Definition genStmt (s : Ast.Stmt) (st : genState) : option genState :=
  match s with
  | Ast.ExprStmt (Ast.Yield (Some e) false) =>
      p ← lowerAlone c (gsScope st) e; let '(v, r) := p : _ in
      p ← recvify isParam (gsLocals st) v (gsRefs st); let '(v, refs) := p : _ in
      addSeg st refs r (mkSegment (gsPre st) v None None) [] ∅
  | Ast.For t i b e _ => loopSegment t i b e st
  | Ast.If cond b e => guardSegment cond b e st
  | Ast.Assign [Ast.Name x] value =>
      if bool_decide (x ∈ isParam) || yieldIn value then None
      else
        p ← lowerAlone c (gsScope st) value; let '(v, r) := p : _ in
        p ← recvify isParam (gsLocals st) v (gsRefs st); let '(v, refs) := p : _ in
        Some (mkGenState (<[x := r]> (gsScope st)) ({[x]} ∪ gsLocals st) refs (gsPre st ++ [Define x v])
          (gsSegs st) (gsInds st) (gsElem st))
  | _ => None
  end.

Fixpoint genBody (l : list Ast.Stmt) (st : genState) : option genState :=
  match l with [] => Some st | s :: l => st ← genStmt s st; genBody l st end.
End Split.

(** A plain annotated scalar parameter. *)
Definition genParam (p : Ast.Param) : option Param := mkParam (Ast.paramName p) <$> plainParam p.

Definition genStart (ps : list Param) : genState := mkGenState (paramScope ps) ∅ ∅ [] [] [] None.

Definition LowerGenerator (fn : Ast.FuncDef) : option Generator :=
  if Ast.fnAsync fn || nonempty (Ast.fnDecorators fn) || negb (containsYield (Ast.fnBody fn)) then None
  else
    ps ← mapM genParam (Ast.fnParams fn);
    st ← genBody (genCtx fn) (list_to_set (map pName ps)) (Ast.fnBody fn) (genStart ps);
    match gsSegs st, gsPre st, gsElem st with
    | _ :: _, [], Some el =>
        let saved := filter (fun p => bool_decide (pName p ∈ gsRefs st)) ps in
        Some (mkGenerator (Ast.fnName fn) el (map (fun p => mkGenField (pName p) (pRepr p)) saved ++ gsInds st)
          (gsSegs st) [] false)
    | _, _, _ => None
    end.

(** ** Drive sites *)

Definition GeneratorSignatureOf (gen : Generator) (fn : Ast.FuncDef) (goName : string) : option StaticGenerator :=
  if bool_decide (RScalar (GElem gen) = NotScalar) then None
  else
    let saved := map gName (GFields gen) in
    ps ← mapM (fun p => (fun r => mkGenParam (Ast.paramName p) r (bool_decide (Ast.paramName p ∈ saved))) <$>
      plainParam p) (Ast.fnParams fn);
    match GeneratorGuarded gen with
    | inl guarded => Some (mkGenSig goName ps (GElem gen) guarded)
    | inr _ => None
    end.

(** [GeneratorResolverFor]: the last drivable def of a name. *)
Fixpoint genSigs (goName : string -> string) (fns : list Ast.FuncDef) (m : gmap string StaticGenerator) :
    gmap string StaticGenerator :=
  match fns with
  | [] => m
  | fn :: fns =>
      let name := goName (Ast.fnName fn) in
      genSigs goName fns
        (if negb (IsGenerator fn) || String.eqb name "" then m
         else match (gen ← LowerGenerator fn; GeneratorSignatureOf gen fn name) with
              | Some sig => <[Ast.fnName fn := sig]> m
              | None => m
              end)
  end.

Definition GeneratorResolverFor (fns : list Ast.FuncDef) (goName : string -> string) (x : string) :
    option StaticGenerator := genSigs goName fns ∅ !! x.
