(* ===== verification/GenTrace.v ===== *)
(** * GenTrace: the segments of a generator yield what its def yields

    The reference meaning of a generator def is the sequence of values its body
    yields and how it ends; the meaning of a lowered generator is the sequence of
    its segments' values, a loop segment reading its bound before every turn the
    way the emitted machine does.  [LowerGenerator_yields] shows they are equal. *)

From S2P Require Import Prelude Ast Int64 StaticOps GoSem Emit IrCost PySem EmitTyping EmitKinds EmitKindStmts EmitCheck Gen Bridge PyAst BridgeExpr GenBridge.
Local Open Scope Z_scope.

(** ** How a generator ends *)

Inductive gend := GEnd | GRaise (e : pyexc) | GOpen.

(** Values yielded, then the end; or, on the way, the state to go on with. *)
Definition trace (A : Type) : Type := option (list value * (A + gend)).

Definition tret {A} (a : A) : trace A := Some ([], inl a).
Definition tbind {A B} (m : trace A) (k : A -> trace B) : trace B :=
  match m with
  | Some (vs, inl a) => match k a with Some (ws, r) => Some (vs ++ ws, r) | None => None end
  | Some (vs, inr e) => Some (vs, inr e)
  | None => None
  end.

(** The value of an expression, or its exception as the end. *)
Definition tval (o : option pout) : trace value :=
  match o with
  | Some (PRet v) => Some ([], inl v)
  | Some (PRaise e) => Some ([], inr (GRaise e))
  | Some PUnspec => Some ([], inr GOpen)
  | None => None
  end.

Definition tyield (v : value) : trace unit := Some ([v], inl tt).

(** ** The def *)

Section Traces.
Context (callee : string -> list value -> value + pyexc).

(** [for x in range(stop)], from [i], with one turn of fuel per element. *)
Fixpoint gCount (k : nat) (x : string) (body : gmap string value -> trace (gmap string value)) (i stop : Z)
    (sg : gmap string value) : trace (gmap string value) :=
  if i <? stop then
    match k with O => None | S k => tbind (body (<[x := VInt i]> sg)) (gCount k x body (i + 1) stop) end
  else tret sg.

(** The statements of the generator fragment; the yields of other statements
    have no meaning here. *)
Fixpoint gExec (n : nat) (s : Ast.Stmt) (sg : gmap string value) {struct s} : trace (gmap string value) :=
  let gExecs := fix gExecs (l : list Ast.Stmt) (sg : gmap string value) : trace (gmap string value) :=
    match l with [] => tret sg | s :: l => tbind (gExec n s sg) (gExecs l) end in
  match s with
  | Ast.ExprStmt (Ast.Yield (Some e) false) =>
      tbind (tval (fEval callee sg e)) (fun v => tbind (tyield v) (fun _ => tret sg))
  | Ast.Assign [Ast.Name x] e => tbind (tval (fEval callee sg e)) (fun v => tret (<[x := v]> sg))
  | Ast.If c thn els =>
      tbind (tval (fEval callee sg c)) (fun v =>
        match truth v with Some true => gExecs thn sg | Some false => gExecs els sg | None => None end)
  | Ast.For (Ast.Name x) (Ast.Call (Ast.Name "range") [a]) body [] false =>
      if positional [a] then
        tbind (tval (fEval callee sg (argValue a))) (fun v =>
          match asZ v with Some stop => gCount n x (gExecs body) 0 stop sg | None => None end)
      else None
  | _ => None
  end.

Fixpoint gExecs (n : nat) (l : list Ast.Stmt) (sg : gmap string value) : trace (gmap string value) :=
  match l with [] => tret sg | s :: l => tbind (gExec n s sg) (gExecs n l) end.

(** ** The segments *)

(** A saved field's value is the value the parameter or the counter has. *)
Fixpoint unrecv (e : Expr) : Expr :=
  match e with
  | Recv x r => Var x r
  | Bin op l r => Bin op (unrecv l) (unrecv r)
  | Cmp op l r => Cmp op (unrecv l) (unrecv r)
  | And l r => And (unrecv l) (unrecv r)
  | Or l r => Or (unrecv l) (unrecv r)
  | Not x => Not (unrecv x)
  | e => e
  end.

Definition field (sg : gmap string value) (e : Expr) : trace value := tval (pyEval callee sg (unrecv e)).

Fixpoint preRun (l : list Stmt) (sg : gmap string value) : trace (gmap string value) :=
  match l with
  | [] => tret sg
  | Define x v :: l => tbind (field sg v) (fun w => preRun l (<[x := w]> sg))
  | _ => None
  end.

(** The turns of a loop segment: the bound is read before each. *)
Fixpoint loopRun (k : nat) (x : string) (bound y : Expr) (i : Z) (sg : gmap string value) : trace unit :=
  tbind (field sg bound) (fun b =>
    match asZ b with
    | Some stop =>
        if i <? stop then
          match k with
          | O => None
          | S k =>
              tbind (field (<[x := VInt i]> sg) y) (fun v =>
                tbind (tyield v) (fun _ => loopRun k x bound y (i + 1) sg))
          end
        else tret tt
    | None => None
    end).

Definition segRun (n : nat) (seg : Segment) (sg : gmap string value) : trace unit :=
  match SLoop seg, SGuard seg with
  | Some lp, _ => loopRun n (Induction lp) (LBound lp) (SYield seg) 0 sg
  | None, Some g =>
      tbind (field sg g) (fun v =>
        match truth v with
        | Some true => tbind (field sg (SYield seg)) tyield
        | Some false => tret tt
        | None => None
        end)
  | None, None => tbind (preRun (SPre seg) sg) (fun sg => tbind (field sg (SYield seg)) tyield)
  end.

Fixpoint segsRun (n : nat) (segs : list Segment) (sg : gmap string value) : trace unit :=
  match segs with [] => tret tt | s :: segs => tbind (segRun n s sg) (fun _ => segsRun n segs sg) end.
End Traces.

(** ** Typed splits *)

(** The lowered expression passes the type checker in its scope. *)
Definition typedAlone (c : lowerCtx) (sc : scope) (e : Ast.Expr) : bool :=
  match lowerAlone c sc e with
  | Some (x, _) => bool_decide (is_Some (typeOf (fun _ => None) sc x))
  | None => false
  end.

Definition typedStmt (c : lowerCtx) (s : Ast.Stmt) (sc : scope) : bool :=
  match s with
  | Ast.ExprStmt (Ast.Yield (Some e) false) | Ast.Assign [Ast.Name _] e => typedAlone c sc e
  | Ast.For (Ast.Name x) (Ast.Call _ [a]) body _ _ =>
      typedAlone c sc (argValue a) &&
      match singleYield body with Some y => typedAlone c (<[x := intRepr]> sc) y | None => false end
  | Ast.If g body _ =>
      typedAlone c sc g && match singleYield body with Some y => typedAlone c sc y | None => false end
  | _ => false
  end.

Fixpoint typedBody (c : lowerCtx) (ps : gset string) (l : list Ast.Stmt) (st : genState) : bool :=
  match l with
  | [] => true
  | s :: l => typedStmt c s (gsScope st) && match genStmt c ps s st with Some st => typedBody c ps l st | None => true end
  end.

Definition typedGenerator (fn : Ast.FuncDef) : bool :=
  match mapM genParam (Ast.fnParams fn) with
  | Some ps => typedBody (genCtx fn) (list_to_set (map pName ps)) (Ast.fnBody fn) (genStart ps)
  | None => false
  end.

(** ** Expressions *)

Section Simulation.
Context (callee : string -> list value -> value + pyexc) (fn : Ast.FuncDef) (ps : gset string).
Let c : lowerCtx := genCtx fn.
Let noSigs : string -> option (list Repr * Repr) := fun _ => None.

Instance noSigs_kind : KindProgram callee noSigs.
Proof. by intros f qs r vs v. Qed.

(** A saved or local variable reads the same through the fields. *)
Lemma recvify_eval saved locals sg fsg x refs x' refs' :
  recvify saved locals x refs = Some (x', refs') -> (forall y, y ∈ saved ∪ locals -> sg !! y = fsg !! y) ->
  pyEval callee sg (unrecv x') = pyEval callee fsg x.
Proof.
  intros E Hy. revert refs x' refs' E.
  assert (forall mk l r refs x' refs', (forall refs x' refs', recvify saved locals l refs = Some (x', refs') ->
      pyEval callee sg (unrecv x') = pyEval callee fsg l) ->
    (forall refs x' refs', recvify saved locals r refs = Some (x', refs') ->
      pyEval callee sg (unrecv x') = pyEval callee fsg r) ->
    (p ← recvify saved locals l refs; let '(l, refs) := p : _ in
     q ← recvify saved locals r refs; let '(r, refs) := q : _ in Some (mk l r : Expr, refs)) = Some (x', refs') ->
    exists l' r', x' = mk l' r' /\ pyEval callee sg (unrecv l') = pyEval callee fsg l /\
      pyEval callee sg (unrecv r') = pyEval callee fsg r) as H2.
  { intros mk l r refs x' refs' Hl Hr E. apply bind_Some in E as ([l' r1] & E1 & E).
    apply bind_Some in E as ([r' r2] & E2 & E). simplify_eq. exists l', r'. eauto. }
  induction x as [x r| | | | |op l IHl r IHr| | | | | |op l IHl r IHr|l IHl r IHr|l IHl r IHr|x IHx| ];
    intros refs x' refs' E; cbn [recvify] in E; try done;
    try (destruct (H2 _ _ _ _ _ _ IHl IHr E) as (l' & r' & -> & El & Er); cbn [unrecv pyEval]; by rewrite El, Er);
    try by simplify_eq.
  - case_bool_decide; [|case_bool_decide; [|done]]; simplify_eq; simpl; rewrite Hy; set_solver.
  - apply bind_Some in E as ([x1 r1] & E1 & E). simplify_eq. simpl. by rewrite (IHx _ _ _ E1).
Qed.

(** An expression of the def and its lowered form have the same value. *)
Lemma lowered_value sc e x r fsg :
  lowerAlone c sc e = Some (x, r) -> typedAlone c sc e = true -> kindEnv sc fsg ->
  pyEval callee fsg x = fEval callee fsg e /\
  (forall v, fEval callee fsg e = Some (PRet v) -> hasKind r v = true).
Proof.
  intros E Ht Hk. unfold typedAlone in Ht. rewrite E in Ht. apply bool_decide_eq_true in Ht as [q Ht].
  unfold lowerAlone in E. apply fmap_Some in E as ([p g'] & E & Ep). simpl in Ep. subst p.
  assert (localOnly c) as Hloc by done. apply typeOf_sound in Ht.
  assert (pyEval callee fsg x = fEval callee fsg e) as Ev.
  { by eapply (means_all callee callee noSigs c Hloc) with (G := sc); [| |exact E|exists q|]. }
  split; [done|]. intros v Hv. rewrite <- (lower_repr noSigs sc c sc e Hloc _ _ _ _ _ E Ht).
  pose proof (ety_kind callee noSigs sc x q fsg Ht Hk) as Hq. rewrite Ev, Hv in Hq. done.
Qed.

Lemma expr_trace sc e x r fsg sg saved locals refs x' refs' :
  lowerAlone c sc e = Some (x, r) -> typedAlone c sc e = true -> kindEnv sc fsg ->
  recvify saved locals x refs = Some (x', refs') -> (forall y, y ∈ saved ∪ locals -> sg !! y = fsg !! y) ->
  field callee sg x' = tval (fEval callee fsg e).
Proof.
  intros E Ht Hk Hr Hy. unfold field. rewrite (recvify_eval _ _ _ _ _ _ _ _ Hr Hy).
  by rewrite (proj1 (lowered_value _ _ _ _ _ E Ht Hk)).
Qed.

(** ** The pending locals *)

Lemma tbind_assoc {A B C} (m : trace A) (f : A -> trace B) (g : B -> trace C) :
  tbind (tbind m f) g = tbind m (fun a => tbind (f a) g).
Proof.
  destruct m as [[vs [a|e]]|]; try done. simpl. destruct (f a) as [[ws [b|e]]|]; try done. simpl.
  destruct (g b) as [[us r]|]; [|done]. by rewrite app_assoc.
Qed.

Lemma tbind_ret {A B} (a : A) (k : A -> trace B) : tbind (tret a) k = k a.
Proof. simpl. by destruct (k a) as [[]|]. Qed.

Lemma preRun_app l m sg : preRun callee (l ++ m) sg = tbind (preRun callee l sg) (preRun callee m).
Proof.
  revert sg. induction l as [|s l IH]; intros sg; [symmetry; apply tbind_ret|].
  destruct s; try done. simpl. rewrite tbind_assoc.
  destruct (field callee sg Value) as [[vs [v|e]]|]; try done. simpl. by rewrite IH.
Qed.

(** Segments are only added. *)
Lemma addSeg_grow st rf r seg inds locals st' : addSeg st rf r seg inds locals = Some st' ->
  gsSegs st' = gsSegs st ++ [seg] /\ gsScope st' = gsScope st /\ gsPre st' = [] /\ gsLocals st' = locals.
Proof. unfold addSeg. intros (el & _ & E)%bind_Some. by simplify_eq. Qed.

Ltac opened E :=
  repeat match type of E with
  | (_ ≫= _) = Some _ => let p := fresh "p" in let H := fresh "L" in apply bind_Some in E as (p & H & E); try destruct p as [? ?]
  | (if ?b then None else _) = Some _ => let C := fresh "C" in destruct b eqn:C; [done|]
  end.

Lemma genStmt_grow s st st' : genStmt c ps s st = Some st' -> exists rest, gsSegs st' = gsSegs st ++ rest.
Proof.
  intros E. destruct s as [x|ts v| | |g b e| |t i b e a| | | | | ]; try done; cbn [genStmt] in E.
  - destruct x; try done. destruct value as [e|]; [|done]. destruct from; [done|]. opened E.
    apply addSeg_grow in E as [-> _]. eauto.
  - destruct ts as [|[] [|]]; try done. opened E. simplify_eq. exists []. by rewrite app_nil_r.
  - unfold guardSegment in E. destruct (gsPre st), e; try done. opened E. apply addSeg_grow in E as [-> _]. eauto.
  - unfold loopSegment in E. destruct (gsPre st), e, t, i; try done. destruct i, args as [|? [|]]; try done.
    opened E. apply addSeg_grow in E as [-> _]. eauto.
Qed.

Lemma segs_grow l : forall st st', genBody c ps l st = Some st' -> exists rest, gsSegs st' = gsSegs st ++ rest.
Proof.
  induction l as [|s l IH]; intros st st' E; cbn [genBody] in E; [simplify_eq; exists []; by rewrite app_nil_r|].
  apply bind_Some in E as (st1 & E1 & E). destruct (genStmt_grow _ _ _ E1) as [r1 H1].
  destruct (IH _ _ E) as [r2 H2]. exists (r1 ++ r2). rewrite H2, H1. by rewrite app_assoc.
Qed.

(** A split that ends with nothing pending puts its pending locals in front of
    the next yield. *)
Lemma pending_flushed l : forall st st', genBody c ps l st = Some st' -> gsPre st <> [] -> gsPre st' = [] ->
  exists seg q rest, gsSegs st' = gsSegs st ++ seg :: rest /\ SPre seg = gsPre st ++ q /\
    SLoop seg = None /\ SGuard seg = None.
Proof.
  induction l as [|s l IH]; intros st st' E Hp Hp'; cbn [genBody] in E; [by simplify_eq|].
  apply bind_Some in E as (st1 & E1 & E).
  destruct s as [x|ts v| | |g b e| |t i b e a| | | | | ]; try done; cbn [genStmt] in E1.
  - destruct x; try done. destruct value as [e|]; [|done]. destruct from; [done|].
    apply bind_Some in E1 as ([v r] & _ & E1). apply bind_Some in E1 as ([v' rf] & _ & E1).
    unfold addSeg in E1. apply bind_Some in E1 as (el & _ & E1). simplify_eq.
    assert (exists rest, gsSegs st' = gsSegs st ++ mkSegment (gsPre st) v' None None :: rest) as [rest ->].
    { clear -E. destruct (segs_grow l _ _ E) as [rest ->]. simpl. exists rest. by rewrite <- app_assoc. }
    exists (mkSegment (gsPre st) v' None None), [], rest. by rewrite app_nil_r.
  - destruct ts as [|[] [|]]; try done. destruct (_ || _); [done|].
    apply bind_Some in E1 as ([w r] & _ & E1). apply bind_Some in E1 as ([v' rf] & _ & E1). simplify_eq.
    destruct (IH _ _ E) as (seg & q & rest & Es & Ep & El & Eg); [by destruct (gsPre st)|done|].
    exists seg, (Define id v' :: q), rest. split_and!; [done| |done|done]. rewrite Ep. simpl. by rewrite <- app_assoc.
  - unfold guardSegment in E1. by destruct (gsPre st).
  - unfold loopSegment in E1. by destruct (gsPre st).
Qed.

(** ** The split follows the body *)

(** [base]: the values of the parameters; [sg]: those and the pending locals'. *)
Record split (st : genState) (base sg fsg : gmap string value) : Prop := {
  sp_pre : preRun callee (gsPre st) base = tret sg;
  sp_base y : y ∈ ps -> base !! y = fsg !! y;
  sp_live y : y ∈ ps ∪ gsLocals st -> sg !! y = fsg !! y;
  sp_kinds : kindEnv (gsScope st) fsg;
  sp_locals y : y ∈ gsLocals st -> is_Some (gsScope st !! y)
}.

Definition forget {A} (t : trace A) : trace unit := tbind t (fun _ => tret tt).

(** What is left of the body yields what the segments still to come yield. *)
Definition follow (n : nat) (l : list Ast.Stmt) : Prop := forall st st' base sg fsg t,
  genBody c ps l st = Some st' -> typedBody c ps l st = true -> gsPre st' = [] -> split st base sg fsg ->
  gExecs callee n l fsg = Some t ->
  exists segs, gsSegs st' = gsSegs st ++ segs /\ segsRun callee n segs base = forget (Some t).

(** No pending local: the parameters are all there is. *)
Lemma split_base st base sg fsg : split st base sg fsg -> gsPre st = [] -> sg = base.
Proof. intros [H _ _ _ _] E. rewrite E in H. by injection H. Qed.

(** After a segment that leaves nothing pending. *)
Lemma split_next st st' base fsg locals :
  gsScope st' = gsScope st -> gsPre st' = [] -> gsLocals st' = locals ->
  (forall y, y ∈ ps -> base !! y = fsg !! y) -> (forall y, y ∈ locals -> base !! y = fsg !! y) ->
  kindEnv (gsScope st) fsg -> (forall y, y ∈ locals -> is_Some (gsScope st !! y)) -> split st' base base fsg.
Proof.
  intros Es Ep El Hb Hl Hk Hd. split; [by rewrite Ep|done| |by rewrite Es|by rewrite Es, El]. intros y Hy. rewrite El in Hy. set_solver.
Qed.

(** One statement: its segment, if it makes one, then the rest. *)
Lemma follow_seg n l st1 st' base seg segs0 (t : list value * (gmap string value + gend)) m :
  follow n l -> genBody c ps l st1 = Some st' -> typedBody c ps l st1 = true -> gsPre st' = [] ->
  gsSegs st1 = segs0 ++ [seg] ->
  (forall ws fsg', m = Some (ws, inl fsg') -> split st1 base base fsg') ->
  segRun callee n seg base = forget m -> tbind m (gExecs callee n l) = Some t ->
  exists segs, gsSegs st' = segs0 ++ segs /\ segsRun callee n segs base = forget (Some t).
Proof.
  intros HF E Ht Hp Es Hsp Hseg Hrun. destruct m as [[ws [fsg'|e]]|]; [| |done].
  - simpl in Hrun. destruct (gExecs callee n l fsg') as [t1|] eqn:Et; [|done].
    destruct (HF st1 st' base base fsg' t1 E Ht Hp (Hsp _ _ eq_refl) Et) as (segs & Eq & Er).
    exists (seg :: segs). split; [by rewrite Eq, Es, <- app_assoc|]. cbn [segsRun]. rewrite Hseg, Er.
    destruct t1 as [us r]. simpl in Hrun. simplify_eq. destruct r as [f|e]; simpl; by rewrite ?app_nil_r.
  - simpl in Hrun. simplify_eq. destruct (segs_grow l _ _ E) as [rest Eq].
    exists (seg :: rest). split; [by rewrite Eq, Es, <- app_assoc|]. cbn [segsRun]. rewrite Hseg. done.
Qed.

(** A pending local that raises ends the next segment. *)
Lemma pending_ends n l st st' base e :
  genBody c ps l st = Some st' -> gsPre st <> [] -> gsPre st' = [] -> preRun callee (gsPre st) base = Some ([], inr e) ->
  exists segs, gsSegs st' = gsSegs st ++ segs /\ segsRun callee n segs base = Some ([], inr e).
Proof.
  intros E Hp Hp' He. destruct (pending_flushed l _ _ E Hp Hp') as (seg & q & rest & Eq & Es & El & Eg).
  exists (seg :: rest). split; [done|]. cbn [segsRun]. unfold segRun. by rewrite El, Eg, Es, preRun_app, He.
Qed.

(** A pending local, and where it raises. *)
Lemma follow_assign n x e l : follow n l -> follow n (Ast.Assign [Ast.Name x] e :: l).
Proof.
  intros HF st st' base sg fsg t E Ht Hp Hs Hrun. pose proof Hs as [Hpre Hb Hl Hk Hd]. cbn [genBody genStmt] in E.
  apply bind_Some in E as (st1 & E1 & E). simpl in Ht. apply andb_true_iff in Ht as [Ht1 Ht].
  pose proof E1 as E1'. opened E1. simplify_eq. rewrite E1' in Ht. apply orb_false_iff in C as [Cx _].
  apply bool_decide_eq_false in Cx.
  pose proof (expr_trace _ _ _ _ _ _ _ _ _ _ _ L Ht1 Hk L0 Hl) as Ev.
  assert (preRun callee (gsPre st ++ [Define x e1]) base = tbind (field callee sg e1) (fun w => tret (<[x := w]> sg))) as Hp1.
  { rewrite preRun_app, Hpre. rewrite tbind_ret. simpl. done. }
  cbn [gExecs gExec] in Hrun. rewrite Ev in Hp1. destruct (fEval callee fsg e) as [[v|x0|]|] eqn:Ee; cbn [tval] in *.
  - destruct (HF _ st' base (<[x := v]> sg) (<[x := v]> fsg) t E Ht Hp) as (segs & Eq & Er); [| |by exists segs].
    + split; simpl.
      * by rewrite Hp1.
      * intros y Hy. rewrite lookup_insert_ne by (intros ->; done). auto.
      * intros y Hy. destruct (decide (y = x)) as [->|Hn]; [by rewrite !lookup_insert_eq|].
        rewrite !lookup_insert_ne by done. apply Hl. set_solver.
      * intros y q Hq. simpl in Hq. destruct (decide (y = x)) as [->|Hn].
        -- rewrite lookup_insert_eq in Hq. rewrite lookup_insert_eq. simplify_eq. exists v. split; [done|].
           by eapply (lowered_value _ _ _ _ _ L Ht1 Hk).
        -- rewrite lookup_insert_ne in Hq by done. rewrite lookup_insert_ne by done. by apply Hk.
      * intros y Hy. destruct (decide (y = x)) as [->|Hn]; [rewrite lookup_insert_eq; eauto|].
        rewrite lookup_insert_ne by done. apply Hd. set_solver.
    + simpl in Hrun. by destruct (gExecs callee n l (<[x := v]> fsg)) as [[]|].
  - simpl in Hrun. simplify_eq. apply (pending_ends n l _ _ _ _ E); [by destruct (gsPre st)|done|exact Hp1].
  - simpl in Hrun. simplify_eq. apply (pending_ends n l _ _ _ _ E); [by destruct (gsPre st)|done|exact Hp1].
  - done.
Qed.

Lemma follow_yield n e l : follow n l -> follow n (Ast.ExprStmt (Ast.Yield (Some e) false) :: l).
Proof.
  intros HF st st' base sg fsg t E Ht Hp Hs Hrun. pose proof Hs as [Hpre Hb Hl Hk Hd]. cbn [genBody genStmt] in E.
  apply bind_Some in E as (st1 & E1 & E). simpl in Ht. apply andb_true_iff in Ht as [Ht1 Ht].
  pose proof E1 as E1'. opened E1. rewrite E1' in Ht. apply addSeg_grow in E1 as (Es & Esc & Ep & Eloc).
  pose proof (expr_trace _ _ _ _ _ _ _ _ _ _ _ L Ht1 Hk L0 Hl) as Ev.
  cbn [gExecs gExec] in Hrun. eapply follow_seg; [done|exact E|done|done|exact Es| | |exact Hrun].
  - intros ws fsg' Em. assert (fsg' = fsg) as -> by (destruct (fEval callee fsg e) as [[]|]; simpl in Em; by simplify_eq).
    by eapply split_next.
  - unfold segRun. cbn [SLoop SGuard SPre SYield]. rewrite Hpre, tbind_ret, Ev.
    by destruct (fEval callee fsg e) as [[]|].
Qed.

Lemma singleYield_inv body y : singleYield body = Some y -> body = [Ast.ExprStmt (Ast.Yield (Some y) false)].
Proof.
  destruct body as [|s [|]]; try done; destruct s; try done; destruct x; try done; destruct value as [v|]; try done;
    destruct from; try done. simpl. by intros [= ->].
Qed.

Lemma follow_if n g b e l : follow n l -> follow n (Ast.If g b e :: l).
Proof.
  intros HF st st' base sg fsg t E Ht Hp Hs Hrun. pose proof Hs as [Hpre Hb Hl Hk Hd]. cbn [genBody genStmt] in E.
  apply bind_Some in E as (st1 & E1 & E). cbn [typedBody genStmt typedStmt] in Ht.
  apply andb_true_iff in Ht as [[Htg Hty]%andb_true_iff Ht]. rewrite E1 in Ht. unfold guardSegment in E1.
  destruct (gsPre st) eqn:Ep0, e; try done. pose proof (split_base _ _ _ _ Hs Ep0) as ->. opened E1.
  rewrite L1 in Hty. apply singleYield_inv in L1 as ->. apply addSeg_grow in E1 as (Es & Esc & Ep & Eloc).
  pose proof (expr_trace _ _ _ _ _ _ _ _ _ _ _ L Htg Hk L0 Hl) as Eg.
  pose proof (expr_trace _ _ _ _ _ _ _ _ _ _ _ L2 Hty Hk L3 Hl) as Ev.
  cbn [gExecs gExec] in Hrun. eapply follow_seg; [done|exact E|done|done|exact Es| | |exact Hrun].
  - intros ws fsg' Em. assert (fsg' = fsg) as ->.
    { destruct (fEval callee fsg g) as [[v| |]|]; try done. cbn [tval] in Em. simpl in Em. destruct (truth v) as [[]|]; try done;
        [|simpl in Em; by simplify_eq]. destruct (fEval callee fsg p) as [[]|]; simpl in Em; by simplify_eq. }
    eapply split_next; try done. intros y Hy. apply Hl. set_solver.
  - unfold segRun. cbn [SLoop SGuard SPre SYield]. rewrite Eg, Ev.
    destruct (fEval callee fsg g) as [[v| |]|]; try done. cbn [tval]. simpl. destruct (truth v) as [[]|]; try done.
    by destruct (fEval callee fsg p) as [[]|].
Qed.

(** The turns of a loop, [fsg'] differing from [fsg] in the counter at most. *)
Lemma loop_turns x bound bv y yv stop base fsg k : forall i fsg',
  x ∉ ps -> (forall z, z <> x -> fsg' !! z = fsg !! z) ->
  field callee base bound = tval (fEval callee fsg bv) -> fEval callee fsg bv = Some (PRet (VInt stop)) ->
  (forall i fsg', (forall z, z <> x -> fsg' !! z = fsg !! z) ->
    field callee (<[x := VInt i]> base) y = tval (fEval callee (<[x := VInt i]> fsg') yv)) ->
  let m := gCount k x (fun sg => tbind (tbind (tval (fEval callee sg yv)) (fun v => tbind (tyield v) (fun _ => tret sg))) tret)
    i stop fsg' in
  loopRun callee k x bound y i base = forget m /\
  forall ws fsg'', m = Some (ws, inl fsg'') -> forall z, z <> x -> fsg'' !! z = fsg !! z.
Proof.
  induction k as [|k IH]; intros i fsg' Hx Hz Hb Eb Hy; cbn [gCount loopRun]; rewrite Hb, Eb; cbn [tval];
    rewrite (tbind_ret (VInt stop)); cbn [asZ]; (destruct (i <? stop); [|split; [done|]; intros ws fsg'' [= <- <-]; done]);
    [done|].
  - rewrite (Hy i fsg' Hz). destruct (fEval callee (<[x := VInt i]> fsg') yv) as [[v| |]|] eqn:Ev; try done.
    destruct (IH (i + 1) (<[x := VInt i]> fsg')) as [H1 H2]; [done| |done|done|done|].
    { intros z Hn. rewrite lookup_insert_ne by done. auto. }
    cbn [tval] in *. rewrite !(tbind_ret v). simpl. rewrite H1.
    destruct (gCount k x _ (i + 1) stop (<[x:=VInt i]> fsg')) as [[ws [f|e]]|]; try done; simpl.
    split; [done|]. intros ws' fsg'' [= _ <-]. by eapply H2.
Qed.

Lemma follow_for n x a f body l : follow n l ->
  follow n (Ast.For (Ast.Name x) (Ast.Call (Ast.Name f) [a]) body [] false :: l).
Proof.
  intros HF st st' base sg fsg t E Ht Hp Hs Hrun. pose proof Hs as [Hpre Hb Hl Hk Hd]. cbn [genBody genStmt] in E.
  apply bind_Some in E as (st1 & E1 & E). cbn [typedBody genStmt typedStmt] in Ht.
  apply andb_true_iff in Ht as [[Htb Hty]%andb_true_iff Ht]. rewrite E1 in Ht. unfold loopSegment in E1.
  destruct (gsPre st) eqn:Ep0; [|done]. pose proof (split_base _ _ _ _ Hs Ep0) as ->. opened E1.
  rewrite L1 in Hty. apply singleYield_inv in L1 as ->. apply addSeg_grow in E1 as (Es & Esc & Ep & Eloc).
  apply orb_false_iff in C as [[Cx _]%orb_false_iff Cs]. apply bool_decide_eq_false in Cx, Cs.
  apply orb_false_iff in C0 as [[Cf _]%orb_false_iff _]. apply negb_false_iff, String.eqb_eq in Cf as ->.
  pose proof (expr_trace _ _ _ _ _ _ _ _ _ _ _ L Htb Hk L0 Hl) as Eb.
  pose proof (proj2 (lowered_value _ _ _ _ _ L Htb Hk)) as Kb.
  assert (forall i fsg', (forall z, z <> x -> fsg' !! z = fsg !! z) ->
    field callee (<[x := VInt i]> base) e2 = tval (fEval callee (<[x := VInt i]> fsg') p)) as Hy.
  { intros i fsg' Hz. eapply expr_trace; [exact L2|exact Hty| |exact L3|].
    - intros z q Hq. destruct (decide (z = x)) as [->|Hn].
      + rewrite lookup_insert_eq in Hq. rewrite lookup_insert_eq. simplify_eq. by exists (VInt i).
      + rewrite lookup_insert_ne in Hq by done. rewrite lookup_insert_ne, Hz by done. by apply Hk.
    - intros z Hin. destruct (decide (z = x)) as [->|Hn]; [by rewrite !lookup_insert_eq|].
      rewrite !lookup_insert_ne, Hz by done. apply Hb. set_solver. }
  cbn [gExecs gExec] in Hrun. destruct (positional [a]); [|done].
  destruct (fEval callee fsg (argValue a)) as [o|] eqn:Ea; [|done].
  assert (forall v, o = PRet v -> exists z, v = VInt z) as Hint.
  { intros v ->. specialize (Kb v eq_refl). apply negb_false_iff in C1. unfold isScalar in C1. apply bool_decide_eq_true in C1.
    rewrite (hasKind_scalar r v SInt) in Kb by done. destruct v; try done. eauto. }
  destruct o as [v|ex|].
  - destruct (Hint v eq_refl) as [stop ->].
    destruct (loop_turns x e0 (argValue a) e2 p stop base fsg n 0 fsg) as [H1 H2]; [done|done|by rewrite Eb, Ea|done|done|].
    cbv zeta in H1, H2. unfold tval at 1 in Hrun. rewrite (tbind_ret (VInt stop)) in Hrun. cbn [asZ] in Hrun.
    eapply follow_seg; [done|exact E|done|done|exact Es| | |exact Hrun]; [|exact H1].
    intros ws fsg'' Em. specialize (H2 _ _ Em). apply (split_next st _ _ _ (gsLocals st)); try done.
    + intros y Hin. rewrite H2 by (intros ->; done). auto.
    + intros y Hin. rewrite H2; [apply Hl; set_solver|]. intros ->. by apply Cs, Hd.
    + intros y q Hq. rewrite H2; [by apply Hk|]. intros ->. by destruct Cs.
  - eapply follow_seg; [done|exact E|done|done|exact Es| | |exact Hrun]; [done|].
    unfold segRun. cbn [SLoop SYield Induction LBound]. destruct n; cbn [loopRun]; by rewrite Eb.
  - eapply follow_seg; [done|exact E|done|done|exact Es| | |exact Hrun]; [done|].
    unfold segRun. cbn [SLoop SYield Induction LBound]. destruct n; cbn [loopRun]; by rewrite Eb.
Qed.
End Simulation.

Section Generators.
Context (callee : string -> list value -> value + pyexc) (fn : Ast.FuncDef) (ps : gset string) (n : nat).

Lemma follow_all l : follow callee fn ps n l.
Proof.
  induction l as [|s l IH].
  { intros st st' base sg fsg t E _ _ _ Hrun. simpl in E, Hrun. simplify_eq.
    injection Hrun as <-. exists []. by rewrite app_nil_r. }
  intros st st' base sg fsg t E Ht Hp Hs Hrun. pose proof E as E0. cbn [genBody] in E. apply bind_Some in E as (st1 & E1 & E).
  destruct s as [x|ts v| | |g b e| |tg i b e a| | | | | ]; try done; cbn [genStmt] in E1.
  - destruct x; try done. destruct value as [e|]; [|done]. destruct from; [done|]. eapply follow_yield; [exact IH|exact E0|done..].
  - destruct ts as [|[] [|]]; try done. eapply follow_assign; [exact IH|exact E0|done..].
  - eapply follow_if; [exact IH|exact E0|done..].
  - unfold loopSegment in E1. destruct (gsPre st); [|done]. destruct e, tg, i; try done. destruct i, args as [|? [|]]; try done.
    destruct a; [|eapply follow_for; [exact IH|exact E0|done..]]. cbn [gExecs gExec] in Hrun. by repeat case_match.
Qed.
End Generators.

Lemma paramScope_insert ps : paramScope ps = insertAll (map pName ps) (map pRepr ps) ∅.
Proof.
  unfold paramScope. generalize (∅ : scope). induction ps as [|p ps IH]; intros sc; [done|]. simpl. apply IH.
Qed.

Lemma genParams_names l ps : mapM genParam l = Some ps -> map pName ps = map Ast.paramName l.
Proof.
  intros H%mapM_Some. induction H as [|p q l ps Hp H IH]; [done|]. simpl. rewrite IH. f_equal.
  unfold genParam in Hp. destruct (plainParam p); by simplify_eq/=.
Qed.

(** C5: a lowered generator yields what its def yields: for every generator
    def the bridge accepts (and whose expressions type), every list of arguments
    of the parameters' types and every bound on the turns of its loops, if the
    body yields a sequence of values and then ends or raises, then its segments
    yield the same values in the same order and end or raise the same way,
    although locals are dropped at every yield and loop bounds are read again
    before every turn. *)
Theorem LowerGenerator_yields callee fn gen ps args n t :
  LowerGenerator fn = Some gen -> typedGenerator fn = true -> mapM genParam (Ast.fnParams fn) = Some ps ->
  Forall2 (fun p a => hasKind (pRepr p) a = true) ps args ->
  let sg := pyBind (map Ast.paramName (Ast.fnParams fn)) args ∅ in
  gExecs callee n (Ast.fnBody fn) sg = Some t ->
  segsRun callee n (Segments gen) sg = forget (Some t).
Proof.
  intros E Ht Hps Ha sg Hrun. unfold LowerGenerator in E. destruct (_ || _ || _); [done|].
  unfold typedGenerator in Ht. rewrite Hps in E, Ht. cbn [mbind option_bind] in E.
  apply bind_Some in E as (st & Eb & E). destruct (gsSegs st) as [|seg segs] eqn:Es; [done|].
  destruct (gsPre st) eqn:Ep; [|done]. destruct (gsElem st); [|done]. simplify_eq. cbn [Segments].
  destruct (follow_all callee fn _ n _ _ _ sg sg sg t Eb Ht Ep) as (segs' & Eq & Er); [|done|].
  - split; simpl; try done. rewrite paramScope_insert. unfold sg. rewrite <- (genParams_names _ _ Hps).
    apply kindEnv_binds; [done|]. by rewrite Forall2_fmap_l.
  - rewrite Es in Eq. simpl in Eq. by rewrite Eq.
Qed.

(** ** Instances *)

Definition noCalls (_ : string) (_ : list value) : value + pyexc := inr (mkExc "" "").
Definition plainArg (e : Ast.Expr) : Arg Ast.Expr := mkArg "" 0 e.
Definition yields (e : Ast.Expr) : Ast.Stmt := Ast.ExprStmt (Ast.Yield (Some e) false).
Definition overRange (x : string) (stop : Ast.Expr) (body : list Ast.Stmt) : Ast.Stmt :=
  Ast.For (Ast.Name x) (Ast.Call (Ast.Name "range") [plainArg stop]) body [] false.
Definition genDef (name : string) (body : list Ast.Stmt) : Ast.FuncDef :=
  Ast.mkFuncDef name [Ast.mkParam "n" Ast.ParamPlain (Some (Ast.Name "int")) None] None body [] false.

(** [def mixed(n: int): if n < 9: yield 5; a = 6 // n; yield a; for i in range(n): yield i * n] *)
Definition mixedDef : Ast.FuncDef :=
  genDef "mixed"
    [Ast.If (Ast.Compare (Ast.Name "n") [Ast.CmpLt] [Ast.IntLit "9"]) [yields (Ast.IntLit "5")] [];
     Ast.Assign [Ast.Name "a"] (Ast.BinOp Ast.BinFloorDiv (Ast.IntLit "6") (Ast.Name "n"));
     yields (Ast.Name "a");
     overRange "i" (Ast.Name "n") [yields (Ast.BinOp Ast.BinMul (Ast.Name "i") (Ast.Name "n"))]].

Lemma LowerGenerator_yields_witness :
  exists gen, LowerGenerator mixedDef = Some gen /\
    segsRun noCalls 9 (Segments gen) (pyBind ["n"] [VInt 3] ∅) =
      Some ([VInt 5; VInt 2; VInt 0; VInt 3; VInt 6], inl tt) /\
    segsRun noCalls 9 (Segments gen) (pyBind ["n"] [VInt 0] ∅) = Some ([VInt 5], inr (GRaise excZeroDiv)).
Proof.
  eexists. split; [vm_compute; reflexivity|]. split.
  - match goal with |- segsRun _ _ (Segments ?g) _ = _ =>
      apply (LowerGenerator_yields noCalls mixedDef g [mkParam "n" intRepr] [VInt 3] 9
        ([VInt 5; VInt 2; VInt 0; VInt 3; VInt 6], inl (<["i" := VInt 2]> (<["a" := VInt 2]> (<["n" := VInt 3]> ∅))))) end;
      [reflexivity|reflexivity|reflexivity|by repeat constructor|vm_compute; reflexivity].
  - match goal with |- segsRun _ _ (Segments ?g) _ = _ =>
      apply (LowerGenerator_yields noCalls mixedDef g [mkParam "n" intRepr] [VInt 0] 9 ([VInt 5], inr (GRaise excZeroDiv))) end;
      [reflexivity|reflexivity|reflexivity|by repeat constructor|vm_compute; reflexivity].
Defined.

(** What the machine of a def yields, driven at most [k] times. *)
Definition machineRun (fn : Ast.FuncDef) (k : nat) (fs : list (string * value)) : option (list value * bool) :=
  gen ← LowerGenerator fn;
  match EmitGenerator gen with inl (_, cases) => pull noCalls 9 k cases (mkMach 0 fs) | inr _ => None end.

(** [def twice(n: int): a = n; a = a * 2; yield a]: the second assignment
    declares the local again, which Go rejects. *)
Theorem local_declared_twice :
  let fn := genDef "twice" [Ast.Assign [Ast.Name "a"] (Ast.Name "n");
    Ast.Assign [Ast.Name "a"] (Ast.BinOp Ast.BinBitAnd (Ast.Name "a") (Ast.IntLit "2")); yields (Ast.Name "a")] in
  (map (fun seg => map (fun s => match s with Define x _ => x | _ => "" end) (SPre seg)) ∘ Segments) <$> LowerGenerator fn =
    Some [["a"; "a"]] /\
  forget (gExecs noCalls 9 (Ast.fnBody fn) {["n" := VInt 3]}) = Some ([VInt 2], inl tt) /\
  machineRun fn 5 [("n", VInt 3)] = None.
Proof. split_and!; vm_compute; reflexivity. Qed.

(** [def tail(n: int): for i in range(n): yield i; yield 99]: the bridge
    accepts the def, and the machine stops after the loop. *)
Theorem tail_def_loses_yield :
  let fn := genDef "tail" [overRange "i" (Ast.Name "n") [yields (Ast.Name "i")]; yields (Ast.IntLit "99")] in
  LowerGenerator fn = Some loopThenYield /\
  forget (gExecs noCalls 9 (Ast.fnBody fn) {["n" := VInt 3]}) = Some ([VInt 0; VInt 1; VInt 2; VInt 99], inl tt) /\
  machineRun fn 9 [("n", VInt 3); ("i", VInt 0)] = Some ([VInt 0; VInt 1; VInt 2], true).
Proof. split_and!; vm_compute; reflexivity. Qed.
