(* ===== verification/Lattice.v ===== *)
(** * Lattice: the elements of the inference lattice and their keys

    Model of src/pkg/types/lattice.go.  A [*Type] is an immutable tree; the
    fields that only one kind uses are the arguments of that kind's
    constructor of [shape], which is how the constructors of interner.go (the
    only door in) build them.  The canonical key decides hash-cons identity;
    the main result is that it identifies exactly the elements that agree on
    everything the key folds in. *)

From S2P Require Import Prelude.
Set Warnings "-register-all".

(** ** Data *)

Inductive Kind :=
  | KindNever | KindNone | KindBool | KindInt | KindFloat | KindComplex
  | KindStr | KindBytes | KindClass | KindList | KindTuple | KindDict
  | KindSet | KindCallable | KindUnion | KindProto | KindDyn.

#[export] Instance Kind_eq_dec : EqDecision Kind.
Proof. solve_decision. Defined.

(** Position in the [iota] enumeration. *)
Definition kindIndex (k : Kind) : nat :=
  match k with
  | KindNever => 0 | KindNone => 1 | KindBool => 2 | KindInt => 3
  | KindFloat => 4 | KindComplex => 5 | KindStr => 6 | KindBytes => 7
  | KindClass => 8 | KindList => 9 | KindTuple => 10 | KindDict => 11
  | KindSet => 12 | KindCallable => 13 | KindUnion => 14 | KindProto => 15
  | KindDyn => 16
  end.

(** Refinement bits, a four-bit set. *)
Definition RefineAsciiOnly : Z := 1.
Definition RefineNonNegative : Z := 2.
Definition RefineKnownLen : Z := 4.
Definition RefineExactType : Z := 8.

Record ClassRef := mkClassRef { cName : string; MRO : list string; cid : nat }.

Inductive ParamKind := ParamPosOnly | ParamPosOrKw | ParamKwOnly.

#[export] Instance ParamKind_eq_dec : EqDecision ParamKind.
Proof. solve_decision. Defined.

Record Param (T : Type) := mkParam {
  pName : string; pType : T; pKind : ParamKind; pHasDefault : bool }.
Arguments mkParam {T}. Arguments pName {T}. Arguments pType {T}.
Arguments pKind {T}. Arguments pHasDefault {T}.

Record Signature (T : Type) := mkSig {
  sParams : list (Param T); sStar : option T; sStarStar : option T;
  sReturn : T; sMayRaise : bool; sMayYield : bool }.
Arguments mkSig {T}. Arguments sParams {T}. Arguments sStar {T}.
Arguments sStarStar {T}. Arguments sReturn {T}. Arguments sMayRaise {T}.
Arguments sMayYield {T}.

(** The kinds that carry no payload. *)
Inductive atom := ANever | ANone | ABool | AInt | AFloat | AComplex | AStr | ABytes | ADyn.

#[export] Instance atom_eq_dec : EqDecision atom.
Proof. solve_decision. Defined.

(** The kind together with the payload fields of [Type] that kind uses. *)
Inductive shape (T : Type) :=
  | Atomic (a : atom)
  | ShClass (c : ClassRef)
  | ShList (elems : list T)
  | ShTuple (elems : list T) (variadic : bool)
  | ShDict (key value : T)
  | ShSet (elem : T)
  | ShCallable (sig : Signature T)
  | ShUnion (elems : list T)
  | ShProto (c : ClassRef).
Arguments Atomic {T}. Arguments ShClass {T}. Arguments ShList {T}.
Arguments ShTuple {T}. Arguments ShDict {T}. Arguments ShSet {T}.
Arguments ShCallable {T}. Arguments ShUnion {T}. Arguments ShProto {T}.

(** [Type]: shape, refinement bits and the interner-assigned id. *)
Inductive ty := mkType { shp : shape ty; refine : Z; tid : nat }.

Definition atomKind (a : atom) : Kind :=
  match a with
  | ANever => KindNever | ANone => KindNone | ABool => KindBool | AInt => KindInt
  | AFloat => KindFloat | AComplex => KindComplex | AStr => KindStr
  | ABytes => KindBytes | ADyn => KindDyn
  end.

Definition shapeKind {T} (s : shape T) : Kind :=
  match s with
  | Atomic a => atomKind a
  | ShClass _ => KindClass
  | ShList _ => KindList
  | ShTuple _ _ => KindTuple
  | ShDict _ _ => KindDict
  | ShSet _ => KindSet
  | ShCallable _ => KindCallable
  | ShUnion _ => KindUnion
  | ShProto _ => KindProto
  end.

Definition kind (t : ty) : Kind := shapeKind (shp t).

(** [Has]: every bit in [r] is set on the element. *)
Definition Has (t : ty) (r : Z) : bool := (Z.land (refine t) r =? r)%Z.

Definition IsDyn (t : ty) : bool := bool_decide (kind t = KindDyn).
Definition IsNever (t : ty) : bool := bool_decide (kind t = KindNever).

(** ** Keys *)

Definition byte_of_nat (n : nat) : ascii := ascii_of_nat n.

(** The kind's letter, ['A' + byte(kind)]. *)
Definition kindByte (k : Kind) : ascii := byte_of_nat (65 + kindIndex k).

Definition refineKey (r : Z) : string :=
  if (r =? 0)%Z then ""
  else String "#" (String (byte_of_nat (48 + Z.to_nat r)) "").

Definition paramKindByte (k : ParamKind) : ascii :=
  match k with ParamPosOnly => "0" | ParamPosOrKw => "1" | ParamKwOnly => "2" end.

(** [Signature.writeKey], over the writer of the component types. *)
Definition sigKey {T} (wk : T -> string) (s : Signature T) : string :=
  String.concat "" (map (fun p =>
    String (paramKindByte (pKind p)) ((if pHasDefault p then "=" else "") +:+
      wk (pType p) +:+ ";")) (sParams s)) +:+
  (match sStar s with Some t => "*" +:+ wk t | None => "" end) +:+
  (match sStarStar s with Some t => "**" +:+ wk t | None => "" end) +:+
  "->" +:+ wk (sReturn s) +:+
  (if sMayRaise s then "!" else "") +:+ (if sMayYield s then "~" else "").

(** [Type.writeKey] / [Type.key]. *)
Fixpoint key (t : ty) : string :=
  match t with
  | mkType sh r _ =>
    String (kindByte (shapeKind sh)) (refineKey r +:+
      match sh with
      | Atomic _ => ""
      | ShClass c | ShProto c => ":" +:+ cName c
      | ShList es => "<" +:+ String.concat "," (map key es) +:+ ">"
      | ShSet e => "<" +:+ key e +:+ ">"
      | ShDict k v => "<" +:+ key k +:+ "," +:+ key v +:+ ">"
      | ShTuple es variadic =>
          "(" +:+ String.concat "," (map key es) +:+
          (if variadic then "..." else "") +:+ ")"
      | ShUnion es => "{" +:+ String.concat "|" (map key es) +:+ "}"
      | ShCallable s => "[" +:+ sigKey key s +:+ "]"
      end)
  end.

#[global] Arguments byte_of_nat : simpl never.
#[global] Arguments kindByte : simpl never.

(** ** Traversal and induction *)

Definition optList {T} (o : option T) : list T := match o with Some t => [t] | None => [] end.

(** The types a shape refers to, in key order. *)
Definition children {T} (s : shape T) : list T :=
  match s with
  | Atomic _ | ShClass _ | ShProto _ => []
  | ShList es | ShTuple es _ | ShUnion es => es
  | ShDict k v => [k; v]
  | ShSet e => [e]
  | ShCallable s => map pType (sParams s) ++ optList (sStar s) ++ optList (sStarStar s) ++ [sReturn s]
  end.

Definition opt_Forall {T} (P : T -> Prop) (h : forall t, P t) (o : option T) : Forall P (optList o) :=
  match o with Some t => Forall_cons_2 P t [] (h t) (Forall_nil_2 P) | None => Forall_nil_2 P end.

Lemma ty_ind' (P : ty -> Prop) :
  (forall sh r i, Forall P (children sh) -> P (mkType sh r i)) -> forall t, P t.
Proof.
  intros H. fix IH 1. intros [sh r i]. apply H.
  destruct sh as [a|c|es|es v|k v|e|s|es|c]; simpl.
  - constructor.
  - constructor.
  - induction es as [|e es IHes]; constructor; [apply IH|exact IHes].
  - induction es as [|e es IHes]; constructor; [apply IH|exact IHes].
  - repeat constructor; apply IH.
  - repeat constructor; apply IH.
  - destruct s as [ps st sst rt mr my]; simpl.
    apply Forall_app_2; [|apply Forall_app_2; [|apply Forall_app_2]].
    + induction ps as [|[n pt pk pd] ps IHps]; constructor; [apply IH|exact IHps].
    + apply opt_Forall, IH.
    + apply opt_Forall, IH.
    + constructor; [apply IH|constructor].
  - induction es as [|e es IHes]; constructor; [apply IH|exact IHes].
  - constructor.
Qed.

(** Values of [f] on the children, in a form structural recursion accepts. *)
Definition childVals {T A} (f : T -> A) (s : shape T) : list A :=
  match s with
  | Atomic _ | ShClass _ | ShProto _ => []
  | ShList es | ShTuple es _ | ShUnion es => map f es
  | ShDict k v => [f k; f v]
  | ShSet e => [f e]
  | ShCallable s =>
      map (fun p => f (pType p)) (sParams s) ++
      (match sStar s with Some t => [f t] | None => [] end) ++
      (match sStarStar s with Some t => [f t] | None => [] end) ++ [f (sReturn s)]
  end.

Lemma childVals_map {T A} (f : T -> A) s : childVals f s = map f (children s).
Proof.
  destruct s as [| | | | | |[ps st sst rt mr my]| |]; simpl; try done.
  rewrite !map_app, map_map. by destruct st, sst.
Qed.

Lemma forallb_childVals {T} (f : T -> bool) s :
  forallb id (childVals f s) = forallb f (children s).
Proof. rewrite childVals_map. induction (children s) as [|x l IH]; simpl; [done|by rewrite IH]. Qed.

(** Class names never contain the characters the key uses as punctuation,
    which holds of every Python identifier. *)
Definition is_delim (c : ascii) : bool :=
  match c with
  | "," | ">" | ")" | "." | "|" | "}" | ";" | "*" | "-" | "]" | "!" | "~" => true
  | _ => false
  end%char.

#[global] Arguments is_delim : simpl never.

Fixpoint nameOk (s : string) : bool :=
  match s with "" => true | String c s => negb (is_delim c) && nameOk s end.

Definition shapeNames {T} (s : shape T) : bool :=
  match s with ShClass c | ShProto c => nameOk (cName c) | _ => true end.

(** Well-formed for keying: four refinement bits, plain class names. *)
Fixpoint key_wf (t : ty) : bool :=
  match t with
  | mkType sh r _ =>
    (0 <=? r)%Z && (r <? 16)%Z && shapeNames sh && forallb id (childVals key_wf sh)
  end.

(** ** What the key forgets *)

Definition stripClass (c : ClassRef) : ClassRef := mkClassRef (cName c) [] 0.

Definition stripParam {A B} (f : A -> B) (p : Param A) : Param B :=
  mkParam "" (f (pType p)) (pKind p) (pHasDefault p).

Definition stripShape {A B} (f : A -> B) (s : shape A) : shape B :=
  match s with
  | Atomic a => Atomic a
  | ShClass c => ShClass (stripClass c)
  | ShProto c => ShProto (stripClass c)
  | ShList es => ShList (map f es)
  | ShTuple es v => ShTuple (map f es) v
  | ShUnion es => ShUnion (map f es)
  | ShDict k v => ShDict (f k) (f v)
  | ShSet e => ShSet (f e)
  | ShCallable s =>
      ShCallable (mkSig (map (stripParam f) (sParams s))
        (match sStar s with Some t => Some (f t) | None => None end)
        (match sStarStar s with Some t => Some (f t) | None => None end)
        (f (sReturn s)) (sMayRaise s) (sMayYield s))
  end.

(** The element without what its key does not record: ids, the names of
    callable parameters, and the linearization behind a class name. *)
Fixpoint strip (t : ty) : ty :=
  match t with mkType sh r _ => mkType (stripShape strip sh) r 0 end.

(** ** The key identifies exactly the stripped element *)

Definition starts_delim (s : string) : bool :=
  match s with "" => true | String c _ => is_delim c end.

Lemma nameOk_split n1 n2 s1 s2 :
  nameOk n1 = true -> nameOk n2 = true ->
  starts_delim s1 = true -> starts_delim s2 = true ->
  n1 +:+ s1 = n2 +:+ s2 -> n1 = n2 /\ s1 = s2.
Proof.
  revert n2. induction n1 as [|c n1 IH]; intros [|c2 n2] H1 H2 Hs1 Hs2 E; simpl in *.
  - done.
  - subst s1. simpl in *. bool_to_prop. congruence.
  - subst s2. simpl in *. bool_to_prop. congruence.
  - bool_to_prop. simplify_eq. destruct (IH n2) as [-> ->]; auto.
Qed.

Lemma sapp_assoc (a b c : string) : (a +:+ b) +:+ c = a +:+ (b +:+ c).
Proof. induction a as [|x a IH]; simpl; [done|by rewrite IH]. Qed.

Lemma sapp_nil_r (a : string) : a +:+ "" = a.
Proof. induction a as [|x a IH]; simpl; [done|by rewrite IH]. Qed.

Lemma kindByte_inj k1 k2 :
  kindByte k1 = kindByte k2 -> k1 = k2.
Proof. destruct k1, k2; (reflexivity || discriminate). Qed.

Lemma refine_cases r : (0 <= r < 16)%Z ->
  In r [0;1;2;3;4;5;6;7;8;9;10;11;12;13;14;15]%Z.
Proof. intros H. simpl. lia. Qed.

(** After the kind byte and the refinement, the rest of a key never starts
    with the refinement mark. *)
Lemma refineKey_split r1 r2 s1 s2 :
  (0 <= r1 < 16)%Z -> (0 <= r2 < 16)%Z ->
  (forall c s, s1 = String c s -> c <> "#"%char) ->
  (forall c s, s2 = String c s -> c <> "#"%char) ->
  refineKey r1 +:+ s1 = refineKey r2 +:+ s2 -> r1 = r2 /\ s1 = s2.
Proof.
  intros H1 H2 N1 N2. unfold refineKey.
  destruct (Z.eqb_spec r1 0) as [->|], (Z.eqb_spec r2 0) as [->|]; simpl; intros E.
  - done.
  - by destruct (N1 _ _ E).
  - by destruct (N2 _ _ (eq_sym E)).
  - simplify_eq. split; [|done].
    match goal with H : byte_of_nat _ = byte_of_nat _ |- _ => rename H into Hb end.
    apply (f_equal nat_of_ascii) in Hb. unfold byte_of_nat in Hb.
    rewrite !nat_ascii_embedding in Hb by lia. lia.
Qed.

Definition key_code (t : ty) : Prop :=
  forall t2 s1 s2, key_wf t = true -> key_wf t2 = true ->
    starts_delim s1 = true -> starts_delim s2 = true ->
    key t +:+ s1 = key t2 +:+ s2 -> strip t = strip t2 /\ s1 = s2.

(** Every key starts with the kind letter, which is not punctuation. *)
Lemma key_head t s : exists k rest, key t +:+ s = String (kindByte k) rest.
Proof. destruct t as [sh r i]. simpl. eauto. Qed.

Lemma kindByte_not_delim k : is_delim (kindByte k) = false.
Proof. destruct k; reflexivity. Qed.

Lemma kindByte_not_eq k : kindByte k <> "="%char.
Proof. destruct k; discriminate. Qed.

Lemma key_not_delim t s s2 : starts_delim s2 = true -> s2 = key t +:+ s -> s2 = "" /\ False.
Proof.
  intros H ->. destruct (key_head t s) as (k & rest & E). rewrite E in H.
  simpl in H. by rewrite kindByte_not_delim in H.
Qed.

Section Sequences.
Variable sep : ascii.
Hypothesis sep_delim : is_delim sep = true.

(** What may follow a separated sequence: punctuation other than the
    separator. *)
Definition closes (e : string) : Prop :=
  exists c s, e = String c s /\ is_delim c = true /\ c <> sep.

Lemma closes_delim e : closes e -> starts_delim e = true.
Proof. by intros (c & s & -> & H & _). Qed.

Definition afterKey (l : list ty) (e : string) : string :=
  match l with
  | [] => e
  | _ => String sep (String.concat (String sep "") (map key l) +:+ e)
  end.

Lemma concat_key_cons t l e :
  String.concat (String sep "") (map key (t :: l)) +:+ e = key t +:+ afterKey l e.
Proof.
  destruct l as [|u l]; simpl; [done|]. by rewrite !sapp_assoc.
Qed.

Lemma afterKey_delim l e : closes e -> starts_delim (afterKey l e) = true.
Proof. destruct l; simpl; [apply closes_delim|done]. Qed.

Lemma concat_code es1 : Forall key_code es1 -> forall es2 e1 e2,
  forallb key_wf es1 = true -> forallb key_wf es2 = true -> closes e1 -> closes e2 ->
  String.concat (String sep "") (map key es1) +:+ e1 =
  String.concat (String sep "") (map key es2) +:+ e2 ->
  map strip es1 = map strip es2 /\ e1 = e2.
Proof.
  induction 1 as [|t1 l1 Ht _ IH]; intros [|t2 l2] e1 e2 W1 W2 C1 C2 E.
  - done.
  - rewrite concat_key_cons in E. simpl in E.
    by destruct (key_not_delim t2 _ e1 (closes_delim _ C1) E).
  - rewrite concat_key_cons in E. simpl in E. symmetry in E.
    by destruct (key_not_delim t1 _ e2 (closes_delim _ C2) E).
  - rewrite !concat_key_cons in E. simpl in W1, W2. bool_to_prop.
    destruct (Ht t2 (afterKey l1 e1) (afterKey l2 e2)) as [Hs Hr];
      auto using afterKey_delim.
    assert (Hl : map strip l1 = map strip l2 /\ e1 = e2); [|simpl; by destruct Hl as [-> ->]; rewrite Hs].
    destruct l1 as [|u1 l1], l2 as [|u2 l2].
    + done.
    + destruct C1 as (c & s & -> & _ & Hc). simpl in Hr. congruence.
    + destruct C2 as (c & s & -> & _ & Hc). simpl in Hr. congruence.
    + apply IH; auto. change (String sep (String.concat (String sep "") (map key (u1 :: l1)) +:+ e1) =
        String sep (String.concat (String sep "") (map key (u2 :: l2)) +:+ e2)) in Hr. congruence.
Qed.
End Sequences.

(** *** Signatures *)

Definition paramKey (p : Param ty) : string :=
  String (paramKindByte (pKind p))
    ((if pHasDefault p then "=" else "") +:+ key (pType p) +:+ ";").

(** The parameter list ends at the first star or arrow. *)
Definition sig_tail (e : string) : Prop :=
  exists c s, e = String c s /\ (c = "*"%char \/ c = "-"%char).

Lemma paramKind_not_tail k e s :
  sig_tail e -> e = String (paramKindByte k) s -> False.
Proof. intros (c & s' & -> & [-> | ->]) E; destruct k; discriminate. Qed.

Lemma paramKindByte_inj k1 k2 : paramKindByte k1 = paramKindByte k2 -> k1 = k2.
Proof. destruct k1, k2; (reflexivity || discriminate). Qed.

(** A default mark is never the first letter of a type. *)
Lemma default_split d1 d2 t1 t2 s1 s2 :
  (if d1 : bool then "=" else "") +:+ (key t1 +:+ s1) =
  (if d2 : bool then "=" else "") +:+ (key t2 +:+ s2) ->
  d1 = d2 /\ key t1 +:+ s1 = key t2 +:+ s2.
Proof.
  destruct d1, d2; simpl; intros E.
  - split; [done|congruence].
  - destruct (key_head t2 s2) as (k & r & Hk). rewrite Hk in E.
    injection E as E _. by destruct (kindByte_not_eq k).
  - destruct (key_head t1 s1) as (k & r & Hk). rewrite Hk in E.
    injection E as E _. by destruct (kindByte_not_eq k).
  - done.
Qed.

Lemma concat_nil_cons (x : string) l e :
  String.concat "" (x :: l) +:+ e = x +:+ (String.concat "" l +:+ e).
Proof. destruct l; simpl; [done|]. by rewrite sapp_assoc. Qed.

Lemma params_code ps1 : Forall key_code (map pType ps1) -> forall ps2 e1 e2,
  forallb key_wf (map pType ps1) = true -> forallb key_wf (map pType ps2) = true ->
  sig_tail e1 -> sig_tail e2 ->
  String.concat "" (map paramKey ps1) +:+ e1 = String.concat "" (map paramKey ps2) +:+ e2 ->
  map (stripParam strip) ps1 = map (stripParam strip) ps2 /\ e1 = e2.
Proof.
  induction ps1 as [|p1 l1 IH]; intros Hc [|p2 l2] e1 e2 W1 W2 T1 T2 E.
  - done.
  - cbn [map] in E. rewrite concat_nil_cons in E. simpl in E.
    by destruct (paramKind_not_tail (pKind p2) e1 _ T1 E).
  - cbn [map] in E. rewrite concat_nil_cons in E. simpl in E. symmetry in E.
    by destruct (paramKind_not_tail (pKind p1) e2 _ T2 E).
  - cbn [map] in *. rewrite !concat_nil_cons in E. unfold paramKey in E at 1 3.
    simpl in E, W1, W2. bool_to_prop. apply Forall_cons in Hc as [Hp Hc].
    injection E as Ek E. apply paramKindByte_inj in Ek.
    rewrite !sapp_assoc in E. apply default_split in E as [Ed E]. simpl in E.
    apply Hp in E as [Es E']; [|done..].
    injection E' as E'. destruct (IH Hc l2 e1 e2) as [Hl ->]; auto.
    rewrite Hl. unfold stripParam at 1 3. by rewrite Es, Ek, Ed.
Qed.

(** The star, double-star, arrow and effect parts of a signature key. *)
Definition sigRest (st sst : option ty) (rt : ty) (mr my : bool) (e : string) : string :=
  (match st with Some t => "*" +:+ key t | None => "" end) +:+
  ((match sst with Some t => "**" +:+ key t | None => "" end) +:+
   ("->" +:+ (key rt +:+ ((if mr then "!" else "") +:+ ((if my then "~" else "") +:+ e))))).

Lemma sigRest_tail st sst rt mr my e : sig_tail (sigRest st sst rt mr my e).
Proof. destruct st, sst; simpl; eexists _, _; (split; [reflexivity|auto]). Qed.

Lemma sigKey_split sg e :
  sigKey key sg +:+ e =
  String.concat "" (map paramKey (sParams sg)) +:+
  sigRest (sStar sg) (sStarStar sg) (sReturn sg) (sMayRaise sg) (sMayYield sg) e.
Proof. unfold sigKey, sigRest. by rewrite !sapp_assoc. Qed.

(** The effect marks and the closing bracket. *)
Lemma effects_split (m1 m2 y1 y2 : bool) e1 e2 :
  (if m1 then "!" else "") +:+ ((if y1 then "~" else "") +:+ String "]" e1) =
  (if m2 then "!" else "") +:+ ((if y2 then "~" else "") +:+ String "]" e2) ->
  m1 = m2 /\ y1 = y2 /\ e1 = e2.
Proof. destruct m1, m2, y1, y2; simpl; intros E; simplify_eq; done. Qed.

Lemma effects_delim (m y : bool) e :
  starts_delim ((if m then "!" else "") +:+ ((if y then "~" else "") +:+ String "]" e)) = true.
Proof. by destruct m, y. Qed.

(** An optional starred type, told apart from what follows by its mark. *)
Lemma arrow_code rt1 rt2 m1 m2 y1 y2 e1 e2 :
  key_code rt1 -> key_wf rt1 = true -> key_wf rt2 = true ->
  sigRest None None rt1 m1 y1 (String "]" e1) = sigRest None None rt2 m2 y2 (String "]" e2) ->
  strip rt1 = strip rt2 /\ m1 = m2 /\ y1 = y2 /\ e1 = e2.
Proof.
  intros C W1 W2 E. unfold sigRest in E. simpl in E. injection E as E.
  apply C in E as [-> E]; auto using effects_delim.
  by apply effects_split in E as (-> & -> & ->).
Qed.

Lemma starstar_code sst1 sst2 rt1 rt2 m1 m2 y1 y2 e1 e2 :
  Forall key_code (optList sst1) -> key_code rt1 ->
  forallb key_wf (optList sst1) = true -> forallb key_wf (optList sst2) = true ->
  key_wf rt1 = true -> key_wf rt2 = true ->
  sigRest None sst1 rt1 m1 y1 (String "]" e1) = sigRest None sst2 rt2 m2 y2 (String "]" e2) ->
  strip <$> sst1 = strip <$> sst2 /\ strip rt1 = strip rt2 /\ m1 = m2 /\ y1 = y2 /\ e1 = e2.
Proof.
  intros Cs C S1 S2 W1 W2 E.
  destruct sst1 as [u1|], sst2 as [u2|]; simpl in *; try (unfold sigRest in E; discriminate E).
  - bool_to_prop. apply Forall_cons in Cs as [Cu _]. unfold sigRest in E. simpl in E.
    injection E as E. apply Cu in E as [Eu E]; [|done..].
    apply (arrow_code rt1 rt2 m1 m2 y1 y2 e1 e2) in E; auto.
    by rewrite Eu.
  - by apply arrow_code in E.
Qed.

(** A single star is followed by a letter, so it is not a double star. *)
Lemma star_not_none u sst1 sst2 rt1 rt2 m1 m2 y1 y2 e1 e2 :
  sigRest (Some u) sst1 rt1 m1 y1 e1 = sigRest None sst2 rt2 m2 y2 e2 -> False.
Proof.
  intros E. unfold sigRest in E. destruct sst2 as [w|]; simpl in E; [|discriminate E].
  injection E as E. match type of E with key u +:+ ?r = _ =>
    destruct (key_head u r) as (k & r' & Hk) end.
  rewrite Hk in E. injection E as E _. by destruct k.
Qed.

Lemma star_code st1 st2 sst1 sst2 rt1 rt2 m1 m2 y1 y2 e1 e2 :
  Forall key_code (optList st1) -> Forall key_code (optList sst1) -> key_code rt1 ->
  forallb key_wf (optList st1) = true -> forallb key_wf (optList st2) = true ->
  forallb key_wf (optList sst1) = true -> forallb key_wf (optList sst2) = true ->
  key_wf rt1 = true -> key_wf rt2 = true ->
  sigRest st1 sst1 rt1 m1 y1 (String "]" e1) = sigRest st2 sst2 rt2 m2 y2 (String "]" e2) ->
  strip <$> st1 = strip <$> st2 /\ strip <$> sst1 = strip <$> sst2 /\
  strip rt1 = strip rt2 /\ m1 = m2 /\ y1 = y2 /\ e1 = e2.
Proof.
  intros Ct Cs C T1 T2 S1 S2 W1 W2 E.
  destruct st1 as [u1|], st2 as [u2|]; simpl in *.
  - bool_to_prop. apply Forall_cons in Ct as [Cu _]. unfold sigRest in E. simpl in E.
    injection E as E. apply Cu in E as [Eu E]; [|done|done|by destruct sst1|by destruct sst2].
    apply (starstar_code sst1 sst2 rt1 rt2 m1 m2 y1 y2 e1 e2) in E; auto.
    by rewrite Eu.
  - by apply star_not_none in E.
  - symmetry in E. by apply star_not_none in E.
  - by apply starstar_code in E.
Qed.

Lemma sig_code s1 s2 e1 e2 :
  Forall key_code (children (ShCallable s1)) ->
  forallb key_wf (children (ShCallable s1)) = true ->
  forallb key_wf (children (ShCallable s2)) = true ->
  sigKey key s1 +:+ String "]" e1 = sigKey key s2 +:+ String "]" e2 ->
  stripShape strip (ShCallable s1) = stripShape strip (ShCallable s2) /\ e1 = e2.
Proof.
  simpl. rewrite !Forall_app, !forallb_app. intros (Cp & Ct & Cs & Cr) W1 W2 E.
  bool_to_prop. simpl in *. bool_to_prop. apply Forall_cons in Cr as [Cr _].
  rewrite !sigKey_split in E.
  apply params_code in E as [Ep E]; auto using sigRest_tail.
  apply star_code in E as (Et & Es & Er & Em & Ey & ->); auto.
  split; [|done]. rewrite Ep, Er, Em, Ey.
  destruct (sStar s1), (sStar s2), (sStarStar s1), (sStarStar s2); simplify_eq/=; congruence.
Qed.

(** The part of a key after the kind letter and the refinement. *)
Definition bodyKey (sh : shape ty) : string :=
  match sh with
  | Atomic _ => ""
  | ShClass c | ShProto c => ":" +:+ cName c
  | ShList es => "<" +:+ String.concat "," (map key es) +:+ ">"
  | ShSet e => "<" +:+ key e +:+ ">"
  | ShDict k v => "<" +:+ key k +:+ "," +:+ key v +:+ ">"
  | ShTuple es variadic =>
      "(" +:+ String.concat "," (map key es) +:+ (if variadic then "..." else "") +:+ ")"
  | ShUnion es => "{" +:+ String.concat "|" (map key es) +:+ "}"
  | ShCallable s => "[" +:+ sigKey key s +:+ "]"
  end.

Lemma key_unfold sh r i :
  key (mkType sh r i) = String (kindByte (shapeKind sh)) (refineKey r +:+ bodyKey sh).
Proof. by destruct sh. Qed.

Lemma bodyKey_no_mark sh s c rest :
  starts_delim s = true -> bodyKey sh +:+ s = String c rest -> c <> "#"%char.
Proof.
  destruct sh; simpl; intros Hs E; try (injection E as <- _; discriminate).
  subst s. intros ->. discriminate Hs.
Qed.

Lemma closes_intro sep c s : is_delim c = true -> c <> sep -> closes sep (String c s).
Proof. unfold closes. eauto 10. Qed.

Lemma tuple_end_closes (v : bool) s :
  closes "," ((if v then "..." else "") +:+ String ")" s).
Proof. destruct v; apply closes_intro; (reflexivity || discriminate). Qed.

Lemma bodyKey_code sh1 sh2 s1 s2 :
  Forall key_code (children sh1) ->
  forallb key_wf (children sh1) = true -> forallb key_wf (children sh2) = true ->
  shapeNames sh1 = true -> shapeNames sh2 = true ->
  starts_delim s1 = true -> starts_delim s2 = true ->
  shapeKind sh1 = shapeKind sh2 -> bodyKey sh1 +:+ s1 = bodyKey sh2 +:+ s2 ->
  stripShape strip sh1 = stripShape strip sh2 /\ s1 = s2.
Proof.
  intros C W1 W2 N1 N2 D1 D2 K E.
  destruct sh1 as [a1|c1|l1|l1 v1|k1 v1|e1|g1|l1|c1], sh2 as [a2|c2|l2|l2 v2|k2 v2|e2|g2|l2|c2];
    try discriminate K; try (by destruct a1); try (by destruct a2);
    simpl in C, W1, W2, N1, N2; unfold bodyKey in E; simpl in E;
    rewrite ?sapp_assoc in E; simpl in E; rewrite ?sapp_assoc in E; simpl in E.
  - split; [|done]. simpl. by destruct a1, a2.
  - injection E as E. apply nameOk_split in E as [En ->]; auto.
    simpl. unfold stripClass. by rewrite En.
  - injection E as E. apply (concat_code ",") in E as [El E]; auto;
      try (apply closes_intro; (reflexivity || discriminate)).
    injection E as ->. simpl. by rewrite El.
  - injection E as E.
    apply (concat_code ",") in E as [El E]; auto using tuple_end_closes.
    simpl. rewrite El. destruct v1, v2; simplify_eq/=; done.
  - bool_to_prop. apply Forall_cons in C as [Ck C]. apply Forall_cons in C as [Cv _].
    injection E as E. apply Ck in E as [Ek E]; [|done..]. simpl in E. injection E as E.
    apply Cv in E as [Ev E]; [|done..]. injection E as ->. simpl. by rewrite Ek, Ev.
  - bool_to_prop. apply Forall_cons in C as [Ce _].
    injection E as E. apply Ce in E as [Ee E]; [|done..]. injection E as ->. simpl. by rewrite Ee.
  - injection E as E. by apply sig_code in E.
  - injection E as E. apply (concat_code "|") in E as [El E]; auto;
      try (apply closes_intro; (reflexivity || discriminate)).
    injection E as ->. simpl. by rewrite El.
  - injection E as E. apply nameOk_split in E as [En ->]; auto.
    simpl. unfold stripClass. by rewrite En.
Qed.

Lemma key_is_code t : key_code t.
Proof.
  induction t as [sh1 r1 i1 IH] using ty_ind'. intros [sh2 r2 i2] s1 s2 W1 W2 D1 D2 E.
  simpl in W1, W2. bool_to_prop. rewrite forallb_childVals in *.
  rewrite !key_unfold in E. simpl in E. injection E as Ek E. apply kindByte_inj in Ek.
  rewrite !sapp_assoc in E.
  apply refineKey_split in E as [-> E]; [|lia|lia|intros ? ?; by apply bodyKey_no_mark..].
  apply bodyKey_code in E as [Es ->]; auto.
  simpl. by rewrite Es.
Qed.

(** Two well-formed elements have the same key exactly when they agree on
    everything but ids, parameter names and class linearizations. *)
Lemma key_inj t1 t2 :
  key_wf t1 = true -> key_wf t2 = true -> key t1 = key t2 -> strip t1 = strip t2.
Proof.
  intros W1 W2 E. destruct (key_is_code t1 t2 "" "") as [H _]; auto.
  by rewrite !sapp_nil_r.
Qed.

(** ** The key reads nothing else *)

Lemma map_key_strip es :
  Forall (fun t => key (strip t) = key t) es -> map key (map strip es) = map key es.
Proof. induction 1 as [|t es Ht _ IH]; simpl; [done|]. by rewrite Ht, IH. Qed.

Lemma sigKey_strip s :
  Forall (fun t => key (strip t) = key t) (children (ShCallable s)) ->
  bodyKey (stripShape strip (ShCallable s)) = bodyKey (ShCallable s).
Proof.
  simpl. rewrite !Forall_app. intros (Hp & Ht & Hs & Hr%Forall_cons).
  destruct Hr as [Hr _]. unfold sigKey; simpl. rewrite Hr.
  assert (Hps : map (fun p => String (paramKindByte (pKind p))
      ((if pHasDefault p then "=" else "") +:+ key (pType p) +:+ ";"))
      (map (stripParam strip) (sParams s)) =
    map (fun p => String (paramKindByte (pKind p))
      ((if pHasDefault p then "=" else "") +:+ key (pType p) +:+ ";")) (sParams s)).
  { clear -Hp. induction (sParams s) as [|p ps IH]; simpl in *; [done|].
    apply Forall_cons in Hp as [Hp Hps]. rewrite Hp. f_equal. by apply IH. }
  rewrite Hps. destruct (sStar s), (sStarStar s); simpl in *;
    rewrite ?Forall_cons in *; by repeat match goal with
    | H : _ /\ _ |- _ => destruct H | H : key (strip _) = key _ |- _ => rewrite H; clear H end.
Qed.

Lemma key_strip t : key (strip t) = key t.
Proof.
  induction t as [sh r i IH] using ty_ind'. cbn [strip]. rewrite !key_unfold.
  f_equal; [by destruct sh|f_equal].
  destruct sh as [a|c|es|es v|k v|e|s|es|c]; simpl in IH; try done.
  - simpl. by rewrite map_key_strip.
  - simpl. by rewrite map_key_strip.
  - apply Forall_cons in IH as [Hk IH]. apply Forall_cons in IH as [Hv _].
    simpl. by rewrite Hk, Hv.
  - apply Forall_cons in IH as [He _]. simpl. by rewrite He.
  - by apply sigKey_strip.
  - simpl. by rewrite map_key_strip.
Qed.

Lemma strip_key t1 t2 : strip t1 = strip t2 -> key t1 = key t2.
Proof. intros E. by rewrite <- (key_strip t1), E, key_strip. Qed.

(** ** Hash-cons identity *)

(** C23: the canonical key identifies exactly the elements that agree on kind,
    refinement bits, class name, elements, variadic flag and signature
    shape; it ignores interner ids, the linearization behind a class name,
    and the names of a callable's parameters. *)
Theorem key_identity t1 t2 :
  key_wf t1 = true -> key_wf t2 = true ->
  (key t1 = key t2 <-> strip t1 = strip t2).
Proof. intros W1 W2. split; [by apply key_inj|apply strip_key]. Qed.

Definition intT : ty := mkType (Atomic AInt) 0 3.
Definition strT : ty := mkType (Atomic AStr) 0 6.

Lemma key_identity_witness :
  let a := mkType (ShTuple [intT; strT] false) RefineKnownLen 11 in
  let b := mkType (ShTuple [intT; strT] true) RefineKnownLen 12 in
  key a <> key b /\ (key a = key b <-> strip a = strip b).
Proof. split; [discriminate|]. apply key_identity; reflexivity. Defined.

(** A callable taking the keyword-only parameter [n] of type int. *)
Definition kwCallable (n : string) : ty :=
  mkType (ShCallable (mkSig [mkParam n intT ParamKwOnly false] None None intT false false)) 0 9.

(** The key does not record parameter names, so two callables whose
    keyword-only parameters have different names are one lattice element,
    although a keyword-passable name is part of the calling contract. *)
Theorem key_ignores_keyword_names n m : key (kwCallable n) = key (kwCallable m).
Proof. reflexivity. Qed.
