(* ===== verification/Interner.v ===== *)
(** * Interner: the hash-consing home of the lattice

    Model of src/pkg/types/interner.go.  The interner is threaded as a state;
    a [*Type] it returned is the stored tree, and two pointers are the same
    exactly when the interner gave them the same id, so pointer comparison is
    comparison of ids.  [TypeID] is a 32-bit index in the source; the model
    keeps it a natural number. *)

From S2P Require Import Prelude Lattice.

(** ** State *)

Record Interner := mkInterner {
  byKey : gmap string ty;
  byID : list ty;
  classes : gmap string ClassRef;
  base : atom -> ty;            (* the nine singleton fields *)
  joinMemo : gmap (nat * nat) ty;
  meetMemo : gmap (nat * nat) ty
}.

(** Interner methods: a state transformer.  [None] is a run-time panic (an
    index out of range on a malformed element) or exhausted fuel. *)
Definition M (A : Type) : Type := Interner -> option (A * Interner).

Definition ret {A} (a : A) : M A := fun s => Some (a, s).
Definition panic {A} : M A := fun _ => None.
Definition bind {A B} (m : M A) (f : A -> M B) : M B :=
  fun s => match m s with Some (a, s') => f a s' | None => None end.
Definition get : M Interner := fun s => Some (s, s).

Notation "x <- m ;; k" := (bind m (fun x => k))
  (at level 100, m at next level, right associativity) : unagi_scope.
Local Open Scope unagi_scope.

(** Pointer comparison of two interned elements. *)
Definition ptr_eq (a b : ty) : bool := Nat.eqb (tid a) (tid b).

(** ** Construction *)

Definition intern (t : ty) : M ty := fun s =>
  let k := key t in
  match byKey s !! k with
  | Some existing => Some (existing, s)
  | None =>
      let t' := mkType (shp t) (refine t) (length (byID s)) in
      Some (t', mkInterner (<[k := t']> (byKey s)) (byID s ++ [t']) (classes s)
                  (base s) (joinMemo s) (meetMemo s))
  end.

(** A construction template, [&Type{...}]: no refinement bits, id zero. *)
Definition tmpl (sh : shape ty) : ty := mkType sh 0 0.

Definition setBase (a : atom) (t : ty) (s : Interner) : Interner :=
  mkInterner (byKey s) (byID s) (classes s)
    (fun b => if bool_decide (a = b) then t else base s b) (joinMemo s) (meetMemo s).

Definition internBase (a : atom) : M unit :=
  t <- intern (tmpl (Atomic a)) ;; fun s => Some (tt, setBase a t s).

Definition emptyInterner : Interner :=
  mkInterner empty [] empty (fun _ => tmpl (Atomic ADyn)) empty empty.

Definition NewInterner : Interner :=
  match (_ <- internBase ANever ;; _ <- internBase ANone ;; _ <- internBase ABool ;;
         _ <- internBase AInt ;; _ <- internBase AFloat ;; _ <- internBase AComplex ;;
         _ <- internBase AStr ;; _ <- internBase ABytes ;; internBase ADyn) emptyInterner with
  | Some (_, s) => s
  | None => emptyInterner
  end.

Definition Lookup (s : Interner) (i : nat) : option ty := byID s !! i.
Definition Len (s : Interner) : nat := length (byID s).

(** [classRef]: the first registration fixes the linearization. *)
Definition classRef (name : string) (mro : list string) : M ClassRef := fun s =>
  match classes s !! name with
  | Some ref => Some (ref, s)
  | None =>
      let mro := match mro with [] => [name] | _ => mro end in
      let ref := mkClassRef name mro (size (classes s)) in
      Some (ref, mkInterner (byKey s) (byID s) (<[name := ref]> (classes s))
                   (base s) (joinMemo s) (meetMemo s))
  end.

Definition Class (name : string) (mro : list string) : M ty :=
  ref <- classRef name mro ;; intern (tmpl (ShClass ref)).
Definition Proto (name : string) : M ty :=
  ref <- classRef name [name] ;; intern (tmpl (ShProto ref)).
Definition ListN (elems : list ty) : M ty := intern (tmpl (ShList elems)).
Definition List (elem : ty) : M ty := ListN [elem].
Definition Set_ (elem : ty) : M ty := intern (tmpl (ShSet elem)).
Definition Dict (k v : ty) : M ty := intern (tmpl (ShDict k v)).
Definition Tuple (positions : list ty) : M ty := intern (tmpl (ShTuple positions false)).
Definition TupleVar (elem : ty) : M ty := intern (tmpl (ShTuple [elem] true)).
Definition Callable (sig : Signature ty) : M ty := intern (tmpl (ShCallable sig)).

Definition WithRefine (t : ty) (r : Z) : M ty :=
  if (Z.land (refine t) r =? r)%Z then ret t
  else intern (mkType (shp t) (Z.lor (refine t) r) 0).

Definition WithoutRefine (t : ty) (r : Z) : M ty :=
  if (Z.land (refine t) r =? 0)%Z then ret t
  else intern (mkType (shp t) (Z.ldiff (refine t) r) 0).

Definition allRefine : Z :=
  Z.lor RefineAsciiOnly (Z.lor RefineNonNegative (Z.lor RefineKnownLen RefineExactType)).

Definition stripRefine (t : ty) : M ty := WithoutRefine t allRefine.

(** ** The interner's invariant *)

(** The element is one the interner handed out. *)
Definition interned (s : Interner) (t : ty) : Prop := byID s !! tid t = Some t.

(** The class reference in the element is the registered one. *)
Definition class_reg (s : Interner) (sh : shape ty) : Prop :=
  match sh with ShClass c | ShProto c => classes s !! cName c = Some c | _ => True end.

Record core (s : Interner) : Prop := {
  ok_id : forall i t, byID s !! i = Some t ->
    tid t = i /\ byKey s !! key t = Some t /\ key_wf t = true /\
    Forall (interned s) (children (shp t)) /\ class_reg s (shp t);
  ok_key : forall k t, byKey s !! k = Some t -> key t = k /\ interned s t;
  ok_class : forall n c, classes s !! n = Some c -> cName c = n
}.

(** The singletons among [l] are set up. *)
Definition base_on (l : list atom) (s : Interner) : Prop :=
  forall a, a ∈ l -> interned s (base s a) /\ shp (base s a) = Atomic a /\ refine (base s a) = 0%Z.

Definition atoms : list atom :=
  [ANever; ANone; ABool; AInt; AFloat; AComplex; AStr; ABytes; ADyn].

Definition ok (s : Interner) : Prop := core s /\ base_on atoms s.

(** Later states only add: ids, classes and singletons keep their meaning. *)
Record extends (s s' : Interner) : Prop := {
  ext_ids : byID s `prefix_of` byID s';
  ext_classes : classes s ⊆ classes s';
  ext_base : base s' = base s
}.

#[export] Instance extends_refl : Reflexive extends.
Proof. by constructor. Qed.

#[export] Instance extends_trans : Transitive extends.
Proof.
  intros s1 s2 s3 [] []. constructor; [etrans; eauto|etrans; eauto|congruence].
Qed.

Lemma interned_mono s s' t : extends s s' -> interned s t -> interned s' t.
Proof. intros [H _ _] Ht. eapply prefix_lookup_Some; eauto. Qed.

Lemma class_reg_mono s s' sh : extends s s' -> class_reg s sh -> class_reg s' sh.
Proof. intros [_ H _]. destruct sh; simpl; try done; intros Hc; eapply lookup_weaken; eauto. Qed.

Create HintDb intern.
#[export] Hint Resolve interned_mono class_reg_mono : intern.
#[export] Hint Extern 1 (extends _ _) => reflexivity : intern.

Lemma Forall_interned_mono s s' l :
  extends s s' -> Forall (interned s) l -> Forall (interned s') l.
Proof. intros. eapply Forall_impl; eauto with intern. Qed.
#[export] Hint Resolve Forall_interned_mono : intern.

(** The template may be interned: its parts are. *)
Record buildable (s : Interner) (t : ty) : Prop := {
  bd_wf : key_wf t = true;
  bd_children : Forall (interned s) (children (shp t));
  bd_class : class_reg s (shp t)
}.

Lemma interned_buildable s t : core s -> interned s t -> buildable s t.
Proof. intros Hok Ht. destruct (ok_id s Hok _ _ Ht) as (_ & _ & ? & ? & ?). by constructor. Qed.

Lemma key_wf_id sh r i j : key_wf (mkType sh r i) = key_wf (mkType sh r j).
Proof. done. Qed.

(** [intern] keeps the invariant and returns the element of the template. *)
Lemma intern_core s t :
  core s -> buildable s t ->
  exists r s', intern t s = Some (r, s') /\ core s' /\ extends s s' /\
    interned s' r /\ strip r = strip t /\
    joinMemo s' = joinMemo s /\ meetMemo s' = meetMemo s /\ classes s' = classes s.
Proof.
  intros Hok [Hwf Hch Hcl]. unfold intern. destruct (byKey s !! key t) as [e|] eqn:E.
  - destruct (ok_key s Hok _ _ E) as [Hk Hi]. exists e, s. split_and!; auto with intern.
    apply key_inj; auto. by destruct (ok_id s Hok _ _ Hi) as (_ & _ & ? & _).
  - set (t' := mkType (shp t) (refine t) (length (byID s))).
    set (s' := mkInterner _ _ _ _ _ _).
    assert (Hkey : key t' = key t) by (destruct t; unfold t'; by rewrite !key_unfold).
    assert (Hext : extends s s') by (constructor; simpl; [apply prefix_app_r| |]; done).
    assert (Ht' : interned s' t').
    { unfold interned. simpl. by rewrite lookup_app_r, Nat.sub_diag by done. }
    exists t', s'. split; [done|]. split; [|split; [done|split; [done|split; [by destruct t|done]]]].
    split.
    + intros i u Hu. simpl in Hu. apply lookup_app_Some in Hu as [Hu|[Hi Hu]].
      * destruct (ok_id s Hok _ _ Hu) as (? & Hb & ? & ? & ?).
        split_and!; eauto with intern. simpl.
        rewrite lookup_insert_ne; [done|]. intros Hx. congruence.
      * assert (i - length (byID s) = 0) as Hz by (destruct (i - length (byID s)) eqn:?; [done|done]).
        rewrite Hz in Hu. simpl in Hu. injection Hu as <-.
        split_and!; [unfold t'; simpl; lia| | |eauto with intern..].
        -- rewrite Hkey. simpl. apply lookup_insert_eq.
        -- by destruct t.
    + intros k u Hu. simpl in Hu. apply lookup_insert_Some in Hu as [[<- <-]|[Hne Hu]].
      * done.
      * destruct (ok_key s Hok _ _ Hu). eauto with intern.
    + apply (ok_class s Hok).
Qed.

Lemma base_on_mono l s s' : extends s s' -> base_on l s -> base_on l s'.
Proof.
  intros He H a Ha. destruct (H a Ha) as (? & ? & ?).
  rewrite (ext_base _ _ He). eauto with intern.
Qed.

Lemma ok_core s : ok s -> core s.
Proof. by intros []. Qed.

Ltac solve_elem := repeat first [apply list_elem_of_here | apply list_elem_of_further].

Lemma atoms_all a : a ∈ atoms.
Proof. destruct a; solve_elem. Qed.

Lemma ok_base s a : ok s ->
  interned s (base s a) /\ shp (base s a) = Atomic a /\ refine (base s a) = 0%Z.
Proof. intros [_ H]. apply H, atoms_all. Qed.

(** What every constructor of interner.go guarantees of its result. *)
Record built (s s' : Interner) (t r : ty) : Prop := {
  bt_ok : ok s';
  bt_ext : extends s s';
  bt_interned : interned s' r;
  bt_strip : strip r = strip t;
  bt_join : joinMemo s' = joinMemo s;
  bt_meet : meetMemo s' = meetMemo s
}.

Lemma intern_spec s t :
  ok s -> buildable s t ->
  exists r s', intern t s = Some (r, s') /\ built s s' t r /\ classes s' = classes s.
Proof.
  intros [Hc Hb] Ht. destruct (intern_core s t Hc Ht)
    as (r & s' & E & Hc' & He & Hi & Hs & Hj & Hm & Hcl).
  exists r, s'. split_and!; [done| |done]. constructor; auto.
  split; [done|]. by eapply base_on_mono.
Qed.

(** Interning again returns the same element and changes nothing. *)
Lemma intern_again s t r s' : intern t s = Some (r, s') -> intern t s' = Some (r, s').
Proof.
  unfold intern. destruct (byKey s !! key t) as [e|] eqn:E; intros [= <- <-].
  - by rewrite E.
  - simpl. by rewrite lookup_insert_eq.
Qed.

(** *** Start-up *)

Lemma core_empty : core emptyInterner.
Proof. split; simpl; intros; set_solver. Qed.

Lemma setBase_core a t s : core s -> core (setBase a t s).
Proof. by intros []. Qed.

Lemma internBase_spec a l s :
  core s -> base_on l s ->
  exists s', internBase a s = Some (tt, s') /\ core s' /\ base_on (a :: l) s'.
Proof.
  intros Hc Hb. unfold internBase, bind.
  destruct (intern_core s (tmpl (Atomic a)) Hc) as (r & s' & -> & Hc' & He & Hi & Hs & _).
  { constructor; done. }
  eexists. split; [done|]. split; [by apply setBase_core|].
  intros b Hb'. unfold setBase; simpl. case_bool_decide as Hab.
  - subst b. destruct r as [[]]; simplify_eq/=; done.
  - apply elem_of_cons in Hb' as [->|Hb']; [done|].
    destruct (base_on_mono l s s' He Hb b Hb') as (? & ? & ?). done.
Qed.

Lemma boot_step l a (k : M unit) s :
  core s -> base_on l s ->
  (forall s', core s' -> base_on (a :: l) s' -> exists s2, k s' = Some (tt, s2) /\ ok s2) ->
  exists s2, (_ <- internBase a ;; k) s = Some (tt, s2) /\ ok s2.
Proof.
  intros Hc Hb Hk. destruct (internBase_spec a l s Hc Hb) as (s' & E & ? & ?).
  unfold bind. rewrite E. auto.
Qed.

Lemma NewInterner_ok : ok NewInterner.
Proof.
  unfold NewInterner.
  match goal with |- context [match ?c emptyInterner with _ => _ end] =>
    assert (exists s2, c emptyInterner = Some (tt, s2) /\ ok s2) as (s2 & -> & H); [|done] end.
  eapply (boot_step []); [apply core_empty|by intros a ?%not_elem_of_nil|].
  intros s1 Hc1 Hb1. do 7 (eapply boot_step; [eassumption|eassumption|];
    clear; intros s1 Hc1 Hb1).
  destruct (internBase_spec ADyn _ s1 Hc1 Hb1) as (s2 & -> & Hc2 & Hb2).
  exists s2. split; [done|]. split; [done|]. intros a _. apply Hb2.
  destruct a; clear; solve_elem.
Qed.

(** ** Constructors *)

Lemma classRef_spec s name mro :
  ok s -> nameOk name = true ->
  exists ref s', classRef name mro s = Some (ref, s') /\ ok s' /\ extends s s' /\
    classes s' !! name = Some ref /\ cName ref = name /\
    (forall n, n <> name -> classes s' !! n = classes s !! n) /\
    (classes s !! name = None -> MRO ref = match mro with [] => [name] | _ => mro end) /\
    (forall c, classes s !! name = Some c -> s' = s) /\
    joinMemo s' = joinMemo s /\ meetMemo s' = meetMemo s /\ byID s' = byID s.
Proof.
  intros [[Hid Hkey Hcls] Hb] Hn. unfold classRef. destruct (classes s !! name) as [c|] eqn:E.
  - exists c, s. split_and!; auto with intern; try done.
  - set (s' := mkInterner _ _ _ _ _ _). eexists _, s'. split; [done|].
    assert (He : extends s s').
    { constructor; simpl; [done|by apply insert_subseteq|done]. }
    split_and!; try done; simpl.
    + split; [|by eapply base_on_mono]. split.
      * intros i t Ht. destruct (Hid _ _ Ht) as (? & ? & ? & ? & ?).
        split_and!; eauto with intern.
      * intros k t Ht. destruct (Hkey _ _ Ht). eauto with intern.
      * simpl. intros n c Hc. apply lookup_insert_Some in Hc as [[<- <-]|[_ Hc]]; [done|].
        by apply Hcls.
    + apply lookup_insert_eq.
    + intros n Hne. by rewrite lookup_insert_ne.
Qed.

Lemma buildable_children s sh :
  shapeNames sh = true -> ok s -> Forall (interned s) (children sh) -> class_reg s sh ->
  buildable s (tmpl sh).
Proof.
  intros Hn [Hok _] Hc Hr. constructor; [|done|done].
  simpl. rewrite Hn, forallb_childVals. simpl. apply forallb_forall.
  intros t Ht%list_elem_of_In. rewrite Forall_forall in Hc.
  by destruct (ok_id s Hok _ _ (Hc t Ht)) as (_ & _ & ? & _).
Qed.

Definition refine_ok (r : Z) : bool := ((0 <=? r) && (r <? 16))%Z.

(** Changing the refinement bits of an interned element. *)
Lemma reintern_spec s t r :
  ok s -> interned s t -> refine_ok r = true ->
  exists u s', intern (mkType (shp t) r 0) s = Some (u, s') /\
    built s s' (mkType (shp t) r 0) u /\ classes s' = classes s.
Proof.
  intros Hok Ht Hr. apply intern_spec; [done|].
  destruct (interned_buildable s t (ok_core s Hok) Ht) as [Hw Hc Hg].
  constructor; [|done|done]. destruct t as [sh r0 i]. unfold refine_ok in Hr.
  simpl in *. rewrite Hr. simpl. bool_to_prop. by rewrite H0, H1.
Qed.

Lemma refine_range s t : ok s -> interned s t -> (0 <= refine t < 16)%Z.
Proof.
  intros Hok Ht. destruct (interned_buildable s t (ok_core s Hok) Ht) as [Hw _ _].
  destruct t as [sh r i]. simpl in *. bool_to_prop. lia.
Qed.

Lemma refine_land_lor a b : (0 <= a < 16)%Z -> (0 <= b < 16)%Z ->
  refine_ok (Z.lor a b) = true /\ refine_ok (Z.land a b) = true /\ refine_ok (Z.ldiff a b) = true.
Proof.
  intros Ha%refine_cases Hb%refine_cases. simpl in Ha, Hb.
  repeat (destruct Ha as [<-|Ha] || destruct Hb as [<-|Hb]); try done; by vm_compute.
Qed.

(** ** Hash-consing *)

Lemma interned_key_eq s a b :
  core s -> interned s a -> interned s b -> key a = key b -> a = b.
Proof.
  intros Hok Ha Hb E. destruct (ok_id s Hok _ _ Ha) as (_ & Ka & _).
  destruct (ok_id s Hok _ _ Hb) as (_ & Kb & _). congruence.
Qed.

Lemma interned_strip_eq s a b :
  core s -> interned s a -> interned s b -> strip a = strip b -> a = b.
Proof. intros Hok Ha Hb E. eapply interned_key_eq; eauto using strip_key. Qed.

Lemma ptr_eq_spec s a b :
  interned s a -> interned s b -> (ptr_eq a b = true <-> a = b).
Proof.
  intros Ha Hb. unfold ptr_eq. rewrite Nat.eqb_eq. split; [|by intros ->].
  unfold interned in *. intros E. rewrite E in Ha. congruence.
Qed.

(** Within one interner, comparing pointers is comparing lattice
    elements: two elements it handed out are the same pointer exactly when
    they agree on everything the key records. *)
Theorem pointer_is_structural s a b :
  ok s -> interned s a -> interned s b ->
  (ptr_eq a b = true <-> strip a = strip b).
Proof.
  intros [Hc _] Ha Hb. rewrite (ptr_eq_spec s a b Ha Hb).
  split; [by intros ->|by apply (interned_strip_eq s)].
Qed.

Lemma pointer_is_structural_witness :
  let s := NewInterner in
  ptr_eq (base s AInt) (base s AStr) = false /\
  (ptr_eq (base s AInt) (base s AStr) = true <-> strip (base s AInt) = strip (base s AStr)).
Proof.
  split; [reflexivity|].
  apply (pointer_is_structural NewInterner);
    [apply NewInterner_ok|reflexivity|reflexivity].
Defined.

(** C22: interning a template whose parts are interned always succeeds, keeps
    the interner's invariant, changes no existing id or class, returns an
    interned element that agrees with the template, and is idempotent: the
    same template interned again is the same pointer and no new id. *)
Theorem intern_canonical s t :
  ok s -> buildable s t ->
  exists r s', intern t s = Some (r, s') /\ ok s' /\ extends s s' /\
    interned s' r /\ strip r = strip t /\ intern t s' = Some (r, s').
Proof.
  intros Hok Hb. destruct (intern_spec s t Hok Hb) as (r & s' & E & [] & _).
  exists r, s'. split_and!; eauto using intern_again.
Qed.

Lemma intern_canonical_witness :
  let s := NewInterner in let t := tmpl (ShList [base s AInt]) in
  buildable s t /\
  exists r s', intern t s = Some (r, s') /\ ok s' /\ extends s s' /\
    interned s' r /\ strip r = strip t /\ intern t s' = Some (r, s').
Proof.
  assert (buildable NewInterner (tmpl (ShList [base NewInterner AInt]))) as Hb.
  { constructor; [reflexivity| |exact I].
    apply Forall_cons_2; [reflexivity|apply Forall_nil_2]. }
  split; [exact Hb|].
  apply (intern_canonical NewInterner); [apply NewInterner_ok|exact Hb].
Defined.
