(* ===== verification/Join.v ===== *)
(** * Join: the lattice algebra

    Model of src/pkg/types/join.go: join at control-flow merges, meet at
    narrowing sites, union canonicalization, the budget and the widening, all
    threaded through the interner with its two memo tables.  The recursion of
    [Join] and [Meet] is on fuel; [joinFuel] and [meetFuel] are the fuel the
    entry points start with, and [JoinSound] shows it is always enough. *)

From S2P Require Import Prelude Lattice Interner.
Local Open Scope unagi_scope.

Definition unionBudget : nat := 4.

(** ** Subtyping *)

Definition builtinClassName (k : Kind) : string :=
  match k with
  | KindInt => "int"
  | KindFloat => "float"
  | KindStr => "str"
  | KindBytes => "bytes"
  | KindBool => "bool"
  | KindComplex => "complex"
  | _ => ""
  end.

(** [slices.Contains] on names, the two MRO walks of the file. *)
Definition hasName (n : string) (l : list string) : bool := existsb (String.eqb n) l.

Definition kind_eqb (a b : Kind) : bool := bool_decide (a = b).

Definition isSubtype (a b : ty) : bool :=
  if ptr_eq a b then true
  else if kind_eqb (kind a) KindNever then true
  else if kind_eqb (kind b) KindDyn then true
  else if kind_eqb (kind a) KindBool && kind_eqb (kind b) KindInt then true
  else match shp a with
       | ShClass ca =>
           let name := match shp b with
                       | ShClass cb => cName cb
                       | _ => builtinClassName (kind b)
                       end in
           if negb (String.eqb name "") then hasName name (MRO ca) else false
       | _ => false
       end.

(** ** Class joins *)

(** The first shared name below object, with the tail of the walked MRO. *)
Fixpoint sharedTail (inB : list string) (mro : list string) : option (string * list string) :=
  match mro with
  | [] => None
  | name :: rest =>
      if String.eqb name "object" then sharedTail inB rest
      else if hasName name inB then Some (name, mro)
      else sharedTail inB rest
  end.

Definition dynM : M ty := s <- get ;; ret (base s ADyn).
Definition neverM : M ty := s <- get ;; ret (base s ANever).

Definition commonAncestor (a b : ClassRef) : M ty :=
  match sharedTail (MRO b) (MRO a) with
  | Some (name, mro) => Class name mro
  | None => dynM
  end.

(** ** Unions *)

(** Duplicate pointers dropped, first-seen order kept. *)
Fixpoint dedupeAux (seen : list nat) (ts : list ty) : list ty :=
  match ts with
  | [] => []
  | t :: ts =>
      if existsb (Nat.eqb (tid t)) seen then dedupeAux seen ts
      else t :: dedupeAux (tid t :: seen) ts
  end.

Definition dedupe (ts : list ty) : list ty := dedupeAux [] ts.

(** [sortKeys]: ascending by key. *)
Fixpoint insertKey (t : ty) (l : list ty) : list ty :=
  match l with
  | [] => [t]
  | u :: l => if String.ltb (key t) (key u) then t :: u :: l else u :: insertKey t l
  end.

Definition sortKeys (ts : list ty) : list ty := fold_right insertKey [] ts.

(** Flatten one level of unions; [None] when a member is Dyn. *)
Fixpoint flatten (members : list ty) : option (list ty) :=
  match members with
  | [] => Some []
  | m :: ms =>
      match shp m with
      | Atomic ADyn => None
      | ShUnion es => (fun l => es ++ l) <$> flatten ms
      | Atomic ANever => flatten ms
      | _ => (fun l => m :: l) <$> flatten ms
      end
  end.

(** Members not dominated by another member, by position. *)
Definition undominated (uniq : list ty) : list ty :=
  map snd (List.filter (fun im =>
      negb (existsb (fun jo => negb (Nat.eqb (fst im) (fst jo)) && isSubtype (snd im) (snd jo))
             (combine (seq 0 (length uniq)) uniq)))
    (combine (seq 0 (length uniq)) uniq)).

Fixpoint widenFrom (acc : ty) (members : list ty) : M ty :=
  match members with
  | [] => ret acc
  | m :: ms =>
      match shp acc, shp m with
      | ShClass ca, ShClass cm =>
          acc' <- commonAncestor ca cm ;;
          if negb (kind_eqb (kind acc') KindClass) then dynM else widenFrom acc' ms
      | _, _ => dynM
      end
  end.

Definition widen (members : list ty) : M ty :=
  match members with [] => panic | m :: ms => widenFrom m ms end.

Definition makeUnion (members : list ty) : M ty :=
  match flatten members with
  | None => dynM
  | Some flat =>
    match flat with
    | [] => neverM
    | _ =>
      let kept := undominated (dedupe flat) in
      match kept with
      | [t] => ret t
      | _ =>
        if unionBudget <? length kept then widen kept
        else intern (tmpl (ShUnion (sortKeys kept)))
      end
    end
  end.

Definition Union (members : list ty) : M ty := makeUnion members.
Definition Optional (t : ty) : M ty := s <- get ;; makeUnion [t; base s ANone].

(** ** Join *)

Definition memoKey (a b : nat) : nat * nat := if a <=? b then (a, b) else (b, a).

Definition setJoinMemo (k : nat * nat) (r : ty) : M unit := fun s =>
  Some (tt, mkInterner (byKey s) (byID s) (classes s) (base s) (<[k := r]> (joinMemo s)) (meetMemo s)).

Definition setMeetMemo (k : nat * nat) (r : ty) : M unit := fun s =>
  Some (tt, mkInterner (byKey s) (byID s) (classes s) (base s) (joinMemo s) (<[k := r]> (meetMemo s))).

Definition is_nominal (t : ty) : bool :=
  kind_eqb (kind t) KindClass || kind_eqb (kind t) KindProto.

Section JoinBody.
(** The recursive [Join]. *)
Variable J : ty -> ty -> M ty.

Fixpoint joinPositions (xs ys : list ty) : M (list ty) :=
  match xs, ys with
  | x :: xs, y :: ys => r <- J x y ;; rs <- joinPositions xs ys ;; ret (r :: rs)
  | _, _ => ret []
  end.

Fixpoint joinAll (acc : ty) (xs : list ty) : M ty :=
  match xs with
  | [] => ret acc
  | x :: xs => r <- J acc x ;; joinAll r xs
  end.

Definition joinTuples (ea : list ty) (va : bool) (eb : list ty) (vb : bool) : M ty :=
  if negb va && negb vb && Nat.eqb (length ea) (length eb)
  then ps <- joinPositions ea eb ;; Tuple ps
  else n <- neverM ;; e <- joinAll n ea ;; e <- joinAll e eb ;; TupleVar e.

Definition structuralJoin (a b : ty) : M ty :=
  if ptr_eq a b then ret a
  else if isSubtype a b then ret b
  else if isSubtype b a then ret a
  else if is_nominal a || is_nominal b then
    match shp a, shp b with
    | ShClass ca, ShClass cb => commonAncestor ca cb
    | _, _ => dynM
    end
  else
    match shp a, shp b with
    | ShList (x :: _), ShList (y :: _) => e <- J x y ;; List e
    | ShList _, ShList _ => panic
    | ShSet x, ShSet y => e <- J x y ;; Set_ e
    | ShDict ka va, ShDict kb vb => k <- J ka kb ;; v <- J va vb ;; Dict k v
    | ShTuple ea va, ShTuple eb vb => joinTuples ea va eb vb
    | _, _ => makeUnion [a; b]
    end.

Definition joinUncached (a b : ty) : M ty :=
  if kind_eqb (kind a) KindDyn || kind_eqb (kind b) KindDyn then dynM
  else if kind_eqb (kind a) KindNever then ret b
  else if kind_eqb (kind b) KindNever then ret a
  else
    sa <- stripRefine a ;; sb <- stripRefine b ;;
    bs <- structuralJoin sa sb ;;
    let common := Z.land (refine a) (refine b) in
    if negb (common =? 0)%Z && kind_eqb (kind bs) (kind a) && kind_eqb (kind bs) (kind b)
    then WithRefine bs common else ret bs.
End JoinBody.

Fixpoint JoinF (fuel : nat) (a b : ty) : M ty :=
  match fuel with
  | O => panic
  | S fuel =>
    if ptr_eq a b then ret a
    else
      s <- get ;;
      let k := memoKey (tid a) (tid b) in
      match joinMemo s !! k with
      | Some r => ret r
      | None => r <- joinUncached (JoinF fuel) a b ;; _ <- setJoinMemo k r ;; ret r
      end
  end.

(** Nesting depth, a union counting as its deepest member. *)
Fixpoint depth (t : ty) : nat :=
  match t with
  | mkType sh _ _ =>
    let m := list_max (childVals depth sh) in
    match sh with ShUnion _ => m | _ => S m end
  end.

Definition joinFuel (a b : ty) : nat := S (max (depth a) (depth b)).

Definition Join (a b : ty) : M ty := JoinF (joinFuel a b) a b.

(** ** Meet *)

Section MeetBody.
Variable Mt : ty -> ty -> M ty.

Fixpoint meetParts (ms : list ty) (t : ty) : M (list ty) :=
  match ms with
  | [] => ret []
  | m :: ms =>
      got <- Mt m t ;; rest <- meetParts ms t ;;
      ret (if kind_eqb (kind got) KindNever then rest else got :: rest)
  end.

Definition meetUnion (es : list ty) (t : ty) : M ty :=
  parts <- meetParts es t ;;
  match parts with [] => neverM | _ => makeUnion parts end.

Definition containerMeet (mk : ty -> M ty) (elem : ty) : M ty :=
  if kind_eqb (kind elem) KindNever then neverM else mk elem.

Definition structuralMeet (a b : ty) : M ty :=
  if ptr_eq a b then ret a
  else if isSubtype a b then ret a
  else if isSubtype b a then ret b
  else
    match shp a, shp b with
    | ShUnion es, _ => meetUnion es b
    | _, ShUnion es => meetUnion es a
    | ShList (x :: _), ShList (y :: _) => e <- Mt x y ;; containerMeet List e
    | ShList _, ShList _ => panic
    | ShSet x, ShSet y => e <- Mt x y ;; containerMeet Set_ e
    | ShDict ka va, ShDict kb vb =>
        k <- Mt ka kb ;; v <- Mt va vb ;;
        if kind_eqb (kind k) KindNever || kind_eqb (kind v) KindNever then neverM else Dict k v
    | _, _ => neverM
    end.

Definition meetUncached (a b : ty) : M ty :=
  if kind_eqb (kind a) KindDyn then ret b
  else if kind_eqb (kind b) KindDyn then ret a
  else if kind_eqb (kind a) KindNever || kind_eqb (kind b) KindNever then neverM
  else
    sa <- stripRefine a ;; sb <- stripRefine b ;;
    bs <- structuralMeet sa sb ;;
    let all := Z.lor (refine a) (refine b) in
    if negb (all =? 0)%Z && kind_eqb (kind bs) (kind a) && kind_eqb (kind bs) (kind b)
    then WithRefine bs all else ret bs.
End MeetBody.

Fixpoint MeetF (fuel : nat) (a b : ty) : M ty :=
  match fuel with
  | O => panic
  | S fuel =>
    if ptr_eq a b then ret a
    else
      s <- get ;;
      let k := memoKey (tid a) (tid b) in
      match meetMemo s !! k with
      | Some r => ret r
      | None => r <- meetUncached (MeetF fuel) a b ;; _ <- setMeetMemo k r ;; ret r
      end
  end.

Fixpoint tsize (t : ty) : nat :=
  match t with mkType sh _ _ => S (list_sum (childVals tsize sh)) end.

Definition meetFuel (a b : ty) : nat := S (tsize a + tsize b).

Definition Meet (a b : ty) : M ty := MeetF (meetFuel a b) a b.

(** ** The memo key *)

Lemma memoKey_cases a b c d :
  memoKey a b = memoKey c d -> (a = c /\ b = d) \/ (a = d /\ b = c).
Proof. unfold memoKey. destruct (Nat.leb_spec a b), (Nat.leb_spec c d); intros [= -> ->]; auto. Qed.

Lemma memoKey_sym a b : memoKey a b = memoKey b a.
Proof.
  unfold memoKey. destruct (Nat.leb_spec a b), (Nat.leb_spec b a); try done; [|lia].
  by assert (a = b) as -> by lia.
Qed.

(** The memo makes [Join] commute: once two interned elements have been
    joined, joining them in either order returns that same pointer and
    changes nothing. *)
Theorem Join_memo_commutes s a b r s' :
  interned s a -> interned s b -> Join a b s = Some (r, s') ->
  Join a b s' = Some (r, s') /\ Join b a s' = Some (r, s').
Proof.
  intros Ha Hb. unfold Join, joinFuel. cbn [JoinF].
  assert (ptr_eq b a = ptr_eq a b) as -> by (unfold ptr_eq; apply Nat.eqb_sym).
  destruct (ptr_eq a b) eqn:E.
  { apply (ptr_eq_spec s) in E as ->; [|done|done]. by intros [= <- <-]. }
  rewrite (memoKey_sym (tid b) (tid a)). unfold bind, get, ret. cbn beta iota.
  destruct (joinMemo s !! _) as [r0|] eqn:Em.
  { intros [= <- <-]. by rewrite Em. }
  destruct (joinUncached _ a b s) as [[r1 s1]|]; [|done].
  unfold setJoinMemo. intros [= <- <-]. cbn [joinMemo]. by rewrite lookup_insert_eq.
Qed.

Lemma Join_memo_commutes_witness :
  let s := NewInterner in
  exists r s', Join (base s AInt) (base s AStr) s = Some (r, s') /\
    Join (base s AStr) (base s AInt) s' = Some (r, s').
Proof.
  destruct (Join (base NewInterner AInt) (base NewInterner AStr) NewInterner) as [[r s']|] eqn:E;
    [|vm_compute in E; discriminate].
  exists r, s'. split; [exact E|].
  apply (Join_memo_commutes NewInterner (base NewInterner AInt) (base NewInterner AStr) r s');
    [reflexivity|reflexivity|exact E].
Defined.
