(* ===== verification/TypeSem.v ===== *)
(** * TypeSem: what the lattice elements promise about values

    The specification side of src/pkg/types: a value semantics for lattice
    elements, the laws of the class hierarchy they are read against, and the
    soundness of the subtype test of join.go.  A class element holds the
    instances of its subclasses, the builtin scalars hold the instances of
    their user subclasses, containers hold element-wise, protocols and
    callables are read through an arbitrary interpretation of their keys, and
    a refinement bit is an arbitrary per-kind predicate except "exact type" of
    a class, which says the value's class is that class. *)

From S2P Require Import Prelude Lattice Interner Join.
Set Warnings "-register-all".

Inductive val :=
  | VNone
  | VObj (cls : string) (payload : Z)
  | VList (l : list val)
  | VSet (l : list val)
  | VTuple (l : list val)
  | VDict (l : list (val * val)).

Definition classOf (v : val) : string :=
  match v with
  | VNone => "NoneType"
  | VObj c _ => c
  | VList _ => "list"
  | VSet _ => "set"
  | VTuple _ => "tuple"
  | VDict _ => "dict"
  end.

(** The program's class hierarchy: the ancestors of each class name. *)
Class Hierarchy (anc : string -> gset string) : Prop := {
  anc_refl c : c ∈ anc c;
  anc_trans c d : d ∈ anc c -> anc d ⊆ anc c;
  anc_antisym c d : d ∈ anc c -> c ∈ anc d -> c = d;
  anc_bool : "int" ∈ anc "bool"
}.

Section Sem.
Context (anc : string -> gset string) `{Hierarchy anc}.
(** Interpretations of protocols and callables, and of refinement bits. *)
Context (opaque : string -> val -> Prop) (bitsem : Kind -> Z -> val -> Prop).

Definition atomSem (a : atom) (v : val) : Prop :=
  match a with
  | ADyn => True
  | ANever => False
  | ANone => v = VNone
  | _ => builtinClassName (atomKind a) ∈ anc (classOf v)
  end.

Definition bitSem (sh : shape ty) (i : Z) (v : val) : Prop :=
  match sh with
  | ShClass c => if (i =? 3)%Z then classOf v = cName c else bitsem KindClass i v
  | _ => bitsem (shapeKind sh) i v
  end.

Definition bitsHold (sh : shape ty) (r : Z) (v : val) : Prop :=
  forall i, (0 <= i < 4)%Z -> Z.testbit r i = true -> bitSem sh i v.

(** The one element type of a homogeneous container. *)
Definition only (ps : list (val -> Prop)) (v : val) : Prop :=
  match ps with [p] => p v | _ => False end.

Fixpoint gamma (t : ty) (v : val) {struct t} : Prop :=
  match t with
  | mkType sh r _ =>
    bitsHold sh r v /\
    match sh with
    | Atomic a => atomSem a v
    | ShClass c => cName c ∈ anc (classOf v)
    | ShProto _ | ShCallable _ => opaque (key (mkType sh 0 0)) v
    | ShList es => exists l, v = VList l /\ Forall (only (map gamma es)) l
    | ShSet e => exists l, v = VSet l /\ Forall (gamma e) l
    | ShDict k e => exists l, v = VDict l /\ Forall (fun p => gamma k p.1 /\ gamma e p.2) l
    | ShTuple es false => exists l, v = VTuple l /\ Forall2 (fun P x => P x) (map gamma es) l
    | ShTuple es true => exists l, v = VTuple l /\ Forall (only (map gamma es)) l
    | ShUnion es => Exists (fun P => P v) (map gamma es)
    end
  end.

Definition le (a b : ty) : Prop := forall v, gamma a v -> gamma b v.

#[global] Instance le_preorder : PreOrder le.
Proof. split; [by intros ? ?|intros ? ? ? F G v; auto]. Qed.

(** The part of the meaning that does not depend on the bits. *)
Definition gammaShape (sh : shape ty) (v : val) : Prop := gamma (mkType sh 0 0) v.

Lemma gamma_split sh r i v : gamma (mkType sh r i) v <-> bitsHold sh r v /\ gammaShape sh v.
Proof.
  unfold gammaShape. simpl. split; [intros [? ?]|intros [? [_ ?]]]; split_and!; try done.
  intros j _. by rewrite Z.bits_0.
Qed.

Lemma gamma_plain sh i v : gamma (mkType sh 0 i) v <-> gammaShape sh v.
Proof. rewrite gamma_split. split; [by intros []|]. split; [|done]. intros j _. by rewrite Z.bits_0. Qed.

(** The meaning is a function of what the key records. *)
Lemma bitSem_strip sh f i v : bitSem (stripShape f sh) i v <-> bitSem sh i v.
Proof. by destruct sh. Qed.

Lemma only_strip es x :
  Forall (fun t => forall v, gamma (strip t) v <-> gamma t v) es ->
  only (map gamma (map strip es)) x <-> only (map gamma es) x.
Proof. intros [|t es' Ht Hes]; simpl; [done|]. by destruct Hes; simpl. Qed.

Lemma Forall_iff {A} (P Q : A -> Prop) l : (forall x, P x <-> Q x) -> Forall P l <-> Forall Q l.
Proof. intros Heq. split; intros HF; (eapply Forall_impl; [exact HF|]); intros; by apply Heq. Qed.

Lemma gamma_strip t v : gamma (strip t) v <-> gamma t v.
Proof.
  revert v. induction t as [sh r i IH] using ty_ind'. intros v.
  assert (Hb : bitsHold (stripShape strip sh) r v <-> bitsHold sh r v).
  { split; intros Hx j Hj Ht; apply (bitSem_strip sh strip), Hx; done. }
  assert (Hk : forall sh, key (mkType (stripShape strip sh) 0 0) = key (mkType sh 0 0)).
  { intros sh'. by rewrite <- (key_strip (mkType sh' 0 0)). }
  cbn [gamma strip]. rewrite Hb.
  destruct sh as [a|c|es|es va|k e|e|sg|es|c]; cbn [children] in IH; try done.
  - cbn [stripShape]. by setoid_rewrite (Forall_iff _ _ _ (fun x => only_strip es x IH)).
  - destruct va; cbn [stripShape].
    + by setoid_rewrite (Forall_iff _ _ _ (fun x => only_strip es x IH)).
    + assert (forall l, Forall2 (fun (P : val -> Prop) x => P x) (map gamma (map strip es)) l <->
                        Forall2 (fun (P : val -> Prop) x => P x) (map gamma es) l) as Hl.
      { clear Hb. induction IH as [|t es Ht Hes IHl]; [done|]. intros [|x l]; simpl.
        - split; intros HH; inversion HH.
        - rewrite !Forall2_cons, Ht, IHl. done. }
      by setoid_rewrite Hl.
  - apply Forall_cons in IH as [Hk' [He _]%Forall_cons]. cbn [stripShape].
    assert (forall p : val * val, gamma (strip k) p.1 /\ gamma (strip e) p.2 <->
              gamma k p.1 /\ gamma e p.2) as Hp by (intros p; by rewrite Hk', He).
    by setoid_rewrite (Forall_iff _ _ _ Hp).
  - apply Forall_cons in IH as [He _]. cbn [stripShape].
    by setoid_rewrite (Forall_iff _ _ _ He).
  - cbn [stripShape]. by rewrite <- (Hk (ShCallable sg)).
  - cbn [stripShape]. split; (intros [? HE]; split; [done|]);
      clear Hb; (induction IH as [|t es Ht Hes IHl]; simpl in *;
        [by inversion HE|]; apply Exists_cons in HE as [HE|HE];
        [left; by apply Ht|right; auto]).
Qed.

Lemma strip_gamma a b v : strip a = strip b -> gamma a v <-> gamma b v.
Proof. intros E. by rewrite <- (gamma_strip a), E, gamma_strip. Qed.

Lemma strip_le a b : strip a = strip b -> le a b.
Proof. intros E v. by apply strip_gamma. Qed.

Lemma gamma_union es v : gammaShape (ShUnion es) v <-> exists m, m ∈ es /\ gamma m v.
Proof.
  unfold gammaShape. simpl. rewrite Exists_exists. split.
  - intros [_ (P & [m [-> Hm]]%list_elem_of_fmap & Hv)]. eauto.
  - intros (m & Hm & Hv). split; [intros j _; by rewrite Z.bits_0|].
    exists (gamma m). split; [|done]. apply list_elem_of_fmap. eauto.
Qed.
End Sem.
