(* ===== verification/JoinSound.v ===== *)
(** * JoinSound: joins are defined and are upper bounds

    The correctness of src/pkg/types/join.go against the value semantics of
    [TypeSem].  [goodb] is the canonical form of elements the package keeps
    (unions of two to four plain members in strict key order, one element
    type per list), [depth] bounds the recursion, and [inv] is the interner
    state the operations preserve, memo table included. *)

From S2P Require Import Prelude Lattice Interner Join TypeSem.
Local Open Scope unagi_scope.

(** ** Canonical elements *)

(** A union member: no bits at its top, and neither a union, Never nor Dyn. *)
Definition memberb (t : ty) : bool :=
  (refine t =? 0)%Z &&
  match kind t with KindUnion | KindNever | KindDyn => false | _ => true end.

Definition keyLt (a b : ty) : bool := String.ltb (key a) (key b).

Fixpoint keysSorted (l : list ty) : bool :=
  match l with
  | a :: (b :: _) as t => keyLt a b && keysSorted t
  | _ => true
  end.

Definition localGood (sh : shape ty) (r : Z) : bool :=
  match sh with
  | ShList es => Nat.eqb (length es) 1
  | ShTuple es variadic => negb variadic || Nat.eqb (length es) 1
  | ShUnion es =>
      (2 <=? length es) && (length es <=? unionBudget) && forallb memberb es && keysSorted es
  | ShClass _ => negb (Z.testbit r 3)
  | _ => true
  end.

Fixpoint goodb (t : ty) : bool :=
  match t with mkType sh r _ => localGood sh r && forallb id (childVals goodb sh) end.

Lemma goodb_unfold t : goodb t = localGood (shp t) (refine t) && forallb goodb (children (shp t)).
Proof. destruct t as [sh r i]. simpl. by rewrite forallb_childVals. Qed.

Lemma children_strip f (sh : shape ty) : children (stripShape (B:=ty) f sh) = map f (children sh).
Proof.
  destruct sh as [| | | | | |[ps st sst rt mr my]| |]; simpl; try done.
  rewrite !map_app, !map_map. by destruct st, sst.
Qed.

Lemma memberb_strip t : memberb (strip t) = memberb t.
Proof. destruct t as [[] r i]; done. Qed.

Lemma map_strip_invariant {A} (f : ty -> A) l :
  Forall (fun t => f (strip t) = f t) l -> map f (map strip l) = map f l.
Proof. intros H. rewrite map_map. induction H as [|t l E _ IH]; simpl; [done|]. by rewrite E, IH. Qed.

Lemma keysSorted_strip l : keysSorted (map strip l) = keysSorted l.
Proof.
  induction l as [|a [|b l] IH]; [done|done|]. cbn [map keysSorted] in *. rewrite IH.
  unfold keyLt. by rewrite !key_strip.
Qed.

Lemma forallb_map_strip f l : Forall (fun t => f (strip t) = f t) l ->
  forallb f (map strip l) = forallb f l.
Proof. intros H. induction H as [|t l E _ IH]; simpl; [done|]. by rewrite E, IH. Qed.

Lemma localGood_strip sh r : localGood (stripShape strip sh) r = localGood sh r.
Proof.
  destruct sh; simpl; try done; rewrite ?length_map; try done.
  rewrite keysSorted_strip, forallb_map_strip; [done|].
  apply Forall_forall. intros; apply memberb_strip.
Qed.

Lemma goodb_strip t : goodb (strip t) = goodb t.
Proof.
  induction t as [sh r i IH] using ty_ind'.
  rewrite !goodb_unfold. cbn [strip shp refine]. rewrite localGood_strip, children_strip.
  by rewrite forallb_map_strip.
Qed.

Lemma depth_unfold t : depth t =
  let m := list_max (map depth (children (shp t))) in
  match shp t with ShUnion _ => m | _ => S m end.
Proof. destruct t as [sh r i]. cbn [depth shp]. by rewrite childVals_map. Qed.

Lemma depth_strip t : depth (strip t) = depth t.
Proof.
  induction t as [sh r i IH] using ty_ind'.
  rewrite !depth_unfold. cbn [strip shp]. rewrite children_strip, map_strip_invariant by done.
  by destruct sh.
Qed.

Lemma strip_good a b : strip a = strip b -> goodb a = goodb b.
Proof. intros E. by rewrite <- (goodb_strip a), E, goodb_strip. Qed.

Lemma strip_depth a b : strip a = strip b -> depth a = depth b.
Proof. intros E. by rewrite <- (depth_strip a), E, depth_strip. Qed.

Lemma strip_kind a b : strip a = strip b -> kind a = kind b.
Proof. destruct a as [[] ? ?], b as [[] ? ?]; simpl; intros [=]; by simplify_eq. Qed.

Lemma strip_refine a b : strip a = strip b -> refine a = refine b.
Proof. destruct a, b; simpl; by intros [=]. Qed.

Lemma depth_pos t : goodb t = true -> 1 <= depth t.
Proof.
  destruct t as [sh r i]. rewrite goodb_unfold, depth_unfold. cbn [shp refine].
  destruct sh as [| | | | | | |es|]; cbn [localGood children]; try lia. intros H. bool_to_prop.
  destruct es as [|e es]; [simpl in *; lia|]. cbn [forallb] in *. bool_to_prop. simpl.
  destruct e as [[] ? ?]; rewrite depth_unfold; simpl; try lia.
  unfold memberb, kind in *. simpl in *. bool_to_prop. done.
Qed.

Lemma depth_child t c : c ∈ children (shp t) -> kind t <> KindUnion -> depth c < depth t.
Proof.
  intros Hc Hk. rewrite (depth_unfold t).
  assert (depth c <= list_max (map depth (children (shp t)))) as Hle.
  { pose proof (proj1 (list_max_le (map depth (children (shp t))) _) (le_n _)) as HF.
    rewrite Forall_forall in HF. apply HF, list_elem_of_fmap. eauto. }
  destruct t as [[] ? ?]; simpl in *; try lia. by destruct Hk.
Qed.

Lemma depth_union_child t c : c ∈ children (shp t) -> depth c <= depth t.
Proof.
  intros Hc. rewrite (depth_unfold t).
  assert (depth c <= list_max (map depth (children (shp t)))) as Hle.
  { pose proof (proj1 (list_max_le (map depth (children (shp t))) _) (le_n _)) as HF.
    rewrite Forall_forall in HF. apply HF, list_elem_of_fmap. eauto. }
  destruct (shp t); simpl in *; lia.
Qed.

Lemma good_child t c : goodb t = true -> c ∈ children (shp t) -> goodb c = true.
Proof.
  rewrite goodb_unfold. intros H Hc. bool_to_prop.
  rewrite forallb_forall in *. by apply H0, list_elem_of_In.
Qed.

(** ** Sorting and deduplication *)

Lemma ltb_le (x y : string) : String.ltb x y = true <-> ~ String.le y x.
Proof.
  unfold String.ltb, String.le, String.leb. rewrite (String.compare_antisym y x).
  by destruct (x ?= y)%string; simpl; split; intros; auto; exfalso; auto.
Qed.

Lemma ltb_total (x y : string) : x <> y -> String.ltb x y = false -> String.ltb y x = true.
Proof.
  intros Hne Hf. apply ltb_le. intros Hle. apply Hne.
  apply (anti_symm String.le); [done|].
  destruct (decide (String.le y x)) as [|Hn]; [done|]. apply ltb_le in Hn. congruence.
Qed.

Lemma insertKey_perm t l : insertKey t l ≡ₚ t :: l.
Proof.
  induction l as [|u l IH]; simpl; [done|]. destruct (String.ltb _ _); [done|].
  rewrite IH. constructor.
Qed.

Lemma sortKeys_perm l : sortKeys l ≡ₚ l.
Proof. induction l as [|t l IH]; simpl; [done|]. by rewrite insertKey_perm, IH. Qed.

Lemma insertKey_sorted t l :
  keysSorted l = true -> key t ∉ map key l -> keysSorted (insertKey t l) = true.
Proof.
  induction l as [|u l IH]; [done|]. intros Hs Hn. cbn [insertKey].
  destruct (String.ltb (key t) (key u)) eqn:E.
  - cbn [keysSorted]. unfold keyLt at 1. by rewrite E.
  - cbn [map] in Hn. apply not_elem_of_cons in Hn as [Hne Hn].
    pose proof (ltb_total _ _ Hne E) as Hut.
    destruct l as [|w l]; cbn [insertKey keysSorted] in *.
    + unfold keyLt. by rewrite Hut.
    + bool_to_prop. specialize (IH H0 Hn). cbn [insertKey] in IH.
      destruct (String.ltb (key t) (key w)) eqn:E2; apply andb_true_iff; split; auto.
Qed.

Lemma sortKeys_sorted l : NoDup (map key l) -> keysSorted (sortKeys l) = true.
Proof.
  induction l as [|t l IH]; simpl; [done|]. intros [Hn Hd]%NoDup_cons.
  apply insertKey_sorted; [auto|]. intros Hin. apply Hn.
  apply list_elem_of_fmap in Hin as (x & -> & Hx). rewrite sortKeys_perm in Hx.
  apply list_elem_of_fmap. eauto.
Qed.

Lemma dedupeAux_spec seen ts x :
  x ∈ dedupeAux seen ts -> x ∈ ts /\ tid x ∉ seen.
Proof.
  revert seen. induction ts as [|t ts IH]; intros seen; simpl; [by intros ?%not_elem_of_nil|].
  destruct (existsb (Nat.eqb (tid t)) seen) eqn:E.
  - intros [? ?]%IH. split; [by right|done].
  - intros [->|[Hx Hs]%IH]%elem_of_cons.
    + split; [by left|]. intros Hin. apply not_true_iff_false in E. apply E.
      apply existsb_exists. exists (tid t). split; [by apply list_elem_of_In|apply Nat.eqb_refl].
    + apply not_elem_of_cons in Hs as [_ Hs]. split; [by right|done].
Qed.

Lemma dedupeAux_nodup seen ts : NoDup (dedupeAux seen ts).
Proof.
  revert seen. induction ts as [|t ts IH]; intros seen; simpl; [constructor|].
  destruct (existsb _ _); [done|]. constructor; [|done].
  intros [_ Hs]%dedupeAux_spec. by apply not_elem_of_cons in Hs as [? _].
Qed.

Lemma dedupeAux_complete s seen ts x :
  Forall (interned s) ts -> x ∈ ts -> tid x ∉ seen -> x ∈ dedupeAux seen ts.
Proof.
  intros Hi. revert seen. induction Hi as [|t ts Ht Hts IH]; intros seen Hx Hn;
    [by apply not_elem_of_nil in Hx|]. simpl.
  destruct (existsb (Nat.eqb (tid t)) seen) eqn:E.
  - apply elem_of_cons in Hx as [->|Hx]; [|auto].
    apply existsb_exists in E as (y & Hy%list_elem_of_In & Heq%Nat.eqb_eq).
    by rewrite Heq in Hn.
  - destruct (decide (tid x = tid t)) as [Heq|Hne].
    + assert (x = t) as ->; [|by left].
      assert (interned s x) as Hxi
        by (rewrite Forall_forall in Hts; apply elem_of_cons in Hx as [->|?]; auto).
      unfold interned in *. rewrite Heq in Hxi. congruence.
    + apply elem_of_cons in Hx as [->|Hx]; [done|]. right. apply IH; [done|].
      by apply not_elem_of_cons.
Qed.

Lemma dedupe_elem s ts x : Forall (interned s) ts -> x ∈ dedupe ts <-> x ∈ ts.
Proof.
  intros Hi. split; [by intros [? _]%dedupeAux_spec|].
  intros Hx. eapply dedupeAux_complete; eauto. apply not_elem_of_nil.
Qed.

(** A member survives exactly when no other member is above it. *)
Lemma elem_of_indexed {A} (l : list A) i x :
  (i, x) ∈ combine (seq 0 (length l)) l <-> l !! i = Some x.
Proof.
  rewrite list_elem_of_lookup. split.
  - intros [j Hj]. apply lookup_zip_with_Some in Hj as (a & b & [= -> ->] & Ha & Hb).
    apply lookup_seq in Ha as [-> _]. done.
  - intros Hx. exists i. apply lookup_zip_with_Some. exists i, x. split_and!; [done| |done].
    apply lookup_seq. split; [done|]. by apply lookup_lt_Some in Hx.
Qed.

Lemma undominated_elem l x : NoDup l ->
  x ∈ undominated l <-> x ∈ l /\ forall o, o ∈ l -> o <> x -> isSubtype x o = false.
Proof.
  intros Hd. unfold undominated. rewrite list_elem_of_fmap. split.
  - intros ([i y] & -> & Hin). apply list_elem_of_In, filter_In in Hin as [Hin Hf].
    apply list_elem_of_In, elem_of_indexed in Hin. simpl in *.
    split; [by eapply list_elem_of_lookup_2|]. intros o [j Ho]%list_elem_of_lookup Hne.
    apply negb_true_iff, not_true_iff_false in Hf. apply not_true_iff_false. intros Hs.
    apply Hf, existsb_exists. exists (j, o). split; [by apply list_elem_of_In, elem_of_indexed|].
    simpl. rewrite Hs, andb_true_r. apply negb_true_iff, Nat.eqb_neq. intros ->. congruence.
  - intros [[i Hi]%list_elem_of_lookup Ho]. exists (i, x). split; [done|].
    apply list_elem_of_In, filter_In. split; [by apply list_elem_of_In, elem_of_indexed|].
    apply negb_true_iff, not_true_iff_false. intros ([j o] & Hin & Hj)%existsb_exists.
    apply list_elem_of_In, elem_of_indexed in Hin. simpl in *. bool_to_prop.
    rewrite (Ho o) in H0; [done|by eapply list_elem_of_lookup_2|].
    intros ->. apply H. by eapply NoDup_lookup.
Qed.

Lemma combine_snd_sublist (f : nat * ty -> bool) k l :
  sublist (map snd (List.filter f (combine (seq k (length l)) l))) l.
Proof.
  revert k. induction l as [|x l IH]; intros k; simpl; [constructor|].
  destruct (f (k, x)); simpl; constructor; apply IH.
Qed.

Lemma undominated_nodup l : NoDup l -> NoDup (undominated l).
Proof. intros Hd. eapply sublist_NoDup; [exact Hd|apply combine_snd_sublist]. Qed.

(** ** Against a class hierarchy *)

Section Sound.
Context (anc : string -> gset string) `{HH : Hierarchy anc}.
Context (opaque : string -> val -> Prop) (bitsem : Kind -> Z -> val -> Prop).

Local Notation gamma := (gamma anc opaque bitsem).
Local Notation gammaShape := (gammaShape anc opaque bitsem).
Local Notation "a ⊑ b" := (le anc opaque bitsem a b) (at level 70).

(** The interner's class table tells the truth about the hierarchy: every
    linearization lists ancestors only, and the tail commonAncestor would
    register for a class not yet known is made of that class's ancestors. *)
Definition tailOk (s : Interner) (mro : list string) : Prop :=
  forall pre m rest, mro = pre ++ m :: rest -> m <> "object" -> classes s !! m = None ->
    forall x, x ∈ m :: rest -> x ∈ anc m.

Definition table_ok (s : Interner) : Prop :=
  forall n c, classes s !! n = Some c ->
    (forall x, x ∈ MRO c -> x ∈ anc n) /\ tailOk s (MRO c) /\
    Forall (fun x => nameOk x = true) (MRO c).

Lemma hasName_elem n l : hasName n l = true <-> n ∈ l.
Proof.
  unfold hasName. rewrite existsb_exists. split.
  - intros (x & Hx%list_elem_of_In & ->%String.eqb_eq). done.
  - intros Hx%list_elem_of_In. exists n. split; [done|apply String.eqb_refl].
Qed.

(** The class reference of an interned class element. *)
Lemma interned_class s t c : ok s -> interned s t -> shp t = ShClass c ->
  classes s !! cName c = Some c.
Proof.
  intros Hok Ht E. destruct (interned_buildable s t (ok_core s Hok) Ht) as [_ _ Hr].
  by rewrite E in Hr.
Qed.

Definition className (t : ty) : string :=
  match shp t with ShClass c => cName c | _ => builtinClassName (kind t) end.

Lemma kind_eqb_true a b : kind_eqb a b = true -> a = b.
Proof. unfold kind_eqb. by intros ?%bool_decide_eq_true. Qed.

(** The cases of the subtype test. *)
Lemma isSubtype_inv s a b :
  ok s -> table_ok s -> interned s a -> interned s b -> isSubtype a b = true ->
  a = b \/ kind a = KindNever \/ kind b = KindDyn \/
  (kind a = KindBool /\ kind b = KindInt) \/
  (exists c, shp a = ShClass c /\ className b ∈ anc (cName c) /\ className b <> "").
Proof.
  intros Hok Ht Ha Hb. unfold isSubtype.
  destruct (ptr_eq a b) eqn:E1; [left; by eapply ptr_eq_spec|].
  destruct (kind_eqb (kind a) KindNever) eqn:E2; [right; left; by apply kind_eqb_true|].
  destruct (kind_eqb (kind b) KindDyn) eqn:E3; [right; right; left; by apply kind_eqb_true|].
  destruct (kind_eqb (kind a) KindBool && kind_eqb (kind b) KindInt) eqn:E4.
  { apply andb_true_iff in E4 as [?%kind_eqb_true ?%kind_eqb_true]. tauto. }
  destruct (shp a) as [|ca| | | | | | |] eqn:Ea; try done. fold (className b).
  destruct (String.eqb_spec (className b) "") as [?|Hne]; [done|]. simpl.
  intros Hm%hasName_elem. right; right; right; right. exists ca. split_and!; try done.
  pose proof (interned_class s a ca Hok Ha Ea) as Hc. by apply (Ht _ _ Hc).
Qed.

Lemma gamma_shape t v : gamma t v -> gammaShape (shp t) v.
Proof. destruct t. by intros [_ ?]%gamma_split. Qed.

Lemma gamma_refl0 t v : refine t = 0%Z -> gammaShape (shp t) v -> gamma t v.
Proof. destruct t as [sh r i]. simpl. intros -> ?. by apply gamma_plain. Qed.

Lemma gamma_class c v : gammaShape (ShClass c) v <-> cName c ∈ anc (classOf v).
Proof. unfold TypeSem.gammaShape. simpl. split; [by intros []|]. split; [|done]. intros j _. by rewrite Z.bits_0. Qed.

Lemma gamma_atom a v : gammaShape (Atomic a) v <-> atomSem anc a v.
Proof. unfold TypeSem.gammaShape. simpl. split; [by intros []|]. split; [|done]. intros j _. by rewrite Z.bits_0. Qed.

(** A named element holds the values below its name. *)
Lemma gamma_className t v : className t <> "" -> className t ∈ anc (classOf v) ->
  gammaShape (shp t) v.
Proof.
  unfold className, kind. destruct (shp t) as [[]|c| | | | | | |] eqn:E; simpl; try done;
    intros; try (by apply gamma_atom); by apply gamma_class.
Qed.

Lemma isSubtype_sound s a b :
  ok s -> table_ok s -> interned s a -> interned s b -> refine b = 0%Z ->
  isSubtype a b = true -> a ⊑ b.
Proof.
  intros Hok Ht Ha Hb Hr Hs v Hv.
  destruct (isSubtype_inv s a b Hok Ht Ha Hb Hs)
    as [->|[Hk|[Hk|[[Hka Hkb]|(c & Hc & Hn & Hne)]]]]; [done|..];
    apply gamma_shape in Hv; [|apply (gamma_refl0 b v Hr)..].
  - destruct a as [[[]| | | | | | | |] ? ?]; try done. by apply gamma_atom in Hv.
  - destruct b as [[[]| | | | | | | |] ? ?]; try done. by apply gamma_atom.
  - destruct a as [[[]| | | | | | | |] ? ?]; try done.
    destruct b as [[[]| | | | | | | |] ? ?]; try done. simpl in *.
    apply gamma_atom in Hv. apply gamma_atom. simpl in *.
    eapply anc_trans; [exact Hv|]. apply anc_bool.
  - apply gamma_className; [done|]. rewrite Hc in Hv. apply gamma_class in Hv.
    by apply (anc_trans _ _ Hv).
Qed.

(** Domination is well founded: going up shrinks the set of ancestors, and
    a class named like a builtin is below it. *)
Definition rank (t : ty) : nat :=
  2 * size (anc (className t)) + match shp t with ShClass _ => 1 | _ => 0 end.

Lemma anc_lt c d : d ∈ anc c -> c <> d -> size (anc d) < size (anc c).
Proof.
  intros Hd Hne. apply subset_size. split; [by apply anc_trans|].
  intros Hs. apply Hne. apply (anc_antisym c d Hd), Hs, anc_refl.
Qed.

Lemma isSubtype_rank s a b :
  ok s -> table_ok s -> interned s a -> interned s b ->
  memberb a = true -> memberb b = true -> isSubtype a b = true -> b <> a ->
  rank b < rank a.
Proof.
  intros Hok Ht Ha Hb Hma Hmb Hs Hne. unfold memberb in *. bool_to_prop.
  destruct (isSubtype_inv s a b Hok Ht Ha Hb Hs)
    as [->|[Hk|[Hk|[[Hka Hkb]|(c & Hc & Hn & Hnn)]]]]; [done|by rewrite Hk in *..| |].
  - unfold rank, className, kind in *.
    destruct (shp a) as [[]| | | | | | | |]; try done.
    destruct (shp b) as [[]| | | | | | | |]; try done. simpl.
    pose proof (anc_lt "bool" "int" anc_bool). specialize (H3 ltac:(done)). lia.
  - assert (className a = cName c) as Ea by (unfold className; by rewrite Hc).
    destruct (decide (cName c = className b)) as [Eb|Hdiff].
    + unfold rank. rewrite Ea, Eb, Hc. destruct (shp b) as [|cb| | | | | | |] eqn:Hsb; try lia.
      exfalso. apply Hne. assert (cName cb = cName c) as Ecc
        by (rewrite Eb; unfold className; by rewrite Hsb).
      pose proof (interned_class s a c Hok Ha Hc) as R1.
      pose proof (interned_class s b cb Hok Hb Hsb) as R2. rewrite Ecc in R2.
      assert (cb = c) as -> by congruence.
      apply (interned_strip_eq s); auto using ok_core.
      destruct a as [sa ra ia], b as [sb rb ib]. simpl in *. by subst.
    + pose proof (anc_lt _ _ Hn Hdiff). unfold rank. rewrite Ea, Hc.
      destruct (shp b); lia.
Qed.

(** Every member is below one that survives. *)
Lemma undominated_covers s l m :
  ok s -> table_ok s -> Forall (interned s) l -> forallb memberb l = true -> NoDup l ->
  m ∈ l -> exists k, k ∈ undominated l /\ m ⊑ k.
Proof.
  intros Hok Ht Hi Hm Hd. rewrite Forall_forall in Hi. rewrite forallb_forall in Hm.
  remember (rank m) as n eqn:En. revert m En.
  induction (lt_wf n) as [n _ IH]; intros m En Hin.
  destruct (existsb (fun o => negb (ptr_eq o m) && isSubtype m o) l) eqn:Hex.
  - apply existsb_exists in Hex as (o & Ho & Hx). apply andb_true_iff in Hx as [Hne Hs].
    pose proof (Hm _ Ho) as Hmo. apply list_elem_of_In in Ho.
    assert (o <> m) as Hom.
    { intros ->. apply negb_true_iff, not_true_iff_false in Hne. apply Hne.
      by eapply ptr_eq_spec; eauto. }
    pose proof (isSubtype_rank s m o Hok Ht (Hi _ Hin) (Hi _ Ho)
      (Hm _ (proj1 (list_elem_of_In _ _) Hin)) Hmo Hs Hom) as Hlt.
    destruct (IH (rank o) ltac:(lia) o eq_refl Ho) as (k & Hk & Hle). exists k. split; [done|].
    etrans; [|exact Hle]. eapply isSubtype_sound; eauto.
    unfold memberb in Hmo. by bool_to_prop.
  - exists m. split; [|done]. apply undominated_elem; [done|]. split; [done|].
    intros o Ho Hne. apply not_true_iff_false. intros Hs. apply not_true_iff_false in Hex.
    apply Hex, existsb_exists. exists o. split; [by apply list_elem_of_In|].
    rewrite Hs, andb_true_r. apply negb_true_iff, not_true_iff_false. intros Hp.
    apply Hne. by eapply ptr_eq_spec; eauto.
Qed.

(** ** Steps of the interner that keep the table truthful *)

Record frame (s s' : Interner) : Prop := {
  fr_ok : ok s';
  fr_ext : extends s s';
  fr_table : table_ok s';
  fr_memo : joinMemo s' = joinMemo s;
  fr_meet : meetMemo s' = meetMemo s
}.

#[local] Instance frame_trans : Transitive frame.
Proof. intros s1 s2 s3 [] []. constructor; try done; [by etrans|congruence|congruence]. Qed.

Lemma frame_refl s : ok s -> table_ok s -> frame s s.
Proof. by constructor. Qed.

Lemma table_ok_classes s s' : classes s' = classes s -> table_ok s -> table_ok s'.
Proof.
  intros E Ht n c Hc. rewrite E in Hc. destruct (Ht n c Hc) as (? & HT & ?).
  split_and!; [done| |done]. intros pre m rest Hm Hn Hnone. rewrite E in Hnone. by eapply HT.
Qed.

(** [r] is an interned canonical upper bound of [ts], at most [d] deep. *)
Record bound (s s' : Interner) (ts : list ty) (d : nat) (r : ty) : Prop := {
  bo_frame : frame s s';
  bo_int : interned s' r;
  bo_good : goodb r = true;
  bo_plain : refine r = 0%Z;
  bo_up : Forall (fun t => t ⊑ r) ts;
  bo_depth : depth r <= d
}.

Lemma intern_bound s sh ts d :
  ok s -> table_ok s -> buildable s (tmpl sh) -> goodb (tmpl sh) = true ->
  depth (tmpl sh) <= d -> Forall (fun t => t ⊑ tmpl sh) ts ->
  exists r s', intern (tmpl sh) s = Some (r, s') /\ bound s s' ts d r /\ strip r = strip (tmpl sh).
Proof.
  intros Hok Ht Hb Hg Hdp Hup. destruct (intern_spec s _ Hok Hb) as (r & s' & E & [] & Hc).
  exists r, s'. split_and!; [done| |done]. constructor.
  - constructor; eauto using table_ok_classes.
  - done.
  - by rewrite (strip_good r _ bt_strip).
  - by rewrite (strip_refine r _ bt_strip).
  - eapply Forall_impl; [exact Hup|]. intros t Hle. etrans; [exact Hle|]. by apply strip_le.
  - by rewrite (strip_depth r _ bt_strip).
Qed.

Lemma base_bound s a ts d :
  ok s -> table_ok s -> 1 <= d -> Forall (fun t => t ⊑ tmpl (Atomic a)) ts ->
  bound s s ts d (base s a).
Proof.
  intros Hok Ht Hd Hup. destruct (ok_base s a Hok) as (? & E & R).
  assert (strip (tmpl (Atomic a)) = strip (base s a)) as Hs.
  { destruct (base s a) as [sh r i]. simpl in *. by subst. }
  constructor; [by apply frame_refl|done|by rewrite <- (strip_good _ _ Hs)|done| |].
  - eapply Forall_impl; [exact Hup|]. intros t Hle. etrans; [exact Hle|]. by apply strip_le.
  - by rewrite <- (strip_depth _ _ Hs).
Qed.

Lemma dyn_top t : t ⊑ tmpl (Atomic ADyn).
Proof. intros v _. by apply gamma_plain, gamma_atom. Qed.

Lemma dynM_bound s ts d : ok s -> table_ok s -> 1 <= d ->
  exists r s', dynM s = Some (r, s') /\ bound s s' ts d r.
Proof.
  intros. exists (base s ADyn), s. split; [done|]. apply base_bound; auto.
  apply Forall_forall. intros; apply dyn_top.
Qed.

(** ** Classes *)

Lemma Class_bound s n c pre name rest ts :
  ok s -> table_ok s -> classes s !! n = Some c -> MRO c = pre ++ name :: rest ->
  name <> "object" ->
  (forall t v, t ∈ ts -> gamma t v -> name ∈ anc (classOf v)) ->
  exists r s', Class name (name :: rest) s = Some (r, s') /\ bound s s' ts 1 r /\
    exists cr, shp r = ShClass cr.
Proof.
  intros Hok Ht Hc Em Hno Hts. destruct (Ht _ _ Hc) as (_ & Htail & Hnames).
  assert (nameOk name = true) as Hname.
  { rewrite Em in Hnames. by apply Forall_app in Hnames as [_ [? _]%Forall_cons]. }
  destruct (classRef_spec s name (name :: rest) Hok Hname)
    as (ref & s1 & E & Hok1 & He1 & Hreg & Hcn & Hoth & Hnew & Hold & Hj & Hmm & _).
  assert (table_ok s1) as Ht1.
  { destruct (classes s !! name) as [c0|] eqn:Ec; [by rewrite (Hold c0 eq_refl)|].
    assert (forall mro, tailOk s mro -> tailOk s1 mro) as Hmono.
    { intros mro HT p m q Hm Hmo Hnone. apply (HT p m q Hm Hmo).
      destruct (decide (m = name)) as [->|Hne]; [congruence|by rewrite <- Hoth]. }
    intros m d Hd. destruct (decide (m = name)) as [->|Hne].
    - assert (d = ref) as -> by congruence. rewrite (Hnew eq_refl). split_and!.
      + by apply (Htail _ _ _ Em Hno Ec).
      + apply Hmono. intros p m q Hm. apply (Htail (pre ++ p) m q).
        by rewrite Em, Hm, <- app_assoc.
      + rewrite Em in Hnames. by apply Forall_app in Hnames as [_ ?].
    - rewrite Hoth in Hd by done. destruct (Ht _ _ Hd) as (? & ? & ?). split_and!; auto. }
  destruct (intern_bound s1 (ShClass ref) ts 1) as (r & s' & E2 & HB & Hs); auto.
  { apply buildable_children; [by cbn; rewrite Hcn|done|constructor|by cbn; rewrite Hcn]. }
  { apply Forall_forall. intros t Hin v Hv. apply gamma_plain, gamma_class. rewrite Hcn. eauto. }
  exists r, s'. split; [unfold Class, bind; by rewrite E|]. split.
  - destruct HB as [Hf]. constructor; try done. transitivity s1; [|done]. by constructor.
  - destruct r as [[] ? ?]; simpl in Hs; simplify_eq; eauto.
Qed.

Lemma sharedTail_spec inB mro name tl :
  sharedTail inB mro = Some (name, tl) ->
  exists pre rest, mro = pre ++ name :: rest /\ tl = name :: rest /\
    name <> "object" /\ name ∈ inB.
Proof.
  induction mro as [|x mro IH]; simpl; [done|].
  destruct (String.eqb_spec x "object") as [->|Hne].
  { intros (pre & rest & -> & ? & ? & ?)%IH. by exists ("object" :: pre), rest. }
  destruct (hasName x inB) eqn:E.
  - intros [= <- <-]. exists [], mro. apply hasName_elem in E. done.
  - intros (pre & rest & -> & ? & ? & ?)%IH. by exists (x :: pre), rest.
Qed.

Lemma commonAncestor_bound s a b ca cb ts :
  ok s -> table_ok s -> interned s a -> interned s b ->
  shp a = ShClass ca -> shp b = ShClass cb -> Forall (fun t => t ⊑ a \/ t ⊑ b) ts ->
  exists r s', commonAncestor ca cb s = Some (r, s') /\ bound s s' ts 1 r.
Proof.
  intros Hok Ht Ha Hb Ea Eb Hts. unfold commonAncestor.
  pose proof (interned_class s a ca Hok Ha Ea) as Ra.
  pose proof (interned_class s b cb Hok Hb Eb) as Rb.
  destruct (sharedTail (MRO cb) (MRO ca)) as [[name tl]|] eqn:E; [|by apply dynM_bound].
  apply sharedTail_spec in E as (pre & rest & Em & -> & Hno & Hin).
  destruct (Class_bound s _ ca pre name rest ts Hok Ht Ra Em Hno) as (r & s' & E' & HB & _);
    [|eauto].
  intros t v Hti Hv. rewrite Forall_forall in Hts. destruct (Hts t Hti) as [Hle|Hle];
    apply Hle, gamma_shape in Hv; [rewrite Ea in Hv|rewrite Eb in Hv]; apply gamma_class in Hv.
  - apply (anc_trans _ _ Hv), (proj1 (Ht _ _ Ra)). rewrite Em. set_solver.
  - by apply (anc_trans _ _ Hv), (proj1 (Ht _ _ Rb)).
Qed.

(** ** Unions *)

Lemma bound_refl s t ts d :
  ok s -> table_ok s -> interned s t -> goodb t = true -> refine t = 0%Z -> depth t <= d ->
  Forall (fun u => u ⊑ t) ts -> bound s s ts d t.
Proof. intros. constructor; auto. by apply frame_refl. Qed.

Lemma bound_weaken s s1 s' ts us d d' r :
  frame s s1 -> bound s1 s' us d' r -> d' <= d ->
  Forall (fun t => forall v, gamma t v -> exists u, u ∈ us /\ gamma u v) ts ->
  bound s s' ts d r.
Proof.
  intros Hf [] Hd Hc. constructor; try done; [by etrans| |lia].
  eapply Forall_impl; [exact Hc|]. intros t Ht v Hv. destruct (Ht v Hv) as (u & Hu & Huv).
  rewrite Forall_forall in bo_up0. by apply (bo_up0 u).
Qed.

Lemma widenFrom_bound ms : forall s acc ts,
  ok s -> table_ok s -> interned s acc -> Forall (interned s) ms ->
  goodb acc = true -> refine acc = 0%Z ->
  Forall (fun t => forall v, gamma t v -> exists u, u ∈ acc :: ms /\ gamma u v) ts ->
  exists r s', widenFrom acc ms s = Some (r, s') /\ bound s s' ts (depth acc) r.
Proof.
  induction ms as [|m ms IH]; intros s acc ts Hok Ht Ha Hms Hg Hr Hts; simpl.
  - exists acc, s. split; [done|]. eapply bound_weaken; [by apply frame_refl| |reflexivity|exact Hts].
    apply bound_refl; auto. by constructor; [reflexivity|].
  - apply Forall_cons in Hms as [Hm Hms]. pose proof (depth_pos acc Hg) as Hdp.
    destruct (shp acc) as [|ca| | | | | | |] eqn:Ea; try (by apply dynM_bound).
    destruct (shp m) as [|cm| | | | | | |] eqn:Em; try (by apply dynM_bound).
    destruct (commonAncestor_bound s acc m ca cm [acc; m] Hok Ht Ha Hm Ea Em)
      as (acc' & s1 & E & HB).
    { apply Forall_cons_2; [by left|apply Forall_cons_2; [by right|apply Forall_nil_2]]. }
    pose proof HB as [[Hok1 He1 Ht1 Hj1 Hmt1] Hi1 Hg1 Hr1 Hu1 Hd1].
    unfold bind. rewrite E. case_match.
    + destruct (dynM_bound s1 ts (depth acc) Hok1 Ht1 Hdp) as (r & s' & -> & HB2).
      exists r, s'. split; [done|]. destruct HB2. constructor; try done.
      transitivity s1; [|done]. by constructor.
    + destruct (IH s1 acc' ts) as (r & s' & E2 & HB2); eauto with intern.
      * eapply Forall_impl; [exact Hts|]. intros t Htv v Hv. destruct (Htv v Hv) as (u & Hu & Huv).
        apply Forall_cons in Hu1 as [Ha1 [Hm1 _]%Forall_cons].
        apply elem_of_cons in Hu as [->|[->|Hu]%elem_of_cons].
        -- exists acc'. split; [by left|auto].
        -- exists acc'. split; [by left|auto].
        -- exists u. split; [by right|done].
      * exists r, s'. split; [done|]. destruct HB2. constructor; try done; [|lia].
        transitivity s1; [|done]. by constructor.
Qed.

Lemma list_max_elem x l : x ∈ l -> x <= list_max l.
Proof.
  intros Hx. pose proof (proj1 (list_max_le l _) (le_n _)) as HF.
  rewrite Forall_forall in HF. auto.
Qed.

Definition dmax (ms : list ty) : nat := list_max (map depth ms).

Lemma dmax_elem m ms : m ∈ ms -> depth m <= dmax ms.
Proof. intros. apply list_max_elem, list_elem_of_fmap. eauto. Qed.

(** The arms a union is built from: interned, canonical and plain. *)
Definition arm (s : Interner) (t : ty) : Prop :=
  interned s t /\ goodb t = true /\ refine t = 0%Z.

Lemma good_union t es : goodb t = true -> shp t = ShUnion es ->
  2 <= length es <= unionBudget /\ forallb memberb es = true /\ keysSorted es = true.
Proof.
  rewrite goodb_unfold. intros Hg E. rewrite E in Hg. cbn [localGood] in Hg.
  bool_to_prop. split_and!; done.
Qed.

Lemma memberb_refine t : memberb t = true -> refine t = 0%Z.
Proof. unfold memberb. intros. by bool_to_prop. Qed.

(** The members a plain arm contributes, each an arm itself. *)
Definition contributes (m : ty) : list ty :=
  match shp m with
  | Atomic ADyn | Atomic ANever => []
  | ShUnion es => es
  | _ => [m]
  end.

Lemma flatten_contributes ms flat : flatten ms = Some flat -> flat = concat (map contributes ms).
Proof.
  revert flat. induction ms as [|m ms IH]; intros flat; simpl; [by intros [= <-]|].
  unfold contributes at 1. destruct (shp m) as [[]| | | | | | | |];
    try (destruct (flatten ms) as [fl|]; simpl; intros [= <-]; by rewrite (IH fl eq_refl)).
Qed.

Lemma flatten_none ms : flatten ms = None -> exists m, m ∈ ms /\ kind m = KindDyn.
Proof.
  induction ms as [|m ms IH]; simpl; [done|]. intros E.
  assert (kind m = KindDyn \/ flatten ms = None) as [Hk|Hn].
  { unfold kind. destruct (shp m) as [[]| | | | | | | |]; simpl in *; auto;
      destruct (flatten ms); simpl in *; auto; discriminate. }
  - exists m. split; [by left|done].
  - destruct (IH Hn) as (x & ? & ?). exists x. split; [by right|done].
Qed.

Lemma contributes_arm s m f : ok s -> arm s m -> f ∈ contributes m ->
  arm s f /\ memberb f = true /\ depth f <= depth m.
Proof.
  intros Hok (Hi & Hg & Hr) Hf. unfold contributes in Hf.
  destruct (shp m) as [[]| | | | | | |es|] eqn:E;
    try (by apply not_elem_of_nil in Hf);
    try (apply list_elem_of_singleton in Hf as ->; split_and!; try done;
         unfold memberb, kind; by rewrite Hr, E).
  destruct (good_union m es Hg E) as (_ & Hm & _). rewrite forallb_forall in Hm.
  pose proof (Hm f (proj1 (list_elem_of_In _ _) Hf)) as Hmf.
  assert (f ∈ children (shp m)) as Hc by (by rewrite E).
  destruct (ok_id s (ok_core s Hok) _ _ Hi) as (_ & _ & _ & Hch & _).
  rewrite Forall_forall in Hch.
  split_and!; eauto using memberb_refine, good_child, depth_union_child.
  split_and!; eauto using memberb_refine, good_child.
Qed.

Lemma contributes_covers m v : kind m <> KindDyn -> gamma m v ->
  exists f, f ∈ contributes m /\ gamma f v.
Proof.
  intros Hk Hv. unfold contributes, kind in *.
  destruct (shp m) as [[]| | | | | | |es|] eqn:E; simpl in *;
    try (exists m; split; [by left|done]); try done.
  - apply gamma_shape in Hv. rewrite E in Hv. by apply gamma_atom in Hv.
  - apply gamma_shape in Hv. rewrite E in Hv. by apply gamma_union in Hv.
Qed.

Lemma flat_arms s ms flat :
  ok s -> Forall (arm s) ms -> flatten ms = Some flat ->
  Forall (fun f => arm s f /\ memberb f = true /\ depth f <= dmax ms) flat.
Proof.
  intros Hok Hms ->%flatten_contributes. rewrite Forall_forall in *.
  intros f Hf. apply list_elem_of_In, in_concat in Hf as (l & Hl & Hf).
  apply in_map_iff in Hl as (m & <- & Hm). apply list_elem_of_In in Hm, Hf.
  destruct (contributes_arm s m f Hok (Hms m Hm) Hf) as (? & ? & ?).
  pose proof (dmax_elem m ms Hm). split_and!; [done..|lia].
Qed.

Lemma flat_covers ms flat m v : flatten ms = Some flat -> m ∈ ms -> gamma m v ->
  exists f, f ∈ flat /\ gamma f v.
Proof.
  intros E Hm Hv. destruct (decide (kind m = KindDyn)) as [Hk|Hk].
  - exfalso. revert flat E. induction ms as [|x ms IH]; [by apply not_elem_of_nil in Hm|].
    apply elem_of_cons in Hm as [<-|Hm]; intros flat; simpl.
    + unfold kind in Hk. by destruct (shp m) as [[]| | | | | | | |].
    + specialize (IH Hm). destruct (shp x) as [[]| | | | | | | |];
        try (destruct (flatten ms) as [fl|]; [by destruct (IH fl)|done]); done.
  - destruct (contributes_covers m v Hk Hv) as (f & Hf & Hfv). exists f. split; [|done].
    rewrite (flatten_contributes _ _ E). apply list_elem_of_In, in_concat.
    exists (contributes m). split; [apply in_map|]; by apply list_elem_of_In.
Qed.

(** What the canonicalization keeps of the flattened members. *)
Lemma kept_spec s ms flat :
  ok s -> table_ok s -> Forall (arm s) ms -> flatten ms = Some flat ->
  let kept := undominated (dedupe flat) in
  NoDup kept /\
  Forall (fun f => arm s f /\ memberb f = true /\ depth f <= dmax ms) kept /\
  (forall m v, m ∈ ms -> gamma m v -> exists k, k ∈ kept /\ gamma k v) /\
  (flat <> [] -> kept <> []).
Proof.
  intros Hok Ht Hms E kept. pose proof (flat_arms s ms flat Hok Hms E) as HF.
  assert (Forall (interned s) flat) as Hint.
  { eapply Forall_impl; [exact HF|]. by intros ? [[? _] _]. }
  pose proof (fun x => dedupe_elem s flat x Hint) as Hded.
  assert (NoDup (dedupe flat)) as Hd by apply dedupeAux_nodup.
  rewrite Forall_forall in HF.
  assert (forall x, x ∈ flat -> exists k, k ∈ kept /\ x ⊑ k) as Hcov.
  { intros x Hx. apply (undominated_covers s); [done|done| | |done|by apply Hded].
    - apply Forall_forall. intros y Hy%Hded. by destruct (HF y Hy) as [[? _] _].
    - apply forallb_forall. intros y Hy%list_elem_of_In%Hded. by apply HF. }
  split_and!.
  - by apply undominated_nodup.
  - apply Forall_forall. intros f Hf. apply undominated_elem in Hf as [Hf _]; [|done].
    by apply HF, Hded.
  - intros m v Hm Hv. destruct (flat_covers ms flat m v E Hm Hv) as (f & Hf & Hfv).
    destruct (Hcov f Hf) as (k & Hk & Hle). exists k. split; [done|by apply Hle].
  - intros Hne Hk. destruct flat as [|x flat]; [done|].
    destruct (Hcov x (list_elem_of_here _ _)) as (k & Hin & _). rewrite Hk in Hin.
    by apply not_elem_of_nil in Hin.
Qed.

Lemma union_good s l d :
  ok s -> NoDup l -> 2 <= length l <= unionBudget ->
  Forall (fun f => arm s f /\ memberb f = true /\ depth f <= d) l ->
  goodb (tmpl (ShUnion (sortKeys l))) = true /\ depth (tmpl (ShUnion (sortKeys l))) <= d /\
  buildable s (tmpl (ShUnion (sortKeys l))).
Proof.
  intros Hok Hnd Hlen HF.
  assert (Forall (fun f => arm s f /\ memberb f = true /\ depth f <= d) (sortKeys l)) as HS
    by (by rewrite sortKeys_perm).
  rewrite Forall_forall in HS.
  assert (NoDup (map key l)) as Hkeys.
  { rewrite Forall_forall in HF. clear -Hnd HF Hok. induction Hnd as [|x l Hx Hnd IH]; simpl; constructor.
    - intros (y & E & Hy)%list_elem_of_fmap. apply Hx.
      assert (x = y) as ->; [|done].
      apply (interned_key_eq s); [by apply ok_core| | |done];
        [by destruct (HF x (list_elem_of_here _ _)) as [[]]|
         by destruct (HF y (list_elem_of_further _ _ _ Hy)) as [[]]].
    - apply IH. intros y Hy. by apply HF, list_elem_of_further. }
  split_and!.
  - rewrite goodb_unfold. cbn [tmpl shp refine localGood children].
    rewrite (Permutation_length (sortKeys_perm l)), sortKeys_sorted by done.
    destruct Hlen as [H1%Nat.leb_le H2%Nat.leb_le]. rewrite H1, H2. simpl.
    apply andb_true_iff; split; [rewrite andb_true_r|]; apply forallb_forall;
      intros x Hx%list_elem_of_In; by destruct (HS x Hx) as [(? & ? & ?) [? ?]].
  - rewrite depth_unfold. cbn [tmpl shp children]. apply list_max_le, Forall_forall.
    intros n (x & -> & Hx)%list_elem_of_fmap. by destruct (HS x Hx) as (_ & _ & ?).
  - apply buildable_children; [done|done| |done]. apply Forall_forall.
    intros x Hx. by destruct (HS x Hx) as [[? _] _].
Qed.

Lemma makeUnion_bound s ms :
  ok s -> table_ok s -> Forall (arm s) ms ->
  exists r s', makeUnion ms s = Some (r, s') /\ bound s s' ms (max 1 (dmax ms)) r.
Proof.
  intros Hok Ht Hms. unfold makeUnion.
  destruct (flatten ms) as [flat|] eqn:E; [|apply dynM_bound; auto; lia].
  destruct (kept_spec s ms flat Hok Ht Hms E) as (Hnd & HF & Hcov & Hne).
  destruct flat as [|x flat].
  { exists (base s ANever), s. split; [done|]. apply base_bound; auto; [lia|].
    apply Forall_forall. intros m Hm v Hv. destruct (Hcov m v Hm Hv) as (k & Hk & _).
    by apply not_elem_of_nil in Hk. }
  specialize (Hne ltac:(done)). set (kept := undominated _) in *.
  assert (Forall (fun t => forall v, gamma t v -> exists u, u ∈ kept /\ gamma u v) ms) as Hc.
  { apply Forall_forall. intros m Hm v Hv. by apply (Hcov m v). }
  destruct kept as [|k1 [|k2 kept']] eqn:Ek; [done|..].
  - apply Forall_cons in HF as [[(Hi & Hg & Hr) [Hm Hd]] _].
    exists k1, s. split; [done|].
    eapply bound_weaken; [by apply frame_refl| |reflexivity|exact Hc].
    apply bound_refl; auto; [lia|]. by apply Forall_cons_2; [reflexivity|].
  - rewrite <- Ek in *. clearbody kept. case_match eqn:El; bool_to_prop.
    + unfold widen. rewrite Ek in *. apply Forall_cons in HF as [[(Hi & Hg & Hr) [Hm Hd]] HF].
      destruct (widenFrom_bound (k2 :: kept') s k1 ms) as (r & s' & Ew & HB); auto.
      { eapply Forall_impl; [exact HF|]. by intros ? [[? _] _]. }
      exists r, s'. split; [done|]. destruct HB. constructor; try done. lia.
    + destruct (union_good s kept (max 1 (dmax ms)) Hok Hnd) as (Hg & Hd & Hb).
      { rewrite Ek in *. simpl in *. lia. }
      { eapply Forall_impl; [exact HF|]. intros f (? & ? & ?). split_and!; auto; lia. }
      destruct (intern_bound s (ShUnion (sortKeys kept)) ms (max 1 (dmax ms)) Hok Ht Hb Hg Hd)
        as (r & s' & Er & HB & _); [|eauto].
      eapply Forall_impl; [exact Hc|]. intros t Htv v Hv. destruct (Htv v Hv) as (u & Hu & Huv).
      apply gamma_plain, gamma_union. exists u. by rewrite sortKeys_perm.
Qed.

(** ** Refinement bits *)

Lemma table_built s s' t r : table_ok s -> built s s' t r -> classes s' = classes s -> frame s s'.
Proof. intros Ht [] Hc. constructor; eauto using table_ok_classes. Qed.

Lemma built_refl s t u : ok s -> interned s t -> strip t = strip u -> built s s u t.
Proof. by constructor. Qed.

Lemma refine_all r : (0 <= r < 16)%Z ->
  ((Z.land r allRefine =? 0)%Z = true -> r = 0%Z) /\ Z.ldiff r allRefine = 0%Z.
Proof.
  intros Hr%refine_cases. simpl in Hr.
  repeat destruct Hr as [<-|Hr]; try done; split; (done || reflexivity).
Qed.

Lemma stripRefine_spec s t :
  ok s -> table_ok s -> interned s t ->
  exists r s', stripRefine t s = Some (r, s') /\ frame s s' /\ interned s' r /\
    strip r = strip (mkType (shp t) 0 0).
Proof.
  intros Hok Ht Hi. pose proof (refine_range s t Hok Hi) as Hr.
  destruct (refine_all _ Hr) as [Hz Hd]. unfold stripRefine, WithoutRefine.
  case_match eqn:E.
  - exists t, s. split_and!; [done|by apply frame_refl|done|].
    specialize (Hz eq_refl). destruct t as [sh r i]. simpl in *. by subst.
  - rewrite Hd. destruct (reintern_spec s t 0 Hok Hi eq_refl) as (u & s' & Eu & Hb & Hc).
    exists u, s'. split; [done|]. split; [by eapply table_built|]. by destruct Hb.
Qed.

Lemma WithRefine_spec s t r :
  ok s -> table_ok s -> interned s t -> refine t = 0%Z -> (0 <= r < 16)%Z -> r <> 0%Z ->
  exists u s', WithRefine t r s = Some (u, s') /\ frame s s' /\ interned s' u /\
    strip u = strip (mkType (shp t) r 0).
Proof.
  intros Hok Ht Hi H0 Hr Hn. unfold WithRefine. rewrite H0, Z.land_0_l, Z.lor_0_l.
  destruct (Z.eqb_spec 0 r) as [E|_]; [congruence|].
  destruct (reintern_spec s t r Hok Hi) as (u & s' & Eu & Hb & Hc).
  { unfold refine_ok. apply andb_true_iff. split; [apply Z.leb_le|apply Z.ltb_lt]; lia. }
  exists u, s'. split; [done|]. split; [by eapply table_built|]. by destruct Hb.
Qed.

(** ** The memo table *)

(** [r] is a canonical upper bound of the pair, no deeper than it. *)
Record joined (s : Interner) (a b r : ty) : Prop := {
  jo_int : interned s r;
  jo_good : goodb r = true;
  jo_left : a ⊑ r;
  jo_right : b ⊑ r;
  jo_depth : depth r <= max (depth a) (depth b);
  jo_plain : refine a = 0%Z -> refine b = 0%Z -> refine r = 0%Z
}.

Definition operand (s : Interner) (t : ty) : Prop := interned s t /\ goodb t = true.

Definition memo_ok (s : Interner) : Prop :=
  forall k r, joinMemo s !! k = Some r ->
    exists a b, k = memoKey (tid a) (tid b) /\ operand s a /\ operand s b /\ joined s a b r.

Record inv (s : Interner) : Prop := {
  inv_ok : ok s;
  inv_table : table_ok s;
  inv_memo : memo_ok s
}.

Lemma joined_mono s s' a b r : extends s s' -> joined s a b r -> joined s' a b r.
Proof. intros He []. constructor; eauto with intern. Qed.

Lemma operand_mono s s' t : extends s s' -> operand s t -> operand s' t.
Proof. intros He []. split; eauto with intern. Qed.

Lemma joined_sym s a b r : joined s a b r -> joined s b a r.
Proof. intros []. constructor; auto; lia. Qed.

Lemma memo_ok_mono s s' : extends s s' -> joinMemo s' = joinMemo s -> memo_ok s -> memo_ok s'.
Proof.
  intros He Hj Hm k r Hk. rewrite Hj in Hk. destruct (Hm k r Hk) as (a & b & ? & ? & ? & ?).
  exists a, b. split_and!; eauto using operand_mono, joined_mono.
Qed.

Lemma frame_inv s s' : inv s -> frame s s' -> inv s' /\ extends s s'.
Proof. intros [] []. split; [constructor; eauto using memo_ok_mono|done]. Qed.

Lemma interned_tid s a b : interned s a -> interned s b -> tid a = tid b -> a = b.
Proof. unfold interned. intros Ha Hb E. rewrite E in Ha. congruence. Qed.

Lemma memo_hit s a b r :
  inv s -> interned s a -> interned s b -> joinMemo s !! memoKey (tid a) (tid b) = Some r ->
  joined s a b r.
Proof.
  intros [_ _ Hm] Ha Hb Hk. destruct (Hm _ _ Hk) as (c & d & E & [Hc _] & [Hd _] & HJ).
  apply memoKey_cases in E as [[E1 E2]|[E1 E2]].
  - by rewrite (interned_tid s a c), (interned_tid s b d).
  - apply joined_sym. by rewrite (interned_tid s a d), (interned_tid s b c).
Qed.

Lemma setJoinMemo_inv s a b r :
  inv s -> operand s a -> operand s b -> joined s a b r ->
  exists s', setJoinMemo (memoKey (tid a) (tid b)) r s = Some (tt, s') /\
    inv s' /\ extends s s' /\ joined s' a b r.
Proof.
  intros [[Hc Hb] Ht Hm] Ha Hb' HJ. eexists. split; [done|]. set (s' := mkInterner _ _ _ _ _ _).
  assert (extends s s') as He by by constructor.
  split_and!; [|done|eauto using joined_mono]. constructor.
  - split; [|by eapply base_on_mono]. destruct Hc as [H1 H2 H3]. split; [|done|done].
    intros i t Hi. destruct (H1 i t Hi) as (? & ? & ? & ? & ?). split_and!; eauto with intern.
  - by apply (table_ok_classes s).
  - intros k u Hk. simpl in Hk. apply lookup_insert_Some in Hk as [[<- <-]|[_ Hk]].
    + exists a, b. split_and!; eauto using operand_mono, joined_mono.
    + destruct (Hm k u Hk) as (c & d & ? & ? & ? & ?).
      exists c, d. split_and!; eauto using operand_mono, joined_mono.
Qed.

(** ** One unfolding of the recursion *)

(** The recursive calls are sound on operands shallower than [n]. *)
Definition joins_below (J : ty -> ty -> M ty) (n : nat) : Prop :=
  forall a b s, inv s -> operand s a -> operand s b -> max (depth a) (depth b) < n ->
    exists r s', J a b s = Some (r, s') /\ inv s' /\ extends s s' /\ joined s' a b r.

Lemma le_plain t u : refine t = 0%Z ->
  (forall v, gammaShape (shp t) v -> gammaShape u v) -> t ⊑ tmpl u.
Proof. intros _ Hs v Hv%gamma_shape. by apply gamma_plain, Hs. Qed.

Lemma gammaShape_list es v :
  gammaShape (ShList es) v <-> exists l, v = VList l /\ Forall (only (map gamma es)) l.
Proof.
  unfold TypeSem.gammaShape. simpl. split; [by intros []|]. split; [|done].
  intros j _. by rewrite Z.bits_0.
Qed.
Lemma gammaShape_set e v :
  gammaShape (ShSet e) v <-> exists l, v = VSet l /\ Forall (gamma e) l.
Proof.
  unfold TypeSem.gammaShape. simpl. split; [by intros []|]. split; [|done].
  intros j _. by rewrite Z.bits_0.
Qed.
Lemma gammaShape_dict k e v :
  gammaShape (ShDict k e) v <->
  exists l, v = VDict l /\ Forall (fun p => gamma k p.1 /\ gamma e p.2) l.
Proof.
  unfold TypeSem.gammaShape. simpl. split; [by intros []|]. split; [|done].
  intros j _. by rewrite Z.bits_0.
Qed.
Lemma gammaShape_tuple es va v :
  gammaShape (ShTuple es va) v <->
  exists l, v = VTuple l /\
    (if va then Forall (only (map gamma es)) l else Forall2 gamma es l).
Proof.
  unfold TypeSem.gammaShape. simpl. assert (bitsHold bitsem (ShTuple es va) 0 v) as Hb
    by (intros j _; by rewrite Z.bits_0).
  assert (forall l, Forall2 (fun (P : val -> Prop) x => P x) (map gamma es) l <-> Forall2 gamma es l)
    as Hl by (intros l; apply Forall2_fmap_l).
  destruct va; [|setoid_rewrite Hl]; (split; [by intros []|by split]).
Qed.

(** Closing an element-wise join: intern the new container. *)
Lemma container_joined s s1 a b sh :
  inv s1 -> extends s s1 -> shapeNames sh = true ->
  Forall (interned s1) (children sh) -> class_reg s1 sh ->
  goodb (tmpl sh) = true -> depth (tmpl sh) <= max (depth a) (depth b) ->
  a ⊑ tmpl sh -> b ⊑ tmpl sh ->
  exists r s', intern (tmpl sh) s1 = Some (r, s') /\ inv s' /\ extends s s' /\
    joined s' a b r /\ refine r = 0%Z.
Proof.
  intros Hinv He Hn Hch Hr Hg Hd Ha Hb.
  destruct (intern_bound s1 sh [a; b] (max (depth a) (depth b))) as (r & s' & E & HB & _); auto.
  { apply Hinv. } { apply Hinv. }
  { apply buildable_children; auto. apply Hinv. }
  exists r, s'. split; [done|]. destruct HB as [Hf Hi Hgr Hp Hup Hdr].
  destruct (frame_inv s1 s' Hinv Hf) as [? ?].
  apply Forall_cons in Hup as [? [? _]%Forall_cons].
  split_and!; [done|by etrans|by constructor|done].
Qed.

Lemma operand_child s t c : inv s -> operand s t -> c ∈ children (shp t) -> operand s c.
Proof.
  intros Hinv [Hi Hg] Hc. split; [|by eapply good_child].
  destruct (ok_id s (ok_core s (inv_ok s Hinv)) _ _ Hi) as (_ & _ & _ & Hch & _).
  rewrite Forall_forall in Hch. auto.
Qed.

Section Body.
Context (J : ty -> ty -> M ty) (n : nat) (HJ : joins_below J n).

Lemma joinAll_spec xs : forall s acc,
  inv s -> operand s acc -> Forall (operand s) xs -> depth acc < n -> dmax xs < n ->
  exists r s', joinAll J acc xs s = Some (r, s') /\ inv s' /\ extends s s' /\
    operand s' r /\ acc ⊑ r /\ Forall (fun x => x ⊑ r) xs /\
    depth r <= max (depth acc) (dmax xs).
Proof.
  induction xs as [|x xs IH]; intros s acc Hinv Hacc Hxs Hd Hdx; simpl.
  - exists acc, s. split_and!; try done. simpl. lia.
  - apply Forall_cons in Hxs as [Hx Hxs]. unfold dmax in Hdx |- *. simpl in Hdx |- *.
    destruct (HJ acc x s Hinv Hacc Hx) as (r1 & s1 & E1 & Hinv1 & He1 & [Hi1 Hg1 Hl1 Hr1 Hd1]);
      [lia|].
    unfold bind. rewrite E1.
    destruct (IH s1 r1) as (r & s' & E & ? & He & ? & Hle & HF & Hdr); try done.
    { eapply Forall_impl; [exact Hxs|]. eauto using operand_mono. }
    { lia. } { unfold dmax. lia. }
    exists r, s'. unfold dmax in Hdr. split_and!; try done.
    + by etrans.
    + by etrans.
    + constructor; [by etrans|done].
    + lia.
Qed.

Lemma joinPositions_spec xs : forall ys s,
  inv s -> Forall (operand s) xs -> Forall (operand s) ys -> length xs = length ys ->
  max (dmax xs) (dmax ys) < n ->
  exists rs s', joinPositions J xs ys s = Some (rs, s') /\ inv s' /\ extends s s' /\
    Forall (operand s') rs /\ Forall2 (le anc opaque bitsem) xs rs /\
    Forall2 (le anc opaque bitsem) ys rs /\ dmax rs <= max (dmax xs) (dmax ys).
Proof.
  induction xs as [|x xs IH]; intros [|y ys] s Hinv Hxs Hys Hlen Hd; simpl; try done.
  - exists [], s. split_and!; try done; constructor.
  - apply Forall_cons in Hxs as [Hx Hxs]. apply Forall_cons in Hys as [Hy Hys].
    unfold dmax in Hd |- *. simpl in Hd, Hlen |- *.
    destruct (HJ x y s Hinv Hx Hy) as (r & s1 & E1 & Hinv1 & He1 & Hj1); [lia|].
    unfold bind. rewrite E1.
    destruct (IH ys s1 Hinv1) as (rs & s' & E & ? & He & Hrs & Hx2 & Hy2 & Hdr).
    { eapply Forall_impl; [exact Hxs|]. eauto using operand_mono. }
    { eapply Forall_impl; [exact Hys|]. eauto using operand_mono. }
    { lia. } { unfold dmax. lia. }
    rewrite E. exists (r :: rs), s'. destruct Hj1 as [Hi1 Hg1 Hl1 Hr1 Hd1].
    unfold dmax in Hdr. split_and!; try done.
    + by etrans.
    + constructor; [|done]. apply (operand_mono s1); done.
    + by constructor.
    + by constructor.
    + simpl. lia.
Qed.

(** Both operands of one kind, plain and canonical. *)
Definition plainOp (s : Interner) (t : ty) : Prop := operand s t /\ refine t = 0%Z.

Definition structural (s : Interner) (a b : ty) (m : M ty) : Prop :=
  exists r s', m s = Some (r, s') /\ inv s' /\ extends s s' /\
    joined s' a b r /\ refine r = 0%Z.

Lemma child_depths s a c : operand s a -> kind a <> KindUnion -> c ∈ children (shp a) ->
  depth a <= n -> depth c < n /\ S (depth c) <= depth a.
Proof. intros [_ Hg] Hk Hc Hd. pose proof (depth_child a c Hc Hk). lia. Qed.

Lemma good_list t es : goodb t = true -> shp t = ShList es -> exists x, es = [x].
Proof.
  rewrite goodb_unfold. intros Hg E. rewrite E in Hg. cbn [localGood] in Hg. bool_to_prop.
  destruct es as [|x [|]]; try done. eauto.
Qed.

Lemma list_joined s a b x y :
  inv s -> plainOp s a -> plainOp s b -> max (depth a) (depth b) <= n ->
  shp a = ShList [x] -> shp b = ShList [y] ->
  structural s a b (e <- J x y ;; List e).
Proof.
  intros Hinv [Ha Ra] [Hb Rb] Hd Ea Eb.
  destruct (child_depths s a x Ha) as [Hx1 Hx2]; [by unfold kind; rewrite Ea|rewrite Ea; by left|lia|].
  destruct (child_depths s b y Hb) as [Hy1 Hy2]; [by unfold kind; rewrite Eb|rewrite Eb; by left|lia|].
  destruct (HJ x y s Hinv) as (e & s1 & E1 & Hinv1 & He1 & [Hi Hg Hl Hr Hde]); [| |lia|].
  { apply (operand_child s a); [done|done|rewrite Ea; by left]. }
  { apply (operand_child s b); [done|done|rewrite Eb; by left]. }
  unfold structural, bind. rewrite E1.
  apply container_joined; try done.
  - by constructor.
  - rewrite goodb_unfold. simpl. by rewrite Hg.
  - rewrite depth_unfold. simpl. lia.
  - apply le_plain; [done|]. rewrite Ea. intros v. rewrite !gammaShape_list.
    intros (l & -> & HF). exists l. split; [done|]. eapply Forall_impl; [exact HF|]. apply Hl.
  - apply le_plain; [done|]. rewrite Eb. intros v. rewrite !gammaShape_list.
    intros (l & -> & HF). exists l. split; [done|]. eapply Forall_impl; [exact HF|]. apply Hr.
Qed.

Lemma set_joined s a b x y :
  inv s -> plainOp s a -> plainOp s b -> max (depth a) (depth b) <= n ->
  shp a = ShSet x -> shp b = ShSet y ->
  structural s a b (e <- J x y ;; Set_ e).
Proof.
  intros Hinv [Ha Ra] [Hb Rb] Hd Ea Eb.
  destruct (child_depths s a x Ha) as [Hx1 Hx2]; [by unfold kind; rewrite Ea|rewrite Ea; by left|lia|].
  destruct (child_depths s b y Hb) as [Hy1 Hy2]; [by unfold kind; rewrite Eb|rewrite Eb; by left|lia|].
  destruct (HJ x y s Hinv) as (e & s1 & E1 & Hinv1 & He1 & [Hi Hg Hl Hr Hde]); [| |lia|].
  { apply (operand_child s a); [done|done|rewrite Ea; by left]. }
  { apply (operand_child s b); [done|done|rewrite Eb; by left]. }
  unfold structural, bind. rewrite E1.
  apply container_joined; try done.
  - by constructor.
  - rewrite goodb_unfold. simpl. by rewrite Hg.
  - rewrite depth_unfold. simpl. lia.
  - apply le_plain; [done|]. rewrite Ea. intros v. rewrite !gammaShape_set.
    intros (l & -> & HF). exists l. split; [done|]. eapply Forall_impl; [exact HF|]. apply Hl.
  - apply le_plain; [done|]. rewrite Eb. intros v. rewrite !gammaShape_set.
    intros (l & -> & HF). exists l. split; [done|]. eapply Forall_impl; [exact HF|]. apply Hr.
Qed.

Lemma dict_joined s a b ka va kb vb :
  inv s -> plainOp s a -> plainOp s b -> max (depth a) (depth b) <= n ->
  shp a = ShDict ka va -> shp b = ShDict kb vb ->
  structural s a b (k <- J ka kb ;; v <- J va vb ;; Dict k v).
Proof.
  intros Hinv [Ha Ra] [Hb Rb] Hd Ea Eb.
  assert (forall c, c ∈ [ka; va] -> operand s c /\ depth c < n /\ S (depth c) <= depth a) as HA.
  { intros c Hc. split; [apply (operand_child s a); [done|done|by rewrite Ea]|].
    apply (child_depths s); [done|by unfold kind; rewrite Ea|by rewrite Ea|lia]. }
  assert (forall c, c ∈ [kb; vb] -> operand s c /\ depth c < n /\ S (depth c) <= depth b) as HB.
  { intros c Hc. split; [apply (operand_child s b); [done|done|by rewrite Eb]|].
    apply (child_depths s); [done|by unfold kind; rewrite Eb|by rewrite Eb|lia]. }
  destruct (HA ka) as (Ok1 & ? & ?); [by left|]. destruct (HA va) as (Ov1 & ? & ?); [by right; left|].
  destruct (HB kb) as (Ok2 & ? & ?); [by left|]. destruct (HB vb) as (Ov2 & ? & ?); [by right; left|].
  destruct (HJ ka kb s Hinv Ok1 Ok2) as (k & s1 & E1 & Hinv1 & He1 & [Hi1 Hg1 Hl1 Hr1 Hd1]); [lia|].
  destruct (HJ va vb s1 Hinv1) as (v & s2 & E2 & Hinv2 & He2 & [Hi2 Hg2 Hl2 Hr2 Hd2]);
    [eauto using operand_mono..|lia|].
  unfold structural, bind. rewrite E1, E2.
  apply container_joined; try done.
  - by etrans.
  - constructor; [by eapply interned_mono|by constructor].
  - rewrite goodb_unfold. simpl. by rewrite Hg1, Hg2.
  - rewrite depth_unfold. simpl. lia.
  - apply le_plain; [done|]. rewrite Ea. intros w. rewrite !gammaShape_dict.
    intros (l & -> & HF). exists l. split; [done|]. eapply Forall_impl; [exact HF|].
    intros p [? ?]. split; auto.
  - apply le_plain; [done|]. rewrite Eb. intros w. rewrite !gammaShape_dict.
    intros (l & -> & HF). exists l. split; [done|]. eapply Forall_impl; [exact HF|].
    intros p [? ?]. split; auto.
Qed.

Lemma depth_tuple t es va : shp t = ShTuple es va -> depth t = S (dmax es).
Proof. intros E. rewrite depth_unfold, E. done. Qed.

Lemma good_variadic t es : goodb t = true -> shp t = ShTuple es true -> exists x, es = [x].
Proof.
  rewrite goodb_unfold. intros Hg E. rewrite E in Hg. cbn [localGood negb orb] in Hg.
  bool_to_prop. destruct es as [|x [|]]; try done. eauto.
Qed.

Lemma operands_children s t : inv s -> operand s t -> Forall (operand s) (children (shp t)).
Proof. intros Hi Ht. apply Forall_forall. intros c Hc. by apply (operand_child s t). Qed.

(** Any tuple is below the homogeneous tuple over a bound of its positions. *)
Lemma tuple_le_var t es va e :
  goodb t = true -> refine t = 0%Z -> shp t = ShTuple es va -> Forall (fun x => x ⊑ e) es ->
  t ⊑ tmpl (ShTuple [e] true).
Proof.
  intros Hg Hr E HF. apply le_plain; [done|]. rewrite E. intros v. rewrite !gammaShape_tuple.
  intros (l & -> & Hl). exists l. split; [done|]. simpl. destruct va.
  - destruct (good_variadic t es Hg E) as [x ->]. apply Forall_cons in HF as [HF _].
    eapply Forall_impl; [exact Hl|]. apply HF.
  - clear -HF Hl. induction Hl as [|x y es l Hxy _ IH]; constructor;
      apply Forall_cons in HF as [Hx HF]; [by apply Hx|auto].
Qed.

Lemma tuple_le_fixed t es rs :
  refine t = 0%Z -> shp t = ShTuple es false -> Forall2 (le anc opaque bitsem) es rs ->
  t ⊑ tmpl (ShTuple rs false).
Proof.
  intros Hr E HF. apply le_plain; [done|]. rewrite E. intros v. rewrite !gammaShape_tuple.
  intros (l & -> & Hl). exists l. split; [done|]. simpl.
  clear -HF Hl. revert rs HF. induction Hl as [|x y es l Hxy _ IH]; intros rs HF;
    inversion HF; subst; constructor; auto.
Qed.

Lemma never_operand s : inv s -> operand s (base s ANever) /\ depth (base s ANever) = 1.
Proof.
  intros Hi. destruct (ok_base s ANever (inv_ok s Hi)) as (? & E & R).
  split; [split; [done|]|]; [rewrite goodb_unfold|rewrite depth_unfold]; by rewrite E.
Qed.

Lemma tuples_arity a b ea va eb vb :
  goodb a = true -> goodb b = true -> shp a = ShTuple ea va -> shp b = ShTuple eb vb ->
  negb va && negb vb && Nat.eqb (length ea) (length eb) = false ->
  1 <= max (dmax ea) (dmax eb).
Proof.
  intros Ga Gb Ea Eb Hc.
  assert (forall t es v, goodb t = true -> shp t = ShTuple es v -> es <> [] -> 1 <= dmax es) as Hpos.
  { intros t es v Hg E Hne. destruct es as [|x es]; [done|].
    assert (goodb x = true) as Hgx by (eapply good_child; [exact Hg|rewrite E; by left]).
    pose proof (depth_pos x Hgx). pose proof (dmax_elem x (x :: es) (list_elem_of_here _ _)). lia. }
  destruct (decide (ea = [])) as [->|H1]; [|specialize (Hpos a ea va Ga Ea H1); lia].
  destruct (decide (eb = [])) as [->|H2]; [|specialize (Hpos b eb vb Gb Eb H2); lia].
  destruct va; [by destruct (good_variadic a [] Ga Ea)|].
  by destruct vb; [by destruct (good_variadic b [] Gb Eb)|].
Qed.

Lemma tuple_joined s a b ea va eb vb :
  inv s -> plainOp s a -> plainOp s b -> max (depth a) (depth b) <= n ->
  shp a = ShTuple ea va -> shp b = ShTuple eb vb ->
  structural s a b (joinTuples J ea va eb vb).
Proof.
  intros Hinv [Ha Ra] [Hb Rb] Hd Ea Eb.
  pose proof (operands_children s a Hinv Ha) as Hca. rewrite Ea in Hca. cbn [children] in Hca.
  pose proof (operands_children s b Hinv Hb) as Hcb. rewrite Eb in Hcb. cbn [children] in Hcb.
  rewrite (depth_tuple a ea va Ea), (depth_tuple b eb vb Eb) in Hd.
  unfold structural, joinTuples. case_match eqn:Hc.
  - bool_to_prop. destruct va, vb; try done.
    destruct (joinPositions_spec ea eb s Hinv Hca Hcb)
      as (rs & s1 & E1 & Hinv1 & He1 & Hrs & Hx & Hy & Hdr); [done|lia|].
    unfold bind. rewrite E1. apply container_joined; try done.
    + eapply Forall_impl; [exact Hrs|]. by intros ? [].
    + rewrite goodb_unfold. simpl. apply forallb_forall. intros r Hr%list_elem_of_In.
      rewrite Forall_forall in Hrs. by destruct (Hrs r Hr).
    + rewrite (depth_tuple a ea false Ea), (depth_tuple b eb false Eb).
      rewrite depth_unfold. simpl. fold (dmax rs). lia.
    + by apply (tuple_le_fixed a ea).
    + by apply (tuple_le_fixed b eb).
  - destruct Ha as [Hia Hga], Hb as [Hib Hgb].
    pose proof (tuples_arity a b ea va eb vb Hga Hgb Ea Eb Hc) as Hpos.
    destruct (never_operand s Hinv) as [Hnv Hdn].
    destruct (joinAll_spec ea s (base s ANever) Hinv Hnv Hca)
      as (e1 & s1 & E1 & Hinv1 & He1 & Ho1 & _ & HF1 & Hd1); [lia|lia|].
    destruct (joinAll_spec eb s1 e1 Hinv1 Ho1)
      as (e2 & s2 & E2 & Hinv2 & He2 & [Hi2 Hg2] & Hle & HF2 & Hd2).
    { eapply Forall_impl; [exact Hcb|]. eauto using operand_mono. } { lia. } { lia. }
    unfold neverM, bind, get, ret. cbn beta iota. rewrite E1, E2. apply container_joined; try done.
    + by etrans.
    + by constructor.
    + rewrite goodb_unfold. simpl. by rewrite Hg2.
    + rewrite (depth_tuple a ea va Ea), (depth_tuple b eb vb Eb), depth_unfold. simpl. lia.
    + apply (tuple_le_var a ea va); try done.
      eapply Forall_impl; [exact HF1|]. intros x Hx. etrans; [exact Hx|exact Hle].
    + by apply (tuple_le_var b eb vb).
Qed.

Lemma bound_structural s s' a b r :
  inv s -> bound s s' [a; b] (max (depth a) (depth b)) r ->
  inv s' /\ extends s s' /\ joined s' a b r /\ refine r = 0%Z.
Proof.
  intros Hinv [Hf Hi Hg Hp Hup Hd]. destruct (frame_inv s s' Hinv Hf).
  apply Forall_cons in Hup as [? [? _]%Forall_cons]. split_and!; try done.
Qed.

Lemma dyn_structural s a b : inv s -> plainOp s a -> structural s a b dynM.
Proof.
  intros Hinv [[_ Hg] _]. pose proof (depth_pos a Hg).
  destruct (dynM_bound s [a; b] (max (depth a) (depth b))) as (r & s' & E & HB);
    [apply Hinv|apply Hinv|lia|]. exists r, s'. split; [done|by apply (bound_structural s)].
Qed.

Lemma union_structural s a b :
  inv s -> plainOp s a -> plainOp s b -> structural s a b (makeUnion [a; b]).
Proof.
  intros Hinv [[Ia Ga] Ra] [[Ib Gb] Rb]. pose proof (depth_pos a Ga).
  destruct (makeUnion_bound s [a; b]) as (r & s' & E & HB); [apply Hinv|apply Hinv| |].
  { apply Forall_cons_2; [done|apply Forall_cons_2; [done|apply Forall_nil_2]]. }
  exists r, s'. split; [done|]. apply (bound_structural s); [done|].
  assert (max (depth a) (depth b) = max 1 (dmax [a; b])) as ->; [|done].
  unfold dmax. simpl. lia.
Qed.

Lemma ret_structural s a b r :
  inv s -> plainOp s r -> depth r <= max (depth a) (depth b) -> a ⊑ r -> b ⊑ r ->
  structural s a b (ret r).
Proof. intros Hinv [[Hi Hg] Hr] Hd Ha Hb. exists r, s. split_and!; try done. Qed.

Lemma structuralJoin_spec s a b :
  inv s -> plainOp s a -> plainOp s b -> max (depth a) (depth b) <= n ->
  structural s a b (structuralJoin J a b).
Proof.
  intros Hinv Ha Hb Hd. pose proof Ha as [[Ia Ga] Ra]. pose proof Hb as [[Ib Gb] Rb].
  unfold structuralJoin. destruct (ptr_eq a b) eqn:E1.
  { apply (ptr_eq_spec s) in E1 as ->; [|done|done]. apply ret_structural; try done; lia. }
  destruct (isSubtype a b) eqn:E2.
  { apply ret_structural; try done; [lia|].
    apply (isSubtype_sound s); try done; apply Hinv. }
  destruct (isSubtype b a) eqn:E3.
  { apply ret_structural; try done; [lia|].
    apply (isSubtype_sound s); try done; apply Hinv. }
  destruct (is_nominal a || is_nominal b).
  { destruct (shp a) as [|ca| | | | | | |] eqn:Ea; try (by apply dyn_structural).
    destruct (shp b) as [|cb| | | | | | |] eqn:Eb; try (by apply dyn_structural).
    destruct (commonAncestor_bound s a b ca cb [a; b]) as (r & s' & E & HB);
      try done; [apply Hinv|apply Hinv| |].
    { apply Forall_cons_2; [by left|apply Forall_cons_2; [by right|apply Forall_nil_2]]. }
    exists r, s'. split; [done|]. apply (bound_structural s); [done|].
    pose proof (depth_pos a Ga). destruct HB. constructor; try done. lia. }
  destruct (shp a) as [| |ea|ea va|ka va|x| | |] eqn:Ea; try (by apply union_structural).
  - destruct (good_list a ea Ga Ea) as [x ->].
    destruct (shp b) as [| |eb| | | | | |] eqn:Eb; try (by apply union_structural).
    destruct (good_list b eb Gb Eb) as [y ->]. by apply list_joined.
  - destruct (shp b) eqn:Eb; try (by apply union_structural). by apply tuple_joined.
  - destruct (shp b) eqn:Eb; try (by apply union_structural). by apply dict_joined.
  - destruct (shp b) eqn:Eb; try (by apply union_structural). by apply set_joined.
Qed.

(** A bit both operands carry, kept when the kind is unchanged. *)
Lemma bits_keep a b r u :
  a ⊑ r -> goodb a = true -> refine r = 0%Z -> kind r = kind a ->
  Z.land (refine a) (refine b) = refine u -> shp u = shp r -> a ⊑ u.
Proof.
  intros Hle Hg Hr Hk Hc Hs v Hv. destruct u as [sh ru iu]. cbn [shp refine] in *.
  subst sh. apply gamma_split. split; [|by apply gamma_shape, Hle].
  intros i Hi Hb. rewrite <- Hc, Z.land_spec in Hb. apply andb_true_iff in Hb as [Hba _].
  rewrite goodb_unfold in Hg. apply andb_true_iff in Hg as [Hg _].
  destruct a as [sa ra ia]. apply gamma_split in Hv as [Hbits _].
  specialize (Hbits i Hi Hba). unfold kind in Hk. simpl in *.
  destruct (shp r) as [ar| | | | | | | |], sa as [aa| | | | | | | |]; simpl in *;
    try (by destruct ar); try (by destruct aa); try done.
  - by rewrite Hk.
  - change (negb (Z.testbit ra 3) = true) in Hg.
    destruct (Z.eqb_spec i 3) as [Ei|Ei]; [|done]. rewrite Ei in Hba. by rewrite Hba in Hg.
Qed.

Lemma joinUncached_spec s a b :
  inv s -> operand s a -> operand s b -> max (depth a) (depth b) <= n ->
  exists r s', joinUncached J a b s = Some (r, s') /\ inv s' /\ extends s s' /\ joined s' a b r.
Proof.
  intros Hinv Ha Hb Hd. unfold joinUncached.
  pose proof (depth_pos a (proj2 Ha)). pose proof (depth_pos b (proj2 Hb)).
  destruct (kind_eqb (kind a) KindDyn || kind_eqb (kind b) KindDyn).
  { destruct (dynM_bound s [a; b] (max (depth a) (depth b))) as (r & s' & E & HB);
      [apply Hinv|apply Hinv|lia|]. exists r, s'. split; [done|].
    by apply (bound_structural s) in HB as (? & ? & ? & _). }
  assert (forall t u, kind t = KindNever -> t ⊑ u) as Hnev.
  { intros t u Hk v Hv%gamma_shape. unfold kind in Hk.
    destruct (shp t) as [[]| | | | | | | |]; try done. by apply gamma_atom in Hv. }
  destruct (kind_eqb (kind a) KindNever) eqn:Ka.
  { exists b, s. apply kind_eqb_true in Ka. split_and!; try done.
    destruct Hb. constructor; auto; try done. lia. }
  destruct (kind_eqb (kind b) KindNever) eqn:Kb.
  { exists a, s. apply kind_eqb_true in Kb. split_and!; try done.
    destruct Ha. constructor; auto; try done. lia. }
  destruct (stripRefine_spec s a) as (sa & s1 & E1 & F1 & I1 & S1); [apply Hinv|apply Hinv|apply Ha|].
  destruct (frame_inv s s1 Hinv F1) as [Hinv1 X1].
  destruct (stripRefine_spec s1 b) as (sb & s2 & E2 & F2 & I2 & S2);
    [apply Hinv1|apply Hinv1|eapply interned_mono; [done|apply Hb]|].
  destruct (frame_inv s1 s2 Hinv1 F2) as [Hinv2 X2].
  assert (forall t u, goodb t = true -> strip u = strip (mkType (shp t) 0 0) ->
    goodb u = true /\ refine u = 0%Z /\ depth u = depth t /\ t ⊑ u) as Hplain.
  { intros t u Hg Hs. rewrite (strip_good _ _ Hs), (strip_refine _ _ Hs), (strip_depth _ _ Hs).
    rewrite goodb_unfold in *. rewrite !depth_unfold. cbn [shp refine] in *. split_and!; try done.
    - apply andb_true_iff in Hg as [Hg ->]. rewrite andb_true_r. destruct (shp t); done.
    - etrans; [|apply strip_le; symmetry; exact Hs]. intros v Hv%gamma_shape. by apply gamma_plain. }
  destruct (Hplain a sa (proj2 Ha) S1) as (Ga & Ra & Da & La).
  destruct (Hplain b sb (proj2 Hb) S2) as (Gb & Rb & Db & Lb).
  destruct (structuralJoin_spec s2 sa sb) as (bs & s3 & E3 & Hinv3 & X3 & [Hi Hg Hl Hr Hde] & Rbs);
    [done|split; [split; eauto with intern|done]|split; [split; eauto with intern|done]|lia|].
  unfold bind. rewrite E1, E2, E3.
  assert (a ⊑ bs) as Lab by (by etrans). assert (b ⊑ bs) as Lbb by (by etrans).
  assert (extends s s3) as X by (by etrans; [|etrans]).
  case_match eqn:Hc; [|exists bs, s3; split_and!; try done; constructor; try done; lia].
  apply andb_true_iff in Hc as [[Hnz%negb_true_iff%Z.eqb_neq K1%kind_eqb_true]%andb_true_iff K2%kind_eqb_true].
  pose proof (refine_range s a (inv_ok s Hinv) (proj1 Ha)) as RA.
  pose proof (refine_range s b (inv_ok s Hinv) (proj1 Hb)) as RB.
  destruct (refine_land_lor _ _ RA RB) as (_ & Hrng & _). unfold refine_ok in Hrng. bool_to_prop.
  destruct (WithRefine_spec s3 bs (Z.land (refine a) (refine b))) as (u & s4 & E4 & F4 & I4 & S4);
    [apply Hinv3|apply Hinv3|done|done|lia|done|].
  destruct (frame_inv s3 s4 Hinv3 F4) as [Hinv4 X4].
  exists u, s4. split_and!; [done|done|by etrans|].
  set (w := mkType (shp bs) (Z.land (refine a) (refine b)) 0) in *.
  constructor; [done| | | | |intros Ha0 Hb0; rewrite Ha0 in Hnz; done].
  - rewrite (strip_good u w S4). rewrite goodb_unfold in Hg |- *. cbn [w shp refine].
    apply andb_true_iff in Hg as [Hg ->]. rewrite andb_true_r.
    destruct Ha as [_ Hga]. rewrite goodb_unfold in Hga. apply andb_true_iff in Hga as [Hga _].
    unfold kind in K1. destruct (shp bs), (shp a); cbn [localGood shapeKind] in *; try done; try (by destruct a0).
    rewrite Z.land_spec. by apply negb_true_iff in Hga as ->.
  - etrans; [|apply strip_le; symmetry; exact S4].
    apply (bits_keep a b bs w); auto; apply Ha.
  - etrans; [|apply strip_le; symmetry; exact S4].
    apply (bits_keep b a bs w); auto; [apply Hb|]. by rewrite Z.land_comm.
  - rewrite (strip_depth u w S4).
    assert (depth w = depth bs) as -> by (by rewrite !depth_unfold). lia.
Qed.
End Body.

(** ** The recursion *)

Lemma JoinF_spec fuel : joins_below (JoinF fuel) fuel.
Proof.
  induction fuel as [|fuel IH]; intros a b s Hinv Ha Hb Hd; [lia|].
  cbn [JoinF]. destruct (ptr_eq a b) eqn:E1.
  { apply (ptr_eq_spec s) in E1 as ->; [|apply Ha|apply Hb].
    exists b, s. split_and!; try done. destruct Hb. constructor; try done. lia. }
  unfold bind, get, ret. cbn beta iota.
  destruct (joinMemo s !! memoKey (tid a) (tid b)) as [r|] eqn:Em.
  { exists r, s. split_and!; try done. apply memo_hit; [done|apply Ha|apply Hb|done]. }
  destruct (joinUncached_spec (JoinF fuel) fuel IH s a b Hinv Ha Hb)
    as (r & s1 & E & Hinv1 & X1 & HJ); [lia|].
  rewrite E. destruct (setJoinMemo_inv s1 a b r Hinv1) as (s2 & Es & ? & ? & ?);
    eauto using operand_mono.
  rewrite Es. exists r, s2. split_and!; try done. by etrans.
Qed.
End Sound.

(** ** Theorems *)

(** A hierarchy for the concrete checks: bool below int, A and B below Base. *)
Definition demoAnc (c : string) : gset string :=
  if String.eqb c "bool" then {["bool"; "int"]}
  else if String.eqb c "A" then {["A"; "Base"]}
  else if String.eqb c "B" then {["B"; "Base"]}
  else {[c]}.

#[export] Instance demoAnc_hierarchy : Hierarchy demoAnc.
Proof.
  unfold demoAnc. split; intros;
    repeat match goal with
    | H : context [String.eqb ?x ?y] |- _ => destruct (String.eqb_spec x y); subst
    | |- context [String.eqb ?x ?y] => destruct (String.eqb_spec x y); subst
    end; set_solver.
Qed.

Lemma NewInterner_inv anc opaque bitsem : inv anc opaque bitsem NewInterner.
Proof.
  split; [apply NewInterner_ok| |].
  - intros n c Hc. exfalso. revert Hc. by vm_compute.
  - intros k r Hk. exfalso. revert Hk. by vm_compute.
Qed.

(** C15: [Join] is total on canonical elements and is an upper bound of them.
    Canonical elements are what the constructors build - unions within their budget,
    sorted and of members, lists of one element - and hold no class with the
    exact-type bit at any depth: narrowing by [type(x) is C] makes such classes, and
    on them [Join] is no upper bound ([JoinFacts.Join_exact_unsound]). From a state
    whose class table tells the truth about the program's classes, [Join] of two
    canonical elements returns (its fuel is always enough), keeps the state's
    invariant, the memo table's included, and returns a canonical interned element
    that holds every value of either operand, for every reading of protocols,
    callables and the refinement bits of the other elements. *)
Theorem Join_upper_bound anc `{Hierarchy anc} opaque bitsem s a b :
  inv anc opaque bitsem s -> operand s a -> operand s b ->
  exists r s', Join a b s = Some (r, s') /\ inv anc opaque bitsem s' /\ extends s s' /\
    operand s' r /\ depth r <= max (depth a) (depth b) /\
    (forall v, gamma anc opaque bitsem a v \/ gamma anc opaque bitsem b v ->
               gamma anc opaque bitsem r v).
Proof.
  intros Hinv Ha Hb. unfold Join, joinFuel.
  destruct (JoinF_spec anc opaque bitsem (S (max (depth a) (depth b))) a b s Hinv Ha Hb)
    as (r & s' & E & ? & ? & [Hi Hg Hl Hr Hd]); [lia|].
  exists r, s'. split_and!; try done. intros v [Hv|Hv]; auto.
Qed.

Lemma Join_upper_bound_witness :
  let s := NewInterner in
  exists r s', Join (base s ABool) (base s AStr) s = Some (r, s') /\
    kind r = KindUnion /\
    gamma demoAnc (fun _ _ => False) (fun _ _ _ => False) r (VObj "bool" 1).
Proof.
  destruct (Join_upper_bound demoAnc (fun _ _ => False) (fun _ _ _ => False)
    NewInterner (base NewInterner ABool) (base NewInterner AStr)) as (r & s' & E & _ & _ & _ & _ & Hg).
  - apply NewInterner_inv.
  - split; reflexivity.
  - split; reflexivity.
  - exists r, s'. split; [exact E|]. split.
    + vm_compute in E. injection E as <- _. reflexivity.
    + apply Hg. left. vm_compute (base NewInterner ABool). simpl. split.
      * intros i _ Hb. rewrite Z.bits_0 in Hb. discriminate.
      * unfold demoAnc. simpl. set_solver.
Defined.
