(* ===== verification/JoinFacts.v ===== *)
(** * JoinFacts: canonical unions, and where join.go departs from its comments

    [Union] is a function of the set of its arms; and four concrete runs of
    src/pkg/types/join.go on small interners that its comments do not
    describe: a join whose answer depends on the operand order, an exact-type
    bit that survives the join of two classes, a union of mutually dominated
    members, and an ancestor registered with a foreign linearization. *)

From stdpp Require Import sorting.
From S2P Require Import Prelude Lattice Interner Join TypeSem JoinSound.
Local Open Scope unagi_scope.

(** ** Order of the arms *)

Lemma keyLt_le a b : keyLt a b = true -> String.le (key a) (key b).
Proof.
  unfold keyLt. intros H%ltb_le. by destruct (total String.le (key a) (key b)).
Qed.

Lemma keysSorted_Sorted l : keysSorted l = true -> Sorted String.le (map key l).
Proof.
  induction l as [|a [|b l] IH]; [constructor|repeat constructor|].
  cbn [keysSorted]. intros H. apply andb_true_iff in H as [Hab Hs].
  cbn [map] in *. constructor; [by apply IH|]. constructor. by apply keyLt_le.
Qed.

Lemma NoDup_keys s l : ok s -> Forall (interned s) l -> NoDup l -> NoDup (map key l).
Proof.
  intros Hok Hi Hd. rewrite Forall_forall in Hi. induction Hd as [|x l Hx Hd IH]; simpl; constructor.
  - intros (y & E & Hy)%list_elem_of_fmap. apply Hx.
    by rewrite (interned_key_eq s x y (ok_core s Hok) (Hi x (list_elem_of_here _ _))
                  (Hi y (list_elem_of_further _ _ _ Hy)) E).
  - apply IH. intros y Hy. by apply Hi, list_elem_of_further.
Qed.

Lemma map_key_inj s l1 l2 : ok s -> Forall (interned s) l1 -> Forall (interned s) l2 ->
  map key l1 = map key l2 -> l1 = l2.
Proof.
  intros Hok H1. revert l2. induction H1 as [|x l1 Hx H1 IH]; intros [|y l2] H2; simpl; try done.
  intros [= E1 E2]. apply Forall_cons in H2 as [Hy H2].
  f_equal; [|auto]. by apply (interned_key_eq s); [apply ok_core| | |].
Qed.

(** Sorting forgets the order the members arrived in. *)
Lemma sortKeys_canonical s l1 l2 :
  ok s -> Forall (interned s) l1 -> NoDup l1 -> l1 ≡ₚ l2 -> sortKeys l1 = sortKeys l2.
Proof.
  intros Hok Hi Hd Hp.
  assert (Forall (interned s) l2) as Hi2 by (by rewrite <- Hp).
  assert (NoDup l2) as Hd2 by (by rewrite <- Hp).
  apply (map_key_inj s); [done|by rewrite sortKeys_perm|by rewrite sortKeys_perm|].
  apply (Sorted_unique String.le).
  - apply keysSorted_Sorted, sortKeys_sorted. by apply (NoDup_keys s).
  - apply keysSorted_Sorted, sortKeys_sorted. by apply (NoDup_keys s).
  - apply Permutation_map. by rewrite !sortKeys_perm.
Qed.

Definition keptOf (ms : list ty) : list ty :=
  match flatten ms with Some flat => undominated (dedupe flat) | None => [] end.

Lemma flatten_dyn ms : flatten ms = None <-> Exists (fun m => kind m = KindDyn) ms.
Proof.
  split.
  - intros (m & ? & ?)%flatten_none. apply Exists_exists. eauto.
  - induction 1 as [m ms Hk|m ms _ IH]; simpl.
    + unfold kind in Hk. by destruct (shp m) as [[]| | | | | | | |].
    + rewrite IH. by destruct (shp m) as [[]| | | | | | | |].
Qed.

Lemma flatten_perm ms1 ms2 f1 f2 :
  ms1 ≡ₚ ms2 -> flatten ms1 = Some f1 -> flatten ms2 = Some f2 -> f1 ≡ₚ f2.
Proof.
  intros Hp ->%flatten_contributes ->%flatten_contributes.
  induction Hp as [|x l1 l2 _ IH|x y l|l1 l2 l3 _ IH1 _ IH2]; simpl; [done|by rewrite IH| |by etrans].
  by rewrite !app_assoc, (Permutation_app_comm (contributes y)).
Qed.

Lemma contributes_interned s m : ok s -> interned s m -> Forall (interned s) (contributes m).
Proof.
  intros Hok Hi. destruct (ok_id s (ok_core s Hok) _ _ Hi) as (_ & _ & _ & Hc & _).
  unfold contributes. destruct (shp m) as [[]| | | | | | | |]; repeat constructor; done.
Qed.

Lemma flat_interned s ms flat : ok s -> Forall (interned s) ms -> flatten ms = Some flat ->
  Forall (interned s) flat.
Proof.
  intros Hok Hms ->%flatten_contributes. apply Forall_concat, Forall_map.
  eapply Forall_impl; [exact Hms|]. intros m. by apply contributes_interned.
Qed.

(** A union is a function of the set of its arms: within the budget,
    giving the arms in another order returns the same pointer and leaves the
    same interner. *)
Theorem Union_order_irrelevant s ms1 ms2 :
  ok s -> Forall (interned s) ms1 -> ms1 ≡ₚ ms2 -> length (keptOf ms1) <= unionBudget ->
  Union ms1 s = Union ms2 s.
Proof.
  intros Hok Hi Hp. unfold Union, makeUnion, keptOf.
  assert (Forall (interned s) ms2) as Hi2 by (by rewrite <- Hp).
  destruct (flatten ms1) as [f1|] eqn:E1.
  2:{ apply flatten_dyn in E1. rewrite Hp in E1. apply flatten_dyn in E1. by rewrite E1. }
  destruct (flatten ms2) as [f2|] eqn:E2.
  2:{ apply flatten_dyn in E2. rewrite <- Hp in E2. apply flatten_dyn in E2. congruence. }
  pose proof (flatten_perm _ _ _ _ Hp E1 E2) as Hf.
  pose proof (flat_interned s _ _ Hok Hi E1) as I1. pose proof (flat_interned s _ _ Hok Hi2 E2) as I2.
  assert (undominated (dedupe f1) ≡ₚ undominated (dedupe f2)) as Hk.
  { assert (dedupe f1 ≡ₚ dedupe f2) as Hd.
    { apply NoDup_Permutation; [apply dedupeAux_nodup..|].
      intros x. rewrite !(dedupe_elem s) by done. by rewrite Hf. }
    apply NoDup_Permutation; [apply undominated_nodup, dedupeAux_nodup..|].
    intros x. rewrite !undominated_elem by apply dedupeAux_nodup. by setoid_rewrite Hd. }
  assert (forall f, Forall (interned s) f -> Forall (interned s) (undominated (dedupe f)) /\
    NoDup (undominated (dedupe f))) as Hkept.
  { intros f Hf'. split; [|apply undominated_nodup, dedupeAux_nodup]. apply Forall_forall.
    intros x [Hx _]%undominated_elem; [|apply dedupeAux_nodup].
    apply (dedupe_elem s f x Hf') in Hx. rewrite Forall_forall in Hf'. auto. }
  destruct (Hkept f1 I1) as [K1 N1]. intros Hlen.
  pose proof (sortKeys_canonical s _ _ Hok K1 N1 Hk) as Hs. pose proof (Permutation_length Hk) as Hl.
  destruct f1 as [|x1 f1]; [by apply Permutation_nil_l in Hf as <-|].
  destruct f2 as [|x2 f2]; [by apply Permutation_nil_r in Hf|].
  revert Hk Hs Hl Hlen. generalize (undominated (dedupe (x1 :: f1))) as k1.
  generalize (undominated (dedupe (x2 :: f2))) as k2. intros k2 k1 Hk Hs Hl Hlen.
  rewrite Hs, Hl. rewrite Hl in Hlen. apply Nat.ltb_ge in Hlen. rewrite Hlen.
  destruct k1 as [|y1 [|z1 k1]], k2 as [|y2 [|z2 k2]]; try done.
  apply Permutation_singleton_inj in Hk as ->. done.
Qed.

Lemma Union_order_irrelevant_witness :
  let s := NewInterner in
  Union [base s AStr; base s ABool; base s AInt] s = Union [base s AInt; base s AStr; base s ABool] s.
Proof.
  apply (Union_order_irrelevant NewInterner).
  - apply NewInterner_ok.
  - repeat apply Forall_cons_2; try reflexivity. apply Forall_nil_2.
  - apply (Permutation_app_comm [base NewInterner AStr; base NewInterner ABool] [base NewInterner AInt]).
  - apply Nat.leb_le. vm_compute. reflexivity.
Defined.

(** ** Runs the comments do not describe *)

Definition run {A} (m : M A) : option A := fst <$> m NewInterner.

(** Join the two tuples [(list[int], list[str])] and [(int,)]. *)
Definition tupleRun (swap : bool) : M string :=
  s <- get ;;
  li <- List (base s AInt) ;; ls <- List (base s AStr) ;;
  a <- Tuple [li; ls] ;; b <- Tuple [base s AInt] ;;
  r <- (if swap then Join b a else Join a b) ;; ret (key r).

(** On a fresh interner the answer of [Join] depends on the order of its
    operands, although the doc comment calls it commutative: folding the
    positions of [(list[int], list[str])] before or after [(int,)] merges the
    two lists into one element or keeps them apart. *)
Theorem Join_order_matters :
  run (tupleRun false) = Some "K(O{D|J<O{D|G}>}...)" /\
  run (tupleRun true) = Some "K(O{D|J<D>|J<G>}...)".
Proof. split; vm_compute; reflexivity. Qed.

(** Join two exact subclasses of one base. *)
Definition exactRun : M (string * bool) :=
  a <- Class "A" ["A"; "Base"; "object"] ;; b <- Class "B" ["B"; "Base"; "object"] ;;
  ea <- WithRefine a RefineExactType ;; eb <- WithRefine b RefineExactType ;;
  r <- Join ea eb ;;
  ret (match shp r with ShClass c => cName c | _ => "" end, Has r RefineExactType).

(** The exact-type bit survives the join of two different classes: the
    exact A joined with the exact B is claimed to be exactly Base, which
    neither operand's values are. *)
Theorem Join_exact_unsound :
  run exactRun = Some ("Base", true).
Proof. vm_compute. reflexivity. Qed.

(** The union of a class and the same class with a refinement bit. *)
Definition mutualRun : M (option nat) :=
  a <- Class "A" ["A"; "object"] ;; ea <- WithRefine a RefineExactType ;;
  r <- Union [a; ea] ;; ret (match shp r with ShUnion es => Some (length es) | _ => None end).

(** Distinct interned elements can be mutual subtypes: a class and its
    exact form dominate each other, so their union keeps no member at all. *)
Theorem Union_mutual_empty : run mutualRun = Some (Some 0).
Proof. vm_compute. reflexivity. Qed.

(** Join D(B, C) with E(B) before B itself is registered; B and C are
    unrelated apart from their base A. *)
Definition ancestorRun : M (list string * bool) :=
  d <- Class "D" ["D"; "B"; "C"; "A"; "object"] ;;
  e <- Class "E" ["E"; "B"; "A"; "object"] ;;
  b <- Join d e ;;
  c <- Class "C" ["C"; "A"; "object"] ;;
  ret (match shp b with ShClass r => MRO r | _ => [] end, isSubtype b c).

(** The tail of a linearization is not the tail class's own
    linearization: joining D(B, C) with E(B) registers B with C among its
    ancestors, and B is from then on a subtype of the unrelated C. *)
Theorem commonAncestor_foreign_tail :
  run ancestorRun = Some (["B"; "C"; "A"; "object"], true).
Proof. vm_compute. reflexivity. Qed.
