(* ===== verification/Evidence.v ===== *)
(** * Evidence: proofs and claims

    Model of src/pkg/types/evidence.go.  An [*Evidence] is a tree; a nil
    support is [None], and following one is the run-time panic the source
    would have, so [IsProof] answers an [option]. *)

From S2P Require Import Prelude Lattice.
Set Warnings "-register-all".

Inductive EvidenceKind :=
  | EvLiteral | EvConstructor | EvOperator | EvNarrow | EvInterproc | EvGuard
  | EvAnnotation | EvTypeshed.

#[export] Instance EvidenceKind_eq_dec : EqDecision EvidenceKind.
Proof. solve_decision. Defined.

Definition proofKinds (k : EvidenceKind) : bool :=
  match k with
  | EvLiteral | EvConstructor | EvOperator | EvNarrow | EvInterproc | EvGuard => true
  | EvAnnotation | EvTypeshed => false
  end.

Record Span := mkSpan { spFile : string; spLine : Z; spCol : Z }.

Definition IsZero (s : Span) : bool :=
  String.eqb (spFile s) "" && (spLine s =? 0)%Z && (spCol s =? 0)%Z.

(** [Span.String]. *)
Definition SpanString (s : Span) : string :=
  if IsZero s then "<none>"
  else spFile s +:+ ":" +:+ itoa (spLine s) +:+ ":" +:+ itoa (spCol s).

Inductive Evidence := mkEvidence {
  evKind : EvidenceKind;
  evType : ty;
  evSpan : Span;
  evNote : string;
  Supports : list (option Evidence) }.

(** [IsProof]: the loop over the supports stops at the first claim. *)
Fixpoint IsProof (e : Evidence) : option bool :=
  match e with
  | mkEvidence k _ _ _ supports =>
    if negb (proofKinds k) then Some false
    else match k with
    | EvGuard => Some true
    | _ =>
      (fix all (l : list (option Evidence)) : option bool :=
         match l with
         | [] => Some true
         | None :: _ => None
         | Some s :: l =>
             match IsProof s with
             | None => None
             | Some false => Some false
             | Some true => all l
             end
         end) supports
    end
  end.

Definition IsClaim (e : Evidence) : option bool := negb <$> IsProof e.

(** Constructors. *)
Definition Literal (t : ty) (sp : Span) : Evidence := mkEvidence EvLiteral t sp "" [].
Definition FromConstructor (t : ty) (sp : Span) (note : string) : Evidence :=
  mkEvidence EvConstructor t sp note [].
Definition FromOperator (t : ty) (sp : Span) (operands : list (option Evidence)) : Evidence :=
  mkEvidence EvOperator t sp "" operands.
Definition Narrowed (t : ty) (sp : Span) (from : option Evidence) : Evidence :=
  match from with
  | None => mkEvidence EvNarrow t sp "" []
  | Some _ => mkEvidence EvNarrow t sp "" [from]
  end.
Definition Propagated (t : ty) (sp : Span) (from : list (option Evidence)) : Evidence :=
  mkEvidence EvInterproc t sp "" from.
Definition Annotated (t : ty) (sp : Span) : Evidence := mkEvidence EvAnnotation t sp "" [].
Definition FromTypeshed (t : ty) (sp : Span) (note : string) : Evidence :=
  mkEvidence EvTypeshed t sp note [].
Definition Guarded (claim : Evidence) (sp : Span) : Evidence :=
  mkEvidence EvGuard (evType claim) sp "" [Some claim].

(** ** Specification *)

(** Reachable through the supports without passing a guard. *)
Inductive rests_on : Evidence -> Evidence -> Prop :=
  | rests_here e : rests_on e e
  | rests_step e s u : evKind e <> EvGuard -> Some s ∈ Supports e -> rests_on s u -> rests_on e u.

(** No nil support anywhere in the tree. *)
Fixpoint no_nil (e : Evidence) : bool :=
  match e with
  | mkEvidence _ _ _ _ l =>
    (fix all (l : list (option Evidence)) : bool :=
       match l with
       | [] => true
       | None :: _ => false
       | Some s :: l => no_nil s && all l
       end) l
  end.

Lemma evidence_ind' (P : Evidence -> Prop) :
  (forall k t sp n l, Forall (fun o => forall s, o = Some s -> P s) l ->
     P (mkEvidence k t sp n l)) -> forall e, P e.
Proof.
  intros H. fix IH 1. intros [k t sp n l]. apply H.
  induction l as [|[s|] l IHl]; constructor; try exact IHl.
  - intros s' [= <-]. apply IH.
  - intros s' [=].
Qed.

Definition allProof : list (option Evidence) -> option bool :=
  fix all (l : list (option Evidence)) : option bool :=
    match l with
    | [] => Some true
    | None :: _ => None
    | Some s :: l =>
        match IsProof s with
        | None => None
        | Some false => Some false
        | Some true => all l
        end
    end.

Lemma IsProof_unfold e :
  IsProof e =
  if negb (proofKinds (evKind e)) then Some false
  else match evKind e with EvGuard => Some true | _ => allProof (Supports e) end.
Proof. by destruct e as [[] t sp n l]. Qed.

Definition noNilList (l : list (option Evidence)) : bool :=
  forallb (fun o => match o with Some s => no_nil s | None => false end) l.

Lemma no_nil_unfold e : no_nil e = noNilList (Supports e).
Proof.
  destruct e as [k t sp n l]. simpl. induction l as [|[s|] l IH]; simpl; [done| |done].
  by rewrite IH.
Qed.

Lemma allProof_spec l :
  Forall (fun o => forall s, o = Some s -> no_nil s = true ->
    exists b, IsProof s = Some b /\
      (b = true <-> forall u, rests_on s u -> proofKinds (evKind u) = true)) l ->
  noNilList l = true ->
  exists b, allProof l = Some b /\
    (b = true <-> forall s u, Some s ∈ l -> rests_on s u -> proofKinds (evKind u) = true).
Proof.
  unfold noNilList. induction 1 as [|o l Ho Hl IH]; simpl; intros Hn.
  - exists true. split; [done|]. split; [|done]. by intros _ s u Hs%not_elem_of_nil.
  - apply andb_true_iff in Hn as [Hs Hn]. destruct o as [s|]; [|done].
    destruct (Ho s eq_refl Hs) as (b & Eb & Hb). rewrite Eb.
    destruct (IH Hn) as (b' & Eb' & Hb'). destruct b.
    + exists b'. split; [done|]. rewrite Hb'. split.
      * intros HA s' u [[= ->]|Hin]%elem_of_cons Hr; [by apply Hb|eauto].
      * intros HA s' u Hin Hr. apply (HA s' u); [by right|done].
    + exists false. split; [done|]. split; [done|]. intros HA. apply Hb.
      intros u Hr. apply (HA s u); [by left|done].
Qed.

(** [IsProof] returns on every chain without a nil link, and answers
    true exactly when every evidence the fact rests on, up to the guards that
    upgrade a claim, is of a verified kind. *)
Theorem IsProof_spec e :
  no_nil e = true ->
  exists b, IsProof e = Some b /\
    (b = true <-> forall u, rests_on e u -> proofKinds (evKind u) = true).
Proof.
  induction e as [k t sp n l IH] using evidence_ind'. rewrite no_nil_unfold. intros Hn.
  rewrite IsProof_unfold. simpl in *. destruct (proofKinds k) eqn:Ek; simpl.
  2:{ exists false. split; [done|]. split; [done|]. intros HA.
      specialize (HA _ (rests_here _)). simpl in HA. congruence. }
  destruct (decide (k = EvGuard)) as [->|Hg].
  { exists true. split; [done|]. split; [|done]. intros _ u Hr.
    inversion Hr; subst; [done|]. by destruct (H eq_refl). }
  destruct (allProof_spec l) as (b & Eb & Hb); [eapply Forall_impl; [exact IH|]; naive_solver|done|].
  exists b. split; [by destruct k|]. rewrite Hb. split.
  - intros HA u Hr. inversion Hr; subst; [done|]. eauto.
  - intros HA s u Hs Hr. apply HA. by eapply rests_step.
Qed.

Definition sp0 : Span := mkSpan "" 0 0.
Definition anyTy : ty := mkType (Atomic AInt) 0 0.

Lemma IsProof_spec_witness :
  no_nil (Guarded (Annotated anyTy sp0) sp0) = true /\
  exists b, IsProof (Guarded (Annotated anyTy sp0) sp0) = Some b /\
    (b = true <-> forall u, rests_on (Guarded (Annotated anyTy sp0) sp0) u -> proofKinds (evKind u) = true).
Proof. split; [reflexivity|]. apply IsProof_spec. reflexivity. Defined.

(** A narrowing of an annotated place is a claim, not a proof: the test
    that ran is recorded as one more link on the annotation, whose claim
    status it inherits; only the narrowing of an unbound place, or one behind
    a guard, is a proof. *)
Theorem Narrowed_inherits_claim t sp t' sp' :
  IsProof (Narrowed t sp (Some (Annotated t' sp'))) = Some false /\
  IsProof (Narrowed t sp (Some (FromTypeshed t' sp' ""))) = Some false /\
  IsProof (Narrowed t sp (Some (Guarded (Annotated t' sp') sp))) = Some true /\
  IsProof (Narrowed t sp None) = Some true.
Proof. done. Qed.
