(* ===== verification/Annotation.v ===== *)
(** * Annotation: lowering type annotations to lattice claims

    Model of src/pkg/types/annotation.go.  The lowerer threads the interner,
    the current file and the degradations it records.  The scope, the parser
    of stringified annotations and the position of a node are parameters: the
    caller supplies the first two, and [Ast] drops positions.  A node the
    syntax model does not name ([None], [...], bytes) is an [OtherExpr] with
    its Go type.  The recursion is on fuel; [lower_total] shows that every
    annotation has enough. *)

From S2P Require Import Prelude Ast Lattice Interner Join TypeSem JoinSound Evidence.
Local Open Scope unagi_scope.

Definition aliasDepthLimit : nat := 3.

Record AnnScope := mkAnnScope {
  ResolveClass : string -> option ty;
  ResolveAlias : string -> option Expr }.

Record Degradation := mkDegradation { dSpan : Span; dReason : string }.

(** The mutable fields of a [Lowerer]. *)
Record Lowerer := mkLowerer { lIn : Interner; lFile : string; lDegradations : list Degradation }.

Definition NewLowerer (i : Interner) : Lowerer := mkLowerer i "" [].

(** ** Names *)

Fixpoint LastIndexByte (s : string) (c : Ascii.ascii) : Z :=
  match s with
  | EmptyString => -1
  | String d r =>
      let i := LastIndexByte r c in
      if (0 <=? i)%Z then i + 1 else if Ascii.eqb d c then 0 else -1
  end%Z.

Definition lastSegment (path : string) : string :=
  let i := LastIndexByte path "."%char in
  if (0 <=? i)%Z then String.substring (Z.to_nat (i + 1)) (String.length path) path else path.

(** The loop of [dottedPath]: the parts are collected leaf first, and turned
    round only where the chain ends in a name. *)
Fixpoint dottedWalk (walk : Expr) (parts : list string) : string :=
  match walk with
  | Attribute x n => dottedWalk x (parts ++ [n])
  | Name id => String.concat "." (rev (parts ++ [id]))
  | _ => String.concat "." parts
  end.

Definition dottedPath (e : Expr) : string := dottedWalk e [].

Definition nameOf (e : Expr) : string :=
  match e with
  | Name id => id
  | Attribute _ _ => dottedPath e
  | _ => ""
  end.

Definition subscriptArgs (index : Expr) : list Expr :=
  match index with TupleLit elts => elts | _ => [index] end.

Definition isEllipsis (e : Expr) : bool :=
  match e with OtherExpr n => String.eqb n "EllipsisLit" | _ => false end.

(** ** The lowerer's methods *)

Definition AM (A : Type) : Type := Lowerer -> option (A * Lowerer).

Definition areturn {A} (a : A) : AM A := fun st => Some (a, st).
Definition abind {A B} (m : AM A) (f : A -> AM B) : AM B :=
  fun st => match m st with Some (a, st') => f a st' | None => None end.

(** A call of the interner. *)
Definition within {A} (m : M A) : AM A := fun st =>
  match m (lIn st) with
  | Some (a, i) => Some (a, mkLowerer i (lFile st) (lDegradations st))
  | None => None
  end.

Notation "x <~ m ;; k" := (abind m (fun x => k))
  (at level 100, m at next level, right associativity) : unagi_scope.

(** [in.Int()] and the other singletons. *)
Definition baseM (a : atom) : M ty := s <- get ;; ret (base s a).

Section Lowering.
Context (scope : option AnnScope) (pos : Expr -> Z * Z).
Context (ParseForwardRef : option (string -> option Expr)).

Definition spanOf (file : string) (e : Expr) : Span := mkSpan file (fst (pos e)) (snd (pos e)).

(** Appending one degradation. *)
Definition note (e : Expr) (reason : string) : AM unit := fun st =>
  Some (tt, mkLowerer (lIn st) (lFile st)
              (lDegradations st ++ [mkDegradation (spanOf (lFile st) e) reason])).

Definition degrade (e : Expr) (reason : string) : AM ty :=
  _ <~ note e reason ;; within dynM.

Definition inNames (n : string) (l : list string) : bool := existsb (String.eqb n) l.

Definition builtinName (name : string) : option (M ty) :=
  let n := lastSegment name in
  if String.eqb n "int" then Some (baseM AInt)
  else if String.eqb n "float" then Some (baseM AFloat)
  else if String.eqb n "complex" then Some (baseM AComplex)
  else if String.eqb n "str" then Some (baseM AStr)
  else if String.eqb n "bytes" then Some (baseM ABytes)
  else if String.eqb n "bool" then Some (baseM ABool)
  else if inNames n ["None"; "NoneType"] then Some (baseM ANone)
  else if inNames n ["Any"; "object"] then Some dynM
  else if inNames n ["list"; "List"] then Some (d <- dynM ;; List d)
  else if inNames n ["set"; "Set"; "frozenset"; "FrozenSet"] then Some (d <- dynM ;; Set_ d)
  else if inNames n ["dict"; "Dict"] then Some (k <- dynM ;; v <- dynM ;; Dict k v)
  else if inNames n ["tuple"; "Tuple"] then Some (d <- dynM ;; TupleVar d)
  else None.

Definition classIn (name : string) : option ty :=
  match scope with Some sc => ResolveClass sc name | None => None end.

Definition aliasIn (name : string) : option Expr :=
  match scope with Some sc => ResolveAlias sc name | None => None end.

Section Worker.
Context (lower : Expr -> nat -> AM ty).

Definition lowerName (e : Expr) (name : string) (depth : nat) : AM ty :=
  match builtinName name with
  | Some t => within t
  | None =>
    match classIn name with
    | Some cls => areturn cls
    | None =>
      match aliasIn name with
      | Some alias =>
          if aliasDepthLimit <=? depth then degrade e "recursive type alias cut at depth 3"
          else lower alias (S depth)
      | None => degrade e ("unknown name in annotation: " +:+ name)
      end
    end
  end.

(** The loops that lower every argument in order. *)
Fixpoint lowerAll (args : list Expr) (depth : nat) : AM (list ty) :=
  match args with
  | [] => areturn []
  | a :: args => t <~ lower a depth ;; ts <~ lowerAll args depth ;; areturn (t :: ts)
  end.

Definition lowerArg (e : Expr) (args : list Expr) (i depth : nat) : AM ty :=
  match args !! i with
  | None => degrade e "missing type argument"
  | Some a => lower a depth
  end.

Definition lowerTuple (args : list Expr) (depth : nat) : AM ty :=
  match args with
  | [a; x] =>
      if isEllipsis x then t <~ lower a depth ;; within (TupleVar t)
      else ts <~ lowerAll args depth ;; within (Tuple ts)
  | [a] =>
      match a with
      | TupleLit _ => within (Tuple [])
      | _ => ts <~ lowerAll args depth ;; within (Tuple ts)
      end
  | _ => ts <~ lowerAll args depth ;; within (Tuple ts)
  end.

(** [ParamSpec], [Concatenate] and the like make the parameters arbitrary. *)
Definition lowerParams (e params : Expr) (depth : nat) : AM (list ty * option ty) :=
  match params with
  | ListLit elts => ts <~ lowerAll elts depth ;; areturn (ts, None)
  | _ =>
      if isEllipsis params then d <~ within dynM ;; areturn ([], Some d)
      else _ <~ note e "callable parameter shape not representable" ;;
           d <~ within dynM ;; areturn ([], Some d)
  end.

Definition lowerCallable (e : Expr) (args : list Expr) (depth : nat) : AM ty :=
  match args with
  | [params; ret] =>
      r <~ lower ret depth ;;
      p <~ lowerParams e params depth ;;
      within (Callable (mkSig (map (fun t => mkParam "" t ParamPosOnly false) (fst p)) (snd p)
                          None r false false))
  | _ => degrade e "Callable needs a parameter list and a return type"
  end.

Definition literalType (a : Expr) : AM ty :=
  match a with
  | IntLit _ => within (baseM AInt)
  | StrLit _ => within (baseM AStr)
  | BoolLit _ => within (baseM ABool)
  | OtherExpr n =>
      if String.eqb n "BytesLit" then within (baseM ABytes)
      else if String.eqb n "NoneLit" then within (baseM ANone)
      else degrade a "unsupported Literal alternative"
  | _ => degrade a "unsupported Literal alternative"
  end.

Fixpoint joinLiterals (acc : ty) (args : list Expr) : AM ty :=
  match args with
  | [] => areturn acc
  | a :: args => t <~ literalType a ;; acc' <~ within (Join acc t) ;; joinLiterals acc' args
  end.

Definition lowerLiteral (e : Expr) (args : list Expr) : AM ty :=
  never <~ within (baseM ANever) ;;
  acc <~ joinLiterals never args ;;
  if kind_eqb (kind acc) KindNever then degrade e "empty Literal" else areturn acc.

Definition lowerForwardRef (e : Expr) (val : string) (depth : nat) : AM ty :=
  match ParseForwardRef with
  | None => degrade e "forward reference not resolved"
  | Some parse =>
    match parse val with
    | None => degrade e "forward reference did not parse"
    | Some inner => lower inner depth
    end
  end.

Definition lowerSubscript (e x index : Expr) (depth : nat) : AM ty :=
  let op := lastSegment (nameOf x) in
  let args := subscriptArgs index in
  if String.eqb op "Optional" then
    match args with
    | [a] => t <~ lower a depth ;; within (Optional t)
    | _ => degrade e "Optional takes one argument"
    end
  else if String.eqb op "Union" then ts <~ lowerAll args depth ;; within (Union ts)
  else if inNames op ["list"; "List"] then t <~ lowerArg e args 0 depth ;; within (List t)
  else if inNames op ["set"; "Set"; "frozenset"; "FrozenSet"] then
    t <~ lowerArg e args 0 depth ;; within (Set_ t)
  else if inNames op ["dict"; "Dict"] then
    k <~ lowerArg e args 0 depth ;; v <~ lowerArg e args 1 depth ;; within (Dict k v)
  else if inNames op ["tuple"; "Tuple"] then lowerTuple args depth
  else if String.eqb op "Callable" then lowerCallable e args depth
  else if String.eqb op "Literal" then lowerLiteral e args
  else if String.eqb op "Annotated" then
    match args with
    | [] => degrade e "Annotated needs a base type"
    | a :: _ => lower a depth
    end
  else if inNames op ["ClassVar"; "Final"] then
    match args with
    | [a] => lower a depth
    | _ => degrade e (op +:+ " takes one argument")
    end
  else if inNames op ["Type"; "type"] then degrade e "type[...] metatype is not tracked"
  else
    match classIn (nameOf x) with
    | Some cls => _ <~ note e ("generic parameters dropped on " +:+ nameOf x) ;; areturn cls
    | None => degrade e ("unknown generic in annotation: " +:+ op)
    end.

Definition lowerBody (e : Expr) (depth : nat) : AM ty :=
  match e with
  | OtherExpr n =>
      if String.eqb n "NoneLit" then within (baseM ANone)
      else degrade e "unsupported annotation form"
  | Name id => lowerName e id depth
  | Attribute _ _ => lowerName e (dottedPath e) depth
  | Subscript x index => lowerSubscript e x index depth
  | BinOp BinBitOr l r =>
      a <~ lower l depth ;; b <~ lower r depth ;; within (Union [a; b])
  | BinOp _ _ _ => degrade e "operator is not a type expression"
  | StrLit val => lowerForwardRef e val depth
  | _ => degrade e "unsupported annotation form"
  end.
End Worker.

Fixpoint lower (fuel : nat) (e : Expr) (depth : nat) : AM ty :=
  match fuel with
  | O => fun _ => None
  | S fuel => lowerBody (lower fuel) e depth
  end.

(** The entry point: the type and its evidence, none for an absent annotation. *)
Definition Lower (fuel : nat) (expr : option Expr) (file : string) : AM (ty * option Evidence) :=
  match expr with
  | None => d <~ within dynM ;; areturn (d, None)
  | Some e => fun st =>
      (t <~ lower fuel e 0 ;; areturn (t, Some (Annotated t (spanOf file e))))
        (mkLowerer (lIn st) file (lDegradations st))
  end.
End Lowering.
