(* ===== verification/AnnotationSound.v ===== *)
(** * AnnotationSound: an annotation's claim holds every value it names

    The specification of annotation lowering: [means], what an annotation
    says about values when it is read as Python's typing documentation reads
    it, with names resolved as Python does (the program's own classes and
    aliases first, then the builtin and typing names, bare or under
    [builtins] and [typing]) and aliases and stringified annotations unfolded
    without a limit; and the proof that lowering always returns, keeps the
    interner's invariant, only adds degradations, and returns an element that
    holds every value the annotation names, where no class or alias of the
    scope takes a builtin or typing name.  Callables are not given a meaning:
    the lattice reads them through their key only. *)

From S2P Require Import Prelude Ast Lattice Interner Join TypeSem JoinSound Evidence Annotation.
Local Open Scope unagi_scope.

(** ** What the lowerer descends into *)

(** Nesting of the parts of a type expression. *)
Fixpoint height (e : Expr) : nat :=
  match e with
  | TupleLit l | ListLit l => S (list_max (map height l))
  | BinOp _ l r => S (max (height l) (height r))
  | Subscript _ i => S (height i)
  | _ => 1
  end.

(** Every string literal among the parts is shorter than [n]. *)
Fixpoint strsBelow (n : nat) (e : Expr) : bool :=
  match e with
  | StrLit v => String.length v <? n
  | TupleLit l | ListLit l => forallb (strsBelow n) l
  | BinOp _ l r => strsBelow n l && strsBelow n r
  | Subscript _ i => strsBelow n i
  | _ => true
  end.

Lemma strsBelow_mono n m e : n <= m -> strsBelow n e = true -> strsBelow m e = true.
Proof.
  intros Hnm. induction e as [| | |v| |l IH|l IH|op l r IHl IHr| | | | | |x i _ IHi| | |] using Expr_ind';
    simpl; auto.
  - rewrite !Nat.ltb_lt. lia.
  - rewrite !forallb_forall, Forall_forall in *. intros H x Hx.
    apply IH; [by apply list_elem_of_In|auto].
  - rewrite !forallb_forall, Forall_forall in *. intros H x Hx.
    apply IH; [by apply list_elem_of_In|auto].
  - rewrite !andb_true_iff. naive_solver.
Qed.

Lemma strsBelow_all n l : Forall (fun e => exists k, strsBelow k e = true) l ->
  exists m, forallb (strsBelow (max n m)) l = true.
Proof.
  induction 1 as [|e l [k Hk] _ [m IH]]; [by exists 0|]. exists (max k m). simpl.
  apply andb_true_iff. split; [eapply strsBelow_mono; [|exact Hk]; lia|].
  rewrite forallb_forall in *. intros x Hx. eapply strsBelow_mono; [|by apply IH]. lia.
Qed.

Lemma strsBelow_some e : exists m, strsBelow m e = true.
Proof.
  induction e as [| | |v| |l IH|l IH|op l r [k Hk] [m Hm]| | | | | |x i _ IHi| | |] using Expr_ind';
    simpl; try (by exists 0); try done.
  - exists (S (String.length v)). apply Nat.ltb_lt. lia.
  - destruct (strsBelow_all 0 l IH) as [m Hm]. by exists m.
  - destruct (strsBelow_all 0 l IH) as [m Hm]. by exists m.
  - exists (max k m). apply andb_true_iff. split; eapply strsBelow_mono; [|done| |done]; lia.
Qed.

(** [b] is a proper part of [e]: lower, with no longer strings. *)
Definition part (b e : Expr) : Prop :=
  height b < height e /\ forall n, strsBelow n e = true -> strsBelow n b = true.

Lemma part_list l x e : (e = TupleLit l \/ e = ListLit l) -> x ∈ l -> part x e.
Proof.
  intros He Hx. split.
  - assert (height x <= list_max (map height l)).
    { pose proof (proj1 (list_max_le (map height l) _) (le_n _)) as HF.
      rewrite Forall_forall in HF. apply HF, list_elem_of_fmap. eauto. }
    destruct He as [-> | ->]; simpl; lia.
  - intros n Hn. assert (forallb (strsBelow n) l = true) as HF by (by destruct He as [-> | ->]).
    rewrite forallb_forall in HF. by apply HF, list_elem_of_In.
Qed.

Lemma part_trans a b c : part a b -> part b c -> part a c.
Proof. intros [? ?] [? ?]. split; [lia|auto]. Qed.

Lemma part_args x i a : a ∈ subscriptArgs i -> part a (Subscript x i).
Proof.
  assert (part i (Subscript x i)) as Hi by (split; [simpl; lia|done]).
  destruct i; simpl; try (by intros ->%list_elem_of_singleton).
  intros Ha. eapply part_trans; [|exact Hi]. eapply part_list; eauto.
Qed.

Lemma part_bin op l r : part l (BinOp op l r) /\ part r (BinOp op l r).
Proof. split; (split; [simpl; lia|]); intros n [? ?]%andb_true_iff; done. Qed.

(** ** What an annotation says *)

Section Meaning.
Context (anc : string -> gset string) `{HH : Hierarchy anc}.
Context (opaque : string -> val -> Prop) (bitsem : Kind -> Z -> val -> Prop).
Context (scope : option AnnScope) (pos : Expr -> Z * Z) (Parse : option (string -> option Expr)).

Notation gamma := (gamma anc opaque bitsem).
Notation inv := (inv anc opaque bitsem).
Notation lower := (lower scope pos Parse).

(** The dotted path of a chain of attributes of a name, in source order. *)
Fixpoint pathOf (e : Expr) : option string :=
  match e with
  | Name x => Some x
  | Attribute x n => (fun p => p +:+ "." +:+ n) <$> pathOf x
  | _ => None
  end.

(** What a path is bound to in the program. *)
Definition bound (p : string) : bool :=
  bool_decide (is_Some (classIn scope p)) || bool_decide (is_Some (aliasIn scope p)).

(** The standard name a path is: a bare name, or one of [builtins] or
    [typing], that the program does not bind. *)
Definition stdName (p : string) : option string :=
  let n := lastSegment p in
  if negb (bound p) && inNames p [n; "builtins." +:+ n; "typing." +:+ n] then Some n else None.

(** The values a builtin or typing name stands for. *)
Definition builtinMeans (n : string) : option (val -> Prop) :=
  if inNames n ["int"; "float"; "complex"; "str"; "bytes"; "bool"] then Some (fun v => n ∈ anc (classOf v))
  else if inNames n ["None"; "NoneType"] then Some (fun v => v = VNone)
  else if inNames n ["Any"; "object"] then Some (fun _ => True)
  else if inNames n ["list"; "List"] then Some (fun v => exists l, v = VList l)
  else if inNames n ["set"; "Set"; "frozenset"; "FrozenSet"] then Some (fun v => exists l, v = VSet l)
  else if inNames n ["dict"; "Dict"] then Some (fun v => exists l, v = VDict l)
  else if inNames n ["tuple"; "Tuple"] then Some (fun v => exists l, v = VTuple l)
  else None.

(** The values of the class of a literal. *)
Definition literalMeans (a : Expr) (v : val) : Prop :=
  match a with
  | IntLit _ => classOf v = "int"
  | StrLit _ => classOf v = "str"
  | BoolLit _ => classOf v = "bool"
  | OtherExpr n => (n = "BytesLit" /\ classOf v = "bytes") \/ (n = "NoneLit" /\ v = VNone)
  | _ => False
  end.

(** The standard operator a subscript applies, empty for any other. *)
Definition opOf (x : Expr) : string := default "" (p ← pathOf x; stdName p).

Definition typingOps : list string :=
  ["Optional"; "Union"; "list"; "List"; "set"; "Set"; "frozenset"; "FrozenSet"; "dict"; "Dict";
   "tuple"; "Tuple"; "Callable"; "Literal"; "Annotated"; "ClassVar"; "Final"; "Type"; "type"].

Inductive means : Expr -> val -> Prop :=
  | M_none : means (OtherExpr "NoneLit") VNone
  | M_class e p c v : pathOf e = Some p -> classIn scope p = Some c -> gamma c v -> means e v
  | M_alias e p a v : pathOf e = Some p -> classIn scope p = None -> aliasIn scope p = Some a ->
      means a v -> means e v
  | M_builtin e p n P v : pathOf e = Some p -> stdName p = Some n -> builtinMeans n = Some P -> P v -> means e v
  | M_left l r v : means l v -> means (BinOp BinBitOr l r) v
  | M_right l r v : means r v -> means (BinOp BinBitOr l r) v
  | M_string s parse e v : Parse = Some parse -> parse s = Some e -> means e v -> means (StrLit s) v
  | M_optional x i a v : opOf x = "Optional" -> subscriptArgs i = [a] -> means a v \/ v = VNone ->
      means (Subscript x i) v
  | M_union x i a v : opOf x = "Union" -> a ∈ subscriptArgs i -> means a v -> means (Subscript x i) v
  | M_list x i a rest l : inNames (opOf x) ["list"; "List"] = true -> subscriptArgs i = a :: rest ->
      Forall (means a) l -> means (Subscript x i) (VList l)
  | M_set x i a rest l : inNames (opOf x) ["set"; "Set"; "frozenset"; "FrozenSet"] = true ->
      subscriptArgs i = a :: rest -> Forall (means a) l -> means (Subscript x i) (VSet l)
  | M_dict x i a b rest l : inNames (opOf x) ["dict"; "Dict"] = true ->
      subscriptArgs i = a :: b :: rest -> Forall (fun p => means a p.1 /\ means b p.2) l ->
      means (Subscript x i) (VDict l)
  | M_tuple x i l : inNames (opOf x) ["tuple"; "Tuple"] = true -> Forall2 means (subscriptArgs i) l ->
      means (Subscript x i) (VTuple l)
  | M_variadic x i a dots l : inNames (opOf x) ["tuple"; "Tuple"] = true ->
      subscriptArgs i = [a; dots] -> isEllipsis dots = true -> Forall (means a) l ->
      means (Subscript x i) (VTuple l)
  | M_literal x i a v : opOf x = "Literal" -> a ∈ subscriptArgs i -> literalMeans a v ->
      means (Subscript x i) v
  | M_annotated x i a rest v : opOf x = "Annotated" -> subscriptArgs i = a :: rest -> means a v ->
      means (Subscript x i) v
  | M_qualified x i a v : inNames (opOf x) ["ClassVar"; "Final"] = true -> subscriptArgs i = [a] ->
      means a v -> means (Subscript x i) v
  | M_generic x i p c v : pathOf x = Some p -> classIn scope p = Some c -> gamma c v -> means (Subscript x i) v.

(** No class or alias of the scope has a builtin or typing name as its last
    segment, which is what the code looks at first. *)
Definition builtinNames : list string :=
  ["int"; "float"; "complex"; "str"; "bytes"; "bool"; "None"; "NoneType"; "Any"; "object"; "list"; "List";
   "set"; "Set"; "frozenset"; "FrozenSet"; "dict"; "Dict"; "tuple"; "Tuple"].
Definition noShadow : Prop := forall p, bound p = true -> inNames (lastSegment p) (builtinNames ++ typingOps) = false.

(** ** Paths, as the code reads them *)

Lemma dottedWalk_path x : forall parts q, pathOf x = Some q -> dottedWalk x parts = String.concat "." (q :: rev parts).
Proof.
  induction x; intros parts q E; try discriminate E.
  - injection E as <-. simpl. by rewrite rev_app_distr.
  - simpl in E. destruct (pathOf x) as [q'|]; [|done]. injection E as <-. simpl dottedWalk. rewrite (IHx _ q' eq_refl).
    rewrite rev_app_distr. simpl. destruct (rev parts) as [|r l]; [done|]. by rewrite !app_assoc_str.
Qed.

Lemma pathOf_name e p : pathOf e = Some p -> nameOf e = p.
Proof.
  destruct e; try done; [by intros [= <-]|]. intros E. unfold nameOf, dottedPath.
  by rewrite (dottedWalk_path _ [] p E).
Qed.

Lemma opOf_code x : opOf x = "" \/ opOf x = lastSegment (nameOf x).
Proof.
  unfold opOf. destruct (pathOf x) as [p|] eqn:E; [|by left]. simpl. unfold stdName.
  rewrite (pathOf_name x p E). case_match; [by right|by left].
Qed.

Lemma bound_class p c : classIn scope p = Some c -> bound p = true.
Proof. intros E. unfold bound. by rewrite E. Qed.

Lemma bound_alias p a : aliasIn scope p = Some a -> bound p = true.
Proof. intros E. unfold bound. rewrite E. apply orb_true_r. Qed.

Lemma shadow_free p : noShadow -> bound p = true ->
  builtinMeans (lastSegment p) = None /\ inNames (lastSegment p) typingOps = false.
Proof.
  intros Hn Hb. specialize (Hn p Hb). revert Hn. generalize (lastSegment p). intros n Hn. unfold inNames in Hn.
  rewrite existsb_app in Hn. apply orb_false_iff in Hn as [Hn Ht]. split; [|done].
  unfold builtinMeans, inNames. simpl.
  by repeat match goal with |- context [String.eqb n ?k] => destruct (String.eqb_spec n k) as [->|_]; [discriminate Hn|] end.
Qed.

(** ** A reading of annotations, in the code's order *)

Section Order.
Context (says : Expr -> val -> Prop).

(** What a fixed or variadic tuple annotation says. *)
Definition tupleMeans (args : list Expr) (v : val) : Prop :=
  exists l, v = VTuple l /\
    (Forall2 says args l \/
     exists a dots, args = [a; dots] /\ isEllipsis dots = true /\ Forall (says a) l).

(** The meaning of a subscript, case by case in the code's order. *)
Definition subMeans (op : string) (args : list Expr) (cls : option ty) (v : val) : Prop :=
  if String.eqb op "Optional" then exists a, args = [a] /\ (says a v \/ v = VNone)
  else if String.eqb op "Union" then exists a, a ∈ args /\ says a v
  else if inNames op ["list"; "List"] then
    exists l a, v = VList l /\ args !! 0 = Some a /\ Forall (says a) l
  else if inNames op ["set"; "Set"; "frozenset"; "FrozenSet"] then
    exists l a, v = VSet l /\ args !! 0 = Some a /\ Forall (says a) l
  else if inNames op ["dict"; "Dict"] then
    exists l a b, v = VDict l /\ args !! 0 = Some a /\ args !! 1 = Some b /\
      Forall (fun p => says a p.1 /\ says b p.2) l
  else if inNames op ["tuple"; "Tuple"] then tupleMeans args v
  else if String.eqb op "Callable" then False
  else if String.eqb op "Literal" then exists a, a ∈ args /\ literalMeans a v
  else if String.eqb op "Annotated" then exists a, args !! 0 = Some a /\ says a v
  else if inNames op ["ClassVar"; "Final"] then exists a, args = [a] /\ says a v
  else if inNames op ["Type"; "type"] then False
  else exists c, cls = Some c /\ gamma c v.

(** The values of a name. *)
Definition nameMeans (p : string) (v : val) : Prop :=
  match builtinMeans (lastSegment p) with
  | Some P => P v
  | None => match classIn scope p with
            | Some c => gamma c v
            | None => match aliasIn scope p with Some a => says a v | None => False end
            end
  end.

Definition named (e : Expr) : bool := match e with Name _ | Attribute _ _ => true | _ => false end.

(** What the proof of the lowerer needs of a reading: what an annotation says
    follows from what its parts say, the way the code takes it apart. *)
Record Reading : Prop := {
  rd_tuple l v : ~ says (TupleLit l) v;
  rd_dots x v : isEllipsis x = true -> ~ says x v;
  rd_name e v : named e = true -> says e v -> nameMeans (nameOf e) v;
  rd_sub x i v : says (Subscript x i) v ->
    subMeans (lastSegment (nameOf x)) (subscriptArgs i) (classIn scope (nameOf x)) v;
  rd_or l r v : says (BinOp BinBitOr l r) v -> says l v \/ says r v;
  rd_string w v : says (StrLit w) v -> exists parse e, Parse = Some parse /\ parse w = Some e /\ says e v;
  rd_other n v : says (OtherExpr n) v -> v = VNone
}.
End Order.

(** Saying nothing is a reading, whatever the scope. *)
Lemma nothing_reading : Reading (fun _ _ => False).
Proof. split; intros; tauto. Qed.

(** Settle every comparison of an operator's name. *)
Ltac ops :=
  repeat match goal with
  | H : context [String.eqb ?x ?k] |- _ => destruct (String.eqb_spec x k); simplify_eq/=
  | |- context [String.eqb ?x ?k] => destruct (String.eqb_spec x k); simplify_eq/=
  end.

Section Shadow.
Context (Hshadow : noShadow).

Lemma means_tuple_elts l v : ~ means (TupleLit l) v.
Proof. intros H. inversion H; simplify_eq. Qed.

Lemma means_dots x v : isEllipsis x = true -> ~ means x v.
Proof.
  intros Hx H. destruct x; try done. simpl in Hx. apply String.eqb_eq in Hx as ->.
  inversion H; simplify_eq.
Qed.

Lemma means_name e v : named e = true -> means e v -> nameMeans means (nameOf e) v.
Proof.
  intros He Hv. unfold nameMeans. inversion Hv; simplify_eq; try done;
    match goal with H : pathOf _ = Some _ |- _ => pose proof (pathOf_name _ _ H) as -> end.
  - match goal with H : classIn scope _ = _ |- _ => rewrite H; by rewrite (proj1 (shadow_free _ Hshadow (bound_class _ _ H))) end.
  - match goal with H : aliasIn scope _ = _ |- _ => rewrite (proj1 (shadow_free _ Hshadow (bound_alias _ _ H))) end.
    match goal with H : classIn scope _ = None |- _ => rewrite H end.
    by match goal with H : aliasIn scope _ = Some _ |- _ => rewrite H end.
  - match goal with H : stdName _ = Some _ |- _ => unfold stdName in H; case_match; [injection H as <-|done] end.
    match goal with H : builtinMeans _ = Some _ |- _ => by rewrite H end.
Qed.

Lemma means_sub x i v : means (Subscript x i) v ->
  subMeans means (lastSegment (nameOf x)) (subscriptArgs i) (classIn scope (nameOf x)) v.
Proof.
  pose proof (opOf_code x) as Ho. intros H. inversion H; simplify_eq;
    try (match goal with E : pathOf x = Some ?p, Ec : classIn scope ?p = Some _ |- _ =>
           rewrite (pathOf_name _ _ E), Ec; destruct (shadow_free _ Hshadow (bound_class _ _ Ec)) as [_ Hn];
           clear Ho; revert Hn; generalize (lastSegment p); intros o Hn end);
    try (match goal with E : context [opOf x] |- _ => destruct Ho as [Ho|Ho]; rewrite Ho in E; [discriminate E|] end);
    try clear Ho; unfold typingOps, subMeans, inNames, tupleMeans in *; simpl existsb in *;
    repeat match goal with E : subscriptArgs _ = _ |- _ => rewrite E in *; clear E
                         | E : lastSegment _ = _ |- _ => rewrite E in *; clear E end.
  all: try generalize dependent (lastSegment (nameOf x)); intros; ops; eauto 8.
Qed.

(** Where no name is shadowed, what annotations mean is a reading. *)
Lemma means_reading : Reading means.
Proof.
  split; [apply means_tuple_elts|apply means_dots|apply means_name|apply means_sub| | |];
    intros *; inversion 1; simplify_eq; eauto.
Qed.
End Shadow.

(** ** Running the lowerer *)

Record grows (st st' : Lowerer) : Prop := {
  gr_inv : inv (lIn st');
  gr_ext : extends (lIn st) (lIn st');
  gr_file : lFile st' = lFile st;
  gr_degs : exists new, lDegradations st' = lDegradations st ++ new /\
              Forall (fun d => spFile (dSpan d) = lFile st) new
}.

#[local] Instance grows_trans : Transitive grows.
Proof.
  intros a b c [_ ? Hf (n1 & E1 & F1)] [? ? ? (n2 & E2 & F2)].
  constructor; [done|by etrans|congruence|]. exists (n1 ++ n2). rewrite E2, E1, app_assoc.
  rewrite Hf in F2. split; [done|by apply Forall_app_2].
Qed.

Lemma grows_same st s' : inv s' -> extends (lIn st) s' -> grows st (mkLowerer s' (lFile st) (lDegradations st)).
Proof. intros. constructor; try done. exists []. by rewrite app_nil_r. Qed.

Lemma lowerer_refl st : inv (lIn st) -> grows st st.
Proof. intros Hi. by destruct st; apply grows_same. Qed.

(** With enough fuel [f] returns, always the same, from [st]. *)
Definition runs {A} (f : nat -> AM A) (st : Lowerer) (Q : A -> Lowerer -> Prop) : Prop :=
  exists F a st', (forall n, F <= n -> f n st = Some (a, st')) /\ grows st st' /\ Q a st'.

(** A canonical element that holds every value of [P]. *)
Definition fits (P : val -> Prop) (t : ty) (st : Lowerer) : Prop :=
  plainOp (lIn st) t /\ forall v, P v -> gamma t v.

Lemma plainOp_mono s s' t : extends s s' -> plainOp s t -> plainOp s' t.
Proof. intros He [? ?]. split; eauto using operand_mono. Qed.

Lemma fits_mono P t st st' : grows st st' -> fits P t st -> fits P t st'.
Proof. intros [_ He _ _] [? ?]. split; eauto using plainOp_mono. Qed.

Lemma fits_weaken (P Q : val -> Prop) t st : (forall v, Q v -> P v) -> fits P t st -> fits Q t st.
Proof. intros HQ []. split; auto. Qed.

Lemma runs_conseq {A} (f : nat -> AM A) st (Q R : A -> Lowerer -> Prop) :
  runs f st Q -> (forall a st', Q a st' -> R a st') -> runs f st R.
Proof. intros (F & a & st' & ? & ? & ?) HR. exists F, a, st'. auto. Qed.

Lemma runs_ext {A} (f g : nat -> AM A) st Q : (forall n, g n st = f n st) -> runs f st Q -> runs g st Q.
Proof. intros E (F & a & st' & Hf & ?). exists F, a, st'. split; [intros; by rewrite E, Hf|done]. Qed.

Lemma runs_bind {A B} (f : nat -> AM A) (g : nat -> A -> AM B) st Q R :
  runs f st Q ->
  (forall a st1, grows st st1 -> Q a st1 -> runs (fun n => g n a) st1 R) ->
  runs (fun n => abind (f n) (g n)) st R.
Proof.
  intros (F & a & st1 & E & Hg & HQ) Hk. destruct (Hk a st1 Hg HQ) as (F' & b & st2 & E' & Hg' & HR).
  exists (max F F'), b, st2. split_and!; [|by etrans|done].
  intros n Hn. unfold abind. rewrite E by lia. apply E'. lia.
Qed.

Lemma runs_return {A} (a : A) st (Q : A -> Lowerer -> Prop) :
  inv (lIn st) -> Q a st -> runs (fun _ => areturn a) st Q.
Proof. intros Hi HQ. exists 0, a, st. split_and!; [done|by apply lowerer_refl|done]. Qed.

Lemma runs_within {A} (m : M A) st (Q : A -> Lowerer -> Prop) a s' :
  m (lIn st) = Some (a, s') -> inv s' -> extends (lIn st) s' ->
  Q a (mkLowerer s' (lFile st) (lDegradations st)) -> runs (fun _ => within m) st Q.
Proof.
  intros E Hi He HQ. exists 0, a, (mkLowerer s' (lFile st) (lDegradations st)).
  split_and!; [|by apply grows_same|done]. intros n _. unfold within. by rewrite E.
Qed.

Lemma runs_note e r st : inv (lIn st) -> runs (fun _ => note pos e r) st (fun _ _ => True).
Proof.
  intros Hi. eexists 0, tt, _. split_and!; [intros; reflexivity| |done].
  constructor; simpl; [done|reflexivity|done|]. eexists. split; [done|]. by apply Forall_cons_2.
Qed.

Lemma base_fits st a P : inv (lIn st) -> (forall v, P v -> atomSem anc a v) ->
  fits P (base (lIn st) a) st.
Proof.
  intros Hi HP. destruct (ok_base _ a (inv_ok _ _ _ _ Hi)) as (Hint & Hs & Hr).
  split; [split; [split; [done|]|done]|].
  - rewrite goodb_unfold, Hs, Hr. by destruct a.
  - intros v Hv. destruct (base (lIn st) a) as [sh r i]. simpl in Hs, Hr. subst.
    apply gamma_plain, gamma_atom. auto.
Qed.

Lemma runs_base st a P : inv (lIn st) -> (forall v, P v -> atomSem anc a v) ->
  runs (fun _ => within (baseM a)) st (fits P).
Proof.
  intros Hi HP. eapply runs_within; [done|done|reflexivity|].
  pose proof (base_fits st a P Hi HP) as Hf. by destruct st.
Qed.

Lemma runs_dyn st P : inv (lIn st) -> runs (fun _ => within dynM) st (fits P).
Proof. intros Hi. by apply (runs_base st ADyn). Qed.

Lemma runs_degrade e r st P : inv (lIn st) -> runs (fun _ => degrade pos e r) st (fits P).
Proof.
  intros Hi. eapply (runs_bind (fun _ => note pos e r) (fun _ _ => within dynM)); [by apply runs_note|].
  intros [] st1 Hg _. apply runs_dyn. apply Hg.
Qed.

(** A new container. *)
Lemma runs_intern st sh P :
  inv (lIn st) -> shapeNames sh = true -> class_reg (lIn st) sh -> localGood sh 0 = true ->
  Forall (plainOp (lIn st)) (children sh) -> (forall v, P v -> gammaShape anc opaque bitsem sh v) ->
  runs (fun _ => within (intern (tmpl sh))) st (fits P).
Proof.
  intros Hi Hn Hc Hl Hch HP.
  destruct (intern_bound anc opaque bitsem (lIn st) sh [tmpl sh] (depth (tmpl sh)))
    as (r & s' & E & HB & _); [apply Hi|apply Hi| | |lia| |].
  - apply buildable_children; [done|apply Hi| |done]. eapply Forall_impl; [exact Hch|]. by intros ? [[] _].
  - rewrite goodb_unfold. cbn [tmpl shp refine]. rewrite Hl. apply forallb_forall.
    intros t Ht%list_elem_of_In. rewrite Forall_forall in Hch. by destruct (Hch t Ht) as [[] _].
  - by apply Forall_cons_2.
  - destruct HB as [Hf Hint Hg Hp Hup _]. apply Forall_cons in Hup as [Hup _].
    destruct (frame_inv _ _ _ _ _ Hi Hf) as [? ?].
    eapply runs_within; [exact E|done|done|]. split; [by split|]. intros v Hv. by apply Hup, HP.
Qed.

Lemma runs_union st ts P :
  inv (lIn st) -> Forall (plainOp (lIn st)) ts -> (forall v, P v -> exists t, t ∈ ts /\ gamma t v) ->
  runs (fun _ => within (Union ts)) st (fits P).
Proof.
  intros Hi Hts HP.
  destruct (makeUnion_bound anc opaque bitsem (lIn st) ts) as (r & s' & E & [Hf Hint Hg Hp Hup _]);
    [apply Hi|apply Hi| |].
  { eapply Forall_impl; [exact Hts|]. by intros ? [[] ?]. }
  destruct (frame_inv _ _ _ _ _ Hi Hf) as [? ?]. eapply runs_within; [exact E|done|done|].
  split; [by split|]. intros v (t & Ht & Hv)%HP. rewrite Forall_forall in Hup. by apply (Hup t).
Qed.

Lemma runs_join st a b P Q :
  inv (lIn st) -> fits P a st -> fits Q b st ->
  runs (fun _ => within (Join a b)) st (fits (fun v => P v \/ Q v)).
Proof.
  intros Hi [[Ha Ra] Pa] [[Hb Rb] Pb].
  destruct (JoinF_spec anc opaque bitsem (S (max (depth a) (depth b))) a b (lIn st) Hi Ha Hb)
    as (r & s' & E & ? & ? & [Hint Hg Hl Hr _ Hpl]); [lia|].
  eapply runs_within; [exact E|done|done|].
  split; [split; [by split|auto]|]. intros v [Hv|Hv]; [apply Hl, Pa, Hv|apply Hr, Pb, Hv].
Qed.

(** ** The workers, given that the parts lower well *)

Section Lower.
Context (says : Expr -> val -> Prop) (HR : Reading says).

(** The classes of the scope are interned class elements. *)
Definition scopeOk (i : Interner) : Prop := forall n c, classIn scope n = Some c -> plainOp i c.

Definition ready (st : Lowerer) : Prop := inv (lIn st) /\ scopeOk (lIn st).

Lemma ready_grows st st' : grows st st' -> ready st -> ready st'.
Proof. intros [] [_ Hs]. split; [done|]. intros n c Hc. eauto using plainOp_mono. Qed.

Definition sound (d : nat) (e : Expr) : Prop :=
  forall st, ready st -> runs (fun n => lower n e d) st (fits (says e)).

Lemma runs_class n c st : ready st -> classIn scope n = Some c ->
  runs (fun _ => areturn c) st (fits (gamma c)).
Proof. intros [Hi Hs] Hc. apply runs_return; [done|]. split; [by eapply Hs|done]. Qed.

Definition allFit (args : list Expr) (ts : list ty) (st : Lowerer) : Prop :=
  Forall2 (fun a t => fits (says a) t st) args ts.

Lemma allFit_plain args ts st : allFit args ts st -> Forall (plainOp (lIn st)) ts.
Proof. induction 1 as [|a t args ts [? _]]; constructor; auto. Qed.

Lemma lowerAll_runs d args : Forall (sound d) args -> forall st, ready st ->
  runs (fun n => lowerAll (lower n) args d) st (allFit args).
Proof.
  induction 1 as [|a args Ha _ IH]; intros st Hst; simpl.
  { apply runs_return; [apply Hst|constructor]. }
  eapply runs_bind; [by apply Ha|]. intros t st1 G1 Ht.
  eapply runs_bind; [apply IH; by eapply ready_grows|]. intros ts st2 G2 Hts.
  apply (runs_return (t :: ts)); [apply G2|]. constructor; [by eapply fits_mono|done].
Qed.

Lemma lowerArg_runs e d args i : Forall (sound d) args -> forall st, ready st ->
  runs (fun n => lowerArg pos (lower n) e args i d) st
    (fits (fun v => exists a, args !! i = Some a /\ says a v)).
Proof.
  intros HF st Hst. unfold lowerArg. destruct (args !! i) as [a|] eqn:E.
  - rewrite Forall_forall in HF. eapply runs_conseq; [apply HF; [by eapply list_elem_of_lookup_2|done]|].
    intros t st'. apply fits_weaken. intros v (? & [= <-] & ?). done.
  - apply runs_degrade, Hst.
Qed.

Lemma allFit_gamma args ts st l : allFit args ts st -> Forall2 says args l -> Forall2 gamma ts l.
Proof.
  intros HF. revert l. induction HF as [|a t args ts [_ Ht] _ IH]; intros l Hl; inversion Hl; subst;
    constructor; auto.
Qed.

Lemma fixed_tuple_runs d args : Forall (sound d) args ->
  (forall a dots, args = [a; dots] -> isEllipsis dots = false) -> forall st, ready st ->
  runs (fun n => ts <~ lowerAll (lower n) args d ;; within (Tuple ts)) st (fits (tupleMeans says args)).
Proof.
  intros HF Hd st Hst. eapply runs_bind; [by apply lowerAll_runs|]. intros ts st1 G Hts.
  apply (runs_intern st1 (ShTuple ts false)); try done; [apply G|by eapply allFit_plain|].
  intros v (l & -> & Hv). apply gammaShape_tuple. exists l. split; [done|].
  destruct Hv as [Hv|(a & dots & E & Hx & _)]; [by eapply allFit_gamma|]. by rewrite (Hd _ _ E) in Hx.
Qed.

Lemma lowerTuple_runs d args : Forall (sound d) args -> forall st, ready st ->
  runs (fun n => lowerTuple (lower n) args d) st (fits (tupleMeans says args)).
Proof.
  intros HF st Hst. unfold lowerTuple.
  destruct args as [|a [|x [|y rest]]]; try (by apply fixed_tuple_runs).
  - destruct a; try (by apply fixed_tuple_runs).
    apply (runs_intern st (ShTuple [] false)); try done; [apply Hst|].
    intros v (l & -> & [Hv|(? & ? & ? & _)]); [|done].
    apply Forall2_cons_inv_l in Hv as (x & l' & Hx & _). by apply (rd_tuple _ HR) in Hx.
  - destruct (isEllipsis x) eqn:Ex.
    + apply Forall_cons in HF as [Ha _]. eapply runs_bind; [by apply Ha|].
      intros t st1 G [Ht Hv]. apply (runs_intern st1 (ShTuple [t] true)); try done; [apply G|by apply Forall_cons_2|].
      intros v (l & -> & Hl). apply gammaShape_tuple. exists l. split; [done|].
      destruct Hl as [Hl|(? & ? & [= <- <-] & _ & Hl)].
      * apply Forall2_cons_inv_l in Hl as (y & l' & _ & Hl & ->).
        apply Forall2_cons_inv_l in Hl as (z & l'' & Hz & _). by apply (rd_dots _ HR x) in Hz.
      * eapply Forall_impl; [exact Hl|]. simpl. auto.
    + apply fixed_tuple_runs; [done| |done]. by intros ? ? [= <- <-].
Qed.

Lemma lowerParams_runs e p d st : sound d p ->
  (forall l, p = ListLit l -> Forall (sound d) l) -> ready st ->
  runs (fun n => lowerParams pos (lower n) e p d) st
    (fun r st' => Forall (plainOp (lIn st')) (fst r ++ optList (snd r))).
Proof.
  intros Hp Hl Hst. unfold lowerParams.
  assert (forall st, inv (lIn st) ->
    runs (fun _ => d <~ within dynM ;; areturn ([] : list ty, Some d)) st
      (fun r st' => Forall (plainOp (lIn st')) (fst r ++ optList (snd r)))) as Hopen.
  { intros st0 H0. apply (runs_bind (fun _ => within dynM) (fun _ d => areturn ([], Some d)) st0 (fits (fun _ => True)));
      [by apply runs_dyn|]. intros t st1 G [Ht _]. apply (runs_return ([], Some t)); [apply G|].
    by apply Forall_cons_2. }
  assert (runs (fun n => if isEllipsis p then d <~ within dynM ;; areturn ([] : list ty, Some d)
      else _ <~ note pos e "callable parameter shape not representable" ;;
           d <~ within dynM ;; areturn ([], Some d)) st
    (fun r st' => Forall (plainOp (lIn st')) (fst r ++ optList (snd r)))) as Hdefault.
  { destruct (isEllipsis p); [by apply Hopen, Hst|].
    eapply runs_bind; [by apply runs_note, Hst|]. intros [] st1 G _. apply Hopen, G. }
  destruct p as [| | | | |l| | | | | | | | | | |]; try exact Hdefault.
  eapply runs_bind; [apply lowerAll_runs; [by apply Hl|done]|]. intros ts st1 G Hts.
  apply (runs_return (ts, None)); [apply G|]. simpl. rewrite app_nil_r. by eapply allFit_plain.
Qed.

Lemma lowerCallable_runs e args d : Forall (sound d) args ->
  (forall l, ListLit l ∈ args -> Forall (sound d) l) -> forall st, ready st ->
  runs (fun n => lowerCallable pos (lower n) e args d) st (fits (fun _ => False)).
Proof.
  intros HF HL st Hst. unfold lowerCallable.
  destruct args as [|p [|r [|]]]; try (by apply runs_degrade, Hst).
  apply Forall_cons in HF as [Hp [Hr _]%Forall_cons].
  eapply runs_bind; [by apply Hr|]. intros t st1 G1 [Ht _].
  eapply runs_bind; [apply lowerParams_runs; [done| |by eapply ready_grows]|].
  { intros l ->. apply HL. by left. }
  intros [ts star] st2 G2 Hts. simpl in Hts.
  apply runs_intern; try done; [apply G2|].
  cbn [children sParams sStar sStarStar sReturn optList fst snd]. rewrite map_map, map_id.
  apply Forall_app in Hts as [? ?]. rewrite app_assoc. simpl. apply Forall_app_2; [by apply Forall_app_2|].
  apply Forall_cons_2; [|done]. eapply plainOp_mono; [apply G2|done].
Qed.

Lemma literalType_runs a st : inv (lIn st) -> runs (fun _ => literalType pos a) st (fits (literalMeans a)).
Proof.
  intros Hi. unfold literalType.
  destruct a; try (by apply runs_degrade); try (by apply runs_base; [done|intros v Hv; simpl in *; rewrite Hv; apply anc_refl]).
  repeat case_match; repeat match goal with H : String.eqb _ _ = true |- _ => apply String.eqb_eq in H; subst end;
    [| |by apply runs_degrade]; (apply runs_base; [done|]); intros v [[? Hv]|[? Hv]]; simpl; try done;
    rewrite Hv; apply anc_refl.
Qed.

Lemma joinLiterals_runs args : forall acc st P, inv (lIn st) -> fits P acc st ->
  runs (fun _ => joinLiterals pos acc args) st
    (fits (fun v => P v \/ exists a, a ∈ args /\ literalMeans a v)).
Proof.
  induction args as [|a args IH]; intros acc st P Hi HP.
  { apply runs_return; [done|]. eapply fits_weaken; [|done].
    intros v [?|(? & []%not_elem_of_nil & _)]; done. }
  simpl. eapply (runs_bind (fun _ => literalType pos a)); [by apply literalType_runs|]. intros t st1 G1 Ht.
  eapply (runs_bind (fun _ => within (Join acc t))).
  { apply runs_join; [apply G1|by eapply fits_mono|exact Ht]. }
  intros u st2 G2 Hu. eapply runs_conseq; [apply IH; [apply G2|exact Hu]|].
  intros r st3. apply fits_weaken. intros v [?|(x & [-> |Hx]%elem_of_cons & Hv)]; eauto.
Qed.

Lemma lowerLiteral_runs e args st : inv (lIn st) ->
  runs (fun _ => lowerLiteral pos e args) st (fits (fun v => exists a, a ∈ args /\ literalMeans a v)).
Proof.
  intros Hi. unfold lowerLiteral.
  eapply (runs_bind (fun _ => within (baseM ANever))); [apply (runs_base st ANever (fun _ => False)); done|].
  intros nv st1 G1 Hnv.
  eapply (runs_bind (fun _ => joinLiterals pos nv args)); [apply joinLiterals_runs; [apply G1|done]|].
  intros acc st2 G2 Hacc. destruct (kind_eqb (kind acc) KindNever); [apply runs_degrade, G2|].
  apply runs_return; [apply G2|]. eapply fits_weaken; [|exact Hacc]. by right.
Qed.

Lemma inNames_cons n m l : inNames n (m :: l) = String.eqb n m || inNames n l.
Proof. done. Qed.

(** A bare container holds its kind's values. *)
Lemma runs_bare st (mk : ty -> shape ty) P :
  inv (lIn st) ->
  (forall d, children (mk d) = [d] \/ children (mk d) = [d; d]) ->
  (forall d, shapeNames (mk d) = true /\ class_reg (lIn st) (mk d) /\ localGood (mk d) 0 = true) ->
  (forall v, P v -> gammaShape anc opaque bitsem (mk (base (lIn st) ADyn)) v) ->
  runs (fun _ => within (d <- dynM ;; intern (tmpl (mk d)))) st (fits P).
Proof.
  intros Hi Hch Hok HP. apply (runs_ext (fun _ => within (intern (tmpl (mk (base (lIn st) ADyn)))))); [done|].
  destruct (base_fits st ADyn (fun _ => True) Hi) as [Hd _]; [done|].
  destruct (Hok (base (lIn st) ADyn)) as (? & ? & ?).
  apply runs_intern; auto. destruct (Hch (base (lIn st) ADyn)) as [-> | ->]; repeat constructor; apply Hd.
Qed.

Lemma dyn_holds s v : inv s -> gamma (base s ADyn) v.
Proof. intros Hi. by apply (proj2 (base_fits (mkLowerer s "" []) ADyn (fun _ => True) Hi (fun _ _ => I))). Qed.

Lemma builtin_runs name st : inv (lIn st) ->
  match builtinName name, builtinMeans (lastSegment name) with
  | Some m, Some P => runs (fun _ => within m) st (fits P)
  | None, None => True
  | _, _ => False
  end.
Proof.
  intros Hi. unfold builtinName, builtinMeans. set (n := lastSegment name). clearbody n.
  rewrite (inNames_cons n "int"), (inNames_cons n "float"), (inNames_cons n "complex"),
    (inNames_cons n "str"), (inNames_cons n "bytes"), (inNames_cons n "bool").
  repeat match goal with |- context [String.eqb n ?k] =>
    destruct (String.eqb_spec n k) as [-> |_]; [cbn -[within]; by apply runs_base|] end.
  cbn [orb]. change (inNames n []) with false. cbn [orb].
  destruct (inNames n ["None"; "NoneType"]); [by apply runs_base|].
  destruct (inNames n ["Any"; "object"]); [by apply runs_dyn|].
  pose proof (fun v => dyn_holds (lIn st) v Hi) as HD.
  destruct (inNames n ["list"; "List"]).
  { apply (runs_bare st (fun d => ShList [d])); [done|by auto|done|]. intros v [l ->]. apply gammaShape_list.
    exists l. split; [done|]. apply Forall_forall. intros; apply HD. }
  destruct (inNames n ["set"; "Set"; "frozenset"; "FrozenSet"]).
  { apply (runs_bare st ShSet); [done|by auto|done|]. intros v [l ->]. apply gammaShape_set.
    exists l. split; [done|]. apply Forall_forall. intros; apply HD. }
  destruct (inNames n ["dict"; "Dict"]).
  { apply (runs_bare st (fun d => ShDict d d)); [done|by auto|done|]. intros v [l ->]. apply gammaShape_dict.
    exists l. split; [done|]. apply Forall_forall. intros; split; apply HD. }
  destruct (inNames n ["tuple"; "Tuple"]); [|done].
  apply (runs_bare st (fun d => ShTuple [d] true)); [done|by auto|done|]. intros v [l ->]. apply gammaShape_tuple.
  exists l. split; [done|]. apply Forall_forall. intros; apply HD.
Qed.

(** The classes, aliases and forward references an annotation may reach. *)
Lemma lowerName_runs e d st : named e = true -> ready st ->
  (forall a, aliasIn scope (nameOf e) = Some a -> d < aliasDepthLimit -> sound (S d) a) ->
  runs (fun n => lowerName scope pos (lower n) e (nameOf e) d) st (fits (says e)).
Proof.
  intros He Hst Hal. unfold lowerName. pose proof (builtin_runs (nameOf e) st (proj1 Hst)) as Hb.
  pose proof (fun v => rd_name _ HR e v He) as Hinv. unfold nameMeans in Hinv.
  destruct (builtinName (nameOf e)) as [m|], (builtinMeans _) as [P|]; try done.
  { eapply runs_conseq; [exact Hb|]. intros ? ?. by apply fits_weaken. }
  destruct (classIn scope (nameOf e)) as [c|] eqn:Ec.
  { eapply runs_conseq; [by eapply runs_class|]. intros ? ?. by apply fits_weaken. }
  destruct (aliasIn scope (nameOf e)) as [a|] eqn:Ea; [|apply runs_degrade, Hst].
  destruct (Nat.leb_spec aliasDepthLimit d); [apply runs_degrade, Hst|].
  eapply runs_conseq; [by apply Hal|]. intros ? ?. by apply fits_weaken.
Qed.

(** One argument, lowered and passed on. *)
Lemma sole_runs e r d args st P : Forall (sound d) args -> ready st ->
  (forall a v, args = [a] -> P v -> says a v) ->
  runs (fun n => match args with [a] => lower n a d | _ => degrade pos e r end) st (fits P).
Proof.
  intros HF Hst HP. destruct args as [|a [|]]; try (apply runs_degrade, Hst).
  apply Forall_cons in HF as [Ha _]. eapply runs_conseq; [by apply Ha|]. intros t st'.
  apply fits_weaken. eauto.
Qed.

Lemma optional_runs e d args st : Forall (sound d) args -> ready st ->
  runs (fun n => match args with
        | [a] => t <~ lower n a d ;; within (Optional t)
        | _ => degrade pos e "Optional takes one argument" end) st
    (fits (fun v => exists a, args = [a] /\ (says a v \/ v = VNone))).
Proof.
  intros HF Hst. destruct args as [|a [|]]; try (apply runs_degrade, Hst).
  apply Forall_cons in HF as [Ha _]. eapply runs_bind; [by apply Ha|]. intros t st1 G [Ht Hv].
  destruct (base_fits st1 ANone (fun v => v = VNone)) as [Hn Hnv]; [apply G|done|].
  apply (runs_ext (fun _ => within (Union [t; base (lIn st1) ANone]))); [done|].
  apply runs_union; [apply G|by do 2 (apply Forall_cons_2; [done|])|]. intros v (? & [= <-] & Hm).
  destruct Hm as [Hm|Hm]; [exists t|exists (base (lIn st1) ANone)]; set_solver.
Qed.

Lemma union_runs d args st : Forall (sound d) args -> ready st ->
  runs (fun n => ts <~ lowerAll (lower n) args d ;; within (Union ts)) st
    (fits (fun v => exists a, a ∈ args /\ says a v)).
Proof.
  intros HF Hst. eapply runs_bind; [by apply lowerAll_runs|]. intros ts st1 G Hts.
  apply runs_union; [apply G|by eapply allFit_plain|]. intros v (a & Ha & Hv).
  apply list_elem_of_lookup in Ha as [k Hk]. destruct (Forall2_lookup_l _ _ _ _ _ Hts Hk) as (t & Ht & [_ Hf]).
  exists t. split; [by eapply list_elem_of_lookup_2|auto].
Qed.

(** A container with one element type. *)
Lemma container_runs e d args st (mk : ty -> shape ty) (P : val -> Prop) :
  Forall (sound d) args -> ready st ->
  (forall t, children (mk t) = [t] /\ shapeNames (mk t) = true /\ (forall s, class_reg s (mk t)) /\
     localGood (mk t) 0 = true) ->
  (forall t v, (forall w, (exists a, args !! 0 = Some a /\ says a w) -> gamma t w) -> P v ->
     gammaShape anc opaque bitsem (mk t) v) ->
  runs (fun n => t <~ lowerArg pos (lower n) e args 0 d ;; within (intern (tmpl (mk t)))) st (fits P).
Proof.
  intros HF Hst Hmk HP. eapply runs_bind; [by apply lowerArg_runs|]. intros t st1 G [Ht Hv].
  destruct (Hmk t) as (Hc & ? & ? & ?). apply runs_intern; auto; [apply G|].
  rewrite Hc. by apply Forall_cons_2.
Qed.

Lemma dict_runs e d args st : Forall (sound d) args -> ready st ->
  runs (fun n => k <~ lowerArg pos (lower n) e args 0 d ;; v <~ lowerArg pos (lower n) e args 1 d ;;
                 within (Dict k v)) st
    (fits (fun v => exists l a b, v = VDict l /\ args !! 0 = Some a /\ args !! 1 = Some b /\
                      Forall (fun p => says a p.1 /\ says b p.2) l)).
Proof.
  intros HF Hst. eapply runs_bind; [by apply lowerArg_runs|]. intros k st1 G1 Hk.
  eapply runs_bind; [apply lowerArg_runs; [done|by eapply ready_grows]|]. intros w st2 G2 [Hw Hwv].
  eapply fits_mono in Hk as [Hk Hkv]; [|exact G2].
  apply (runs_intern st2 (ShDict k w)); try done; [apply G2|by do 2 (apply Forall_cons_2; [done|])|].
  intros v (l & a & b & -> & Ea & Eb & Hl). apply gammaShape_dict. exists l. split; [done|].
  eapply Forall_impl; [exact Hl|]. intros p [? ?]. split; [apply Hkv|apply Hwv]; eauto.
Qed.

Lemma lowerSubscript_runs x i d st : ready st ->
  Forall (sound d) (subscriptArgs i) -> (forall l, ListLit l ∈ subscriptArgs i -> Forall (sound d) l) ->
  runs (fun n => lowerSubscript scope pos (lower n) (Subscript x i) x i d) st
    (fits (subMeans says (lastSegment (nameOf x)) (subscriptArgs i) (classIn scope (nameOf x)))).
Proof.
  intros Hst HF HL. unfold lowerSubscript, subMeans.
  set (args := subscriptArgs i) in *. clearbody args. generalize (lastSegment (nameOf x)). intros op.
  destruct (String.eqb op "Optional"); [by apply optional_runs|].
  destruct (String.eqb op "Union"); [by apply union_runs|].
  destruct (inNames op ["list"; "List"]).
  { apply (container_runs _ _ _ _ (fun t => ShList [t])); try done.
    intros t v Ht (l & a & -> & E & Hl). apply gammaShape_list. exists l. split; [done|].
    eapply Forall_impl; [exact Hl|]. intros w Hw. apply Ht. eauto. }
  destruct (inNames op ["set"; "Set"; "frozenset"; "FrozenSet"]).
  { apply (container_runs _ _ _ _ ShSet); try done.
    intros t v Ht (l & a & -> & E & Hl). apply gammaShape_set. exists l. split; [done|].
    eapply Forall_impl; [exact Hl|]. intros w Hw. apply Ht. eauto. }
  destruct (inNames op ["dict"; "Dict"]); [by apply dict_runs|].
  destruct (inNames op ["tuple"; "Tuple"]); [by apply lowerTuple_runs|].
  destruct (String.eqb op "Callable"); [by apply lowerCallable_runs|].
  destruct (String.eqb op "Literal"); [by apply lowerLiteral_runs, Hst|].
  destruct (String.eqb op "Annotated").
  { destruct args as [|a args]; [apply runs_degrade, Hst|]. apply Forall_cons in HF as [Ha _].
    eapply runs_conseq; [by apply Ha|]. intros t st'. apply fits_weaken. intros v (? & [= <-] & ?). done. }
  destruct (inNames op ["ClassVar"; "Final"]).
  { apply sole_runs; try done. intros a v -> (? & [= <-] & ?). done. }
  destruct (inNames op ["Type"; "type"]); [apply runs_degrade, Hst|].
  destruct (classIn scope (nameOf x)) as [c|] eqn:Ec; [|apply runs_degrade, Hst].
  eapply runs_bind; [apply runs_note, Hst|]. intros [] st1 G _.
  eapply runs_conseq; [apply (runs_class (nameOf x) c); [by eapply ready_grows|done]|].
  intros t st'. apply fits_weaken. intros v (? & [= <-] & ?). done.
Qed.

(** ** Every annotation lowers *)

Lemma forward_runs w d st : ready st ->
  (forall parse inner, Parse = Some parse -> parse w = Some inner -> sound d inner) ->
  runs (fun n => lowerForwardRef pos Parse (lower n) (StrLit w) w d) st (fits (says (StrLit w))).
Proof.
  intros Hst Hstr. assert (forall o, o = Parse ->
    runs (fun n => lowerForwardRef pos o (lower n) (StrLit w) w d) st (fits (says (StrLit w)))) as Ho.
  2: by apply Ho.
  intros [parse|] EP; simpl; [|apply runs_degrade, Hst].
  destruct (parse w) as [inner|] eqn:Ei; [|apply runs_degrade, Hst].
  eapply runs_conseq; [by apply (Hstr parse)|]. intros t st'. apply fits_weaken.
  intros v (p & e & Ep & Ee & Hv)%(rd_string _ HR). rewrite <- EP in Ep. by simplify_eq.
Qed.

Lemma body_sound d e :
  (forall b, part b e -> sound d b) ->
  (forall a, d < aliasDepthLimit -> sound (S d) a) ->
  (forall w parse inner, e = StrLit w -> Parse = Some parse -> parse w = Some inner -> sound d inner) ->
  sound d e.
Proof.
  intros Hpart Halias Hstr st Hst.
  assert (runs (fun n => lowerBody scope pos Parse (lower n) e d) st (fits (says e)))
    as (F & t & st' & E & ?).
  2: { exists (S F), t, st'. split; [|done]. intros [|n] Hn; [lia|]. apply E. lia. }
  destruct e as [id| | |w| | | |op l r| | | | |x f|x i| | |nd]; try (apply runs_degrade, Hst); simpl.
  - apply (lowerName_runs (Name id)); auto.
  - apply forward_runs; eauto.
  - destruct op; try (apply runs_degrade, Hst). destruct (part_bin BinBitOr l r) as [Pl Pr].
    eapply runs_bind; [by apply Hpart|]. intros a st1 G1 Ha.
    eapply runs_bind; [apply Hpart; [done|by eapply ready_grows]|]. intros b st2 G2 [Hb Hbv].
    eapply fits_mono in Ha as [Ha Hav]; [|exact G2].
    apply runs_union; [apply G2|by do 2 (apply Forall_cons_2; [done|])|].
    intros v [Hv|Hv]%(rd_or _ HR); [exists a|exists b]; set_solver.
  - apply (lowerName_runs (Attribute x f)); auto.
  - eapply runs_conseq; [apply lowerSubscript_runs; [done| |]|].
    + apply Forall_forall. intros a Ha. by apply Hpart, part_args.
    + intros l Hl. apply Forall_forall. intros a Ha. apply Hpart.
      eapply part_trans; [eapply part_list; eauto|by apply part_args].
    + intros t st'. apply fits_weaken, rd_sub, HR.
  - case_match eqn:En; [|apply runs_degrade, Hst]. apply runs_base; [apply Hst|].
    intros v Hv. by apply (rd_other _ HR) in Hv.
Qed.

(** A parser of stringified annotations returns literals shorter than its
    text: a literal's source has quotes around its value. *)
Context (parse_shrinks : forall parse w e, Parse = Some parse -> parse w = Some e ->
           strsBelow (String.length w) e = true).

Lemma lower_sound : forall k d, aliasDepthLimit - d = k -> forall m e, strsBelow m e = true -> sound d e.
Proof.
  induction k as [k IHk] using lt_wf_ind. intros d Hd.
  induction m as [m IHm] using lt_wf_ind.
  assert (forall h e, height e = h -> strsBelow m e = true -> sound d e) as Hh; [|eauto].
  induction h as [h IHh] using lt_wf_ind. intros e He Hm. apply body_sound.
  - intros b [Hb Hs]. eapply IHh; [|done|auto]. lia.
  - intros a Ha. destruct (strsBelow_some a) as [n Hn]. eapply IHk; [|done|done]. lia.
  - intros w parse inner -> HP Hi. eapply IHm; [|by eapply parse_shrinks].
    by apply Nat.ltb_lt.
Qed.

Lemma lower_total e st : ready st -> runs (fun n => lower n e 0) st (fits (says e)).
Proof. destruct (strsBelow_some e) as [m Hm]. by eapply lower_sound. Qed.
End Lower.
End Meaning.

(** ** Theorems *)

(** C16: lowering an annotation always returns, however the scope's aliases
    refer to each other: from a truthful interner, a scope of interned classes
    and a parser whose literals are shorter than its text, there is a fuel
    from which the result no longer changes; the interner's invariant is
    kept, the element is canonical and interned, degradations are only
    added, each with the annotation's file, and the evidence is the
    annotation's own, which is no proof.  If moreover no class or alias of the
    scope has a builtin or typing name as its last segment ([noShadow]; the code
    looks at those names first, see [dotted_class_shadowed]), the element holds
    every value the annotation names as Python reads it: the program's classes
    and aliases by their full path, the builtin and typing names bare or under
    their module.  A path that does not start at a name, a foreign module's
    name, and Callable are given no meaning, so nothing is claimed of the
    values they let in. *)
Theorem Lower_sound anc `{Hierarchy anc} opaque bitsem scope pos Parse e file st :
  (forall parse w r, Parse = Some parse -> parse w = Some r -> strsBelow (String.length w) r = true) ->
  inv anc opaque bitsem (lIn st) -> scopeOk scope (lIn st) ->
  exists F t st', let ev := Annotated t (spanOf pos file e) in
    (forall n, F <= n -> Lower scope pos Parse n (Some e) file st = Some ((t, Some ev), st')) /\
    inv anc opaque bitsem (lIn st') /\ extends (lIn st) (lIn st') /\ plainOp (lIn st') t /\
    (noShadow scope -> forall v, means anc opaque bitsem scope Parse e v -> gamma anc opaque bitsem t v) /\
    (exists new, lDegradations st' = lDegradations st ++ new /\
       Forall (fun d => spFile (dSpan d) = file) new) /\
    evKind ev = EvAnnotation /\ IsProof ev = Some false.
Proof.
  intros HP Hi Hs. set (st0 := mkLowerer (lIn st) file (lDegradations st)).
  destruct (lower_total anc opaque bitsem scope pos Parse (fun _ _ => False) ltac:(by apply nothing_reading) HP e st0)
    as (F & t & st' & E & [Gi Ge _ Gd] & [Ht _]); [by split|].
  exists F, t, st'. split_and!; try done.
  - intros n Hn. cbn [Lower]. fold st0. unfold abind. by rewrite E.
  - intros Hns. destruct (lower_total anc opaque bitsem scope pos Parse (means anc opaque bitsem scope Parse) ltac:(by apply means_reading) HP e st0)
      as (F' & t' & st'' & E' & _ & [_ Hv]); [by split|].
    specialize (E (max F F') ltac:(lia)). rewrite (E' (max F F') ltac:(lia)) in E. by injection E as <- <-.
Qed.

(** [Optional[Ints]] where [Ints = list["int"]]. *)
Definition demoScope : AnnScope :=
  mkAnnScope (fun _ => None)
    (fun n => if String.eqb n "Ints" then Some (Subscript (Name "list") (StrLit "int")) else None).
Definition demoParse (w : string) : option Expr :=
  if String.eqb w "int" then Some (Name "int") else None.
Definition demoAnn : Expr := Subscript (Attribute (Name "typing") "Optional") (Name "Ints").

Lemma Lower_sound_witness :
  exists F t st', forall n, F <= n ->
    Lower (Some demoScope) (fun _ => (1, 1)%Z) (Some demoParse) n (Some demoAnn) "m.py"
      (NewLowerer NewInterner) = Some ((t, Some (Annotated t (mkSpan "m.py" 1 1))), st') /\
    gamma demoAnc (fun _ _ => False) (fun _ _ _ => False) t (VList [VObj "bool" 1]).
Proof.
  destruct (Lower_sound demoAnc (fun _ _ => False) (fun _ _ _ => False) (Some demoScope)
    (fun _ => (1, 1)%Z) (Some demoParse) demoAnn "m.py" (NewLowerer NewInterner))
    as (F & t & st' & E & _ & _ & _ & Hv & _).
  - intros parse w r [= <-]. unfold demoParse. case_match; intros [= <-]. done.
  - apply NewInterner_inv.
  - intros n c Hc. discriminate Hc.
  - exists F, t, st'. intros n Hn. split; [by apply E|]. apply Hv.
    { intros p Hp. destruct (decide (p = "Ints")) as [Ep|Hne]; [by rewrite Ep|]. exfalso. revert Hp. unfold bound.
      apply not_true_iff_false, orb_false_iff. split; apply bool_decide_eq_false; intros [x Hx]; [done|].
      simpl in Hx. apply String.eqb_neq in Hne. by rewrite Hne in Hx. }
    eapply M_optional; [done|done|left]. eapply M_alias; [done|done|done|].
    eapply (M_list _ _ _ _ _ _ _ (StrLit "int") []); [done|done|]. apply Forall_cons_2; [|done].
    eapply M_string; [done|done|]. eapply M_builtin; [done|done|done|]. simpl. unfold demoAnc. set_solver.
Defined.

(** ** Facts *)

Definition run (scope : option AnnScope) (e : Expr) : option (ty * list Degradation) :=
  match Lower scope (fun _ => (1, 1)%Z) None 10 (Some e) "m.py" (NewLowerer NewInterner) with
  | Some ((t, _), st) => Some (t, lDegradations st)
  | None => None
  end.

(** A union over the budget becomes [Dyn] and no degradation is recorded. *)
Lemma wide_union_silent :
  (fun r => (kind (fst r), snd r)) <$>
    run None (Subscript (Name "Union")
      (TupleLit [Name "int"; Name "str"; Name "bytes"; Name "float"; Name "complex"]))
  = Some (KindDyn, []).
Proof. reflexivity. Qed.

(** A path to a user's class is read by its last segment first: a class
    [m.int] in scope lowers to the builtin [int]. *)
Lemma dotted_class_shadowed c :
  (fun r => (kind (fst r), snd r)) <$>
    run (Some (mkAnnScope (fun n => if String.eqb n "m.int" then Some c else None) (fun _ => None)))
      (Attribute (Name "m") "int")
  = Some (KindInt, []).
Proof. reflexivity. Qed.

(** A chain that does not start with a name is rendered leaf first, so the
    attribute [foo] of [f().int] lowers to [int]. *)
Lemma unrooted_path_reversed :
  dottedPath (Attribute (Attribute (Call (Name "f") []) "int") "foo") = "foo.int" /\
  (fun r => (kind (fst r), snd r)) <$>
    run None (Attribute (Attribute (Call (Name "f") []) "int") "foo") = Some (KindInt, []).
Proof. split; reflexivity. Qed.

(** A one-element index holding a tuple is taken for [tuple[()]]. *)
Lemma nested_tuple_emptied :
  (fun r => (shp (fst r), snd r)) <$>
    run None (Subscript (Name "tuple") (TupleLit [TupleLit [Name "int"; Name "str"]]))
  = Some (ShTuple [] false, []).
Proof. reflexivity. Qed.
