(* ===== verification/Env.v ===== *)
(** * Env: the flow environment

    Model of src/pkg/types/env.go.  An [Env] is an immutable snapshot, so the
    map is a value; Go's iteration over a map is an explicit order of its
    keys, and the theorems about the operations that iterate hold for every
    order, or show what depends on it. *)

From stdpp Require Import sorting.
From S2P Require Import Prelude Lattice Interner Join TypeSem JoinSound JoinFacts Evidence.
Local Open Scope unagi_scope.

Inductive PlaceScope := ScopeLocal | ScopeAttr | ScopeGlobal.

#[export] Instance PlaceScope_eq_dec : EqDecision PlaceScope.
Proof. solve_decision. Defined.

Definition scopeIndex (s : PlaceScope) : nat :=
  match s with ScopeLocal => 0 | ScopeAttr => 1 | ScopeGlobal => 2 end.

#[export] Instance PlaceScope_countable : Countable PlaceScope.
Proof.
  refine (inj_countable' scopeIndex
    (fun n => match n with 0 => ScopeLocal | 1 => ScopeAttr | _ => ScopeGlobal end) _).
  by intros [].
Defined.

Record Place := mkPlace { Scope : PlaceScope; Path : string }.

#[export] Instance Place_eq_dec : EqDecision Place.
Proof. solve_decision. Defined.
#[export] Instance Place_countable : Countable Place.
Proof.
  refine (inj_countable' (fun p => (Scope p, Path p)) (fun '(s, n) => mkPlace s n) _).
  by intros [].
Defined.

Definition Local_ (path : string) : Place := mkPlace ScopeLocal path.
Definition Attr (path : string) : Place := mkPlace ScopeAttr path.
Definition Global (path : string) : Place := mkPlace ScopeGlobal path.

Record Binding := mkBinding { bType : ty; bAnn : option Evidence }.

(** [Env], with the interner it belongs to threaded by the operations. *)
Notation Env := (gmap Place Binding).

Definition NewEnv : Env := ∅.
Definition EnvLookup (e : Env) (p : Place) : option Binding := e !! p.
Definition TypeOf (s : Interner) (e : Env) (p : Place) : ty :=
  match e !! p with Some b => bType b | None => base s ADyn end.
Definition Bind (e : Env) (p : Place) (t : ty) (ann : option Evidence) : Env :=
  <[p := mkBinding t ann]> e.
Definition Forget (e : Env) (p : Place) : Env :=
  match e !! p with None => e | Some _ => delete p e end.

Definition scopeIn (s : PlaceScope) (set : list PlaceScope) : bool :=
  existsb (fun k => bool_decide (s = k)) set.

(** The hit test, then the filtered copy. *)
Definition invalidate (e : Env) (kill : list PlaceScope) : Env :=
  if existsb (fun pb : Place * Binding => scopeIn (Scope pb.1) kill) (map_to_list e)
  then filter (fun pb : Place * Binding => scopeIn (Scope pb.1) kill = false) e
  else e.

Definition AfterCall (e : Env) : Env := invalidate e [ScopeAttr; ScopeGlobal].
Definition AfterYield (e : Env) : Env := invalidate e [ScopeAttr; ScopeGlobal].

(** [Env.Join], over an iteration order of the receiver's places. *)
Fixpoint joinBinds (order : list Place) (e other out : Env) : M Env :=
  match order with
  | [] => ret out
  | p :: order =>
      match e !! p, other !! p with
      | Some a, Some b =>
          t <- Join (bType a) (bType b) ;;
          joinBinds order e other (<[p := mkBinding t None]> out)
      | _, _ => joinBinds order e other out
      end
  end.

Definition EnvJoin (order : list Place) (e other : Env) : M Env := joinBinds order e other ∅.

(** [Places] and its insertion sort: each place moves left past the greater
    ones; the sorted prefix is kept in reverse. *)
Definition placeLess (a b : Place) : bool :=
  if bool_decide (Scope a = Scope b) then String.ltb (Path a) (Path b)
  else scopeIndex (Scope a) <? scopeIndex (Scope b).

Fixpoint sinkPlace (p : Place) (prefix : list Place) : list Place :=
  match prefix with
  | [] => [p]
  | q :: prefix' => if placeLess p q then q :: sinkPlace p prefix' else p :: prefix
  end.

Definition sortPlaces (ps : list Place) : list Place :=
  rev (fold_left (fun acc p => sinkPlace p acc) ps []).

Definition Places (order : list Place) : list Place := sortPlaces order.

(** An iteration order of a map: its keys, each once. *)
Definition iterates (order : list Place) (e : Env) : Prop :=
  order ≡ₚ (map_to_list e).*1.

(** ** Lifetimes *)

Lemma invalidate_lookup e kill p :
  invalidate e kill !! p = if scopeIn (Scope p) kill then None else e !! p.
Proof.
  unfold invalidate. destruct (existsb _ _) eqn:E.
  - rewrite map_lookup_filter. destruct (e !! p) as [b|] eqn:Ep; simpl;
      destruct (scopeIn (Scope p) kill); simpl; try done; case_guard; done.
  - destruct (scopeIn (Scope p) kill) eqn:Es; [|done].
    destruct (e !! p) as [b|] eqn:Ep; [|done]. exfalso. apply not_true_iff_false in E.
    apply E, existsb_exists. exists (p, b). split; [|done].
    apply list_elem_of_In. by apply elem_of_map_to_list.
Qed.

(** ** Environments against a store *)

(** What a store may change at an opaque call: everything but locals. *)
Definition call_agrees (st st' : Place -> val) : Prop :=
  forall p, Scope p = ScopeLocal -> st' p = st p.

Section EnvSem.
Context (anc : string -> gset string) `{HH : Hierarchy anc}.
Context (opaque : string -> val -> Prop) (bitsem : Kind -> Z -> val -> Prop).
Local Notation gamma := (gamma anc opaque bitsem).
Local Notation inv := (inv anc opaque bitsem).

(** Every tracked place holds a value of its proven type. *)
Definition models (st : Place -> val) (e : Env) : Prop :=
  forall p b, e !! p = Some b -> gamma (bType b) (st p).

Definition env_ok (s : Interner) (e : Env) : Prop :=
  forall p b, e !! p = Some b -> operand s (bType b).

Lemma env_ok_mono s s' e : extends s s' -> env_ok s e -> env_ok s' e.
Proof. intros He Hok p b Hb. eapply operand_mono; eauto. Qed.

Lemma base_holds s a v : ok s -> atomSem anc a v -> gamma (base s a) v.
Proof.
  intros Hok Ha. destruct (ok_base s a Hok) as (_ & E & R).
  apply gamma_refl0; [done|]. rewrite E. by apply gamma_atom.
Qed.

Lemma joinBinds_spec order : forall e other out s,
  inv s -> env_ok s e -> env_ok s other -> env_ok s out ->
  exists r s', joinBinds order e other out s = Some (r, s') /\ inv s' /\ extends s s' /\
    env_ok s' r /\
    (forall p, is_Some (r !! p) <->
       is_Some (out !! p) \/ (p ∈ order /\ is_Some (e !! p) /\ is_Some (other !! p))) /\
    (forall st, models st out -> models st e \/ models st other -> models st r).
Proof.
  induction order as [|q order IH]; intros e other out s Hinv He Ho Hout; simpl.
  - exists out, s. split_and!; try done. intros p. split; [auto|].
    intros [?|(Hp & _)]; [done|by apply not_elem_of_nil in Hp].
  - destruct (e !! q) as [a|] eqn:Ea; [destruct (other !! q) as [b|] eqn:Eb|].
    + destruct (JoinF_spec anc opaque bitsem (joinFuel (bType a) (bType b))
        (bType a) (bType b) s Hinv (He _ _ Ea) (Ho _ _ Eb))
        as (t & s1 & E & Hinv1 & X1 & [Hi Hg Hl Hr _]); [unfold joinFuel; lia|].
      unfold bind, Join. rewrite E.
      destruct (IH e other (<[q := mkBinding t None]> out) s1) as
        (r & s' & Er & ? & X & ? & Hdom & Hm); eauto using env_ok_mono.
      { intros p b'. rewrite lookup_insert_Some. intros [[<- <-]|[_ Hp]]; [done|].
        eapply operand_mono; eauto. }
      exists r, s'. split_and!; try done; [by etrans| |].
      * intros p. rewrite Hdom, lookup_insert_is_Some', elem_of_cons.
        split; [|destruct (decide (q = p)) as [->|]; naive_solver].
        intros [[->|?]|?]; [right|by left|naive_solver]. split_and!; eauto.
      * intros st Hs Hor. apply Hm; [|done]. intros p b'. rewrite lookup_insert_Some.
        intros [[<- <-]|[_ Hp]]; [|by apply Hs]. simpl.
        destruct Hor as [Hst|Hst]; [apply Hl, (Hst _ _ Ea)|apply Hr, (Hst _ _ Eb)].
    + destruct (IH e other out s) as (r & s' & Er & ? & X & ? & Hdom & Hm); auto.
      exists r, s'. split_and!; try done. intros p. rewrite Hdom, elem_of_cons.
      split; [naive_solver|].
      intros [?|([->|?] & [? ?] & [? ?])]; [by left|congruence|right; split_and!; eauto].
    + destruct (IH e other out s) as (r & s' & Er & ? & X & ? & Hdom & Hm); auto.
      exists r, s'. split_and!; try done. intros p. rewrite Hdom, elem_of_cons.
      split; [naive_solver|].
      intros [?|([->|?] & [? ?] & [? ?])]; [by left|congruence|right; split_and!; eauto].
Qed.
End EnvSem.

(** ** Deterministic listings *)

Definition placeLe (a b : Place) : Prop := placeLess b a = false.

Lemma placeLe_spec a b : placeLe a b <->
  scopeIndex (Scope a) < scopeIndex (Scope b) \/ (Scope a = Scope b /\ String.le (Path a) (Path b)).
Proof.
  unfold placeLe, placeLess. case_bool_decide as E.
  - rewrite E, <- not_true_iff_false, ltb_le. split.
    + intros H. right. split; [done|].
      destruct (decide (String.le (Path a) (Path b))); [done|by exfalso].
    + intros [H|[_ H]]; [lia|by intros HN].
  - rewrite Nat.ltb_ge. assert (scopeIndex (Scope a) <> scopeIndex (Scope b)).
    { intros Hi. apply E. by destruct (Scope a), (Scope b). }
    split; [intros; left; lia|]. intros [?|[HE _]]; [lia|congruence].
Qed.

#[export] Instance placeLe_trans : Transitive placeLe.
Proof.
  intros a b c. rewrite !placeLe_spec. intros [?|[E1 H1]] [?|[E2 H2]].
  - left; lia. - rewrite <- E2. by left. - rewrite E1. by left.
  - right. split; [congruence|by etrans].
Qed.

#[export] Instance placeLe_antisymm : AntiSymm (=) placeLe.
Proof.
  intros a b. rewrite !placeLe_spec. intros [?|[E1 H1]] [?|[E2 H2]]; try lia;
    try (rewrite E1 in *; lia); try (rewrite E2 in *; lia).
  destruct a, b. simpl in *. f_equal; [done|]. by apply (anti_symm String.le).
Qed.

Lemma placeLe_total a b : placeLess a b = true -> placeLe a b.
Proof.
  intros H. destruct (placeLess b a) eqn:E; [|done]. exfalso.
  unfold placeLess in *. rewrite (bool_decide_ext (Scope b = Scope a) (Scope a = Scope b)) in E by done.
  case_bool_decide; [|apply Nat.ltb_lt in H, E; lia].
  apply ltb_le in H, E. by destruct (total String.le (Path a) (Path b)).
Qed.

Lemma sinkPlace_perm p l : sinkPlace p l ≡ₚ p :: l.
Proof.
  induction l as [|q l IH]; simpl; [done|]. destruct (placeLess p q); [|done].
  rewrite IH. constructor.
Qed.

Lemma sinkPlace_sorted p l :
  Sorted (flip placeLe) l -> Sorted (flip placeLe) (sinkPlace p l).
Proof.
  induction l as [|q l IH]; intros Hs; simpl; [repeat constructor|].
  destruct (placeLess p q) eqn:E; [|constructor; [done|by constructor]].
  apply Sorted_inv in Hs as [Hs Hq]. constructor; [by apply IH|].
  destruct l as [|w l]; simpl; [constructor; by apply placeLe_total|].
  destruct (placeLess p w); constructor; [by inversion Hq|by apply placeLe_total].
Qed.

Lemma fold_sink_spec ps : forall acc, Sorted (flip placeLe) acc ->
  Sorted (flip placeLe) (fold_left (fun acc p => sinkPlace p acc) ps acc) /\
  fold_left (fun acc p => sinkPlace p acc) ps acc ≡ₚ ps ++ acc.
Proof.
  induction ps as [|p ps IH]; intros acc Hs; simpl; [done|].
  destruct (IH (sinkPlace p acc) (sinkPlace_sorted p acc Hs)) as [? Hp]. split; [done|].
  rewrite Hp, sinkPlace_perm. by rewrite <- Permutation_middle.
Qed.

Lemma sortPlaces_spec ps : StronglySorted placeLe (sortPlaces ps) /\ sortPlaces ps ≡ₚ ps.
Proof.
  destruct (fold_sink_spec ps [] (Sorted_nil _)) as [Hs Hp]. rewrite app_nil_r in Hp.
  unfold sortPlaces. set (l := fold_left _ ps []) in *. clearbody l.
  split; [|by rewrite <- Permutation_rev].
  apply Sorted_StronglySorted in Hs; [|intros a b c; unfold flip; intros; by etrans].
  clear Hp. induction Hs as [|a l Hs IH Ha]; simpl; [constructor|].
  assert (Forall (fun x => placeLe x a) (rev l)) as Hr.
  { apply Forall_forall. intros x Hx. apply list_elem_of_In in Hx. rewrite <- in_rev in Hx.
    rewrite Forall_forall in Ha. by apply Ha, list_elem_of_In. }
  clear Ha Hs. induction IH as [|x r Hr' IHr Hx]; simpl; [repeat constructor|].
  apply Forall_cons in Hr as [Hxa Hra]. constructor; [auto|].
  apply Forall_app_2; [done|by constructor].
Qed.

(** ** Theorems *)

Section EnvTheorems.
Context (anc : string -> gset string) `{HH : Hierarchy anc}.
Context (opaque : string -> val -> Prop) (bitsem : Kind -> Z -> val -> Prop).

(** C36: merging two environments is sound for every iteration order of the map, when
    the interner is truthful about the program's classes and every binding of either
    environment is canonical, so without a class that has the exact-type bit (as in
    [JoinSound.Join_upper_bound]; narrowing by [type(x) is C] binds such a class,
    and [JoinFacts.Join_exact_unsound] shows that merging it is unsound). The merge
    returns, tracks exactly the places both edges track, keeps the bindings
    canonical, and the result describes every store either edge describes. *)
Theorem EnvJoin_sound order e other s :
  inv anc opaque bitsem s -> env_ok s e -> env_ok s other -> iterates order e ->
  exists r s', EnvJoin order e other s = Some (r, s') /\ inv anc opaque bitsem s' /\
    env_ok s' r /\
    (forall p, is_Some (r !! p) <-> is_Some (e !! p) /\ is_Some (other !! p)) /\
    (forall st, models anc opaque bitsem st e \/ models anc opaque bitsem st other ->
      models anc opaque bitsem st r).
Proof.
  intros Hinv He Ho Hit.
  destruct (joinBinds_spec anc opaque bitsem order e other ∅ s Hinv He Ho)
    as (r & s' & E & ? & _ & ? & Hdom & Hm); [by intros p b; rewrite lookup_empty|].
  exists r, s'. split_and!; try done.
  - intros p. rewrite Hdom, lookup_empty. split; [by intros [[? ?]|(_ & ? & ?)]|].
    intros [Hp ?]. right. split_and!; try done. rewrite Hit. destruct Hp as [b Hb].
    apply list_elem_of_fmap. exists (p, b). split; [done|by apply elem_of_map_to_list].
  - intros st. apply Hm. intros p b. by rewrite lookup_empty.
Qed.

(** An opaque call or a yield keeps exactly the local bindings, and what is
    left still describes the store whatever the callee did to attributes
    and globals. *)
Theorem AfterCall_sound e st st' :
  models anc opaque bitsem st e -> call_agrees st st' ->
  (forall p, AfterCall e !! p = match Scope p with ScopeLocal => e !! p | _ => None end) /\
  AfterYield e = AfterCall e /\ models anc opaque bitsem st' (AfterCall e).
Proof.
  intros Hm Hc.
  assert (forall p, AfterCall e !! p = match Scope p with ScopeLocal => e !! p | _ => None end) as Hl.
  { intros p. unfold AfterCall. rewrite invalidate_lookup. by destruct (Scope p). }
  split_and!; [done|done|]. intros p b Hb. rewrite Hl in Hb.
  destruct (Scope p) eqn:E; try done. rewrite (Hc p E). by apply Hm.
Qed.
End EnvTheorems.

Definition demoEnv : Env :=
  Bind (Bind NewEnv (Local_ "x") (base NewInterner AInt) None) (Global "g") (base NewInterner AStr) None.
Definition demoStore (p : Place) : val :=
  if bool_decide (p = Local_ "x") then VObj "int" 3 else VObj "str" 0.

Lemma EnvJoin_sound_witness :
  iterates [Local_ "x"; Global "g"] demoEnv /\
  exists r s', EnvJoin [Local_ "x"; Global "g"] demoEnv
      (Bind NewEnv (Local_ "x") (base NewInterner ABool) None) NewInterner = Some (r, s') /\
    is_Some (r !! Local_ "x").
Proof.
  assert (iterates [Local_ "x"; Global "g"] demoEnv) as Hit.
  { unfold iterates. vm_compute. repeat constructor. }
  split; [exact Hit|].
  destruct (EnvJoin_sound demoAnc (fun _ _ => False) (fun _ _ _ => False)
    [Local_ "x"; Global "g"] demoEnv (Bind NewEnv (Local_ "x") (base NewInterner ABool) None)
    NewInterner) as (r & s' & E & _ & _ & Hd & _).
  - apply NewInterner_inv.
  - intros p b Hb. unfold demoEnv, Bind, NewEnv in Hb.
    apply lookup_insert_Some in Hb as [[_ <-]|[_ Hb]]; [split; reflexivity|].
    apply lookup_insert_Some in Hb as [[_ <-]|[_ Hb]]; [split; reflexivity|].
    rewrite lookup_empty in Hb. discriminate.
  - intros p b Hb. unfold Bind, NewEnv in Hb.
    apply lookup_insert_Some in Hb as [[_ <-]|[_ Hb]]; [split; reflexivity|].
    rewrite lookup_empty in Hb. discriminate.
  - exact Hit.
  - exists r, s'. split; [exact E|]. apply Hd. split; vm_compute; eauto.
Defined.

Lemma demoEnv_models : models demoAnc (fun _ _ => False) (fun _ _ _ => False) demoStore demoEnv.
Proof.
  intros p b Hb. unfold demoEnv, Bind, NewEnv in Hb.
  apply lookup_insert_Some in Hb as [[<- <-]|[_ Hb]].
  { apply base_holds; [apply NewInterner_ok|]. unfold atomSem, demoAnc. simpl. set_solver. }
  apply lookup_insert_Some in Hb as [[<- <-]|[_ Hb]].
  { apply base_holds; [apply NewInterner_ok|]. unfold atomSem, demoAnc. simpl. set_solver. }
  rewrite lookup_empty in Hb. discriminate.
Qed.

Lemma AfterCall_sound_witness :
  models demoAnc (fun _ _ => False) (fun _ _ _ => False) demoStore (AfterCall demoEnv) /\
  AfterCall demoEnv !! Global "g" = None.
Proof.
  destruct (AfterCall_sound demoAnc (fun _ _ => False) (fun _ _ _ => False)
    demoEnv demoStore demoStore) as (Hl & _ & Hm).
  - apply demoEnv_models.
  - intros p _. reflexivity.
  - split; [exact Hm|]. rewrite Hl. reflexivity.
Defined.

(** The listing of the tracked places does not depend on the iteration
    order of the map: it is the sorted list of them, scope first, then path. *)
Theorem Places_deterministic o1 o2 e :
  iterates o1 e -> iterates o2 e ->
  Places o1 = Places o2 /\ StronglySorted placeLe (Places o1) /\ Places o1 ≡ₚ (map_to_list e).*1.
Proof.
  intros H1 H2. unfold Places. destruct (sortPlaces_spec o1) as [S1 P1], (sortPlaces_spec o2) as [S2 P2].
  split_and!; [|done|by etrans].
  apply (StronglySorted_unique placeLe); [done|done|]. by rewrite P1, P2, H1, H2.
Qed.

Lemma Places_deterministic_witness :
  Places [Global "g"; Local_ "x"] = Places [Local_ "x"; Global "g"].
Proof.
  apply (Places_deterministic [Global "g"; Local_ "x"] [Local_ "x"; Global "g"] demoEnv);
    unfold iterates; vm_compute; repeat constructor.
Defined.

(** Two places merge the same two tuples in opposite directions. *)
Definition mergeRun (order : list Place) : M (option string) :=
  s <- get ;;
  li <- List (base s AInt) ;; ls <- List (base s AStr) ;;
  a <- Tuple [li; ls] ;; b <- Tuple [base s AInt] ;;
  r <- EnvJoin order
         (Bind (Bind NewEnv (Local_ "p") a None) (Local_ "q") b None)
         (Bind (Bind NewEnv (Local_ "p") b None) (Local_ "q") a None) ;;
  ret ((fun x => key (bType x)) <$> r !! Local_ "p").

(** The type a place gets at a merge depends on Go's iteration order
    over the map: the order in which the two places are merged decides which
    direction of the join is memoized for both. *)
Theorem EnvJoin_order_matters :
  run (mergeRun [Local_ "p"; Local_ "q"]) = Some (Some "K(O{D|J<O{D|G}>}...)") /\
  run (mergeRun [Local_ "q"; Local_ "p"]) = Some (Some "K(O{D|J<D>|J<G>}...)").
Proof. split; vm_compute; reflexivity. Qed.
