(* ===== verification/Narrow.v ===== *)
(** * Narrow: flow-sensitive narrowing

    Model of src/pkg/types/narrow.go: the predicates the dataflow pass
    recognizes, the types their two edges leave, and the environments [Narrow]
    and [Assert] build from them.  The None tests (the narrowing behind every
    Optional) are shown sound on both edges, and [Subtract], the false edge
    of isinstance, for every tested type. *)

From S2P Require Import Prelude Lattice Interner Join TypeSem JoinSound JoinFacts Evidence Env.
Local Open Scope unagi_scope.

Inductive Predicate :=
  | IsInstance (p : Place) (cls : ty)
  | IsNone (p : Place)
  | Truthy (p : Place)
  | TypeIs (p : Place) (cls : ty)
  | Not (inner : Predicate).

Fixpoint place (pr : Predicate) : Place :=
  match pr with
  | IsInstance p _ | IsNone p | Truthy p | TypeIs p _ => p
  | Not q => place q
  end.

(** Every member that is a subtype of [other] removed. *)
Definition Subtract (t other : ty) : M ty :=
  match shp t with
  | Atomic ADyn | Atomic ANever => ret t
  | ShUnion es =>
      let kept := List.filter (fun m => negb (isSubtype m other)) es in
      if Nat.eqb (length kept) (length es) then ret t else makeUnion kept
  | _ => if isSubtype t other then neverM else ret t
  end.

Fixpoint edges (pr : Predicate) (cur : ty) : M (ty * ty) :=
  match pr with
  | IsInstance _ c => t <- Meet cur c ;; f <- Subtract cur c ;; ret (t, f)
  | IsNone _ =>
      s <- get ;; t <- Meet cur (base s ANone) ;; f <- Subtract cur (base s ANone) ;; ret (t, f)
  | Truthy _ => s <- get ;; t <- Subtract cur (base s ANone) ;; ret (t, cur)
  | TypeIs _ c => m <- Meet cur c ;; t <- WithRefine m RefineExactType ;; ret (t, cur)
  | Not q => tf <- edges q cur ;; ret (snd tf, fst tf)
  end.

Definition Narrow (env : Env) (pr : Predicate) (sp : Span) : M (Env * Env) :=
  s <- get ;;
  let p := place pr in
  let cur := TypeOf s env p in
  tf <- edges pr cur ;;
  let prior := match EnvLookup env p with Some b => bAnn b | None => None end in
  ret (Bind env p (fst tf) (Some (Narrowed (fst tf) sp prior)),
       Bind env p (snd tf) (Some (Narrowed (snd tf) sp prior))).

Definition Assert (env : Env) (pr : Predicate) (sp : Span) : M Env :=
  tf <- Narrow env pr sp ;; ret (fst tf).

(** ** Subtraction *)

Section NarrowSem.
Context (anc : string -> gset string) `{HH : Hierarchy anc}.
Context (opaque : string -> val -> Prop) (bitsem : Kind -> Z -> val -> Prop).
Local Notation gamma := (gamma anc opaque bitsem).
Local Notation inv := (inv anc opaque bitsem).
Local Notation "a ⊑ b" := (le anc opaque bitsem a b) (at level 70).

Lemma union_member s t es m : inv s -> operand s t -> shp t = ShUnion es -> m ∈ es ->
  operand s m /\ memberb m = true /\ arm s m.
Proof.
  intros Hinv Ht E Hm. assert (operand s m) as Ho
    by (apply (operand_child anc opaque bitsem s t); [done|done|by rewrite E]).
  destruct (good_union t es (proj2 Ht) E) as (_ & HF & _). rewrite forallb_forall in HF.
  pose proof (HF m (proj1 (list_elem_of_In _ _) Hm)) as Hmb. destruct Ho.
  split_and!; try done. split_and!; auto using memberb_refine.
Qed.

Lemma Subtract_spec s t other :
  inv s -> operand s t -> operand s other -> refine other = 0%Z ->
  exists r s', Subtract t other s = Some (r, s') /\ frame anc s s' /\ operand s' r /\
    (forall v, gamma t v -> ~ gamma other v -> gamma r v).
Proof.
  intros Hinv Ht Ho Hr. pose proof Hinv as [Hok Htab _].
  assert (frame anc s s) as Hrefl by by apply frame_refl.
  assert (exists r s', ret t s = Some (r, s') /\ frame anc s s' /\ operand s' r /\
    (forall v, gamma t v -> ~ gamma other v -> gamma r v)) as Hret by (exists t, s; split_and!; auto).
  assert (exists r s', (if isSubtype t other then neverM else ret t) s = Some (r, s') /\
    frame anc s s' /\ operand s' r /\
    (forall v, gamma t v -> ~ gamma other v -> gamma r v)) as Hbare.
  { destruct (isSubtype t other) eqn:E; [|exact Hret].
    destruct (never_operand anc opaque bitsem s Hinv) as [Hn _].
    exists (base s ANever), s. split_and!; try done; try apply Hn. intros v Hv Hno. exfalso. apply Hno.
    apply (isSubtype_sound anc opaque bitsem s t other); try done; [apply Ht|apply Ho]. }
  unfold Subtract. destruct (shp t) as [[]| | | | | | |es|] eqn:E;
    try exact Hret; try exact Hbare.
  clear Hbare. destruct (_ =? _) eqn:El; [exact Hret|].
  destruct (makeUnion_bound anc opaque bitsem s
    (List.filter (fun m => negb (isSubtype m other)) es)) as (r & s' & Er & HB); try done.
  { apply Forall_forall. intros m Hm. apply list_elem_of_In, filter_In in Hm as [Hm _].
    apply list_elem_of_In in Hm. by apply (union_member s t es). }
  exists r, s'. destruct HB as [Hf Hi Hg _ Hup _]. split_and!; try done.
  intros v Hv Hno. rewrite Forall_forall in Hup.
  apply gamma_shape in Hv. rewrite E in Hv. apply gamma_union in Hv as (m & Hm & Hmv).
  apply (Hup m); [|done]. apply list_elem_of_In, filter_In. split; [by apply list_elem_of_In|].
  apply negb_true_iff, not_true_iff_false. intros Hs. apply Hno.
  destruct (union_member s t es m Hinv Ht E Hm) as ([Him _] & _ & _).
  apply (isSubtype_sound anc opaque bitsem s m other); try done. apply Ho.
Qed.

(** ** Narrowing by None *)

(** None has a class of its own that nothing else belongs to, and no
    protocol or callable reading admits None. *)
Context (none_alone : forall c, c ∈ anc "NoneType" -> c = "NoneType").
Context (none_opaque : forall k, ~ opaque k VNone).

(** No class element, at the top or among union members, is named NoneType. *)
Definition classNotNone (t : ty) : bool :=
  match shp t with ShClass c => negb (String.eqb (cName c) "NoneType") | _ => true end.
Definition noneFree (t : ty) : bool :=
  match shp t with ShUnion es => forallb classNotNone es | _ => classNotNone t end.

Definition meetsNone (s : Interner) (a r : ty) : Prop :=
  operand s r /\ (gamma a VNone -> gamma r VNone) /\ (refine a = 0%Z -> refine r = 0%Z).

(** The meet table is right about None. *)
Definition none_memo_ok (s : Interner) : Prop :=
  forall a r, operand s a -> noneFree a = true ->
    meetMemo s !! memoKey (tid a) (tid (base s ANone)) = Some r -> meetsNone s a r.

Lemma none_spec s : ok s -> operand s (base s ANone) /\ shp (base s ANone) = Atomic ANone /\
  refine (base s ANone) = 0%Z.
Proof.
  intros Hok. destruct (ok_base s ANone Hok) as (Hi & E & R).
  split; [split; [done|by rewrite goodb_unfold, E]|done].
Qed.

Lemma none_holds s : ok s -> gamma (base s ANone) VNone.
Proof. intros. by apply base_holds. Qed.

(** Only None, Dyn and unions over them hold None. *)
Lemma holds_none a : gamma a VNone -> noneFree a = true ->
  kind a = KindNone \/ kind a = KindDyn \/ exists es, shp a = ShUnion es.
Proof.
  intros Hv%gamma_shape Hf. unfold kind, noneFree, classNotNone in *.
  destruct (shp a) as [[]|c|es|es []|k e|e|sg|es|c] eqn:E; simpl; eauto; exfalso;
    try (by apply gamma_atom in Hv as Hx; apply none_alone in Hx).
  - by apply gamma_atom in Hv.
  - apply gamma_class in Hv. apply none_alone in Hv. rewrite Hv in Hf. done.
  - by apply gammaShape_list in Hv as (? & ? & _).
  - by apply gammaShape_tuple in Hv as (? & ? & _).
  - by apply gammaShape_tuple in Hv as (? & ? & _).
  - by apply gammaShape_dict in Hv as (? & ? & _).
  - by apply gammaShape_set in Hv as (? & ? & _).
  - unfold gammaShape in Hv. simpl in Hv. destruct Hv as [_ Hv]. by apply none_opaque in Hv.
  - unfold gammaShape in Hv. simpl in Hv. destruct Hv as [_ Hv]. by apply none_opaque in Hv.
Qed.

(** None is a subtype of nothing else and nothing else is one of None. *)
Lemma isSubtype_none s a :
  inv s -> interned s a -> kind a <> KindNever -> kind a <> KindDyn -> a <> base s ANone ->
  isSubtype a (base s ANone) = false /\ isSubtype (base s ANone) a = false.
Proof.
  intros [Hok Ht _] Ha Hn Hd Hne. destruct (none_spec s Hok) as ([Hi _] & E & _).
  split; apply not_true_iff_false; intros Hs; apply (isSubtype_inv anc s) in Hs; try done;
    unfold className, kind in *; rewrite ?E in Hs; simpl in Hs.
  - destruct Hs as [?|[?|[?|[[_ ?]|(c & _ & _ & ?)]]]]; congruence.
  - destruct Hs as [?|[?|[?|[[? _]|(c & ? & _)]]]]; congruence.
Qed.

(** Every key of the meet table is a pair of known ids. *)
Definition meet_ids (s : Interner) : Prop :=
  forall i j r, meetMemo s !! memoKey i j = Some r ->
    i < length (byID s) /\ j < length (byID s).

(** The state the None tests preserve. *)
Record ninv (s : Interner) : Prop := {
  ni_inv : inv s;
  ni_none : none_memo_ok s;
  ni_ids : meet_ids s
}.

Lemma meetsNone_mono s s' a r : extends s s' -> meetsNone s a r -> meetsNone s' a r.
Proof. intros He (? & ? & ?). split_and!; eauto using operand_mono. Qed.

(** Earlier elements are still the only ones with their ids. *)
Lemma operand_back s s' a : extends s s' -> operand s' a -> tid a < length (byID s) -> operand s a.
Proof.
  intros [Hp _ _] [Hi Hg] Hlt. split; [|done]. unfold interned in *.
  destruct (lookup_lt_is_Some_2 (byID s) (tid a) Hlt) as [b Hb].
  pose proof (prefix_lookup_Some _ _ _ _ Hb Hp). congruence.
Qed.

Lemma frame_ninv s s' : ninv s -> frame anc s s' -> ninv s'.
Proof.
  intros [Hinv Hn Hids] Hf. destruct (frame_inv anc opaque bitsem s s' Hinv Hf) as [Hinv' He].
  constructor; [done| |].
  - intros a r Ha Hfree Hk. rewrite (ext_base _ _ He), (fr_meet _ _ _ Hf) in Hk.
    destruct (Hids _ _ _ Hk) as [Hlt _].
    apply (meetsNone_mono s); [done|]. apply Hn; [|done|done]. by apply (operand_back s s').
  - intros i j r Hk. rewrite (fr_meet _ _ _ Hf) in Hk. destruct (Hids _ _ _ Hk).
    pose proof (prefix_length _ _ (ext_ids _ _ He)). lia.
Qed.

Lemma setMeetMemo_ninv s a r :
  ninv s -> operand s a -> meetsNone s a r ->
  exists s', setMeetMemo (memoKey (tid a) (tid (base s ANone))) r s = Some (tt, s') /\
    ninv s' /\ extends s s' /\ meetsNone s' a r.
Proof.
  intros [[[Hc Hb] Ht Hm] Hn Hids] Ha HM. eexists. split; [done|]. set (s' := mkInterner _ _ _ _ _ _).
  assert (extends s s') as He by by constructor.
  destruct (none_spec s (conj Hc Hb)) as ([Hi _] & _ & _).
  assert (forall x, operand s' x -> operand s x) as Hback by (intros x [? ?]; by split).
  split_and!; [|done|by eapply meetsNone_mono]. constructor.
  - constructor.
    + split; [|by eapply base_on_mono]. destruct Hc as [H1 H2 H3]. split; [|done|done].
      intros i t Hti. destruct (H1 i t Hti) as (? & ? & ? & ? & ?). split_and!; eauto with intern.
    + by apply (table_ok_classes anc s).
    + by apply (memo_ok_mono anc opaque bitsem s).
  - intros x r' Hx Hfree Hk. simpl in Hk. apply lookup_insert_Some in Hk as [[Hk <-]|[_ Hk]].
    + assert (x = a) as ->; [|by eapply meetsNone_mono].
      apply (interned_tid s); [apply (Hback x Hx)|apply Ha|].
      apply memoKey_cases in Hk as [[E1 E2]|[E1 E2]]; congruence.
    + apply (meetsNone_mono s); [done|]. apply Hn; auto.
  - intros i j r' Hk. simpl in Hk. apply lookup_insert_Some in Hk as [[Hk <-]|[_ Hk]].
    + destruct Ha as [Ha _]. apply lookup_lt_Some in Ha, Hi.
      apply memoKey_cases in Hk as [[<- <-]|[<- <-]]; done.
    + by apply (Hids i j r').
Qed.

(** A step that meets a union member with None. *)
Definition meets_members (Mt : ty -> ty -> M ty) : Prop :=
  forall m s, ninv s -> operand s m -> memberb m = true -> classNotNone m = true ->
    exists r s', Mt m (base s ANone) s = Some (r, s') /\ ninv s' /\ extends s s' /\
      meetsNone s' m r.

Lemma meetParts_none Mt : meets_members Mt -> forall ms s,
  ninv s -> Forall (fun m => operand s m /\ memberb m = true /\ classNotNone m = true) ms ->
  exists rs s', meetParts Mt ms (base s ANone) s = Some (rs, s') /\ ninv s' /\ extends s s' /\
    Forall (arm s') rs /\
    (Exists (fun m => gamma m VNone) ms -> Exists (fun r => gamma r VNone) rs).
Proof.
  intros HM. induction ms as [|m ms IH]; intros s Hn HF; simpl.
  - exists [], s. split_and!; done.
  - apply Forall_cons in HF as [(Ho & Hmb & Hcn) HF].
    destruct (HM m s Hn Ho Hmb Hcn) as (r & s1 & E1 & Hn1 & X1 & HM1).
    unfold bind. rewrite E1.
    destruct (IH s1 Hn1) as (rs & s2 & E2 & Hn2 & X2 & Harm & Hex).
    { eapply Forall_impl; [exact HF|]. intros x (? & ? & ?). split_and!; eauto using operand_mono. }
    rewrite (ext_base _ _ X1) in E2. rewrite E2.
    destruct (meetsNone_mono s1 s2 m r X2 HM1) as ((Hir & Hgr) & Hv & Hp).
    destruct (kind_eqb (kind r) KindNever) eqn:Ek.
    + exists rs, s2. split_and!; try done; [by etrans|].
      intros [Hm|Hms]%Exists_cons; [|auto]. exfalso. apply Hv, gamma_shape in Hm.
      apply kind_eqb_true in Ek. unfold kind in Ek.
      destruct (shp r) as [[]| | | | | | | |]; try done. by apply gamma_atom in Hm.
    + exists (r :: rs), s2. split_and!; try done; [by etrans| |].
      * constructor; [|done]. split_and!; try done. by apply Hp, memberb_refine.
      * intros [Hm|Hms]%Exists_cons; [left; auto|right; auto].
Qed.

Lemma noneFree_strip a b : strip a = strip b -> noneFree a = noneFree b.
Proof.
  assert (forall t, classNotNone (strip t) = classNotNone t) as Hc by (intros [[] r i]; done).
  assert (forall t, noneFree (strip t) = noneFree t) as Hf.
  { intros [[] r i]; simpl; try done. unfold noneFree. simpl.
    rewrite forallb_map_strip; [done|]. apply Forall_forall. intros; apply Hc. }
  intros E. by rewrite <- (Hf a), E, Hf.
Qed.

(** Meeting a plain element that is neither Dyn, Never nor None itself. *)
Lemma structuralMeet_none Mt s a :
  (kind a = KindUnion -> meets_members Mt) ->
  ninv s -> operand s a -> refine a = 0%Z -> noneFree a = true ->
  kind a <> KindNever -> kind a <> KindDyn ->
  exists r s', structuralMeet Mt a (base s ANone) s = Some (r, s') /\ ninv s' /\ extends s s' /\
    meetsNone s' a r /\ refine r = 0%Z /\ (kind r = KindNone -> kind a = KindUnion \/ r = a).
Proof.
  intros HMt Hn Ha Hr Hfree Hnev Hdyn. pose proof Hn as [Hinv _ _]. pose proof (inv_ok _ _ _ _ Hinv) as Hok.
  destruct (none_spec s Hok) as ([Hi _] & En & _). unfold structuralMeet.
  destruct (ptr_eq a (base s ANone)) eqn:Ep.
  { exists a, s. split_and!; try done; by right. }
  assert (a <> base s ANone) as Hne.
  { intros He. apply not_true_iff_false in Ep. apply Ep. eapply ptr_eq_spec; [apply Ha|exact Hi|done]. }
  destruct (isSubtype_none s a Hinv (proj1 Ha) Hnev Hdyn Hne) as [-> ->]. rewrite En.
  destruct (decide (kind a = KindUnion)) as [Hu|Hu].
  - pose proof Hu as Hku. unfold kind in Hu.
    destruct (shp a) as [[]| | | | | | |es|] eqn:E; try done.
    destruct (meetParts_none Mt (HMt Hku) es s Hn)
      as (rs & s1 & E1 & Hn1 & X1 & Harm & Hex).
    { apply Forall_forall. intros m Hm. destruct (union_member s a es m Hinv Ha E Hm) as (? & ? & _).
      split_and!; try done. unfold noneFree in Hfree. rewrite E in Hfree.
      rewrite forallb_forall in Hfree. by apply Hfree, list_elem_of_In. }
    assert (gamma a VNone -> Exists (fun r => gamma r VNone) rs) as Hav.
    { intros Hv%gamma_shape. rewrite E in Hv. apply gamma_union in Hv as (m & Hm & Hmv).
      apply Hex, Exists_exists. eauto. }
    pose proof Hn1 as [[Hok1 Ht1 _] _ _].
    unfold meetUnion, bind. rewrite E1. destruct rs as [|r0 rs].
    + destruct (never_operand anc opaque bitsem s1 (ni_inv s1 Hn1)) as [Hno _].
      destruct (ok_base s1 ANever Hok1) as (_ & _ & Hnr).
      exists (base s1 ANever), s1. split_and!; try done; [|by left]. split_and!; [done| |done].
      intros Hv%Hav. by apply Exists_nil in Hv.
    + destruct (makeUnion_bound anc opaque bitsem s1 (r0 :: rs) Hok1 Ht1 Harm)
        as (r & s2 & E2 & [Hf Hir Hgr Hpr Hup _]).
      exists r, s2. split_and!; try done; [by eapply frame_ninv|etrans; [done|by destruct Hf]| |by left].
      split_and!; [done| |done]. intros Hv%Hav. apply Exists_exists in Hv as (x & Hx & Hxv).
      rewrite Forall_forall in Hup. by apply (Hup x).
  - assert (exists r s', neverM s = Some (r, s') /\ ninv s' /\ extends s s' /\
      meetsNone s' a r /\ refine r = 0%Z /\ (kind r = KindNone -> kind a = KindUnion \/ r = a)) as Hnv.
    { destruct (never_operand anc opaque bitsem s Hinv) as [Hno _].
      destruct (ok_base s ANever Hok) as (_ & Enev & Hnr).
      exists (base s ANever), s. split_and!; try done.
      - split_and!; [done| |done]. intros Hv. destruct (holds_none a Hv Hfree) as [Hk|[Hk|[es Hk]]]; [|done|].
        + exfalso. apply Hne, (interned_strip_eq s); [by apply ok_core|apply Ha|done|].
          destruct a as [sh ra ia], (base s ANone) as [shn rn ino] eqn:Eb. unfold kind in Hk. simpl in *.
          destruct (none_spec s Hok) as (_ & _ & Rn). rewrite Eb in Rn. simpl in Rn.
          destruct sh as [[]| | | | | | | |]; try done. by subst.
        + exfalso. apply Hu. unfold kind. by rewrite Hk.
      - unfold kind. by rewrite Enev. }
    unfold kind in Hu. destruct (shp a) as [[]| |[|? ?]| | | | | |]; try exact Hnv. done.
Qed.

Lemma stripRefine_plain t s : refine t = 0%Z -> stripRefine t s = Some (t, s).
Proof. intros R. unfold stripRefine, WithoutRefine. by rewrite R, Z.land_0_l. Qed.

Lemma meetUncached_none Mt s a :
  (kind a = KindUnion -> meets_members Mt) ->
  ninv s -> operand s a -> noneFree a = true ->
  exists r s', meetUncached Mt a (base s ANone) s = Some (r, s') /\ ninv s' /\ extends s s' /\
    meetsNone s' a r.
Proof.
  intros HMt Hn Ha Hfree. pose proof Hn as [Hinv _ _]. pose proof Hinv as [Hok Ht _].
  destruct (none_spec s Hok) as (Ho & En & Rn).
  assert (kind (base s ANone) = KindNone) as Kn by (unfold kind; by rewrite En).
  unfold meetUncached. rewrite Kn, Rn, Z.lor_0_r. change (kind_eqb KindNone KindDyn) with false.
  change (kind_eqb KindNone KindNever) with false. rewrite orb_false_r. cbv iota.
  destruct (kind_eqb (kind a) KindDyn) eqn:Kd.
  { exists (base s ANone), s. split_and!; try done. split_and!; try done. intros _. by apply none_holds. }
  destruct (kind_eqb (kind a) KindNever) eqn:Kv.
  { destruct (never_operand anc opaque bitsem s Hinv) as [Hno _].
    destruct (ok_base s ANever Hok) as (_ & _ & Hnr).
    exists (base s ANever), s. split_and!; try done. split_and!; try done.
    intros Hv%gamma_shape. apply kind_eqb_true in Kv. unfold kind in Kv.
    destruct (shp a) as [[]| | | | | | | |]; try done. by apply gamma_atom in Hv. }
  assert (kind a <> KindDyn) as Hd by (intros Hx; rewrite Hx in Kd; done).
  assert (kind a <> KindNever) as Hv by (intros Hx; rewrite Hx in Kv; done).
  destruct (stripRefine_spec anc s a Hok Ht (proj1 Ha)) as (sa & s1 & E1 & F1 & I1 & S1).
  pose proof (frame_ninv s s1 Hn F1) as Hn1. pose proof (fr_ext _ _ _ F1) as X1.
  assert (kind sa = kind a) as Ks by (rewrite (strip_kind _ _ S1); done).
  assert (operand s1 sa) as Hsa.
  { split; [done|]. rewrite (strip_good _ _ S1). destruct Ha as [_ Hg].
    rewrite goodb_unfold in *. cbn [shp refine]. apply andb_true_iff in Hg as [Hg ->].
    rewrite andb_true_r. by destruct (shp a). }
  assert (refine sa = 0%Z) as Rs by (by rewrite (strip_refine _ _ S1)).
  assert (noneFree sa = true) as Hfs by (by rewrite (noneFree_strip _ _ S1)).
  destruct (structuralMeet_none Mt s1 sa) as (bs & s2 & E2 & Hn2 & X2 & HM & Rb & Hk);
    try done; try (by rewrite Ks).
  rewrite (ext_base _ _ X1) in E2.
  unfold bind. rewrite E1, (stripRefine_plain (base s ANone) s1 Rn), E2.
  assert (gamma a VNone -> gamma sa VNone) as Hag.
  { intros Hx%gamma_shape. apply (strip_gamma anc opaque bitsem _ _ _ S1). by apply gamma_plain. }
  destruct HM as (Hob & Hgb & _).
  case_match eqn:Hc; [|exists bs, s2; split_and!; try done; [by etrans|split_and!; auto]].
  apply andb_true_iff in Hc as [[Hnz%negb_true_iff%Z.eqb_neq K1%kind_eqb_true]%andb_true_iff K2%kind_eqb_true].
  destruct (Hk K2) as [Hu| ->]; [rewrite Ks in Hu; congruence|].
  destruct (WithRefine_spec anc s2 sa (refine a)) as (u & s3 & E3 & F3 & I3 & S3);
    [apply Hn2|apply Hn2|apply Hob|done|eapply refine_range; [|apply Ha]; done|done|].
  exists u, s3. split_and!; [done|by eapply frame_ninv|etrans; [exact X1|etrans; [exact X2|apply F3]]|].
  assert (strip u = strip a) as Su.
  { rewrite S3. destruct a as [sh ra ia], sa as [shs rs isa]. simpl in *. congruence. }
  split_and!; [split; [done|]| |done].
  - rewrite (strip_good _ _ Su). apply Ha.
  - by apply strip_gamma.
Qed.

(** The meet of a canonical element with None is defined and keeps None. *)
Lemma MeetF_none fuel s a :
  (kind a = KindUnion -> 2 <= fuel) -> 1 <= fuel ->
  ninv s -> operand s a -> noneFree a = true ->
  exists r s', MeetF fuel a (base s ANone) s = Some (r, s') /\ ninv s' /\ extends s s' /\
    meetsNone s' a r.
Proof.
  revert s a. induction fuel as [|fuel IH]; intros s a Hf1 Hf2 Hn Ha Hfree; [lia|].
  pose proof (inv_ok _ _ _ _ (ni_inv s Hn)) as Hok. destruct (none_spec s Hok) as (Ho & _ & _).
  cbn [MeetF]. destruct (ptr_eq a (base s ANone)) eqn:Ep.
  { exists a, s. split_and!; try done. }
  unfold bind, get, ret. cbn beta iota.
  destruct (meetMemo s !! memoKey (tid a) (tid (base s ANone))) as [r|] eqn:Em.
  { exists r, s. split_and!; try done. by apply (ni_none s Hn). }
  destruct (meetUncached_none (MeetF fuel) s a) as (r & s1 & E1 & Hn1 & X1 & HM); try done.
  { intros Hu m s' Hn' Hm Hmb Hcn. specialize (Hf1 Hu). unfold memberb in Hmb.
    apply andb_true_iff in Hmb as [_ Hmb].
    apply IH; [intros Hk; by rewrite Hk in Hmb|lia|done|done|].
    unfold noneFree, kind in *. by destruct (shp m). }
  rewrite E1.
  destruct (setMeetMemo_ninv s1 a r Hn1) as (s2 & E2 & Hn2 & X2 & HM2); eauto using operand_mono.
  rewrite (ext_base _ _ X1) in E2. rewrite E2.
  exists r, s2. split_and!; try done. by etrans.
Qed.

Lemma Meet_none s a : ninv s -> operand s a -> noneFree a = true ->
  exists r s', Meet a (base s ANone) s = Some (r, s') /\ ninv s' /\ extends s s' /\ meetsNone s' a r.
Proof.
  intros. unfold Meet, meetFuel. apply MeetF_none; auto; destruct a, (base s ANone); simpl; lia.
Qed.

(** ** The edges of the None tests *)

(** Truth of a value, as Python's [bool()] of it: None is false. *)
Context (truthy : val -> bool) (truthy_none : truthy VNone = false).

Definition isNoneV (v : val) : bool := match v with VNone => true | _ => false end.

Fixpoint noneTest (pr : Predicate) : bool :=
  match pr with
  | IsNone _ | Truthy _ => true
  | Not q => noneTest q
  | _ => false
  end.

Fixpoint testb (pr : Predicate) (v : val) : bool :=
  match pr with
  | IsNone _ => isNoneV v
  | Truthy _ => truthy v
  | Not q => negb (testb q v)
  | _ => false
  end.

Lemma gamma_none s v : ok s -> gamma (base s ANone) v -> v = VNone.
Proof.
  intros Hok Hv%gamma_shape. destruct (none_spec s Hok) as (_ & E & _). rewrite E in Hv.
  by apply gamma_atom in Hv.
Qed.

Lemma edges_none pr : noneTest pr = true -> forall cur s,
  ninv s -> operand s cur -> noneFree cur = true ->
  exists t f s', edges pr cur s = Some ((t, f), s') /\ ninv s' /\ extends s s' /\
    operand s' t /\ operand s' f /\
    (forall v, gamma cur v -> if testb pr v then gamma t v else gamma f v).
Proof.
  induction pr as [p c|p|p|p c|q IH]; intros Hp cur s Hn Hc Hfree; try done; cbn [edges testb].
  - unfold bind, get, ret. cbn beta iota.
    destruct (Meet_none s cur Hn Hc Hfree) as (t & s1 & -> & Hn1 & X1 & (Ht & Hv & _)).
    pose proof (ni_inv s1 Hn1) as Hinv1. destruct (none_spec s1 (inv_ok _ _ _ _ Hinv1)) as (Ho & _ & Rn).
    rewrite <- (ext_base _ _ X1).
    destruct (Subtract_spec s1 cur (base s1 ANone) Hinv1) as (f & s2 & -> & F2 & Hf & Hs);
      [by eapply operand_mono|done|done|].
    exists t, f, s2. pose proof (fr_ext _ _ _ F2).
    split_and!; [done|by eapply frame_ninv|by etrans|by eapply operand_mono|done|].
    intros v Hcv. destruct (isNoneV v) eqn:Ev; [destruct v; try done; auto|].
    apply Hs; [done|]. intros Hg. apply gamma_none in Hg; [by subst v|apply Hinv1].
  - unfold bind, get, ret. cbn beta iota. pose proof (ni_inv s Hn) as Hinv.
    destruct (none_spec s (inv_ok _ _ _ _ Hinv)) as (Ho & _ & Rn).
    destruct (Subtract_spec s cur (base s ANone) Hinv Hc Ho Rn) as (t & s1 & -> & F1 & Ht & Hs).
    exists t, cur, s1. pose proof (fr_ext _ _ _ F1).
    split_and!; [done|by eapply frame_ninv|done|done|by eapply operand_mono|].
    intros v Hcv. destruct (truthy v) eqn:Ev; [|done]. apply Hs; [done|].
    intros Hg. apply gamma_none in Hg; [congruence|apply Hinv].
  - destruct (IH Hp cur s Hn Hc Hfree) as (t & f & s' & E & ? & ? & ? & ? & Hv).
    unfold bind, ret. rewrite E. exists f, t, s'. split_and!; try done.
    intros v Hcv. specialize (Hv v Hcv). by destruct (testb q v).
Qed.

Lemma bind_models st e p t ann : models anc opaque bitsem st e -> gamma t (st p) ->
  models anc opaque bitsem st (Bind e p t ann).
Proof.
  intros Hm Ht q b. unfold Bind. rewrite lookup_insert_Some.
  intros [[<- <-]|[_ Hq]]; [done|by apply Hm].
Qed.

Lemma bind_env_ok s e p t ann : env_ok s e -> operand s t -> env_ok s (Bind e p t ann).
Proof.
  intros He Ht q b. unfold Bind. rewrite lookup_insert_Some.
  intros [[<- <-]|[_ Hq]]; [done|by eapply He].
Qed.

(** C37: narrowing by a None test ([x is None], a truth test, their negations)
    returns and is sound on both edges: when the test comes out one way on the
    place's value, the environment of that edge describes the store. The bindings of
    the environment are canonical, without a class that has the exact-type bit
    (which an earlier [type(x) is C] leaves behind), no class element of the
    narrowed type is called NoneType, and None's class is nobody's ancestor but its
    own. The interner is truthful about the program's classes, and its meet table is
    right about None ([ninv]): that holds of a fresh interner and is kept by every
    None test; it is not shown of meets with other types. *)
Theorem Narrow_none_sound s e pr sp st :
  ninv s -> env_ok s e -> noneTest pr = true -> noneFree (TypeOf s e (place pr)) = true ->
  models anc opaque bitsem st e ->
  exists t f s', Narrow e pr sp s = Some ((t, f), s') /\ ninv s' /\ env_ok s' t /\ env_ok s' f /\
    (if testb pr (st (place pr)) then models anc opaque bitsem st t
     else models anc opaque bitsem st f).
Proof.
  intros Hn He Hp Hfree Hm. pose proof (inv_ok _ _ _ _ (ni_inv s Hn)) as Hok.
  assert (operand s (TypeOf s e (place pr)) /\ gamma (TypeOf s e (place pr)) (st (place pr))) as [Hc Hv].
  { unfold TypeOf. destruct (e !! place pr) as [b|] eqn:E; [by eauto|].
    destruct (ok_base s ADyn Hok) as (? & Ed & ?). split; [split; [done|by rewrite goodb_unfold, Ed]|].
    by apply base_holds. }
  destruct (edges_none pr Hp _ s Hn Hc Hfree) as (t & f & s' & E & Hn' & X & Ht & Hf & Hs).
  unfold Narrow, bind, get, ret. cbn beta iota. rewrite E. cbn [fst snd].
  eexists _, _, s'. split; [done|]. specialize (Hs _ Hv).
  split_and!; [done|apply bind_env_ok; eauto using env_ok_mono|apply bind_env_ok; eauto using env_ok_mono|].
  destruct (testb pr _); by apply bind_models.
Qed.
End NarrowSem.

(** [Subtract], the false edge of isinstance, returns and is sound for every
    canonical type and every plain tested type: a value of the type that is
    not one of the tested type is still described by what is left. *)
Theorem Subtract_sound anc `{Hierarchy anc} opaque bitsem s t other :
  inv anc opaque bitsem s -> operand s t -> operand s other -> refine other = 0%Z ->
  exists r s', Subtract t other s = Some (r, s') /\ inv anc opaque bitsem s' /\ operand s' r /\
    (forall v, gamma anc opaque bitsem t v -> ~ gamma anc opaque bitsem other v ->
      gamma anc opaque bitsem r v).
Proof.
  intros Hinv Ht Ho Hr. destruct (Subtract_spec anc opaque bitsem s t other Hinv Ht Ho Hr)
    as (r & s' & E & F & Hro & Hv).
  exists r, s'. destruct (frame_inv anc opaque bitsem s s' Hinv F). split_and!; done.
Qed.

Lemma Subtract_sound_witness :
  let s := NewInterner in
  exists r s', Subtract (base s ABool) (base s AInt) s = Some (r, s') /\ kind r = KindNever.
Proof.
  destruct (Subtract_sound demoAnc (fun _ _ => False) (fun _ _ _ => False) NewInterner
    (base NewInterner ABool) (base NewInterner AInt)) as (r & s' & E & _ & _ & _).
  - apply NewInterner_inv.
  - split; reflexivity.
  - split; reflexivity.
  - reflexivity.
  - exists r, s'. split; [exact E|]. vm_compute in E. injection E as <- _. reflexivity.
Defined.

Lemma NewInterner_ninv anc opaque bitsem : ninv anc opaque bitsem NewInterner.
Proof.
  split; [apply NewInterner_inv| |].
  - intros a r _ _ Hk. exfalso. change (meetMemo NewInterner) with (∅ : gmap (nat * nat) ty) in Hk.
    by rewrite lookup_empty in Hk.
  - intros i j r Hk. exfalso. change (meetMemo NewInterner) with (∅ : gmap (nat * nat) ty) in Hk.
    by rewrite lookup_empty in Hk.
Qed.

Lemma Narrow_none_sound_witness :
  exists t f s', Narrow demoEnv (Not (IsNone (Local_ "x"))) sp0 NewInterner = Some ((t, f), s') /\
    models demoAnc (fun _ _ => False) (fun _ _ _ => False) demoStore t.
Proof.
  destruct (Narrow_none_sound demoAnc (fun _ _ => False) (fun _ _ _ => False)
    ltac:(intros c Hc; unfold demoAnc in Hc; simpl in Hc; set_solver) ltac:(intros k Hk; exact Hk)
    (fun v => negb (isNoneV v)) eq_refl NewInterner demoEnv (Not (IsNone (Local_ "x"))) sp0 demoStore)
    as (t & f & s' & E & _ & _ & _ & Hm).
  - apply NewInterner_ninv.
  - intros p b Hb. unfold demoEnv, Bind, NewEnv in Hb.
    apply lookup_insert_Some in Hb as [[_ <-]|[_ Hb]]; [split; reflexivity|].
    apply lookup_insert_Some in Hb as [[_ <-]|[_ Hb]]; [split; reflexivity|].
    rewrite lookup_empty in Hb. discriminate.
  - reflexivity.
  - reflexivity.
  - apply demoEnv_models.
  - exists t, f, s'. split; [exact E|exact Hm].
Defined.
