(* ===== verification/Contagion.v ===== *)
(** * Contagion: how far an unproven boundary spreads

    Model of src/pkg/types/contagion.go: the taint graph, the worklist walk
    behind each origin's poison count, and the ranked report.  The walk runs
    on fuel; [poisonFuel] is the bound [poisonSet] starts from. *)

From stdpp Require Import sorting.
From S2P Require Import Prelude Lattice Evidence.
Local Open Scope Z_scope.

Inductive OriginKind :=
  | OriginNone | OriginExportedParam | OriginUnannotatedParam | OriginReturnsAny
  | OriginExternalImport | OriginDynamicAttr.

#[export] Instance OriginKind_eq_dec : EqDecision OriginKind.
Proof. solve_decision. Defined.

Record Slot := mkSlot {
  slID : Z; slFunc : string; slSpan : Span; slLabel : string; slDyn : bool; slOrigin : OriginKind }.

Record TaintGraph := mkGraph {
  slots : list Slot;
  index : gmap Z nat;
  gedges : gmap Z (list Z) }.

Definition NewTaintGraph : TaintGraph := mkGraph [] ∅ ∅.

Definition AddSlot (g : TaintGraph) (s : Slot) : TaintGraph :=
  match index g !! slID s with
  | Some i => mkGraph (<[i := s]> (slots g)) (index g) (gedges g)
  | None => mkGraph (slots g ++ [s]) (<[slID s := length (slots g)]> (index g)) (gedges g)
  end.

(** Reading a missing key of the map gives the nil slice. *)
Definition succs (g : TaintGraph) (id : Z) : list Z := default [] (gedges g !! id).

Definition AddEdge (g : TaintGraph) (from to : Z) : TaintGraph :=
  if existsb (Z.eqb to) (succs g from) then g
  else mkGraph (slots g) (index g) (<[from := succs g from ++ [to]]> (gedges g)).

(** The slot is present and sealed at Dyn. *)
Definition dynAt (g : TaintGraph) (id : Z) : bool :=
  match index g !! id with
  | Some i => match slots g !! i with Some s => slDyn s | None => false end
  | None => false
  end.

(** The worklist loop; the stack's top is its last element in the source and
    the head here. *)
Fixpoint poisonLoop (fuel : nat) (g : TaintGraph) (seen : gset Z) (stack : list Z) : option (gset Z) :=
  match stack with
  | [] => Some seen
  | id :: stack =>
    match fuel with
    | O => None
    | S fuel =>
      if bool_decide (id ∈ seen) then poisonLoop fuel g seen stack
      else if dynAt g id then poisonLoop fuel g ({[id]} ∪ seen) (rev (succs g id) ++ stack)
      else poisonLoop fuel g seen stack
    end
  end.

(** Edges that can still be pushed: those of slots not yet seen. *)
Definition unseenEdges (g : TaintGraph) (seen : gset Z) : nat :=
  list_sum (map (fun id => length (succs g id)) (elements (dom (index g) ∖ seen))).

Definition poisonFuel (g : TaintGraph) (origin : Z) : nat :=
  (length (succs g origin) + unseenEdges g ∅)%nat.

Definition poisonSet (g : TaintGraph) (origin : Z) : option (gset Z) :=
  poisonLoop (poisonFuel g origin) g ∅ (rev (succs g origin)).

Record OriginRank := mkRank { orSlot : Slot; orPoisons : Z }.

Record ContagionReport := mkReport {
  Total : Z; DynDyn : Z; Origins : list OriginRank; cause : gmap string Z }.

Definition originWins (candidate current : Z) : bool := (current =? 0) || (candidate <? current).

(** [perFunc]: how many of the reached slots each function holds. *)
Definition funcOf (g : TaintGraph) (id : Z) : option string :=
  match index g !! id with
  | Some i => slFunc <$> slots g !! i
  | None => slFunc <$> slots g !! 0%nat
  end.

Definition countFunc (g : TaintGraph) (reached : gset Z) (fn : string) : Z :=
  Z.of_nat (length (List.filter (fun id => bool_decide (funcOf g id = Some fn)) (elements reached))).

Definition funcsOf (g : TaintGraph) (reached : gset Z) : gset string :=
  list_to_set (omap (funcOf g) (elements reached)).

(** One function's entry in the two cause tables. *)
Definition updateCause (sid : Z) (n : Z) (fn : string) (st : gmap string Z * gmap string Z) :
    gmap string Z * gmap string Z :=
  let '(best, cs) := st in
  let b := default 0 (best !! fn) in
  if (n >? b) || ((n =? b) && originWins sid (default 0 (cs !! fn)))
  then (<[fn := n]> best, <[fn := sid]> cs) else st.

Definition causeStep (g : TaintGraph) (sid : Z) (reached : gset Z)
    (st : gmap string Z * gmap string Z) : gmap string Z * gmap string Z :=
  fold_right (fun fn => updateCause sid (countFunc g reached fn) fn) st (elements (funcsOf g reached)).

Definition isOrigin (s : Slot) : bool := slDyn s && negb (bool_decide (slOrigin s = OriginNone)).

Fixpoint analyzeLoop (g : TaintGraph) (l : list Slot) (acc : list OriginRank)
    (st : gmap string Z * gmap string Z) : option (list OriginRank * (gmap string Z * gmap string Z)) :=
  match l with
  | [] => Some (acc, st)
  | s :: l =>
    if isOrigin s then
      match poisonSet g (slID s) with
      | None => None
      | Some reached =>
        analyzeLoop g l (acc ++ [mkRank s (Z.of_nat (size reached))]) (causeStep g (slID s) reached st)
      end
    else analyzeLoop g l acc st
  end.

(** The report's order: more poisoned first, then the lower slot id. *)
Definition rankLess (a b : OriginRank) : bool :=
  if negb (orPoisons a =? orPoisons b) then orPoisons a >? orPoisons b
  else slID (orSlot a) <? slID (orSlot b).

Fixpoint insertRank (r : OriginRank) (l : list OriginRank) : list OriginRank :=
  match l with
  | [] => [r]
  | q :: l' => if rankLess q r then q :: insertRank r l' else r :: l
  end.

(** [sort.SliceStable]. *)
Definition sortRanks (l : list OriginRank) : list OriginRank := fold_right insertRank [] l.

Definition Analyze (g : TaintGraph) : option ContagionReport :=
  match analyzeLoop g (slots g) [] (∅, ∅) with
  | None => None
  | Some (ranks, (_, cs)) =>
    Some (mkReport (Z.of_nat (length (slots g))) (Z.of_nat (length (List.filter slDyn (slots g))))
            (sortRanks ranks) cs)
  end.

Definition CauseFor (r : ContagionReport) (fn : string) : option Slot :=
  match cause r !! fn with
  | None => None
  | Some id => orSlot <$> List.find (fun o => slID (orSlot o) =? id) (Origins r)
  end.

(** ** Well-formed graphs *)

(** The index and the slots agree. *)
Definition graph_ok (g : TaintGraph) : Prop :=
  (forall id i, index g !! id = Some i -> exists s, slots g !! i = Some s /\ slID s = id) /\
  (forall i s, slots g !! i = Some s -> index g !! slID s = Some i).

Lemma NewTaintGraph_ok : graph_ok NewTaintGraph.
Proof. split; intros; simpl in *; set_solver. Qed.

Lemma AddSlot_ok g s : graph_ok g -> graph_ok (AddSlot g s).
Proof.
  intros [H1 H2]. unfold AddSlot. destruct (index g !! slID s) as [i|] eqn:E; split; simpl.
  - intros id j Hj. destruct (H1 id j Hj) as (s' & Hs' & Hid). destruct (decide (i = j)) as [->|Hne].
    + exists s. split; [apply list_lookup_insert_eq; by eapply lookup_lt_Some|].
      destruct (H1 _ _ E) as (s2 & Hs2 & Hid2). congruence.
    + exists s'. split; [by rewrite list_lookup_insert_ne|done].
  - intros j s' Hj. apply list_lookup_insert_Some in Hj as [(-> & -> & _)|[_ Hj]]; [done|auto].
  - intros id j Hj. apply lookup_insert_Some in Hj as [[<- <-]|[_ Hj]].
    + exists s. split; [|done]. by rewrite lookup_app_r, Nat.sub_diag.
    + destruct (H1 _ _ Hj) as (s' & Hs' & ?). exists s'. split; [by apply lookup_app_l_Some|done].
  - intros j s' Hj. apply lookup_app_Some in Hj as [Hj|[Hge Hj]].
    + rewrite lookup_insert_ne; [auto|]. intros He. rewrite He, (H2 _ _ Hj) in E. done.
    + destruct (j - length (slots g))%nat eqn:Ed; [|done]. simpl in Hj. injection Hj as <-.
      rewrite lookup_insert_eq. f_equal. lia.
Qed.

Lemma AddEdge_ok g a b : graph_ok g -> graph_ok (AddEdge g a b).
Proof. intros H. unfold AddEdge. by case_match. Qed.

(** ** The walk *)

(** What the comment on [Analyze] defines: the Dyn slots reachable from the
    origin through Dyn slots. *)
Inductive poisons (g : TaintGraph) (origin : Z) : Z -> Prop :=
  | po_edge id : id ∈ succs g origin -> dynAt g id = true -> poisons g origin id
  | po_step id id' : poisons g origin id -> id' ∈ succs g id -> dynAt g id' = true ->
      poisons g origin id'.

Lemma dynAt_indexed g id : dynAt g id = true -> id ∈ dom (index g).
Proof. unfold dynAt. intros H. apply elem_of_dom. by destruct (index g !! id). Qed.

Lemma list_sum_perm l1 l2 : l1 ≡ₚ l2 -> list_sum l1 = list_sum l2.
Proof. induction 1; simpl; lia. Qed.

Lemma unseenEdges_see g seen id :
  dynAt g id = true -> id ∉ seen ->
  (unseenEdges g ({[id]} ∪ seen) + length (succs g id))%nat = unseenEdges g seen.
Proof.
  intros Hd Hn. apply dynAt_indexed in Hd. unfold unseenEdges.
  assert (dom (index g) ∖ seen = {[id]} ∪ (dom (index g) ∖ ({[id]} ∪ seen))) as ->.
  { apply set_eq. intros x. destruct (decide (x = id)); set_solver. }
  set (rest := dom (index g) ∖ ({[id]} ∪ seen)).
  assert (elements ({[id]} ∪ rest) ≡ₚ id :: elements rest) as Hp
    by (apply elements_union_singleton; set_solver).
  rewrite (list_sum_perm _ _ (Permutation_map (fun id => length (succs g id)) Hp)). simpl. lia.
Qed.

Definition walk_inv (g : TaintGraph) (origin : Z) (seen : gset Z) (stack : list Z) : Prop :=
  (forall x, x ∈ seen -> poisons g origin x) /\
  (forall x, x ∈ stack -> dynAt g x = true -> poisons g origin x) /\
  (forall y x, y = origin \/ y ∈ seen -> x ∈ succs g y -> dynAt g x = true -> x ∈ seen \/ x ∈ stack).

Lemma poisonLoop_spec g origin fuel : forall seen stack,
  walk_inv g origin seen stack -> (length stack + unseenEdges g seen <= fuel)%nat ->
  exists r, poisonLoop fuel g seen stack = Some r /\ forall x, x ∈ r <-> poisons g origin x.
Proof.
  induction fuel as [|fuel IH]; intros seen [|id stack] (Hs & Hst & Hcl) Hf; simpl in *; try lia.
  1,2: exists seen; (split; [done|]); intros x; split; [auto|];
    induction 1 as [x Hx Hd|y x _ IHy Hx Hd];
    [destruct (Hcl origin x) as [|?%not_elem_of_nil]; auto; done
    |destruct (Hcl y x) as [|?%not_elem_of_nil]; auto; done].
  case_bool_decide as Hin.
  - apply IH; [|lia]. split_and!; [done| |].
    + intros x Hx. apply Hst. by right.
    + intros y x Hy Hx Hd. destruct (Hcl y x Hy Hx Hd) as [?|[->|?]%elem_of_cons]; auto.
  - destruct (dynAt g id) eqn:Ed.
    + apply IH.
      * assert (poisons g origin id) as Hp by (apply Hst; [by left|done]). split_and!.
        -- intros x [->%elem_of_singleton|?]%elem_of_union; auto.
        -- intros x [Hx|Hx]%elem_of_app Hd; [|apply Hst; [by right|done]].
           apply list_elem_of_In, in_rev, list_elem_of_In in Hx. by eapply po_step.
        -- intros y x Hy Hx Hd. destruct (decide (y = id)) as [->|Hne].
           { right. apply elem_of_app. left. by apply list_elem_of_In, in_rev; rewrite rev_involutive; apply list_elem_of_In. }
           destruct (Hcl y x) as [?|[->|?]%elem_of_cons]; [set_solver|done|done|set_solver|set_solver|].
           right. apply elem_of_app. by right.
      * rewrite length_app, length_rev. pose proof (unseenEdges_see g seen id Ed Hin). lia.
    + apply IH; [|lia]. split_and!; [done| |].
      * intros x Hx. apply Hst. by right.
      * intros y x Hy Hx Hd. destruct (Hcl y x Hy Hx Hd) as [?|[->|?]%elem_of_cons]; auto. congruence.
Qed.

Lemma poisonSet_spec g origin :
  exists r, poisonSet g origin = Some r /\ forall x, x ∈ r <-> poisons g origin x.
Proof.
  unfold poisonSet. apply poisonLoop_spec.
  - split_and!; [set_solver| |].
    + intros x Hx Hd. apply list_elem_of_In, in_rev, list_elem_of_In in Hx. by apply po_edge.
    + intros y x [->|Hy] Hx Hd; [|set_solver]. right.
      apply list_elem_of_In, in_rev. rewrite rev_involutive. by apply list_elem_of_In.
  - by rewrite length_rev.
Qed.

(** The poison walk terminates on every graph, cycles included, and
    finds exactly the Dyn slots reachable from the origin through Dyn slots. *)
Theorem poisonSet_reachable g origin :
  exists r, poisonSet g origin = Some r /\
    (forall x, x ∈ r <-> poisons g origin x) /\ (forall x, x ∈ r -> dynAt g x = true).
Proof.
  destruct (poisonSet_spec g origin) as (r & E & Hr). exists r. split_and!; [done|done|].
  intros x Hx%Hr. by destruct Hx.
Qed.

Definition cycleGraph : TaintGraph :=
  AddEdge (AddEdge (AddSlot (AddSlot NewTaintGraph
    (mkSlot 1 "f" sp0 "x" true OriginExportedParam)) (mkSlot 2 "f" sp0 "y" true OriginNone)) 1 2) 2 1.

(** The poison set does contain its origin when the origin lies on a
    cycle, although the comment says it is excluded. *)
Theorem poisonSet_contains_origin : poisonSet cycleGraph 1 = Some {[1; 2]}.
Proof. vm_compute. reflexivity. Qed.

(** ** The report *)

Lemma insertRank_perm r l : insertRank r l ≡ₚ r :: l.
Proof.
  induction l as [|q l IH]; simpl; [done|]. destruct (rankLess q r); [|done].
  rewrite IH. constructor.
Qed.

Lemma sortRanks_perm l : sortRanks l ≡ₚ l.
Proof. induction l as [|r l IH]; simpl; [done|]. by rewrite insertRank_perm, IH. Qed.

Definition rankLe (a b : OriginRank) : Prop := rankLess b a = false.

Lemma rankLe_spec a b : rankLe a b <->
  orPoisons b < orPoisons a \/ (orPoisons a = orPoisons b /\ slID (orSlot a) <= slID (orSlot b)).
Proof.
  unfold rankLe, rankLess. destruct (Z.eqb_spec (orPoisons b) (orPoisons a)) as [E|E]; simpl.
  - rewrite Z.ltb_ge. lia.
  - rewrite Z.gtb_ltb, Z.ltb_ge. lia.
Qed.

#[export] Instance rankLe_trans : Transitive rankLe.
Proof. intros a b c. rewrite !rankLe_spec. lia. Qed.

Lemma insertRank_sorted r l : Sorted rankLe l -> Sorted rankLe (insertRank r l).
Proof.
  induction l as [|q l IH]; intros Hs; simpl; [repeat constructor|].
  destruct (rankLess q r) eqn:E; [|constructor; [done|by constructor]].
  assert (rankLe q r) as Hqr.
  { unfold rankLess in E. apply rankLe_spec.
    destruct (Z.eqb_spec (orPoisons q) (orPoisons r)); simpl in E; lia. }
  apply Sorted_inv in Hs as [Hs Hq]. constructor; [auto|].
  destruct l as [|w l]; simpl; [by constructor|].
  destruct (rankLess w r); constructor; [by inversion Hq|done].
Qed.

Lemma sortRanks_sorted l : StronglySorted rankLe (sortRanks l).
Proof.
  apply Sorted_StronglySorted; [apply _|]. induction l; simpl; [constructor|by apply insertRank_sorted].
Qed.

Lemma analyzeLoop_spec g l : forall acc st,
  exists ranks st', analyzeLoop g l acc st = Some (acc ++ ranks, st') /\
    map orSlot ranks = List.filter isOrigin l /\
    Forall (fun r => exists reached, (forall x, x ∈ reached <-> poisons g (slID (orSlot r)) x) /\
      orPoisons r = Z.of_nat (size (reached : gset Z))) ranks.
Proof.
  induction l as [|s l IH]; intros acc st; simpl.
  - exists [], st. rewrite app_nil_r. split_and!; [done|done|constructor].
  - destruct (isOrigin s).
    + destruct (poisonSet_spec g (slID s)) as (r & E & Hr). rewrite E.
      destruct (IH (acc ++ [mkRank s (Z.of_nat (size r))]) (causeStep g (slID s) r st))
        as (ranks & st' & El & Hm & HF).
      exists (mkRank s (Z.of_nat (size r)) :: ranks), st'. rewrite El, <- app_assoc.
      split_and!; [done|simpl; by rewrite Hm|]. constructor; [|done]. by exists r.
    + apply IH.
Qed.

(** [Analyze] returns on every graph.  Its totals count the slots and
    the Dyn slots, every Dyn origin is ranked once with the number of Dyn
    slots it reaches, and the ranking puts the larger count first, ties
    broken by the lower slot id. *)
Theorem Analyze_report g :
  exists r, Analyze g = Some r /\
    Total r = Z.of_nat (length (slots g)) /\
    DynDyn r = Z.of_nat (length (List.filter slDyn (slots g))) /\
    map orSlot (Origins r) ≡ₚ List.filter isOrigin (slots g) /\
    StronglySorted rankLe (Origins r) /\
    Forall (fun o => exists reached, (forall x, x ∈ reached <-> poisons g (slID (orSlot o)) x) /\
      orPoisons o = Z.of_nat (size (reached : gset Z))) (Origins r).
Proof.
  unfold Analyze. destruct (analyzeLoop_spec g (slots g) [] (∅, ∅)) as (ranks & [best cs] & E & Hm & HF).
  rewrite E. simpl. eexists. split; [done|]. simpl. split_and!; try done.
  - by rewrite sortRanks_perm, Hm.
  - apply sortRanks_sorted.
  - by rewrite sortRanks_perm.
Qed.

(** Two origins, slots 0 and 5, that poison one slot of function g each. *)
Definition tieGraph : TaintGraph :=
  AddEdge (AddEdge (AddSlot (AddSlot (AddSlot NewTaintGraph
    (mkSlot 0 "f" sp0 "a" true OriginExportedParam)) (mkSlot 5 "f" sp0 "b" true OriginReturnsAny))
    (mkSlot 7 "g" sp0 "c" true OriginNone)) 0 7) 5 7.

(** The tie of the per-function cause does not go to the lower slot id
    when that id is 0: slot 0 is taken for an unset cause, so the later
    origin 5 replaces it. *)
Theorem cause_tie_zero :
  (r ← Analyze tieGraph; slID <$> CauseFor r "g") = Some 5.
Proof. vm_compute. reflexivity. Qed.
