(* ===== verification/Stub.v ===== *)
(** * Stub: cross-checking registered signatures against a stub

    Model of the checking half of src/pkg/types/stub.go: a loaded [Stub], its
    [Lookup], and [CrossCheck] with [sigShapeEqual].  [LoadStub] and the
    lowering of annotations read frontend syntax and are not modelled: a
    loaded stub is data here. *)

From stdpp Require Import sorting.
From S2P Require Import Prelude Lattice Interner.
Local Open Scope unagi_scope.

Record Stub := mkStub {
  Funcs : gmap string (Signature ty);
  Vars : gmap string ty;
  Getattr : bool;
  Partial : bool }.

(** [Stub.Lookup]: the type and the found flag. *)
Definition StubLookup (st : Stub) (name : string) : M (option ty) :=
  match Funcs st !! name with
  | Some sig => t <- Callable sig ;; ret (Some t)
  | None =>
    match Vars st !! name with
    | Some t => ret (Some t)
    | None =>
      if Getattr st || Partial st then s <- get ;; ret (Some (base s ADyn)) else ret None
    end
  end.

Record Disagreement := mkDis {
  dName : string; dRegistered : Signature ty; dStub : option (Signature ty); dReason : string }.

(** Pointer comparison of optional element types (nil compares equal to nil). *)
Definition optPtrEq (a b : option ty) : bool :=
  match a, b with
  | None, None => true
  | Some x, Some y => ptr_eq x y
  | _, _ => false
  end.

Definition paramEqual (pa pb : Param ty) : bool :=
  bool_decide (pKind pa = pKind pb) && Bool.eqb (pHasDefault pa) (pHasDefault pb) &&
  ptr_eq (pType pa) (pType pb) &&
  (bool_decide (pKind pa = ParamPosOnly) || String.eqb (pName pa) (pName pb)).

Definition sigShapeEqual (a b : Signature ty) : bool :=
  Nat.eqb (length (sParams a)) (length (sParams b)) && ptr_eq (sReturn a) (sReturn b) &&
  optPtrEq (sStar a) (sStar b) && optPtrEq (sStarStar a) (sStarStar b) &&
  forallb (fun p => paramEqual p.1 p.2) (combine (sParams a) (sParams b)).

(** One name's verdict. *)
Definition checkName (registered : gmap string (Signature ty)) (st : Stub)
    (allow : gmap string bool) (name : string) : list Disagreement :=
  if default false (allow !! name) then []
  else match registered !! name with
  | None => []
  | Some reg =>
    match Funcs st !! name with
    | None =>
        if Getattr st || Partial st then []
        else [mkDis name reg None "declared in Go but absent from the stub"]
    | Some want =>
        if sigShapeEqual reg want then []
        else [mkDis name reg (Some want) "signature shape disagrees with the stub"]
    end
  end.

(** [CrossCheck], over an iteration order of the registered map. *)
Definition CrossCheck (order : list string) (registered : gmap string (Signature ty)) (st : Stub)
    (allow : gmap string bool) : list Disagreement :=
  concat (map (checkName registered st allow) (merge_sort String.le order)).

(** ** Specification *)

(** The signatures agree on what a caller sees. *)
Record same_shape (a b : Signature ty) : Prop := {
  ss_params : Forall2 (fun p q => pKind p = pKind q /\ pHasDefault p = pHasDefault q /\
      pType p = pType q /\ (pKind p = ParamPosOnly \/ pName p = pName q)) (sParams a) (sParams b);
  ss_star : sStar a = sStar b;
  ss_starstar : sStarStar a = sStarStar b;
  ss_return : sReturn a = sReturn b }.

Definition sig_interned (s : Interner) (sg : Signature ty) : Prop :=
  Forall (interned s) (children (ShCallable sg)).

Lemma optPtrEq_spec s a b : Forall (interned s) (optList a) -> Forall (interned s) (optList b) ->
  optPtrEq a b = true <-> a = b.
Proof.
  destruct a as [x|], b as [y|]; simpl; intros Ha Hb; try (split; [done|congruence]).
  apply Forall_cons in Ha as [Ha _]. apply Forall_cons in Hb as [Hb _].
  rewrite (ptr_eq_spec s x y Ha Hb). split; congruence.
Qed.

Lemma paramEqual_spec s p q : interned s (pType p) -> interned s (pType q) ->
  paramEqual p q = true <->
  pKind p = pKind q /\ pHasDefault p = pHasDefault q /\ pType p = pType q /\
  (pKind p = ParamPosOnly \/ pName p = pName q).
Proof.
  intros Hp Hq. unfold paramEqual.
  rewrite !andb_true_iff, orb_true_iff, !bool_decide_eq_true, String.eqb_eq,
    (ptr_eq_spec s _ _ Hp Hq), Bool.eqb_true_iff. tauto.
Qed.

Lemma sigShapeEqual_spec s a b : sig_interned s a -> sig_interned s b ->
  sigShapeEqual a b = true <-> same_shape a b.
Proof.
  unfold sig_interned, sigShapeEqual. cbn [children]. rewrite !Forall_app.
  intros (Pa & Sa & SSa & Ra) (Pb & Sb & SSb & Rb).
  apply Forall_cons in Ra as [Ra _]. apply Forall_cons in Rb as [Rb _].
  rewrite !andb_true_iff, (optPtrEq_spec s _ _ Sa Sb), (optPtrEq_spec s _ _ SSa SSb),
    (ptr_eq_spec s _ _ Ra Rb), Nat.eqb_eq.
  assert (length (sParams a) = length (sParams b) /\
    forallb (fun p => paramEqual p.1 p.2) (combine (sParams a) (sParams b)) = true <->
    Forall2 (fun p q => pKind p = pKind q /\ pHasDefault p = pHasDefault q /\
      pType p = pType q /\ (pKind p = ParamPosOnly \/ pName p = pName q)) (sParams a) (sParams b)) as Hps.
  { clear -Pa Pb. revert Pa Pb. generalize (sParams a), (sParams b). intros la.
    induction la as [|p la IH]; intros [|q lb] Pa Pb; simpl;
      try (split; [by intros []|intros H; by inversion H]).
    apply Forall_cons in Pa as [Hp Pa]. apply Forall_cons in Pb as [Hq Pb].
    rewrite andb_true_iff, (paramEqual_spec s p q Hp Hq), Forall2_cons, <- (IH lb Pa Pb).
    split; [intros ([=] & ? & ?); tauto|intros (? & <- & ?); tauto]. }
  split.
  - intros [[[[? ?] ?] ?] ?]. constructor; try done. by apply Hps.
  - intros [HF]. apply Hps in HF as [? ?]. tauto.
Qed.

(** ** Theorems *)

Lemma elem_of_checks registered st allow names d :
  d ∈ concat (map (checkName registered st allow) names) <->
  exists n, n ∈ names /\ d ∈ checkName registered st allow n.
Proof.
  split.
  - intros Hd. apply list_elem_of_In, in_concat in Hd as (l & Hl & Hd).
    apply in_map_iff in Hl as (n & <- & Hn). exists n. by rewrite !list_elem_of_In.
  - intros (n & Hn & Hd). apply list_elem_of_In, in_concat.
    exists (checkName registered st allow n). split; [apply in_map|]; by apply list_elem_of_In.
Qed.

Lemma checkName_names registered st allow n :
  Forall (fun d => dName d = n) (checkName registered st allow n) /\
  (length (checkName registered st allow n) <= 1)%nat.
Proof. unfold checkName. repeat case_match; simpl; (split; [repeat constructor|lia]). Qed.

(** The cross-check reports exactly the unexplained disagreements: a
    registered name off the allowlist that the stub omits without an escape
    hatch, or that it declares with another shape; the report does not depend
    on the iteration order of the map and lists names in increasing order. *)
Theorem CrossCheck_exact s o1 o2 registered st allow :
  o1 ≡ₚ (map_to_list registered).*1 -> o2 ≡ₚ (map_to_list registered).*1 ->
  map_Forall (fun _ sg => sig_interned s sg) registered ->
  map_Forall (fun _ sg => sig_interned s sg) (Funcs st) ->
  CrossCheck o1 registered st allow = CrossCheck o2 registered st allow /\
  Sorted String.le (map dName (CrossCheck o1 registered st allow)) /\
  forall n, n ∈ map dName (CrossCheck o1 registered st allow) <->
    allow !! n <> Some true /\ exists reg, registered !! n = Some reg /\
      match Funcs st !! n with
      | None => Getattr st = false /\ Partial st = false
      | Some want => ~ same_shape reg want
      end.
Proof.
  intros H1 H2 Hreg Hst. unfold CrossCheck.
  assert (merge_sort String.le o1 = merge_sort String.le o2) as Hms.
  { apply (Sorted_unique String.le); [apply Sorted_merge_sort, _|apply Sorted_merge_sort, _|].
    by rewrite !merge_sort_Permutation, H1, H2. }
  split_and!; [by rewrite Hms| |].
  - pose proof (StronglySorted_merge_sort String.le o1) as Hs.
    revert Hs. clear. generalize (merge_sort String.le o1). intros l0 Hs.
    induction Hs as [|n l Hs IH Hn]; simpl; [constructor|]. rewrite map_app.
    destruct (checkName_names registered st allow n) as [Hnm Hlen].
    destruct (checkName registered st allow n) as [|d [|]]; simpl in *; [done| |lia].
    constructor; [done|]. destruct (map dName _) as [|x xs] eqn:E; constructor.
    apply Forall_cons in Hnm as [-> _].
    assert (x ∈ map dName (concat (map (checkName registered st allow) l))) as Hx by (rewrite E; by left).
    apply list_elem_of_fmap in Hx as (d' & -> & Hd'). apply elem_of_checks in Hd' as (m & Hm & Hd').
    destruct (checkName_names registered st allow m) as [Hnm' _]. rewrite Forall_forall in Hnm'.
    rewrite (Hnm' d' Hd'). exact (proj1 (Forall_forall _ _) Hn m Hm).
  - intros n. rewrite list_elem_of_fmap. split.
    + intros (d & -> & Hd). apply elem_of_checks in Hd as (m & _ & Hd).
      destruct (checkName_names registered st allow m) as [Hnm _]. rewrite Forall_forall in Hnm.
      rewrite (Hnm d Hd). unfold checkName in Hd.
      destruct (allow !! m) as [[]|] eqn:Ea; simpl in Hd; [by apply not_elem_of_nil in Hd|..];
        (split; [done|]);
        (destruct (registered !! m) as [reg|] eqn:Er; [|by apply not_elem_of_nil in Hd]);
        exists reg; (split; [done|]);
        (destruct (Funcs st !! m) as [want|] eqn:Ew;
         [destruct (sigShapeEqual reg want) eqn:Es; [by apply not_elem_of_nil in Hd|];
          intros Hsh; apply (sigShapeEqual_spec s) in Hsh;
            [congruence|by apply (Hreg m)|by apply (Hst m)]
         |destruct (Getattr st), (Partial st); simpl in Hd; try (by apply not_elem_of_nil in Hd); done]).
    + intros (Hal & reg & Er & Hm).
      assert (exists d, d ∈ checkName registered st allow n) as [d Hd].
      { unfold checkName. rewrite Er.
        assert (default false (allow !! n) = false) as -> by (by destruct (allow !! n) as [[]|]).
        destruct (Funcs st !! n) as [want|] eqn:Ew.
        - destruct (sigShapeEqual reg want) eqn:Es; [|eexists; by left].
          exfalso. apply Hm, (sigShapeEqual_spec s); [by apply (Hreg n)|by apply (Hst n)|done].
        - destruct Hm as [-> ->]. eexists. by left. }
      destruct (checkName_names registered st allow n) as [Hnm _]. rewrite Forall_forall in Hnm.
      exists d. split; [by rewrite (Hnm d Hd)|]. apply elem_of_checks. exists n. split; [|done].
      rewrite merge_sort_Permutation, H1. apply list_elem_of_fmap. exists (n, reg).
      split; [done|by apply elem_of_map_to_list].
Qed.

Definition demoSig (n : string) : Signature ty :=
  mkSig [mkParam n (base NewInterner AInt) ParamPosOrKw false] None None (base NewInterner AInt) false false.

Lemma CrossCheck_exact_witness :
  map dName (CrossCheck ["f"; "g"] {["f" := demoSig "x"; "g" := demoSig "y"]}
    (mkStub {["f" := demoSig "z"; "g" := demoSig "y"]} ∅ false false) ∅) = ["f"] /\
  CrossCheck ["f"; "g"] {["f" := demoSig "x"; "g" := demoSig "y"]}
    (mkStub {["f" := demoSig "z"; "g" := demoSig "y"]} ∅ false false) ∅ =
  CrossCheck ["g"; "f"] {["f" := demoSig "x"; "g" := demoSig "y"]}
    (mkStub {["f" := demoSig "z"; "g" := demoSig "y"]} ∅ false false) ∅.
Proof.
  split; [vm_compute; reflexivity|].
  apply (CrossCheck_exact NewInterner).
  - vm_compute. repeat constructor.
  - vm_compute. repeat constructor.
  - repeat (apply map_Forall_insert_2; [repeat apply Forall_cons_2; try reflexivity; apply Forall_nil_2|]).
    apply map_Forall_empty.
  - repeat (apply map_Forall_insert_2; [repeat apply Forall_cons_2; try reflexivity; apply Forall_nil_2|]).
    apply map_Forall_empty.
Defined.
