(* ===== verification/Rules.v ===== *)
(** * Rules: the disqualifier catalog and the tier states

    Model of src/pkg/partition/rule.go and state.go.  The catalog is the
    registered table itself; building it panics on a duplicate id, so the
    table is an [option], shown to be defined. *)

From stdpp Require Import sorting.
From S2P Require Import Prelude.

Inductive Scope :=
  | ScopeUnit | ScopeRegion | ScopeClass | ScopeBinding | ScopeModule | ScopeProgram.

#[export] Instance Scope_eq_dec : EqDecision Scope.
Proof. solve_decision. Defined.

Record Rule := mkRule {
  rID : string; rSection : string; rScope : Scope; rGuardable : bool; rHard : bool; rProse : string }.

Definition RuleEvalDynamicSource : string := "eval-dynamic-source".
Definition RuleExecDynamicSource : string := "exec-dynamic-source".
Definition RuleCompileDynamicSource : string := "compile-dynamic-source".
Definition RuleSetattrDynamic : string := "setattr-dynamic".
Definition RuleDictWriteDynamic : string := "dict-write-dynamic".
Definition RuleVarsMutation : string := "vars-mutation".
Definition RuleCrossModuleRebind : string := "cross-module-rebind".
Definition RuleCrossModuleRebindWild : string := "cross-module-rebind-dynamic".
Definition RuleMetaclassOpaque : string := "metaclass-opaque".
Definition RuleDynamicClassConstruct : string := "dynamic-class-construction".
Definition RuleClassDecoratorOpaque : string := "class-decorator-opaque".
Definition RuleClassReassignment : string := "class-reassignment".
Definition RuleFrameWalkerDirect : string := "frame-walker-direct".
Definition RuleLocalsCall : string := "locals-call".
Definition RuleFrameWalkerCaller : string := "frame-walker-caller".
Definition RuleDynamicImport : string := "dynamic-import".
Definition RuleAnyWidth : string := "any-width".
Definition RuleDelPossiblyUnbound : string := "del-possibly-unbound".
Definition RuleStarargsUnknownCallee : string := "starargs-unknown-callee".
Definition RuleGetattrHook : string := "getattr-hook".
Definition RuleSetattrHook : string := "setattr-hook".
Definition RuleGetattributeHook : string := "getattribute-hook".
Definition RuleDescriptorUnmodeled : string := "descriptor-unmodeled".
Definition RuleInheritBoxedBase : string := "inherit-boxed-base".
Definition RuleDecoratorOpaque : string := "decorator-opaque".
Definition RuleModuleNameRedefined : string := "module-name-redefined".
Definition RuleExcursionBudget : string := "excursion-budget-exceeded".
Definition RuleCostModel : string := "cost-model-verdict".
Definition RuleGuardBudget : string := "guard-budget-exceeded".
Definition RuleTierForcedBoxed : string := "tier-forced-boxed".

(** The records, in source order. *)
Definition rules : list Rule :=
  [mkRule RuleEvalDynamicSource "4.1" ScopeProgram false true
     "eval on a non-constant string can read and write the caller's namespace";
   mkRule RuleExecDynamicSource "4.1" ScopeProgram false true
     "exec on a non-constant string can mutate locals no static analysis survives";
   mkRule RuleCompileDynamicSource "4.1" ScopeUnit false true
     "compile of a non-constant string builds code the analysis cannot see";
   mkRule RuleSetattrDynamic "4.2" ScopeClass false true
     "setattr with a computed name opens the target class's layout";
   mkRule RuleDictWriteDynamic "4.2" ScopeClass false true
     "a direct __dict__ write opens the target class's layout";
   mkRule RuleVarsMutation "4.2" ScopeClass false true
     "vars(obj) mutation opens the target class's layout";
   mkRule RuleCrossModuleRebind "4.3" ScopeBinding true false
     "a store to another module's attribute makes the binding rebindable, covered by a binding guard";
   mkRule RuleCrossModuleRebindWild "4.3" ScopeModule false true
     "a store through a computed module attribute name poisons the module's namespace";
   mkRule RuleMetaclassOpaque "4.4" ScopeClass false true
     "a metaclass outside the analyzable allow list is opaque, so instances are boxed";
   mkRule RuleDynamicClassConstruct "4.4" ScopeClass false true
     "three-argument type(name, bases, ns) builds a class the analysis cannot lay out";
   mkRule RuleClassDecoratorOpaque "4.4" ScopeClass false true
     "a class decorator that returns a different object than it received is opaque";
   mkRule RuleClassReassignment "15" ScopeClass false true
     "assigning obj.__class__ opens both classes involved";
   mkRule RuleFrameWalkerDirect "4.5" ScopeUnit false true
     "sys._getframe or inspect.currentframe observes the live frame, which the static tier has no dictionary for";
   mkRule RuleLocalsCall "4.5" ScopeUnit false true
     "locals() has no dictionary to return when locals are Go variables";
   mkRule RuleFrameWalkerCaller "4.5" ScopeProgram false false
     "a caller of a frame-walker is observable, so it emits synthetic-frame tables";
   mkRule RuleDynamicImport "4.6" ScopeRegion false false
     "a non-constant import becomes a boxed excursion yielding a boxed module object";
   mkRule RuleAnyWidth "4.7" ScopeRegion true false
     "an Any with no usable hint flows into boxed excursions operation by operation";
   mkRule RuleDelPossiblyUnbound "4.8" ScopeUnit false true
     "a possibly-unbound read after del needs the boxed frame's unbound tracking";
   mkRule RuleStarargsUnknownCallee "4.8" ScopeRegion false false
     "f(*args, **kwargs) on an untyped callee is a boxed excursion at the call site";
   mkRule RuleGetattrHook "4.8" ScopeClass false true
     "__getattr__ or __getattribute__ on a class means instances cannot honor a static layout";
   mkRule RuleSetattrHook "4.8" ScopeClass false true
     "__setattr__ on a class means a static layout cannot honor per-access hooks";
   mkRule RuleGetattributeHook "4.8" ScopeClass false true
     "__getattribute__ on a class intercepts every access, so instances are boxed";
   mkRule RuleDescriptorUnmodeled "4.8" ScopeRegion false false
     "an unmodeled side-effecting descriptor lowers that access to the boxed descriptor path";
   mkRule RuleInheritBoxedBase "4.8" ScopeClass false true
     "a subclass of a boxed class is boxed, since struct embedding cannot extend a compact-dict instance";
   mkRule RuleDecoratorOpaque "15" ScopeUnit false false
     "an unmodeled decorator binds the name to a boxed callable; the body may still be static behind it";
   mkRule RuleModuleNameRedefined "4.8" ScopeUnit false true
     "a module-level name defined more than once resolves through its module variable, so each def is boxed and the last binding to run wins";
   mkRule RuleExcursionBudget "5.6" ScopeUnit false false
     "the unit's boxed excursions exceed the 25 percent budget";
   mkRule RuleCostModel "5.7" ScopeUnit false false
     "the static score is not below 60 percent of the boxed score, so the static form is not worth emitting";
   mkRule RuleGuardBudget "7.6" ScopeUnit false false
     "the planned guards exceed 15 percent of the static score, so the unit spends its time checking assumptions";
   mkRule RuleTierForcedBoxed "10" ScopeUnit false false
     "the build forced the boxed tier, so a unit the cost model would emit static runs boxed for a tier-vs-tier differential"].

(** The table built at start-up, one insertion per record; [None] is the
    duplicate-id panic. *)
Definition addRule (om : option (gmap string Rule)) (r : Rule) : option (gmap string Rule) :=
  match om with
  | None => None
  | Some m => match m !! rID r with Some _ => None | None => Some (<[rID r := r]> m) end
  end.

Definition buildCatalog (rs : list Rule) : option (gmap string Rule) :=
  fold_left addRule rs (Some ∅).

Definition catalog : gmap string Rule := default ∅ (buildCatalog rules).

Definition LookupRule (id : string) : option Rule := catalog !! id.

(** [MustRule]: [None] is the unknown-id panic. *)
Definition MustRule (id : string) : option Rule := catalog !! id.

(** [AllRules]: the values of the map, whatever its order, sorted by id. *)
Definition ruleLe (a b : Rule) : Prop := String.le (rID a) (rID b).
#[export] Instance ruleLe_dec : RelDecision ruleLe.
Proof. intros a b. unfold ruleLe. apply _. Defined.

Definition AllRules (order : list Rule) : list Rule := merge_sort ruleLe order.

(** ** States *)

Inductive State := StaticProven | StaticWithExcursions | BoxedByCensus | BoxedByCost.

#[export] Instance State_eq_dec : EqDecision State.
Proof. solve_decision. Defined.

Definition IsStatic (s : State) : bool :=
  match s with StaticProven | StaticWithExcursions => true | _ => false end.

Definition Tier (s : State) : string :=
  match s with
  | StaticProven => "static"
  | StaticWithExcursions => "static+excursions"
  | _ => "boxed"
  end.

(** ** The catalog is well formed *)

Lemma catalog_builds : buildCatalog rules = Some catalog.
Proof.
  assert (bool_decide (is_Some (buildCatalog rules)) = true) as H by (vm_compute; reflexivity).
  apply bool_decide_eq_true in H. unfold catalog. by destruct H as [m ->].
Qed.

Lemma build_step rs : forall m m',
  fold_left addRule rs (Some m) = Some m' ->
  NoDup (map rID rs) /\ (forall r, r ∈ rs -> m !! rID r = None) /\
  (forall id r, m' !! id = Some r <-> m !! id = Some r \/ (r ∈ rs /\ rID r = id)).
Proof.
  induction rs as [|r rs IH]; intros m m'; simpl.
  - intros [= <-]. split_and!; [constructor|by intros ? ?%not_elem_of_nil|].
    intros id r. split; [auto|]. intros [?|[?%not_elem_of_nil _]]; done.
  - destruct (m !! rID r) as [r0|] eqn:E.
    + intros H. exfalso. clear -H. induction rs; simpl in H; done.
    + intros (Hd & Hn & Hm)%IH. split_and!.
      * constructor; [|done]. intros (r' & Er & Hr)%list_elem_of_fmap.
        specialize (Hn r' Hr). rewrite <- Er, lookup_insert_eq in Hn. done.
      * intros r' [->|Hr]%elem_of_cons; [done|].
        specialize (Hn r' Hr). by apply lookup_insert_None in Hn as [? _].
      * intros id r'. rewrite Hm, elem_of_cons. split.
        -- intros [Hi|[? ?]]; [|by auto]. apply lookup_insert_Some in Hi as [[<- <-]|[_ ?]]; auto.
        -- intros [Hi|[[->|?] <-]]; [|left; apply lookup_insert_eq|auto].
           left. rewrite lookup_insert_ne; [done|]. intros He. congruence.
Qed.

(** The start-up table never hits its duplicate-id panic, and it holds
    exactly the registered records: every id names one record, and a lookup
    returns the record registered under that id. *)
Theorem catalog_exact :
  buildCatalog rules = Some catalog /\ NoDup (map rID rules) /\
  forall id r, MustRule id = Some r <-> r ∈ rules /\ rID r = id.
Proof.
  destruct (build_step rules ∅ catalog catalog_builds) as (Hd & _ & Hm).
  split_and!; [apply catalog_builds|done|].
  intros id r. unfold MustRule. rewrite Hm, lookup_empty. naive_solver.
Qed.

(** Lookups at the fire sites of the decision core. *)
Lemma MustRule_cost_rules :
  is_Some (MustRule RuleExcursionBudget) /\ is_Some (MustRule RuleCostModel) /\
  is_Some (MustRule RuleGuardBudget) /\ is_Some (MustRule RuleTierForcedBoxed).
Proof. split_and!; apply (bool_decide_unpack _); vm_compute; exact I. Qed.

(** Proofs reason about lookups, not about the table's normal form. *)
#[global] Opaque catalog.
