(* ===== verification/Census.v ===== *)
(** * Census: facts and the whole-program side tables

    Model of src/pkg/partition/census.go.  A fact recorded against a unit
    updates the tables its rule's scope names; the tables only grow.  Maps
    keyed by [Unit.Key] are maps of strings, as in the source. *)

From stdpp Require Import sorting.
From S2P Require Import Prelude Evidence Rules.
Local Open Scope Z_scope.

Record Unit_ := mkUnit { uModule : string; uName : string; uSpan : Span; uOffset : Z }.

(** [Unit.Key]: module, name and offset with NUL between. *)
Definition Key (u : Unit_) : string :=
  uModule u +:+ String nul (uName u +:+ String nul (itoa (uOffset u))).

Record Fact := mkFact { fRule : string; fSpan : Span; fTarget : string }.
Record openReason := mkOpen { oRule : string; oSpan : Span }.

Record Census := mkCensus {
  facts : gmap string (list Fact);
  units : gmap string Unit_;
  opened : gmap string openReason;
  poison : gmap string openReason;
  rebind : gmap string bool;
  walkers : gmap string bool }.

Definition NewCensus : Census := mkCensus ∅ ∅ ∅ ∅ ∅ ∅.

Definition setIfAbsent (m : gmap string openReason) (f : Fact) : gmap string openReason :=
  if negb (String.eqb (fTarget f) "") then
    match m !! fTarget f with
    | Some _ => m
    | None => <[fTarget f := mkOpen (fRule f) (fSpan f)]> m
    end
  else m.

(** [Census.Record]; [None] is the panic of an unregistered rule. *)
Definition RecordFact (c : Census) (u : Unit_) (f : Fact) : option Census :=
  match MustRule (fRule f) with
  | None => None
  | Some rule =>
    let units' := <[Key u := u]> (units c) in
    let facts' := <[Key u := default [] (facts c !! Key u) ++ [f]]> (facts c) in
    let opened' := match rScope rule with ScopeClass => setIfAbsent (opened c) f | _ => opened c end in
    let poison' := match rScope rule with ScopeModule => setIfAbsent (poison c) f | _ => poison c end in
    let rebind' := match rScope rule with
                   | ScopeBinding =>
                       if negb (String.eqb (fTarget f) "") then <[fTarget f := true]> (rebind c) else rebind c
                   | _ => rebind c
                   end in
    let walkers' := if String.eqb (fRule f) RuleFrameWalkerDirect || String.eqb (fRule f) RuleLocalsCall
                    then <[Key u := true]> (walkers c) else walkers c in
    Some (mkCensus facts' units' opened' poison' rebind' walkers')
  end.

Definition Facts (c : Census) (u : Unit_) : list Fact := default [] (facts c !! Key u).
Definition ClassClosed (c : Census) (class : string) : bool :=
  match opened c !! class with Some _ => false | None => true end.
Definition ClassOpenedBy (c : Census) (class : string) : option (string * Span) :=
  (fun r => (oRule r, oSpan r)) <$> opened c !! class.
Definition ModulePoisoned (c : Census) (m : string) : bool :=
  match poison c !! m with Some _ => true | None => false end.
Definition BindingRebindable (c : Census) (name : string) : bool := default false (rebind c !! name).
Definition CallsFrameWalker (c : Census) (u : Unit_) : bool := default false (walkers c !! Key u).

(** The comparator of [Units]. *)
Definition unitLess (a b : Unit_) : bool :=
  if negb (String.eqb (uModule a) (uModule b)) then String.ltb (uModule a) (uModule b)
  else if negb (uOffset a =? uOffset b) then uOffset a <? uOffset b
  else if negb (String.eqb (uName a) (uName b)) then String.ltb (uName a) (uName b)
  else String.ltb (Key a) (Key b).

Definition unitLe (a b : Unit_) : Prop := unitLess b a = false.
#[export] Instance unitLe_dec : RelDecision unitLe.
Proof. intros a b. unfold unitLe. apply _. Defined.

(** [Units], over an iteration order of the units map. *)
Definition Units (order : list Unit_) : list Unit_ := merge_sort unitLe order.

(** An iteration order of the values of a map. *)
Definition valuesOf {A} (order : list A) (m : gmap string A) : Prop := order ≡ₚ (map_to_list m).*2.

(** ** Keys *)

(** Names a source file can spell hold no NUL byte. *)
Definition unitNames (u : Unit_) : bool := noNul (uModule u) && noNul (uName u).

Lemma Key_inj a b : unitNames a = true -> unitNames b = true -> Key a = Key b ->
  uModule a = uModule b /\ uName a = uName b /\ uOffset a = uOffset b.
Proof.
  unfold unitNames, Key. intros Ha Hb E. bool_to_prop.
  apply nul_split in E as [Em E]; [|done|done]. apply nul_split in E as [En E]; [|done|done].
  split_and!; [done|done|]. by apply (inj pretty).
Qed.

(** ** The order on units *)

Lemma string_le_ltb a b : String.le a b <-> String.ltb b a = false.
Proof.
  rewrite <- not_true_iff_false. unfold String.le, String.ltb, String.leb.
  rewrite (String.compare_antisym b a).
  by destruct (a ?= b)%string; simpl; split; intros; auto; exfalso; auto.
Qed.

Lemma unitLe_spec a b : unitLe a b <->
  String.ltb (uModule a) (uModule b) = true \/
  (uModule a = uModule b /\ (uOffset a < uOffset b \/
    (uOffset a = uOffset b /\ (String.ltb (uName a) (uName b) = true \/
      (uName a = uName b /\ String.le (Key a) (Key b)))))).
Proof.
  unfold unitLe, unitLess.
  assert (forall x y : string, x <> y -> (String.ltb x y = false <-> String.ltb y x = true)) as Hs.
  { intros x y Hne. rewrite <- not_true_iff_false. split.
    - intros Hn. destruct (String.ltb y x) eqn:E; [done|]. exfalso. apply Hne.
      apply string_le_ltb in E. apply not_true_iff_false, string_le_ltb in Hn.
      by apply (anti_symm String.le).
    - intros Hyx Hxy. assert (String.le y x -> False) as Hn1.
      { rewrite string_le_ltb, Hxy. done. }
      assert (String.le x y -> False) as Hn2 by (rewrite string_le_ltb, Hyx; done).
      by destruct (total String.le x y). }
  destruct (String.eqb_spec (uModule b) (uModule a)) as [Em|Em]; simpl.
  2:{ rewrite Hs by done. split; [auto|]. intros [?|[Hx _]]; [done|congruence]. }
  assert (forall x y : string, x = y -> String.ltb x y = false) as Hirr
    by (intros x y ->; by apply string_le_ltb).
  rewrite (Hirr (uModule a) (uModule b)) by done.
  destruct (Z.eqb_spec (uOffset b) (uOffset a)) as [Eo|Eo]; simpl.
  2:{ rewrite Z.ltb_ge. split; [right; split; [done|lia]|].
      intros [?|(_ & [?|[? _]])]; [done|lia|lia]. }
  destruct (String.eqb_spec (uName b) (uName a)) as [En|En]; simpl.
  2:{ rewrite Hs by done. split; [right; split; [done|]; right; split; [done|by left]|].
      intros [?|(_ & [?|(_ & [?|[? _]])])]; [done|lia|done|congruence]. }
  rewrite (Hirr (uName a) (uName b)) by done. rewrite <- string_le_ltb.
  split; [intros; right; split; [done|]; right; split; [done|by right]|].
  intros [?|(_ & [?|(_ & [?|[_ ?]])])]; [done|lia|done|done].
Qed.

Lemma ltb_trans x y z : String.ltb x y = true -> String.ltb y z = true -> String.ltb x z = true.
Proof.
  intros H1 H2. destruct (String.ltb x z) eqn:E; [done|]. apply string_le_ltb in E.
  assert (String.le x y) as H3 by (apply string_le_ltb;
    destruct (String.ltb y x) eqn:E2; [|done]; exfalso;
    assert (~ String.le x y) as Hn1 by (by rewrite string_le_ltb, E2);
    assert (~ String.le y x) as Hn2 by (by rewrite string_le_ltb, H1);
    by destruct (total String.le x y)).
  assert (String.le z y) as Hzy by (by transitivity x).
  apply string_le_ltb in Hzy. congruence.
Qed.

#[export] Instance unitLe_trans : Transitive unitLe.
Proof.
  intros a b c. rewrite !unitLe_spec.
  intros [H1|(E1 & [H1|(F1 & [H1|[G1 H1]])])] [H2|(E2 & [H2|(F2 & [H2|[G2 H2]])])];
    rewrite ?E1, ?E2 in *; try (left; (done || by eapply ltb_trans));
    right; (split; [congruence|]);
    try (left; lia); right; (split; [congruence|]); rewrite ?G1, ?G2 in *;
    try (left; (done || by eapply ltb_trans)).
  right. split; [congruence|]. by etrans.
Qed.

#[export] Instance unitLe_total : Total unitLe.
Proof.
  intros a b.   destruct (decide (unitLe a b)) as [|H]; [by left|]. right. unfold unitLe in *.
  apply not_false_is_true in H. revert H. unfold unitLess.
  assert (forall x y : string, String.ltb x y = true -> String.ltb y x = false) as Hasym.
  { intros x y H1. destruct (String.ltb y x) eqn:H2; [|done].
    pose proof (ltb_trans _ _ _ H1 H2) as H3. exfalso.
    assert (String.le x x) as Hx by done. apply string_le_ltb in Hx. congruence. }
  rewrite (String.eqb_sym (uModule a)), (String.eqb_sym (uName a)), (Z.eqb_sym (uOffset a)).
  repeat case_match; bool_to_prop; intros; try (by apply Hasym); bool_to_prop; try lia;
    apply Z.ltb_ge; lia.
Qed.

(** ** Theorems *)

Lemma setIfAbsent_mono m f k r : m !! k = Some r -> setIfAbsent m f !! k = Some r.
Proof.
  unfold setIfAbsent. intros Hk. repeat case_match; try done.
  rewrite lookup_insert_ne; [done|]. intros He. congruence.
Qed.

Lemma setIfAbsent_target m f : fTarget f <> "" -> is_Some (setIfAbsent m f !! fTarget f).
Proof.
  unfold setIfAbsent. intros Hne. apply String.eqb_neq in Hne. rewrite Hne. simpl.
  destruct (m !! fTarget f) eqn:E; [by rewrite E|]. by rewrite lookup_insert_eq.
Qed.

(** The side tables of [c'] extend those of [c]. *)
Record tables_grow (c c' : Census) : Prop := {
  tg_opened : opened c ⊆ opened c';
  tg_poison : poison c ⊆ poison c';
  tg_rebind : forall n, BindingRebindable c n = true -> BindingRebindable c' n = true;
  tg_walkers : forall u, CallsFrameWalker c u = true -> CallsFrameWalker c' u = true;
  tg_facts : forall u, Facts c u `prefix_of` Facts c' u }.

(** What the fact's scope must leave behind. *)
Definition scope_marked (c' : Census) (sc : Scope) (target : string) : Prop :=
  match sc with
  | ScopeClass => ClassClosed c' target = false
  | ScopeModule => ModulePoisoned c' target = true
  | ScopeBinding => BindingRebindable c' target = true
  | _ => True
  end.

(** Recording a fact of a registered rule never panics.  It appends the
    fact to its unit's list, keeps every class open, module poisoned, binding
    rebindable and walker marked that already was, with the first reason of
    each kept, and marks the target its scope names. *)
Theorem RecordFact_monotone c u f rule :
  MustRule (fRule f) = Some rule ->
  exists c', RecordFact c u f = Some c' /\ tables_grow c c' /\
    Facts c' u = Facts c u ++ [f] /\
    (fTarget f <> "" -> scope_marked c' (rScope rule) (fTarget f)) /\
    (fRule f = RuleFrameWalkerDirect \/ fRule f = RuleLocalsCall -> CallsFrameWalker c' u = true).
Proof.
  intros Hr. unfold RecordFact. rewrite Hr. clear Hr. eexists. split; [reflexivity|]. split_and!.
  - constructor; simpl.
    + case_match; try done. apply map_subseteq_spec. intros k r. apply setIfAbsent_mono.
    + case_match; try done. apply map_subseteq_spec. intros k r. apply setIfAbsent_mono.
    + intros n. unfold BindingRebindable. simpl. repeat case_match; try done.
      destruct (decide (fTarget f = n)) as [->|]; [by rewrite lookup_insert_eq|by rewrite lookup_insert_ne].
    + intros v. unfold CallsFrameWalker. simpl. case_match; try done.
      destruct (decide (Key u = Key v)) as [->|]; [by rewrite lookup_insert_eq|by rewrite lookup_insert_ne].
    + intros v. unfold Facts. simpl. destruct (decide (Key u = Key v)) as [->|].
      * rewrite lookup_insert_eq. simpl. by apply prefix_app_r.
      * by rewrite lookup_insert_ne.
  - unfold Facts. simpl. by rewrite lookup_insert_eq.
  - intros Hne. unfold scope_marked. destruct (rScope rule); try done; simpl.
    + unfold ClassClosed. simpl. destruct (setIfAbsent_target (opened c) f Hne) as [r ->]. done.
    + unfold BindingRebindable. simpl. apply String.eqb_neq in Hne. rewrite Hne. simpl.
      by rewrite lookup_insert_eq.
    + unfold ModulePoisoned. simpl. destruct (setIfAbsent_target (poison c) f Hne) as [r ->]. done.
  - intros Hw. unfold CallsFrameWalker. simpl.
    assert (String.eqb (fRule f) RuleFrameWalkerDirect || String.eqb (fRule f) RuleLocalsCall = true) as ->.
    { apply orb_true_iff. by rewrite !String.eqb_eq. }
    by rewrite lookup_insert_eq.
Qed.

Definition demoUnit (n : string) (o : Z) : Unit_ := mkUnit "m" n sp0 o.

Lemma RecordFact_monotone_witness :
  exists c', RecordFact NewCensus (demoUnit "f" 3) (mkFact RuleSetattrDynamic sp0 "C") = Some c' /\
    ClassClosed c' "C" = false /\ ClassClosed c' "D" = true.
Proof.
  destruct (MustRule RuleSetattrDynamic) as [rule|] eqn:Hr; [|vm_compute in Hr; discriminate].
  destruct (RecordFact_monotone NewCensus (demoUnit "f" 3) (mkFact RuleSetattrDynamic sp0 "C") rule Hr)
    as (c' & E & _ & _ & Hm & _).
  exists c'. split; [exact E|]. split.
  - assert (rScope rule = ScopeClass) as Hs by (vm_compute in Hr; injection Hr as <-; reflexivity).
    rewrite Hs in Hm. apply Hm. discriminate.
  - unfold RecordFact in E. simpl fRule in E. rewrite Hr in E.
    assert (rScope rule = ScopeClass) as Hs by (vm_compute in Hr; injection Hr as <-; reflexivity).
    rewrite Hs in E. injection E as <-. reflexivity.
Defined.

(** The units map is keyed by the units' keys. *)
Definition units_keyed (c : Census) : Prop := map_Forall (fun k u => k = Key u) (units c).

Lemma RecordFact_keyed c u f c' : units_keyed c -> RecordFact c u f = Some c' -> units_keyed c'.
Proof.
  unfold RecordFact. destruct (MustRule (fRule f)); [|done]. intros Hk [= <-].
  by apply map_Forall_insert_2.
Qed.

Lemma keyed_no_ties c o x y : units_keyed c -> valuesOf o (units c) ->
  x ∈ o -> y ∈ o -> Key x = Key y -> x = y.
Proof.
  intros Hk Ho Hx Hy E. rewrite Ho in Hx, Hy.
  apply list_elem_of_fmap in Hx as ([k1 u1] & -> & H1%elem_of_map_to_list).
  apply list_elem_of_fmap in Hy as ([k2 u2] & -> & H2%elem_of_map_to_list).
  pose proof (Hk _ _ H1). pose proof (Hk _ _ H2). simpl in *. congruence.
Qed.

Lemma Units_sorted o : StronglySorted unitLe (Units o).
Proof.
  apply Sorted_StronglySorted; [apply _|]. unfold Units.
  apply (Sorted_merge_sort unitLe).
Qed.

Lemma Units_order c o1 o2 :
  units_keyed c -> valuesOf o1 (units c) -> valuesOf o2 (units c) ->
  Units o1 = Units o2 /\ Units o1 ≡ₚ (map_to_list (units c)).*2 /\ StronglySorted unitLe (Units o1).
Proof.
  intros Hk H1 H2. unfold valuesOf in *.
  assert (Units o1 ≡ₚ o1) as P1 by apply merge_sort_Permutation.
  assert (Units o2 ≡ₚ o2) as P2 by apply merge_sort_Permutation.
  split_and!; [|by rewrite P1|apply Units_sorted].
  apply (StronglySorted_unique_strong unitLe); [|apply Units_sorted|apply Units_sorted|].
  - intros x y Hx Hy Hxy Hyx. rewrite P1 in Hx. rewrite P2, H2, <- H1 in Hy.
    apply (keyed_no_ties c o1); [done|done|done|done|].
    rewrite unitLe_spec in Hxy, Hyx.
    assert (forall s t : string, String.ltb s t = true -> String.ltb t s = true -> False) as Has.
    { intros s t Hst Hts. pose proof (ltb_trans _ _ _ Hst Hts) as H. 
      assert (String.le s s) as Hs by done. apply string_le_ltb in Hs. congruence. }
    destruct Hxy as [Hm|(Em & [Ho|(Eo & [Hn|[En Hl]])])],
      Hyx as [Hm2|(Em2 & [Ho2|(Eo2 & [Hn2|[En2 Hl2]])])];
      try lia; try (by exfalso; eauto); rewrite ?Em, ?Em2, ?En, ?En2 in *; try (by exfalso; eauto).
    by apply (anti_symm String.le).
  - by rewrite P1, P2, H1, H2.
Qed.

(** The processing order of the units does not depend on the iteration
    order of the map: it lists every unit once, by module, then offset, then
    name. *)
Theorem Units_deterministic c o1 o2 :
  units_keyed c -> valuesOf o1 (units c) -> valuesOf o2 (units c) ->
  Units o1 = Units o2 /\ Units o1 ≡ₚ (map_to_list (units c)).*2 /\ StronglySorted unitLe (Units o1).
Proof. apply Units_order. Qed.

Definition demoCensus : Census :=
  mkCensus ∅ {[Key (demoUnit "f" 7) := demoUnit "f" 7; Key (demoUnit "g" 2) := demoUnit "g" 2]} ∅ ∅ ∅ ∅.

Lemma Units_deterministic_witness :
  Units [demoUnit "f" 7; demoUnit "g" 2] = Units [demoUnit "g" 2; demoUnit "f" 7] /\
  map uName (Units [demoUnit "f" 7; demoUnit "g" 2]) = ["g"; "f"].
Proof.
  split; [|vm_compute; reflexivity].
  apply (Units_deterministic demoCensus).
  - repeat (apply map_Forall_insert_2; [reflexivity|]). apply map_Forall_empty.
  - vm_compute. repeat constructor.
  - vm_compute. repeat constructor.
Defined.
