(* ===== verification/Guards.v ===== *)
(** * Guards: the cost model and guard planning

    Model of src/pkg/partition/cost.go and guard.go.  Go's [int] is 64 bits
    wide, and the sums and products of the scores wrap; [counts_ok] is a range
    in which none does.  The sort of the planned guards is a stable one here;
    the source's leaves the order of guards that tie unspecified. *)

From stdpp Require Import sorting.
From S2P Require Import Prelude Int64 Evidence Rules Census.
Local Open Scope Z_scope.

(** ** cost.go *)

Record Weights := mkWeights {
  wVersion : Z; wUnboxedOp : Z; wBoxedOp : Z; wThunkCross : Z; wGuardEntry : Z; wGuardLoop : Z }.

Definition DefaultWeights : Weights := mkWeights 1 1 8 16 2 4.

Record Profile := mkProfile {
  pfUnboxedOps : Z; pfExcursionOps : Z; pfThunkCross : Z;
  pfEntryGuards : Z; pfLoopGuards : Z; pfExcursions : Z }.

Definition TotalOps (p : Profile) : Z := wrap64 (pfUnboxedOps p + pfExcursionOps p).

Record Score := mkScore { sStatic : Z; sBoxed : Z }.

(** [Weights.Score]. *)
Definition scoreOf (w : Weights) (p : Profile) : Score :=
  mkScore
    (wrap64 (pfUnboxedOps p * wUnboxedOp w + pfExcursionOps p * wBoxedOp w +
       pfThunkCross p * wThunkCross w + pfEntryGuards p * wGuardEntry w +
       pfLoopGuards p * wGuardLoop w))
    (wrap64 (TotalOps p * wBoxedOp w)).

Definition EmitStatic (s : Score) : bool := wrap64 (sStatic s * 5) <? wrap64 (sBoxed s * 3).

Definition ExcursionBudgetOK (p : Profile) : bool := wrap64 (pfExcursionOps p * 4) <=? TotalOps p.

(** ** guard.go *)

Inductive GuardKind :=
  | GuardEntryKind | GuardBinding | GuardClassVersion | GuardOverflow | GuardRepresentation.

Definition guardKindIndex (k : GuardKind) : Z :=
  match k with
  | GuardEntryKind => 0 | GuardBinding => 1 | GuardClassVersion => 2
  | GuardOverflow => 3 | GuardRepresentation => 4
  end.

Inductive FailureEdge := EdgeRouteBoxed | EdgeDeopt.

#[export] Instance FailureEdge_eq_dec : EqDecision FailureEdge.
Proof. solve_decision. Defined.

Record Guard := mkGuard {
  gKind : GuardKind; gSite : Span; gAssumption : string; gEdge : FailureEdge;
  gLoopDepth : Z; gLoopInvariant : bool; gDom : Z; gResume : Z; gHoisted : bool }.

Definition atEntry (g : Guard) : bool := (gLoopDepth g =? 0) || gHoisted g.

Definition EntryCount (gs : list Guard) : Z := Z.of_nat (length (List.filter atEntry gs)).
Definition LoopCount (gs : list Guard) : Z :=
  Z.of_nat (length (List.filter (fun g => negb (atEntry g)) gs)).

(** The collapse key: assumption and dominator. *)
Definition guardKey (g : Guard) : string := gAssumption g +:+ String nul (itoa (gDom g)).

Definition hoist (g : Guard) : Guard :=
  if (gLoopDepth g >? 0) && gLoopInvariant g
  then mkGuard (gKind g) (gSite g) (gAssumption g) (gEdge g) (gLoopDepth g) (gLoopInvariant g)
         (gDom g) (gResume g) true
  else g.

Fixpoint placeGuards (seen : gset string) (raw : list Guard) : list Guard :=
  match raw with
  | [] => []
  | g :: raw =>
      if bool_decide (guardKey g ∈ seen) then placeGuards seen raw
      else hoist g :: placeGuards ({[guardKey g]} ∪ seen) raw
  end.

(** The comparator of the final sort. *)
Definition guardLess (a b : Guard) : bool :=
  if negb (String.eqb (SpanString (gSite a)) (SpanString (gSite b)))
  then String.ltb (SpanString (gSite a)) (SpanString (gSite b))
  else if negb (guardKindIndex (gKind a) =? guardKindIndex (gKind b))
  then guardKindIndex (gKind a) <? guardKindIndex (gKind b)
  else String.ltb (gAssumption a) (gAssumption b).

Definition guardLe (a b : Guard) : Prop := guardLess b a = false.
#[export] Instance guardLe_dec : RelDecision guardLe.
Proof. intros a b. unfold guardLe. apply _. Defined.

Definition PlanGuards (raw : list Guard) : list Guard := merge_sort guardLe (placeGuards ∅ raw).

Definition GuardScore (gs : list Guard) (w : Weights) : Z :=
  wrap64 (EntryCount gs * wGuardEntry w + LoopCount gs * wGuardLoop w).

Definition guardBudgetOK (guardScore opScore : Z) : bool := wrap64 (guardScore * 20) <=? wrap64 (opScore * 3).

(** ** Bounds *)

(** Counts of a profile far from overflow under the default weights. *)
Definition counts_ok (p : Profile) : Prop :=
  Forall (fun n => 0 <= n < 2 ^ 50)
    [pfUnboxedOps p; pfExcursionOps p; pfThunkCross p; pfEntryGuards p; pfLoopGuards p].

Lemma wrap64_id z : - 2 ^ 63 <= z < 2 ^ 63 -> wrap64 z = z.
Proof. intros H. apply wrap64_small, in64_spec. unfold MinInt64, MaxInt64. lia. Qed.

Ltac counts H :=
  unfold counts_ok in H; rewrite !Forall_cons in H; destruct H as (? & ? & ? & ? & ? & _).

Lemma score_exact p : counts_ok p ->
  scoreOf DefaultWeights p = mkScore
    (pfUnboxedOps p + 8 * pfExcursionOps p + 16 * pfThunkCross p + 2 * pfEntryGuards p +
       4 * pfLoopGuards p)
    (8 * (pfUnboxedOps p + pfExcursionOps p)).
Proof.
  intros H. counts H. unfold scoreOf, TotalOps. simpl.
  rewrite (wrap64_id (pfUnboxedOps p + pfExcursionOps p)) by lia.
  rewrite !wrap64_id by lia. f_equal; lia.
Qed.

(** C39: the verdict arithmetic is the documented one: on counts below 2^50
    nothing wraps, the static form is worth emitting exactly when its score
    is below 60 percent of the boxed score, and the excursion budget holds
    exactly when at most 25 percent of the operations run in excursions. *)
Theorem cost_verdict p :
  counts_ok p ->
  let s := scoreOf DefaultWeights p in
  (EmitStatic s = true <-> 100 * sStatic s < 60 * sBoxed s) /\
  (ExcursionBudgetOK p = true <-> 100 * pfExcursionOps p <= 25 * (pfUnboxedOps p + pfExcursionOps p)) /\
  sStatic s = pfUnboxedOps p + 8 * pfExcursionOps p + 16 * pfThunkCross p +
    2 * pfEntryGuards p + 4 * pfLoopGuards p /\
  sBoxed s = 8 * (pfUnboxedOps p + pfExcursionOps p).
Proof.
  intros H. cbv zeta. rewrite (score_exact p H). counts H. simpl. split_and!; try done.
  - unfold EmitStatic. simpl. rewrite !wrap64_id by lia. rewrite Z.ltb_lt. lia.
  - unfold ExcursionBudgetOK, TotalOps. rewrite !wrap64_id by lia. rewrite Z.leb_le. lia.
Qed.

Definition demoProfile : Profile := mkProfile 10 1 0 1 0 1.

Lemma cost_verdict_witness :
  EmitStatic (scoreOf DefaultWeights demoProfile) = true /\ ExcursionBudgetOK demoProfile = true.
Proof.
  destruct (cost_verdict demoProfile) as (H1 & H2 & _).
  - repeat constructor; simpl; lia.
  - split; [apply H1; reflexivity|apply H2; simpl; lia].
Defined.

(** ** Placement *)

Lemma guardKey_inj a b : guardKey a = guardKey b <-> gAssumption a = gAssumption b /\ gDom a = gDom b.
Proof.
  unfold guardKey. split; [|by intros [-> ->]].
  intros [Ha Hd]%nul_split_r; [|apply noNul_itoa..]. split; [done|]. by apply (inj pretty).
Qed.

Lemma hoist_key g : guardKey (hoist g) = guardKey g.
Proof. unfold hoist. by case_match. Qed.

Lemma placeGuards_spec raw : forall seen,
  NoDup (map guardKey (placeGuards seen raw)) /\
  (forall g, g ∈ placeGuards seen raw -> guardKey g ∉ seen /\ exists g0, g0 ∈ raw /\ g = hoist g0) /\
  (forall g, g ∈ raw -> guardKey g ∉ seen ->
    exists g', g' ∈ placeGuards seen raw /\ guardKey g' = guardKey g).
Proof.
  induction raw as [|g raw IH]; intros seen; simpl.
  - split_and!; [constructor|by intros ? ?%not_elem_of_nil|by intros ? ?%not_elem_of_nil].
  - case_bool_decide as Hin.
    + destruct (IH seen) as (Hd & Hs & Hc). split_and!; [done| |].
      * intros g' Hg'. destruct (Hs g' Hg') as (? & g0 & ? & ?). split; [done|].
        exists g0. split; [by right|done].
      * intros g' [->|Hg']%elem_of_cons Hn; [done|auto].
    + destruct (IH ({[guardKey g]} ∪ seen)) as (Hd & Hs & Hc). split_and!.
      * constructor; [|done]. rewrite hoist_key. intros (g' & Ek & Hg')%list_elem_of_fmap.
        destruct (Hs g' Hg') as [Hn _]. apply Hn. rewrite Ek. set_solver.
      * intros g' [->|Hg']%elem_of_cons.
        -- split; [by rewrite hoist_key|]. exists g. split; [by left|done].
        -- destruct (Hs g' Hg') as (Hn & g0 & ? & ?). split; [set_solver|].
           exists g0. split; [by right|done].
      * intros g' [->|Hg']%elem_of_cons Hn.
        -- exists (hoist g). split; [by left|apply hoist_key].
        -- destruct (decide (guardKey g' = guardKey g)) as [E|E].
           ++ exists (hoist g). split; [by left|]. by rewrite hoist_key.
           ++ destruct (Hc g' Hg') as (x & ? & ?); [set_solver|].
              exists x. split; [by right|done].
Qed.

Lemma ltb_asym x y : String.ltb x y = true -> String.ltb y x = false.
Proof.
  intros H1. destruct (String.ltb y x) eqn:H2; [|done].
  pose proof (ltb_trans _ _ _ H1 H2) as H3. exfalso.
  assert (String.le x x) as Hx by done. apply string_le_ltb in Hx. congruence.
Qed.

#[export] Instance guardLe_total : Total guardLe.
Proof.
  intros a b. destruct (decide (guardLe a b)) as [|H]; [by left|]. right. unfold guardLe in *.
  apply not_false_is_true in H. revert H. unfold guardLess.
  rewrite (String.eqb_sym (SpanString (gSite a))), (Z.eqb_sym (guardKindIndex (gKind a))).
  repeat case_match; intros; try (by apply ltb_asym). bool_to_prop. lia.
Qed.

(** The cost of a guard list at the default rates. *)
Definition guardCost (gs : list Guard) : Z := 2 * EntryCount gs + 4 * LoopCount gs.

Lemma guardCost_cons g gs : guardCost (g :: gs) = (if atEntry g then 2 else 4) + guardCost gs.
Proof. unfold guardCost, EntryCount, LoopCount. simpl. destruct (atEntry g); simpl; lia. Qed.

Lemma hoist_cheaper g : (if atEntry (hoist g) then 2 else 4) <= (if atEntry g then 2 else 4).
Proof.
  unfold hoist. destruct ((gLoopDepth g >? 0) && gLoopInvariant g); [|lia].
  unfold atEntry at 1. simpl. rewrite orb_true_r. destruct (atEntry g); lia.
Qed.

Lemma placeGuards_cheaper raw : forall seen, guardCost (placeGuards seen raw) <= guardCost raw.
Proof.
  induction raw as [|g raw IH]; intros seen; simpl; [done|]. rewrite guardCost_cons.
  case_bool_decide.
  - specialize (IH seen). destruct (atEntry g); lia.
  - rewrite guardCost_cons. specialize (IH ({[guardKey g]} ∪ seen)).
    pose proof (hoist_cheaper g). lia.
Qed.

Lemma count_perm (f : Guard -> bool) l1 l2 : l1 ≡ₚ l2 ->
  length (List.filter f l1) = length (List.filter f l2).
Proof. induction 1; simpl; repeat case_match; simpl; lia. Qed.

Lemma guardCost_perm l1 l2 : l1 ≡ₚ l2 -> guardCost l1 = guardCost l2.
Proof. intros H. unfold guardCost, EntryCount, LoopCount. by rewrite !(count_perm _ _ _ H). Qed.

Lemma count_bound (f : Guard -> bool) gs : Z.of_nat (length (List.filter f gs)) <= Z.of_nat (length gs).
Proof. induction gs as [|g gs IH]; simpl; [lia|]. case_match; simpl; lia. Qed.

Lemma guardCost_score gs : guardCost gs < 2 ^ 60 -> GuardScore gs DefaultWeights = guardCost gs.
Proof.
  intros H. unfold GuardScore, guardCost in *. simpl. rewrite wrap64_id; [lia|].
  unfold EntryCount, LoopCount in *. lia.
Qed.

Lemma guardCost_bound gs : guardCost gs <= 4 * Z.of_nat (length gs).
Proof. induction gs as [|g gs IH]; [done|]. rewrite guardCost_cons. simpl length. case_match; lia. Qed.

(** Guard planning keeps every assumption and drops only redundancy:
    each (assumption, dominator) pair of the raw guards has exactly one
    planned guard, each planned guard is a raw one, hoisted if it is loop
    invariant inside a loop, the plan is sorted, and its guard score never
    exceeds that of the raw guards. *)
Theorem PlanGuards_placement raw :
  Z.of_nat (length raw) < 2 ^ 50 ->
  let plan := PlanGuards raw in
  NoDup (map (fun g => (gAssumption g, gDom g)) plan) /\
  (forall g, g ∈ raw -> exists g', g' ∈ plan /\ gAssumption g' = gAssumption g /\ gDom g' = gDom g) /\
  (forall g, g ∈ plan -> exists g0, g0 ∈ raw /\ g = hoist g0) /\
  Sorted guardLe plan /\
  GuardScore plan DefaultWeights <= GuardScore raw DefaultWeights.
Proof.
  intros Hlen. cbv zeta. unfold PlanGuards.
  assert (merge_sort guardLe (placeGuards ∅ raw) ≡ₚ placeGuards ∅ raw) as Hp
    by apply merge_sort_Permutation.
  destruct (placeGuards_spec raw ∅) as (Hd & Hs & Hc). split_and!.
  - rewrite Hp. revert Hd. clear. generalize (placeGuards ∅ raw). intros l. clear raw.
    induction l as [|g l IH]; simpl; [constructor|].
    intros [Hn Hd]%NoDup_cons. constructor; [|auto]. intros (x & [= Ea Ed] & Hx)%list_elem_of_fmap.
    apply Hn, list_elem_of_fmap. exists x. split; [by apply guardKey_inj|done].
  - intros g Hg. destruct (Hc g Hg) as (g' & Hg' & [? ?]%guardKey_inj); [set_solver|].
    exists g'. by rewrite Hp.
  - intros g. rewrite Hp. intros Hg. by destruct (Hs g Hg).
  - apply (Sorted_merge_sort guardLe).
  - assert (guardCost (merge_sort guardLe (placeGuards ∅ raw)) <= guardCost raw) as Hle.
    { rewrite (guardCost_perm _ _ Hp). apply placeGuards_cheaper. }
    pose proof (guardCost_bound raw). rewrite !guardCost_score by lia. done.
Qed.

Definition demoGuard (a : string) (depth dom : Z) : Guard :=
  mkGuard GuardOverflow sp0 a EdgeDeopt depth true dom 0 false.

Lemma PlanGuards_placement_witness :
  PlanGuards [demoGuard "x" 1 0; demoGuard "x" 0 0; demoGuard "y" 0 0] =
    [hoist (demoGuard "x" 1 0); demoGuard "y" 0 0] /\
  GuardScore (PlanGuards [demoGuard "x" 1 0; demoGuard "x" 0 0]) DefaultWeights <=
    GuardScore [demoGuard "x" 1 0; demoGuard "x" 0 0] DefaultWeights.
Proof.
  split; [vm_compute; reflexivity|].
  apply (PlanGuards_placement [demoGuard "x" 1 0; demoGuard "x" 0 0]). reflexivity.
Defined.
