(* ===== verification/Deopt.v ===== *)
(** * Deopt: resume points, transfer tables and their verifier

    Model of src/pkg/partition/deopt.go.  A violation carries its code; the
    sentence of detail is built from the site and is kept as the code's
    argument data, not as text. *)

From S2P Require Import Prelude Lattice Evidence Guards.
Set Warnings "-register-all".
Local Open Scope Z_scope.

Inductive ResumeKind := ResumeStatement | ResumeLoopBackEdge | ResumeMidExpression.
Inductive MaterializeKind := MatRebox | MatPointerCopy | MatCell.

#[export] Instance ResumeKind_eq_dec : EqDecision ResumeKind.
Proof. solve_decision. Defined.
#[export] Instance MaterializeKind_eq_dec : EqDecision MaterializeKind.
Proof. solve_decision. Defined.

Record TransferEntry := mkTransfer {
  tSlot : Z; tNative : string; tKind : MaterializeKind; tType : ty; tEscaped : bool }.

Record ResumePoint := mkResume { rpID : Z; rpSite : Span; rpKind : ResumeKind }.

Record DeoptSite := mkSite {
  dsGuard : Guard; dsResume : ResumePoint; dsTransfers : list TransferEntry;
  dsLiveVars : list string; dsEffectBefore : bool }.

Definition LiveCount (s : DeoptSite) : Z := Z.of_nat (length (dsLiveVars s)).

(** The violation codes with what their detail names. *)
Inductive Violation :=
  | ViolGuardNotInterior (site : Span) (edge : FailureEdge)
  | ViolResumeMidExpr (id : Z) (site : Span)
  | ViolEffectBeforeDeopt (id : Z)
  | ViolLiveVarUnmapped (name : string)
  | ViolTransferNotLive (name : string)
  | ViolPointerCopyBoxless (name : string)
  | ViolDeoptHandlerMissing (site : Span) (resume : Z).

Definition Code (v : Violation) : string :=
  match v with
  | ViolGuardNotInterior _ _ => "guard-not-interior"
  | ViolResumeMidExpr _ _ => "resume-mid-expression"
  | ViolEffectBeforeDeopt _ => "effect-before-deopt"
  | ViolLiveVarUnmapped _ => "live-var-unmapped"
  | ViolTransferNotLive _ => "transfer-not-live"
  | ViolPointerCopyBoxless _ => "pointer-copy-not-escaped"
  | ViolDeoptHandlerMissing _ _ => "deopt-handler-missing"
  end.

Definition memb (n : string) (l : list string) : bool := existsb (String.eqb n) l.

Definition verifyTransfer (live : list string) (t : TransferEntry) : list Violation :=
  (if negb (memb (tNative t) live) then [ViolTransferNotLive (tNative t)] else []) ++
  (if bool_decide (tKind t = MatPointerCopy) && negb (tEscaped t)
   then [ViolPointerCopyBoxless (tNative t)] else []).

Definition VerifyDeopt (s : DeoptSite) : list Violation :=
  (if negb (bool_decide (gEdge (dsGuard s) = EdgeDeopt))
   then [ViolGuardNotInterior (gSite (dsGuard s)) (gEdge (dsGuard s))] else []) ++
  (if bool_decide (rpKind (dsResume s) = ResumeMidExpression)
   then [ViolResumeMidExpr (rpID (dsResume s)) (rpSite (dsResume s))] else []) ++
  (if dsEffectBefore s then [ViolEffectBeforeDeopt (rpID (dsResume s))] else []) ++
  concat (map (verifyTransfer (dsLiveVars s)) (dsTransfers s)) ++
  concat (map (fun name =>
    if negb (memb name (map tNative (dsTransfers s))) then [ViolLiveVarUnmapped name] else [])
    (dsLiveVars s)).

Definition VerifyPlan (sites : list DeoptSite) : list Violation :=
  let defined := map (fun s => rpID (dsResume s)) sites in
  concat (map (fun s => VerifyDeopt s ++
    if bool_decide (gEdge (dsGuard s) = EdgeDeopt) && negb (existsb (Z.eqb (gResume (dsGuard s))) defined)
    then [ViolDeoptHandlerMissing (gSite (dsGuard s)) (gResume (dsGuard s))] else []) sites).

(** ** Specification: the section 8 invariants *)

Record site_ok (s : DeoptSite) : Prop := {
  so_interior : gEdge (dsGuard s) = EdgeDeopt;
  so_boundary : rpKind (dsResume s) <> ResumeMidExpression;
  so_no_replay : dsEffectBefore s = false;
  so_live : forall t, t ∈ dsTransfers s -> tNative t ∈ dsLiveVars s;
  so_mapped : forall n, n ∈ dsLiveVars s -> exists t, t ∈ dsTransfers s /\ tNative t = n;
  so_escaped : forall t, t ∈ dsTransfers s -> tKind t = MatPointerCopy -> tEscaped t = true }.

Record plan_ok (sites : list DeoptSite) : Prop := {
  po_sites : forall s, s ∈ sites -> site_ok s;
  po_handlers : forall s, s ∈ sites -> gEdge (dsGuard s) = EdgeDeopt ->
    exists s', s' ∈ sites /\ rpID (dsResume s') = gResume (dsGuard s) }.

Lemma memb_elem n l : memb n l = true <-> n ∈ l.
Proof.
  unfold memb. rewrite existsb_exists. split.
  - intros (x & Hx%list_elem_of_In & ->%String.eqb_eq). done.
  - intros Hx%list_elem_of_In. exists n. split; [done|apply String.eqb_refl].
Qed.

Lemma concat_map_nil {A B} (f : A -> list B) l :
  concat (map f l) = [] <-> forall x, x ∈ l -> f x = [].
Proof.
  induction l as [|a l IH]; simpl.
  - split; [by intros _ x ?%not_elem_of_nil|done].
  - split.
    + intros [Ha Hl]%app_eq_nil x [->|Hx]%elem_of_cons; [done|]. by apply IH.
    + intros Hf. rewrite (Hf a) by (by left). apply IH. intros x Hx. apply Hf. by right.
Qed.

Lemma if_nil {B} (c : bool) (v : B) : (if c then [v] else []) = [] <-> c = false.
Proof. destruct c; split; done. Qed.

Lemma VerifyDeopt_spec s : VerifyDeopt s = [] <-> site_ok s.
Proof.
  unfold VerifyDeopt. split.
  - intros (H1 & (H2 & (H3 & (H4 & H5)%app_eq_nil)%app_eq_nil)%app_eq_nil)%app_eq_nil.
    rewrite if_nil in H1. rewrite if_nil in H2. pose proof (proj1 (concat_map_nil _ _) H4) as H4'. pose proof (proj1 (concat_map_nil _ _) H5) as H5'.
    clear H4 H5. rename H4' into H4, H5' into H5. constructor.
    + apply negb_false_iff in H1. by bool_to_prop.
    + by bool_to_prop.
    + by destruct (dsEffectBefore s).
    + intros t Ht. destruct (app_eq_nil _ _ (H4 t Ht)) as [Ha _]. rewrite if_nil in Ha.
      apply negb_false_iff in Ha. by apply memb_elem.
    + intros n Hn. specialize (H5 n Hn). rewrite if_nil in H5. apply negb_false_iff, memb_elem in H5.
      apply list_elem_of_fmap in H5 as (t & -> & Ht). eauto.
    + intros t Ht Hk. destruct (app_eq_nil _ _ (H4 t Ht)) as [_ Hb]. rewrite if_nil in Hb.
      rewrite Hk in Hb. rewrite bool_decide_true in Hb by done. simpl in Hb.
      by apply negb_false_iff in Hb.
  - intros [H1 H2 H3 H4 H5 H6].
    rewrite (bool_decide_true (gEdge _ = _)) by done.
    rewrite (bool_decide_false (rpKind _ = _)) by done. rewrite H3. simpl.
    apply app_nil. split; apply concat_map_nil.
    + intros t Ht. unfold verifyTransfer. specialize (H4 t Ht). apply memb_elem in H4. rewrite H4. simpl.
      apply if_nil. case_bool_decide as Hk; [|done]. by rewrite (H6 t Ht Hk).
    + intros n Hn. apply if_nil, negb_false_iff, memb_elem. destruct (H5 n Hn) as (t & Ht & <-).
      apply list_elem_of_fmap. eauto.
Qed.

Lemma VerifyPlan_exact_aux sites : VerifyPlan sites = [] <-> plan_ok sites.
Proof.
  unfold VerifyPlan. rewrite concat_map_nil. split.
  - intros H. constructor; intros s Hs.
    + apply VerifyDeopt_spec. by destruct (app_eq_nil _ _ (H s Hs)).
    + intros He. destruct (app_eq_nil _ _ (H s Hs)) as [_ Hb]. rewrite if_nil in Hb.
      rewrite bool_decide_true in Hb by done. simpl in Hb. apply negb_false_iff, existsb_exists in Hb
        as (id & Hid & E%Z.eqb_eq). apply in_map_iff in Hid as (s' & Hid & Hs').
      exists s'. split; [by apply list_elem_of_In|congruence].
  - intros [H1 H2] s Hs. apply app_nil. split; [by apply VerifyDeopt_spec, H1|].
    apply if_nil. case_bool_decide as He; [|done]. simpl. apply negb_false_iff, existsb_exists.
    destruct (H2 s Hs He) as (s' & Hs' & Hid). exists (gResume (dsGuard s)).
    split; [|apply Z.eqb_refl]. apply in_map_iff. exists s'. by rewrite <- list_elem_of_In.
Qed.

(** C18: the deopt verifier is sound and complete: it reports nothing on a
    plan exactly when every site is an interior deopt guard resuming at a
    boundary, with no effect to replay and a transfer table that maps exactly
    the live variables, pointer-copying only escaped ones, and every deopt
    edge names a handler some site defines. *)
Theorem VerifyPlan_exact sites : VerifyPlan sites = [] <-> plan_ok sites.
Proof. apply VerifyPlan_exact_aux. Qed.

(** ** driver.go: the deopt plan of the bridge's guard sites *)

(** [ir.GuardSite]: the live scalars of one guarded statement. *)
Record GuardSite := mkGuardSite { gsLive : list (string * ty) }.

Fixpoint transfersFrom (slot : Z) (live : list (string * ty)) : list TransferEntry :=
  match live with
  | [] => []
  | (n, t) :: live => mkTransfer slot n MatRebox t false :: transfersFrom (slot + 1) live
  end.

Fixpoint deoptSitesFrom (id : Z) (sites : list GuardSite) (span : Span) : list DeoptSite :=
  match sites with
  | [] => []
  | s :: sites =>
      mkSite (mkGuard GuardOverflow span "" EdgeDeopt 0 false 0 id false)
        (mkResume id span ResumeStatement) (transfersFrom 0 (gsLive s)) (map fst (gsLive s)) false
      :: deoptSitesFrom (id + 1) sites span
  end.

Definition deoptSites (sites : list GuardSite) (span : Span) : list DeoptSite := deoptSitesFrom 0 sites span.

Lemma transfers_native slot live : map tNative (transfersFrom slot live) = map fst live.
Proof. revert slot. induction live as [|[n t] l IH]; intros slot; simpl; [done|]. by rewrite IH. Qed.

Lemma transfers_rebox slot live t : t ∈ transfersFrom slot live -> tKind t = MatRebox.
Proof.
  revert slot. induction live as [|[n x] l IH]; intros slot; simpl; [by intros ?%not_elem_of_nil|].
  intros [->|H]%elem_of_cons; [done|eauto].
Qed.

Lemma deoptSites_form id sites span s : s ∈ deoptSitesFrom id sites span ->
  gEdge (dsGuard s) = EdgeDeopt /\ gResume (dsGuard s) = rpID (dsResume s) /\
  rpKind (dsResume s) = ResumeStatement /\ dsEffectBefore s = false /\
  map tNative (dsTransfers s) = dsLiveVars s /\
  (forall t, t ∈ dsTransfers s -> tKind t = MatRebox).
Proof.
  revert id. induction sites as [|g sites IH]; intros id; simpl; [by intros ?%not_elem_of_nil|].
  intros [->|H]%elem_of_cons; [|eauto]. simpl. split_and!; try done.
  - apply transfers_native.
  - intros t. apply transfers_rebox.
Qed.

(** Every deopt plan the driver builds passes the verifier, whatever
    guard sites the bridge reports. *)
Theorem deoptSites_verified sites span : VerifyPlan (deoptSites sites span) = [].
Proof.
  apply VerifyPlan_exact_aux. constructor.
  - intros s Hs. destruct (deoptSites_form _ _ _ _ Hs) as (H1 & _ & H3 & H4 & H5 & H6).
    constructor; [done|by rewrite H3|done| | |].
    + intros t Ht. rewrite <- H5. apply list_elem_of_fmap. eauto.
    + intros n Hn. rewrite <- H5 in Hn. apply list_elem_of_fmap in Hn as (t & -> & Ht). eauto.
    + intros t Ht Hk. rewrite (H6 t Ht) in Hk. done.
  - intros s Hs _. destruct (deoptSites_form _ _ _ _ Hs) as (_ & H2 & _). eauto.
Qed.
