(* ===== verification/GuardSites.v ===== *)
(** * GuardSites: where a static function can leave for its boxed twin

    The site walk of src/pkg/ir/deopt.go, and what it promises the partitioner:
    a function without sites is compiled to Go that has no edge to the boxed
    twin, so its callers may call it directly. *)

From S2P Require Import Prelude Int64 Lattice Interner Evidence Guards Deopt StaticOps GoSem Emit IrCost PySem EmitTyping EmitEnv EmitExpr EmitOps EmitSound EmitStmt EmitBlock EmitLoops EmitGuards EmitCorrect.
Local Open Scope Z_scope.
Local Open Scope emit_scope.

(** ** The walk *)

(** The lattice element of a scalar, in the walk's own interner. *)
Definition scalarType (r : Repr) : option ty :=
  match RScalar r with
  | SInt => Some (base NewInterner AInt)
  | SFloat => Some (base NewInterner AFloat)
  | SBool => Some (base NewInterner ABool)
  | SStr => Some (base NewInterner AStr)
  | NotScalar => None
  end.

Definition liveScope : Type := list (string * ty).

(** A name without a rebox constructor is skipped. *)
Definition declare (name : string) (r : Repr) (sc : liveScope) : liveScope :=
  match scalarType r with Some t => sc ++ [(name, t)] | None => sc end.

(** The names of a multiple assignment with their values (as many, in every
    statement the bridge builds). *)
Fixpoint declareAll (names : list string) (values : list Expr) (sc : liveScope) : liveScope :=
  match names, values with
  | n :: names, v :: values => declareAll names values (declare n (reprOf v) sc)
  | _, _ => sc
  end.

(** The sites of a statement and the scope after it; a nested block's names end
    with the block. *)
Fixpoint siteStmt (s : Stmt) (sc : liveScope) : list GuardSite * liveScope :=
  let siteBlock := fix siteBlock (l : list Stmt) (sc : liveScope) : list GuardSite :=
    match l with [] => [] | s :: l => let r := siteStmt s sc in r.1 ++ siteBlock l r.2 end in
  let here := if stmtGuarded s then [mkGuardSite sc] else [] in
  match s with
  | Define x v => (here, declare x (reprOf v) sc)
  | Bind xs vs true => (here, declareAll xs vs sc)
  | VarDecl x r => (here, declare x r sc)
  | If _ thn els => (here ++ siteBlock thn sc ++ siteBlock els sc, sc)
  | While _ body | ForRange _ _ _ body => (here ++ siteBlock body sc, sc)
  | ForCount x _ _ _ body _ => (here ++ siteBlock body (declare x intRepr sc), sc)
  | ForGen x elem _ body _ => (here ++ siteBlock body (declare x elem sc), sc)
  | _ => (here, sc)
  end.

Fixpoint siteBlock (l : list Stmt) (sc : liveScope) : list GuardSite :=
  match l with [] => [] | s :: l => let r := siteStmt s sc in r.1 ++ siteBlock l r.2 end.

(** The entry's site stands for every module binding the function guards. *)
Definition GuardSitesOf (f : Func) : list GuardSite :=
  let sc := fold_left (fun sc p => declare (pName p) (pRepr p) sc) (Params f) [] in
  (match BindingGuards f with [] => [] | _ => [mkGuardSite sc] end) ++ siteBlock (Body f) sc.

(** ** Go code without an edge *)

(** [return f(...)] with one result is how an edge hands over to the twin. *)
Definition isEdge (rs : list gexpr) : bool :=
  match rs with [GCall (GIdent _) _] => true | _ => false end.

Fixpoint edgeFree (s : gstmt) : bool :=
  let all := fix all (l : list gstmt) : bool := match l with [] => true | s :: l => edgeFree s && all l end in
  let opt (o : option gstmt) : bool := match o with None => true | Some s => edgeFree s end in
  match s with
  | GReturn rs => negb (isEdge rs)
  | GIf init _ body els => opt init && all body && opt els
  | GFor init _ post body => opt init && opt post && all body
  | GRange _ _ _ body => all body
  | GBlock l => all l
  | _ => true
  end.

Fixpoint edgesFree (l : list gstmt) : bool :=
  match l with [] => true | s :: l => edgeFree s && edgesFree l end.

(** Two results are not an edge. *)
Lemma isEdge_two x y l : isEdge (x :: y :: l) = false.
Proof. destruct x; try done. match goal with |- context [GCall ?f _] => by destruct f end. Qed.

Ltac edgefree :=
  cbn [edgesFree edgeFree ifStmt ret define setStmt augAssign andb negb]; rewrite ?isEdge_two; reflexivity.

Lemma edgesFree_app l m : edgesFree (l ++ m) = edgesFree l && edgesFree m.
Proof. induction l as [|s l IH]; [done|]. simpl. by rewrite IH, andb_assoc. Qed.

(** Induction over the blocks of a Go statement. *)
Section GoInduction.
Context (P : gstmt -> Prop).
Let opt (o : option gstmt) : Prop := match o with None => True | Some s => P s end.
Context (HAssign : forall l t r, P (GAssign l t r)) (HDecl : forall x t, P (GDecl x t)).
Context (HIf : forall i c b e, opt i -> Forall P b -> opt e -> P (GIf i c b e)).
Context (HFor : forall i c p b, opt i -> opt p -> Forall P b -> P (GFor i c p b)).
Context (HRange : forall k v x b, Forall P b -> P (GRange k v x b)) (HInc : forall x t, P (GIncDec x t)).
Context (HReturn : forall rs, P (GReturn rs)) (HBranch : forall t, P (GBranch t)).
Context (HBlock : forall l, Forall P l -> P (GBlock l)).

Definition gstmt_ind' : forall s, P s :=
  fix rec s :=
    let recs := fix recs (l : list gstmt) : Forall P l :=
      match l with [] => Forall_nil_2 _ | x :: l => Forall_cons_2 _ _ _ (rec x) (recs l) end in
    let ropt (o : option gstmt) : opt o := match o with None => I | Some s => rec s end in
    match s with
    | GAssign l t r => HAssign l t r | GDecl x t => HDecl x t
    | GIf i c b e => HIf i c b e (ropt i) (recs b) (ropt e)
    | GFor i c p b => HFor i c p b (ropt i) (ropt p) (recs b)
    | GRange k v x b => HRange k v x b (recs b) | GIncDec x t => HInc x t
    | GReturn rs => HReturn rs | GBranch t => HBranch t | GBlock l => HBlock l (recs l)
    end.
End GoInduction.

(** Not a transfer to the twin. *)
Definition stays (o : option gres) : Prop := match o with Some (GTail _ _) => False | _ => True end.

Section Stay.
Context (callee : string -> list value -> value + pyexc) (n : nat).
Local Notation exec := (exec callee).

Lemma stays_bind {A} (o : option A) (k : A -> option gres) : (forall a, stays (k a)) -> stays (o ≫= k).
Proof. intros H. destruct o; [apply H|done]. Qed.

Lemma stays_norm o : stays (GNorm <$> o).
Proof. by destruct o. Qed.

Ltac stay := repeat (apply stays_norm || (apply stays_bind; intros)).

Lemma stays_pop o : stays o -> stays (gpop <$> o).
Proof. destruct o as [[]|]; done. Qed.

Lemma stays_assign lhs tok rhs rho : stays (execAssign callee lhs tok rhs rho).
Proof.
  unfold execAssign. apply stays_bind. intros xs.
  destruct xs as [|x [|y [|]]], rhs as [|e [|]]; stay. destruct tok; stay.
Qed.

Lemma stays_return rs rho : isEdge rs = false -> stays (execReturn rs rho).
Proof.
  intros H. assert (forall o : option (list value), stays (GRet <$> o)) as Hr by (by intros []).
  unfold execReturn. destruct rs as [|[] [|]]; try apply Hr.
  all: match goal with |- context [match ?f with GIdent _ => _ | _ => _ end] => destruct f end; (apply Hr || done).
Qed.

Lemma stays_loop cond body post : (forall r, stays (body r)) -> forall k rho, stays (gloop k cond body post rho).
Proof.
  intros Hb. induction k as [|k IH]; intros rho; [done|]. simpl. apply stays_bind. intros []; [|done].
  specialize (Hb rho). destruct (body rho) as [[]|]; try done; simpl; apply stays_bind; intros []; done.
Qed.

Lemma stays_range key val body l : (forall r, stays (body r)) -> forall i rho, stays (grange key val body i l rho).
Proof.
  intros Hb. induction l as [|v l IH]; intros i rho; [done|]. simpl. apply stays_bind. intros r0.
  specialize (Hb r0). destruct (body r0) as [[]|]; try done; simpl; apply IH.
Qed.

Lemma edgeFree_walk l :
  (fix all (l : list gstmt) : bool := match l with [] => true | s :: l => edgeFree s && all l end) l = edgesFree l.
Proof. induction l as [|s l IH]; [done|]. simpl. by rewrite IH. Qed.

Lemma stays_opt o rho :
  match o with None => True | Some s => forall rho, edgeFree s = true -> stays (exec n s rho) end ->
  match o with None => true | Some s => edgeFree s end = true ->
  stays match o with None => Some (GNorm rho) | Some s => exec n s rho end.
Proof. destruct o; simpl; auto. Qed.

Lemma stays_execs l : Forall (fun s => forall rho, edgeFree s = true -> stays (exec n s rho)) l ->
  edgesFree l = true -> forall rho, stays (execs callee n l rho).
Proof.
  induction 1 as [|s l Hs Hl IH]; intros H rho; [done|]. simpl in H. apply andb_true_iff in H as [H1 H2]. cbn [execs].
  specialize (Hs rho H1). destruct (exec n s rho) as [[]|]; try done. by apply IH.
Qed.

Lemma stays_exec s : forall rho, edgeFree s = true -> stays (exec n s rho).
Proof.
  induction s as [l t r|x t|i c b e Hi Hb He|i c p b Hi Hp Hb|k v x b Hb|x t|rs|t|l Hl] using gstmt_ind'; intros rho Hf;
    cbn [edgeFree exec] in *; rewrite ?edgeFree_walk in Hf.
  - apply stays_assign.
  - by destruct (gdefine _ _ _).
  - apply andb_true_iff in Hf as [[H1 H2]%andb_true_iff H3]. apply stays_bind. intros [r0| | | | ]; try done.
    apply stays_bind. intros []; apply stays_pop; [|by apply stays_opt]. rewrite exec_list. by apply stays_pop, stays_execs.
  - apply andb_true_iff in Hf as [[H1 H2]%andb_true_iff H3]. apply stays_bind. intros [r0| | | | ]; try done.
    apply stays_pop, stays_loop. intros r1. rewrite exec_list. by apply stays_pop, stays_execs.
  - apply stays_bind. intros []; try done. apply stays_range. intros r1. rewrite exec_list. by apply stays_pop, stays_execs.
  - unfold execIncDec. destruct x; try done. stay. repeat case_match; try done; stay.
  - apply stays_return. by apply negb_true_iff.
  - by destruct t.
  - rewrite exec_list. by apply stays_pop, stays_execs.
Qed.

Lemma stays_block l rho : edgesFree l = true -> stays (execs callee n l rho).
Proof. intros H. apply stays_execs; [|done]. apply Forall_forall. intros s _ r. apply stays_exec. Qed.
End Stay.

(** ** The builder's flag *)

(** A step keeps the twin's name and never clears the flag. *)
Definition mono {A} (m : EM A) : Prop :=
  forall b a b', m b = inl (a, b') -> deopt b' = deopt b /\ (deoptUsed b' = false -> deoptUsed b = false).

(** A step that leaves the flag down adds no edge. *)
Definition clean {A} (m : EM A) (Q : A -> Prop) : Prop :=
  forall b a b', m b = inl (a, b') -> deopt b <> "" -> deoptUsed b' = false -> edgesFree (pre b) = true ->
    edgesFree (pre b') = true /\ Q a.

Create HintDb edges.

Lemma mono_ret {A} (a : A) : mono (eret a). Proof. intros b a' b' E. unfold eret in E. by simplify_eq. Qed.
Lemma mono_fail {A} e : mono (efail (A := A) e). Proof. by intros b a b'. Qed.
Lemma mono_temp : mono temp. Proof. intros b a b' [= _ <-]. by split. Qed.
Lemma mono_flag : mono flag. Proof. intros b a b' [= _ <-]. by split. Qed.
Lemma mono_errName : mono errName. Proof. intros b a b' [= _ <-]. by split. Qed.
Lemma mono_append ss : mono (append_ ss). Proof. intros b a b' [= _ <-]. by split. Qed.
Lemma mono_flush : mono flush. Proof. intros b a b' [= _ <-]. by split. Qed.
Lemma mono_bget : mono bget. Proof. intros b a b' [= _ <-]. by split. Qed.
Lemma mono_use : mono useDeopt. Proof. intros b a b' [= _ <-]. by split. Qed.
Lemma mono_next : mono nextDeopt. Proof. intros b a b' [= _ <-]. by split. Qed.
Lemma mono_resume rs : mono (setResume rs). Proof. intros b a b' [= _ <-]. by split. Qed.

Lemma mono_bind {A B} (m : EM A) (k : A -> EM B) : mono m -> (forall a, mono (k a)) -> mono (ebind m k).
Proof.
  intros Hm Hk b a b' E. unfold ebind in E. destruct (m b) as [[a1 b1]|] eqn:Em; [|done].
  destruct (Hm _ _ _ Em) as [D1 F1]. destruct (Hk _ _ _ _ E) as [D2 F2]. rewrite D2. auto.
Qed.

#[export] Hint Resolve mono_ret mono_fail mono_temp mono_flag mono_errName mono_append mono_flush mono_bget mono_use mono_next mono_resume : edges.

(** Split the choices of a computation and its binds. *)
Ltac monos := repeat match goal with
  | |- mono (ebind _ _) => apply mono_bind; [|intros ?]
  | |- mono (let _ := _ in _) => cbv zeta
  | |- mono (match ?x with _ => _ end) => destruct x
  end; auto with edges.

Lemma mono_edge : mono deoptEdge.
Proof. unfold deoptEdge. monos. Qed.
#[export] Hint Resolve mono_edge : edges.

Lemma mono_raiseIf c e m : mono (raiseIf c e m).
Proof. unfold raiseIf. monos. Qed.
Lemma mono_guarded h x y : mono (guardedCall h x y).
Proof. unfold guardedCall. monos. Qed.
#[export] Hint Resolve mono_raiseIf mono_guarded : edges.

Lemma mono_bin op lx lr rx rr : mono (lowerBinOps op lx lr rx rr).
Proof. unfold lowerBinOps, guardZeroDiv, guardZeroDivInt, guardNegShift. monos. Qed.
Lemma mono_cmp op lx lr rx rr : mono (lowerCmpOps op lx lr rx rr).
Proof. unfold lowerCmpOps. monos. Qed.
Lemma mono_bool op r lx lr rx rr : mono (lowerBoolOps op r lx lr rx rr).
Proof. unfold lowerBoolOps. monos. Qed.
Lemma mono_not x r : mono (lowerNotOp x r).
Proof. unfold lowerNotOp. monos. Qed.
Lemma mono_item elem i x r : mono (coerceItem elem i x r).
Proof. unfold coerceItem. monos. Qed.
Lemma mono_attr n x r : mono (lowerAttrOf n x r).
Proof. unfold lowerAttrOf. monos. Qed.
Lemma mono_index bx elem ix ir : mono (lowerIndexOf bx elem ix ir).
Proof. unfold lowerIndexOf. monos. Qed.
Lemma mono_call f xs r : mono (lowerCallOf f xs r).
Proof. unfold lowerCallOf. monos. Qed.
#[export] Hint Resolve mono_bin mono_cmp mono_bool mono_not mono_item mono_attr mono_index mono_call : edges.

(** ** Expressions *)

(** Induction over the nested lists of an expression. *)
Section ExprInduction.
Context (P : Expr -> Prop).
Context (HLeaf : forall e, match e with
  | Var _ _ | Int _ | Float _ | Bool _ | Str _ | Recv _ _ => P e | _ => True end).
Context (HTwo : forall l r, P l -> P r -> (forall op, P (Bin op l r)) /\ (forall op, P (Cmp op l r)) /\
  P (And l r) /\ P (Or l r) /\ P (Index l r)).
Context (HOne : forall x, P x -> P (Not x) /\ forall n, P (Attr x n)).
Context (HList : forall r l, Forall P l -> P (ListLit r l)) (HCall : forall f l r, Forall P l -> P (Call f l r)).
Context (HGen : forall t l, Forall (fun p => P p.2) l -> P (GenNew t l)).

Definition Expr_ind' : forall e, P e :=
  fix rec e :=
    let recs := fix recs (l : list Expr) : Forall P l :=
      match l with [] => Forall_nil_2 _ | x :: l => Forall_cons_2 _ _ _ (rec x) (recs l) end in
    let two l r := HTwo l r (rec l) (rec r) in
    match e as e return (match e with
      | Var _ _ | Int _ | Float _ | Bool _ | Str _ | Recv _ _ => P e | _ => True end) -> P e with
    | Bin op l r => fun _ => proj1 (two l r) op
    | Cmp op l r => fun _ => proj1 (proj2 (two l r)) op
    | And l r => fun _ => proj1 (proj2 (proj2 (two l r)))
    | Or l r => fun _ => proj1 (proj2 (proj2 (proj2 (two l r))))
    | Index l r => fun _ => proj2 (proj2 (proj2 (proj2 (two l r))))
    | Not x => fun _ => proj1 (HOne x (rec x))
    | Attr x n => fun _ => proj2 (HOne x (rec x)) n
    | ListLit r l => fun _ => HList r l (recs l)
    | Call f l r => fun _ => HCall f l r (recs l)
    | GenNew t l => fun _ => HGen t l
        ((fix go (l : list (string * Expr)) : Forall (fun p => P p.2) l :=
          match l with [] => Forall_nil_2 _ | x :: l => Forall_cons_2 (fun p => P p.2) x l (rec x.2) (go l) end) l)
    | _ => fun H => H
    end (HLeaf e).
End ExprInduction.

Lemma mono_expr e : mono (lowerExpr e).
Proof.
  apply (Expr_ind' (fun e => mono (lowerExpr e))); clear e; cbn [lowerExpr].
  - intros []; try done; cbn [lowerExpr]; auto with edges.
  - intros l r Hl Hr. split_and!; intros; monos.
  - intros x Hx. split; intros; monos.
  - intros r l Hl. monos. generalize 0%nat. induction Hl as [|x l Hx Hl IH]; intros i; monos.
  - intros f l r Hl. monos. induction Hl as [|x l Hx Hl IH]; monos.
  - intros t l Hl. monos. induction Hl as [|[x v] l Hx Hl IH]; monos.
Qed.
#[export] Hint Resolve mono_expr : edges.

(** ** Adding no edge *)

Lemma clean_bind {A B} (m : EM A) (k : A -> EM B) Q R :
  (forall a, mono (k a)) -> mono m -> clean m Q -> (forall a, Q a -> clean (k a) R) -> clean (ebind m k) R.
Proof.
  intros Mk Mm Hm Hk b a b' E Hd Hu Hp. unfold ebind in E. destruct (m b) as [[a1 b1]|] eqn:Em; [|done].
  destruct (Mm _ _ _ Em) as [D1 _]. destruct (Mk _ _ _ _ E) as [_ F2].
  destruct (Hm _ _ _ Em Hd (F2 Hu) Hp) as [Hp1 HQ]. eapply (Hk a1 HQ); [exact E|by rewrite D1|done|done].
Qed.

Lemma clean_ret {A} (a : A) (Q : A -> Prop) : Q a -> clean (eret a) Q.
Proof. intros HQ b a' b' [= <- <-]. done. Qed.
Lemma clean_fail {A} e Q : clean (efail (A := A) e) Q. Proof. by intros b a b'. Qed.

(** Steps that only count. *)
Lemma clean_temp Q : (forall x, Q x) -> clean temp Q. Proof. intros H b a b' [= <- <-]. by split. Qed.
Lemma clean_flag Q : (forall x, Q x) -> clean flag Q. Proof. intros H b a b' [= <- <-]. by split. Qed.
Lemma clean_errName Q : (forall x, Q x) -> clean errName Q. Proof. intros H b a b' [= <- <-]. by split. Qed.
Lemma clean_bget Q : (forall x, Q x) -> clean bget Q. Proof. intros H b a b' [= <- <-]. by split. Qed.
Lemma clean_resume rs : clean (setResume rs) (fun _ => True). Proof. intros b a b' [= _ <-]. by split. Qed.

Lemma clean_append ss Q : edgesFree ss = true -> Q tt -> clean (append_ ss) Q.
Proof. intros Hs HQ b a b' [= <- <-] _ _ Hp. simpl. by rewrite edgesFree_app, Hp, Hs. Qed.

Lemma clean_flush : clean flush (fun g => edgesFree g = true).
Proof. intros b a b' [= <- <-]. done. Qed.

(** An edge raises the flag. *)
Lemma clean_edge Q : clean deoptEdge Q.
Proof.
  intros b a b' E Hd Hu. unfold deoptEdge, ebind, bget, useDeopt, nextDeopt, eret in E.
  destruct (genDeopt b); [by simplify_eq|]. destruct (last (resume b)); [by simplify_eq|].
  destruct (String.eqb_spec (deopt b) ""); [done|]. by simplify_eq.
Qed.

Lemma clean_any {A} (m : EM A) (Q R : A -> Prop) : (forall a, Q a -> R a) -> clean m Q -> clean m R.
Proof. intros H Hm b a b' E Hd Hu Hp. destruct (Hm b a b' E Hd Hu Hp). auto. Qed.

#[export] Hint Resolve clean_fail clean_edge clean_flush clean_resume : edges.

Lemma clean_ext {A} (m' m : EM A) Q : (forall b, m b = m' b) -> clean m' Q -> clean m Q.
Proof. intros H Hm b a b' E. rewrite H in E. by apply Hm. Qed.

(** Whatever a step's value is. *)
Definition anything {A} (_ : A) : Prop := True.

Lemma clean_step {A B} (m : EM A) (k : A -> EM B) R :
  mono m -> clean m anything -> (forall a, mono (k a)) -> (forall a, clean (k a) R) -> clean (ebind m k) R.
Proof. intros Mm Hm Mk Hk. by eapply clean_bind. Qed.

Lemma clean_temp' : clean temp anything. Proof. by apply clean_temp. Qed.
Lemma clean_flag' : clean flag anything. Proof. by apply clean_flag. Qed.
Lemma clean_errName' : clean errName anything. Proof. by apply clean_errName. Qed.
Lemma clean_bget' : clean bget anything. Proof. by apply clean_bget. Qed.
Lemma clean_ret' {A} (a : A) : clean (eret a) anything. Proof. by apply clean_ret. Qed.
#[export] Hint Resolve clean_temp' clean_flag' clean_errName' clean_bget' clean_ret' : edges.

Ltac cleans := repeat match goal with
  | |- clean (ebind deoptEdge _) _ =>
      apply (clean_bind _ _ (fun _ => False)); [intros ?; monos|auto with edges|auto with edges|done]
  | |- clean (ebind _ _) _ => apply clean_step; [solve [monos]| |intros ?; monos|intros ?]
  | |- clean (let _ := _ in _) _ => cbv zeta
  | |- clean (append_ _) anything => apply clean_append; [|done]
  | |- clean (match ?x with _ => _ end) _ => destruct x
  end; auto with edges; try edgefree.

Lemma clean_raiseIf c e m : clean (raiseIf c e m) anything.
Proof. unfold raiseIf. cleans. Qed.

(** A guarded operation raises the flag. *)
Lemma clean_guarded f x y : clean (guardedCall f x y) anything.
Proof.
  unfold guardedCall. cleans.
Qed.
#[export] Hint Resolve clean_raiseIf clean_guarded : edges.

Lemma clean_bin op lx lr rx rr : clean (lowerBinOps op lx lr rx rr) anything.
Proof. unfold lowerBinOps, guardZeroDiv, guardZeroDivInt, guardNegShift. cleans. Qed.
Lemma clean_cmp op lx lr rx rr : clean (lowerCmpOps op lx lr rx rr) anything.
Proof. unfold lowerCmpOps. cleans. Qed.
Lemma clean_bool op r lx lr rx rr : clean (lowerBoolOps op r lx lr rx rr) anything.
Proof. unfold lowerBoolOps. cleans. Qed.
Lemma clean_not x r : clean (lowerNotOp x r) anything.
Proof. unfold lowerNotOp. cleans. Qed.
Lemma clean_item elem i x r : clean (coerceItem elem i x r) anything.
Proof. unfold coerceItem. cleans. Qed.
Lemma clean_attr n x r : clean (lowerAttrOf n x r) anything.
Proof. unfold lowerAttrOf. cleans. Qed.
Lemma clean_index bx elem ix ir : clean (lowerIndexOf bx elem ix ir) anything.
Proof.
  unfold lowerIndexOf. cleans.
Qed.
Lemma clean_call f xs r : clean (lowerCallOf f xs r) anything.
Proof. unfold lowerCallOf. cleans. Qed.
#[export] Hint Resolve clean_bin clean_cmp clean_bool clean_not clean_item clean_attr clean_index clean_call : edges.

Lemma clean_expr e : clean (lowerExpr e) anything.
Proof.
  apply (Expr_ind' (fun e => clean (lowerExpr e) anything)); clear e; cbn [lowerExpr].
  - intros []; try done; cbn [lowerExpr]; auto with edges.
  - intros l r Hl Hr. split_and!; intros; cleans.
  - intros x Hx. split; intros; cleans.
  - intros r l Hl. apply (clean_ext _ (lowerExpr (ListLit r l)) _ (lowerExpr_list r l)).
    assert (forall i l, mono (lowerItems r i l)) as Hm by (intros i m; revert i; induction m; intros i; cbn [lowerItems]; monos).
    cleans. generalize 0%nat. induction Hl; intros i; cbn [lowerItems]; cleans.
  - intros f l r Hl. apply (clean_ext _ (lowerExpr (Call f l r)) _ (lowerExpr_call f l r)).
    assert (forall l, mono (lowerArgs l)) as Hm by (intros m; induction m; cbn [lowerArgs]; monos).
    cleans. induction Hl; cbn [lowerArgs]; cleans.
  - intros t l Hl. set (go := fix go (l : list (string * Expr)) : EM (list gexpr) := match l with [] => _ | _ => _ end).
    assert (forall l, mono (go l)) as Hm by (intros m; induction m as [|[x v] m IH]; simpl; monos).
    cleans. induction Hl as [|[x v] l Hx Hl IH]; simpl; cleans.
Qed.
#[export] Hint Resolve clean_expr : edges.

(** ** Statements *)

Section StmtInduction.
Context (P : Stmt -> Prop).
Context (HSimple : forall s, match s with
  | If _ _ _ | While _ _ | ForRange _ _ _ _ | ForGen _ _ _ _ _ | ForCount _ _ _ _ _ _ => True | _ => P s end).
Context (HIf : forall c t e, Forall P t -> Forall P e -> P (If c t e)) (HWhile : forall c l, Forall P l -> P (While c l)).
Context (HRange : forall x i o l, Forall P l -> P (ForRange x i o l)).
Context (HGen : forall x r g l d, Forall P l -> P (ForGen x r g l d)).
Context (HCount : forall x a z d l r, Forall P l -> P (ForCount x a z d l r)).

Definition Stmt_ind' : forall s, P s :=
  fix rec s :=
    let recs := fix recs (l : list Stmt) : Forall P l :=
      match l with [] => Forall_nil_2 _ | x :: l => Forall_cons_2 _ _ _ (rec x) (recs l) end in
    match s as s return (match s with
      | If _ _ _ | While _ _ | ForRange _ _ _ _ | ForGen _ _ _ _ _ | ForCount _ _ _ _ _ _ => True | _ => P s end) -> P s with
    | If c t e => fun _ => HIf c t e (recs t) (recs e)
    | While c l => fun _ => HWhile c l (recs l)
    | ForRange x i o l => fun _ => HRange x i o l (recs l)
    | ForGen x r g l d => fun _ => HGen x r g l d (recs l)
    | ForCount x a z d l r => fun _ => HCount x a z d l r (recs l)
    | _ => fun H => H
    end (HSimple s).
End StmtInduction.

Definition noEdges (ss : list gstmt) : Prop := edgesFree ss = true.

Lemma mono_args l : mono (lowerArgs l). Proof. induction l; cbn [lowerArgs]; monos. Qed.
Lemma clean_args l : clean (lowerArgs l) anything.
Proof. pose proof mono_args. induction l; cbn [lowerArgs]; cleans. Qed.
Lemma mono_values p l : mono (lowerValues p l). Proof. induction l; cbn [lowerValues]; monos. Qed.
Lemma clean_values p l : clean (lowerValues p l) anything.
Proof. pose proof mono_values. induction l; cbn [lowerValues]; cleans. Qed.
Lemma mono_truthy x r : mono (truthyExpr x r). Proof. unfold truthyExpr. monos. Qed.
Lemma clean_truthy x r : clean (truthyExpr x r) anything. Proof. unfold truthyExpr. cleans. Qed.
Lemma mono_flushed ss : mono (flushed ss). Proof. unfold flushed. monos. Qed.
Lemma clean_flushed ss : edgesFree ss = true -> clean (flushed ss) noEdges.
Proof.
  intros H. unfold flushed. eapply clean_bind; [intros; monos|auto with edges|apply clean_flush|].
  intros g Hg. apply clean_ret. unfold noEdges. by rewrite edgesFree_app, Hg.
Qed.
Lemma mono_push v o : mono (pushResume v o). Proof. unfold pushResume. monos. Qed.
Lemma clean_push v o : clean (pushResume v o) anything.
Proof. unfold pushResume. destruct o; cleans. Qed.
Lemma mono_pop o : mono (popResume o). Proof. unfold popResume. monos. Qed.
Lemma clean_pop o : clean (popResume o) anything.
Proof. unfold popResume. destruct o; cleans. Qed.
Lemma mono_errCheck d : mono (genErrCheck d). Proof. unfold genErrCheck. monos. Qed.
Lemma clean_errCheck d : clean (genErrCheck d) (fun s => edgeFree s = true).
Proof. unfold genErrCheck. cleans. apply clean_ret. edgefree. Qed.
#[export] Hint Resolve mono_args clean_args mono_values clean_values mono_truthy clean_truthy mono_flushed mono_push clean_push mono_pop clean_pop mono_errCheck : edges.

Lemma mono_block l : Forall (fun s => mono (lowerStmt s)) l -> mono (lowerBlock l).
Proof. induction 1; cbn [lowerBlock]; monos. Qed.

Lemma mono_stmt s : mono (lowerStmt s).
Proof.
  pose proof mono_block as HB.
  apply (Stmt_ind' (fun s => mono (lowerStmt s))); clear s.
  - intros []; try done; cbn [lowerStmt]; try monos; auto with edges.
  - intros c t e Ht He. cbn [lowerStmt]. fold lowerBlock. monos.
  - intros c l Hl. cbn [lowerStmt]. fold lowerBlock. monos.
  - intros x i o l Hl. cbn [lowerStmt]. fold lowerBlock. monos.
  - intros x r g l d Hl. cbn [lowerStmt]. fold lowerBlock. monos.
  - intros x a z d l r Hl. cbn [lowerStmt]. fold lowerBlock. monos.
Qed.
#[export] Hint Resolve mono_stmt clean_flushed : edges.

Lemma mono_block' l : mono (lowerBlock l).
Proof. apply mono_block, Forall_forall. auto with edges. Qed.
#[export] Hint Resolve mono_block' clean_errCheck : edges.

Lemma clean_block l : Forall (fun s => clean (lowerStmt s) noEdges) l -> clean (lowerBlock l) noEdges.
Proof.
  induction 1 as [|s l Hs Hl IH]; cbn [lowerBlock]; [by apply clean_ret|].
  eapply clean_bind; [intros; monos|auto with edges|exact Hs|]. intros ss Hss.
  eapply clean_bind; [intros; monos|auto with edges|exact IH|]. intros rest Hr.
  apply clean_ret. unfold noEdges. by rewrite edgesFree_app, Hss, Hr.
Qed.

(** The steps of a statement, keeping what is known of the parts. *)
Ltac cleanS := repeat match goal with
  | |- clean (ebind flush _) _ =>
      apply (clean_bind _ _ noEdges); [intros ?; monos|auto with edges|apply clean_flush|intros ? ?]
  | |- clean (ebind (lowerBlock _) _) _ =>
      apply (clean_bind _ _ noEdges); [intros ?; monos|auto with edges|by apply clean_block|intros ? ?]
  | |- clean (ebind (genErrCheck _) _) _ =>
      apply (clean_bind _ _ (fun s => edgeFree s = true)); [intros ?; monos|auto with edges|apply clean_errCheck|intros ? ?]
  | |- clean (ebind _ _) _ => apply clean_step; [solve [monos]|solve [auto with edges]|intros ?; monos|intros ?]
  | |- clean (let _ := _ in _) _ => cbv zeta
  | |- clean (flushed _) noEdges => apply clean_flushed; try edgefree
  | |- clean (efail _) _ => apply clean_fail
  | |- clean (match ?x with _ => _ end) _ => destruct x
  end.

(** The statement's own code after its guards. *)
Lemma clean_after g ss : edgesFree g = true -> edgesFree ss = true -> clean (eret (g ++ ss)) noEdges.
Proof. intros H1 H2. apply clean_ret. unfold noEdges. by rewrite edgesFree_app, H1. Qed.

Lemma clean_stmt s : clean (lowerStmt s) noEdges.
Proof.
  apply (Stmt_ind' (fun s => clean (lowerStmt s) noEdges)); clear s.
  - intros []; try done; cbn [lowerStmt]; cleanS.
  - intros c t e Ht He. cbn [lowerStmt]. fold lowerBlock. cleanS.
    all: apply clean_after; [done|]; cbn [edgesFree edgeFree]; rewrite !edgeFree_walk.
    + by rewrite H0.
    + rewrite H0, andb_true_r. cbn [andb]. destruct (soleIf _) as [gs|] eqn:Eg.
      * apply soleIf_spec in Eg. subst. unfold noEdges in H1. cbn [edgesFree] in H1. by rewrite andb_true_r in H1.
      * cbn [edgeFree]. by rewrite edgeFree_walk.
  - intros c l Hl. cbn [lowerStmt]. fold lowerBlock. cleanS.
    apply clean_after; [done|]. cbn [edgesFree edgeFree]. by rewrite edgeFree_walk, H0.
  - intros x i o l Hl. cbn [lowerStmt]. fold lowerBlock. cleanS.
    destruct (String.eqb i ""); cbn [edgesFree edgeFree define]; rewrite edgeFree_walk; by rewrite H.
  - intros x r g l d Hl. cbn [lowerStmt]. fold lowerBlock. cleanS.
    apply clean_after; [done|]. cbn [edgesFree edgeFree ifStmt]. by rewrite edgeFree_walk, H0, H1.
  - intros x a z d l r Hl. cbn [lowerStmt]. fold lowerBlock. cleanS.
    apply clean_after; [done|]. cbn [edgesFree edgeFree define]. by rewrite edgeFree_walk, H0.
Qed.

(** ** Without a site the flag stays down *)

(** No attribute read in any expression of the statement. *)
Fixpoint plainStmt (s : Stmt) : bool :=
  let all := fix all (l : list Stmt) : bool := match l with [] => true | s :: l => plainStmt s && all l end in
  match s with
  | Define _ v | Assign _ v | Return v | Discard v | AugAssign _ _ _ v => noAttr v
  | Bind _ vs _ => noAttrs vs
  | If c t e => noAttr c && all t && all e
  | While c l => noAttr c && all l
  | ForRange _ _ o l => noAttr o && all l
  | ForGen _ _ g l _ => noAttr g && all l
  | ForCount _ a z _ l _ => noAttr a && noAttr z && all l
  | VarDecl _ _ | Break | Continue => true
  end.

Fixpoint plainBlock (l : list Stmt) : bool := match l with [] => true | s :: l => plainStmt s && plainBlock l end.

Lemma plain_walk l :
  (fix all (l : list Stmt) : bool := match l with [] => true | s :: l => plainStmt s && all l end) l = plainBlock l.
Proof. induction l as [|s l IH]; [done|]. simpl. by rewrite IH. Qed.

Section Siteless.
Context (callee : string -> list value -> value + pyexc).
Context (sigs : string -> option (list Repr * Repr)) (h : string) (args : list value) (rt : Repr).
Context `{!Program callee sigs h}.
Local Notation bok := (bok h args).
Local Notation ety := (ety sigs).
Local Notation etys := (etys sigs).
Local Notation sty := (sty sigs h rt).
Local Notation stys := (stys sigs h rt).

Lemma takes_flushed ss b : takes (flushed ss) b false.
Proof. intros a b' [= _ <-]. by rewrite orb_false_r. Qed.

Lemma takes_flush b : takes flush b false.
Proof. intros a b' [= _ <-]. simpl. by rewrite orb_false_r. Qed.

Lemma takes_then {A B} (m : EM A) (k : A -> EM B) b :
  takes m b false -> (forall a b1, m b = inl (a, b1) -> takes (k a) b1 false) -> takes (ebind m k) b false.
Proof. intros H1 H2. by apply (takes_bind m k b false false). Qed.

Lemma takes_expr G e rp b :
  ety G e rp -> noAttr e = true -> exprGuarded e = false -> takes (lowerExpr e) b false.
Proof. intros He Ha Hg. rewrite <- Hg. by eapply (proj1 (takes_all sigs G)). Qed.

Lemma takes_args G es rs b :
  etys G es rs -> noAttrs es = true -> anyGuarded es = false -> takes (lowerArgs es) b false.
Proof. intros He Ha Hg. rewrite <- Hg. by eapply (proj2 (takes_all sigs G)). Qed.

(** The builder a typed expression leaves. *)
Lemma typed_next G e rp b p b' :
  ety G e rp -> bok b -> lowerExpr e b = inl (p, b') -> p.2 = rp /\ bok b'.
Proof.
  intros He Hb E.
  destruct (proj1 (expr_sound_all callee sigs h args G) e rp He b Hb) as (gx & b1 & P & E1 & N & _).
  rewrite E1 in E. simplify_eq. split; [done|]. by eapply bnext_ok.
Qed.

(** The builder a typed statement leaves. *)
Lemma stmt_next k s k' b ss b' :
  sty k s k' -> bok b -> pre b = [] -> lowerStmt s b = inl (ss, b') -> bok b' /\ pre b' = [].
Proof.
  intros Hs Hb Hp E.
  destruct (proj1 (block_sound_all callee sigs h args rt) k s k' Hs b Hb Hp) as (ss1 & b1 & E1 & N & _).
  rewrite E in E1. simplify_eq. split; [by eapply bnext_ok|]. by rewrite (bn_pre _ _ _ N), Hp.
Qed.

Lemma block_next k l k' b ss b' :
  stys k l k' -> bok b -> pre b = [] -> lowerBlock l b = inl (ss, b') -> bok b' /\ pre b' = [].
Proof.
  intros Hs Hb Hp E.
  destruct (proj2 (block_sound_all callee sigs h args rt) k l k' Hs b Hb Hp) as (ss1 & b1 & E1 & N & _).
  rewrite E in E1. simplify_eq. split; [by eapply bnext_ok|]. by rewrite (bn_pre _ _ _ N), Hp.
Qed.

(** A statement, a block, without sites. *)
Definition quietS (s : Stmt) : Prop := forall b sc,
  bok b -> pre b = [] -> plainStmt s = true -> (siteStmt s sc).1 = [] -> takes (lowerStmt s) b false.
Definition quietB (l : list Stmt) : Prop := forall b sc,
  bok b -> pre b = [] -> plainBlock l = true -> siteBlock l sc = [] -> takes (lowerBlock l) b false.

Lemma site_here s sc : (siteStmt s sc).1 = [] -> stmtGuarded s = false.
Proof. destruct s as [| | | |? ? []| | | | | | | | |]; simpl; try case_match; done. Qed.

Lemma site_walk l sc :
  (fix siteBlock (l : list Stmt) (sc : liveScope) : list GuardSite :=
    match l with [] => [] | s :: l => let r := siteStmt s sc in r.1 ++ siteBlock l r.2 end) l sc = siteBlock l sc.
Proof. revert sc. induction l as [|s l IH]; intros sc; [done|]. simpl. by rewrite IH. Qed.

Lemma takes_values G es rs pin b :
  etys G es rs -> noAttrs es = true -> anyGuarded es = false -> bok b -> takes (lowerValues pin es) b false.
Proof.
  intros He Ha Hg Hb xs b' E.
  destruct (proj2 (expr_sound_all callee sigs h args G) es rs He b Hb) as (ys & b1 & P & EA & _ & EV & _).
  rewrite EV in E. simplify_eq. by eapply takes_args.
Qed.

Lemma takes_truthy x r b : takes (truthyExpr x r) b false.
Proof.
  intros a b' E. unfold truthyExpr, eret, efail in E.
  repeat case_match; simplify_eq; by rewrite orb_false_r.
Qed.

(** The condition, then the blocks. *)
Lemma takes_cond {A} G c cr b (k : gexpr -> list gstmt -> EM A) :
  ety G c cr -> noAttr c = true -> exprGuarded c = false -> bok b ->
  (forall t g b1, bok b1 -> pre b1 = [] -> takes (k t g) b1 false) ->
  takes ('(cx, cr) <- lowerExpr c ;; test <- truthyExpr cx cr ;; guards <- flush ;; k test guards) b false.
Proof.
  intros Hc Ha Hg Hb Hk. apply takes_then; [by eapply takes_expr|]. intros [cx cr'] b1 E1.
  destruct (typed_next _ _ _ _ _ _ Hc Hb E1) as [_ Hb1].
  apply takes_then; [apply takes_truthy|]. intros t b2 E2. apply takes_then; [apply takes_flush|].
  intros g b3 [= _ <-]. assert (b2 = b1) as ->.
  { unfold truthyExpr, eret, efail in E2. repeat case_match; by simplify_eq. }
  apply Hk; [|done]. destruct Hb1. by split.
Qed.

Lemma quietS_simple G v r b ss :
  ety G v r -> noAttr v = true -> exprGuarded v = false -> bok b ->
  takes ('(gx, xr) <- lowerExpr v ;; flushed (ss gx xr)) b false.
Proof. intros Hv Ha Hg Hb. apply takes_then; [by eapply takes_expr|]. intros [gx xr] b1 _. apply takes_flushed. Qed.

Lemma ety_bin G op l r res : ety G (Bin op l r) res ->
  exists lr rr, ety G l lr /\ ety G r rr /\ binResult op lr rr = Some res.
Proof. inversion 1; subst; eauto. Qed.

Lemma ety_call G f l r rp : ety G (Call f l r) rp -> exists rs, etys G l rs.
Proof. inversion 1; subst; eauto. Qed.

(** An augmented assignment that is not a site adds no guard to its value's. *)
Lemma aug_unguarded G x op r r' v :
  foldOp op = true -> ety G (Bin op (Var x r) v) r' -> sameRep r' r -> noAttr v = true ->
  stmtGuarded (AugAssign x op r v) = false -> exprGuarded (Bin op (Var x r) v) = false.
Proof.
  intros Hop Hty Hs Ha Hg. simpl in *. apply orb_false_iff in Hg as [Hi Hv]. rewrite Hv. cbn [orb].
  destruct (ety_bin _ _ _ _ _ Hty) as (lr & rr & Hl & Hr & Hres).
  unfold guardedOp. rewrite (binResult_alike op _ lr _ rr).
  - rewrite Hres. destruct Hs as [Hs _]. unfold isScalar in *. rewrite Hs. by rewrite Hi.
  - by apply (proj1 (reprOf_typed sigs G)).
  - by apply (proj1 (reprOf_typed sigs G)).
Qed.

Lemma quietB_cons k1 k2 k3 s l : sty k1 s k2 -> stys k2 l k3 -> quietS s -> quietB l -> quietB (s :: l).
Proof.
  intros Hs Hl H1 H2 b sc Hb Hp Ha He. simpl in Ha, He. apply andb_true_iff in Ha as [Ha1 Ha2].
  apply app_eq_nil in He as [He1 He2]. cbn [lowerBlock]. apply takes_then; [by eapply H1|].
  intros ss b1 E1. destruct (stmt_next _ _ _ _ _ _ Hs Hb Hp E1) as [Hb1 Hp1].
  apply takes_then; [by eapply H2|]. intros rest b2 _. apply takes_ret.
Qed.

Lemma quietS_if G D c cr thn els k1 k2 :
  ety G c cr -> stys (mkCtx G D) thn k1 -> stys (mkCtx G D) els k2 -> quietB thn -> quietB els -> quietS (If c thn els).
Proof.
  intros Hc Ht He Qt Qe b sc Hb Hp Ha Hs. pose proof (site_here _ _ Hs) as Hg.
  cbn [plainStmt siteStmt fst] in *. rewrite !plain_walk in Ha. rewrite !site_walk in Hs.
  apply andb_true_iff in Ha as [[Hac Hat]%andb_true_iff Hae].
  apply app_eq_nil in Hs as [_ [Hst Hse]%app_eq_nil].
  cbn [lowerStmt]. fold lowerBlock. eapply (takes_cond G c cr b); [done..|]. intros t g b1 Hb1 Hp1.
  apply takes_then; [by eapply Qt|]. intros ts b2 E2. destruct (block_next _ _ _ _ _ _ Ht Hb1 Hp1 E2) as [Hb2 Hp2].
  destruct els as [|e els]; [apply takes_ret|]. apply takes_then; [by eapply Qe|]. intros es b3 _. apply takes_ret.
Qed.

Lemma quietS_while G D c cr body k1 :
  ety G c cr -> stys (mkCtx G D) body k1 -> quietB body -> quietS (While c body).
Proof.
  intros Hc Ht Qb b sc Hb Hp Ha Hs. pose proof (site_here _ _ Hs) as Hg.
  cbn [plainStmt siteStmt fst] in *. rewrite !plain_walk in Ha. rewrite !site_walk in Hs.
  apply andb_true_iff in Ha as [Hac Hab]. apply app_eq_nil in Hs as [_ Hsb].
  cbn [lowerStmt]. fold lowerBlock. eapply (takes_cond G c cr b); [done..|]. intros t g b1 Hb1 Hp1.
  apply takes_then; [by eapply Qb|]. intros ts b2 _. apply takes_ret.
Qed.

Lemma quietS_count G x start sr stop down body :
  ety G start sr -> stableBound G x body stop -> quietB body -> quietS (ForCount x start stop down body None).
Proof.
  intros Hc Hst Qb b sc Hb Hp Ha Hs. pose proof (site_here _ _ Hs) as Hg.
  cbn [plainStmt siteStmt fst] in *. rewrite !plain_walk in Ha. rewrite !site_walk in Hs.
  apply andb_true_iff in Ha as [[Hac Haz]%andb_true_iff Hab]. apply app_eq_nil in Hs as [_ Hsb].
  simpl in Hg. apply orb_false_iff in Hg as [Hg _].
  cbn [lowerStmt pushResume popResume]. fold lowerBlock. apply takes_then; [by eapply takes_expr|].
  intros [sx sr'] b1 E1. destruct (typed_next _ _ _ _ _ _ Hc Hb E1) as [_ Hb1].
  destruct (bound_stable callee sigs h G x body stop Hst) as (ex & er & El & _).
  apply takes_then; [intros p b2 E; rewrite El in E; simplify_eq; by rewrite orb_false_r|].
  intros [ex' er'] b2 E. rewrite El in E. simplify_eq. apply takes_then; [apply takes_flush|]. intros g b3 [= _ <-].
  apply takes_then; [apply takes_ret|]. intros [] b4 [= <-].
  apply takes_then; [eapply Qb; [destruct Hb1; by split|done|done|done]|]. intros ts b5 _.
  apply takes_then; [apply takes_ret|]. intros [] b6 _. apply takes_ret.
Qed.

Lemma quiet_all : (forall k s k', sty k s k' -> quietS s) /\ (forall k l k', stys k l k' -> quietB l).
Proof.
  apply sty_stys_ind.
  - intros G D x v r Hv Hx Hd b sc Hb Hp Ha Hs. apply site_here in Hs. by eapply quietS_simple.
  - intros G D x v r r' Hv Hd Hr b sc Hb Hp Ha Hs. apply site_here in Hs.
    by apply (quietS_simple G v r' b (fun gx _ => [setStmt (ident x) gx])).
  - intros. intros b sc Hb Hp Ha Hs. apply takes_flushed.
  - intros G D xs vs rs Hv Hl Hne Hnd Hx b sc Hb Hp Ha Hs. apply site_here in Hs. cbn [lowerStmt].
    destruct (negb _); [apply takes_fail|]. apply takes_then; [by eapply takes_values|]. intros ys b1 _. apply takes_flushed.
  - intros G D xs vs rs rs' Hv Hf Hr Hnd b sc Hb Hp Ha Hs. apply site_here in Hs. cbn [lowerStmt].
    destruct (negb _); [apply takes_fail|]. apply takes_then; [by eapply takes_values|]. intros ys b1 _. apply takes_flushed.
  - intros G D x op r r' v Hop Hg Hd Hv Hr b sc Hb Hp Ha Hs. apply site_here in Hs.
    pose proof (aug_unguarded _ _ _ _ _ _ Hop Hv Hr Ha Hs) as Hu. cbn [lowerStmt].
    destruct (isScalar SFloat r).
    + destruct (ety_bin _ _ _ _ _ Hv) as (lr & rr & Hvl & Hvr & Hres).
      simpl in Hs. apply orb_false_iff in Hs as [_ Hs].
      by apply (quietS_simple G v rr b (fun gx xr => [augAssign x op (if isScalar SFloat xr then gx else toFloat gx xr)])).
    + by apply (quietS_simple G (Bin op (Var x r) v) r' b (fun gx _ => [setStmt (ident x) gx])).
  - intros G D v r Hv b sc Hb Hp Ha Hs. apply site_here in Hs.
    destruct v; try by apply (quietS_simple G _ r b (fun gx _ => [setStmt (ident "_") gx])).
    rename Name into f, Args into l, Ret into rp.
    destruct (ety_call _ _ _ _ _ Hv) as [rs Hl]. simpl in Ha, Hs. rewrite noAttr_walk in Ha.
    rewrite guarded_walk in Hs. cbn [lowerStmt]. apply takes_then; [by eapply takes_args|]. intros xs b1 _.
    apply takes_then; [intros a b' [= _ <-]; simpl; by rewrite orb_false_r|]. intros e b2 _.
    apply takes_then; [intros a b' [= _ <-]; by rewrite orb_false_r|]. intros b3 b4 _. apply takes_flushed.
  - intros G D v r Hv Hr b sc Hb Hp Ha Hs. apply site_here in Hs.
    by apply (quietS_simple G v r b (fun gx _ => [ret [gx; ident "nil"]])).
  - intros. by eapply quietS_while.
  - intros. by eapply quietS_count.
  - intros. intros b sc Hb Hp Ha Hs. apply takes_flushed.
  - intros. intros b sc Hb Hp Ha Hs. apply takes_flushed.
  - intros. by eapply quietS_if.
  - intros k b sc Hb Hp Ha Hs. apply takes_ret.
  - intros. by eapply quietB_cons.
Qed.
End Siteless.

(** ** The whole function *)

Lemma no_sites f : GuardSitesOf f = [] ->
  BindingGuards f = [] /\ exists sc, siteBlock (Body f) sc = [].
Proof.
  unfold GuardSitesOf. intros [H1 H2]%app_eq_nil. split; [by destruct (BindingGuards f)|by eexists].
Qed.

(** Code built with the flag down has no edge. *)
Lemma EmitFunc_edgeless f body b :
  DeoptHandler f <> "" -> lowerBlock (Body f) (newBuilder f) = inl (body, b) -> deoptUsed b = false ->
  edgesFree body = true.
Proof.
  intros Hd E Hu. assert (clean (lowerBlock (Body f)) noEdges) as Hc.
  { apply clean_block, Forall_forall. intros s _. apply clean_stmt. }
  by destruct (Hc _ _ _ E Hd Hu eq_refl).
Qed.

(** C35: the deopt plan is complete: a well-typed function (without attribute reads)
    for which the planner finds no guard site is emitted without an edge to its
    boxed twin, never transfers to it on any arguments, and on arguments of its
    parameters' representations returns or raises what Python does. This is what
    lets the partitioner offer such functions as direct callees. An int operand of a
    true division and of a comparison with a float counts as the double it rounds
    to: Python's exact value for an int within 2^53; beyond that the emitted
    comparison can differ from Python's ([EmitFacts.mixed_compare_rounds]). *)
Theorem siteless_never_deopts callee sigs h args f globals k' :
  Program callee sigs h -> h <> "" -> callable sigs h args f globals ->
  stys sigs h (FRet f) (entryCtx f globals) (Body f) k' -> plainBlock (Body f) = true ->
  GuardSitesOf f = [] ->
  exists gf, EmitFunc f = inl gf /\
    (forall callee n globals args, stays (runFunc callee n globals gf args)) /\
    forall n, follows h args false (runFunc callee n globals gf args)
      (pyExecs callee n (Body f) (pyBind (map pName (Params f)) args ∅)).
Proof.
  intros HP Hh Hc Hty Ha Hs. destruct (no_sites f Hs) as (Hbg & sc & Hsc).
  destruct (emitted callee sigs h args f globals k' Hc Hty) as (gf & E & Hrun). exists gf. split; [done|].
  assert (forall callee n globals args, stays (runFunc callee n globals gf args)) as Hstay.
  { assert (bok h args (newBuilder f)) as Hb.
    { destruct Hc. split; try done. simpl. rewrite length_map. by eapply Forall2_length. }
    pose proof (proj2 (quiet_all callee sigs h args (FRet f)) _ _ _ Hty _ sc Hb eq_refl Ha Hsc) as Hq.
    unfold EmitFunc, ebind in E. destruct (lowerBlock (Body f) (newBuilder f)) as [[body b]|] eqn:Eb; [|done].
    specialize (Hq _ _ Eb). apply orb_false_iff in Hq as [Hq _]. rewrite Hbg in E. simpl in E. rewrite Hq in E. simplify_eq.
    intros callee' n globals' args'. unfold runFunc. apply stays_bind. intros frame. apply stays_block. simpl.
    eapply EmitFunc_edgeless; [|exact Eb|done]. destruct Hc. congruence. }
  split; [done|]. intros n. specialize (Hrun n). rewrite Hbg in Hrun. cbn [versionsOK forallb] in Hrun.
  destruct Hrun as [[_ Ht]|Hrun]; [|by right]. specialize (Hstay callee n globals args). by rewrite Ht in Hstay.
Qed.

(** [def f(x, y): return x / y]: a true division of ints raises or is exact, and
    carries no guard. *)
Definition divides : Func :=
  mkFunc "divides" [mkParam "x" intRepr; mkParam "y" intRepr] floatRepr
    [Return (Bin OpDiv (Var "x" intRepr) (Var "y" intRepr))] "divides_boxed" [].

Lemma siteless_never_deopts_witness :
  GuardSitesOf divides = [] /\ exists gf, EmitFunc divides = inl gf /\
    (forall callee n globals args, stays (runFunc callee n globals gf args)) /\
    forall n, follows "divides_boxed" [VInt 7; VInt 0] false (runFunc noCallee n ∅ gf [VInt 7; VInt 0])
      (pyExecs noCallee n (Body divides) (pyBind ["x"; "y"] [VInt 7; VInt 0] ∅)).
Proof.
  split; [reflexivity|].
  eapply (siteless_never_deopts noCallee noSigs "divides_boxed" [VInt 7; VInt 0] divides ∅).
  - split; [done|]. by split_and!.
  - done.
  - split; simpl; try done.
    + intros x [v Hx]. by rewrite lookup_empty in Hx.
    + apply (bool_decide_unpack _); vm_compute; done.
    + repeat constructor; try done.
    + by repeat constructor.
  - eapply SCons; [|apply SNil]. eapply SReturn; [by eapply TBin; [by constructor|by constructor|..]|by split_and!].
  - reflexivity.
  - reflexivity.
Defined.
