(* ===== verification/Decide.v ===== *)
(** * Decide: the tier verdict

    Model of src/pkg/partition/decision.go and partition.go: the phases of
    the verdict for one unit, the partitioner that decides every known unit,
    and the aggregates over its decisions.  [None] is the panic of an
    unregistered rule id at a fire site.  The static percentage is the pair
    of its two counts, and SHA-256 is a parameter of the decision hash. *)

From stdpp Require Import sorting.
From S2P Require Import Prelude Int64 Evidence Rules Census Guards Deopt.
Local Open Scope Z_scope.

Record Reason := mkReason { rsRule : string; rsSpan : Span; rsScope : Scope; rsProse : string }.

Record Decision := mkDecision {
  dUnit : Unit_; dState : State; dReasons : list Reason; dScore : Score;
  dExcursions : Z; dProofs : Z; dGuards : list Guard; dDeopts : list DeoptSite }.

Inductive Mode := ModeAuto | ModeForceStatic | ModeForceBoxed.

#[export] Instance Mode_eq_dec : EqDecision Mode.
Proof. solve_decision. Defined.

(** [Mode.String] and [ParseMode]. *)
Definition ModeString (m : Mode) : string :=
  match m with ModeForceStatic => "static" | ModeForceBoxed => "boxed" | ModeAuto => "auto" end.

Definition ParseMode (s : string) : Mode * bool :=
  if String.eqb s "" || String.eqb s "auto" then (ModeAuto, true)
  else if String.eqb s "static" then (ModeForceStatic, true)
  else if String.eqb s "boxed" then (ModeForceBoxed, true)
  else (ModeAuto, false).

Record Input := mkInput {
  inUnit : Unit_; inProfile : Profile; inProofs : Z; inWeights : Weights;
  inGuards : list Guard; inDeopts : list DeoptSite; inMode : Mode }.

Definition weights (i : Input) : Weights :=
  if wVersion (inWeights i) =? 0 then DefaultWeights else inWeights i.

(** The hard unit- and program-scoped facts, as reasons. *)
Fixpoint censusReasons (fs : list Fact) : option (list Reason) :=
  match fs with
  | [] => Some []
  | f :: fs =>
    match MustRule (fRule f) with
    | None => None
    | Some r =>
      match censusReasons fs with
      | None => None
      | Some rs =>
        if rHard r && (bool_decide (rScope r = ScopeUnit) || bool_decide (rScope r = ScopeProgram))
        then Some (mkReason (rID r) (fSpan f) (rScope r) (rProse r) :: rs)
        else Some rs
      end
    end
  end.

(** The profile the scores are computed from. *)
Definition plannedProfile (i : Input) (plan : list Guard) : Profile :=
  let p := inProfile i in
  match inGuards i with
  | [] => p
  | _ => mkProfile (pfUnboxedOps p) (pfExcursionOps p) (pfThunkCross p)
           (EntryCount plan) (LoopCount plan) (pfExcursions p)
  end.

Definition staticState (i : Input) : State :=
  if pfExcursions (inProfile i) >? 0 then StaticWithExcursions else StaticProven.

(** A boxed verdict with the single soft rule that fired. *)
Definition boxedBy (d : State -> list Reason -> list DeoptSite -> Decision) (i : Input) (id : string) :
    option Decision :=
  match MustRule id with
  | None => None
  | Some r => Some (d BoxedByCost [mkReason (rID r) (uSpan (inUnit i)) (rScope r) (rProse r)] [])
  end.

Definition Decide (c : Census) (i : Input) : option Decision :=
  let w := weights i in
  let plan := PlanGuards (inGuards i) in
  let prof := plannedProfile i plan in
  let sc := scoreOf w prof in
  let d st rs ds := mkDecision (inUnit i) st rs sc (pfExcursions (inProfile i)) (inProofs i) plan ds in
  match censusReasons (Facts c (inUnit i)) with
  | None => None
  | Some (r :: rs) => Some (d BoxedByCensus (r :: rs) [])
  | Some [] =>
    if bool_decide (inMode i = ModeForceStatic) then Some (d (staticState i) [] (inDeopts i))
    else if negb (ExcursionBudgetOK (inProfile i)) then boxedBy d i RuleExcursionBudget
    else if negb (EmitStatic sc) then boxedBy d i RuleCostModel
    else
      let guardScore := wrap64 (pfEntryGuards prof * wGuardEntry w + pfLoopGuards prof * wGuardLoop w) in
      if negb (guardBudgetOK guardScore (wrap64 (sStatic sc - guardScore))) then boxedBy d i RuleGuardBudget
      else if bool_decide (inMode i = ModeForceBoxed) then boxedBy d i RuleTierForcedBoxed
      else Some (d (staticState i) [] (inDeopts i))
  end.

(** ** partition.go *)

Record Partitioner := mkPartitioner { pCensus : Census; pInputs : gmap string Input }.

Definition New : Partitioner := mkPartitioner NewCensus ∅.

Definition addUnit (c : Census) (u : Unit_) : Census :=
  mkCensus (facts c) (<[Key u := u]> (units c)) (opened c) (poison c) (rebind c) (walkers c).

Definition Add (p : Partitioner) (i : Input) : Partitioner :=
  mkPartitioner (addUnit (pCensus p) (inUnit i)) (<[Key (inUnit i) := i]> (pInputs p)).

(** The IR pass recording a fact through [Partitioner.Census]. *)
Definition pRecord (p : Partitioner) (u : Unit_) (f : Fact) : option Partitioner :=
  (fun c => mkPartitioner c (pInputs p)) <$> RecordFact (pCensus p) u f.

Definition zeroWeights : Weights := mkWeights 0 0 0 0 0 0.
Definition emptyInput (u : Unit_) : Input :=
  mkInput u (mkProfile 0 0 0 0 0 0) 0 zeroWeights [] [] ModeAuto.

Definition inputFor (p : Partitioner) (u : Unit_) : Input := default (emptyInput u) (pInputs p !! Key u).

Fixpoint decideAll (p : Partitioner) (us : list Unit_) : option (list Decision) :=
  match us with
  | [] => Some []
  | u :: us =>
    match Decide (pCensus p) (inputFor p u) with
    | None => None
    | Some d => (fun ds => d :: ds) <$> decideAll p us
    end
  end.

(** [Partitioner.Decide], over an iteration order of the units map. *)
Definition DecideUnits (order : list Unit_) (p : Partitioner) : option (list Decision) :=
  decideAll p (Units order).

(** [StaticPercent] as its two counts; an empty program is 0 of 0. *)
Definition StaticPercent (ds : list Decision) : Z * Z :=
  (Z.of_nat (length (List.filter (fun d => IsStatic (dState d)) ds)), Z.of_nat (length ds)).

Definition ByReason (ds : list Decision) : gmap string Z :=
  fold_left (fun m d => fold_left (fun m r => <[rsRule r := default 0 (m !! rsRule r) + 1]> m) (dReasons d) m)
    ds ∅.

Definition StateString (s : State) : string :=
  match s with
  | StaticProven => "StaticProven" | StaticWithExcursions => "StaticWithExcursions"
  | BoxedByCensus => "BoxedByCensus" | BoxedByCost => "BoxedByCost"
  end.

Definition GuardKindString (k : GuardKind) : string :=
  match k with
  | GuardEntryKind => "entry" | GuardBinding => "binding" | GuardClassVersion => "class-version"
  | GuardOverflow => "overflow" | GuardRepresentation => "representation"
  end.

Definition FailureEdgeString (e : FailureEdge) : string :=
  match e with EdgeRouteBoxed => "route-boxed" | EdgeDeopt => "deopt" end.

(** One line of the hashed text. *)
Definition decisionLine (d : Decision) : string :=
  Key (dUnit d) +:+ "|" +:+ StateString (dState d) +:+ "|" +:+ itoa (sStatic (dScore d)) +:+ "," +:+
  itoa (sBoxed (dScore d)) +:+ "|" +:+
  String.concat "" (map (fun r => rsRule r +:+ "@" +:+ SpanString (rsSpan r) +:+ ";") (dReasons d)) +:+ "|" +:+
  String.concat "" (map (fun g => GuardKindString (gKind g) +:+ "@" +:+ SpanString (gSite g) +:+ ">" +:+
    FailureEdgeString (gEdge g) +:+ ";") (dGuards d)) +:+ "|" +:+
  String.concat "" (map (fun s => "r" +:+ itoa (rpID (dsResume s)) +:+ "@" +:+
    SpanString (rpSite (dsResume s)) +:+ "#" +:+ itoa (LiveCount s) +:+ ";") (dDeopts d)) +:+
  String "010" "".

Definition decisionLe (a b : Decision) : Prop := String.le (Key (dUnit a)) (Key (dUnit b)).
#[export] Instance decisionLe_dec : RelDecision decisionLe.
Proof. intros a b. unfold decisionLe. apply _. Defined.

(** [DecisionHash]; [sum] is the hex of SHA-256. *)
Definition DecisionHash (sum : string -> string) (ds : list Decision) : string :=
  sum (String.concat "" (map decisionLine (merge_sort decisionLe ds))).

(** ** The verdict, phase by phase *)

(** A fact that demotes its own unit. *)
Definition hardFact (f : Fact) : bool :=
  match MustRule (fRule f) with
  | Some r => rHard r && (bool_decide (rScope r = ScopeUnit) || bool_decide (rScope r = ScopeProgram))
  | None => false
  end.

Definition registered (fs : list Fact) : Prop := Forall (fun f => is_Some (MustRule (fRule f))) fs.

Lemma MustRule_id id r : MustRule id = Some r -> rID r = id.
Proof.
  intros H. destruct (build_step rules ∅ catalog catalog_builds) as (_ & _ & Hm).
  apply Hm in H as [H|[_ H]]; [by rewrite lookup_empty in H|done].
Qed.

Lemma censusReasons_spec fs : registered fs ->
  exists rs, censusReasons fs = Some rs /\
    map (fun r => (rsRule r, rsSpan r)) rs = map (fun f => (fRule f, fSpan f)) (List.filter hardFact fs).
Proof.
  induction 1 as [|f fs [r Hr] Hfs IH]; simpl; [by exists []|].
  destruct IH as (rs & E & Hm). unfold hardFact at 1. rewrite E, Hr.
  pose proof (MustRule_id _ _ Hr) as Hid. clear Hr Hfs.
  destruct (rHard r && _); eexists; (split; [reflexivity|]); simpl; rewrite Hm, ?Hid; reflexivity.
Qed.

(** The soft phases: excursions, cost and guards all within budget. *)
Definition worthStatic (i : Input) : bool :=
  let w := weights i in
  let prof := plannedProfile i (PlanGuards (inGuards i)) in
  let sc := scoreOf w prof in
  let gs := wrap64 (pfEntryGuards prof * wGuardEntry w + pfLoopGuards prof * wGuardLoop w) in
  ExcursionBudgetOK (inProfile i) && EmitStatic sc && guardBudgetOK gs (wrap64 (sStatic sc - gs)).

(** The verdict as one table. *)
Definition verdict (hard : bool) (i : Input) : State :=
  if hard then BoxedByCensus
  else match inMode i with
  | ModeForceStatic => staticState i
  | ModeForceBoxed => BoxedByCost
  | ModeAuto => if worthStatic i then staticState i else BoxedByCost
  end.

(** Which fields a state comes with. *)
Definition reasons_fit (c : Census) (i : Input) (d : Decision) : Prop :=
  match dState d with
  | BoxedByCensus =>
      map (fun r => (rsRule r, rsSpan r)) (dReasons d) =
        map (fun f => (fRule f, fSpan f)) (List.filter hardFact (Facts c (inUnit i))) /\
      dReasons d <> [] /\ dDeopts d = []
  | BoxedByCost =>
      (exists r, dReasons d = [r] /\
        rsRule r ∈ [RuleExcursionBudget; RuleCostModel; RuleGuardBudget; RuleTierForcedBoxed]) /\
      dDeopts d = []
  | _ => dReasons d = [] /\ dDeopts d = inDeopts i
  end.

Lemma staticState_fit c i d : dState d = staticState i -> dReasons d = [] -> dDeopts d = inDeopts i ->
  reasons_fit c i d.
Proof. unfold reasons_fit, staticState. intros -> -> ->. by destruct (_ >? _). Qed.

Lemma boxedBy_spec c d i id :
  is_Some (MustRule id) ->
  id ∈ [RuleExcursionBudget; RuleCostModel; RuleGuardBudget; RuleTierForcedBoxed] ->
  (forall st rs ds, dState (d st rs ds) = st /\ dReasons (d st rs ds) = rs /\ dDeopts (d st rs ds) = ds) ->
  exists x, boxedBy d i id = Some x /\ dState x = BoxedByCost /\ reasons_fit c i x.
Proof.
  intros [r Hr] Hin Hd. unfold boxedBy. rewrite Hr. eexists. split; [done|].
  destruct (Hd BoxedByCost [mkReason (rID r) (uSpan (inUnit i)) (rScope r) (rProse r)] []) as (H1 & H2 & H3).
  split; [done|]. unfold reasons_fit. rewrite H1, H2, H3. split; [|done].
  eexists. split; [done|]. simpl. by rewrite (MustRule_id _ _ Hr).
Qed.

Lemma Decide_spec c i : registered (Facts c (inUnit i)) ->
  exists d, Decide c i = Some d /\ dUnit d = inUnit i /\
    dState d = verdict (existsb hardFact (Facts c (inUnit i))) i /\ reasons_fit c i d.
Proof.
  intros Hreg. destruct (censusReasons_spec _ Hreg) as (rs & E & Hm). unfold Decide. rewrite E.
  assert (forall id, id ∈ [RuleExcursionBudget; RuleCostModel; RuleGuardBudget; RuleTierForcedBoxed] ->
    is_Some (MustRule id)) as Hrules.
  { destruct MustRule_cost_rules as (? & ? & ? & ?). intros id Hid.
    repeat apply elem_of_cons in Hid as [->|Hid]; try done. by apply not_elem_of_nil in Hid. }
  destruct rs as [|r rs].
  - assert (existsb hardFact (Facts c (inUnit i)) = false) as ->.
    { apply not_true_iff_false. intros (f & Hf & Hh)%existsb_exists.
      assert (In f (List.filter hardFact (Facts c (inUnit i)))) as Hin
        by (apply filter_In; split; assumption).
      clear Hrules Hreg Hh. destruct (List.filter hardFact (Facts c (inUnit i))); [exact Hin|discriminate Hm]. }
    unfold verdict.
    assert (forall id, id ∈ [RuleExcursionBudget; RuleCostModel; RuleGuardBudget; RuleTierForcedBoxed] ->
      forall st, st = BoxedByCost ->
      exists d, boxedBy (fun st rs ds => mkDecision (inUnit i) st rs
          (scoreOf (weights i) (plannedProfile i (PlanGuards (inGuards i))))
          (pfExcursions (inProfile i)) (inProofs i) (PlanGuards (inGuards i)) ds) i id = Some d /\
        dUnit d = inUnit i /\ dState d = st /\ reasons_fit c i d) as Hbox.
    { intros id Hid st ->. destruct (boxedBy_spec c (fun st rs ds => mkDecision (inUnit i) st rs
          (scoreOf (weights i) (plannedProfile i (PlanGuards (inGuards i))))
          (pfExcursions (inProfile i)) (inProofs i) (PlanGuards (inGuards i)) ds) i id)
        as (x & Ex & ? & ?); [by apply Hrules|done|done|].
      exists x. split_and!; [assumption| |assumption|assumption].
      unfold boxedBy in Ex. destruct (MustRule id); [injection Ex as <-; reflexivity|discriminate Ex]. }
    clear Hrules Hreg. assert (forall st, st = staticState i -> exists d,
        Some (mkDecision (inUnit i) (staticState i) []
          (scoreOf (weights i) (plannedProfile i (PlanGuards (inGuards i))))
          (pfExcursions (inProfile i)) (inProofs i) (PlanGuards (inGuards i)) (inDeopts i)) = Some d /\
        dUnit d = inUnit i /\ dState d = st /\ reasons_fit c i d) as Hstat.
    { intros st ->. eexists. split_and!; [done|done|done|]. by apply staticState_fit. }
    unfold worthStatic.
    destruct (inMode i).
    + destruct (ExcursionBudgetOK (inProfile i)); simpl; [|apply Hbox; [set_solver|done]].
      destruct (EmitStatic _); simpl; [|apply Hbox; [set_solver|done]].
      destruct (guardBudgetOK _ _); simpl; [|apply Hbox; [set_solver|done]].
      apply Hstat. reflexivity.
    + rewrite bool_decide_true by reflexivity. apply Hstat. reflexivity.
    + destruct (ExcursionBudgetOK (inProfile i)); simpl; [|apply Hbox; [set_solver|done]].
      destruct (EmitStatic _); simpl; [|apply Hbox; [set_solver|done]].
      destruct (guardBudgetOK _ _); simpl; [|apply Hbox; [set_solver|done]].
      apply Hbox; [set_solver|done].
  - assert (existsb hardFact (Facts c (inUnit i)) = true) as ->.
    { apply existsb_exists. destruct (List.filter hardFact (Facts c (inUnit i))) as [|f l] eqn:El; [discriminate Hm|].
      exists f. apply filter_In. rewrite El. left. reflexivity. }
    clear Hrules Hreg. eexists. split_and!; [reflexivity|reflexivity|reflexivity|].
    unfold reasons_fit. simpl. split_and!; [exact Hm|discriminate|reflexivity].
Qed.

(** ** Theorems *)

(** C17: the tier verdict, over every census whose facts are registered.
    [Decide] returns; a hard unit- or program-scoped fact boxes the unit in
    every mode, with exactly those facts as the reason chain in record order;
    otherwise forced-static is static, forced-boxed is boxed, and the normal
    build is static exactly when the excursion, cost and guard budgets all
    hold.  A static verdict has no reasons and keeps its deopt sites; a boxed
    one has reasons and none. *)
Theorem Decide_verdict c i : registered (Facts c (inUnit i)) ->
  exists d, Decide c i = Some d /\ dUnit d = inUnit i /\
    dState d = verdict (existsb hardFact (Facts c (inUnit i))) i /\
    reasons_fit c i d /\
    (IsStatic (dState d) = true <->
       existsb hardFact (Facts c (inUnit i)) = false /\
       (inMode i = ModeForceStatic \/ (inMode i = ModeAuto /\ worthStatic i = true))).
Proof.
  intros Hreg. destruct (Decide_spec c i Hreg) as (d & E & Hu & Hs & Hf).
  exists d. split_and!; [exact E|exact Hu|exact Hs|exact Hf|]. rewrite Hs. unfold verdict, staticState.
  clear. destruct (existsb hardFact (Facts c (inUnit i))); [split; [done|by intros []]|].
  destruct (inMode i), (worthStatic i), (pfExcursions (inProfile i) >? 0); simpl; naive_solver.
Qed.

Definition walkerCensus : option Census :=
  RecordFact NewCensus (demoUnit "f" 0) (mkFact RuleLocalsCall sp0 "").

Definition demoInput (m : Mode) : Input :=
  mkInput (demoUnit "f" 0) demoProfile 2 zeroWeights [] [] m.

Lemma Decide_verdict_witness :
  exists d, Decide NewCensus (demoInput ModeAuto) = Some d /\ IsStatic (dState d) = true.
Proof.
  destruct (Decide_verdict NewCensus (demoInput ModeAuto)) as (d & E & _ & _ & _ & Hs).
  - apply Forall_nil_2.
  - exists d. split; [exact E|]. apply Hs. split; [reflexivity|]. right. split; reflexivity.
Defined.

(** Every fact the census holds is of a registered rule, and the units map is
    keyed by key. *)
Record census_ok (c : Census) : Prop := {
  co_rules : map_Forall (fun _ fs => registered fs) (facts c);
  co_keys : units_keyed c }.

(** A partitioner the passes ahead of it can have filled. *)
Inductive filled : Partitioner -> Prop :=
  | filled_new : filled New
  | filled_add p i : filled p -> filled (Add p i)
  | filled_record p u f p' : filled p -> pRecord p u f = Some p' -> filled p'.

Lemma RecordFact_ok c u f c' : census_ok c -> RecordFact c u f = Some c' -> census_ok c'.
Proof.
  intros [Hr Hk] E. constructor; [|by eapply RecordFact_keyed].
  unfold RecordFact in E. destruct (MustRule (fRule f)) as [rule|] eqn:Em; [|discriminate E].
  assert (is_Some (MustRule (fRule f))) as Hs by (eexists; exact Em). clear Em.
  injection E as <-. simpl. apply map_Forall_insert_2; [|exact Hr].
  apply Forall_app_2; [|apply Forall_cons_2; [exact Hs|apply Forall_nil_2]].
  destruct (facts c !! Key u) as [fs|] eqn:Ef; simpl; [exact (Hr _ _ Ef)|apply Forall_nil_2].
Qed.

Definition inputs_keyed (p : Partitioner) : Prop :=
  map_Forall (fun k i => k = Key (inUnit i)) (pInputs p).

Lemma filled_ok p : filled p -> census_ok (pCensus p) /\ inputs_keyed p.
Proof.
  induction 1 as [|p i _ [[Hr Hk] IHi]|p u f p' _ [IHc IHi] E].
  - split; [split|]; apply map_Forall_empty.
  - split; [split|]; simpl; [exact Hr|by apply map_Forall_insert_2|by apply map_Forall_insert_2].
  - unfold pRecord in E. destruct (RecordFact (pCensus p) u f) as [c|] eqn:Ec; [|discriminate E].
    injection E as <-. split; [|exact IHi]. by eapply RecordFact_ok.
Qed.

Lemma Facts_registered c u : census_ok c -> registered (Facts c u).
Proof.
  intros [Hr _]. unfold Facts. destruct (facts c !! Key u) as [fs|] eqn:E; simpl; [|constructor].
  exact (Hr _ _ E).
Qed.

Lemma Facts_key c u v : Key u = Key v -> Facts c u = Facts c v.
Proof. unfold Facts. by intros ->. Qed.

Lemma decideAll_spec p us : census_ok (pCensus p) -> inputs_keyed p ->
  exists ds, decideAll p us = Some ds /\
    Forall2 (fun u d => Key (dUnit d) = Key u /\
      dState d = verdict (existsb hardFact (Facts (pCensus p) u)) (inputFor p u)) us ds.
Proof.
  intros Hc Hi. induction us as [|u us IH]; simpl; [by exists []|].
  destruct IH as (ds & E & HF).
  assert (Key (inUnit (inputFor p u)) = Key u) as Hu.
  { unfold inputFor. destruct (pInputs p !! Key u) as [i|] eqn:Ei; simpl; [|done].
    by rewrite (Hi _ _ Ei). }
  destruct (Decide_spec (pCensus p) (inputFor p u)) as (d & Ed & Hd & Hs & _);
    [by apply Facts_registered|].
  rewrite Ed, E. exists (d :: ds). split; [done|]. constructor; [|done].
  rewrite Hd, Hs, Hu. split; [done|]. by rewrite (Facts_key _ _ _ Hu).
Qed.

(** C38: however the passes filled it, the partitioner decides every known
    unit exactly once, in the same order whatever the map's iteration order:
    no census fact makes it panic, no unit is dropped, and each state is the
    verdict of that unit's own facts and input. *)
Theorem DecideUnits_complete p o1 o2 :
  filled p -> valuesOf o1 (units (pCensus p)) -> valuesOf o2 (units (pCensus p)) ->
  exists ds, DecideUnits o1 p = Some ds /\ DecideUnits o2 p = Some ds /\
    Forall2 (fun u d => Key (dUnit d) = Key u /\
      dState d = verdict (existsb hardFact (Facts (pCensus p) u)) (inputFor p u)) (Units o1) ds /\
    map (fun d => Key (dUnit d)) ds ≡ₚ (map_to_list (units (pCensus p))).*1.
Proof.
  intros Hf H1 H2. destruct (filled_ok p Hf) as [Hc Hi].
  destruct (Units_order _ o1 o2 (co_keys _ Hc) H1 H2) as (HU & HP & _).
  destruct (decideAll_spec p (Units o1) Hc Hi) as (ds & E & HF).
  exists ds. unfold DecideUnits. rewrite <- HU. split_and!; [done|done|done|].
  assert (map (fun d => Key (dUnit d)) ds = map Key (Units o1)) as ->.
  { clear -HF. induction HF as [|u d us ds [Hk _] _ IH]; simpl; congruence. }
  rewrite HP. pose proof (co_keys _ Hc) as Hk. clear -Hk. unfold units_keyed in Hk.
  apply map_Forall_to_list in Hk. induction Hk as [|[k u] l Hu _ IH]; simpl in *; [done|].
  by rewrite IH, Hu.
Qed.

Lemma DecideUnits_complete_witness :
  let p := Add (Add New (demoInput ModeAuto)) (emptyInput (demoUnit "g" 9)) in
  exists ds, DecideUnits [demoUnit "f" 0; demoUnit "g" 9] p = Some ds /\
    DecideUnits [demoUnit "g" 9; demoUnit "f" 0] p = Some ds.
Proof.
  destruct (DecideUnits_complete (Add (Add New (demoInput ModeAuto)) (emptyInput (demoUnit "g" 9)))
    [demoUnit "f" 0; demoUnit "g" 9] [demoUnit "g" 9; demoUnit "f" 0]) as (ds & E1 & E2 & _).
  - apply filled_add, filled_add, filled_new.
  - vm_compute. repeat constructor.
  - vm_compute. repeat constructor.
  - exists ds. split; [exact E1|exact E2].
Defined.

(** The decision hash does not depend on the order the decisions were
    produced in, whatever the hash function, as long as the units' keys are
    distinct. *)
Theorem DecisionHash_order sum ds1 ds2 :
  NoDup (map (fun d => Key (dUnit d)) ds1) -> ds1 ≡ₚ ds2 ->
  DecisionHash sum ds1 = DecisionHash sum ds2.
Proof.
  intros Hd Hp. unfold DecisionHash. do 3 f_equal.
  assert (forall l, merge_sort decisionLe l ≡ₚ l) as HP by (intros; apply merge_sort_Permutation).
  assert (forall l, StronglySorted decisionLe (merge_sort decisionLe l)) as HS.
  { intros l. apply Sorted_StronglySorted; [intros a b c; unfold decisionLe; by etrans|].
    assert (Total decisionLe) by (intros a b; unfold decisionLe; apply (total String.le)).
    apply (Sorted_merge_sort decisionLe). }
  apply (StronglySorted_unique_strong decisionLe); [|apply HS|apply HS|by rewrite !HP].
  intros x y Hx Hy Hxy Hyx. rewrite HP in Hx. rewrite HP, <- Hp in Hy.
  assert (Key (dUnit x) = Key (dUnit y)) as E by by apply (anti_symm String.le).
  clear -Hd Hx Hy E. induction ds1 as [|d l IH]; [by apply not_elem_of_nil in Hx|].
  simpl in Hd. apply NoDup_cons in Hd as [Hn Hd].
  apply elem_of_cons in Hx as [->|Hx], Hy as [->|Hy]; [done| | |auto].
  - exfalso. apply Hn, list_elem_of_fmap. eauto.
  - exfalso. apply Hn, list_elem_of_fmap. eauto.
Qed.

Definition demoDecision (n : string) : Decision :=
  mkDecision (demoUnit n 0) StaticProven [] (mkScore 1 8) 0 0 [] [].

Lemma DecisionHash_order_witness :
  DecisionHash (fun s => s) [demoDecision "f"; demoDecision "g"] =
  DecisionHash (fun s => s) [demoDecision "g"; demoDecision "f"].
Proof.
  apply DecisionHash_order.
  - apply (bool_decide_unpack _). vm_compute. exact I.
  - apply (Permutation_app_comm [demoDecision "f"] [demoDecision "g"]).
Defined.
