(* ===== verification/Heapq.v ===== *)
(** * Heapq: the heap primitives of the runtime

    Model of src/pkg/runtime/heapqmod.go.  The heap is a Python list edited in
    place, so an operation is a state transformer on the list that may end in
    an exception, the list keeping whatever was written before it.  [lessThan]
    is the rich comparison of the elements, user code that may raise.  The
    loops run on fuel bounded by the list's length. *)

From S2P Require Import Prelude.

Inductive res (A : Type) := Ok (a : A) | Err (exc msg : string).
Arguments Ok {A}. Arguments Err {A}.

Section Heap.
Context {A : Type}.
(** [objects.Compare] with [OpLt], then its truth. *)
Context (lessThan : A -> A -> res bool).

Definition HM (B : Type) : Type := list A -> res B * list A.
Definition hret {B} (b : B) : HM B := fun h => (Ok b, h).
Definition hraise {B} (exc msg : string) : HM B := fun h => (Err exc msg, h).
Definition hbind {B C} (m : HM B) (k : B -> HM C) : HM C := fun h =>
  match m h with
  | (Ok b, h') => k b h'
  | (Err e s, h') => (Err e s, h')
  end.
Local Notation "x <- m ;; k" := (hbind m (fun x => k))
  (at level 100, m at next level, right associativity).

Definition hlen : HM nat := fun h => (Ok (length h), h).
Definition hget (i : nat) : HM A := fun h =>
  match h !! i with
  | Some x => (Ok x, h)
  | None => (Err "IndexError" "list index out of range", h)
  end.
Definition hset (i : nat) (v : A) : HM unit := fun h =>
  match h !! i with
  | Some _ => (Ok tt, <[i := v]> h)
  | None => (Err "IndexError" "list assignment index out of range", h)
  end.
Definition hpush (v : A) : HM unit := fun h => (Ok tt, h ++ [v]).
Definition hpopLast : HM A := fun h =>
  match last h with
  | Some x => (Ok x, removelast h)
  | None => (Err "IndexError" "pop from empty list", h)
  end.
Definition less (a b : A) : HM bool := fun h =>
  match lessThan a b with Ok r => (Ok r, h) | Err e s => (Err e s, h) end.

(** The walk toward [startpos]; [newitem] is held out of the list. *)
Fixpoint siftdownLoop (fuel : nat) (startpos pos : nat) (newitem : A) (maxHeap : bool) : HM unit :=
  if startpos <? pos then
    match fuel with
    | O => hset pos newitem
    | S fuel =>
      let parentpos := Nat.div2 (pos - 1) in
      parent <- hget parentpos ;;
      lt <- (if maxHeap then less parent newitem else less newitem parent) ;;
      if negb lt then hset pos newitem
      else _ <- hset pos parent ;; siftdownLoop fuel startpos parentpos newitem maxHeap
    end
  else hset pos newitem.

Definition siftdown (startpos pos : nat) (maxHeap : bool) : HM unit :=
  newitem <- hget pos ;; siftdownLoop pos startpos pos newitem maxHeap.

(** The walk to a leaf; the answer is the leaf's position. *)
Fixpoint siftupLoop (fuel : nat) (endpos pos : nat) (maxHeap : bool) : HM nat :=
  let childpos := 2 * pos + 1 in
  if childpos <? endpos then
    match fuel with
    | O => hret pos
    | S fuel =>
      let rightpos := childpos + 1 in
      takeRight <-
        (if rightpos <? endpos then
           left <- hget childpos ;; right <- hget rightpos ;;
           lt <- (if maxHeap then less right left else less left right) ;; hret (negb lt)
         else hret false) ;;
      let childpos := if takeRight : bool then rightpos else childpos in
      child <- hget childpos ;;
      _ <- hset pos child ;; siftupLoop fuel endpos childpos maxHeap
    end
  else hret pos.

Definition siftup (pos : nat) (maxHeap : bool) : HM unit :=
  endpos <- hlen ;;
  newitem <- hget pos ;;
  leaf <- siftupLoop endpos endpos pos maxHeap ;;
  _ <- hset leaf newitem ;; siftdown pos leaf maxHeap.

Definition pushImpl (item : A) (maxHeap : bool) : HM unit :=
  n <- hlen ;; _ <- hpush item ;; siftdown 0 n maxHeap.

Definition popImpl (maxHeap : bool) : HM A :=
  last <- hpopLast ;;
  n <- hlen ;;
  if Nat.eqb n 0 then hret last
  else
    returnitem <- hget 0 ;;
    _ <- hset 0 last ;; _ <- siftup 0 maxHeap ;; hret returnitem.

Definition replaceImpl (item : A) (maxHeap : bool) : HM A :=
  n <- hlen ;;
  if Nat.eqb n 0 then hraise "IndexError" "index out of range"
  else
    returnitem <- hget 0 ;;
    _ <- hset 0 item ;; _ <- siftup 0 maxHeap ;; hret returnitem.

Definition pushpopImpl (item : A) (maxHeap : bool) : HM A :=
  n <- hlen ;;
  if Nat.eqb n 0 then hret item
  else
    root <- hget 0 ;;
    swap <- (if maxHeap then less item root else less root item) ;;
    if negb swap then hret item
    else _ <- hset 0 item ;; _ <- siftup 0 maxHeap ;; hret root.

Fixpoint heapifyLoop (k : nat) (maxHeap : bool) : HM unit :=
  match k with
  | O => hret tt
  | S i => _ <- siftup i maxHeap ;; heapifyLoop i maxHeap
  end.

(** [i] from [n/2 - 1] down to 0. *)
Definition heapifyImpl (maxHeap : bool) : HM unit :=
  n <- hlen ;; heapifyLoop (Nat.div2 n) maxHeap.

Definition heappush (item : A) := pushImpl item false.
Definition heappop := popImpl false.
Definition heapreplace (item : A) := replaceImpl item false.
Definition heappushpop (item : A) := pushpopImpl item false.
Definition heapify := heapifyImpl false.
Definition heappushMax (item : A) := pushImpl item true.
Definition heappopMax := popImpl true.
Definition heapreplaceMax (item : A) := replaceImpl item true.
Definition heappushpopMax (item : A) := pushpopImpl item true.
Definition heapifyMax := heapifyImpl true.
End Heap.

(** ** List facts *)

Lemma insert_perm {A} (l : list A) j x y : l !! j = Some y -> y :: <[j := x]> l ≡ₚ x :: l.
Proof.
  revert j. induction l as [|a l IH]; intros [|j] Hj; simpl in *; try done.
  - injection Hj as ->. constructor.
  - transitivity (a :: y :: <[j := x]> l); [constructor|]. rewrite (IH j Hj). constructor.
Qed.

(** Moving an element into a hole and the hole to where it was. *)
Lemma hole_perm {A} (l : list A) i j x y :
  i <> j -> l !! j = Some y -> i < length l -> <[j := x]> (<[i := y]> l) ≡ₚ <[i := x]> l.
Proof.
  intros Hne Hj Hi. apply (Permutation_cons_inv (a := y)).
  rewrite (insert_perm (<[i := y]> l) j x y); [|by rewrite list_lookup_insert_ne].
  assert (<[i := x]> l !! i = Some x) as Hx by by apply list_lookup_insert_eq.
  assert (<[i := y]> (<[i := x]> l) = <[i := y]> l) as E by apply list_insert_insert_eq.
  rewrite <- E. apply (insert_perm (<[i := x]> l) i y x Hx).
Qed.

Definition par (i : nat) : nat := Nat.div2 (i - 1).

Lemma par_child c p : 0 < c -> par c = p <-> c = 2 * p + 1 \/ c = 2 * p + 2.
Proof.
  intros Hc. unfold par. rewrite Nat.div2_div.
  pose proof (Nat.div_mod_eq (c - 1) 2). pose proof (Nat.mod_upper_bound (c - 1) 2). lia.
Qed.

Lemma par_lt c : 0 < c -> par c < c.
Proof. intros Hc. destruct (proj1 (par_child c (par c) Hc) eq_refl); lia. Qed.

(** [p] lies in the subtree rooted at [s]. *)
Inductive desc (s : nat) : nat -> Prop :=
  | desc_here : desc s s
  | desc_child c : 0 < c -> desc s (par c) -> desc s c.

Lemma desc_ge s p : desc s p -> s <= p.
Proof. induction 1 as [|c Hc _ IH]; [done|]. pose proof (par_lt c Hc). lia. Qed.

Lemma desc_par s p : desc s p -> s < p -> desc s (par p) /\ s <= par p.
Proof.
  intros Hd Hlt. destruct Hd as [|c Hc Hd]; [lia|]. split; [done|by apply desc_ge].
Qed.

(** ** Correctness for a total preorder *)

Section Correct.
Context {A : Type} (lessThan : A -> A -> res bool) (lt : A -> A -> bool).
(** The comparison never raises and is a strict weak order. *)
Context (less_total : forall a b, lessThan a b = Ok (lt a b)).
Context (lt_asym : forall a b, lt a b = true -> lt b a = false).
Context (ge_trans : forall a b c, lt b a = false -> lt c b = false -> lt c a = false).

Section Direction.
Context (m : bool).

(** [a] may sit above [b]: not greater in a min-heap, not less in a max-heap. *)
Definition above (a b : A) : Prop := (if m then lt a b else lt b a) = false.

Lemma above_trans a b c : above a b -> above b c -> above a c.
Proof. unfold above. destruct m; intros; eapply ge_trans; eauto. Qed.

Lemma above_strict a b : (if m then lt b a else lt a b) = true -> above a b.
Proof. unfold above. destruct m; apply lt_asym. Qed.

Lemma above_refl a : above a a.
Proof.
  unfold above. assert (lt a a = false); [|by destruct m].
  destruct (lt a a) eqn:E; [|done]. by rewrite (lt_asym a a E) in E.
Qed.

Definition heapFrom (s : nat) (h : list A) : Prop :=
  forall i u v, 0 < i -> s <= par i -> h !! par i = Some u -> h !! i = Some v -> above u v.

Definition isHeap (h : list A) : Prop := heapFrom 0 h.

(** The heap with a hole at [pos], apart from what is above the hole. *)
Definition hole_ok (s pos : nat) (h : list A) : Prop :=
  (forall i u v, 0 < i -> s <= par i -> i <> pos -> par i <> pos ->
     h !! par i = Some u -> h !! i = Some v -> above u v) /\
  (forall i u v, 0 < i -> par i = pos -> 0 < pos -> s <= par pos ->
     h !! par pos = Some u -> h !! i = Some v -> above u v).

Definition sd_inv (s pos : nat) (x : A) (h : list A) : Prop :=
  hole_ok s pos h /\ (forall i v, 0 < i -> par i = pos -> h !! i = Some v -> above x v).

Lemma less_step a b (h : list A) :
  (if m then less lessThan b a else less lessThan a b) h = (Ok (if m then lt b a else lt a b), h).
Proof. unfold less. by destruct m; rewrite less_total. Qed.

(** Closing the hole with an element that fits. *)
Lemma close_hole s pos x h :
  sd_inv s pos x h -> pos < length h ->
  (0 < pos -> s <= par pos -> forall u, h !! par pos = Some u -> above u x) ->
  heapFrom s (<[pos := x]> h).
Proof.
  intros [[Ha _] Hb] Hlt Hp i u v Hi Hs Hu Hv.
  apply list_lookup_insert_Some in Hu as [(E & -> & _)|[Hne Hu]];
    apply list_lookup_insert_Some in Hv as [(E2 & <- & _)|[Hne2 Hv]].
  - pose proof (par_lt i Hi). lia.
  - eapply Hb; eauto.
  - subst i. by apply Hp.
  - eapply Ha; eauto.
Qed.

Lemma siftdownLoop_spec fuel : forall s pos x h,
  pos <= fuel -> pos < length h -> desc s pos -> sd_inv s pos x h ->
  exists h', siftdownLoop lessThan fuel s pos x m h = (Ok tt, h') /\
    heapFrom s h' /\ h' ≡ₚ <[pos := x]> h.
Proof.
  induction fuel as [|fuel IH]; intros s pos x h Hf Hlt Hd Hinv; cbn [siftdownLoop].
  - assert (pos = 0) as -> by lia. simpl. unfold hset.
    destruct (lookup_lt_is_Some_2 h 0 Hlt) as [y ->]. eexists. split_and!; [done| |done].
    apply close_hole; [done|done|lia].
  - destruct (lookup_lt_is_Some_2 h pos Hlt) as [y Hy].
    destruct (Nat.ltb_spec s pos) as [Hsp|Hsp].
    2:{ unfold hset. rewrite Hy. eexists. split_and!; [done| |done].
        apply close_hole; [done|done|]. intros Hp Hs. pose proof (par_lt pos Hp). lia. }
    destruct (desc_par s pos Hd Hsp) as [Hdp Hsle]. fold (par pos).
    assert (0 < pos) as Hpos by lia. pose proof (par_lt pos Hpos) as Hpl.
    destruct (lookup_lt_is_Some_2 h (par pos)) as [u Hu]; [lia|].
    unfold hbind at 1, hget. rewrite Hu. unfold hbind at 1. rewrite (less_step x u).
    destruct (if m then lt u x else lt x u) eqn:E; cbn [negb].
    2:{ unfold hset. rewrite Hy. eexists. split_and!; [done| |done].
        apply close_hole; [done|done|]. intros _ _ u' Hu'. assert (u' = u) as -> by congruence.
        unfold above. by destruct m. }
    unfold hbind, hset at 1. rewrite Hy. pose proof (above_strict x u E) as Hxu.
    destruct Hinv as [[Ha Hc] Hb].
    destruct (IH s (par pos) x (<[pos := u]> h)) as (h' & Eh & Hh & Hp).
    + lia.
    + rewrite length_insert. lia.
    + done.
    + split; [split|].
      * intros i u' v' Hi Hs Hne1 Hne2 Hu' Hv'.
        destruct (decide (i = pos)) as [->|Hip]; [done|].
        rewrite (list_lookup_insert_ne h pos i) in Hv' by done.
        destruct (decide (par i = pos)) as [Hpp|Hpp].
        -- rewrite Hpp, list_lookup_insert_eq in Hu' by done. injection Hu' as <-.
           eapply Hc; eauto.
        -- rewrite list_lookup_insert_ne in Hu' by done. eapply Ha; eauto.
      * intros i u' v' Hi Hpi Hp0 Hs Hu' Hv'.
        pose proof (par_lt (par pos) Hp0).
        rewrite list_lookup_insert_ne in Hu' by lia.
        assert (above u' u) as Huu by (apply (Ha (par pos) u' u); auto; lia).
        destruct (decide (i = pos)) as [->|Hip].
        -- rewrite list_lookup_insert_eq in Hv' by done. by injection Hv' as <-.
        -- rewrite list_lookup_insert_ne in Hv' by done.
           eapply above_trans; [exact Huu|]. apply (Ha i u v'); try done; [congruence|lia|congruence].
      * intros i v' Hi Hpi Hv'. destruct (decide (i = pos)) as [->|Hip].
        -- rewrite list_lookup_insert_eq in Hv' by done. by injection Hv' as <-.
        -- rewrite list_lookup_insert_ne in Hv' by done.
           eapply above_trans; [exact Hxu|]. apply (Ha i u v'); try done; [congruence|lia|congruence].
    + exists h'. split_and!; [done|done|]. rewrite Hp. apply hole_perm; [lia|done|done].
Qed.

Lemma siftdown_spec s pos x h :
  h !! pos = Some x -> desc s pos -> sd_inv s pos x h ->
  exists h', siftdown lessThan s pos m h = (Ok tt, h') /\ heapFrom s h' /\ h' ≡ₚ h.
Proof.
  intros Hx Hd Hinv. unfold siftdown, hbind, hget. rewrite Hx.
  destruct (siftdownLoop_spec pos s pos x h) as (h' & E & Hh & Hp);
    [done|by eapply lookup_lt_Some|done|done|].
  exists h'. split_and!; [done|done|]. by rewrite Hp, list_insert_id.
Qed.

(** One step of the descent: the smaller child fills the hole. *)
Lemma hole_down s pos c u h :
  hole_ok s pos h -> desc s pos -> 0 < c -> par c = pos -> h !! c = Some u -> pos < length h ->
  (forall i v, 0 < i -> par i = pos -> h !! i = Some v -> above u v) ->
  hole_ok s c (<[pos := u]> h).
Proof.
  intros [Ha Hc] Hd Hc0 Hpc Hu Hlt Hmin. pose proof (par_lt c Hc0). pose proof (desc_ge s pos Hd). split.
  - intros i u' v' Hi Hs Hne1 Hne2 Hu' Hv'. destruct (decide (i = pos)) as [->|Hip].
    + rewrite list_lookup_insert_eq in Hv' by done. injection Hv' as <-.
      pose proof (par_lt pos Hi). rewrite list_lookup_insert_ne in Hu' by lia. by apply (Hc c u' u).
    + rewrite (list_lookup_insert_ne h pos i) in Hv' by done.
      destruct (decide (par i = pos)) as [Hpp|Hpp].
      * rewrite Hpp, list_lookup_insert_eq in Hu' by done. injection Hu' as <-. by apply (Hmin i).
      * rewrite list_lookup_insert_ne in Hu' by done. eapply Ha; eauto.
  - intros i u' v' Hi Hpi _ Hs Hu' Hv'. rewrite Hpc, list_lookup_insert_eq in Hu' by done.
    injection Hu' as <-. pose proof (par_lt i Hi). rewrite list_lookup_insert_ne in Hv' by lia.
    apply (Ha i u v'); try done; [lia|lia|lia|congruence].
Qed.

Lemma siftupLoop_spec fuel : forall s pos h,
  length h <= fuel + pos -> pos < length h -> desc s pos -> hole_ok s pos h ->
  exists leaf h', siftupLoop lessThan fuel (length h) pos m h = (Ok leaf, h') /\
    length h' = length h /\ leaf < length h /\ desc s leaf /\ length h <= 2 * leaf + 1 /\
    hole_ok s leaf h' /\ (forall x, <[leaf := x]> h' ≡ₚ <[pos := x]> h).
Proof.
  induction fuel as [|fuel IH]; intros s pos h Hf Hlt Hd Hinv; cbn [siftupLoop].
  - destruct (Nat.ltb_spec (2 * pos + 1) (length h)); [lia|].
    exists pos, h. split_and!; try done.
  - destruct (Nat.ltb_spec (2 * pos + 1) (length h)) as [Hch|Hch].
    2:{ exists pos, h. split_and!; try done. }
    destruct (lookup_lt_is_Some_2 h (2 * pos + 1) Hch) as [l Hl].
    destruct (lookup_lt_is_Some_2 h pos Hlt) as [y Hy].
    (* the chosen child and its element *)
    assert (exists (tr : bool) c u,
      (if 2 * pos + 1 + 1 <? length h
       then hbind (hget (2 * pos + 1)) (fun left => hbind (hget (2 * pos + 1 + 1)) (fun right =>
         hbind (if m then less lessThan right left else less lessThan left right)
           (fun lt => hret (negb lt)))) else hret false) h = (Ok tr, h) /\
      c = (if tr then 2 * pos + 1 + 1 else 2 * pos + 1) /\ h !! c = Some u /\ par c = pos /\ 0 < c /\
      (forall i v, 0 < i -> par i = pos -> h !! i = Some v -> above u v))
      as (tr & c & u & Etr & Ec & Hu & Hpc & Hc0 & Hmin).
    { destruct (Nat.ltb_spec (2 * pos + 1 + 1) (length h)) as [Hr|Hr].
      - destruct (lookup_lt_is_Some_2 h (2 * pos + 1 + 1) Hr) as [r Hr'].
        unfold hbind, hget. rewrite Hl, Hr'. rewrite (less_step l r).
        set (b := if m then lt r l else lt l r). exists (negb b).
        destruct b eqn:Eb; simpl.
        + exists (2 * pos + 1), l. split_and!; try done; [apply par_child; lia|lia|].
          intros i v Hi Hpi Hv. apply (par_child i pos Hi) in Hpi as [->| ->].
          * assert (v = l) as -> by congruence. apply above_refl.
          * replace (2 * pos + 2) with (2 * pos + 1 + 1) in Hv by lia.
            assert (v = r) as -> by congruence. by apply above_strict.
        + exists (2 * pos + 1 + 1), r. split_and!; try done; [apply par_child; lia|lia|].
          intros i v Hi Hpi Hv. apply (par_child i pos Hi) in Hpi as [->| ->].
          * assert (v = l) as -> by congruence. unfold above. subst b. by destruct m.
          * replace (2 * pos + 2) with (2 * pos + 1 + 1) in Hv by lia.
            assert (v = r) as -> by congruence. apply above_refl.
      - exists false, (2 * pos + 1), l. split_and!; try done; [apply par_child; lia|lia|].
        intros i v Hi Hpi Hv. apply (par_child i pos Hi) in Hpi as [->| ->].
        + assert (v = l) as -> by congruence. apply above_refl.
        + apply lookup_lt_Some in Hv. lia. }
    unfold hbind at 1. rewrite Etr. rewrite <- Ec.
    unfold hbind at 1, hget. rewrite Hu. unfold hbind, hset. rewrite Hy.
    assert (pos < c) as Hpos by (pose proof (par_lt c Hc0); lia).
    destruct (IH s c (<[pos := u]> h)) as (leaf & h' & E & Hlen & Hlf & Hdl & Hlf2 & Hh & Hp).
    + rewrite length_insert. lia.
    + rewrite length_insert. by eapply lookup_lt_Some.
    + apply desc_child; [done|by rewrite Hpc].
    + by apply (hole_down s pos c u h).
    + rewrite length_insert in *. exists leaf, h'. split_and!; try done.
      intros x. rewrite Hp. apply hole_perm; [lia|done|done].
Qed.

Lemma siftup_spec s h :
  s < length h -> heapFrom (S s) h ->
  exists h', siftup lessThan s m h = (Ok tt, h') /\ heapFrom s h' /\ h' ≡ₚ h.
Proof.
  intros Hlt Hh. destruct (lookup_lt_is_Some_2 h s Hlt) as [x Hx].
  assert (hole_ok s s h) as Hhole.
  { split.
    - intros i u v Hi Hs _ Hne. apply Hh; [done|lia].
    - intros i u v _ _ Hs0 Hs. pose proof (par_lt s Hs0). lia. }
  destruct (siftupLoop_spec (length h) s s h) as (leaf & h1 & E1 & Hlen & Hlf & Hdl & Hlf2 & Hh1 & Hp1);
    [lia|done|constructor|done|].
  unfold siftup. unfold hbind at 1, hlen. unfold hbind at 1, hget. rewrite Hx.
  unfold hbind at 1. rewrite E1. unfold hbind, hset.
  destruct (lookup_lt_is_Some_2 h1 leaf) as [y ->]; [lia|].
  assert (forall i v, 0 < i -> par i = leaf -> <[leaf := x]> h1 !! i = Some v -> False) as Hnoc.
  { intros i v Hi Hpi Hv. apply (par_child i leaf Hi) in Hpi. apply lookup_lt_Some in Hv.
    rewrite length_insert in Hv. lia. }
  destruct (siftdown_spec s leaf x (<[leaf := x]> h1)) as (h2 & E2 & Hh2 & Hp2).
  - apply list_lookup_insert_eq. lia.
  - done.
  - destruct Hh1 as [Ha Hc]. split; [split|].
    + intros i u v Hi Hs Hne1 Hne2. rewrite !list_lookup_insert_ne by done. by apply Ha.
    + intros i u v Hi Hpi _ _ _ Hv. by destruct (Hnoc i v).
    + intros i v Hi Hpi Hv. by destruct (Hnoc i v).
  - exists h2. split_and!; [done|done|]. by rewrite Hp2, Hp1, list_insert_id.
Qed.

(** *** The operations *)

Lemma desc_0 p : desc 0 p.
Proof.
  induction (lt_wf p) as [p _ IH]. destruct (decide (p = 0)) as [->|]; [constructor|].
  apply desc_child; [lia|]. apply IH, par_lt. lia.
Qed.

Lemma heapFrom_set0 x h : isHeap h -> heapFrom 1 (<[0 := x]> h).
Proof.
  intros Hh i u v Hi Hs Hu Hv. rewrite list_lookup_insert_ne in Hu by lia.
  rewrite list_lookup_insert_ne in Hv by lia. apply (Hh i u v); auto; lia.
Qed.

Lemma root_above h r y : isHeap h -> h !! 0 = Some r -> y ∈ h -> above r y.
Proof.
  intros Hh Hr [i Hi]%list_elem_of_lookup. revert y Hi.
  induction (lt_wf i) as [i _ IH]; intros y Hi. destruct (decide (i = 0)) as [->|Hne].
  - assert (y = r) as -> by congruence. apply above_refl.
  - pose proof (par_lt i ltac:(lia)) as Hp.
    destruct (lookup_lt_is_Some_2 h (par i)) as [u Hu]; [apply lookup_lt_Some in Hi; lia|].
    eapply above_trans; [by apply (IH (par i))|]. apply (Hh i u y); auto; lia.
Qed.

Lemma pushImpl_spec item h : isHeap h ->
  exists h', pushImpl lessThan item m h = (Ok tt, h') /\ isHeap h' /\ h' ≡ₚ item :: h.
Proof.
  intros Hh. unfold pushImpl, hbind, hlen, hpush.
  destruct (siftdown_spec 0 (length h) item (h ++ [item])) as (h' & E & Hh' & Hp).
  - rewrite lookup_app_r, Nat.sub_diag by done. done.
  - apply desc_0.
  - split; [split|].
    + intros i u v Hi _ Hne1 Hne2 Hu Hv.
      assert (i < length h) as Hi1.
      { apply lookup_lt_Some in Hv. rewrite length_app in Hv. simpl in Hv. lia. }
      pose proof (par_lt i Hi). rewrite lookup_app_l in Hu by lia. rewrite lookup_app_l in Hv by lia.
      apply (Hh i u v); auto; lia.
    + intros i u v Hi Hpi _ _ _ Hv. pose proof (par_lt i Hi). apply lookup_lt_Some in Hv.
      rewrite length_app in Hv. simpl in Hv. lia.
    + intros i v Hi Hpi Hv. pose proof (par_lt i Hi). apply lookup_lt_Some in Hv.
      rewrite length_app in Hv. simpl in Hv. lia.
  - exists h'. split_and!; [done|done|]. rewrite Hp. by rewrite (Permutation_app_comm h [item]).
Qed.

(** Putting [x] at the root of a heap and sifting it. *)
Lemma reroot_spec x h r : isHeap h -> h !! 0 = Some r ->
  exists h', siftup lessThan 0 m (<[0 := x]> h) = (Ok tt, h') /\ isHeap h' /\ r :: h' ≡ₚ x :: h.
Proof.
  intros Hh Hr. destruct (siftup_spec 0 (<[0 := x]> h)) as (h' & E & Hh' & Hp).
  - rewrite length_insert. by apply lookup_lt_Some in Hr.
  - by apply heapFrom_set0.
  - exists h'. split_and!; [done|done|]. rewrite Hp. by apply insert_perm.
Qed.

Lemma popImpl_spec h : h <> [] -> isHeap h ->
  exists r h', popImpl lessThan m h = (Ok r, h') /\ isHeap h' /\ r :: h' ≡ₚ h /\
    forall y, y ∈ h -> above r y.
Proof.
  intros Hne Hh. destruct (exists_last Hne) as (l & x & ->).
  unfold popImpl, hbind, hpopLast, hlen. rewrite last_snoc, removelast_last.
  destruct l as [|r l]; simpl Nat.eqb.
  - exists x, []. split_and!; [done| |done|].
    + intros i u v _ _ Hu _. done.
    + intros y Hy. apply list_elem_of_singleton in Hy as ->. apply above_refl.
  - assert (isHeap (r :: l)) as Hl.
    { intros i u v Hi Hs Hu Hv. apply (Hh i u v); auto; by apply lookup_app_l_Some. }
    destruct (reroot_spec x (r :: l) r Hl eq_refl) as (h' & E & Hh' & Hp).
    unfold hget, hset. cbn -[siftup] in E |- *. rewrite E. exists r, h'.
    split_and!; [done|done| |].
    + by rewrite Hp, <- (Permutation_cons_append (r :: l) x).
    + intros y Hy. by apply (root_above ((r :: l) ++ [x])).
Qed.

Lemma replaceImpl_spec item h r : isHeap h -> h !! 0 = Some r ->
  exists h', replaceImpl lessThan item m h = (Ok r, h') /\ isHeap h' /\ r :: h' ≡ₚ item :: h.
Proof.
  intros Hh Hr. unfold replaceImpl, hbind, hlen, hget, hset.
  destruct (Nat.eqb_spec (length h) 0) as [E|_]; [by destruct h|].
  cbn beta iota. rewrite Hr. cbn beta iota. rewrite Hr. cbn beta iota.
  destruct (reroot_spec item h r Hh Hr) as (h' & E & Hh' & Hp). rewrite E. exists h'. done.
Qed.

Lemma pushpopImpl_spec item h : isHeap h ->
  exists r h', pushpopImpl lessThan item m h = (Ok r, h') /\ isHeap h' /\ r :: h' ≡ₚ item :: h /\
    forall y, y ∈ item :: h -> above r y.
Proof.
  intros Hh. unfold pushpopImpl. unfold hbind at 1, hlen.
  destruct (Nat.eqb_spec (length h) 0) as [E|E].
  { destruct h; [|done]. exists item, []. split_and!; try done.
    intros y Hy. apply list_elem_of_singleton in Hy as ->. apply above_refl. }
  destruct (lookup_lt_is_Some_2 h 0) as [r Hr]; [lia|].
  unfold hbind at 1, hget. rewrite Hr. unfold hbind at 1. rewrite (less_step r item).
  destruct (if m then lt item r else lt r item) eqn:Es; cbn [negb].
  - unfold hbind, hset. rewrite Hr.
    destruct (reroot_spec item h r Hh Hr) as (h' & -> & Hh' & Hp). exists r, h'.
    split_and!; try done. intros y [->|Hy]%elem_of_cons; [by apply above_strict|by apply (root_above h)].
  - exists item, h. split_and!; try done. intros y [->|Hy]%elem_of_cons; [apply above_refl|].
    eapply above_trans; [|by apply (root_above h r y)]. unfold above. by destruct m.
Qed.

Lemma heapifyLoop_spec k : forall h, heapFrom k h -> k <= length h ->
  exists h', heapifyLoop lessThan k m h = (Ok tt, h') /\ isHeap h' /\ h' ≡ₚ h.
Proof.
  induction k as [|k IH]; intros h Hh Hk; simpl; [by exists h|].
  destruct (siftup_spec k h) as (h1 & E1 & Hh1 & Hp1); [lia|done|].
  unfold hbind. rewrite E1. destruct (IH h1 Hh1) as (h' & E & Hh' & Hp).
  { rewrite (Permutation_length Hp1). lia. }
  exists h'. split_and!; [done|done|by rewrite Hp, Hp1].
Qed.

Lemma heapifyImpl_spec h :
  exists h', heapifyImpl lessThan m h = (Ok tt, h') /\ isHeap h' /\ h' ≡ₚ h.
Proof.
  unfold heapifyImpl, hbind, hlen. rewrite Nat.div2_div.
  pose proof (Nat.div_mod_eq (length h) 2). pose proof (Nat.mod_upper_bound (length h) 2 ltac:(lia)).
  apply heapifyLoop_spec; [|lia].
  intros i u v Hi Hs _ Hv. apply lookup_lt_Some in Hv.
  assert (par i < length h / 2) by (unfold par; rewrite Nat.div2_div;
    pose proof (Nat.div_mod_eq (i - 1) 2); lia). lia.
Qed.
End Direction.
End Correct.

(** ** Theorems *)

(** The order laws the correctness of the heap rests on. *)
Record StrictWeak {A} (lessThan : A -> A -> res bool) (lt : A -> A -> bool) : Prop := {
  sw_total : forall a b, lessThan a b = Ok (lt a b);
  sw_asym : forall a b, lt a b = true -> lt b a = false;
  sw_trans : forall a b c, lt b a = false -> lt c b = false -> lt c a = false }.

Section Theorems.
Context {A : Type} (lessThan : A -> A -> res bool) (lt : A -> A -> bool).
Context (H : StrictWeak lessThan lt).

(** Pushing keeps the heap invariant and adds exactly the item, for
    heappush and heappush_max alike. *)
Theorem heappush_correct m item h : isHeap lt m h ->
  exists h', pushImpl lessThan item m h = (Ok tt, h') /\ isHeap lt m h' /\ h' ≡ₚ item :: h.
Proof. intros Hh. by apply pushImpl_spec; [apply H..|]. Qed.

(** C19: with a comparison that never raises and is a strict weak order of the
    elements ([StrictWeak]; a nan or a comparison that raises is not, see
    [heappush_raising] for those), popping a non-empty heap returns its least
    element (greatest for heappop_max), removes exactly that one, and keeps the
    heap invariant. *)
Theorem heappop_correct m h : h <> [] -> isHeap lt m h ->
  exists r h', popImpl lessThan m h = (Ok r, h') /\ isHeap lt m h' /\ r :: h' ≡ₚ h /\
    forall y, y ∈ h -> above lt m r y.
Proof. intros Hne Hh. by apply popImpl_spec; [apply H..| |]. Qed.

(** Heappushpop is a push followed by a pop in one sift: it returns a
    least element of the heap with the item added and leaves a heap of the
    rest, on the empty heap too. *)
Theorem heappushpop_correct m item h : isHeap lt m h ->
  exists r h', pushpopImpl lessThan item m h = (Ok r, h') /\ isHeap lt m h' /\
    r :: h' ≡ₚ item :: h /\ forall y, y ∈ item :: h -> above lt m r y.
Proof. intros Hh. by apply pushpopImpl_spec; [apply H..|]. Qed.

(** Heapify turns any list into a heap of the same elements. *)
Theorem heapify_correct m h :
  exists h', heapifyImpl lessThan m h = (Ok tt, h') /\ isHeap lt m h' /\ h' ≡ₚ h.
Proof. by apply heapifyImpl_spec; apply H. Qed.
End Theorems.

Definition ltZ (a b : Z) : res bool := Ok (a <? b)%Z.

Lemma ltZ_weak : StrictWeak ltZ Z.ltb.
Proof. constructor; [done| |]; intros *; rewrite ?Z.ltb_lt, ?Z.ltb_ge; lia. Qed.

Lemma demo_isHeap : isHeap Z.ltb false [1; 3; 2]%Z.
Proof.
  intros i u v Hi _ Hu Hv. destruct i as [|[|[|i]]]; [lia| | |done];
    cbn in Hu, Hv; injection Hu as <-; injection Hv as <-; reflexivity.
Qed.

Lemma heappush_correct_witness :
  exists h', pushImpl ltZ 0%Z false [1; 3; 2]%Z = (Ok tt, h') /\ h' ≡ₚ [0; 1; 3; 2]%Z.
Proof.
  destruct (heappush_correct ltZ Z.ltb ltZ_weak false 0%Z [1; 3; 2]%Z) as (h' & E & _ & Hp).
  - apply demo_isHeap.
  - exists h'. split; [exact E|exact Hp].
Defined.

Lemma heappop_correct_witness :
  exists h', popImpl ltZ false [1; 3; 2]%Z = (Ok 1%Z, h') /\ isHeap Z.ltb false h'.
Proof.
  destruct (heappop_correct ltZ Z.ltb ltZ_weak false [1; 3; 2]%Z) as (r & h' & E & Hh & _).
  - discriminate.
  - apply demo_isHeap.
  - exists h'. split; [|exact Hh]. vm_compute in E. injection E as <- <-. reflexivity.
Defined.

Lemma heappushpop_correct_witness :
  exists h', pushpopImpl ltZ 5%Z false [1; 3; 2]%Z = (Ok 1%Z, h') /\ isHeap Z.ltb false h'.
Proof.
  destruct (heappushpop_correct ltZ Z.ltb ltZ_weak false 5%Z [1; 3; 2]%Z) as (r & h' & E & Hh & _).
  - apply demo_isHeap.
  - exists h'. split; [|exact Hh]. vm_compute in E. injection E as <- <-. reflexivity.
Defined.

Lemma heapify_correct_witness :
  exists h', heapifyImpl ltZ false [9; 4; 7; 1; 3]%Z = (Ok tt, h') /\ isHeap Z.ltb false h'.
Proof.
  destruct (heapify_correct ltZ Z.ltb ltZ_weak false [9; 4; 7; 1; 3]%Z) as (h' & E & Hh & _).
  exists h'. split; [exact E|exact Hh].
Defined.

(** ** Comparisons that raise *)

Section Raising.
Context {A : Type} (lessThan : A -> A -> res bool) (m : bool).

(** What the sift asks of the held item and a parent. *)
Definition moves (x y : A) : res bool := if m then lessThan y x else lessThan x y.

(** The [k]-th ancestor of a position. *)
Definition up (pos k : nat) : nat := Nat.iter k par pos.

Lemma up_succ pos k : up (par pos) k = up pos (S k).
Proof. unfold up. by rewrite Nat.iter_succ_r. Qed.

Lemma up_le pos k : up pos k <= pos.
Proof.
  induction k as [|k IH]; [done|]. change (up pos (S k)) with (par (up pos k)).
  destruct (decide (0 < up pos k)) as [H|H]; [pose proof (par_lt _ H); lia|].
  assert (up pos k = 0) as -> by lia. unfold par. simpl. lia.
Qed.

(** A sift from [pos] that stops at a comparison: [x] had passed [k]
    ancestors in [g], and the last of them is there twice. *)
Record stopped (pos : nat) (x w : A) (g g' : list A) (e s : string) (k : nat) (y z : A) : Prop := {
  st_pos : 0 < up pos k;
  st_passed : forall j, j < k -> exists y', g !! up pos (S j) = Some y' /\ moves x y' = Ok true;
  st_at : g !! up pos (S k) = Some y;
  st_raise : moves x y = Err e s;
  st_dup : g !! up pos k = Some z;
  st_perm : w :: g' ≡ₚ z :: g
}.

Lemma siftdownLoop_raising fuel : forall pos x w g, pos <= fuel -> g !! pos = Some w ->
  match siftdownLoop lessThan fuel 0 pos x m g with
  | (Ok _, g') => g' ≡ₚ <[pos := x]> g
  | (Err e s, g') => exists k y z, stopped pos x w g g' e s k y z
  end.
Proof.
  induction fuel as [|fuel IH]; intros pos x w g Hf Hw; cbn [siftdownLoop].
  { assert (pos = 0) as -> by lia. simpl. unfold hset. by rewrite Hw. }
  destruct (Nat.ltb_spec 0 pos) as [Hp|Hp]; [|unfold hset; by rewrite Hw]. pose proof (par_lt pos Hp) as Hl.
  fold (par pos). pose proof (lookup_lt_Some _ _ _ Hw). destruct (lookup_lt_is_Some_2 g (par pos)) as [u Hu]; [lia|].
  unfold hbind at 1, hget. rewrite Hu. unfold hbind at 1.
  assert ((if m then less lessThan u x else less lessThan x u) g =
    match moves x u with Ok r => (Ok r, g) | Err e s => (Err e s, g) end) as -> by (unfold less, moves; by destruct m).
  destruct (moves x u) as [[]|e s] eqn:E; cbn [negb].
  - unfold hbind, hset at 1. rewrite Hw. specialize (IH (par pos) x u (<[pos := u]> g)).
    destruct (siftdownLoop _ _ _ _ _ _ _) as [[r|e s] g'].
    + rewrite IH by (lia || by rewrite list_lookup_insert_ne by lia). apply hole_perm; [lia|done|done].
    + destruct IH as (k & y & z & [H1 H2 H3 H4 H5 H6]); [lia|by rewrite list_lookup_insert_ne by lia|].
      assert (forall j, <[pos := u]> g !! up pos (S j) = g !! up pos (S j)) as Hsame.
      { intros j. apply list_lookup_insert_ne. pose proof (up_le (par pos) j). rewrite up_succ in *. lia. }
      rewrite ?up_succ, ?Hsame in *. exists (S k), y, z. split; try done.
      * intros [|j] Hj; [exists u; split; [exact Hu|done]|]. destruct (H2 j ltac:(lia)) as (y' & Hy' & ?). exists y'.
        by rewrite up_succ, Hsame in Hy'.
      * apply (Permutation_cons_inv (a := u)). rewrite (Permutation_swap w u), H6, (Permutation_swap z w).
        rewrite (insert_perm g pos u w Hw). apply Permutation_swap.
  - unfold hset. by rewrite Hw.
  - exists 0, u, w. split; try done. intros j Hj. lia.
Qed.
End Raising.


(** A comparison that raises once the element 1 is involved: the pushed 0 is
    gone and 2 is there twice. *)
Definition raisingLess (a b : Z) : res bool :=
  if (b =? 1)%Z then Err "TypeError" "unorderable" else Ok (a <? b)%Z.

Lemma heappush_raise_loses_item :
  pushImpl raisingLess 0%Z false [1; 2; 3; 4]%Z =
    (Err "TypeError" "unorderable", [1; 2; 3; 4; 2]%Z).
Proof. reflexivity. Qed.
