(* ===== verification/Bisect.v ===== *)
(** * Bisect: the bisection primitives of the runtime

    Model of src/pkg/runtime/bisectmod.go.  Positions are Go ints of 64 bits
    ([mid] is computed with the wrap written out); the sequence, the key
    function and the comparison are Python objects whose operations may
    raise, so they are parameters of the section that answer a [res]. *)

From S2P Require Import Prelude Int64 Heapq.
Local Open Scope Z_scope.

Definition rbind {A B} (m : res A) (k : A -> res B) : res B :=
  match m with Ok a => k a | Err e s => Err e s end.
Notation "'let?' x := m 'in' k" := (rbind m (fun x => k))
  (at level 200, x name, m at level 100, k at level 200).

Section Bisect.
(** Objects, their None test and the protocols the module calls. *)
Context {Obj : Type} (isNone : Obj -> bool).
Context (getItem : Obj -> Z -> res Obj) (objLen : Obj -> res Z) (asIndex : Obj -> res Z).
Context (call : Obj -> Obj -> res Obj) (lessThan : Obj -> Obj -> res bool).
Context (callInsert : Obj -> Z -> Obj -> res Obj).
Context (none : Obj).

Record bisectArgs := mkArgs { ba_a : Obj; ba_x : Obj; ba_lo : Z; ba_hi : Z; ba_key : Obj }.

Definition keyed (key e : Obj) : res Obj := if isNone key then Ok e else call key e.

(** [parseBisect]: the four argument slots, filled by position, then by
    keyword; [name] is the function the messages name. *)
Definition slotIndex (k : string) : option nat :=
  if String.eqb k "a" then Some 0%nat else if String.eqb k "x" then Some 1%nat
  else if String.eqb k "lo" then Some 2%nat else if String.eqb k "hi" then Some 3%nat else None.

Fixpoint bindKeywords (name : string) (vals : list (option Obj)) (key : Obj)
    (kws : list (string * Obj)) : res (list (option Obj) * Obj) :=
  match kws with
  | [] => Ok (vals, key)
  | (k, v) :: kws =>
    match slotIndex k with
    | Some idx =>
        match mjoin (vals !! idx) with
        | Some _ => Err "TypeError" (name +:+ "() got multiple values for argument '" +:+ k +:+ "'")
        | None => bindKeywords name (<[idx := Some v]> vals) key kws
        end
    | None =>
        if String.eqb k "key" then bindKeywords name vals v kws
        else Err "TypeError" (name +:+ "() got an unexpected keyword argument '" +:+ k +:+ "'")
    end
  end.

Definition parseBisect (name : string) (pos : list Obj) (kws : list (string * Obj)) :
    res bisectArgs :=
  if (4 <? Z.of_nat (length pos))
  then Err "TypeError" (name +:+ "() takes at most 4 positional arguments (" +:+
         itoa (Z.of_nat (length pos)) +:+ " given)")
  else
    let? vk := bindKeywords name (take 4 (map Some pos ++ [None; None; None; None])) none kws in
    let '(vals, key) := vk in
    match mjoin (vals !! 0%nat) with
    | None => Err "TypeError" (name +:+ "() missing required argument 'a' (pos 1)")
    | Some a =>
      match mjoin (vals !! 1%nat) with
      | None => Err "TypeError" (name +:+ "() missing required argument 'x' (pos 2)")
      | Some x =>
        let? lo := match mjoin (vals !! 2%nat) with None => Ok 0 | Some v => asIndex v end in
        if lo <? 0 then Err "ValueError" "lo must be non-negative"
        else
          let? hs := match mjoin (vals !! 3%nat) with
                     | None => Ok (-1, true)
                     | Some v => if isNone v then Ok (-1, true)
                                 else let? h := asIndex v in Ok (h, h =? -1)
                     end in
          let '(hi, sentinel) := hs in
          let? hi := (if sentinel : bool then objLen a else Ok hi) in
          Ok (mkArgs a x lo hi key)
      end
    end.

(** Go's [lo + (hi-lo)/2]. *)
Definition midpoint (lo hi : Z) : Z := wrap64 (lo + goQuot (wrap64 (hi - lo)) 2).

Fixpoint bisectRightLoop (fuel : nat) (a x : Obj) (lo hi : Z) (key : Obj) : option (res Z) :=
  if lo <? hi then
    match fuel with
    | O => None
    | S fuel =>
      let mid := midpoint lo hi in
      match rbind (getItem a mid) (fun e => keyed key e) with
      | Err e s => Some (Err e s)
      | Ok e =>
        match lessThan x e with
        | Err e s => Some (Err e s)
        | Ok lt =>
          if lt : bool then bisectRightLoop fuel a x lo mid key
          else bisectRightLoop fuel a x (wrap64 (mid + 1)) hi key
        end
      end
    end
  else Some (Ok lo).

Fixpoint bisectLeftLoop (fuel : nat) (a x : Obj) (lo hi : Z) (key : Obj) : option (res Z) :=
  if lo <? hi then
    match fuel with
    | O => None
    | S fuel =>
      let mid := midpoint lo hi in
      match rbind (getItem a mid) (fun e => keyed key e) with
      | Err e s => Some (Err e s)
      | Ok e =>
        match lessThan e x with
        | Err e s => Some (Err e s)
        | Ok lt =>
          if lt : bool then bisectLeftLoop fuel a x (wrap64 (mid + 1)) hi key
          else bisectLeftLoop fuel a x lo mid key
        end
      end
    end
  else Some (Ok lo).

(** Halving a 64-bit range takes at most 64 rounds. *)
Definition bisectFuel : nat := 64.

Definition bisectRightIndex (a x : Obj) (lo hi : Z) (key : Obj) : option (res Z) :=
  bisectRightLoop bisectFuel a x lo hi key.
Definition bisectLeftIndex (a x : Obj) (lo hi : Z) (key : Obj) : option (res Z) :=
  bisectLeftLoop bisectFuel a x lo hi key.

(** The four entry points; [None] is exhausted fuel. *)
Definition searchWith (index : Obj -> Obj -> Z -> Z -> Obj -> option (res Z)) (name : string)
    (pos : list Obj) (kws : list (string * Obj)) : option (res Z) :=
  match parseBisect name pos kws with
  | Err e s => Some (Err e s)
  | Ok p => index (ba_a p) (ba_x p) (ba_lo p) (ba_hi p) (ba_key p)
  end.

Definition bisectRightFn := searchWith bisectRightIndex "bisect_right".
Definition bisectLeftFn := searchWith bisectLeftIndex "bisect_left".

(** Insertion searches on the keyed value and inserts the original. *)
Definition insortWith (index : Obj -> Obj -> Z -> Z -> Obj -> option (res Z)) (name : string)
    (pos : list Obj) (kws : list (string * Obj)) : option (res Obj) :=
  match parseBisect name pos kws with
  | Err e s => Some (Err e s)
  | Ok p =>
    match keyed (ba_key p) (ba_x p) with
    | Err e s => Some (Err e s)
    | Ok sv =>
      match index (ba_a p) sv (ba_lo p) (ba_hi p) (ba_key p) with
      | None => None
      | Some (Err e s) => Some (Err e s)
      | Some (Ok i) => Some (callInsert (ba_a p) i (ba_x p))
      end
    end
  end.

Definition insortRightFn := insortWith bisectRightIndex "insort_right".
Definition insortLeftFn := insortWith bisectLeftIndex "insort_left".

(** ** Correctness *)

Lemma midpoint_exact lo hi : 0 <= lo -> lo < hi -> hi <= MaxInt64 ->
  midpoint lo hi = lo + (hi - lo) / 2 /\ lo <= midpoint lo hi < hi.
Proof.
  intros H0 Hlt Hm. unfold midpoint, goQuot.
  assert (0 <= (hi - lo) / 2 < hi - lo) as Hd.
  { split; [apply Z.div_pos; lia|apply Z.div_lt; lia]. }
  rewrite (wrap64_small (hi - lo)) by (apply in64_spec; unfold MinInt64, MaxInt64 in *; lia).
  rewrite Z.quot_div_nonneg by lia.
  rewrite (wrap64_small ((hi - lo) / 2)) by (apply in64_spec; unfold MinInt64, MaxInt64 in *; lia).
  rewrite wrap64_small by (apply in64_spec; unfold MinInt64, MaxInt64 in *; lia). lia.
Qed.

Lemma half_fuel n lo hi : hi - lo < 2 ^ Z.of_nat (S n) ->
  (hi - lo) / 2 < 2 ^ Z.of_nat n /\ hi - (lo + (hi - lo) / 2 + 1) < 2 ^ Z.of_nat n.
Proof.
  rewrite Nat2Z.inj_succ, Z.pow_succ_r by lia. intros H.
  pose proof (Z.div_mod (hi - lo) 2). pose proof (Z.mod_pos_bound (hi - lo) 2). lia.
Qed.

Lemma succ_small z : z < MaxInt64 -> 0 <= z -> wrap64 (z + 1) = z + 1.
Proof. intros. apply wrap64_small, in64_spec. unfold MinInt64, MaxInt64 in *. lia. Qed.

(** The searched range of keyed elements [e], with [P] the loop's test. *)
Definition readable (a key : Obj) (lo hi : Z) (e : Z -> Obj) : Prop :=
  forall j, lo <= j < hi -> rbind (getItem a j) (fun x => keyed key x) = Ok (e j).

Lemma bisectRightLoop_spec a x key e P fuel : forall lo hi lo0 hi0,
  0 <= lo -> hi <= MaxInt64 -> hi - lo < 2 ^ Z.of_nat fuel ->
  readable a key lo hi e -> (forall j, lo <= j < hi -> lessThan x (e j) = Ok (P j)) ->
  lo0 <= lo -> lo <= hi -> hi <= hi0 ->
  (forall j k, lo0 <= j <= k -> k < hi0 -> P j = true -> P k = true) ->
  (forall j, lo0 <= j < lo -> P j = false) -> (forall j, hi <= j < hi0 -> P j = true) ->
  exists i, bisectRightLoop fuel a x lo hi key = Some (Ok i) /\ lo0 <= i <= hi0 /\
    (forall j, lo0 <= j < i -> P j = false) /\ (forall j, i <= j < hi0 -> P j = true).
Proof.
  induction fuel as [|fuel IH]; intros lo hi lo0 hi0 H0 Hm Hf Hr Hp Hl Hlh Hh Hmono Hlow Hhigh;
    cbn [bisectRightLoop].
  - destruct (Z.ltb_spec lo hi); [lia|]. exists lo. split_and!; try done; try lia.
    intros j Hj. apply Hhigh. lia.
  - destruct (Z.ltb_spec lo hi) as [Hlt|].
    2:{ exists lo. split_and!; try done; try lia. intros j Hj. apply Hhigh. lia. }
    destruct (midpoint_exact lo hi H0 Hlt Hm) as [Em Hmid].
    destruct (half_fuel fuel lo hi Hf) as [Hf1 Hf2].
    rewrite (Hr _ Hmid), (Hp _ Hmid). destruct (P (midpoint lo hi)) eqn:EP.
    + apply IH; auto; try lia.
      * intros j Hj. apply Hr. lia.
      * intros j Hj. apply Hp. lia.
      * intros j Hj. apply (Hmono (midpoint lo hi) j); auto; lia.
    + rewrite succ_small by lia. apply IH; auto; try lia.
      * intros j Hj. apply Hr. lia.
      * intros j Hj. apply Hp. lia.
      * intros j Hj. destruct (P j) eqn:Ej; [|done].
        rewrite (Hmono j (midpoint lo hi)) in EP; auto; lia.
Qed.

Lemma bisectLeftLoop_spec a x key e P fuel : forall lo hi lo0 hi0,
  0 <= lo -> hi <= MaxInt64 -> hi - lo < 2 ^ Z.of_nat fuel ->
  readable a key lo hi e -> (forall j, lo <= j < hi -> lessThan (e j) x = Ok (P j)) ->
  lo0 <= lo -> lo <= hi -> hi <= hi0 ->
  (forall j k, lo0 <= j <= k -> k < hi0 -> P k = true -> P j = true) ->
  (forall j, lo0 <= j < lo -> P j = true) -> (forall j, hi <= j < hi0 -> P j = false) ->
  exists i, bisectLeftLoop fuel a x lo hi key = Some (Ok i) /\ lo0 <= i <= hi0 /\
    (forall j, lo0 <= j < i -> P j = true) /\ (forall j, i <= j < hi0 -> P j = false).
Proof.
  induction fuel as [|fuel IH]; intros lo hi lo0 hi0 H0 Hm Hf Hr Hp Hl Hlh Hh Hmono Hlow Hhigh;
    cbn [bisectLeftLoop].
  - destruct (Z.ltb_spec lo hi); [lia|]. exists lo. split_and!; try done; try lia.
    intros j Hj. apply Hhigh. lia.
  - destruct (Z.ltb_spec lo hi) as [Hlt|].
    2:{ exists lo. split_and!; try done; try lia. intros j Hj. apply Hhigh. lia. }
    destruct (midpoint_exact lo hi H0 Hlt Hm) as [Em Hmid].
    destruct (half_fuel fuel lo hi Hf) as [Hf1 Hf2].
    rewrite (Hr _ Hmid), (Hp _ Hmid). destruct (P (midpoint lo hi)) eqn:EP.
    + rewrite succ_small by lia. apply IH; auto; try lia.
      * intros j Hj. apply Hr. lia.
      * intros j Hj. apply Hp. lia.
      * intros j Hj. apply (Hmono j (midpoint lo hi)); auto; lia.
    + apply IH; auto; try lia.
      * intros j Hj. apply Hr. lia.
      * intros j Hj. apply Hp. lia.
      * intros j Hj. destruct (P j) eqn:Ej; [|done].
        rewrite (Hmono (midpoint lo hi) j) in EP; auto; lia.
Qed.

(** On a readable sorted range within the 64-bit bounds, bisect_right
    terminates within its fuel and returns the boundary: everything before
    it is not greater than [x], everything from it on is greater, and no
    intermediate sum overflows. *)
Theorem bisectRightIndex_boundary a x key lo hi e P :
  0 <= lo -> lo <= hi -> hi <= MaxInt64 -> readable a key lo hi e ->
  (forall j, lo <= j < hi -> lessThan x (e j) = Ok (P j)) ->
  (forall j k, lo <= j <= k -> k < hi -> P j = true -> P k = true) ->
  exists i, bisectRightIndex a x lo hi key = Some (Ok i) /\ lo <= i <= hi /\
    (forall j, lo <= j < i -> P j = false) /\ (forall j, i <= j < hi -> P j = true).
Proof.
  intros. apply (bisectRightLoop_spec a x key e P bisectFuel lo hi lo hi); auto; try lia.
  unfold bisectFuel, MaxInt64 in *. simpl Z.of_nat. lia.
Qed.

(** Bisect_left, likewise: everything before the boundary is less than
    [x], nothing from it on is. *)
Theorem bisectLeftIndex_boundary a x key lo hi e P :
  0 <= lo -> lo <= hi -> hi <= MaxInt64 -> readable a key lo hi e ->
  (forall j, lo <= j < hi -> lessThan (e j) x = Ok (P j)) ->
  (forall j k, lo <= j <= k -> k < hi -> P k = true -> P j = true) ->
  exists i, bisectLeftIndex a x lo hi key = Some (Ok i) /\ lo <= i <= hi /\
    (forall j, lo <= j < i -> P j = true) /\ (forall j, i <= j < hi -> P j = false).
Proof.
  intros. apply (bisectLeftLoop_spec a x key e P bisectFuel lo hi lo hi); auto; try lia.
  unfold bisectFuel, MaxInt64 in *. simpl Z.of_nat. lia.
Qed.
End Bisect.

(** *** A concrete run: a list of integers, no key *)

(** Sequence objects are [inl tt], elements [inr z]. *)
Definition demoObj : Type := (unit + Z)%type.
Definition demoGet (l : list Z) (a : demoObj) (i : Z) : res demoObj :=
  match l !! Z.to_nat i with Some v => Ok (inr v) | None => Err "IndexError" "list index out of range" end.
Definition demoLess (a b : demoObj) : res bool :=
  match a, b with inr x, inr y => Ok (x <? y) | _, _ => Err "TypeError" "" end.
Definition demoList : list Z := [1; 3; 3; 7].
Definition demoAt (j : Z) : demoObj := inr (nth (Z.to_nat j) demoList 0).

Lemma demo_readable : readable (fun _ => true) (demoGet demoList) (fun _ x => Ok x) (inl tt) (inl tt) 0 4 demoAt.
Proof.
  intros j Hj. assert (j = 0 \/ j = 1 \/ j = 2 \/ j = 3) as [->|[->|[->| ->]]] by lia; reflexivity.
Qed.

Lemma bisectRightIndex_boundary_witness :
  bisectRightIndex (fun _ => true) (demoGet demoList) (fun _ x => Ok x) demoLess (inl tt) (inr 3) 0 4 (inl tt)
    = Some (Ok 3) /\
  exists i, bisectRightIndex (fun _ => true) (demoGet demoList) (fun _ x => Ok x) demoLess
    (inl tt) (inr 3) 0 4 (inl tt) = Some (Ok i) /\ 0 <= i <= 4.
Proof.
  split; [vm_compute; reflexivity|].
  destruct (bisectRightIndex_boundary (fun _ => true) (demoGet demoList) (fun _ x => Ok x) demoLess
    (inl tt) (inr 3) (inl tt) 0 4 demoAt (fun j => 3 <? nth (Z.to_nat j) demoList 0))
    as (i & E & Hi & _); [lia|lia|unfold MaxInt64; lia|apply demo_readable| | |].
  - intros j Hj. assert (j = 0 \/ j = 1 \/ j = 2 \/ j = 3) as [->|[->|[->| ->]]] by lia; reflexivity.
  - intros j k Hj Hk. assert (j = 0 \/ j = 1 \/ j = 2 \/ j = 3) as [->|[->|[->| ->]]] by lia;
      assert (k = 0 \/ k = 1 \/ k = 2 \/ k = 3) as [->|[->|[->| ->]]] by lia; simpl; intros; (done || lia).
  - exists i. split; [exact E|exact Hi].
Defined.

Lemma bisectLeftIndex_boundary_witness :
  bisectLeftIndex (fun _ => true) (demoGet demoList) (fun _ x => Ok x) demoLess (inl tt) (inr 3) 0 4 (inl tt)
    = Some (Ok 1) /\
  exists i, bisectLeftIndex (fun _ => true) (demoGet demoList) (fun _ x => Ok x) demoLess
    (inl tt) (inr 3) 0 4 (inl tt) = Some (Ok i) /\ 0 <= i <= 4.
Proof.
  split; [vm_compute; reflexivity|].
  destruct (bisectLeftIndex_boundary (fun _ => true) (demoGet demoList) (fun _ x => Ok x) demoLess
    (inl tt) (inr 3) (inl tt) 0 4 demoAt (fun j => nth (Z.to_nat j) demoList 0 <? 3))
    as (i & E & Hi & _); [lia|lia|unfold MaxInt64; lia|apply demo_readable| | |].
  - intros j Hj. assert (j = 0 \/ j = 1 \/ j = 2 \/ j = 3) as [->|[->|[->| ->]]] by lia; reflexivity.
  - intros j k Hj Hk. assert (j = 0 \/ j = 1 \/ j = 2 \/ j = 3) as [->|[->|[->| ->]]] by lia;
      assert (k = 0 \/ k = 1 \/ k = 2 \/ k = 3) as [->|[->|[->| ->]]] by lia; simpl; intros; (done || lia).
  - exists i. split; [exact E|exact Hi].
Defined.
