(* ===== verification/Bytes.v ===== *)
(** * Bytes: machine bytes and words

    Go's [byte] and [uint16] as [Z] with the truncation written out, and the
    shift-and-mask arithmetic the codecs do, as division and remainder. *)

From S2P Require Import Prelude Int64.
Local Open Scope Z_scope.

Declare Scope bits_scope.
Delimit Scope bits_scope with bits.
Notation "x << k" := (Z.shiftl x k) (at level 35, k at next level) : bits_scope.
Notation "x >> k" := (Z.shiftr x k) (at level 35, k at next level) : bits_scope.
Notation "x '.|' y" := (Z.lor x y) (at level 50, left associativity) : bits_scope.
Notation "x '.&' y" := (Z.land x y) (at level 40, left associativity) : bits_scope.
Local Open Scope bits_scope.

(** Linear arithmetic with division and remainder by constants. *)
Ltac dlia := Z.div_mod_to_equations; lia.

(** Truncation to a byte. *)
Definition u8 (z : Z) : Z := z mod 256.

Definition isByte (b : Z) : Prop := 0 <= b < 256.

(** The byte of a character. *)
Definition chr (c : ascii) : Z := Z.of_nat (nat_of_ascii c).

(** The bytes of an ASCII constant. *)
Fixpoint bytesOf (s : string) : list Z :=
  match s with "" => [] | String c s => chr c :: bytesOf s end.

Definition newline : Z := 10.
Definition carriage : Z := 13.

Lemma shr_div x k : 0 <= k -> x >> k = x / 2 ^ k.
Proof. apply Z.shiftr_div_pow2. Qed.

Lemma shl_or x k y : 0 <= k -> 0 <= y < 2 ^ k -> (x << k) .| y = x * 2 ^ k + y.
Proof.
  intros Hk Hy. rewrite Z.shiftl_mul_pow2 by done.
  assert (Z.land (x * 2 ^ k) y = 0) as H0.
  { apply Z.bits_inj'. intros n Hn. rewrite Z.land_spec, Z.bits_0.
    destruct (Z.ltb_spec n k); [by rewrite Z.mul_pow2_bits_low|].
    rewrite <- (Z.mod_small y (2 ^ k)), Z.mod_pow2_bits_high by lia. apply andb_false_r. }
  by rewrite <- Z.lxor_lor, <- Z.add_nocarry_lxor.
Qed.

Lemma and_mod x k : 0 <= k -> x .& (2 ^ k - 1) = x mod 2 ^ k.
Proof. intros. rewrite <- Z.land_ones by done. by rewrite Z.ones_equiv. Qed.

(** A quotient's low bits only depend on the bits they come from. *)
Lemma div_mod_low y s m k :
  0 <= s -> 0 <= m -> s + m <= k -> (y / 2 ^ s) mod 2 ^ m = ((y mod 2 ^ k) / 2 ^ s) mod 2 ^ m.
Proof.
  intros Hs Hm Hk. rewrite <- !Z.shiftr_div_pow2, <- !Z.land_ones by lia. apply Z.bits_inj'. intros n Hn.
  rewrite !Z.land_spec, !Z.shiftr_spec, !Z.land_spec by done.
  destruct (Z.ltb_spec n m).
  - rewrite (Z.ones_spec_low k) by lia. by rewrite andb_true_r.
  - rewrite (Z.ones_spec_high m) by lia. by rewrite !andb_false_r.
Qed.

(** A 64-bit accumulator keeps its low bits. *)
Lemma wrap64_low x k : 0 <= k <= 64 -> wrap64 x mod 2 ^ k = x mod 2 ^ k.
Proof.
  intros Hk. destruct (wrap64_congr x) as [m ->].
  replace (2 ^ 64) with (2 ^ (64 - k) * 2 ^ k) by (rewrite <- Z.pow_add_r by lia; f_equal; lia).
  rewrite Z.mul_assoc. apply Z.mod_add. pose proof (Z.pow_pos_nonneg 2 k). lia.
Qed.

(** Checking a fact on every byte. *)
Definition upto (n : nat) : list Z := map Z.of_nat (seq 0 n).

Lemma forall_upto (P : Z -> bool) n : forallb P (upto n) = true -> forall z, 0 <= z < Z.of_nat n -> P z = true.
Proof.
  intros H z Hz. rewrite forallb_forall in H. apply H. unfold upto. apply in_map_iff. exists (Z.to_nat z).
  rewrite in_seq. lia.
Qed.
