(* ===== verification/Binascii.v ===== *)
(** * Binascii: the ASCII encodings of binary data

    Model of src/pkg/runtime/binasciimod.go: the hex, base64 and uuencode
    codecs and the HQX checksum, over the bytes of their arguments (unpacking a
    Python argument and building the result object are left out; the
    quoted-printable codecs are in Quopri).  A decoder's [binascii.Error] is the right of a sum, with its
    message.  An input slice with a position is the suffix from that position. *)

From S2P Require Import Prelude Int64 Bytes.
Local Open Scope Z_scope.
Local Open Scope bits_scope.

(** [t[i]] on a constant table. *)
Definition at_ (t : list Z) (i : Z) : Z := nth (Z.to_nat i) t 0.

(** ** Hex *)

Definition hexDigits : list Z := bytesOf "0123456789abcdef".

Definition hexPair (c : Z) : list Z := [at_ hexDigits (c >> 4); at_ hexDigits (c .& 15)].

(** [binasciiHexlify] without a separator. *)
Definition hexlify (data : list Z) : list Z := concat (map hexPair data).

Fixpoint hexSepLoop (fromRight : bool) (group n sep i : Z) (data : list Z) : list Z :=
  match data with
  | [] => []
  | c :: rest =>
      let pos := if fromRight then n - i else i in
      (if (0 <? i) && ((fromRight && (Z.rem pos group =? 0)) || (negb fromRight && (Z.rem i group =? 0)))
       then [sep] else []) ++ hexPair c ++ hexSepLoop fromRight group n sep (i + 1) rest
  end.

Definition hexWithSep (data : list Z) (sep bps : Z) : list Z :=
  if (bps =? 0) || Nat.eqb (length data) 0 then hexlify data
  else
    let group := if bps <? 0 then wrap64 (- bps) else bps in
    hexSepLoop (0 <? bps) group (Z.of_nat (length data)) sep 0 data.

Definition hexVal (c : Z) : option Z :=
  if (48 <=? c) && (c <=? 57) then Some (c - 48)
  else if (97 <=? c) && (c <=? 102) then Some (c - 97 + 10)
  else if (65 <=? c) && (c <=? 70) then Some (c - 65 + 10)
  else None.

Fixpoint unhexPairs (data : list Z) : list Z + string :=
  match data with
  | a :: b :: rest =>
      match hexVal a, hexVal b with
      | Some hi, Some lo =>
          match unhexPairs rest with inl out => inl (u8 (hi << 4) .| lo :: out) | e => e end
      | _, _ => inr "Non-hexadecimal digit found"
      end
  | _ => inl []
  end.

(** [binasciiUnhexlify]. *)
Definition unhexlify (data : list Z) : list Z + string :=
  if negb (Nat.even (length data)) then inr "Odd-length string" else unhexPairs data.

(** ** Base64 *)

Definition base64Alphabet : list Z :=
  bytesOf "ABCDEFGHIJKLMNOPQRSTUVWXYZabcdefghijklmnopqrstuvwxyz0123456789+/".

(** [buildBase64Reverse]: the position of the byte in the alphabet, or 0xff. *)
Fixpoint reverseFrom (i : Z) (t : list Z) (c : Z) : Z :=
  match t with [] => 255 | x :: t => if x =? c then i else reverseFrom (i + 1) t c end.

Definition base64Reverse (c : Z) : Z := reverseFrom 0 base64Alphabet c.

(** The inner loop of the encoders: whole 6-bit groups leave the accumulator. *)
Fixpoint drain (enc : Z -> Z) (fuel : nat) (leftchar leftbits : Z) : list Z * Z :=
  match fuel with
  | O => ([], leftbits)
  | S fuel =>
      if 6 <=? leftbits then
        let this := (leftchar >> (leftbits - 6)) .& 63 in
        let r := drain enc fuel leftchar (leftbits - 6) in (enc this :: r.1, r.2)
      else ([], leftbits)
  end.

(** One byte into the 64-bit accumulator, then the groups that are whole. *)
Definition feed (enc : Z -> Z) (leftchar leftbits b : Z) : list Z * Z * Z :=
  let leftchar := wrap64 (leftchar << 8) .| b in
  let r := drain enc (Z.to_nat (leftbits + 8)) leftchar (leftbits + 8) in
  (r.1, leftchar, r.2).

Definition base64Char (i : Z) : Z := at_ base64Alphabet i.
Definition pad : Z := 61.

Fixpoint b2aLoop (data : list Z) (leftchar leftbits : Z) : list Z :=
  match data with
  | [] =>
      if leftbits =? 2 then [base64Char ((leftchar .& 3) << 4); pad; pad]
      else if leftbits =? 4 then [base64Char ((leftchar .& 15) << 2); pad]
      else []
  | b :: rest =>
      let '(out, leftchar, leftbits) := feed base64Char leftchar leftbits b in
      out ++ b2aLoop rest leftchar leftbits
  end.

(** [binasciiB2aBase64]. *)
Definition b2a_base64 (nl : bool) (data : list Z) : list Z :=
  b2aLoop data 0 0 ++ (if nl then [newline] else []).

(** The decoder's loop; its end is the position in the quad, the pads in a row
    and the bytes so far (in reverse), or an error. *)
Fixpoint a2bLoop (strict : bool) (i : Z) (data : list Z) (quadPos leftchar pads : Z) (out : list Z) :
    (Z * Z * list Z) + string :=
  match data with
  | [] => inl (quadPos, pads, out)
  | ch :: rest =>
      if ch =? pad then
        let pads := pads + 1 in
        if (2 <=? quadPos) && (quadPos + pads <=? 4) then a2bLoop strict (i + 1) rest quadPos leftchar pads out
        else if negb strict then a2bLoop strict (i + 1) rest quadPos leftchar pads out
        else if quadPos =? 1 then inl (quadPos, pads, out)
        else if (quadPos =? 0) && (i =? 0) then inr "Leading padding not allowed"
        else inr "Excess padding not allowed"
      else
        let v := base64Reverse ch in
        if 64 <=? v then
          if strict then inr "Only base64 data is allowed"
          else a2bLoop strict (i + 1) rest quadPos leftchar pads out
        else if negb (pads =? 0) && strict then
          if quadPos + pads =? 4 then inr "Excess data after padding"
          else inr "Discontinuous padding not allowed"
        else
          let next := a2bLoop strict (i + 1) rest in
          if quadPos =? 0 then next 1 v 0 out
          else if quadPos =? 1 then next 2 (v .& 15) 0 (u8 (leftchar << 2) .| (v >> 4) :: out)
          else if quadPos =? 2 then next 3 (v .& 3) 0 (u8 (leftchar << 4) .| (v >> 2) :: out)
          else next 0 0 0 (u8 (leftchar << 6) .| v :: out)
  end.

Definition oneMore (n : Z) : string :=
  "Invalid base64-encoded string: number of data characters (" +:+ itoa (n / 3 * 4 + 1) +:+
  ") cannot be 1 more than a multiple of 4".

(** [binasciiA2bBase64]. *)
Definition a2b_base64 (strict : bool) (data : list Z) : list Z + string :=
  match a2bLoop strict 0 data 0 0 0 [] with
  | inr e => inr e
  | inl (quadPos, pads, out) =>
      if quadPos =? 1 then inr (oneMore (Z.of_nat (length out)))
      else if negb (quadPos =? 0) && (quadPos + pads <? 4) then inr "Incorrect padding"
      else inl (rev out)
  end.

(** ** Uuencode *)

Definition space : Z := 32.
Definition tick : Z := 96.

Definition uuChar (backtick : bool) (this : Z) : Z :=
  if backtick && (this =? 0) then tick else u8 (this + space).

(** The groups, the last one filled up with zero bits. *)
Fixpoint uuLoop (fuel : nat) (backtick : bool) (data : list Z) (leftchar leftbits : Z) : list Z :=
  match fuel with
  | O => []
  | S fuel =>
      match data with
      | [] =>
          if leftbits =? 0 then []
          else
            let '(out, leftchar, leftbits) := feed (uuChar backtick) leftchar leftbits 0 in
            out ++ uuLoop fuel backtick [] leftchar leftbits
      | b :: rest =>
          let '(out, leftchar, leftbits) := feed (uuChar backtick) leftchar leftbits b in
          out ++ uuLoop fuel backtick rest leftchar leftbits
      end
  end.

(** [binasciiB2aUu]. *)
Definition b2a_uu (backtick : bool) (data : list Z) : list Z + string :=
  let n := Z.of_nat (length data) in
  if 45 <? n then inr "At most 45 bytes at once"
  else inl ((if backtick && (n =? 0) then tick else u8 (space + (n .& 63))) ::
            uuLoop (length data + 3) backtick data 0 0 ++ [newline]).

(** The value of one character of a line. *)
Definition uuVal (ch : Z) : option Z :=
  if (ch =? newline) || (ch =? carriage) then Some 0
  else if (ch <? space) || (space + 64 <? ch) then None
  else Some (u8 (ch - space) .& 63).

(** Decode until the length is reached; the rest of the line and the bytes in
    reverse. *)
Fixpoint uuDecode (fuel : nat) (binLen : Z) (data : list Z) (leftchar leftbits : Z) (out : list Z) :
    (list Z * list Z) + string :=
  if Z.of_nat (length out) <? binLen then
    match fuel with
    | O => inr ""
    | S fuel =>
        match (match data with [] => Some 0 | ch :: _ => uuVal ch end) with
        | None => inr "Illegal char"
        | Some this =>
            let leftchar := wrap64 (leftchar << 6) .| this in
            let leftbits := leftbits + 6 in
            if 8 <=? leftbits then
              let leftbits := leftbits - 8 in
              uuDecode fuel binLen (tail data) (leftchar .& (1 << leftbits - 1)) leftbits
                ((leftchar >> leftbits) .& 255 :: out)
            else uuDecode fuel binLen (tail data) leftchar leftbits out
        end
    end
  else inl (data, out).

Definition uuTrailing (ch : Z) : bool :=
  (ch =? space) || (ch =? space + 64) || (ch =? newline) || (ch =? carriage).

(** [binasciiA2bUu]; two groups per byte are more than enough fuel. *)
Definition a2b_uu (data : list Z) : list Z + string :=
  match data with
  | [] => inr "Missing length byte"
  | c :: rest =>
      let binLen := u8 (c - space) .& 63 in
      match uuDecode (Z.to_nat (2 * binLen)) binLen rest 0 0 [] with
      | inr e => inr e
      | inl (rest, out) => if forallb uuTrailing rest then inl (rev out) else inr "Trailing garbage"
      end
  end.

(** ** HQX checksum *)

Definition u16 (z : Z) : Z := z mod 65536.

Definition crcBit (crc : Z) : Z :=
  if negb (crc .& 32768 =? 0) then Z.lxor (u16 (crc << 1)) 4129 else u16 (crc << 1).

Definition crcByte (crc b : Z) : Z := Nat.iter 8 crcBit (Z.lxor crc (u16 (b << 8))).

(** [binasciiCRCHqx]. *)
Definition crc_hqx (data : list Z) (v : Z) : Z := fold_left crcByte data (u16 v).

(** ** Hex round trip *)

Lemma hexPair_val c : isByte c ->
  exists a b, hexPair c = [a; b] /\ hexVal a = Some (c / 16) /\ hexVal b = Some (c mod 16).
Proof.
  intros Hc. pose (P := fun c => bool_decide (hexVal (at_ hexDigits (c >> 4)) = Some (c / 16)) &&
    bool_decide (hexVal (at_ hexDigits (c .& 15)) = Some (c mod 16))).
  assert (P c = true) as H by (apply (forall_upto P 256); [vm_compute; reflexivity|done]). unfold P in H.
  apply andb_true_iff in H as [H1%bool_decide_eq_true H2%bool_decide_eq_true]. by do 2 eexists.
Qed.

Lemma hexlify_length data : length (hexlify data) = (2 * length data)%nat.
Proof. unfold hexlify. induction data as [|c data IH]; [done|]. simpl. rewrite IH. lia. Qed.

Lemma u8_or x k y : 0 <= k -> 0 <= y < 2 ^ k -> 0 <= x * 2 ^ k < 256 -> u8 (x << k) .| y = x * 2 ^ k + y.
Proof.
  intros Hk Hy Hx. unfold u8. rewrite Z.mod_small by by rewrite Z.shiftl_mul_pow2. by apply shl_or.
Qed.

Lemma nibbles c : isByte c -> u8 ((c / 16) << 4) .| (c mod 16) = c.
Proof.
  unfold isByte. intros Hc. rewrite u8_or; change (2 ^ 4) with 16; dlia.
Qed.

(** Decoding the hex of any bytes gives the bytes back. *)
Theorem unhexlify_hexlify data : Forall isByte data -> unhexlify (hexlify data) = inl data.
Proof.
  intros H. unfold unhexlify. rewrite hexlify_length, Nat.even_mul. simpl.
  induction H as [|c data Hc H IH]; [done|]. destruct (hexPair_val c Hc) as (a & b & Ep & Ea & Eb).
  change (hexlify (c :: data)) with (hexPair c ++ hexlify data). rewrite Ep. simpl. rewrite Ea, Eb, IH. by rewrite nibbles.
Qed.

Lemma unhexlify_hexlify_witness : unhexlify (hexlify [0; 127; 255]) = inl [0; 127; 255].
Proof. apply unhexlify_hexlify. by repeat constructor. Defined.

(** ** The accumulator *)

(** Feeding a byte keeps the pending bits above it. *)
Lemma acc_low lc k b : 0 <= k <= 56 -> isByte b -> (wrap64 (lc << 8) .| b) mod 2 ^ (k + 8) = lc mod 2 ^ k * 256 + b.
Proof.
  intros Hk Hb. destruct (wrap64_congr (lc << 8)) as [m ->].
  replace (lc << 8 + m * 2 ^ 64) with ((lc + m * 2 ^ 56) << 8)
    by (rewrite !Z.shiftl_mul_pow2 by done; change (2 ^ 64) with (2 ^ 56 * 2 ^ 8); ring).
  rewrite shl_or by done. change (2 ^ 8) with 256. rewrite Z.pow_add_r by lia. change (2 ^ 8) with 256.
  assert (0 < 2 ^ k) by (apply Z.pow_pos_nonneg; lia).
  assert ((lc + m * 2 ^ 56) mod 2 ^ k = lc mod 2 ^ k) as Hlow.
  { replace (2 ^ 56) with (2 ^ (56 - k) * 2 ^ k) by (rewrite <- Z.pow_add_r by lia; f_equal; lia).
    rewrite Z.mul_assoc. apply Z.mod_add. lia. }
  rewrite <- Hlow. generalize (lc + m * 2 ^ 56). intros y.
  rewrite Z.mul_comm, (Z.mul_comm (2 ^ k)), Z.rem_mul_r by lia.
  unfold isByte in Hb. rewrite (Z.mul_comm 256 y), Z.div_add_l, (Z.div_small b), Z.add_0_r by lia.
  rewrite (Z.add_comm (y * 256)), Z.mod_add, Z.mod_small by lia. lia.
Qed.

(** A group of six bits taken out of the accumulator. *)
Lemma group_low y s k : 0 <= s -> s + 6 <= k -> (y >> s) .& 63 = ((y mod 2 ^ k) / 2 ^ s) mod 64.
Proof.
  intros Hs Hk. rewrite shr_div by done. change 63 with (2 ^ 6 - 1). rewrite and_mod by done.
  change 64 with (2 ^ 6). by apply div_mod_low.
Qed.

Lemma drain_stop enc fuel lc lb : lb < 6 -> drain enc fuel lc lb = ([], lb).
Proof. intros H. destruct fuel; [done|]. simpl. by rewrite (proj2 (Z.leb_gt 6 lb)). Qed.

Lemma drain_go enc fuel lc lb :
  6 <= lb -> drain enc (S fuel) lc lb =
    (enc ((lc >> (lb - 6)) .& 63) :: (drain enc fuel lc (lb - 6)).1, (drain enc fuel lc (lb - 6)).2).
Proof. intros H. simpl. by rewrite (proj2 (Z.leb_le 6 lb)). Qed.

Section Feed.
Context (enc : Z -> Z) (lc b : Z) (Hb : isByte b).

Lemma feed_0 : exists lc', feed enc lc 0 b = ([enc (b / 4)], lc', 2) /\ lc' mod 4 = b mod 4.
Proof.
  pose proof (acc_low lc 0 b ltac:(lia) Hb) as H. rewrite Z.mod_1_r in H. simpl in H.
  unfold feed. set (y := wrap64 (lc << 8) .| b) in *. exists y. change (2 ^ (0 + 8)) with 256 in H. split.
  - change (Z.to_nat (0 + 8)) with 8%nat. rewrite drain_go, drain_stop by lia. cbn [fst snd].
    rewrite (group_low y (0 + 8 - 6) 8) by lia. change (2 ^ 8) with 256. rewrite H. change (2 ^ (0 + 8 - 6)) with 4.
    unfold isByte in Hb. by rewrite (Z.mod_small (b / 4)) by dlia.
  - unfold isByte in Hb. dlia.
Qed.

Lemma feed_2 p : lc mod 4 = p -> exists lc', feed enc lc 2 b = ([enc (p * 16 + b / 16)], lc', 4) /\ lc' mod 16 = b mod 16.
Proof.
  intros Hp. pose proof (acc_low lc 2 b ltac:(lia) Hb) as H. change (2 ^ 2) with 4 in H. rewrite Hp in H.
  unfold feed. set (y := wrap64 (lc << 8) .| b) in *. exists y. change (2 ^ (2 + 8)) with 1024 in H.
  assert (0 <= p < 4) by (subst; dlia). unfold isByte in Hb. split.
  - change (Z.to_nat (2 + 8)) with 10%nat. rewrite drain_go, drain_stop by lia. cbn [fst snd].
    rewrite (group_low y (2 + 8 - 6) 10) by lia. change (2 ^ 10) with 1024. rewrite H.
    change (2 ^ (2 + 8 - 6)) with 16. do 3 f_equal. f_equal. dlia.
  - dlia.
Qed.

Lemma feed_4 p : lc mod 16 = p ->
  exists lc', feed enc lc 4 b = ([enc (p * 4 + b / 64); enc (b mod 64)], lc', 0).
Proof.
  intros Hp. pose proof (acc_low lc 4 b ltac:(lia) Hb) as H. change (2 ^ 4) with 16 in H. rewrite Hp in H.
  unfold feed. set (y := wrap64 (lc << 8) .| b) in *. exists y. change (2 ^ (4 + 8)) with 4096 in H.
  assert (0 <= p < 16) by (subst; dlia). unfold isByte in Hb.
  change (Z.to_nat (4 + 8)) with 12%nat. rewrite !drain_go, drain_stop by lia. cbn [fst snd].
  rewrite (group_low y (4 + 8 - 6) 12), (group_low y (4 + 8 - 6 - 6) 12) by lia. change (2 ^ 12) with 4096. rewrite H.
  change (2 ^ (4 + 8 - 6)) with 64. change (2 ^ (4 + 8 - 6 - 6)) with 1. do 2 f_equal.
  repeat (f_equal; try dlia).
Qed.
End Feed.

(** ** Base64 round trip *)

Lemma base64_char v : 0 <= v < 64 -> base64Reverse (base64Char v) = v /\ (base64Char v =? pad) = false.
Proof.
  intros Hv. pose (P := fun v => (base64Reverse (base64Char v) =? v) && negb (base64Char v =? pad)).
  assert (P v = true) as H by (apply (forall_upto P 64); [vm_compute; reflexivity|done]). unfold P in H.
  apply andb_true_iff in H as [H1%Z.eqb_eq H2%negb_true_iff]. done.
Qed.

(** One character of data, no padding before it. *)
Lemma a2b_char strict i v rest q lc out :
  0 <= v < 64 ->
  a2bLoop strict i (base64Char v :: rest) q lc 0 out =
  (if q =? 0 then a2bLoop strict (i + 1) rest 1 v 0 out
   else if q =? 1 then a2bLoop strict (i + 1) rest 2 (v .& 15) 0 (u8 (lc << 2) .| (v >> 4) :: out)
   else if q =? 2 then a2bLoop strict (i + 1) rest 3 (v .& 3) 0 (u8 (lc << 4) .| (v >> 2) :: out)
   else a2bLoop strict (i + 1) rest 0 0 0 (u8 (lc << 6) .| v :: out)).
Proof.
  intros Hv. destruct (base64_char v Hv) as [Hr Hp]. cbn [a2bLoop]. rewrite Hp, Hr.
  by rewrite (proj2 (Z.leb_gt 64 v)) by lia.
Qed.

Lemma byte_12 a p : isByte a -> 0 <= p < 16 -> u8 ((a / 4) << 2) .| ((a mod 4 * 16 + p) >> 4) = a.
Proof.
  unfold isByte. intros Ha Hp. rewrite shr_div by done. change (2 ^ 4) with 16. rewrite u8_or; change (2 ^ 2) with 4; dlia.
Qed.

Lemma byte_23 b q p : isByte b -> 0 <= p < 4 -> q = b / 16 -> u8 (q << 4) .| ((b mod 16 * 4 + p) >> 2) = b.
Proof.
  unfold isByte. intros Ha Hp ->. rewrite shr_div by done. change (2 ^ 2) with 4. rewrite u8_or; change (2 ^ 4) with 16; dlia.
Qed.

Lemma byte_34 c q : isByte c -> q = c / 64 -> u8 (q << 6) .| (c mod 64) = c.
Proof. unfold isByte. intros Hc ->. rewrite u8_or; change (2 ^ 6) with 64; dlia. Qed.

(** The first characters of the code of one, two or three bytes. *)
Lemma a2b_one strict i a p rest out : isByte a -> 0 <= p < 16 ->
  a2bLoop strict i (base64Char (a / 4) :: base64Char (a mod 4 * 16 + p) :: rest) 0 0 0 out =
  a2bLoop strict (i + 2) rest 2 p 0 (a :: out).
Proof.
  intros Ha Hp. assert (0 <= a / 4 < 64) by (unfold isByte in *; dlia).
  assert (0 <= a mod 4 * 16 + p < 64) by (unfold isByte in *; dlia).
  rewrite !a2b_char by done. simpl Z.eqb. cbv iota. rewrite byte_12 by done.
  change 15 with (2 ^ 4 - 1). rewrite and_mod by done. change (2 ^ 4) with 16.
  f_equal; [lia|dlia].
Qed.

Lemma a2b_two strict i b p rest out : isByte b -> 0 <= p < 4 ->
  a2bLoop strict i (base64Char (b mod 16 * 4 + p) :: rest) 2 (b / 16) 0 out =
  a2bLoop strict (i + 1) rest 3 p 0 (b :: out).
Proof.
  intros Hb Hp. assert (0 <= b mod 16 * 4 + p < 64) by (unfold isByte in *; dlia).
  rewrite a2b_char by done. simpl Z.eqb. cbv iota. rewrite byte_23 by done.
  change 3 with (2 ^ 2 - 1) at 2. rewrite and_mod by done. change (2 ^ 2) with 4. f_equal. dlia.
Qed.

Lemma a2b_three strict i c rest out : isByte c ->
  a2bLoop strict i (base64Char (c mod 64) :: rest) 3 (c / 64) 0 out = a2bLoop strict (i + 1) rest 0 0 0 (c :: out).
Proof.
  intros Hc. rewrite a2b_char by (unfold isByte in *; dlia). simpl Z.eqb. cbv iota. by rewrite byte_34.
Qed.

(** Padding after a partial group, then at most a newline that is skipped. *)
Definition tailOK (strict : bool) (rest : list Z) : Prop := rest = [] \/ (rest = [newline] /\ strict = false).

Lemma b2a_a2b strict rest data : tailOK strict rest -> Forall isByte data -> forall i lc out,
  exists q pads, a2bLoop strict i (b2aLoop data lc 0 ++ rest) 0 0 0 out = inl (q, pads, rev data ++ out) /\
    q <> 1 /\ (q = 0 \/ q + pads = 4).
Proof.
  intros Hrest. revert data. fix IH 1. intros data Hd i lc out.
  assert (forall q pads i out lc, (q = 0 \/ q + pads = 4) -> q <> 1 -> exists q' pads',
    a2bLoop strict i rest q lc pads out = inl (q', pads', out) /\ q' <> 1 /\ (q' = 0 \/ q' + pads' = 4)) as Hend.
  { clear -Hrest. intros q pads i out lc Hq Hn. exists q, pads. split; [|done].
    destruct Hrest as [->|[-> ->]]; [done|]. reflexivity. }
  destruct data as [|a data]; [by apply Hend; [left|]|].
  inversion Hd as [|? ? Ha Hd1]; subst. cbn [b2aLoop].
  destruct (feed_0 base64Char lc a Ha) as (lc1 & -> & H1).
  destruct data as [|b data].
  { cbn [b2aLoop app]. simpl Z.eqb. cbv iota.
    replace ((lc1 .& 3) << 4) with (a mod 4 * 16 + 0).
    2: { change 3 with (2 ^ 2 - 1). rewrite and_mod, Z.shiftl_mul_pow2 by done. change (2 ^ 2) with 4. rewrite H1. lia. }
    cbn [app]. rewrite a2b_one by (done || lia). cbn [a2bLoop]. simpl. apply Hend; lia. }
  inversion Hd1 as [|? ? Hb Hd2]; subst. cbn [b2aLoop].
  destruct (feed_2 base64Char lc1 b Hb (a mod 4) H1) as (lc2 & -> & H2).
  destruct data as [|c data].
  { cbn [b2aLoop app]. simpl Z.eqb. cbv iota. unfold isByte in Ha, Hb.
    replace ((lc2 .& 15) << 2) with (b mod 16 * 4 + 0).
    2: { change 15 with (2 ^ 4 - 1). rewrite and_mod, Z.shiftl_mul_pow2 by done. change (2 ^ 4) with 16. rewrite H2. lia. }
    cbn [app]. rewrite a2b_one, a2b_two by (done || dlia). cbn [a2bLoop]. simpl. apply Hend; lia. }
  inversion Hd2 as [|? ? Hc Hd3]; subst. cbn [b2aLoop].
  destruct (feed_4 base64Char lc2 c Hc (b mod 16) H2) as (lc3 & ->).
  cbn [app]. unfold isByte in Ha, Hb, Hc. rewrite a2b_one, a2b_two, a2b_three by (done || dlia).
  destruct (IH data Hd3 (i + 2 + 1 + 1) lc3 (c :: b :: a :: out)) as (q & pads & E & Hq).
  exists q, pads. split; [|done]. rewrite E. do 2 f_equal. simpl. by rewrite <- !app_assoc.
Qed.

(** C31: decoding the base64 of any bytes gives the bytes back, in strict mode
    (where the encoder's courtesy newline is left off) and in the lenient one,
    for data of any length although the encoder's 64-bit accumulator wraps. *)
Theorem a2b_b2a_base64 strict nl data :
  Forall isByte data -> strict && nl = false -> a2b_base64 strict (b2a_base64 nl data) = inl data.
Proof.
  intros Hd Hs. unfold a2b_base64, b2a_base64.
  destruct (b2a_a2b strict (if nl then [newline] else []) data) with (i := 0) (lc := 0) (out := @nil Z)
    as (q & pads & -> & Hq & Hp); [|done|].
  - destruct nl; [|by left]. right. by destruct strict.
  - rewrite (proj2 (Z.eqb_neq q 1)) by done. rewrite app_nil_r, rev_involutive.
    destruct Hp as [-> | Hp]; [done|]. rewrite (proj2 (Z.ltb_ge (q + pads) 4)) by lia. by rewrite andb_false_r.
Qed.

Lemma a2b_b2a_base64_witness :
  a2b_base64 false (b2a_base64 true (repeat 255 20)) = inl (repeat 255 20).
Proof. apply a2b_b2a_base64; [by repeat constructor|reflexivity]. Defined.

(** ** Uuencode round trip *)

Lemma uu_char bt v : 0 <= v < 64 -> uuVal (uuChar bt v) = Some v.
Proof.
  intros Hv. pose (P := fun v => bool_decide (uuVal (uuChar true v) = Some v) && bool_decide (uuVal (uuChar false v) = Some v)).
  assert (P v = true) as H by (apply (forall_upto P 64); [vm_compute; reflexivity|done]). unfold P in H.
  apply andb_true_iff in H as [H1%bool_decide_eq_true H2%bool_decide_eq_true]. by destruct bt.
Qed.

Section UuStep.
Context (bt : bool) (n : Z) (fuel : nat) (v : Z) (rest out : list Z).
Context (Hv : 0 <= v < 64) (Hn : Z.of_nat (length out) < n).

(** A group that does not complete a byte. *)
Lemma uu_start : uuDecode (S fuel) n (uuChar bt v :: rest) 0 0 out = uuDecode fuel n rest v 6 out.
Proof.
  cbn [uuDecode]. rewrite (proj2 (Z.ltb_lt _ n)), uu_char by done.
  rewrite wrap64_small, shl_or by done. simpl. done.
Qed.

(** A group that completes one, [lb] bits staying behind. *)
Lemma uu_more lc lb : 2 <= lb <= 6 -> 0 <= lc < 2 ^ lb ->
  uuDecode (S fuel) n (uuChar bt v :: rest) lc lb out =
  uuDecode fuel n rest ((lc * 64 + v) mod 2 ^ (lb - 2)) (lb - 2) (((lc * 64 + v) / 2 ^ (lb - 2)) mod 256 :: out).
Proof.
  intros Hb Hlc. cbn [uuDecode]. rewrite (proj2 (Z.ltb_lt _ n)), uu_char by done.
  assert (2 ^ lb <= 2 ^ 6) by (apply Z.pow_le_mono_r; lia).
  assert (in64 (lc << 6) = true) as Hin.
  { apply in64_spec. rewrite Z.shiftl_mul_pow2 by done. unfold MinInt64, MaxInt64. lia. }
  rewrite wrap64_small, shl_or by done. rewrite (proj2 (Z.leb_le 8 (lb + 6))) by lia.
  replace (lb + 6 - 8) with (lb - 2) by lia. rewrite (Z.shiftl_mul_pow2 1), Z.mul_1_l, and_mod, shr_div by lia.
  change 255 with (2 ^ 8 - 1). rewrite and_mod by done. done.
Qed.
End UuStep.

(** The fill of the last group is what may follow the data. *)
Lemma uuChar_fill bt : uuTrailing (uuChar bt 0) = true.
Proof. by destruct bt. Qed.

Lemma uuLoop_end fuel bt lc : uuLoop (S fuel) bt [] lc 0 = [].
Proof. done. Qed.

Lemma uuDecode_done fuel rest lc lb out :
  uuDecode fuel (Z.of_nat (length out)) rest lc lb out = inl (rest, out).
Proof. destruct fuel; simpl; by rewrite Z.ltb_irrefl. Qed.

Section UuBytes.
Context (bt : bool) (n : Z) (fuel : nat) (rest out : list Z).

Lemma uu_one a p : isByte a -> 0 <= p < 16 -> Z.of_nat (length out) < n ->
  uuDecode (S (S fuel)) n (uuChar bt (a / 4) :: uuChar bt (a mod 4 * 16 + p) :: rest) 0 0 out =
  uuDecode fuel n rest p 4 (a :: out).
Proof.
  unfold isByte. intros Ha Hp Hn. rewrite uu_start by (done || dlia).
  rewrite uu_more by (try change (2 ^ 6) with 64; done || dlia).
  change (2 ^ (6 - 2)) with 16. change (6 - 2) with 4. f_equal; [dlia|]. f_equal. dlia.
Qed.

Lemma uu_two b p : isByte b -> 0 <= p < 4 -> Z.of_nat (length out) < n ->
  uuDecode (S fuel) n (uuChar bt (b mod 16 * 4 + p) :: rest) (b / 16) 4 out = uuDecode fuel n rest p 2 (b :: out).
Proof.
  unfold isByte. intros Hb Hp Hn. rewrite uu_more by (try change (2 ^ 4) with 16; done || dlia).
  change (2 ^ (4 - 2)) with 4. change (4 - 2) with 2. f_equal; [dlia|]. f_equal. dlia.
Qed.

Lemma uu_three c : isByte c -> Z.of_nat (length out) < n ->
  uuDecode (S fuel) n (uuChar bt (c mod 64) :: rest) (c / 64) 2 out = uuDecode fuel n rest 0 0 (c :: out).
Proof.
  unfold isByte. intros Hc Hn. rewrite uu_more by (try change (2 ^ 2) with 4; done || dlia).
  change (2 ^ (2 - 2)) with 1. change (2 - 2) with 0. f_equal; [dlia|]. f_equal. dlia.
Qed.
End UuBytes.

(** The characters of the last, partial group. *)
Lemma uu_fill1 fuel bt a lc :
  isByte a -> uuLoop (4 + fuel) bt [a] lc 0 = [uuChar bt (a / 4); uuChar bt (a mod 4 * 16 + 0); uuChar bt 0; uuChar bt 0].
Proof.
  intros Ha. cbn [Nat.add uuLoop]. destruct (feed_0 (uuChar bt) lc a Ha) as (lc1 & -> & H1). simpl Z.eqb. cbv iota.
  destruct (feed_2 (uuChar bt) lc1 0 ltac:(done) _ H1) as (lc2 & -> & H2). simpl Z.eqb. cbv iota.
  destruct (feed_4 (uuChar bt) lc2 0 ltac:(done) _ H2) as (lc3 & ->). done.
Qed.

Lemma uu_fill2 fuel bt a b lc :
  isByte a -> isByte b -> uuLoop (4 + fuel) bt [a; b] lc 0 =
    [uuChar bt (a / 4); uuChar bt (a mod 4 * 16 + b / 16); uuChar bt (b mod 16 * 4 + 0); uuChar bt 0].
Proof.
  intros Ha Hb. cbn [Nat.add uuLoop]. destruct (feed_0 (uuChar bt) lc a Ha) as (lc1 & -> & H1).
  destruct (feed_2 (uuChar bt) lc1 b Hb _ H1) as (lc2 & -> & H2). simpl Z.eqb. cbv iota.
  destruct (feed_4 (uuChar bt) lc2 0 ltac:(done) _ H2) as (lc3 & ->). done.
Qed.

Lemma uu_full fuel bt a b c data lc : isByte a -> isByte b -> isByte c -> exists lc',
  uuLoop (3 + fuel) bt (a :: b :: c :: data) lc 0 =
    [uuChar bt (a / 4); uuChar bt (a mod 4 * 16 + b / 16); uuChar bt (b mod 16 * 4 + c / 64); uuChar bt (c mod 64)] ++
    uuLoop fuel bt data lc' 0.
Proof.
  intros Ha Hb Hc. cbn [Nat.add uuLoop]. destruct (feed_0 (uuChar bt) lc a Ha) as (lc1 & -> & H1).
  destruct (feed_2 (uuChar bt) lc1 b Hb _ H1) as (lc2 & -> & H2).
  destruct (feed_4 (uuChar bt) lc2 c Hc _ H2) as (lc3 & ->). by exists lc3.
Qed.

Lemma uu_roundtrip bt rest : forallb uuTrailing rest = true -> forall data, Forall isByte data ->
  forall fuel dfuel n lc out, (length data + 3 <= fuel)%nat -> (2 * length data <= dfuel)%nat ->
  n = Z.of_nat (length out) + Z.of_nat (length data) ->
  exists rest', uuDecode dfuel n (uuLoop fuel bt data lc 0 ++ rest) 0 0 out = inl (rest', rev data ++ out) /\
    forallb uuTrailing rest' = true.
Proof.
  intros Hrest. fix IH 1. intros data Hd fuel dfuel n lc out Hf Hdf ->.
  destruct data as [|a data].
  { exists rest. split; [|done]. destruct fuel as [|fuel]; [simpl in Hf; lia|]. simpl. rewrite Z.add_0_r. apply uuDecode_done. }
  inversion Hd as [|? ? Ha Hd1]; subst. destruct data as [|b data].
  { destruct fuel as [|[|[|[|fuel]]]]; try (simpl in Hf; lia). destruct dfuel as [|[|dfuel]]; try (simpl in Hdf; lia).
    change (S (S (S (S fuel)))) with (4 + fuel)%nat. rewrite uu_fill1 by done. cbn [app].
    rewrite uu_one by (done || simpl; lia). exists (uuChar bt 0 :: uuChar bt 0 :: rest).
    split; [|cbn [forallb]; by rewrite uuChar_fill, Hrest].
    replace (Z.of_nat (length out) + Z.of_nat (length [a])) with (Z.of_nat (length (a :: out))) by (simpl; lia).
    apply uuDecode_done. }
  inversion Hd1 as [|? ? Hb Hd2]; subst. pose proof Hb as Hb'. unfold isByte in Hb'. destruct data as [|c data].
  { destruct fuel as [|[|[|[|fuel]]]]; try (simpl in Hf; lia). destruct dfuel as [|[|[|dfuel]]]; try (simpl in Hdf; lia).
    change (S (S (S (S fuel)))) with (4 + fuel)%nat. rewrite uu_fill2 by done. cbn [app].
    rewrite uu_one, uu_two by (done || (simpl; lia) || dlia). exists (uuChar bt 0 :: rest).
    split; [|cbn [forallb]; by rewrite uuChar_fill, Hrest].
    replace (Z.of_nat (length out) + Z.of_nat (length [a; b])) with (Z.of_nat (length (b :: a :: out))) by (simpl; lia).
    apply uuDecode_done. }
  inversion Hd2 as [|? ? Hc Hd3]; subst. pose proof Hc as Hc'. unfold isByte in Hc'.
  destruct fuel as [|[|[|fuel]]]; try (simpl in Hf; lia). destruct dfuel as [|[|[|[|dfuel]]]]; try (simpl in Hdf; lia).
  change (S (S (S fuel))) with (3 + fuel)%nat. destruct (uu_full fuel bt a b c data lc Ha Hb Hc) as [lc' ->]. cbn [app].
  rewrite uu_one, uu_two, uu_three by (done || (simpl; lia) || dlia).
  destruct (IH data Hd3 fuel dfuel (Z.of_nat (length out) + Z.of_nat (length (a :: b :: c :: data))) lc' (c :: b :: a :: out))
    as (rest' & E & Hr); [simpl in *; lia|simpl in *; lia|simpl; lia|].
  exists rest'. split; [|done]. rewrite E. simpl. by rewrite <- !app_assoc.
Qed.

(** A line of at most 45 bytes decodes to those bytes, whether zero groups
    are written as spaces or as backticks; longer data is refused. *)
Theorem a2b_b2a_uu bt data :
  Forall isByte data ->
  match b2a_uu bt data with
  | inl line => a2b_uu line = inl data
  | inr e => (45 < length data)%nat /\ e = "At most 45 bytes at once"
  end.
Proof.
  intros Hd. unfold b2a_uu. destruct (Z.ltb_spec 45 (Z.of_nat (length data))) as [Hl|Hl]; [split; [lia|done]|].
  unfold a2b_uu. set (c := if bt && _ then _ else _).
  assert (u8 (c - space) .& 63 = Z.of_nat (length data)) as ->.
  { pose (P := fun n => bool_decide (u8 ((if true && (n =? 0) then tick else u8 (space + (n .& 63))) - space) .& 63 = n) &&
      bool_decide (u8 ((if false && (n =? 0) then tick else u8 (space + (n .& 63))) - space) .& 63 = n)).
    assert (P (Z.of_nat (length data)) = true) as H by (apply (forall_upto P 46); [vm_compute; reflexivity|lia]).
    unfold P in H. apply andb_true_iff in H as [H1%bool_decide_eq_true H2%bool_decide_eq_true]. by destruct bt. }
  destruct (uu_roundtrip bt [newline]) with (data := data) (fuel := (length data + 3)%nat)
    (dfuel := Z.to_nat (2 * Z.of_nat (length data))) (n := Z.of_nat (length data)) (lc := 0) (out := @nil Z)
    as (rest & -> & Hr); [done|done|lia|lia|done|]. by rewrite Hr, app_nil_r, rev_involutive.
Qed.

Lemma a2b_b2a_uu_witness :
  match b2a_uu true [0; 200; 7; 255] with
  | inl line => a2b_uu line = inl [0; 200; 7; 255]
  | inr e => (45 < 4)%nat /\ e = "At most 45 bytes at once"
  end.
Proof. apply (a2b_b2a_uu true [0; 200; 7; 255]). by repeat constructor. Defined.
