(* ===== verification/Quopri.v ===== *)
(** * Quopri: the quoted-printable codec

    Model of the quoted-printable half of src/pkg/runtime/binasciimod.go over
    the bytes of its argument; a position in the input is the suffix from it. *)

From S2P Require Import Prelude Int64 Bytes Binascii.
Local Open Scope Z_scope.
Local Open Scope bits_scope.

Definition equals : Z := 61.
Definition underscore : Z := 95.
Definition tab : Z := 9.
Definition dot : Z := 46.

Definition qpMaxLineSize : Z := 76.

Definition qpToHex (ch : Z) : list Z :=
  let hex := bytesOf "0123456789ABCDEF" in [at_ hex (ch >> 4); at_ hex (ch .& 15)].

Definition qpIsHexDigit (ch : Z) : bool :=
  ((48 <=? ch) && (ch <=? 57)) || ((65 <=? ch) && (ch <=? 70)) || ((97 <=? ch) && (ch <=? 102)).

Definition qpHexValue (ch : Z) : Z :=
  if (48 <=? ch) && (ch <=? 57) then u8 (ch - 48)
  else if (97 <=? ch) && (ch <=? 102) then u8 (ch - 97 + 10)
  else u8 (ch - 65 + 10).

(** ** Decoding *)

(** Skip to the next newline. *)
Fixpoint toNewline (data : list Z) : list Z :=
  match data with
  | [] => []
  | c :: rest => if c =? newline then data else toNewline rest
  end.

(** [binasciiA2bQp]; every turn consumes a byte. *)
Fixpoint qpDecode (fuel : nat) (header : bool) (data : list Z) : list Z :=
  match fuel, data with
  | S fuel, c :: rest =>
      if c =? equals then
        match rest with
        | [] => []
        | d :: rest' =>
            if (d =? newline) || (d =? carriage) then
              qpDecode fuel header (tail (if d =? newline then rest else toNewline rest))
            else if d =? equals then equals :: qpDecode fuel header rest'
            else
              match rest' with
              | e :: rest'' =>
                  if qpIsHexDigit d && qpIsHexDigit e
                  then u8 (qpHexValue d << 4) .| qpHexValue e :: qpDecode fuel header rest''
                  else equals :: qpDecode fuel header rest
              | [] => equals :: qpDecode fuel header rest
              end
        end
      else if header && (c =? underscore) then space :: qpDecode fuel header rest
      else c :: qpDecode fuel header rest
  | _, _ => []
  end.

Definition a2b_qp (header : bool) (data : list Z) : list Z := qpDecode (length data) header data.

(** ** Encoding *)

(** [qpNeedsQuote] of the byte in front of [rest]. *)
Definition qpNeedsQuote (c : Z) (rest : list Z) (header istext quotetabs : bool) (linelen : Z) : bool :=
  if (126 <? c) || (c =? equals) then true
  else if header && (c =? underscore) then true
  else if (c =? dot) && (linelen =? 0) &&
          match rest with [] => true | d :: _ => (d =? newline) || (d =? carriage) || (d =? 0) end then true
  else if negb istext && ((c =? carriage) || (c =? newline)) then true
  else if ((c =? tab) || (c =? space)) && match rest with [] => true | _ => false end then true
  else (c <? 33) && negb (c =? carriage) && negb (c =? newline) &&
       (quotetabs || (negb (c =? tab) && negb (c =? space))).

(** A soft line break, reversed. *)
Definition softBreak (crlf : bool) : list Z := newline :: (if crlf then [carriage] else []) ++ [equals].

(** Quote a blank in front of a hard line break; [out] is reversed. *)
Definition quoteBlank (out : list Z) : list Z :=
  match out with
  | ch :: out' => if (ch =? space) || (ch =? tab) then rev (qpToHex ch) ++ equals :: out' else out
  | [] => []
  end.

(** The encoder's loop, the output reversed. *)
Fixpoint qpEncode (fuel : nat) (crlf header istext quotetabs : bool) (linelen : Z) (out data : list Z) : list Z :=
  match fuel, data with
  | S fuel, c :: rest =>
      let go := qpEncode fuel crlf header istext quotetabs in
      if qpNeedsQuote c rest header istext quotetabs linelen then
        let '(out, linelen) :=
          if qpMaxLineSize <=? linelen + 3 then (softBreak crlf ++ out, 0) else (out, linelen) in
        go (linelen + 3) (rev (qpToHex c) ++ equals :: out) rest
      else
        let crnl := match rest with d :: _ => (c =? carriage) && (d =? newline) | [] => false end in
        if istext && ((c =? newline) || crnl) then
          go 0 (newline :: (if crlf then [carriage] else []) ++ quoteBlank out)
            (if c =? carriage then tail rest else rest)
        else
          let '(out, linelen) :=
            if match rest with [] => false | d :: _ => negb (d =? newline) end && (qpMaxLineSize <=? linelen + 1)
            then (softBreak crlf ++ out, 0) else (out, linelen) in
          go (linelen + 1) ((if header && (c =? space) then underscore else c) :: out) rest
  | _, _ => out
  end.

(** The first newline comes after a carriage return. *)
Fixpoint firstCRLF (prev : Z) (data : list Z) : bool :=
  match data with
  | [] => false
  | c :: rest => if c =? newline then prev =? carriage else firstCRLF c rest
  end.

(** [binasciiB2aQp]. *)
Definition b2a_qp (quotetabs istext header : bool) (data : list Z) : list Z :=
  rev (qpEncode (length data) (firstCRLF 0 data) header istext quotetabs 0 [] data).

(** ** Fuel *)

Lemma toNewline_length data : (length (toNewline data) <= length data)%nat.
Proof. induction data as [|c data IH]; [done|]. simpl. destruct (c =? newline); simpl; lia. Qed.

Lemma qpDecode_fuel header data : forall f, (length data <= f)%nat -> qpDecode f header data = a2b_qp header data.
Proof.
  unfold a2b_qp. enough (forall n data f g, (length data <= n)%nat -> (length data <= f)%nat -> (length data <= g)%nat ->
    qpDecode f header data = qpDecode g header data) as H by (intros f Hf; by apply (H (length data))).
  induction n as [|n IH]; intros [|c rest] f g Hn Hf Hg; try (simpl in Hn; lia); try (by destruct f, g).
  destruct f as [|f]; [simpl in Hf; lia|]. destruct g as [|g]; [simpl in Hg; lia|]. simpl in Hn, Hf, Hg. cbn [qpDecode].
  destruct (c =? equals).
  - destruct rest as [|d rest']; [done|]. simpl in Hn, Hf, Hg.
    destruct (_ || _) eqn:E.
    + assert (length (tail (if (d =? newline)%Z then d :: rest' else toNewline (d :: rest'))) <= length rest')%nat as Hl.
      { destruct (d =? newline) eqn:En; [done|]. cbn [toNewline]. rewrite En. pose proof (toNewline_length rest').
        destruct (toNewline rest'); simpl in *; lia. }
      apply IH; lia.
    + destruct (d =? equals); [f_equal; apply IH; lia|].
      destruct rest' as [|e rest'']; [f_equal; apply IH; simpl in *; lia|]. simpl in *.
      destruct (_ && _); f_equal; apply IH; simpl; lia.
  - destruct (_ && _); f_equal; apply IH; lia.
Qed.

Lemma a2b_qp_plain header c rest :
  c =? equals = false -> header && (c =? underscore) = false -> a2b_qp header (c :: rest) = c :: a2b_qp header rest.
Proof. intros E1 E2. unfold a2b_qp. simpl. by rewrite E1, E2. Qed.

Lemma a2b_qp_blank rest : a2b_qp true (underscore :: rest) = space :: a2b_qp true rest.
Proof. done. Qed.

Lemma a2b_qp_soft crlf header rest : a2b_qp header (rev (softBreak crlf) ++ rest) = a2b_qp header rest.
Proof.
  assert (forall f, qpDecode (S f) header (rev (softBreak crlf) ++ rest) = qpDecode f header rest) as H
    by (intros f; by destruct crlf).
  rewrite <- (qpDecode_fuel _ (rev _ ++ rest) (S (length (rev (softBreak crlf) ++ rest)))) by lia.
  rewrite H. apply qpDecode_fuel. rewrite length_app. lia.
Qed.

Lemma a2b_qp_hex header c rest :
  isByte c -> a2b_qp header (equals :: qpToHex c ++ rest) = c :: a2b_qp header rest.
Proof.
  intros Hc. pose (P := fun c => match qpToHex c with
    | [d; e] => negb ((d =? newline) || (d =? carriage)) && negb (d =? equals) && qpIsHexDigit d && qpIsHexDigit e &&
        (u8 (qpHexValue d << 4) .| qpHexValue e =? c)
    | _ => false end).
  assert (P c = true) as H by (apply (forall_upto P 256); [vm_compute; reflexivity|done]). unfold P in H.
  destruct (qpToHex c) as [|d [|e []]]; try done. rewrite !andb_true_iff in H.
  destruct H as [[[[H1%negb_true_iff H2%negb_true_iff] H3] H4] H5%Z.eqb_eq]. cbn [app].
  assert (forall f, qpDecode (S f) header (equals :: d :: e :: rest) = c :: qpDecode f header rest) as H
    by (intros f; cbn [qpDecode]; by rewrite Z.eqb_refl, H1, H2, H3, H4, H5).
  rewrite <- (qpDecode_fuel _ (equals :: _) (S (length (equals :: d :: e :: rest)))) by lia.
  rewrite H. f_equal. apply qpDecode_fuel. simpl. lia.
Qed.

(** ** The binary round trip *)

(** The output so far is never changed when line breaks are data. *)
Lemma qpEncode_out fuel crlf header quotetabs : forall linelen out data,
  qpEncode fuel crlf header false quotetabs linelen out data =
  qpEncode fuel crlf header false quotetabs linelen [] data ++ out.
Proof.
  induction fuel as [|fuel IH]; intros linelen out [|c rest]; try done. cbn [qpEncode].
  destruct (qpNeedsQuote _ _ _ _ _ _).
  - destruct (_ <=? _); rewrite IH, (IH _ (rev _ ++ _)), <- ?app_assoc; simpl; by rewrite <- ?app_assoc.
  - cbn [andb]. destruct (_ && (_ <=? _)); rewrite IH, (IH _ (_ :: _)), <- ?app_assoc; simpl; by rewrite <- ?app_assoc.
Qed.

(** A byte that is not quoted is itself, but for a header's blank. *)
Lemma unquoted c rest header quotetabs linelen :
  qpNeedsQuote c rest header false quotetabs linelen = false ->
  c =? equals = false /\ header && (c =? underscore) = false.
Proof.
  unfold qpNeedsQuote. destruct (126 <? c); [done|]. destruct (c =? equals); [done|]. cbn [orb].
  by destruct (header && (c =? underscore)).
Qed.

Lemma qp_roundtrip crlf header quotetabs : forall data, Forall isByte data -> forall fuel linelen,
  (length data <= fuel)%nat ->
  a2b_qp header (rev (qpEncode fuel crlf header false quotetabs linelen [] data)) = data.
Proof.
  induction 1 as [|c rest Hc Hr IH]; intros fuel linelen Hf; [by destruct fuel|].
  destruct fuel as [|fuel]; [simpl in Hf; lia|]. simpl in Hf. cbn [qpEncode].
  assert (forall b ll, a2b_qp header (rev (if b : bool then softBreak crlf else []) ++ ll) = a2b_qp header ll) as Hs.
  { intros [] ll; [apply a2b_qp_soft|done]. }
  destruct (qpNeedsQuote _ _ _ _ _ _) eqn:Eq.
  - set (brk := qpMaxLineSize <=? linelen + 3).
    replace (if brk then (softBreak crlf ++ [], 0) else ([], linelen))
      with ((if brk then softBreak crlf else []) : list Z, if brk then 0 else linelen)
      by (destruct brk; by rewrite ?app_nil_r).
    cbv beta iota. rewrite qpEncode_out, !rev_app_distr, rev_involutive. cbn [rev]. rewrite <- !app_assoc, Hs. cbn [app].
    rewrite a2b_qp_hex by done. f_equal. apply IH. lia.
  - destruct (unquoted _ _ _ _ _ Eq) as [E1 E2]. cbn [andb].
    set (brk := match rest with [] => false | d :: _ => negb (d =? newline) end && (qpMaxLineSize <=? linelen + 1)).
    replace (if brk then (softBreak crlf ++ [], 0) else ([], linelen))
      with ((if brk then softBreak crlf else []) : list Z, if brk then 0 else linelen)
      by (destruct brk; by rewrite ?app_nil_r).
    cbv beta iota. rewrite qpEncode_out, !rev_app_distr. cbn [rev]. rewrite <- !app_assoc, Hs. cbn [app].
    destruct (header && (c =? space)) eqn:Eh.
    + apply andb_true_iff in Eh as [-> ->%Z.eqb_eq]. rewrite a2b_qp_blank. f_equal. apply IH. lia.
    + rewrite a2b_qp_plain by done. f_equal. apply IH. lia.
Qed.

(** C32: quoted-printable of binary data ([istext] off) decodes to the data
    itself, with the header convention or without, whatever soft line breaks the
    encoder inserts. *)
Theorem a2b_b2a_qp quotetabs header data :
  Forall isByte data -> a2b_qp header (b2a_qp quotetabs false header data) = data.
Proof. intros Hd. by apply qp_roundtrip. Qed.

Lemma a2b_b2a_qp_witness :
  a2b_qp true (b2a_qp false false true [95; 32; 61; 255; 13; 10; 46]) = [95; 32; 61; 255; 13; 10; 46].
Proof. apply a2b_b2a_qp. by repeat constructor. Defined.

(** In text mode the line breaks take the form of the first one. *)
Lemma b2a_qp_text_breaks :
  a2b_qp false (b2a_qp false true false [newline; carriage; newline]) = [newline; newline].
Proof. vm_compute. reflexivity. Qed.

(** ** Line lengths *)

(** Every run of bytes without a newline has at most [k] of them. *)
Definition linesFit (k : nat) (l : list Z) : Prop :=
  forall a b c, l = a ++ b ++ c -> newline ∉ b -> (length b <= k)%nat.

(** The bytes in front of the first newline. *)
Fixpoint cols (l : list Z) : nat :=
  match l with [] => 0 | c :: l => if (c =? newline)%Z then 0 else S (cols l) end.

Fixpoint fits (k : nat) (l : list Z) : Prop :=
  match l with [] => True | _ :: l' => (cols l <= k)%nat /\ fits k l' end.

Lemma cols_run b c : newline ∉ b -> (length b <= cols (b ++ c))%nat.
Proof.
  induction b as [|x b IH]; intros Hb; simpl; [lia|]. rewrite not_elem_of_cons in Hb. destruct Hb as [Hx Hb].
  destruct (Z.eqb_spec x newline); [congruence|]. specialize (IH Hb). lia.
Qed.

Lemma fits_linesFit k l : fits k l -> linesFit k l.
Proof.
  intros H a. revert l H. induction a as [|x a IH]; intros l H b c E Hb; subst l.
  - pose proof (cols_run b c Hb). simpl in H. destruct b as [|y b]; [simpl; lia|]. destruct H as [H _]. simpl app in *. lia.
  - simpl in H. destruct H as [_ H]. by apply (IH _ H b c).
Qed.

Lemma linesFit_rev k l : linesFit k l -> linesFit k (rev l).
Proof.
  intros H a b c E Hb. apply (f_equal (@rev Z)) in E. rewrite rev_involutive, !rev_app_distr, <- app_assoc in E.
  rewrite <- (length_rev b). apply (H _ _ _ E). intros Hin. apply Hb.
  apply list_elem_of_In, in_rev. by apply list_elem_of_In.
Qed.

(** A soft or hard break closes the line and starts an empty one. *)
Lemma fits_break k (crlf : bool) m out :
  Forall (fun c => c <> newline) m -> fits k out ->
  (length m + cols out + (if crlf then 1 else 0) <= k)%nat ->
  fits k (newline :: (if crlf then [carriage] else []) ++ m ++ out) /\
  cols (newline :: (if crlf then [carriage] else []) ++ m ++ out) = 0%nat.
Proof.
  intros Hm Hf Hk. split; [|done].
  assert (cols (m ++ out) = length m + cols out /\ fits k (m ++ out))%nat as [Hc Hf'].
  { assert (length m + cols out <= k)%nat as Hk' by lia. clear Hk. induction Hm as [|x m Hx Hm IH]; [done|].
    simpl in *. destruct (Z.eqb_spec x newline); [done|]. destruct IH as [-> IH]; [lia|]. split; [done|]. by split. }
  destruct crlf; simpl; rewrite ?Hc; split; (lia || done || (split; [lia|done])).
Qed.

Lemma qpToHex_line c : isByte c -> Forall (fun d => d <> newline) (rev (qpToHex c)) /\ length (rev (qpToHex c)) = 2%nat.
Proof.
  intros Hc. split; [|done].
  pose (P := fun c => forallb (fun d => negb (d =? newline)) (rev (qpToHex c))).
  assert (P c = true) as H by (apply (forall_upto P 256); [vm_compute; reflexivity|done]). unfold P in H.
  rewrite forallb_forall in H. apply Forall_forall. intros d Hd%list_elem_of_In%H. by apply negb_true_iff, Z.eqb_neq in Hd.
Qed.

(** Bytes added to the current line. *)
Lemma fits_more k m out :
  Forall (fun c => c <> newline) m -> fits k out -> (length m + cols out <= k)%nat ->
  fits k (m ++ out) /\ cols (m ++ out) = (length m + cols out)%nat.
Proof.
  intros Hm Hf Hk. destruct (fits_break k false m out Hm Hf) as [[_ H] _]; [lia|]. split; [done|].
  clear -Hm. induction Hm as [|x m Hx Hm IH]; [done|]. simpl. destruct (Z.eqb_spec x newline); [done|]. by rewrite IH.
Qed.

(** The encoder's column is the length of the line it is on, at most 76; a line
    of 76 is about to be broken. *)
Definition column (linelen : Z) (out data : list Z) : Prop :=
  linelen = Z.of_nat (cols out) /\ linelen <= 76 /\
  (linelen = 76 -> match data with [] => True | c :: _ => c = newline end).

Section Lines.
Context (crlf header istext quotetabs : bool).
Let k : nat := (78 + (if crlf then 1 else 0))%nat.

Lemma soft_fits (b : bool) linelen out :
  fits k out -> linelen = Z.of_nat (cols out) -> linelen <= 76 ->
  let r := if b then (softBreak crlf ++ out, 0) else (out, linelen) in
  fits k r.1 /\ r.2 = Z.of_nat (cols r.1) /\ r.2 = (if b then 0 else linelen).
Proof.
  intros Hf Hl Hm. destruct b; [|done]. unfold softBreak. cbn [app fst snd]. rewrite <- !app_assoc.
  destruct (fits_break k crlf [equals] out) as [H1 H2]; [by repeat constructor|done|simpl; lia|].
  split; [done|]. by rewrite H2.
Qed.

Lemma quoteBlank_fits out : fits k out -> (cols out <= 76)%nat ->
  fits k (quoteBlank out) /\ (cols (quoteBlank out) <= 78)%nat.
Proof.
  intros Hf Hc. destruct out as [|ch out]; [split; [done|simpl; lia]|]. unfold quoteBlank.
  destruct (_ || _) eqn:E; [|split; [done|lia]].
  assert (isByte ch) as Hch by (apply orb_true_iff in E as [->%Z.eqb_eq| ->%Z.eqb_eq]; done).
  assert (ch =? newline = false) as En by (apply orb_true_iff in E as [->%Z.eqb_eq| ->%Z.eqb_eq]; done).
  simpl in Hc. rewrite En in Hc. destruct (qpToHex_line ch Hch) as [Hh Hl].
  assert (rev (qpToHex ch) ++ equals :: out = (rev (qpToHex ch) ++ [equals]) ++ out) as -> by by rewrite <- app_assoc.
  simpl in Hf. destruct Hf as [_ Hf].
  destruct (fits_more k (rev (qpToHex ch) ++ [equals]) out) as [H1 H2];
    [by apply Forall_app; split; [|repeat constructor]|done|rewrite length_app, Hl; simpl; lia|].
  split; [done|]. rewrite H2, length_app, Hl. simpl. lia.
Qed.

(** A newline that is neither quoted nor a hard break does not occur. *)
Lemma unbroken c rest linelen crnl :
  qpNeedsQuote c rest header istext quotetabs linelen = false ->
  istext && ((c =? newline) || crnl) = false -> c <> newline.
Proof.
  intros Eq Eh ->. destruct istext; [by rewrite Z.eqb_refl in Eh|]. unfold qpNeedsQuote in Eq.
  by destruct header.
Qed.

Lemma qpEncode_lines fuel : forall data linelen out,
  Forall isByte data -> fits k out -> column linelen out data ->
  fits k (qpEncode fuel crlf header istext quotetabs linelen out data).
Proof.
  induction fuel as [|fuel IH]; intros [|c rest] linelen out Hd Hf (Hl & Hm & Hn); try done.
  apply Forall_cons in Hd as [Hc Hr]. cbn [qpEncode].
  destruct (qpNeedsQuote _ _ _ _ _ _) eqn:Eq.
  - pose proof (soft_fits (qpMaxLineSize <=? linelen + 3) linelen out Hf Hl Hm) as Hs. cbv zeta in Hs.
    destruct (if qpMaxLineSize <=? linelen + 3 then _ else _) as [out1 l1]. destruct Hs as (Hf1 & Hl1 & El1). cbn [fst snd] in *.
    assert (l1 + 3 <= 75) as Hb by (rewrite El1; unfold qpMaxLineSize; destruct (Z.leb_spec 76 (linelen + 3)); lia).
    destruct (qpToHex_line c Hc) as [Hh Hhl].
    assert (rev (qpToHex c) ++ equals :: out1 = (rev (qpToHex c) ++ [equals]) ++ out1) as -> by by rewrite <- app_assoc.
    destruct (fits_more k (rev (qpToHex c) ++ [equals]) out1) as [H1 H2];
      [by apply Forall_app; split; [|repeat constructor]|done|rewrite length_app, Hhl; simpl; lia|].
    apply IH; [done|done|]. split; [rewrite H2, length_app, Hhl; simpl; lia|]. split; lia.
  - destruct (istext && _) eqn:Eh.
    + destruct (quoteBlank_fits out Hf) as [H1 H2]; [lia|].
      destruct (fits_break k crlf [] (quoteBlank out)) as [H3 H4]; [done|done|simpl; lia|].
      apply IH; [by destruct (c =? carriage); [apply Forall_tail|]|done|].
      split; [by cbn [app] in H4; rewrite H4|]. split; lia.
    + assert (c <> newline) as Hcn by (by eapply unbroken).
      set (b := match rest with [] => false | d :: _ => negb (d =? newline) end && (qpMaxLineSize <=? linelen + 1)).
      pose proof (soft_fits b linelen out Hf Hl Hm) as Hs. cbv zeta in Hs.
      assert (linelen <= 75) as Hm' by (destruct (Z.eq_dec linelen 76); [by destruct (Hcn (Hn e))|lia]).
      assert (b = false -> linelen = 75 -> match rest with [] => True | d :: _ => d = newline end) as Hb.
      { subst b. intros Eb ->. destruct rest as [|d rest]; [done|]. rewrite andb_true_r in Eb.
        by apply negb_false_iff, Z.eqb_eq in Eb. }
      destruct (if b then _ else _) as [out1 l1]. destruct Hs as (Hf1 & Hl1 & El1). cbn [fst snd] in *.
      set (d := if header && (c =? space) then underscore else c).
      assert (d <> newline) by (subst d; by destruct (header && _)).
      destruct (fits_more k [d] out1) as [H1 H2]; [by repeat constructor|done|simpl; destruct b; lia|].
      apply IH; [done|done|]. change (d :: out1) with ([d] ++ out1). split; [rewrite H2; simpl; lia|].
      destruct b; [split; lia|]. subst l1. split; [lia|]. intros E75. apply Hb; [done|lia].
Qed.
End Lines.

(** No line of the quoted-printable output is longer than 78 bytes (79 with
    the carriage return of a CRLF input), whatever the options: the 76 of a line
    that ends in front of a hard break, and the two digits a blank there takes. *)
Theorem b2a_qp_lines quotetabs istext header data :
  Forall isByte data ->
  linesFit (78 + (if firstCRLF 0 data then 1 else 0)) (b2a_qp quotetabs istext header data).
Proof.
  intros Hd. unfold b2a_qp. apply linesFit_rev, fits_linesFit, qpEncode_lines; [done|done|].
  split; [done|]. split; lia.
Qed.

Lemma b2a_qp_lines_witness : linesFit 78 (b2a_qp false true false (repeat 97 75 ++ [space; newline])).
Proof. apply (b2a_qp_lines false true false (repeat 97 75 ++ [space; newline])). by repeat constructor. Defined.

(** The bound is reached: a blank in column 76 in front of a newline. *)
Lemma b2a_qp_78 :
  let data := repeat 97 75 ++ [space; newline] in
  cols (b2a_qp false true false data) = 78%nat.
Proof. vm_compute. reflexivity. Qed.
