(* ===== verification/IntBytes.v ===== *)
(** * IntBytes: int.from_bytes and int.to_bytes

    Model of src/pkg/objects/intbytes.go on unbounded integers: the byte order
    argument, the byte values of an iterable of ints, and the two conversions
    with their errors (kind and message).  [math/big] is modelled by what the
    source uses of it: [SetBytes] and [Bytes] on the big-endian magnitude. *)

From S2P Require Import Prelude Int64 Bytes.
Local Open Scope Z_scope.
Local Open Scope bits_scope.

Definition raised : Type := string * string.

Definition intByteorder (s : string) : bool + raised :=
  if (s =? "big")%string then inl true
  else if (s =? "little")%string then inl false
  else inr ("ValueError", "byteorder must be either 'little' or 'big'").

(** [big.Int.SetBytes] and [big.Int.Bytes]. *)
Definition SetBytes (b : list Z) : Z := fold_left (fun n c => n * 256 + c) b 0.

Fixpoint digits (fuel : nat) (n : Z) : list Z :=
  match fuel with
  | O => []
  | S fuel => if n =? 0 then [] else n mod 256 :: digits fuel (n / 256)
  end.

Definition magnitude (n : Z) : list Z := rev (digits (S (Z.to_nat (Z.log2 n))) n).

(** [intBytesFromIterable] on the ints an iterable yields. *)
Fixpoint intBytesFromIterable (vs : list Z) : list Z + raised :=
  match vs with
  | [] => inl []
  | n :: vs =>
      if (n <? 0) || (255 <? n) then inr ("ValueError", "bytes must be in range(0, 256)")
      else match intBytesFromIterable vs with inl out => inl (n :: out) | inr e => inr e end
  end.

(** [intFromBytes] on the bytes read. *)
Definition intFromBytes (raw : list Z) (bigEndian signed : bool) : Z :=
  let b := if bigEndian then raw else rev raw in
  let n := SetBytes b in
  match b with
  | c :: _ => if signed && negb (c .& 128 =? 0) then n - 1 << (8 * Z.of_nat (length b)) else n
  | [] => n
  end.

(** [intToBytes] on the receiver's value and the length, an [int]; the width
    in bits is a [uint], and wraps. *)
Definition intToBytes (v length_ : Z) (bigEndian signed : bool) : list Z + raised :=
  if length_ <? 0 then inr ("ValueError", "length argument must be non-negative")
  else if (v <? 0) && negb signed then inr ("OverflowError", "can't convert negative int to unsigned")
  else
    let mod_ := 1 << toUint64 (8 * length_) in
    let half := mod_ >> 1 in
    if (if signed then (half <=? v) || (v <? - half) else mod_ <=? v)
    then inr ("OverflowError", "int too big to convert")
    else
      let n := if v <? 0 then v + mod_ else v in
      let raw := magnitude n in
      let out := repeat 0 (Z.to_nat length_ - length raw) ++ raw in
      inl (if bigEndian then out else rev out).

(** ** Magnitudes *)

(** The value of bytes, least significant first. *)
Fixpoint leValue (l : list Z) : Z := match l with [] => 0 | c :: l => c + 256 * leValue l end.

Lemma SetBytes_rev l : SetBytes (rev l) = leValue l.
Proof.
  unfold SetBytes. rewrite <- fold_left_rev_right, rev_involutive. induction l as [|c l IH]; [done|]. simpl. rewrite IH. lia.
Qed.

Lemma leValue_app l m : leValue (l ++ m) = leValue l + 256 ^ Z.of_nat (length l) * leValue m.
Proof.
  induction l as [|c l IH]; [simpl; lia|]. cbn [app leValue length]. rewrite IH, Nat2Z.inj_succ, Z.pow_succ_r by lia. lia.
Qed.

Lemma leValue_zeros k : leValue (repeat 0 k) = 0.
Proof. induction k as [|k IH]; [done|]. simpl. rewrite IH. lia. Qed.

Lemma leValue_bound l : Forall isByte l -> 0 <= leValue l < 256 ^ Z.of_nat (length l).
Proof.
  unfold isByte. induction 1 as [|c l Hc Hl IH]; [done|]. cbn [leValue length].
  rewrite Nat2Z.inj_succ, Z.pow_succ_r by lia. lia.
Qed.

Lemma leValue_inj l : Forall isByte l -> forall m, Forall isByte m -> length l = length m -> leValue l = leValue m -> l = m.
Proof.
  unfold isByte. induction 1 as [|c l Hc Hl IH]; intros m [|d m' Hd Hm] El Ev; try done. simpl in El, Ev.
  assert (c = d /\ leValue l = leValue m') as [-> E] by lia. f_equal. apply IH; (done || lia).
Qed.

Lemma digits_spec f : forall n, 0 <= n < 256 ^ Z.of_nat f -> leValue (digits f n) = n /\ Forall isByte (digits f n).
Proof.
  induction f as [|f IH]; intros n Hn; [simpl in Hn; split; [simpl; lia|done]|]. cbn [digits].
  destruct (Z.eqb_spec n 0) as [->|Hz]; [done|]. rewrite Nat2Z.inj_succ, Z.pow_succ_r in Hn by lia.
  destruct (IH (n / 256)) as [E Hf]; [split; [dlia|apply Z.div_lt_upper_bound; lia]|].
  split; [|constructor; [unfold isByte; dlia|done]]. cbn [leValue]. rewrite E. dlia.
Qed.

Lemma digits_length f k : forall n, 0 <= n < 256 ^ Z.of_nat k -> (length (digits f n) <= k)%nat.
Proof.
  revert k. induction f as [|f IH]; intros k n Hn; [simpl; lia|]. cbn [digits].
  destruct (Z.eqb_spec n 0) as [->|Hz]; [simpl; lia|]. destruct k as [|k]; [simpl in Hn; lia|].
  rewrite Nat2Z.inj_succ, Z.pow_succ_r in Hn by lia. cbn [length].
  enough (length (digits f (n / 256)) <= k)%nat by lia. apply IH. split; [dlia|apply Z.div_lt_upper_bound; lia].
Qed.

Lemma log2_fuel n : 0 <= n -> n < 256 ^ Z.of_nat (S (Z.to_nat (Z.log2 n))).
Proof.
  intros Hn. rewrite Nat2Z.inj_succ, Z2Nat.id by apply Z.log2_nonneg. pose proof (Z.log2_nonneg n).
  destruct (Z.eq_dec n 0) as [->|Hz]; [done|]. destruct (Z.log2_spec n ltac:(lia)) as [_ Hu].
  eapply Z.lt_le_trans; [exact Hu|]. apply Z.pow_le_mono_l. lia.
Qed.

(** The conversion's output, least significant byte first. *)
Lemma magnitude_spec n L :
  0 <= L -> 0 <= n < 256 ^ L ->
  let le := rev (repeat 0 (Z.to_nat L - length (magnitude n)) ++ magnitude n) in
  Forall isByte le /\ Z.of_nat (length le) = L /\ leValue le = n.
Proof.
  intros HL Hn. cbv zeta. unfold magnitude. set (ds := digits _ n). rewrite rev_app_distr, rev_involutive, length_rev.
  destruct (digits_spec (S (Z.to_nat (Z.log2 n))) n) as [Ev Hb]; [split; [lia|apply log2_fuel; lia]|].
  assert (length ds <= Z.to_nat L)%nat by (apply digits_length; rewrite Z2Nat.id; lia).
  assert (rev (repeat 0 (Z.to_nat L - length ds)) = repeat 0 (Z.to_nat L - length ds)) as ->.
  { generalize (Z.to_nat L - length ds)%nat. intros k. induction k as [|k IH]; [done|]. simpl. rewrite IH.
    by rewrite <- repeat_cons. }
  split; [|split].
  - apply Forall_app. split; [done|]. apply Forall_forall. intros x Hx%list_elem_of_In%repeat_spec. by subst.
  - rewrite length_app, repeat_length. lia.
  - rewrite leValue_app, leValue_zeros. fold ds in Ev. lia.
Qed.

Lemma pow256 L : 0 <= L -> 1 << (8 * L) = 256 ^ L.
Proof. intros. rewrite Z.shiftl_mul_pow2, Z.mul_1_l, Z.pow_mul_r by lia. done. Qed.

(** The top bit tells the sign. *)
Lemma sign_bit c : isByte c -> c .& 128 =? 0 = (c <? 128).
Proof.
  intros Hc. pose (P := fun c => Bool.eqb (c .& 128 =? 0) (c <? 128)).
  assert (P c = true) as H by (apply (forall_upto P 256); [vm_compute; reflexivity|done]). by apply eqb_prop in H.
Qed.

(** The value of bytes given least significant first. *)
Lemma fromBytes_le le signed :
  Forall isByte le ->
  intFromBytes le false signed =
  (if signed && (256 ^ Z.of_nat (length le) / 2 <=? leValue le) && (negb (Nat.eqb (length le) 0))
   then leValue le - 256 ^ Z.of_nat (length le) else leValue le).
Proof.
  intros Hb. unfold intFromBytes. rewrite SetBytes_rev. destruct le as [|c le _] using rev_ind; [by destruct signed|].
  apply Forall_app in Hb as [Hb Hc]. rewrite Forall_singleton in Hc. rewrite rev_app_distr. cbn [rev app].
  rewrite sign_bit, pow256 by (done || lia). rewrite length_app, Nat.add_1_r. cbn [length]. rewrite length_rev.
  pose proof (leValue_bound le Hb). unfold isByte in Hc. rewrite leValue_app. cbn [leValue].
  rewrite Nat2Z.inj_succ, Z.pow_succ_r in * by lia. rewrite andb_true_r.
  replace (256 * 256 ^ Z.of_nat (length le) / 2) with (128 * 256 ^ Z.of_nat (length le)) 
    by (apply Z.div_unique_exact; lia).
  set (p := 256 ^ _) in *. destruct signed; [|done]. cbn [andb negb].
  destruct (Z.ltb_spec c 128), (Z.leb_spec (128 * p) (leValue le + p * (c + 256 * 0))); simpl; nia.
Qed.

(** Both byte orders read the same digits. *)
Lemma fromBytes_order raw signed : intFromBytes raw true signed = intFromBytes (rev raw) false signed.
Proof. unfold intFromBytes. by rewrite rev_involutive. Qed.

(** The values [L] bytes can hold: no bytes hold zero only, in two's complement
    too. *)
Definition representable (signed : bool) (L v : Z) : Prop :=
  if signed then (if L =? 0 then v = 0 else - 2 ^ (8 * L - 1) <= v < 2 ^ (8 * L - 1)) else 0 <= v < 256 ^ L.

(** What the code takes them to be. *)
Definition accepted (signed : bool) (L v : Z) : Prop :=
  if signed then - (256 ^ L / 2) <= v < 256 ^ L / 2 else 0 <= v < 256 ^ L.

Lemma accepted_spec signed L v : 0 <= L ->
  accepted signed L v <-> representable signed L v /\ ~ (signed = true /\ L = 0).
Proof.
  intros HL. unfold accepted, representable. destruct signed; [|intuition congruence].
  destruct (Z.eqb_spec L 0) as [->|Hz]; [change (256 ^ 0 / 2) with 0; intuition lia|].
  assert (256 ^ L / 2 = 2 ^ (8 * L - 1)) as ->; [|intuition lia].
  change 256 with (2 ^ 8). rewrite <- Z.pow_mul_r by lia. replace (8 * L) with (Z.succ (8 * L - 1)) at 1 by lia.
  rewrite Z.pow_succ_r by lia. symmetry. apply Z.div_unique_exact; lia.
Qed.

(** [to_bytes] succeeds exactly on the values it takes the length to hold. *)
Lemma intToBytes_spec v L bigEndian signed :
  0 <= L < 2 ^ 61 ->
  match intToBytes v L bigEndian signed with
  | inl out => accepted signed L v /\ Forall isByte out /\ Z.of_nat (length out) = L /\
      intFromBytes out bigEndian signed = v
  | inr (k, _) => ~ accepted signed L v /\ k = "OverflowError"
  end.
Proof.
  intros [HL HL']. unfold intToBytes, accepted.
  assert (toUint64 (8 * L) = 8 * L) as -> by (apply Z.mod_small; lia).
  rewrite (proj2 (Z.ltb_ge L 0)), pow256, shr_div by lia. change (2 ^ 1) with 2.
  assert (0 < 256 ^ L) as Hp by (apply Z.pow_pos_nonneg; lia).
  destruct ((v <? 0) && negb signed) eqn:En.
  { apply andb_true_iff in En as [?%Z.ltb_lt ->%negb_true_iff]. split; [lia|done]. }
  destruct (if signed then _ else _) eqn:Eb.
  { split; [|done]. destruct signed; [apply orb_true_iff in Eb as [?%Z.leb_le|?%Z.ltb_lt]|apply Z.leb_le in Eb]; lia. }
  assert (if signed then - (256 ^ L / 2) <= v < 256 ^ L / 2 else 0 <= v < 256 ^ L) as Hr.
  { destruct signed; [apply orb_false_iff in Eb as [?%Z.leb_gt ?%Z.ltb_ge]; lia|].
    rewrite andb_true_r in En. apply Z.ltb_ge in En. apply Z.leb_gt in Eb. lia. }
  split; [done|]. set (n := if v <? 0 then _ else _).
  assert (0 <= n < 256 ^ L) as Hn by (unfold n; destruct (Z.ltb_spec v 0), signed; dlia).
  destruct (magnitude_spec n L HL Hn) as (Hb & Hl & Hv). cbv zeta in *. set (be := _ ++ magnitude n) in *.
  rewrite length_rev in Hl.
  split; [by destruct bigEndian; [rewrite <- (rev_involutive be); apply Forall_rev|]|].
  split; [by destruct bigEndian; rewrite ?length_rev|].
  assert (intFromBytes (rev be) false signed = v) as H.
  { rewrite fromBytes_le, Hv, length_rev, Hl by done. unfold n.
    assert (length be = 0%nat -> L = 0) as H0 by lia.
    destruct signed; cbn [andb].
    - destruct (Nat.eqb_spec (length be) 0) as [E|E]; [rewrite (H0 E) in Hr; change (256 ^ 0 / 2) with 0 in Hr; lia|].
      rewrite andb_true_r. destruct (Z.ltb_spec v 0); destruct (Z.leb_spec (256 ^ L / 2) (v + 256 ^ L));
        destruct (Z.leb_spec (256 ^ L / 2) v); dlia.
    - by rewrite (proj2 (Z.ltb_ge v 0)) by lia. }
  destruct bigEndian; [by rewrite fromBytes_order|done].
Qed.

(** The bytes are the value modulo the width. *)
Lemma fromBytes_mod le signed :
  Forall isByte le -> intFromBytes le false signed mod 256 ^ Z.of_nat (length le) = leValue le.
Proof.
  intros Hb. rewrite fromBytes_le by done. pose proof (leValue_bound le Hb).
  destruct (_ && _); [|by apply Z.mod_small].
  replace (leValue le - 256 ^ Z.of_nat (length le)) with (leValue le + -1 * 256 ^ Z.of_nat (length le)) by lia.
  rewrite Z.mod_add by lia. by apply Z.mod_small.
Qed.

Lemma fromBytes_inj raw out bigEndian signed :
  Forall isByte raw -> Forall isByte out -> length out = length raw ->
  intFromBytes out bigEndian signed = intFromBytes raw bigEndian signed -> out = raw.
Proof.
  intros Hr Ho Hl E.
  assert (forall a b, Forall isByte a -> Forall isByte b -> length a = length b ->
    intFromBytes a false signed = intFromBytes b false signed -> a = b) as H.
  { intros a b Ha Hb El Ev. apply leValue_inj; [done|done|done|].
    by rewrite <- (fromBytes_mod a signed), <- (fromBytes_mod b signed), El, Ev. }
  destruct bigEndian; [|by apply H]. rewrite !fromBytes_order in E. apply rev_inj.
  apply H; [by apply Forall_rev|by apply Forall_rev|by rewrite !length_rev|done].
Qed.

Lemma intFromBytes_spec raw bigEndian signed :
  Forall isByte raw -> Z.of_nat (length raw) < 2 ^ 61 -> raw <> [] ->
  intToBytes (intFromBytes raw bigEndian signed) (Z.of_nat (length raw)) bigEndian signed = inl raw.
Proof.
  intros Hb Hsz Hne. set (v := intFromBytes raw bigEndian signed).
  pose proof (intToBytes_spec v (Z.of_nat (length raw)) bigEndian signed ltac:(lia)) as H.
  set (le := if bigEndian then rev raw else raw).
  assert (Forall isByte le /\ length le = length raw) as [Hle Hll]
    by (subst le; destruct bigEndian; rewrite ?length_rev; split; try done; by apply Forall_rev).
  assert (v = intFromBytes le false signed) as Ev by (subst v le; destruct bigEndian; [apply fromBytes_order|done]).
  assert (length raw <> 0%nat) as Hl0 by (by destruct raw).
  pose proof (leValue_bound le Hle) as Hbd. rewrite fromBytes_le, Hll in Ev by done. rewrite Hll in Hbd.
  rewrite (proj2 (Nat.eqb_neq _ _) Hl0), andb_true_r in Ev. set (p := 256 ^ Z.of_nat (length raw)) in *.
  assert (exists h, p = 2 * h) as [h Hh].
  { destruct raw as [|c raw']; [done|]. subst p. cbn [length]. rewrite Nat2Z.inj_succ, Z.pow_succ_r by lia.
    exists (128 * 256 ^ Z.of_nat (length raw')). lia. }
  assert (p / 2 = h) as Ehalf by (rewrite Hh; dlia). rewrite Ehalf in Ev.
  destruct (intToBytes _ _ _ _) as [out|[e m]].
  - destruct H as (_ & Ho & Hol & Er). f_equal. apply Nat2Z.inj in Hol. by eapply fromBytes_inj.
  - destruct H as [H _]. destruct H. unfold accepted. fold p. rewrite Ehalf, Ev.
    destruct signed; cbn [andb]; [destruct (Z.leb_spec h (leValue le)); lia|lia].
Qed.

(** C33: the two conversions are inverse to each other.  For a length below 2^61
    [to_bytes] gives that many bytes, which [from_bytes] reads back as the value,
    for exactly the values the length can hold (the unsigned or the two's
    complement range of that many bytes), and raises OverflowError on every other
    value; the one value it refuses though the length holds it is the signed zero
    in no bytes.  And the value [from_bytes] reads from a string packs into that
    string, in either order and with either reading of the sign, the empty string
    read as unsigned included.  (The width in bits is computed in 64 bits: from
    2^61 bytes on it wraps, see [huge_length].) *)
Theorem int_bytes_roundtrip bigEndian signed :
  (forall v L, 0 <= L < 2 ^ 61 ->
    match intToBytes v L bigEndian signed with
    | inl out => representable signed L v /\ ~ (signed = true /\ L = 0) /\ Forall isByte out /\
        Z.of_nat (length out) = L /\ intFromBytes out bigEndian signed = v
    | inr (k, _) => (~ representable signed L v \/ signed = true /\ L = 0) /\ k = "OverflowError"
    end) /\
  (forall raw, Forall isByte raw -> Z.of_nat (length raw) < 2 ^ 61 -> raw <> [] \/ signed = false ->
    intToBytes (intFromBytes raw bigEndian signed) (Z.of_nat (length raw)) bigEndian signed = inl raw).
Proof.
  split.
  - intros v L HL. pose proof (intToBytes_spec v L bigEndian signed HL) as H. pose proof (accepted_spec signed L v (proj1 HL)) as Ha.
    destruct (intToBytes _ _ _ _) as [out|[k m]]; [naive_solver|]. destruct H as [H ->]. split; [|done].
    destruct signed; [destruct (Z.eq_dec L 0); intuition congruence|intuition congruence].
  - intros raw Hb Hs H. destruct (decide (raw = [])) as [->|Hne]; [|by apply intFromBytes_spec].
    destruct H as [H| ->]; [done|]. by destruct bigEndian.
Qed.

(** The empty string is the signed form of zero, and yet zero does not pack into it. *)
Lemma zero_in_no_bytes : representable true 0 0 /\
  intFromBytes [] true true = 0 /\ intToBytes 0 0 true true = inr ("OverflowError", "int too big to convert").
Proof. done. Qed.

(** The width of 2^61 bytes wraps to no bits: one is too big for them. *)
Lemma huge_length : representable false (2 ^ 61) 1 /\
  intToBytes 1 (2 ^ 61) true false = inr ("OverflowError", "int too big to convert").
Proof.
  split; [|vm_compute; reflexivity].
  assert (forall L, 0 < L -> representable false L 1) as H; [|by apply H].
  intros L HL. split; [lia|]. apply Z.pow_gt_1; lia.
Qed.
