(* ===== verification/Slice.v ===== *)
(** * Slice: slicing of the built-in sequences

    Model of src/pkg/objects/slice.go on lists: reading the parts of a slice,
    the index arithmetic on int64 with its wrap-around, and the reading,
    assigning and deleting loops.  [None] is a Go panic (an index or slice
    bound out of range), the right of a sum a Python exception (kind and
    message).  The specification is Python's own: positions in unbounded
    arithmetic, enumerated one by one. *)

From S2P Require Import Prelude Int64.
Local Open Scope Z_scope.

Definition sliceErr : Type := string * string.

(** One part of a slice: omitted, an int, an object with [__index__] (its
    int, or what it raised), anything else. *)
Inductive part :=
  | PartNone
  | PartInt (z : Z)
  | PartIndex (r : Z + sliceErr)
  | PartOther.

(** An int in range, or the sentinel of its sign. *)
Definition sliceInt (z : Z) : Z := if in64 z then z else if 0 <? z then 2 ^ 62 else - 2 ^ 62.

Definition slicePart (p : part) : (Z * bool) + sliceErr :=
  match p with
  | PartNone => inl (0, false)
  | PartInt z => inl (sliceInt z, true)
  | PartIndex (inl z) => inl (sliceInt z, true)
  | PartIndex (inr e) => inr e
  | PartOther => inr ("TypeError", "slice indices must be integers or None or have an __index__ method")
  end.

Definition clampSliceIndex (v n step : Z) : Z :=
  let clampHigh v := if n <=? v then (if step <? 0 then wrap64 (n - 1) else n) else v in
  if v <? 0 then
    let v := wrap64 (v + n) in
    if v <? 0 then (if step <? 0 then -1 else 0) else clampHigh v
  else clampHigh v.

Definition sliceBounds (lo hi step : part) (n : Z) : (Z * Z * Z) + sliceErr :=
  match slicePart step with
  | inr e => inr e
  | inl (v, given) =>
    if given && (v =? 0) then inr ("ValueError", "slice step cannot be zero")
    else
      let st := if given then v else 1 in
      let start := if st <? 0 then wrap64 (n - 1) else 0 in
      let stop := if st <? 0 then -1 else n in
      match slicePart lo with
      | inr e => inr e
      | inl (v, given) =>
        let start := if given then clampSliceIndex v n st else start in
        match slicePart hi with
        | inr e => inr e
        | inl (v, given) => inl (start, if given then clampSliceIndex v n st else stop, st)
        end
      end
  end.

(** First index, step and number of selected elements. *)
Definition sliceIndices (lo hi step : part) (n : Z) : (Z * Z * Z) + sliceErr :=
  match sliceBounds lo hi step n with
  | inr e => inr e
  | inl (start, stop, st) =>
    inl (start, st,
      if (0 <? st) && (start <? stop) then wrap64 (goQuot (wrap64 (wrap64 (stop - start) - 1)) st + 1)
      else if (st <? 0) && (stop <? start)
           then wrap64 (goQuot (wrap64 (wrap64 (start - stop) - 1)) (wrap64 (- st)) + 1)
      else 0)
  end.

Section Lists.
Context {A : Type}.
Implicit Types xs items : list A.

(** [xs[j]], [xs[:k]] and [xs[k:]]. *)
Definition goIndex xs (j : Z) : option A := if 0 <=? j then xs !! Z.to_nat j else None.
Definition inSlice xs (k : Z) : bool := (0 <=? k) && (k <=? Z.of_nat (length xs)).
Definition goTo xs (k : Z) : option (list A) := if inSlice xs k then Some (take (Z.to_nat k) xs) else None.
Definition goFrom xs (k : Z) : option (list A) := if inSlice xs k then Some (drop (Z.to_nat k) xs) else None.

(** [n] elements from [j] on. *)
Fixpoint pickSlice xs (j step : Z) (n : nat) : option (list A) :=
  match n with
  | O => Some []
  | S n => x ← goIndex xs j; rest ← pickSlice xs (wrap64 (j + step)) step n; Some (x :: rest)
  end.

Definition GetSlice xs (lo hi step : part) : option (list A + sliceErr) :=
  match sliceIndices lo hi step (Z.of_nat (length xs)) with
  | inr e => Some (inr e)
  | inl (start, st, n) => inl <$> pickSlice xs start st (Z.to_nat n)
  end.

Definition sizeError (m n : Z) : sliceErr :=
  ("ValueError", "attempt to assign sequence of size " +:+ itoa m +:+
                 " to extended slice of size " +:+ itoa n).

Definition splice xs items (start n : Z) : option (list A) :=
  front ← goTo xs start; back ← goFrom xs (wrap64 (start + n)); Some (front ++ items ++ back).

Fixpoint setLoop xs (j step : Z) items : option (list A) :=
  match items with
  | [] => Some xs
  | x :: items => _ ← goIndex xs j; setLoop (<[Z.to_nat j := x]> xs) (wrap64 (j + step)) step items
  end.

(** [items] is what iterating over the assigned value gave. *)
Definition SetSlice xs (lo hi step : part) (items : list A + sliceErr) : option (list A + sliceErr) :=
  match sliceIndices lo hi step (Z.of_nat (length xs)) with
  | inr e => Some (inr e)
  | inl (start, st, n) =>
    match items with
    | inr e => Some (inr e)
    | inl items =>
      if st =? 1 then inl <$> splice xs items start n
      else if negb (Z.of_nat (length items) =? n)
           then Some (inr (sizeError (Z.of_nat (length items)) n))
      else inl <$> setLoop xs start st items
    end
  end.

(** The elements of the indices that are not dropped. *)
Fixpoint delLoop xs (i next st : Z) (left : nat) : list A :=
  match xs with
  | [] => []
  | e :: xs =>
      match left with
      | S left' =>
          if i =? next then delLoop xs (i + 1) (wrap64 (next + st)) st left'
          else e :: delLoop xs (i + 1) next st left
      | O => e :: delLoop xs (i + 1) next st left
      end
  end.

Definition DelSlice xs (lo hi step : part) : option (list A + sliceErr) :=
  match sliceIndices lo hi step (Z.of_nat (length xs)) with
  | inr e => Some (inr e)
  | inl (start, st, n) =>
    if n =? 0 then Some (inl xs)
    else if st =? 1 then inl <$> splice xs [] start n
    else
      let first := if st <? 0 then wrap64 (start + wrap64 ((n - 1) * st)) else start in
      let st := if st <? 0 then wrap64 (- st) else st in
      Some (inl (delLoop xs 0 first st (Z.to_nat n)))
  end.
End Lists.

(** ** Python's slices *)

(** The value of a part, [None] for an omitted one. *)
Inductive reads : part -> option Z -> Prop :=
  | R_none : reads PartNone None
  | R_int z : reads (PartInt z) (Some z)
  | R_index z : reads (PartIndex (inl z)) (Some z).

(** A bound counted from the end if negative, then moved into the range the
    step can reach. *)
Definition pyBound (v n step : Z) : Z :=
  let v := if v <? 0 then v + n else v in
  if 0 <? step then Z.min n (Z.max 0 v) else Z.min (n - 1) (Z.max (-1) v).

Definition pyStart (lo : option Z) (n step : Z) : Z :=
  match lo with Some v => pyBound v n step | None => if 0 <? step then 0 else n - 1 end.
Definition pyStop (hi : option Z) (n step : Z) : Z :=
  match hi with Some v => pyBound v n step | None => if 0 <? step then n else -1 end.

Definition before (step stop i : Z) : bool := if 0 <? step then i <? stop else stop <? i.

(** The positions of a slice of [n] elements, in its order. *)
Definition positions (lo hi : option Z) (step : Z) (n : nat) : list Z :=
  List.filter (before step (pyStop hi (Z.of_nat n) step))
    (map (fun k => pyStart lo (Z.of_nat n) step + Z.of_nat k * step) (seq 0 n)).

Definition pyStep (step : option Z) : Z := match step with Some s => s | None => 1 end.

(** The elements at the positions that are in the list. *)
Fixpoint pick {A} (xs : list A) (ps : list Z) : list A :=
  match ps with
  | [] => []
  | i :: ps => match xs !! Z.to_nat i with Some x => x :: pick xs ps | None => pick xs ps end
  end.

(** ** The index arithmetic *)

(** Where a Go slice can end: far below the sentinels. *)
Definition small (n : Z) : Prop := 0 <= n < 2 ^ 62.

Lemma wrap_id z : - 2 ^ 63 <= z < 2 ^ 63 -> wrap64 z = z.
Proof. intros Hz. apply wrap64_small. unfold in64, MinInt64, MaxInt64. apply andb_true_iff. split; apply Z.leb_le; lia. Qed.

Lemma sliceInt_cases z :
  (in64 z = true /\ sliceInt z = z) \/ (2 ^ 63 <= z /\ sliceInt z = 2 ^ 62) \/ (z < - 2 ^ 63 /\ sliceInt z = - 2 ^ 62).
Proof.
  unfold sliceInt, in64, MinInt64, MaxInt64. destruct (Z.leb_spec (- 2 ^ 63) z), (Z.leb_spec z (2 ^ 63 - 1)); simpl; [by left| | |lia].
  - right; left. destruct (Z.ltb_spec 0 z); lia.
  - right; right. destruct (Z.ltb_spec 0 z); lia.
Qed.

Lemma sliceInt_range z : - 2 ^ 63 <= sliceInt z < 2 ^ 63 /\ Z.sgn (sliceInt z) = Z.sgn z.
Proof.
  destruct (sliceInt_cases z) as [[H ->]|[[H ->]|[H ->]]]; [|lia..].
  unfold in64, MinInt64, MaxInt64 in H. apply andb_true_iff in H as [?%Z.leb_le ?%Z.leb_le]. lia.
Qed.

(** The step the arithmetic uses, equal to Python's unless both leave the
    sequence at once. *)
Definition usedStep (step : Z) : Z := sliceInt step.

Lemma clamp_exact v n step : small n -> step <> 0 ->
  clampSliceIndex (sliceInt v) n (usedStep step) = pyBound v n step.
Proof.
  intros [Hn0 Hn1] Hs. destruct (sliceInt_range step) as [_ Hsg]. unfold clampSliceIndex, pyBound, usedStep.
  assert ((sliceInt step <? 0) = negb (0 <? step)) as ->.
  { destruct (Z.ltb_spec (sliceInt step) 0), (Z.ltb_spec 0 step); try done; lia. }
  destruct (sliceInt_range v) as [Hr _].
  rewrite (wrap_id (n - 1)) by lia.
  destruct (Z.ltb_spec (sliceInt v) 0) as [Hv|Hv].
  - rewrite wrap_id by lia. destruct (sliceInt_cases v) as [[H ->]|[[H E]|[H E]]]; [|lia|rewrite E in *].
    + rewrite (proj2 (Z.ltb_lt v 0)) by (destruct (sliceInt_cases v) as [[_ E]|[[? E]|[? E]]]; lia).
      repeat match goal with |- context [?a <? ?b] => destruct (Z.ltb_spec a b)
        | |- context [?a <=? ?b] => destruct (Z.leb_spec a b) end; simpl in *; lia.
    + rewrite (proj2 (Z.ltb_lt v 0)) by lia. rewrite (proj2 (Z.ltb_lt (- 2 ^ 62 + n) 0)) by lia.
      destruct (Z.ltb_spec 0 step); simpl; lia.
  - destruct (sliceInt_cases v) as [[H E]|[[H E]|[H E]]]; [|rewrite E in *|lia].
    + rewrite E in *. rewrite (proj2 (Z.ltb_ge v 0)) by lia.
      destruct (Z.leb_spec n v), (Z.ltb_spec 0 step); simpl; lia.
    + rewrite (proj2 (Z.ltb_ge v 0)) by lia. rewrite (proj2 (Z.leb_le n (2 ^ 62))) by lia.
      destruct (Z.ltb_spec 0 step); simpl; lia.
Qed.

(** How many steps stay before the stop. *)
Definition count (start stop step : Z) : Z :=
  if 0 <? step then Z.max 0 ((stop - start - 1) / step + 1)
  else Z.max 0 ((start - stop - 1) / (- step) + 1).

Lemma count_before start stop step k : step <> 0 -> 0 <= k ->
  before step stop (start + k * step) = (k <? count start stop step).
Proof.
  intros Hs Hk. unfold before, count. destruct (Z.ltb_spec 0 step) as [H|H].
  - pose proof (Z.mul_div_le (stop - start - 1) step H).
    pose proof (Z.mul_succ_div_gt (stop - start - 1) step H).
    destruct (Z.ltb_spec (start + k * step) stop), (Z.ltb_spec k (Z.max 0 ((stop - start - 1) / step + 1))); try done; nia.
  - assert (0 < - step) as H' by lia.
    pose proof (Z.mul_div_le (start - stop - 1) (- step) H').
    pose proof (Z.mul_succ_div_gt (start - stop - 1) (- step) H').
    destruct (Z.ltb_spec stop (start + k * step)), (Z.ltb_spec k (Z.max 0 ((start - stop - 1) / - step + 1))); try done; nia.
Qed.

Lemma filter_prefix (P : Z -> bool) f c n :
  (forall k, P (f k) = (Z.of_nat k <? c)) ->
  List.filter P (map f (seq 0 n)) = map f (seq 0 (Nat.min n (Z.to_nat c))).
Proof.
  intros HP. induction n as [|n IH]; [done|].
  rewrite seq_S, map_app, List.filter_app, IH. cbn [map List.filter Nat.add]. rewrite HP.
  destruct (Z.ltb_spec (Z.of_nat n) c).
  - rewrite !Nat.min_l by lia. by rewrite seq_S, map_app.
  - rewrite !Nat.min_r by lia. by rewrite app_nil_r.
Qed.

(** What the bounds of a slice satisfy. *)
Lemma py_range l h n step : 0 <= n -> step <> 0 ->
  let start := pyStart l n step in let stop := pyStop h n step in
  if 0 <? step then 0 <= start <= n /\ 0 <= stop <= n else -1 <= start < n /\ -1 <= stop < n.
Proof.
  intros Hn Hs. unfold pyStart, pyStop, pyBound. destruct l, h, (Z.ltb_spec 0 step); lia.
Qed.

Lemma count_le start stop step n : 0 <= n -> step <> 0 ->
  (if 0 <? step then 0 <= start <= n /\ 0 <= stop <= n else -1 <= start < n /\ -1 <= stop < n) ->
  0 <= count start stop step <= n.
Proof.
  intros Hn Hs HB. unfold count. destruct (Z.ltb_spec 0 step).
  - split; [lia|]. apply Z.max_lub; [lia|]. assert ((stop - start - 1) / step < n); [|lia].
    apply Z.div_lt_upper_bound; nia.
  - split; [lia|]. apply Z.max_lub; [lia|]. assert ((start - stop - 1) / - step < n); [|lia].
    apply Z.div_lt_upper_bound; nia.
Qed.

Lemma positions_seq l h step n : step <> 0 ->
  let start := pyStart l (Z.of_nat n) step in let stop := pyStop h (Z.of_nat n) step in
  positions l h step n =
    map (fun k => start + Z.of_nat k * step) (seq 0 (Z.to_nat (count start stop step))).
Proof.
  intros Hs start stop. unfold positions. fold start. fold stop.
  rewrite (filter_prefix _ _ (count start stop step)); [|intros k; apply count_before; lia].
  pose proof (count_le start stop step (Z.of_nat n) (Nat2Z.is_nonneg n) Hs
    (py_range l h (Z.of_nat n) step (Nat2Z.is_nonneg n) Hs)).
  rewrite Nat.min_r by lia. done.
Qed.

(** The clamped step counts the same and, past one element, is the step. *)
Lemma used_count start stop step n : small n -> step <> 0 ->
  (if 0 <? step then 0 <= start <= n /\ 0 <= stop <= n else -1 <= start < n /\ -1 <= stop < n) ->
  count start stop (usedStep step) = count start stop step /\
  (2 <= count start stop step -> usedStep step = step).
Proof.
  intros [Hn0 Hn1] Hs HB. unfold usedStep. destruct (sliceInt_cases step) as [[_ ->]|Hbig]; [done|].
  assert (forall a m, -2 ^ 62 <= a < 2 ^ 62 -> 2 ^ 62 <= m -> Z.max 0 (a / m + 1) = if 0 <=? a then 1 else 0) as Hq.
  { intros a m Ha Hm. destruct (Z.leb_spec 0 a).
    - rewrite Z.div_small by lia. lia.
    - assert (a / m < 0) by (apply Z.div_lt_upper_bound; lia). lia. }
  unfold count. destruct Hbig as [[Hb ->]|[Hb ->]].
  - rewrite (proj2 (Z.ltb_lt 0 step)) in * by lia. rewrite (proj2 (Z.ltb_lt 0 (2 ^ 62))) by lia.
    rewrite !Hq by lia. split; [done|]. case_match; lia.
  - rewrite (proj2 (Z.ltb_ge 0 step)) in * by lia. rewrite (proj2 (Z.ltb_ge 0 (- 2 ^ 62))) by lia.
    rewrite !Hq by lia. split; [done|]. case_match; lia.
Qed.

Lemma go_count start stop step n : small n -> step <> 0 ->
  (if 0 <? step then 0 <= start <= n /\ 0 <= stop <= n else -1 <= start < n /\ -1 <= stop < n) ->
  let st := usedStep step in
  (if (0 <? st) && (start <? stop) then wrap64 (goQuot (wrap64 (wrap64 (stop - start) - 1)) st + 1)
   else if (st <? 0) && (stop <? start)
        then wrap64 (goQuot (wrap64 (wrap64 (start - stop) - 1)) (wrap64 (- st)) + 1)
   else 0) = count start stop step.
Proof.
  intros [Hn0 Hn1] Hs HB st. destruct (used_count start stop step n (conj Hn0 Hn1) Hs HB) as [<- _].
  destruct (sliceInt_range step) as [Hr Hsg]. fold (usedStep step) in Hr, Hsg. fold st in Hr, Hsg |- *.
  assert (- 2 ^ 62 <= stop - start <= 2 ^ 62) as Hd by (destruct (Z.ltb_spec 0 step); lia).
  assert (st <> 0) as Hst by lia. clearbody st. clear HB Hsg. unfold count, goQuot.
  assert (forall a m, 0 <= a -> 0 < m -> 0 <= a / m <= a) as Hq.
  { intros a m Ha Hm. split; [by apply Z.div_pos|]. apply Z.div_le_upper_bound; nia. }
  rewrite (wrap_id (stop - start)), (wrap_id (stop - start - 1)), (wrap_id (start - stop)), (wrap_id (start - stop - 1)) by lia.
  destruct (Z.ltb_spec 0 st), (Z.ltb_spec start stop); simpl.
  - rewrite Z.quot_div_nonneg by lia. specialize (Hq (stop - start - 1) st). rewrite !wrap_id by (rewrite ?wrap_id; lia). lia.
  - rewrite (proj2 (Z.ltb_ge st 0)) by lia. simpl. assert ((stop - start - 1) / st < 0) by (apply Z.div_lt_upper_bound; lia). lia.
  - rewrite (proj2 (Z.ltb_lt st 0)), (proj2 (Z.ltb_ge stop start)) by lia. simpl.
    assert ((start - stop - 1) / - st < 0) by (apply Z.div_lt_upper_bound; lia). lia.
  - rewrite (proj2 (Z.ltb_lt st 0)) by lia. simpl. destruct (Z.ltb_spec stop start).
    2: { assert ((start - stop - 1) / - st < 0) by (apply Z.div_lt_upper_bound; lia). lia. }
    assert (Z.quot (start - stop - 1) (wrap64 (- st)) = (start - stop - 1) / - st) as ->.
    { destruct (decide (st = - 2 ^ 63)) as [-> |Hne].
      - change (wrap64 (- - 2 ^ 63)) with (- 2 ^ 63). rewrite Z.quot_opp_r, Z.quot_small, Z.div_small by lia. done.
      - rewrite wrap_id by lia. apply Z.quot_div_nonneg; lia. }
    specialize (Hq (start - stop - 1) (- st)). rewrite !wrap_id by (rewrite ?wrap_id; lia). lia.
Qed.

Lemma part_exact p v : reads p v ->
  slicePart p = inl (match v with Some z => (sliceInt z, true) | None => (0, false) end).
Proof. by destruct 1. Qed.

Lemma sliceIndices_spec lo hi sp l h s n :
  reads lo l -> reads hi h -> reads sp s -> small n -> pyStep s <> 0 ->
  let step := pyStep s in
  sliceIndices lo hi sp n =
    inl (pyStart l n step, usedStep step, count (pyStart l n step) (pyStop h n step) step).
Proof.
  intros Hl Hh Hs Hn H0 step. pose proof Hn as [Hn0 Hn1].
  destruct (sliceInt_range step) as [_ Hsg]. fold (usedStep step) in Hsg.
  assert ((usedStep step <? 0) = negb (0 <? step)) as Hneg.
  { unfold step in *. destruct (Z.ltb_spec (usedStep (pyStep s)) 0), (Z.ltb_spec 0 (pyStep s)); try done; lia. }
  assert (sliceBounds lo hi sp n = inl (pyStart l n step, pyStop h n step, usedStep step)) as HB.
  { unfold sliceBounds. rewrite (part_exact _ _ Hs), (part_exact _ _ Hl), (part_exact _ _ Hh).
    assert (match s with Some z => (sliceInt z, true) | None => (0, false) end =
            (if match s with Some _ => true | None => false end then usedStep step else 0,
             match s with Some _ => true | None => false end)) as -> by (unfold step; by destruct s).
    assert (usedStep step <> 0) by (unfold step in *; lia).
    destruct s as [z|]; simpl andb; cbn iota.
    - rewrite (proj2 (Z.eqb_neq _ 0)) by done. rewrite Hneg, (wrap_id (n - 1)) by lia.
      unfold pyStart, pyStop. destruct l, h; rewrite ?clamp_exact by done; by destruct (0 <? step).
    - unfold pyStart, pyStop. change (pyStep None) with 1 in *. change (usedStep step) with 1.
      destruct l, h; rewrite ?(clamp_exact _ _ 1) by done; done. }
  unfold sliceIndices. rewrite HB. f_equal. f_equal.
  apply (go_count _ _ step n); [done|done|]. by apply py_range.
Qed.

Lemma sliceIndices_zero lo hi sp n : reads sp (Some 0) ->
  sliceIndices lo hi sp n = inr ("ValueError", "slice step cannot be zero").
Proof. intros H. unfold sliceIndices, sliceBounds. by rewrite (part_exact _ _ H). Qed.

(** ** The loops *)

Lemma positions_used l h step n : small (Z.of_nat n) -> step <> 0 ->
  let start := pyStart l (Z.of_nat n) step in
  let m := Z.to_nat (count start (pyStop h (Z.of_nat n) step) step) in
  positions l h step n = map (fun k => start + Z.of_nat k * usedStep step) (seq 0 m) /\
  (2 <= m -> usedStep step = step)%nat.
Proof.
  intros Hn Hs start m. rewrite positions_seq by done. fold start. fold m.
  destruct (used_count start (pyStop h (Z.of_nat n) step) step (Z.of_nat n) Hn Hs) as [_ Hu];
    [apply py_range; [lia|done]|].
  assert (2 <= m -> usedStep step = step)%nat as Hu' by (intros; apply Hu; lia).
  split; [|done]. clearbody m. destruct m as [|[|m]]; [done|simpl; f_equal; lia|]. by rewrite Hu' by lia.
Qed.

Lemma positions_range l h step n : small (Z.of_nat n) -> step <> 0 ->
  Forall (fun i => 0 <= i < Z.of_nat n) (positions l h step n).
Proof.
  intros Hn Hs. pose proof (py_range l h (Z.of_nat n) step ltac:(lia) Hs) as HB. cbn zeta in HB.
  apply Forall_forall. intros i Hi. unfold positions in Hi.
  apply list_elem_of_In, filter_In in Hi as [Hi Hb]. apply in_map_iff in Hi as (k & <- & _).
  unfold before in Hb. destruct (Z.ltb_spec 0 step).
  - apply Z.ltb_lt in Hb. nia.
  - apply Z.ltb_lt in Hb. nia.
Qed.

(** The indices [j], [j + st], ... *)
Definition run (j st : Z) (m : nat) : list Z := map (fun k => j + Z.of_nat k * st) (seq 0 m).
#[local] Arguments run : simpl never.

Lemma run_S j st m : run j st (S m) = j :: run (j + st) st m.
Proof.
  unfold run. simpl. f_equal; [lia|]. rewrite <- seq_shift, map_map. apply map_ext. intros k. lia.
Qed.

Lemma run_elem j st m i : i ∈ run j st m <-> exists k, 0 <= k < Z.of_nat m /\ i = j + k * st.
Proof.
  unfold run. rewrite list_elem_of_fmap. split.
  - intros (k & -> & Hk%list_elem_of_In%in_seq). exists (Z.of_nat k). lia.
  - intros (k & Hk & ->). exists (Z.to_nat k). rewrite Z2Nat.id by lia. split; [done|].
    apply list_elem_of_In, in_seq. lia.
Qed.

Section Loops.
Context {A : Type}.
Implicit Types xs ys items : list A.

Definition inside xs (ps : list Z) : Prop := Forall (fun i => 0 <= i < Z.of_nat (length xs)) ps.

Lemma goIndex_some xs j : 0 <= j < Z.of_nat (length xs) -> exists x, goIndex xs j = Some x /\ xs !! Z.to_nat j = Some x.
Proof.
  intros Hj. destruct (lookup_lt_is_Some_2 xs (Z.to_nat j)) as [x Hx]; [lia|].
  exists x. unfold goIndex. by rewrite (proj2 (Z.leb_le 0 j)) by lia.
Qed.

(** The next index does not wrap while there is one. *)
Lemma run_succ xs j st m : small (Z.of_nat (length xs)) -> inside xs (run j st (S m)) ->
  0 <= j < Z.of_nat (length xs) /\ inside xs (run (j + st) st m) /\ (m = O \/ wrap64 (j + st) = j + st).
Proof.
  intros [Hn0 Hn1] H. rewrite run_S in H. apply Forall_cons in H as [Hj Hr]. split_and!; [lia|lia|done|].
  destruct m as [|m]; [by left|right]. rewrite run_S in Hr. apply Forall_cons in Hr as [? _].
  apply wrap_id. lia.
Qed.

Lemma pickSlice_run xs st m : forall j, small (Z.of_nat (length xs)) -> inside xs (run j st m) ->
  pickSlice xs j st m = Some (pick xs (run j st m)).
Proof.
  induction m as [|m IH]; intros j Hn HI; [done|].
  destruct (run_succ xs j st m Hn HI) as (Hj & HI' & Hw). cbn [pickSlice].
  destruct (goIndex_some xs j Hj) as (x & -> & Hx). rewrite run_S. simpl. rewrite Hx.
  destruct Hw as [-> | ->]; [done|]. rewrite IH by done. done.
Qed.

Lemma pick_length xs ps : inside xs ps -> length (pick xs ps) = length ps.
Proof.
  induction 1 as [|i ps Hi _ IH]; [done|]. destruct (goIndex_some xs i Hi) as (x & _ & Hx).
  simpl. rewrite Hx. simpl. by rewrite IH.
Qed.

(** After the assignment loop the run holds the items, the rest is as it was. *)
Lemma setLoop_run st items : st <> 0 -> forall xs j, small (Z.of_nat (length xs)) ->
  inside xs (run j st (length items)) ->
  exists ys, setLoop xs j st items = Some ys /\ length ys = length xs /\
    pick ys (run j st (length items)) = items /\
    forall i, 0 <= i -> i ∉ run j st (length items) -> ys !! Z.to_nat i = xs !! Z.to_nat i.
Proof.
  intros Hst. induction items as [|x items IH]; intros xs j Hn HI; [by exists xs|].
  cbn [length] in HI |- *. destruct (run_succ xs j st _ Hn HI) as (Hj & HI' & Hw).
  cbn [setLoop]. destruct (goIndex_some xs j Hj) as (y & -> & Hy). cbn [mbind option_bind].
  set (xs' := <[Z.to_nat j := x]> xs).
  assert (length xs' = length xs) as Hlen by apply length_insert.
  assert (j ∉ run (j + st) st (length items)) as Hnot by (rewrite run_elem; intros (k & ? & ?); nia).
  destruct (IH xs' (j + st)) as (ys & E & El & Ep & Eo); [by rewrite Hlen|unfold inside; by rewrite Hlen|].
  exists ys. split_and!; [|by rewrite El|..].
  - destruct Hw as [Hm | ->]; [|exact E]. destruct items; [exact E|done].
  - rewrite run_S. cbn [pick]. rewrite Ep, Eo by (done || lia).
    unfold xs'. by rewrite list_lookup_insert_eq by lia.
  - intros i Hi Hni. rewrite run_S, not_elem_of_cons in Hni. destruct Hni as [Hij Hni].
    rewrite Eo by done. unfold xs'. apply list_lookup_insert_ne. lia.
Qed.

(** The indices a deletion keeps. *)
Definition kept (n : nat) (ps : list Z) : list Z :=
  List.filter (fun i => negb (existsb (Z.eqb i) ps)) (map Z.of_nat (seq 0 n)).

Fixpoint keep (i : Z) xs (ps : list Z) : list A :=
  match xs with
  | [] => []
  | x :: xs => if existsb (Z.eqb i) ps then keep (i + 1) xs ps else x :: keep (i + 1) xs ps
  end.

Lemma keep_ext xs ps qs : forall i, (forall j, i <= j -> j ∈ ps <-> j ∈ qs) -> keep i xs ps = keep i xs qs.
Proof.
  induction xs as [|x xs IH]; intros i H; [done|]. simpl.
  assert (existsb (Z.eqb i) ps = existsb (Z.eqb i) qs) as ->.
  { apply eq_true_iff_eq. rewrite !existsb_exists. specialize (H i ltac:(lia)). rewrite !list_elem_of_In in H.
    split; intros (y & Hy & E%Z.eqb_eq); subst y; exists i; rewrite Z.eqb_refl; tauto. }
  rewrite IH; [done|]. intros j Hj. apply H. lia.
Qed.

Lemma keep_kept xs ps : keep 0 xs ps = pick xs (kept (length xs) ps).
Proof.
  assert (forall l pre, keep (Z.of_nat (length pre)) l ps =
    pick (pre ++ l) (List.filter (fun i => negb (existsb (Z.eqb i) ps)) (map Z.of_nat (seq (length pre) (length l))))) as H.
  { induction l as [|x l IH]; intros pre; [done|]. cbn [keep length seq map List.filter].
    replace (Z.of_nat (length pre) + 1) with (Z.of_nat (length (pre ++ [x]))) by (rewrite length_app; simpl; lia).
    rewrite IH, <- app_assoc, length_app, Nat.add_1_r. simpl app.
    destruct (existsb _ ps); simpl; [done|].
    by rewrite Nat2Z.id, list_lookup_middle by done. }
  apply (H xs []).
Qed.

Lemma keep_nil xs i : keep i xs [] = xs.
Proof. revert i. induction xs as [|x xs IH]; intros i; [done|]. simpl. by rewrite IH. Qed.

Lemma delLoop_run st : forall xs i next m,
  0 <= i -> (m <= 1)%nat \/ 0 < st -> Forall (fun p => i <= p < 2 ^ 62) (run next st m) ->
  delLoop xs i next st m = keep i xs (run next st m).
Proof.
  induction xs as [|x xs IH]; intros i next m Hi Hm HF; [done|].
  destruct m as [|m].
  { simpl. f_equal. rewrite (IH (i + 1) next O) by (auto with lia). by rewrite !keep_nil. }
  rewrite run_S in HF |- *. apply Forall_cons in HF as [Hx HF]. cbn [delLoop keep existsb].
  assert (forall p, p ∈ run (next + st) st m -> next < p) as Hafter.
  { intros p (k & Hk & ->)%run_elem. destruct Hm; [lia|nia]. }
  destruct (Z.eqb_spec i next) as [-> |Hne]; simpl.
  - assert (delLoop xs (next + 1) (wrap64 (next + st)) st m = keep (next + 1) xs (run (next + st) st m)) as ->.
    { destruct m as [|m]; [by rewrite (IH _ _ O) by (auto with lia); rewrite !keep_nil|].
      rewrite run_S in HF. pose proof HF as HF'. apply Forall_cons in HF' as [? _]. rewrite wrap_id by lia.
      apply IH; [lia|right; lia|]. rewrite run_S. rewrite Forall_forall in HF |- *. intros p Hp.
      rewrite <- run_S in Hp. specialize (Hafter p Hp). rewrite run_S in Hp. specialize (HF p Hp). lia. }
    apply keep_ext. intros j Hj. rewrite elem_of_cons. split; [auto|]. intros [-> |]; [lia|done].
  - assert (existsb (Z.eqb i) (run (next + st) st m) = false) as ->.
    { apply not_true_is_false. intros (p & Hp & <-%Z.eqb_eq)%existsb_exists. apply list_elem_of_In, Hafter in Hp. lia. }
    f_equal. rewrite IH, run_S; [done|lia|done|]. rewrite run_S. apply Forall_cons_2; [lia|].
    rewrite Forall_forall in HF |- *. intros p Hp. specialize (HF p Hp). specialize (Hafter p Hp). lia.
Qed.
End Loops.

(** ** Slices read, assigned and deleted *)

Lemma keep_span {A} (xs : list A) : forall i start m, i <= start ->
  keep i xs (run start 1 m) =
    take (Z.to_nat (start - i)) xs ++ drop (Z.to_nat (start - i) + m) xs.
Proof.
  induction xs as [|x xs IH]; intros i start m Hi; [by rewrite take_nil, drop_nil|].
  destruct m as [|m]; [by rewrite keep_nil, Nat.add_0_r, take_drop|].
  cbn [keep]. destruct (decide (i = start)) as [-> |Hne].
  - rewrite Z.sub_diag. rewrite (keep_ext xs (run start 1 (S m)) (run (start + 1) 1 m)).
    2: { intros j Hj. rewrite run_S, elem_of_cons. split; [|auto]. intros [-> |]; [lia|done]. }
    assert (existsb (Z.eqb start) (run start 1 (S m)) = true) as ->.
    { rewrite run_S. simpl. by rewrite Z.eqb_refl. }
    rewrite IH by lia. by rewrite Z.sub_diag.
  - assert (existsb (Z.eqb i) (run start 1 (S m)) = false) as ->.
    { apply not_true_is_false. intros (p & Hp & <-%Z.eqb_eq)%existsb_exists.
      apply list_elem_of_In, run_elem in Hp as (k & ? & ?). lia. }
    rewrite IH by lia. replace (Z.to_nat (start - i)) with (S (Z.to_nat (start - (i + 1)))) by lia. done.
Qed.

Section Exact.
Context {A : Type} (xs : list A) (lo hi sp : part) (l h s : option Z).
Context (Hlo : reads lo l) (Hhi : reads hi h) (Hsp : reads sp s).
Context (Hn : small (Z.of_nat (length xs))).

Let step : Z := pyStep s.
Let start : Z := pyStart l (Z.of_nat (length xs)) step.
Let m : Z := count start (pyStop h (Z.of_nat (length xs)) step) step.
Let ps : list Z := positions l h step (length xs).

Lemma indices_known : step <> 0 ->
  sliceIndices lo hi sp (Z.of_nat (length xs)) = inl (start, usedStep step, m) /\
  ps = run start (usedStep step) (Z.to_nat m) /\ inside xs ps /\ 0 <= m <= Z.of_nat (length xs) /\
  (2 <= m -> usedStep step = step) /\ length ps = Z.to_nat m.
Proof.
  intros H0. destruct (positions_used l h step (length xs) Hn H0) as [Ep Hu].
  fold start in Ep, Hu. fold m in Ep, Hu.
  assert (0 <= m <= Z.of_nat (length xs)) as Hm.
  { apply count_le; [lia|done|]. apply py_range; [lia|done]. }
  split_and!; [by apply (sliceIndices_spec lo hi sp l h s)|exact Ep|by apply positions_range|lia|lia| |].
  - intros. apply Hu. lia.
  - unfold ps. by rewrite Ep, length_map, length_seq.
Qed.

Lemma usedStep_one : usedStep step = 1 <-> step = 1.
Proof. unfold usedStep. split; [|by intros ->]. destruct (sliceInt_cases step) as [[_ ->]|[[? ->]|[? ->]]]; lia. Qed.

Lemma GetSlice_positions : step <> 0 -> GetSlice xs lo hi sp = Some (inl (pick xs ps)).
Proof.
  intros H0. destruct (indices_known H0) as (E & Ep & HI & _). unfold GetSlice. rewrite E.
  rewrite pickSlice_run; [by rewrite <- Ep|done|by rewrite <- Ep].
Qed.

(** A contiguous slice lies between its start and its end. *)
Lemma span_inside : step = 1 -> 0 <= start /\ start + m <= Z.of_nat (length xs).
Proof.
  intros H1. pose proof (py_range l h (Z.of_nat (length xs)) step ltac:(lia) ltac:(lia)) as HB.
  unfold m, count. rewrite H1 in HB. fold start in HB. simpl in HB. rewrite H1. simpl. rewrite Z.div_1_r.
  unfold start in *. rewrite H1 in *. lia.
Qed.

Lemma splice_exact items : step = 1 ->
  splice xs items start m = Some (take (Z.to_nat start) xs ++ items ++ drop (Z.to_nat start + length ps) xs).
Proof.
  intros H1. destruct (indices_known ltac:(lia)) as (_ & _ & _ & ? & _ & ->). pose proof (span_inside H1).
  destruct Hn. unfold splice, goTo, goFrom, inSlice. rewrite wrap_id by lia.
  rewrite !(proj2 (Z.leb_le _ _)) by lia. simpl. by rewrite Z2Nat.inj_add by lia.
Qed.

Lemma SetSlice_contiguous items : step = 1 ->
  SetSlice xs lo hi sp (inl items) =
    Some (inl (take (Z.to_nat start) xs ++ items ++ drop (Z.to_nat start + length ps) xs)).
Proof.
  intros H1. destruct (indices_known ltac:(lia)) as (E & _). unfold SetSlice. rewrite E.
  rewrite (proj2 usedStep_one) by done. simpl. by rewrite splice_exact.
Qed.

Lemma SetSlice_extended items : step <> 0 -> step <> 1 ->
  if (length items =? length ps)%nat then
    exists ys, SetSlice xs lo hi sp (inl items) = Some (inl ys) /\ length ys = length xs /\
      pick ys ps = items /\ forall i, 0 <= i -> i ∉ ps -> ys !! Z.to_nat i = xs !! Z.to_nat i
  else SetSlice xs lo hi sp (inl items) =
    Some (inr (sizeError (Z.of_nat (length items)) (Z.of_nat (length ps)))).
Proof.
  intros H0 H1. destruct (indices_known H0) as (E & Ep & HI & Hm & _ & Hlen). unfold SetSlice. rewrite E.
  rewrite (proj2 (Z.eqb_neq _ 1)) by (by rewrite usedStep_one). rewrite Hlen, Z2Nat.id by lia.
  destruct (Nat.eqb_spec (length items) (Z.to_nat m)) as [El|El].
  - rewrite (proj2 (Z.eqb_eq _ m)) by lia. simpl.
    destruct (setLoop_run (usedStep step) items) with (xs := xs) (j := start) as (ys & Es & ? & Hp & Ho).
    + destruct (sliceInt_range step). unfold usedStep. lia.
    + done.
    + by rewrite El, <- Ep.
    + rewrite El, <- Ep in Hp, Ho. exists ys. rewrite Es. done.
  - rewrite (proj2 (Z.eqb_neq _ m)) by lia. done.
Qed.

Lemma DelSlice_extended : step <> 0 -> step <> 1 -> m <> 0 ->
  let used := usedStep step in
  delLoop xs 0 (if used <? 0 then wrap64 (start + wrap64 ((m - 1) * used)) else start)
    (if used <? 0 then wrap64 (- used) else used) (Z.to_nat m) = keep 0 xs ps.
Proof.
  intros H0 H1 Hm0 used. destruct (indices_known H0) as (_ & Ep & HI & Hm & Hu & _). fold used in Ep, Hu.
  destruct (sliceInt_range step) as [Hr Hsg]. fold (usedStep step) in Hr, Hsg. fold used in Hr, Hsg.
  destruct Hn as [_ Hn1]. unfold inside in HI. rewrite Forall_forall in HI.
  destruct (Z.ltb_spec used 0) as [Hneg|Hpos].
  - assert (0 <= start + (m - 1) * used < Z.of_nat (length xs)) as Hlast.
    { apply HI. rewrite Ep. apply run_elem. exists (m - 1). split; [lia|done]. }
    assert (0 <= start < Z.of_nat (length xs)) as Hfirst.
    { apply HI. rewrite Ep. apply run_elem. exists 0. split; lia. }
    rewrite (wrap_id ((m - 1) * used)), wrap_id by lia. rewrite delLoop_run; [|lia| |].
    + apply keep_ext. intros j _. rewrite Ep, !run_elem.
      destruct (decide (used = - 2 ^ 63)) as [E|Hne].
      * assert (m = 1) as -> by (destruct (decide (2 <= m)); [specialize (Hu ltac:(lia)); nia|lia]).
        split; intros (k & Hk & ->); exists 0; assert (k = 0) by lia; subst k; lia.
      * rewrite wrap_id by lia. split; intros (k & Hk & ->); exists (m - 1 - k); split; lia.
    + destruct (decide (2 <= m)); [right|left; lia]. rewrite wrap_id; [lia|]. nia.
    + apply Forall_forall. intros p (k & Hk & ->)%run_elem.
      destruct (decide (2 <= m)); [|assert (k = 0) by lia; subst k; lia].
      rewrite wrap_id by nia. nia.
  - rewrite delLoop_run; [by rewrite Ep|lia|right; lia|]. apply Forall_forall. intros p Hp.
    rewrite <- Ep in Hp. specialize (HI p Hp). lia.
Qed.

Lemma DelSlice_positions : step <> 0 -> DelSlice xs lo hi sp = Some (inl (pick xs (kept (length xs) ps))).
Proof.
  intros H0. destruct (indices_known H0) as (E & Ep & HI & Hm & _ & Hlen). unfold DelSlice. rewrite E.
  rewrite <- keep_kept. destruct (Z.eqb_spec m 0) as [Hz|Hz].
  { rewrite Ep, Hz. by rewrite keep_nil. }
  destruct (Z.eqb_spec (usedStep step) 1) as [E1|E1].
  - apply usedStep_one in E1. rewrite splice_exact by done. simpl. do 2 f_equal. rewrite Ep.
    rewrite (proj2 usedStep_one) by done. pose proof (span_inside E1).
    rewrite keep_span by lia. rewrite Z.sub_0_r. unfold run. by rewrite length_map, length_seq.
  - rewrite usedStep_one in E1. by rewrite DelSlice_extended.
Qed.
End Exact.

(** ** Theorems *)

(** C29: reading a slice of a list returns what Python's definition gives: for
    every list shorter than 2^62, bounds and steps of any size (a step or a
    bound beyond 64 bits is replaced by a sentinel, the most negative step
    negates to itself), no index leaves the list, and the result has the
    elements at Python's positions, enumerated in unbounded arithmetic.  A zero
    step is the ValueError. *)
Theorem GetSlice_exact {A} (xs : list A) lo hi sp l h s :
  reads lo l -> reads hi h -> reads sp s -> small (Z.of_nat (length xs)) ->
  GetSlice xs lo hi sp =
    Some (if pyStep s =? 0 then inr ("ValueError", "slice step cannot be zero")
          else inl (pick xs (positions l h (pyStep s) (length xs)))).
Proof.
  intros Hl Hh Hs Hn. destruct (Z.eqb_spec (pyStep s) 0) as [E|E].
  - unfold GetSlice. rewrite sliceIndices_zero; [done|]. destruct s; [|done]. simpl in E. by subst.
  - by apply (GetSlice_positions xs lo hi sp l h s).
Qed.

Lemma GetSlice_exact_witness :
  GetSlice [10; 11; 12; 13] (PartInt (2 ^ 100)) PartNone (PartInt (- 2 ^ 63)) = Some (inl [13]) /\
  GetSlice [10; 11; 12; 13] PartNone PartNone (PartIndex (inl (-2))) = Some (inl [13; 11]).
Proof.
  split.
  - rewrite (GetSlice_exact [10; 11; 12; 13] _ _ _ _ _ _ (R_int (2 ^ 100)) R_none (R_int (- 2 ^ 63))); [reflexivity|].
    unfold small. simpl. lia.
  - rewrite (GetSlice_exact [10; 11; 12; 13] _ _ _ _ _ _ R_none R_none (R_index (-2))); [reflexivity|].
    unfold small. simpl. lia.
Defined.

(** C30: writing a slice and reading it back.  A deletion keeps exactly the
    elements outside the slice, in order.  An assignment with step 1 replaces
    the span; with another step it needs as many items as the slice has and is
    the ValueError otherwise; then the slice reads back as the items and every
    element outside it is as before. *)
Theorem slice_write {A} (xs items : list A) lo hi sp l h s :
  reads lo l -> reads hi h -> reads sp s -> small (Z.of_nat (length xs)) -> pyStep s <> 0 ->
  let ps := positions l h (pyStep s) (length xs) in
  let start := Z.to_nat (pyStart l (Z.of_nat (length xs)) (pyStep s)) in
  DelSlice xs lo hi sp = Some (inl (pick xs (kept (length xs) ps))) /\
  if pyStep s =? 1 then
    SetSlice xs lo hi sp (inl items) = Some (inl (take start xs ++ items ++ drop (start + length ps) xs))
  else if (length items =? length ps)%nat then
    exists ys, SetSlice xs lo hi sp (inl items) = Some (inl ys) /\ length ys = length xs /\
      GetSlice ys lo hi sp = Some (inl items) /\
      forall i, 0 <= i -> i ∉ ps -> ys !! Z.to_nat i = xs !! Z.to_nat i
  else SetSlice xs lo hi sp (inl items) =
    Some (inr (sizeError (Z.of_nat (length items)) (Z.of_nat (length ps)))).
Proof.
  intros Hl Hh Hs Hn H0 ps start. split; [by apply (DelSlice_positions xs lo hi sp l h s)|].
  destruct (Z.eqb_spec (pyStep s) 1) as [E|E]; [by apply (SetSlice_contiguous xs lo hi sp l h s)|].
  pose proof (SetSlice_extended xs lo hi sp l h s Hl Hh Hs Hn items H0 E) as Hx. fold ps in Hx.
  destruct (length items =? length ps)%nat; [|exact Hx]. destruct Hx as (ys & Ey & El & Ep & Eo).
  exists ys. split_and!; [done|done| |done].
  rewrite (GetSlice_positions ys lo hi sp l h s Hl Hh Hs); [|by rewrite El|done]. rewrite El. fold ps. by rewrite Ep.
Qed.

Lemma slice_write_witness :
  let xs := [0; 1; 2; 3; 4] in
  DelSlice xs PartNone PartNone (PartInt (-2)) = Some (inl [1; 3]) /\
  exists ys, SetSlice xs PartNone PartNone (PartInt (-2)) (inl [7; 8; 9]) = Some (inl ys) /\
    GetSlice ys PartNone PartNone (PartInt (-2)) = Some (inl [7; 8; 9]) /\ ys !! 1%nat = Some 1.
Proof.
  destruct (slice_write [0; 1; 2; 3; 4] [7; 8; 9] _ _ _ _ _ _ R_none R_none (R_int (-2)))
    as [Hd (ys & E & _ & Hg & Ho)]; [unfold small; simpl; lia|done|].
  split.
  - exact Hd.
  - exists ys. split_and!; [exact E|exact Hg|]. rewrite <- (Z2Nat.id 1) by done. apply (Ho 1); [done|].
    vm_compute. set_solver.
Defined.
