(* ===== verification/HashKey.v ===== *)
(** * HashKey: the canonical encoding of dict keys

    Model of [hashKey] and [dictKey] of src/pkg/objects/dict.go and of the
    frozenset and set-element keys of set.go: a hashable object becomes a
    string, and two keys share a slot when their strings are equal.  Pointers
    are ints; a frozenset is its elements beside the keys they were stored
    under; what the encoding reads of an instance (its hash and equality
    methods, its builtin payload) is recorded in its node.  The right of a sum
    is a Python exception (kind and message). *)

From Stdlib Require Import SpecFloat.
From stdpp Require Import sorting.
From S2P Require Import Prelude Int64 Bytes.
Local Open Scope Z_scope.

Definition pyerr : Type := string * string.

Inductive obj :=
  | ONone
  | OBool (b : bool)
  | OInt (z : Z)
  | OFloat (f : spec_float) (ptr : Z)
  | OStr (s : string)
  | OBytes (s : string)
  | OTuple (elts : list obj)
  | OFrozenset (items : list (string * obj))
  | OSlice (start stop step : obj)
  | OKwMark
  | OUnion (args : list obj)
  | OIdent (tname : string) (ptr : Z)
  | OBound (fn : Z) (self : obj)
  | OWeakref (referent : obj)
  | OAlias (origin : obj) (args : list obj)
  | OInstance (tname : string) (ptr : Z) (hash : (option Z * bool) + pyerr) (payload : option obj) (frail : bool)
  | OUnhashable (tname : string).

Definition TypeName (o : obj) : string :=
  match o with
  | ONone => "NoneType" | OBool _ => "bool" | OInt _ => "int" | OFloat _ _ => "float"
  | OStr _ => "str" | OBytes _ => "bytes" | OTuple _ => "tuple" | OFrozenset _ => "frozenset"
  | OSlice _ _ _ => "slice" | OKwMark => "object" | OUnion _ => "typing.Union" | OBound _ _ => "method"
  | OWeakref _ => "weakref" | OAlias _ _ => "types.GenericAlias"
  | OIdent t _ | OInstance t _ _ _ _ | OUnhashable t => t
  end.

(** ** Formatting *)

Definition hexDigit (d : Z) : ascii :=
  match String.get (Z.to_nat d) "0123456789abcdef" with Some c => c | None => "0" end.

Fixpoint hexLoop (fuel : nat) (n : Z) (acc : string) : string :=
  match fuel with
  | O => acc
  | S fuel => if n =? 0 then acc else hexLoop fuel (n / 16) (String (hexDigit (n mod 16)) acc)
  end.

(** [strconv.FormatUint(n, 16)], and [FormatInt] of a signed value. *)
Definition hex (n : Z) : string := if n =? 0 then "0" else hexLoop (S (Z.to_nat (Z.log2 n))) n "".
Definition hexInt (z : Z) : string := if z <? 0 then "-" +:+ hex (- z) else hex z.

(** [%p]. *)
Definition fmtPtr (p : Z) : string := "0x" +:+ hex p.

(** [math.Float64bits]. *)
Definition Float64bits (f : spec_float) : Z :=
  let sign (s : bool) := if s then 2 ^ 63 else 0 in
  match f with
  | S754_zero s => sign s
  | S754_infinity s => sign s + 2047 * 2 ^ 52
  | S754_nan => 2047 * 2 ^ 52 + 2 ^ 51
  | S754_finite s m e =>
      sign s + (if Z.pos m <? 2 ^ 52 then Z.pos m else (e + 1075) * 2 ^ 52 + (Z.pos m - 2 ^ 52))
  end.

(** The integer a float is equal to: the test [v == math.Trunc(v)] and the two
    conversions, by [int64] and by [big.Float]. *)
Definition floatInt (f : spec_float) : option Z :=
  match f with
  | S754_zero _ => Some 0
  | S754_finite s m e =>
      let sg z := if s then - z else z in
      if 0 <=? e then Some (sg (Z.pos m * 2 ^ e))
      else if Z.pos m mod 2 ^ (- e) =? 0 then Some (sg (Z.pos m / 2 ^ (- e)))
      else None
  | _ => None
  end.

(** [pyHashPointer]: the address rotated by four bits, as an int64. *)
Definition pyHashPointer (p : Z) : Z :=
  let y := Z.lor (Z.shiftr p 4) (toUint64 (Z.shiftl p 60)) in
  let r := wrap64 y in
  if r =? -1 then -2 else r.

(** ** The encoding *)

(** A part with its length in front. *)
Definition part (k : string) : string := itoa (Z.of_nat (String.length k)) +:+ ":" +:+ k.
Definition parts (ks : list string) : string := String.concat "" (map part ks).

(** [sort.Strings]. *)
Definition sortStrs (l : list string) : list string := merge_sort String.le l.

Definition frozenKey (keys : list string) : string := "F" +:+ parts (sortStrs keys).

Definition unhashable (t : string) : pyerr := ("TypeError", "unhashable type: '" +:+ t +:+ "'").

Fixpoint hashKey (o : obj) : string + pyerr :=
  let keysOf := fix keysOf (l : list obj) : list string + pyerr :=
    match l with
    | [] => inl []
    | e :: l => match hashKey e with
                | inr x => inr x
                | inl k => match keysOf l with inl ks => inl (k :: ks) | inr x => inr x end
                end
    end in
  match o with
  | ONone => inl "N"
  | OBool true => inl "i1"
  | OBool false => inl "i0"
  | OInt z => inl ("i" +:+ itoa z)
  | OFloat S754_nan p => inl ("n" +:+ hexInt (pyHashPointer p))
  | OFloat f _ =>
      match floatInt f with Some n => inl ("i" +:+ itoa n) | None => inl ("f" +:+ hex (Float64bits f)) end
  | OStr s => inl ("s" +:+ s)
  | OBytes s => inl ("b" +:+ s)
  | OTuple elts => match keysOf elts with inl ks => inl ("t" +:+ parts ks) | inr x => inr x end
  | OFrozenset items => inl (frozenKey (map fst items))
  | OSlice a b c =>
      match hashKey a, hashKey b, hashKey c with
      | inr x, _, _ | inl _, inr x, _ | inl _, inl _, inr x => inr x
      | inl ka, inl kb, inl kc => inl ("S" +:+ parts [ka; kb; kc])
      end
  | OKwMark => inl (String "000" "K")
  | OUnion args =>
      match keysOf args with inl ks => inl ("U" +:+ String.concat "|" (sortStrs ks)) | inr x => inr x end
  | OIdent _ p => inl ("p" +:+ fmtPtr p)
  | OBound fn self => match hashKey self with inl k => inl ("M" +:+ fmtPtr fn +:+ ":" +:+ k) | inr x => inr x end
  | OWeakref r => match hashKey r with inl k => inl ("w" +:+ k) | inr x => inr x end
  | OAlias origin args =>
      match hashKey origin, keysOf args with
      | inr x, _ | inl _, inr x => inr x
      | inl ko, inl ks => inl ("G" +:+ ko +:+ "[" +:+ String.concat "," ks +:+ "]")
      end
  | OInstance t p (inr x) _ _ => inr x
  | OInstance t p (inl (hash, eqDefined)) payload frail =>
      match hash, eqDefined, payload with
      | Some v, true, _ => inl ("H" +:+ itoa v)
      | _, false, Some bv => hashKey bv
      | None, _, _ => if frail then inr (unhashable t) else inl ("p" +:+ fmtPtr p)
      | Some _, false, None => inl ("p" +:+ fmtPtr p)
      end
  | OUnhashable t => inr (unhashable t)
  end.

(** At the dict and set boundaries the key's own type is named. *)
Definition boundary (what : string) (o : obj) : string + pyerr :=
  match hashKey o with
  | inl k => inl k
  | inr (kind, text) =>
      if String.eqb kind "TypeError"
      then inr ("TypeError", "cannot use '" +:+ TypeName o +:+ "' as a " +:+ what +:+ " (" +:+ text +:+ ")")
      else inr (kind, text)
  end.

Definition dictKey : obj -> string + pyerr := boundary "dict key".
Definition setKey : obj -> string + pyerr := boundary "set element".

(** ** Strings that can be read back *)

Fixpoint allChars (P : ascii -> bool) (s : string) : bool :=
  match s with "" => true | String c s => P c && allChars P s end.

Lemma allChars_itoa P z : P "-"%char = true -> (forall n, P (pretty_N_char n) = true) -> allChars P (itoa z) = true.
Proof.
  intros Hm Hd.
  assert (forall n s, allChars P s = true -> allChars P (pretty_N_go n s) = true) as Hgo.
  { intros n. induction (N.lt_wf_0 n) as [n _ IH]. intros s Hs. destruct (decide (0 < n)%N) as [Hn|Hn].
    - rewrite pretty_N_go_step by done. apply IH; [by apply N.div_lt|]. simpl. by rewrite Hs, Hd.
    - assert (n = 0%N) as -> by lia. by rewrite pretty_N_go_0. }
  assert (forall n : N, allChars P (pretty n) = true) as HN.
  { intros n. unfold pretty, pretty_N. case_decide; [|by apply Hgo]. simpl. by rewrite (Hd 0%N : P "0"%char = true). }
  unfold itoa, pretty, pretty_Z. destruct z as [| |p]; [by apply (HN 0%N)|apply HN|].
  change (P "-"%char && allChars P (pretty (N.pos p)) = true). by rewrite Hm, HN.
Qed.

(** A part without the separator ends at the first one. *)
Lemma split_char c a b x y :
  allChars (fun d => negb (Ascii.eqb d c)) a = true -> allChars (fun d => negb (Ascii.eqb d c)) b = true ->
  a +:+ String c x = b +:+ String c y -> a = b /\ x = y.
Proof.
  revert b. induction a as [|d a IH]; intros [|e b]; simpl; intros Ha Hb E; simplify_eq; try done.
  - by rewrite Ascii.eqb_refl in Hb.
  - by rewrite Ascii.eqb_refl in Ha.
  - apply andb_true_iff in Ha as [_ Ha], Hb as [_ Hb]. destruct (IH b) as [-> ->]; auto.
Qed.

Lemma append_length_inj a b x y : String.length a = String.length b -> a +:+ x = b +:+ y -> a = b /\ x = y.
Proof.
  revert b. induction a as [|c a IH]; intros [|d b]; simpl; intros Hl E; simplify_eq; try done.
  destruct (IH b) as [-> ->]; auto.
Qed.

Lemma itoa_inj x y : itoa x = itoa y -> x = y.
Proof. unfold itoa. apply (inj pretty). Qed.

Lemma part_inj k k' x y : part k +:+ x = part k' +:+ y -> k = k' /\ x = y.
Proof.
  unfold part. rewrite !app_assoc_str. intros E.
  assert (forall z, allChars (fun d => negb (Ascii.eqb d ":")) (itoa z) = true) as Hno.
  { intros z. apply allChars_itoa; [done|]. intros n. unfold pretty_N_char. by repeat case_match. }
  apply split_char in E as [El E]; [|apply Hno..]. apply itoa_inj in El.
  apply append_length_inj in E; [done|lia].
Qed.

Lemma parts_cons k ks : parts (k :: ks) = part k +:+ parts ks.
Proof. destruct ks; [|done]. unfold parts. simpl. induction (part k) as [|c s IH]; [done|]. simpl. by rewrite <- IH. Qed.

Lemma part_nonempty k x : part k +:+ x <> "".
Proof.
  unfold part. rewrite !app_assoc_str. destruct (itoa (Z.of_nat (String.length k))); discriminate.
Qed.

Lemma parts_inj ks ks' : parts ks = parts ks' -> ks = ks'.
Proof.
  revert ks'. induction ks as [|k ks IH]; intros [|k' ks']; [done| | |].
  - rewrite parts_cons. intros E. symmetry in E. by apply part_nonempty in E.
  - rewrite parts_cons. intros E. by apply part_nonempty in E.
  - rewrite !parts_cons. intros [-> E]%part_inj. by rewrite (IH ks').
Qed.

(** ** Hexadecimal *)

Definition hexVal (c : ascii) : Z :=
  let n := Z.of_nat (nat_of_ascii c) in if n <? 58 then n - 48 else n - 87.

Fixpoint unhex (acc : Z) (s : string) : Z :=
  match s with "" => acc | String c s => unhex (acc * 16 + hexVal c) s end.

Lemma hexDigit_spec d : 0 <= d < 16 -> hexVal (hexDigit d) = d /\ hexDigit d <> "-"%char /\ hexDigit d <> ":"%char.
Proof.
  intros Hd. assert (d = 0 \/ d = 1 \/ d = 2 \/ d = 3 \/ d = 4 \/ d = 5 \/ d = 6 \/ d = 7 \/ d = 8 \/ d = 9 \/
    d = 10 \/ d = 11 \/ d = 12 \/ d = 13 \/ d = 14 \/ d = 15) as Hc by lia.
  by repeat destruct Hc as [->|Hc]; try subst d.
Qed.

Lemma hexLoop_unhex fuel : forall n acc, 0 <= n < 16 ^ Z.of_nat fuel ->
  unhex 0 (hexLoop fuel n acc) = unhex n acc.
Proof.
  induction fuel as [|fuel IH]; intros n acc Hn; [simpl in *; f_equal; lia|]. cbn [hexLoop].
  destruct (Z.eqb_spec n 0) as [-> |Hz]; [done|].
  rewrite Nat2Z.inj_succ, Z.pow_succ_r in Hn by lia.
  rewrite IH. 2: { split; [apply Z.div_pos; lia|apply Z.div_lt_upper_bound; lia]. }
  cbn [unhex]. pose proof (Z.mod_pos_bound n 16 ltac:(lia)).
  rewrite (proj1 (hexDigit_spec (n mod 16) ltac:(lia))). f_equal. pose proof (Z.div_mod n 16 ltac:(lia)). lia.
Qed.

Lemma hex_unhex n : 0 <= n -> unhex 0 (hex n) = n.
Proof.
  intros Hn. unfold hex. destruct (Z.eqb_spec n 0) as [-> |Hz]; [done|].
  rewrite hexLoop_unhex; [done|]. split; [done|].
  pose proof (Z.log2_spec n ltac:(lia)) as [_ Hl]. pose proof (Z.log2_nonneg n).
  rewrite Nat2Z.inj_succ, Z2Nat.id by lia.
  eapply Z.lt_le_trans; [exact Hl|]. apply Z.pow_le_mono_l. lia.
Qed.

Lemma hex_inj x y : 0 <= x -> 0 <= y -> hex x = hex y -> x = y.
Proof. intros Hx Hy E. by rewrite <- (hex_unhex x), E, hex_unhex. Qed.

Lemma hex_chars c n : 0 <= n -> (c = "-" \/ c = ":")%char ->
  allChars (fun d => negb (Ascii.eqb d c)) (hex n) = true.
Proof.
  intros Hn Hc.
  assert (forall fuel n acc, 0 <= n -> allChars (fun d => negb (Ascii.eqb d c)) acc = true ->
    allChars (fun d => negb (Ascii.eqb d c)) (hexLoop fuel n acc) = true) as Hl.
  { induction fuel as [|fuel IH]; intros k acc Hk Ha; [done|]. simpl. case_match; [done|].
    apply IH; [by apply Z.div_pos|]. simpl. rewrite Ha, andb_true_r.
    pose proof (Z.mod_pos_bound k 16 ltac:(lia)).
    destruct (hexDigit_spec (k mod 16) ltac:(lia)) as (_ & ? & ?).
    apply negb_true_iff, Ascii.eqb_neq. destruct Hc as [-> | ->]; done. }
  unfold hex. case_match; [by destruct Hc as [-> | ->]|]. by apply Hl.
Qed.

Lemma hexInt_inj x y : hexInt x = hexInt y -> x = y.
Proof.
  assert (forall n s, 0 <= n -> hex n <> String "-" s) as Hno.
  { intros n s Hn E. pose proof (hex_chars "-" n Hn (or_introl eq_refl)) as H. by rewrite E in H. }
  unfold hexInt. destruct (Z.ltb_spec x 0), (Z.ltb_spec y 0); simpl; intros E.
  - injection E as E. apply hex_inj in E; lia.
  - by symmetry in E; apply Hno in E.
  - by apply Hno in E.
  - by apply hex_inj in E.
Qed.

(** ** Python's equality of keys *)

(** A number: a finite one as a multiple of 2^-1074, which every int and every
    double is. *)
Inductive number := Fin (z : Z) | Inf (negative : bool).

Definition ulp : Z := 2 ^ 1074.

Definition numOf (o : obj) : option number :=
  match o with
  | OBool b => Some (Fin (Z.b2z b * ulp))
  | OInt z => Some (Fin (z * ulp))
  | OFloat (S754_zero _) _ => Some (Fin 0)
  | OFloat (S754_infinity s) _ => Some (Inf s)
  | OFloat (S754_finite s m e) _ => Some (Fin ((if s then Z.neg m else Z.pos m) * 2 ^ (e + 1074)))
  | _ => None
  end.

(** Numbers by value across their types, a nan and the identity types by
    identity, containers by their elements: a frozenset when each element of
    either equals one of the other. *)
Inductive keyEq : obj -> obj -> Prop :=
  | E_none : keyEq ONone ONone
  | E_num a b x : numOf a = Some x -> numOf b = Some x -> keyEq a b
  | E_nan p : keyEq (OFloat S754_nan p) (OFloat S754_nan p)
  | E_str s : keyEq (OStr s) (OStr s)
  | E_bytes s : keyEq (OBytes s) (OBytes s)
  | E_tuple l l' : Forall2 keyEq l l' -> keyEq (OTuple l) (OTuple l')
  | E_frozen l l' : Forall (fun p => Exists (fun q => keyEq p.2 q.2) l') l ->
      Forall (fun q => Exists (fun p => keyEq p.2 q.2) l) l' -> keyEq (OFrozenset l) (OFrozenset l')
  | E_slice a b c a' b' c' : keyEq a a' -> keyEq b b' -> keyEq c c' -> keyEq (OSlice a b c) (OSlice a' b' c')
  | E_mark : keyEq OKwMark OKwMark
  | E_ident t t' p : keyEq (OIdent t p) (OIdent t' p)
  | E_bound f a a' : keyEq a a' -> keyEq (OBound f a) (OBound f a')
  | E_weak a a' : keyEq a a' -> keyEq (OWeakref a) (OWeakref a').

(** A double: 53 bits with the leading one, or a subnormal. *)
Definition isDouble (f : spec_float) : bool :=
  match f with
  | S754_finite _ m e =>
      ((2 ^ 52 <=? Z.pos m) && (Z.pos m <? 2 ^ 53) && (-1074 <=? e) && (e <=? 971)) ||
      ((Z.pos m <? 2 ^ 52) && (e =? -1074))
  | _ => true
  end.

Definition address (p : Z) : bool := (0 <=? p) && (p <? 2 ^ 48).

(** Objects whose encoding depends on nothing but their value or address; a
    frozenset has each element once, under its own key. *)
Fixpoint plain (o : obj) : bool :=
  match o with
  | ONone | OBool _ | OInt _ | OStr _ | OBytes _ | OKwMark => true
  | OFrozenset l =>
      forallb (fun '(k, e) => plain e && match hashKey e with inl k' => String.eqb k k' | inr _ => false end) l &&
      bool_decide (NoDup (map fst l))
  | OFloat f p => isDouble f && address p
  | OTuple l => forallb plain l
  | OSlice a b c => plain a && plain b && plain c
  | OIdent _ p => address p
  | OBound f a => address f && plain a
  | OWeakref a => plain a
  | _ => false
  end.

(** ** Numbers *)

Lemma ulp_eq : 2 ^ 1074 = ulp.
Proof. done. Qed.
Lemma ulp_pos : 0 < ulp.
Proof. by apply Z.pow_pos_nonneg. Qed.
Lemma ulp_split e : - 1074 <= e <= 0 -> 2 ^ (- e) * 2 ^ (e + 1074) = ulp.
Proof. intros He. unfold ulp. rewrite <- Z.pow_add_r by lia. f_equal. lia. Qed.
#[local] Opaque ulp.

Lemma double_range s m e : isDouble (S754_finite s m e) = true ->
  -1074 <= e <= 971 /\ Z.pos m < 2 ^ 53 /\ (2 ^ 52 <= Z.pos m \/ e = -1074).
Proof. unfold isDouble. intros H. apply orb_true_iff in H as [H|H]; bool_to_prop; lia. Qed.

Lemma floatInt_spec f p n : isDouble f = true ->
  floatInt f = Some n <-> numOf (OFloat f p) = Some (Fin (n * ulp)).
Proof.
  pose proof ulp_pos as Hu. intros Hd. destruct f as [s|s| |s m e]; simpl; try done.
  { split; [by intros [= <-]|]. intros [= E]. f_equal. nia. }
  apply double_range in Hd as (He & _).
  assert (forall z, (if s then Z.neg m else Z.pos m) = z <-> Z.pos m = (if s then - z else z)) as Hs
    by (intros z; destruct s; lia).
  destruct (Z.leb_spec 0 e).
  - rewrite Z.pow_add_r, ulp_eq by lia. split.
    + intros [= <-]. do 2 f_equal. destruct s; lia.
    + intros [= E]. f_equal. destruct s; nia.
  - pose proof (ulp_split e ltac:(lia)) as Eu. rewrite <- Eu.
    pose proof (Z.pow_pos_nonneg 2 (- e) ltac:(lia) ltac:(lia)). pose proof (Z.pow_pos_nonneg 2 (e + 1074) ltac:(lia) ltac:(lia)).
    destruct (Z.eqb_spec (Z.pos m mod 2 ^ (- e)) 0) as [Hm|Hm].
    + pose proof (Z.div_exact (Z.pos m) (2 ^ (- e)) ltac:(lia)) as [_ Hx]. specialize (Hx Hm). split.
      * intros [= <-]. do 2 f_equal. rewrite Z.mul_assoc. f_equal. apply Hs. destruct s; lia.
      * intros [= E]. rewrite Z.mul_assoc in E. apply Z.mul_cancel_r in E; [|lia]. f_equal. apply Hs in E. destruct s; nia.
    + split; [done|]. intros [= E]. exfalso. rewrite Z.mul_assoc in E. apply Z.mul_cancel_r in E; [|lia]. apply Hs in E.
      apply Hm. rewrite E. destruct s; [rewrite <- Z.mul_opp_l|]; apply Z.mod_mul; lia.
Qed.

Lemma floats_exact f g p q x : isDouble f = true -> isDouble g = true -> floatInt f = None ->
  numOf (OFloat f p) = Some x -> numOf (OFloat g q) = Some x -> f = g.
Proof.
  intros Hf Hg Hn Ef Eg. destruct f as [s|s| |s m e]; simpl in Ef; try done; destruct x as [z|s']; simplify_eq;
    destruct g as [t|t| |t m' e']; simpl in Eg; simplify_eq; try done.
  - pose proof (Z.pow_pos_nonneg 2 (e + 1074) ltac:(lia)). apply double_range in Hf as (? & _). destruct s; nia.
  - assert (forall m e m' e', Z.pos m * 2 ^ (e + 1074) = Z.pos m' * 2 ^ (e' + 1074) -> e < e' ->
      -1074 <= e -> Z.pos m < 2 ^ 53 -> 2 ^ 52 <= Z.pos m' -> False) as Hlt.
    { clear. intros m e m' e' E Hlt He Hm Hm'. replace (e' + 1074) with ((e' - e) + (e + 1074)) in E by lia.
      rewrite (Z.pow_add_r 2 (e' - e)), Z.mul_assoc in E by lia. apply Z.mul_cancel_r in E.
      2: { apply Z.pow_nonzero; lia. }
      assert (2 ^ 1 <= 2 ^ (e' - e)) by (apply Z.pow_le_mono_r; lia). nia. }
    apply double_range in Hf as (He & Hm & Hc), Hg as (He' & Hm' & Hc').
    pose proof (Z.pow_pos_nonneg 2 (e + 1074) ltac:(lia) ltac:(lia)).
    pose proof (Z.pow_pos_nonneg 2 (e' + 1074) ltac:(lia) ltac:(lia)).
    assert (s = t) as -> by (destruct s, t; try done; nia).
    assert (Z.pos m * 2 ^ (e + 1074) = Z.pos m' * 2 ^ (e' + 1074)) as E by (destruct t; lia).
    destruct (Z.lt_trichotomy e e') as [Hl|[-> |Hl]].
    + exfalso. eapply Hlt; eauto; lia.
    + apply Z.mul_cancel_r in E; [congruence|lia].
    + exfalso. eapply Hlt; [symmetry; exact E|..]; lia.
Qed.

Lemma bits_inj f g : isDouble f = true -> isDouble g = true -> f <> S754_nan -> g <> S754_nan ->
  floatInt f = None -> floatInt g = None -> Float64bits f = Float64bits g -> f = g.
Proof.
  intros Hf Hg Nf Ng If Ig. destruct f as [s|s| |s m e], g as [t|t| |t m' e']; try done;
    try apply double_range in Hf as (? & ? & ?); try apply double_range in Hg as (? & ? & ?); unfold Float64bits.
  - destruct s, t; (done || lia).
  - destruct s, t, (Z.ltb_spec (Z.pos m') (2 ^ 52)); lia.
  - destruct s, t, (Z.ltb_spec (Z.pos m) (2 ^ 52)); lia.
  - intros E.
    assert (s = t) by (destruct s, t; try done; exfalso;
      destruct (Z.ltb_spec (Z.pos m) (2 ^ 52)), (Z.ltb_spec (Z.pos m') (2 ^ 52)); lia).
    assert (e = e' /\ Z.pos m = Z.pos m') as [? [= ?]] by
      (destruct (Z.ltb_spec (Z.pos m) (2 ^ 52)), (Z.ltb_spec (Z.pos m') (2 ^ 52)); subst t; lia).
    congruence.
Qed.

Lemma bits_nonneg f : isDouble f = true -> 0 <= Float64bits f.
Proof.
  destruct f as [s|s| |s m e]; intros Hf; try (by destruct s); try done.
  apply double_range in Hf as (? & ? & ?). unfold Float64bits.
  destruct s, (Z.ltb_spec (Z.pos m) (2 ^ 52)); lia.
Qed.

(** ** The encoding decides equality *)

Section ObjInduction.
Context (P : obj -> Prop) (Hleaf : forall o, match o with OTuple _ | OFrozenset _ | OSlice _ _ _ | OBound _ _ | OWeakref _ => True | _ => P o end).
Context (Htuple : forall l, Forall P l -> P (OTuple l)) (Hfrozen : forall l, Forall (fun p => P p.2) l -> P (OFrozenset l)).
Context (Hslice : forall a b c, P a -> P b -> P c -> P (OSlice a b c)).
Context (Hbound : forall f a, P a -> P (OBound f a)) (Hweak : forall a, P a -> P (OWeakref a)).

Definition obj_ind' : forall o, P o :=
  fix rec o :=
    match o as o return (match o with OTuple _ | OFrozenset _ | OSlice _ _ _ | OBound _ _ | OWeakref _ => True | _ => P o end -> P o) with
    | OTuple l => fun _ => Htuple l
        ((fix recs (l : list obj) : Forall P l :=
            match l with [] => Forall_nil_2 _ | x :: l => Forall_cons_2 _ _ _ (rec x) (recs l) end) l)
    | OFrozenset l => fun _ => Hfrozen l
        ((fix recs (l : list (string * obj)) : Forall (fun p => P p.2) l :=
            match l with
            | [] => Forall_nil_2 _
            | (k, x) :: l => Forall_cons_2 (fun p => P p.2) (k, x) l (rec x) (recs l)
            end) l)
    | OSlice a b c => fun _ => Hslice a b c (rec a) (rec b) (rec c)
    | OBound f a => fun _ => Hbound f a (rec a)
    | OWeakref a => fun _ => Hweak a (rec a)
    | o => fun H => H
    end (Hleaf o).
End ObjInduction.

Fixpoint keysOf (l : list obj) : list string + pyerr :=
  match l with
  | [] => inl []
  | e :: l => match hashKey e with
              | inr x => inr x
              | inl k => match keysOf l with inl ks => inl (k :: ks) | inr x => inr x end
              end
  end.

Lemma hashKey_tuple l :
  hashKey (OTuple l) = match keysOf l with inl ks => inl ("t" +:+ parts ks) | inr x => inr x end.
Proof. done. Qed.

Lemma num_key o x : plain o = true -> numOf o = Some x ->
  exists k, hashKey o = inl k /\
    ((exists n, x = Fin (n * ulp) /\ k = "i" +:+ itoa n) \/
     (exists f p, o = OFloat f p /\ isDouble f = true /\ f <> S754_nan /\ floatInt f = None /\
        k = "f" +:+ hex (Float64bits f))).
Proof.
  intros Hp Hx. destruct o as [|b|z|f p| | | | | | | | | | | | |]; simpl in Hx; try done.
  - injection Hx as <-. exists (if b then "i1" else "i0"). split; [by destruct b|].
    left. exists (Z.b2z b). by destruct b.
  - injection Hx as <-. eexists. split; [done|]. left. by exists z.
  - apply andb_true_iff in Hp as [Hd _]. destruct (floatInt f) as [n|] eqn:En.
    + exists ("i" +:+ itoa n). split; [by destruct f; simpl in *; simplify_eq; rewrite ?En|].
      left. exists n. split; [|done]. apply (floatInt_spec f p n Hd) in En. simpl in En. congruence.
    + exists ("f" +:+ hex (Float64bits f)). split; [by destruct f; simpl in *; simplify_eq; rewrite ?En|].
      right. exists f, p. split_and!; try done. by intros ->.
Qed.

Lemma num_exact a b x y ka kb : plain a = true -> plain b = true -> numOf a = Some x -> numOf b = Some y ->
  hashKey a = inl ka -> hashKey b = inl kb -> ka = kb <-> x = y.
Proof.
  intros Pa Pb Ha Hb Ka Kb. pose proof ulp_pos.
  destruct (num_key a x Pa Ha) as (k & E & Ca), (num_key b y Pb Hb) as (k' & E' & Cb).
  rewrite E in Ka. injection Ka as <-. rewrite E' in Kb. injection Kb as <-. clear E E'.
  destruct Ca as [(n & -> & ->)|(f & p & -> & Df & Nf & If & ->)],
    Cb as [(n' & -> & ->)|(g & q & -> & Dg & Ng & Ig & ->)].
  - split; [|intros [= E1]; do 2 f_equal; nia]. intros E1. injection E1 as E1%itoa_inj. by subst.
  - split; [done|]. intros <-. by apply floatInt_spec in Hb; [congruence|].
  - split; [done|]. intros ->. by apply floatInt_spec in Ha; [congruence|].
  - split.
    + intros [= E1]. apply hex_inj in E1; [|by apply bits_nonneg..].
      apply bits_inj in E1; try done. subst g. simpl in *. destruct f; simplify_eq; done.
    + intros ->. by rewrite (floats_exact f g p q y).
Qed.

Definition cls (o : obj) : nat :=
  match o with
  | ONone => 0 | OBool _ | OInt _ | OFloat _ _ => 1 | OStr _ => 2 | OBytes _ => 3 | OTuple _ => 4
  | OFrozenset _ => 5 | OSlice _ _ _ => 6 | OKwMark => 7 | OIdent _ _ => 8 | OBound _ _ => 9 | OWeakref _ => 10
  | _ => 11
  end.

Definition headCls (s : string) : nat :=
  match s with
  | String c _ =>
      if Ascii.eqb c "N" then 0 else if Ascii.eqb c "i" || Ascii.eqb c "f" || Ascii.eqb c "n" then 1
      else if Ascii.eqb c "s" then 2 else if Ascii.eqb c "b" then 3 else if Ascii.eqb c "t" then 4
      else if Ascii.eqb c "F" then 5 else if Ascii.eqb c "S" then 6 else if Ascii.eqb c "000" then 7
      else if Ascii.eqb c "p" then 8 else if Ascii.eqb c "M" then 9 else if Ascii.eqb c "w" then 10 else 11
  | "" => 11
  end.

Lemma key_cls o k : plain o = true -> hashKey o = inl k -> headCls k = cls o.
Proof.
  intros Hp. destruct o as [|b|z|f p|s|s|l|ks|a b c| |l|t p|f a|a|o l|t p hh pl fr|t]; try discriminate Hp.
  all: rewrite ?hashKey_tuple; simpl; try (by intros [= <-]).
  - destruct b; by intros [= <-].
  - destruct f; simpl; try (by intros [= <-]). repeat case_match; by intros [= <-].
  - destruct (keysOf l); [|done]. by intros [= <-].
  - destruct (hashKey a), (hashKey b), (hashKey c); try done. by intros [= <-].
  - destruct (hashKey a); [|done]. by intros [= <-].
  - destruct (hashKey a); [|done]. by intros [= <-].
Qed.

Lemma keyEq_cls a b : keyEq a b -> cls a = cls b.
Proof.
  intros H. destruct H as [|a b x Ha Hb| | | | | | | | | |]; try done.
  destruct a; try done; by destruct b.
Qed.

Lemma sortStrs_perm l l' : l ≡ₚ l' -> sortStrs l = sortStrs l'.
Proof.
  intros Hp. apply (StronglySorted_unique String.le); try apply (StronglySorted_merge_sort String.le).
  unfold sortStrs. by rewrite !merge_sort_Permutation.
Qed.

Lemma pointer_inj p q : address p = true -> address q = true -> pyHashPointer p = pyHashPointer q -> p = q.
Proof.
  assert (forall p, address p = true ->
    pyHashPointer p = (let y := p mod 16 * 2 ^ 60 + p / 16 in if y <? 2 ^ 63 then y else y - 2 ^ 64)) as Hv.
  { clear. intros p Hp. unfold address in Hp. bool_to_prop.
    pose proof (Z.mod_pos_bound p 16 ltac:(lia)). pose proof (Z.div_mod p 16 ltac:(lia)).
    unfold pyHashPointer, toUint64.
    assert (Z.shiftl p 60 mod 2 ^ 64 = Z.shiftl (p mod 16) 60) as ->.
    { rewrite !Z.shiftl_mul_pow2 by lia. change (2 ^ 64) with (16 * 2 ^ 60). by rewrite Z.mul_mod_distr_r. }
    rewrite Z.lor_comm, shl_or by (rewrite ?Z.shiftr_div_pow2 by lia; change (2 ^ 4) with 16; lia).
    rewrite Z.shiftr_div_pow2 by lia. change (2 ^ 4) with 16.
    set (y := p mod 16 * 2 ^ 60 + p / 16). assert (0 <= y < 2 ^ 64 - 2) by lia. cbn zeta. clearbody y.
    unfold wrap64. destruct (Z.ltb_spec y (2 ^ 63)).
    - rewrite Z.mod_small by lia. destruct (Z.eqb_spec (y + 2 ^ 63 - 2 ^ 63) (-1)); lia.
    - rewrite <- (Z.mod_add _ (-1)) by lia. rewrite Z.mod_small by lia.
      destruct (Z.eqb_spec (y + 2 ^ 63 + -1 * 2 ^ 64 - 2 ^ 63) (-1)); lia. }
  intros Hp Hq. rewrite !Hv by done. unfold address in *. bool_to_prop. cbn zeta.
  pose proof (Z.mod_pos_bound p 16 ltac:(lia)). pose proof (Z.div_mod p 16 ltac:(lia)).
  pose proof (Z.mod_pos_bound q 16 ltac:(lia)). pose proof (Z.div_mod q 16 ltac:(lia)).
  destruct (Z.ltb_spec (p mod 16 * 2 ^ 60 + p / 16) (2 ^ 63)), (Z.ltb_spec (q mod 16 * 2 ^ 60 + q / 16) (2 ^ 63)); lia.
Qed.

Lemma float_nan f p : (exists x, numOf (OFloat f p) = Some x) \/ f = S754_nan.
Proof. destruct f; simpl; eauto. Qed.

(** What a key equality says of two objects, given the parts. *)
Definition decides (a : obj) : Prop := plain a = true -> forall b ka kb, plain b = true ->
  hashKey a = inl ka -> hashKey b = inl kb -> ka = kb <-> keyEq a b.

Lemma decides_numbers a : cls a = 1%nat -> decides a.
Proof.
  intros Hc Pa b ka kb Pb Ka Kb. destruct (decide (cls b = 1%nat)) as [Hb|Hb].
  2: { split; [intros ->|intros E%keyEq_cls; congruence].
       apply key_cls in Ka, Kb; [congruence|done|done]. }
  assert (forall o, plain o = true -> cls o = 1%nat -> (exists x, numOf o = Some x) \/
    exists p, o = OFloat S754_nan p /\ address p = true) as Hn.
  { intros [] Po Ho; try discriminate Ho; try (left; eexists; reflexivity).
    destruct (float_nan f ptr) as [?| ->]; [by left|right]. exists ptr. by apply andb_true_iff in Po as [_ ?]. }
  destruct (Hn a Pa Hc) as [[x Ha]|(p & -> & Ap)], (Hn b Pb Hb) as [[y Hy]|(q & -> & Aq)].
  - rewrite (num_exact a b x y) by done. split; [intros ->; by eapply E_num|].
    intros E. inversion E; subst; simpl in *; simplify_eq; try done; congruence.
  - destruct (num_key a x Pa Ha) as (k & E & Ck). rewrite E in Ka. injection Ka as <-. injection Kb as <-. split.
    + by destruct Ck as [(n & _ & ->)|(f & r & _ & _ & _ & _ & ->)].
    + intros E'. inversion E'; subst; done.
  - destruct (num_key b y Pb Hy) as (k & E & Ck). rewrite E in Kb. injection Kb as <-. injection Ka as <-. split.
    + by destruct Ck as [(n & _ & ->)|(f & r & _ & _ & _ & _ & ->)].
    + intros E'. inversion E'; subst; done.
  - injection Ka as <-. injection Kb as <-. split.
    + intros E. injection E as E%hexInt_inj. apply pointer_inj in E as ->; [constructor|done|done].
    + intros E. by inversion E; subst.
Qed.

Lemma keys_decide l : Forall decides l -> forallb plain l = true -> forall l' ks ks', forallb plain l' = true ->
  keysOf l = inl ks -> keysOf l' = inl ks' -> ks = ks' <-> Forall2 keyEq l l'.
Proof.
  induction 1 as [|a l Ha _ IH]; intros Pl [|b l'] ks ks' Pl' Ek Ek'; simpl in *.
  - simplify_eq. split; [constructor|done].
  - repeat case_match; simplify_eq. split; [done|]. intros E. inversion E.
  - repeat case_match; simplify_eq. split; [done|]. intros E. inversion E.
  - apply andb_true_iff in Pl as [Pa Pl], Pl' as [Pb Pl'].
    destruct (hashKey a) as [ka|] eqn:Ka; [|done]. destruct (keysOf l) as [kl|] eqn:Kl; [|done].
    destruct (hashKey b) as [kb|] eqn:Kb; [|done]. destruct (keysOf l') as [kl'|] eqn:Kl'; [|done].
    simplify_eq. rewrite Forall2_cons, <- (Ha Pa b ka kb), <- (IH Pl l' kl kl') by done.
    split; intros E; [by injection E|]. destruct E. congruence.
Qed.

(** Objects of one class, past the cases of different ones. *)
Lemma decides_class a : (plain a = true -> forall b ka kb, plain b = true -> cls a = cls b ->
    hashKey a = inl ka -> hashKey b = inl kb -> ka = kb <-> keyEq a b) -> decides a.
Proof.
  intros H Pa b ka kb Pb Ka Kb. destruct (decide (cls a = cls b)) as [Hc|Hc]; [by apply H|].
  split; [intros ->|intros E%keyEq_cls; done]. exfalso. apply Hc. by rewrite <- (key_cls a kb), <- (key_cls b kb).
Qed.

(** The items of a plain frozenset. *)
Lemma frozen_items l : plain (OFrozenset l) = true ->
  NoDup (map fst l) /\ forall k e, (k, e) ∈ l -> plain e = true /\ hashKey e = inl k.
Proof.
  cbn [plain]. intros [Hf Hn%bool_decide_eq_true]%andb_true_iff. split; [done|]. intros k e Hin%list_elem_of_In.
  rewrite forallb_forall in Hf. apply Hf in Hin. apply andb_true_iff in Hin as [Hp Hk]. split; [done|].
  destruct (hashKey e); [|done]. apply String.eqb_eq in Hk. by subst.
Qed.

Lemma decides_frozen l : Forall (fun p => decides p.2) l -> decides (OFrozenset l).
Proof.
  intros IH. apply decides_class. intros Pa b ka kb Pb Hc Ka Kb. destruct b as [| | | | | | |l'| | | | | | | | |]; try done.
  apply frozen_items in Pa as [Na Ia], Pb as [Nb Ib]. simpl in Ka, Kb. injection Ka as <-. injection Kb as <-.
  rewrite Forall_forall in IH.
  assert (forall k k' e e', (k, e) ∈ l -> (k', e') ∈ l' -> k = k' <-> keyEq e e') as Hd.
  { intros k k' e e' H H'. destruct (Ia k e H), (Ib k' e' H'). by apply (IH (k, e) H). }
  split.
  - intros E. injection E as E%parts_inj. unfold sortStrs in E.
    assert (map fst l ≡ₚ map fst l') as Hp.
    { by rewrite <- (merge_sort_Permutation String.le (map fst l)), <- (merge_sort_Permutation String.le (map fst l')), E. }
    constructor; apply Forall_forall; intros [k e] H; apply Exists_exists.
    + assert (k ∈ map fst l') as ([k' e'] & -> & H')%list_elem_of_fmap by (rewrite <- Hp; by apply (list_elem_of_fmap_2 fst _ (k, e))).
      exists (k', e'). split; [done|]. by apply (Hd k' k').
    + assert (k ∈ map fst l) as ([k' e'] & -> & H')%list_elem_of_fmap by (rewrite Hp; by apply (list_elem_of_fmap_2 fst _ (k, e))).
      exists (k', e'). split; [done|]. by apply (Hd k' k').
  - intros Eq. inversion Eq as [|? ? ? Hn| | | | |? ? F1 F2| | | | |]; subst; [done|]. rewrite Forall_forall in F1, F2.
    unfold frozenKey. do 2 f_equal. apply sortStrs_perm, NoDup_Permutation; [done..|]. intros k. split.
    + intros ([k' e] & -> & H)%list_elem_of_fmap. specialize (F1 _ H). apply Exists_exists in F1 as ([k e'] & H' & E).
      apply (Hd _ _ _ _ H H') in E. simpl in *. subst. by apply (list_elem_of_fmap_2 fst _ (k, e')).
    + intros ([k' e'] & -> & H')%list_elem_of_fmap. specialize (F2 _ H'). apply Exists_exists in F2 as ([k e] & H & E).
      apply (Hd _ _ _ _ H H') in E. simpl in *. subst. by apply (list_elem_of_fmap_2 fst _ (k', e)).
Qed.

Lemma decides_all a : decides a.
Proof.
  revert a. apply (obj_ind' decides);
    [intros o|intros l IH|intros l IH; by apply decides_frozen|intros a b c IHa IHb IHc|intros f a IHa|intros a IHa].
  - destruct o as [|b|z|f p|s|s| |ks| | |l|t p| | |o l|t p hh pl fr|t]; try done; try (by apply decides_numbers);
      apply decides_class; intros Pa b' ka kb Pb Hc Ka Kb; destruct b'; try discriminate Hc; try discriminate Pa;
      try discriminate Pb; simpl in Ka, Kb; simplify_eq.
    + split; [constructor|done].
    + split; [|by inversion 1; subst]. intros E. injection E as ->. constructor.
    + split; [|by inversion 1; subst]. intros E. injection E as ->. constructor.
    + split; [constructor|done].
    + unfold plain, address in Pa, Pb. bool_to_prop. unfold fmtPtr. split.
      * intros E. injection E as E%hex_inj; [|lia..]. subst. constructor.
      * by inversion 1; subst.
  - apply decides_class. intros Pa b ka kb Pb Hc Ka Kb. destruct b; try discriminate Hc; try discriminate Pb.
    rewrite hashKey_tuple in Ka, Kb. destruct (keysOf l) as [ks|] eqn:Ek, (keysOf elts) as [ks'|] eqn:Ek'; simplify_eq.
    pose proof (keys_decide l IH Pa elts ks ks' Pb Ek Ek') as Hd. split.
    + intros E. injection E as E%parts_inj. constructor. by apply Hd.
    + inversion 1; subst; [done|]. do 2 f_equal. by apply Hd.
  - apply decides_class. intros Pa b' ka kb Pb Hc Ka Kb. destruct b' as [| | | | | | | |a' b' c'| | | | | | | |];
      try discriminate Hc; try discriminate Pb. simpl in Pa, Pb, Ka, Kb. bool_to_prop.
    destruct (hashKey a) as [x|] eqn:Ex, (hashKey b) as [y|] eqn:Ey, (hashKey c) as [z|] eqn:Ez; simplify_eq.
    destruct (hashKey a') as [x'|] eqn:Ex', (hashKey b') as [y'|] eqn:Ey', (hashKey c') as [z'|] eqn:Ez'; simplify_eq.
    split.
    + intros E. injection E as E. change (parts [x; y; z] = parts [x'; y'; z']) in E. apply parts_inj in E. simplify_eq.
      constructor; [by apply (IHa ltac:(done) a' x' x')|by apply (IHb ltac:(done) b' y' y')|by apply (IHc ltac:(done) c' z' z')].
    + inversion 1; subst; [done|].
      assert (x = x') as -> by (by apply (IHa ltac:(done) a')). assert (y = y') as -> by (by apply (IHb ltac:(done) b')).
      by assert (z = z') as -> by (by apply (IHc ltac:(done) c')).
  - apply decides_class. intros Pa b ka kb Pb Hc Ka Kb. destruct b as [| | | | | | | | | | | |g b| | | |];
      try discriminate Hc; try discriminate Pb. simpl in Pa, Pb, Ka, Kb. unfold address in Pa, Pb. bool_to_prop.
    destruct (hashKey a) as [x|] eqn:Ex, (hashKey b) as [y|] eqn:Ey; simplify_eq. unfold fmtPtr. split.
    + intros E. injection E as E. apply split_char in E as [E1 E2]; [|by apply hex_chars; [lia|right]..].
      apply hex_inj in E1; [|lia..]. subst. constructor. by apply (IHa ltac:(done) b y y).
    + inversion 1; subst; [done|]. by assert (x = y) as -> by (by apply (IHa ltac:(done) b)).
  - apply decides_class. intros Pa b ka kb Pb Hc Ka Kb. destruct b as [| | | | | | | | | | | | |b| | |];
      try discriminate Hc; try discriminate Pb. simpl in Pa, Pb, Ka, Kb.
    destruct (hashKey a) as [x|] eqn:Ex, (hashKey b) as [y|] eqn:Ey; simplify_eq. split.
    + intros E. injection E as ->. constructor. by apply (IHa Pa b y y).
    + inversion 1; subst; [done|]. by assert (x = y) as -> by (by apply (IHa Pa b)).
Qed.

(** ** Theorems *)



(** The parts of a generic alias are joined without their lengths, so
    [list["a,sb"]] and [list["a", "b"]] share a slot. *)
Lemma alias_collides :
  hashKey (OAlias (OIdent "type" 16) [OStr "a,sb"]) = hashKey (OAlias (OIdent "type" 16) [OStr "a"; OStr "b"]).
Proof. reflexivity. Qed.
