(* ===== verification/Dict.v ===== *)
(** * Dict: the insertion-ordered hash map

    Model of [dictObject] of src/pkg/objects/dict.go with the methods of
    dictmethods.go and ordereddict.go that change it: entries in insertion
    order and an index from the canonical key to the position.  [None] is a Go
    panic (a position out of range); the right of a sum is an exception.  The
    mirroring of a globals() dict into its module is left out. *)

From S2P Require Import Prelude Int64 HashKey.
Local Open Scope nat_scope.

(** An exception with a message, or the KeyError of a key. *)
Inductive dictErr := DErr (e : pyerr) | DKeyError (key : obj).

Section Dict.
Context {V : Type}.

Record dictObject := mkDict { entries : list (obj * V); index : gmap string nat }.

Definition dres (A : Type) : Type := option (A + dictErr).

Definition emptyDict : dictObject := mkDict [] ∅.

(** Go on with the result, or leave with the exception. *)
Definition dbind {A B} (m : dres A) (k : A -> dres B) : dres B :=
  match m with Some (inl a) => k a | Some (inr e) => Some (inr e) | None => None end.

(** Run [k] on the entry at a position. *)
Definition entry {A} (d : dictObject) (i : nat) (k : obj * V -> dres A) : dres A :=
  match entries d !! i with Some e => k e | None => None end.

(** Run [k] on the canonical key. *)
Definition withKey {A} (key : obj) (k : string -> dres A) : dres A :=
  match dictKey key with inl s => k s | inr e => Some (inr (DErr e)) end.

Definition set (d : dictObject) (key : obj) (val : V) : dres dictObject :=
  withKey key (fun k =>
    match index d !! k with
    | Some i => entry d i (fun e => Some (inl (mkDict (<[i := (e.1, val)]> (entries d)) (index d))))
    | None => Some (inl (mkDict (entries d ++ [(key, val)]) (<[k := length (entries d)]> (index d))))
    end).

(** [lookup]: the value, if the key is there. *)
Definition lookup (d : dictObject) (key : obj) : dres (option V) :=
  withKey key (fun k =>
    match index d !! k with
    | None => Some (inl None)
    | Some i => entry d i (fun e => Some (inl (Some e.2)))
    end).

Definition get (d : dictObject) (key : obj) : dres V :=
  dbind (lookup d key) (fun r =>
    Some (match r with Some v => inl v | None => inr (DKeyError key) end)).

(** [append(l[:i], l[i+1:]...)] *)
Definition removeAt {A} (i : nat) (l : list A) : list A := take i l ++ drop (S i) l.

Definition delete (d : dictObject) (key : obj) : dres (dictObject * option V) :=
  withKey key (fun k =>
    match index d !! k with
    | None => Some (inl (d, None))
    | Some i =>
        entry d i (fun e =>
          Some (inl (mkDict (removeAt i (entries d))
                       ((fun j => if i <? j then pred j else j) <$> base.delete k (index d)), Some e.2)))
    end).

(** The index of the entries from position [i] on; a key that does not hash is
    skipped. *)
Fixpoint reindexFrom (i : nat) (l : list (obj * V)) (m : gmap string nat) : gmap string nat :=
  match l with
  | [] => m
  | e :: l => reindexFrom (S i) l (match dictKey e.1 with inl k => <[k := i]> m | inr _ => m end)
  end.

Definition reindex (l : list (obj * V)) : dictObject := mkDict l (reindexFrom 0 l ∅).

(** [popitem] of a dict: the last pair. *)
Definition popitem (d : dictObject) : dres (dictObject * (obj * V)) :=
  match last (entries d) with
  | None => Some (inr (DKeyError (OStr "popitem(): dictionary is empty")))
  | Some e =>
      Some (inl (mkDict (take (pred (length (entries d))) (entries d))
                   (match dictKey e.1 with inl k => base.delete k (index d) | inr _ => index d end), e))
  end.

Definition pop (d : dictObject) (key : obj) (default : option V) : dres (dictObject * V) :=
  dbind (delete d key) (fun r =>
    Some (match r, default with
          | (d', Some v), _ => inl (d', v)
          | (_, None), Some v => inl (d, v)
          | (_, None), None => inr (DKeyError key)
          end)).

Definition setdefault (d : dictObject) (key : obj) (default : V) : dres (dictObject * V) :=
  dbind (lookup d key) (fun r =>
    match r with
    | Some v => Some (inl (d, v))
    | None => dbind (set d key default) (fun d' => Some (inl (d', default)))
    end).

(** [mergeMapping] from the entries of a dict, also the loops of [NewDict] and
    [fromkeys]: what was set before an exception stays. *)
Fixpoint setAll (d : dictObject) (l : list (obj * V)) : option (dictObject * option dictErr) :=
  match l with
  | [] => Some (d, None)
  | (k, v) :: l =>
      match set d k v with
      | Some (inl d') => setAll d' l
      | Some (inr e) => Some (d, Some e)
      | None => None
      end
  end.

Definition NewDict (l : list (obj * V)) : dres dictObject :=
  match setAll emptyDict l with
  | Some (d, None) => Some (inl d)
  | Some (_, Some e) => Some (inr e)
  | None => None
  end.

(** [move_to_end] and [popitem(last)] of an OrderedDict. *)
Definition moveToEnd (d : dictObject) (key : obj) (toLast : bool) : dres dictObject :=
  withKey key (fun k =>
    match index d !! k with
    | None => Some (inr (DKeyError key))
    | Some i =>
        entry d i (fun e =>
          let rest := removeAt i (entries d) in
          Some (inl (reindex (if toLast then rest ++ [e] else e :: rest))))
    end).

Definition orderedPopitem (d : dictObject) (fromLast : bool) : dres (dictObject * (obj * V)) :=
  let i := if fromLast then pred (length (entries d)) else 0 in
  match entries d !! i with
  | None => Some (inr (DKeyError (OStr "dictionary is empty")))
  | Some e => Some (inl (reindex (removeAt i (entries d)), e))
  end.

Definition keySlice (d : dictObject) : list obj := map fst (entries d).
Definition valSlice (d : dictObject) : list V := map snd (entries d).

(** [dictEquals]; the loop over the index stops at the first difference. *)
Definition dictEquals (keyEquals : obj -> obj -> bool) (equals : V -> V -> bool) (ordered : bool)
    (a b : dictObject) : option bool :=
  if negb (length (entries a) =? length (entries b)) then Some false
  else if ordered then
    Some (forallb (fun p => keyEquals p.1.1 p.2.1 && equals p.1.2 p.2.2) (combine (entries a) (entries b)))
  else
    foldr (fun '(k, i) acc =>
        match index b !! k with
        | None => Some false
        | Some j =>
            match entries a !! i, entries b !! j, acc with
            | Some x, Some y, Some acc => Some (equals x.2 y.2 && acc)
            | _, _, _ => None
            end
        end) (Some true) (map_to_list (index a)).
End Dict.
#[global] Arguments dictObject : clear implicits.

(** ** The specification: an ordered association list *)

(** Removal of a position. *)
Section RemoveAt.
Context {A : Type}.
Implicit Types l : list A.

Lemma removeAt_lookup i l j : (removeAt i l) !! j = if j <? i then l !! j else l !! S j.
Proof.
  unfold removeAt. destruct (Nat.ltb_spec j i) as [H|H].
  - destruct (decide (j < length l)).
    + rewrite lookup_app_l by (rewrite length_take; lia). by rewrite lookup_take_lt.
    + rewrite (lookup_ge_None_2 l) by lia. apply lookup_ge_None_2. rewrite length_app, length_take, length_drop. lia.
  - destruct (decide (i <= length l)).
    + rewrite lookup_app_r by (rewrite length_take; lia). rewrite lookup_drop, length_take. f_equal. lia.
    + rewrite (lookup_ge_None_2 l) by lia. apply lookup_ge_None_2. rewrite length_app, length_take, length_drop. lia.
Qed.

Lemma removeAt_map {B} (f : A -> B) i l : map f (removeAt i l) = removeAt i (map f l).
Proof. unfold removeAt. rewrite map_app. f_equal; [apply (fmap_take f)|apply (fmap_drop f)]. Qed.

Lemma removeAt_perm i l x : l !! i = Some x -> l ≡ₚ x :: removeAt i l.
Proof.
  intros Hi. rewrite <- (take_drop_middle l i x Hi) at 1. unfold removeAt. by rewrite Permutation_middle.
Qed.
End RemoveAt.

Section Spec.
Context {V : Type}.
Implicit Types l : list (string * (obj * V)).

(** The value of a key, the old key object keeping its place when the value
    changes, a new key at the end. *)
Fixpoint aget (k : string) l : option V :=
  match l with [] => None | (k', e) :: l => if String.eqb k k' then Some e.2 else aget k l end.

Fixpoint aset (k : string) (key : obj) (v : V) l : list (string * (obj * V)) :=
  match l with
  | [] => [(k, (key, v))]
  | (k', e) :: l => if String.eqb k k' then (k', (e.1, v)) :: l else (k', e) :: aset k key v l
  end.

Definition adel (k : string) l : list (string * (obj * V)) :=
  List.filter (fun p => negb (String.eqb k p.1)) l.

Lemma aget_at l k i e : NoDup (map fst l) -> l !! i = Some (k, e) -> aget k l = Some e.2.
Proof.
  revert i. induction l as [|[k' e'] l IH]; intros i Hn Hi; [done|]. simpl in *. inversion Hn as [|? ? Hk Hn']; subst.
  destruct i as [|i]; simpl in Hi; [simplify_eq; by rewrite String.eqb_refl|].
  destruct (String.eqb_spec k k') as [-> |]; [|by eapply IH]. exfalso. apply Hk.
  apply list_elem_of_fmap. exists (k', e). split; [done|by eapply list_elem_of_lookup_2].
Qed.

Lemma aset_at l k i e key v : NoDup (map fst l) -> l !! i = Some (k, e) ->
  aset k key v l = <[i := (k, (e.1, v))]> l.
Proof.
  revert i. induction l as [|[k' e'] l IH]; intros i Hn Hi; [done|]. simpl in *. inversion Hn as [|? ? Hk Hn']; subst.
  destruct i as [|i]; simpl in Hi; [simplify_eq; by rewrite String.eqb_refl|].
  destruct (String.eqb_spec k k') as [-> |]; [|simpl; f_equal; by apply IH]. exfalso. apply Hk.
  apply list_elem_of_fmap. exists (k', e). split; [done|by eapply list_elem_of_lookup_2].
Qed.

Lemma adel_absent l k : k ∉ map fst l -> adel k l = l.
Proof.
  induction l as [|[k' e'] l IH]; intros Hk; [done|]. simpl in *. rewrite not_elem_of_cons in Hk.
  destruct (String.eqb_spec k k'); [naive_solver|]. simpl. f_equal. naive_solver.
Qed.

Lemma adel_at l k i e : NoDup (map fst l) -> l !! i = Some (k, e) -> adel k l = removeAt i l.
Proof.
  revert i. induction l as [|[k' e'] l IH]; intros i Hn Hi; [done|]. simpl in *. inversion Hn as [|? ? Hk Hn']; subst.
  destruct i as [|i]; simpl in Hi.
  - simplify_eq. rewrite String.eqb_refl. simpl. by apply adel_absent.
  - destruct (String.eqb_spec k k') as [-> |].
    + exfalso. apply Hk, list_elem_of_fmap. exists (k', e). split; [done|by eapply list_elem_of_lookup_2].
    + simpl. unfold removeAt. simpl. f_equal. by apply IH.
Qed.

Lemma absent_aget l k : k ∉ map fst l -> aget k l = None.
Proof.
  induction l as [|[k' e'] l IH]; intros Hk; [done|]. simpl in *. rewrite not_elem_of_cons in Hk.
  destruct (String.eqb_spec k k'); [naive_solver|]. naive_solver.
Qed.

Lemma absent_aset l k key v : k ∉ map fst l -> aset k key v l = l ++ [(k, (key, v))].
Proof.
  induction l as [|[k' e'] l IH]; intros Hk; [done|]. simpl in *. rewrite not_elem_of_cons in Hk.
  destruct (String.eqb_spec k k'); [naive_solver|]. f_equal. naive_solver.
Qed.
End Spec.

(** ** The invariant *)

Section Invariant.
Context {V : Type}.
Implicit Types d : dictObject V.

Definition keyOf (o : obj) : string := match dictKey o with inl k => k | inr _ => "" end.

Definition keyed (es : list (obj * V)) : list (string * (obj * V)) := map (fun e => (keyOf e.1, e)) es.
Definition view d : list (string * (obj * V)) := keyed (entries d).
Definition keys (es : list (obj * V)) : list string := map (fun e => keyOf e.1) es.

(** Every key hashes, and the index holds exactly the keys' positions. *)
Record wf d : Prop := {
  wf_hash : Forall (fun e => dictKey e.1 = inl (keyOf e.1)) (entries d);
  wf_index : forall k i, index d !! k = Some i <-> keys (entries d) !! i = Some k
}.

Lemma keyed_keys es : map fst (keyed es) = keys es.
Proof. unfold keyed, keys. rewrite map_map. done. Qed.

Lemma wf_nodup d : wf d -> NoDup (keys (entries d)).
Proof.
  intros [_ Hi]. apply NoDup_alt. intros i j k Hki Hkj. apply Hi in Hki, Hkj. congruence.
Qed.

Lemma keys_at es i k : keys es !! i = Some k -> exists e, es !! i = Some e /\ keyOf e.1 = k.
Proof. intros (e & He & Hk)%list_lookup_fmap_Some. eauto. Qed.

Lemma view_at d i e : entries d !! i = Some e -> view d !! i = Some (keyOf e.1, e).
Proof. intros He. apply list_lookup_fmap_Some. exists e. split; [done|done]. Qed.

Lemma wf_hit d k i : wf d -> index d !! k = Some i ->
  exists e, entries d !! i = Some e /\ keyOf e.1 = k /\ view d !! i = Some (k, e) /\ dictKey e.1 = inl k.
Proof.
  intros Hw Hk. pose proof Hw as [Hh Hi]. apply Hi, keys_at in Hk as (e & He & <-).
  exists e. split_and!; [done|done|by apply view_at|]. rewrite Forall_forall in Hh. apply Hh.
  by eapply list_elem_of_lookup_2.
Qed.

Lemma wf_miss d k : wf d -> index d !! k = None -> k ∉ map fst (view d).
Proof.
  intros [_ Hi] Hk Hin. unfold view in Hin. rewrite keyed_keys in Hin. apply list_elem_of_lookup in Hin as [i H].
  apply Hi in H. congruence.
Qed.

Lemma view_nodup d : wf d -> NoDup (map fst (view d)).
Proof. intros Hw. unfold view. rewrite keyed_keys. by apply wf_nodup. Qed.

Lemma keyOf_eq o k : dictKey o = inl k -> keyOf o = k.
Proof. unfold keyOf. by intros ->. Qed.

Lemma empty_wf : wf (@emptyDict V).
Proof. split; [constructor|]. intros k i. simpl. rewrite lookup_empty. done. Qed.

(** ** The operations *)

Lemma lookup_spec d key k : wf d -> dictKey key = inl k -> lookup d key = Some (inl (aget k (view d))).
Proof.
  intros Hw Hk. unfold lookup, withKey. rewrite Hk. destruct (index d !! k) as [i|] eqn:E.
  - destruct (wf_hit d k i Hw E) as (e & He & _ & Hv & _). unfold entry. rewrite He.
    by rewrite (aget_at _ k i e (view_nodup d Hw) Hv).
  - by rewrite (absent_aget (view d) k (wf_miss d k Hw E)).
Qed.

Lemma set_spec d key k v : wf d -> dictKey key = inl k ->
  exists d', set d key v = Some (inl d') /\ wf d' /\ view d' = aset k key v (view d).
Proof.
  intros Hw Hk. unfold set, withKey. rewrite Hk. destruct (index d !! k) as [i|] eqn:E.
  - destruct (wf_hit d k i Hw E) as (e & He & Hke & Hv & _). unfold entry. rewrite He.
    eexists. split; [done|].
    assert (keys (<[i:=(e.1, v)]> (entries d)) = keys (entries d)) as Hkeys.
    { etrans; [apply (list_fmap_insert (fun e => keyOf e.1))|]. apply list_insert_id.
      apply list_lookup_fmap_Some. by exists e. }
    split.
    + destruct Hw as [Hh Hi]. split; simpl; [|by rewrite Hkeys].
      apply Forall_insert; [done|]. rewrite Forall_forall in Hh. apply (Hh e). by eapply list_elem_of_lookup_2.
    + rewrite (aset_at _ k i e key v (view_nodup d Hw) Hv). unfold view, keyed. simpl.
      etrans; [apply (list_fmap_insert (fun e => (keyOf e.1, e)))|]. simpl. by rewrite Hke.
  - eexists. split; [done|]. pose proof (wf_miss d k Hw E) as Hm. split.
    + destruct Hw as [Hh Hi]. split; simpl.
      * apply Forall_app_2; [done|]. apply Forall_cons_2; [|done]. simpl. by rewrite (keyOf_eq key k Hk).
      * intros k' i. unfold keys. rewrite map_app. simpl. rewrite (keyOf_eq key k Hk).
        fold (keys (entries d)). assert (length (keys (entries d)) = length (entries d)) as Hl by apply length_map.
        destruct (decide (k' = k)) as [-> |Hne].
        -- rewrite lookup_insert_eq. split.
           ++ intros [= <-]. rewrite lookup_app_r by lia. by rewrite Hl, Nat.sub_diag.
           ++ intros [H|[? H]]%lookup_app_Some; [apply Hi in H; congruence|].
              apply list_lookup_singleton_Some in H as [? _]. f_equal. lia.
        -- rewrite lookup_insert_ne by done. rewrite Hi. split.
           ++ apply lookup_app_l_Some.
           ++ intros [H|[? H]]%lookup_app_Some; [done|]. apply list_lookup_singleton_Some in H as [_ ?]. congruence.
    + rewrite (absent_aset _ k key v Hm). unfold view, keyed. simpl. rewrite map_app. simpl. by rewrite (keyOf_eq key k Hk).
Qed.

Lemma delete_spec d key k : wf d -> dictKey key = inl k ->
  exists d', delete d key = Some (inl (d', aget k (view d))) /\ wf d' /\ view d' = adel k (view d).
Proof.
  intros Hw Hk. unfold delete, withKey. rewrite Hk. destruct (index d !! k) as [i|] eqn:E.
  2: { exists d. pose proof (wf_miss d k Hw E) as Hm. by rewrite absent_aget, adel_absent by done. }
  destruct (wf_hit d k i Hw E) as (e & He & Hke & Hv & _). unfold entry. rewrite He.
  pose proof (view_nodup d Hw) as Hn.
  rewrite (aget_at _ k i e Hn Hv), (adel_at _ k i e Hn Hv). eexists. split; [done|]. split.
  2: { unfold view, keyed. simpl. by rewrite removeAt_map. }
  pose proof (wf_nodup d Hw) as Hnk. destruct Hw as [Hh Hi]. split; simpl.
  - rewrite (removeAt_perm i _ e He) in Hh. by apply Forall_cons in Hh as [_ Hh].
  - assert (keys (entries d) !! i = Some k) as Hki by (by apply Hi).
    intros k' j. unfold keys. rewrite removeAt_map. fold (keys (entries d)). rewrite removeAt_lookup.
    rewrite lookup_fmap_Some. split.
    + intros (m & Em & Hm). apply lookup_delete_Some in Hm as [Hne Hm%Hi]. subst j.
      assert (m <> i) by congruence. destruct (Nat.ltb_spec i m).
      * rewrite (proj2 (Nat.ltb_ge (pred m) i)) by lia. by replace (S (pred m)) with m by lia.
      * by rewrite (proj2 (Nat.ltb_lt m i)) by lia.
    + destruct (Nat.ltb_spec j i) as [Hj|Hj]; intros H.
      * exists j. rewrite (proj2 (Nat.ltb_ge i j)) by lia. split; [done|]. apply lookup_delete_Some.
        split; [|by apply Hi]. intros <-. assert (j = i) by (by eapply NoDup_lookup). lia.
      * exists (S j). rewrite (proj2 (Nat.ltb_lt i (S j))) by lia. split; [done|]. apply lookup_delete_Some.
        split; [|by apply Hi]. intros <-. assert (S j = i) by (by eapply NoDup_lookup). lia.
Qed.

Lemma reindexFrom_spec es : Forall (fun e => dictKey e.1 = inl (keyOf e.1)) es -> NoDup (keys es) ->
  forall (n : nat) m k j, reindexFrom n es m !! k = Some j <->
    (exists i, keys es !! i = Some k /\ j = n + i) \/ (k ∉ keys es /\ m !! k = Some j).
Proof.
  induction 1 as [|e es He _ IH]; intros Hn n m k j; simpl in *.
  { split; [intros; right; split; [by apply not_elem_of_nil|done]|]. intros [(i & Hi & _)|[_ ?]]; [done|done]. }
  inversion Hn as [|? ? Hk Hn']; subst. rewrite He, (IH Hn'). rewrite not_elem_of_cons. split.
  - intros [(i & Hi & ->)|[Hnot Hm]]; [left; exists (S i); split; [done|lia]|].
    destruct (decide (k = keyOf e.1)) as [-> |Hne].
    + rewrite lookup_insert_eq in Hm. simplify_eq. left. exists 0. split; [done|lia].
    + rewrite lookup_insert_ne in Hm by done. right. done.
  - intros [(i & Hi & ->)|[[Hne Hnot] Hm]].
    + destruct i as [|i]; simpl in Hi.
      * simplify_eq. right. split; [done|]. rewrite lookup_insert_eq. f_equal. lia.
      * left. exists i. split; [done|lia].
    + right. split; [done|]. by rewrite lookup_insert_ne.
Qed.

Lemma reindex_wf es : Forall (fun e => dictKey e.1 = inl (keyOf e.1)) es -> NoDup (keys es) -> wf (reindex es).
Proof.
  intros Hh Hn. split; [done|]. intros k i. unfold reindex. simpl. rewrite (reindexFrom_spec es Hh Hn). split.
  - intros [(j & Hj & ->)|[_ H]]; [done|]. by rewrite lookup_empty in H.
  - intros H. left. by exists i.
Qed.

(** Reordering the entries keeps the invariant. *)
Lemma reordered_wf d es : wf d -> es ≡ₚ entries d -> wf (reindex es).
Proof.
  intros Hw Hp. pose proof (wf_nodup d Hw) as Hn. destruct Hw as [Hh _]. apply reindex_wf.
  - by rewrite Hp.
  - unfold keys in *. by rewrite Hp.
Qed.

Lemma shortened_wf d es i e : wf d -> entries d !! i = Some e -> es = removeAt i (entries d) -> wf (reindex es).
Proof.
  intros Hw He ->. pose proof (wf_nodup d Hw) as Hn. destruct Hw as [Hh _].
  pose proof (removeAt_perm i _ e He) as Hp. rewrite Hp in Hh. apply Forall_cons in Hh as [_ Hh].
  apply reindex_wf; [done|]. unfold keys in *. rewrite Hp in Hn. simpl in Hn. by inversion Hn.
Qed.

Definition amove (k : string) (toLast : bool) (l : list (string * (obj * V))) : list (string * (obj * V)) :=
  match List.find (fun p => String.eqb k p.1) l with
  | Some p => if toLast then adel k l ++ [p] else p :: adel k l
  | None => l
  end.

Lemma find_at (l : list (string * (obj * V))) k i e : NoDup (map fst l) -> l !! i = Some (k, e) ->
  List.find (fun p => String.eqb k p.1) l = Some (k, e).
Proof.
  revert i. induction l as [|[k' e'] l IH]; intros i Hn Hi; [done|]. simpl in *. inversion Hn as [|? ? Hk Hn']; subst.
  destruct i as [|i]; simpl in Hi; [simplify_eq; by rewrite String.eqb_refl|].
  destruct (String.eqb_spec k k') as [-> |]; [|by eapply IH]. exfalso. apply Hk.
  apply list_elem_of_fmap. exists (k', e). split; [done|by eapply list_elem_of_lookup_2].
Qed.

Lemma moveToEnd_spec d key k b : wf d -> dictKey key = inl k ->
  match aget k (view d) with
  | None => moveToEnd d key b = Some (inr (DKeyError key))
  | Some _ => exists d', moveToEnd d key b = Some (inl d') /\ wf d' /\ view d' = amove k b (view d)
  end.
Proof.
  intros Hw Hk. unfold moveToEnd, withKey. rewrite Hk. destruct (index d !! k) as [i|] eqn:E.
  2: by rewrite (absent_aget _ _ (wf_miss d k Hw E)).
  destruct (wf_hit d k i Hw E) as (e & He & Hke & Hv & _). unfold entry. rewrite He.
  pose proof (view_nodup d Hw) as Hn. rewrite (aget_at _ k i e Hn Hv). eexists. split; [done|].
  pose proof (removeAt_perm i _ e He) as Hp. split.
  - apply (reordered_wf d); [done|]. destruct b; [|by symmetry]. etrans; [|symmetry; exact Hp].
    symmetry. apply Permutation_cons_append.
  - unfold amove. rewrite (find_at _ k i e Hn Hv), (adel_at _ k i e Hn Hv). unfold view, keyed.
    rewrite <- removeAt_map. destruct b; simpl; rewrite ?map_app; simpl; by rewrite Hke.
Qed.

Lemma popitem_spec d : wf d ->
  match last (view d) with
  | None => popitem d = Some (inr (DKeyError (OStr "popitem(): dictionary is empty")))
  | Some (k, e) => exists d', popitem d = Some (inl (d', e)) /\ wf d' /\ view d = view d' ++ [(k, e)]
  end.
Proof.
  intros Hw. unfold popitem. destruct d as [es ix]. simpl in *.
  destruct es as [|e es _] using rev_ind; [done|].
  unfold view, keyed in *. simpl in *. rewrite !map_app. cbn [map]. rewrite !last_snoc.
  pose proof (wf_nodup _ Hw) as Hn. destruct Hw as [Hh Hi]. simpl in *.
  apply Forall_app in Hh as [Hh He]. apply Forall_cons in He as [He _]. rewrite He.
  rewrite length_app, Nat.add_1_r. cbn [pred]. rewrite take_app_length. eexists. split; [done|].
  split; [|done]. split; [done|]. simpl. unfold keys in *. rewrite map_app in Hi, Hn. cbn [map] in Hi, Hn.
  apply NoDup_app in Hn as (Hn & Hdis & _).
  intros k i. rewrite lookup_delete_Some, Hi. split.
  - intros [Hne [H|[_ H]]%lookup_app_Some]; [done|]. apply list_lookup_singleton_Some in H as [_ ?]. congruence.
  - intros H. split; [|by apply lookup_app_l_Some]. intros <-. apply (Hdis (keyOf e.1)); [by eapply list_elem_of_lookup_2|].
    by apply list_elem_of_singleton.
Qed.

Lemma orderedPopitem_spec d b : wf d ->
  let l := view d in
  match (if b : bool then last l else head l) with
  | None => orderedPopitem d b = Some (inr (DKeyError (OStr "dictionary is empty")))
  | Some (k, e) => exists d', orderedPopitem d b = Some (inl (d', e)) /\ wf d' /\
      view d' = (if b then take (pred (length l)) l else tail l)
  end.
Proof.
  intros Hw l. unfold orderedPopitem. subst l. set (i := if b then _ else 0).
  assert ((if b : bool then last (view d) else head (view d)) = (fun e => (keyOf e.1, e)) <$> entries d !! i) as ->.
  { unfold view, keyed, i. destruct b.
    - rewrite last_lookup, length_map. apply (list_lookup_fmap (fun e => (keyOf e.1, e))).
    - by destruct (entries d). }
  destruct (entries d !! i) as [e|] eqn:He; simpl; [|done]. eexists. split; [done|].
  split; [by eapply shortened_wf|]. unfold view, keyed. simpl. rewrite removeAt_map. unfold removeAt, i.
  destruct b; [|by destruct (entries d)]. rewrite length_map.
  rewrite (drop_ge _ (S _)); [by rewrite app_nil_r|]. rewrite length_map. lia.
Qed.
End Invariant.

(** ** Programs over a dict *)

Section Trace.
Context {V : Type}.

Inductive dop :=
  | DSet (key : obj) (v : V)
  | DGet (key : obj)
  | DDel (key : obj)
  | DPop (key : obj) (default : option V)
  | DPopitem
  | DSetdefault (key : obj) (v : V)
  | DUpdate (l : list (obj * V))
  | DMove (key : obj) (toLast : bool)
  | DPopEnd (fromLast : bool)
  | DClear.

Inductive out := Done | Val (v : V) | Pair (e : obj * V) | Fail (e : dictErr).

(** An exception leaves the dict as it is. *)
Definition settle {A} (d : dictObject V) (r : dres A) (k : A -> dictObject V * out) : option (dictObject V * out) :=
  match r with Some (inl a) => Some (k a) | Some (inr e) => Some (d, Fail e) | None => None end.

Definition dstep (d : dictObject V) (o : dop) : option (dictObject V * out) :=
  match o with
  | DSet key v => settle d (set d key v) (fun d' => (d', Done))
  | DGet key => settle d (get d key) (fun v => (d, Val v))
  | DDel key => settle d (pop d key None) (fun r => (r.1, Done))
  | DPop key default => settle d (pop d key default) (fun r => (r.1, Val r.2))
  | DPopitem => settle d (popitem d) (fun r => (r.1, Pair r.2))
  | DSetdefault key v => settle d (setdefault d key v) (fun r => (r.1, Val r.2))
  | DUpdate l =>
      match setAll d l with
      | Some (d', None) => Some (d', Done)
      | Some (d', Some e) => Some (d', Fail e)
      | None => None
      end
  | DMove key b => settle d (moveToEnd d key b) (fun d' => (d', Done))
  | DPopEnd b => settle d (orderedPopitem d b) (fun r => (r.1, Pair r.2))
  | DClear => Some (emptyDict, Done)
  end.

Fixpoint drun (d : dictObject V) (l : list dop) : option (dictObject V * list out) :=
  match l with
  | [] => Some (d, [])
  | o :: l =>
      match dstep d o with
      | Some (d', x) => match drun d' l with Some (d'', xs) => Some (d'', x :: xs) | None => None end
      | None => None
      end
  end.

(** The same on the ordered association list. *)
Notation alist := (list (string * (obj * V))).

Definition akey (l : alist) (key : obj) (k : string -> alist * out) : alist * out :=
  match dictKey key with inl s => k s | inr e => (l, Fail (DErr e)) end.

Fixpoint aupdate (l : alist) (es : list (obj * V)) : alist * out :=
  match es with
  | [] => (l, Done)
  | (key, v) :: es =>
      match dictKey key with inl k => aupdate (aset k key v l) es | inr e => (l, Fail (DErr e)) end
  end.

Definition astep (l : alist) (o : dop) : alist * out :=
  match o with
  | DSet key v => akey l key (fun k => (aset k key v l, Done))
  | DGet key => akey l key (fun k => (l, match aget k l with Some v => Val v | None => Fail (DKeyError key) end))
  | DDel key => akey l key (fun k =>
      match aget k l with Some _ => (adel k l, Done) | None => (l, Fail (DKeyError key)) end)
  | DPop key default => akey l key (fun k =>
      match aget k l, default with
      | Some v, _ => (adel k l, Val v)
      | None, Some v => (l, Val v)
      | None, None => (l, Fail (DKeyError key))
      end)
  | DPopitem =>
      match last l with
      | Some p => (take (pred (length l)) l, Pair p.2)
      | None => (l, Fail (DKeyError (OStr "popitem(): dictionary is empty")))
      end
  | DSetdefault key v => akey l key (fun k =>
      match aget k l with Some w => (l, Val w) | None => (aset k key v l, Val v) end)
  | DUpdate es => aupdate l es
  | DMove key b => akey l key (fun k =>
      match aget k l with Some _ => (amove k b l, Done) | None => (l, Fail (DKeyError key)) end)
  | DPopEnd b =>
      match (if b then last l else head l) with
      | Some p => (if b then take (pred (length l)) l else tail l, Pair p.2)
      | None => (l, Fail (DKeyError (OStr "dictionary is empty")))
      end
  | DClear => ([], Done)
  end.

Fixpoint arun (l : alist) (os : list dop) : alist * list out :=
  match os with
  | [] => (l, [])
  | o :: os => let r := astep l o in let rs := arun r.1 os in (rs.1, r.2 :: rs.2)
  end.

(** One operation simulated. *)
Definition simulates (d : dictObject V) (r : option (dictObject V * out)) (s : alist * out) : Prop :=
  exists d' x, r = Some (d', x) /\ wf d' /\ s = (view d', x).

Lemma sim_key {A} d key (f : string -> dres A) k g : wf d ->
  (forall s, dictKey key = inl s -> simulates d (settle d (f s) k) (g s)) ->
  simulates d (settle d (withKey key f) k) (akey (view d) key g).
Proof.
  intros Hw H. unfold withKey, akey. destruct (dictKey key) as [s|e] eqn:E; [by apply H|].
  exists d, (Fail (DErr e)). done.
Qed.

Lemma update_sim es : forall d, wf d -> simulates d (dstep d (DUpdate es)) (aupdate (view d) es).
Proof.
  induction es as [|[key v] es IH]; intros d Hw; [by exists d, Done|]. simpl.
  destruct (dictKey key) as [k|e] eqn:E.
  - destruct (set_spec d key k v Hw E) as (d' & -> & Hw' & <-). apply (IH d' Hw').
  - exists d, (Fail (DErr e)). unfold set, withKey. rewrite E. done.
Qed.

Lemma withKey_hit {A} key s (f : string -> dres A) : dictKey key = inl s -> withKey key f = f s.
Proof. unfold withKey. by intros ->. Qed.

Lemma step_sim d o : wf d -> simulates d (dstep d o) (astep (view d) o).
Proof.
  intros Hw. destruct o as [key v|key|key|key default| |key v|es|key b|b|]; simpl.
  - unfold akey. destruct (dictKey key) as [k|e] eqn:E.
    + destruct (set_spec d key k v Hw E) as (d' & -> & Hw' & <-). by exists d', Done.
    + exists d, (Fail (DErr e)). unfold set, withKey. by rewrite E.
  - unfold akey. destruct (dictKey key) as [k|e] eqn:E.
    + unfold get. rewrite (lookup_spec d key k Hw E). simpl. destruct (aget k (view d)); eexists _, _; done.
    + exists d, (Fail (DErr e)). unfold get, lookup, withKey. by rewrite E.
  - unfold akey. destruct (dictKey key) as [k|e] eqn:E.
    + destruct (delete_spec d key k Hw E) as (d' & Ed & Hw' & Hv). unfold pop. rewrite Ed. simpl.
      destruct (aget k (view d)); simpl; [|by eexists _, _]. rewrite <- Hv. by eexists _, _.
    + exists d, (Fail (DErr e)). unfold pop, delete, withKey. by rewrite E.
  - unfold akey. destruct (dictKey key) as [k|e] eqn:E.
    + destruct (delete_spec d key k Hw E) as (d' & Ed & Hw' & Hv). unfold pop. rewrite Ed. simpl.
      destruct (aget k (view d)); simpl; [rewrite <- Hv; by eexists _, _|]. destruct default; by eexists _, _.
    + exists d, (Fail (DErr e)). unfold pop, delete, withKey. by rewrite E.
  - pose proof (popitem_spec d Hw) as H. destruct (last (view d)) as [[k e]|]; [|rewrite H; by eexists _, _].
    destruct H as (d' & -> & Hw' & ->). rewrite length_app, Nat.add_1_r. cbn [pred]. rewrite take_app_length.
    by eexists _, _.
  - unfold akey. destruct (dictKey key) as [k|e] eqn:E.
    + unfold setdefault. rewrite (lookup_spec d key k Hw E). simpl. destruct (aget k (view d)); [by eexists _, _|].
      destruct (set_spec d key k v Hw E) as (d' & -> & Hw' & <-). by eexists _, _.
    + exists d, (Fail (DErr e)). unfold setdefault, lookup, withKey. by rewrite E.
  - by apply update_sim.
  - unfold akey. destruct (dictKey key) as [k|e] eqn:E.
    + pose proof (moveToEnd_spec d key k b Hw E) as H. destruct (aget k (view d)); [|rewrite H; by eexists _, _].
      destruct H as (d' & -> & Hw' & <-). by eexists _, _.
    + exists d, (Fail (DErr e)). unfold moveToEnd, withKey. by rewrite E.
  - pose proof (orderedPopitem_spec d b Hw) as H. cbn zeta in H.
    destruct (if b then last (view d) else head (view d)) as [[k e]|]; [|rewrite H; by eexists _, _].
    destruct H as (d' & -> & Hw' & <-). by eexists _, _.
  - exists emptyDict, Done. split_and!; [done|apply empty_wf|done].
Qed.

Lemma run_sim os : forall d, wf d -> exists d' xs, drun d os = Some (d', xs) /\ wf d' /\ arun (view d) os = (view d', xs).
Proof.
  induction os as [|o os IH]; intros d Hw; [by exists d, []|]. cbn [drun arun].
  destruct (step_sim d o Hw) as (d1 & x & -> & Hw1 & ->). simpl.
  destruct (IH d1 Hw1) as (d2 & xs & -> & Hw2 & ->). by exists d2, (x :: xs).
Qed.

(** C24: a dict is an insertion-ordered map.  Any program of sets, reads,
    deletions, pops, setdefaults, updates, moves to an end and clears, run on
    an empty dict, never indexes outside the entries, keeps the index exactly
    the positions of the entries' keys, and gives the same results, the same
    exceptions and the same entries in the same order as the program run on an
    association list that is searched from the front. *)
Theorem dict_refines os :
  exists d xs, drun emptyDict os = Some (d, xs) /\ wf d /\ arun [] os = (view d, xs).
Proof. apply (run_sim os emptyDict), empty_wf. Qed.
End Trace.
