(* ===== verification/BridgeMono.v ===== *)
(** * BridgeMono: lowering against a larger resolver

    The bridge of src/pkg/ir/bridge.go lowers a function against a resolver of
    static callees.  A function that lowers against one resolver lowers to the
    same code against every resolver that knows at least the same callees: the
    partition driver's fixpoints rest on this.  The callees of the larger
    resolver may have other Go names, as the build's have; the code then
    differs in the names of its calls. *)

From S2P Require Import Prelude Ast Int64 StaticOps Fold GoSem Emit IrCost Bridge BridgeScope GuardSites.
Local Open Scope Z_scope.
Local Open Scope bridge_scope.

Section Rename.
Context (rho : string -> string).

(** The same code calling the renamed callees. *)
Fixpoint renE (e : Expr) : Expr :=
  match e with
  | Bin op l r => Bin op (renE l) (renE r)
  | Index b i => Index (renE b) (renE i)
  | ListLit r l => ListLit r (map renE l)
  | Attr b n => Attr (renE b) n
  | GenNew t fs => GenNew t (map (fun p => (p.1, renE p.2)) fs)
  | Call f args r => Call (rho f) (map renE args) r
  | Cmp op l r => Cmp op (renE l) (renE r)
  | And l r => And (renE l) (renE r)
  | Or l r => Or (renE l) (renE r)
  | Not x => Not (renE x)
  | e => e
  end.

Fixpoint renS (s : Stmt) : Stmt :=
  match s with
  | Define x v => Define x (renE v)
  | AugAssign x op r v => AugAssign x op r (renE v)
  | Assign x v => Assign x (renE v)
  | Bind xs vs d => Bind xs (map renE vs) d
  | Return v => Return (renE v)
  | ForRange b i o l => ForRange b i (renE o) (map renS l)
  | ForGen b r g l d => ForGen b r (renE g) (map renS l) d
  | ForCount v s e d l rs => ForCount v (renE s) (renE e) d (map renS l) rs
  | While c l => While (renE c) (map renS l)
  | If c t e => If (renE c) (map renS t) (map renS e)
  | Discard v => Discard (renE v)
  | s => s
  end.

Definition renP (p : Expr * Repr) : Expr * Repr := (renE p.1, p.2).
Definition renL (x : lowered) : lowered := mkLowered (map renS (lStmts x)) (lRet x) (lTerm x) (lScope x).
Definition renF (f : Func) : Func :=
  mkFunc (Emit.Name f) (Params f) (FRet f) (map renS (Body f)) (DeoptHandler f) (BindingGuards f).
Definition renCallee (s : StaticCallee) : StaticCallee := mkCallee (rho (GoName s)) (CParams s) (CRet s).

(** The larger context: its resolver knows every callee under its new name. *)
Record ctxLe (c c' : lowerCtx) : Prop := {
  le_reads : reads c' = reads c;
  le_loop : inLoop c' = inLoop c;
  le_globals : globals c' = globals c;
  le_shapes : shapes c' = shapes c;
  le_resolve : forall f s, resolve c f = Some s -> resolve c' f = Some (renCallee s);
  le_gens : forall f s, gens c f = Some s -> gens c' f = Some s
}.

Lemma loopCtx_le c c' : ctxLe c c' -> ctxLe (loopCtx c) (loopCtx c').
Proof. intros []. split; simpl; auto. Qed.

(** ** What the bridge looks at in lowered code *)

Lemma fold_ren e : foldConstInt (renE e) = foldConstInt e.
Proof. induction e; simpl; try done. by rewrite IHe1, IHe2. Qed.

Lemma intConst_ren e v : isIntConst (renE e) v = isIntConst e v.
Proof. by destruct e. Qed.

Lemma raising_ren e : HasRaisingGuard (renE e) = HasRaisingGuard e.
Proof. induction e; simpl; try done; by rewrite ?IHe1, ?IHe2, ?IHe. Qed.

Lemma discardable_ren e : pureDiscardable (renE e) = pureDiscardable e.
Proof. by destruct e. Qed.

Lemma reprOf_ren e : reprOf (renE e) = reprOf e.
Proof. induction e; simpl; try done; by rewrite ?IHe1, ?IHe2. Qed.

Lemma guardedOp_ren op l r : guardedOp op (renE l) (renE r) = guardedOp op l r.
Proof. unfold guardedOp. by rewrite !reprOf_ren. Qed.

Lemma costExpr_ren e : forall c, costExpr (renE e) c = costExpr e c.
Proof.
  revert e. apply (GuardSites.Expr_ind' (fun e => forall c, costExpr (renE e) c = costExpr e c)).
  - by intros [].
  - intros l r IHl IHr. split_and!; intros; simpl; by rewrite ?guardedOp_ren, IHl, IHr.
  - intros x IH. split; intros; simpl; [by rewrite IH|done].
  - intros rp l IH c. simpl. f_equal. revert c. induction IH as [|x l Hx _ IHl]; intros c; simpl; [done|]. by rewrite Hx.
  - intros f l rp IH c. simpl. f_equal. revert c. induction IH as [|x l Hx _ IHl]; intros c; simpl; [done|]. by rewrite Hx.
  - intros t l IH c. simpl. f_equal. revert c. induction IH as [|[y x] l Hx _ IHl]; intros c; simpl in *; [done|]. by rewrite Hx.
Qed.

Lemma bridgeBin_ren op l lr r rr res :
  bridgeBin op (renE l) lr (renE r) rr res = renP (bridgeBin op l lr r rr res).
Proof.
  unfold bridgeBin. rewrite <- (fold_ren (Bin op l r)). simpl renE.
  destruct (foldConstInt (Bin op (renE l) (renE r))); [done|]. unfold simplifyIntIdentity.
  destruct (negb (isSInt res)); [done|].
  destruct (rightIdentity op), (leftIdentity op); rewrite ?intConst_ren; by repeat case_match; simplify_eq.
Qed.

Lemma fst_ren ps : map fst (map renP ps) = map renE (map fst ps).
Proof. by rewrite !map_map. Qed.
Lemma snd_ren ps : map snd (map renP ps) = map snd ps.
Proof. by rewrite map_map. Qed.

Lemma forallb_ren (f : Expr * Repr -> bool) ps :
  (forall p, f (renP p) = f p) -> forallb f (map renP ps) = forallb f ps.
Proof. intros H. induction ps as [|p ps IH]; simpl; [done|]. by rewrite H, IH. Qed.

Lemma lowerListLit_ren ps : lowerListLit (map renP ps) = renP <$> lowerListLit ps.
Proof.
  destruct ps as [|[x r] ps]; [done|].
  transitivity (if forallb (fun p => negb (isScalar NotScalar p.2) && sameScalar p.2 r) (map renP ((x, r) :: ps))
    then Some (ListLit r (map fst (map renP ((x, r) :: ps))), listRepr r) else None); [done|].
  rewrite forallb_ren by done. unfold lowerListLit. destruct (forallb _ _); [|done].
  rewrite fst_ren. done.
Qed.

Lemma lowerChain_ren ops : forall acc p rs,
  lowerChain (renE <$> acc) (renP p) ops (map renP rs) = renP <$> lowerChain acc p ops rs.
Proof.
  induction ops as [|k ops IH]; intros acc p [|q rs]; simpl; try done; [by destruct acc|].
  destruct (cmpOp k) as [op|]; simpl; [|done]. destruct (cmpOperands op p.2 q.2); [|done].
  rewrite <- IH. f_equal. simpl. by destruct acc.
Qed.

Lemma lowerConn_ren k vs : forall acc r, lowerConn k (renE acc) r (map renP vs) = renP <$> lowerConn k acc r vs.
Proof.
  induction vs as [|[x xr] vs IH]; intros acc r; simpl; [done|]. rewrite raising_ren.
  destruct (sameScalar xr r && _); [|done]. rewrite <- IH. by destruct k.
Qed.

Lemma lowerBoolOp_ren k vs : lowerBoolOp k (map renP vs) = renP <$> lowerBoolOp k vs.
Proof.
  destruct vs as [|[x r] [|p vs]]; [done|done|]. unfold lowerBoolOp. cbn [map]. simpl.
  destruct (connScalar (RScalar r)); [|done]. apply (lowerConn_ren k (p :: vs)).
Qed.

Lemma lowerCall_ren s ps : lowerCall (renCallee s) (map renP ps) = renP <$> lowerCall s ps.
Proof.
  unfold lowerCall. simpl. rewrite length_map.
  assert (forall l (qs : list Repr), forallb (fun p => sameScalar p.1.2 p.2) (combine (map renP l) qs) =
    forallb (fun p => sameScalar p.1.2 p.2) (combine l qs)) as ->.
  { induction l as [|[x r] l IH]; intros [|q qs]; simpl; [done..|]. by rewrite IH. }
  destruct (Nat.eqb _ _ && _); [|done]. unfold renP. simpl. rewrite fst_ren. done.
Qed.

(** ** The monad *)

Definition sim {A B} (f : A -> B) (m : BM A) (m' : BM B) : Prop :=
  forall g a g', m g = Some (a, g') -> m' g = Some (f a, g').

Lemma sim_ret {A B} (f : A -> B) a b : f a = b -> sim f (bret a) (bret b).
Proof. intros <- g x g' [= <- <-]. done. Qed.

Lemma sim_bind {A B C D} (f : A -> B) (h : C -> D) (m : BM A) (m' : BM B) k k' :
  sim f m m' -> (forall a, sim h (k a) (k' (f a))) -> sim h (bbind m k) (bbind m' k').
Proof.
  intros Hm Hk g x g' E. unfold bbind in *. destruct (m g) as [[a g1]|] eqn:Em; [|done].
  rewrite (Hm _ _ _ Em). by apply Hk.
Qed.

Lemma sim_lift {A B} (f : A -> B) o o' : o' = f <$> o -> sim f (blift o) (blift o').
Proof. intros -> g x g'. unfold blift. destruct o; simpl; [|done]. by intros [= <- <-]. Qed.

Lemma sim_same {A} (m : BM A) : sim id m m.
Proof. by intros g a g'. Qed.

Lemma sim_check {A B} (f : A -> B) b k k' : sim f k k' -> sim f (check b k) (check b k').
Proof. intros H. unfold check. by destruct b. Qed.

Lemma sim_none {A B} (f : A -> B) m : sim f unsupported m.
Proof. by intros g a g'. Qed.
End Rename.

Create HintDb sims.
#[export] Hint Resolve sim_none sim_same : sims.


(** ** Expressions *)

Section Lowering.
Context (rho : string -> string).
Notation renE := (renE rho).
Notation renP := (renP rho).
Notation renL := (renL rho).
Notation ctxLe := (ctxLe rho).

Lemma sim_pair {A} (k : Expr * Repr -> BM A) (k' : Expr * Repr -> BM A) (h : A -> A) m m' :
  sim renP m m' -> (forall x r, sim h (k (x, r)) (k' (renE x, r))) -> sim h (bbind m k) (bbind m' k').
Proof. intros Hm Hk. eapply sim_bind; [exact Hm|]. intros [x r]. apply Hk. Qed.

Lemma lowerName_sim c c' sc x : ctxLe c c' -> sim renP (lowerName c sc x) (lowerName c' sc x).
Proof.
  intros Hc. unfold lowerName. rewrite (le_globals _ _ _ Hc). destruct (sc !! x); [by apply sim_ret|].
  destruct (globals c x); [|apply sim_none]. eapply sim_bind; [apply sim_same|]. intros []. by apply sim_ret.
Qed.

(** The walk over a list of subexpressions. *)
Ltac sim_list IH :=
  let Hx := fresh "Hx" in let IHw := fresh "IHw" in
  induction IH as [|? ? Hx _ IHw]; [by apply sim_ret|];
  eapply sim_bind; [exact Hx|]; intros ?; eapply sim_bind; [exact IHw|]; intros ?; by apply sim_ret.

Lemma lowerExprs_sim c c' sc l : Forall (fun e => sim renP (lowerExpr c sc e) (lowerExpr c' sc e)) l ->
  sim (map renP) (lowerExprs c sc l) (lowerExprs c' sc l).
Proof.
  intros IH. sim_list IH.
Qed.

Lemma lowerExpr_sim c c' sc e : ctxLe c c' -> sim renP (lowerExpr c sc e) (lowerExpr c' sc e).
Proof.
  intros Hc. induction e as [x|t|f|s|b|l IH|l IH|op l r IHl IHr|op x IHx|k l IH|l ops rs IHl IHr|f args IHf IHa
    |x n IHx|x i IHx IHi|a b d|v f|n] using Ast.Expr_ind'; try apply sim_none; try (by apply sim_ret); simpl.
  - by apply lowerName_sim.
  - eapply sim_bind; [apply sim_same|]. intros z. by apply sim_ret.
  - eapply (sim_bind (map renP)); [sim_list IH|]. intros ps. apply sim_lift, lowerListLit_ren.
  - eapply sim_bind; [apply sim_same|]. intros o. apply sim_pair; [exact IHl|]. intros x xr.
    apply sim_pair; [exact IHr|]. intros y yr. eapply sim_bind; [apply sim_same|]. intros res.
    apply sim_ret. symmetry. apply bridgeBin_ren.
  - destruct op; try apply sim_none. apply sim_pair; [exact IHx|]. intros y yr. apply sim_check. by apply sim_ret.
  - eapply (sim_bind (map renP)); [sim_list IH|]. intros ps. apply sim_lift, lowerBoolOp_ren.
  - apply sim_check. eapply sim_bind; [exact IHl|]. intros p.
    eapply (sim_bind (map renP)); [sim_list IHr|]. intros ps. apply sim_lift, (lowerChain_ren rho ops None).
  - destruct f as [f| | | | | | | | | | | | | | | |]; try apply sim_none.
    intros g a g'. unfold bbind at 1, blift at 1. destruct (resolve c f) as [s|] eqn:Es; [|done].
    unfold bbind at 2, blift at 2. rewrite (le_resolve _ _ _ Hc f s Es). revert g a g'.
    apply sim_check. eapply (sim_bind (map renP)).
    + clear Es. sim_list IHa.
    + intros ps. apply sim_lift, lowerCall_ren.
  - eapply sim_bind; [exact IHx|]. intros [y yr]. apply sim_lift. unfold lowerAttribute. simpl.
    destruct (RShape yr); simpl; [|done]. by destruct (Field _ _).
  - destruct i; try apply sim_none; (eapply sim_bind; [exact IHx|]; intros [y yr]; eapply sim_bind; [exact IHi|];
      intros [z zr]; apply sim_lift; unfold lowerSubscript; simpl; destruct (Elem yr); simpl; [|done];
      by destruct (isScalar SInt zr)).
Qed.

Lemma lowerAll_sim c c' sc l : ctxLe c c' -> sim (map renP) (lowerExprs c sc l) (lowerExprs c' sc l).
Proof. intros Hc. apply lowerExprs_sim. induction l; constructor; [by apply lowerExpr_sim|done]. Qed.

(** ** Statements *)

Lemma plain_sim ss ss' sc : map (renS rho) ss = ss' -> sim renL (plain ss sc) (plain ss' sc).
Proof. intros <-. by apply sim_ret. Qed.

Lemma bindName_ren x v r sc : sim renL (bindName x v r sc) (bindName x (renE v) r sc).
Proof. unfold bindName. destruct (sc !! x); [apply sim_check|]; by apply plain_sim. Qed.

Lemma simple_sim c c' sc s : ctxLe c c' ->
  match s with Ast.If _ _ _ | Ast.While _ _ _ | Ast.For _ _ _ _ _ => True
  | _ => sim renL (lowerStmt c s sc) (lowerStmt c' s sc) end.
Proof.
  intros Hc. destruct s as [x|ts v|t k v|t a v|cd b e|cd b e|t i b e a|v| | | |n]; try done; simpl; try apply sim_none.
  - unfold lowerExprStmt. apply sim_pair; [by apply lowerExpr_sim|]. intros y r. rewrite discardable_ren.
    apply plain_sim. by destruct (pureDiscardable y).
  - destruct ts as [|[] [|]]; try apply sim_none.
    + unfold lowerAssign. apply sim_pair; [by apply lowerExpr_sim|]. intros y r. apply bindName_ren.
    + destruct v; try apply sim_none. unfold lowerTupleAssign. apply sim_check.
      eapply sim_bind; [apply sim_same|]. intros names. apply sim_check.
      eapply sim_bind; [by apply lowerAll_sim|]. intros ps. rewrite fst_ren, snd_ren. apply sim_check. by apply plain_sim.
  - destruct t; try apply sim_none. unfold lowerAugAssign. eapply sim_bind; [apply sim_same|]. intros o.
    eapply sim_bind; [apply sim_same|]. intros tr. apply sim_pair; [by apply lowerExpr_sim|]. intros y r.
    eapply sim_bind; [apply sim_same|]. intros _. by apply plain_sim.
  - destruct t; try apply sim_none. destruct v as [v|]; [|apply sim_none]. unfold lowerAnnAssign.
    apply sim_pair; [by apply lowerExpr_sim|]. intros y r. apply sim_check, bindName_ren.
  - destruct v as [v|]; [|apply sim_none]. apply sim_pair; [by apply lowerExpr_sim|]. intros y r. by apply sim_ret.
  - by apply plain_sim.
  - rewrite (le_loop _ _ _ Hc). apply sim_check. by apply plain_sim.
  - rewrite (le_loop _ _ _ Hc). apply sim_check. by apply plain_sim.
Qed.

(** The blocks of a compound statement. *)
Notation blockSim f f' := (forall sc, sim renL (f sc) (f' sc)).

Lemma lowerIf_sim c c' cond b thn els thn' els' sc : ctxLe c c' -> blockSim thn thn' -> blockSim els els' ->
  sim renL (lowerIf c cond b thn els sc) (lowerIf c' cond b thn' els' sc).
Proof.
  intros Hc Ht He. unfold lowerIf.
  assert (forall sc, sim renL (if b then els sc else plain [] sc) (if b then els' sc else plain [] sc)) as He'.
  { intros s. destruct b; [apply He|by apply plain_sim]. }
  apply sim_pair; [by apply lowerExpr_sim|]. intros x r. apply sim_check.
  eapply sim_bind; [apply Ht|]. intros t. eapply sim_bind; [apply He'|]. intros e. simpl.
  eapply sim_bind; [apply sim_same|]. intros joins. unfold allRead. rewrite (le_reads _ _ _ Hc). apply sim_check.
  eapply sim_bind; [apply Ht|]. intros t2. eapply sim_bind; [apply He'|]. intros e2.
  eapply sim_bind; [apply sim_same|]. intros ret. apply sim_ret. unfold renL. simpl. f_equal.
  rewrite map_app. f_equal. unfold joinDecls. rewrite map_map. by apply map_ext.
Qed.

Lemma lowerWhile_sim c c' cond b body body' sc : ctxLe c c' -> blockSim body body' ->
  sim renL (lowerWhile c cond b body sc) (lowerWhile c' cond b body' sc).
Proof.
  intros Hc Hb. unfold lowerWhile. apply sim_check. apply sim_pair; [by apply lowerExpr_sim|]. intros x r.
  rewrite costExpr_ren. apply sim_check. eapply sim_bind; [apply Hb|]. intros l. by apply plain_sim.
Qed.

Lemma lowerStop_ren sc body x e v r :
  lowerStop sc body x e (renE v) r = (fun p => (map (renS rho) p.1, renE p.2)) <$> lowerStop sc body x e v r.
Proof.
  unfold lowerStop. destruct e; try done; try (by destruct (freshLocal _ _ _ _)). by destruct (bodyAssigns body id).
Qed.

Lemma lowerForRange_sim c c' x args stmts body body' sc : ctxLe c c' -> blockSim body body' ->
  sim renL (lowerForRange c x args stmts body sc) (lowerForRange c' x args stmts body' sc).
Proof.
  intros Hc Hb. unfold lowerForRange. eapply sim_bind; [apply sim_same|]. intros [[start stop] down].
  eapply (sim_bind renE).
  { unfold lowerStart. destruct start; [|by apply sim_ret].
    intros g a g'. unfold bbind. destruct (lowerExpr c sc _ g) as [[[y r] g1]|] eqn:E; [|done].
    rewrite (lowerExpr_sim _ _ _ _ Hc _ _ _ E). simpl. revert g1 a g' E. unfold check. destruct (isScalar SInt r); [|done].
    intros g1 a g' _ [= <- <-]. done. }
  intros s. apply sim_pair; [by apply lowerExpr_sim|]. intros t tr. apply sim_check.
  eapply sim_bind; [apply sim_lift, lowerStop_ren|]. intros [pre bnd]. apply sim_check.
  eapply sim_bind; [apply Hb|]. intros l. apply plain_sim. rewrite map_app. done.
Qed.

Lemma genArgs_ren args : forall ps,
  genArgs (map renP args) ps = (fun p => (map (renS rho) p.1, map (fun q => (q.1, renE q.2)) p.2)) <$> genArgs args ps.
Proof.
  induction args as [|[v r] args IH]; intros [|p ps]; simpl; try done.
  destruct (sameScalar r (GpRepr p)); [|done]. rewrite IH. destruct (genArgs args ps) as [[a b]|]; simpl; [|done].
  rewrite discardable_ren. by destruct (Saved p), (pureDiscardable v).
Qed.

Lemma lowerForGen_sim c c' x sig args stmts body body' sc : ctxLe c c' -> blockSim body body' ->
  sim renL (lowerForGen c x sig args stmts body sc) (lowerForGen c' x sig args stmts body' sc).
Proof.
  intros Hc Hb. unfold lowerForGen. apply sim_check. eapply sim_bind; [by apply lowerAll_sim|]. intros ps.
  eapply sim_bind; [apply sim_lift, genArgs_ren|]. intros [pre fields].
  eapply sim_bind; [apply sim_same|]. intros handle. eapply sim_bind; [apply Hb|]. intros l.
  apply plain_sim. rewrite map_app. done.
Qed.

Lemma lowerFor_sim c c' target iter stmts b body body' sc : ctxLe c c' -> blockSim body body' ->
  sim renL (lowerFor c target iter stmts b body sc) (lowerFor c' target iter stmts b body' sc).
Proof.
  intros Hc Hb. unfold lowerFor. apply sim_check. destruct target; try apply sim_none.
  destruct iter as [| | | | | | | | | | |f args| | | | |]; try apply sim_none. destruct f as [f| | | | | | | | | | | | | | | |]; try apply sim_none.
  apply sim_check. destruct (String.eqb f "range"); [by apply lowerForRange_sim|].
  destruct (gens c f) as [sig|] eqn:E; [|apply sim_none]. rewrite (le_gens _ _ _ Hc _ _ E). by apply lowerForGen_sim.
Qed.

Lemma lowerStmt_sim s : forall c c' sc, ctxLe c c' -> sim renL (lowerStmt c s sc) (lowerStmt c' s sc).
Proof.
  assert (forall l, Forall (fun s => forall c c' sc, ctxLe c c' -> sim renL (lowerStmt c s sc) (lowerStmt c' s sc)) l ->
    forall c c' ret term, ctxLe c c' -> blockSim (lowerBody c l ret term) (lowerBody c' l ret term)) as Hbody.
  { induction 1 as [|s' l Hs _ IH]; intros c c' ret term Hc sc; simpl; [by apply sim_ret|].
    eapply sim_bind; [by apply Hs|]. intros x. eapply sim_bind; [apply sim_same|]. intros r.
    eapply sim_bind; [by apply IH|]. intros y. apply sim_ret. unfold renL. simpl. by rewrite map_app. }
  revert s. apply (Ast.Stmt_ind' (fun s => forall c c' sc, ctxLe c c' -> sim renL (lowerStmt c s sc) (lowerStmt c' s sc))).
  - intros s. pose proof (fun c c' sc => simple_sim c c' sc s) as H. by destruct s.
  - intros cd t e IHt IHe c c' sc Hc. cbn [lowerStmt]. apply lowerIf_sim; [done|intros s g a g'..]; rewrite !lowerBody_walk;
      by apply Hbody.
  - intros cd t e IHt IHe c c' sc Hc. cbn [lowerStmt]. apply lowerWhile_sim; [done|intros s g a g'].
    rewrite !lowerBody_walk. apply Hbody; [done|by apply loopCtx_le].
  - intros x i t e d IHt IHe c c' sc Hc. cbn [lowerStmt]. apply lowerFor_sim; [done|intros s g a g'].
    rewrite !lowerBody_walk. apply Hbody; [done|by apply loopCtx_le].
Qed.

Lemma lowerBody_sim l : forall c c' ret term sc, ctxLe c c' ->
  sim renL (lowerBody c l ret term sc) (lowerBody c' l ret term sc).
Proof.
  induction l as [|s l IH]; intros c c' ret term sc Hc; simpl; [by apply sim_ret|].
  eapply sim_bind; [by apply lowerStmt_sim|]. intros x. eapply sim_bind; [apply sim_same|]. intros r.
  eapply sim_bind; [by apply IH|]. intros y. apply sim_ret. unfold renL. simpl. by rewrite map_app.
Qed.

(** ** Functions *)

Lemma LowerFuncGen_ren fn res res' gl sh gn gn' F :
  (forall f s, res f = Some s -> res' f = Some (renCallee rho s)) ->
  (forall f s, gn f = Some s -> gn' f = Some s) ->
  LowerFuncGen fn res gl sh gn = Some F -> LowerFuncGen fn res' gl sh gn' = Some (renF rho F).
Proof.
  intros Hr Hg. unfold LowerFuncGen. destruct (Ast.fnAsync fn || _); [done|].
  assert (mapM (lowerParam (funcCtx fn res' gl sh gn')) (Ast.fnParams fn) =
    mapM (lowerParam (funcCtx fn res gl sh gn)) (Ast.fnParams fn)) as -> by done.
  destruct (mapM _ _) as [ps|]; simpl; [|done].
  destruct (lowerBody _ _ _ _ _ _) as [[b gs]|] eqn:E; [|done].
  assert (ctxLe (funcCtx fn res gl sh gn) (funcCtx fn res' gl sh gn')) as Hc by by split.
  rewrite (lowerBody_sim _ _ _ _ _ _ Hc _ _ _ E). simpl.
  destruct (lRet b); simpl; [|done]. destruct (lTerm b && _); [|done]. intros [= <-]. done.
Qed.
End Lowering.

(** Under the same names the code is the same. *)
Lemma renE_id e : renE id e = e.
Proof.
  revert e. apply GuardSites.Expr_ind'.
  - by intros [].
  - intros l r Hl Hr. split_and!; intros; simpl; by rewrite Hl, Hr.
  - intros x Hx. split; intros; simpl; by rewrite Hx.
  - intros r l Hl. simpl. f_equal. induction Hl as [|x l Hx _ IH]; simpl; by rewrite ?Hx, ?IH.
  - intros f l r Hl. simpl. f_equal. induction Hl as [|x l Hx _ IH]; simpl; by rewrite ?Hx, ?IH.
  - intros t l Hl. simpl. f_equal. induction Hl as [|[y x] l Hx _ IH]; simpl in *; by rewrite ?Hx, ?IH.
Qed.

Lemma renEs_id l : map (renE id) l = l.
Proof. induction l as [|x l IH]; simpl; by rewrite ?renE_id, ?IH. Qed.

Lemma renS_id s : renS id s = s.
Proof.
  assert (forall l, Forall (fun s => renS id s = s) l -> map (renS id) l = l) as Hl.
  { induction 1 as [|s' l Hs _ IH]; simpl; by rewrite ?Hs, ?IH. }
  revert s. apply GuardSites.Stmt_ind'; intros; simpl; rewrite ?renE_id, ?Hl by done; try done.
  destruct s; simpl; by rewrite ?renE_id, ?renEs_id.
Qed.

Lemma renF_id f : renF id f = f.
Proof.
  destruct f as [n ps r b d bg]. unfold renF. simpl. f_equal. induction b as [|s l IH]; simpl; by rewrite ?renS_id, ?IH.
Qed.

(** The resolvers of the driver, by inclusion. *)
Lemma LowerFuncGen_mono fn (R R' : gmap string StaticCallee) gl sh gn gn' F :
  R ⊆ R' -> (forall f s, gn f = Some s -> gn' f = Some s) ->
  LowerFuncGen fn (R !!.) gl sh gn = Some F -> LowerFuncGen fn (R' !!.) gl sh gn' = Some F.
Proof.
  intros HR Hg E. rewrite <- (renF_id F). eapply LowerFuncGen_ren; [|exact Hg|exact E].
  intros f s Hf. rewrite (lookup_weaken _ _ _ _ Hf HR). by destruct s.
Qed.
