(* ===== verification/Tree.v ===== *)
(** * Tree: the whole syntax tree

    All nodes of src/pkg/frontend/ast.go, with the positions the partition
    driver reads: the driver walks every statement and expression of a module,
    while the bridge only ever looks at one function.  [erase] is what the
    bridge sees of a node (Ast.v): the nodes it refuses lose their parts. *)

From S2P Require Import Prelude Ast.
From Stdlib Require Import SpecFloat.

Record Pos := mkPos { Line : Z; Col : Z }.

Inductive CompKind := CompList | CompSet | CompDict | CompGen.

(** A formal parameter and a [for] leg of a comprehension, over their
    expressions. *)
Record ParamOf (E : Type) := mkParamOf {
  xpName : string; xpKind : ParamKind; xpAnnotation : option E; xpDefault : option E }.
Record CompClause (E : Type) := mkClause { clTarget : E; clIter : E; clIfs : list E }.
Arguments mkParamOf {E}.
Arguments xpName {E}.
Arguments xpKind {E}.
Arguments xpAnnotation {E}.
Arguments xpDefault {E}.
Arguments mkClause {E}.
Arguments clTarget {E}.
Arguments clIter {E}.
Arguments clIfs {E}.

(** [XLit] is one of the literals without parts that the bridge refuses
    (ImagLit, BytesLit, NoneLit, EllipsisLit); the parts of a string node are
    its interpolations in the order of [FInterps]. *)
Inductive XExpr :=
  | XName (id : string)
  | XIntLit (text : string)
  | XFloatLit (val : spec_float)
  | XStrLit (val : string)
  | XBoolLit (val : bool)
  | XLit (node : string)
  | XListLit (elts : list XExpr)
  | XTupleLit (elts : list XExpr)
  | XSetLit (elts : list XExpr)
  | XDictLit (keys : list (option XExpr)) (vals : list XExpr)
  | XBinOp (op : BinKind) (left right : XExpr)
  | XUnaryOp (op : UnaryKind) (x : XExpr)
  | XBoolOp (kind : BoolKind) (values : list XExpr)
  | XCompare (left : XExpr) (ops : list CmpKind) (rights : list XExpr)
  | XCall (pos : Pos) (fn : XExpr) (args : list (Arg XExpr))
  | XAttribute (x : XExpr) (name : string)
  | XSubscript (x index : XExpr)
  | XSliceExpr (lo hi step : option XExpr)
  | XIfExp (cond thn els : XExpr)
  | XStarred (x : XExpr)
  | XAwait (x : XExpr)
  | XYield (value : option XExpr) (from : bool)
  | XNamedExpr (target : string) (value : XExpr)
  | XFStr (interps : list XExpr)
  | XTStr (interps : list XExpr)
  | XLambda (pos : Pos) (params : list (ParamOf XExpr)) (body : XExpr)
  | XComp (pos : Pos) (kind : CompKind) (elt : XExpr) (val : option XExpr) (clauses : list (CompClause XExpr)).

(** A def and a class header, over their statements. *)
Record DefOf (S : Type) := mkDef {
  xfPos : Pos; xfName : string; xfParams : list (ParamOf XExpr); xfReturns : option XExpr;
  xfBody : list S; xfDecorators : list XExpr; xfAsync : bool }.
Arguments mkDef {S}.
Arguments xfPos {S}.
Arguments xfName {S}.
Arguments xfParams {S}.
Arguments xfReturns {S}.
Arguments xfBody {S}.
Arguments xfDecorators {S}.
Arguments xfAsync {S}.

Inductive XStmt :=
  | SExprStmt (x : XExpr)
  | SAssign (targets : list XExpr) (value : XExpr)
  | SAugAssign (target : XExpr) (op : BinKind) (value : XExpr)
  | SAnnAssign (target annotation : XExpr) (value : option XExpr)
  | SReturn (value : option XExpr)
  | SRaise (exc cause : option XExpr)
  | SAssert (test : XExpr) (msg : option XExpr)
  | SDel (targets : list XExpr)
  | SIf (cond : XExpr) (body els : list XStmt)
  | SWhile (cond : XExpr) (body els : list XStmt)
  | SFor (target iter : XExpr) (body els : list XStmt) (async : bool)
  | SWith (items : list (XExpr * option XExpr)) (body : list XStmt)
  | STry (body : list XStmt) (handlers : list (option XExpr * list XStmt)) (orElse final : list XStmt)
  | SMatch (subject : XExpr) (cases : list (option XExpr * list XStmt))
  | SFuncDef (def : DefOf XStmt)
  | SClassDef (pos : Pos) (name : string) (bases keywords decorators : list XExpr) (body : list XStmt)
  | SPass
  | SBreak
  | SContinue
  | SOther (node : string).

Notation XFuncDef := (DefOf XStmt).

(** ** What the bridge sees *)

Fixpoint erase (e : XExpr) : Ast.Expr :=
  match e with
  | XName x => Ast.Name x
  | XIntLit t => Ast.IntLit t
  | XFloatLit f => Ast.FloatLit f
  | XStrLit s => Ast.StrLit s
  | XBoolLit b => Ast.BoolLit b
  | XLit n => Ast.OtherExpr n
  | XListLit l => Ast.ListLit (map erase l)
  | XTupleLit l => Ast.TupleLit (map erase l)
  | XSetLit _ => Ast.OtherExpr "SetLit"
  | XDictLit _ _ => Ast.OtherExpr "DictLit"
  | XBinOp op l r => Ast.BinOp op (erase l) (erase r)
  | XUnaryOp op x => Ast.UnaryOp op (erase x)
  | XBoolOp k l => Ast.BoolOp k (map erase l)
  | XCompare l ops rs => Ast.Compare (erase l) ops (map erase rs)
  | XCall _ f args => Ast.Call (erase f) (map (fun a => mkArg (argName a) (argStar a) (erase (argValue a))) args)
  | XAttribute x n => Ast.Attribute (erase x) n
  | XSubscript x i => Ast.Subscript (erase x) (erase i)
  | XSliceExpr a b c => Ast.SliceExpr (option_map erase a) (option_map erase b) (option_map erase c)
  | XIfExp _ _ _ => Ast.OtherExpr "IfExp"
  | XStarred _ => Ast.OtherExpr "Starred"
  | XAwait _ => Ast.OtherExpr "Await"
  | XYield v f => Ast.Yield (option_map erase v) f
  | XNamedExpr _ _ => Ast.OtherExpr "NamedExpr"
  | XFStr _ => Ast.OtherExpr "FStr"
  | XTStr _ => Ast.OtherExpr "TStr"
  | XLambda _ _ _ => Ast.OtherExpr "Lambda"
  | XComp _ _ _ _ _ => Ast.OtherExpr "Comp"
  end.

Fixpoint eraseStmt (s : XStmt) : Ast.Stmt :=
  match s with
  | SExprStmt x => Ast.ExprStmt (erase x)
  | SAssign ts v => Ast.Assign (map erase ts) (erase v)
  | SAugAssign t op v => Ast.AugAssign (erase t) op (erase v)
  | SAnnAssign t a v => Ast.AnnAssign (erase t) (erase a) (option_map erase v)
  | SReturn v => Ast.Return (option_map erase v)
  | SIf c b e => Ast.If (erase c) (map eraseStmt b) (map eraseStmt e)
  | SWhile c b e => Ast.While (erase c) (map eraseStmt b) (map eraseStmt e)
  | SFor t i b e a => Ast.For (erase t) (erase i) (map eraseStmt b) (map eraseStmt e) a
  | SPass => Ast.Pass
  | SBreak => Ast.Break
  | SContinue => Ast.Continue
  | SRaise _ _ => Ast.OtherStmt "Raise"
  | SAssert _ _ => Ast.OtherStmt "Assert"
  | SDel _ => Ast.OtherStmt "Del"
  | SWith _ _ => Ast.OtherStmt "With"
  | STry _ _ _ _ => Ast.OtherStmt "Try"
  | SMatch _ _ => Ast.OtherStmt "Match"
  | SFuncDef _ => Ast.OtherStmt "FuncDef"
  | SClassDef _ _ _ _ _ _ => Ast.OtherStmt "ClassDef"
  | SOther n => Ast.OtherStmt n
  end.

Definition eraseParam (p : ParamOf XExpr) : Ast.Param :=
  Ast.mkParam (xpName p) (xpKind p) (option_map erase (xpAnnotation p)) (option_map erase (xpDefault p)).

Definition eraseDef (d : XFuncDef) : Ast.FuncDef :=
  Ast.mkFuncDef (xfName d) (map eraseParam (xfParams d)) (option_map erase (xfReturns d))
    (map eraseStmt (xfBody d)) (map erase (xfDecorators d)) (xfAsync d).

(** The defs of a block itself. *)
Definition topDefs (body : list XStmt) : list XFuncDef :=
  omap (fun s => match s with SFuncDef d => Some d | _ => None end) body.

(** ** Subexpressions *)

Definition optList {A} (o : option A) : list A := match o with Some x => [x] | None => [] end.

(** The direct subexpressions of an expression. *)
Definition subs (e : XExpr) : list XExpr :=
  match e with
  | XName _ | XIntLit _ | XFloatLit _ | XStrLit _ | XBoolLit _ | XLit _ => []
  | XListLit l | XTupleLit l | XSetLit l | XBoolOp _ l | XFStr l | XTStr l => l
  | XDictLit ks vs => concat (map optList ks) ++ vs
  | XBinOp _ l r => [l; r]
  | XUnaryOp _ x | XAttribute x _ | XStarred x | XAwait x | XNamedExpr _ x => [x]
  | XCompare l _ rs => l :: rs
  | XCall _ f args => f :: map argValue args
  | XSubscript x i => [x; i]
  | XSliceExpr a b c => optList a ++ optList b ++ optList c
  | XIfExp c t f => [c; t; f]
  | XYield v _ => optList v
  | XLambda _ ps b => concat (map (fun p => optList (xpAnnotation p) ++ optList (xpDefault p)) ps) ++ [b]
  | XComp _ _ x v cls => x :: optList v ++ concat (map (fun cl => clTarget cl :: clIter cl :: clIfs cl) cls)
  end.

Fixpoint xsize (e : XExpr) : nat :=
  let opt (o : option XExpr) := match o with Some x => xsize x | None => 0 end in
  let all (l : list XExpr) := sum_list (map xsize l) in
  S match e with
    | XName _ | XIntLit _ | XFloatLit _ | XStrLit _ | XBoolLit _ | XLit _ => 0
    | XListLit l | XTupleLit l | XSetLit l | XBoolOp _ l | XFStr l | XTStr l => all l
    | XDictLit ks vs => sum_list (map opt ks) + all vs
    | XBinOp _ l r => xsize l + xsize r
    | XUnaryOp _ x | XAttribute x _ | XStarred x | XAwait x | XNamedExpr _ x => xsize x
    | XCompare l _ rs => xsize l + all rs
    | XCall _ f args => xsize f + sum_list (map (fun a => xsize (argValue a)) args)
    | XSubscript x i => xsize x + xsize i
    | XSliceExpr a b c => opt a + opt b + opt c
    | XIfExp c t f => xsize c + xsize t + xsize f
    | XYield v _ => opt v
    | XLambda _ ps b => sum_list (map (fun p => opt (xpAnnotation p) + opt (xpDefault p)) ps) + xsize b
    | XComp _ _ x v cls =>
        xsize x + opt v + sum_list (map (fun cl => xsize (clTarget cl) + xsize (clIter cl) + all (clIfs cl)) cls)
    end.

Definition total (l : list XExpr) : nat := sum_list (map xsize l).

Lemma total_app l k : total (l ++ k) = total l + total k.
Proof. unfold total. induction l as [|x l IH]; simpl; [done|]. rewrite IH. lia. Qed.

Lemma total_opt o : total (optList o) = match o with Some x => xsize x | None => 0 end.
Proof. destruct o; unfold total; simpl; lia. Qed.

Lemma total_concat {A} (f : A -> list XExpr) (g : A -> nat) l : (forall a, total (f a) = g a) ->
  total (concat (map f l)) = sum_list (map g l).
Proof. intros H. induction l as [|a l IH]; simpl; [done|]. by rewrite total_app, H, IH. Qed.

Lemma total_cons x l : total (x :: l) = xsize x + total l.
Proof. done. Qed.

Lemma subs_smaller e : total (subs e) < xsize e.
Proof.
  destruct e; cbn [subs xsize]; rewrite ?total_app, ?total_cons, ?total_opt, ?total_app, ?total_opt;
    repeat match goal with |- context [sum_list (map xsize ?l)] => change (sum_list (map xsize l)) with (total l) end;
    try (unfold total; simpl; lia).
  - rewrite (total_concat optList _ keys total_opt). lia.
  - unfold total. rewrite map_map. lia.
  - rewrite (total_concat _ (fun p => match xpAnnotation p with Some x => xsize x | None => 0 end +
      match xpDefault p with Some x => xsize x | None => 0 end)); [unfold total; simpl; lia|].
    intros p. by rewrite total_app, !total_opt.
  - rewrite (total_concat _ (fun cl => xsize (clTarget cl) + xsize (clIter cl) + total (clIfs cl))).
    + unfold total. lia.
    + intros cl. rewrite !total_cons. lia.
Qed.

Lemma total_elem x l : x ∈ l -> xsize x <= total l.
Proof. unfold total. induction 1; simpl; lia. Qed.

(** Induction over the subexpressions. *)
Lemma XExpr_subs_ind (P : XExpr -> Prop) : (forall e, Forall P (subs e) -> P e) -> forall e, P e.
Proof.
  intros H e. remember (xsize e) as n eqn:En. revert e En.
  induction (lt_wf n) as [n _ IH]. intros e ->. apply H, Forall_forall. intros x Hx.
  apply (IH (xsize x)); [|done]. pose proof (subs_smaller e). apply total_elem in Hx. lia.
Qed.

(** Induction over the blocks of a statement. *)
Section Induction.
Context (P : XStmt -> Prop).
Context (HSimple : forall s, match s with
  | SIf _ _ _ | SWhile _ _ _ | SFor _ _ _ _ _ | SWith _ _ | STry _ _ _ _ | SMatch _ _ | SFuncDef _
  | SClassDef _ _ _ _ _ _ => True | _ => P s end).
Context (HIf : forall c b e, Forall P b -> Forall P e -> P (SIf c b e)).
Context (HWhile : forall c b e, Forall P b -> Forall P e -> P (SWhile c b e)).
Context (HFor : forall t i b e a, Forall P b -> Forall P e -> P (SFor t i b e a)).
Context (HWith : forall items b, Forall P b -> P (SWith items b)).
Context (HTry : forall b hs o f, Forall P b -> Forall (fun h => Forall P h.2) hs -> Forall P o -> Forall P f ->
  P (STry b hs o f)).
Context (HMatch : forall x cs, Forall (fun c => Forall P c.2) cs -> P (SMatch x cs)).
Context (HFunc : forall d, Forall P (xfBody d) -> P (SFuncDef d)).
Context (HClass : forall p n bs ks ds b, Forall P b -> P (SClassDef p n bs ks ds b)).

Definition XStmt_ind' : forall s, P s :=
  fix rec s :=
    let recs := fix recs (l : list XStmt) : Forall P l :=
      match l with [] => Forall_nil_2 _ | x :: l => Forall_cons_2 _ _ _ (rec x) (recs l) end in
    let arms := fix arms (l : list (option XExpr * list XStmt)) : Forall (fun h => Forall P h.2) l :=
      match l with
      | [] => Forall_nil_2 _
      | (g, b) :: l => Forall_cons_2 (fun h => Forall P h.2) (g, b) l (recs b) (arms l)
      end in
    match s as s return (match s with
      | SIf _ _ _ | SWhile _ _ _ | SFor _ _ _ _ _ | SWith _ _ | STry _ _ _ _ | SMatch _ _ | SFuncDef _
      | SClassDef _ _ _ _ _ _ => True | _ => P s end) -> P s with
    | SIf c b e => fun _ => HIf c b e (recs b) (recs e)
    | SWhile c b e => fun _ => HWhile c b e (recs b) (recs e)
    | SFor t i b e a => fun _ => HFor t i b e a (recs b) (recs e)
    | SWith items b => fun _ => HWith items b (recs b)
    | STry b hs o f => fun _ => HTry b hs o f (recs b) (arms hs) (recs o) (recs f)
    | SMatch x cs => fun _ => HMatch x cs (arms cs)
    | SFuncDef d => fun _ => HFunc d (recs (xfBody d))
    | SClassDef p n bs ks ds b => fun _ => HClass p n bs ks ds b (recs b)
    | _ => fun H => H
    end (HSimple s).
End Induction.
