(* ===== verification/Driver.v ===== *)
(** * Driver: from a module to its decisions

    Model of src/pkg/partition/driver.go, resolve.go and cycles.go: the walk
    that enters one unit per compilable body and records the census facts, the
    decision pass against a fixed resolver, the rounds that grow the proven
    callees from nothing, and the pass that seeds recursive cycles and shrinks
    the seed.  What the walk does to the partitioner is a list of events; it
    does not depend on the resolver, which only enters through the measure of
    a def.  The tables of tracked globals and shape classes
    ([GlobalResolverFor], [ShapeResolverFor]) are parameters.  [None] is the
    panic of an unregistered rule. *)

From S2P Require Import Prelude Ast Int64 StaticOps Emit IrCost Bridge Gen GenBridge Evidence Rules Census Guards Deopt GuardSites Decide Tree.
Local Open Scope Z_scope.

Definition ModuleUnitName : string := "<module>".

Definition child (qual name : string) : string := qual +:+ "." +:+ name.

(** ** redefinedQuals *)

(** The qualified names of the defs, in source order. *)
Fixpoint defQuals (prefix : string) (s : XStmt) : list string :=
  let walk prefix (l : list XStmt) := concat (map (defQuals prefix) l) in
  match s with
  | SFuncDef d => let q := child prefix (xfName d) in q :: walk q (xfBody d)
  | SClassDef _ n _ _ _ b => walk (child prefix n) b
  | SIf _ b e | SWhile _ b e | SFor _ _ b e _ => walk prefix b ++ walk prefix e
  | SWith _ b => walk prefix b
  | STry b hs o f => walk prefix b ++ concat (map (fun h => walk prefix h.2) hs) ++ walk prefix o ++ walk prefix f
  | SMatch _ cs => concat (map (fun c => walk prefix c.2) cs)
  | _ => []
  end.

Definition moduleQuals (body : list XStmt) : list string := concat (map (defQuals ModuleUnitName) body).

(** Bound by more than one def. *)
Definition redefinedQuals (body : list XStmt) (q : string) : bool :=
  Nat.ltb 1 (count_occ string_dec (moduleQuals body) q).

(** ** The walk *)

(** A unit is entered, with the def it is the body of; a fact is filed. *)
Inductive event := Enter (u : Unit_) (def : option Ast.FuncDef) | Note (u : Unit_) (f : Fact).

Definition compName (k : CompKind) : string :=
  match k with
  | CompList => "<listcomp>" | CompSet => "<setcomp>" | CompDict => "<dictcomp>" | CompGen => "<genexpr>"
  end.

Definition offset (p : Pos) : Z := Line p * 100000 + Col p.

Definition constSource (args : list (Arg XExpr)) : bool :=
  match args with
  | a :: _ => (argStar a =? 0) && match argValue a with XStrLit _ => true | _ => false end
  | [] => false
  end.

Section Walk.
Context (module : string) (redefined : string -> bool).

Definition spanAt (p : Pos) : Span := mkSpan module (Line p) (Col p).

Definition unitAt (qual : string) (p : Pos) : Unit_ := mkUnit module qual (spanAt p) (offset p).

Definition note (u : Unit_) (rule : string) (p : Pos) : event := Note u (mkFact rule (spanAt p) "").

Definition censusCall (u : Unit_) (p : Pos) (fn : XExpr) (args : list (Arg XExpr)) : list event :=
  let dynamic rule := if constSource args then [] else [note u rule p] in
  match fn with
  | XName f =>
      if String.eqb f "eval" then dynamic RuleEvalDynamicSource
      else if String.eqb f "exec" then dynamic RuleExecDynamicSource
      else if String.eqb f "compile" then dynamic RuleCompileDynamicSource
      else if String.eqb f "locals" then [note u RuleLocalsCall p]
      else []
  | XAttribute (XName b) n =>
      if (String.eqb b "sys" && String.eqb n "_getframe") || (String.eqb b "inspect" && String.eqb n "currentframe")
      then [note u RuleFrameWalkerDirect p] else []
  | _ => []
  end.

(** An optional part. *)
Definition opt {A B} (f : A -> list B) (o : option A) : list B := match o with Some x => f x | None => [] end.

Fixpoint scanExpr (u : Unit_) (e : XExpr) : list event :=
  let all u l := concat (map (scanExpr u) l) in
  match e with
  | XCall p f args =>
      censusCall u p f args ++ scanExpr u f ++ concat (map (fun a => scanExpr u (argValue a)) args)
  | XName _ | XIntLit _ | XFloatLit _ | XStrLit _ | XBoolLit _ | XLit _ => []
  | XBinOp _ l r => scanExpr u l ++ scanExpr u r
  | XUnaryOp _ x | XAttribute x _ | XStarred x | XAwait x | XNamedExpr _ x => scanExpr u x
  | XBoolOp _ l | XListLit l | XTupleLit l | XSetLit l | XFStr l => all u l
  | XCompare l _ rs => scanExpr u l ++ all u rs
  | XSubscript x i => scanExpr u x ++ scanExpr u i
  | XSliceExpr a b c => opt (scanExpr u) a ++ opt (scanExpr u) b ++ opt (scanExpr u) c
  | XIfExp c t f => scanExpr u c ++ scanExpr u t ++ scanExpr u f
  | XYield v _ => opt (scanExpr u) v
  | XDictLit ks vs => concat (map (opt (scanExpr u)) ks) ++ all u vs
  | XTStr _ => []
  | XLambda p ps b =>
      let v := unitAt (child (uName u) "<lambda>") p in
      concat (map (fun q => opt (scanExpr u) (xpDefault q)) ps) ++ Enter v None :: scanExpr v b
  | XComp p k x val cls =>
      let v := unitAt (child (uName u) (compName k)) p in
      let leg (first : bool) cl :=
        (if first then [] else scanExpr v (clIter cl)) ++ scanExpr v (clTarget cl) ++ all v (clIfs cl) in
      match cls with cl :: _ => scanExpr u (clIter cl) | [] => [] end ++
      Enter v None :: scanExpr v x ++ opt (scanExpr v) val ++
      match cls with [] => [] | cl :: cls => leg true cl ++ concat (map (leg false) cls) end
  end.

Definition scanExprs (u : Unit_) (l : list XExpr) : list event := concat (map (scanExpr u) l).
Definition scanOpt (u : Unit_) (e : option XExpr) : list event := opt (scanExpr u) e.

Fixpoint scanStmt (u : Unit_) (s : XStmt) : list event :=
  let block u (l : list XStmt) := concat (map (scanStmt u) l) in
  match s with
  | SExprStmt x => scanExpr u x
  | SAssign ts v => scanExpr u v ++ scanExprs u ts
  | SAugAssign t _ v => scanExpr u t ++ scanExpr u v
  | SAnnAssign t _ v => scanExpr u t ++ scanOpt u v
  | SReturn v => scanOpt u v
  | SRaise x c => scanOpt u x ++ scanOpt u c
  | SAssert t m => scanExpr u t ++ scanOpt u m
  | SDel ts => scanExprs u ts
  | SIf c b e | SWhile c b e => scanExpr u c ++ block u b ++ block u e
  | SFor t i b e _ => scanExpr u i ++ scanExpr u t ++ block u b ++ block u e
  | SWith items b => concat (map (fun i => scanExpr u i.1 ++ scanOpt u i.2) items) ++ block u b
  | STry b hs o f =>
      block u b ++ concat (map (fun h => scanOpt u h.1 ++ block u h.2) hs) ++ block u o ++ block u f
  | SMatch x cs => scanExpr u x ++ concat (map (fun c => scanOpt u c.1 ++ block u c.2) cs)
  | SFuncDef d =>
      let v := unitAt (child (uName u) (xfName d)) (xfPos d) in
      scanExprs u (xfDecorators d) ++ concat (map (fun p => scanOpt u (xpDefault p)) (xfParams d)) ++
      scanOpt u (xfReturns d) ++ Enter v (Some (eraseDef d)) ::
      (if redefined (uName v) then [note v RuleModuleNameRedefined (xfPos d)] else []) ++ block v (xfBody d)
  | SClassDef p n bs ks ds b =>
      let v := unitAt (child (uName u) n) p in
      scanExprs u ds ++ scanExprs u bs ++ scanExprs u ks ++ Enter v None :: block v b
  | SPass | SBreak | SContinue | SOther _ => []
  end.

Definition scanStmts (u : Unit_) (l : list XStmt) : list event := concat (map (scanStmt u) l).
End Walk.

(** ** The measure of a body *)

(** [CostOfGenerator]. *)
Definition costSegment (c : Cost) (s : Segment) : Cost :=
  let pre c := fold_left (fun c s => costStmt s c) (SPre s) c in
  match SLoop s with
  | Some lp => foldLoop (costExpr (SYield s) (pre (costExpr (LBound lp) noCost))) c
  | None =>
      let c := match SGuard s with Some g => costExpr g c | None => c end in
      costExpr (SYield s) (pre c)
  end.

Definition CostOfGenerator (gen : Generator) : Cost :=
  fold_left (fun c s => costStmt s c) (Trailer gen) (fold_left costSegment (Segments gen) noCost).

Definition noProfile : Profile := mkProfile 0 0 0 0 0 0.

Definition profileOf (c : Cost) : Profile := mkProfile (UnboxedOps c) 0 0 (EntryGuards c) (LoopGuards c) 0.

(** The measure: a profile, the deopt plan, whether the body lowered. *)
Definition measure : Type := Profile * list DeoptSite * bool.

Definition generatorInput (fn : Ast.FuncDef) : measure :=
  match LowerGenerator fn with
  | None => (noProfile, [], false)
  | Some gen =>
      match EmitGenerator (setDeopt gen) with
      | inr _ => (noProfile, [], false)
      | inl _ => (profileOf (CostOfGenerator (setDeopt gen)), [], true)
      end
  end.

Definition unitMode (m : Mode) (lowered : bool) : Mode :=
  match m with
  | ModeForceBoxed => ModeForceBoxed
  | ModeForceStatic => if lowered then ModeForceStatic else ModeAuto
  | ModeAuto => ModeAuto
  end.

Section Drive.
Context (module : string) (body : list XStmt) (mode : Mode).
Context (globalsFor : Ast.FuncDef -> string -> option Repr) (shapesFor : string -> option Repr).

Notation resolver := (gmap string StaticCallee).

(** [driveGenerators]: a generator under its own name. *)
Definition driveGenerators (x : string) : option StaticGenerator :=
  GeneratorResolverFor (map eraseDef (topDefs body)) id x.

Definition funcInput (R : resolver) (fn : Ast.FuncDef) (sp : Span) : measure :=
  if IsGenerator fn then generatorInput fn
  else
    match LowerFuncGen fn (R !!.) (globalsFor fn) shapesFor driveGenerators with
    | None => (noProfile, [], false)
    | Some f => (profileOf (CostOf f), deoptSites (GuardSitesOf f) sp, true)
    end.

Definition inputOf (R : resolver) (u : Unit_) (def : option Ast.FuncDef) : Input :=
  let '(prof, deopts, lowered) :=
    match def with Some fn => funcInput R fn (uSpan u) | None => (noProfile, [], false) end in
  mkInput u prof 0 zeroWeights [] deopts (unitMode mode lowered).

Definition perform (R : resolver) (p : Partitioner) (e : event) : option Partitioner :=
  match e with
  | Enter u def => Some (Add p (inputOf R u def))
  | Note u f => pRecord p u f
  end.

Fixpoint performAll (R : resolver) (p : Partitioner) (l : list event) : option Partitioner :=
  match l with [] => Some p | e :: l => p ← perform R p e; performAll R p l end.

(** The module's own unit opens the walk. *)
Definition events : list event :=
  let mu := unitAt module ModuleUnitName (mkPos 1 1) in
  Enter mu None :: scanStmts module (redefinedQuals body) mu body.

Definition driveOnce (R : resolver) : option (list Decision) :=
  p ← performAll R New events;
  DecideUnits ((map_to_list (units (pCensus p))).*2) p.

(** ** resolve.go *)

(** A unit whose static form ships: static, with an empty deopt plan. *)
Definition free (d : Decision) : bool := IsStatic (dState d) && match dDeopts d with [] => true | _ => false end.

Definition staticFree (ds : list Decision) (q : string) : bool :=
  existsb (fun d => free d && String.eqb (uName (dUnit d)) q) ds.

Definition calleeStep (R : resolver) (ds : list Decision) (out : resolver) (fn : Ast.FuncDef) : resolver :=
  if staticFree ds (child ModuleUnitName (fnName fn)) then
    match LowerFuncFull fn (R !!.) (globalsFor fn) shapesFor with
    | Some f => <[fnName fn := SignatureOf f ("static_" +:+ fnName fn)]> out
    | None => out
    end
  else out.

Definition moduleCallees (ds : list Decision) (R : resolver) : resolver :=
  fold_left (calleeStep R ds) (map eraseDef (topDefs body)) ∅.

(** The rounds of [DriveWith]. *)
Fixpoint rounds (n : nat) (prev : Z) (R : resolver) (ds : list Decision) : option (resolver * list Decision) :=
  match n with
  | O => Some (R, ds)
  | S n =>
      let callees := moduleCallees ds R in
      if Z.of_nat (size callees) =? prev then Some (R, ds)
      else ds ← driveOnce callees; rounds n (Z.of_nat (size callees)) callees ds
  end.

(** ** cycles.go *)

Definition byUnitName (ds : list Decision) : gmap string Decision :=
  fold_left (fun m d => <[uName (dUnit d) := d]> m) ds ∅.

Definition seedStep (byName : gmap string Decision) (out : resolver) (fn : Ast.FuncDef) : resolver :=
  match byName !! child ModuleUnitName (fnName fn) with
  | None => out
  | Some d =>
      if free d then out
      else match SignatureFromDef fn ("static_" +:+ fnName fn) with
           | Some sig => <[fnName fn := sig]> out
           | None => out
           end
  end.

Definition cycleSeeds (byName : gmap string Decision) : resolver :=
  fold_left (seedStep byName) (map eraseDef (topDefs body)) ∅.

(** The seeds written last. *)
Definition mergeCallees (base seeds : resolver) : resolver := seeds ∪ base.

(** A missing decision is Go's zero value, which is static with no sites. *)
Definition survives (byName : gmap string Decision) (bare : string) : bool :=
  match byName !! child ModuleUnitName bare with Some d => free d | None => true end.

Fixpoint shrink (n : nat) (base seeds : resolver) : option (resolver * list Decision) :=
  match n with
  | O => None
  | S n =>
      let R := mergeCallees base seeds in
      ds ← driveOnce R;
      let kept := filter (fun p => survives (byUnitName ds) p.1 = true) seeds in
      if Nat.eqb (size kept) (size seeds) then Some (R, ds)
      else if Nat.eqb (size kept) 0 then (fun ds => (base, ds)) <$> driveOnce base
      else shrink n base kept
  end.

Definition promoteCycles (ds : list Decision) (R : resolver) : option (resolver * list Decision) :=
  let base := moduleCallees ds R in
  let seeds := cycleSeeds (byUnitName ds) in
  if Nat.eqb (size seeds) 0 then Some (R, ds) else shrink (S (size seeds)) base seeds.

(** [DriveWith], with the resolver of the pass whose decisions it returns. *)
Definition DriveWith : option (resolver * list Decision) :=
  ds ← driveOnce ∅;
  r ← rounds (S (length body)) (-1) ∅ ds;
  promoteCycles r.2 r.1.
End Drive.

Definition Drive (module : string) (body : list XStmt) globalsFor shapesFor : option (list Decision) :=
  snd <$> DriveWith module body ModeAuto globalsFor shapesFor.
