(* ===== verification/DriverSound.v ===== *)
(** * DriverSound: the driver's fixpoints

    Theorems about Driver.v.  The walk's events do not depend on the resolver,
    so neither do the census nor the order of the units, and a unit's decision
    depends on the resolver only through the lowering of its def, which is
    monotone (BridgeMono.v).  On top of this: the rounds only add callees, the
    seeded pass ends in the largest consistent set, and every callee of the
    resolver the decisions were made against is itself decided static with the
    signature its callers assume. *)

From S2P Require Import Prelude Ast Int64 StaticOps Emit IrCost Bridge Gen GenBridge Evidence Rules Census Guards Deopt GuardSites BridgeMono Decide Tree Driver.
Local Open Scope Z_scope.

(** ** The events of a walk *)

Lemma Forall_concat_map {A B} (P : B -> Prop) (f : A -> list B) l :
  Forall P (concat (map f l)) <-> Forall (fun a => Forall P (f a)) l.
Proof. induction l as [|a l IH]; simpl; [done|]. by rewrite Forall_app, Forall_cons, IH. Qed.

Ltac unconcat := match goal with H : Forall _ (concat (map _ _)) |- _ => apply Forall_concat_map in H end.
Ltac forall_conses := repeat match goal with H : Forall _ (_ :: _) |- _ => apply Forall_cons in H as [? ?] end.

Section Events.
Context (Q : event -> Prop).

Context (module : string).
Context (QEnter : forall v, Q (Enter v None)).
Context (QNote : forall v rule p, is_Some (MustRule rule) -> Q (note module v rule p)).

Lemma registered_rules : Forall (fun r => is_Some (MustRule r))
  [RuleEvalDynamicSource; RuleExecDynamicSource; RuleCompileDynamicSource; RuleLocalsCall; RuleFrameWalkerDirect;
   RuleModuleNameRedefined].
Proof. repeat constructor; vm_compute; by eexists. Qed.

Lemma rule_registered r : bool_decide (r ∈ [RuleEvalDynamicSource; RuleExecDynamicSource; RuleCompileDynamicSource;
  RuleLocalsCall; RuleFrameWalkerDirect; RuleModuleNameRedefined]) = true -> is_Some (MustRule r).
Proof. intros H%bool_decide_eq_true. pose proof registered_rules as HR. rewrite Forall_forall in HR. by apply HR. Qed.

Lemma censusCall_events u p f args : Forall Q (censusCall module u p f args).
Proof.
  assert (forall r, bool_decide (r ∈ [RuleEvalDynamicSource; RuleExecDynamicSource; RuleCompileDynamicSource;
    RuleLocalsCall; RuleFrameWalkerDirect; RuleModuleNameRedefined]) = true -> Forall Q [note module u r p]) as H1.
  { intros r Hr. apply Forall_cons_2; [|constructor]. by apply QNote, rule_registered. }
  unfold censusCall. destruct f; simpl; repeat case_match; first [apply Forall_nil_2|by apply H1].
Qed.

Lemma scanExpr_events e : forall u, Forall Q (scanExpr module u e).
Proof.
  induction e as [e IH] using XExpr_subs_ind. intros u.
  assert (forall (l : list XExpr) v, Forall (fun e => forall u, Forall Q (scanExpr module u e)) l ->
    Forall Q (concat (map (scanExpr module v) l))) as Hall.
  { intros l v Hl. apply Forall_concat_map. eapply Forall_impl; [exact Hl|]. naive_solver. }
  assert (forall (o : option XExpr) v, Forall (fun e => forall u, Forall Q (scanExpr module u e)) (optList o) ->
    Forall Q (opt (scanExpr module v) o)) as Hopt.
  { intros [x|] v Ho; simpl in *; [|constructor]. by inversion Ho; subst. }
  destruct e as [| | | | | |l|l|l|ks vs|o l r|o x|k l|l os rs|p f args|x n|x i|a b c|c t f|x|x|v f|t v|l|l|p ps b|p k x v cls];
    cbn [scanExpr subs] in *; try constructor; rewrite ?Forall_app, ?Forall_cons in *; destruct_and?; repeat split; auto.
  - unconcat. apply Forall_concat_map. eapply Forall_impl; [eassumption|]. auto.
  - apply censusCall_events.
  - apply Forall_concat_map. match goal with H : Forall _ (map argValue args) |- _ => apply Forall_fmap in H end.
    eapply Forall_impl; [eassumption|]. intros a Ha. apply Ha.
  - unconcat. apply Forall_concat_map. eapply Forall_impl; [eassumption|]. intros q Hq.
    apply Forall_app in Hq as [_ Hq]. auto.
  - apply Forall_app in H0 as [? ?]. destruct cls as [|cl cls]; [constructor|]. unconcat. forall_conses. auto.
  - apply Forall_app in H0 as [? ?]. apply Forall_app_2; [auto|]. apply Forall_app_2; [auto|]. destruct cls as [|cl cls]; [constructor|].
    unconcat. forall_conses. apply Forall_app_2; [apply Forall_app_2; [constructor|apply Forall_app_2; auto]|].
    apply Forall_concat_map. eapply Forall_impl; [eassumption|]. intros cl' Hcl. simpl in Hcl. forall_conses.
    apply Forall_app_2; [auto|]. apply Forall_app_2; auto.
Qed.

(** A def's unit, with the fact filed when its name is redefined. *)
Context (redefined : string -> bool).
Context (QDef : forall v d, Q (Enter v (Some d))).

Lemma scanExprs_events u l : Forall Q (scanExprs module u l).
Proof. apply Forall_concat_map, Forall_forall. intros e _. apply scanExpr_events. Qed.
Lemma scanOpt_events u o : Forall Q (scanOpt module u o).
Proof. destruct o; [apply scanExpr_events|constructor]. Qed.

Lemma scanStmt_events s : forall u, Forall Q (scanStmt module redefined u s).
Proof.
  assert (forall u l, Forall (fun s => forall u, Forall Q (scanStmt module redefined u s)) l ->
    Forall Q (concat (map (scanStmt module redefined u) l))) as Hb.
  { intros u l Hl. apply Forall_concat_map. eapply Forall_impl; [exact Hl|]. auto. }
  pose proof scanExpr_events as He. pose proof scanExprs_events as Hs. pose proof scanOpt_events as Ho.
  revert s. apply (XStmt_ind' (fun s => forall u, Forall Q (scanStmt module redefined u s))).
  - intros s. destruct s; try done; intros u; simpl; rewrite ?Forall_app; auto.
  - intros c b e Hbb Hee u. simpl. rewrite !Forall_app. auto.
  - intros c b e Hbb Hee u. simpl. rewrite !Forall_app. auto.
  - intros t i b e a Hbb Hee u. simpl. rewrite !Forall_app. auto.
  - intros items b Hbb u. simpl. rewrite Forall_app. split; [|auto]. apply Forall_concat_map, Forall_forall.
    intros i _. rewrite Forall_app. auto.
  - intros b hs o f Hbb Hh Hoo Hf u. simpl. rewrite !Forall_app. repeat split; auto. apply Forall_concat_map.
    eapply Forall_impl; [exact Hh|]. intros h Hh'. rewrite Forall_app. auto.
  - intros x cs Hc u. simpl. rewrite !Forall_app. split; [auto|]. apply Forall_concat_map.
    eapply Forall_impl; [exact Hc|]. intros h Hh'. rewrite Forall_app. auto.
  - intros d Hd u. simpl. rewrite !Forall_app, Forall_cons, Forall_app. repeat split; auto.
    + apply Forall_concat_map, Forall_forall. auto.
    + case_match; [|constructor]. apply Forall_cons_2; [|constructor]. by apply QNote, rule_registered.
  - intros p n bs ks ds b Hbb u. simpl. rewrite !Forall_app, Forall_cons. repeat split; auto.
Qed.
End Events.

(** The defs whose units a walk enters. *)
Definition defEnter (e : event) : option (Unit_ * Ast.FuncDef) :=
  match e with Enter v (Some d) => Some (v, d) | _ => None end.
Definition defEnters (l : list event) : list (Unit_ * Ast.FuncDef) := omap defEnter l.
#[local] Arguments defEnters : simpl never.

Lemma defEnters_app l k : defEnters (l ++ k) = defEnters l ++ defEnters k.
Proof. apply omap_app. Qed.

Lemma defEnters_cons e l :
  defEnters (e :: l) = match defEnter e with Some x => x :: defEnters l | None => defEnters l end.
Proof. done. Qed.

Lemma defEnters_none l : Forall (fun e => defEnter e = None) l -> defEnters l = [].
Proof. induction 1 as [|e l He _ IH]; [done|]. unfold defEnters in *. simpl. by rewrite He. Qed.

Section Defs.
Context (module : string) (redefined : string -> bool).
Notation scan := (scanStmt module redefined).
Notation quals l := (map (fun p : Unit_ * Ast.FuncDef => uName p.1) (defEnters l)).

Lemma expr_defs u e : defEnters (scanExpr module u e) = [].
Proof. apply defEnters_none, (scanExpr_events (fun e => defEnter e = None)); done. Qed.
Lemma exprs_defs u l : defEnters (scanExprs module u l) = [].
Proof. apply defEnters_none, (scanExprs_events (fun e => defEnter e = None)); done. Qed.
Lemma opt_defs u o : defEnters (scanOpt module u o) = [].
Proof. apply defEnters_none, (scanOpt_events (fun e => defEnter e = None)); done. Qed.

Lemma concat_defs {A} (f : A -> list event) l : defEnters (concat (map f l)) = concat (map (fun a => defEnters (f a)) l).
Proof. induction l as [|a l IH]; [done|]. simpl. by rewrite defEnters_app, IH. Qed.

Lemma concat_nil {A B} (f : A -> list B) l : (forall a, f a = []) -> concat (map f l) = [].
Proof. intros H. induction l as [|a l IH]; [done|]. simpl. by rewrite H, IH. Qed.

(** The walk enters the defs [redefinedQuals] counts. *)
Lemma scan_quals s : forall u, quals (scan u s) = defQuals (uName u) s.
Proof.
  assert (forall u l, Forall (fun s => forall u, quals (scan u s) = defQuals (uName u) s) l ->
    quals (concat (map (scan u) l)) = concat (map (defQuals (uName u)) l)) as Hb.
  { intros u l Hl. induction Hl as [|s0 l Hs _ IH]; [done|]. simpl. rewrite defEnters_app, map_app. by rewrite Hs, IH. }
  assert (forall u hs, Forall (fun h => Forall (fun s => forall u, quals (scan u s) = defQuals (uName u) s) h.2) hs ->
    quals (concat (map (fun h => scanOpt module u h.1 ++ concat (map (scan u) h.2)) hs)) =
    concat (map (fun h : option XExpr * list XStmt => concat (map (defQuals (uName u)) h.2)) hs)) as Harms.
  { intros u hs Hh. induction Hh as [|h hs Hs _ IH]; [done|]. simpl.
    rewrite !defEnters_app, opt_defs, !map_app, Hb by done. by rewrite IH. }
  revert s. apply (XStmt_ind' (fun s => forall u, quals (scan u s) = defQuals (uName u) s)).
  - intros s. destruct s; try done; intros u; simpl; by rewrite ?defEnters_app, ?expr_defs, ?exprs_defs, ?opt_defs.
  - intros c b e Hbb Hee u. simpl. by rewrite !defEnters_app, expr_defs, !map_app, !Hb.
  - intros c b e Hbb Hee u. simpl. by rewrite !defEnters_app, expr_defs, !map_app, !Hb.
  - intros t i b e a Hbb Hee u. simpl. by rewrite !defEnters_app, !expr_defs, !map_app, !Hb.
  - intros items b Hbb u. simpl. rewrite defEnters_app, concat_defs, concat_nil, map_app, Hb; [done|done|].
    intros i. by rewrite defEnters_app, expr_defs, opt_defs.
  - intros b hs o f Hbb Hh Hoo Hf u. simpl. by rewrite !defEnters_app, !map_app, !Hb, Harms.
  - intros x cs Hc u. simpl. rewrite defEnters_app, expr_defs. by apply Harms.
  - intros d Hd u. simpl. rewrite !defEnters_app, !exprs_defs, opt_defs, concat_defs, concat_nil by (intros; apply opt_defs).
    simpl. f_equal. rewrite defEnters_app.
    rewrite map_app, (Hb (unitAt module (child (uName u) (xfName d)) (xfPos d))) by done.
    by destruct (redefined _).
  - intros p n bs ks ds b Hbb u. simpl. rewrite !defEnters_app, !exprs_defs, defEnters_cons. by apply (Hb (unitAt _ _ _)).
Qed.

Lemma top_entered u body d : d ∈ topDefs body ->
  (unitAt module (child (uName u) (xfName d)) (xfPos d), eraseDef d) ∈ defEnters (scanStmts module redefined u body).
Proof.
  unfold scanStmts. induction body as [|s body IH]; intros Hd; [by apply not_elem_of_nil in Hd|].
  simpl. rewrite defEnters_app, elem_of_app. unfold topDefs in Hd. simpl in Hd.
  destruct s; try (right; by apply IH). apply elem_of_cons in Hd as [-> |Hd]; [left|right; by apply IH].
  simpl. rewrite !defEnters_app, !elem_of_app. right. right. right. left.
Qed.

(** A redefined def has its fact filed. *)
Definition noted (l : list event) : Prop := forall v d, Enter v (Some d) ∈ l -> redefined (uName v) = true ->
  exists sp, Note v (mkFact RuleModuleNameRedefined sp "") ∈ l.

Lemma noted_app l k : noted l -> noted k -> noted (l ++ k).
Proof.
  intros Hl Hk v d [H|H]%elem_of_app Hr; [destruct (Hl v d H Hr) as [sp ?]|destruct (Hk v d H Hr) as [sp ?]];
    exists sp; apply elem_of_app; auto.
Qed.

Lemma noted_plain l : Forall (fun e => defEnter e = None) l -> noted l.
Proof. intros Hl v d H. rewrite Forall_forall in Hl. by specialize (Hl _ H). Qed.

Lemma noted_concat {A} (f : A -> list event) l : Forall (fun a => noted (f a)) l -> noted (concat (map f l)).
Proof. induction 1 as [|a l Ha _ IH]; simpl; [by apply noted_plain|]. by apply noted_app. Qed.

Lemma noted_enter v l : noted l -> noted (Enter v None :: l).
Proof. intros Hl. apply (noted_app [_]); [by apply noted_plain; repeat constructor|done]. Qed.

Lemma scan_noted s : forall u, noted (scan u s).
Proof.
  assert (forall u e, noted (scanExpr module u e)) as He.
  { intros u e. apply noted_plain, (scanExpr_events (fun e => defEnter e = None)); done. }
  assert (forall u l, noted (scanExprs module u l)) as Hs by (intros; by apply noted_concat, Forall_forall).
  assert (forall u o, noted (scanOpt module u o)) as Ho by (intros u []; [apply He|by apply noted_plain]).
  assert (forall u l, Forall (fun s => forall u, noted (scan u s)) l -> noted (concat (map (scan u) l))) as Hb.
  { intros u l Hl. apply noted_concat. eapply Forall_impl; [exact Hl|]. auto. }
  revert s. apply (XStmt_ind' (fun s => forall u, noted (scan u s))).
  - intros s. destruct s; try done; intros u; simpl; auto using noted_app; by apply noted_plain.
  - intros c b e Hbb Hee u. simpl. auto using noted_app.
  - intros c b e Hbb Hee u. simpl. auto using noted_app.
  - intros t i b e a Hbb Hee u. simpl. auto using noted_app.
  - intros items b Hbb u. simpl. apply noted_app; [|auto]. apply noted_concat, Forall_forall. auto using noted_app.
  - intros b hs o f Hbb Hh Hoo Hf u. simpl. apply noted_app; [auto|]. apply noted_app; [|auto using noted_app].
    apply noted_concat. eapply Forall_impl; [exact Hh|]. auto using noted_app.
  - intros x cs Hc u. simpl. apply noted_app; [auto|]. apply noted_concat. eapply Forall_impl; [exact Hc|]. auto using noted_app.
  - intros d Hd u. simpl. apply noted_app; [auto|]. apply noted_app; [apply noted_concat, Forall_forall; auto|].
    apply noted_app; [auto|]. set (v := unitAt module (child (uName u) (xfName d)) (xfPos d)).
    assert (noted (concat (map (scan v) (xfBody d)))) as Hbody by auto.
    intros w d' [[= -> ->]|[Hr|H]%elem_of_app]%elem_of_cons Hred.
    + subst v. simpl in Hred. rewrite Hred. eexists. apply elem_of_cons. right. apply elem_of_app. left.
      apply elem_of_cons. left. done.
    + destruct (redefined _); [|by apply not_elem_of_nil in Hr]. by apply list_elem_of_singleton in Hr.
    + destruct (Hbody w d' H Hred) as [sp Hn]. exists sp. apply elem_of_cons. right. apply elem_of_app. by right.
  - intros p n bs ks ds b Hbb u. simpl. auto 10 using noted_app, noted_enter.
Qed.
End Defs.

(** ** What a pass knows without the resolver *)

Notation owner := (Unit_ * option Ast.FuncDef)%type.

Fixpoint walkCensus (c : Census) (l : list event) : option Census :=
  match l with
  | [] => Some c
  | Enter u _ :: l => walkCensus (addUnit c u) l
  | Note u f :: l => c ← RecordFact c u f; walkCensus c l
  end.

Fixpoint owners (m : gmap string owner) (l : list event) : gmap string owner :=
  match l with
  | [] => m
  | Enter u d :: l => owners (<[Key u := (u, d)]> m) l
  | Note _ _ :: l => owners m l
  end.

Definition noteRegistered (e : event) : Prop :=
  match e with Note _ f => is_Some (MustRule (fRule f)) | Enter _ _ => True end.

Lemma RecordFact_total c u f : is_Some (MustRule (fRule f)) -> exists c', RecordFact c u f = Some c'.
Proof. intros [r Hr]. unfold RecordFact. rewrite Hr. eauto. Qed.

Lemma walk_total l : Forall noteRegistered l -> forall c, exists c', walkCensus c l = Some c'.
Proof.
  induction 1 as [|[u d|u f] l He _ IH]; intros c; simpl; [eauto|apply IH|].
  destruct (RecordFact_total c u f He) as [c' ->]. apply IH.
Qed.

Lemma addUnit_ok c u : census_ok c -> census_ok (addUnit c u).
Proof. intros [Hr Hk]. split; [done|]. by apply map_Forall_insert_2. Qed.

Lemma walk_ok l : forall c c', census_ok c -> walkCensus c l = Some c' -> census_ok c'.
Proof.
  induction l as [|[u d|u f] l IH]; intros c c' Hc E; simpl in E; [by simplify_eq|by eapply IH, E; apply addUnit_ok|].
  destruct (RecordFact c u f) as [c1|] eqn:E1; [|done]. simpl in E. eapply IH, E. by eapply RecordFact_ok.
Qed.

(** A recorded fact stays. *)
Lemma record_facts c u f c' v : RecordFact c u f = Some c' ->
  Facts c' v = Facts c v ++ (if bool_decide (Key u = Key v) then [f] else []).
Proof.
  unfold RecordFact. destruct (MustRule (fRule f)); [|done]. intros [= <-]. unfold Facts. simpl.
  destruct (decide (Key u = Key v)) as [E|E].
  - rewrite bool_decide_true, <- E, lookup_insert_eq by done. done.
  - rewrite bool_decide_false, lookup_insert_ne, app_nil_r by done. done.
Qed.

Lemma walk_facts l : forall c c' v f, walkCensus c l = Some c' ->
  (f ∈ Facts c v \/ Note v f ∈ l) -> f ∈ Facts c' v.
Proof.
  induction l as [|[u d|u g] l IH]; intros c c' v f E Hf; simpl in E.
  - simplify_eq. destruct Hf as [Hf|Hf]; [done|by apply not_elem_of_nil in Hf].
  - eapply IH; [exact E|]. destruct Hf as [Hf|[Hf|Hf]%elem_of_cons]; [by left|done|by right].
  - destruct (RecordFact c u g) as [c1|] eqn:E1; [|done]. simpl in E. eapply IH; [exact E|].
    rewrite (record_facts _ _ _ _ v E1), elem_of_app. destruct Hf as [Hf|[[= -> ->]|Hf]%elem_of_cons]; [by left; left| |by right].
    left. right. rewrite bool_decide_true by done. by apply list_elem_of_singleton.
Qed.

Lemma owners_enter l : forall m k o, owners m l !! k = Some o ->
  m !! k = Some o \/ (k = Key o.1 /\ Enter o.1 o.2 ∈ l).
Proof.
  induction l as [|[u d|u f] l IH]; intros m k o E; simpl in E; [by left|..].
  - apply IH in E as [E|[-> E]]; [|right; split; [done|by apply elem_of_cons; right]].
    apply lookup_insert_Some in E as [[<- <-]|[_ E]]; [|by left]. right. split; [done|]. apply elem_of_cons. by left.
  - apply IH in E as [E|[-> E]]; [by left|right; split; [done|by apply elem_of_cons; right]].
Qed.

Lemma mapM_same {A B} (f g : A -> option B) l : (forall a, f a = g a) -> mapM f l = mapM g l.
Proof. intros H. induction l as [|a l IH]; [done|]. simpl. by rewrite H, IH. Qed.

Lemma decideAll_mapM p us : decideAll p us = mapM (fun u => Decide (pCensus p) (inputFor p u)) us.
Proof. induction us as [|u us IH]; [done|]. simpl. rewrite IH. by destruct (Decide _ _). Qed.

#[local] Arguments events : simpl never.

Section Pass.
Context (module : string) (body : list XStmt) (mode : Mode).
Context (globalsFor : Ast.FuncDef -> string -> option Repr) (shapesFor : string -> option Repr).
Notation resolver := (gmap string StaticCallee).
Notation evs := (events module body).
Notation inputOf := (inputOf body mode globalsFor shapesFor).
Notation driveOnce := (driveOnce module body mode globalsFor shapesFor).

Lemma inputOf_unit R u d : inUnit (inputOf R u d) = u.
Proof. unfold Driver.inputOf. by destruct (match d with Some _ => _ | None => _ end) as [[? ?] ?]. Qed.

Lemma performAll_eq R l : forall p m, pInputs p = (fun o : owner => inputOf R o.1 o.2) <$> m ->
  performAll body mode globalsFor shapesFor R p l =
    (fun c => mkPartitioner c ((fun o : owner => inputOf R o.1 o.2) <$> owners m l)) <$> walkCensus (pCensus p) l.
Proof.
  induction l as [|[u d|u f] l IH]; intros p m Hm; simpl.
  - destruct p as [c ins]. simpl in *. by rewrite Hm.
  - rewrite (IH _ (<[Key u := (u, d)]> m)); simpl; [by rewrite inputOf_unit|].
    by rewrite inputOf_unit, Hm, fmap_insert.
  - unfold pRecord. destruct (RecordFact (pCensus p) u f) as [c|]; simpl; [|done]. by rewrite (IH _ m).
Qed.

Lemma events_registered : Forall noteRegistered evs.
Proof.
  apply Forall_cons_2; [done|]. apply Forall_concat_map, Forall_forall. intros s _.
  apply (scanStmt_events noteRegistered); done.
Qed.

(** The census and the order of the units. *)
Definition census : Census := default NewCensus (walkCensus NewCensus evs).
Definition unitOrder : list Unit_ := Units ((map_to_list (units census)).*2).
Definition owned : gmap string owner := owners ∅ evs.

Lemma census_eq : walkCensus NewCensus evs = Some census.
Proof. unfold census. by destruct (walk_total evs events_registered NewCensus) as [c ->]. Qed.

Lemma census_fine : census_ok census.
Proof. eapply walk_ok, census_eq. split; apply map_Forall_empty. Qed.

(** The input of a unit against a resolver. *)
Definition inputR (R : resolver) (u : Unit_) : Input :=
  match owned !! Key u with Some o => inputOf R o.1 o.2 | None => emptyInput u end.

Lemma driveOnce_eq R : driveOnce R = mapM (fun u => Decide census (inputR R u)) unitOrder.
Proof.
  unfold Driver.driveOnce. rewrite (performAll_eq R evs New ∅) by (by rewrite fmap_empty).
  change (pCensus New) with NewCensus. rewrite census_eq. change (owners ∅ evs) with owned. simpl.
  unfold DecideUnits. fold unitOrder. rewrite decideAll_mapM. apply mapM_same. intros u.
  unfold inputFor, inputR. simpl. rewrite lookup_fmap. by destruct (owned !! Key u).
Qed.

(** The decision of a unit. *)
Definition decisionR (R : resolver) (u : Unit_) : Decision :=
  default (mkDecision u BoxedByCost [] (mkScore 0 0) 0 0 [] []) (Decide census (inputR R u)).

Lemma decisionR_spec R u :
  Decide census (inputR R u) = Some (decisionR R u) /\ dUnit (decisionR R u) = inUnit (inputR R u) /\
  dState (decisionR R u) = verdict (existsb hardFact (Facts census (inUnit (inputR R u)))) (inputR R u) /\
  reasons_fit census (inputR R u) (decisionR R u).
Proof.
  destruct (Decide_spec census (inputR R u)) as (d & E & Hu & Hs & Hr).
  { apply Facts_registered, census_fine. }
  unfold decisionR. rewrite E. done.
Qed.

Lemma driveOnce_total R : driveOnce R = Some (map (decisionR R) unitOrder).
Proof.
  rewrite driveOnce_eq. induction unitOrder as [|u us IH]; [done|]. simpl.
  rewrite (proj1 (decisionR_spec R u)). simpl. by rewrite IH.
Qed.

(** ** Static units *)

Notation funcInput := (funcInput body globalsFor shapesFor).
Notation gens := (driveGenerators body).

(** The unit a decision is about. *)
Definition holder (u : Unit_) : Unit_ := match owned !! Key u with Some o => o.1 | None => u end.

Lemma dUnit_holder R u : dUnit (decisionR R u) = holder u.
Proof.
  rewrite (proj1 (proj2 (decisionR_spec R u))). unfold inputR, holder.
  destruct (owned !! Key u); [apply inputOf_unit|done].
Qed.

Lemma decisionR_key R u u' o : owned !! Key u = Some o -> Key u = Key u' -> decisionR R u = decisionR R u'.
Proof.
  intros Ho Hk. apply (inj Some). rewrite <- (proj1 (decisionR_spec R u)), <- (proj1 (decisionR_spec R u')).
  unfold inputR. by rewrite <- Hk, Ho.
Qed.

(** A body with no profile is never worth a static form. *)
Lemma empty_boxed hard u ds m : m <> ModeForceStatic ->
  IsStatic (verdict hard (mkInput u noProfile 0 zeroWeights [] ds m)) = false.
Proof. intros Hm. destruct hard; [done|]. by destruct m. Qed.

Lemma inputOf_boxed R u d hard : (match d with Some fn => (funcInput R fn (uSpan u)).2 | None => false end) = false ->
  IsStatic (verdict hard (inputOf R u d)) = false.
Proof.
  unfold Driver.inputOf. destruct d as [fn|].
  - assert (forall m : measure, (m.2 = false -> m.1.1 = noProfile) -> m.2 = false ->
      IsStatic (verdict hard (let '(prof, deopts, lowered) := m in
        mkInput u prof 0 zeroWeights [] deopts (unitMode mode lowered))) = false) as H.
    { intros [[pr ds] lo] Hp Hl. simpl in *. subst lo. rewrite Hp by done. apply empty_boxed. by destruct mode. }
    apply H. unfold Driver.funcInput, generatorInput. repeat case_match; done.
  - intros _. apply empty_boxed. by destruct mode.
Qed.

Lemma static_inv R u : IsStatic (dState (decisionR R u)) = true ->
  exists v d, owned !! Key u = Some (v, Some d) /\ Key v = Key u /\ (v, d) ∈ defEnters evs /\ holder u = v /\
    existsb hardFact (Facts census v) = false /\ (funcInput R d (uSpan v)).2 = true /\
    dDeopts (decisionR R u) = (funcInput R d (uSpan v)).1.2.
Proof.
  destruct (decisionR_spec R u) as (_ & _ & Hs & Hf). intros Hst. pose proof Hst as Hst'. rewrite Hs in Hst'.
  unfold holder. destruct (owned !! Key u) as [[v d]|] eqn:Eo.
  2: { unfold inputR in Hst'. rewrite Eo in Hst'. change (emptyInput u) with (mkInput u noProfile 0 zeroWeights [] [] ModeAuto) in Hst'.
       by rewrite empty_boxed in Hst'. }
  assert (inputR R u = inputOf R v d) as Ei by (unfold inputR; by rewrite Eo). rewrite Ei in *.
  apply owners_enter in Eo as Hen. rewrite lookup_empty in Hen. destruct Hen as [Hen|[Hk Hen]]; [done|]. simpl in Hk, Hen.
  destruct d as [d|].
  2: { by rewrite (inputOf_boxed R v None) in Hst'. }
  assert ((funcInput R d (uSpan v)).2 = true) as Hl.
  { destruct ((funcInput R d (uSpan v)).2) eqn:El; [done|]. by rewrite (inputOf_boxed R v (Some d)) in Hst'. }
  exists v, d. split_and!; try done.
  - apply list_elem_of_omap. by eexists.
  - rewrite inputOf_unit in Hst'. by destruct (existsb hardFact (Facts census v)).
  - unfold reasons_fit in Hf. assert (inDeopts (inputOf R v (Some d)) = (funcInput R d (uSpan v)).1.2) as <-.
    { unfold Driver.inputOf. by destruct (Driver.funcInput _ _ _ _ _ _) as [[? ?] ?]. }
    destruct (dState (decisionR R u)); try done; by destruct Hf.
Qed.

(** A def that lowers against a resolver measures the same against a larger
    one, so a static unit keeps its decision. *)
Lemma funcInput_mono R R' d sp : R ⊆ R' -> (funcInput R d sp).2 = true -> funcInput R' d sp = funcInput R d sp.
Proof.
  intros HR. unfold Driver.funcInput. destruct (IsGenerator d); [done|].
  destruct (LowerFuncGen d _ _ _ _) as [f|] eqn:E; [|done]. intros _.
  by rewrite (LowerFuncGen_mono d R R' _ _ _ _ f HR (fun _ _ H => H) E).
Qed.

Lemma decision_mono R R' u : R ⊆ R' -> IsStatic (dState (decisionR R u)) = true -> decisionR R' u = decisionR R u.
Proof.
  intros HR Hs. destruct (static_inv R u Hs) as (v & d & Eo & _ & _ & _ & _ & Hl & _).
  assert (inputR R' u = inputR R u) as E.
  { unfold inputR, Driver.inputOf. rewrite Eo. simpl. by rewrite (funcInput_mono R R'). }
  unfold decisionR. by rewrite E.
Qed.

(** ** Names *)

Lemma evs_quals : map (fun p : Unit_ * Ast.FuncDef => uName p.1) (defEnters evs) = moduleQuals body.
Proof.
  unfold events. rewrite defEnters_cons. simpl. unfold scanStmts, moduleQuals. generalize (redefinedQuals body) as red.
  intros red. induction body as [|s l IH]; [done|]. simpl. rewrite defEnters_app, map_app, scan_quals. simpl. by rewrite IH.
Qed.

Lemma count_unique {A} (f : A -> string) l x y : x ∈ l -> y ∈ l -> f x = f y ->
  (count_occ string_dec (map f l) (f x) <= 1)%nat -> x = y.
Proof.
  induction l as [|a l IH]; intros Hx Hy E Hc; [by apply not_elem_of_nil in Hx|]. simpl in Hc.
  assert (forall z, z ∈ l -> f z = f x -> (0 < count_occ string_dec (map f l) (f x))%nat) as Hin.
  { intros z Hz Ez. apply (count_occ_In string_dec), list_elem_of_In, list_elem_of_fmap. exists z. by rewrite Ez. }
  apply elem_of_cons in Hx as [->|Hx], Hy as [->|Hy]; [done|..].
  - destruct (string_dec (f a) (f a)); [|done]. specialize (Hin y Hy (eq_sym E)). lia.
  - destruct (string_dec (f a) (f x)); [|congruence]. specialize (Hin x Hx eq_refl). lia.
  - apply IH; auto. destruct (string_dec _ _); lia.
Qed.

Lemma redefined_hard v d : (v, d) ∈ defEnters evs -> existsb hardFact (Facts census v) = false ->
  (count_occ string_dec (moduleQuals body) (uName v) <= 1)%nat.
Proof.
  intros Hin Hh. apply Nat.le_ngt. intros Hc. apply not_true_iff_false in Hh. apply Hh.
  assert (redefinedQuals body (uName v) = true) as Hr by by apply Nat.ltb_lt.
  assert (noted (redefinedQuals body) evs) as Hn.
  { apply noted_enter, noted_concat, Forall_forall. intros s _. apply scan_noted. }
  apply list_elem_of_omap in Hin as ([w [d'|]|] & Hw & E); simplify_eq/=.
  destruct (Hn v d Hw Hr) as [sp Hnote]. apply existsb_exists. eexists. split; [|shelve].
  apply list_elem_of_In. eapply walk_facts; [apply census_eq|]. right. exact Hnote.
  Unshelve. done.
Qed.

(** A static unit with the name of a top-level def is that def's. *)
Lemma static_top R u d0 : IsStatic (dState (decisionR R u)) = true -> d0 ∈ topDefs body ->
  uName (holder u) = child ModuleUnitName (xfName d0) ->
  owned !! Key u = Some (holder u, Some (eraseDef d0)) /\
  holder u = unitAt module (child ModuleUnitName (xfName d0)) (xfPos d0).
Proof.
  intros Hs Hd Hn. destruct (static_inv R u Hs) as (v & d & Eo & Hk & Hin & Hv & Hh & _). rewrite Hv in *.
  assert ((v, d) = (unitAt module (child ModuleUnitName (xfName d0)) (xfPos d0), eraseDef d0)) as [= E1 E2].
  { apply (count_unique (fun p : Unit_ * Ast.FuncDef => uName p.1) (defEnters evs)); [done| |done|].
    - unfold events. rewrite defEnters_cons. simpl.
      apply (top_entered module (redefinedQuals body) (unitAt module ModuleUnitName (mkPos 1 1))). done.
    - rewrite evs_quals. by apply (redefined_hard v d). }
  by rewrite Eo, E1, E2.
Qed.

(** ** The proven callees *)

Notation decisions R := (map (decisionR R) unitOrder).
Notation moduleCallees := (moduleCallees body globalsFor shapesFor).

Lemma staticFree_spec R q : staticFree (decisions R) q = true <->
  exists u, u ∈ unitOrder /\ free (decisionR R u) = true /\ uName (holder u) = q.
Proof.
  unfold staticFree. rewrite existsb_exists. split.
  - intros (d & (u & <- & Hu)%in_map_iff & [Hf Hq]%andb_true_iff). exists u.
    rewrite dUnit_holder, String.eqb_eq in Hq. split; [by apply list_elem_of_In|done].
  - intros (u & Hu & Hf & Hq). exists (decisionR R u). split; [by apply in_map, list_elem_of_In|].
    rewrite dUnit_holder, Hf, Hq. simpl. apply String.eqb_refl.
Qed.

Lemma free_static d : free d = true -> IsStatic (dState d) = true.
Proof. unfold free. by intros [? _]%andb_true_iff. Qed.

Lemma free_mono R R' u : R ⊆ R' -> free (decisionR R u) = true -> free (decisionR R' u) = true.
Proof. intros HR Hf. by rewrite (decision_mono R R') by auto using free_static. Qed.

Lemma staticFree_mono R R' q : R ⊆ R' -> staticFree (decisions R) q = true -> staticFree (decisions R') q = true.
Proof. rewrite !staticFree_spec. intros HR (u & Hu & Hf & Hq). exists u. split_and!; [done|by eapply free_mono|done]. Qed.

(** At most one top-level def has the name of a static unit. *)
Lemma static_unique R d0 d1 : staticFree (decisions R) (child ModuleUnitName (xfName d0)) = true ->
  d0 ∈ topDefs body -> d1 ∈ topDefs body -> xfName d0 = xfName d1 -> eraseDef d0 = eraseDef d1.
Proof.
  intros (u & _ & Hf & Hq)%staticFree_spec H0 H1 E. apply free_static in Hf.
  destruct (static_top R u d0 Hf H0 Hq) as [E0 _]. rewrite E in Hq. destruct (static_top R u d1 Hf H1 Hq) as [E1 _].
  congruence.
Qed.

End Pass.

(** A table filled by a loop over the defs. *)
Section Table.
Context {V : Type} (val : Ast.FuncDef -> option V).
Notation fill := (fold_left (fun (m : gmap string V) fn =>
  match val fn with Some v => <[fnName fn := v]> m | None => m end)).

Lemma fill_inv l : forall m k v, fill l m !! k = Some v ->
  m !! k = Some v \/ exists fn, fn ∈ l /\ fnName fn = k /\ val fn = Some v.
Proof.
  induction l as [|fn l IH]; intros m k v E; simpl in E; [by left|].
  apply IH in E as [E|(fn' & Hin & ? & ?)]; [|right; exists fn'; split; [by apply elem_of_cons; right|done]].
  destruct (val fn) as [w|] eqn:Ew; [|by left]. apply lookup_insert_Some in E as [[<- <-]|[_ E]]; [|by left].
  right. exists fn. split; [by apply elem_of_cons; left|done].
Qed.

Lemma fill_hit l k v : (forall fn, fn ∈ l -> fnName fn = k -> val fn = Some v) ->
  forall m, m !! k = Some v \/ (exists fn, fn ∈ l /\ fnName fn = k) -> fill l m !! k = Some v.
Proof.
  induction l as [|fn l IH]; intros Hv m Hm; simpl.
  { destruct Hm as [Hm|(fn & Hin & _)]; [done|by apply not_elem_of_nil in Hin]. }
  apply IH; [intros fn' Hin; apply Hv; by apply elem_of_cons; right|].
  destruct (decide (fnName fn = k)) as [<-|Hne].
  - left. rewrite (Hv fn); [|by apply elem_of_cons; left|done]. by rewrite lookup_insert_eq.
  - destruct Hm as [Hm|(fn' & [->|Hin]%elem_of_cons & E)]; [left|done|right; by exists fn'].
    destruct (val fn); [by rewrite lookup_insert_ne|done].
Qed.
End Table.

(** ** The rounds *)

Section Fixpoints.
Context (module : string) (body : list XStmt) (mode : Mode).
Context (globalsFor : Ast.FuncDef -> string -> option Repr) (shapesFor : string -> option Repr).
Notation resolver := (gmap string StaticCallee).
Notation driveOnce := (driveOnce module body mode globalsFor shapesFor).
Notation decisionR := (decisionR module body mode globalsFor shapesFor).
Notation unitOrder := (unitOrder module body).
Notation holder := (holder module body).
Notation decisions R := (map (decisionR R) unitOrder).
Notation gens := (driveGenerators body).
Notation defs := (map eraseDef (topDefs body)).

(** One round. *)
Definition grow (R : resolver) : resolver := moduleCallees body globalsFor shapesFor (decisions R) R.

Definition calleeVal (R : resolver) (fn : Ast.FuncDef) : option StaticCallee :=
  if staticFree (decisions R) (child ModuleUnitName (fnName fn)) then
    (fun f => SignatureOf f ("static_" +:+ fnName fn)) <$> LowerFuncFull fn (R !!.) (globalsFor fn) shapesFor
  else None.

Lemma grow_fill R : grow R = fold_left (fun (m : resolver) fn =>
  match calleeVal R fn with Some v => <[fnName fn := v]> m | None => m end) defs ∅.
Proof.
  unfold grow, moduleCallees, calleeVal, calleeStep. generalize (∅ : resolver) as m.
  induction defs as [|fn l IH]; intros m; [done|]. simpl. rewrite IH. f_equal.
  destruct (staticFree _ _); [|done]. by destruct (LowerFuncFull _ _ _ _).
Qed.

Lemma defs_elem fn : fn ∈ defs -> exists d, d ∈ topDefs body /\ fn = eraseDef d.
Proof. intros (d & -> & Hd)%list_elem_of_fmap. eauto. Qed.

Lemma defs_unique R fn fn' : staticFree (decisions R) (child ModuleUnitName (fnName fn)) = true ->
  fn ∈ defs -> fn' ∈ defs -> fnName fn = fnName fn' -> fn = fn'.
Proof.
  intros Hs (d & Hd & ->)%defs_elem (d' & Hd' & ->)%defs_elem E. by eapply static_unique.
Qed.

(** The callees of the next round: the static defs that lower now. *)
Lemma grow_spec R f s : grow R !! f = Some s <->
  exists fn F, fn ∈ defs /\ fnName fn = f /\ staticFree (decisions R) (child ModuleUnitName f) = true /\
    LowerFuncFull fn (R !!.) (globalsFor fn) shapesFor = Some F /\ s = SignatureOf F ("static_" +:+ f).
Proof.
  rewrite grow_fill. split.
  - intros [E|(fn & Hin & <- & E)]%fill_inv; [by rewrite lookup_empty in E|]. unfold calleeVal in E.
    destruct (staticFree _ _) eqn:Es; [|done]. destruct (LowerFuncFull _ _ _ _) as [F|] eqn:EF; [|done].
    simpl in E. simplify_eq. by exists fn, F.
  - intros (fn & F & Hin & <- & Hs & HF & ->). apply fill_hit; [|right; by exists fn].
    intros fn' Hin' E. unfold calleeVal. rewrite (defs_unique R fn' fn) by (done || by rewrite E). by rewrite Hs, HF.
Qed.

Lemma grow_mono R R' : R ⊆ R' -> grow R ⊆ grow R'.
Proof.
  intros HR. apply map_subseteq_spec. intros f s (fn & F & Hin & Hn & Hs & HF & ->)%grow_spec.
  apply grow_spec. exists fn, F. split_and!; try done; [by eapply staticFree_mono|].
  eapply LowerFuncGen_mono; [exact HR| |exact HF]. done.
Qed.

(** Growing keeps what is there. *)
Definition stable (R : resolver) : Prop := R ⊆ grow R.

Lemma rounds_spec n : forall prev R, stable R ->
  exists R', rounds module body mode globalsFor shapesFor n prev R (decisions R) = Some (R', decisions R') /\
    stable R' /\ R ⊆ R'.
Proof.
  induction n as [|n IH]; intros prev R HR; simpl; [by exists R|].
  change (moduleCallees body globalsFor shapesFor (decisions R) R) with (grow R).
  destruct (_ =? prev); [by exists R|]. rewrite driveOnce_total. simpl.
  destruct (IH (Z.of_nat (size (grow R))) (grow R)) as (R' & -> & HR' & Hsub); [by apply grow_mono|].
  exists R'. split_and!; [done|done|by etrans].
Qed.

Lemma list_to_set_size (l : list string) : (size (list_to_set l : gset string) <= length l)%nat.
Proof.
  induction l as [|x l IH]; [done|]. rewrite list_to_set_cons, size_union_alt, size_singleton. cbn [length].
  assert (size (list_to_set l ∖ {[x]} : gset string) <= size (list_to_set l : gset string))%nat by (apply subseteq_size; set_solver).
  lia.
Qed.

Lemma omap_length {A B} (f : A -> option B) (l : list A) : (length (omap f l) <= length l)%nat.
Proof. induction l as [|x l IH]; [done|]. csimpl. destruct (f x); csimpl; lia. Qed.

Lemma grow_size R : (size (grow R) <= length body)%nat.
Proof.
  transitivity (length (topDefs body)).
  - rewrite <- size_dom. transitivity (size (list_to_set (map (fun d => xfName d) (topDefs body)) : gset string)).
    + apply subseteq_size. intros f [s Hs]%elem_of_dom. apply grow_spec in Hs as (fn & F & Hin & <- & _).
      apply defs_elem in Hin as (d & Hd & ->). apply elem_of_list_to_set, list_elem_of_fmap. by exists d.
    + etrans; [apply list_to_set_size|]. by rewrite length_map.
  - apply omap_length.
Qed.

(** The rounds end at a fixpoint, whatever the bound on them. *)
Lemma settled R : stable R -> (size (grow R) <= size R)%nat -> grow R = R.
Proof. intros HR Hs. symmetry. by apply map_subseteq_size_eq. Qed.

Lemma rounds_settle n : forall R, stable R -> (length body <= n + size R)%nat ->
  exists R', rounds module body mode globalsFor shapesFor n (Z.of_nat (size R)) R (decisions R) = Some (R', decisions R') /\
    grow R' = R' /\ (forall S, grow S ⊆ S -> R ⊆ S -> R' ⊆ S).
Proof.
  induction n as [|n IH]; intros R HR Hn; simpl.
  - exists R. split; [done|]. split; [|done]. apply settled; [done|]. pose proof (grow_size R). lia.
  - change (moduleCallees body globalsFor shapesFor (decisions R) R) with (grow R).
    destruct (Z.eqb_spec (Z.of_nat (size (grow R))) (Z.of_nat (size R))) as [E|E].
    { exists R. split; [done|]. split; [|done]. apply settled; [done|lia]. }
    assert (size R <= size (grow R))%nat by by apply map_subseteq_size.
    rewrite driveOnce_total. simpl. destruct (IH (grow R)) as (R' & E' & Hg & Hl); [by apply grow_mono|lia|].
    exists R'. split; [done|]. split; [done|]. intros S HS HRS. apply Hl; [done|]. etrans; [|exact HS]. by apply grow_mono.
Qed.

Lemma rounds_least : exists R,
  rounds module body mode globalsFor shapesFor (S (length body)) (-1) ∅ (decisions ∅) = Some (R, decisions R) /\
  grow R = R /\ (forall S, grow S ⊆ S -> R ⊆ S).
Proof.
  assert (stable ∅) as H0 by apply map_empty_subseteq. cbn [rounds].
  change (moduleCallees body globalsFor shapesFor (decisions ∅) ∅) with (grow ∅).
  destruct (Z.eqb_spec (Z.of_nat (size (grow ∅))) (-1)); [lia|]. rewrite driveOnce_total. simpl.
  destruct (rounds_settle (length body) (grow ∅)) as (R & E & Hg & Hl); [by apply grow_mono|lia|].
  exists R. split; [done|]. split; [done|]. intros S HS. apply Hl; [done|]. etrans; [|exact HS]. apply grow_mono, map_empty_subseteq.
Qed.

(** ** The seeded pass *)

(** The last unit of a name, whose decision [byUnitName] keeps. *)
Definition lastUnit (q : string) : option Unit_ :=
  last (List.filter (fun u => String.eqb (uName (holder u)) q) unitOrder).

Lemma byUnitName_spec R q : byUnitName (decisions R) !! q = decisionR R <$> lastUnit q.
Proof.
  unfold byUnitName, lastUnit. induction unitOrder as [|u l IH] using rev_ind; [done|].
  rewrite map_app, fold_left_app, List.filter_app. simpl. rewrite dUnit_holder.
  destruct (String.eqb_spec (uName (holder u)) q) as [<-|Hne].
  - by rewrite lookup_insert_eq, last_snoc.
  - rewrite lookup_insert_ne, app_nil_r by done. apply IH.
Qed.

Lemma lastUnit_name q u : lastUnit q = Some u -> u ∈ unitOrder /\ uName (holder u) = q.
Proof.
  intros H%last_Some_elem_of. apply list_elem_of_In, filter_In in H as [H1 H2%String.eqb_eq].
  split; [by apply list_elem_of_In|done].
Qed.

Lemma seeds_spec R f s : cycleSeeds body (byUnitName (decisions R)) !! f = Some s ->
  exists fn u, fn ∈ defs /\ fnName fn = f /\ lastUnit (child ModuleUnitName f) = Some u /\
    free (decisionR R u) = false /\ SignatureFromDef fn ("static_" +:+ f) = Some s.
Proof.
  set (val fn := match byUnitName (decisions R) !! child ModuleUnitName (fnName fn) with
    | Some d => if free d then None else SignatureFromDef fn ("static_" +:+ fnName fn) | None => None end).
  assert (cycleSeeds body (byUnitName (decisions R)) = fold_left (fun (m : resolver) fn =>
    match val fn with Some v => <[fnName fn := v]> m | None => m end) defs ∅) as ->.
  { unfold cycleSeeds, seedStep, val. generalize (∅ : resolver) as m. induction defs as [|fn l IH]; intros m; [done|].
    simpl. rewrite IH. f_equal. destruct (byUnitName _ !! _) as [d|]; [|done]. destruct (free d); [done|].
    by destruct (SignatureFromDef _ _). }
  intros [E|(fn & Hin & <- & E)]%fill_inv; [by rewrite lookup_empty in E|]. unfold val in E.
  rewrite byUnitName_spec in E. destruct (lastUnit _) as [u|] eqn:Eu; [|done]. simpl in E.
  destruct (free _) eqn:Ef; [done|]. by exists fn, u.
Qed.

(** Two units with a top-level def's name, each static against some resolver,
    are one. *)
Lemma static_same R R' u u' fn : fn ∈ defs ->
  IsStatic (dState (decisionR R u)) = true -> IsStatic (dState (decisionR R' u')) = true ->
  uName (holder u) = child ModuleUnitName (fnName fn) -> uName (holder u') = child ModuleUnitName (fnName fn) ->
  forall R'', decisionR R'' u = decisionR R'' u'.
Proof.
  intros (d & Hd & ->)%defs_elem Hs Hs' Hn Hn' R''.
  destruct (static_top _ _ _ _ _ _ u d Hs Hd Hn) as [Eo Eh], (static_top _ _ _ _ _ _ u' d Hs' Hd Hn') as [Eo' Eh'].
  destruct (static_inv _ _ _ _ _ _ u Hs) as (v & ? & _ & Hk & _ & Hv & _), (static_inv _ _ _ _ _ _ u' Hs') as (v' & ? & _ & Hk' & _ & Hv' & _).
  eapply decisionR_key; [exact Eo|]. congruence.
Qed.

(** The kept seeds, each static and guard-free in the last pass. *)
Lemma shrink_spec base n : forall seeds, (size seeds < n)%nat ->
  exists kept, kept ⊆ seeds /\
    shrink module body mode globalsFor shapesFor n base seeds = Some (kept ∪ base, decisions (kept ∪ base)) /\
    forall f, is_Some (kept !! f) -> survives (byUnitName (decisions (kept ∪ base))) f = true.
Proof.
  induction n as [|n IH]; intros seeds Hn; [lia|]. simpl. unfold mergeCallees.
  rewrite (driveOnce_total _ _ _ _ _ (seeds ∪ base)). simpl.
  set (kept := filter (fun p : string * StaticCallee => survives (byUnitName (decisions (seeds ∪ base))) p.1 = true) seeds).
  assert (kept ⊆ seeds) as Hsub by apply map_filter_subseteq.
  destruct (Nat.eqb_spec (size kept) (size seeds)) as [E|E].
  - assert (kept = seeds) as Ek by (apply map_subseteq_size_eq; [done|lia]).
    exists seeds. split_and!; [done|done|]. intros f [s Hs]. rewrite <- Ek in Hs. by apply map_lookup_filter_Some in Hs as [_ ?].
  - destruct (Nat.eqb_spec (size kept) 0) as [E0|E0].
    + exists ∅. rewrite (left_id_L ∅ (∪)), driveOnce_total. split_and!; [apply map_empty_subseteq|done|].
      intros f [s Hs]. by rewrite lookup_empty in Hs.
    + destruct (IH kept) as (k & Hk & Ek & Hs). { apply map_subseteq_size in Hsub. lia. }
      exists k. split_and!; [by etrans|done|done].
Qed.

(** The annotation's signature is the lowered one, the result by its scalar. *)
Lemma SignatureFromDef_fits fn g s res gl sh gn F : SignatureFromDef fn g = Some s ->
  LowerFuncGen fn res gl sh gn = Some F ->
  GoName s = g /\ CParams s = map pRepr (Params F) /\ sameScalar (CRet s) (FRet F) = true.
Proof.
  unfold SignatureFromDef, LowerFuncGen. destruct (Ast.fnAsync fn); [done|]. simpl.
  destruct (Ast.fnDecorators fn); [|done]. simpl. intros Es EF.
  destruct (mapM plainParam (Ast.fnParams fn)) as [rs|] eqn:Er; [|done]. simpl in Es.
  destruct (mapM (lowerParam _) _) as [ps|] eqn:Ep; [|done]. simpl in EF.
  destruct (lowerBody _ _ _ _ _ _) as [[b gs]|]; [|done]. destruct (lRet b) as [r|]; [|done]. simpl in EF.
  destruct (lTerm b && returnsAgree _ r) eqn:Ea; [|done]. simplify_eq/=. apply andb_true_iff in Ea as [_ Ea].
  unfold returnsAgree in Ea. destruct (Ast.fnReturns fn) as [a|]; [|done].
  destruct (annotationRepr a) as [w|]; [|done]. simplify_eq/=. split_and!; [done| |done].
  clear -Er Ep. revert rs ps Er Ep. induction (Ast.fnParams fn) as [|p l IH]; intros rs ps Er Ep; simpl in *;
    [injection Er as <-; by injection Ep as <-|].
  destruct (plainParam p) as [r|] eqn:E1; [|done]. destruct (mapM plainParam l) as [rs'|]; [|done].
  destruct (lowerParam _ p) as [q|] eqn:E2; [|done]. destruct (mapM (lowerParam _) l) as [ps'|]; [|done].
  injection Er as <-. injection Ep as <-. simpl. rewrite <- (IH rs' ps' eq_refl eq_refl). f_equal. unfold plainParam in E1. unfold lowerParam in E2.
  destruct (Ast.paramKind p), (Ast.paramDefault p), (Ast.paramAnnotation p) as [a|]; try done; rewrite E1 in E2; by simplify_eq/=.
Qed.

(** ** The resolver the decisions were made against *)

(** A callee and the def it stands for: static, guard-free, lowering against
    the same resolver to the signature its callers assume. *)
Definition fits (R : resolver) (ds : list Decision) (f : string) (s : StaticCallee) : Prop :=
  exists fn F, fn ∈ defs /\ fnName fn = f /\ staticFree ds (child ModuleUnitName f) = true /\
    LowerFuncGen fn (R !!.) (globalsFor fn) shapesFor gens = Some F /\
    GoName s = "static_" +:+ f /\ CParams s = map pRepr (Params F) /\ sameScalar (CRet s) (FRet F) = true.

Lemma base_callee_fits base R f s : grow base = base -> base ⊆ R -> base !! f = Some s -> fits R (decisions R) f s.
Proof.
  intros Hg HR Hf. rewrite <- Hg in Hf. apply grow_spec in Hf as (fn & F & Hin & Hn & Hs & HF & ->).
  exists fn, F. split_and!; try done.
  - by eapply staticFree_mono.
  - eapply LowerFuncGen_mono; [exact HR| |exact HF]. done.
  - unfold sameScalar. by apply bool_decide_true.
Qed.

Lemma survivor_free R f u : lastUnit (child ModuleUnitName f) = Some u ->
  survives (byUnitName (decisions R)) f = true -> free (decisionR R u) = true.
Proof. intros Hu. unfold survives. by rewrite byUnitName_spec, Hu. Qed.

(** A seed that survives was not a callee already. *)
Lemma seed_not_base base R f s s' : grow base = base ->
  cycleSeeds body (byUnitName (decisions base)) !! f = Some s ->
  survives (byUnitName (decisions R)) f = true -> base !! f = Some s' -> False.
Proof.
  intros Hg (fn & u & Hin & <- & Hu & Hnf & _)%seeds_spec Hsv Hb.
  apply (survivor_free R _ u Hu), free_static in Hsv. rewrite <- Hg in Hb.
  apply grow_spec in Hb as (_ & _ & _ & _ & (u' & _ & Hf & Hn)%staticFree_spec & _).
  pose proof (lastUnit_name _ _ Hu) as [_ Hn'].
  rewrite (static_same R base u u' fn) in Hnf; [congruence|done|done|by apply free_static|done|done].
Qed.

Lemma seed_fits base R f s : cycleSeeds body (byUnitName (decisions base)) !! f = Some s ->
  survives (byUnitName (decisions R)) f = true -> fits R (decisions R) f s.
Proof.
  intros (fn & u & Hin & <- & Hu & Hnf & Hsig)%seeds_spec Hsv. apply (survivor_free R _ u Hu) in Hsv.
  pose proof (lastUnit_name _ _ Hu) as [Hord Hn]. pose proof (free_static _ Hsv) as Hst.
  destruct (defs_elem fn Hin) as (d & Hd & ->).
  destruct (static_top _ _ _ _ _ R u d Hst Hd Hn) as [Eo _].
  destruct (static_inv _ _ _ _ _ R u Hst) as (v & d' & Eo' & _ & _ & Hv & _ & Hl & _). rewrite Eo in Eo'.
  injection Eo' as <- <-. unfold funcInput in Hl. destruct (IsGenerator (eraseDef d)) eqn:Eg.
  - exfalso. assert (decisionR R u = decisionR base u) as E; [|by rewrite <- E, Hsv in Hnf].
    apply (inj Some). rewrite <- (proj1 (decisionR_spec _ _ _ _ _ R u)), <- (proj1 (decisionR_spec _ _ _ _ _ base u)).
    unfold inputR. rewrite Eo. unfold inputOf, funcInput. simpl. by rewrite Eg.
  - destruct (LowerFuncGen _ _ _ _ _) as [F|] eqn:EF; [|done].
    destruct (SignatureFromDef_fits _ _ _ _ _ _ _ _ Hsig EF) as (H1 & H2 & H3).
    exists (eraseDef d), F. split_and!; try done. apply staticFree_spec. by exists u.
Qed.

Lemma promote_spec base : grow base = base -> exists kept,
  kept ⊆ cycleSeeds body (byUnitName (decisions base)) /\
  promoteCycles module body mode globalsFor shapesFor (decisions base) base =
    Some (kept ∪ base, decisions (kept ∪ base)) /\
  (forall f, is_Some (kept !! f) -> survives (byUnitName (decisions (kept ∪ base))) f = true) /\
  base ⊆ kept ∪ base.
Proof.
  intros Hg. set (seeds := cycleSeeds body (byUnitName (decisions base))).
  assert (exists kept, kept ⊆ seeds /\ promoteCycles module body mode globalsFor shapesFor (decisions base) base =
    Some (kept ∪ base, decisions (kept ∪ base)) /\
    (forall f, is_Some (kept !! f) -> survives (byUnitName (decisions (kept ∪ base))) f = true)) as (kept & Hk & E & Hs).
  { unfold promoteCycles. fold seeds. change (moduleCallees body globalsFor shapesFor (decisions base) base) with (grow base).
    rewrite Hg. destruct (Nat.eqb_spec (size seeds) 0).
    - exists ∅. rewrite (left_id_L ∅ (∪)). split_and!; [apply map_empty_subseteq|done|].
      intros f [s Hs]. by rewrite lookup_empty in Hs.
    - destruct (shrink_spec base (S (size seeds)) seeds) as (kept & ? & ? & ?); [lia|]. by exists kept. }
  exists kept. split_and!; try done. apply map_subseteq_spec. intros f s Hb. apply lookup_union_Some_raw. right.
  split; [|done]. destruct (kept !! f) as [s'|] eqn:Ek; [|done]. exfalso.
  eapply (seed_not_base base); [done|by eapply lookup_weaken|by apply Hs; rewrite Ek|done].
Qed.

(** C10: whole-module consistency of the partition.  Driving a module returns,
    whatever the module, the tier mode and the tables of globals and shapes;
    and every callee of the resolver the returned decisions were made against
    is a top-level def that those decisions make static with an empty deopt
    plan, and that lowers against that same resolver, with the parameters its
    callers assume and a result of the scalar they assume.  So no static
    caller, in a recursive cycle or not, holds a direct call to a function
    without a static form. *)
Theorem Drive_consistent : exists R ds,
  DriveWith module body mode globalsFor shapesFor = Some (R, ds) /\ driveOnce R = Some ds /\
  forall f s, R !! f = Some s -> fits R ds f s.
Proof.
  unfold DriveWith. rewrite driveOnce_total. simpl. destruct rounds_least as (base & Er & Hg & _).
  setoid_rewrite Er. simpl. destruct (promote_spec base Hg) as (kept & Hk & -> & Hs & Hb).
  exists (kept ∪ base), (decisions (kept ∪ base)). split_and!; [done|apply driveOnce_total|].
  intros f s Hf. apply lookup_union_Some_raw in Hf as [Hf|[_ Hf]].
  - eapply (seed_fits base); [by eapply lookup_weaken|by apply Hs; rewrite Hf].
  - by apply (base_callee_fits base).
Qed.

(** ** The largest seed *)

Lemma union_mono (S seeds base : resolver) : S ⊆ seeds -> base ##ₘ seeds -> S ∪ base ⊆ seeds ∪ base.
Proof.
  intros HS Hd. apply map_subseteq_spec. intros f s [Hf|[_ Hf]]%lookup_union_Some_raw.
  - apply lookup_union_Some_raw. left. by eapply lookup_weaken.
  - apply lookup_union_Some_raw. right. split; [|done]. by eapply map_disjoint_Some_l.
Qed.

Lemma survives_mono R R' f : R ⊆ R' -> survives (byUnitName (decisions R)) f = true ->
  survives (byUnitName (decisions R')) f = true.
Proof.
  intros HR. unfold survives. rewrite !byUnitName_spec. destruct (lastUnit _); simpl; [|done]. by apply free_mono.
Qed.

Lemma shrink_greatest base S n : (forall f, is_Some (S !! f) -> survives (byUnitName (decisions (S ∪ base))) f = true) ->
  forall seeds R ds, S ⊆ seeds -> base ##ₘ seeds ->
  shrink module body mode globalsFor shapesFor n base seeds = Some (R, ds) -> S ⊆ R.
Proof.
  intros HS. induction n as [|n IH]; intros seeds R ds Hsub Hd E; [done|]. simpl in E. unfold mergeCallees in E.
  rewrite (driveOnce_total _ _ _ _ _ (seeds ∪ base)) in E. simpl in E.
  set (kept := filter (fun p : string * StaticCallee => survives (byUnitName (decisions (seeds ∪ base))) p.1 = true) seeds) in *.
  assert (kept ⊆ seeds) as Hks by apply map_filter_subseteq.
  assert (S ⊆ kept) as Hk.
  { apply map_subseteq_spec. intros f s Hf. apply map_lookup_filter_Some. split; [by eapply lookup_weaken|].
    apply (survives_mono (S ∪ base)); [by apply union_mono|]. apply (HS f). by rewrite Hf. }
  destruct (_ =? size seeds)%nat; [simplify_eq; etrans; [exact Hsub|apply map_union_subseteq_l]|].
  destruct (Nat.eqb_spec (size kept) 0) as [E0|E0].
  - apply map_size_empty_inv in E0. rewrite E0 in Hk. rewrite driveOnce_total in E. simpl in E. simplify_eq.
    etrans; [exact Hk|apply map_empty_subseteq].
  - eapply IH; [exact Hk| |exact E]. by eapply map_disjoint_weaken_r.
Qed.

(** The callees the rounds end with, before the seeded pass. *)
Definition leastCallees : option (resolver * list Decision) :=
  ds ← driveOnce ∅; rounds module body mode globalsFor shapesFor (S (length body)) (-1) ∅ ds.

(** A set of candidates whose members all come out static and guard-free when
    calls to the set and to [base] resolve. *)
Definition consistent (base S : resolver) : Prop :=
  forall f, is_Some (S !! f) -> survives (byUnitName (decisions (S ∪ base))) f = true.

(** C11: the driver's two fixpoints, for every module, mode and table.  The
    rounds end within their bound, one more than the statements of the module,
    with a set of callees that one more round reproduces and that every set
    closed under a round contains: the least fixpoint.  The seeded pass returns
    these callees with a set of the candidates for recursive cycles that is
    consistent with itself: its members, assumed static, prove static.  When no
    candidate has the name of a callee of the rounds, it contains every consistent
    set of candidates, so a recursive cycle survives exactly when it is in a
    consistent set.  (They share a name only when a later class has the name of
    the def.) *)
Theorem Drive_fixpoints : exists base K,
  let seeds := cycleSeeds body (byUnitName (decisions base)) in
  leastCallees = Some (base, decisions base) /\
  moduleCallees body globalsFor shapesFor (decisions base) base = base /\
  (forall T, moduleCallees body globalsFor shapesFor (decisions T) T ⊆ T -> base ⊆ T) /\
  DriveWith module body mode globalsFor shapesFor = Some (K ∪ base, decisions (K ∪ base)) /\
  K ⊆ seeds /\ consistent base K /\
  (base ##ₘ seeds -> forall S, S ⊆ seeds -> consistent base S -> S ⊆ K).
Proof.
  destruct rounds_least as (base & Er & Hg & Hl). destruct (promote_spec base Hg) as (K & HK & Ep & Hs & _). exists base, K. cbv zeta.
  assert (leastCallees = Some (base, decisions base)) as Eb by (unfold leastCallees; rewrite driveOnce_total; exact Er).
  split_and!; [done|exact Hg|exact Hl| |done|exact Hs|].
  - unfold DriveWith. rewrite driveOnce_total. simpl. setoid_rewrite Er. exact Ep.
  - intros Hd S HS Hsv. assert (S ⊆ K ∪ base) as HR.
    { unfold promoteCycles in Ep.
      change (moduleCallees body globalsFor shapesFor (decisions base) base) with (grow base) in Ep. rewrite Hg in Ep.
      destruct (Nat.eqb_spec (size (cycleSeeds body (byUnitName (decisions base)))) 0) as [E0|E0].
      - apply map_size_empty_inv in E0. rewrite E0 in HS. etrans; [exact HS|apply map_empty_subseteq].
      - eapply shrink_greatest; [exact Hsv|exact HS|exact Hd|exact Ep]. }
    apply map_subseteq_spec. intros f s Hf. pose proof (lookup_weaken _ _ _ _ Hf HR) as [Hk|[_ Hk]]%lookup_union_Some_raw; [done|].
    exfalso. eapply map_disjoint_spec; [exact Hd|exact Hk|]. exact (lookup_weaken _ _ _ _ Hf HS).
Qed.
End Fixpoints.

(** ** A recursive module *)

(** [def even(n: int) -> bool: if n == 0: return True; return odd(n >> 1)] and
    its twin. *)
Definition parity (line : Z) (name other : string) (stop : bool) : XStmt :=
  SFuncDef (mkDef (mkPos line 1) name [mkParamOf "n" ParamPlain (Some (XName "int")) None] (Some (XName "bool"))
    [SIf (XCompare (XName "n") [Ast.CmpEq] [XIntLit "0"]) [SReturn (Some (XBoolLit stop))] [];
     SReturn (Some (XCall (mkPos (line + 3) 12) (XName other)
       [mkArg "" 0 (XBinOp Ast.BinRShift (XName "n") (XIntLit "1"))]))] [] false).

Definition evenOdd : list XStmt := [parity 1 "even" "odd" true; parity 6 "odd" "even" false].

Definition noGlobals (_ : Ast.FuncDef) (_ : string) : option Repr := None.
Definition noShapes (_ : string) : option Repr := None.

Lemma evenOdd_driven :
  match DriveWith "m" evenOdd ModeAuto noGlobals noShapes with
  | Some (R, ds) => bool_decide (is_Some (R !! "even") /\ is_Some (R !! "odd"))
  | None => false
  end = true.
Proof. vm_compute. reflexivity. Qed.
