(* ===== verification/BridgeCanon.v ===== *)
(** * BridgeCanon: representations of a lowered function

    The bridge compares representations by their scalar class only.  That is
    enough for scalars: every representation it gives to an expression, a local
    or a result is one of the four fixed scalar records, a slice of such, or
    not a scalar, so two of the same scalar class are the same record. *)

From S2P Require Import Prelude Ast Int64 StaticOps Fold GoSem Emit IrCost Bridge BridgeScope.
Local Open Scope Z_scope.
Local Open Scope bridge_scope.

Inductive canonical : Repr -> Prop :=
  | canon_int : canonical intRepr
  | canon_float : canonical floatRepr
  | canon_bool : canonical boolRepr
  | canon_str : canonical strRepr
  | canon_list e : canonical e -> canonical (listRepr e)
  | canon_other r : RScalar r = NotScalar -> Elem r = None ->
      (forall s n fr, RShape r = Some s -> Field s n = Some fr -> canonical fr) -> canonical r.

Create HintDb canon.
#[export] Hint Constructors canonical : canon.

Lemma canonical_same r r' : canonical r -> canonical r' -> sameScalar r r' = true -> RScalar r <> NotScalar -> r = r'.
Proof.
  intros Hr Hr' Hs%bool_decide_eq_true Hn. destruct Hr; destruct Hr'; simplify_eq/=; try done; congruence.
Qed.

Lemma canonical_elem r e : canonical r -> Elem r = Some e -> canonical e.
Proof. intros Hr He. destruct Hr; simplify_eq/=; congruence. Qed.

Lemma canonical_field r s n fr : canonical r -> RShape r = Some s -> Field s n = Some fr -> canonical fr.
Proof. intros Hr Hs Hf. destruct Hr; simplify_eq/=; eauto. Qed.

Lemma annotation_canonical a r : annotationRepr a = Some r -> canonical r /\ RScalar r <> NotScalar.
Proof. destruct a; try done. simpl. unfold scalarRepr. repeat case_match; intros; simplify_eq; by repeat constructor. Qed.

Lemma binResult_canonical op l r res : binResult op l r = Some res -> canonical res.
Proof. unfold binResult. repeat case_match; intros; simplify_eq; constructor. Qed.

Lemma bridgeBin_canonical op l lr r rr res : canonical lr -> canonical rr -> canonical res ->
  canonical (bridgeBin op l lr r rr res).2.
Proof.
  intros Hl Hr Hs. unfold bridgeBin, simplifyIntIdentity. repeat case_match; simplify_eq/=; done.
Qed.

(** ** The monad *)

Definition yields {A} (P : A -> Prop) (m : BM A) : Prop := forall g a g', m g = Some (a, g') -> P a.

Lemma yields_ret {A} (P : A -> Prop) a : P a -> yields P (bret a).
Proof. intros H g x g' [= <- _]. done. Qed.

Lemma yields_bind {A B} (P : A -> Prop) (Q : B -> Prop) m k :
  yields P m -> (forall a, P a -> yields Q (k a)) -> yields Q (bbind m k).
Proof.
  intros Hm Hk g b g' E. unfold bbind in E. destruct (m g) as [[a g1]|] eqn:Em; [|done].
  by eapply Hk; [eapply Hm|].
Qed.

Lemma yields_lift {A} (P : A -> Prop) o : (forall a, o = Some a -> P a) -> yields P (blift o).
Proof. intros H g a g'. unfold blift. destruct o; [|done]. intros [= <- _]. by apply H. Qed.

Lemma yields_check {A} (P : A -> Prop) b k : (b = true -> yields P k) -> yields P (check b k).
Proof. intros H. unfold check. destruct b; [by apply H|by intros g a g']. Qed.

Lemma yields_none {A} (P : A -> Prop) : yields P (@unsupported A).
Proof. by intros g a g'. Qed.

Lemma yields_any {A} (m : BM A) : yields (fun _ => True) m.
Proof. by intros g a g'. Qed.
#[export] Hint Resolve yields_none : canon.

(** ** Expressions *)

(** What the resolvers give is canonical. *)
Record ctxCanonical (c : lowerCtx) : Prop := {
  cc_callees : forall f s, resolve c f = Some s -> canonical (CRet s);
  cc_globals : forall x r, globals c x = Some r -> canonical r;
  cc_shapes : forall x r, shapes c x = Some r -> canonical r
}.

Definition canonScope (sc : scope) : Prop := map_Forall (fun _ r => canonical r) sc.
Definition canonPair (p : Expr * Repr) : Prop := canonical p.2.

Section Canon.
Implicit Types (c : lowerCtx) (sc : scope).

Lemma lowerName_canonical c sc x : ctxCanonical c -> canonScope sc -> yields canonPair (lowerName c sc x).
Proof.
  intros Hc Hs. unfold lowerName. destruct (sc !! x) as [r|] eqn:E; [apply yields_ret; by eapply Hs|].
  destruct (globals c x) as [r|] eqn:Eg; [|apply yields_none].
  eapply yields_bind; [apply yields_any|]. intros _ _. apply yields_ret. by eapply cc_globals.
Qed.

Lemma lowerConn_canonical k vs : forall a r p, canonical r -> lowerConn k a r vs = Some p -> canonPair p.
Proof.
  induction vs as [|[e er] vs IH]; intros a r p Hr; simpl.
  - intros [= <-]. unfold canonPair. simpl. destruct (isScalar SBool r); [constructor|done].
  - destruct (sameScalar er r && _); [|done]. by apply IH.
Qed.

Lemma lowerChain_canonical ops : forall a l rs p, lowerChain a l ops rs = Some p -> canonPair p.
Proof.
  induction ops as [|k ops IH]; intros a l [|r rs] p; simpl; try done.
  - destruct a; [|done]. intros [= <-]. constructor.
  - destruct (cmpOp k); [|done]. simpl. destruct (cmpOperands _ _ _); [|done]. apply IH.
Qed.

(** The walk over a list of subexpressions. *)
Local Ltac walk_list IH :=
  let Hx := fresh "Hx" in let IHw := fresh "IHw" in
  induction IH as [|? ? Hx _ IHw]; [by apply yields_ret|];
  eapply yields_bind; [exact Hx|]; intros ? ?; eapply yields_bind; [exact IHw|]; intros ? ?; apply yields_ret; by constructor.

Lemma lowerExpr_canonical c sc e : ctxCanonical c -> canonScope sc -> yields canonPair (lowerExpr c sc e).
Proof.
  intros Hc Hs. induction e using Ast.Expr_ind'; cbn [lowerExpr]; try apply yields_none.
  - by apply lowerName_canonical.
  - eapply yields_bind; [apply yields_any|]. intros v _. apply yields_ret. constructor.
  - apply yields_ret. constructor.
  - apply yields_ret. constructor.
  - apply yields_ret. constructor.
  - eapply (yields_bind (Forall canonPair)); [walk_list H|]. intros ps Hps. apply yields_lift. intros p.
    destruct ps as [|[e r] ps]; [done|]. simpl. case_match; [|done]. intros [= <-]. apply Forall_cons in Hps as [Hr _].
    by constructor.
  - eapply yields_bind; [apply yields_any|]. intros k _. eapply yields_bind; [exact IHe1|]. intros [l lr] Hl.
    eapply yields_bind; [exact IHe2|]. intros [r rr] Hr. eapply yields_bind; [apply yields_lift, binResult_canonical|].
    intros res Hres. apply yields_ret. by apply bridgeBin_canonical.
  - destruct op; try apply yields_none. eapply yields_bind; [exact IHe|]. intros [x xr] _. apply yields_check. intros _.
    apply yields_ret. constructor.
  - eapply (yields_bind (Forall canonPair)); [walk_list H|]. intros ps Hps. apply yields_lift. intros p.
    destruct ps as [|[a r] [|q ps]]; try done. simpl. case_match; [|done]. apply Forall_cons in Hps as [Hr _].
    by apply (lowerConn_canonical k (q :: ps)).
  - apply yields_check. intros _. eapply yields_bind; [apply yields_any|]. intros l _. eapply yields_bind; [apply yields_any|].
    intros ps _. apply yields_lift. intros p. apply lowerChain_canonical.
  - destruct e; try apply yields_none. eapply yields_bind; [apply yields_lift, (cc_callees _ Hc)|]. intros s Hret.
    apply yields_check. intros _. eapply yields_bind; [apply yields_any|]. intros ps _. apply yields_lift. intros p.
    unfold lowerCall. case_match; [|done]. by intros [= <-].
  - eapply yields_bind; [exact IHe|]. intros [b br] Hb. apply yields_lift. intros p. unfold lowerAttribute. simpl.
    destruct (RShape br) as [s|] eqn:Es; [|done]. simpl. destruct (Field s n) as [fr|] eqn:Ef; [|done]. intros [= <-].
    by eapply canonical_field.
  - assert (yields canonPair (b <- lowerExpr c sc e1 ;; i <- lowerExpr c sc e2 ;; blift (lowerSubscript b i))) as H.
    { eapply yields_bind; [exact IHe1|]. intros [b br] Hb. eapply yields_bind; [apply yields_any|]. intros i _.
      apply yields_lift. intros p. unfold lowerSubscript. simpl. destruct (Elem br) as [r|] eqn:Er; [|done]. simpl.
      case_match; [|done]. intros [= <-]. by eapply canonical_elem. }
    destruct e2; try apply H. apply yields_none.
Qed.

Lemma lowerExprs_canonical c sc l : ctxCanonical c -> canonScope sc -> yields (Forall canonPair) (lowerExprs c sc l).
Proof.
  intros Hc Hs. induction l as [|e l IH]; simpl; [by apply yields_ret|].
  eapply yields_bind; [by apply lowerExpr_canonical|]. intros p Hp. eapply yields_bind; [exact IH|]. intros ps Hps.
  apply yields_ret. by constructor.
Qed.

(** ** Statements *)

Definition canonRet (o : option Repr) : Prop := forall r, o = Some r -> canonical r.
Definition canonBlock (x : lowered) : Prop := canonScope (lScope x) /\ canonRet (lRet x).

Lemma plain_canonical ss sc : canonScope sc -> yields canonBlock (plain ss sc).
Proof. intros Hs. by apply yields_ret. Qed.

Lemma insert_canonical x r sc : canonical r -> canonScope sc -> canonScope (<[x := r]> sc).
Proof. intros Hr Hs. by apply map_Forall_insert_2. Qed.

Lemma bindName_canonical x v r sc : canonical r -> canonScope sc -> yields canonBlock (bindName x v r sc).
Proof.
  intros Hr Hs. unfold bindName. destruct (sc !! x); [apply yields_check; intros _|];
    apply plain_canonical; by apply insert_canonical.
Qed.

Lemma setScope_canonical xs : forall rs sc, Forall canonical rs -> canonScope sc -> canonScope (setScope xs rs sc).
Proof.
  induction xs as [|x xs IH]; intros [|r rs] sc Hr Hs; simpl; try done. apply Forall_cons in Hr as [Hr Hrs].
  apply IH; [done|by apply insert_canonical].
Qed.

Lemma joined_canonical sc t e joins : canonScope sc -> canonScope t -> joinScope (newBindings sc t) e = Some joins ->
  canonScope (joins ∪ sc).
Proof.
  intros Hs Ht. unfold joinScope. case_match; [|done]. intros [= <-] x r [Hx|[_ Hx]]%lookup_union_Some_raw; [|by eapply Hs].
  apply map_lookup_filter_Some in Hx as [Hx _]. apply lookup_difference_Some in Hx as [Hx _]. by eapply Ht.
Qed.

Lemma nextRet_canonical ret rr r : canonRet ret -> canonRet rr ->
  nextRet ret rr = Some r -> canonRet r.
Proof. intros H1 H2. unfold nextRet. repeat case_match; intros; by simplify_eq. Qed.

Lemma joinReturns_canonical a b r : canonRet a -> canonRet b ->
  joinReturns a b = Some r -> canonRet r.
Proof. intros H1 H2. unfold joinReturns. repeat case_match; intros; by simplify_eq. Qed.

Definition blockCanonical (k : scope -> BM lowered) : Prop := forall sc, canonScope sc -> yields canonBlock (k sc).

Lemma simple_canonical c sc s : ctxCanonical c -> canonScope sc ->
  match s with Ast.If _ _ _ | Ast.While _ _ _ | Ast.For _ _ _ _ _ => True | _ => yields canonBlock (lowerStmt c s sc) end.
Proof.
  intros Hc Hs. pose proof (fun e => lowerExpr_canonical c sc e Hc Hs) as HE.
  destruct s as [x|ts v|t k v|t a v| | | |v| | | |]; simpl; try done; try apply yields_none; try (by apply plain_canonical).
  - unfold lowerExprStmt. eapply yields_bind; [apply HE|]. intros [v r] _. by apply plain_canonical.
  - destruct ts as [|[] []]; try apply yields_none; [eapply yields_bind; [apply HE|]; intros [e r] Hr; by apply bindName_canonical|].
    destruct v; try apply yields_none. unfold lowerTupleAssign. apply yields_check. intros _.
    eapply yields_bind; [apply yields_any|]. intros names _. apply yields_check. intros _.
    eapply yields_bind; [by apply lowerExprs_canonical|]. intros ps Hps. apply yields_check. intros _.
    apply plain_canonical, setScope_canonical; [by apply Forall_map|done].
  - destruct t; try apply yields_none. unfold lowerAugAssign. eapply yields_bind; [apply yields_any|]. intros op _.
    eapply yields_bind; [apply yields_any|]. intros tr _. eapply yields_bind; [apply HE|]. intros [e er] _.
    eapply yields_bind; [apply yields_any|]. intros res _. by apply plain_canonical.
  - destruct t; try apply yields_none. destruct v; [|apply yields_none]. unfold lowerAnnAssign.
    eapply yields_bind; [apply HE|]. intros [? ?] Hr. apply yields_check. intros _. by apply bindName_canonical.
  - destruct v; [|apply yields_none]. eapply yields_bind; [apply HE|]. intros [? r] Hr. apply yields_ret.
    split; [done|]. by intros q [= <-].
  - apply yields_check. intros _. by apply plain_canonical.
  - apply yields_check. intros _. by apply plain_canonical.
Qed.

Lemma loopCtx_canonical c : ctxCanonical c -> ctxCanonical (loopCtx c).
Proof. intros []. by split. Qed.

Lemma lowerIf_canonical c cond b thn els sc : ctxCanonical c -> blockCanonical thn -> blockCanonical els ->
  canonScope sc -> yields canonBlock (lowerIf c cond b thn els sc).
Proof.
  intros Hc Ht He Hs. unfold lowerIf. eapply yields_bind; [by apply lowerExpr_canonical|]. intros [x r] _.
  assert (blockCanonical (fun sc => if b then els sc else plain [] sc)) as He'.
  { intros sc' Hs'. destruct b; [by apply He|by apply plain_canonical]. }
  apply yields_check. intros _. eapply yields_bind; [by apply Ht|]. intros t [Hts Htr].
  eapply yields_bind; [by apply He'|]. intros e [Hes Her].
  eapply yields_bind; [apply yields_lift; intros j; by apply joined_canonical|]. intros joins Hj.
  apply yields_check. intros _. eapply yields_bind; [apply yields_any|]. intros t2 _.
  eapply yields_bind; [apply yields_any|]. intros e2 _.
  eapply (yields_bind canonRet); [apply yields_lift; intros r'; by apply joinReturns_canonical|]. intros r' Hr'.
  by apply yields_ret.
Qed.

Lemma lowerWhile_canonical c cond b body sc : canonScope sc -> yields canonBlock (lowerWhile c cond b body sc).
Proof.
  intros Hs. unfold lowerWhile. apply yields_check. intros _. eapply yields_bind; [apply yields_any|]. intros [x r] _.
  apply yields_check. intros _. eapply yields_bind; [apply yields_any|]. intros l _. by apply plain_canonical.
Qed.

Lemma lowerFor_canonical c t i stmts b body sc : canonScope sc -> yields canonBlock (lowerFor c t i stmts b body sc).
Proof.
  intros Hs. unfold lowerFor. apply yields_check. intros _. destruct t; try apply yields_none.
  destruct i as [| | | | | | | | | | |f args| | | | |]; try apply yields_none. destruct f; try apply yields_none.
  apply yields_check. intros _. case_match.
  - unfold lowerForRange. eapply yields_bind; [apply yields_any|]. intros [[? ?] ?] _.
    eapply yields_bind; [apply yields_any|]. intros ? _. eapply yields_bind; [apply yields_any|]. intros [? ?] _.
    apply yields_check. intros _. eapply yields_bind; [apply yields_any|]. intros [? ?] _. apply yields_check. intros _.
    eapply yields_bind; [apply yields_any|]. intros ? _. by apply plain_canonical.
  - destruct (gens c _); [|apply yields_none]. unfold lowerForGen. apply yields_check. intros _.
    eapply yields_bind; [apply yields_any|]. intros ? _. eapply yields_bind; [apply yields_any|]. intros [? ?] _.
    eapply yields_bind; [apply yields_any|]. intros ? _. eapply yields_bind; [apply yields_any|]. intros ? _.
    by apply plain_canonical.
Qed.

Lemma lowerStmt_canonical s : forall c, ctxCanonical c -> blockCanonical (lowerStmt c s).
Proof.
  assert (forall l, Forall (fun s => forall c, ctxCanonical c -> blockCanonical (lowerStmt c s)) l ->
    forall c ret term, ctxCanonical c -> canonRet ret ->
    blockCanonical (lowerBody c l ret term)) as Hbody.
  { induction 1 as [|s' l Hs _ IH]; intros c ret term Hc Hret sc Hsc; simpl; [by apply yields_ret|].
    eapply yields_bind; [by apply Hs|]. intros x [Hxs Hxr].
    eapply (yields_bind canonRet); [apply yields_lift; intros r; by apply nextRet_canonical|]. intros r Hr.
    eapply yields_bind; [by apply IH|]. intros y Hy. by apply yields_ret. }
  revert s. apply (Ast.Stmt_ind' (fun s => forall c, ctxCanonical c -> blockCanonical (lowerStmt c s))).
  - intros s. pose proof (fun c sc => simple_canonical c sc s) as H. destruct s; try done; intros c Hc sc Hsc; by apply H.
  - intros cd t e IHt IHe c Hc sc Hsc. cbn [lowerStmt]. apply lowerIf_canonical; [done| | |done];
      intros sc' Hs' g a g'; rewrite lowerBody_walk; by apply Hbody.
  - intros cd t e IHt IHe c Hc sc Hsc. by apply lowerWhile_canonical.
  - intros x i t e d IHt IHe c Hc sc Hsc. by apply lowerFor_canonical.
Qed.

Lemma lowerBody_canonical l : forall c ret term, ctxCanonical c -> canonRet ret ->
  blockCanonical (lowerBody c l ret term).
Proof.
  induction l as [|s l IH]; intros c ret term Hc Hret sc Hsc; simpl; [by apply yields_ret|].
  eapply yields_bind; [by apply lowerStmt_canonical|]. intros x [Hxs Hxr].
  eapply (yields_bind canonRet); [apply yields_lift; intros r; by apply nextRet_canonical|]. intros r Hr.
  eapply yields_bind; [by apply IH|]. intros y Hy. by apply yields_ret.
Qed.

(** ** Functions *)

Lemma lowerParam_canonical c p q : ctxCanonical c -> lowerParam c p = Some q -> canonical (pRepr q).
Proof.
  intros Hc E. assert (exists a, (match annotationRepr a with Some r => Some r | None => shapeAnnotationRepr a c end) =
    Some (pRepr q)) as [a Ha].
  { unfold lowerParam in E. destruct (Ast.paramKind p), (Ast.paramDefault p), (Ast.paramAnnotation p) as [a|]; try done;
      exists a; destruct (annotationRepr a); simplify_eq/=; try done; destruct (shapeAnnotationRepr a c); by simplify_eq/=. }
  destruct (annotationRepr a) eqn:Er; simplify_eq; [by eapply annotation_canonical|].
  destruct a; try done. by eapply cc_shapes.
Qed.

Lemma LowerFuncGen_canonical fn res gl sh gn F : ctxCanonical (funcCtx fn res gl sh gn) ->
  LowerFuncGen fn res gl sh gn = Some F -> canonical (FRet F).
Proof.
  intros Hc. unfold LowerFuncGen. case_match; [done|]. destruct (mapM _ _) as [ps|] eqn:Ep; [|done]. simpl.
  destruct (lowerBody _ _ _ _ _ _) as [[b gs]|] eqn:Eb; [|done]. destruct (lRet b) as [r|] eqn:Er; [|done]. simpl.
  case_match; [|done]. intros [= <-]. simpl.
  apply lowerBody_canonical in Eb as [_ Hr]; [by apply Hr|done|done|].
  unfold paramScope. assert (Forall (fun p => canonical (pRepr p)) ps) as Hps.
  { apply mapM_Some_1 in Ep. clear -Ep Hc. induction Ep; constructor; [by eapply lowerParam_canonical|done]. }
  assert (forall sc, canonScope sc -> canonScope (fold_left (fun sc p => <[pName p:=pRepr p]> sc) ps sc)) as Hf.
  { clear -Hps. induction Hps as [|p l Hp _ IH]; intros sc Hs; simpl; [done|]. apply IH. by apply insert_canonical. }
  apply Hf, map_Forall_empty.
Qed.
End Canon.
