(* ===== verification/Tables.v ===== *)
(** * Tables: the resolvers of tracked globals and shape classes

    Model of src/pkg/ir/globals.go and src/pkg/ir/shapes.go: the
    representation a tracked module global is read through, the struct
    representation of a shape class, and the two resolvers the driver and the
    build lower against.  The names a function binds and the tables
    themselves come from the frontend's analyses (src/pkg/frontend/globals.go,
    scalarglobals.go, shapeclasses.go), which are parameters here: any sets of
    names, any type names.  A Go map is a [gmap]. *)

From S2P Require Import Prelude StaticOps Emit Bridge BridgeCanon.

(** A name and its type, in the frontend's order. *)
Record ShapeClass := mkShapeClass { scName : string; scFields : list (string * string) }.

Definition TrackedGlobals (gs : list (string * string)) : gmap string string :=
  fold_left (fun out g => <[g.1 := g.2]> out) gs ∅.

Definition GlobalRepr (scalar : string) : option Repr :=
  if String.eqb scalar "int" then Some (mkRepr "int64" SInt None None)
  else if String.eqb scalar "float" then Some (mkRepr "float64" SFloat None None)
  else if String.eqb scalar "bool" then Some (mkRepr "bool" SBool None None)
  else if String.eqb scalar "str" then Some (mkRepr "string" SStr None None)
  else None.

(** The nil resolver of an empty table tracks no global. *)
Definition GlobalResolverFor (locals : gset string) (tracked : gmap string string) (name : string) : option Repr :=
  if bool_decide (tracked = ∅) then None
  else if bool_decide (name ∈ locals) then None
  else match tracked !! name with Some scalar => GlobalRepr scalar | None => None end.

(** Go's zero [Repr], what [GlobalRepr] gives next to a false flag. *)
Definition zeroRepr : Repr := mkRepr "" NotScalar None None.

Definition shapeRepr (c : ShapeClass) : Repr :=
  mkRepr (scName c) NotScalar None
    (Some (mkShape Repr (scName c) (map (fun f => mkShapeField Repr f.1 (default zeroRepr (GlobalRepr f.2))) (scFields c)))).

Definition TrackedShapes (cs : list ShapeClass) : gmap string Repr :=
  fold_left (fun out c => <[scName c := shapeRepr c]> out) cs ∅.

Definition ShapeResolverFor (tracked : gmap string Repr) (name : string) : option Repr :=
  if bool_decide (tracked = ∅) then None else tracked !! name.

(** ** The tables are canonical *)

Lemma GlobalRepr_canonical t r : GlobalRepr t = Some r -> canonical r.
Proof. unfold GlobalRepr. repeat case_match; intros; simplify_eq; constructor. Qed.

Lemma global_canonical locals tracked x r : GlobalResolverFor locals tracked x = Some r -> canonical r.
Proof. unfold GlobalResolverFor. repeat case_match; try done. apply GlobalRepr_canonical. Qed.

Lemma shapeRepr_canonical c : canonical (shapeRepr c).
Proof.
  apply canon_other; [done..|]. intros s n fr [= <-] Hf. unfold Field in Hf. simpl in Hf.
  induction (scFields c) as [|[x t] fs IH]; simpl in Hf; [done|].
  case_match; [|by apply IH]. injection Hf as <-. destruct (GlobalRepr t) eqn:E; simpl; [by eapply GlobalRepr_canonical|].
  by apply canon_other.
Qed.

Lemma shape_canonical cs x r : ShapeResolverFor (TrackedShapes cs) x = Some r -> canonical r.
Proof.
  unfold ShapeResolverFor, TrackedShapes. case_bool_decide; [done|].
  assert (forall m : gmap string Repr, (forall y q, m !! y = Some q -> canonical q) ->
    fold_left (fun out c => <[scName c := shapeRepr c]> out) cs m !! x = Some r -> canonical r) as Hf.
  { clear H. induction cs as [|c cs IH]; simpl; intros m Hm E; [by eapply Hm|]. refine (IH _ _ E).
    intros y q [[_ <-]|[_ Hq]]%lookup_insert_Some; [apply shapeRepr_canonical|by eapply Hm]. }
  apply Hf. intros y q E. by rewrite lookup_empty in E.
Qed.
