(* ===== verification/Resume.v ===== *)
(** * Resume: re-entering a counting loop at the failing iteration

    Model of src/pkg/build/resume.go: the shape of function whose loop may be
    resumed after a deopt, the boxed twin that resumes it, and the mark on the
    lowered loop.  The theorem compares the twin with a run of the function
    from the top, both in Python's own meaning of the tree (PyAst); the lemmas
    after it are functions of the shape on which the two differ. *)

From S2P Require Import Prelude Ast Int64 StaticOps GoSem Emit PySem EmitStmt Bridge PyAst.
Local Open Scope Z_scope.

(** ** The shape *)

Definition setLoopResume (handler acc : string) : list Stmt -> list Stmt :=
  fix go body :=
    match body with
    | [] => []
    | ForCount v start stop down b _ :: l => ForCount v start stop down b (Some (mkResume handler [acc])) :: l
    | s :: l => s :: go l
    end.

Record resumeShape := mkShape { loopVar : string; acc : string; twin : Ast.FuncDef }.

(** A top-level loop: target, iterable, body and else. *)
Record forLoop := mkLoop {
  lpTarget : Ast.Expr; lpIter : Ast.Expr; lpBody : list Ast.Stmt; lpElse : list Ast.Stmt; lpAsync : bool }.

(** The initialisers, the one loop and what trails it. *)
Fixpoint splitBody (body : list Ast.Stmt) (leads : list (string * Ast.Expr)) (loop : option forLoop)
    (tail : list Ast.Stmt) : option (list (string * Ast.Expr) * option forLoop * list Ast.Stmt) :=
  match body with
  | [] => Some (leads, loop, tail)
  | s :: body =>
      match s, loop with
      | Ast.Assign _ _, Some _ => splitBody body leads loop (tail ++ [s])
      | Ast.Assign [Ast.Name x] v, None => splitBody body (leads ++ [(x, v)]) loop tail
      | Ast.Assign _ _, None => None
      | Ast.For _ _ _ _ _, Some _ => None
      | Ast.For t i b e a, None => splitBody body leads (Some (mkLoop t i b e a)) tail
      | _, None => None
      | _, Some _ => splitBody body leads loop (tail ++ [s])
      end
  end.

Definition isIntLit (e : Ast.Expr) (text : string) : bool :=
  match (match e with Ast.UnaryOp Ast.UnaryPos x => x | _ => e end) with
  | Ast.IntLit t => String.eqb t text
  | _ => false
  end.

Definition simpleBound (e : Ast.Expr) : bool :=
  match e with Ast.IntLit _ | Ast.Name _ => true | _ => false end.

Definition ascendingRange (loop : forLoop) : option (string * Ast.Expr) :=
  match lpElse loop, lpTarget loop, lpIter loop with
  | [], Ast.Name x, Ast.Call (Ast.Name f) args =>
      if String.eqb f "range" && positional args then
        match map argValue args with
        | [stop] | [_; stop] => if simpleBound stop then Some (x, stop) else None
        | [_; stop; step] => if isIntLit step "1" && simpleBound stop then Some (x, stop) else None
        | _ => None
        end
      else None
  | _, _, _ => None
  end.

Definition overflowingOp (op : Ast.BinKind) : bool :=
  match op with
  | Ast.BinAdd | Ast.BinSub | Ast.BinMul | Ast.BinFloorDiv | Ast.BinPow | Ast.BinLShift => true
  | _ => false
  end.

Definition guardedAccumulator (s : Ast.Stmt) : option string :=
  match s with
  | Ast.AugAssign (Ast.Name x) op _ => if overflowingOp op then Some x else None
  | Ast.Assign [Ast.Name x] (Ast.BinOp op _ _) => if overflowingOp op then Some x else None
  | _ => None
  end.

Definition assignsName (leads : list (string * Ast.Expr)) (name : string) : bool :=
  existsb (fun p => String.eqb p.1 name) leads.

Definition paramNames (d : Ast.FuncDef) : list string := map Ast.paramName (Ast.fnParams d).

Section Within.
Context (allowed : string -> bool).

Fixpoint refsExprWithin (e : Ast.Expr) : bool :=
  match e with
  | Ast.Name x => allowed x
  | Ast.IntLit _ | Ast.FloatLit _ | Ast.BoolLit _ | Ast.StrLit _ => true
  | Ast.UnaryOp _ x => refsExprWithin x
  | Ast.BinOp _ l r => refsExprWithin l && refsExprWithin r
  | Ast.BoolOp _ vs => forallb refsExprWithin vs
  | Ast.Compare l _ rs => refsExprWithin l && forallb refsExprWithin rs
  | _ => false
  end.

Definition refsWithin (s : Ast.Stmt) : bool :=
  match s with
  | Ast.AugAssign _ _ v | Ast.Assign _ v => refsExprWithin v
  | _ => false
  end.

Definition tailWithin (tail : list Ast.Stmt) : bool :=
  match tail with
  | [] => true
  | [Ast.Return None] => true
  | [Ast.Return (Some e)] => refsExprWithin e
  | _ => false
  end.
End Within.

Definition synthResumeTwin (d : Ast.FuncDef) (x acc : string) (stop : Ast.Expr) (body : Ast.Stmt)
    (tail : list Ast.Stmt) : Ast.FuncDef :=
  let lead y := Ast.mkParam y Ast.ParamPlain None None in
  let range := Ast.Call (Ast.Name "range") [mkArg "" 0 (Ast.Name x); mkArg "" 0 stop] in
  Ast.mkFuncDef (Ast.fnName d) (lead x :: lead acc :: Ast.fnParams d) None
    (Ast.For (Ast.Name x) range [body] [] false :: tail) [] false.

Definition allowedNames (d : Ast.FuncDef) (x acc : string) (y : string) : bool :=
  bool_decide (y ∈ acc :: x :: paramNames d).

Definition resumeShapeFor (d : Ast.FuncDef) : option resumeShape :=
  match splitBody (Ast.fnBody d) [] None [] with
  | Some (leads, Some loop, tail) =>
      match ascendingRange loop, lpBody loop with
      | Some (x, stop), [s] =>
          acc ← guardedAccumulator s;
          let allowed := allowedNames d x acc in
          if assignsName leads acc && refsWithin allowed s && tailWithin allowed tail
          then Some (mkShape x acc (synthResumeTwin d x acc stop s tail)) else None
      | _, _ => None
      end
  | _ => None
  end.

(** ** The run the twin replaces *)

Section Run.
Context (callee : string -> list value -> value + pyexc).

Definition call (n : nat) (d : Ast.FuncDef) (args : list value) : option pres :=
  fExecs callee n (Ast.fnBody d) (pyBind (paramNames d) args ∅).

(** What a caller sees of a run: its locals are gone. *)
Definition seen (r : option pres) : option pres :=
  match r with Some (PNorm _) => Some (PNorm ∅) | r => r end.

(** [j] turns of a loop from the counter [i]. *)
Fixpoint turns (x : string) (body : Ast.Stmt) (i : Z) (j : nat) (sg : gmap string value) : option (gmap string value) :=
  match j with
  | O => Some sg
  | S j =>
      match fExec callee 0 body (<[x := VInt i]> sg) with
      | Some (PNorm sg) => turns x body (i + 1) j sg
      | _ => None
      end
  end.

Definition leadStmt (p : string * Ast.Expr) : Ast.Stmt := Ast.Assign [Ast.Name p.1] p.2.

(** Python's state at the top of turn [j] (from 0) of the loop of [d], when the
    run gets there: the counter and the accumulator, which a guard of that
    turn hands over. *)
Definition turnState (d : Ast.FuncDef) (sh : resumeShape) (args : list value) (j : nat) : option (Z * value) :=
  match splitBody (Ast.fnBody d) [] None [] with
  | Some (leads, Some (mkLoop _ (Ast.Call _ rargs) [s] _ _), _) =>
      match fExecs callee 0 (map leadStmt leads) (pyBind (paramNames d) args ∅) with
      | Some (PNorm sg) =>
          match fEvals callee sg (map argValue rargs) (fun vs => Some (PRet (VList vs))) with
          | Some (PRet (VList vs)) =>
              match rangeVals vs, turns (loopVar sh) s (match rangeVals vs with Some (i, _, _) => i | _ => 0 end) j sg with
              | Some (i, stop, _), Some sg =>
                  if i + Z.of_nat j <? stop then (fun a => (i + Z.of_nat j, a)) <$> sg !! acc sh else None
              | _, _ => None
              end
          | _ => None
          end
      | _ => None
      end
  | _ => None
  end.
End Run.

(** What the shape does not check: the loop is not async, the counter and the
    names assigned in front of the loop are no parameters and the counter is
    not the accumulator, and the stop bound is a literal or a parameter. *)
Definition restartable (d : Ast.FuncDef) (sh : resumeShape) : bool :=
  let param y := bool_decide (y ∈ paramNames d) in
  match splitBody (Ast.fnBody d) [] None [] with
  | Some (leads, Some loop, _) =>
      negb (lpAsync loop) && negb (param (loopVar sh)) && negb (String.eqb (loopVar sh) (acc sh)) &&
      forallb (fun p => negb (param p.1)) leads &&
      match ascendingRange loop with Some (_, Ast.IntLit _) => true | Some (_, Ast.Name y) => param y | _ => false end
  | _ => false
  end.

(** ** The parts of the body *)

Lemma split_tail l : forall leads lp tail r, splitBody l leads (Some lp) tail = Some r ->
  exists T, r = (leads, Some lp, tail ++ T) /\ l = T.
Proof.
  induction l as [|s l IH]; intros leads lp tail r E; simpl in E.
  - injection E as <-. exists []. by rewrite app_nil_r.
  - assert (splitBody l leads (Some lp) (tail ++ [s]) = Some r) as E' by (destruct s as [|[|[] []]| | | | | | | | | |]; done).
    apply IH in E' as (T & -> & ->). exists (s :: T). by rewrite <- app_assoc.
Qed.

Lemma split_leads l : forall leads L lp T, splitBody l leads None [] = Some (L, Some lp, T) ->
  exists K, L = leads ++ K /\
    l = map leadStmt K ++ Ast.For (lpTarget lp) (lpIter lp) (lpBody lp) (lpElse lp) (lpAsync lp) :: T.
Proof.
  induction l as [|s l IH]; intros leads L lp T E; [done|]. simpl in E.
  destruct s as [|ts v| | | | |t i b e a| | | | |]; try done.
  - destruct ts as [|[x| | | | | | | | | | | | | | | |] []]; try done.
    apply IH in E as (K & -> & ->). exists ((x, v) :: K). by rewrite <- app_assoc.
  - apply split_tail in E as (T' & E & ->). simplify_eq/=. exists []. by rewrite app_nil_r.
Qed.

(** ** States that agree on the allowed names *)

Section Agree.
Context (callee : string -> list value -> value + pyexc) (allowed : string -> bool).

Definition agree (sg sg' : gmap string value) : Prop := forall y, allowed y = true -> sg !! y = sg' !! y.

Lemma agree_insert x v sg sg' : agree sg sg' -> agree (<[x := v]> sg) (<[x := v]> sg').
Proof. intros H y Hy. destruct (decide (x = y)) as [->|]; simplify_map_eq; [done|by apply H]. Qed.

Lemma map_agree sg sg' l :
  Forall (fun e => refsExprWithin allowed e = true -> fEval callee sg e = fEval callee sg' e) l ->
  forallb (refsExprWithin allowed) l = true ->
  Forall2 (fun e e' : unit -> option pout => e tt = e' tt) (map (fun e (_ : unit) => fEval callee sg e) l)
    (map (fun e (_ : unit) => fEval callee sg' e) l).
Proof.
  intros H. induction H as [|e l He _ IH]; simpl; [by constructor|].
  intros [H1 H2]%andb_true_iff. constructor; [by apply He|by apply IH].
Qed.

Lemma conn_agree k l l' : Forall2 (fun e e' : unit -> option pout => e tt = e' tt) l l' ->
  forall v, connEval k v l = connEval k v l'.
Proof.
  induction 1 as [|e e' l l' He _ IH]; intros v; simpl; [done|]. rewrite He. destruct (truth v) as [b|]; [|done].
  destruct (match k with Ast.BoolAnd => b | Ast.BoolOr => negb b end); [|done].
  by destruct (e' tt) as [[]|]; simpl.
Qed.

Lemma chain_agree l l' : Forall2 (fun e e' : unit -> option pout => e tt = e' tt) l l' ->
  forall v ops, chainEval v ops l = chainEval v ops l'.
Proof.
  induction 1 as [|e e' l l' He Hl IH]; intros v [|k ops]; [done..|].
  destruct ops as [|k' ops]; simpl.
  - rewrite He. by destruct Hl.
  - rewrite He. destruct (pyCmpOp k) as [op|]; simpl; [|done].
    destruct (e' tt) as [[w| |]|]; simpl; try done. destruct (pyCmp op v w) as [[c| |]|]; simpl; try done.
    destruct (truth c) as [[]|]; [|done..]. apply (IH w (k' :: ops)).
Qed.

Lemma eval_agree sg sg' e : agree sg sg' -> refsExprWithin allowed e = true -> fEval callee sg e = fEval callee sg' e.
Proof.
  intros H. induction e using Ast.Expr_ind'; simpl; try done.
  - intros Hx. by rewrite (H x Hx).
  - intros [H1 H2]%andb_true_iff. destruct (pyOp op); simpl; [|done]. by rewrite IHe1, IHe2.
  - intros Hx. by rewrite IHe.
  - intros Hl. destruct l as [|e l]; [done|]. apply Forall_cons in H0 as [He Hf]. simpl in Hl.
    apply andb_true_iff in Hl as [H1 H2]. rewrite He by done. destruct (fEval callee sg' e) as [[v| |]|]; simpl; try done.
    by apply conn_agree, map_agree.
  - intros [H1 H2]%andb_true_iff. rewrite IHe by done. destruct (fEval callee sg' e) as [[v| |]|]; simpl; try done.
    by apply chain_agree, map_agree.
Qed.

Definition agreeRes (r r' : option pres) : Prop :=
  match r, r' with Some (PNorm sg), Some (PNorm sg') => agree sg sg' | _, _ => r = r' end.

(** The guarded update evaluates one expression over the allowed names. *)
Lemma update_spec s a : guardedAccumulator s = Some a -> allowed a = true -> refsWithin allowed s = true ->
  exists e, refsExprWithin allowed e = true /\
    forall n sg, fExec callee n s sg = withVal (fEval callee sg e) (fun v => Some (PNorm (<[a := v]> sg))).
Proof.
  destruct s as [|ts v|t op v| | | | | | | | |]; try done.
  - destruct ts as [|[x| | | | | | | | | | | | | | | |] []]; try done. destruct v; try done. simpl.
    destruct (overflowingOp op); [|done]. intros [= ->] Ha Hr. by eexists (Ast.BinOp _ _ _).
  - destruct t; try done. simpl. destruct (overflowingOp op); [|done]. intros [= ->] Ha Hr.
    exists (Ast.BinOp op (Ast.Name a) v). split; [|done]. simpl. by rewrite Ha.
Qed.

Lemma tail_agree n m tail r r' : tailWithin allowed tail = true -> agreeRes r r' ->
  seen (pseq r (fExecs callee n tail)) = seen (pseq r' (fExecs callee m tail)).
Proof.
  intros Ht H. assert (forall sg sg', agree sg sg' -> seen (fExecs callee n tail sg) = seen (fExecs callee m tail sg')) as Hg.
  { intros sg sg' Hs. destruct tail as [|[| | | | | | |[e|]| | | |] []]; try done. simpl in *.
    rewrite (eval_agree sg sg' e Hs Ht). by destruct (fEval callee sg' e) as [[]|]. }
  destruct r as [[]|], r' as [[]|]; simplify_eq/=; try done. by apply Hg.
Qed.

(** ** The loop *)

Section Loop.
Context (x a : string) (s : Ast.Stmt) (body : gmap string value -> option pres).
Context (Hs : guardedAccumulator s = Some a) (Ha : allowed a = true) (Hw : refsWithin allowed s = true).
Context (Hbody : forall sg, body sg = fExec callee 0 s sg).

Notation els := (fun sg : gmap string value => Some (PNorm sg)).

Lemma body_agree sg sg' : agree sg sg' -> agreeRes (body sg) (body sg').
Proof.
  intros H. destruct (update_spec s a Hs Ha Hw) as (e & He & Hx). rewrite !Hbody, !Hx, (eval_agree sg sg' e H He).
  destruct (fEval callee sg' e) as [[]|]; simpl; try done. by apply agree_insert.
Qed.

Lemma range_agree n : forall i stop sg sg', agree sg sg' ->
  agreeRes (fRange n x 1 body els i stop sg) (fRange n x 1 body els i stop sg').
Proof.
  induction n as [|n IH]; intros i stop sg sg' H; [done|]. simpl. destruct (i <? stop); [|done].
  pose proof (body_agree _ _ (agree_insert x (VInt i) _ _ H)) as Hb.
  destruct (update_spec s a Hs Ha Hw) as (e & He & Hx). rewrite Hbody in *. rewrite Hbody in *. rewrite !Hx in *.
  destruct (fEval callee (<[x:=VInt i]> sg) e) as [[]|], (fEval callee (<[x:=VInt i]> sg') e) as [[]|]; simplify_eq/=; try done.
  by apply IH.
Qed.

Lemma range_turns n j : forall i stop sg sg', turns callee x s i j sg = Some sg' -> i + Z.of_nat j < stop ->
  fRange (j + n) x 1 body els i stop sg = fRange n x 1 body els (i + Z.of_nat j) stop sg'.
Proof.
  induction j as [|j IH]; intros i stop sg sg' E Hj.
  - injection E as ->. by rewrite Z.add_0_r.
  - simpl in *. destruct (Z.ltb_spec i stop); [|lia]. rewrite Hbody.
    destruct (fExec callee 0 s _) as [[]|]; try done. rewrite (IH _ _ _ _ E) by lia. f_equal. lia.
Qed.

(** The turns touch the counter and the accumulator. *)
Lemma turns_frame j : forall i sg sg' y, turns callee x s i j sg = Some sg' -> y <> x -> y <> a -> sg' !! y = sg !! y.
Proof.
  induction j as [|j IH]; intros i sg sg' y E Hx Hy; simpl in E; [by injection E as ->|].
  destruct (update_spec s a Hs Ha Hw) as (e & _ & He). rewrite He in E.
  destruct (fEval callee _ e) as [[v| |]|]; simpl in E; try done. rewrite (IH _ _ _ _ E Hx Hy). by simplify_map_eq.
Qed.
End Loop.
End Agree.

(** ** The run of the function *)

Section Twin.
Context (callee : string -> list value -> value + pyexc).

Lemma fexecs_app n l k sg : fExecs callee n (l ++ k) sg =
  pseq (fExecs callee n l sg) (fExecs callee n k).
Proof. revert sg. induction l as [|s l IH]; intros sg; simpl; [done|]. by destruct (fExec callee n s sg) as [[]|]. Qed.

Lemma fexecs_cons n s l sg : fExecs callee n (s :: l) sg =
  pseq (fExec callee n s sg) (fExecs callee n l).
Proof. simpl. by destruct (fExec callee n s sg) as [[]|]. Qed.

Lemma lead_exec n p sg : fExec callee n (leadStmt p) sg =
  withVal (fEval callee sg p.2) (fun v => Some (PNorm (<[p.1 := v]> sg))).
Proof. destruct p as [x e]. unfold leadStmt. simpl. by destruct e. Qed.

Lemma leads_fuel n leads sg : fExecs callee n (map leadStmt leads) sg = fExecs callee 0 (map leadStmt leads) sg.
Proof.
  revert sg. induction leads as [|p l IH]; intros sg; simpl map; [done|].
  rewrite !fexecs_cons, !lead_exec. destruct (fEval callee sg p.2) as [[]|]; simpl; done.
Qed.

Lemma leads_frame leads y : existsb (fun p => String.eqb p.1 y) leads = false -> forall sg sg',
  fExecs callee 0 (map leadStmt leads) sg = Some (PNorm sg') -> sg' !! y = sg !! y.
Proof.
  induction leads as [|p l IH]; intros Hy sg sg' E; simpl map in E; [by injection E as <-|].
  rewrite fexecs_cons, lead_exec in E. simpl in Hy. apply orb_false_iff in Hy as [Hp Hl]. apply String.eqb_neq in Hp.
  destruct (fEval callee sg p.2) as [[v| |]|]; simpl in E; try done. rewrite (IH Hl _ _ E). by simplify_map_eq.
Qed.

Lemma evals_cons sg e l (k : list value -> option pout) vs :
  fEvals callee sg (e :: l) k = Some (PRet (VList vs)) ->
  exists v, fEval callee sg e = Some (PRet v) /\ fEvals callee sg l (fun vs => k (v :: vs)) = Some (PRet (VList vs)).
Proof. simpl. destruct (fEval callee sg e) as [[v| |]|]; simpl; try done. by exists v. Qed.

Lemma one_eval sg e v : isIntLit e "1" = true -> fEval callee sg e = Some (PRet v) -> v = VInt 1.
Proof.
  unfold isIntLit. destruct e as [| t| | | | | | |op x| | | | | | | |]; try done; [|destruct op, x; try done];
    intros Ht%String.eqb_eq; subst; simpl; by intros [= <-].
Qed.

Local Ltac intZ H :=
  repeat match type of H with context [asZ ?v] => destruct (asZ v) as [?|] eqn:?; simpl in H; [|done] end;
  simplify_eq/=; eauto.

(** The arguments of the loop's range: the step is one. *)
Lemma range_values lp x stop rargs sg vs i z st : ascendingRange lp = Some (x, stop) ->
  (exists f, lpIter lp = Ast.Call f rargs) ->
  fEvals callee sg (map argValue rargs) (fun vs => Some (PRet (VList vs))) = Some (PRet (VList vs)) ->
  rangeVals vs = Some (i, z, st) ->
  st = 1 /\ simpleBound stop = true /\ exists v, fEval callee sg stop = Some (PRet v) /\ asZ v = Some z.
Proof.
  unfold ascendingRange. intros Hr [f Hi] E Hv. rewrite Hi in Hr.
  destruct (lpElse lp); [|done]. destruct (lpTarget lp); try done. destruct f; try done.
  destruct (String.eqb _ _ && _); [|done].
  destruct (map argValue rargs) as [|e1 [|e2 [|e3 []]]]; try done;
    repeat (apply evals_cons in E as (? & ? & E)); simpl in E; simplify_eq; unfold rangeVals in Hv; simpl in Hv.
  - destruct (simpleBound e1) eqn:Eb; [|done]. simplify_eq. intZ Hv.
  - destruct (simpleBound e2) eqn:Eb; [|done]. simplify_eq. intZ Hv.
  - destruct (isIntLit e3 "1") eqn:Es; [|done]. simpl in Hr. destruct (simpleBound e2) eqn:Eb; [|done]. simplify_eq.
    match goal with H : fEval callee sg e3 = _ |- _ => pose proof (one_eval _ _ _ Es H); subst end.
    intZ Hv.
Qed.

Lemma bind_same ps : forall args base base' y,
  base !! y = base' !! y -> pyBind ps args base !! y = pyBind ps args base' !! y.
Proof.
  induction ps as [|p ps IH]; intros [|v args] base base' y H; simpl; try done. apply IH.
  destruct (decide (p = y)) as [->|]; by simplify_map_eq.
Qed.

Lemma bind_other ps : forall args base y, y ∉ ps -> pyBind ps args base !! y = base !! y.
Proof.
  induction ps as [|p ps IH]; intros [|v args] base y H; simpl; try done. rewrite IH by set_solver.
  by rewrite lookup_insert_ne by set_solver.
Qed.

(** The twin's entry state and the loop's agree on what the twin reads. *)
Lemma entry_agree d x a i av args sg : x ∉ paramNames d -> a ∉ paramNames d -> x <> a -> sg !! a = Some av ->
  (forall y, y ∈ paramNames d -> sg !! y = pyBind (paramNames d) args ∅ !! y) ->
  agree (allowedNames d x a) (<[x := VInt i]> sg) (pyBind (x :: a :: paramNames d) (VInt i :: av :: args) ∅).
Proof.
  intros Hx Ha Hxa Hav Hps y Hy%bool_decide_eq_true. simpl. apply elem_of_cons in Hy as [->|[->|Hy]%elem_of_cons].
  - rewrite bind_other by done. by simplify_map_eq.
  - rewrite bind_other by done. by simplify_map_eq.
  - rewrite lookup_insert_ne by set_solver. rewrite (Hps y Hy). apply bind_same.
    by rewrite !lookup_insert_ne by set_solver.
Qed.

Lemma range_reenter n x body els i stop sg : i < stop ->
  fRange n x 1 body els i stop (<[x := VInt i]> sg) = fRange n x 1 body els i stop sg.
Proof. intros H. destruct n; [done|]. simpl. destruct (Z.ltb_spec i stop); [|lia]. by rewrite insert_insert_eq. Qed.

(** What a resumable shape is made of. *)
Lemma shape_inv d sh : resumeShapeFor d = Some sh -> restartable d sh = true ->
  exists leads it T s stop (lp := mkLoop (Ast.Name (loopVar sh)) it [s] [] false),
    splitBody (Ast.fnBody d) [] None [] = Some (leads, Some lp, T) /\ ascendingRange lp = Some (loopVar sh, stop) /\
    guardedAccumulator s = Some (acc sh) /\ refsWithin (allowedNames d (loopVar sh) (acc sh)) s = true /\
    tailWithin (allowedNames d (loopVar sh) (acc sh)) T = true /\
    twin sh = synthResumeTwin d (loopVar sh) (acc sh) stop s T /\
    loopVar sh ∉ paramNames d /\ acc sh ∉ paramNames d /\ loopVar sh <> acc sh /\
    (forall y, y ∈ paramNames d -> assignsName leads y = false) /\
    (forall y, stop = Ast.Name y -> y ∈ paramNames d).
Proof.
  unfold resumeShapeFor, restartable. destruct (splitBody _ _ _ _) as [[[leads [lp|]] T]|]; [|done..].
  destruct (ascendingRange lp) as [[x stop]|] eqn:Er; [|done]. destruct (lpBody lp) as [|s []] eqn:Eb; [done| |done].
  destruct (guardedAccumulator s) as [a|] eqn:Ea; [|done]. simpl.
  destruct (assignsName leads a && _ && _) eqn:Ew; [|done]. intros [= <-]. simpl.
  apply andb_true_iff in Ew as [[Hl Hw]%andb_true_iff Ht]. rewrite !andb_true_iff, !negb_true_iff.
  intros [[[[Hs Hx] Hxa] Hps] Hst]. exists leads, (lpIter lp), T, s, stop. apply bool_decide_eq_false in Hx. apply String.eqb_neq in Hxa.
  rewrite forallb_forall in Hps.
  assert (forall y, y ∈ paramNames d -> assignsName leads y = false) as Hpl.
  { intros y Hy. destruct (assignsName leads y) eqn:E; [|done]. apply existsb_exists in E as (p & Hp & Hn%String.eqb_eq).
    apply Hps, negb_true_iff, bool_decide_eq_false in Hp. by subst. }
  assert (lp = mkLoop (Ast.Name x) (lpIter lp) [s] [] false) as <-.
  { unfold ascendingRange in Er. destruct lp as [t it b e ac]. simpl in *. subst.
    destruct e; [|done]. destruct t; try done. repeat case_match; by simplify_eq. }
  split_and!; try done.
  - intros Ha. by rewrite (Hpl _ Ha) in Hl.
  - intros y ->. by apply bool_decide_eq_true in Hst.
Qed.

Lemma range_ext n x body body' els els' : (forall sg, body sg = body' sg) -> (forall sg, els sg = els' sg) ->
  forall i z sg, fRange n x 1 body els i z sg = fRange n x 1 body' els' i z sg.
Proof.
  intros Hb He. induction n as [|n IH]; intros i z sg; [done|]. simpl. destruct (i <? z); [|done].
  rewrite Hb. destruct (body' _) as [[]|]; done.
Qed.

(** The loop statement with its one guarded update. *)
Lemma for_exec n x rargs s a allowed sg vs i z : positional rargs = true ->
  guardedAccumulator s = Some a -> allowed a = true -> refsWithin allowed s = true ->
  fEvals callee sg (map argValue rargs) (fun vs => Some (PRet (VList vs))) = Some (PRet (VList vs)) ->
  rangeVals vs = Some (i, z, 1) ->
  fExec callee n (Ast.For (Ast.Name x) (Ast.Call (Ast.Name "range") rargs) [s] [] false) sg =
  fRange n x 1 (fExec callee 0 s) (fun sg => Some (PNorm sg)) i z sg.
Proof.
  intros Hp Hs Ha Hw Hv Hr. destruct (update_spec callee allowed s a Hs Ha Hw) as (e & _ & Hx). simpl. rewrite Hp.
  unfold fVals. rewrite Hv. simpl. rewrite Hr. apply range_ext; [|done]. intros sg'. rewrite !Hx.
  by destruct (fEval callee sg' e) as [[]|].
Qed.

Lemma ascending_positional x rargs b a stop f :
  ascendingRange (mkLoop (Ast.Name x) (Ast.Call f rargs) b [] a) = Some (x, stop) ->
  f = Ast.Name "range" /\ positional rargs = true.
Proof.
  unfold ascendingRange. simpl. destruct f; try done. destruct (String.eqb_spec id "range") as [->|]; [|done].
  by destruct (positional rargs).
Qed.

(** The loop from the top and the twin's loop from turn [j]. *)
Lemma loop_resumes al x a s stop rargs vs i0 z v j n sg1 sgj sgt T : let i := i0 + Z.of_nat j in
  guardedAccumulator s = Some a -> al a = true -> al x = true -> refsWithin al s = true -> tailWithin al T = true ->
  positional rargs = true ->
  fEvals callee sg1 (map argValue rargs) (fun vs => Some (PRet (VList vs))) = Some (PRet (VList vs)) ->
  rangeVals vs = Some (i0, z, 1) -> turns callee x s i0 j sg1 = Some sgj -> i < z ->
  agree al (<[x := VInt i]> sgj) sgt -> fEval callee sgt stop = Some (PRet v) -> asZ v = Some z ->
  let loop rargs := Ast.For (Ast.Name x) (Ast.Call (Ast.Name "range") rargs) [s] [] false in
  seen (fExecs callee n (loop [mkArg "" 0 (Ast.Name x); mkArg "" 0 stop] :: T) sgt) =
  seen (fExecs callee (j + n) (loop rargs :: T) sg1).
Proof.
  intros i Ea Hal Hx Hw Ht Hpos Ev Erv Et Hlt Hag Hv Hz loop. rewrite !fexecs_cons. apply (tail_agree _ al); [done|].
  unfold loop. rewrite (for_exec n x _ s a al sgt [VInt i; v] i z), (for_exec (j + n) x rargs s a al sg1 vs i0 z); try done.
  - rewrite (range_turns callee x s (fExec callee 0 s) (fun _ => eq_refl) n j i0 z sg1 sgj Et Hlt).
    rewrite <- (range_reenter n x _ _ i z sgj Hlt).
    assert (agree al sgt (<[x := VInt i]> sgj)) as Hag' by (intros y Hy; by rewrite (Hag y Hy)).
    by apply (range_agree callee al x a s).
  - simpl. assert (sgt !! x = Some (VInt i)) as -> by (rewrite <- (Hag x Hx); by simplify_map_eq). simpl. by rewrite Hv.
  - unfold rangeVals. simpl. by rewrite Hz.
Qed.

(** C12: resuming a loop is replaying it.  For a function of the resumable shape
    whose bound and parameters the twin can restate, take any turn of its
    counting loop that Python's run from the top reaches, with counter [i] and
    accumulator [a].  The boxed twin called with [i], [a] and the entry
    arguments, on the fuel that is left, gives the caller exactly what the run
    from the top gives: the same value, the same exception, or no end. *)
Theorem twin_resumes d sh args j i a n :
  resumeShapeFor d = Some sh -> restartable d sh = true -> turnState callee d sh args j = Some (i, a) ->
  seen (call callee n (twin sh) (VInt i :: a :: args)) = seen (call callee (j + n) d args).
Proof.
  intros Hsh Hre Hst. destruct (shape_inv d sh Hsh Hre)
    as (leads & it & T & s & stop & Esp & Er & Ea & Hw & Ht & Etw & Hx & Hac & Hxa & Hpl & Hb).
  unfold turnState in Hst. rewrite Esp in Hst.
  destruct (split_leads _ _ _ _ _ Esp) as (K & EK & Ed). simpl in EK. subst K.
  destruct it as [| | | | | | | | | | |f rargs| | | | |]; try done.
  destruct (fExecs callee 0 _ _) as [[sg1| | | | |]|] eqn:Eld; try done.
  destruct (fEvals _ _ _ _) as [[[| | | |vs| | |]| |]|] eqn:Ev; try done.
  destruct (rangeVals vs) as [[[i0 z] st]|] eqn:Erv; [|done].
  destruct (turns _ _ _ _ _ _) as [sgj|] eqn:Et; [|done].
  destruct (Z.ltb_spec (i0 + Z.of_nat j) z) as [Hlt|]; [|done].
  destruct (sgj !! acc sh) as [av|] eqn:Eav; [|done]. simpl in Hst. injection Hst as <- <-.
  destruct (range_values _ _ _ _ _ _ _ _ _ Er ltac:(by eexists) Ev Erv) as (-> & Hsim & v & Hv & Hz).
  destruct (ascending_positional _ _ _ _ _ _ Er) as [-> Hpos].
  set (al := allowedNames d (loopVar sh) (acc sh)) in *.
  assert (al (acc sh) = true) as Hal by (apply bool_decide_true; set_solver).
  assert (forall y, y ∈ paramNames d -> sgj !! y = pyBind (paramNames d) args ∅ !! y) as Hfr.
  { intros y Hy. rewrite (turns_frame callee al _ _ s Ea Hal Hw _ _ _ _ _ Et) by set_solver.
    by eapply leads_frame; [apply Hpl|]. }
  set (sgt := pyBind (paramNames (twin sh)) (VInt (i0 + Z.of_nat j) :: av :: args) ∅).
  assert (agree al (<[loopVar sh := VInt (i0 + Z.of_nat j)]> sgj) sgt) as Hag.
  { unfold sgt. rewrite Etw. by apply entry_agree. }
  assert (fEval callee sgt stop = Some (PRet v)) as Hvt.
  { rewrite <- Hv. destruct stop as [y| | | | | | | | | | | | | | | |]; try done. specialize (Hb y eq_refl). simpl.
    rewrite <- Hag by (apply bool_decide_true; set_solver). rewrite lookup_insert_ne by set_solver.
    by rewrite Hfr, (leads_frame _ _ (Hpl y Hb) _ _ Eld). }
  unfold call. fold sgt. rewrite Ed, fexecs_app, leads_fuel, Eld, Etw.
  apply (loop_resumes al _ (acc sh) s stop rargs vs i0 z v j n sg1 sgj sgt T); try done. apply bool_decide_true. set_solver.
Qed.
End Twin.

(** ** A power by repeated multiplication *)

(** [def f(k: int) -> int: s = 1; for i in range(k): s = s * k; return s] *)
Definition powers : Ast.FuncDef :=
  Ast.mkFuncDef "f" [Ast.mkParam "k" Ast.ParamPlain (Some (Ast.Name "int")) None] (Some (Ast.Name "int"))
    [Ast.Assign [Ast.Name "s"] (Ast.IntLit "1");
     Ast.For (Ast.Name "i") (Ast.Call (Ast.Name "range") [mkArg "" 0 (Ast.Name "k")])
       [Ast.Assign [Ast.Name "s"] (Ast.BinOp Ast.BinMul (Ast.Name "s") (Ast.Name "k"))] [] false;
     Ast.Return (Some (Ast.Name "s"))] [] false.

(** No module functions. *)
Definition noCallee (f : string) (_ : list value) : value + pyexc := inr (mkExc "NameError" f).

Definition powersShape : resumeShape := default (mkShape "" "" powers) (resumeShapeFor powers).

(** 20 ** 20 leaves int64 in turn 14; the twin goes on from there. *)
Lemma twin_resumes_witness : turnState noCallee powers powersShape [VInt 20] 14 = Some (14, VInt (20 ^ 14)) /\
  seen (call noCallee 10 (twin powersShape) [VInt 14; VInt (20 ^ 14); VInt 20]) = Some (PDone (VInt (20 ^ 20))).
Proof.
  split; [vm_compute; reflexivity|].
  rewrite (twin_resumes noCallee powers powersShape [VInt 20] 14 14 (VInt (20 ^ 14)) 10);
    vm_compute; reflexivity.
Defined.
