(* ===== verification/Plan.v ===== *)
(** * Plan: the static plan of a module

    Model of src/pkg/build/static.go: which units of a decided module get a
    static form, the Go names they get, the resolvers their calls and driven
    generators lower against, the deopt targets that also earn an entry shim,
    the entries of the boxed lowering and the forms of the static file.  The
    tables of tracked globals and shape classes are parameters, as in
    Driver.v; a Go map used as a set is a [gset]. *)

From S2P Require Import Prelude Ast Int64 StaticOps GoSem Emit IrCost Bridge Gen GenBridge Evidence Rules Census Guards Deopt GuardSites Decide Tree Driver Resume.
Local Open Scope Z_scope.

(** ** Names *)

Definition cutPrefix (p s : string) : option string :=
  if String.prefix p s then Some (substring (String.length p) (String.length s - String.length p) s) else None.

Fixpoint hasDot (s : string) : bool :=
  match s with EmptyString => false | String c s => Ascii.eqb c "." || hasDot s end.

Definition topLevelName (qual : string) : option string :=
  match cutPrefix (ModuleUnitName +:+ ".") qual with
  | Some bare => if hasDot bare then None else Some bare
  | None => None
  end.

(** A byte of a Go identifier; a rune outside of it becomes an underscore, at
    its first byte (the text is valid UTF-8). *)
Definition identByte (c : ascii) : bool :=
  let n := Ascii.N_of_ascii c in
  Ascii.eqb c "_" || ((97 <=? n) && (n <=? 122))%N || ((65 <=? n) && (n <=? 90))%N || ((48 <=? n) && (n <=? 57))%N.

Definition continuation (c : ascii) : bool := let n := Ascii.N_of_ascii c in ((128 <=? n) && (n <? 192))%N.

Fixpoint mangle (s : string) : string :=
  match s with
  | EmptyString => EmptyString
  | String c s => if identByte c then String c (mangle s) else if continuation c then mangle s else String "_" (mangle s)
  end.

Definition nameBase (qual : string) : string := "static" +:+ mangle (default qual (cutPrefix ModuleUnitName qual)).

(** The numbered names, until one is not taken; [None] is fuel that ran out. *)
Fixpoint suffixLoop (fuel : nat) (n : nat) (base name : string) (seen : gset string) : option string :=
  match fuel with
  | O => None
  | S fuel => if bool_decide (name ∈ seen) then suffixLoop fuel (S n) base (base +:+ "_" +:+ itoaN n) seen else Some name
  end.

Definition staticName (qual : string) (seen : gset string) : option (string * gset string) :=
  let base := nameBase qual in
  (fun name => (name, {[name]} ∪ seen)) <$> suffixLoop (S (size seen)) 2 base base seen.

(** ** Functions *)

Notation qualFunc := (string * Ast.FuncDef)%type.

Fixpoint collectFuncs (prefix : string) (s : XStmt) : list qualFunc :=
  let walk prefix (l : list XStmt) := concat (map (collectFuncs prefix) l) in
  match s with
  | SFuncDef d => let q := child prefix (xfName d) in (q, eraseDef d) :: walk q (xfBody d)
  | SClassDef _ n _ _ _ b => walk (child prefix n) b
  | SIf _ b e | SWhile _ b e | SFor _ _ b e _ => walk prefix b ++ walk prefix e
  | SWith _ b => walk prefix b
  | STry b hs o f => walk prefix b ++ concat (map (fun h => walk prefix h.2) hs) ++ walk prefix o ++ walk prefix f
  | SMatch _ cs => concat (map (fun c => walk prefix c.2) cs)
  | _ => []
  end.

Definition moduleFuncs (body : list XStmt) : list qualFunc := concat (map (collectFuncs ModuleUnitName) body).

(** ** Entry shims *)

Inductive StaticScalar := StaticNone | StaticInt | StaticFloat | StaticBool | StaticStr.
Record StaticShape := mkStaticShape { ssName : string; ssFields : list (string * StaticScalar) }.
Record StaticParam := mkStaticParam { spScalar : StaticScalar; spShape : option StaticShape }.
Record ResumePlan := mkResumePlan {
  rsHandler : string; rsTwinName : string; rsTwin : Ast.FuncDef; rsLead : list StaticScalar }.
Record StaticEntry := mkEntry {
  seStatic : string; seParams : list StaticParam; seRet : StaticScalar; seDeopt : bool; seResume : option ResumePlan }.

Definition shimScalar (s : Scalar) : option StaticScalar :=
  match s with
  | SInt => Some StaticInt | SFloat => Some StaticFloat | SBool => Some StaticBool | SStr => Some StaticStr
  | NotScalar => None
  end.

Definition shimShape (sh : Shape Repr) : option StaticShape :=
  mkStaticShape (shName Repr sh) <$>
    mapM (fun f => (fun s => (sfName Repr f, s)) <$> shimScalar (RScalar (sfRepr Repr f))) (shFields Repr sh).

Definition shimParam (r : Repr) : option StaticParam :=
  match RShape r with
  | Some sh => (fun s => mkStaticParam StaticNone (Some s)) <$> shimShape sh
  | None => (fun s => mkStaticParam s None) <$> shimScalar (RScalar r)
  end.

Definition shimEntry (sc : StaticCallee) (static : string) : option StaticEntry :=
  params ← mapM shimParam (CParams sc);
  ret ← shimScalar (RScalar (CRet sc));
  Some (mkEntry static params ret false None).

(** ** The plan *)

Record staticPlan := mkPlan {
  plFuncs : list qualFunc;
  plFree : gset string;
  plDeopt : gset string;
  plNames : gmap string string;
  plResolve : gmap string StaticCallee;
  plResume : gmap string resumeShape;
  plGens : string -> option StaticGenerator
}.

(** The units of a decision set: guard-free, and deopt targets with their
    sites. *)
Definition freeUnits (ds : list Decision) : gset string :=
  list_to_set (map (fun d => uName (dUnit d)) (List.filter free ds)).

Definition deoptTarget (d : Decision) : bool := IsStatic (dState d) && negb (free d).

Definition deoptUnits (ds : list Decision) : gmap string (list DeoptSite) :=
  fold_left (fun m d => if deoptTarget d then <[uName (dUnit d) := dDeopts d]> m else m) ds ∅.

(** The names in source order. *)
Fixpoint planNames (planned : string -> bool) (funcs : list qualFunc) (names : gmap string string) (seen : gset string) :
    option (gmap string string) :=
  match funcs with
  | [] => Some names
  | qf :: funcs =>
      if planned qf.1 then
        match staticName qf.1 seen with
        | Some (name, seen) => planNames planned funcs (<[qf.1 := name]> names) seen
        | None => None
        end
      else planNames planned funcs names seen
  end.

Section Plan.
Context (body : list XStmt).
Context (globalsFor : Ast.FuncDef -> string -> option Repr) (shapesFor : string -> option Repr).

Notation resolver := (gmap string StaticCallee).

Definition nameOfUnit (names : gmap string string) (qual : string) : string := default "" (names !! qual).

(** A unit not in [names] has the empty name, which drops it. *)
Definition planGens (names : gmap string string) (x : string) : option StaticGenerator :=
  GeneratorResolverFor (map eraseDef (topDefs body)) (fun y => nameOfUnit names (child ModuleUnitName y)) x.

Definition seedCallee (staticFree : gset string) (names : gmap string string) (callees : resolver) (qf : qualFunc) : resolver :=
  if bool_decide (qf.1 ∈ staticFree) then
    match topLevelName qf.1, SignatureFromDef qf.2 (nameOfUnit names qf.1) with
    | Some bare, Some sig => <[bare := sig]> callees
    | _, _ => callees
    end
  else callees.

Definition growCallee (staticFree : gset string) (names : gmap string string) (gens : string -> option StaticGenerator)
    (callees : resolver) (qf : qualFunc) : resolver :=
  if bool_decide (qf.1 ∈ staticFree) then
    match topLevelName qf.1 with
    | Some bare =>
        match callees !! bare with
        | Some _ => callees
        | None =>
            match LowerFuncGen qf.2 (callees !!.) (globalsFor qf.2) shapesFor gens with
            | Some f => <[bare := SignatureOf f (nameOfUnit names qf.1)]> callees
            | None => callees
            end
        end
    | None => callees
    end
  else callees.

(** Passes until one adds nothing. *)
Fixpoint growPasses (fuel : nat) (pass : resolver -> resolver) (callees : resolver) : option resolver :=
  match fuel with
  | O => None
  | S fuel =>
      let next := pass callees in
      if Nat.eqb (size next) (size callees) then Some next else growPasses fuel pass next
  end.

Definition staticResolver (funcs : list qualFunc) (staticFree : gset string) (names : gmap string string)
    (gens : string -> option StaticGenerator) : option resolver :=
  growPasses (S (length funcs)) (fun callees => fold_left (growCallee staticFree names gens) funcs callees)
    (fold_left (seedCallee staticFree names) funcs ∅).

(** [ir.LowerFuncGen] against the plan's resolvers. *)
Definition planLower (resolve : resolver) (gens : string -> option StaticGenerator) (fn : Ast.FuncDef) : option Func :=
  LowerFuncGen fn (resolve !!.) (globalsFor fn) shapesFor gens.

Definition shimEntryFor (names : gmap string string) (resolve : resolver) (gens : string -> option StaticGenerator)
    (qf : qualFunc) : option StaticEntry :=
  f ← planLower resolve gens qf.2;
  shimEntry (SignatureOf f (nameOfUnit names qf.1)) (nameOfUnit names qf.1).

(** A deopt target that gets a form: top-level, its sites verified, and a
    signature the shim can cross. *)
Definition earnsForm (targets : gmap string (list DeoptSite)) (names : gmap string string) (resolve : resolver)
    (gens : string -> option StaticGenerator) (qf : qualFunc) : bool :=
  match targets !! qf.1, topLevelName qf.1 with
  | Some sites, Some _ =>
      match VerifyPlan sites with
      | [] => match shimEntryFor names resolve gens qf with Some _ => true | None => false end
      | _ => false
      end
  | _, _ => false
  end.

Definition resumeStep (earned : qualFunc -> bool) (m : gmap string resumeShape) (qf : qualFunc) : gmap string resumeShape :=
  if earned qf then match resumeShapeFor qf.2 with Some sh => <[qf.1 := sh]> m | None => m end else m.

(** The outer [None] is fuel that ran out, the inner one the nil plan. *)
Definition planStatic (ds : list Decision) : option (option staticPlan) :=
  let staticFree := freeUnits ds in
  let targets := deoptUnits ds in
  if bool_decide (staticFree = ∅) && bool_decide (targets = ∅) then Some None
  else
    let funcs := moduleFuncs body in
    names ← planNames (fun q => bool_decide (q ∈ staticFree) || bool_decide (is_Some (targets !! q))) funcs ∅ ∅;
    let gens := planGens names in
    resolve ← staticResolver funcs staticFree names gens;
    let earned := earnsForm targets names resolve gens in
    Some (Some (mkPlan funcs staticFree (list_to_set (map fst (List.filter earned funcs))) names resolve
      (fold_left (resumeStep earned) funcs ∅) gens)).

(** ** What the plan emits *)

(** Units that get a form. *)
Definition emitted (pl : staticPlan) (q : string) : bool := bool_decide (q ∈ plFree pl) || bool_decide (q ∈ plDeopt pl).

Definition entryFor (pl : staticPlan) (qf : qualFunc) : option (string * StaticEntry) :=
  if emitted pl qf.1 then
    bare ← topLevelName qf.1;
    e ← shimEntryFor (plNames pl) (plResolve pl) (plGens pl) qf;
    let name := nameOfUnit (plNames pl) qf.1 in
    let resume := (fun sh => mkResumePlan (name +:+ "_resume") (name +:+ "_resume_twin") (twin sh) [StaticInt; StaticInt])
      <$> plResume pl !! qf.1 in
    Some (bare, mkEntry (seStatic e) (seParams e) (seRet e) (bool_decide (qf.1 ∈ plDeopt pl)) resume)
  else None.

Definition staticEntries (pl : staticPlan) : gmap string StaticEntry :=
  fold_left (fun m qf => match entryFor pl qf with Some (bare, e) => <[bare := e]> m | None => m end) (plFuncs pl) ∅.

Inductive buildError := ErrNotLowered (qual : string) | ErrNotEmitted (qual : string).

(** One form of the static file: a function, or a generator's state machine. *)
Inductive form := FormFunc (f : goFunc) | FormGen (g : list (string * gexpr) * list (list mstmt)).

Definition renameGen (name : string) (gen : Generator) : Generator :=
  mkGenerator name (GElem gen) (GFields gen) (Segments gen) (Trailer gen) (GDeopt gen).

Definition generatorForm (qf : qualFunc) (static : string) : form + buildError :=
  match LowerGenerator qf.2 with
  | None => inr (ErrNotLowered qf.1)
  | Some gen =>
      match EmitGenerator (renameGen static (setDeopt gen)) with
      | inl g => inl (FormGen g)
      | inr _ => inr (ErrNotEmitted qf.1)
      end
  end.

(** The lowered function under its Go name, with its hand-offs. *)
Definition unitFunc (pl : staticPlan) (q : string) (f : Func) : Func :=
  let name := nameOfUnit (plNames pl) q in
  if bool_decide (q ∈ plDeopt pl) then
    mkFunc name (Params f) (FRet f)
      (match plResume pl !! q with Some sh => setLoopResume (name +:+ "_resume") (acc sh) (Body f) | None => Body f end)
      (name +:+ "_deopt") (BindingGuards f)
  else mkFunc name (Params f) (FRet f) (Body f) (DeoptHandler f) (BindingGuards f).

Definition unitForm (pl : staticPlan) (qf : qualFunc) : form + buildError :=
  if IsGenerator qf.2 then generatorForm qf (nameOfUnit (plNames pl) qf.1)
  else
    match planLower (plResolve pl) (plGens pl) qf.2 with
    | None => inr (ErrNotLowered qf.1)
    | Some f =>
        match EmitFunc (unitFunc pl qf.1 f) with
        | inl g => inl (FormFunc g)
        | inr _ => inr (ErrNotEmitted qf.1)
        end
    end.

(** The forms in source order, or the first error. *)
Fixpoint formsOf (pl : staticPlan) (funcs : list qualFunc) : list form + buildError :=
  match funcs with
  | [] => inl []
  | qf :: funcs =>
      if emitted pl qf.1 then
        match unitForm pl qf with
        | inl f => match formsOf pl funcs with inl fs => inl (f :: fs) | inr e => inr e end
        | inr e => inr e
        end
      else formsOf pl funcs
  end.

Definition staticForms (pl : staticPlan) : list form + buildError := formsOf pl (plFuncs pl).
End Plan.
