(* ===== verification/PlanSound.v ===== *)
(** * PlanSound: the plan agrees with the decisions

    Theorems about Plan.v.  The emitted names are pairwise different; the
    resolver the build lowers against settles and holds, under the emitted
    names, every callee the driver decided with; so every unit decided static
    lowers again in the build, to the same code calling the emitted names.
    The last section has the modules on which the plan and the decisions, or
    the plan and Python, part. *)

From S2P Require Import Prelude Ast Int64 StaticOps GoSem Emit EmitEnv IrCost PySem EmitStmt Bridge PyAst Gen GenBridge Evidence Rules Census Guards Deopt GuardSites BridgeMono BridgeCanon Decide Tree Driver DriverSound Resume Plan Tables.
Local Open Scope Z_scope.

(** ** Names *)

Definition suffixed (base : string) (n : nat) : string := base +:+ "_" +:+ itoaN n.

(** The [i]-th name tried. *)
Definition attempt (base : string) (i : nat) : string := match i with O => base | S i => suffixed base (S (S i)) end.

Lemma string_nil_r s : s +:+ "" = s.
Proof. induction s as [|c s IH]; simpl; [done|]. by rewrite IH. Qed.

Lemma attempt_inj base i j : attempt base i = attempt base j -> i = j.
Proof.
  assert (forall n, base <> suffixed base n) as Hne.
  { intros n E. rewrite <- (string_nil_r base) in E at 1. by apply append_inj_l in E. }
  destruct i as [|i], j as [|j]; simpl; intros E; [done|by apply Hne in E|by symmetry in E; apply Hne in E|].
  apply append_inj_l in E. injection E as E. apply itoaN_inj in E. lia.
Qed.

Lemma suffixLoop_none fuel i base seen : suffixLoop fuel (S (S i)) base (attempt base i) seen = None ->
  forall j, (i <= j < i + fuel)%nat -> attempt base j ∈ seen.
Proof.
  revert i. induction fuel as [|fuel IH]; intros i E j Hj; [lia|]. simpl in E. case_bool_decide as Hin; [|done].
  destruct (decide (i = j)) as [->|]; [done|]. apply (IH (S i)); [exact E|lia].
Qed.

Lemma suffixLoop_fresh fuel n base name seen y : suffixLoop fuel n base name seen = Some y -> y ∉ seen.
Proof.
  revert n name. induction fuel as [|fuel IH]; intros n name E; simpl in E; [done|].
  case_bool_decide; [by eapply IH|by simplify_eq].
Qed.

(** One more name is tried than there are names taken. *)
Lemma staticName_some qual seen : exists name, staticName qual seen = Some (name, {[name]} ∪ seen) /\ name ∉ seen.
Proof.
  unfold staticName. destruct (suffixLoop _ 2 _ _ seen) as [y|] eqn:E.
  { exists y. split; [done|]. by eapply suffixLoop_fresh. }
  exfalso. pose proof (suffixLoop_none _ 0 _ _ E) as Hin. set (l := map (attempt (nameBase qual)) (seq 0 (S (size seen)))).
  assert (l ⊆+ elements seen) as Hs%submseteq_length.
  { apply NoDup_submseteq.
    - apply NoDup_fmap_2_strong; [|apply NoDup_seq]. intros i j _ _. apply attempt_inj.
    - intros y (j & -> & Hj)%list_elem_of_fmap. apply elem_of_elements, Hin. apply elem_of_seq in Hj. lia. }
  unfold l in Hs. rewrite length_map, length_seq in Hs. unfold size, set_size in Hs. simpl in Hs. lia.
Qed.

(** The names given so far: all seen, and one unit each. *)
Definition namesOK (names : gmap string string) (seen : gset string) : Prop :=
  (forall q n, names !! q = Some n -> n ∈ seen) /\
  (forall q q' n, names !! q = Some n -> names !! q' = Some n -> q = q').

Lemma namesOK_insert names seen q n : namesOK names seen -> n ∉ seen -> namesOK (<[q := n]> names) ({[n]} ∪ seen).
Proof.
  intros [H1 H2] Hn. split.
  - intros q' n' [[_ <-]|[_ H]]%lookup_insert_Some; [set_solver|]. apply H1 in H. set_solver.
  - intros q1 q2 n' [[<- <-]|[Hq Ha]]%lookup_insert_Some [[<- E]|[Hq' Hb]]%lookup_insert_Some; try done.
    + by apply H1 in Hb.
    + subst. by apply H1 in Ha.
    + by eapply H2.
Qed.

Lemma planNames_some planned funcs : forall names seen, namesOK names seen ->
  exists names' seen', planNames planned funcs names seen = Some names' /\ namesOK names' seen' /\
    dom names ⊆ dom names' /\ (forall qf, qf ∈ funcs -> planned qf.1 = true -> qf.1 ∈ dom names') /\
    (forall q, q ∈ dom names' -> q ∈ dom names \/ planned q = true).
Proof.
  induction funcs as [|qf funcs IH]; intros names seen Hok; simpl.
  { exists names, seen. split_and!; try done; [|auto]. intros qf H. by apply not_elem_of_nil in H. }
  destruct (planned qf.1) eqn:Ep.
  - destruct (staticName_some qf.1 seen) as (n & -> & Hn).
    destruct (IH _ _ (namesOK_insert names seen qf.1 n Hok Hn)) as (names' & seen' & E & Hok' & Hd & Hin & Hp).
    rewrite dom_insert in Hd. exists names', seen'. split_and!; try done; [set_solver| |].
    + intros qf' [->|H]%elem_of_cons Hq; [set_solver|by apply Hin].
    + intros q Hq. apply Hp in Hq. rewrite dom_insert, elem_of_union, elem_of_singleton in Hq. naive_solver.
  - destruct (IH names seen Hok) as (names' & seen' & E & Hok' & Hd & Hin & Hp). exists names', seen'.
    split_and!; try done. intros qf' [->|H]%elem_of_cons Hq; [congruence|by apply Hin].
Qed.

(** ** The resolver's passes *)

Section Resolver.
Context (globalsFor : Ast.FuncDef -> string -> option Repr) (shapesFor : string -> option Repr).
Context (funcs : list qualFunc) (staticFree : gset string) (names : gmap string string).
Context (gens : string -> option StaticGenerator).
Notation resolver := (gmap string StaticCallee).
Notation step := (growCallee globalsFor shapesFor staticFree names gens).
Notation pass := (fun callees : resolver => fold_left step funcs callees).
Notation lower R fn := (LowerFuncGen fn (R !!.) (globalsFor fn) shapesFor gens).

(** A callee of the build: a static unit reached by a bare name, under its
    emitted name, with its annotated signature or the one it lowered to. *)
Definition built (c : resolver) (bare : string) (v : StaticCallee) : Prop :=
  exists qf, qf ∈ funcs /\ qf.1 ∈ staticFree /\ topLevelName qf.1 = Some bare /\
    (SignatureFromDef qf.2 (nameOfUnit names qf.1) = Some v \/
     exists sub F, sub ⊆ c /\ lower sub qf.2 = Some F /\ v = SignatureOf F (nameOfUnit names qf.1)).

Definition allBuilt (c : resolver) : Prop := forall bare v, c !! bare = Some v -> built c bare v.

Lemma built_mono c c' bare v : c ⊆ c' -> built c bare v -> built c' bare v.
Proof.
  intros Hc (qf & H1 & H2 & H3 & H4). exists qf. split_and!; try done. destruct H4 as [H4|(sub & F & Hs & HF & ->)]; [by left|].
  right. exists sub, F. split_and!; [by etrans|done|done].
Qed.

Lemma step_extends c qf : c ⊆ step c qf.
Proof.
  unfold growCallee. repeat case_match; try done. by apply insert_subseteq.
Qed.

Lemma pass_extends (l : list qualFunc) : forall c, c ⊆ fold_left step l c.
Proof. induction l as [|qf l IH]; intros c; [done|]. simpl. etrans; [apply (step_extends c qf)|apply IH]. Qed.

Lemma pass_fixed (l : list qualFunc) c : fold_left step l c = c -> forall qf, qf ∈ l -> step c qf = c.
Proof.
  induction l as [|a l IH]; intros E qf Hq; [by apply not_elem_of_nil in Hq|]. simpl in E.
  assert (step c a = c) as Ea.
  { apply (anti_symm (⊆)); [|apply step_extends]. rewrite <- E at 2. apply pass_extends. }
  apply elem_of_cons in Hq as [->|Hq]; [done|]. rewrite Ea in E. by apply IH.
Qed.

Lemma step_built c qf : qf ∈ funcs -> allBuilt c -> allBuilt (step c qf).
Proof.
  intros Hin Hc bare v Hv. pose proof (step_extends c qf) as Hs. unfold growCallee in *.
  destruct (bool_decide (qf.1 ∈ staticFree)) eqn:Ef; [|by apply Hc]. apply bool_decide_eq_true in Ef.
  destruct (topLevelName qf.1) as [b|] eqn:Et; [|by apply Hc]. destruct (c !! b) eqn:Eb; [by apply Hc|].
  destruct (LowerFuncGen _ _ _ _ _) as [F|] eqn:EF; [|by apply Hc].
  apply lookup_insert_Some in Hv as [[<- <-]|[_ Hv]]; [|by eapply built_mono, Hc].
  exists qf. split_and!; try done. right. by exists c, F.
Qed.

Lemma pass_built (l : list qualFunc) : (forall qf, qf ∈ l -> qf ∈ funcs) -> forall c, allBuilt c -> allBuilt (fold_left step l c).
Proof.
  induction l as [|qf l IH]; intros Hl c Hc; [done|]. simpl. apply IH; [intros; apply Hl; by right|].
  apply step_built; [apply Hl; by left|done].
Qed.

(** At most one callee per function. *)
Lemma built_size c : allBuilt c -> (size c <= length funcs)%nat.
Proof.
  intros Hc. set (keys := omap (fun qf : qualFunc => topLevelName qf.1) funcs).
  assert (dom c ⊆ list_to_set (C := gset string) keys) as Hd.
  { intros b [v Hv]%elem_of_dom. apply Hc in Hv as (qf & Hin & _ & Ht & _). apply elem_of_list_to_set, list_elem_of_omap.
    by exists qf. }
  apply subseteq_size in Hd. rewrite size_dom in Hd. pose proof (list_to_set_size keys) as H1.
  pose proof (omap_length (fun qf : qualFunc => topLevelName qf.1) funcs) as H2. unfold keys in *. lia.
Qed.

Lemma growPasses_settle fuel : forall c, allBuilt c -> (length funcs < fuel + size c)%nat ->
  exists r, growPasses fuel pass c = Some r /\ c ⊆ r /\ pass r = r /\ allBuilt r.
Proof.
  induction fuel as [|fuel IH]; intros c Hc Hn; [pose proof (built_size c Hc); lia|]. cbn [growPasses].
  assert (allBuilt (pass c)) as Hp by by apply pass_built.
  pose proof (pass_extends funcs c) as He. destruct (Nat.eqb_spec (size (fold_left step funcs c)) (size c)) as [E|E].
  - assert (c = fold_left step funcs c) as Ec by (apply map_subseteq_size_eq; [done|lia]).
    exists c. by rewrite <- Ec.
  - destruct (IH _ Hp) as (r & Er & Hr & Hf & Hb); [apply map_subseteq_size in He; lia|].
    exists r. split_and!; try done. by etrans.
Qed.

(** The seeds. *)
Notation seed := (seedCallee staticFree names).

Definition seeded (b : string) (v : StaticCallee) : Prop := exists qf, qf ∈ funcs /\ qf.1 ∈ staticFree /\
  topLevelName qf.1 = Some b /\ SignatureFromDef qf.2 (nameOfUnit names qf.1) = Some v.

Lemma none_seeded b v : (∅ : resolver) !! b = Some v -> seeded b v.
Proof. by rewrite lookup_empty. Qed.

Lemma seeds_seeded (l : list qualFunc) : (forall qf, qf ∈ l -> qf ∈ funcs) -> forall c : resolver,
  (forall b v, c !! b = Some v -> seeded b v) -> forall b v, fold_left seed l c !! b = Some v -> seeded b v.
Proof.
  induction l as [|qf l IH]; intros Hl c Hc; [done|]. simpl. apply IH; [intros; apply Hl; by right|].
  intros b v Hv. unfold seedCallee in Hv. destruct (bool_decide (qf.1 ∈ staticFree)) eqn:Ef; [|by apply Hc].
  apply bool_decide_eq_true in Ef. destruct (topLevelName qf.1) as [b'|] eqn:Et; [|by apply Hc].
  destruct (SignatureFromDef _ _) as [sig|] eqn:Es; [|by apply Hc].
  apply lookup_insert_Some in Hv as [[<- <-]|[_ Hv]]; [|by apply Hc]. exists qf. split_and!; try done. apply Hl. by left.
Qed.

Lemma seeds_keep (l : list qualFunc) b : forall c : resolver, is_Some (c !! b) -> is_Some (fold_left seed l c !! b).
Proof.
  induction l as [|qf l IH]; intros c Hc; [done|]. simpl. apply IH. unfold seedCallee. repeat case_match; try done.
  by apply lookup_insert_is_Some'; right.
Qed.

Lemma seeds_in (l : list qualFunc) qf b sig : forall c : resolver, qf ∈ l -> qf.1 ∈ staticFree ->
  topLevelName qf.1 = Some b -> SignatureFromDef qf.2 (nameOfUnit names qf.1) = Some sig ->
  is_Some (fold_left seed l c !! b).
Proof.
  induction l as [|a l IH]; intros c Hin Hs Ht Hsig; [by apply not_elem_of_nil in Hin|]. simpl.
  apply elem_of_cons in Hin as [<-|Hin]; [|by apply IH]. apply seeds_keep. unfold seedCallee.
  rewrite bool_decide_true by done. rewrite Ht, Hsig. rewrite lookup_insert_eq. by eexists.
Qed.

(** The loop settles within its fuel. *)
Lemma staticResolver_settles : exists r, staticResolver globalsFor shapesFor funcs staticFree names gens = Some r /\
  fold_left seed funcs ∅ ⊆ r /\ allBuilt r /\ forall qf, qf ∈ funcs -> step r qf = r.
Proof.
  destruct (growPasses_settle (S (length funcs)) (fold_left seed funcs ∅)) as (r & E & Hs & Hf & Hb).
  - intros b v Hv. destruct (seeds_seeded funcs (fun _ H => H) ∅ none_seeded b v Hv) as (qf & H1 & H2 & H3 & H4).
    exists qf. split_and!; try done. by left.
  - lia.
  - exists r. split_and!; try done. by apply pass_fixed.
Qed.
End Resolver.

(** ** The functions of the plan are the defs of the walk *)

Section Funcs.
Context (module : string) (redefined : string -> bool).
Notation scan := (scanStmt module redefined).
Notation entered l := (map (fun p : Unit_ * Ast.FuncDef => (uName p.1, p.2)) (defEnters l)).

Lemma scan_funcs s : forall u, entered (scan u s) = collectFuncs (uName u) s.
Proof.
  assert (forall u l, Forall (fun s => forall u, entered (scan u s) = collectFuncs (uName u) s) l ->
    entered (concat (map (scan u) l)) = concat (map (collectFuncs (uName u)) l)) as Hb.
  { intros u l Hl. induction Hl as [|s0 l Hs _ IH]; [done|]. simpl. rewrite defEnters_app, map_app. by rewrite Hs, IH. }
  assert (forall u hs, Forall (fun h => Forall (fun s => forall u, entered (scan u s) = collectFuncs (uName u) s) h.2) hs ->
    entered (concat (map (fun h => scanOpt module u h.1 ++ concat (map (scan u) h.2)) hs)) =
    concat (map (fun h : option XExpr * list XStmt => concat (map (collectFuncs (uName u)) h.2)) hs)) as Harms.
  { intros u hs Hh. induction Hh as [|h hs Hs _ IH]; [done|]. simpl.
    rewrite !defEnters_app, opt_defs, !map_app, Hb by done. by rewrite IH. }
  revert s. apply (XStmt_ind' (fun s => forall u, entered (scan u s) = collectFuncs (uName u) s)).
  - intros s. destruct s; try done; intros u; simpl; by rewrite ?defEnters_app, ?expr_defs, ?exprs_defs, ?opt_defs.
  - intros c b e Hbb Hee u. simpl. by rewrite !defEnters_app, expr_defs, !map_app, !Hb.
  - intros c b e Hbb Hee u. simpl. by rewrite !defEnters_app, expr_defs, !map_app, !Hb.
  - intros t i b e a Hbb Hee u. simpl. by rewrite !defEnters_app, !expr_defs, !map_app, !Hb.
  - intros items b Hbb u. simpl. rewrite defEnters_app, concat_defs, concat_nil, map_app, Hb; [done|done|].
    intros i. by rewrite defEnters_app, expr_defs, opt_defs.
  - intros b hs o f Hbb Hh Hoo Hf u. simpl. by rewrite !defEnters_app, !map_app, !Hb, Harms.
  - intros x cs Hc u. simpl. rewrite defEnters_app, expr_defs. by apply Harms.
  - intros d Hd u. simpl. rewrite !defEnters_app, !exprs_defs, opt_defs, concat_defs, concat_nil by (intros; apply opt_defs).
    simpl. f_equal. rewrite defEnters_app.
    rewrite map_app, (Hb (unitAt module (child (uName u) (xfName d)) (xfPos d))) by done.
    by destruct (redefined _).
  - intros p n bs ks ds b Hbb u. simpl. rewrite !defEnters_app, !exprs_defs, defEnters_cons. by apply (Hb (unitAt _ _ _)).
Qed.
End Funcs.

Lemma evs_funcs module body :
  map (fun p : Unit_ * Ast.FuncDef => (uName p.1, p.2)) (defEnters (events module body)) = moduleFuncs body.
Proof.
  unfold events. rewrite defEnters_cons. simpl. unfold scanStmts, moduleFuncs. generalize (redefinedQuals body) as red.
  intros red. induction body as [|s l IH]; [done|]. simpl. rewrite defEnters_app, map_app, scan_funcs. simpl. by rewrite IH.
Qed.

(** ** Bare names *)

Lemma substring_all s : forall n, (String.length s <= n)%nat -> substring 0 n s = s.
Proof. induction s as [|c s IH]; intros [|n] H; simpl in *; try done; [lia|]. rewrite IH by lia. done. Qed.

Lemma cutPrefix_app p s : cutPrefix p (p +:+ s) = Some s.
Proof.
  unfold cutPrefix. induction p as [|c p IH]; simpl.
  - destruct s; [done|]. rewrite substring_all; [done|]. simpl. lia.
  - destruct (ascii_dec c c) as [_|Hn]; [exact IH|done].
Qed.

Lemma cutPrefix_inv p : forall s t, cutPrefix p s = Some t -> s = p +:+ t.
Proof.
  unfold cutPrefix. induction p as [|c p IH]; intros s t E.
  - simpl in E. destruct s; [by injection E as <-|]. rewrite substring_all in E by (simpl; lia). by injection E as <-.
  - destruct s as [|c' s]; [done|]. simpl in E. destruct (ascii_dec c c') as [<-|]; [|done].
    simpl. f_equal. by apply IH.
Qed.

Lemma child_app q n : child q n = (q +:+ ".") +:+ n.
Proof. unfold child. induction q as [|c q IH]; simpl; [done|]. by f_equal. Qed.

Lemma topLevelName_child b : hasDot b = false -> topLevelName (child ModuleUnitName b) = Some b.
Proof. intros H. unfold topLevelName. rewrite child_app, cutPrefix_app. by rewrite H. Qed.

Lemma topLevelName_inv q b : topLevelName q = Some b -> q = child ModuleUnitName b.
Proof.
  unfold topLevelName. destruct (cutPrefix _ q) as [t|] eqn:E; [|done]. destruct (hasDot t); [done|]. intros [= <-].
  rewrite child_app. by apply cutPrefix_inv.
Qed.

(** The name a call of the driver's resolver carries, and the emitted one. *)
Definition emittedName (names : gmap string string) (goName : string) : string :=
  match cutPrefix "static_" goName with Some f => nameOfUnit names (child ModuleUnitName f) | None => goName end.

Lemma emittedName_static names f : emittedName names ("static_" +:+ f) = nameOfUnit names (child ModuleUnitName f).
Proof. unfold emittedName. by rewrite cutPrefix_app. Qed.

Lemma ren_signature names F f : renCallee (emittedName names) (SignatureOf F ("static_" +:+ f)) =
  SignatureOf F (nameOfUnit names (child ModuleUnitName f)).
Proof. unfold renCallee, SignatureOf. cbn [GoName CParams CRet]. by rewrite emittedName_static. Qed.

Lemma SignatureFromDef_rename fn g g' s : SignatureFromDef fn g = Some s ->
  SignatureFromDef fn g' = Some (mkCallee g' (CParams s) (CRet s)).
Proof.
  unfold SignatureFromDef. case_match; [done|]. destruct (mapM _ _); [|done]. simpl.
  destruct (Ast.fnReturns fn) as [a|]; [|done]. destruct (annotationRepr a); [|done]. simpl. by intros [= <-].
Qed.

Lemma SignatureFromDef_scalar fn g s : SignatureFromDef fn g = Some s -> canonical (CRet s) /\ RScalar (CRet s) <> NotScalar.
Proof.
  unfold SignatureFromDef. case_match; [done|]. destruct (mapM _ _); [|done]. simpl.
  destruct (Ast.fnReturns fn) as [a|]; [|done]. destruct (annotationRepr a) eqn:E; [|done]. simpl. intros [= <-].
  by eapply annotation_canonical.
Qed.

(** ** The build's resolver holds the driver's *)

Section Main.
Context (module : string) (body : list XStmt) (mode : Mode).
Context (globalsFor : Ast.FuncDef -> string -> option Repr) (shapesFor : string -> option Repr).
Context (Hgl : forall fn x r, globalsFor fn x = Some r -> canonical r).
Context (Hsh : forall x r, shapesFor x = Some r -> canonical r).
Context (Hdot : forallb (fun d => negb (hasDot (xfName d))) (topDefs body) = true).
Notation resolver := (gmap string StaticCallee).
Notation decisionR := (decisionR module body mode globalsFor shapesFor).
Notation unitOrder := (unitOrder module body).
Notation holder := (holder module body).
Notation decisions R := (map (decisionR R) unitOrder).
Notation grow := (grow module body mode globalsFor shapesFor).
Notation evs := (events module body).
Notation funcs := (moduleFuncs body).
Notation lowerFull R fn := (LowerFuncFull fn (R !!.) (globalsFor fn) shapesFor).

Lemma func_entered q d : (q, d) ∈ funcs -> exists v, (v, d) ∈ defEnters evs /\ uName v = q.
Proof. rewrite <- (evs_funcs module body). intros ([v d'] & [= -> ->] & H)%list_elem_of_fmap. by exists v. Qed.

(** The def of a static unit. *)
Lemma static_def R u q d : IsStatic (dState (decisionR R u)) = true -> uName (holder u) = q -> (q, d) ∈ funcs ->
  (funcInput body globalsFor shapesFor R d (uSpan (holder u))).2 = true /\
  forall d', (q, d') ∈ funcs -> d' = d.
Proof.
  intros Hs Hq Hd. destruct (static_inv _ _ _ _ _ R u Hs) as (v & d0 & _ & _ & Hin & Hv & Hh & Hl & _).
  assert (forall d', (q, d') ∈ funcs -> d' = d0) as Hu.
  { intros d' (v' & Hin' & Hn)%func_entered.
    assert ((v, d0) = (v', d')) as [= _ ->]; [|done].
    apply (count_unique (fun p : Unit_ * Ast.FuncDef => uName p.1) (defEnters evs)); [done|done| |].
    - simpl. congruence.
    - rewrite evs_quals. by apply (redefined_hard module body v d0). }
  rewrite (Hu d Hd), Hv. split; [done|]. intros d' H. by rewrite (Hu d' H).
Qed.

Lemma top_func fn : fn ∈ map eraseDef (topDefs body) -> (child ModuleUnitName (fnName fn), fn) ∈ funcs /\ hasDot (fnName fn) = false.
Proof.
  intros (d & -> & Hd)%list_elem_of_fmap. split.
  - rewrite <- (evs_funcs module body). apply list_elem_of_fmap. eexists (unitAt module (child ModuleUnitName (xfName d)) (xfPos d), eraseDef d).
    split; [done|]. unfold events. rewrite defEnters_cons. simpl.
    apply (top_entered module (redefinedQuals body) (unitAt module ModuleUnitName (mkPos 1 1))). done.
  - rewrite forallb_forall in Hdot. apply list_elem_of_In, Hdot, negb_true_iff in Hd. done.
Qed.

Lemma freeUnits_spec R q : q ∈ freeUnits (decisions R) <-> staticFree (decisions R) q = true.
Proof.
  unfold freeUnits, staticFree. rewrite elem_of_list_to_set, list_elem_of_fmap, existsb_exists. split.
  - intros (d & -> & Hd%list_elem_of_In%filter_In). exists d. rewrite (proj2 Hd), String.eqb_refl. by destruct Hd.
  - intros (d & Hd & [Hf Hq%String.eqb_eq]%andb_true_iff). exists d. split; [done|]. by apply list_elem_of_In, filter_In.
Qed.

(** What holds of nothing and survives a round holds of the rounds' end. *)
Lemma rounds_inv (P : resolver -> Prop) (HP : forall R, P R -> P (grow R)) n : forall prev R r ds, P R ->
  rounds module body mode globalsFor shapesFor n prev R (decisions R) = Some (r, ds) -> P r.
Proof.
  induction n as [|n IH]; intros prev R r ds HR E; simpl in E; [by simplify_eq|].
  change (moduleCallees body globalsFor shapesFor (decisions R) R) with (grow R) in E.
  destruct (_ =? prev); [by simplify_eq|]. rewrite driveOnce_total in E. simpl in E.
  eapply IH; [|exact E]. by apply HP.
Qed.

Lemma drive_inv R ds : DriveWith module body mode globalsFor shapesFor = Some (R, ds) -> exists base kept,
  (forall P : resolver -> Prop, P ∅ -> (forall R, P R -> P (grow R)) -> P base) /\ grow base = base /\
  R = kept ∪ base /\ ds = decisions R /\ base ⊆ R /\
  kept ⊆ cycleSeeds body (byUnitName (decisions base)) /\
  (forall f, is_Some (kept !! f) -> survives (byUnitName ds) f = true).
Proof.
  unfold DriveWith. rewrite driveOnce_total. simpl.
  destruct (rounds_least module body mode globalsFor shapesFor) as (base & Er & Hg & _). setoid_rewrite Er. simpl. intros E.
  destruct (promote_spec module body mode globalsFor shapesFor base Hg) as (kept & Hk & Ep & Hs & Hb).
  rewrite Ep in E. injection E as <- <-. exists base, kept. split_and!; try done.
  intros P H0 HP. eapply rounds_inv; [exact HP|exact H0|exact Er].
Qed.

Definition canonRets (R : resolver) : Prop := forall f s, R !! f = Some s -> canonical (CRet s).

Lemma lowered_canonical R fn gn F : canonRets R -> LowerFuncGen fn (R !!.) (globalsFor fn) shapesFor gn = Some F -> canonical (FRet F).
Proof. intros HR. apply LowerFuncGen_canonical. split; [exact HR|apply Hgl|exact Hsh]. Qed.

Lemma grow_canonical R : canonRets R -> canonRets (grow R).
Proof.
  intros HR f s (fn & F & _ & _ & _ & HF & ->)%grow_spec. simpl. by eapply lowered_canonical.
Qed.

Section Cover.
Context (Rf : resolver) (names : gmap string string) (gens : string -> option StaticGenerator) (callees : resolver).
Notation planned := (freeUnits (decisions Rf)).
Notation rho := (emittedName names).
Notation lower R fn := (LowerFuncGen fn (R !!.) (globalsFor fn) shapesFor gens).
Context (Hseed : fold_left (seedCallee planned names) funcs ∅ ⊆ callees).
Context (Hb : allBuilt globalsFor shapesFor funcs planned names gens callees).
Context (Hfix : forall qf, qf ∈ funcs -> growCallee globalsFor shapesFor planned names gens callees qf = callees).

Definition covers (R : resolver) : Prop := forall f s, R !! f = Some s -> callees !! f = Some (renCallee rho s).

(** The one def a bare name stands for. *)
Lemma planned_def fn q d : fn ∈ map eraseDef (topDefs body) -> staticFree (decisions Rf) (child ModuleUnitName (fnName fn)) = true ->
  (q, d) ∈ funcs -> topLevelName q = Some (fnName fn) -> q = child ModuleUnitName (fnName fn) /\ d = fn.
Proof.
  intros Hfn (u & _ & Hf & Hq)%staticFree_spec Hd Ht. apply topLevelName_inv in Ht. subst q. split; [done|].
  apply free_static in Hf. by apply (static_def Rf u _ fn Hf Hq); [apply top_func|].
Qed.

Lemma callee_value fn v : fn ∈ map eraseDef (topDefs body) ->
  staticFree (decisions Rf) (child ModuleUnitName (fnName fn)) = true -> callees !! fnName fn = Some v ->
  let name := nameOfUnit names (child ModuleUnitName (fnName fn)) in
  SignatureFromDef fn name = Some v \/ exists F, lower callees fn = Some F /\ v = SignatureOf F name.
Proof.
  intros Hfn Hs ([q d] & Hin & _ & Ht & Hv)%Hb name. simpl in *.
  destruct (planned_def fn q d Hfn Hs Hin Ht) as [-> ->]. destruct Hv as [Hv|(sub & F & Hsub & HF & ->)]; [by left|].
  right. exists F. split; [|done]. eapply LowerFuncGen_mono; [exact Hsub| |exact HF]. done.
Qed.

Lemma callee_exists fn F : fn ∈ map eraseDef (topDefs body) ->
  staticFree (decisions Rf) (child ModuleUnitName (fnName fn)) = true -> lower callees fn = Some F ->
  is_Some (callees !! fnName fn).
Proof.
  intros Hfn Hs HF. destruct (top_func fn Hfn) as [Hin Hd]. specialize (Hfix _ Hin). unfold growCallee in Hfix. simpl in Hfix.
  rewrite bool_decide_true, topLevelName_child in Hfix by (done || by apply freeUnits_spec).
  destruct (callees !! fnName fn) eqn:E; [by eexists|]. rewrite HF in Hfix. apply (f_equal (.!! fnName fn)) in Hfix.
  rewrite lookup_insert_eq in Hfix. congruence.
Qed.

(** A round adds callees the build's resolver holds. *)
Lemma grow_covers R : canonRets R -> R ⊆ Rf -> covers R -> covers (grow R).
Proof.
  intros HR HRf Hc f s (fn & F & Hfn & <- & Hs & HF & ->)%grow_spec. apply (staticFree_mono _ _ _ _ _ R Rf _ HRf) in Hs.
  assert (lower callees fn = Some (renF rho F)) as HF'.
  { eapply (LowerFuncGen_ren rho fn _ _ _ _ (fun _ => None)); [|done|exact HF]. intros g t Hg. by apply Hc. }
  destruct (callee_exists fn _ Hfn Hs HF') as [v Hv]. rewrite Hv. f_equal.
  rewrite ren_signature. unfold SignatureOf.
  destruct (callee_value fn v Hfn Hs Hv) as [Hsig|(F2 & HF2 & ->)].
  - destruct (SignatureFromDef_fits _ _ _ _ _ _ _ _ Hsig HF') as (H1 & H2 & H3).
    destruct (SignatureFromDef_scalar _ _ _ Hsig) as [Hcv Hn].
    pose proof (lowered_canonical R fn (fun _ => None) F HR HF) as HcF.
    apply canonical_same in H3; [|done..]. destruct v. simpl in *. by subst.
  - rewrite HF' in HF2. by injection HF2 as <-.
Qed.

(** So are the seeds of recursive cycles. *)
Lemma seed_covered R f s : cycleSeeds body (byUnitName (decisions R)) !! f = Some s ->
  survives (byUnitName (decisions Rf)) f = true -> callees !! f = Some (renCallee rho s).
Proof.
  intros (fn & u & Hfn & <- & Hu & _ & Hsig)%seeds_spec Hsv.
  assert (staticFree (decisions Rf) (child ModuleUnitName (fnName fn)) = true) as Hs.
  { apply staticFree_spec. exists u. apply (survivor_free _ _ _ _ _ Rf _ u Hu) in Hsv.
    apply lastUnit_name in Hu as [Ho Hn]. done. }
  destruct (top_func fn Hfn) as [Hin Hd]. pose proof (proj2 (freeUnits_spec Rf _) Hs) as Hpl.
  pose proof (SignatureFromDef_rename _ _ (nameOfUnit names (child ModuleUnitName (fnName fn))) _ Hsig) as Hsig'.
  destruct (seeds_in planned names funcs (child ModuleUnitName (fnName fn), fn) (fnName fn) _ ∅ Hin Hpl
    (topLevelName_child _ Hd) Hsig') as [v Hv].
  rewrite (lookup_weaken _ _ _ _ Hv Hseed). f_equal.
  destruct (seeds_seeded funcs planned names funcs (fun _ H => H) ∅ (fun b v => none_seeded _ _ _ b v) _ _ Hv)
    as ([q d] & Hin' & _ & Ht & Hv'). simpl in *. destruct (planned_def fn q d Hfn Hs Hin' Ht) as [-> ->].
  assert (GoName s = "static_" +:+ fnName fn) as Eg.
  { unfold SignatureFromDef in Hsig. case_match; [done|]. destruct (mapM _ _); [|done]. simpl in Hsig.
    destruct (Ast.fnReturns fn); [|done]. destruct (annotationRepr _); [|done]. by injection Hsig as <-. }
  rewrite Hsig' in Hv'. injection Hv' as <-. unfold renCallee. by rewrite Eg, emittedName_static.
Qed.

Lemma drive_covered ds : DriveWith module body mode globalsFor shapesFor = Some (Rf, ds) -> covers Rf.
Proof.
  intros (base & kept & Hind & Hg & ER & -> & Hbs & Hk & Hsv)%drive_inv.
  assert (base ⊆ base /\ canonRets base /\ covers base) as (_ & _ & Hcb).
  { assert (forall P : resolver -> Prop, P ∅ -> (forall R, R ⊆ base -> P R -> P (grow R)) -> base ⊆ base /\ P base) as Hi.
    { intros P H0 HP. apply (Hind (fun R => R ⊆ base /\ P R)); [split; [apply map_empty_subseteq|done]|].
      intros R [HR HPR]. split; [|by apply HP]. rewrite <- Hg. by apply grow_mono. }
    apply (Hi (fun R => canonRets R /\ covers R)).
    - split; intros f s H; by rewrite lookup_empty in H.
    - intros R HR [Hc Hv]. split; [by apply grow_canonical|]. apply grow_covers; [done|by etrans|done]. }
  intros f s Hf. rewrite ER in Hf. apply lookup_union_Some_raw in Hf as [Hf|[_ Hf]]; [|by apply Hcb].
  eapply (seed_covered base); [by eapply lookup_weaken|]. apply Hsv. by rewrite Hf.
Qed.
End Cover.

Notation plan ds := (planStatic body globalsFor shapesFor ds).
Notation planLower pl d := (planLower globalsFor shapesFor (plResolve pl) (plGens pl) d).

(** What a plan is made of. *)
Lemma planStatic_inv ds pl : plan ds = Some (Some pl) ->
  plFuncs pl = funcs /\ plFree pl = freeUnits ds /\ plGens pl = planGens body (plNames pl) /\
  planNames (fun q => bool_decide (q ∈ freeUnits ds) || bool_decide (is_Some (deoptUnits ds !! q))) funcs ∅ ∅ =
    Some (plNames pl) /\
  staticResolver globalsFor shapesFor funcs (freeUnits ds) (plNames pl) (planGens body (plNames pl)) = Some (plResolve pl) /\
  plDeopt pl = list_to_set (map fst (List.filter
    (earnsForm globalsFor shapesFor (deoptUnits ds) (plNames pl) (plResolve pl) (plGens pl)) funcs)).
Proof.
  unfold planStatic. case_match; [done|]. destruct (planNames _ _ _ _) as [names|] eqn:En; [|done]. simpl.
  destruct (staticResolver _ _ _ _ _ _) as [r|] eqn:Er; [|done]. simpl. intros [= <-]. done.
Qed.

(** Every unit decided static lowers again in the build. *)
Lemma planned_lower R ds pl dec q d :
  DriveWith module body mode globalsFor shapesFor = Some (R, ds) -> plan ds = Some (Some pl) ->
  dec ∈ ds -> IsStatic (dState dec) = true -> uName (dUnit dec) = q -> (q, d) ∈ plFuncs pl ->
  if IsGenerator d then is_Some (LowerGenerator d)
  else is_Some (LowerFuncGen d (R !!.) (globalsFor d) shapesFor (driveGenerators body)) /\
    forall F, lowerFull R d = Some F -> planLower pl d = Some (renF (emittedName (plNames pl)) F).
Proof.
  intros HD HP Hdec Hs Hq Hin. destruct (planStatic_inv ds pl HP) as (Ef & Efr & Eg & _ & Er & _). rewrite Ef in Hin.
  pose proof HD as (? & ? & _ & _ & _ & -> & _)%drive_inv.
  apply list_elem_of_fmap in Hdec as (u & -> & Hu). rewrite dUnit_holder in Hq.
  destruct (static_def R u q d Hs Hq Hin) as [Hl _]. unfold Driver.funcInput in Hl. destruct (IsGenerator d).
  - unfold generatorInput in Hl. destruct (LowerGenerator d); [by eexists|done].
  - destruct (LowerFuncGen d _ _ _ (driveGenerators body)) as [F0|] eqn:E0; [|done]. split; [by eexists|]. intros F HF.
    destruct (staticResolver_settles globalsFor shapesFor funcs (freeUnits (decisions R)) (plNames pl)
      (planGens body (plNames pl))) as (r & Er' & Hseed & Hb & Hfix). rewrite Er in Er'. injection Er' as <-.
    rewrite Eg. unfold Plan.planLower. eapply (LowerFuncGen_ren _ d _ _ _ _ (fun _ => None)); [|done|exact HF].
    apply (drive_covered R _ _ _ Hseed Hb Hfix _ HD).
Qed.
End Main.

(** C13: every unit decided static lowers again in the build.  Drive a module
    whose def names are plain (no dot, as every Python name) and plan its
    static tier from the decisions, both against the resolvers the code makes
    of whatever globals are tracked, of whatever type, whatever names each
    function binds, and whatever shape classes there are.  A function among
    the planned ones that the decisions make static, and whose lowering
    drives no generator, lowers against the plan's own resolvers, and to the
    code the decision measured, its calls carrying the emitted names; a
    generator among them lowers to its segments.  So the build's "decided
    static but did not lower" can only fire on a function that drives a
    generator. *)
Theorem planned_units_lower module body mode (locals : Ast.FuncDef -> gset string) (gs : list (string * string))
    (cs : list ShapeClass) R ds pl dec q d :
  let globalsFor fn := GlobalResolverFor (locals fn) (TrackedGlobals gs) in
  let shapesFor := ShapeResolverFor (TrackedShapes cs) in
  forallb (fun d => negb (hasDot (xfName d))) (topDefs body) = true ->
  DriveWith module body mode globalsFor shapesFor = Some (R, ds) ->
  planStatic body globalsFor shapesFor ds = Some (Some pl) ->
  dec ∈ ds -> IsStatic (dState dec) = true -> uName (dUnit dec) = q -> (q, d) ∈ plFuncs pl ->
  if IsGenerator d then is_Some (LowerGenerator d)
  else is_Some (LowerFuncGen d (R !!.) (globalsFor d) shapesFor (driveGenerators body)) /\
    forall F, LowerFuncFull d (R !!.) (globalsFor d) shapesFor = Some F ->
      planLower globalsFor shapesFor (plResolve pl) (plGens pl) d = Some (renF (emittedName (plNames pl)) F).
Proof.
  intros globalsFor shapesFor Hdot. apply planned_lower; [intros fn x r; apply global_canonical|apply shape_canonical|done].
Qed.

(** ** The names of the static file *)

(** C14: planning always returns, whatever the module and the decisions: the
    suffix counter finds a free name and the resolver's passes settle.  Every
    unit that gets a form has a Go name, and no two units have the same. *)
Theorem planStatic_names body globalsFor shapesFor ds : exists o,
  planStatic body globalsFor shapesFor ds = Some o /\
  forall pl q d, o = Some pl -> (q, d) ∈ plFuncs pl -> emitted pl q = true ->
    exists n, plNames pl !! q = Some n /\ forall q', plNames pl !! q' = Some n -> q' = q.
Proof.
  destruct (planStatic body globalsFor shapesFor ds) as [o|] eqn:EP.
  - exists o. split; [done|]. intros pl q d -> Hin He. destruct (planStatic_inv _ _ _ _ _ EP) as (Ef & Efr & _ & En & _ & Ed).
    destruct (planNames_some (fun q => bool_decide (q ∈ freeUnits ds) || bool_decide (is_Some (deoptUnits ds !! q)))
      (moduleFuncs body) ∅ ∅) as (names & seen & En' & [_ Hinj] & _ & Hd & _).
    { split; [intros ? ? H|intros ? ? ? H]; by rewrite lookup_empty in H. }
    rewrite En in En'. injection En' as <-. rewrite Ef in Hin.
    assert (q ∈ dom (plNames pl)) as [n Hn]%elem_of_dom.
    { apply (Hd (q, d) Hin). simpl. apply orb_true_iff in He as [He|He]; apply bool_decide_eq_true in He.
      - rewrite Efr in He. by rewrite bool_decide_true.
      - rewrite Ed in He. apply elem_of_list_to_set, list_elem_of_fmap in He as ([q' d'] & -> & H%list_elem_of_In%filter_In).
        destruct H as [_ H]. unfold earnsForm in H. simpl in *. destruct (deoptUnits ds !! q'); [|done].
        apply orb_true_iff. right. by apply bool_decide_true. }
    exists n. split; [done|]. intros q' Hq'. by eapply Hinj.
  - exfalso. unfold planStatic in EP. case_match; [done|].
    destruct (planNames_some (fun q => bool_decide (q ∈ freeUnits ds) || bool_decide (is_Some (deoptUnits ds !! q)))
      (moduleFuncs body) ∅ ∅) as (names & seen & En & _).
    { split; [intros ? ? Hx|intros ? ? ? Hx]; by rewrite lookup_empty in Hx. }
    rewrite En in EP. simpl in EP.
    destruct (staticResolver_settles globalsFor shapesFor (moduleFuncs body) (freeUnits ds) names (planGens body names))
      as (r & Er & _). by rewrite Er in EP.
Qed.

(** ** Modules *)

Definition planOf (mode : Mode) (body : list XStmt) : option staticPlan :=
  match DriveWith "m" body mode noGlobals noShapes with
  | Some (_, ds) => match planStatic body noGlobals noShapes ds with Some o => o | None => None end
  | None => None
  end.

Definition noPlan : staticPlan := mkPlan [] ∅ ∅ ∅ ∅ ∅ (fun _ => None).

Definition plainParamOf (x t : string) : ParamOf XExpr := mkParamOf x ParamPlain (Some (XName t)) None.
Definition defOf (line : Z) (name : string) (ps : list (ParamOf XExpr)) (ret : option string) (b : list XStmt) : XStmt :=
  SFuncDef (mkDef (mkPos line 1) name ps (option_map XName ret) b [] false).
Definition callOf (f : string) (args : list XExpr) : XExpr := XCall (mkPos 1 1) (XName f) (map (mkArg "" 0) args).

Definition setTo (x : string) (e : XExpr) : XStmt := SAssign [XName x] e.

(** The recursive pair, and [K = 0.5; def scale(x: float) -> float: return x * K]. *)
Definition scaled : list XStmt :=
  evenOdd ++ [setTo "K" (XFloatLit (S754_finite false 1 (-1)));
    defOf 8 "scale" [plainParamOf "x" "float"] (Some "float") [SReturn (Some (XBinOp Ast.BinMul (XName "x") (XName "K")))]].

Definition scaledDef (i : nat) : Ast.FuncDef :=
  default (Ast.mkFuncDef "" [] None [] [] false) (snd <$> nth_error (moduleFuncs scaled) i).
Definition scaledGlobals (fn : Ast.FuncDef) : string -> option Repr :=
  GlobalResolverFor (list_to_set (map paramName (fnParams fn))) (TrackedGlobals [("K", "float")]).
Definition scaledShapes : string -> option Repr := ShapeResolverFor (TrackedShapes []).
Definition scaledRun : gmap string StaticCallee * list Decision :=
  default (∅, []) (DriveWith "m" scaled ModeAuto scaledGlobals scaledShapes).
Definition scaledPlan : staticPlan :=
  match planStatic scaled scaledGlobals scaledShapes scaledRun.2 with Some (Some pl) => pl | _ => noPlan end.
Definition scaledLower (i : nat) : option Func :=
  LowerFuncFull (scaledDef i) (scaledRun.1 !!.) (scaledGlobals (scaledDef i)) scaledShapes.

(** In the recursive module each def lowers in the build, calling the other's
    emitted form; so does the function of the tracked global, reading its
    shadow. *)
Lemma planned_units_lower_witness : exists F G,
  planLower scaledGlobals scaledShapes (plResolve scaledPlan) (plGens scaledPlan) (scaledDef 0) = Some F /\
  last (Body F) = Some (Return (Call "static_odd" [Bin OpRShift (Var "n" intRepr) (Int 1)] boolRepr)) /\
  planLower scaledGlobals scaledShapes (plResolve scaledPlan) (plGens scaledPlan) (scaledDef 2) = Some G /\
  Body G = [Return (Bin OpMul (Var "x" floatRepr) (Var "bshadow_K" floatRepr))].
Proof.
  set (dec i := default (mkDecision (mkUnit "" "" (mkSpan "" 0 0) 0) BoxedByCost [] (mkScore 0 0) 0 0 [] []) (nth_error scaledRun.2 i)).
  set (lo i := default (mkFunc "" [] intRepr [] "" []) (scaledLower i)).
  assert (forallb (fun d => negb (hasDot (xfName d))) (topDefs scaled) = true) as Hdot by (vm_compute; reflexivity).
  assert (DriveWith "m" scaled ModeAuto scaledGlobals scaledShapes = Some (scaledRun.1, scaledRun.2)) as HD
    by (vm_compute; reflexivity).
  assert (planStatic scaled scaledGlobals scaledShapes scaledRun.2 = Some (Some scaledPlan)) as HP by (vm_compute; reflexivity).
  assert (forall i q, nth_error scaledRun.2 (S i) = Some (dec (S i)) -> IsStatic (dState (dec (S i))) = true ->
    uName (dUnit (dec (S i))) = q -> nth_error (plFuncs scaledPlan) i = Some (q, scaledDef i) ->
    IsGenerator (scaledDef i) = false -> scaledLower i = Some (lo i) ->
    planLower scaledGlobals scaledShapes (plResolve scaledPlan) (plGens scaledPlan) (scaledDef i) =
      Some (renF (emittedName (plNames scaledPlan)) (lo i))) as Hlow.
  { intros i q Hd Hs Hq Hf Hg HF.
    apply nth_error_In, list_elem_of_In in Hd, Hf.
    pose proof (planned_units_lower "m" scaled ModeAuto (fun fn => list_to_set (map paramName (fnParams fn))) [("K", "float")]
      [] scaledRun.1 scaledRun.2 scaledPlan (dec (S i)) q (scaledDef i) Hdot HD HP Hd Hs Hq Hf) as H.
    rewrite Hg in H. exact (proj2 H _ HF). }
  do 2 eexists. split; [apply (Hlow 0%nat "<module>.even"); vm_compute; reflexivity|]. split; [vm_compute; reflexivity|].
  split; [apply (Hlow 2%nat "<module>.scale"); vm_compute; reflexivity|]. vm_compute. reflexivity.
Defined.

(** [def g(): yield 1] and [def f(k: int) -> int: for x in g(): pass; return k & 3]. *)
Definition undriven : list XStmt :=
  [defOf 1 "g" [] None [SExprStmt (XYield (Some (XIntLit "1")) false)];
   defOf 4 "f" [plainParamOf "k" "int"] (Some "int")
     [SFor (XName "x") (callOf "g" []) [SPass] [] false; SReturn (Some (XBinOp Ast.BinBitAnd (XName "k") (XIntLit "3")))]].

(** The decision drives a generator the cost model keeps boxed; the build has
    no form of it, and stops. *)
Lemma undriven_stops_build :
  staticForms noGlobals noShapes (default noPlan (planOf ModeAuto undriven)) = inr (ErrNotLowered "<module>.f").
Proof. vm_compute. reflexivity. Qed.

(** [def f(ps) -> ret: leads; for i in range(stop): s += x; return s]. *)
Definition looping (ps : list (ParamOf XExpr)) (ret : string) (leads : list XStmt) (stop x : XExpr) : XStmt :=
  defOf 1 "f" ps (Some ret) (leads ++
    [SFor (XName "i") (callOf "range" [stop]) [SAugAssign (XName "s") Ast.BinAdd x] [] false;
     SReturn (Some (XName "s"))]).

Definition fdef (b : list XStmt) : Ast.FuncDef := default (Ast.mkFuncDef "" [] None [] [] false) (snd <$> head (moduleFuncs b)).

(** A deopt target [f] and a static [f_deopt]: the hand-off the build emits for
    the first has the name of the second's form. *)
Definition handed : list XStmt :=
  [looping [plainParamOf "k" "int"] "int" [setTo "s" (XIntLit "0")] (XName "k") (XName "k");
   defOf 9 "f_deopt" [plainParamOf "k" "int"] (Some "int") [SReturn (Some (XBinOp Ast.BinBitAnd (XName "k") (XIntLit "3")))]].

Lemma handoff_name_taken : let pl := default noPlan (planOf ModeForceStatic handed) in
  bool_decide ("<module>.f" ∈ plDeopt pl) = true /\
  DeoptHandler (unitFunc pl "<module>.f" (mkFunc "" [] intRepr [] "" [])) = nameOfUnit (plNames pl) "<module>.f_deopt".
Proof. vm_compute. done. Qed.

(** The resume shape the plan gives [f], and the run of its twin from turn [j]
    next to the run from the top. *)
Definition resumeOf (b : list XStmt) : option resumeShape :=
  plResume (default noPlan (planOf ModeForceStatic b)) !! "<module>.f".

Definition twinRuns (b : list XStmt) (args : list value) (j : nat) : option (option pres * option pres) :=
  sh ← resumeOf b;
  st ← turnState noCallee (fdef b) sh args j;
  Some (seen (call noCallee 20 (twin sh) (VInt st.1 :: st.2 :: args)), seen (call noCallee 20 (fdef b) args)).

(** The bound is a local: the twin reads a name it does not have. *)
Lemma resume_local_bound : twinRuns [looping [plainParamOf "k" "int"] "int"
    [setTo "n" (XIntLit "3"); setTo "s" (XIntLit "0")] (XName "n") (XName "k")] [VInt (2 ^ 62)] 1 =
  Some (None, Some (PDone (VInt (3 * 2 ^ 62)))).
Proof. vm_compute. reflexivity. Qed.

(** A parameter is rebound in front of the loop: the twin adds its entry value. *)
Lemma resume_param_rebound : twinRuns [looping [plainParamOf "k" "int"] "int"
    [setTo "k" (XBinOp Ast.BinBitXor (XName "k") (XIntLit "1")); setTo "s" (XIntLit "0")] (XIntLit "3") (XName "k")] [VInt (2 ^ 62)] 1 =
  Some (Some (PDone (VInt (3 * 2 ^ 62 + 1))), Some (PDone (VInt (3 * (2 ^ 62 + 1))))).
Proof. vm_compute. reflexivity. Qed.

(** The accumulator is a parameter: the twin has two parameters of its name. *)
Lemma resume_duplicate_param : (fun sh => paramNames (twin sh)) <$> resumeOf [looping [plainParamOf "s" "int"] "int"
    [setTo "s" (XIntLit "1")] (XIntLit "3") (XBinOp Ast.BinBitAnd (XName "s") (XIntLit "7"))] =
  Some ["i"; "s"; "s"].
Proof. vm_compute. reflexivity. Qed.

(** The accumulator is a float, and the hand-off takes it as an int. *)
Definition summing : list XStmt := [looping [plainParamOf "k" "int"] "float"
  [setTo "s" (XFloatLit (SpecFloat.S754_zero false))] (XIntLit "3") (XBinOp Ast.BinMul (XName "k") (XName "k"))].

Lemma resume_float_lead : let pl := default noPlan (planOf ModeForceStatic summing) in
  (fun e => rsLead <$> seResume e) <$> staticEntries noGlobals noShapes pl !! "f" = Some (Some [StaticInt; StaticInt]) /\
  (fun st => match st.2 with VFloat _ => true | _ => false end) <$>
    (sh ← resumeOf summing; turnState noCallee (fdef summing) sh [VInt 2] 1) = Some true.
Proof. split; vm_compute; reflexivity. Qed.

(** A deopt target with a parameter of a shape class: the site's transfer table
    has only the scalars, so it verifies, and the entry's deopt hand-off has a
    parameter without a scalar kind. *)
Definition pointShape (x : string) : option Repr :=
  if String.eqb x "P" then Some (mkRepr "P" NotScalar None (Some (StaticOps.mkShape Repr "P" [mkShapeField Repr "x" intRepr])))
  else None.

Definition shaped : list XStmt :=
  [defOf 1 "f" [plainParamOf "p" "P"; plainParamOf "k" "int"] (Some "int")
     [SReturn (Some (XBinOp Ast.BinBitAnd (XAttribute (XName "p") "x") (XBinOp Ast.BinAdd (XName "k") (XName "k"))))]].

Lemma shape_deopt_target :
  (match DriveWith "m" shaped ModeForceStatic noGlobals pointShape with
   | Some (_, ds) =>
       match planStatic shaped noGlobals pointShape ds with
       | Some (Some pl) => (fun e => (seDeopt e, map spScalar (seParams e))) <$> staticEntries noGlobals pointShape pl !! "f"
       | _ => None
       end
   | None => None
   end) = Some (true, [StaticNone; StaticInt]).
Proof. vm_compute. reflexivity. Qed.
