(* ===== verification/C3.v ===== *)
(** * C3: the method resolution order of a class

    Model of c3Linearize and its helpers in src/pkg/objects/class.go.  A class
    object is a node (its address), [object] a fixed one; [mroOf] is the stored
    [mro] of a class, which leaves [object] out.  The theorem says when the
    merge succeeds and that its result is the order the sequences ask for; the
    class hierarchy at the end is built by class statements, one after another. *)

From S2P Require Import Prelude.
From stdpp Require Import sorting.

Notation Cls := nat.

Section Merge.

Definition inSomeTail (c : Cls) (seqs : list (list Cls)) : bool :=
  existsb (fun s => existsb (Nat.eqb c) (tail s)) seqs.

(** The first head no tail holds. *)
Definition candidate (live : list (list Cls)) : option Cls :=
  List.find (fun c => negb (inSomeTail c live)) (omap head live).

Definition dropHead (c : Cls) (s : list Cls) : list Cls :=
  match s with x :: s' => if Nat.eqb x c then s' else s | [] => [] end.

Definition nonempty (s : list Cls) : bool := match s with [] => false | _ => true end.

(** The heads of the live sequences, each once, in the order they are seen. *)
Definition blockedHeads (live : list (list Cls)) : list Cls :=
  fold_left (fun seen h => if existsb (Nat.eqb h) seen then seen else seen ++ [h]) (omap head live) [].

(** [inr] is the error with the heads it names; [None] is fuel that ran out. *)
Fixpoint c3Merge (fuel : nat) (seqs : list (list Cls)) (res : list Cls) : option (list Cls + list Cls) :=
  match fuel with
  | O => None
  | S fuel =>
      match List.filter nonempty seqs with
      | [] => Some (inl res)
      | live =>
          match candidate live with
          | None => Some (inr (blockedHeads live))
          | Some c => c3Merge fuel (map (dropHead c) live) (res ++ [c])
          end
      end
  end.

(** One turn per element is enough. *)
Definition mergeFuel (seqs : list (list Cls)) : nat := S (length (concat seqs)).
End Merge.

Definition objectClass : Cls := 0%nat.

Section Linearize.
Context (mroOf : Cls -> list Cls).

Definition fullMRO (b : Cls) : list Cls := if Nat.eqb b objectClass then [objectClass] else mroOf b ++ [objectClass].

Definition containsClass (cs : list Cls) (want : Cls) : bool := existsb (Nat.eqb want) cs.
Definition dropClass (cs : list Cls) (drop : Cls) : list Cls := List.filter (fun c => negb (Nat.eqb c drop)) cs.

Definition mergeSeqs (bases : list Cls) : list (list Cls) :=
  map fullMRO bases ++ [bases ++ if containsClass bases objectClass then [] else [objectClass]].

Definition c3Linearize (c : Cls) (bases : list Cls) : option (list Cls + list Cls) :=
  match bases with
  | [] => Some (inl [c])
  | _ =>
      let seqs := mergeSeqs bases in
      match c3Merge (mergeFuel seqs) seqs [] with
      | Some (inl merged) => Some (inl (dropClass (c :: merged) objectClass))
      | r => r
      end
  end.
End Linearize.

(** ** Class statements *)

Record classObject := mkClass { cBases : list Cls; cMro : list Cls; cSubclasses : list Cls }.

Notation hierarchy := (gmap Cls classObject).

Definition typeClass : Cls := 1%nat.

(** [object], whose own [mro] is empty, and [type]. *)
Definition initial : hierarchy :=
  {[ objectClass := mkClass [] [] []; typeClass := mkClass [] [typeClass] [] ]}.

Inductive classError := DuplicateBase (b : Cls) | InconsistentMRO (heads : list Cls).

Definition addSubclass (c : Cls) (k : classObject) : classObject := mkClass (cBases k) (cMro k) (cSubclasses k ++ [c]).

(** The loop over the bases: a class is entered in each base's subclasses. *)
Fixpoint linkBases (h : hierarchy) (c : Cls) (bases linked : list Cls) : hierarchy * (list Cls + classError) :=
  match bases with
  | [] => (h, inl linked)
  | b :: bases =>
      if existsb (Nat.eqb b) linked then (h, inr (DuplicateBase b))
      else linkBases (alter (addSubclass c) b h) c bases (linked ++ [b])
  end.

Definition mroIn (h : hierarchy) (b : Cls) : list Cls := match h !! b with Some k => cMro k | None => [] end.

(** The class at the fresh address [c]; an error leaves the links made. *)
Definition newClass (h : hierarchy) (c : Cls) (bases : list Cls) : option (hierarchy * (list Cls + classError)) :=
  match linkBases h c bases [] with
  | (h, inr e) => Some (h, inr e)
  | (h, inl bases) =>
      match c3Linearize (mroIn h) c bases with
      | Some (inl m) => Some (<[c := mkClass bases m []]> h, inl m)
      | Some (inr heads) => Some (h, inr (InconsistentMRO heads))
      | None => None
      end
  end.

(** ** The merge *)

(** The merged order of a set of sequences: their elements, each once, with
    every sequence as a subsequence. *)
Definition consistent (seqs : list (list Cls)) (o : list Cls) : Prop :=
  NoDup o /\ Forall (fun s => s `sublist_of` o) seqs /\ forall x, x ∈ o -> x ∈ concat seqs.

Lemma inSomeTail_true c seqs : inSomeTail c seqs = true <-> exists s, s ∈ seqs /\ c ∈ tail s.
Proof.
  unfold inSomeTail. rewrite existsb_exists. split.
  - intros (s & Hs & (x & Hx & Ex%Nat.eqb_eq)%existsb_exists). exists s. subst. by rewrite !list_elem_of_In.
  - intros (s & Hs & Hx). exists s. split; [by apply list_elem_of_In|]. apply existsb_exists. exists c.
    split; [by apply list_elem_of_In|]. apply Nat.eqb_refl.
Qed.

Lemma inSomeTail_false c seqs s : inSomeTail c seqs = false -> s ∈ seqs -> c ∉ tail s.
Proof. intros H Hs Hc. apply not_true_iff_false in H. apply H, inSomeTail_true. by exists s. Qed.

Lemma candidate_some live c : candidate live = Some c -> (exists s, s ∈ live /\ head s = Some c) /\ inSomeTail c live = false.
Proof.
  intros [Hin Hb%negb_true_iff]%find_some. apply list_elem_of_In, list_elem_of_omap in Hin as (s & Hs & Hh). eauto.
Qed.

Lemma candidate_none live s c : candidate live = None -> s ∈ live -> head s = Some c -> inSomeTail c live = true.
Proof.
  intros H Hs Hh. assert (In c (omap head live)) as Hin by (apply list_elem_of_In, list_elem_of_omap; eauto).
  apply (find_none _ _ H) in Hin. by apply negb_false_iff in Hin.
Qed.

(** A head no tail holds is gone after the turn. *)
Lemma dropHead_filter c s : c ∉ tail s -> dropHead c s = List.filter (fun x => negb (Nat.eqb x c)) s.
Proof.
  destruct s as [|x s]; [done|]. simpl. intros Hc.
  assert (List.filter (fun x => negb (Nat.eqb x c)) s = s) as E.
  { induction s as [|y s IH]; [done|]. simpl. destruct (Nat.eqb_spec y c) as [->|]; [set_solver|]. simpl. rewrite IH; [done|set_solver]. }
  destruct (Nat.eqb_spec x c); simpl; by rewrite E.
Qed.

Lemma filter_sublist (f : Cls -> bool) s o : s `sublist_of` o -> List.filter f s `sublist_of` List.filter f o.
Proof. induction 1 as [|x l k H IH|x l k H IH]; simpl; [apply sublist_nil_l|..]; destruct (f x); by try constructor. Qed.

Lemma filter_sub (f : Cls -> bool) o : List.filter f o `sublist_of` o.
Proof. induction o as [|x o IH]; simpl; [apply sublist_nil_l|]. destruct (f x); by constructor. Qed.

Lemma filter_elem (f : Cls -> bool) o x : x ∈ List.filter f o <-> x ∈ o /\ f x = true.
Proof. rewrite !list_elem_of_In. apply filter_In. Qed.

Lemma concat_elem (l : list (list Cls)) x : x ∈ concat l <-> exists s, s ∈ l /\ x ∈ s.
Proof. rewrite list_elem_of_In, in_concat. split; intros (s & H); exists s; by rewrite !list_elem_of_In in *. Qed.

Lemma consistent_live seqs o : consistent (List.filter nonempty seqs) o <-> consistent seqs o.
Proof.
  assert (concat (List.filter nonempty seqs) = concat seqs) as E.
  { induction seqs as [|[|x s] l IH]; simpl; [done|done|by rewrite IH]. }
  unfold consistent. rewrite E, !Forall_forall. split; intros (H1 & H2 & H3); split_and!; try done; intros s Hs.
  - destruct s as [|x s]; [apply sublist_nil_l|]. apply H2, list_elem_of_In, filter_In. split; [by apply list_elem_of_In|done].
  - apply list_elem_of_In, filter_In in Hs as [Hs _]. by apply H2, list_elem_of_In.
Qed.

(** One turn of the merge, in both directions. *)
Lemma consistent_step live c o : inSomeTail c live = false -> (exists s, s ∈ live /\ head s = Some c) ->
  consistent (map (dropHead c) live) o -> consistent live (c :: o).
Proof.
  intros Ht (s0 & Hs0 & Hh0) (H1 & H2 & H3). rewrite Forall_forall in H2.
  assert (forall x, x ∈ o -> exists s, s ∈ live /\ x ∈ s /\ x <> c) as Hin.
  { intros x (s' & (s & -> & Hs)%list_elem_of_fmap & Hx)%H3%concat_elem. exists s.
    rewrite (dropHead_filter c s) in Hx by by eapply inSomeTail_false. apply filter_elem in Hx as [Hx Hn].
    apply negb_true_iff, Nat.eqb_neq in Hn. done. }
  split_and!.
  - constructor; [|done]. intros (s & _ & _ & ?)%Hin. done.
  - apply Forall_forall. intros s Hs. assert (dropHead c s `sublist_of` o) as Hd by (apply H2, list_elem_of_fmap; eauto).
    destruct s as [|x s]; [apply sublist_nil_l|]. simpl in Hd. destruct (Nat.eqb_spec x c) as [->|]; by constructor.
  - intros x [->|Hx]%elem_of_cons; apply concat_elem; [|destruct (Hin x Hx) as (s & ? & ? & _); eauto].
    exists s0. split; [done|]. destruct s0; simplify_eq/=. by left.
Qed.

Lemma consistent_drop live c o : inSomeTail c live = false -> consistent live o ->
  consistent (map (dropHead c) live) (List.filter (fun x => negb (Nat.eqb x c)) o).
Proof.
  intros Ht (H1 & H2 & H3). rewrite Forall_forall in H2. split_and!.
  - eapply sublist_NoDup; [exact H1|apply filter_sub].
  - apply Forall_forall. intros s' (s & -> & Hs)%list_elem_of_fmap. rewrite dropHead_filter by by eapply inSomeTail_false.
    by apply filter_sublist, H2.
  - intros x [Hx Hn]%filter_elem. apply H3, concat_elem in Hx as (s & Hs & Hx). apply concat_elem. exists (dropHead c s).
    split; [apply list_elem_of_fmap; eauto|]. rewrite dropHead_filter by by eapply inSomeTail_false. by apply filter_elem.
Qed.

(** The first class of a consistent order is a candidate. *)
Lemma consistent_candidate live x o : consistent live (x :: o) -> exists s, s ∈ live /\ head s = Some x /\ inSomeTail x live = false.
Proof.
  intros (H1 & H2 & H3). apply NoDup_cons in H1 as [Hx _]. rewrite Forall_forall in H2.
  assert (forall s, s ∈ live -> x ∈ s -> exists s', s = x :: s' /\ x ∉ s') as Hs.
  { intros s Hs Hxs. pose proof (H2 s Hs) as Hsub. inversion Hsub; subst.
    - eexists. split; [done|]. intros Hin. apply Hx. eapply elem_of_submseteq; [exact Hin|by apply sublist_submseteq].
    - exfalso. apply Hx. eapply elem_of_submseteq; [exact Hxs|by apply sublist_submseteq]. }
  destruct (proj1 (concat_elem live x) (H3 x ltac:(by left))) as (s & Hsl & Hxs). exists s. split; [done|].
  destruct (Hs s Hsl Hxs) as (s' & -> & _). split; [done|]. apply not_true_iff_false. intros (t & Ht & Hxt)%inSomeTail_true.
  destruct (Hs t Ht) as (t' & -> & Hn); [by destruct t; [done|right]|]. done.
Qed.

Lemma concat_length_filter (l : list (list Cls)) : length (concat (List.filter nonempty l)) = length (concat l).
Proof. induction l as [|[|x s] l IH]; simpl; [done|done|]. by rewrite !length_app, IH. Qed.

Lemma drop_length c l : (length (concat (map (dropHead c) l)) <= length (concat l))%nat.
Proof.
  induction l as [|s l IH]; simpl; [lia|]. rewrite !length_app. destruct s as [|x s]; simpl; [lia|].
  destruct (Nat.eqb x c); simpl; lia.
Qed.

Lemma drop_shorter c l s : s ∈ l -> head s = Some c -> (length (concat (map (dropHead c) l)) < length (concat l))%nat.
Proof.
  induction l as [|t l IH]; intros Hs Hh; [by apply not_elem_of_nil in Hs|]. simpl. rewrite !length_app.
  apply elem_of_cons in Hs as [<-|Hs].
  - destruct s as [|x s]; simplify_eq/=. rewrite Nat.eqb_refl. pose proof (drop_length c l). lia.
  - specialize (IH Hs Hh). destruct t as [|x t]; simpl; [lia|]. destruct (Nat.eqb x c); simpl; lia.
Qed.

Lemma c3Merge_spec fuel : forall seqs res, (length (concat seqs) < fuel)%nat ->
  (exists o, c3Merge fuel seqs res = Some (inl (res ++ o)) /\ consistent seqs o) \/
  (exists names, c3Merge fuel seqs res = Some (inr names) /\ forall o, ~ consistent seqs o).
Proof.
  induction fuel as [|fuel IH]; intros seqs res Hf; [lia|]. cbn [c3Merge].
  pose proof (concat_length_filter seqs) as Hl. setoid_rewrite <- (consistent_live seqs).
  destruct (List.filter nonempty seqs) as [|s live0] eqn:El.
  - left. exists []. rewrite app_nil_r. split; [done|]. split_and!; [constructor|by constructor|].
    intros x H. by apply not_elem_of_nil in H.
  - set (live := s :: live0) in *. destruct (candidate live) as [c|] eqn:Ec.
    + apply candidate_some in Ec as [(t & Ht & Hh) Htail]. pose proof (drop_shorter c live t Ht Hh) as Hlt.
      destruct (IH (map (dropHead c) live) (res ++ [c])) as [(o & -> & Ho)|(names & -> & Hno)]; [lia|left|right].
      * exists (c :: o). rewrite <- app_assoc. split; [done|]. apply consistent_step; eauto.
      * exists names. split; [done|]. intros o Ho. by eapply Hno, consistent_drop.
    + right. eexists. split; [done|]. intros [|x o] Ho.
      * destruct Ho as (_ & H2 & _). apply Forall_cons in H2 as [H2 _].
        assert (s ∈ List.filter nonempty seqs) as Hs by (rewrite El; by left). apply sublist_nil_r in H2. subst s.
        by apply list_elem_of_In, filter_In in Hs as [_ ?].
      * destruct (consistent_candidate live x o Ho) as (t & Ht & Hh & Hf').
        by rewrite (candidate_none live t x Ec Ht Hh) in Hf'.
Qed.

(** C27: the C3 merge is exact.  On any sequences of classes it returns; if there
    is an order without repetitions, of exactly their elements, in which every
    sequence keeps its order, it returns one, and it raises only if there is
    none. *)
Theorem c3Merge_exact seqs :
  (exists o, c3Merge (mergeFuel seqs) seqs [] = Some (inl o) /\ consistent seqs o) \/
  (exists heads, c3Merge (mergeFuel seqs) seqs [] = Some (inr heads) /\ forall o, ~ consistent seqs o).
Proof. apply (c3Merge_spec (mergeFuel seqs) seqs []). unfold mergeFuel. lia. Qed.

(** ** The hierarchy *)

(** Bases and order of every class. *)
Notation view := (gmap Cls (list Cls * list Cls)).

Definition parent (v : view) (x y : Cls) : Prop := exists bs m, v !! x = Some (bs, m) /\ y ∈ bs.

(** The order of a class: itself first, then its ancestors, each once and
    without [object]; the order of each ancestor and the bases keep theirs. *)
Record mroOK (v : view) (c : Cls) (bs m : list Cls) : Prop := {
  mo_nodup : NoDup m;
  mo_head : head m = Some c;
  mo_elem : forall x, x ∈ m <-> rtc (parent v) c x /\ x <> objectClass;
  mo_sub : forall x bs' m', x ∈ m -> v !! x = Some (bs', m') -> m' `sublist_of` m;
  mo_bases : dropClass bs objectClass `sublist_of` m
}.

Record wfView (v : view) : Prop := {
  wf_object : v !! objectClass = Some ([], []);
  wf_closed : forall x y, parent v x y -> is_Some (v !! y);
  wf_mro : forall c bs m, v !! c = Some (bs, m) -> c <> objectClass -> mroOK v c bs m
}.

Definition viewOf (h : hierarchy) : view := (fun k => (cBases k, cMro k)) <$> h.

Lemma linkBases_view c bases : forall h linked h' r, linkBases h c bases linked = (h', r) -> viewOf h' = viewOf h.
Proof.
  induction bases as [|b bs IH]; intros h linked h' r E; simpl in E; [by simplify_eq|].
  destruct (existsb _ _); [by simplify_eq|]. rewrite (IH _ _ _ _ E). apply map_eq. intros x. unfold viewOf.
  rewrite !lookup_fmap. destruct (decide (x = b)) as [->|]; [rewrite lookup_alter_eq|by rewrite lookup_alter_ne].
  by destruct (h !! b).
Qed.

Lemma linkBases_linked c bases : forall h linked h' l, NoDup linked -> linkBases h c bases linked = (h', inl l) ->
  NoDup l /\ forall x, x ∈ l -> x ∈ linked \/ x ∈ bases.
Proof.
  induction bases as [|b bs IH]; intros h linked h' l Hd E; simpl in E; [simplify_eq; auto|].
  destruct (existsb _ _) eqn:Eb; [done|].
  assert (b ∉ linked) as Hb.
  { intros Hin. apply not_true_iff_false in Eb. apply Eb, existsb_exists. exists b.
    split; [by apply list_elem_of_In|apply Nat.eqb_refl]. }
  assert (NoDup (linked ++ [b])) as Hd'.
  { apply NoDup_app. split_and!; [done| |apply NoDup_singleton]. by intros x Hx ->%list_elem_of_singleton. }
  destruct (IH _ _ _ _ Hd' E) as [H1 H2].
  split; [done|]. intros x Hx. apply H2 in Hx. set_solver.
Qed.

(** Ancestors of a class that is there do not change when one is added. *)
Lemma rtc_old v c bs m d x : wfView v -> v !! c = None -> is_Some (v !! d) ->
  rtc (parent (<[c := (bs, m)]> v)) d x <-> rtc (parent v) d x.
Proof.
  intros Hwf Hc Hd. split; intros H.
  - induction H as [|d y x (bs' & m' & Hl & Hy) _ IH]; [done|].
    rewrite lookup_insert_ne in Hl by (intros ->; rewrite Hc in Hd; by destruct Hd).
    assert (parent v d y) as Hp by (by exists bs', m'). eapply rtc_l; [exact Hp|]. apply IH. by eapply wf_closed.
  - revert H. apply rtc_subrel. intros a b (bs' & m' & Hl & Hb). exists bs', m'. split; [|done].
    rewrite lookup_insert_ne by congruence. done.
Qed.

Lemma rtc_dom v d x : wfView v -> is_Some (v !! d) -> rtc (parent v) d x -> is_Some (v !! x).
Proof. intros Hwf Hd H. induction H as [|d y x Hp _ IH]; [done|]. apply IH. by eapply wf_closed. Qed.

Lemma rtc_object v x : wfView v -> rtc (parent v) objectClass x -> x = objectClass.
Proof.
  intros Hwf H. inversion H as [|? y ? (bs & m & Hl & Hy) _]; [done|]. rewrite (wf_object v Hwf) in Hl. simplify_eq.
  by apply not_elem_of_nil in Hy.
Qed.

Definition mroV (v : view) (b : Cls) : list Cls := match v !! b with Some p => p.2 | None => [] end.

Lemma mroV_spec v b : wfView v -> is_Some (v !! b) -> b <> objectClass -> exists bs, mroOK v b bs (mroV v b).
Proof. intros Hwf [[bs m] Hb] Hn. exists bs. unfold mroV. rewrite Hb. by apply wf_mro. Qed.

(** The elements of a base's full order: its ancestors and [object]. *)
Lemma fullMRO_elem v b x : wfView v -> is_Some (v !! b) ->
  x ∈ fullMRO (mroV v) b <-> rtc (parent v) b x \/ x = objectClass.
Proof.
  intros Hwf Hb. unfold fullMRO. destruct (Nat.eqb_spec b objectClass) as [->|Hn].
  - split; [intros ->%list_elem_of_singleton; by right|]. intros [->%rtc_object| ->]; [by left|done|by left].
  - destruct (mroV_spec v b Hwf Hb Hn) as [bs Ho]. rewrite elem_of_app, (mo_elem _ _ _ _ Ho), list_elem_of_singleton.
    destruct (decide (x = objectClass)); naive_solver.
Qed.

Lemma dropClass_elem cs c x : x ∈ dropClass cs c <-> x ∈ cs /\ x <> c.
Proof. unfold dropClass. by rewrite filter_elem, negb_true_iff, Nat.eqb_neq. Qed.

Lemma dropClass_id cs c : c ∉ cs -> dropClass cs c = cs.
Proof.
  induction cs as [|x cs IH]; intros H; simpl; [done|]. destruct (Nat.eqb_spec x c) as [->|]; [set_solver|]. simpl.
  rewrite IH; [done|set_solver].
Qed.

Lemma dropClass_full v b : wfView v -> is_Some (v !! b) -> b <> objectClass -> dropClass (fullMRO (mroV v) b) objectClass = mroV v b.
Proof.
  intros Hwf Hb Hn. destruct (mroV_spec v b Hwf Hb Hn) as [bs Ho]. unfold fullMRO. rewrite (proj2 (Nat.eqb_neq _ _) Hn).
  unfold dropClass at 1. rewrite List.filter_app. simpl. rewrite app_nil_r. apply dropClass_id.
  intros [_ H]%(mo_elem _ _ _ _ Ho). done.
Qed.

Section Insert.
Context (v : view) (c : Cls) (bs : list Cls).
Context (Hwf : wfView v) (Hc : v !! c = None) (Hbs : forall b, b ∈ bs -> is_Some (v !! b)).

Lemma seqs_elem x : x ∈ concat (mergeSeqs (mroV v) bs) <->
  (exists b, b ∈ bs /\ rtc (parent v) b x) \/ x = objectClass.
Proof.
  unfold mergeSeqs. rewrite concat_elem. setoid_rewrite elem_of_app. split.
  - intros (s & [(b & -> & Hb)%list_elem_of_fmap| ->%list_elem_of_singleton] & Hx).
    + apply fullMRO_elem in Hx as [Hx|Hx]; [left; by exists b|by right|done|by apply Hbs].
    + apply elem_of_app in Hx as [Hx|Hx]; [left; exists x; split; [done|apply rtc_refl]|].
      destruct (containsClass bs objectClass); [by apply not_elem_of_nil in Hx|]. apply list_elem_of_singleton in Hx. by right.
  - assert (exists s, (s ∈ map (fullMRO (mroV v)) bs \/ s ∈ [bs ++ (if containsClass bs objectClass then [] else [objectClass])]) /\
      objectClass ∈ s) as Ho.
    { eexists. split; [right; by apply list_elem_of_singleton|]. apply elem_of_app.
      destruct (containsClass bs objectClass) eqn:E; [left|right; by left].
      apply existsb_exists in E as (y & Hy & <-%Nat.eqb_eq). by apply list_elem_of_In. }
    intros [(b & Hb & Hx)| ->]; [|done]. exists (fullMRO (mroV v) b). split; [left; apply list_elem_of_fmap; eauto|].
    apply fullMRO_elem; [done|by apply Hbs|by left].
Qed.

Context (o : list Cls) (Ho : consistent (mergeSeqs (mroV v) bs) o).

Lemma order_elem x : x ∈ dropClass o objectClass <-> (exists b, b ∈ bs /\ rtc (parent v) b x) /\ x <> objectClass.
Proof.
  destruct Ho as (H1 & H2 & H3). rewrite Forall_forall in H2. rewrite dropClass_elem.
  assert (x ∈ o <-> x ∈ concat (mergeSeqs (mroV v) bs)) as ->; [|rewrite seqs_elem; naive_solver].
  split; [apply H3|]. intros (s & Hs & Hx)%concat_elem. eapply elem_of_submseteq; [exact Hx|]. by apply sublist_submseteq, H2.
Qed.

Lemma order_seq s : s ∈ mergeSeqs (mroV v) bs -> dropClass s objectClass `sublist_of` dropClass o objectClass.
Proof. destruct Ho as (_ & H2 & _). rewrite Forall_forall in H2. intros Hs. by apply filter_sublist, H2. Qed.

Lemma order_fresh : c ∉ dropClass o objectClass.
Proof.
  intros [(b & Hb & Hr) _]%order_elem. apply rtc_dom in Hr; [|done|by apply Hbs]. rewrite Hc in Hr. by destruct Hr.
Qed.

(** A new class with the merged order. *)
Lemma insert_ok : c <> objectClass -> mroOK (<[c := (bs, c :: dropClass o objectClass)]> v) c bs (c :: dropClass o objectClass).
Proof.
  intros Hn. split.
  - constructor; [apply order_fresh|]. eapply sublist_NoDup; [|apply filter_sub]. apply Ho.
  - done.
  - intros x. rewrite elem_of_cons, order_elem. split.
    + intros [->|[(b & Hb & Hr) Hx]]; [split; [apply rtc_refl|done]|]. split; [|done]. eapply rtc_l.
      * exists bs, (c :: dropClass o objectClass). split; [by rewrite lookup_insert_eq|exact Hb].
      * apply rtc_old; [done|done|by apply Hbs|done].
    + intros [Hr Hx]. inversion Hr as [|? b ? (bs' & m' & Hl & Hb) Hr']; [by left|subst]. right. split; [|done].
      rewrite lookup_insert_eq in Hl. simplify_eq. exists b. split; [done|].
      apply rtc_old in Hr'; [done|done|done|by apply Hbs].
  - intros x bs' m' Hx Hl. destruct (decide (x = c)) as [->|Hxc].
    + rewrite lookup_insert_eq in Hl. by simplify_eq.
    + rewrite lookup_insert_ne in Hl by done. apply elem_of_cons in Hx as [->|[(b & Hb & Hr) Hx]%order_elem]; [done|].
      apply sublist_cons. assert (b <> objectClass) as Hbn by (intros ->; by apply rtc_object in Hr).
      destruct (mroV_spec v b Hwf (Hbs b Hb) Hbn) as [bsb Hob]. etrans.
      * apply (mo_sub _ _ _ _ Hob x bs' m'); [|done]. by apply (mo_elem _ _ _ _ Hob).
      * rewrite <- (dropClass_full v b) by (done || by apply Hbs). apply order_seq. unfold mergeSeqs.
        apply elem_of_app. left. apply list_elem_of_fmap. eauto.
  - apply sublist_cons. etrans; [|apply order_seq; unfold mergeSeqs; apply elem_of_app; right; by apply list_elem_of_singleton].
    unfold dropClass. rewrite List.filter_app. by apply sublist_inserts_r.
Qed.
End Insert.

(** The classes that were there keep their orders. *)
Lemma old_ok v c bs m d bs' m' : wfView v -> v !! c = None -> v !! d = Some (bs', m') -> mroOK v d bs' m' ->
  mroOK (<[c := (bs, m)]> v) d bs' m'.
Proof.
  intros Hwf Hc Hd []. assert (is_Some (v !! d)) as Hs by by eexists. split; try done.
  - intros x. rewrite rtc_old by done. done.
  - intros x bs'' m'' Hx Hl. rewrite lookup_insert_ne in Hl; [by eapply mo_sub0|]. intros <-.
    apply mo_elem0 in Hx as [Hr _]. apply rtc_dom in Hr; [|done|done]. rewrite Hc in Hr. by destruct Hr.
Qed.

(** The hierarchies class statements build: each at a fresh address, over
    classes that are there. *)
Inductive built : hierarchy -> Prop :=
  | built_initial : built initial
  | built_class h c bases h' r : built h -> h !! c = None -> (forall b, b ∈ bases -> is_Some (h !! b)) ->
      newClass h c bases = Some (h', r) -> built h'.

Lemma initial_wf : wfView (viewOf initial).
Proof.
  split.
  - by vm_compute.
  - intros x y (bs & m & Hl & Hy). unfold viewOf, initial in Hl. rewrite lookup_fmap in Hl.
    destruct (decide (x = objectClass)) as [->|]; simplify_map_eq; [by apply not_elem_of_nil in Hy|].
    destruct (decide (x = typeClass)) as [->|]; simplify_map_eq. by apply not_elem_of_nil in Hy.
  - intros c bs m Hl Hn. unfold viewOf, initial in Hl. rewrite lookup_fmap in Hl. simplify_map_eq.
    destruct (decide (c = typeClass)) as [->|]; simplify_map_eq. split.
    + apply NoDup_singleton.
    + done.
    + intros x. rewrite list_elem_of_singleton. split; [intros ->; split; [apply rtc_refl|done]|].
      intros [Hr Hx]. inversion Hr as [|? y ? (bs & m & Hl & Hy) _]; [done|]. unfold viewOf, initial in Hl.
      rewrite lookup_fmap in Hl. simplify_map_eq. by apply not_elem_of_nil in Hy.
    + intros x bs' m' ->%list_elem_of_singleton Hl'. unfold viewOf, initial in Hl'. rewrite lookup_fmap in Hl'. by simplify_map_eq.
    + apply sublist_nil_l.
Qed.

(** A linearization always returns, with an order that fits its bases. *)
Lemma c3Linearize_spec v c bs : c <> objectClass ->
  (exists heads, c3Linearize (mroV v) c bs = Some (inr heads)) \/
  (bs = [] /\ c3Linearize (mroV v) c bs = Some (inl [c])) \/
  (exists o, consistent (mergeSeqs (mroV v) bs) o /\
    c3Linearize (mroV v) c bs = Some (inl (c :: dropClass o objectClass))).
Proof.
  intros Hn. unfold c3Linearize. destruct bs as [|b bs]; [right; left; done|]. set (seqs := mergeSeqs _ _).
  destruct (c3Merge_spec (mergeFuel seqs) seqs []) as [(o & -> & Ho)|(heads & -> & _)]; [unfold mergeFuel; lia| |left; by eexists].
  right. right. exists o. split; [done|]. unfold dropClass. simpl. rewrite (proj2 (Nat.eqb_neq _ _) Hn). done.
Qed.

Lemma wf_insert v c bs m : wfView v -> v !! c = None -> c <> objectClass -> (forall b, b ∈ bs -> is_Some (v !! b)) ->
  c3Linearize (mroV v) c bs = Some (inl m) -> wfView (<[c := (bs, m)]> v).
Proof.
  intros Hwf Hc Hn Hbs E. assert (mroOK (<[c := (bs, m)]> v) c bs m) as Hok.
  { destruct (c3Linearize_spec v c bs Hn) as [(? & E')|[[-> E']|(o & Ho & E')]]; rewrite E in E'; simplify_eq.
    - split; [apply NoDup_singleton|done| | |apply sublist_nil_l].
      + intros x. rewrite list_elem_of_singleton. split; [intros ->; split; [apply rtc_refl|done]|].
        intros [Hr _]. inversion Hr as [|? y ? (bs & m & Hl & Hy) _]; [done|]. rewrite lookup_insert_eq in Hl. simplify_eq.
        by apply not_elem_of_nil in Hy.
      + intros x bs' m' ->%list_elem_of_singleton Hl. rewrite lookup_insert_eq in Hl. by simplify_eq.
    - by apply insert_ok. }
  split.
  - rewrite lookup_insert_ne by done. by apply wf_object.
  - intros x y (bs' & m' & Hl & Hy). apply lookup_insert_is_Some'. destruct (decide (x = c)) as [->|Hx].
    + rewrite lookup_insert_eq in Hl. simplify_eq. right. by apply Hbs.
    + rewrite lookup_insert_ne in Hl by done. right. apply (wf_closed v Hwf x y). by exists bs', m'.
  - intros d bs' m' Hl Hd. destruct (decide (d = c)) as [->|Hx].
    + rewrite lookup_insert_eq in Hl. by simplify_eq.
    + rewrite lookup_insert_ne in Hl by done. apply old_ok; try done. by apply wf_mro.
Qed.

Lemma viewOf_lookup h x : viewOf h !! x = (fun k => (cBases k, cMro k)) <$> h !! x.
Proof. apply lookup_fmap. Qed.

Lemma mroIn_view h b : mroIn h b = mroV (viewOf h) b.
Proof. unfold mroIn, mroV. rewrite viewOf_lookup. by destruct (h !! b). Qed.

Lemma c3Linearize_ext f g c bs : (forall b, f b = g b) -> c3Linearize f c bs = c3Linearize g c bs.
Proof.
  intros H. unfold c3Linearize. destruct bs as [|b bs]; [done|].
  assert (mergeSeqs f (b :: bs) = mergeSeqs g (b :: bs)) as ->; [|done].
  unfold mergeSeqs. f_equal. apply map_ext. intros x. unfold fullMRO. by rewrite H.
Qed.

Lemma newClass_wf h c bases h' r : wfView (viewOf h) -> h !! c = None -> (forall b, b ∈ bases -> is_Some (h !! b)) ->
  newClass h c bases = Some (h', r) -> wfView (viewOf h').
Proof.
  intros Hwf Hc Hb. unfold newClass. destruct (linkBases h c bases []) as [h1 [bs|e]] eqn:El.
  2: { intros [= <- <-]. by rewrite (linkBases_view _ _ _ _ _ _ El). }
  pose proof (linkBases_view _ _ _ _ _ _ El) as Ev. destruct (linkBases_linked _ _ _ _ _ _ (NoDup_nil_2) El) as [_ Hl].
  rewrite (c3Linearize_ext _ (mroV (viewOf h))) by (intros b; by rewrite mroIn_view, Ev).
  assert (c <> objectClass) as Hn.
  { intros ->. pose proof (wf_object _ Hwf) as Ho. rewrite viewOf_lookup, Hc in Ho. done. }
  destruct (c3Linearize _ _ _) as [[m|heads]|] eqn:Em; [|intros [= <- <-]; by rewrite Ev|done].
  intros [= <- <-]. assert (viewOf (<[c := mkClass bs m []]> h1) = <[c := (bs, m)]> (viewOf h)) as ->.
  { unfold viewOf at 1. rewrite fmap_insert. simpl. by rewrite <- Ev. }
  apply wf_insert; try done; [by rewrite viewOf_lookup, Hc|]. intros b [H|H]%Hl; [by apply not_elem_of_nil in H|].
  rewrite viewOf_lookup. destruct (Hb b H) as [k ->]. by eexists.
Qed.

Lemma built_wf h : built h -> wfView (viewOf h).
Proof. induction 1; [apply initial_wf|by eapply newClass_wf]. Qed.

(** C26: method resolution orders.  In every hierarchy that class statements
    build, the stored order of a class starts with the class and lists it and
    its ancestors, each once and without [object]; the order of each ancestor is
    a subsequence of it, and so are the bases as written.  And a class statement
    always ends in a class or an error. *)
Theorem mro_correct h : built h ->
  (forall c k, h !! c = Some k -> c <> objectClass -> mroOK (viewOf h) c (cBases k) (cMro k)) /\
  forall c bases, exists r, newClass h c bases = Some r.
Proof.
  intros Hb. pose proof (built_wf h Hb) as Hwf. split.
  - intros c k Hk Hn. apply wf_mro; [done| |done]. by rewrite viewOf_lookup, Hk.
  - intros c bases. unfold newClass. destruct (linkBases h c bases []) as [h1 [bs|e]]; [|by eexists].
    unfold c3Linearize. destruct bs as [|b bs]; [by eexists|]. set (seqs := mergeSeqs _ _).
    destruct (c3Merge_spec (mergeFuel seqs) seqs []) as [(o & -> & _)|(heads & -> & _)]; [unfold mergeFuel; lia| |]; by eexists.
Qed.

(** ** A diamond *)

Definition declare (h : hierarchy) (c : Cls) (bases : list Cls) : hierarchy := (default (h, inl []) (newClass h c bases)).1.

(** [class A; class B(A); class C(A); class D(B, C)]. *)
Definition diamond : hierarchy := declare (declare (declare (declare initial 2 []) 3 [2]) 4 [2]) 5 [3; 4].

Lemma declare_built h c bases : built h -> h !! c = None -> Forall (fun b => is_Some (h !! b)) bases ->
  is_Some (newClass h c bases) -> built (declare h c bases).
Proof.
  intros Hh Hc Hb [[h' r] E]. unfold declare. rewrite E. eapply built_class; [exact Hh|exact Hc| |exact E].
  by rewrite Forall_forall in Hb.
Qed.

Lemma mro_correct_witness : exists k, diamond !! 5 = Some k /\ cMro k = [5; 3; 4; 2] /\
  mroOK (viewOf diamond) 5 (cBases k) (cMro k).
Proof.
  eexists. split; [reflexivity|]. split; [reflexivity|]. apply (mro_correct diamond); [|reflexivity|done].
  repeat (apply declare_built; [|reflexivity|by repeat constructor|by eexists]). apply built_initial.
Defined.

(** A class statement that raises leaves its class among the subclasses of its
    bases: [class E(A, B)] over the diamond. *)
Lemma failed_class_linked : exists h heads, newClass diamond 6 [2; 3] = Some (h, inr (InconsistentMRO heads)) /\
  h !! 6 = None /\ cSubclasses <$> h !! 2 = Some [3; 4; 6].
Proof. eexists _, _. vm_compute. done. Qed.
