(* ===== verification/SetObj.v ===== *)
(** * SetObj: set and frozenset

    Model of src/pkg/objects/set.go with the set cases of the operators
    (ops.go) and of the augmented operators (inplace.go): a set is its elements
    in insertion order, their canonical keys beside them and an index from a key
    to its position.  Sets are objects at addresses of a store, so an operation
    may name one set twice; [None] is a Go panic.  The elements and their keys
    are those of [HashKey]. *)

From Stdlib Require Import SpecFloat.
From stdpp Require Import sorting.
From S2P Require Import Prelude HashKey.
Local Open Scope nat_scope.

(** ** The core *)

Record setCore := mkCore { keys : list string; elts : list obj; index : gmap string nat }.

Definition newSetCore : setCore := mkCore [] [] ∅.

Definition has (c : setCore) (k : string) : bool := bool_decide (is_Some (index c !! k)).

Definition addKeyed (c : setCore) (k : string) (elt : obj) : setCore :=
  match index c !! k with
  | Some _ => c
  | None => mkCore (keys c ++ [k]) (elts c ++ [elt]) (<[k := length (elts c)]> (index c))
  end.

Definition addElt (c : setCore) (elt : obj) : setCore + pyerr :=
  match setKey elt with inl k => inl (addKeyed c k elt) | inr e => inr e end.

(** [append(l[:i], l[i+1:]...)] *)
Definition cut {A} (i : nat) (l : list A) : list A := take i l ++ drop (S i) l.

Definition removeKey (c : setCore) (k : string) : option (setCore * bool) :=
  match index c !! k with
  | None => Some (c, false)
  | Some i =>
      match keys c !! i, elts c !! i with
      | Some _, Some _ =>
          Some (mkCore (cut i (keys c)) (cut i (elts c))
                  ((fun j => if i <? j then pred j else j) <$> delete k (index c)), true)
      | _, _ => None
      end
  end.

(** [for i, k := range c.keys], with [c.elts[i]] for the body. *)
Fixpoint each {A} (f : A -> string -> option obj -> option A) (acc : A) (ks : list string) (es : list obj) : option A :=
  match ks with
  | [] => Some acc
  | k :: ks => acc ← f acc k (head es); each f acc ks (tail es)
  end.

Definition eachOf {A} (f : A -> string -> option obj -> option A) (acc : A) (c : setCore) : option A :=
  each f acc (keys c) (elts c).

(** [dst.addKeyed(k, c.elts[i])] where the key passes a test. *)
Definition addIf (test : string -> bool) (dst : setCore) (k : string) (e : option obj) : option setCore :=
  if test k then e ← e; Some (addKeyed dst k e) else Some dst.

Definition addWhere (test : string -> bool) (dst c : setCore) : option setCore := eachOf (addIf test) dst c.

Definition unionInto (dst : setCore) (srcs : list setCore) : option setCore :=
  foldl (fun d s => d ← d; addWhere (fun _ => true) d s) (Some dst) srcs.

Definition intersectInto (dst a b : setCore) : option setCore := addWhere (has b) dst a.
Definition diffInto (dst a b : setCore) : option setCore := addWhere (fun k => negb (has b k)) dst a.
Definition symDiffInto (dst a b : setCore) : option setCore := d ← diffInto dst a b; diffInto d b a.

(** [for _, k := range ac.keys { acc.removeKey(k) }] *)
Definition removeKeys (c : setCore) (ks : list string) : option setCore :=
  foldl (fun c k => c ← c; fst <$> removeKey c k) (Some c) ks.

Definition isSubsetCore (a b : setCore) : bool :=
  if length (keys b) <? length (keys a) then false else forallb (has b) (keys a).

Definition sameElements (a b : setCore) : bool :=
  if negb (length (keys a) =? length (keys b)) then false else forallb (has b) (keys a).

Inductive CmpOp := OpLt | OpLe | OpGt | OpGe.

Definition setOrder (op : CmpOp) (a b : setCore) : bool :=
  match op with
  | OpLt => (length (keys a) <? length (keys b)) && isSubsetCore a b
  | OpLe => isSubsetCore a b
  | OpGt => (length (keys b) <? length (keys a)) && isSubsetCore b a
  | OpGe => isSubsetCore b a
  end.

(** ** Objects and arguments *)

Record setObject := mkSet { isFrozen : bool; core : setCore }.

Notation store := (list setObject).

(** A set, an instance of a subclass with its payload, a view of a dict, or
    another object with what iterating it gives: the items and, when it does
    not end by itself, the exception. *)
Inductive value :=
  | VSet (a : nat)
  | VInst (payload : nat) (self : obj)
  | VKeys (entries : list (obj * obj))
  | VItems (entries : list (obj * obj))
  | VObj (o : obj) (items : list obj) (stop : option pyerr).

Inductive setErr := SErr (e : pyerr) | SKeyError (v : value).

Inductive out :=
  | RNone
  | RBool (b : bool)
  | RElt (o : obj)
  | RSet (a : nat)
  | RFail (e : setErr)
  | RUnsupported.

(** A set as an element: a frozenset is its elements by key, in the order of a
    finite map, as nothing below looks at their order. *)
Definition setObj (frozen : bool) (items : list (string * obj)) : obj :=
  if frozen then OFrozenset (map_to_list (list_to_map items : gmap string obj)) else OUnhashable "set".

Definition itemsIn (c : setCore) : list (string * obj) := zip (keys c) (elts c).

Definition eltOf (h : store) (v : value) : option obj :=
  match v with
  | VSet a => s ← h !! a; Some (setObj (isFrozen s) (itemsIn (core s)))
  | VInst _ o => Some o
  | VKeys _ => Some (OUnhashable "dict_keys")
  | VItems _ => Some (OUnhashable "dict_items")
  | VObj o _ _ => Some o
  end.

Definition asSetObject (h : store) (v : value) : option (option setObject) :=
  match v with
  | VSet a | VInst a _ => s ← h !! a; Some (Some s)
  | _ => Some None
  end.

(** The key a membership test looks for: a set is looked up as its frozen twin. *)
Definition lookupKey (h : store) (v : value) : option (string + pyerr) :=
  match v with
  | VSet a => s ← h !! a;
      Some (if isFrozen s then setKey (setObj true (itemsIn (core s))) else inl (frozenKey (keys (core s))))
  | _ => o ← eltOf h v; Some (setKey o)
  end.

(** A loop that hashes items one by one. *)
Fixpoint addAllElts (c : setCore) (items : list obj) : setCore + pyerr :=
  match items with
  | [] => inl c
  | e :: items => match addElt c e with inl c => addAllElts c items | inr x => inr x end
  end.

Definition drain {A} (r : A + pyerr) (stop : option pyerr) : A + pyerr :=
  match r, stop with inl _, Some e => inr e | _, _ => r end.

Definition itemsOf (v : value) : list obj * option pyerr :=
  match v with
  | VKeys es => (map fst es, None)
  | VItems es => (map (fun e => OTuple [e.1; e.2]) es, None)
  | VObj _ items stop => (items, stop)
  | _ => ([], None)
  end.

Definition buildArgCore (h : store) (v : value) : option (setCore + pyerr) :=
  s ← asSetObject h v;
  Some (match s with
        | Some s => inl (core s)
        | None => drain (addAllElts newSetCore (itemsOf v).1) (itemsOf v).2
        end).

Fixpoint hashAll (m : gset string) (items : list obj) : gset string + pyerr :=
  match items with
  | [] => inl m
  | e :: items => match hashKey e with inl k => hashAll ({[k]} ∪ m) items | inr x => inr x end
  end.

Definition argMembership (h : store) (v : value) : option (gset string + pyerr) :=
  s ← asSetObject h v;
  Some (match s with
        | Some s => inl (list_to_set (keys (core s)))
        | None => drain (hashAll ∅ (itemsOf v).1) (itemsOf v).2
        end).

(** [acc.elts] where the key is in the membership. *)
Definition restrict (acc : setCore) (memb : gset string) : option setCore :=
  addWhere (fun k => bool_decide (k ∈ memb)) newSetCore acc.

(** ** Methods *)

Inductive meth :=
  | MCopy | MUnion | MIntersection | MDifference | MSymmetricDifference
  | MIssubset | MIssuperset | MIsdisjoint
  | MAdd | MRemove | MDiscard | MPop | MClear
  | MUpdate | MIntersectionUpdate | MDifferenceUpdate | MSymmetricDifferenceUpdate.

Definition methName (m : meth) : string :=
  match m with
  | MCopy => "copy" | MUnion => "union" | MIntersection => "intersection" | MDifference => "difference"
  | MSymmetricDifference => "symmetric_difference" | MIssubset => "issubset" | MIssuperset => "issuperset"
  | MIsdisjoint => "isdisjoint" | MAdd => "add" | MRemove => "remove" | MDiscard => "discard" | MPop => "pop"
  | MClear => "clear" | MUpdate => "update" | MIntersectionUpdate => "intersection_update"
  | MDifferenceUpdate => "difference_update" | MSymmetricDifferenceUpdate => "symmetric_difference_update"
  end.

Definition typeName (frozen : bool) : string := if frozen then "frozenset" else "set".

Definition fail {H} (h : H) (e : pyerr) : option (H * out) := Some (h, RFail (SErr e)).

Definition exactlyOne (frozen : bool) (m : meth) (args : list value) : value + pyerr :=
  match args with
  | [v] => inl v
  | _ => inr ("TypeError", typeName frozen +:+ "." +:+ methName m +:+ "() takes exactly one argument ("
                +:+ itoa (Z.of_nat (length args)) +:+ " given)")
  end.

Definition noArgs (frozen : bool) (m : meth) (args : list value) : option pyerr :=
  match args with
  | [] => None
  | _ => Some ("TypeError", typeName frozen +:+ "." +:+ methName m +:+ "() takes no arguments ("
                 +:+ itoa (Z.of_nat (length args)) +:+ " given)")
  end.

Definition noAttr (frozen : bool) (m : meth) : pyerr :=
  ("AttributeError", "'" +:+ typeName frozen +:+ "' object has no attribute '" +:+ methName m +:+ "'").

(** A new object in the store. *)
Definition alloc {O} (h : list O) (s : O) : option (list O * out) := Some (h ++ [s], RSet (length h)).

Definition setCoreOf (h : store) (x : nat) (c : setCore) : store := alter (fun s => mkSet (isFrozen s) c) x h.

(** Go on with a converted argument, or leave with the exception. *)
Definition withArg {H A} (h : H) (r : option (A + pyerr)) (k : A -> option (H * out)) : option (H * out) :=
  r ← r; match r with inl a => k a | inr e => fail h e end.

(** The loop over the arguments of a method that builds a new set. *)
Fixpoint foldArgs {A B} (conv : value -> option (B + pyerr)) (f : A -> B -> option A) (acc : A) (args : list value) :
    option (A + pyerr) :=
  match args with
  | [] => Some (inl acc)
  | v :: args =>
      r ← conv v;
      match r with
      | inr e => Some (inr e)
      | inl b => acc ← f acc b; foldArgs conv f acc args
      end
  end.

(** The loop over the arguments of a method that changes its receiver. *)
Fixpoint changeArgs (f : setCore -> setCore -> option setCore) (h : store) (x : nat) (args : list value) :
    option (store * out) :=
  match args with
  | [] => Some (h, RNone)
  | v :: args =>
      withArg h (buildArgCore h v) (fun ac =>
        s ← h !! x; c ← f (core s) ac; changeArgs f (setCoreOf h x c) x args)
  end.

Definition commonSetMethod (h : store) (x : nat) (frozen : bool) (c : setCore) (m : meth) (args : list value) :
    option (option (store * out)) :=
  let newLike r := withArg h r (fun c => alloc h (mkSet frozen c)) in
  let one k := match exactlyOne frozen m args with inl v => k v | inr e => fail h e end in
  match m with
  | MCopy => Some (match noArgs frozen m args with
                   | Some e => fail h e
                   | None => if frozen then Some (h, RSet x) else alloc h (mkSet false c)
                   end)
  | MUnion => Some (oc ← unionInto newSetCore [c];
                    newLike (foldArgs (buildArgCore h) (fun oc ac => unionInto oc [ac]) oc args))
  | MIntersection => Some (newLike (foldArgs (argMembership h) restrict c args))
  | MDifference => Some (newLike (foldArgs (buildArgCore h) (fun acc ac => removeKeys acc (keys ac)) c args))
  | MSymmetricDifference => Some (one (fun v =>
      withArg h (buildArgCore h v) (fun ac => oc ← symDiffInto newSetCore c ac; alloc h (mkSet frozen oc))))
  | MIssubset => Some (one (fun v =>
      withArg h (argMembership h v) (fun memb => Some (h, RBool (forallb (fun k => bool_decide (k ∈ memb)) (keys c))))))
  | MIssuperset => Some (one (fun v =>
      withArg h (buildArgCore h v) (fun ac => Some (h, RBool (isSubsetCore ac c)))))
  | MIsdisjoint => Some (one (fun v =>
      withArg h (buildArgCore h v) (fun ac => Some (h, RBool (negb (existsb (has c) (keys ac)))))))
  | _ => None
  end.

(** One turn of the loop of [symmetric_difference_update]. *)
Definition toggle (c : setCore) (k : string) (e : option obj) : option setCore :=
  if has c k then fst <$> removeKey c k else e ← e; Some (addKeyed c k e).

Definition setMethod (h : store) (x : nat) (c : setCore) (m : meth) (args : list value) : option (store * out) :=
  match commonSetMethod h x false c m args with
  | Some r => r
  | None =>
      let one k := match exactlyOne false m args with inl v => k v | inr e => fail h e end in
      let none k := match noArgs false m args with None => k | Some e => fail h e end in
      match m with
      | MAdd => one (fun v =>
          o ← eltOf h v;
          match addElt c o with inl c => Some (setCoreOf h x c, RNone) | inr e => fail h e end)
      | MRemove => one (fun v =>
          withArg h (lookupKey h v) (fun k =>
            r ← removeKey c k;
            Some (if (r.2 : bool) then (setCoreOf h x r.1, RNone) else (h, RFail (SKeyError v)))))
      | MDiscard => one (fun v =>
          withArg h (lookupKey h v) (fun k => r ← removeKey c k; Some (setCoreOf h x r.1, RNone)))
      | MPop => none (
          match elts c with
          | [] => Some (h, RFail (SKeyError (VObj (OStr "pop from an empty set") [] None)))
          | e :: _ => k ← head (keys c); r ← removeKey c k; Some (setCoreOf h x r.1, RElt e)
          end)
      | MClear => none (Some (setCoreOf h x newSetCore, RNone))
      | MUpdate => changeArgs (fun c ac => unionInto c [ac]) h x args
      | MIntersectionUpdate =>
          withArg h (foldArgs (argMembership h) restrict c args) (fun acc => Some (setCoreOf h x acc, RNone))
      | MDifferenceUpdate => changeArgs (fun c ac => removeKeys c (keys ac)) h x args
      | MSymmetricDifferenceUpdate => one (fun v =>
          withArg h (buildArgCore h v) (fun ac => c ← eachOf toggle c ac; Some (setCoreOf h x c, RNone)))
      | _ => fail h (noAttr false m)
      end
  end.

Definition frozensetMethod (h : store) (x : nat) (c : setCore) (m : meth) (args : list value) : option (store * out) :=
  match commonSetMethod h x true c m args with Some r => r | None => fail h (noAttr true m) end.

Definition callMethod (h : store) (x : nat) (m : meth) (args : list value) : option (store * out) :=
  s ← h !! x; (if isFrozen s then frozensetMethod else setMethod) h x (core s) m args.

(** ** Operators *)

Inductive setOpKind := setOpDiff | setOpUnion | setOpInter | setOpSymDiff.

Definition isDictSetView (v : value) : bool := match v with VKeys _ | VItems _ => true | _ => false end.

(** An operand of a view operator: a set, or an iterable drained and hashed. *)
Definition operandToCore (h : store) (v : value) : option (setCore + pyerr) :=
  s ← asSetObject h v;
  Some (match s, (itemsOf v).2 with
        | Some s, _ => inl (core s)
        | None, Some e => inr e
        | None, None => addAllElts newSetCore (itemsOf v).1
        end).

Definition combine (op : setOpKind) (a b : setCore) : option setCore :=
  match op with
  | setOpDiff => diffInto newSetCore a b
  | setOpUnion => unionInto newSetCore [a; b]
  | setOpInter => intersectInto newSetCore a b
  | setOpSymDiff => symDiffInto newSetCore a b
  end.

Definition dictViewSetOp (h : store) (a b : value) (op : setOpKind) : option (store * out) :=
  withArg h (operandToCore h a) (fun ac =>
    withArg h (operandToCore h b) (fun bc => c ← combine op ac bc; alloc h (mkSet false c))).

(** [Sub], [BitOr], [BitAnd] and [BitXor] on a set or a view; what other
    operands do is not a set operation. *)
Definition binary (h : store) (op : setOpKind) (a b : value) : option (store * out) :=
  if isDictSetView a || isDictSetView b then dictViewSetOp h a b op
  else
    s ← asSetObject h a; t ← asSetObject h b;
    match s, t with
    | Some s, Some t => c ← combine op (core s) (core t); alloc h (mkSet (isFrozen s) c)
    | _, _ => Some (h, RUnsupported)
    end.

(** [inplaceSet], and the binary operator where it declines. *)
Definition inPlace (h : store) (op : setOpKind) (a b : value) : option (store * out) :=
  s ← asSetObject h a; t ← asSetObject h b;
  match a, s, t with
  | VSet x, Some (mkSet false c), Some t => c ← combine op c (core t); Some (setCoreOf h x c, RSet x)
  | _, _, _ => binary h op a b
  end.

Definition coreEquals (h : store) (c : setCore) (b : value) : option bool :=
  t ← asSetObject h b; Some (match t with Some t => sameElements c (core t) | None => false end).

Definition setContains (h : store) (c : setCore) (item : value) : option (store * out) :=
  withArg h (lookupKey h item) (fun k => Some (h, RBool (has c k))).

(** [NewSet] and [NewFrozenset]. *)
Definition NewSet (h : store) (fr : bool) (items : list obj) : option (store * out) :=
  match addAllElts newSetCore items with inl c => alloc h (mkSet fr c) | inr e => fail h e end.

(** The add of a comprehension; its receiver is a set. *)
Definition SetAdd (h : store) (x : nat) (elt : value) : option (store * out) :=
  s ← h !! x; o ← eltOf h elt;
  if isFrozen s then None
  else match addElt (core s) o with inl c => Some (setCoreOf h x c, RNone) | inr e => fail h e end.

(** The set case of an ordering; other operands raise. *)
Definition order (h : store) (op : CmpOp) (a b : value) : option (store * out) :=
  s ← asSetObject h a; t ← asSetObject h b;
  Some (h, match s, t with Some s, Some t => RBool (setOrder op (core s) (core t)) | _, _ => RUnsupported end).

(** ** Programs over sets *)

Inductive sop :=
  | SNew (frozen : bool) (elts : list obj)
  | SAddItem (x : nat) (elt : value)
  | SCall (x : nat) (m : meth) (args : list value)
  | SBinary (op : setOpKind) (a b : value)
  | SInPlace (op : setOpKind) (a b : value)
  | SEquals (x : nat) (b : value)
  | SCompare (op : CmpOp) (a b : value)
  | SContains (x : nat) (item : value).

Definition sstep (h : store) (o : sop) : option (store * out) :=
  match o with
  | SNew fr items => NewSet h fr items
  | SAddItem x v => SetAdd h x v
  | SCall x m args => callMethod h x m args
  | SBinary op a b => binary h op a b
  | SInPlace op a b => inPlace h op a b
  | SEquals x b => s ← h !! x; r ← coreEquals h (core s) b; Some (h, RBool r)
  | SCompare op a b => order h op a b
  | SContains x v => s ← h !! x; setContains h (core s) v
  end.

Fixpoint srun (h : store) (os : list sop) : option (store * list out) :=
  match os with
  | [] => Some (h, [])
  | o :: os => r ← sstep h o; rs ← srun r.1 os; Some (rs.1, r.2 :: rs.2)
  end.

(** ** The specification: finite maps

    The same objects as finite maps from a key to the element kept for it. *)

Notation aset := (gmap string obj).
Notation astore := (list (bool * aset)).

Definition aKeys (m : aset) : list string := map fst (map_to_list m).

Definition aSetOf (H : astore) (v : value) : option (option (bool * aset)) :=
  match v with VSet a | VInst a _ => s ← H !! a; Some (Some s) | _ => Some None end.

Definition aEltOf (H : astore) (v : value) : option obj :=
  match v with VSet a => s ← H !! a; Some (setObj s.1 (map_to_list s.2)) | _ => eltOf [] v end.

Definition aLookupKey (H : astore) (v : value) : option (string + pyerr) :=
  match v with
  | VSet a => s ← H !! a; Some (inl (frozenKey (aKeys s.2)))
  | _ => o ← aEltOf H v; Some (setKey o)
  end.

(** The first element of a key is the one kept. *)
Fixpoint aCollect (m : aset) (items : list obj) : aset + pyerr :=
  match items with
  | [] => inl m
  | e :: items => match setKey e with inl k => aCollect (m ∪ {[k := e]}) items | inr x => inr x end
  end.

Definition aArg (H : astore) (v : value) : option (aset + pyerr) :=
  s ← aSetOf H v;
  Some (match s with Some s => inl s.2 | None => drain (aCollect ∅ (itemsOf v).1) (itemsOf v).2 end).

Definition aMemb (H : astore) (v : value) : option (gset string + pyerr) :=
  s ← aSetOf H v;
  Some (match s with Some s => inl (dom s.2) | None => drain (hashAll ∅ (itemsOf v).1) (itemsOf v).2 end).

Definition aOperand (H : astore) (v : value) : option (aset + pyerr) :=
  s ← aSetOf H v;
  Some (match s, (itemsOf v).2 with
        | Some s, _ => inl s.2
        | None, Some e => inr e
        | None, None => aCollect ∅ (itemsOf v).1
        end).

Definition aRestrict (m : aset) (memb : gset string) : aset := filter (fun p => p.1 ∈ memb) m.

Definition aCombine (op : setOpKind) (a b : aset) : aset :=
  match op with
  | setOpDiff => a ∖ b
  | setOpUnion => a ∪ b
  | setOpInter => a ∩ b
  | setOpSymDiff => (a ∖ b) ∪ (b ∖ a)
  end.

Definition aOrder (op : CmpOp) (a b : aset) : bool :=
  match op with
  | OpLt => bool_decide (dom a ⊂ dom b)
  | OpLe => bool_decide (dom a ⊆ dom b)
  | OpGt => bool_decide (dom b ⊂ dom a)
  | OpGe => bool_decide (dom b ⊆ dom a)
  end.

Definition aPut (H : astore) (x : nat) (m : aset) : astore := alter (fun o => (o.1, m)) x H.

Fixpoint aChange (f : aset -> aset -> aset) (H : astore) (x : nat) (args : list value) : option (astore * out) :=
  match args with
  | [] => Some (H, RNone)
  | v :: args => withArg H (aArg H v) (fun n => s ← H !! x; aChange f (aPut H x (f s.2 n)) x args)
  end.

(** A method on the set [m] at [x]; [pick] is the key that [pop] chooses. *)
Definition aMethod (pick : string) (H : astore) (x : nat) (fr : bool) (m : aset) (meth : meth) (args : list value) :
    option (astore * out) :=
  let new (r : option (aset + pyerr)) := withArg H r (fun n => alloc H (fr, n)) in
  let one k := match exactlyOne fr meth args with inl v => k v | inr e => fail H e end in
  let none k := match noArgs fr meth args with None => k | Some e => fail H e end in
  let changes k := if fr then fail H (noAttr true meth) else k in
  match meth with
  | MCopy => none (if fr then Some (H, RSet x) else alloc H (false, m))
  | MUnion => new (foldArgs (aArg H) (fun m n => Some (m ∪ n)) m args)
  | MIntersection => new (foldArgs (aMemb H) (fun m n => Some (aRestrict m n)) m args)
  | MDifference => new (foldArgs (aArg H) (fun m n => Some (m ∖ n)) m args)
  | MSymmetricDifference => one (fun v => new (n ← aArg H v;
      Some (match n with inl n => inl ((m ∖ n) ∪ (n ∖ m)) | inr e => inr e end)))
  | MIssubset => one (fun v => withArg H (aMemb H v) (fun n => Some (H, RBool (bool_decide (dom m ⊆ n)))))
  | MIssuperset => one (fun v => withArg H (aArg H v) (fun n => Some (H, RBool (bool_decide (dom n ⊆ dom m)))))
  | MIsdisjoint => one (fun v => withArg H (aArg H v) (fun n => Some (H, RBool (bool_decide (dom m ∩ dom n = ∅)))))
  | MAdd => changes (one (fun v => o ← aEltOf H v;
      match setKey o with inl k => Some (aPut H x (m ∪ {[k := o]}), RNone) | inr e => fail H e end))
  | MRemove => changes (one (fun v => withArg H (aLookupKey H v) (fun k =>
      Some (if decide (is_Some (m !! k)) then (aPut H x (delete k m), RNone) else (H, RFail (SKeyError v))))))
  | MDiscard => changes (one (fun v => withArg H (aLookupKey H v) (fun k => Some (aPut H x (delete k m), RNone))))
  | MPop => changes (none (
      if decide (m = ∅) then Some (H, RFail (SKeyError (VObj (OStr "pop from an empty set") [] None)))
      else Some (match m !! pick with Some e => (aPut H x (delete pick m), RElt e) | None => (H, RUnsupported) end)))
  | MClear => changes (none (Some (aPut H x ∅, RNone)))
  | MUpdate => changes (aChange (fun m n => m ∪ n) H x args)
  | MIntersectionUpdate => changes (withArg H (foldArgs (aMemb H) (fun m n => Some (aRestrict m n)) m args)
      (fun n => Some (aPut H x n, RNone)))
  | MDifferenceUpdate => changes (aChange (fun m n => m ∖ n) H x args)
  | MSymmetricDifferenceUpdate => changes (one (fun v => withArg H (aArg H v) (fun n =>
      Some (aPut H x ((m ∖ n) ∪ (n ∖ m)), RNone))))
  end.

Definition aBinary (H : astore) (op : setOpKind) (a b : value) : option (astore * out) :=
  if isDictSetView a || isDictSetView b then
    withArg H (aOperand H a) (fun m => withArg H (aOperand H b) (fun n => alloc H (false, aCombine op m n)))
  else
    s ← aSetOf H a; t ← aSetOf H b;
    match s, t with
    | Some s, Some t => alloc H (s.1, aCombine op s.2 t.2)
    | _, _ => Some (H, RUnsupported)
    end.

Definition astep (pick : string) (H : astore) (o : sop) : option (astore * out) :=
  match o with
  | SNew fr items => withArg H (Some (aCollect ∅ items)) (fun m => alloc H (fr, m))
  | SAddItem x v => s ← H !! x; o ← aEltOf H v;
      if (s.1 : bool) then None
      else match setKey o with inl k => Some (aPut H x (s.2 ∪ {[k := o]}), RNone) | inr e => fail H e end
  | SCall x m args => s ← H !! x; aMethod pick H x s.1 s.2 m args
  | SBinary op a b => aBinary H op a b
  | SInPlace op a b =>
      s ← aSetOf H a; t ← aSetOf H b;
      match a, s, t with
      | VSet x, Some (false, m), Some t => Some (aPut H x (aCombine op m t.2), RSet x)
      | _, _, _ => aBinary H op a b
      end
  | SEquals x b => s ← H !! x; t ← aSetOf H b;
      Some (H, RBool (match t with Some t => bool_decide (dom s.2 = dom t.2) | None => false end))
  | SCompare op a b => s ← aSetOf H a; t ← aSetOf H b;
      Some (H, match s, t with Some s, Some t => RBool (aOrder op s.2 t.2) | _, _ => RUnsupported end)
  | SContains x v => s ← H !! x;
  withArg H (aLookupKey H v) (fun k => Some (H, RBool (bool_decide (is_Some (s.2 !! k)))))
  end.

Fixpoint arun (H : astore) (os : list (string * sop)) : option (astore * list out) :=
  match os with
  | [] => Some (H, [])
  | (pick, o) :: os => r ← astep pick H o; rs ← arun r.1 os; Some (rs.1, r.2 :: rs.2)
  end.

(** ** A core is a finite map *)

(** Keys, elements and index agree. *)
Record wf (c : setCore) : Prop := {
  wf_key : Forall2 (fun k e => setKey e = inl k) (keys c) (elts c);
  wf_index : forall k i, index c !! k = Some i <-> keys c !! i = Some k
}.

Definition abs (c : setCore) : aset := omap (fun i => elts c !! i) (index c).

Definition repr (c : setCore) (m : aset) : Prop := wf c /\ m = abs c.

Lemma abs_lookup c k : abs c !! k = index c !! k ≫= fun i => elts c !! i.
Proof. apply lookup_omap. Qed.

Lemma wf_length c : wf c -> length (keys c) = length (elts c).
Proof. intros []. by eapply Forall2_length. Qed.

Lemma core_nodup c : wf c -> NoDup (keys c).
Proof. intros [_ Hi]. apply NoDup_alt. intros i j k H1%Hi H2%Hi. congruence. Qed.

Lemma core_hit c k i : wf c -> index c !! k = Some i ->
  keys c !! i = Some k /\ exists e, elts c !! i = Some e /\ abs c !! k = Some e /\ setKey e = inl k.
Proof.
  intros [Hk Hi] E. pose proof (proj1 (Hi _ _) E) as Hki. split; [done|].
  destruct (Forall2_lookup_l _ _ _ _ _ Hk Hki) as (e & He & Hs). exists e. by rewrite abs_lookup, E.
Qed.

Lemma abs_none c k : wf c -> abs c !! k = None <-> index c !! k = None.
Proof.
  intros Hw. rewrite abs_lookup. destruct (index c !! k) as [i|] eqn:E; [|done].
  destruct (core_hit c k i Hw E) as (_ & e & He & _). simpl. by rewrite He.
Qed.

Lemma has_abs c k : wf c -> has c k = bool_decide (is_Some (abs c !! k)).
Proof.
  intros Hw. apply bool_decide_ext. rewrite <- !not_eq_None_Some. by rewrite abs_none.
Qed.

Lemma keys_elem c k : wf c -> k ∈ keys c <-> is_Some (abs c !! k).
Proof.
  intros Hw. rewrite <- not_eq_None_Some, abs_none, not_eq_None_Some, list_elem_of_lookup by done.
  split; intros [i H]; exists i; by apply (wf_index c Hw).
Qed.

Lemma keys_dom c : wf c -> dom (abs c) = list_to_set (keys c).
Proof. intros Hw. apply set_eq. intros k. by rewrite elem_of_dom, elem_of_list_to_set, keys_elem. Qed.

Lemma keys_size c : wf c -> length (keys c) = size (dom (abs c)).
Proof. intros Hw. rewrite keys_dom by done. symmetry. by apply size_list_to_set, core_nodup. Qed.

Lemma keys_perm c : wf c -> aKeys (abs c) ≡ₚ keys c.
Proof.
  intros Hw. unfold aKeys. apply NoDup_Permutation; [apply NoDup_fst_map_to_list|by apply core_nodup|].
  intros k. rewrite keys_elem by done. rewrite list_elem_of_fmap. split.
  - intros ([k' e] & -> & H%elem_of_map_to_list). by exists e.
  - intros [e H]. exists (k, e). split; [done|]. by apply elem_of_map_to_list.
Qed.

Lemma items_abs c : wf c -> list_to_map (itemsIn c) = abs c.
Proof.
  intros Hw. pose proof (wf_length c Hw) as Hl. unfold itemsIn. apply map_eq. intros k. apply option_eq. intros e.
  rewrite <- elem_of_list_to_map by (rewrite fst_zip by lia; by apply core_nodup). rewrite abs_lookup, list_elem_of_lookup.
  setoid_rewrite lookup_zip_Some. setoid_rewrite bind_Some. setoid_rewrite (wf_index c Hw). done.
Qed.

Lemma new_repr : repr newSetCore ∅.
Proof.
  split; [|apply map_eq; intros k; by rewrite abs_lookup]. split; [constructor|]. done.
Qed.

Lemma addKeyed_spec c k e : wf c -> setKey e = inl k -> wf (addKeyed c k e) /\
  abs (addKeyed c k e) = abs c ∪ {[k := e]}.
Proof.
  intros Hw Hk. unfold addKeyed. destruct (index c !! k) as [i|] eqn:E.
  - split; [done|]. destruct (core_hit c k i Hw E) as (_ & e' & _ & Ha & _). apply map_eq. intros k'.
    rewrite lookup_union. destruct (decide (k = k')) as [->|]; [rewrite Ha; by destruct ({[k' := e]} !! k')|].
    rewrite lookup_singleton_ne by done. by destruct (abs c !! k').
  - pose proof (wf_length c Hw) as Hl. pose proof Hw as [Hf Hi]. split.
    + split; simpl; [apply Forall2_app; [done|by repeat constructor]|]. intros k' i. rewrite <- Hl.
      destruct (decide (k = k')) as [->|Hne].
      * rewrite lookup_insert_eq. split; [intros [= <-]; by apply list_lookup_middle|].
        intros [H|[? H]]%lookup_app_Some; [apply Hi in H; congruence|].
        apply list_lookup_singleton_Some in H as [? _]. f_equal. lia.
      * rewrite lookup_insert_ne, Hi, lookup_app_Some, list_lookup_singleton_Some by done. naive_solver.
    + apply map_eq. intros k'. rewrite lookup_union, !abs_lookup. simpl. destruct (decide (k = k')) as [->|Hne].
      * rewrite lookup_insert_eq, E, lookup_singleton_eq. simpl. by apply list_lookup_middle.
      * rewrite lookup_insert_ne, lookup_singleton_ne by done. destruct (index c !! k') as [i|] eqn:Ei; [|done]. simpl.
        destruct (core_hit c k' i Hw Ei) as (_ & e' & He & _). rewrite He. simpl. by apply lookup_app_l_Some.
Qed.

Lemma cut_lookup {A} i (l : list A) j : i < length l -> cut i l !! j = if j <? i then l !! j else l !! S j.
Proof.
  intros Hi. unfold cut. destruct (Nat.ltb_spec j i).
  - rewrite lookup_app_l by (rewrite length_take; lia). by apply lookup_take_lt.
  - rewrite lookup_app_r, lookup_drop by (rewrite length_take; lia). rewrite length_take. f_equal. lia.
Qed.

Lemma cut_Forall2 {A B} (P : A -> B -> Prop) i l l' : Forall2 P l l' -> Forall2 P (cut i l) (cut i l').
Proof. intros H. apply Forall2_app; [by apply Forall2_take|by apply Forall2_drop]. Qed.

Lemma removeKey_spec c k : wf c -> exists c', removeKey c k = Some (c', bool_decide (is_Some (abs c !! k))) /\
  wf c' /\ abs c' = delete k (abs c).
Proof.
  intros Hw. unfold removeKey. destruct (index c !! k) as [i|] eqn:E.
  2:{ apply (abs_none c k Hw) in E. exists c. rewrite E. split_and!; [done|done|]. by rewrite delete_id. }
  destruct (core_hit c k i Hw E) as (Hki & e & He & Ha & _). rewrite Hki, He, Ha. eexists. split; [done|].
  pose proof (core_nodup c Hw) as Hn. pose proof (wf_length c Hw) as Hl. pose proof Hw as [Hf Hi].
  pose proof (lookup_lt_Some _ _ _ Hki) as Hlt. split.
  - split; simpl; [by apply cut_Forall2|]. intros k' j. rewrite cut_lookup, lookup_fmap_Some by done. split.
    + intros (j' & <- & [Hne Hj]%lookup_delete_Some). apply Hi in Hj.
      assert (j' <> i) as Hji by (intros ->; congruence). destruct (Nat.ltb_spec i j') as [H|H].
      * rewrite (proj2 (Nat.ltb_ge (pred j') i)) by lia. by rewrite Nat.succ_pred by lia.
      * by rewrite (proj2 (Nat.ltb_lt j' i)) by lia.
    + destruct (Nat.ltb_spec j i) as [H|H]; intros Hj.
      * exists j. rewrite (proj2 (Nat.ltb_ge i j)) by lia. split; [done|]. apply lookup_delete_Some.
        split; [|by apply Hi]. intros <-. assert (j = i) by (by eapply NoDup_lookup). lia.
      * exists (S j). rewrite (proj2 (Nat.ltb_lt i (S j))) by lia. split; [done|]. apply lookup_delete_Some.
        split; [|by apply Hi]. intros <-. assert (S j = i) by (by eapply NoDup_lookup). lia.
  - apply map_eq. intros k'. rewrite lookup_delete. case_decide as Hk; [subst|].
    + rewrite abs_lookup. simpl. by rewrite lookup_fmap, lookup_delete_eq.
    + rewrite !abs_lookup. simpl. rewrite lookup_fmap, lookup_delete_ne by done.
      destruct (index c !! k') as [j|] eqn:Ej; [|done]. simpl. rewrite cut_lookup by lia.
      assert (j <> i) by (intros ->; apply Hi in E, Ej; congruence). destruct (Nat.ltb_spec i j).
      * rewrite (proj2 (Nat.ltb_ge (pred j) i)) by lia. by rewrite Nat.succ_pred by lia.
      * by rewrite (proj2 (Nat.ltb_lt j i)) by lia.
Qed.

(** ** Loops over a core *)

(** The map of parallel arrays. *)
Definition keyed (ks : list string) (es : list obj) : aset := list_to_map (zip ks es).

Lemma keyed_cons k ks e es : keyed (k :: ks) (e :: es) = <[k := e]> (keyed ks es).
Proof. done. Qed.

Lemma zip_lookup c k : wf c -> keyed (keys c) (elts c) !! k = abs c !! k.
Proof.
  intros Hw. apply option_eq. intros e. unfold keyed. rewrite <- elem_of_list_to_map.
  - rewrite list_elem_of_lookup. split.
    + intros (i & (k' & e' & Hp & Hk & He)%lookup_zip_with_Some). simplify_eq.
      apply (wf_index c Hw) in Hk. by rewrite abs_lookup, Hk.
    + rewrite abs_lookup. destruct (index c !! k) as [i|] eqn:E; [|done]. intros He. exists i.
      apply lookup_zip_with_Some. exists k, e. split_and!; [reflexivity|by apply (wf_index c Hw)|exact He].
  - rewrite fst_zip by (rewrite wf_length by done; done). by apply core_nodup.
Qed.

Lemma each_add test ks es : Forall2 (fun k e => setKey e = inl k) ks es -> forall d, wf d -> exists d',
  each (addIf test) d ks es = Some d' /\ wf d' /\
  forall k, abs d' !! k = abs d !! k ∪ if test k then keyed ks es !! k else None.
Proof.
  induction 1 as [|k e ks es Hk _ IH]; intros d Hw.
  { exists d. split_and!; [done|done|]. intros k. destruct (test k); by destruct (abs d !! k). }
  simpl. assert (addIf test d k (Some e) = Some (if test k then addKeyed d k e else d)) as -> by (unfold addIf;
  by destruct (test k)).
  destruct (test k) eqn:Et; simpl.
  - destruct (addKeyed_spec d k e Hw Hk) as [Hw1 Ha]. destruct (IH _ Hw1) as (d' & -> & Hw' & Hd'). exists d'.
    split_and!; [done|done|]. intros k'. rewrite Hd', Ha, lookup_union, keyed_cons.
    destruct (decide (k = k')) as [->|Hne].
    + rewrite Et, lookup_singleton_eq, lookup_insert_eq. by destruct (abs d !! k'), (_ !! k').
    + rewrite lookup_singleton_ne, lookup_insert_ne by done. by destruct (abs d !! k').
  - destruct (IH d Hw) as (d' & -> & Hw' & Hd'). exists d'. split_and!; [done|done|]. intros k'.
    rewrite Hd', keyed_cons.
    destruct (decide (k = k')) as [->|Hne]; [by rewrite Et|]. by rewrite lookup_insert_ne.
Qed.

Lemma addWhere_spec test d c : wf d -> wf c -> exists d', addWhere test d c = Some d' /\ wf d' /\
  forall k, abs d' !! k = abs d !! k ∪ if test k then abs c !! k else None.
Proof.
  intros Hd Hc. unfold addWhere, eachOf. destruct (each_add test _ _ (wf_key c Hc) d Hd) as (d' & E & Hw & Ha).
  exists d'. split_and!; [exact E|done|]. intros k. by rewrite Ha, zip_lookup.
Qed.

Lemma unionInto_one d c : wf d -> wf c -> exists d', unionInto d [c] = Some d' /\ repr d' (abs d ∪ abs c).
Proof.
  intros Hd Hc. destruct (addWhere_spec (fun _ => true) d c Hd Hc) as (d' & E & Hw & Ha). exists d'.
  split; [done|]. split; [done|]. apply map_eq. intros k. by rewrite Ha, lookup_union.
Qed.

Lemma lookup_diff (m n : aset) k : (m ∖ n) !! k = if decide (is_Some (n !! k)) then None else m !! k.
Proof. rewrite lookup_difference.
  destruct (n !! k); [rewrite decide_True by done|rewrite decide_False by by intros []]; by destruct (m !! k). Qed.

Lemma diffInto_spec d a b : wf d -> wf a -> wf b -> exists d',
  diffInto d a b = Some d' /\ repr d' (abs d ∪ (abs a ∖ abs b)).
Proof.
  intros Hd Ha Hb. destruct (addWhere_spec (fun k => negb (has b k)) d a Hd Ha) as (d' & E & Hw & Hk). exists d'.
  split; [done|]. split; [done|]. apply map_eq. intros k. rewrite Hk, lookup_union, lookup_diff, has_abs by done.
  case_bool_decide; by case_decide.
Qed.

Lemma empty_left (m : aset) : ∅ ∪ m = m.
Proof. apply map_empty_union. Qed.

Lemma combine_spec op a b : wf a -> wf b -> exists c, combine op a b = Some c /\ repr c (aCombine op (abs a) (abs b)).
Proof.
  intros Ha Hb. destruct new_repr as [Hn En]. destruct op; simpl.
  - destruct (diffInto_spec newSetCore a b Hn Ha Hb) as (d & E & H). exists d. by rewrite <- En, empty_left in H.
  - destruct (unionInto_one newSetCore a Hn Ha) as (d & E & Hd & H). rewrite <- En, empty_left in H.
    destruct (unionInto_one d b Hd Hb) as (d' & E' & H'). exists d'. rewrite <- H in H'. split; [|done].
    unfold unionInto in *. simpl in *. by rewrite E.
  - destruct (addWhere_spec (has b) newSetCore a Hn Ha) as (d & E & Hd & H). exists d. split; [done|]. split; [done|].
    apply map_eq. intros k. rewrite H, <- En, lookup_empty, has_abs, lookup_intersection by done.
    destruct (abs a !! k), (abs b !! k); done.
  - unfold symDiffInto. destruct (diffInto_spec newSetCore a b Hn Ha Hb) as (d & -> & Hd & H).
    rewrite <- En, empty_left in H.
    simpl. rewrite H. by apply diffInto_spec.
Qed.

Lemma restrict_spec c memb : wf c -> exists c', restrict c memb = Some c' /\ repr c' (aRestrict (abs c) memb).
Proof.
  intros Hc. destruct new_repr as [Hn En].
  destruct (addWhere_spec (fun k => bool_decide (k ∈ memb)) newSetCore c Hn Hc) as (d & E & Hd & H). exists d.
  split; [done|]. split; [done|]. apply map_eq. intros k. rewrite H, <- En, lookup_empty. unfold aRestrict.
  rewrite map_lookup_filter. case_bool_decide as Hk; destruct (abs c !! k); simpl; try done.
  - by rewrite option_guard_True.
  - by rewrite option_guard_False.
Qed.

Lemma removeKeys_spec ks : forall c, wf c -> exists c', removeKeys c ks = Some c' /\ wf c' /\
  forall k, abs c' !! k = if bool_decide (k ∈ ks) then None else abs c !! k.
Proof.
  induction ks as [|k ks IH]; intros c Hw; [exists c; split_and!; [done|done|]; intros k;
  by rewrite bool_decide_eq_false_2 by apply not_elem_of_nil|].
  destruct (removeKey_spec c k Hw) as (c1 & E & Hw1 & Ha). destruct (IH c1 Hw1) as (c' & E' & Hw' & Hk). exists c'.
  split_and!; [unfold removeKeys in *; simpl; by rewrite E|done|]. intros k'. rewrite Hk, Ha.
  destruct (decide (k = k')) as [->|Hne].
  - rewrite lookup_delete_eq, (bool_decide_eq_true_2 (k' ∈ k' :: ks)) by (by left). by destruct (bool_decide (k' ∈ ks)).
  - rewrite lookup_delete_ne by done.
    rewrite (bool_decide_ext (k' ∈ k :: ks) (k' ∈ ks)) by (rewrite elem_of_cons; naive_solver). done.
Qed.

Lemma removeAll_spec c ac : wf c -> wf ac -> exists c', removeKeys c (keys ac) = Some c' /\ repr c' (abs c ∖ abs ac).
Proof.
  intros Hc Ha. destruct (removeKeys_spec (keys ac) c Hc) as (c' & E & Hw & Hk). exists c'. split; [done|].
  split; [done|].
  apply map_eq. intros k. rewrite Hk, lookup_diff, (bool_decide_ext _ _ (keys_elem ac k Ha)).
  case_bool_decide; by case_decide.
Qed.

Lemma toggle_spec ks es : Forall2 (fun k e => setKey e = inl k) ks es -> NoDup ks -> forall c, wf c -> exists c',
  each toggle c ks es = Some c' /\ wf c' /\
  forall k, abs c' !! k = if decide (k ∈ ks) then (if abs c !! k then None else keyed ks es !! k) else abs c !! k.
Proof.
  induction 1 as [|k e ks es Hk _ IH]; intros Hn c Hw.
  { exists c. split_and!; [done|done|]. intros k. by rewrite decide_False by apply not_elem_of_nil. }
  apply NoDup_cons in Hn as [Hnk Hn]. simpl.
  assert (exists c1, toggle c k (Some e) = Some c1 /\ wf c1 /\
    forall k', abs c1 !! k' = if decide (k' =
    k) then (if abs c !! k' then None else Some e) else abs c !! k') as (c1 & -> & Hw1 & Ha).
  { unfold toggle. rewrite has_abs by done. case_bool_decide as Hc.
    - destruct (removeKey_spec c k Hw) as (c1 & -> & Hw1 & Ha). exists c1. split_and!; [done|done|]. intros k'.
      rewrite Ha.
      case_decide as Ek; [subst|by rewrite lookup_delete_ne]. rewrite lookup_delete_eq. by destruct Hc as [? ->].
    - destruct (addKeyed_spec c k e Hw Hk) as [Hw1 Ha]. eexists. split_and!; [done|done|]. intros k'.
      rewrite Ha, lookup_union.
      apply eq_None_not_Some in Hc. case_decide as Ek; [subst; rewrite lookup_singleton_eq, Hc; done|].
      rewrite lookup_singleton_ne by done. by destruct (abs c !! k'). }
  simpl. destruct (IH Hn c1 Hw1) as (c' & -> & Hw' & Hc'). exists c'. split_and!; [done|done|]. intros k'.
  rewrite Hc', Ha, keyed_cons.
  destruct (decide (k' = k)) as [->|Hne].
  - rewrite (decide_False (P := k ∈ ks)), (decide_True (P := k ∈ k :: ks)) by (done || by left).
    by rewrite lookup_insert_eq.
  - rewrite lookup_insert_ne by done. destruct (decide (k' ∈ ks)).
    + by rewrite decide_True by by right.
    + by rewrite decide_False by by intros [?|?]%elem_of_cons.
Qed.

Lemma toggleAll_spec c ac : wf c -> wf ac -> exists c',
  eachOf toggle c ac = Some c' /\ repr c' ((abs c ∖ abs ac) ∪ (abs ac ∖ abs c)).
Proof.
  intros Hc Ha. destruct (toggle_spec _ _ (wf_key ac Ha) (core_nodup ac Ha) c Hc) as (c' & E & Hw & Hk). exists c'.
  split; [exact E|]. split; [done|]. apply map_eq. intros k. rewrite Hk, zip_lookup, lookup_union, !lookup_diff by done.
  destruct (decide (k ∈ keys ac)) as [H|H]; rewrite (keys_elem ac k Ha) in H.
  - rewrite (decide_True (P := is_Some (abs ac !! k))) by done. destruct (abs c !! k); [by rewrite decide_True|].
    rewrite decide_False; [by destruct (abs ac !! k)|]. by intros [].
  - apply eq_None_not_Some in H. rewrite H. rewrite decide_False by by intros []. destruct (abs c !! k); by case_decide.
Qed.

(** *** Comparisons *)

Lemma forall_has a b : wf a -> wf b -> forallb (has b) (keys a) = bool_decide (dom (abs a) ⊆ dom (abs b)).
Proof.
  intros Ha Hb. apply eq_true_iff_eq. rewrite forallb_forall, bool_decide_eq_true. split; intros H k Hk.
  - apply elem_of_dom. apply elem_of_dom, keys_elem, list_elem_of_In, H in Hk; [|done].
    rewrite has_abs in Hk by done. by apply bool_decide_eq_true in Hk.
  - rewrite has_abs by done. apply bool_decide_eq_true, elem_of_dom, H, elem_of_dom, keys_elem, list_elem_of_In; done.
Qed.

Lemma isSubsetCore_spec a b : wf a -> wf b -> isSubsetCore a b = bool_decide (dom (abs a) ⊆ dom (abs b)).
Proof.
  intros Ha Hb. unfold isSubsetCore. rewrite forall_has, !keys_size by done.
  destruct (Nat.ltb_spec (size (dom (abs b))) (size (dom (abs a)))); [|done].
  symmetry. apply bool_decide_eq_false. intros Hs%subseteq_size. lia.
Qed.

Lemma sameElements_spec a b : wf a -> wf b -> sameElements a b = bool_decide (dom (abs a) = dom (abs b)).
Proof.
  intros Ha Hb. unfold sameElements. rewrite forall_has, !keys_size by done.
  destruct (Nat.eqb_spec (size (dom (abs a))) (size (dom (abs b)))) as [E|E]; simpl.
  - apply bool_decide_ext. split; [|by intros ->]. intros H. apply set_subseteq_size_eq; [done|lia].
  - symmetry. apply bool_decide_eq_false. intros H. by rewrite H in E.
Qed.

Lemma proper_subset a b : wf a -> wf b ->
  (length (keys a) <? length (keys b)) && isSubsetCore a b = bool_decide (dom (abs a) ⊂ dom (abs b)).
Proof.
  intros Ha Hb. rewrite isSubsetCore_spec, !keys_size by done. apply eq_true_iff_eq.
  rewrite andb_true_iff, Nat.ltb_lt, !bool_decide_eq_true. split.
  - intros [Hl Hs]. split; [done|]. intros H%subseteq_size. lia.
  - intros H. split; [by apply subset_size|apply H].
Qed.

Lemma setOrder_spec op a b : wf a -> wf b -> setOrder op a b = aOrder op (abs a) (abs b).
Proof. intros Ha Hb. unfold setOrder, aOrder. destruct op; auto using proper_subset, isSubsetCore_spec. Qed.

Lemma disjoint_spec c ac : wf c -> wf ac -> negb (existsb (has c) (keys ac)) =
  bool_decide (dom (abs c) ∩ dom (abs ac) = ∅).
Proof.
  intros Hc Ha. apply eq_true_iff_eq. rewrite negb_true_iff, bool_decide_eq_true, <- not_true_iff_false, existsb_exists.
  setoid_rewrite has_abs; [|done]. setoid_rewrite bool_decide_eq_true. setoid_rewrite <- list_elem_of_In.
  split.
  - intros H. apply set_eq. intros k. split; [|by intros ?%not_elem_of_empty].
    intros [Hk%elem_of_dom Hk'%elem_of_dom]%elem_of_intersection. destruct H. exists k. by rewrite keys_elem.
  - intros H (k & Hk & Hs). apply (not_elem_of_empty (C := gset string) k). rewrite <- H.
    apply elem_of_intersection. split; apply elem_of_dom; [done|by apply keys_elem].
Qed.

(** ** The program and its specification *)

Definition absObj (s : setObject) : bool * aset := (isFrozen s, abs (core s)).
Definition absStore (h : store) : astore := map absObj h.

Definition wfStore (h : store) : Prop := Forall (fun s => wf (core s)) h.

(** Results that agree: both an exception, both a panic, or related values. *)
Definition agree {A B} (R : A -> B -> Prop) (r : option (A + pyerr)) (s : option (B + pyerr)) : Prop :=
  match r, s with
  | Some (inl a), Some (inl b) => R a b
  | Some (inr e), Some (inr e') => e = e'
  | None, None => True
  | _, _ => False
  end.

Definition sim (r : option (store * out)) (s : option (astore * out)) : Prop :=
  match r, s with
  | Some (h, o), Some (H, o') => wfStore h /\ H = absStore h /\ o' = o
  | None, None => True
  | _, _ => False
  end.

Section Simulation.
Context (h : store) (Hh : wfStore h).

Lemma abs_at a : absStore h !! a = absObj <$> h !! a.
Proof. apply list_lookup_fmap. Qed.

Lemma wf_at a s : h !! a = Some s -> wf (core s).
Proof. intros H. unfold wfStore in Hh. rewrite Forall_lookup in Hh. by eapply Hh. Qed.

Lemma frozenKey_abs c : wf c -> frozenKey (aKeys (abs c)) = frozenKey (keys c).
Proof. intros Hw. unfold frozenKey. by rewrite (sortStrs_perm _ _ (keys_perm c Hw)). Qed.

Lemma aSetOf_spec v : aSetOf (absStore h) v = option_map (option_map absObj) (asSetObject h v).
Proof. destruct v as [a|a o| | |]; simpl; [rewrite abs_at; by destruct (h !! a)..|done|done|done]. Qed.

Lemma asSetObject_wf v s : asSetObject h v = Some (Some s) -> wf (core s).
Proof. destruct v as [a|a o| | |]; simpl; intros E; simplify_option_eq; by eapply wf_at. Qed.

Lemma aEltOf_spec v : aEltOf (absStore h) v = eltOf h v.
Proof.
  destruct v as [a|a o| | |]; simpl; [|done..]. rewrite abs_at. destruct (h !! a) as [s|] eqn:E; [|done]. simpl.
  unfold setObj. by rewrite list_to_map_to_list, items_abs by by eapply wf_at.
Qed.

Lemma frozen_setKey c : wf c -> setKey (setObj true (itemsIn c)) = inl (frozenKey (keys c)).
Proof.
  intros Hw. unfold setKey, boundary, setObj. simpl. rewrite items_abs by done. f_equal. by apply frozenKey_abs.
Qed.

Lemma aLookupKey_spec v : aLookupKey (absStore h) v = lookupKey h v.
Proof.
  destruct v as [a|a o| | |]; simpl; [|done..]. rewrite abs_at. destruct (h !! a) as [s|] eqn:E; [|done]. simpl.
  rewrite frozenKey_abs by by eapply wf_at. destruct (isFrozen s); [|done]. f_equal. symmetry. apply frozen_setKey. by eapply wf_at.
Qed.

Lemma collect_spec items : forall c, wf c -> agree repr (Some (addAllElts c items)) (Some (aCollect (abs c) items)).
Proof.
  induction items as [|e items IH]; intros c Hw; [by split|]. simpl. unfold addElt.
  destruct (setKey e) as [k|x] eqn:E; [|done].
  destruct (addKeyed_spec c k e Hw E) as [Hw' <-]. by apply IH.
Qed.

Lemma drain_agree {A B} (R : A -> B -> Prop) r s stop : agree R (Some r) (Some s) ->
  agree R (Some (drain r stop)) (Some (drain s stop)).
Proof. intros H. by destruct r, s, stop. Qed.

Lemma aArg_spec v : agree repr (buildArgCore h v) (aArg (absStore h) v).
Proof.
  unfold buildArgCore, aArg. rewrite aSetOf_spec.
  destruct (asSetObject h v) as [[s|]|] eqn:E; simpl;
  [|by apply drain_agree, (collect_spec _ newSetCore), new_repr|done].
  split; [by eapply asSetObject_wf|done].
Qed.

Lemma aMemb_spec v : agree eq (argMembership h v) (aMemb (absStore h) v).
Proof.
  unfold argMembership, aMemb. rewrite aSetOf_spec.
  destruct (asSetObject h v) as [[s|]|] eqn:E; simpl; [|by destruct (drain _ _)|done].
  symmetry. apply keys_dom. by eapply asSetObject_wf.
Qed.

Lemma aOperand_spec v : agree repr (operandToCore h v) (aOperand (absStore h) v).
Proof.
  unfold operandToCore, aOperand. rewrite aSetOf_spec.
  destruct (asSetObject h v) as [[s|]|] eqn:E; simpl; [|destruct (itemsOf v).2;
  [done|apply (collect_spec _ newSetCore), new_repr]|done].
  split; [by eapply asSetObject_wf|done].
Qed.

Lemma foldArgs_spec {A B A' B'} (P : A -> A' -> Prop) (R : B -> B' -> Prop) conv conv' f f' args :
  (forall v, agree R (conv v) (conv' v)) ->
  (forall a a' b b', P a a' -> R b b' -> exists r, f a b = Some r /\ exists r', f' a' b' = Some r' /\ P r r') ->
  forall a a', P a a' -> agree P (foldArgs conv f a args) (foldArgs conv' f' a' args).
Proof.
  intros Hc Hf. induction args as [|v args IH]; intros a a' Ha; [done|]. simpl. specialize (Hc v). unfold agree in Hc.
  destruct (conv v) as [[b|e]|], (conv' v) as [[b'|e']|]; simpl; try done.
  destruct (Hf a a' b b' Ha Hc) as (r & -> & r' & -> & Hr). simpl. by apply IH.
Qed.

Lemma fail_sim e : sim (fail h e) (fail (absStore h) e).
Proof. done. Qed.

Lemma same_sim o : sim (Some (h, o)) (Some (absStore h, o)).
Proof. done. Qed.

Lemma withArg_sim {A B} (R : A -> B -> Prop) r s k k' : agree R r s -> (forall a b, R a b -> sim (k a) (k' b)) ->
  sim (withArg h r k) (withArg (absStore h) s k').
Proof.
  intros Hr Hk. unfold agree in Hr. destruct r as [[a|e]|], s as [[b|e']|]; simpl; try done; [by apply Hk|]. by subst.
Qed.

Lemma alloc_sim fr c m : repr c m -> sim (alloc h (mkSet fr c)) (alloc (absStore h) (fr, m)).
Proof.
  intros [Hc ->]. unfold alloc, sim, absStore. rewrite map_app, length_map. split_and!; [|done|done].
  apply Forall_app. split; [done|]. by apply Forall_singleton.
Qed.

Lemma put_sim x c m o : repr c m -> sim (Some (setCoreOf h x c, o)) (Some (aPut (absStore h) x m, o)).
Proof.
  intros [Hc ->]. split_and!; [by apply Forall_alter| |done]. unfold aPut, setCoreOf, absStore.
  clear Hh. revert x. induction h as [|s l IH]; intros [|x]; [done..|]. simpl. f_equal. apply IH.
Qed.

Lemma new_sim fr r s : agree repr r s ->
  sim (withArg h r (fun c => alloc h (mkSet fr c))) (withArg (absStore h) s (fun n => alloc (absStore h) (fr, n))).
Proof. intros H. apply (withArg_sim repr); [done|]. intros c m Hc. by apply alloc_sim. Qed.
End Simulation.

Lemma change_sim f g : (forall c ac, wf c -> wf ac -> exists c', f c ac = Some c' /\ repr c' (g (abs c) (abs ac))) ->
  forall args h x, wfStore h -> sim (changeArgs f h x args) (aChange g (absStore h) x args).
Proof.
  intros Hf. induction args as [|v args IH]; intros h x Hh; [done|]. simpl.
  apply (withArg_sim h Hh repr); [by apply aArg_spec|]. intros ac n [Hac ->]. rewrite abs_at.
  destruct (h !! x) as [s|] eqn:E; [|done]. simpl.
  destruct (Hf (core s) ac) as (c & -> & Hc); [by eapply wf_at|done|]. simpl.
  destruct (put_sim h Hh x c _ RNone Hc) as (Hw & -> & _). by apply IH.
Qed.

Lemma union_new c : wf c -> exists oc, unionInto newSetCore [c] = Some oc /\ repr oc (abs c).
Proof.
  intros Hc. destruct new_repr as [Hn En]. destruct (unionInto_one newSetCore c Hn Hc) as (d & E & H). exists d.
  by rewrite <- En, empty_left in H.
Qed.

(** The steps of the loops over arguments. *)
Lemma union_step c m ac n : repr c m -> repr ac n -> exists r, unionInto c [ac] = Some r /\ exists r',
  Some (m ∪ n) = Some r' /\ repr r r'.
Proof. intros [Hc ->] [Ha ->]. destruct (unionInto_one c ac Hc Ha) as (d & -> & H). eauto. Qed.

Lemma remove_step c m ac n : repr c m -> repr ac n ->
  exists r, removeKeys c (keys ac) = Some r /\ exists r', Some (m ∖ n) = Some r' /\ repr r r'.
Proof. intros [Hc ->] [Ha ->]. destruct (removeAll_spec c ac Hc Ha) as (d & -> & H). eauto. Qed.

Lemma restrict_step c m ac n : repr c m -> ac = n ->
  exists r, restrict c ac = Some r /\ exists r', Some (aRestrict m n) = Some r' /\ repr r r'.
Proof. intros [Hc ->] ->. destruct (restrict_spec c n Hc) as (d & -> & H). eauto. Qed.

Section Methods.
Context (h : store) (Hh : wfStore h) (x : nat) (c : setCore) (Hc : wf c).

Lemma intersection_agree args : agree repr (foldArgs (argMembership h) restrict c args)
  (foldArgs (aMemb (absStore h)) (fun m n => Some (aRestrict m n)) (abs c) args).
Proof. apply (foldArgs_spec repr eq); [apply aMemb_spec, Hh|apply restrict_step|done]. Qed.

Lemma common_sim pick fr m args r : commonSetMethod h x fr c m args = Some r ->
  sim r (aMethod pick (absStore h) x fr (abs c) m args).
Proof.
  destruct m; intros [= <-]; simpl; try (destruct (exactlyOne _ _ _) as [v|e]; [|done]).
  - destruct (noArgs fr MCopy args); [done|]. destruct fr; [done|]. by apply alloc_sim.
  - destruct (union_new c Hc) as (oc & -> & Ho). simpl. apply new_sim; [done|].
    apply (foldArgs_spec repr repr); [apply aArg_spec, Hh|apply union_step|done].
  - apply new_sim; [done|apply intersection_agree].
  - apply new_sim; [done|]. apply (foldArgs_spec repr repr); [apply aArg_spec, Hh|apply remove_step|done].
  - pose proof (aArg_spec h Hh v) as Ha. unfold agree in Ha.
    destruct (buildArgCore h v) as [[ac|e]|], (aArg (absStore h) v) as [[n|e']|]; simpl; try done; [|by subst].
    destruct Ha as [Ha ->]. destruct (combine_spec setOpSymDiff c ac Hc Ha) as (oc & E & Ho). simpl in E. rewrite E.
    by apply alloc_sim.
  - apply (withArg_sim h Hh eq); [by apply aMemb_spec|]. intros ? n ->. split_and!; [done|done|]. do 2 f_equal.
    apply eq_true_iff_eq. rewrite forallb_forall, bool_decide_eq_true. setoid_rewrite <- list_elem_of_In.
    setoid_rewrite bool_decide_eq_true. rewrite keys_dom by done. set_solver.
  - apply (withArg_sim h Hh repr); [by apply aArg_spec|]. intros ac n [Ha ->]. by rewrite isSubsetCore_spec.
  - apply (withArg_sim h Hh repr); [by apply aArg_spec|]. intros ac n [Ha ->]. by rewrite disjoint_spec.
Qed.

Lemma mutator_common fr m args : commonSetMethod h x fr c m args = None <->
  match m with
  | MAdd | MRemove | MDiscard | MPop | MClear
  | MUpdate | MIntersectionUpdate | MDifferenceUpdate | MSymmetricDifferenceUpdate => True
  | _ => False
  end.
Proof. by destruct m. Qed.

Lemma add_sim v : sim
  (o ← eltOf h v; match addElt c o with inl c => Some (setCoreOf h x c, RNone) | inr e => fail h e end)
  (o ← aEltOf (absStore h) v;
   match setKey o with inl k => Some (aPut (absStore h) x (abs c ∪ {[k := o]}),
   RNone) | inr e => fail (absStore h) e end).
Proof.
  rewrite aEltOf_spec by done. destruct (eltOf h v) as [o|]; [|done]. simpl. unfold addElt.
  destruct (setKey o) as [k|e] eqn:E; [|done]. apply put_sim; [done|]. by destruct (addKeyed_spec c k o Hc E).
Qed.

(** The key that [pop] takes. *)
Definition popped : string := default "" (head (keys c)).

Lemma pop_sim : sim
  (match elts c with
   | [] => Some (h, RFail (SKeyError (VObj (OStr "pop from an empty set") [] None)))
   | e :: _ => k ← head (keys c); r ← removeKey c k; Some (setCoreOf h x r.1, RElt e)
   end)
  (if decide (abs c = ∅) then Some (absStore h, RFail (SKeyError (VObj (OStr "pop from an empty set") [] None)))
   else Some (match abs c !! popped with
              | Some e => (aPut (absStore h) x (delete popped (abs c)), RElt e)
              | None => (absStore h, RUnsupported)
              end)).
Proof.
  pose proof Hc as [Hf Hi]. unfold popped.
  destruct (keys c) as [|k ks] eqn:Ek; inversion Hf as [|? e ? es Hk Hf' E1 E2].
  - rewrite decide_True; [done|]. apply map_eq. intros k. rewrite lookup_empty, abs_none by done.
    apply eq_None_not_Some. intros [i Hx%Hi]. by rewrite lookup_nil in Hx.
  - simpl. assert (index c !! k = Some 0) as E0 by (by apply Hi).
    assert (abs c !! k = Some e) as Ha by by rewrite abs_lookup, E0; simpl; rewrite <- E2.
    rewrite decide_False by (intros Hx; by rewrite Hx in Ha). rewrite Ha.
    destruct (removeKey_spec c k Hc) as (c' & -> & Hc' & Hd). by apply put_sim.
Qed.

Lemma setMethod_sim m args : sim (setMethod h x c m args) (aMethod popped (absStore h) x false (abs c) m args).
Proof.
  unfold setMethod. destruct (commonSetMethod h x false c m args) as [r|] eqn:E; [by apply common_sim|].
  apply mutator_common in E. destruct m; try done; clear E; cbn [aMethod]; cbv zeta;
    try (destruct (exactlyOne _ _ _) as [v|e]; [|done]); try (destruct (noArgs _ _ _); [done|]).
  - apply add_sim.
  - apply (withArg_sim h Hh eq); [rewrite aLookupKey_spec by done; by destruct (lookupKey h v) as [[]|]|].
    intros ? k ->.
    destruct (removeKey_spec c k Hc) as (c' & -> & Hc' & Hd). simpl.
    case_bool_decide; [rewrite decide_True by done; by apply put_sim|by rewrite decide_False].
  - apply (withArg_sim h Hh eq); [rewrite aLookupKey_spec by done; by destruct (lookupKey h v) as [[]|]|].
    intros ? k ->.
    destruct (removeKey_spec c k Hc) as (c' & -> & Hc' & Hd). by apply put_sim.
  - apply pop_sim.
  - apply put_sim; [done|apply new_repr].
  - apply change_sim; [|done]. apply unionInto_one.
  - apply (withArg_sim h Hh repr); [apply intersection_agree|]. intros c' m Hm. by apply put_sim.
  - apply change_sim; [|done]. apply removeAll_spec.
  - apply (withArg_sim h Hh repr); [by apply aArg_spec|]. intros ac n [Ha ->].
    destruct (toggleAll_spec c ac Hc Ha) as (c' & -> & H). by apply put_sim.
Qed.

Lemma frozensetMethod_sim m args : sim (frozensetMethod h x c m args) (aMethod popped (absStore h) x true (abs c) m args).
Proof.
  unfold frozensetMethod. destruct (commonSetMethod h x true c m args) as [r|] eqn:E; [by apply common_sim|].
  apply mutator_common in E. by destruct m.
Qed.
End Methods.

Section Operators.
Context (h : store) (Hh : wfStore h).

Lemma combined_sim op a b fr : wf a -> wf b ->
  sim (c ← combine op a b; alloc h (mkSet fr c)) (alloc (absStore h) (fr, aCombine op (abs a) (abs b))).
Proof. intros Ha Hb. destruct (combine_spec op a b Ha Hb) as (c & -> & Hc). by apply alloc_sim. Qed.

Lemma binary_sim op a b : sim (binary h op a b) (aBinary (absStore h) op a b).
Proof.
  unfold binary, aBinary, dictViewSetOp. destruct (_ || _).
  - apply (withArg_sim h Hh repr); [by apply aOperand_spec|]. intros ac m [Ha ->].
    apply (withArg_sim h Hh repr); [by apply aOperand_spec|]. intros bc n [Hb ->]. by apply combined_sim.
  - rewrite !aSetOf_spec by done.
    destruct (asSetObject h a) as [[s|]|] eqn:Ea, (asSetObject h b) as [[t|]|] eqn:Eb; simpl; try done.
    apply combined_sim; by eapply asSetObject_wf.
Qed.

Lemma inPlace_sim op a b pick : sim (inPlace h op a b) (astep pick (absStore h) (SInPlace op a b)).
Proof.
  unfold inPlace. simpl. rewrite !aSetOf_spec by done.
  destruct (asSetObject h a) as [s|] eqn:Ea, (asSetObject h b) as [t|] eqn:Eb; simpl; try done.
  destruct a as [x| | | |]; try apply binary_sim. destruct s as [[[|] c]|], t as [t|]; simpl; try apply binary_sim.
  destruct (combine_spec op c (core t)) as (c' & -> & Hc');
  [by apply (asSetObject_wf h Hh _ _ Ea)|by apply (asSetObject_wf h Hh _ _ Eb)|].
  by apply put_sim.
Qed.

Lemma sstep_sim o : exists pick, sim (sstep h o) (astep pick (absStore h) o).
Proof.
  destruct o as [fr items|x v|x m args|op a b|op a b|x b|op a b|x v].
  - exists "". simpl. unfold NewSet. destruct new_repr as [Hn En]. pose proof (collect_spec items newSetCore Hn) as H.
    rewrite <- En in H.
    unfold agree in H. destruct (addAllElts newSetCore items) as [c|e], (aCollect ∅ items) as [m|e']; try done.
    + by apply alloc_sim.
    + by subst.
  - exists "". simpl. unfold SetAdd. rewrite abs_at. destruct (h !! x) as [[fr c]|] eqn:E; [|done]. simpl. rewrite aEltOf_spec by done.
    destruct fr; [by destruct (eltOf h v)|]. pose proof (add_sim h Hh x c (wf_at h Hh x _ E) v) as H.
    by rewrite aEltOf_spec in H.
  - simpl. unfold callMethod. rewrite abs_at. destruct (h !! x) as [[fr c]|] eqn:E; [|by exists ""]. simpl.
    exists (popped c).
    pose proof (wf_at h Hh x _ E). destruct fr; [by apply frozensetMethod_sim|by apply setMethod_sim].
  - exists "". apply binary_sim.
  - exists "". apply inPlace_sim.
  - exists "". simpl. unfold coreEquals. rewrite abs_at, aSetOf_spec by done.
    destruct (h !! x) as [s|] eqn:E; [|done]. simpl.
    destruct (asSetObject h b) as [[t|]|] eqn:Eb; simpl; try done.
    rewrite sameElements_spec; [done|by eapply wf_at|by eapply asSetObject_wf].
  - exists "". simpl. unfold order. rewrite !aSetOf_spec by done.
    destruct (asSetObject h a) as [[s|]|] eqn:Ea, (asSetObject h b) as [[t|]|] eqn:Eb; simpl; try done.
    rewrite setOrder_spec; [done|by eapply asSetObject_wf..].
  - exists "". simpl. rewrite abs_at. destruct (h !! x) as [s|] eqn:E; [|done]. simpl. unfold setContains.
    apply (withArg_sim h Hh eq); [rewrite aLookupKey_spec by done; by destruct (lookupKey h v) as [[]|]|].
    intros ? k ->.
    by rewrite has_abs by by eapply wf_at.
Qed.
End Operators.

Lemma srun_sim os : forall h, wfStore h -> exists picks, length picks = length os /\
  match srun h os, arun (absStore h) (zip picks os) with
  | Some (h', xs), Some (H', ys) => wfStore h' /\ H' = absStore h' /\ ys = xs
  | None, None => True
  | _, _ => False
  end.
Proof.
  induction os as [|o os IH]; intros h Hh; [by exists []|]. destruct (sstep_sim h Hh o) as [pick Hs]. cbn [srun].
  destruct (sstep h o) as [[h1 x]|] eqn:E; simpl in Hs.
  - destruct (astep pick (absStore h) o) as [[H1 y]|] eqn:Ea; [|done]. destruct Hs as (Hw & -> & ->).
    destruct (IH h1 Hw) as (picks & Hl & Hr). exists (pick :: picks). split; [by f_equal/=|]. simpl. rewrite Ea. simpl.
    destruct (srun h1 os) as [[h2 xs]|], (arun _ _) as [[H2 ys]|]; simpl; try done. by destruct Hr as (? & ? & ->).
  - exists (pick :: repeat "" (length os)). split; [simpl; by rewrite repeat_length|]. simpl.
    by destruct (astep pick (absStore h) o).
Qed.

(** C25: sets are finite maps.  Any program over sets and frozensets (building,
    every method with any arguments, the operators and their augmented forms on
    sets, subclass instances, dict views and other iterables, comparisons and
    membership) gives what the same program gives on finite maps from a key to
    the element kept for it, with the same exceptions, the same results and the
    same objects changed, also where one set is used twice; [pop] takes the
    element of some key that is there.  It never indexes outside a core, whose
    index stays the positions of its keys. *)
Theorem set_refines os : exists picks, length picks = length os /\
  match srun [] os, arun [] (zip picks os) with
  | Some (h, xs), Some (H, ys) => wfStore h /\ H = absStore h /\ ys = xs
  | None, None => True
  | _, _ => False
  end.
Proof. by apply (srun_sim os []), Forall_nil. Qed.

(** Two frozensets are the same dict key or set element exactly when they are
    equal. *)
Lemma frozen_equal a b : wf a -> wf b -> sameElements a b = true <-> frozenKey (keys a) = frozenKey (keys b).
Proof.
  intros Ha Hb. rewrite sameElements_spec, bool_decide_eq_true, !keys_dom by done. unfold frozenKey. split; intros H.
  - f_equal. f_equal. apply sortStrs_perm, NoDup_Permutation; [by apply core_nodup..|]. intros k.
    by rewrite <- !(elem_of_list_to_set (C := gset string)), H.
  - simplify_eq/=. apply parts_inj in H. apply set_eq. intros k. rewrite !elem_of_list_to_set.
    rewrite <- (merge_sort_Permutation String.le (keys a)), <- (merge_sort_Permutation String.le (keys b)).
    unfold sortStrs in H. by rewrite H.
Qed.

(** ** Where the sets are not CPython's *)

Definition elementsAt (h : store) (x : nat) : option (list obj) := (fun s => elts (core s)) <$> h !! x.

(** The double 1.0. *)
Definition one : obj := OFloat (S754_finite false 4503599627370496 (-52)) 0.

(** [s = {0}; s.update([1, []])] raises and leaves [s] alone; CPython has added
    the 1 by then. *)
Lemma update_all_or_nothing : exists h e,
  srun [] [SNew false [OInt 0]; SCall 0 MUpdate [VObj (OUnhashable "list") [OInt 1; OUnhashable "list"] None]]
    = Some (h, [RSet 0; RFail e]) /\ elementsAt h 0 = Some [OInt 0].
Proof. eexists _, _. vm_compute. done. Qed.

(** [{1}.intersection([1.0])] keeps the 1; CPython takes the element of the
    iterable. *)
Lemma intersection_keeps_own : exists h,
  srun [] [SNew false [OInt 1]; SCall 0 MIntersection [VObj (OUnhashable "list") [one] None]]
    = Some (h, [RSet 0; RSet 1]) /\ elementsAt h 1 = Some [OInt 1].
Proof. eexists. vm_compute. done. Qed.

(** [s |= t] on an instance of a subclass of set gives a new plain set and leaves
    the instance's elements as they are; CPython changes it in place. *)
Lemma subclass_update_rebinds o : exists h,
  srun [] [SNew false [OInt 1]; SNew false [OInt 2]; SInPlace setOpUnion (VInst 0 o) (VSet 1)]
    = Some (h, [RSet 0; RSet 1; RSet 2]) /\ elementsAt h 0 = Some [OInt 1].
Proof. eexists. vm_compute. done. Qed.

(** [{1} == {1: None}.keys()] is False and [<=] raises; in CPython both hold. *)
Lemma view_never_equal : exists h,
  srun [] [SNew false [OInt 1]; SEquals 0 (VKeys [(OInt 1, ONone)]); SCompare OpLe (VSet 0) (VKeys [(OInt 1, ONone)])]
    = Some (h, [RSet 0; RBool false; RUnsupported]).
Proof. eexists. vm_compute. done. Qed.
