(* ===== verification/Sre.v ===== *)
(** * Sre: the regular expression engine

    Model of src/pkg/sre: the matcher that runs the bytecode of a compiled
    pattern on a list of code points.  Words of the bytecode, positions and
    counts are integers; a position outside a slice is a Go panic.  The nodes of
    the repeat stack are objects at addresses, since the code changes them
    through the stack's pointers.  Go's unicode tables are a parameter.

    A match of a sub-pattern is a recursive call in the code; here [rec] stands
    for it, and [match_] ties the knot with fuel, which also bounds the turns of
    the loops. *)

From S2P Require Import Prelude.
Local Open Scope Z_scope.

(** ** Results *)

Inductive res (A : Type) := Ret (a : A) | Panic | NoFuel.
Arguments Ret {A} _.
Arguments Panic {A}.
Arguments NoFuel {A}.

Definition rbind {A B} (m : res A) (k : A -> res B) : res B :=
  match m with Ret a => k a | Panic => Panic | NoFuel => NoFuel end.

Declare Scope sre_scope.
Delimit Scope sre_scope with sre.
Notation "x <- m ;; k" := (rbind m (fun x => k)) (at level 100, m at next level, right associativity) : sre_scope.
Local Open Scope sre_scope.

(** An index into a slice. *)
Definition at_ {A} (l : list A) (i : Z) : res A :=
  if i <? 0 then Panic else match l !! Z.to_nat i with Some x => Ret x | None => Panic end.

(** ** constants.go *)

Inductive opcode :=
  | OpFailure | OpSuccess | OpAny | OpAnyAll | OpAssert | OpAssertNot | OpAt | OpBranch | OpCategory | OpCharset
  | OpBigcharset | OpGroupref | OpGrouprefExists | OpIn | OpInfo | OpJump | OpLiteral | OpMark | OpMaxUntil
  | OpMinUntil | OpNotLiteral | OpNegate | OpRange | OpRepeat | OpRepeatOne | OpSubpattern | OpMinRepeatOne
  | OpAtomicGroup | OpPossessiveRepeat | OpPossessiveRepeatOne | OpGrouprefIgnore | OpInIgnore | OpLiteralIgnore
  | OpNotLiteralIgnore | OpGrouprefLocIgnore | OpInLocIgnore | OpLiteralLocIgnore | OpNotLiteralLocIgnore
  | OpGrouprefUniIgnore | OpInUniIgnore | OpLiteralUniIgnore | OpNotLiteralUniIgnore | OpRangeUniIgnore.

#[export] Instance opcode_eq_dec : EqDecision opcode.
Proof. solve_decision. Defined.

Definition opcodes : list opcode :=
  [OpFailure; OpSuccess; OpAny; OpAnyAll; OpAssert; OpAssertNot; OpAt; OpBranch; OpCategory; OpCharset;
   OpBigcharset; OpGroupref; OpGrouprefExists; OpIn; OpInfo; OpJump; OpLiteral; OpMark; OpMaxUntil;
   OpMinUntil; OpNotLiteral; OpNegate; OpRange; OpRepeat; OpRepeatOne; OpSubpattern; OpMinRepeatOne;
   OpAtomicGroup; OpPossessiveRepeat; OpPossessiveRepeatOne; OpGrouprefIgnore; OpInIgnore; OpLiteralIgnore;
   OpNotLiteralIgnore; OpGrouprefLocIgnore; OpInLocIgnore; OpLiteralLocIgnore; OpNotLiteralLocIgnore;
   OpGrouprefUniIgnore; OpInUniIgnore; OpLiteralUniIgnore; OpNotLiteralUniIgnore; OpRangeUniIgnore].

(** The opcode of a word, and the word of an opcode. *)
Definition opOf (w : Z) : option opcode := if w <? 0 then None else opcodes !! Z.to_nat w.

Fixpoint position (o : opcode) (l : list opcode) : Z :=
  match l with [] => 0 | x :: l => if decide (x = o) then 0 else 1 + position o l end.
Definition word (o : opcode) : Z := position o opcodes.

Inductive position_code :=
  | AtBeginning | AtBeginningLine | AtBeginningString | AtBoundary | AtNonBoundary | AtEnd | AtEndLine | AtEndString
  | AtLocBoundary | AtLocNonBoundary | AtUniBoundary | AtUniNonBoundary.

Definition atCodes : list position_code :=
  [AtBeginning; AtBeginningLine; AtBeginningString; AtBoundary; AtNonBoundary; AtEnd; AtEndLine; AtEndString;
   AtLocBoundary; AtLocNonBoundary; AtUniBoundary; AtUniNonBoundary].
Definition atOf (w : Z) : option position_code := if w <? 0 then None else atCodes !! Z.to_nat w.

Inductive category :=
  | CategoryDigit | CategoryNotDigit | CategorySpace | CategoryNotSpace | CategoryWord | CategoryNotWord
  | CategoryLinebreak | CategoryNotLinebreak | CategoryLocWord | CategoryLocNotWord | CategoryUniDigit
  | CategoryUniNotDigit | CategoryUniSpace | CategoryUniNotSpace | CategoryUniWord | CategoryUniNotWord
  | CategoryUniLinebreak | CategoryUniNotLinebreak.

Definition categories : list category :=
  [CategoryDigit; CategoryNotDigit; CategorySpace; CategoryNotSpace; CategoryWord; CategoryNotWord;
   CategoryLinebreak; CategoryNotLinebreak; CategoryLocWord; CategoryLocNotWord; CategoryUniDigit;
   CategoryUniNotDigit; CategoryUniSpace; CategoryUniNotSpace; CategoryUniWord; CategoryUniNotWord;
   CategoryUniLinebreak; CategoryUniNotLinebreak].
Definition categoryOf (w : Z) : option category := if w <? 0 then None else categories !! Z.to_nat w.

Definition SreInfoPrefix : Z := 1.
Definition SreInfoLiteral : Z := 2.
Definition SreInfoCharset : Z := 4.
Definition MaxRepeat : Z := 4294967295.

(** ** Character predicates *)

(** Go's unicode package. *)
Record unicode := mkUnicode {
  ToLower : Z -> Z;
  ToUpper : Z -> Z;
  IsLetter : Z -> bool;
  IsDigit : Z -> bool;
  IsNumber : Z -> bool;
  IsSpace : Z -> bool
}.

Definition between (lo ch hi : Z) : bool := (lo <=? ch) && (ch <=? hi).

Definition sreIsDigit (ch : Z) : bool := between 48 ch 57.
Definition sreIsSpace (ch : Z) : bool := existsb (Z.eqb ch) [32; 9; 10; 11; 12; 13].
Definition sreIsLinebreak (ch : Z) : bool := ch =? 10.
Definition sreIsAlnum (ch : Z) : bool := between 48 ch 57 || between 65 ch 90 || between 97 ch 122.
Definition sreIsWord (ch : Z) : bool := (ch <=? 122) && (sreIsAlnum ch || (ch =? 95)).
Definition sreLowerAscii (ch : Z) : Z := if (ch <? 128) && between 65 ch 90 then ch + 32 else ch.
Definition sreLowerLocale (ch : Z) : Z := sreLowerAscii ch.
Definition sreUpperLocale (ch : Z) : Z := if (ch <? 128) && between 97 ch 122 then ch - 32 else ch.
Definition isUnicodeLinebreak (r : Z) : bool := existsb (Z.eqb r) [10; 11; 12; 13; 28; 29; 30; 133; 8232; 8233].
Definition sreLocIsWord (ch : Z) : bool := sreIsWord ch.

Definition charLocIgnore (pat ch : Z) : bool :=
  (ch =? pat) || (sreLowerLocale ch =? pat) || (sreUpperLocale ch =? pat).

(** A word read as a code point. *)
Definition int32 (w : Z) : Z := if w <? 2 ^ 31 then w else w - 2 ^ 32.

(** ** The state *)

Definition markUnset : Z := -1.
Definition errIllegal : Z := -1.
Definition errState : Z := -2.

Record repeatStack := mkRep {
  count : Z;
  patternIdx : Z;
  lastPtr : Z;
  hasLastPtr : bool;
  prev : option nat
}.

(** The groups matched so far. *)
Record captures := mkCaptures { mark : list Z; lastmark : Z; lastindex : Z }.

Record state := mkState {
  start : Z;
  end_ : Z;
  ptr : Z;
  caps : captures;
  repeat : option nat;
  nodes : list repeatStack;
  matchAll : bool;
  mustAdvance : bool
}.

Definition setPtr (s : state) (p : Z) : state :=
  mkState (start s) (end_ s) p (caps s) (repeat s) (nodes s) (matchAll s) (mustAdvance s).
Definition setCaps (s : state) (c : captures) : state :=
  mkState (start s) (end_ s) (ptr s) c (repeat s) (nodes s) (matchAll s) (mustAdvance s).
Definition setRepeat (s : state) (r : option nat) : state :=
  mkState (start s) (end_ s) (ptr s) (caps s) r (nodes s) (matchAll s) (mustAdvance s).
Definition setNodes (s : state) (l : list repeatStack) : state :=
  mkState (start s) (end_ s) (ptr s) (caps s) (repeat s) l (matchAll s) (mustAdvance s).

(** [s.start = p; s.ptr = q] and the search's [s.mustAdvance = false]. *)
Definition startAt (s : state) (p q : Z) : state :=
  mkState p (end_ s) q (caps s) (repeat s) (nodes s) (matchAll s) (mustAdvance s).
Definition mayStay (s : state) : state :=
  mkState (start s) (end_ s) (ptr s) (caps s) (repeat s) (nodes s) (matchAll s) false.

Definition setRep (s : state) (a : nat) (r : repeatStack) : state := setNodes s (<[a := r]> (nodes s)).
Definition setCount (r : repeatStack) (n : Z) : repeatStack := mkRep n (patternIdx r) (lastPtr r) (hasLastPtr r) (prev r).
Definition setLast (r : repeatStack) (p : Z) (has : bool) : repeatStack := mkRep (count r) (patternIdx r) p has (prev r).

Definition clip (lo x hi : Z) : Z := if x <? lo then lo else if hi <? x then hi else x.

Definition resetCaptureGroup (s : state) : state := setCaps s (mkCaptures (mark (caps s)) (-1) (-1)).

Definition rejectSuccess (s : state) (toplevel : bool) (p : Z) : bool :=
  toplevel && ((matchAll s && negb (p =? end_ s)) || (mustAdvance s && (p =? start s))).

(** What a backtracking point keeps: the marks in use, if they are to be put
    back, and the two last slots. *)
Record saved := mkSaved { savedMarks : option (list Z); savedLastmark : Z; savedLastindex : Z }.

Definition inRepeat (s : state) : bool := match repeat s with Some _ => true | None => false end.

Definition save (keep : bool) (s : state) : saved :=
  mkSaved (if keep && (0 <=? lastmark (caps s)) then Some (take (Z.to_nat (lastmark (caps s) + 1)) (mark (caps s))) else None)
    (lastmark (caps s)) (lastindex (caps s)).

Definition restore (keep : bool) (v : saved) (s : state) : state :=
  setCaps s (mkCaptures
    (match savedMarks v with
     | Some l => if keep then l ++ drop (length l) (mark (caps s)) else mark (caps s)
     | None => mark (caps s)
     end) (savedLastmark v) (savedLastindex v)).

(** A match ends in a state and in 1, 0, or a negative error code. *)
Notation outcome := (res (state * Z)).

Section Engine.
Context (U : unicode) (input code : list Z).

Definition newState (groups : nat) (start_ end0 : Z) : state :=
  let length := Z.of_nat (length input) in
  let start_ := clip 0 start_ length in
  mkState start_ (clip 0 end0 length) start_ (mkCaptures (List.repeat markUnset (2 * groups)) (-1) (-1)) None [] false false.

Definition sreLowerUnicode (ch : Z) : Z := ToLower U ch.
Definition sreUpperUnicode (ch : Z) : Z := ToUpper U ch.
Definition sreUniIsAlnum (ch : Z) : bool := IsLetter U ch || IsDigit U ch || IsNumber U ch.
Definition sreUniIsWord (ch : Z) : bool := sreUniIsAlnum ch || (ch =? 95).

Definition sreCategory (cat ch : Z) : bool :=
  match categoryOf cat with
  | Some CategoryDigit => sreIsDigit ch
  | Some CategoryNotDigit => negb (sreIsDigit ch)
  | Some CategorySpace => sreIsSpace ch
  | Some CategoryNotSpace => negb (sreIsSpace ch)
  | Some CategoryWord => sreIsWord ch
  | Some CategoryNotWord => negb (sreIsWord ch)
  | Some CategoryLinebreak => sreIsLinebreak ch
  | Some CategoryNotLinebreak => negb (sreIsLinebreak ch)
  | Some CategoryLocWord => sreLocIsWord ch
  | Some CategoryLocNotWord => negb (sreLocIsWord ch)
  | Some CategoryUniDigit => IsDigit U ch
  | Some CategoryUniNotDigit => negb (IsDigit U ch)
  | Some CategoryUniSpace => IsSpace U ch
  | Some CategoryUniNotSpace => negb (IsSpace U ch)
  | Some CategoryUniWord => sreUniIsWord ch
  | Some CategoryUniNotWord => negb (sreUniIsWord ch)
  | Some CategoryUniLinebreak => isUnicodeLinebreak ch
  | Some CategoryUniNotLinebreak => negb (isUnicodeLinebreak ch)
  | None => false
  end.

(** ** Positions *)

Definition boundary (s : state) (p : Z) (isWord : Z -> bool) : res bool :=
  that <- (if 0 <? p then ch <- at_ input (p - 1) ;; Ret (isWord ch) else Ret false) ;;
  this <- (if p <? end_ s then ch <- at_ input p ;; Ret (isWord ch) else Ret false) ;;
  Ret (negb (Bool.eqb this that)).

Definition rneg (m : res bool) : res bool := b <- m ;; Ret (negb b).

Definition at_position (s : state) (p w : Z) : res bool :=
  match atOf w with
  | Some (AtBeginning | AtBeginningString) => Ret (p =? 0)
  | Some AtBeginningLine => if p =? 0 then Ret true else ch <- at_ input (p - 1) ;; Ret (sreIsLinebreak ch)
  | Some AtEnd =>
      lb <- (if end_ s - p =? 1 then ch <- at_ input p ;; Ret (sreIsLinebreak ch) else Ret false) ;;
      Ret (lb || (p =? end_ s))
  | Some AtEndLine => if p =? end_ s then Ret true else ch <- at_ input p ;; Ret (sreIsLinebreak ch)
  | Some AtEndString => Ret (p =? end_ s)
  | Some AtBoundary => boundary s p sreIsWord
  | Some AtNonBoundary => rneg (boundary s p sreIsWord)
  | Some AtLocBoundary => boundary s p sreLocIsWord
  | Some AtLocNonBoundary => rneg (boundary s p sreLocIsWord)
  | Some AtUniBoundary => boundary s p sreUniIsWord
  | Some AtUniNonBoundary => rneg (boundary s p sreUniIsWord)
  | None => Ret false
  end.

(** ** Character sets *)

Definition inRange (i ch : Z) : res bool :=
  lo <- at_ code i ;;
  if int32 lo <=? ch then hi <- at_ code (i + 1) ;; Ret (ch <=? int32 hi) else Ret false.

(** The bit of a code point in a bitmap of words. *)
Definition bitAt (i bit : Z) : res bool :=
  w <- at_ code (i + Z.shiftr bit 5) ;; Ret (Z.testbit w (Z.land bit 31)).

(** [int8] of the block index packed in a word. *)
Definition int8 (w : Z) : Z := let b := Z.land w 255 in if b <? 128 then b else b - 256.

Fixpoint charsetLoop (n : nat) (i ch : Z) (ok : bool) : res bool :=
  match n with
  | O => NoFuel
  | S n =>
      op <- at_ code i ;;
      let i := i + 1 in
      match opOf op with
      | Some OpFailure => Ret (negb ok)
      | Some OpLiteral => c <- at_ code i ;; if ch =? int32 c then Ret ok else charsetLoop n (i + 1) ch ok
      | Some OpCategory => c <- at_ code i ;; if sreCategory c ch then Ret ok else charsetLoop n (i + 1) ch ok
      | Some OpCharset =>
          b <- (if ch <? 256 then bitAt i ch else Ret false) ;;
          if (b : bool) then Ret ok else charsetLoop n (i + 8) ch ok
      | Some OpRange => b <- inRange i ch ;; if (b : bool) then Ret ok else charsetLoop n (i + 2) ch ok
      | Some OpRangeUniIgnore =>
          b <- inRange i ch ;;
          if (b : bool) then Ret ok
          else b <- inRange i (sreUpperUnicode ch) ;; if (b : bool) then Ret ok else charsetLoop n (i + 2) ch ok
      | Some OpNegate => charsetLoop n i ch (negb ok)
      | Some OpBigcharset =>
          cnt <- at_ code i ;;
          let i := i + 1 in
          block <- (if ch mod 2 ^ 32 <? 65536
                    then let b := Z.shiftr ch 8 in
                         w <- at_ code (i + Z.shiftr b 2) ;; Ret (int8 (Z.shiftr w (Z.land b 3 * 8)))
                    else Ret (-1)) ;;
          let i := i + 64 in
          b <- (if 0 <=? block then bitAt (i + block * 8) (Z.land ch 255) else Ret false) ;;
          if (b : bool) then Ret ok else charsetLoop n (i + cnt * 8) ch ok
      | _ => Ret false
      end
  end.

(** Every turn moves on by a word. *)
Definition charset (setIdx ch : Z) : res bool := charsetLoop (S (length code)) setIdx ch true.

Definition charsetLocIgnore (setIdx ch : Z) : res bool :=
  let lo := sreLowerLocale ch in
  b <- charset setIdx lo ;;
  if (b : bool) then Ret true
  else let up := sreUpperLocale ch in if up =? lo then Ret false else charset setIdx up.

(** ** Single characters *)

(** The comparison of the literal opcodes. *)
Definition literalTest (op : opcode) (chr ch : Z) : option bool :=
  match op with
  | OpLiteral => Some (ch =? chr)
  | OpNotLiteral => Some (negb (ch =? chr))
  | OpLiteralIgnore => Some (sreLowerAscii ch =? chr)
  | OpNotLiteralIgnore => Some (negb (sreLowerAscii ch =? chr))
  | OpLiteralUniIgnore => Some (sreLowerUnicode ch =? chr)
  | OpNotLiteralUniIgnore => Some (negb (sreLowerUnicode ch =? chr))
  | OpLiteralLocIgnore => Some (charLocIgnore chr ch)
  | OpNotLiteralLocIgnore => Some (negb (charLocIgnore chr ch))
  | _ => None
  end.

Definition isLiteral (op : opcode) : bool :=
  match op with
  | OpLiteral | OpNotLiteral | OpLiteralIgnore | OpNotLiteralIgnore | OpLiteralUniIgnore | OpNotLiteralUniIgnore
  | OpLiteralLocIgnore | OpNotLiteralLocIgnore => true
  | _ => false
  end.

(** The test of a one-character opcode whose operand is at [i]. *)
Definition charTest (op : opcode) (i ch : Z) : res bool :=
  match op with
  | OpCategory => c <- at_ code i ;; Ret (sreCategory c ch)
  | OpAny => Ret (negb (sreIsLinebreak ch))
  | OpAnyAll => Ret true
  | OpIn => charset (i + 1) ch
  | OpInIgnore => charset (i + 1) (sreLowerAscii ch)
  | OpInUniIgnore => charset (i + 1) (sreLowerUnicode ch)
  | OpInLocIgnore => charsetLocIgnore (i + 1) ch
  | _ => c <- at_ code i ;; match literalTest op (int32 c) ch with Some b => Ret b | None => Ret false end
  end.

(** The operand's length. *)
Definition operand (op : opcode) (i : Z) : res Z :=
  match op with
  | OpAny | OpAnyAll => Ret 0
  | OpIn | OpInIgnore | OpInUniIgnore | OpInLocIgnore => at_ code i
  | _ => Ret 1
  end.

Definition oneChar (op : opcode) : bool :=
  match op with
  | OpCategory | OpAny | OpAnyAll | OpIn | OpInIgnore | OpInUniIgnore | OpInLocIgnore => true
  | _ => isLiteral op
  end.

(** ** Matching *)

Definition matched (s : state) : outcome := Ret (s, 1).
Definition failed (s : state) : outcome := Ret (s, 0).

(** A success or an error is the result; after a failure the code goes on. *)
Definition orElse (m : outcome) (k : state -> outcome) : outcome :=
  p <- m ;; if p.2 =? 0 then k p.1 else Ret p.

(** A failure or an error is the result; after a success the code goes on. *)
Definition andThen (m : outcome) (k : state -> outcome) : outcome :=
  p <- m ;; if 0 <? p.2 then k p.1 else Ret p.

(** [for ptr < end && test(s.input[ptr]) { ptr++ }], [n] characters from the end. *)
Fixpoint advance (test : Z -> res bool) (n : nat) (p : Z) : res Z :=
  match n with
  | O => Ret p
  | S n => ch <- at_ input p ;; b <- test ch ;; if (b : bool) then advance test n (p + 1) else Ret p
  end.

Section Step.
Context (rec : state -> Z -> bool -> outcome).

(** The general case of [count]: the sub-pattern is matched until it fails. *)
Fixpoint countLoop (n : nat) (s : state) (patIdx last : Z) : outcome :=
  match n with
  | O => NoFuel
  | S n =>
      if ptr s <? last then
        p <- rec s patIdx false ;;
        if p.2 =? 0 then Ret (p.1, 1) else if p.2 <? 0 then Ret p else countLoop n p.1 patIdx last
      else Ret (s, 1)
  end.

Definition count_ (n : nat) (s : state) (patIdx maxcount : Z) : res (state * Z) :=
  let p := ptr s in
  let last := if negb (maxcount =? MaxRepeat) && (maxcount <? end_ s - p) then p + maxcount else end_ s in
  let run test := q <- advance test (Z.to_nat (last - p)) p ;; Ret (s, q - p) in
  op <- at_ code patIdx ;;
  match opOf op with
  | Some OpIn => run (charset (patIdx + 2))
  | Some OpAny => run (fun ch => Ret (negb (sreIsLinebreak ch)))
  | Some OpAnyAll => Ret (s, last - p)
  | Some op =>
      if isLiteral op then
        chr <- at_ code (patIdx + 1) ;;
        run (fun ch => match literalTest op (int32 chr) ch with Some b => Ret b | None => Ret false end)
      else
        r <- countLoop n s patIdx last ;;
        if r.2 <? 0 then Ret r else Ret (setPtr r.1 p, ptr r.1 - p)
  | None =>
      r <- countLoop n s patIdx last ;;
      if r.2 <? 0 then Ret r else Ret (setPtr r.1 p, ptr r.1 - p)
  end.

(** No character at [p] passes the test. *)
Definition noChar (s : state) (p : Z) (test : Z -> res bool) : res bool :=
  if end_ s <=? p then Ret true else ch <- at_ input p ;; rneg (test ch).

(** *** BRANCH *)

(** The first opcode of an alternative cannot match. *)
Definition skipsBranch (s : state) (codeIdx p : Z) : res bool :=
  op <- at_ code (codeIdx + 1) ;;
  if op =? word OpLiteral then noChar s p (fun ch => c <- at_ code (codeIdx + 2) ;; Ret (ch =? int32 c))
  else if op =? word OpIn then noChar s p (charset (codeIdx + 3))
  else Ret false.

Fixpoint branchLoop (n : nat) (v : saved) (s : state) (codeIdx p : Z) (toplevel : bool) : outcome :=
  match n with
  | O => NoFuel
  | S n =>
      skip <- at_ code codeIdx ;;
      if skip =? 0 then failed s
      else
        b <- skipsBranch s codeIdx p ;;
        if (b : bool) then branchLoop n v s (codeIdx + skip) p toplevel
        else orElse (rec (setPtr s p) (codeIdx + 1) toplevel) (fun s =>
               branchLoop n v (restore (inRepeat s) v s) (codeIdx + skip) p toplevel)
  end.

(** *** REPEAT_ONE and MIN_REPEAT_ONE *)

(** The tail is tried with fewer and fewer characters; when it starts with a
    literal only in front of that literal. *)
Fixpoint backOff (n : nat) (v : saved) (lit : option Z) (s : state) (tailIdx p cnt minCount : Z) (toplevel : bool) : outcome :=
  match n with
  | O => NoFuel
  | S n =>
      if cnt <? minCount then failed s
      else
        b <- (match lit with Some c => noChar s p (fun ch => Ret (ch =? c)) | None => Ret false end) ;;
        if (b : bool) then backOff n v lit s tailIdx (p - 1) (cnt - 1) minCount toplevel
        else orElse (rec (setPtr s p) tailIdx toplevel) (fun s =>
               backOff n v lit (restore (inRepeat s) v s) tailIdx (p - 1) (cnt - 1) minCount toplevel)
  end.

Definition repeatOne (n : nat) (s : state) (pat p : Z) (toplevel : bool) : outcome :=
  minCount <- at_ code (pat + 1) ;;
  maxCount <- at_ code (pat + 2) ;;
  if end_ s - p <? minCount then failed s
  else
    r <- count_ n (setPtr s p) (pat + 3) maxCount ;;
    let s := r.1 in
    let cnt := r.2 in
    if cnt <? 0 then Ret (s, cnt)
    else
      let p := p + cnt in
      if cnt <? minCount then failed s
      else
        skip <- at_ code pat ;;
        let tailIdx := pat + skip in
        op <- at_ code tailIdx ;;
        if (op =? word OpSuccess) && (p =? end_ s) && negb (rejectSuccess s toplevel p) then matched (setPtr s p)
        else
          lit <- (if op =? word OpLiteral then c <- at_ code (tailIdx + 1) ;; Ret (Some (int32 c)) else Ret None) ;;
          backOff n (save (inRepeat s) s) lit s tailIdx p cnt minCount toplevel.

Fixpoint growOne (n : nat) (v : saved) (s : state) (pat tailIdx p cnt maxCount : Z) (toplevel : bool) : outcome :=
  match n with
  | O => NoFuel
  | S n' =>
      if (maxCount =? MaxRepeat) || (cnt <=? maxCount) then
        orElse (rec (setPtr s p) tailIdx toplevel) (fun s =>
          r <- count_ n (setPtr (restore (inRepeat s) v s) p) (pat + 3) 1 ;;
          if r.2 <? 0 then Ret r
          else if r.2 =? 0 then failed r.1
          else growOne n' v r.1 pat tailIdx (p + 1) (cnt + 1) maxCount toplevel)
      else failed s
  end.

Definition minRepeatOne (n : nat) (s : state) (pat p : Z) (toplevel : bool) : outcome :=
  minCount <- at_ code (pat + 1) ;;
  maxCount <- at_ code (pat + 2) ;;
  if end_ s - p <? minCount then failed s
  else
    r <- (if minCount =? 0 then Ret (setPtr s p, 0) else count_ n (setPtr s p) (pat + 3) minCount) ;;
    let s := r.1 in
    let cnt := r.2 in
    if cnt <? 0 then Ret (s, cnt)
    else if cnt <? minCount then failed s
    else
      let p := p + cnt in
      skip <- at_ code pat ;;
      let tailIdx := pat + skip in
      op <- at_ code tailIdx ;;
      if (op =? word OpSuccess) && negb (rejectSuccess s toplevel p) then matched (setPtr s p)
      else growOne n (save (inRepeat s) s) s pat tailIdx p cnt maxCount toplevel.

(** *** REPEAT with MAX_UNTIL and MIN_UNTIL *)

Definition repeatOp (s : state) (pat p : Z) (toplevel : bool) : outcome :=
  skip <- at_ code pat ;;
  let a := length (nodes s) in
  let s1 := setPtr (setRepeat (setNodes s (nodes s ++ [mkRep (-1) pat 0 false (repeat s)])) (Some a)) p in
  r <- rec s1 (pat + skip) toplevel ;;
  rep <- at_ (nodes r.1) (Z.of_nat a) ;;
  Ret (setRepeat r.1 (prev rep), r.2).

(** Change the node at the head of the stack. *)
Definition onNode (s : state) (a : nat) (f : repeatStack -> repeatStack) : res state :=
  rep <- at_ (nodes s) (Z.of_nat a) ;; Ret (setRep s a (f rep)).

(** The body once more, [rep.count] and [rep.lastPtr] being put back. *)
Definition bodyAgain (s : state) (a : nat) (rep : repeatStack) (cnt p : Z) (toplevel : bool) : outcome :=
  let savedLastPtr := lastPtr rep in
  let savedHas := hasLastPtr rep in
  r <- rec (setRep s a (setLast (setCount rep cnt) p true)) (patternIdx rep + 3) toplevel ;;
  s <- onNode r.1 a (fun rep => setLast rep savedLastPtr savedHas) ;;
  Ret (s, r.2).

(** The mandatory turns. *)
Definition bodyFirst (s : state) (a : nat) (rep : repeatStack) (cnt p : Z) (toplevel : bool) : outcome :=
  orElse (rec (setRep s a (setCount rep cnt)) (patternIdx rep + 3) toplevel) (fun s =>
    s <- onNode s a (fun rep => setCount rep (cnt - 1)) ;; failed (setPtr s p)).

Definition maxUntil (s : state) (codeIdx p : Z) (toplevel : bool) : outcome :=
  match repeat s with
  | None => Ret (s, errState)
  | Some a =>
      rep <- at_ (nodes s) (Z.of_nat a) ;;
      let s := setPtr s p in
      let cnt := count rep + 1 in
      lo <- at_ code (patternIdx rep + 1) ;;
      if cnt <? lo then bodyFirst s a rep cnt p toplevel
      else
        hi <- at_ code (patternIdx rep + 2) ;;
        let tail s :=
          rep <- at_ (nodes s) (Z.of_nat a) ;;
          let savedRepeat := repeat s in
          r <- rec (setRepeat s (prev rep)) codeIdx toplevel ;;
          let s := setRepeat r.1 savedRepeat in
          if r.2 =? 0 then failed (setPtr s p) else Ret (s, r.2) in
        if ((cnt <? hi) || (hi =? MaxRepeat)) && (negb (hasLastPtr rep) || negb (p =? lastPtr rep)) then
          let v := save true s in
          orElse (bodyAgain s a rep cnt p toplevel) (fun s =>
            s <- onNode (restore true v s) a (fun rep => setCount rep (cnt - 1)) ;; tail (setPtr s p))
        else tail s
  end.

Definition minUntil (s : state) (codeIdx p : Z) (toplevel : bool) : outcome :=
  match repeat s with
  | None => Ret (s, errState)
  | Some a =>
      rep <- at_ (nodes s) (Z.of_nat a) ;;
      let s := setPtr s p in
      let cnt := count rep + 1 in
      lo <- at_ code (patternIdx rep + 1) ;;
      if cnt <? lo then bodyFirst s a rep cnt p toplevel
      else
        let savedRepeat := repeat s in
        let s := setRepeat s (prev rep) in
        let v := save (inRepeat s) s in
        r <- rec s codeIdx toplevel ;;
        let repeatOfTail := repeat r.1 in
        let s := setRepeat r.1 savedRepeat in
        if r.2 =? 0 then
          let s := setPtr (restore (match repeatOfTail with Some _ => true | None => false end) v s) p in
          rep <- at_ (nodes s) (Z.of_nat a) ;;
          hi <- at_ code (patternIdx rep + 2) ;;
          if ((hi <=? cnt) && negb (hi =? MaxRepeat)) || (hasLastPtr rep && (p =? lastPtr rep)) then failed s
          else orElse (bodyAgain s a rep cnt p toplevel) (fun s =>
                 s <- onNode s a (fun rep => setCount rep (cnt - 1)) ;; failed (setPtr s p))
        else Ret (s, r.2)
  end.

(** *** POSSESSIVE_REPEAT *)

Fixpoint possessFirst (n : nat) (s : state) (pat p cnt lo : Z) : outcome :=
  match n with
  | O => NoFuel
  | S n =>
      if cnt <? lo then
        r <- rec s (pat + 3) false ;;
        if 0 <? r.2 then possessFirst n r.1 pat p (cnt + 1) lo else Ret (setPtr r.1 p, r.2)
      else matched s
  end.

(** The optional turns; the result is 1, or an error. *)
Fixpoint possessMore (n : nat) (s : state) (pat cnt hi last : Z) : outcome :=
  match n with
  | O => NoFuel
  | S n =>
      if ((cnt <? hi) || (hi =? MaxRepeat)) && negb (ptr s =? last) then
        let v := save true s in
        let last := ptr s in
        r <- rec s (pat + 3) false ;;
        if 0 <? r.2 then possessMore n r.1 pat (cnt + 1) hi last
        else
          let s := setPtr (restore true v r.1) last in
          if r.2 <? 0 then Ret (s, r.2) else matched s
      else matched s
  end.

Definition possess (n : nat) (s : state) (pat p : Z) : outcome :=
  lo <- at_ code (pat + 1) ;;
  let a := length (nodes s) in
  let old := repeat s in
  let s := setPtr (setRepeat (setNodes s (nodes s ++ [mkRep (-1) (-1) 0 false old])) (Some a)) p in
  r <- andThen (possessFirst n s pat p 0 lo) (fun s =>
         hi <- at_ code (pat + 2) ;; possessMore n s pat (Z.max 0 lo) hi (-1)) ;;
  Ret (setRepeat r.1 old, r.2).

(** *** Groups *)

(** MARK. *)
Definition setMark (s : state) (i p : Z) : res state :=
  let c := caps s in
  let li := if Z.odd i then Z.shiftr i 1 + 1 else lastindex c in
  let fill :=
    if lastmark c <? i
    then imap (fun j m => if (lastmark c <? Z.of_nat j) && (Z.of_nat j <? i) then markUnset else m) (mark c)
    else mark c in
  let lm := if lastmark c <? i then i else lastmark c in
  _ <- at_ fill i ;;
  Ret (setCaps s (mkCaptures (<[Z.to_nat i := p]> fill) lm li)).

(** The span of a group that has matched. *)
Definition groupSpan (s : state) (gid : Z) : res (option (Z * Z)) :=
  let groupref := gid * 2 in
  if lastmark (caps s) <=? groupref then Ret None
  else
    p <- at_ (mark (caps s)) groupref ;;
    e <- at_ (mark (caps s)) (groupref + 1) ;;
    Ret (if (p =? markUnset) || (e =? markUnset) || (e <? p) then None else Some (p, e)).

(** The text of a group again, [n] characters from [q]. *)
Fixpoint sameText (s : state) (fold : Z -> Z) (n : nat) (q p : Z) : res (option Z) :=
  match n with
  | O => Ret (Some p)
  | S n =>
      if end_ s <=? p then Ret None
      else a <- at_ input p ;; b <- at_ input q ;;
           if fold a =? fold b then sameText s fold n (q + 1) (p + 1) else Ret None
  end.

Definition foldOf (op : opcode) : option (Z -> Z) :=
  match op with
  | OpGroupref => Some (fun ch => ch)
  | OpGrouprefIgnore => Some sreLowerAscii
  | OpGrouprefUniIgnore => Some sreLowerUnicode
  | OpGrouprefLocIgnore => Some sreLowerLocale
  | _ => None
  end.

(** *** The dispatcher *)

Fixpoint loop (n : nat) (s : state) (codeIdx p : Z) (toplevel : bool) : outcome :=
  match n with
  | O => NoFuel
  | S n' =>
      w <- at_ code codeIdx ;;
      let codeIdx := codeIdx + 1 in
      match opOf w with
      | None => Ret (s, errIllegal)
      | Some op =>
          if oneChar op then
            b <- noChar s p (charTest op codeIdx) ;;
            if (b : bool) then failed s
            else k <- operand op codeIdx ;; loop n' s (codeIdx + k) (p + 1) toplevel
          else
          match op with
          | OpMark => i <- at_ code codeIdx ;; s <- setMark s i p ;; loop n' s (codeIdx + 1) p toplevel
          | OpSuccess => if rejectSuccess s toplevel p then failed s else matched (setPtr s p)
          | OpAt =>
              c <- at_ code codeIdx ;; b <- at_position s p c ;;
              if (b : bool) then loop n' s (codeIdx + 1) p toplevel else failed s
          | OpJump | OpInfo => k <- at_ code codeIdx ;; loop n' s (codeIdx + k) p toplevel
          | OpBranch => branchLoop n' (save (inRepeat s) s) s codeIdx p toplevel
          | OpRepeatOne => repeatOne n' s codeIdx p toplevel
          | OpMinRepeatOne => minRepeatOne n' s codeIdx p toplevel
          | OpPossessiveRepeatOne =>
              minCount <- at_ code (codeIdx + 1) ;;
              maxCount <- at_ code (codeIdx + 2) ;;
              if end_ s <? p + minCount then failed s
              else
                r <- count_ n' (setPtr s p) (codeIdx + 3) maxCount ;;
                if r.2 <? 0 then Ret r
                else if r.2 <? minCount then failed r.1
                else
                  let s := r.1 in
                  let p := p + r.2 in
                  skip <- at_ code codeIdx ;;
                  op <- at_ code (codeIdx + skip) ;;
                  if (op =? word OpSuccess) && (p =? end_ s) && negb (rejectSuccess s toplevel p)
                  then matched (setPtr s p)
                  else loop n' s (codeIdx + skip) p toplevel
          | OpRepeat => repeatOp s codeIdx p toplevel
          | OpMaxUntil => maxUntil s codeIdx p toplevel
          | OpMinUntil => minUntil s codeIdx p toplevel
          | OpPossessiveRepeat =>
              andThen (possess n' s codeIdx p) (fun s =>
                skip <- at_ code codeIdx ;; loop n' s (codeIdx + skip + 1) (ptr s) toplevel)
          | OpAtomicGroup =>
              r <- rec (setPtr s p) (codeIdx + 1) false ;;
              if 0 <? r.2 then skip <- at_ code codeIdx ;; loop n' r.1 (codeIdx + skip) (ptr r.1) toplevel
              else if r.2 <? 0 then Ret r else failed (setPtr r.1 p)
          | OpGroupref | OpGrouprefIgnore | OpGrouprefUniIgnore | OpGrouprefLocIgnore =>
              gid <- at_ code codeIdx ;;
              span <- groupSpan s gid ;;
              match span, foldOf op with
              | Some (q, e), Some fold =>
                  r <- sameText s fold (Z.to_nat (e - q)) q p ;;
                  match r with Some p => loop n' s (codeIdx + 1) p toplevel | None => failed s end
              | _, _ => failed s
              end
          | OpGrouprefExists =>
              gid <- at_ code codeIdx ;;
              span <- groupSpan s gid ;;
              match span with
              | Some _ => loop n' s (codeIdx + 2) p toplevel
              | None => k <- at_ code (codeIdx + 1) ;; loop n' s (codeIdx + k) p toplevel
              end
          | OpAssert =>
              back <- at_ code (codeIdx + 1) ;;
              if p <? back then failed s
              else andThen (rec (setPtr s (p - back)) (codeIdx + 2) false) (fun s =>
                     skip <- at_ code codeIdx ;; loop n' s (codeIdx + skip) p toplevel)
          | OpAssertNot =>
              back <- at_ code (codeIdx + 1) ;;
              skip <- at_ code codeIdx ;;
              if p <? back then loop n' s (codeIdx + skip) p toplevel
              else
                let v := save (inRepeat s) s in
                r <- rec (setPtr s (p - back)) (codeIdx + 2) false ;;
                if 0 <? r.2 then failed r.1
                else if r.2 <? 0 then Ret r
                else loop n' (restore (inRepeat r.1) v r.1) (codeIdx + skip) p toplevel
          | OpFailure => failed s
          | _ => Ret (s, errIllegal)
          end
      end
  end.
End Step.

(** The test of the smallest length at the head of a program. *)
Definition enter (s : state) (codeIdx : Z) (k : Z -> outcome) : outcome :=
  if Z.of_nat (length code) <=? codeIdx then Ret (s, errIllegal)
  else
    op <- at_ code codeIdx ;;
    if op =? word OpInfo then
      w <- at_ code (codeIdx + 3) ;;
      if negb (w =? 0) && ((end_ s - ptr s) mod 2 ^ 32 <? w) then failed s
      else skip <- at_ code (codeIdx + 1) ;; k (codeIdx + skip + 1)
    else k codeIdx.

Fixpoint match_ (fuel : nat) (s : state) (codeIdx : Z) (toplevel : bool) : outcome :=
  match fuel with
  | O => NoFuel
  | S fuel => enter s codeIdx (fun i => loop (match_ fuel) fuel s i (ptr s) toplevel)
  end.

(** ** Searching *)

(** [for s.input[ptr] != c { ptr++; if ptr >= end { return 0, nil } }] *)
Fixpoint findChar (n : nat) (s : state) (c p : Z) : res (option Z) :=
  match n with
  | O => NoFuel
  | S n =>
      ch <- at_ input p ;;
      if ch =? c then Ret (Some p) else if end_ s <=? p + 1 then Ret None else findChar n s c (p + 1)
  end.

(** A prefix of one character. *)
Fixpoint searchLiteral (fuel n : nat) (s : state) (c patternIdx prefixSkip flags p : Z) : outcome :=
  match n with
  | O => NoFuel
  | S n =>
      if p <? end_ s then
        f <- findChar fuel s c p ;;
        match f with
        | None => failed s
        | Some p =>
            let s := startAt s p (p + prefixSkip) in
            if negb (Z.land flags SreInfoLiteral =? 0) then matched s
            else orElse (match_ fuel s (patternIdx + 2 * prefixSkip) false) (fun s =>
                   searchLiteral fuel n (resetCaptureGroup s) c patternIdx prefixSkip flags (p + 1))
        end
      else failed s
  end.

(** A longer prefix, with its overlap table: [i] characters of it match in
    front of [p], where the next is compared; with none the first is looked
    for. *)
Fixpoint searchPrefix (fuel n : nat) (s : state) (prefix prefixLen prefixSkip patternIdx flags p i : Z) : outcome :=
  match n with
  | O => NoFuel
  | S n =>
      let again s p i := searchPrefix fuel n s prefix prefixLen prefixSkip patternIdx flags p i in
      let fallBack s p i := j <- at_ code (prefix + prefixLen - 1 + i) ;; again s p j in
      if i =? 0 then
        if p <? end_ s then
          c <- at_ code prefix ;;
          f <- findChar fuel s (int32 c) p ;;
          match f with
          | None => failed s
          | Some p => if end_ s <=? p + 1 then failed s else again (mayStay s) (p + 1) 1
          end
        else failed s
      else
        ch <- at_ input p ;;
        c <- at_ code (prefix + i) ;;
        if ch =? int32 c then
          if negb (i + 1 =? prefixLen) then if end_ s <=? p + 1 then failed s else again s (p + 1) (i + 1)
          else
            let s := startAt s (p - (prefixLen - 1)) (p - (prefixLen - prefixSkip - 1)) in
            if negb (Z.land flags SreInfoLiteral =? 0) then matched s
            else orElse (match_ fuel s (patternIdx + 2 * prefixSkip) false) (fun s =>
                   if end_ s <=? p + 1 then failed s else fallBack (resetCaptureGroup s) (p + 1) (i + 1))
        else fallBack s p i
  end.

(** The characters a match can start with. *)
Fixpoint searchCharset (fuel n : nat) (s : state) (charsetIdx patternIdx p : Z) : outcome :=
  match n with
  | O => NoFuel
  | S n =>
      p <- advance (fun ch => rneg (charset charsetIdx ch)) (Z.to_nat (end_ s - p)) p ;;
      if end_ s <=? p then failed s
      else orElse (match_ fuel (startAt s p p) patternIdx false) (fun s =>
             searchCharset fuel n (resetCaptureGroup s) charsetIdx patternIdx (p + 1))
  end.

Fixpoint searchOn (fuel n : nat) (s : state) (patternIdx p last : Z) : outcome :=
  match n with
  | O => NoFuel
  | S n =>
      if p <? last then
        let p := p + 1 in
        orElse (match_ fuel (startAt (resetCaptureGroup s) p p) patternIdx false) (fun s =>
          searchOn fuel n s patternIdx p last)
      else failed s
  end.

(** Every start position in turn; the first one at top level. *)
Definition searchAll (fuel : nat) (s : state) (patternIdx p last : Z) : outcome :=
  r <- match_ fuel (startAt s p p) patternIdx true ;;
  let s := mayStay r.1 in
  if r.2 =? 0 then
    op <- at_ code patternIdx ;;
    anchored <- (if op =? word OpAt
                 then w <- at_ code (patternIdx + 1) ;;
                      Ret (match atOf w with Some (AtBeginning | AtBeginningString) => true | _ => false end)
                 else Ret false) ;;
    if (anchored : bool) then failed (startAt s last last) else searchOn fuel fuel s patternIdx p last
  else Ret (s, r.2).

Definition search (fuel : nat) (s : state) (codeIdx : Z) : outcome :=
  let p := start s in
  if end_ s <? p then failed s
  else if Z.of_nat (length code) <=? codeIdx then Ret (s, errIllegal)
  else
    op <- at_ code codeIdx ;;
    if op =? word OpInfo then
      flags <- at_ code (codeIdx + 2) ;;
      w <- at_ code (codeIdx + 3) ;;
      skip <- at_ code (codeIdx + 1) ;;
      if negb (w =? 0) && ((end_ s - p) mod 2 ^ 32 <? w) then failed s
      else
        let patternIdx := codeIdx + (1 + skip) in
        let last := if 1 <? w then Z.max p (end_ s - (w - 1)) else end_ s in
        if negb (Z.land flags SreInfoPrefix =? 0) then
          prefixLen <- at_ code (codeIdx + 5) ;;
          prefixSkip <- at_ code (codeIdx + 6) ;;
          let prefix := codeIdx + 7 in
          if prefixLen =? 1 then
            c <- at_ code prefix ;;
            searchLiteral fuel fuel (mayStay s) (int32 c) patternIdx prefixSkip flags p
          else if 1 <? prefixLen then
            if end_ s - p <? prefixLen then failed s
            else searchPrefix fuel fuel s prefix prefixLen prefixSkip patternIdx flags p 0
          else searchAll fuel s patternIdx p last
        else if negb (Z.land flags SreInfoCharset =? 0) then
          searchCharset fuel fuel (mayStay s) (codeIdx + 5) patternIdx p
        else searchAll fuel s patternIdx p last
    else searchAll fuel s codeIdx p (end_ s).

(** ** Entry points *)

Record Result := mkResult { Matched : bool; Locs : list Z; LastIndex : Z }.

Definition locsFrom (s : state) (groups : nat) : list Z :=
  start s :: ptr s :: take (2 * groups) (mark (caps s)).

Definition resultOf (groups : nat) (m : outcome) : res Result :=
  r <- m ;;
  Ret (if 0 <? r.2 then mkResult true (locsFrom r.1 groups) (lastindex (caps r.1)) else mkResult false [] 0).

Definition Match (fuel groups : nat) (pos endpos : Z) (matchAll_ mustAdvance_ : bool) : res Result :=
  let s := newState groups pos endpos in
  resultOf groups (match_ fuel
    (mkState (start s) (end_ s) (ptr s) (caps s) (repeat s) (nodes s) matchAll_ mustAdvance_) 0 true).

Definition Search (fuel groups : nat) (pos endpos : Z) (mustAdvance_ : bool) : res Result :=
  let s := newState groups pos endpos in
  resultOf groups (search fuel
    (mkState (start s) (end_ s) (ptr s) (caps s) (repeat s) (nodes s) (matchAll s) mustAdvance_) 0).
End Engine.
