(* ===== verification/SreSem.v ===== *)
(** * SreSem: what a pattern matches

    The patterns that bytecode stands for, the layout of their bytecode (the one
    the comments of src/pkg/sre/engine.go give, which Python's re._compiler
    writes), and their meaning: a function that tries the alternatives in
    Python's order and goes on with a continuation.  Character sets come first,
    with the proof that [charset] decides membership. *)

From S2P Require Import Prelude Sre.
Local Open Scope Z_scope.
Local Open Scope sre_scope.

(** ** Bytecode in place *)

Definition codeAt (code : list Z) (i : Z) (ws : list Z) : Prop :=
  exists pre post, code = pre ++ ws ++ post /\ i = Z.of_nat (length pre).

Lemma codeAt_app code i a b : codeAt code i (a ++ b) -> codeAt code i a /\ codeAt code (i + Z.of_nat (length a)) b.
Proof.
  intros (pre & post & -> & ->). split; [by exists pre, (b ++ post); rewrite <- app_assoc|].
  exists (pre ++ a), post. rewrite !length_app. split; [by rewrite <- !app_assoc|lia].
Qed.

Lemma codeAt_cons code i w ws : codeAt code i (w :: ws) -> at_ code i = Ret w /\ codeAt code (i + 1) ws.
Proof.
  intros H. split; [|by apply (codeAt_app code i [w] ws)]. destruct H as (pre & post & -> & ->). unfold at_.
  rewrite (proj2 (Z.ltb_ge _ 0)), Nat2Z.id by lia. cbn [app]. by rewrite list_lookup_middle.
Qed.

Lemma codeAt_lookup code i ws k w : codeAt code i ws -> ws !! k = Some w -> at_ code (i + Z.of_nat k) = Ret w.
Proof.
  intros H Hk. rewrite <- (take_drop_middle ws k w Hk) in H. apply codeAt_app in H as [_ H].
  rewrite length_take_le in H by (apply lookup_lt_Some in Hk; lia). by apply codeAt_cons in H as [H _].
Qed.

Lemma codeAt_bounds code i ws : codeAt code i ws -> 0 <= i /\ i + Z.of_nat (length ws) <= Z.of_nat (length code).
Proof. intros (pre & post & -> & ->). rewrite !length_app. lia. Qed.

(** ** Character sets *)

Inductive item :=
  | ILiteral (c : Z)
  | IRange (lo hi : Z)
  | IRangeUni (lo hi : Z)
  | ICategory (w : Z)
  | ICharset (bits : list Z)
  | IBigcharset (blockOf : list Z) (blocks : list (list Z)).

(** Four block numbers to a word. *)
Fixpoint packed (l : list Z) : list Z :=
  match l with
  | a :: b :: c :: d :: l => (a + b * 2 ^ 8 + c * 2 ^ 16 + d * 2 ^ 24) :: packed l
  | _ => []
  end.

Definition encodeItem (it : item) : list Z :=
  match it with
  | ILiteral c => [word OpLiteral; c]
  | IRange lo hi => [word OpRange; lo; hi]
  | IRangeUni lo hi => [word OpRangeUniIgnore; lo; hi]
  | ICategory w => [word OpCategory; w]
  | ICharset bits => word OpCharset :: bits
  | IBigcharset blockOf blocks => word OpBigcharset :: Z.of_nat (length blocks) :: packed blockOf ++ concat blocks
  end.

Definition encodeSet (negated : bool) (items : list item) : list Z :=
  (if negated then [word OpNegate] else []) ++ concat (map encodeItem items) ++ [word OpFailure].

Definition bitOf (bits : list Z) (ch : Z) : bool :=
  match bits !! Z.to_nat (Z.shiftr ch 5) with Some w => Z.testbit w (Z.land ch 31) | None => false end.

Section Test.
Context (U : unicode).

Definition itemTest (it : item) (ch : Z) : bool :=
  match it with
  | ILiteral c => ch =? c
  | IRange lo hi => between lo ch hi
  | IRangeUni lo hi => between lo ch hi || between lo (ToUpper U ch) hi
  | ICategory w => sreCategory U w ch
  | ICharset bits => (ch <? 256) && bitOf bits ch
  | IBigcharset blockOf blocks =>
      (ch <? 65536) &&
      match blockOf !! Z.to_nat (Z.shiftr ch 8) with
      | Some b => match blocks !! Z.to_nat b with Some bits => bitOf bits (Z.land ch 255) | None => false end
      | None => false
      end
  end.

Definition setTest (negated : bool) (items : list item) (ch : Z) : bool :=
  xorb negated (existsb (fun it => itemTest it ch) items).
End Test.

Definition codePoint (c : Z) : bool := (0 <=? c) && (c <? 2 ^ 31).

(** A set as the compiler writes it: a bitmap is eight words, a block index has
    256 entries, all of blocks that are there and below 128. *)
Definition wfItem (it : item) : bool :=
  match it with
  | ILiteral c => codePoint c
  | IRange lo hi | IRangeUni lo hi => codePoint lo && codePoint hi
  | ICategory _ => true
  | ICharset bits => Nat.eqb (length bits) 8
  | IBigcharset blockOf blocks =>
      Nat.eqb (length blockOf) 256 && forallb (fun b => (0 <=? b) && (b <? 128) && (b <? Z.of_nat (length blocks))) blockOf &&
      forallb (fun bits => Nat.eqb (length bits) 8) blocks
  end.

(** Go's lower case of a code point is one. *)
Record wfUnicode (U : unicode) : Prop := {
  lower_point : forall c, codePoint c = true -> codePoint (ToLower U c) = true
}.

Lemma codePoint_spec c : codePoint c = true <-> 0 <= c < 2 ^ 31.
Proof. unfold codePoint. rewrite andb_true_iff, Z.leb_le, Z.ltb_lt. done. Qed.

Lemma int32_point c : codePoint c = true -> int32 c = c.
Proof. intros H%codePoint_spec. unfold int32. by rewrite (proj2 (Z.ltb_lt _ _)) by lia. Qed.

Lemma shiftr_small ch k n : 0 <= ch < n * 2 ^ k -> 0 <= k -> 0 <= Z.shiftr ch k < n.
Proof.
  intros H Hk. rewrite Z.shiftr_div_pow2 by done. assert (0 < 2 ^ k) by lia. split; [apply Z.div_pos; lia|].
  apply Z.div_lt_upper_bound; lia.
Qed.

Lemma peel x0 x1 x2 x3 : 0 <= x0 < 256 -> 0 <= x1 < 256 -> 0 <= x2 < 256 -> 0 <= x3 < 256 ->
  let w := x0 + x1 * 256 + x2 * 65536 + x3 * 16777216 in
  w / 1 mod 256 = x0 /\ w / 256 mod 256 = x1 /\ w / 65536 mod 256 = x2 /\ w / 16777216 mod 256 = x3.
Proof.
  intros H0 H1 H2 H3. cbn zeta. rewrite Z.div_1_r.
  assert (forall a y, 0 <= a < 256 -> (a + y * 256) / 256 = y) as Hd by (intros; rewrite Z.div_add, Z.div_small; lia).
  assert (forall a y, 0 <= a < 256 -> (a + y * 256) mod 256 = a) as Hm by (intros; rewrite Z.mod_add, Z.mod_small; lia).
  replace (x0 + x1 * 256 + x2 * 65536 + x3 * 16777216) with (x0 + (x1 + (x2 + (x3 + 0 * 256) * 256) * 256) * 256) by ring.
  replace 16777216 with (256 * 256 * 256) by done. replace 65536 with (256 * 256) by done.
  rewrite <- !Z.div_div by lia. rewrite !Hd, !Hm by done. done.
Qed.

Lemma packed_lookup q : forall l, length l = (q * 4)%nat -> Forall (fun b => 0 <= b < 256) l -> forall k b, l !! k = Some b ->
  exists w, packed l !! (k / 4)%nat = Some w /\ Z.land (Z.shiftr w (Z.of_nat (k mod 4) * 8)) 255 = b.
Proof.
  induction q as [|q IH]; intros l Hq Hf k b Hk; [by destruct l|].
  destruct l as [|x0 [|x1 [|x2 [|x3 l]]]]; try (simpl in Hq; lia).
  rewrite !Forall_cons in Hf. destruct Hf as (H0 & H1 & H2 & H3 & Hf).
  assert (forall j : nat, (j < 4)%nat -> forall y, [x0; x1; x2; x3] !! j = Some y ->
    Z.land (Z.shiftr (x0 + x1 * 2 ^ 8 + x2 * 2 ^ 16 + x3 * 2 ^ 24) (Z.of_nat j * 8)) 255 = y) as Hw.
  { intros j Hj y Hy. replace 255 with (Z.ones 8) by done. rewrite Z.land_ones, Z.shiftr_div_pow2 by lia.
    destruct (peel x0 x1 x2 x3 H0 H1 H2 H3) as (E0 & E1 & E2 & E3).
    destruct j as [|[|[|[|j]]]]; simplify_eq/=; done. }
  destruct (decide (k < 4)%nat) as [Hlt|Hge].
  - rewrite Nat.div_small, Nat.mod_small by done. eexists. split; [done|]. apply Hw; [done|].
    destruct k as [|[|[|[|k]]]]; [done..|lia].
  - replace k with (4 + (k - 4))%nat in Hk by lia. simpl in Hk, Hq.
    destruct (IH l ltac:(lia) Hf (k - 4)%nat b Hk) as (w & Hw1 & Hw2). exists w.
    replace k with (k - 4 + 1 * 4)%nat by lia. rewrite Nat.div_add, Nat.Div0.mod_add, Nat.add_1_r by lia. done.
Qed.

Section Charset.
Context (U : unicode) (HU : wfUnicode U) (code : list Z).

Lemma opOf_word op : opOf (word op) = Some op.
Proof. by destruct op. Qed.

Lemma bitAt_spec i bits ch : codeAt code i bits -> length bits = 8%nat -> 0 <= ch < 256 -> bitAt code i ch = Ret (bitOf bits ch).
Proof.
  intros H Hl Hc. unfold bitAt, bitOf. destruct (shiftr_small ch 5 8) as [H0 H1]; [lia|lia|].
  destruct (lookup_lt_is_Some_2 bits (Z.to_nat (Z.shiftr ch 5))) as [w Hw]; [lia|].
  pose proof (codeAt_lookup code i bits _ w H Hw) as E. rewrite Z2Nat.id in E by done. by rewrite E, Hw.
Qed.

Lemma inRange_spec i lo hi ch : codeAt code i [lo; hi] -> codePoint lo = true -> codePoint hi = true ->
  inRange code i ch = Ret (between lo ch hi).
Proof.
  intros [E1 [E2 _]%codeAt_cons]%codeAt_cons Hl Hh. unfold inRange, between. rewrite E1. simpl. rewrite int32_point by done.
  destruct (lo <=? ch); [|done]. rewrite E2. simpl. by rewrite int32_point.
Qed.

Lemma int8_small b : 0 <= b < 128 -> Z.land b 255 = b.
Proof. intros H. replace 255 with (Z.ones 8) by done. rewrite Z.land_ones by done. apply Z.mod_small. lia. Qed.

(** The blocks of a block index follow each other. *)
Lemma blocks_at (blocks : list (list Z)) : forall i b bits, codeAt code i (concat blocks) -> Forall (fun l => length l = 8%nat) blocks ->
  blocks !! b = Some bits -> codeAt code (i + Z.of_nat b * 8) bits.
Proof.
  induction blocks as [|l blocks IH]; intros i b bits H Hf Hb; [done|]. apply Forall_cons in Hf as [Hl Hf].
  apply codeAt_app in H as [H H']. rewrite Hl in H'. destruct b as [|b]; simplify_eq/=.
  - by rewrite Z.add_0_r.
  - replace (i + Z.of_nat (S b) * 8) with (i + Z.of_nat 8 + Z.of_nat b * 8) by lia. by apply (IH _ b).
Qed.

Lemma concat_length8 (blocks : list (list Z)) : Forall (fun l => length l = 8%nat) blocks ->
  Z.of_nat (length (concat blocks)) = Z.of_nat (length blocks) * 8.
Proof. induction 1 as [|l blocks Hl _ IH]; [done|]. simpl. rewrite length_app, Hl. lia. Qed.

Lemma packed_length q : forall l, length l = (q * 4)%nat -> length (packed l) = q.
Proof.
  induction q as [|q IH]; intros l Hq; [by destruct l|]. destruct l as [|x0 [|x1 [|x2 [|x3 l]]]]; try (simpl in Hq; lia).
  simpl in *. rewrite IH; lia.
Qed.

Lemma testb_prop {A} (P : A -> bool) (Q : A -> Prop) l : (forall x, P x = true -> Q x) -> forallb P l = true -> Forall Q l.
Proof. intros H Hl. apply Forall_forall. intros x Hx%list_elem_of_In. rewrite forallb_forall in Hl. auto. Qed.

(** The block of a code point, and its bit. *)
Lemma bigcharset_spec i blockOf blocks ch : codeAt code i (packed blockOf ++ concat blocks) ->
  wfItem (IBigcharset blockOf blocks) = true -> 0 <= ch < 65536 ->
  exists b bits, blockOf !! Z.to_nat (Z.shiftr ch 8) = Some b /\ 0 <= b < 128 /\ blocks !! Z.to_nat b = Some bits /\
    (w <- at_ code (i + Z.shiftr (Z.shiftr ch 8) 2) ;; Ret (int8 (Z.shiftr w (Z.land (Z.shiftr ch 8) 3 * 8)))) = Ret b /\
    bitAt code (i + 64 + b * 8) (Z.land ch 255) = Ret (bitOf bits (Z.land ch 255)).
Proof.
  intros H Hw Hc. simpl in Hw. rewrite !andb_true_iff in Hw. destruct Hw as [[Hl%Nat.eqb_eq Hb] Hbl].
  set (k := Z.shiftr ch 8). destruct (shiftr_small ch 8 256) as [H0 H1]; [lia|lia|]. fold k in H0, H1.
  destruct (lookup_lt_is_Some_2 blockOf (Z.to_nat k)) as [b Hbk]; [lia|]. exists b.
  assert (Forall (fun b => 0 <= b < 128 /\ b < Z.of_nat (length blocks)) blockOf) as Hf.
  { refine (testb_prop _ _ _ _ Hb). intros x Hx. cbn beta in Hx. bool_to_prop. lia. }
  assert (Forall (fun l : list Z => length l = 8%nat) blocks) as Hf8.
  { refine (testb_prop _ _ _ _ Hbl). intros x Hx. by apply Nat.eqb_eq. }
  assert (0 <= b < 128 /\ b < Z.of_nat (length blocks)) as [Hb1 Hb2] by by eapply (Forall_lookup_1 _ _ _ _ Hf).
  destruct (lookup_lt_is_Some_2 blocks (Z.to_nat b)) as [bits Hbits]; [lia|]. exists bits. split_and!; [done|lia|lia|done| |].
  - destruct (packed_lookup 64 blockOf ltac:(lia) ltac:(eapply Forall_impl; [exact Hf|intros x Hx; simpl in Hx; lia]) _ b Hbk) as (w & Hw1 & Hw2).
    apply codeAt_app in H as [H _]. pose proof (codeAt_lookup code i _ _ w H Hw1) as E.
    rewrite Nat2Z.inj_div, Z2Nat.id in E by done. rewrite Z.shiftr_div_pow2 by done. change (2 ^ 2) with (Z.of_nat 4). rewrite E. simpl.
    f_equal. rewrite Nat2Z.inj_mod, Z2Nat.id in Hw2 by done. replace (Z.land k 3) with (k mod Z.of_nat 4).
    + unfold int8. rewrite Hw2. by rewrite (proj2 (Z.ltb_lt b 128)) by lia.
    + replace 3 with (Z.ones 2) by done. by rewrite Z.land_ones.
  - apply codeAt_app in H as [_ H]. rewrite (packed_length 64) in H by done.
    apply (blocks_at blocks _ (Z.to_nat b) bits) in H; [|done|done]. rewrite Z2Nat.id in H by lia.
    apply bitAt_spec; [exact H|by eapply (Forall_lookup_1 _ _ _ _ Hf8)|].
    replace 255 with (Z.ones 8) by done. rewrite Z.land_ones by done. by apply Z.mod_pos_bound.
Qed.

(** One item of a set. *)
Lemma item_step n i it rest ch ok : codeAt code i (encodeItem it ++ rest) -> wfItem it = true -> codePoint ch = true ->
  charsetLoop U code (S n) i ch ok =
    if itemTest U it ch then Ret ok else charsetLoop U code n (i + Z.of_nat (length (encodeItem it))) ch ok.
Proof.
  intros H Hw Hc. pose proof (proj1 (codePoint_spec ch) Hc) as Hr.
  destruct it as [c|lo hi|lo hi|w|bits|blockOf blocks]; cbn [encodeItem app] in H;
    apply codeAt_cons in H as [E H]; cbn [charsetLoop]; rewrite E; cbn [rbind]; rewrite opOf_word; cbn zeta.
  - apply codeAt_cons in H as [-> _]. cbn [rbind itemTest]. simpl in Hw. rewrite int32_point by done.
    destruct (ch =? c); [done|]. f_equal. simpl. lia.
  - simpl in Hw. apply andb_true_iff in Hw as [Hl Hh]. change (lo :: hi :: rest) with ([lo; hi] ++ rest) in H. apply codeAt_app in H as [H _].
    rewrite (inRange_spec _ lo hi) by done. simpl. destruct (between lo ch hi); [done|]. f_equal. lia.
  - simpl in Hw. apply andb_true_iff in Hw as [Hl Hh]. change (lo :: hi :: rest) with ([lo; hi] ++ rest) in H. apply codeAt_app in H as [H _].
    rewrite !(inRange_spec _ lo hi) by done. simpl. destruct (between lo ch hi); [done|]. simpl.
    unfold sreUpperUnicode. destruct (between lo (ToUpper U ch) hi); [done|]. f_equal. lia.
  - apply codeAt_cons in H as [-> _]. simpl. destruct (sreCategory U w ch); [done|]. f_equal. lia.
  - apply Nat.eqb_eq in Hw. apply codeAt_app in H as [H _]. cbn [itemTest].
    assert ((if ch <? 256 then bitAt code (i + 1) ch else Ret false) = Ret ((ch <? 256) && bitOf bits ch)) as ->.
    { destruct (Z.ltb_spec ch 256); [|done]. apply bitAt_spec; [done|done|lia]. }
    cbn [rbind]. destruct (_ && _); [done|]. f_equal. cbn [encodeItem length]. lia.
  - apply codeAt_cons in H as [E1 H]. rewrite E1. cbn [rbind]. rewrite <- app_assoc in H || idtac.
    assert (codeAt code (i + 1 + 1) (packed blockOf ++ concat blocks)) as H'.
    { rewrite app_assoc in H. by apply codeAt_app in H as [H _]. }
    rewrite Z.mod_small by lia.
    assert (Z.of_nat (length (encodeItem (IBigcharset blockOf blocks))) = 2 + 64 + Z.of_nat (length blocks) * 8) as ->.
    { simpl in Hw. rewrite !andb_true_iff in Hw. destruct Hw as [[Hl%Nat.eqb_eq _] Hbl]. cbn [encodeItem length].
      rewrite length_app, (packed_length 64) by done. rewrite !Nat2Z.inj_succ, Nat2Z.inj_add, concat_length8; [lia|].
      refine (testb_prop _ _ _ _ Hbl). intros x Hx. by apply Nat.eqb_eq. }
    cbn [itemTest]. destruct (Z.ltb_spec ch 65536) as [Hlt|Hge].
    + destruct (bigcharset_spec _ _ _ _ H' Hw (conj (proj1 Hr) Hlt)) as (b & bits & Hb & Hb1 & Hbits & -> & Hbit).
      cbn [rbind]. rewrite (proj2 (Z.leb_le 0 b)) by lia. rewrite Hbit, Hb, Hbits. cbn [rbind andb].
      destruct (bitOf _ _); [done|]. f_equal. lia.
    + cbn [rbind]. simpl. f_equal. lia.
Qed.

Lemma items_loop items : forall n i ch ok, (length items < n)%nat -> codeAt code i (concat (map encodeItem items) ++ [word OpFailure]) ->
  forallb wfItem items = true -> codePoint ch = true ->
  charsetLoop U code n i ch ok = Ret (if existsb (fun it => itemTest U it ch) items then ok else negb ok).
Proof.
  induction items as [|it items IH]; intros [|n] i ch ok Hn H Hw Hc; try (simpl in Hn; lia).
  - apply codeAt_cons in H as [E _]. cbn [charsetLoop]. by rewrite E.
  - simpl in Hw. apply andb_true_iff in Hw as [Hi Hw]. cbn [map concat] in H. rewrite <- app_assoc in H.
    rewrite (item_step n i it _ ch ok H Hi Hc). cbn [existsb]. destruct (itemTest U it ch); [done|]. cbn [orb].
    apply codeAt_app in H as [_ H]. apply IH; [simpl in Hn; lia|done..].
Qed.

Lemma charset_spec i negated items ch : codeAt code i (encodeSet negated items) -> forallb wfItem items = true ->
  codePoint ch = true -> charset U code i ch = Ret (setTest U negated items ch).
Proof.
  intros H Hw Hc. unfold charset, setTest. assert (length items <= length (concat (map encodeItem items)))%nat as Hl.
  { clear. induction items as [|it items IH]; [done|]. simpl. rewrite length_app. destruct it; simpl; lia. }
  pose proof (codeAt_bounds _ _ _ H) as Hb. unfold encodeSet in *. destruct negated; cbn [app] in *.
  - apply codeAt_cons in H as [E H]. cbn [charsetLoop]. rewrite E. cbn [rbind]. rewrite opOf_word. cbn [negb].
    simpl in Hb. rewrite length_app in Hb. rewrite (items_loop items) by (done || (simpl in Hb; lia)). by destruct (existsb _ _).
  - rewrite length_app in Hb. rewrite (items_loop items) by (done || (simpl in Hb; lia)). by destruct (existsb _ _).
Qed.
End Charset.

(** ** One character *)

Inductive inKind := Plain | Ignore | UniIgnore | LocIgnore.

Inductive char1 :=
  | CLiteral (op : opcode) (c : Z)
  | CCategory (w : Z)
  | CAny
  | CAnyAll
  | CIn (k : inKind) (negated : bool) (items : list item).

Definition inOp (k : inKind) : opcode :=
  match k with Plain => OpIn | Ignore => OpInIgnore | UniIgnore => OpInUniIgnore | LocIgnore => OpInLocIgnore end.

Definition charOp (c : char1) : opcode :=
  match c with CLiteral op _ => op | CCategory _ => OpCategory | CAny => OpAny | CAnyAll => OpAnyAll | CIn k _ _ => inOp k end.

Definition charOperand (c : char1) : list Z :=
  match c with
  | CLiteral _ c => [c]
  | CCategory w => [w]
  | CAny | CAnyAll => []
  | CIn _ negated items => let set := encodeSet negated items in Z.of_nat (S (length set)) :: set
  end.

Definition encodeChar (c : char1) : list Z := word (charOp c) :: charOperand c.

Definition wfChar (c : char1) : bool :=
  match c with
  | CLiteral op c => isLiteral op && codePoint c
  | CIn _ _ items => forallb wfItem items
  | _ => true
  end.

Section Meaning.
Context (U : unicode) (input : list Z).
(** The end of the text, and the position a search begins at. *)
Context (en : Z).

Definition oneTest (c : char1) (ch : Z) : bool :=
  match c with
  | CLiteral op c => match literalTest U op c ch with Some b => b | None => false end
  | CCategory w => sreCategory U w ch
  | CAny => negb (sreIsLinebreak ch)
  | CAnyAll => true
  | CIn Plain negated items => setTest U negated items ch
  | CIn Ignore negated items => setTest U negated items (sreLowerAscii ch)
  | CIn UniIgnore negated items => setTest U negated items (ToLower U ch)
  | CIn LocIgnore negated items => setTest U negated items (sreLowerLocale ch) || setTest U negated items (sreUpperLocale ch)
  end.

Definition chAt (p : Z) : option Z := if p <? 0 then None else input !! Z.to_nat p.

(** The character at [p], in front of the end, passes the test. *)
Definition passes (test : Z -> bool) (p : Z) : bool :=
  (p <? en) && match chAt p with Some ch => test ch | None => false end.

(** The character in front of [p] passes it. *)
Definition before (test : Z -> bool) (p : Z) : bool :=
  match chAt (p - 1) with Some ch => test ch | None => false end.

Definition wordBoundary (isWord : Z -> bool) (p : Z) : bool := xorb (before isWord p) (passes isWord p).

Definition positionTest (w p : Z) : bool :=
  match atOf w with
  | Some (AtBeginning | AtBeginningString) => p =? 0
  | Some AtBeginningLine => (p =? 0) || before sreIsLinebreak p
  | Some AtEnd => (p =? en) || ((p =? en - 1) && passes sreIsLinebreak p)
  | Some AtEndLine => (p =? en) || passes sreIsLinebreak p
  | Some AtEndString => p =? en
  | Some AtBoundary => wordBoundary sreIsWord p
  | Some AtNonBoundary => negb (wordBoundary sreIsWord p)
  | Some AtLocBoundary => wordBoundary sreLocIsWord p
  | Some AtLocNonBoundary => negb (wordBoundary sreLocIsWord p)
  | Some AtUniBoundary => wordBoundary (sreUniIsWord U) p
  | Some AtUniNonBoundary => negb (wordBoundary (sreUniIsWord U) p)
  | None => false
  end.
End Meaning.

(** ** Patterns *)

Inductive pat :=
  | PEmpty
  | PFail
  | PChar (c : char1)
  | PSeq (a b : pat)
  | PAlt (l : list pat)
  | PMark (i : Z)
  | PAt (w : Z)
  | PRepeat (greedy : bool) (lo hi : Z) (a : pat)
  | PRepeatOne (greedy : bool) (lo hi : Z) (c : char1)
  | PPossessive (lo hi : Z) (a : pat)
  | PPossessiveOne (lo hi : Z) (c : char1)
  | PAtomic (a : pat)
  | PLook (negative : bool) (back : Z) (a : pat).

(** Patterns, and lists of them. *)
Lemma pat_induction (P : pat -> Prop) : P PEmpty -> P PFail -> (forall c, P (PChar c)) -> (forall a b, P a -> P b -> P (PSeq a b)) ->
  (forall l, Forall P l -> P (PAlt l)) -> (forall i, P (PMark i)) -> (forall w, P (PAt w)) ->
  (forall greedy lo hi a, P a -> P (PRepeat greedy lo hi a)) -> (forall greedy lo hi c, P (PRepeatOne greedy lo hi c)) ->
  (forall lo hi a, P a -> P (PPossessive lo hi a)) -> (forall lo hi c, P (PPossessiveOne lo hi c)) ->
  (forall a, P a -> P (PAtomic a)) -> (forall negative back a, P a -> P (PLook negative back a)) -> forall a, P a.
Proof.
  intros H1 H2 H3 H4 H5 H6 H7 H8 H9 H10 H11 H12 H13. fix IH 1.
  intros [ | |c|a b|l|i|w|greedy lo hi a|greedy lo hi c|lo hi a|lo hi c|a|negative back a];
    [apply H1|apply H2|apply H3|apply H4; apply IH| |apply H6|apply H7|apply H8; apply IH|apply H9|apply H10; apply IH|apply H11
    |apply H12; apply IH|apply H13; apply IH].
  apply H5. induction l as [|a l IHl]; constructor; [apply IH|exact IHl].
Qed.

Definition len (l : list Z) : Z := Z.of_nat (length l).

Fixpoint encode (p : pat) : list Z :=
  let alts := fix alts (l : list pat) : list Z :=
    match l with
    | [] => [0]
    | a :: l => (3 + len (encode a)) :: encode a ++ word OpJump :: (1 + len (alts l)) :: alts l
    end in
  match p with
  | PEmpty => []
  | PFail => [word OpFailure]
  | PChar c => encodeChar c
  | PSeq a b => encode a ++ encode b
  | PAlt l => word OpBranch :: alts l
  | PMark i => [word OpMark; i]
  | PAt w => [word OpAt; w]
  | PRepeat greedy lo hi a =>
      word OpRepeat :: (3 + len (encode a)) :: lo :: hi :: encode a ++ [word (if greedy then OpMaxUntil else OpMinUntil)]
  | PRepeatOne greedy lo hi c =>
      word (if greedy then OpRepeatOne else OpMinRepeatOne) :: (4 + len (encodeChar c)) :: lo :: hi :: encodeChar c ++ [word OpSuccess]
  | PPossessive lo hi a => word OpPossessiveRepeat :: (3 + len (encode a)) :: lo :: hi :: encode a ++ [word OpSuccess]
  | PPossessiveOne lo hi c => word OpPossessiveRepeatOne :: (4 + len (encodeChar c)) :: lo :: hi :: encodeChar c ++ [word OpSuccess]
  | PAtomic a => word OpAtomicGroup :: (2 + len (encode a)) :: encode a ++ [word OpSuccess]
  | PLook negative back a =>
      word (if negative then OpAssertNot else OpAssert) :: (3 + len (encode a)) :: back :: encode a ++ [word OpSuccess]
  end.

(** Python refuses a lower bound of [MaxRepeat]. *)
Definition wfCounts (lo hi : Z) : bool := (0 <=? lo) && (lo <=? hi) && (hi <=? MaxRepeat) && (lo <? MaxRepeat).

Fixpoint wfPat (groups : nat) (p : pat) : bool :=
  match p with
  | PEmpty | PFail | PAt _ => true
  | PChar c => wfChar c
  | PSeq a b => wfPat groups a && wfPat groups b
  | PAlt l => forallb (wfPat groups) l
  | PMark i => (0 <=? i) && (i <? 2 * Z.of_nat groups)
  | PRepeat _ lo hi a | PPossessive lo hi a => wfCounts lo hi && wfPat groups a
  | PRepeatOne _ lo hi c | PPossessiveOne lo hi c => wfCounts lo hi && wfChar c
  | PAtomic a => wfPat groups a
  | PLook _ back a => (0 <=? back) && wfPat groups a
  end.

(** ** Meaning

    A match goes on with what follows it, a function from a position to the end
    of the whole match. *)

Notation cont := (Z -> option Z).

Definition orElse_ (a b : option Z) : option Z := match a with Some x => Some x | None => b end.

Definition canMore (cnt hi : Z) : bool := (cnt <? hi) || (hi =? MaxRepeat).

(** [cnt] turns are done, the last optional one from [last]; a turn that did not
    move is not followed by another. *)
Fixpoint turns (n : nat) (greedy : bool) (body : cont -> cont) (lo hi cnt : Z) (last : option Z) (k : cont) (p : Z) : option Z :=
  match n with
  | O => None
  | S n =>
      if cnt <? lo then body (turns n greedy body lo hi (cnt + 1) last k) p
      else
        let more := if canMore cnt hi && bool_decide (last <> Some p)
                    then body (turns n greedy body lo hi (cnt + 1) (Some p) k) p else None in
        if greedy then orElse_ more (k p) else orElse_ (k p) more
  end.

(** Turns that are not taken back. *)
Fixpoint possTurns (n : nat) (body : cont) (lo hi cnt : Z) (last : option Z) (p : Z) : option Z :=
  match n with
  | O => None
  | S n =>
      if cnt <? lo then match body p with Some q => possTurns n body lo hi (cnt + 1) last q | None => None end
      else if canMore cnt hi && bool_decide (last <> Some p)
      then match body p with Some q => possTurns n body lo hi (cnt + 1) (Some p) q | None => Some p end
      else Some p
  end.

Section Den.
Context (U : unicode) (input : list Z) (en : Z).

(** More turns than there can be from [p]. *)
Definition budget (lo p : Z) : nat := Z.to_nat lo + 2 * Z.to_nat (en - p) + 2.

Definition denChar (c : char1) (k : cont) (p : Z) : option Z :=
  if passes input en (oneTest U c) p then k (p + 1) else None.

Fixpoint den (a : pat) (k : cont) (p : Z) : option Z :=
  match a with
  | PEmpty | PMark _ => k p
  | PFail => None
  | PChar c => denChar c k p
  | PSeq a b => den a (den b k) p
  | PAlt l => foldr (fun a r => orElse_ (den a k p) r) None l
  | PAt w => if positionTest U input en w p then k p else None
  | PRepeat greedy lo hi a => turns (budget lo p) greedy (den a) lo hi 0 None k p
  | PRepeatOne greedy lo hi c => turns (budget lo p) greedy (denChar c) lo hi 0 None k p
  | PPossessive lo hi a => match possTurns (budget lo p) (den a Some) lo hi 0 None p with Some q => k q | None => None end
  | PPossessiveOne lo hi c =>
      match possTurns (budget lo p) (denChar c Some) lo hi 0 None p with Some q => k q | None => None end
  | PAtomic a => match den a Some p with Some q => k q | None => None end
  | PLook negative back a =>
      let found := if p <? back then false else match den a Some (p - back) with Some _ => true | None => false end in
      if Bool.eqb found negative then None else k p
  end.
End Den.
