(* ===== verification/SreSound.v ===== *)
(** * SreSound: the engine finds the match of the pattern

    [match_] on the bytecode of a pattern ends in the first way, in Python's
    order, in which the pattern and what follows it match: [den] of SreSem.  A
    piece of bytecode [runs] a continuation when, from every good state, the
    dispatcher ends with enough fuel in what the continuation gives; every
    construct of a pattern turns code that runs a continuation into code that
    runs the continuation behind the construct. *)

From S2P Require Import Prelude Sre SreSem.
Local Open Scope Z_scope.
Local Open Scope sre_scope.

Section Sound.
Context (U : unicode) (input code : list Z) (HU : wfUnicode U) (Hin : forallb codePoint input = true).
Context (groups : nat) (st en : Z) (ma mu : bool) (Hen : 0 <= en <= len input).

Notation match_ := (match_ U input code).
Notation loop := (loop U input code).
Notation oneTest := (oneTest U).
Notation passes := (passes input en).
Notation den := (den U input en).
Notation denChar := (denChar U input en).

Record good (s : state) : Prop := {
  g_start : start s = st;
  g_end : end_ s = en;
  g_all : matchAll s = ma;
  g_advance : mustAdvance s = mu;
  g_marks : length (mark (caps s)) = (2 * groups)%nat;
  g_last : -1 <= lastmark (caps s) < 2 * Z.of_nat groups
}.

(** The nodes below [B] are as they were, and all are where they were. *)
Definition kept (B : nat) (h h' : list repeatStack) : Prop :=
  take B h' = take B h /\ forall x r, h !! x = Some r -> exists r', h' !! x = Some r' /\ prev r' = prev r.

(** A state behind [s] on the way back. *)
Record ext (s s' : state) : Prop := {
  e_good : good s';
  e_repeat : repeat s' = repeat s;
  e_nodes : nodes s `prefix_of` nodes s'
}.

Definition ends (s : state) (B : nat) (r : option Z) (o : state * Z) : Prop :=
  match r with
  | None => o.2 = 0 /\ ext s o.1
  | Some e => o.2 = 1 /\ ptr o.1 = e /\ good o.1 /\ repeat o.1 = repeat s /\ kept B (nodes s) (nodes o.1)
  end.

(** With enough fuel the result does not change any more. *)
Definition yields (m : nat -> nat -> outcome) (s : state) (B : nat) (r : option Z) : Prop :=
  exists F o, ends s B r o /\ forall f n, (F <= f)%nat -> (F <= n)%nat -> m f n = Ret o.

(** The code starts with an opcode that is not INFO; a literal has its operand. *)
Definition notInfo (i : Z) : Prop :=
  exists w, at_ code i = Ret w /\ w <> word OpInfo /\ (w = word OpLiteral -> exists c, at_ code (i + 1) = Ret c).

(** From states whose repeat stack satisfies [I], and from [lo] on. *)
Definition runs (I : option nat -> list repeatStack -> Prop) (top : bool) (B : nat) (lo i : Z) (k : Z -> option Z) : Prop :=
  notInfo i /\ forall s p, good s -> I (repeat s) (nodes s) -> (B <= length (nodes s))%nat -> lo <= p <= en ->
    yields (fun f n => loop (match_ f) n s i p top) s B (k p).

(** ** Generalities *)

Lemma ext_refl s : good s -> ext s s.
Proof. done. Qed.

Lemma ext_trans s s' s'' : ext s s' -> ext s' s'' -> ext s s''.
Proof. intros [? E1 H1] [? E2 H2]. split; [done|by rewrite E2|by etrans]. Qed.

Lemma kept_refl B h : kept B h h.
Proof. split; [done|eauto]. Qed.

Lemma kept_trans B h h' h'' : kept B h h' -> kept B h' h'' -> kept B h h''.
Proof.
  intros [T1 K1] [T2 K2]. split; [by rewrite T2|]. intros x r (r' & H' & E')%K1. destruct (K2 _ _ H') as (r'' & H'' & E'').
  exists r''. by rewrite E''.
Qed.

Lemma kept_length B h h' : kept B h h' -> (length h <= length h')%nat.
Proof.
  intros [_ K]. destruct (Nat.le_gt_cases (length h) (length h')) as [|H]; [done|].
  destruct (lookup_lt_is_Some_2 h (length h') H) as [r Hr]. destruct (K _ _ Hr) as (r' & H' & _).
  apply lookup_lt_Some in H'. lia.
Qed.

Lemma prefix_kept B h h' : h `prefix_of` h' -> (B <= length h)%nat -> kept B h h'.
Proof.
  intros [t ->] HB. split; [by rewrite take_app_le|]. intros x r Hr. exists r. split; [|done]. by apply lookup_app_l_Some.
Qed.

Lemma ends_ext s s' B r o : ext s s' -> (B <= length (nodes s))%nat -> ends s' B r o -> ends s B r o.
Proof.
  intros He HB. destruct r as [e|]; simpl.
  - intros (? & ? & ? & Hr & Hk). split_and!; try done; [by rewrite Hr, (e_repeat _ _ He)|].
    eapply kept_trans; [|exact Hk]. apply prefix_kept; [apply He|done].
  - intros [? H]. split; [done|]. by eapply ext_trans.
Qed.

Lemma yields_ext m s s' B r : ext s s' -> (B <= length (nodes s))%nat -> yields m s' B r -> yields m s B r.
Proof. intros He HB (F & o & Ho & H). exists F, o. split; [by eapply ends_ext|done]. Qed.

Lemma yields_eq m m' s B r : (exists F, forall f n, (F <= f)%nat -> (F <= n)%nat -> m f n = m' f n) -> yields m' s B r -> yields m s B r.
Proof.
  intros (F' & E) (F & o & Ho & H). exists (max F F'), o. split; [done|]. intros f n Hf Hn. rewrite E by lia. apply H; lia.
Qed.

(** One more turn of the dispatcher. *)
Lemma yields_S m m' s B r : (forall f n, m f (S n) = m' f n) -> yields m' s B r -> yields m s B r.
Proof.
  intros E (F & o & Ho & H). exists (S F), o. split; [done|]. intros f [|n] Hf Hn; [lia|]. rewrite E. apply H; lia.
Qed.

Lemma yields_done s B r o : ends s B r o -> yields (fun _ _ => Ret o) s B r.
Proof. intros H. exists 0%nat, o. done. Qed.

Lemma yields_fail s B : good s -> yields (fun _ _ => failed s) s B None.
Proof. intros H. by apply yields_done. Qed.

Lemma yields_orElse m1 m2 s B r1 r2 : (B <= length (nodes s))%nat -> yields m1 s B r1 ->
  (forall s', ext s s' -> yields (fun f n => m2 f n s') s' B r2) ->
  yields (fun f n => orElse (m1 f n) (m2 f n)) s B (orElse_ r1 r2).
Proof.
  intros HB (F & [s' v] & Ho & H) H2. destruct r1 as [e|].
  - exists F, (s', v). split; [done|]. intros f n Hf Hn. rewrite (H f n Hf Hn). destruct Ho as (Hv & _). simpl in Hv. by subst v.
  - destruct Ho as [Hv He]. simpl in Hv, He. subst v. destruct (H2 s' He) as (F2 & o & Ho & H').
    exists (max F F2), o. split; [by eapply ends_ext|]. intros f n Hf Hn. rewrite (H f n) by lia. cbn. apply H'; lia.
Qed.

(** A sub-match that must succeed. *)
Lemma yields_andThen m1 m2 s B r1 r2 : yields m1 s B r1 ->
  (forall s' e, r1 = Some e -> ends s B r1 (s', 1) -> yields (fun f n => m2 f n s') s B r2) ->
  yields (fun f n => andThen (m1 f n) (m2 f n)) s B (match r1 with Some _ => r2 | None => None end).
Proof.
  intros (F & [s' v] & Ho & H) H2. destruct r1 as [e|].
  - pose proof Ho as (Hv & _). simpl in Hv. subst v. destruct (H2 s' e eq_refl Ho) as (F2 & o & Ho2 & H').
    exists (max F F2), o. split; [done|]. intros f n Hf Hn. rewrite (H f n) by lia. cbn. apply H'; lia.
  - exists F, (s', v). split; [done|]. intros f n Hf Hn. rewrite (H f n Hf Hn). destruct Ho as [Hv _]. simpl in Hv. by subst v.
Qed.

(** *** Entering a sub-match *)

Lemma enter_code s i k : notInfo i -> enter code s i k = k i.
Proof.
  intros (w & E & Hw & _). unfold enter. unfold at_ in E |- *. destruct (Z.ltb_spec i 0) as [|Hi]; [done|].
  destruct (code !! Z.to_nat i) as [w'|] eqn:El; [|done]. injection E as ->.
  pose proof (lookup_lt_Some _ _ _ El). rewrite (proj2 (Z.leb_gt _ i)) by lia. cbn [rbind].
  by rewrite (proj2 (Z.eqb_neq _ _)).
Qed.

Lemma runs_match I top B lo i k s p : runs I top B lo i k -> good s -> I (repeat s) (nodes s) -> (B <= length (nodes s))%nat ->
  lo <= p <= en -> yields (fun f n => match_ f (setPtr s p) i top) s B (k p).
Proof.
  intros [Hi H] Hs HI HB Hp. destruct (H (setPtr s p) p) as (F & o & Ho & E); try done; [by destruct Hs|].
  exists (S F), o. split.
  - eapply ends_ext; [|exact HB|exact Ho]. split; [by destruct Hs|done|done].
  - intros [|f] n Hf Hn; [lia|]. cbn [Sre.match_]. rewrite enter_code by done. simpl. apply E; lia.
Qed.


(** The same positions, the same continuation. *)
Lemma runs_eq I top B lo i k k' : (forall p, lo <= p <= en -> k p = k' p) -> runs I top B lo i k -> runs I top B lo i k'.
Proof. intros E [Hi H]. split; [done|]. intros s p ????. rewrite <- E by done. by apply H. Qed.

(** Code that fails whatever the fuel has no match. *)
Lemma runs_none I top B lo i k s p : runs I top B lo i k -> good s -> I (repeat s) (nodes s) -> (B <= length (nodes s))%nat ->
  lo <= p <= en -> (forall rec n, loop rec (S n) s i p top = failed s) -> k p = None.
Proof.
  intros [_ H] Hs HI HB Hp E. destruct (H s p Hs HI HB Hp) as (F & o & Ho & Ho'). specialize (Ho' (S F) (S F)).
  rewrite E in Ho' by lia. injection Ho' as <-; [|lia|lia]. destruct (k p); [|done]. by destruct Ho.
Qed.

(** ** One character *)

Lemma chAt_in p : 0 <= p < en -> exists ch, at_ input p = Ret ch /\ chAt input p = Some ch /\ codePoint ch = true.
Proof.
  intros Hp. unfold at_, chAt. rewrite (proj2 (Z.ltb_ge p 0)) by lia. unfold len in Hen.
  destruct (lookup_lt_is_Some_2 input (Z.to_nat p)) as [ch E]; [lia|]. rewrite E. exists ch. split_and!; [done|done|].
  rewrite forallb_forall in Hin. apply Hin. apply list_elem_of_In. by eapply list_elem_of_lookup_2.
Qed.

Lemma noChar_spec s p (test : Z -> res bool) t : good s -> 0 <= p <= en ->
  (forall ch, codePoint ch = true -> test ch = Ret (t ch)) -> noChar input s p test = Ret (negb (passes t p)).
Proof.
  intros Hs Hp Ht. unfold noChar, SreSem.passes. rewrite (g_end s Hs). destruct (Z.leb_spec en p) as [H|H].
  - by rewrite (proj2 (Z.ltb_ge p en)).
  - rewrite (proj2 (Z.ltb_lt p en)) by done. destruct (chAt_in p) as (ch & -> & -> & Hc); [lia|]. cbn. by rewrite Ht.
Qed.

Lemma lower_ascii_point ch : codePoint ch = true -> codePoint (sreLowerAscii ch) = true.
Proof. rewrite !codePoint_spec. unfold sreLowerAscii, between. intros H. split_ifs; lia. Qed.

Lemma upper_locale_point ch : codePoint ch = true -> codePoint (sreUpperLocale ch) = true.
Proof. rewrite !codePoint_spec. unfold sreUpperLocale, between. intros H. split_ifs; lia. Qed.

Lemma oneChar_op c : wfChar c = true -> oneChar (charOp c) = true.
Proof. destruct c as [op c|w| | |k neg items]; simpl; [|done..|by destruct k]. intros [H _]%andb_true_iff. by destruct op. Qed.

Lemma charTest_spec c i ch : codeAt code i (charOperand c) -> wfChar c = true -> codePoint ch = true ->
  charTest U code (charOp c) i ch = Ret (oneTest c ch).
Proof.
  intros H Hw Hc. destruct c as [op c|w| | |k neg items]; cbn [charOperand charOp SreSem.oneTest wfChar] in *.
  - apply codeAt_cons in H as [E _]. apply andb_true_iff in Hw as [Hop Hc']. destruct op; try done; cbn [charTest]; rewrite E; cbn [rbind];
      by rewrite int32_point.
  - apply codeAt_cons in H as [E _]. cbn. by rewrite E.
  - done.
  - done.
  - apply codeAt_cons in H as [_ H]. destruct k; cbn [charTest inOp].
    + by apply (charset_spec U).
    + apply (charset_spec U); [done|done|by apply lower_ascii_point].
    + apply (charset_spec U); [done|done|by apply (lower_point U HU)].
    + unfold charsetLocIgnore. rewrite (charset_spec U code _ neg items) by (done || by apply lower_ascii_point). cbn [rbind].
      destruct (setTest U neg items (sreLowerLocale ch)) eqn:E; [done|]. destruct (Z.eqb_spec (sreUpperLocale ch) (sreLowerLocale ch)) as [->|].
      * by rewrite E.
      * apply (charset_spec U); [done|done|by apply upper_locale_point].
Qed.

Lemma operand_spec c i : codeAt code i (charOperand c) -> wfChar c = true -> operand code (charOp c) i = Ret (len (charOperand c)).
Proof.
  intros H Hw. destruct c as [op c|w| | |k neg items]; simpl in *; [|done..|].
  - apply andb_true_iff in Hw as [Hop _]. by destruct op.
  - apply codeAt_cons in H as [E _]. unfold len. simpl. by destruct k.
Qed.

Lemma loop_char rec n s i p top c : codeAt code i (encodeChar c) -> wfChar c = true -> good s -> 0 <= p <= en ->
  loop rec (S n) s i p top = if passes (oneTest c) p then loop rec n s (i + len (encodeChar c)) (p + 1) top else failed s.
Proof.
  intros [E H]%codeAt_cons Hw Hs Hp. cbn [Sre.loop]. rewrite E. cbn [rbind]. rewrite opOf_word, oneChar_op by done.
  rewrite (noChar_spec s p _ (oneTest c)); [|done|done|intros ch Hc; by apply charTest_spec]. cbn [rbind].
  destruct (passes _ p); [|done]. cbn [negb]. rewrite operand_spec by done. cbn [rbind]. f_equal.
  unfold len, encodeChar. simpl length. lia.
Qed.

(** ** The plain opcodes *)

Lemma word_inj op op' : word op = word op' -> op = op'.
Proof. intros E. assert (opOf (word op) = opOf (word op')) as H by by rewrite E. rewrite !opOf_word in H. congruence. Qed.

Lemma not_info op i ws : codeAt code i (word op :: ws) -> op <> OpInfo -> op <> OpLiteral -> notInfo i.
Proof.
  intros [E _]%codeAt_cons Hop Hlit. exists (word op). split_and!; [done|by intros ?%word_inj|by intros ?%word_inj].
Qed.

Lemma char_not_info i c : codeAt code i (encodeChar c) -> wfChar c = true -> notInfo i.
Proof.
  intros [E H]%codeAt_cons Hw. exists (word (charOp c)). split_and!; [done| |].
  - intros E'%word_inj. pose proof (oneChar_op c Hw) as Ho. by rewrite E' in Ho.
  - intros E'%word_inj. destruct c as [op c|w| | |[] neg items]; try done. apply codeAt_cons in H as [H _]. by exists c.
Qed.

Definition accept (top : bool) (p : Z) : option Z :=
  if top && ((ma && negb (p =? en)) || (mu && (p =? st))) then None else Some p.

Lemma loop_success rec n s i p top : codeAt code i [word OpSuccess] -> good s ->
  loop rec (S n) s i p top = match accept top p with Some _ => matched (setPtr s p) | None => failed s end.
Proof.
  intros [E _]%codeAt_cons [E1 E2 E3 E4 _ _]. cbn [Sre.loop]. rewrite E. cbn. unfold rejectSuccess, accept.
  rewrite E1, E2, E3, E4. by destruct (_ && _).
Qed.

Lemma good_ptr s p : good s -> good (setPtr s p).
Proof. by intros []. Qed.

Lemma runs_success I top B lo i : codeAt code i [word OpSuccess] -> runs I top B lo i (accept top).
Proof.
  intros H. split; [by eapply not_info|]. intros s p Hs _ _ _. eapply yields_S; [intros; by apply loop_success|].
  destruct (accept top p) as [e|] eqn:E; apply yields_done; [|done].
  assert (e = p) as -> by (unfold accept in E; destruct (_ && _); congruence).
  simpl. split_and!; [done|done|by apply good_ptr|done|apply kept_refl].
Qed.

Lemma runs_jump I top B lo i w k : codeAt code i [word OpJump; w] -> runs I top B lo (i + 1 + w) k -> runs I top B lo i k.
Proof.
  intros H [_ Hk]. split; [by eapply not_info|]. intros s p Hs HI HB Hp.
  eapply yields_S; [|by apply Hk]. intros f n. apply codeAt_cons in H as [E [E' _]%codeAt_cons]. cbn [Sre.loop]. rewrite E. cbn. by rewrite E'.
Qed.

Lemma runs_fail I top B lo i : codeAt code i [word OpFailure] -> runs I top B lo i (fun _ => None).
Proof.
  intros H. split; [by eapply not_info|]. intros s p Hs _ _ _. eapply yields_S; [|by apply yields_fail]. intros f n.
  apply codeAt_cons in H as [E _]. cbn [Sre.loop]. by rewrite E.
Qed.

Lemma runs_char I top B lo i c k : 0 <= lo -> codeAt code i (encodeChar c) -> wfChar c = true ->
  runs I top B lo (i + len (encodeChar c)) k -> runs I top B lo i (denChar c k).
Proof.
  intros Hlo H Hw [_ Hk]. split.
  { by eapply char_not_info. }
  intros s p Hs HI HB Hp. eapply yields_S; [intros f n; apply (loop_char _ n s i p top c); [done|done|done|lia]|].
  unfold SreSem.denChar. destruct (passes (oneTest c) p) eqn:E; [|by apply yields_fail].
  apply Hk; [done|done|done|]. unfold SreSem.passes in E. apply andb_true_iff in E as [E%Z.ltb_lt _]. lia.
Qed.

(** *** Positions *)

Lemma before_in s p t : good s -> 0 <= p <= en -> p <> 0 -> exists ch, at_ input (p - 1) = Ret ch /\ before input t p = t ch.
Proof. intros Hs Hp Hn. destruct (chAt_in (p - 1)) as (ch & E & E' & _); [lia|]. exists ch. unfold before. by rewrite E'. Qed.

Lemma passes_in p t : 0 <= p < en -> exists ch, at_ input p = Ret ch /\ passes t p = t ch.
Proof.
  intros Hp. destruct (chAt_in p Hp) as (ch & E & E' & _). exists ch. unfold SreSem.passes. rewrite E'.
  by rewrite (proj2 (Z.ltb_lt _ _)) by lia.
Qed.

Lemma boundary_spec s p t : good s -> 0 <= p <= en -> boundary input s p t = Ret (wordBoundary input en t p).
Proof.
  intros Hs Hp. unfold boundary, wordBoundary. rewrite (g_end s Hs).
  assert ((if 0 <? p then ch <- at_ input (p - 1);; Ret (t ch) else Ret false) = Ret (before input t p)) as ->.
  { destruct (Z.ltb_spec 0 p) as [H|H].
    - destruct (before_in s p t Hs Hp) as (ch & -> & ->); [lia|done].
    - unfold before, chAt. by rewrite (proj2 (Z.ltb_lt _ _)) by lia. }
  assert ((if p <? en then ch <- at_ input p;; Ret (t ch) else Ret false) = Ret (passes t p)) as ->.
  { destruct (Z.ltb_spec p en) as [H|H]; [destruct (passes_in p t) as (ch & -> & ->); [lia|done]|].
    unfold SreSem.passes. by rewrite (proj2 (Z.ltb_ge _ _)) by lia. }
  cbn. f_equal. by destruct (before _ _ _), (passes _ _).
Qed.

Lemma at_spec s p w : good s -> 0 <= p <= en -> at_position U input s p w = Ret (positionTest U input en w p).
Proof.
  intros Hs Hp. unfold at_position, positionTest. rewrite (g_end s Hs).
  destruct (atOf w) as [[]|]; rewrite ?boundary_spec by done; try done; cbn [rneg rbind].
  - destruct (Z.eqb_spec p 0) as [|Hn]; [done|]. destruct (before_in s p sreIsLinebreak Hs Hp Hn) as (ch & -> & ->). done.
  - destruct (Z.eqb_spec (en - p) 1) as [H|H].
    + destruct (passes_in p sreIsLinebreak) as (ch & -> & ->); [lia|]. cbn. rewrite (proj2 (Z.eqb_eq p (en - 1))) by lia.
      rewrite (proj2 (Z.eqb_neq p en)) by lia. by rewrite orb_false_r.
    + rewrite (proj2 (Z.eqb_neq p (en - 1))) by lia. cbn. by rewrite orb_false_r.
  - destruct (Z.eqb_spec p en) as [|H]; [done|]. destruct (passes_in p sreIsLinebreak) as (ch & -> & ->); [lia|done].
Qed.

Lemma runs_at I top B lo i w k : 0 <= lo -> codeAt code i [word OpAt; w] -> runs I top B lo (i + 2) k ->
  runs I top B lo i (fun p => if positionTest U input en w p then k p else None).
Proof.
  intros Hlo H [_ Hk]. split; [by eapply not_info|]. intros s p Hs HI HB Hp.
  assert (forall f n, loop (match_ f) (S n) s i p top = if positionTest U input en w p then loop (match_ f) n s (i + 2) p top else failed s) as E.
  { intros f n. apply codeAt_cons in H as [E [E' _]%codeAt_cons]. cbn [Sre.loop]. rewrite E. cbn [rbind]. rewrite opOf_word.
    cbn [oneChar isLiteral]. rewrite E'. cbn [rbind]. rewrite at_spec by (done || lia). cbn [rbind].
    destruct (positionTest _ _ _ _ _); [|done]. f_equal. lia. }
  eapply yields_S; [exact E|]. destruct (positionTest _ _ _ _ _); [by apply Hk|by apply yields_fail].
Qed.

(** *** Marks *)

Lemma setMark_spec s i p : good s -> 0 <= i < 2 * Z.of_nat groups -> exists s', setMark s i p = Ret s' /\ ext s s'.
Proof.
  intros Hs Hi. unfold setMark. set (fill := if lastmark (caps s) <? i then _ else _).
  assert (length fill = (2 * groups)%nat) as Hl by (unfold fill; destruct (_ <? _); rewrite ?length_imap; apply Hs).
  assert (exists x, at_ fill i = Ret x) as [x ->].
  { unfold at_. rewrite (proj2 (Z.ltb_ge _ _)) by lia. destruct (lookup_lt_is_Some_2 fill (Z.to_nat i)) as [x ->]; [lia|by eexists]. }
  cbn [rbind]. eexists. split; [done|]. split; [|done|done]. destruct Hs. split; try done; simpl.
  - by rewrite length_insert.
  - destruct (Z.ltb_spec (lastmark (caps s)) i); lia.
Qed.

Lemma runs_mark I top B lo i m k : (forall r h h', I r h -> h `prefix_of` h' -> I r h') ->
  codeAt code i [word OpMark; m] -> 0 <= m < 2 * Z.of_nat groups ->
  runs I top B lo (i + 2) k -> runs I top B lo i k.
Proof.
  intros HS H Hm [_ Hk]. split; [by eapply not_info|]. intros s p Hs HI HB Hp.
  destruct (setMark_spec s m p Hs Hm) as (s' & E' & He). eapply yields_ext; [exact He|done|].
  eapply yields_S; [|apply Hk; [apply He| |by etrans; [exact HB|apply prefix_length, He]|done]].
  - intros f n. apply codeAt_cons in H as [E [E2 _]%codeAt_cons]. cbn [Sre.loop]. rewrite E. cbn [rbind]. rewrite opOf_word.
    cbn [oneChar isLiteral]. rewrite E2. cbn [rbind]. rewrite E'. cbn [rbind]. f_equal. lia.
  - rewrite (e_repeat _ _ He). eapply HS; [exact HI|apply He].
Qed.

(** ** Backtracking points *)

(** What a construct asks of the repeat stack depends on the nodes below a bound
    only. *)
Definition stable (I : option nat -> list repeatStack -> Prop) : Prop :=
  exists b, (forall r h, I r h -> (b <= length h)%nat) /\ forall r h h', I r h -> take b h' = take b h -> I r h'.

Lemma stable_prefix I r h h' : stable I -> I r h -> h `prefix_of` h' -> I r h'.
Proof. intros (b & Hb & HI) H [t ->]. eapply HI; [exact H|]. by rewrite take_app_le by by eapply Hb. Qed.

Lemma stable_ext I s s' : stable I -> I (repeat s) (nodes s) -> ext s s' -> I (repeat s') (nodes s').
Proof. intros HS HI [_ E Hp]. rewrite E. by eapply stable_prefix. Qed.

Lemma ext_bound s s' B : ext s s' -> (B <= length (nodes s))%nat -> (B <= length (nodes s'))%nat.
Proof. intros [_ _ H] HB. etrans; [exact HB|by apply prefix_length]. Qed.

Definition savedOk (v : saved) : Prop :=
  -1 <= savedLastmark v < 2 * Z.of_nat groups /\ match savedMarks v with Some l => (length l <= 2 * groups)%nat | None => True end.

Lemma save_ok keep s : good s -> savedOk (save keep s).
Proof.
  intros []. split; simpl; [done|]. destruct (keep && _); [|done]. rewrite length_take. lia.
Qed.

Lemma restore_ext keep v s : good s -> savedOk v -> ext s (restore keep v s).
Proof.
  intros [] [Hv Hm]. split; [|done|done]. split; simpl; try done. destruct (savedMarks v) as [l|]; [|done].
  destruct keep; [|done]. rewrite length_app, length_drop. lia.
Qed.

Lemma ext_ptr s p : good s -> ext s (setPtr s p).
Proof. intros H. split; [by apply good_ptr|done|done]. Qed.

(** ** BRANCH *)

(** The test of the first opcode agrees with the alternative. *)
Lemma skips_spec I top B lo i k s p : runs I top B lo (i + 1) k -> good s -> I (repeat s) (nodes s) -> (B <= length (nodes s))%nat ->
  lo <= p <= en -> exists b, skipsBranch U input code s i p = Ret b /\ (b = true -> k p = None).
Proof.
  intros Hr Hs HI HB Hp. pose proof Hr as [(w & Ew & _ & _) H]. destruct (H s p Hs HI HB Hp) as (F & o & Ho & E).
  specialize (E (S F) (S F) ltac:(lia) ltac:(lia)). cbn [Sre.loop] in E. rewrite Ew in E. cbn [rbind] in E.
  assert (forall op X, w = word op -> oneChar op = true -> noChar input s p (charTest U code op (i + 1 + 1)) = X ->
    exists b, X = Ret b /\ (b = true -> k p = None)) as Hop.
  { intros op X -> Hop EX. rewrite opOf_word, Hop, EX in E. destruct X as [b| |]; cbn [rbind] in E; [|done|done].
    exists b. split; [done|]. intros ->. eapply (runs_none I top B lo (i + 1) k s p); try done. intros rec n.
    cbn [Sre.loop]. rewrite Ew. cbn [rbind]. by rewrite opOf_word, Hop, EX. }
  unfold skipsBranch. rewrite Ew. cbn [rbind]. destruct (Z.eqb_spec w (word OpLiteral)) as [El|_].
  - apply (Hop OpLiteral); [done|done|]. replace (i + 2) with (i + 1 + 1) by lia. done.
  - destruct (Z.eqb_spec w (word OpIn)) as [El|_]; [|by exists false].
    apply (Hop OpIn); [done|done|]. replace (i + 3) with (i + 1 + 1 + 1) by lia. done.
Qed.

(** What every construct must give. *)
Definition compiles (a : pat) : Prop :=
  forall I top B lo i k, stable I -> 0 <= lo -> codeAt code i (encode a) -> wfPat groups a = true ->
    runs I top B lo (i + len (encode a)) k -> runs I top B lo i (den a k).

Fixpoint encodeAlts (l : list pat) : list Z :=
  match l with
  | [] => [0]
  | a :: l => (3 + len (encode a)) :: encode a ++ word OpJump :: (1 + len (encodeAlts l)) :: encodeAlts l
  end.

Lemma branch_spec I top B lo k l : stable I -> 0 <= lo -> Forall compiles l -> forallb (wfPat groups) l = true ->
  forall i v s p, codeAt code i (encodeAlts l) -> runs I top B lo (i + len (encodeAlts l)) k -> savedOk v ->
  good s -> I (repeat s) (nodes s) -> (B <= length (nodes s))%nat -> lo <= p <= en ->
  yields (fun f n => branchLoop U input code (match_ f) n v s i p top) s B (foldr (fun a r => orElse_ (den a k p) r) None l).
Proof.
  intros HS Hlo Hc Hw. induction l as [|a l IH]; intros i v s p H Hk Hv Hs HI HB Hp; cbn [encodeAlts] in H, Hk.
  - apply codeAt_cons in H as [E _]. eapply yields_S; [|by apply yields_fail]. intros f n. cbn [branchLoop]. by rewrite E.
  - apply Forall_cons in Hc as [Ha Hc]. simpl in Hw. apply andb_true_iff in Hw as [Hwa Hw].
    apply codeAt_cons in H as [E H]. apply codeAt_app in H as [H1 H2].
    pose proof H2 as [_ [_ H3]%codeAt_cons]%codeAt_cons. fold (len (encode a)) in H2, H3.
    assert (runs I top B lo (i + 1) (den a k)) as Hr.
    { apply Ha; try done. eapply runs_jump; [by apply (codeAt_app _ _ [_; _]) in H2 as [H2 _]|].
      replace (i + 1 + len (encode a) + 1 + (1 + len (encodeAlts l))) with
        (i + len (3 + len (encode a) :: encode a ++ word OpJump :: 1 + len (encodeAlts l) :: encodeAlts l)); [done|].
      unfold len. simpl length. rewrite length_app. simpl length. lia. }
    assert (i + (3 + len (encode a)) = i + 1 + len (encode a) + 1 + 1) as Ei by lia.
    assert (forall s', ext s s' -> yields (fun f n => branchLoop U input code (match_ f) n v s' (i + (3 + len (encode a))) p top) s' B
      (foldr (fun a r => orElse_ (den a k p) r) None l)) as Hrest.
    { intros s' He. apply IH; try done; [by rewrite Ei| |by apply He|by eapply stable_ext|by eapply ext_bound].
      replace (i + (3 + len (encode a)) + len (encodeAlts l)) with
        (i + len (3 + len (encode a) :: encode a ++ word OpJump :: 1 + len (encodeAlts l) :: encodeAlts l)); [done|].
      unfold len. simpl length. rewrite length_app. simpl length. lia. }
    destruct (skips_spec I top B lo i (den a k) s p Hr Hs HI HB Hp) as (b & Eb & Hb).
    assert (0 <= len (encode a)) by (unfold len; lia).
    cbn [foldr]. destruct b.
    + rewrite Hb by done. eapply yields_S; [|by apply Hrest]. intros f n. cbn [branchLoop]. rewrite E. cbn [rbind].
      rewrite (proj2 (Z.eqb_neq _ _)) by lia. by rewrite Eb.
    + eapply yields_S; [|apply yields_orElse; [done|by apply (runs_match I top B lo (i + 1) (den a k) s p)|]].
      * intros f n. cbn [branchLoop]. rewrite E. cbn [rbind]. rewrite (proj2 (Z.eqb_neq _ _)) by lia. rewrite Eb. cbn [rbind]. reflexivity.
      * intros s' He. cbv beta. assert (ext s' (restore (inRepeat s') v s')) as He2 by (apply restore_ext; [apply He|done]).
        eapply yields_ext; [exact He2|by eapply ext_bound|]. apply Hrest. by eapply ext_trans.
Qed.

(** ** Runs of one character *)

(** The characters from [p] on that pass the test, at most [m]. *)
Fixpoint span (t : Z -> bool) (m : nat) (p : Z) : nat :=
  match m with O => 0%nat | S m => if t p then S (span t m (p + 1)) else 0%nat end.

Lemma span_le t m p : (span t m p <= m)%nat.
Proof. revert p. induction m as [|m IH]; intros p; simpl; [lia|]. destruct (t p); [|lia]. specialize (IH (p + 1)). lia. Qed.

Lemma span_add t a b p : span t (a + b) p = if decide (span t a p = a) then (a + span t b (p + Z.of_nat a))%nat else span t a p.
Proof.
  revert p. induction a as [|a IH]; intros p; simpl; [by rewrite Z.add_0_r|]. destruct (t p); [|by rewrite decide_False].
  rewrite IH. repeat case_decide; try lia. f_equal. f_equal. f_equal. lia.
Qed.

(** The most characters [count] takes. *)
Definition limit (maxcount p : Z) : nat :=
  Z.to_nat (if negb (maxcount =? MaxRepeat) && (maxcount <? en - p) then maxcount else en - p).

Lemma advance_spec (test : Z -> res bool) t m : forall p, 0 <= p -> p + Z.of_nat m <= en ->
  (forall ch, codePoint ch = true -> test ch = Ret (t ch)) ->
  advance input test m p = Ret (p + Z.of_nat (span (passes t) m p)).
Proof.
  induction m as [|m IH]; intros p Hp Hm Ht; [by rewrite Z.add_0_r|]. cbn [advance span].
  destruct (chAt_in p) as (ch & E & E' & Hc); [lia|]. rewrite E. cbn [rbind]. rewrite Ht by done. cbn [rbind].
  assert (passes t p = t ch) as ->.
  { unfold SreSem.passes. rewrite E'. by rewrite (proj2 (Z.ltb_lt _ _)) by lia. }
  destruct (t ch); [|by rewrite Z.add_0_r]. rewrite IH by (done || lia). f_equal. lia.
Qed.

(** A one-character pattern as a sub-match. *)
Lemma one_match f s i c : codeAt code i (encodeChar c ++ [word OpSuccess]) -> wfChar c = true -> good s -> 0 <= ptr s <= en ->
  match_ (S (S (S f))) s i false = if passes (oneTest c) (ptr s) then matched (setPtr s (ptr s + 1)) else failed s.
Proof.
  intros H Hw Hs Hp. apply codeAt_app in H as [H1 H2]. cbn [Sre.match_]. rewrite enter_code.
  - rewrite (loop_char _ _ s i _ _ c) by (done || lia). destruct (passes _ _); [|done]. by rewrite loop_success.
  - by eapply char_not_info.
Qed.

Definition matchesOne (rec : state -> Z -> bool -> outcome) (i : Z) (c : char1) : Prop :=
  forall s, good s -> 0 <= ptr s <= en ->
    rec s i false = if passes (oneTest c) (ptr s) then matched (setPtr s (ptr s + 1)) else failed s.

Lemma countLoop_spec rec i c m : matchesOne rec i c -> forall n s, good s ->
  0 <= ptr s -> ptr s + Z.of_nat m <= en -> (m < n)%nat ->
  countLoop rec n s i (ptr s + Z.of_nat m) =
    Ret (setPtr s (ptr s + Z.of_nat (span (passes (oneTest c)) m (ptr s))), 1).
Proof.
  intros H. induction m as [|m IH]; intros [|n] s Hs Hp Hm Hn; try lia; cbn [countLoop span].
  - rewrite (proj2 (Z.ltb_ge _ _)) by lia. rewrite Z.add_0_r. by destruct s.
  - rewrite (proj2 (Z.ltb_lt _ _)) by lia. rewrite H by (done || lia).
    destruct (passes _ (ptr s)); cbn; [|rewrite Z.add_0_r; by destruct s].
    replace (ptr s + Z.of_nat (S m)) with (ptr s + 1 + Z.of_nat m) by lia.
    specialize (IH n (setPtr s (ptr s + 1)) (good_ptr _ _ Hs)). simpl in IH. rewrite IH by lia. do 3 f_equal. lia.
Qed.

Lemma count_spec rec n s p i c maxcount : matchesOne rec i c -> codeAt code i (encodeChar c ++ [word OpSuccess]) -> wfChar c = true -> good s ->
  0 <= p <= en -> 0 <= maxcount -> (Z.to_nat en < n)%nat ->
  count_ U input code rec n (setPtr s p) i maxcount =
    Ret (setPtr s p, Z.of_nat (span (passes (oneTest c)) (limit maxcount p) p)).
Proof.
  intros Hrec H Hw Hs Hp Hm Hn. pose proof H as [[E Ho]%codeAt_cons _]%codeAt_app. unfold count_. cbn [setPtr ptr end_].
  rewrite (g_end s Hs), E. cbn [rbind]. rewrite opOf_word.
  set (last := if _ && _ then p + maxcount else en).
  assert (last = p + Z.of_nat (limit maxcount p)) as ->.
  { unfold last, limit. destruct (negb _ && (maxcount <? en - p)) eqn:Ec; lia. }
  assert (p + Z.of_nat (limit maxcount p) <= en) as Hl.
  { unfold limit. destruct (negb _ && (maxcount <? en - p)) eqn:Ec; [|lia]. apply andb_true_iff in Ec as [_ Ec%Z.ltb_lt]. lia. }
  set (m := limit maxcount p) in *. clearbody m. replace (p + Z.of_nat m - p) with (Z.of_nat m) by lia. rewrite Nat2Z.id.
  assert (forall test, (forall ch, codePoint ch = true -> test ch = Ret (oneTest c ch)) ->
    (q <- advance input test m p;; Ret (setPtr s p, q - p)) = Ret (setPtr s p, Z.of_nat (span (passes (oneTest c)) m p))) as Hrun.
  { intros test Ht. rewrite (advance_spec test (oneTest c)) by (done || lia). cbn. do 2 f_equal. lia. }
  assert ((r <- countLoop rec n (setPtr s p) i (p + Z.of_nat m);;
    (if r.2 <? 0 then Ret r else Ret (setPtr r.1 p, ptr r.1 - p))) =
    Ret (setPtr s p, Z.of_nat (span (passes (oneTest c)) m p))) as Hgen.
  { pose proof (countLoop_spec rec i c m Hrec n (setPtr s p) (good_ptr _ _ Hs)) as Hc. simpl in Hc. rewrite Hc by lia.
    cbn. do 2 f_equal. lia. }
  assert (forall ch, codePoint ch = true -> charTest U code (charOp c) (i + 1) ch = Ret (oneTest c ch)) as Ht.
  { intros ch Hch. apply charTest_spec; done. }
  destruct c as [op c|w| | |k neg items]; cbn [charOp] in *.
  - pose proof Hw as [Hop _]%andb_true_iff. apply codeAt_cons in Ho as [Eo _].
    destruct op; try done; cbn [isLiteral]; rewrite Eo; cbn [rbind]; apply Hrun; intros ch Hch;
      rewrite <- (Ht ch Hch); cbn [charTest]; by rewrite Eo.
  - done.
  - by apply Hrun.
  - do 2 f_equal. clear -Hin Hl Hp Hen. assert (0 <= p) by lia. clear Hp. revert p Hl H. induction m as [|m IH]; intros p Hl Hp; [done|]. cbn [span].
    assert (passes (oneTest CAnyAll) p = true) as ->.
    { unfold SreSem.passes. destruct (chAt_in p) as (ch & _ & -> & _); [lia|]. by rewrite (proj2 (Z.ltb_lt _ _)) by lia. }
    specialize (IH (p + 1)). lia.
  - destruct k; [|done..]. apply Hrun. intros ch Hch. rewrite <- (Ht ch Hch). cbn [inOp charTest]. f_equal. lia.
Qed.

(** The first of [k (q + m)], ..., [k q] that is there, and the other way
    around. *)
Fixpoint down (m : nat) (k : Z -> option Z) (q : Z) : option Z :=
  match m with O => k q | S m' => orElse_ (k (q + Z.of_nat m)) (down m' k q) end.

Fixpoint up (m : nat) (k : Z -> option Z) (q : Z) : option Z :=
  match m with O => k q | S m => orElse_ (k q) (up m k (q + 1)) end.

Lemma down_S m k q : down (S m) k q = orElse_ (down m k (q + 1)) (k q).
Proof.
  induction m as [|m IH]; [done|]. change (down (S (S m)) k q) with (orElse_ (k (q + Z.of_nat (S (S m)))) (down (S m) k q)).
  rewrite IH. cbn [down]. replace (q + 1 + Z.of_nat (S m)) with (q + Z.of_nat (S (S m))) by lia.
  by destruct (k (q + Z.of_nat (S (S m)))).
Qed.

Lemma orElse_none r : orElse_ r None = r.
Proof. by destruct r. Qed.

(** The turns a repeat may still take over single characters. *)
Definition room (hi cnt p : Z) : nat := Z.to_nat (if hi =? MaxRepeat then en - p else Z.min (hi - cnt) (en - p)).

Lemma passes_end t p : passes t p = true -> p < en.
Proof. unfold SreSem.passes. intros [H%Z.ltb_lt _]%andb_true_iff. done. Qed.

Lemma room_next hi cnt p : canMore cnt hi = true -> p < en -> room hi cnt p = S (room hi (cnt + 1) (p + 1)).
Proof. unfold canMore, room. intros H Hp. destruct (Z.eqb_spec hi MaxRepeat); [lia|]. rewrite orb_false_r in H. lia. Qed.

Lemma no_room hi cnt p : canMore cnt hi = false -> room hi cnt p = 0%nat.
Proof. unfold canMore, room. intros [H1%Z.ltb_ge H2]%orb_false_iff. rewrite H2. lia. Qed.

Lemma last_next (p : Z) : bool_decide (Some p <> Some (p + 1)) = true.
Proof. apply bool_decide_eq_true. intros [= H]. lia. Qed.

Lemma denChar_eq c k p : denChar c k p = if passes (oneTest c) p then k (p + 1) else None.
Proof. done. Qed.

(** A repeat of a character, after the mandatory turns. *)
Lemma turns_char greedy c lo hi k n : forall cnt last p, lo <= cnt -> bool_decide (last <> Some p) = true ->
  (Z.to_nat (en - p) < n)%nat ->
  turns n greedy (denChar c) lo hi cnt last k p =
    (if greedy then down else up) (span (passes (oneTest c)) (room hi cnt p) p) k p.
Proof.
  induction n as [|n IH]; intros cnt last p Hc Hl Hn; [lia|]. cbn [turns]. rewrite (proj2 (Z.ltb_ge _ _)) by lia. rewrite Hl, andb_true_r.
  destruct (canMore cnt hi) eqn:Em.
  - rewrite !denChar_eq. destruct (passes (oneTest c) p) eqn:Ep.
    + pose proof (passes_end _ _ Ep). rewrite (room_next hi cnt p Em) by done. cbn [span]. rewrite Ep.
      rewrite IH by (apply last_next || lia). destruct greedy; [by rewrite down_S|done].
    + assert (span (passes (oneTest c)) (room hi cnt p) p = 0%nat) as -> by (destruct (room hi cnt p); cbn [span]; by rewrite ?Ep).
      destruct greedy; cbn; [done|by rewrite orElse_none].
  - rewrite (no_room hi cnt p Em). cbn [span]. destruct greedy; cbn; [done|by rewrite orElse_none].
Qed.

Lemma turns_first greedy c lo hi last k n m : forall cnt p, cnt + Z.of_nat m = lo -> (m <= n)%nat ->
  turns n greedy (denChar c) lo hi cnt last k p =
    if decide (span (passes (oneTest c)) m p = m) then turns (n - m) greedy (denChar c) lo hi lo last k (p + Z.of_nat m) else None.
Proof.
  revert n. induction m as [|m IH]; intros n cnt p Hc Hn.
  - rewrite decide_True by done. rewrite Z.add_0_r, Nat.sub_0_r. f_equal. lia.
  - destruct n as [|n]; [lia|]. cbn [turns]. rewrite (proj2 (Z.ltb_lt _ _)) by lia. rewrite !denChar_eq. cbn [span].
    destruct (passes (oneTest c) p); [|by rewrite decide_False]. rewrite IH by lia.
    destruct (decide (span _ m (p + 1) = m)) as [E|E].
    + rewrite decide_True by lia. cbn [Nat.sub]. f_equal. lia.
    + by rewrite decide_False by lia.
Qed.

(** Turns that are not taken back. *)
Lemma poss_char c lo hi n : forall cnt last p, lo <= cnt -> bool_decide (last <> Some p) = true -> (Z.to_nat (en - p) < n)%nat ->
  possTurns n (denChar c Some) lo hi cnt last p = Some (p + Z.of_nat (span (passes (oneTest c)) (room hi cnt p) p)).
Proof.
  induction n as [|n IH]; intros cnt last p Hc Hl Hn; [lia|]. cbn [possTurns]. rewrite (proj2 (Z.ltb_ge _ _)) by lia. rewrite Hl, andb_true_r.
  destruct (canMore cnt hi) eqn:Em.
  - rewrite !denChar_eq. destruct (passes (oneTest c) p) eqn:Ep.
    + pose proof (passes_end _ _ Ep). rewrite (room_next hi cnt p Em) by done. cbn [span]. rewrite Ep.
      rewrite IH by (apply last_next || lia). f_equal. lia.
    + destruct (room hi cnt p); cbn [span]; rewrite ?Ep; by rewrite Z.add_0_r.
  - rewrite (no_room hi cnt p Em). cbn [span]. by rewrite Z.add_0_r.
Qed.

Lemma poss_first c lo hi last n m : forall cnt p, cnt + Z.of_nat m = lo -> (m <= n)%nat ->
  possTurns n (denChar c Some) lo hi cnt last p =
    if decide (span (passes (oneTest c)) m p = m) then possTurns (n - m) (denChar c Some) lo hi lo last (p + Z.of_nat m) else None.
Proof.
  revert n. induction m as [|m IH]; intros n cnt p Hc Hn.
  - rewrite decide_True by done. rewrite Z.add_0_r, Nat.sub_0_r. f_equal. lia.
  - destruct n as [|n]; [lia|]. cbn [possTurns]. rewrite (proj2 (Z.ltb_lt _ _)) by lia. rewrite !denChar_eq. cbn [span].
    destruct (passes (oneTest c) p); [|by rewrite decide_False]. rewrite IH by lia.
    destruct (decide (span _ m (p + 1) = m)) as [E|E].
    + rewrite decide_True by lia. cbn [Nat.sub]. f_equal. lia.
    + by rewrite decide_False by lia.
Qed.

(** The longest run [count] finds, split at the mandatory turns. *)
Lemma span_limit t lo hi p : wfCounts lo hi = true -> 0 <= p <= en -> (forall q, t q = true -> q < en) ->
  span t (limit hi p) p =
    if decide (span t (Z.to_nat lo) p = Z.to_nat lo) then (Z.to_nat lo + span t (room hi lo (p + lo)) (p + lo))%nat
    else span t (Z.to_nat lo) p.
Proof.
  intros Hw Hp Ht. unfold wfCounts in Hw. rewrite !andb_true_iff, !Z.leb_le, Z.ltb_lt in Hw.
  assert (forall m q, span t m q <= Z.to_nat (en - q))%nat as Hs.
  { induction m as [|m IH]; intros q; simpl; [lia|]. destruct (t q) eqn:E; [|lia]. apply Ht in E. specialize (IH (q + 1)). lia. }
  assert (forall m q, (Z.to_nat (en - q) <= m)%nat -> span t m q = span t (Z.to_nat (en - q)) q) as Hcap.
  { intros m q Hm. replace m with (Z.to_nat (en - q) + (m - Z.to_nat (en - q)))%nat by lia. rewrite span_add. case_decide as E; [|done].
    rewrite E. assert (span t (m - Z.to_nat (en - q)) (q + Z.of_nat (Z.to_nat (en - q))) = 0%nat) as ->; [|lia].
    destruct (m - _)%nat; [done|]. cbn [span]. destruct (t _) eqn:E'; [|done]. apply Ht in E'.
    pose proof (Hs (Z.to_nat (en - q)) q). destruct (Z.le_gt_cases q en); [lia|].
    replace (Z.to_nat (en - q)) with 0%nat in * by lia. lia. }
  destruct (Z.le_gt_cases (p + lo) en) as [Hle|Hgt].
  - assert (limit hi p = Z.to_nat lo + room hi lo (p + lo))%nat as ->.
    { unfold limit, room. destruct (Z.eqb_spec hi MaxRepeat); cbn; [lia|]. destruct (Z.ltb_spec hi (en - p)); lia. }
    rewrite span_add. by rewrite Z2Nat.id by lia.
  - rewrite decide_False.
    + rewrite (Hcap (limit hi p) p), (Hcap (Z.to_nat lo) p); [done|lia|]. unfold limit.
      destruct (Z.eqb_spec hi MaxRepeat); cbn; [lia|]. destruct (Z.ltb_spec hi (en - p)); lia.
    + intros E. pose proof (Hs (Z.to_nat lo) p). lia.
Qed.

(** ** REPEAT_ONE, MIN_REPEAT_ONE and POSSESSIVE_REPEAT_ONE *)

Definition tailLiteral (j : Z) (lit : option Z) : Prop :=
  match lit with
  | Some c => exists w, at_ code j = Ret (word OpLiteral) /\ at_ code (j + 1) = Ret w /\ c = int32 w
  | None => True
  end.

Lemma literal_none I top B lo j k c s p : runs I top B lo j k -> tailLiteral j (Some c) -> good s -> I (repeat s) (nodes s) ->
  (B <= length (nodes s))%nat -> 0 <= lo -> lo <= p <= en -> passes (fun ch => ch =? c) p = false -> k p = None.
Proof.
  intros Hr (w & E & E' & ->) Hs HI HB Hlo Hp Ht. eapply (runs_none I top B lo j k s p); try done. intros rec n.
  cbn [Sre.loop]. rewrite E. cbn [rbind]. rewrite opOf_word. cbn [oneChar isLiteral].
  rewrite (noChar_spec s p _ (fun ch => ch =? int32 w)); [|done|lia|].
  - cbn [rbind]. by rewrite Ht.
  - intros ch _. cbn [charTest]. rewrite E'. done.
Qed.

Lemma backOff_step I top B lo j k v lit minc s p cnt r : stable I -> 0 <= lo -> runs I top B lo j k -> savedOk v -> tailLiteral j lit ->
  good s -> I (repeat s) (nodes s) -> (B <= length (nodes s))%nat -> lo <= p <= en -> minc <= cnt ->
  (forall s', ext s s' -> yields (fun f n => backOff input (match_ f) n v lit s' j (p - 1) (cnt - 1) minc top) s' B r) ->
  yields (fun f n => backOff input (match_ f) n v lit s j p cnt minc top) s B (orElse_ (k p) r).
Proof.
  intros HS Hlo Hr Hv Hlit Hs HI HB Hp Hc Hnext.
  set (miss := match lit with Some c => negb (passes (fun ch => ch =? c) p) | None => false end).
  assert ((match lit with Some c => noChar input s p (fun ch => Ret (ch =? c)) | None => Ret false end) = Ret miss) as Emiss.
  { unfold miss. destruct lit as [c|]; [|done]. apply noChar_spec; [done|lia|done]. }
  destruct miss eqn:Em.
  - assert (k p = None) as ->.
    { unfold miss in Em. destruct lit as [c|]; [|done]. apply negb_true_iff in Em. by eapply literal_none. }
    eapply yields_S; [|by apply Hnext, ext_refl]. intros f n. cbn [backOff].
    rewrite (proj2 (Z.ltb_ge _ _)) by lia. by rewrite Emiss.
  - eapply yields_S; [|apply yields_orElse; [done|by apply (runs_match I top B lo j k s p)|]].
    + intros f n. cbn [backOff]. rewrite (proj2 (Z.ltb_ge _ _)) by lia. rewrite Emiss. cbn [rbind]. reflexivity.
    + intros s' He. cbv beta. assert (ext s' (restore (inRepeat s') v s')) as He2 by (apply restore_ext; [apply He|done]).
      eapply yields_ext; [exact He2|by eapply ext_bound|]. apply Hnext. by eapply ext_trans.
Qed.

Lemma backOff_spec I top B lo j k v lit minc : stable I -> 0 <= lo -> runs I top B lo j k -> savedOk v -> tailLiteral j lit ->
  forall m s q, good s -> I (repeat s) (nodes s) -> (B <= length (nodes s))%nat -> lo <= q -> q + Z.of_nat m <= en ->
  yields (fun f n => backOff input (match_ f) n v lit s j (q + Z.of_nat m) (minc + Z.of_nat m) minc top) s B (down m k q).
Proof.
  intros HS Hlo Hr Hv Hlit m. induction m as [|m IH]; intros s q Hs HI HB Hq Hm.
  - cbn [down]. rewrite <- (orElse_none (k q)). replace (q + Z.of_nat 0) with q by lia.
    apply (backOff_step I top B lo); try done; [lia|lia|]. intros s' He. eapply yields_S; [|apply yields_fail, He].
    intros f n. cbn [backOff]. by rewrite (proj2 (Z.ltb_lt _ _)) by lia.
  - apply (backOff_step I top B lo); try done; [lia|lia|]. intros s' He.
    replace (q + Z.of_nat (S m) - 1) with (q + Z.of_nat m) by lia.
    replace (minc + Z.of_nat (S m) - 1) with (minc + Z.of_nat m) by lia.
    apply IH; [apply He|by eapply stable_ext|by eapply ext_bound|done|lia].
Qed.

(** A SUCCESS that is not turned away. *)
Lemma success_some I top B lo j k s p : runs I top B lo j k -> at_ code j = Ret (word OpSuccess) -> good s -> I (repeat s) (nodes s) ->
  (B <= length (nodes s))%nat -> lo <= p <= en -> rejectSuccess s top p = false -> k p = Some p.
Proof.
  intros [_ H] E Hs HI HB Hp Hr. destruct (H s p Hs HI HB Hp) as (F & o & Ho & Ho'). specialize (Ho' (S F) (S F) ltac:(lia) ltac:(lia)).
  cbn [Sre.loop] in Ho'. rewrite E in Ho'. cbn in Ho'. rewrite Hr in Ho'. injection Ho' as <-.
  destruct (k p) as [e|]; [|by destruct Ho]. destruct Ho as (_ & Ho & _). simpl in Ho. by subst.
Qed.

(** The code of a repeat of a character, and its tail. *)
Record repeatCode (op : opcode) (lo hi : Z) (c : char1) (i : Z) : Prop := {
  rc_op : at_ code i = Ret (word op);
  rc_skip : at_ code (i + 1) = Ret (4 + len (encodeChar c));
  rc_lo : at_ code (i + 1 + 1) = Ret lo;
  rc_hi : at_ code (i + 1 + 2) = Ret hi;
  rc_item : codeAt code (i + 1 + 3) (encodeChar c ++ [word OpSuccess])
}.

Lemma repeat_code op lo hi c i :
  codeAt code i (word op :: (4 + len (encodeChar c)) :: lo :: hi :: encodeChar c ++ [word OpSuccess]) -> repeatCode op lo hi c i.
Proof.
  intros [E1 [E2 [E3 [E4 H]%codeAt_cons]%codeAt_cons]%codeAt_cons]%codeAt_cons. split; try done.
  - by replace (i + 1 + 2) with (i + 1 + 1 + 1) by lia.
  - by replace (i + 1 + 3) with (i + 1 + 1 + 1 + 1) by lia.
Qed.

Lemma match_one i c f : codeAt code i (encodeChar c ++ [word OpSuccess]) -> wfChar c = true -> (3 <= f)%nat -> matchesOne (match_ f) i c.
Proof. intros H Hw Hf s Hs Hp. destruct f as [|[|[|f]]]; try lia. by apply one_match. Qed.

Lemma wfCounts_spec lo hi : wfCounts lo hi = true -> 0 <= lo <= hi /\ hi <= MaxRepeat /\ lo < MaxRepeat.
Proof. unfold wfCounts. rewrite !andb_true_iff, !Z.leb_le, Z.ltb_lt. lia. Qed.

Lemma budget_first lo p : (Z.to_nat lo <= budget en lo p)%nat /\ (Z.to_nat (en - (p + Z.of_nat (Z.to_nat lo))) < budget en lo p - Z.to_nat lo)%nat.
Proof. unfold budget. lia. Qed.

(** The meaning of a repeat of a character by the length of the run. *)
Lemma den_repeatOne greedy lo hi c k p : wfCounts lo hi = true -> 0 <= p <= en ->
  let run := span (passes (oneTest c)) (limit hi p) p in
  den (PRepeatOne greedy lo hi c) k p =
    if decide (Z.to_nat lo <= run)%nat then (if greedy then down else up) (run - Z.to_nat lo)%nat k (p + lo) else None.
Proof.
  intros Hw Hp run. pose proof (wfCounts_spec _ _ Hw). unfold run. rewrite (span_limit _ lo) by (done || apply passes_end). cbn [SreSem.den].
  destruct (budget_first lo p) as [Hb1 Hb2]. rewrite (turns_first _ _ _ _ _ _ _ (Z.to_nat lo)) by lia.
  destruct (decide (span _ (Z.to_nat lo) p = Z.to_nat lo)) as [E|E].
  - rewrite decide_True by lia. rewrite turns_char by (done || lia). rewrite Z2Nat.id by lia. f_equal. lia.
  - pose proof (span_le (passes (oneTest c)) (Z.to_nat lo) p). by rewrite decide_False by lia.
Qed.

Lemma den_possessiveOne lo hi c k p : wfCounts lo hi = true -> 0 <= p <= en ->
  let run := span (passes (oneTest c)) (limit hi p) p in
  den (PPossessiveOne lo hi c) k p = if decide (Z.to_nat lo <= run)%nat then k (p + Z.of_nat run) else None.
Proof.
  intros Hw Hp run. pose proof (wfCounts_spec _ _ Hw). unfold run. rewrite (span_limit _ lo) by (done || apply passes_end). cbn [SreSem.den].
  destruct (budget_first lo p) as [Hb1 Hb2]. rewrite (poss_first _ _ _ _ _ (Z.to_nat lo)) by lia.
  destruct (decide (span _ (Z.to_nat lo) p = Z.to_nat lo)) as [E|E].
  - rewrite decide_True by lia. rewrite poss_char by (done || lia). rewrite Z2Nat.id by lia. f_equal. lia.
  - pose proof (span_le (passes (oneTest c)) (Z.to_nat lo) p). by rewrite decide_False by lia.
Qed.

Lemma run_bounds t hi p : 0 <= p <= en -> p + Z.of_nat (span t (limit hi p) p) <= en.
Proof.
  intros Hp. pose proof (span_le t (limit hi p) p). unfold limit in *.
  destruct (negb (hi =? MaxRepeat) && (hi <? en - p)) eqn:E; [|lia]. apply andb_true_iff in E as [_ E%Z.ltb_lt]. lia.
Qed.

(** Enough fuel for a repeat of a character. *)
Definition charFuel : nat := max 3 (S (Z.to_nat en)).

Lemma loop_repeatOne rec n s i p top (greedy : bool) lo hi c : repeatCode (if greedy then OpRepeatOne else OpMinRepeatOne) lo hi c i ->
  loop rec (S n) s i p top =
    (if greedy then repeatOne U input code rec n s (i + 1) p top else minRepeatOne U input code rec n s (i + 1) p top).
Proof. intros []. cbn [Sre.loop]. rewrite rc_op0. by destruct greedy. Qed.

(** The word a tail starts with. *)
Lemma tail_literal j : notInfo j -> exists w lit, at_ code j = Ret w /\
  (if w =? word OpLiteral then c <- at_ code (j + 1);; Ret (Some (int32 c)) else Ret None) = Ret lit /\ tailLiteral j lit.
Proof.
  intros (w & E & _ & Hl). exists w. destruct (Z.eqb_spec w (word OpLiteral)) as [->|Hw]; [|by exists None].
  destruct (Hl eq_refl) as [c Ec]. rewrite Ec. exists (Some (int32 c)). split_and!; [done|done|]. by exists c.
Qed.

Lemma runs_repeatOne I top B lo0 i k lo hi c : stable I -> 0 <= lo0 -> codeAt code i (encode (PRepeatOne true lo hi c)) ->
  wfCounts lo hi = true -> wfChar c = true -> runs I top B lo0 (i + len (encode (PRepeatOne true lo hi c))) k ->
  runs I top B lo0 i (den (PRepeatOne true lo hi c) k).
Proof.
  intros HS Hlo0 H Hw Hc Hk. pose proof (wfCounts_spec _ _ Hw) as Hlh. split; [by eapply not_info|]. intros s p Hs HI HB Hp.
  pose proof (repeat_code OpRepeatOne lo hi c i H) as Hrc. rewrite den_repeatOne by (done || lia). cbn zeta.
  pose proof (run_bounds (passes (oneTest c)) hi p ltac:(lia)) as Hrun. set (run := span _ _ p) in *.
  eapply yields_S; [intros; by apply (loop_repeatOne _ _ _ _ _ _ true lo hi c)|]. cbv beta.
  replace (i + len (encode (PRepeatOne true lo hi c))) with (i + 1 + (4 + len (encodeChar c))) in Hk
    by (unfold len; simpl; rewrite length_app; simpl; lia).
  set (j := i + 1 + (4 + len (encodeChar c))) in *. destruct (tail_literal j (proj1 Hk)) as (w & lit & Ew & El & Hlit).
  assert (exists F, forall f n, (F <= f)%nat -> (F <= n)%nat -> repeatOne U input code (match_ f) n s (i + 1) p top =
    if (en - p <? lo) then failed s else if Z.of_nat run <? lo then failed (setPtr s p)
    else if (w =? word OpSuccess) && (p + Z.of_nat run =? en) && negb (rejectSuccess s top (p + Z.of_nat run))
    then matched (setPtr s (p + Z.of_nat run))
    else backOff input (match_ f) n (save (inRepeat s) s) lit (setPtr s p) j (p + Z.of_nat run) (Z.of_nat run) lo top) as E.
  { exists charFuel. intros f n Hf Hn. unfold charFuel in *. destruct Hrc. unfold repeatOne. rewrite rc_lo0, rc_hi0. cbn [rbind]. rewrite (g_end s Hs).
    destruct (en - p <? lo); [done|]. rewrite (count_spec _ n s p _ c hi) by (done || lia || apply match_one; done || lia).
    fold run. cbn [rbind fst snd]. rewrite (proj2 (Z.ltb_ge (Z.of_nat run) 0)) by lia. destruct (Z.of_nat run <? lo); [done|].
    rewrite rc_skip0. cbn [rbind]. fold j. rewrite Ew. cbn [rbind]. rewrite El. cbn [setPtr end_ rbind]. rewrite (g_end s Hs).
    destruct (_ && _); [by destruct s|done]. }
  eapply yields_eq; [exact E|]. clear E. destruct (Z.ltb_spec (en - p) lo); [rewrite decide_False by lia; by apply yields_fail|].
  destruct (Z.ltb_spec (Z.of_nat run) lo).
  { rewrite decide_False by lia. eapply yields_ext; [by apply ext_ptr|done|]. apply yields_fail. by apply good_ptr. }
  rewrite decide_True by lia. destruct (_ && negb _) eqn:Es.
  - apply andb_true_iff in Es as [[Ew2%Z.eqb_eq Een%Z.eqb_eq]%andb_true_iff Er%negb_true_iff]. subst w.
    assert (k (p + Z.of_nat run) = Some (p + Z.of_nat run)) as Ek by (eapply success_some; [exact Hk|done..|lia|done]).
    assert (down (run - Z.to_nat lo) k (p + lo) = Some (p + Z.of_nat run)) as ->.
    { destruct (run - Z.to_nat lo)%nat as [|m] eqn:Em; cbn [down].
      - rewrite <- Ek. f_equal. lia.
      - replace (p + lo + Z.of_nat (S m)) with (p + Z.of_nat run) by lia. by rewrite Ek. }
    apply yields_done. simpl. split_and!; [done|done|by apply good_ptr|done|apply kept_refl].
  - eapply yields_ext; [by apply (ext_ptr s p)|done|].
    replace (p + Z.of_nat run) with (p + lo + Z.of_nat (run - Z.to_nat lo)) by lia.
    assert (Z.of_nat run = lo + Z.of_nat (run - Z.to_nat lo)) as -> by lia.
    replace (lo + Z.of_nat (run - Z.to_nat lo)) with (lo + Z.of_nat (run - Z.to_nat lo)) by done.
    apply (backOff_spec I top B lo0); try done; [by apply save_ok|by apply good_ptr|lia|lia].
Qed.

Lemma limit_one p : p < en -> limit 1 p = 1%nat.
Proof. unfold limit. intros H. destruct (Z.ltb_spec 1 (en - p)); simpl; lia. Qed.

Lemma growOne_spec I top B lo0 j k v pat c hi : stable I -> 0 <= lo0 -> runs I top B lo0 j k -> savedOk v ->
  codeAt code (pat + 3) (encodeChar c ++ [word OpSuccess]) -> wfChar c = true ->
  forall N s p cnt, (Z.to_nat (en - p) <= N)%nat -> good s -> I (repeat s) (nodes s) -> (B <= length (nodes s))%nat -> lo0 <= p <= en ->
  (hi =? MaxRepeat) || (cnt <=? hi) = true ->
  yields (fun f n => growOne U input code (match_ f) n v s pat j p cnt hi top) s B
    (up (span (passes (oneTest c)) (room hi cnt p) p) k p).
Proof.
  intros HS Hlo0 Hr Hv H Hc N. induction N as [N IH] using lt_wf_ind. intros s p cnt HN Hs HI HB Hp Hhi.
  set (t := passes (oneTest c)) in *.
  assert (up (span t (room hi cnt p) p) k p = orElse_ (k p)
    (if t p then if canMore cnt hi then up (span t (room hi (cnt + 1) (p + 1)) (p + 1)) k (p + 1) else None else None)) as ->.
  { destruct (t p) eqn:Et.
    - destruct (canMore cnt hi) eqn:Em.
      + rewrite (room_next hi cnt p Em) by by eapply passes_end. cbn [span]. by rewrite Et.
      + rewrite (no_room hi cnt p Em). cbn [span up]. by rewrite orElse_none.
    - rewrite orElse_none. destruct (room hi cnt p); cbn [span]; by rewrite ?Et. }
  eapply yields_S; [|apply yields_orElse; [done|by apply (runs_match I top B lo0 j k s p)|]].
  { intros f n. cbn [growOne]. rewrite Hhi. reflexivity. }
  intros s' He. cbv beta. set (s2 := restore (inRepeat s') v s'). assert (ext s' s2) as He2 by (apply restore_ext; [apply He|done]).
  eapply yields_ext; [exact He2|by eapply ext_bound|].
  assert (exists F, forall f n, (F <= f)%nat -> (F <= n)%nat ->
    (r <- count_ U input code (match_ f) (S n) (setPtr s2 p) (pat + 3) 1;;
     if r.2 <? 0 then Ret r else if r.2 =? 0 then failed r.1 else growOne U input code (match_ f) n v r.1 pat j (p + 1) (cnt + 1) hi top)
    = if t p then growOne U input code (match_ f) n v (setPtr s2 p) pat j (p + 1) (cnt + 1) hi top else failed (setPtr s2 p)) as E.
  { exists charFuel. intros f n Hf Hn. unfold charFuel in *.
    rewrite (count_spec _ (S n) s2 p _ c 1) by (apply He2 || done || lia || (apply match_one; done || lia)). cbn [rbind fst snd]. fold t.
    destruct (t p) eqn:Et.
    - rewrite limit_one by by eapply passes_end. cbn [span]. by rewrite Et.
    - assert (span t (limit 1 p) p = 0%nat) as -> by (destruct (limit 1 p); cbn [span]; by rewrite ?Et). done. }
  eapply yields_eq; [exact E|]. clear E. assert (ext s2 (setPtr s2 p)) as He3 by (apply ext_ptr, He2).
  assert (ext s (setPtr s2 p)) as He4 by (eapply ext_trans; [exact He|by eapply ext_trans]).
  eapply yields_ext; [exact He3|eapply ext_bound; [exact He2|by eapply ext_bound]|].
  destruct (t p) eqn:Et; [|apply yields_fail, He3]. pose proof (passes_end _ _ Et). destruct (canMore cnt hi) eqn:Em.
  - apply (IH (Z.to_nat (en - (p + 1)))); try done; [lia|apply He3|by eapply stable_ext|by eapply ext_bound|lia|].
    unfold canMore in Em. apply orb_true_iff in Em as [Em%Z.ltb_lt| -> ]; [|done]. apply orb_true_iff. right. apply Z.leb_le. lia.
  - unfold canMore in Em. apply orb_false_iff in Em as [Em%Z.ltb_ge Em2].
    eapply yields_S; [|apply yields_fail, He3]. intros f n. cbn [growOne]. rewrite Em2. by rewrite (proj2 (Z.leb_gt _ _)) by lia.
Qed.

Lemma runs_minRepeatOne I top B lo0 i k lo hi c : stable I -> 0 <= lo0 -> codeAt code i (encode (PRepeatOne false lo hi c)) ->
  wfCounts lo hi = true -> wfChar c = true -> runs I top B lo0 (i + len (encode (PRepeatOne false lo hi c))) k ->
  runs I top B lo0 i (den (PRepeatOne false lo hi c) k).
Proof.
  intros HS Hlo0 H Hw Hc Hk. pose proof (wfCounts_spec _ _ Hw) as Hlh. split; [by eapply not_info|]. intros s p Hs HI HB Hp.
  pose proof (repeat_code OpMinRepeatOne lo hi c i H) as Hrc. cbn [SreSem.den]. set (t := passes (oneTest c)).
  destruct (budget_first lo p) as [Hb1 Hb2]. rewrite (turns_first _ _ _ _ _ _ _ (Z.to_nat lo)) by lia. fold t.
  eapply yields_S; [intros; by apply (loop_repeatOne _ _ _ _ _ _ false lo hi c)|]. cbv beta.
  replace (i + len (encode (PRepeatOne false lo hi c))) with (i + 1 + (4 + len (encodeChar c))) in Hk
    by (unfold len; simpl; rewrite length_app; simpl; lia).
  set (j := i + 1 + (4 + len (encodeChar c))) in *. destruct Hk as [Hj Hk]. pose proof Hj as (w & Ew & _).
  assert (forall m q, span t m q <= Z.to_nat (en - q))%nat as Hs'.
  { induction m as [|m IH]; intros q; simpl; [lia|]. destruct (t q) eqn:E; [|lia]. apply passes_end in E. specialize (IH (q + 1)). lia. }
  pose proof (Hs' (Z.to_nat lo) p) as Hsp.
  assert (lo <= en - p -> span t (limit lo p) p = span t (Z.to_nat lo) p) as Hlim.
  { intros Hle. f_equal. unfold limit. rewrite (proj2 (Z.eqb_neq _ _)) by lia. cbn.
    destruct (Z.ltb_spec lo (en - p)); lia. }
  assert (exists F, forall f n, (F <= f)%nat -> (F <= n)%nat -> minRepeatOne U input code (match_ f) n s (i + 1) p top =
    if decide (span t (Z.to_nat lo) p = Z.to_nat lo)
    then if (w =? word OpSuccess) && negb (rejectSuccess s top (p + lo)) then matched (setPtr s (p + lo))
         else growOne U input code (match_ f) n (save (inRepeat s) s) (setPtr s p) (i + 1) j (p + lo) lo hi top
    else if en - p <? lo then failed s else failed (setPtr s p)) as E.
  { exists charFuel. intros f n Hf Hn. unfold charFuel in *. destruct Hrc. unfold minRepeatOne. rewrite rc_lo0, rc_hi0. cbn [rbind]. rewrite (g_end s Hs).
    destruct (Z.ltb_spec (en - p) lo) as [Hlt|Hle]; [by rewrite decide_False by lia|].
    assert ((if lo =? 0 then Ret (setPtr s p, 0) else count_ U input code (match_ f) n (setPtr s p) (i + 1 + 3) lo)
      = Ret (setPtr s p, Z.of_nat (span t (Z.to_nat lo) p))) as ->.
    { destruct (Z.eqb_spec lo 0) as [->|]; [done|].
      rewrite (count_spec _ n s p _ c lo) by (done || lia || apply match_one; done || lia). fold t. by rewrite Hlim by lia. }
    cbn [rbind fst snd]. rewrite (proj2 (Z.ltb_ge _ 0)) by lia. destruct (decide _) as [E|E].
    - rewrite E, Z2Nat.id, (proj2 (Z.ltb_ge lo lo)) by lia. rewrite rc_skip0. cbn [rbind]. fold j. rewrite Ew. cbn [rbind].
      destruct (_ && _); [by destruct s|done].
    - pose proof (span_le t (Z.to_nat lo) p). by rewrite (proj2 (Z.ltb_lt _ _)) by lia. }
  eapply yields_eq; [exact E|]. clear E. destruct (decide _) as [E|E].
  - rewrite turns_char by (done || lia). rewrite Z2Nat.id by lia. fold t. destruct (_ && negb _) eqn:Es.
    + apply andb_true_iff in Es as [->%Z.eqb_eq Er%negb_true_iff].
      assert (k (p + lo) = Some (p + lo)) as Ek by (eapply success_some; [by split|done..|lia|done]).
      assert (forall m, up m k (p + lo) = Some (p + lo)) as -> by (intros [|m]; cbn [up]; by rewrite Ek).
      apply yields_done. simpl. split_and!; [done|done|by apply good_ptr|done|apply kept_refl].
    + eapply yields_ext; [by apply (ext_ptr s p)|done|].
      apply (growOne_spec I top B lo0 j k _ (i + 1) c hi) with (N := Z.to_nat (en - (p + lo))); try done;
        [by apply save_ok|apply Hrc|by apply good_ptr|lia|]. apply orb_true_iff. right. apply Z.leb_le. lia.
  - destruct (en - p <? lo); [by apply yields_fail|]. eapply yields_ext; [by apply (ext_ptr s p)|done|]. by apply yields_fail, good_ptr.
Qed.

Lemma runs_possessiveOne I top B lo0 i k lo hi c : stable I -> 0 <= lo0 -> codeAt code i (encode (PPossessiveOne lo hi c)) ->
  wfCounts lo hi = true -> wfChar c = true -> runs I top B lo0 (i + len (encode (PPossessiveOne lo hi c))) k ->
  runs I top B lo0 i (den (PPossessiveOne lo hi c) k).
Proof.
  intros HS Hlo0 H Hw Hc Hk. pose proof (wfCounts_spec _ _ Hw) as Hlh. split; [by eapply not_info|]. intros s p Hs HI HB Hp.
  pose proof (repeat_code OpPossessiveRepeatOne lo hi c i H) as Hrc. rewrite den_possessiveOne by (done || lia). cbn zeta.
  pose proof (run_bounds (passes (oneTest c)) hi p ltac:(lia)) as Hrun. set (run := span _ _ p) in *.
  replace (i + len (encode (PPossessiveOne lo hi c))) with (i + 1 + (4 + len (encodeChar c))) in Hk
    by (unfold len; simpl; rewrite length_app; simpl; lia).
  set (j := i + 1 + (4 + len (encodeChar c))) in *. destruct Hk as [Hj Hk]. pose proof Hj as (w & Ew & _).
  assert (exists F, forall f n, (F <= f)%nat -> (F <= n)%nat -> loop (match_ f) (S n) s i p top =
    if en <? p + lo then failed s else if Z.of_nat run <? lo then failed (setPtr s p)
    else if (w =? word OpSuccess) && (p + Z.of_nat run =? en) && negb (rejectSuccess s top (p + Z.of_nat run))
    then matched (setPtr s (p + Z.of_nat run))
    else loop (match_ f) n (setPtr s p) j (p + Z.of_nat run) top) as E.
  { exists charFuel. intros f n Hf Hn. unfold charFuel in *. destruct Hrc. cbn [Sre.loop]. rewrite rc_op0. cbn [rbind]. rewrite opOf_word.
    cbn [oneChar isLiteral]. rewrite rc_lo0, rc_hi0. cbn [rbind]. rewrite (g_end s Hs). destruct (en <? p + lo); [done|].
    rewrite (count_spec _ n s p _ c hi) by (done || lia || apply match_one; done || lia). fold run. cbn [rbind fst snd].
    rewrite (proj2 (Z.ltb_ge (Z.of_nat run) 0)) by lia. destruct (Z.of_nat run <? lo); [done|]. rewrite rc_skip0. cbn [rbind]. fold j.
    rewrite Ew. cbn [rbind setPtr end_]. rewrite (g_end s Hs). destruct (_ && _); [by destruct s|done]. }
  destruct (Z.ltb_spec en (p + lo)).
  { rewrite decide_False by lia. destruct E as [F E]. exists (S F), (s, 0). split; [done|]. intros f [|n] Hf Hn; [lia|]. by rewrite E by lia. }
  destruct (Z.ltb_spec (Z.of_nat run) lo).
  { rewrite decide_False by lia. destruct E as [F E]. exists (S F), (setPtr s p, 0). split; [by split; [|apply ext_ptr]|].
    intros f [|n] Hf Hn; [lia|]. by rewrite E by lia. }
  rewrite decide_True by lia. destruct (_ && negb _) eqn:Es.
  - apply andb_true_iff in Es as [[->%Z.eqb_eq Een%Z.eqb_eq]%andb_true_iff Er%negb_true_iff].
    rewrite (success_some I top B lo0 j k s (p + Z.of_nat run)) by (done || lia).
    destruct E as [F E]. exists (S F), (setPtr s (p + Z.of_nat run), 1). split.
    + simpl. split_and!; [done|done|by apply good_ptr|done|apply kept_refl].
    + intros f [|n] Hf Hn; [lia|]. by rewrite E by lia.
  - eapply yields_ext; [by apply (ext_ptr s p)|done|].
    destruct (Hk (setPtr s p) (p + Z.of_nat run)) as (F2 & o & Ho & E2); [by apply good_ptr|done|done|lia|].
    destruct E as [F E]. exists (S (max F F2)), o. split; [done|]. intros f [|n] Hf Hn; [lia|]. rewrite E by lia. apply E2; lia.
Qed.

(** ** Sub-matches that are not taken back *)

(** Where a pattern goes on. *)
Definition goesOn (m : (Z -> option Z) -> Z -> option Z) : Prop :=
  forall k p e, 0 <= p <= en -> m k p = Some e -> exists q, p <= q <= en /\ k q = Some e.

Lemma turns_goOn n greedy body lo hi : goesOn body -> forall cnt last, goesOn (turns n greedy body lo hi cnt last).
Proof.
  intros Hb. induction n as [|n IH]; intros cnt last k p e Hp E; [done|]. cbn [turns] in E.
  assert (forall last', body (turns n greedy body lo hi (cnt + 1) last' k) p = Some e -> exists q, p <= q <= en /\ k q = Some e) as Hbody.
  { intros last' (q & Hq & E')%Hb; [|done]. apply IH in E' as (q' & Hq' & E'); [|lia]. exists q'. split; [lia|done]. }
  destruct (cnt <? lo); [by apply (Hbody last)|].
  assert (forall e', k p = Some e' -> Some e' = Some e -> exists q, p <= q <= en /\ k q = Some e) as Hk.
  { intros e' Ek [= ->]. exists p. split; [lia|done]. }
  set (more := if _ && _ then _ else None) in E.
  assert (more = Some e -> exists q, p <= q <= en /\ k q = Some e) as Hmore by (unfold more; destruct (_ && _); [apply Hbody|done]).
  destruct greedy, more as [m|], (k p) as [e'|] eqn:Ek; cbn [orElse_] in E; solve [auto|by eapply Hk|done].
Qed.

Lemma poss_goOn n body lo hi : goesOn body -> forall cnt last p e, 0 <= p <= en -> possTurns n (body Some) lo hi cnt last p = Some e -> p <= e <= en.
Proof.
  intros Hb. induction n as [|n IH]; intros cnt last p e Hp E; [done|]. cbn [possTurns] in E.
  assert (forall q, body Some p = Some q -> p <= q <= en) as Hbody.
  { intros q (q' & Hq & E')%Hb; [|done]. by simplify_eq. }
  destruct (cnt <? lo); [|destruct (_ && _); [|simplify_eq; lia]]; (destruct (body Some p) as [q|] eqn:Eb; [|simplify_eq; lia]);
    specialize (Hbody q eq_refl); apply IH in E; lia.
Qed.

Lemma denChar_goOn c : goesOn (denChar c).
Proof.
  intros k p e Hp E. unfold SreSem.denChar in E. destruct (passes _ p) eqn:Et; [|done]. apply passes_end in Et.
  exists (p + 1). split; [lia|done].
Qed.

Lemma den_goesOn a : wfPat groups a = true -> goesOn (den a).
Proof.
  induction a as [ | |c|a b IHa IHb|l IH|i|w|greedy lo hi a IH|greedy lo hi c|lo hi a IH|lo hi c|a IH|neg back a IH] using pat_induction; intros Hw k p e Hp E;
    cbn [SreSem.den wfPat] in *; try (exists p; split; [lia|done]); try done.
  - by apply (denChar_goOn c).
  - apply andb_true_iff in Hw as [Ha Hb]. apply (IHa Ha) in E as (q & Hq & E); [|done]. apply (IHb Hb) in E as (q' & Hq' & E); [|lia].
    exists q'. split; [lia|done].
  - induction IH as [|a l Ha _ IH]; [done|]. simpl in Hw, E. apply andb_true_iff in Hw as [Hwa Hw].
    destruct (den a k p) as [e'|] eqn:Ea; simplify_eq/=; [by apply (Ha Hwa)|by apply IH].
  - destruct (positionTest _ _ _ _ _); [|done]. exists p. split; [lia|done].
  - apply andb_true_iff in Hw as [_ Ha]. eapply turns_goOn in E; [exact E|by apply IH|done].
  - eapply turns_goOn in E; [exact E|apply denChar_goOn|done].
  - apply andb_true_iff in Hw as [_ Ha]. destruct (possTurns _ _ _ _ _ _ _) as [q|] eqn:Eq; [|done].
    apply poss_goOn in Eq; [|by apply IH|done]. by exists q.
  - destruct (possTurns _ _ _ _ _ _ _) as [q|] eqn:Eq; [|done]. apply poss_goOn in Eq; [|apply denChar_goOn|done]. by exists q.
  - destruct (den a Some p) as [q|] eqn:Eq; [|done]. apply (IH Hw) in Eq as (q' & Hq & [= ->]); [|done]. by exists q.
  - destruct (Bool.eqb _ _); [done|]. exists p. split; [lia|done].
Qed.

Lemma stable_True : stable (fun _ _ => True).
Proof. exists 0%nat. split; [intros; lia|done]. Qed.

Lemma setPtr_id s : setPtr s (ptr s) = s.
Proof. by destruct s. Qed.

(** A pattern in front of a SUCCESS, matched on its own from [p]. *)
Lemma runs_sub a i s p : compiles a -> codeAt code i (encode a ++ [word OpSuccess]) -> wfPat groups a = true -> good s -> 0 <= p <= en ->
  yields (fun f n => match_ f (setPtr s p) i false) s (length (nodes s)) (den a Some p).
Proof.
  intros Ha H Hw Hs Hp. apply codeAt_app in H as [H1 H2]. eapply (runs_match (fun _ _ => True) false (length (nodes s)) 0); try done.
  apply Ha; [apply stable_True|done..|]. eapply runs_success; exact H2.
Qed.

(** Its end is behind the state it began in. *)
Lemma ends_sub s r o : good s -> ends s (length (nodes s)) r o -> ext s o.1 /\ (forall e, r = Some e -> ptr o.1 = e /\ o.2 = 1) /\ (r = None -> o.2 = 0).
Proof.
  intros Hs Ho. destruct r as [e|]; simpl in Ho.
  - destruct Ho as (Hv & Hp & Hg & Hr & [Ht _]). split_and!; [|by intros e' [= <-]|done]. split; [done|done|].
    rewrite firstn_all in Ht. rewrite <- Ht. apply prefix_take.
  - destruct Ho as [Hv He]. by split_and!.
Qed.

Lemma yields_sub m1 m2 s B r1 r2 : good s -> (B <= length (nodes s))%nat -> yields m1 s (length (nodes s)) r1 ->
  (forall s', ext s s' -> (forall e, r1 = Some e -> ptr s' = e) ->
    yields (fun f n => m2 f n (s', match r1 with Some _ => 1 | None => 0 end)) s' B r2) ->
  yields (fun f n => rbind (m1 f n) (m2 f n)) s B r2.
Proof.
  intros Hs HB (F & [s' v] & Ho & H) H2. destruct (ends_sub s r1 _ Hs Ho) as (He & Hsome & Hnone). simpl in *.
  assert (v = match r1 with Some _ => 1 | None => 0 end) as -> by (destruct r1 as [e|]; [by destruct (Hsome e eq_refl)|by apply Hnone]).
  destruct (H2 s' He) as (F2 & o & Ho2 & H'); [by intros e []%Hsome|].
  exists (max F F2), o. split; [by eapply ends_ext|]. intros f n Hf Hn. rewrite (H f n) by lia. cbn [rbind]. apply H'; lia.
Qed.

Lemma runs_after I top B lo i k s s' p : stable I -> runs I top B lo i k -> good s -> I (repeat s) (nodes s) -> (B <= length (nodes s))%nat ->
  lo <= p <= en -> ext s s' -> yields (fun f n => loop (match_ f) n s' i p top) s' B (k p).
Proof. intros HS [_ H] Hs HI HB Hp He. apply H; [apply He|by eapply stable_ext|by eapply ext_bound|done]. Qed.

Lemma runs_atomic a : compiles a -> compiles (PAtomic a).
Proof.
  intros Ha I top B lo i k HS Hlo H Hw Hk. cbn [encode wfPat] in *. split; [by eapply not_info|]. intros s p Hs HI HB Hp.
  apply codeAt_cons in H as [E1 [E2 H]%codeAt_cons].
  replace (i + len (word OpAtomicGroup :: 2 + len (encode a) :: encode a ++ [word OpSuccess])) with (i + 1 + (2 + len (encode a))) in Hk
    by (unfold len; simpl; rewrite length_app; simpl; lia).
  eapply yields_S.
  { intros f n. cbn [Sre.loop]. rewrite E1. cbn [rbind]. rewrite opOf_word. cbn [oneChar isLiteral]. rewrite E2. reflexivity. }
  cbv beta. eapply yields_sub; [done|done|by apply (runs_sub a (i + 1 + 1) s p); [..|lia]|]. intros s' He Hp'. cbn [SreSem.den fst snd].
  destruct (den a Some p) as [q|] eqn:Eq; cbn.
  - rewrite (Hp' q eq_refl). apply (den_goesOn a Hw) in Eq as (q' & Hq & [= ->]); [|lia].
    eapply (runs_after I top B lo _ k s); try done; lia.
  - eapply yields_ext; [apply (ext_ptr s' p), He|by eapply ext_bound|]. apply yields_fail, good_ptr, He.
Qed.

Lemma runs_look neg back a : compiles a -> compiles (PLook neg back a).
Proof.
  intros Ha I top B lo i k HS Hlo H Hw Hk. cbn [encode wfPat] in *. apply andb_true_iff in Hw as [Hback%Z.leb_le Hw].
  split; [destruct neg; by eapply not_info|]. intros s p Hs HI HB Hp.
  apply codeAt_cons in H as [E1 [E2 [E3 H]%codeAt_cons]%codeAt_cons].
  replace (i + len _) with (i + 1 + (3 + len (encode a))) in Hk by (unfold len; simpl; rewrite length_app; simpl; lia).
  replace (i + 1 + 1 + 1) with (i + 1 + 2) in H by lia. cbn [SreSem.den].
  destruct neg.
  - eapply yields_S.
    { intros f n. cbn [Sre.loop]. rewrite E1. cbn [rbind]. rewrite opOf_word. cbn [oneChar isLiteral]. rewrite E3, E2. cbn [rbind]. reflexivity. }
    cbv beta. destruct (Z.ltb_spec p back); [by apply Hk|].
    eapply yields_sub; [done|done|apply (runs_sub a (i + 1 + 2) s (p - back)); (done || lia)|]. intros s' He _. cbn [fst snd].
    destruct (den a Some (p - back)); cbn.
    + apply yields_fail, He.
    + assert (ext s' (restore (inRepeat s') (save (inRepeat s) s) s')) as He2 by (apply restore_ext; [apply He|by apply save_ok]).
      eapply yields_ext; [exact He2|by eapply ext_bound|]. eapply (runs_after I top B lo _ k s); try done. by eapply ext_trans.
  - eapply yields_S.
    { intros f n. cbn [Sre.loop]. rewrite E1. cbn [rbind]. rewrite opOf_word. cbn [oneChar isLiteral]. rewrite E3, E2. cbn [rbind]. reflexivity. }
    cbv beta. destruct (Z.ltb_spec p back); [by apply yields_fail|].
    eapply yields_sub; [done|done|apply (runs_sub a (i + 1 + 2) s (p - back)); (done || lia)|]. intros s' He _. cbn [fst snd].
    destruct (den a Some (p - back)); cbn; [|by apply yields_done; split; [|apply ext_refl, He]].
    by eapply (runs_after I top B lo _ k s).
Qed.

(** *** POSSESSIVE_REPEAT *)

(** [m] turns in a row. *)
Fixpoint again (m : nat) (body : Z -> option Z) (p : Z) : option Z :=
  match m with O => Some p | S m => match body p with Some q => again m body q | None => None end end.

Lemma poss_again n body lo hi last m : forall cnt p, cnt + Z.of_nat m = lo -> (m <= n)%nat ->
  possTurns n body lo hi cnt last p = match again m body p with Some q => possTurns (n - m) body lo hi lo last q | None => None end.
Proof.
  revert n. induction m as [|m IH]; intros n cnt p Hc Hn; cbn [again].
  - rewrite Nat.sub_0_r. f_equal. lia.
  - destruct n as [|n]; [lia|]. cbn [possTurns]. rewrite (proj2 (Z.ltb_lt _ _)) by lia. destruct (body p) as [q|]; [|done].
    by apply IH; lia.
Qed.

Section Possess.
Context (a : pat) (Ha : compiles a) (Hw : wfPat groups a = true) (pat_ : Z) (H : codeAt code (pat_ + 3) (encode a ++ [word OpSuccess])).
Notation body := (den a Some).

Lemma body_bounds p q : 0 <= p <= en -> body p = Some q -> p <= q <= en.
Proof. intros Hp (q' & Hq & [= ->])%(den_goesOn a Hw); done. Qed.

Lemma again_bounds m : forall p q, 0 <= p <= en -> again m body p = Some q -> p <= q <= en.
Proof.
  induction m as [|m IH]; intros p q Hp E; cbn [again] in E; [simplify_eq; lia|]. destruct (body p) as [q'|] eqn:Eb; [|done].
  apply body_bounds in Eb; [|done]. apply IH in E; lia.
Qed.

Lemma possess_first p0 lo m : forall s cnt, cnt + Z.of_nat m = lo -> good s -> 0 <= ptr s <= en ->
  yields (fun f n => possessFirst (match_ f) n s pat_ p0 cnt lo) s (length (nodes s)) (again m body (ptr s)).
Proof.
  induction m as [|m IH]; intros s cnt Hc Hs Hp.
  - eapply yields_S; [|apply yields_done with (o := (s, 1)); split_and!; try done; apply kept_refl]. intros f n. cbn [possessFirst].
    by rewrite (proj2 (Z.ltb_ge _ _)) by lia.
  - eapply yields_S.
    { intros f n. cbn [possessFirst]. rewrite (proj2 (Z.ltb_lt _ _)) by lia. rewrite <- (setPtr_id s) at 1. reflexivity. }
    cbv beta. eapply yields_sub; [done|done|by apply (runs_sub a (pat_ + 3) s (ptr s))|]. intros s' He Hp'. cbn [again fst snd].
    destruct (body (ptr s)) as [q|] eqn:Eb.
    + rewrite <- (Hp' q eq_refl). apply body_bounds in Eb; [|done]. rewrite <- (Hp' q eq_refl) in Eb.
      destruct (IH s' (cnt + 1)) as (F & o & Ho & E); [lia|apply He|lia|]. exists F, o. split; [|exact E].
      destruct (again m body (ptr s')) as [e|]; [|exact Ho]. destruct Ho as (? & ? & ? & ? & Hk). split_and!; try done.
      split; [|apply Hk]. destruct Hk as [Hk _]. pose proof (prefix_length _ _ (e_nodes _ _ He)) as Hl.
      rewrite <- (Nat.min_l (length (nodes s)) (length (nodes s'))) by done. rewrite <- !take_take, Hk. by rewrite firstn_all.
    + apply yields_done. split; [done|]. simpl. apply ext_ptr, He.
Qed.

Lemma possess_more hi lo N : forall s cnt last lst, good s -> 0 <= ptr s <= en -> lo <= cnt -> lst = default (-1) last ->
  2 * (en - ptr s) + (if decide (last = Some (ptr s)) then 0 else 1) < Z.of_nat N -> (forall q, last = Some q -> 0 <= q) ->
  exists F s' e, possTurns N body lo hi cnt last (ptr s) = Some e /\ ext s s' /\ ptr s' = e /\
    forall f n, (F <= f)%nat -> (F <= n)%nat -> possessMore (match_ f) n s pat_ cnt hi lst = Ret (s', 1).
Proof.
  induction N as [|N IH]; intros s cnt last lst Hs Hp Hc -> Hn Hpos; [destruct (decide _); lia|].
  cbn [possTurns]. rewrite (proj2 (Z.ltb_ge _ _)) by lia.
  assert (negb (ptr s =? default (-1) last) = bool_decide (last <> Some (ptr s))) as Elast.
  { destruct last as [q|]; cbn.
    - destruct (Z.eqb_spec (ptr s) q) as [->|]; symmetry; [by apply bool_decide_eq_false; intros []|apply bool_decide_eq_true; congruence].
    - rewrite (proj2 (Z.eqb_neq _ _)) by lia. done. }
  destruct (canMore cnt hi && bool_decide (last <> Some (ptr s))) eqn:Em.
  - destruct (runs_sub a (pat_ + 3) s (ptr s) Ha H Hw Hs Hp) as (F & [s1 v] & Ho & E).
    destruct (ends_sub s _ _ Hs Ho) as (He & Hsome & Hnone). simpl in *. rewrite (setPtr_id s) in E.
    apply andb_true_iff in Em as [Em Em']. pose proof Em' as Hne%bool_decide_eq_true. rewrite decide_False in Hn by done.
    destruct (body (ptr s)) as [q|] eqn:Eb.
    + destruct (Hsome q eq_refl) as [<- ->]. apply body_bounds in Eb; [|done].
      destruct (IH s1 (cnt + 1) (Some (ptr s)) (ptr s)) as (F2 & s' & e & Et & He2 & Hp2 & E2); [apply He|lia|lia|done| |intros ? [= <-]; lia|].
      { destruct (decide _) as [[= El]|Hne']; [lia|]. assert (ptr s1 <> ptr s) by congruence. lia. }
      exists (S (max F F2)), s', e. split_and!; [done|by eapply ext_trans|done|]. intros f [|n] Hf Hn'; [lia|]. cbn [possessMore].
      rewrite Elast, Em'. unfold canMore in Em. rewrite Em. cbn [andb]. rewrite (E f n) by lia. cbn. apply E2; lia.
    + rewrite (Hnone eq_refl) in *. set (s2 := setPtr (restore true (save true s) s1) (ptr s)).
      assert (ext s s2) as He2.
      { eapply ext_trans; [exact He|]. eapply ext_trans; [apply restore_ext; [apply He|by apply save_ok]|].
        apply ext_ptr, restore_ext; [apply He|by apply save_ok]. }
      exists (S F), s2, (ptr s). split_and!; [done|done|done|]. intros f [|n] Hf Hn'; [lia|]. cbn [possessMore].
      rewrite Elast, Em'. unfold canMore in Em. rewrite Em. cbn [andb]. rewrite (E f n) by lia. done.
  - exists 1%nat, s, (ptr s). split_and!; [done|by apply ext_refl|done|]. intros f [|n] Hf Hn'; [lia|]. cbn [possessMore].
    rewrite Elast. unfold canMore in Em. by rewrite Em.
Qed.
End Possess.

Lemma runs_possessive lo hi a : compiles a -> compiles (PPossessive lo hi a).
Proof.
  intros Ha I top B lo0 i k HS Hlo H Hw Hk. cbn [encode wfPat] in *. apply andb_true_iff in Hw as [Hw' Hw]. apply wfCounts_spec in Hw'.
  split; [by eapply not_info|]. intros s p Hs HI HB Hp.
  apply codeAt_cons in H as [E1 [E2 [E3 [E4 H]%codeAt_cons]%codeAt_cons]%codeAt_cons].
  replace (i + len _) with (i + 1 + (3 + len (encode a)) + 1) in Hk by (unfold len; simpl; rewrite length_app; simpl; lia).
  replace (i + 1 + 1 + 1 + 1) with (i + 1 + 3) in H by lia. replace (i + 1 + 1 + 1) with (i + 1 + 2) in E4 by lia.
  set (s1 := setPtr (setRepeat (setNodes s (nodes s ++ [mkRep (-1) (-1) 0 false (repeat s)])) (Some (length (nodes s)))) p).
  assert (good s1) as Hs1 by by destruct Hs.
  assert (forall s', ext s1 s' -> ext s (setRepeat s' (repeat s))) as Hback.
  { intros s' [Hg _ Hn]. split; [by destruct Hg|done|]. etrans; [|exact Hn]. simpl. by eexists. }
  cbn [SreSem.den]. destruct (budget_first lo p) as [Hb _]. rewrite (poss_again _ _ _ _ _ (Z.to_nat lo)) by lia.
  destruct (possess_first a Ha Hw (i + 1) H p lo (Z.to_nat lo) s1 0) as (F & [s2 v] & Ho & E); [lia|done|simpl; lia|].
  destruct (ends_sub s1 _ _ Hs1 Ho) as (He & Hsome & Hnone). simpl in Hsome, Hnone. cbn [fst] in He.
  assert (forall f n, loop (match_ f) (S n) s i p top =
    andThen (r <- andThen (possessFirst (match_ f) n s1 (i + 1) p 0 lo) (fun s => possessMore (match_ f) n s (i + 1) (Z.max 0 lo) hi (-1));;
             Ret (setRepeat r.1 (repeat s), r.2))
      (fun s => loop (match_ f) n s (i + 1 + (3 + len (encode a)) + 1) (ptr s) top)) as El.
  { intros f n. cbn [Sre.loop]. rewrite E1. cbn [rbind]. rewrite opOf_word. cbn [oneChar isLiteral]. unfold possess. rewrite E3, E4. cbn [rbind].
    unfold andThen. destruct (rbind (r <- rbind _ _;; Ret _) _) eqn:Ex; rewrite <- Ex; by rewrite E2. }
  eapply yields_S; [exact El|]. clear El. cbv beta.
  destruct (again (Z.to_nat lo) (den a Some) p) as [q|] eqn:Eq.
  - destruct (Hsome q eq_refl) as [Hq ->]. apply (again_bounds a Hw) in Eq; [|lia].
    destruct (possess_more a Ha Hw (i + 1) H hi lo (budget en lo p - Z.to_nat lo) s2 lo None (-1)) as (F2 & s3 & e & Et & He2 & Hp3 & E');
      [apply He|lia|lia|done| |done|].
    { unfold budget. rewrite decide_False by done. lia. }
    rewrite Hq in Et. rewrite Et. replace (Z.max 0 lo) with lo by lia.
    apply poss_goOn in Et as Hqe; [|by apply den_goesOn|lia]. assert (ext s (setRepeat s3 (repeat s))) as He3 by (apply Hback; by eapply ext_trans).
    eapply yields_eq.
    { exists (max F F2). intros f n Hf Hn. rewrite (E f n) by lia. cbn [andThen rbind fst snd]. unfold andThen. cbn [rbind fst snd Z.ltb Z.compare].
      rewrite (E' f n) by lia. cbn [rbind fst snd Z.ltb Z.compare setRepeat ptr]. rewrite Hp3. reflexivity. }
    eapply yields_ext; [exact He3|done|]. apply (runs_after I top B lo0 _ k s); try done; lia.
  - rewrite (Hnone eq_refl) in *. eapply yields_eq.
    { exists F. intros f n Hf Hn. rewrite (E f n) by lia. reflexivity. }
    apply yields_done. split; [done|]. by apply Hback.
Qed.

(** ** REPEAT with MAX_UNTIL and MIN_UNTIL *)

(** *** Changing a node *)

Lemma setRep_id s x rep : nodes s !! x = Some rep -> setRep s x rep = s.
Proof. intros H. unfold setRep, setNodes. rewrite list_insert_id by done. by destruct s. Qed.

Lemma setRep_twice s x r1 r2 : setRep (setRep s x r1) x r2 = setRep s x r2.
Proof. unfold setRep, setNodes. simpl. by rewrite list_insert_insert, decide_True. Qed.

Lemma good_setRep s x r : good s -> good (setRep s x r).
Proof. by intros []. Qed.

Lemma kept_node B h h' x r1 r2 rep : kept B (<[x := r1]> h) h' -> h !! x = Some rep -> prev r1 = prev r2 -> (B <= x)%nat -> kept B (<[x := r2]> h) h'.
Proof.
  intros [Ht Hk] Hx Hp HB. split; [by rewrite Ht, !take_insert_ge by done|]. intros y r Hy.
  destruct (decide (x = y)) as [<-|Hne].
  - rewrite list_lookup_insert_eq in Hy by by eapply lookup_lt_Some. injection Hy as <-.
    destruct (Hk x r1) as (r' & Hr & E); [apply list_lookup_insert_eq; by eapply lookup_lt_Some|]. exists r'. by rewrite E.
  - apply Hk. by rewrite list_lookup_insert_ne in Hy |- *.
Qed.

Lemma kept_self B h x r rep : h !! x = Some rep -> prev r = prev rep -> (B <= x)%nat -> kept B h (<[x := r]> h).
Proof.
  intros Hx Hp HB. rewrite <- (list_insert_id h x rep) at 1 by done. eapply kept_node; [apply kept_refl|done|done|done].
Qed.

(** A result of a run in which node [x] was [r1], after [f] on the node. *)
Lemma ends_node s x rep r1 f B r o : nodes s !! x = Some rep -> (B <= x)%nat -> (forall q, prev (f q) = prev q) ->
  ends (setRep s x r1) B r o -> exists o', onNode o.1 x f = Ret o' /\ ends (setRep s x (f r1)) B r (o', o.2).
Proof.
  intros Hx HB Hf Ho. pose proof (lookup_lt_Some _ _ _ Hx) as Hl.
  assert ((<[x := r1]> (nodes s)) !! x = Some r1) as Hx1 by by apply list_lookup_insert_eq.
  unfold onNode, at_. rewrite (proj2 (Z.ltb_ge _ 0)), Nat2Z.id by lia. destruct r as [e|]; simpl in *.
  - destruct Ho as (Hv & Hp & Hg & Hr & Hk). pose proof Hk as [_ K]. destruct (K _ _ Hx1) as (r' & Hr' & Ep). rewrite Hr'.
    eexists. split; [done|]. split_and!; [done|done|by apply good_setRep|done|]. simpl.
    eapply kept_node; [|exact Hx|symmetry; apply Hf|done]. eapply kept_trans; [exact Hk|]. eapply kept_self; [exact Hr'|apply Hf|done].
  - destruct Ho as [Hv [Hg Hr [t Ht]]]. simpl in Ht. rewrite Ht, (lookup_app_l_Some _ _ _ _ Hx1). eexists. split; [done|]. split; [done|].
    split; [by apply good_setRep|done|]. simpl. rewrite Ht. rewrite insert_app_l by by rewrite length_insert.
    exists t. by rewrite list_insert_insert, decide_True.
Qed.

(** A run that changes the repeat stack's head. *)
Lemma ends_repeat s rp B r o : ends (setRepeat s rp) B r o -> ends s B r (setRepeat o.1 (repeat s), o.2).
Proof.
  destruct r as [e|]; simpl.
  - intros (? & ? & Hg & _ & ?). split_and!; try done. by destruct Hg.
  - intros [? [Hg _ ?]]. split; [done|]. split; [by destruct Hg|done|done].
Qed.

Lemma runs_match_here I top B lo i k s : runs I top B lo i k -> good s -> I (repeat s) (nodes s) -> (B <= length (nodes s))%nat ->
  lo <= ptr s <= en -> yields (fun f n => match_ f s i top) s B (k (ptr s)).
Proof. intros Hr Hs HI HB Hp. pose proof (runs_match I top B lo i k s (ptr s) Hr Hs HI HB Hp) as H. by rewrite setPtr_id in H. Qed.

(** *** The loop of one REPEAT *)

Section Until.
Context (I : option nat -> list repeatStack -> Prop) (top : bool) (B : nat) (lo0 : Z) (k : Z -> option Z).
Context (greedy : bool) (lo hi : Z) (a : pat) (Ha : compiles a) (Hw : wfPat groups a = true) (Hlo : 0 <= lo) (HS : stable I) (Hlo0 : 0 <= lo0).
(** REPEAT's operands are at [pat_], the UNTIL is at [u]. *)
Context (pat_ u : Z) (Elo : at_ code (pat_ + 1) = Ret lo) (Ehi : at_ code (pat_ + 2) = Ret hi) (Eu : u = pat_ + 3 + len (encode a)).
Context (H : codeAt code (pat_ + 3) (encode a ++ [word (if greedy then OpMaxUntil else OpMinUntil)])) (Hk : runs I top B lo0 (u + 1) k).
(** The repeat stack in front of the REPEAT. *)
Context (rp0 : option nat) (h0 : list repeatStack) (HI : I rp0 h0) (HB : (B <= length h0)%nat).
Notation x := (length h0).

(** The node when [cnt] turns are done. *)
Definition node (cnt : Z) (last : option Z) : repeatStack :=
  mkRep (cnt - 1) pat_ (default 0 last) (match last with Some _ => true | None => false end) rp0.

Record inLoop (cnt : Z) (last : option Z) (r : option nat) (h : list repeatStack) : Prop := {
  il_rep : r = Some x;
  il_below : take x h = h0;
  il_node : h !! x = Some (node cnt last)
}.

Lemma inLoop_stable cnt last : stable (inLoop cnt last).
Proof.
  exists (S x). split.
  - intros r h [_ _ Hn]. apply lookup_lt_Some in Hn. lia.
  - intros r h h' [Hr Hb Hn] Et. split; [done| |].
    + trans (take x (take (S x) h')); [by rewrite take_take, Nat.min_l by lia|]. by rewrite Et, take_take, Nat.min_l by lia.
    + rewrite <- (lookup_take_lt h' (S x)) by lia. by rewrite Et, lookup_take_lt by lia.
Qed.

Lemma inLoop_bound cnt last r h : inLoop cnt last r h -> (B <= length h)%nat.
Proof. intros [_ _ Hn]. apply lookup_lt_Some in Hn. lia. Qed.

Lemma inLoop_outer cnt last r h : inLoop cnt last r h -> I rp0 h.
Proof.
  intros [_ Hb Hn]. destruct HS as (b & Hl & Hs). eapply Hs; [exact HI|]. pose proof (Hl _ _ HI).
  trans (take b (take x h)); [by rewrite take_take, Nat.min_l|by rewrite Hb].
Qed.

Lemma inLoop_set cnt last s cnt' last' : inLoop cnt last (repeat s) (nodes s) ->
  inLoop cnt' last' (repeat (setRep s x (node cnt' last'))) (nodes (setRep s x (node cnt' last'))).
Proof.
  intros [Hr Hb Hn]. split; [done| |]; simpl.
  - by rewrite take_insert_ge.
  - apply list_lookup_insert_eq. by eapply lookup_lt_Some.
Qed.

Lemma at_node cnt last r h : inLoop cnt last r h -> at_ h (Z.of_nat x) = Ret (node cnt last).
Proof. intros [_ _ Hn]. unfold at_. by rewrite (proj2 (Z.ltb_ge _ 0)), Nat2Z.id, Hn by lia. Qed.

Lemma count_node cnt last : count (node cnt last) + 1 = cnt.
Proof. simpl. lia. Qed.

Lemma next_node cnt last : setCount (node cnt last) cnt = node (cnt + 1) last.
Proof. unfold setCount, node. simpl. f_equal. lia. Qed.

Lemma back_node cnt last : setCount (node (cnt + 1) last) (cnt - 1) = node cnt last.
Proof. done. Qed.

(** A mandatory turn. *)
Lemma first_turn kb s p cnt last : runs (inLoop (cnt + 1) last) top B p (pat_ + 3) kb -> good s -> inLoop cnt last (repeat s) (nodes s) ->
  p <= en -> yields (fun f n => bodyFirst (match_ f) (setPtr s p) x (node cnt last) cnt p top) s B (kb p).
Proof.
  intros Hr Hs Hl Hp. pose proof Hl as [_ _ Hn].
  destruct (runs_match_here _ top B p _ kb (setPtr (setRep s x (node (cnt + 1) last)) p) Hr) as (F & [s' v] & Ho & E);
    [by apply good_ptr, good_setRep|by eapply inLoop_set|by eapply inLoop_bound, inLoop_set|done|].
  assert (ends (setRep s x (node (cnt + 1) last)) B (kb p) (s', v)) as Ho' by (eapply ends_ext, Ho; [by apply ext_ptr, good_setRep|by eapply inLoop_bound, inLoop_set]).
  clear Ho. unfold bodyFirst. rewrite next_node. change (patternIdx (node cnt last)) with pat_.
  destruct (kb p) as [e|] eqn:Ek.
  - exists F, (s', v). split.
    + destruct Ho' as (? & ? & ? & ? & Hkept). split_and!; try done. eapply kept_trans; [|exact Hkept]. by eapply kept_self.
    + intros f n Hf Hn'. change (setRep (setPtr s p) x (node (cnt + 1) last)) with (setPtr (setRep s x (node (cnt + 1) last)) p).
      rewrite (E f n) by done. destruct Ho' as (Hv & _). simpl in Hv. by subst.
  - destruct (ends_node s x _ _ (fun rep => setCount rep (cnt - 1)) B None _ Hn HB ltac:(done) Ho') as (s2 & E2 & [Hv He]).
    rewrite back_node, setRep_id in He by done. cbn [fst snd] in E2, Hv, He. exists F, (setPtr s2 p, 0). split.
    + split; [done|]. eapply ext_trans; [exact He|apply ext_ptr, He].
    + intros f n Hf Hn'. change (setRep (setPtr s p) x (node (cnt + 1) last)) with (setPtr (setRep s x (node (cnt + 1) last)) p).
      rewrite (E f n) by done. unfold orElse. cbn [rbind fst snd]. subst v. cbn. by rewrite E2.
Qed.

(** Another turn, and what is tried when it fails. *)
Lemma more_turn kb m2 r2 s p cnt last g : runs (inLoop (cnt + 1) (Some p)) top B p (pat_ + 3) kb -> good s ->
  inLoop cnt last (repeat s) (nodes s) -> p <= en -> (forall s', good s' -> ext s' (g s')) ->
  (forall s', ext s s' -> yields (fun f n => m2 f n s') s' B r2) ->
  yields (fun f n => orElse (bodyAgain (match_ f) (setPtr s p) x (node cnt last) cnt p top) (fun s =>
    s <- onNode (g s) x (fun rep => setCount rep (cnt - 1)) ;; m2 f n s)) s B (orElse_ (kb p) r2).
Proof.
  intros Hr Hs Hl Hp Hg H2. pose proof Hl as [_ _ Hn]. pose proof (inLoop_bound _ _ _ _ Hl) as Hlen.
  destruct (runs_match_here _ top B p _ kb (setPtr (setRep s x (node (cnt + 1) (Some p))) p) Hr) as (F & o & Ho & E);
    [by apply good_ptr, good_setRep|by eapply inLoop_set|by eapply inLoop_bound, inLoop_set|done|].
  assert (ends (setRep s x (node (cnt + 1) (Some p))) B (kb p) o) as Ho' by (eapply ends_ext, Ho; [by apply ext_ptr, good_setRep|by eapply inLoop_bound, inLoop_set]).
  destruct (ends_node s x _ _ (fun rep => setLast rep (default 0 last) (match last with Some _ => true | None => false end)) B _ _ Hn HB ltac:(done) Ho')
    as (s1 & E1 & Ho1).
  change (setLast (node (cnt + 1) (Some p)) (default 0 last) _) with (node (cnt + 1) last) in Ho1.
  assert (forall f n, (F <= f)%nat -> (F <= n)%nat -> bodyAgain (match_ f) (setPtr s p) x (node cnt last) cnt p top = Ret (s1, o.2)) as Eb.
  { intros f n Hf Hn'. unfold bodyAgain. rewrite next_node. change (patternIdx (node cnt last)) with pat_.
    change (setRep (setPtr s p) x (setLast (node (cnt + 1) last) p true)) with (setPtr (setRep s x (node (cnt + 1) (Some p))) p).
    rewrite (E f n) by done. cbn [rbind]. change (lastPtr (node cnt last)) with (default 0 last).
    change (hasLastPtr (node cnt last)) with (match last with Some _ => true | None => false end). by rewrite E1. }
  clear E E1 Ho Ho'. destruct o as [s' v]. cbn [fst snd] in *. destruct (kb p) as [e|] eqn:Ek; cbn [orElse_].
  - exists F, (s1, v). split.
    + destruct Ho1 as (? & ? & ? & ? & Hkept). split_and!; try done. eapply kept_trans; [|exact Hkept]. by eapply kept_self.
    + intros f n Hf Hn'. rewrite (Eb f n) by done. destruct Ho1 as (Hv & _). simpl in Hv. by subst.
  - destruct Ho1 as [Hv He]. cbn [fst snd] in Hv, He. subst v.
    destruct (ends_node s x _ (node (cnt + 1) last) (fun rep => setCount rep (cnt - 1)) B None (g s1, 0) Hn HB ltac:(done)) as (s2 & E2 & [_ He2]);
      [split; [done|]; eapply ext_trans; [exact He|apply Hg, He]|].
    rewrite back_node, setRep_id in He2 by done. cbn [fst snd] in E2, He2.
    destruct (H2 s2 He2) as (F2 & o & Ho & E3). exists (max F F2), o. split; [by eapply ends_ext|].
    intros f n Hf Hn'. rewrite (Eb f n) by lia. unfold orElse. cbn. rewrite E2. cbn [rbind]. apply E3; lia.
Qed.

(** The tail, matched with the stack in front of the REPEAT. *)
Lemma tail_turn s p cnt last : good s -> inLoop cnt last (repeat s) (nodes s) -> lo0 <= p <= en ->
  exists F o, ends s B (k p) (setRepeat o.1 (repeat s), o.2) /\
    forall f n, (F <= f)%nat -> (F <= n)%nat -> match_ f (setRepeat (setPtr s p) rp0) (u + 1) top = Ret o.
Proof.
  intros Hs Hl Hp. destruct (runs_match_here I top B lo0 (u + 1) k (setRepeat (setPtr s p) rp0) Hk) as (F & o & Ho & E);
    [by destruct Hs|by eapply inLoop_outer|by eapply inLoop_bound|done|].
  exists F, o. split; [|done]. eapply (ends_ext s (setPtr s p)), (ends_repeat (setPtr s p)), Ho; [by apply ext_ptr|by eapply inLoop_bound].
Qed.

Lemma canStop_last last p : (negb (match last with Some _ => true | None => false end) || negb (p =? default 0 last)) = bool_decide (last <> Some p).
Proof.
  destruct last as [q|]; simpl; [|done]. destruct (Z.eqb_spec p q) as [->|Hne]; symmetry; [by apply bool_decide_eq_false; intros []|].
  apply bool_decide_eq_true. congruence.
Qed.

Definition step (kb1 kb2 : Z -> option Z) (cnt : Z) (last : option Z) (p : Z) : option Z :=
  if cnt <? lo then kb1 p
  else let more := if canMore cnt hi && bool_decide (last <> Some p) then kb2 p else None in
       if greedy then orElse_ more (k p) else orElse_ (k p) more.

Lemma max_spec kb1 kb2 s p cnt last : greedy = true -> good s -> inLoop cnt last (repeat s) (nodes s) -> lo0 <= p <= en ->
  (cnt < lo -> runs (inLoop (cnt + 1) last) top B p (pat_ + 3) kb1) ->
  (lo <= cnt -> last <> Some p -> runs (inLoop (cnt + 1) (Some p)) top B p (pat_ + 3) kb2) ->
  yields (fun f n => maxUntil code (match_ f) s (u + 1) p top) s B (step kb1 kb2 cnt last p).
Proof.
  intros Hg Hs Hl Hp H1 H2. pose proof (inLoop_bound _ _ _ _ Hl) as Hlen. unfold step. rewrite Hg.
  assert (forall s', ext s s' -> yields (fun f n =>
    rep <- at_ (nodes s') (Z.of_nat x) ;;
    r <- match_ f (setRepeat (setPtr s' p) (prev rep)) (u + 1) top ;;
    (if r.2 =? 0 then failed (setPtr (setRepeat r.1 (repeat s')) p) else Ret (setRepeat r.1 (repeat s'), r.2))) s' B (k p)) as Htail.
  { intros s' He. assert (inLoop cnt last (repeat s') (nodes s')) as Hl' by (eapply (stable_ext _ s); [apply inLoop_stable|done|done]).
    destruct (tail_turn s' p cnt last) as (F & [s2 v] & Ho & E); [apply He|done|done|]. rewrite (at_node cnt last) with (r := repeat s') by done.
    cbn [fst snd] in Ho. cbn [rbind]. destruct (k p) as [e|].
    - exists F, (setRepeat s2 (repeat s'), v). split; [done|]. intros f n Hf Hn. change (prev (node cnt last)) with rp0. rewrite (E f n) by done.
      destruct Ho as (Hv & _). simpl in Hv. by subst.
    - destruct Ho as [Hv He2]. simpl in Hv, He2. subst v. exists F, (setPtr (setRepeat s2 (repeat s')) p, 0). split.
      + split; [done|]. eapply ext_trans; [exact He2|]. apply ext_ptr, He2.
      + intros f n Hf Hn. change (prev (node cnt last)) with rp0. by rewrite (E f n). }
  assert (forall f (n : nat), maxUntil code (match_ f) s (u + 1) p top =
    if cnt <? lo then bodyFirst (match_ f) (setPtr s p) x (node cnt last) cnt p top
    else
      let tail s :=
        rep <- at_ (nodes s) (Z.of_nat x) ;;
        r <- match_ f (setRepeat s (prev rep)) (u + 1) top ;;
        (if r.2 =? 0 then failed (setPtr (setRepeat r.1 (repeat s)) p) else Ret (setRepeat r.1 (repeat s), r.2)) in
      if canMore cnt hi && bool_decide (last <> Some p)
      then orElse (bodyAgain (match_ f) (setPtr s p) x (node cnt last) cnt p top) (fun s' =>
             s' <- onNode (restore true (save true s) s') x (fun rep => setCount rep (cnt - 1)) ;; tail (setPtr s' p))
      else tail (setPtr s p)) as E.
  { intros f n. unfold maxUntil. rewrite (il_rep _ _ _ _ Hl), (at_node _ _ _ _ Hl). cbn [rbind]. rewrite count_node.
    change (patternIdx (node cnt last)) with pat_. rewrite Elo, Ehi. cbn [rbind]. destruct (cnt <? lo); [done|].
    change (lastPtr (node cnt last)) with (default 0 last).
    change (hasLastPtr (node cnt last)) with (match last with Some _ => true | None => false end). by rewrite canStop_last. }
  eapply yields_eq; [exists 0%nat; intros f n _ _; apply (E f n)|]. clear E. destruct (cnt <? lo) eqn:Ec; [apply Z.ltb_lt in Ec; by apply (first_turn kb1); [apply H1|..|lia]|apply Z.ltb_ge in Ec].
  cbv zeta. destruct (canMore cnt hi && bool_decide (last <> Some p)) eqn:Em.
  - apply (more_turn kb2 _ _ s p cnt last (restore true (save true s))); [|done|done|lia| |exact Htail].
    + apply andb_true_iff in Em as [_ Em%bool_decide_eq_true]. by apply H2.
    + intros s' Hs'. by apply restore_ext, save_ok.
  - by apply (Htail s), ext_refl.
Qed.

Lemma min_spec kb1 kb2 s p cnt last : greedy = false -> good s -> inLoop cnt last (repeat s) (nodes s) -> lo0 <= p <= en ->
  (cnt < lo -> runs (inLoop (cnt + 1) last) top B p (pat_ + 3) kb1) ->
  (lo <= cnt -> last <> Some p -> runs (inLoop (cnt + 1) (Some p)) top B p (pat_ + 3) kb2) ->
  yields (fun f n => minUntil code (match_ f) s (u + 1) p top) s B (step kb1 kb2 cnt last p).
Proof.
  intros Hg Hs Hl Hp H1 H2. pose proof (inLoop_bound _ _ _ _ Hl) as Hlen. unfold step. rewrite Hg.
  assert (forall f (n : nat), minUntil code (match_ f) s (u + 1) p top =
    if cnt <? lo then bodyFirst (match_ f) (setPtr s p) x (node cnt last) cnt p top
    else
      r <- match_ f (setRepeat (setPtr s p) rp0) (u + 1) top ;;
      if r.2 =? 0 then
        let s' := setPtr (restore (match repeat r.1 with Some _ => true | None => false end)
                    (save (match rp0 with Some _ => true | None => false end) s) (setRepeat r.1 (repeat s))) p in
        rep <- at_ (nodes s') (Z.of_nat x) ;;
        hi <- at_ code (patternIdx rep + 2) ;;
        (if ((hi <=? cnt) && negb (hi =? MaxRepeat)) || (hasLastPtr rep && (p =? lastPtr rep)) then failed s'
        else orElse (bodyAgain (match_ f) s' x rep cnt p top) (fun s' =>
               s' <- onNode s' x (fun rep => setCount rep (cnt - 1)) ;; failed (setPtr s' p)))
      else Ret (setRepeat r.1 (repeat s), r.2)) as E.
  { intros f n. unfold minUntil. rewrite (il_rep _ _ _ _ Hl), (at_node _ _ _ _ Hl). cbn [rbind]. rewrite count_node.
    change (patternIdx (node cnt last)) with pat_. rewrite Elo. cbn [rbind]. destruct (cnt <? lo); [done|].
    change (prev (node cnt last)) with rp0. cbn [repeat setPtr]. by rewrite (il_rep _ _ _ _ Hl). }
  eapply yields_eq; [exists 0%nat; intros f n _ _; apply (E f n)|]. clear E. destruct (cnt <? lo) eqn:Ec; [apply Z.ltb_lt in Ec; by apply (first_turn kb1); [apply H1|..|lia]|apply Z.ltb_ge in Ec].
  destruct (tail_turn s p cnt last Hs Hl Hp) as (F & [s2 v] & Ho & E). cbn [fst snd] in Ho. destruct (k p) as [e|]; cbn [orElse_].
  { exists F, (setRepeat s2 (repeat s), v). split; [done|]. intros f n Hf Hn. rewrite (E f n) by done.
    destruct Ho as (Hv & _). simpl in Hv. by subst. }
  destruct Ho as [Hv He]. cbn [fst snd] in Hv, He. subst v.
  set (s3 := restore (match repeat s2 with Some _ => true | None => false end)
    (save (match rp0 with Some _ => true | None => false end) s) (setRepeat s2 (repeat s))).
  assert (ext s s3) as He3 by (eapply ext_trans; [exact He|apply restore_ext; [apply He|by apply save_ok]]).
  assert (inLoop cnt last (repeat s3) (nodes s3)) as Hl3 by (eapply (stable_ext _ s); [apply inLoop_stable|done|done]).
  eapply yields_eq.
  { exists F. intros f n Hf Hn. rewrite (E f n) by done. cbn [rbind fst snd Z.eqb]. cbv zeta. fold s3. change (nodes (setPtr s3 p)) with (nodes s3).
    rewrite (at_node _ _ _ _ Hl3). cbn [rbind]. change (patternIdx (node cnt last)) with pat_. rewrite Ehi. cbn [rbind].
    change (lastPtr (node cnt last)) with (default 0 last).
    change (hasLastPtr (node cnt last)) with (match last with Some _ => true | None => false end). reflexivity. }
  assert (((hi <=? cnt) && negb (hi =? MaxRepeat)) || ((match last with Some _ => true | None => false end) && (p =? default 0 last))
    = negb (canMore cnt hi && bool_decide (last <> Some p))) as ->.
  { rewrite <- canStop_last. unfold canMore. rewrite Z.ltb_antisym. by destruct (hi <=? cnt), (hi =? MaxRepeat), last, (p =? _). }
  eapply yields_ext; [exact He3|done|]. destruct (canMore cnt hi && bool_decide (last <> Some p)) eqn:Em; cbn [negb].
  - rewrite <- (orElse_none (kb2 p)). apply (more_turn kb2 (fun _ _ s => failed (setPtr s p)) None s3 p cnt last (fun s => s)); [|apply He3|done|lia|done|].
    + apply andb_true_iff in Em as [_ Em%bool_decide_eq_true]. by apply H2.
    + intros s' He'. eapply yields_ext; [by apply (ext_ptr s' p), He'|eapply ext_bound; [exact He'|by eapply inLoop_bound]|].
      apply yields_fail, good_ptr, He'.
  - eapply yields_ext; [by apply (ext_ptr s3 p), He3|by eapply inLoop_bound|]. apply yields_fail, good_ptr, He3.
Qed.

(** Every turn leaves less to do. *)
Definition left_ (cnt : Z) (last : option Z) (q : Z) : Z :=
  Z.max 0 (lo - cnt) + 2 * (en - q) + (if decide (last = Some q) then 0 else 1).

Lemma until_spec N : forall cnt last lo', lo0 <= lo' -> (forall q, lo' <= q <= en -> left_ cnt last q < Z.of_nat N) ->
  runs (inLoop cnt last) top B lo' u (turns N greedy (den a) lo hi cnt last k).
Proof.
  induction N as [|N IH]; intros cnt last lo' Hlo' Hn.
  { split; [eapply not_info; [rewrite Eu; exact (proj2 (codeAt_app _ _ _ _ H))|by destruct greedy..]|]. intros s p Hs _ _ Hp.
    specialize (Hn p Hp). unfold left_ in Hn. destruct (decide _); lia. }
  pose proof (codeAt_app _ _ _ _ H) as [Hbody Hu]. fold (len (encode a)) in Hu. rewrite <- Eu in Hu.
  split; [eapply not_info; [exact Hu|by destruct greedy..]|]. intros s p Hs Hl _ Hp.
  assert (forall last', (forall q, p <= q <= en -> left_ (cnt + 1) last' q < Z.of_nat N) ->
    runs (inLoop (cnt + 1) last') top B p (pat_ + 3) (den a (turns N greedy (den a) lo hi (cnt + 1) last' k))) as Hturn.
  { intros last' Hq. apply Ha; [apply inLoop_stable|lia|done|done|]. rewrite <- Eu. apply IH; [lia|done]. }
  assert (cnt < lo -> runs (inLoop (cnt + 1) last) top B p (pat_ + 3) (den a (turns N greedy (den a) lo hi (cnt + 1) last k))) as H1.
  { intros Hc. apply Hturn. intros q Hq. specialize (Hn p Hp). unfold left_ in *. destruct (decide (last = Some p)), (decide (last = Some q)); try lia.
    assert (p <> q) by congruence. lia. }
  assert (lo <= cnt -> last <> Some p -> runs (inLoop (cnt + 1) (Some p)) top B p (pat_ + 3) (den a (turns N greedy (den a) lo hi (cnt + 1) (Some p) k))) as H2.
  { intros Hc Hne. apply Hturn. intros q Hq. specialize (Hn p Hp). unfold left_ in *. rewrite decide_False in Hn by done.
    destruct (decide (Some p = Some q)); [lia|]. assert (p <> q) by congruence. lia. }
  apply codeAt_cons in Hu as [Eop _]. change (turns (S N) greedy (den a) lo hi cnt last k p) with
    (step (den a (turns N greedy (den a) lo hi (cnt + 1) last k)) (den a (turns N greedy (den a) lo hi (cnt + 1) (Some p) k)) cnt last p).
  destruct (Bool.bool_dec greedy true) as [Eg|Eg%not_true_is_false].
  - eapply yields_S; [|apply max_spec; (done || lia)]. intros f n. cbn [Sre.loop]. by rewrite Eop, Eg.
  - eapply yields_S; [|apply min_spec; (done || lia)]. intros f n. cbn [Sre.loop]. by rewrite Eop, Eg.
Qed.
End Until.

Lemma runs_repeat greedy lo hi a : compiles a -> compiles (PRepeat greedy lo hi a).
Proof.
  intros Ha I top B lo0 i k HS Hlo0 H Hw Hk. cbn [encode wfPat] in *. apply andb_true_iff in Hw as [Hw' Hw]. apply wfCounts_spec in Hw'.
  split; [by eapply not_info|]. intros s p Hs HI HB Hp.
  apply codeAt_cons in H as [E1 [E2 [E3 [E4 H]%codeAt_cons]%codeAt_cons]%codeAt_cons].
  replace (i + len _) with (i + 1 + 3 + len (encode a) + 1) in Hk by (unfold len; simpl; rewrite length_app; simpl; lia).
  replace (i + 1 + 1 + 1 + 1) with (i + 1 + 3) in H by lia. replace (i + 1 + 1 + 1) with (i + 1 + 2) in E4 by lia.
  set (x := length (nodes s)).
  set (s1 := setRepeat (setNodes s (nodes s ++ [mkRep (-1) (i + 1) 0 false (repeat s)])) (Some x)).
  assert (good s1) as Hs1 by by destruct Hs.
  assert (inLoop (i + 1) (repeat s) (nodes s) 0 None (repeat s1) (nodes s1)) as Hl1.
  { split; simpl; [done|by rewrite take_app_length|]. by rewrite lookup_app_r, Nat.sub_diag by done. }
  assert (runs (inLoop (i + 1) (repeat s) (nodes s) 0 None) top B p (i + 1 + 3 + len (encode a))
    (turns (budget en lo p) greedy (den a) lo hi 0 None k)) as Hr.
  { eapply (until_spec I top B lo0 k greedy lo hi a Ha Hw); try done; try lia. intros q Hq.
    unfold left_, budget. rewrite decide_False by done. lia. }
  destruct (runs_match _ top B p _ _ s1 p Hr Hs1 Hl1) as (F & o & Ho & E); [simpl; rewrite length_app; lia|lia|].
  assert (nodes s1 !! x = Some (mkRep (-1) (i + 1) 0 false (repeat s))) as Hx by by apply il_node in Hl1.
  assert (exists r', nodes o.1 !! x = Some r' /\ prev r' = repeat s) as (r' & Hr' & Ep).
  { cbn [SreSem.den] in Ho. destruct (turns _ _ _ _ _ _ _ _ _).
    - destruct Ho as (_ & _ & _ & _ & [_ K]). destruct (K _ _ Hx) as (r' & ? & ?). by exists r'.
    - destruct Ho as [_ [_ _ [t Ht]]]. rewrite Ht. eexists. split; [by apply lookup_app_l_Some|done]. }
  cbn [SreSem.den]. exists (S F), (setRepeat o.1 (repeat s), o.2). split.
  - destruct (turns _ _ _ _ _ _ _ _ _) as [e|].
    + destruct Ho as (? & ? & Hg & _ & Hkept). split_and!; try done; [by destruct Hg|]. eapply kept_trans; [|exact Hkept].
      apply prefix_kept; [by eexists|done].
    + destruct Ho as [Hv [Hg _ Hn]]. split; [done|]. split; [by destruct Hg|done|]. etrans; [|exact Hn]. by eexists.
  - intros f [|n] Hf Hn; [lia|]. cbn [Sre.loop]. rewrite E1. cbn [rbind]. rewrite opOf_word. cbn [oneChar isLiteral]. unfold repeatOp.
    rewrite E2. cbn [rbind]. fold x. replace (i + 1 + (3 + len (encode a))) with (i + 1 + 3 + len (encode a)) by lia.
    change (setPtr (setRepeat _ _) p) with (setPtr s1 p). rewrite (E f n) by lia. cbn [rbind]. unfold at_.
    by rewrite (proj2 (Z.ltb_ge _ 0)), Nat2Z.id, Hr', <- Ep by lia.
Qed.

(** ** Every pattern *)

Lemma every_compiles a : compiles a.
Proof.
  induction a as [ | |c|a b IHa IHb|l IH|m|w|greedy lo hi a IH|greedy lo hi c|lo hi a IH|lo hi c|a IH|neg back a IH] using pat_induction;
    [..|by apply runs_repeat| |by apply runs_possessive| |by apply runs_atomic|by apply runs_look];
    intros I top B lo0 i k HS Hlo0 H Hw Hk; cbn [wfPat] in Hw.
  - unfold len in Hk. simpl in Hk. by rewrite Z.add_0_r in Hk.
  - by apply runs_fail.
  - by apply runs_char.
  - apply andb_true_iff in Hw as [Hwa Hwb]. cbn [encode] in H, Hk. apply codeAt_app in H as [H1 H2].
    apply IHa; [done..|]. apply IHb; [done..|]. unfold len in *. rewrite length_app in Hk. by replace (i + Z.of_nat _ + Z.of_nat _) with
      (i + Z.of_nat (length (encode a) + length (encode b))) by lia.
  - change (encode (PAlt l)) with (word OpBranch :: encodeAlts l) in H, Hk.
    split; [by eapply not_info|]. intros s p Hs HI HB Hp. apply codeAt_cons in H as [E H].
    replace (i + len _) with (i + 1 + len (encodeAlts l)) in Hk by (unfold len; simpl; lia).
    eapply yields_S; [|apply (branch_spec I top B lo0 k l HS Hlo0 IH Hw (i + 1) (save (inRepeat s) s)); try done; by apply save_ok].
    intros f n. cbn [Sre.loop]. by rewrite E.
  - apply andb_true_iff in Hw as [H1%Z.leb_le H2%Z.ltb_lt]. apply (runs_mark I top B lo0 i m); try done.
    intros r h h' HI Hp. by eapply stable_prefix.
  - by apply runs_at.
  - apply andb_true_iff in Hw as [Hc Hw]. destruct greedy; [by apply runs_repeatOne|by apply runs_minRepeatOne].
  - apply andb_true_iff in Hw as [Hc Hw]. by apply runs_possessiveOne.
Qed.

(** A whole program, from any position. *)
Lemma program_runs top a i : codeAt code i (encode a ++ [word OpSuccess]) -> wfPat groups a = true ->
  runs (fun _ _ => True) top 0 0 i (den a (accept top)).
Proof.
  intros H Hw. apply codeAt_app in H as [H1 H2]. apply every_compiles; [apply stable_True|done..|]. by apply runs_success.
Qed.
End Sound.
