(* ===== verification/SreMatch.v ===== *)
(** * SreMatch: matching and searching

    The entry points on a program: [Match] ends in the match of its pattern and
    in no other, [Search] in the leftmost one.  The patterns without atomic parts
    have a declarative meaning, the spans of the text they stand for, and
    fullmatch decides it. *)

From S2P Require Import Prelude Sre SreSem SreSound.
Local Open Scope Z_scope.
Local Open Scope sre_scope.

(** ** Programs *)

(** What the INFO block in front of a pattern says. *)
Record info := mkInfo { flags : Z; minw : Z; infoRest : list Z }.

Definition encodeInfo (h : option info) : list Z :=
  match h with Some h => word OpInfo :: (3 + len (infoRest h)) :: flags h :: minw h :: infoRest h | None => [] end.

Definition program (h : option info) (a : pat) : list Z := encodeInfo h ++ encode a ++ [word OpSuccess].

(** The least number of characters a pattern takes. *)
Fixpoint minWidth (a : pat) : Z :=
  match a with
  | PEmpty | PFail | PMark _ | PAt _ | PLook _ _ _ => 0
  | PChar _ => 1
  | PSeq a b => minWidth a + minWidth b
  | PAlt [] => 0
  | PAlt (a :: l) => foldr (fun b r => Z.min (minWidth b) r) (minWidth a) l
  | PRepeat _ lo _ a | PPossessive lo _ a => lo * minWidth a
  | PRepeatOne _ lo _ _ | PPossessiveOne lo _ _ => lo
  | PAtomic a => minWidth a
  end.

Definition wfInfo (h : option info) (a : pat) : bool :=
  match h with Some h => (0 <=? minw h) && (minw h <=? minWidth a) | None => true end.

Section Width.
Context (U : unicode) (input : list Z) (en : Z) (groups : nat).

(** The pattern takes at least [w] characters. *)
Definition takes (w : Z) (m : (Z -> option Z) -> Z -> option Z) : Prop :=
  forall k p e, 0 <= p <= en -> m k p = Some e -> exists q, p + w <= q <= en /\ k q = Some e.

Lemma takes_goesOn w m : 0 <= w -> takes w m -> goesOn en m.
Proof. intros Hw H k p e Hp (q & Hq & E)%H; [|done]. exists q. split; [lia|done]. Qed.

Lemma turns_takes n greedy body lo hi w : 0 <= w -> takes w body -> forall cnt last, takes (Z.max 0 (lo - cnt) * w) (turns n greedy body lo hi cnt last).
Proof.
  intros Hw Hb. induction n as [|n IH]; intros cnt last k p e Hp E; [done|]. cbn [turns] in E.
  assert (forall last', body (turns n greedy body lo hi (cnt + 1) last' k) p = Some e ->
    exists q, p + (w + Z.max 0 (lo - (cnt + 1)) * w) <= q <= en /\ k q = Some e) as Hbody.
  { intros last' (q & Hq & E')%Hb; [|done]. apply IH in E' as (q' & Hq' & E'); [|lia]. exists q'. split; [lia|done]. }
  destruct (Z.ltb_spec cnt lo).
  - apply Hbody in E as (q & Hq & E). exists q. split; [nia|done].
  - replace (Z.max 0 (lo - cnt) * w) with 0 by lia.
    assert (forall e', k p = Some e' -> Some e' = Some e -> exists q, p + 0 <= q <= en /\ k q = Some e) as Hk.
    { intros e' Ek [= ->]. exists p. split; [lia|done]. }
    set (more := if _ && _ then _ else None) in E.
    assert (more = Some e -> exists q, p + 0 <= q <= en /\ k q = Some e) as Hmore.
    { unfold more. destruct (_ && _); [|done]. intros (q & Hq & E')%Hbody. exists q. split; [lia|done]. }
    destruct greedy, more as [m|], (k p) as [e'|] eqn:Ek; cbn [orElse_] in E; solve [auto|by eapply Hk|done].
Qed.

Lemma poss_takes n body lo hi w : 0 <= w -> takes w body -> forall cnt last p e, 0 <= p <= en ->
  possTurns n (body Some) lo hi cnt last p = Some e -> p + Z.max 0 (lo - cnt) * w <= e <= en.
Proof.
  intros Hw Hb. induction n as [|n IH]; intros cnt last p e Hp E; [done|]. cbn [possTurns] in E.
  assert (forall q, body Some p = Some q -> p + w <= q <= en) as Hbody.
  { intros q (q' & Hq & E')%Hb; [|done]. by simplify_eq. }
  destruct (Z.ltb_spec cnt lo); [|destruct (_ && _); [|simplify_eq; lia]]; (destruct (body Some p) as [q|] eqn:Eb; [|simplify_eq; lia]);
    specialize (Hbody q eq_refl); apply IH in E; nia.
Qed.

Lemma denChar_takes c : takes 1 (denChar U input en c).
Proof.
  intros k p e Hp E. unfold denChar in E. destruct (passes _ _ _ p) eqn:Et; [|done]. apply passes_end in Et.
  exists (p + 1). split; [lia|done].
Qed.

Lemma minWidth_nonneg a : wfPat groups a = true -> 0 <= minWidth a.
Proof.
  induction a as [ | |c|a b IHa IHb|l IH|i|w|greedy lo hi a IH|greedy lo hi c|lo hi a IH|lo hi c|a IH|neg back a IH] using pat_induction;
    intros Hw; cbn [wfPat minWidth] in *; try lia; try (apply andb_true_iff in Hw as [H1 H2]; try apply wfCounts_spec in H1); try (specialize (IH H2)); try nia; auto.
  - specialize (IHa H1). specialize (IHb H2). lia.
  - destruct IH as [|a l Ha IH]; [done|]. simpl in Hw. apply andb_true_iff in Hw as [Hwa Hw]. specialize (Ha Hwa).
    induction IH as [|b l Hb _ IH]; [done|]. simpl in *. apply andb_true_iff in Hw as [Hwb Hw]. specialize (Hb Hwb). specialize (IH Hw). lia.
Qed.

Lemma minWidth_alt a l : a ∈ l -> minWidth (PAlt l) <= minWidth a.
Proof.
  destruct l as [|b l]; [by intros ?%not_elem_of_nil|]. cbn [minWidth]. intros H. induction l as [|c l IH]; simpl.
  - apply list_elem_of_singleton in H as ->. done.
  - rewrite elem_of_cons in IH. rewrite !elem_of_cons in H. destruct H as [ -> |[ -> |H]]; [specialize (IH (or_introl eq_refl))| |specialize (IH (or_intror H))]; lia.
Qed.

Lemma den_takes a : wfPat groups a = true -> takes (minWidth a) (den U input en a).
Proof.
  induction a as [ | |c|a b IHa IHb|l IH|i|w|greedy lo hi a IH|greedy lo hi c|lo hi a IH|lo hi c|a IH|neg back a IH] using pat_induction; intros Hw k p e Hp E;
    pose proof (minWidth_nonneg _ Hw) as Hn; cbn [den wfPat minWidth] in *; try (exists p; split; [lia|done]); try done.
  - by apply (denChar_takes c).
  - apply andb_true_iff in Hw as [Ha Hb]. apply (IHa Ha) in E as (q & Hq & E); [|done]. pose proof (minWidth_nonneg _ Ha).
    apply (IHb Hb) in E as (q' & Hq' & E); [|lia]. exists q'. split; [lia|done].
  - assert (exists a, a ∈ l /\ den U input en a k p = Some e) as (a & Hal & Ea).
    { clear Hw Hn IH. induction l as [|a l IH]; [done|]. simpl in E. destruct (den _ _ _ a k p) as [e'|] eqn:Ea; simplify_eq/=.
      - exists a. split; [left|done].
      - destruct (IH E) as (b & Hb & Eb). exists b. split; [by right|done]. }
    pose proof (minWidth_alt a l Hal). rewrite Forall_forall in IH. rewrite forallb_forall in Hw.
    destruct (IH a Hal (Hw a ltac:(by apply list_elem_of_In)) k p e Hp Ea) as (q & Hq & Ek). exists q. split; [change (p + minWidth (PAlt l) <= q <= en); lia|done].
  - destruct (positionTest _ _ _ _ _); [|done]. exists p. split; [lia|done].
  - apply andb_true_iff in Hw as [Hc Ha]. apply wfCounts_spec in Hc. pose proof (minWidth_nonneg _ Ha).
    eapply (turns_takes _ _ _ _ _ (minWidth a)) in E; [|done|by apply IH|done]. replace (Z.max 0 (lo - 0)) with lo in E by lia. done.
  - apply andb_true_iff in Hw as [Hc Ha]. apply wfCounts_spec in Hc.
    eapply (turns_takes _ _ _ _ _ 1) in E; [|done|by apply denChar_takes|done]. replace (Z.max 0 (lo - 0) * 1) with lo in E by lia. done.
  - apply andb_true_iff in Hw as [Hc Ha]. apply wfCounts_spec in Hc. pose proof (minWidth_nonneg _ Ha).
    destruct (possTurns _ _ _ _ _ _ _) as [q|] eqn:Eq; [|done].
    eapply (poss_takes _ _ _ _ (minWidth a)) in Eq; [|done|by apply IH|done]. replace (Z.max 0 (lo - 0)) with lo in Eq by lia. by exists q.
  - apply andb_true_iff in Hw as [Hc Ha]. apply wfCounts_spec in Hc. destruct (possTurns _ _ _ _ _ _ _) as [q|] eqn:Eq; [|done].
    eapply (poss_takes _ _ _ _ 1) in Eq; [|done|by apply denChar_takes|done]. replace (Z.max 0 (lo - 0) * 1) with lo in Eq by lia. by exists q.
  - destruct (den _ _ _ a Some p) as [q|] eqn:Eq; [|done]. apply (IH Hw) in Eq as (q' & Hq & [= ->]); [|done]. by exists q.
  - destruct (Bool.eqb _ _); [done|]. exists p. split; [lia|done].
Qed.
End Width.

(** ** Match *)

Lemma clip_bounds x hi : 0 <= hi -> 0 <= clip 0 x hi <= hi.
Proof. intros H. unfold clip. destruct (Z.ltb_spec x 0); [lia|]. destruct (Z.ltb_spec hi x); lia. Qed.

Section Run.
Context (U : unicode) (input : list Z) (groups : nat) (h : option info) (a : pat).
Notation code := (program h a).

(** The hypotheses of the theorems on programs: Go's case tables, a text of
    code points whose length fits a word, and a program as the compiler writes
    it. *)
Record wfProgram : Prop := {
  wp_unicode : wfUnicode U;
  wp_input : forallb codePoint input = true;
  wp_length : len input < 2 ^ 32;
  wp_pat : wfPat groups a = true;
  wp_info : wfInfo h a = true
}.

Context (W : wfProgram).

(** Where the pattern starts. *)
Definition body : Z := len (encodeInfo h).

Lemma body_code : codeAt code body (encode a ++ [word OpSuccess]).
Proof. exists (encodeInfo h), []. split; [by rewrite app_nil_r|done]. Qed.

(** The search for a match of the pattern on its own. *)
Definition attempt (st en : Z) (ma mu top : bool) (p : Z) : option Z := den U input en a (accept st en ma mu top) p.

Lemma program_match st en ma mu top s p : 0 <= en <= len input -> good groups st en ma mu s -> 0 <= p <= en ->
  yields groups st en ma mu (fun f n => match_ U input code f (setPtr s p) body top) s 0 (attempt st en ma mu top p).
Proof.
  intros Hen Hs Hp. apply (runs_match U input code groups st en ma mu (fun _ _ => True) top 0 0 body); try done; [|lia].
  apply program_runs; [apply W|apply W|done|apply body_code|apply W].
Qed.

Lemma enter_info fl w rest l s (k : Z -> outcome) : enter (word OpInfo :: (3 + len rest) :: fl :: w :: rest ++ l) s 0 k =
  if negb (w =? 0) && ((end_ s - ptr s) mod 2 ^ 32 <? w) then failed s else k (len (word OpInfo :: (3 + len rest) :: fl :: w :: rest)).
Proof.
  unfold enter. rewrite (proj2 (Z.leb_gt _ 0)) by (simpl; lia). change (at_ _ 0) with (Ret (word OpInfo)).
  change (at_ _ (0 + 3)) with (Ret w). change (at_ _ (0 + 1)) with (Ret (3 + len rest)). cbn [rbind]. rewrite Z.eqb_refl.
  destruct (_ && _); [done|]. f_equal. unfold len. simpl length. lia.
Qed.

Lemma program_notInfo : notInfo code body.
Proof.
  apply (program_runs U input code (wp_unicode W) (wp_input W) groups 0 0 false false ltac:(unfold len; lia) true a body body_code (wp_pat W)).
Qed.

(** The test of the INFO block turns no match away. *)
Lemma program_enter st en ma mu s p top : 0 <= en <= len input -> good groups st en ma mu s -> 0 <= p <= en ->
  yields groups st en ma mu (fun f n => match_ U input code f (setPtr s p) 0 top) s 0 (attempt st en ma mu top p).
Proof.
  intros Hen Hs Hp. destruct (program_match st en ma mu top s p Hen Hs Hp) as (F & o & Ho & E).
  assert (forall f, match_ U input code (S f) (setPtr s p) body top = loop U input code (match_ U input code f) f (setPtr s p) body p top) as Eb.
  { intros f. cbn [Sre.match_]. rewrite enter_code by apply program_notInfo. done. }
  pose proof (wp_length W) as Hlen. pose proof (wp_info W) as Hinfo. unfold wfInfo in Hinfo.
  assert (forall f, match_ U input code (S f) (setPtr s p) 0 top =
    if (match h with Some i => negb (minw i =? 0) && (en - p <? minw i) | None => false end) then failed (setPtr s p)
    else match_ U input code (S f) (setPtr s p) body top) as Es.
  { intros f. rewrite Eb. cbn [Sre.match_]. pose proof program_notInfo as Hn. unfold body in *. unfold program in Hn |- *.
    destruct h as [[fl w rest]|]; [|by rewrite enter_code]. cbn [encodeInfo app flags minw infoRest]. rewrite enter_info.
    cbn [setPtr end_ ptr]. by rewrite (g_end _ _ _ _ _ s Hs), Z.mod_small by lia. }
  destruct (match h with Some i => _ | None => false end) eqn:Eshort.
  - assert (attempt st en ma mu top p = None) as ->.
    { destruct h as [i|]; [|done]. apply andb_true_iff in Eshort as [_ Hw%Z.ltb_lt]. apply andb_true_iff in Hinfo as [_ Hi%Z.leb_le].
      destruct (attempt _ _ _ _ _ p) as [e|] eqn:Ea; [|done]. apply (den_takes U input en groups a (wp_pat W)) in Ea as (q & Hq & _); lia. }
    exists 1%nat, (setPtr s p, 0). split; [split; [done|by apply ext_ptr]|]. intros [|f] n Hf Hn; [lia|]. apply Es.
  - exists (S F), o. split; [done|]. intros [|f] n Hf Hn; [lia|]. rewrite Es. apply (E (S f) n); lia.
Qed.

Lemma newState_good pos endpos ma mu :
  let s := newState input groups pos endpos in
  good groups (start s) (end_ s) ma mu (mkState (start s) (end_ s) (ptr s) (caps s) (repeat s) (nodes s) ma mu).
Proof. split; simpl; try done; [by rewrite repeat_length|lia]. Qed.

(** The groups' spans begin with the match's. *)
Lemma resultOf_found s : resultOf groups (Ret (s, 1)) = Ret (mkResult true (locsFrom s groups) (lastindex (caps s))).
Proof. done. Qed.

Lemma match_program pos endpos ma mu : let st := clip 0 pos (len input) in let en := clip 0 endpos (len input) in st <= en ->
  exists F r, (forall fuel, (F <= fuel)%nat -> Match U input code fuel groups pos endpos ma mu = Ret r) /\
    match attempt st en ma mu true st with
    | Some e => Matched r = true /\ take 2 (Locs r) = [st; e]
    | None => r = mkResult false [] 0
    end.
Proof.
  intros st en Hle. assert (0 <= len input) as Hl by (unfold len; lia). pose proof (clip_bounds pos (len input) Hl) as Hst.
  pose proof (clip_bounds endpos (len input) Hl) as Hen. fold st in Hst. fold en in Hen.
  destruct (program_enter st en ma mu _ st true Hen (newState_good pos endpos ma mu)) as (F & [s v] & Ho & E); [lia|].
  destruct (attempt st en ma mu true st) as [e|].
  - destruct Ho as (Hv & Hp & Hg & _). simpl in Hv, Hp. subst v. exists F, (mkResult true (locsFrom s groups) (lastindex (caps s))). split.
    + intros f Hf. unfold Match. rewrite <- resultOf_found. f_equal. by apply (E f f).
    + split; [done|]. simpl. by rewrite Hp, (g_start _ _ _ _ _ s Hg).
  - destruct Ho as [Hv _]. simpl in Hv. subst v. exists F, (mkResult false [] 0). split; [|done].
    intros f Hf. unfold Match. change (Ret (mkResult false [] 0)) with (resultOf groups (Ret (s, 0))). f_equal. by apply (E f f).
Qed.

(** ** Search *)

(** The first position from [lo] to [hi] at which [t] finds something. *)
Definition leftmost (t : Z -> option Z) (lo hi : Z) (r : option (Z * Z)) : Prop :=
  match r with
  | Some (q, e) => lo <= q <= hi /\ t q = Some e /\ forall q', lo <= q' < q -> t q' = None
  | None => forall q', lo <= q' <= hi -> t q' = None
  end.

Lemma leftmost_here t lo hi e : lo <= hi -> t lo = Some e -> leftmost t lo hi (Some (lo, e)).
Proof. intros H E. split_and!; [lia|lia|done|]. intros q' Hq. lia. Qed.

Lemma leftmost_skip t lo lo' hi r : lo <= lo' -> (forall q, lo <= q < lo' -> q <= hi -> t q = None) -> leftmost t lo' hi r -> leftmost t lo hi r.
Proof.
  intros Hl Hs. destruct r as [[q e]|]; simpl.
  - intros (Hq & E & Hn). split_and!; [lia|lia|done|]. intros q' Hq'. destruct (Z.lt_ge_cases q' lo'); [apply Hs; lia|apply Hn; lia].
  - intros Hn q' Hq'. destruct (Z.lt_ge_cases q' lo'); [apply Hs; lia|apply Hn; lia].
Qed.

Lemma leftmost_more t lo hi hi' r : hi <= hi' -> (forall q, lo <= q -> hi < q <= hi' -> t q = None) -> leftmost t lo hi r -> leftmost t lo hi' r.
Proof.
  intros Hl Hs. destruct r as [[q e]|]; simpl.
  - intros (Hq & E & Hn). split_and!; [lia|lia|done|done].
  - intros Hn q' Hq'. destruct (Z.le_gt_cases q' hi); [apply Hn; lia|apply Hs; lia].
Qed.

(** A search that ends with what it should. *)
Definition searches (en : Z) (t : Z -> option Z) (lo hi : Z) (m : nat -> nat -> outcome) : Prop :=
  exists F o r, (forall f n, (F <= f)%nat -> (F <= n)%nat -> m f n = Ret o) /\ leftmost t lo hi r /\
    match r with Some (q, e) => o.2 = 1 /\ start o.1 = q /\ ptr o.1 = e | None => o.2 = 0 end.

Lemma searches_weaken en t lo lo' hi hi' m : lo <= lo' -> hi' <= hi -> (forall q, lo <= q < lo' -> q <= hi -> t q = None) ->
  (forall q, lo' <= q -> hi' < q <= hi -> t q = None) -> searches en t lo' hi' m -> searches en t lo hi m.
Proof.
  intros H1 H2 Hn Hn' (F & o & r & E & Hr & Ho). exists F, o, r. split_and!; [done| |done].
  eapply leftmost_skip; [exact H1|done|]. by eapply leftmost_more.
Qed.

Lemma searches_eq en t lo hi m m' : (exists F, forall f n, (F <= f)%nat -> (F <= n)%nat -> m f n = m' f n) -> searches en t lo hi m' -> searches en t lo hi m.
Proof.
  intros (F' & E') (F & o & r & E & Hr & Ho). exists (max F F'), o, r. split_and!; [|done|done].
  intros f n Hf Hn. rewrite E' by lia. apply E; lia.
Qed.

(** A search that is over. *)
Lemma searches_none en t lo hi s : (forall q, lo <= q <= hi -> t q = None) -> searches en t lo hi (fun _ _ => failed s).
Proof. intros H. exists 0%nat, (s, 0), None. done. Qed.

Section Searching.
Context (en : Z) (Hen : 0 <= en <= len input).

(** What is tried at a position behind the first. *)
Notation try_ := (fun q => attempt q en false false false q).

(** A state between two attempts. *)
Definition between_ (s : state) : Prop := exists st, good groups st en false false s.

Lemma between_start s q p : between_ s -> good groups q en false false (startAt s q p).
Proof. intros [st []]. by split. Qed.

Lemma between_reset s : between_ s -> between_ (resetCaptureGroup s).
Proof. intros [st []]. exists st. split; try done. simpl. lia. Qed.

(** One attempt, and the search behind it. *)
Lemma search_step q hi s m : between_ s -> 0 <= q <= hi -> hi <= en ->
  (forall s', between_ s' -> searches en try_ (q + 1) hi (fun f n => m f n s')) ->
  searches en try_ q hi (fun f n => orElse (match_ U input code f (startAt s q q) body false) (m f n)).
Proof.
  intros Hs Hq Hhi Hm.
  destruct (program_match q en false false false (startAt s q q) q Hen (between_start s q q Hs)) as (F & [s' v] & Ho & E); [lia|].
  change (setPtr (startAt s q q) q) with (startAt s q q) in E. destruct (try_ q) as [e|] eqn:Et.
  - destruct Ho as (Hv & Hp & Hg & _). simpl in Hv, Hp. subst v. exists F, (s', 1), (Some (q, e)). split_and!.
    + intros f n Hf Hn. by rewrite (E f n Hf Hn).
    + apply leftmost_here; [lia|exact Et].
    + done.
    + apply Hg.
    + done.
  - destruct Ho as [Hv He]. simpl in Hv, He. subst v. destruct (Hm s') as (F2 & o & r & E2 & Hr & Ho); [exists q; apply He|].
    exists (max F F2), o, r. split_and!; [|eapply leftmost_skip, Hr; [lia|]|done].
    + intros f n Hf Hn. rewrite (E f n) by lia. unfold orElse. cbn. apply E2; lia.
    + intros q' Hq' _. by assert (q' = q) as -> by lia.
Qed.

Lemma searches_S t lo hi m m' : (forall f n, m f (S n) = m' f n) -> searches en t lo hi m' -> searches en t lo hi m.
Proof.
  intros E (F & o & r & H & Hr & Ho). exists (S F), o, r. split_and!; [|done|done]. intros f [|n] Hf Hn; [lia|]. rewrite E. apply H; lia.
Qed.

Lemma searchOn_spec last m : last <= en -> forall s p, between_ s -> 0 <= p -> p + Z.of_nat m = last ->
  searches en try_ (p + 1) last (fun f n => searchOn U input code f n s body p last).
Proof.
  intros Hlast. induction m as [|m IH]; intros s p Hs Hp Hm.
  - eapply searches_S; [|apply (searches_none _ _ _ _ s); intros; lia]. intros f n. cbn [searchOn]. by rewrite (proj2 (Z.ltb_ge _ _)) by lia.
  - eapply searches_S.
    { intros f n. cbn [searchOn]. rewrite (proj2 (Z.ltb_lt _ _)) by lia. reflexivity. }
    cbv beta. apply (search_step (p + 1) last _ (fun f n s' => searchOn U input code f n s' body (p + 1) last));
      [by apply between_reset|lia|done|]. intros s' Hs'. apply IH; [done|lia|lia].
Qed.

(** The first attempt obeys [mustAdvance]. *)
Definition firstTry (st : Z) (mu : bool) (q : Z) : option Z :=
  if q =? st then attempt st en false mu true st else try_ q.

Lemma leftmost_ext t t' lo hi r : (forall q, lo <= q <= hi -> t q = t' q) -> leftmost t lo hi r -> leftmost t' lo hi r.
Proof.
  intros E. destruct r as [[q e]|]; simpl.
  - intros (Hq & Et & Hn). split_and!; [lia|lia|by rewrite <- E|]. intros q' Hq'. rewrite <- E by lia. by apply Hn.
  - intros Hn q' Hq'. rewrite <- E by lia. by apply Hn.
Qed.

Lemma searches_ext t t' lo hi m : (forall q, lo <= q <= hi -> t q = t' q) -> searches en t lo hi m -> searches en t' lo hi m.
Proof. intros E (F & o & r & H & Hr & Ho). exists F, o, r. split_and!; [done|by eapply leftmost_ext|done]. Qed.

Lemma body_runs q : runs U input code groups q en false false (fun _ _ => True) false 0 0 body (den U input en a Some).
Proof.
  eapply runs_eq; [|apply program_runs; [apply W|apply W|done|apply body_code|apply W]]. done.
Qed.

Definition anyState (q : Z) : state := mkState q en q (mkCaptures (List.repeat markUnset (2 * groups)) (-1) (-1)) None [] false false.

Lemma any_good q : good groups q en false false (anyState q).
Proof. split; simpl; try done; [by rewrite repeat_length|lia]. Qed.

(** A pattern that begins with the start of the text. *)
Lemma anchor_spec op : at_ code body = Ret op -> exists anchored,
  (if op =? word OpAt
   then w <- at_ code (body + 1) ;; Ret (match atOf w with Some (AtBeginning | AtBeginningString) => true | _ => false end)
   else Ret false) = Ret anchored /\ (anchored = true -> forall q, 0 < q <= en -> try_ q = None).
Proof.
  intros E. destruct (Z.eqb_spec op (word OpAt)) as [->|]; [|by exists false].
  assert (exists w, at_ code (body + 1) = Ret w) as [w Ew].
  { destruct (body_runs 0) as [_ H]. destruct (H (anyState 0) 0) as (F & o & _ & Ho); [apply any_good|done|simpl; lia|lia|].
    specialize (Ho (S F) (S F) ltac:(lia) ltac:(lia)). cbn [Sre.loop] in Ho. rewrite E in Ho. cbn [rbind] in Ho. rewrite opOf_word in Ho.
    cbn [oneChar isLiteral] in Ho. destruct (at_ code (body + 1)) as [w| |]; [by exists w|done|done]. }
  rewrite Ew. cbn [rbind]. eexists. split; [done|]. intros Ha q Hq. unfold attempt.
  apply (runs_none U input code groups q en false false _ false 0 0 body (den U input en a Some) (anyState q) q (body_runs q)
    (any_good q) I ltac:(simpl; lia)); [lia|]. intros rec n. cbn [Sre.loop]. rewrite E. cbn [rbind]. rewrite opOf_word.
  cbn [oneChar isLiteral]. rewrite Ew. cbn [rbind]. unfold at_position. destruct (atOf w) as [[]|]; try done; cbn [rbind];
    by rewrite (proj2 (Z.eqb_neq _ _)) by lia.
Qed.

Lemma mayStay_between st mu s : good groups st en false mu s -> between_ (mayStay s).
Proof. intros []. exists st. by split. Qed.

Lemma searchAll_spec st mu s last : good groups st en false mu s -> 0 <= st <= last -> last <= en ->
  searches en (firstTry st mu) st last (fun f n => searchAll U input code f s body st last).
Proof.
  intros Hs Hst Hlast.
  assert (good groups st en false mu (startAt s st st)) as Hs' by by destruct Hs.
  destruct (program_match st en false mu true (startAt s st st) st Hen Hs') as (F & [s' v] & Ho & E); [lia|].
  change (setPtr (startAt s st st) st) with (startAt s st st) in E.
  assert (firstTry st mu st = attempt st en false mu true st) as Ef by (unfold firstTry; by rewrite Z.eqb_refl).
  destruct (attempt st en false mu true st) as [e|] eqn:Ea.
  - destruct Ho as (Hv & Hp & Hg & _). simpl in Hv, Hp. subst v. exists F, (mayStay s', 1), (Some (st, e)). split_and!.
    + intros f n Hf Hn. unfold searchAll. by rewrite (E f n Hf Hn).
    + by apply leftmost_here; [lia|].
    + done.
    + apply Hg.
    + done.
  - destruct Ho as [Hv He]. simpl in Hv, He. subst v. destruct program_notInfo as (op & Eop & _).
    destruct (anchor_spec op Eop) as (anchored & Ean & Han).
    assert (forall f n, (F <= f)%nat -> (F <= n)%nat -> searchAll U input code f s body st last =
      if anchored then failed (startAt (mayStay s') last last) else searchOn U input code f f (mayStay s') body st last) as Es.
    { intros f n Hf Hn. unfold searchAll. rewrite (E f n Hf Hn). cbn [rbind fst snd Z.eqb]. rewrite Eop. cbn [rbind]. by rewrite Ean. }
    eapply searches_eq; [exists F; exact Es|]. clear Es Ean.
    assert (forall q, st + 1 <= q <= last -> try_ q = firstTry st mu q) as Et.
    { intros q Hq. unfold firstTry. by rewrite (proj2 (Z.eqb_neq q st)) by lia. }
    apply (searches_weaken en _ st (st + 1) last last); [lia|lia| |intros; lia|].
    { intros q Hq _. assert (q = st) as -> by lia. done. }
    eapply searches_ext; [exact Et|]. destruct anchored.
    + apply searches_none. intros q Hq. apply Han; [done|lia].
    + destruct (searchOn_spec last (Z.to_nat (last - st)) Hlast (mayStay s') st) as (F2 & o & r & E2 & Hr & Ho);
        [by eapply mayStay_between, He|lia|lia|]. exists F2, o, r. split_and!; [|done|done]. intros f n Hf Hn. by apply E2.
Qed.

(** *** The characters a match can start with *)

(** Every match begins with a character that passes the test. *)
Definition startsIn (t : Z -> bool) : Prop := forall q, 0 <= q <= en -> try_ q <> None -> passes input en t q = true.

Lemma advance_not (test : Z -> res bool) t m : forall p, 0 <= p -> p + Z.of_nat m = en -> (forall ch, codePoint ch = true -> test ch = Ret (t ch)) ->
  exists q, advance input (fun ch => rneg (test ch)) m p = Ret q /\ p <= q <= en /\
    (forall x, p <= x < q -> passes input en t x = false).
Proof.
  induction m as [|m IH]; intros p Hp Hm Ht; cbn [advance].
  - exists p. split_and!; [done|lia|lia|]. intros x Hx. lia.
  - destruct (chAt_in input (wp_input W) en Hen p) as (ch & E & E' & Hc); [lia|]. rewrite E. cbn [rbind]. rewrite Ht by done. cbn [rneg rbind].
    destruct (t ch) eqn:Etc; cbn [negb].
    + exists p. split_and!; [done|lia|lia|]. intros x Hx. lia.
    + destruct (IH (p + 1)) as (q & Eq & Hq & Hx); [lia|lia|done|]. exists q. split_and!; [done|lia|lia|]. intros x Hx'.
      destruct (Z.eq_dec x p) as [->|]; [|apply Hx; lia]. unfold passes. rewrite E', Etc. by rewrite andb_false_r.
Qed.

Lemma searchCharset_spec i negated items : codeAt code i (encodeSet negated items) -> forallb wfItem items = true -> startsIn (setTest U negated items) ->
  forall m s p, between_ s -> 0 <= p -> p + Z.of_nat m = en + 1 ->
  searches en try_ p en (fun f n => searchCharset U input code f n s i body p).
Proof.
  intros Hc Hw Ht m. induction m as [m IH] using lt_wf_ind. intros s p Hs Hp Hm.
  assert (forall q, 0 <= q <= en -> passes input en (setTest U negated items) q = false -> try_ q = None) as Hno.
  { intros q Hq Hf. destruct (try_ q) eqn:E; [|done]. rewrite Ht in Hf; [done|done|by rewrite E]. }
  destruct (Z.le_gt_cases p en) as [Hle|Hgt].
  - destruct (advance_not (charset U code i) (setTest U negated items) (Z.to_nat (en - p)) p) as (q & Eq & Hq & Hx); [lia|lia| |].
    { intros ch Hch. by apply charset_spec. }
    apply (searches_weaken en _ p q en en); [lia|lia| |intros; lia|].
    { intros x Hxq _. apply Hno; [lia|by apply Hx]. }
    assert (end_ s = en) as Ee by (destruct Hs as [? []]; done).
    eapply searches_S.
    { intros f n. cbn [searchCharset]. rewrite Ee, Eq. cbn [rbind]. reflexivity. }
    cbv beta. destruct (Z.leb_spec en q) as [Hge|Hlt].
    + apply searches_none. intros x Hx'. apply Hno; [lia|]. unfold passes. by rewrite (proj2 (Z.ltb_ge x en)) by lia.
    + apply (search_step q en _ (fun f n s' => searchCharset U input code f n (resetCaptureGroup s') i body (q + 1))); [done|lia|lia|].
      intros s' Hs'. apply (IH (Z.to_nat (en - q))); [lia|by apply between_reset|lia|lia].
  - exists 1%nat, (s, 0), None. split_and!; [|intros q Hq; lia|done]. intros f [|n] Hf Hn; [lia|]. cbn [searchCharset].
    assert (end_ s = en) as -> by (destruct Hs as [? []]; done). replace (Z.to_nat (en - p)) with 0%nat by lia. cbn [advance rbind].
    by rewrite (proj2 (Z.leb_le _ _)) by lia.
Qed.

(** *** A literal prefix *)

Section Prefix.
(** The prefix, how much of it the pattern begins with, and the rest. *)
Context (pre : list Z) (skip : nat) (b : pat).

(** [b] behind plain literals. *)
Definition lits (l : list Z) (b : pat) : pat := foldr (fun c b => PSeq (PChar (CLiteral OpLiteral c)) b) b l.

(** The first [i] characters of the prefix are at [q]. *)
Definition begins (i : nat) (q : Z) : Prop :=
  forall k c, (k < i)%nat -> pre !! k = Some c -> passes input en (fun ch => ch =? c) (q + Z.of_nat k) = true.

(** Every match begins with the prefix, and the pattern with [skip] literals of
    it. *)
Record prefixed : Prop := {
  pf_points : forallb codePoint pre = true;
  pf_skip : (skip <= length pre)%nat;
  pf_pat : a = lits (take skip pre) b;
  pf_match : forall q, 0 <= q <= en -> try_ q <> None -> begins (length pre) q
}.

Context (P : prefixed).

Lemma lits_code l : encode (lits l b) = concat (map (fun c => [word OpLiteral; c]) l) ++ encode b.
Proof. induction l as [|c l IH]; [done|]. change (encode (lits (c :: l) b)) with ([word OpLiteral; c] ++ encode (lits l b)). by rewrite IH. Qed.

Lemma lits_length l : length (concat (map (fun c => [word OpLiteral; c]) l)) = (2 * length l)%nat.
Proof. induction l as [|c l IH]; [done|]. simpl. rewrite IH. lia. Qed.

Lemma lits_wf l : wfPat groups (lits l b) = true -> wfPat groups b = true.
Proof. induction l as [|c l IH]; [done|]. intros [_ H]%andb_true_iff. auto. Qed.

Lemma lits_den l k : forall q, (forall i c, l !! i = Some c -> passes input en (fun ch => ch =? c) (q + Z.of_nat i) = true) ->
  den U input en (lits l b) k q = den U input en b k (q + len l).
Proof.
  induction l as [|c l IH]; intros q H; [unfold len; by rewrite Z.add_0_r|].
  change (den U input en (lits (c :: l) b) k q) with (denChar U input en (CLiteral OpLiteral c) (den U input en (lits l b) k) q).
  unfold denChar. specialize (H 0%nat c eq_refl) as Hc. rewrite Z.add_0_r in Hc.
  change (oneTest U (CLiteral OpLiteral c)) with (fun ch => ch =? c). rewrite Hc, IH.
  - f_equal. unfold len. simpl length. lia.
  - intros i c' Hi. replace (q + 1 + Z.of_nat i) with (q + Z.of_nat (S i)) by lia. by apply H.
Qed.

(** The rest of the pattern, behind the prefix. *)
Lemma prefix_match s q : between_ s -> 0 <= q -> q + Z.of_nat skip <= en -> begins skip q ->
  yields groups q en false false (fun f n => match_ U input code f (startAt s q (q + Z.of_nat skip)) (body + 2 * Z.of_nat skip) false)
    (startAt s q (q + Z.of_nat skip)) 0 (try_ q).
Proof.
  intros Hs Hq Hle Hb. pose proof (pf_skip P) as Hskip.
  assert (codeAt code (body + 2 * Z.of_nat skip) (encode b ++ [word OpSuccess])) as Hc.
  { pose proof body_code as Hc. assert (encode a = encode (lits (take skip pre) b)) as Ee by by rewrite <- (pf_pat P).
    rewrite Ee, lits_code, <- app_assoc in Hc. apply codeAt_app in Hc as [_ Hc].
    rewrite lits_length, length_take_le in Hc by done. by replace (body + 2 * Z.of_nat skip) with (body + Z.of_nat (2 * skip)) by lia. }
  assert (wfPat groups b = true) as Hw by (apply (lits_wf (take skip pre)); rewrite <- (pf_pat P); apply W).
  cbv beta. assert (attempt q en false false false q = den U input en b Some (q + Z.of_nat skip)) as ->.
  { unfold attempt. rewrite (pf_pat P). change (accept q en false false false) with (@Some Z). rewrite lits_den.
    - unfold len. by rewrite length_take_le.
    - intros i c Hi. apply lookup_take_Some in Hi as [Hi Hlt]. by apply (Hb i c). }
  apply (runs_match_here U input code groups q en false false (fun _ _ => True) false 0 0 (body + 2 * Z.of_nat skip) (den U input en b Some));
    [|by apply between_start|done|simpl; lia|simpl; lia].
  eapply runs_eq; [|apply program_runs; [apply W|apply W|done|exact Hc|done]]. done.
Qed.

(** A place where the prefix is: the pattern's match is looked for, or is there
    already when the prefix is all of it. *)
Lemma prefix_step (fl : Z) q s m : (Z.land fl SreInfoLiteral <> 0 -> skip = length pre /\ b = PEmpty) ->
  between_ s -> 0 <= q -> q + Z.of_nat skip <= en -> begins (length pre) q ->
  (forall s', between_ s' -> searches en try_ (q + 1) en (fun f n => m f n s')) ->
  searches en try_ q en (fun f n =>
    if negb (Z.land fl SreInfoLiteral =? 0) then matched (startAt s q (q + Z.of_nat skip))
    else orElse (match_ U input code f (startAt s q (q + Z.of_nat skip)) (body + 2 * Z.of_nat skip) false) (m f n)).
Proof.
  intros Hlit Hs Hq Hle Hb Hm. pose proof (pf_skip P). assert (begins skip q) as Hb' by (intros k c Hk; apply Hb; lia).
  destruct (prefix_match s q Hs Hq Hle Hb') as (F & [s' v] & Ho & E). destruct (Z.eqb_spec (Z.land fl SreInfoLiteral) 0) as [Hz|Hz]; cbn [negb].
  - destruct (try_ q) as [e|] eqn:Et.
    + destruct Ho as (Hv & Hp & Hg & _). simpl in Hv, Hp. subst v. exists F, (s', 1), (Some (q, e)). split_and!.
      * intros f n Hf Hn. by rewrite (E f n Hf Hn).
      * apply leftmost_here; [lia|exact Et].
      * done.
      * apply Hg.
      * done.
    + destruct Ho as [Hv He]. simpl in Hv, He. subst v. destruct (Hm s') as (F2 & o & r & E2 & Hr & Ho); [exists q; apply He|].
      exists (max F F2), o, r. split_and!; [|eapply leftmost_skip, Hr; [lia|]|done].
      * intros f n Hf Hn. rewrite (E f n) by lia. unfold orElse. cbn. apply E2; lia.
      * intros q' Hq' _. by assert (q' = q) as -> by lia.
  - destruct (Hlit Hz) as [Hsk Hbe]. exists 0%nat, (startAt s q (q + Z.of_nat skip), 1), (Some (q, q + Z.of_nat skip)). split_and!; [done| |done..].
    apply leftmost_here; [lia|]. unfold attempt. rewrite (pf_pat P). change (accept q en false false false) with (@Some Z). rewrite lits_den.
    + unfold len. rewrite length_take_le, Hbe by done. done.
    + intros i c Hi. apply lookup_take_Some in Hi as [Hi Hlt]. by apply (Hb' i c).
Qed.

Lemma no_prefix q k c : 0 <= q <= en -> pre !! k = Some c -> passes input en (fun ch => ch =? c) (q + Z.of_nat k) = false -> try_ q = None.
Proof.
  intros Hq Hk Hf. destruct (try_ q) eqn:E; [|done]. rewrite (pf_match P q Hq) with (k := k) in Hf; [done|by rewrite E|by eapply lookup_lt_Some|done].
Qed.

Lemma findChar_spec c m : forall s p, end_ s = en -> 0 <= p -> p < en -> (Z.to_nat (en - p) <= m)%nat ->
  exists r, (forall n, (m <= n)%nat -> findChar input n s c p = Ret r) /\
    match r with
    | Some q => p <= q < en /\ passes input en (fun ch => ch =? c) q = true /\ forall x, p <= x < q -> passes input en (fun ch => ch =? c) x = false
    | None => forall x, p <= x -> passes input en (fun ch => ch =? c) x = false
    end.
Proof.
  induction m as [|m IH]; intros s p Hs Hp Hlt Hm; [lia|].
  destruct (passes_in input (wp_input W) en Hen p (fun ch => ch =? c)) as (ch & Ech & Ep); [lia|].
  assert (forall n, findChar input (S n) s c p =
    if ch =? c then Ret (Some p) else if en <=? p + 1 then Ret None else findChar input n s c (p + 1)) as Ef.
  { intros n. cbn [findChar]. by rewrite Ech, Hs. }
  destruct (ch =? c).
  - exists (Some p). split_and!; [|lia|lia|done|intros x Hx; lia]. intros [|n] Hn; [lia|apply Ef].
  - destruct (Z.leb_spec en (p + 1)) as [Hle|Hgt].
    + exists None. split; [intros [|n] Hn; [lia|apply Ef]|]. intros x Hx. destruct (Z.eq_dec x p) as [->|]; [done|]. unfold passes.
      by rewrite (proj2 (Z.ltb_ge x en)) by lia.
    + destruct (IH s (p + 1)) as (r & Er & Hr); [done|lia|lia|lia|]. exists r.
      split; [intros [|n] Hn; [lia|]; rewrite Ef; apply Er; lia|]. destruct r as [q|].
      * destruct Hr as (Hq & Eq & Hx). split_and!; [lia|lia|done|]. intros x Hx'. destruct (Z.eq_dec x p) as [->|]; [done|]. apply Hx. lia.
      * intros x Hx. destruct (Z.eq_dec x p) as [->|]; [done|]. apply Hr. lia.
Qed.

Lemma between_end s : between_ s -> end_ s = en.
Proof. by intros [st []]. Qed.

Lemma prefix_point k c : pre !! k = Some c -> int32 c = c.
Proof.
  intros Hk. apply int32_point. pose proof (pf_points P) as H. rewrite forallb_forall in H. apply H, list_elem_of_In.
  by eapply list_elem_of_lookup_2.
Qed.

(** One character. *)
Lemma searchLiteral_spec c fl m : pre = [c] -> (Z.land fl SreInfoLiteral <> 0 -> skip = length pre /\ b = PEmpty) ->
  forall s p, between_ s -> 0 <= p -> p + Z.of_nat m = en + 1 ->
  searches en try_ p en (fun f n => searchLiteral U input code f n s c body (Z.of_nat skip) fl p).
Proof.
  intros Hpre Hlit. pose proof (pf_skip P) as Hskip.
  assert (forall q, 0 <= q <= en -> passes input en (fun ch => ch =? c) q = false -> try_ q = None) as Hno.
  { intros q Hq Hf. apply (no_prefix q 0 c); [done|by rewrite Hpre|by rewrite Z.add_0_r]. }
  induction m as [m IH] using lt_wf_ind. intros s p Hs Hp Hm. pose proof (between_end s Hs) as Ee.
  destruct (Z.lt_ge_cases p en) as [Hlt|Hge].
  - destruct (findChar_spec c (Z.to_nat (en - p)) s p Ee Hp Hlt ltac:(done)) as (r & Er & Hr).
    eapply searches_eq with (m' := fun f n => match n with O => NoFuel | S n => match r with None => failed s | Some p =>
      if negb (Z.land fl SreInfoLiteral =? 0) then matched (startAt s p (p + Z.of_nat skip))
      else orElse (match_ U input code f (startAt s p (p + Z.of_nat skip)) (body + 2 * Z.of_nat skip) false) (fun s =>
             searchLiteral U input code f n (resetCaptureGroup s) c body (Z.of_nat skip) fl (p + 1)) end end).
    { exists (Z.to_nat (en - p)). intros f [|n] Hf Hn; [done|]. cbn [searchLiteral]. rewrite Ee, (proj2 (Z.ltb_lt _ _)) by done.
      by rewrite Er. }
    eapply searches_S; [intros; reflexivity|]. cbv beta iota. destruct r as [q|].
    + destruct Hr as (Hq & Eq & Hx). apply (searches_weaken en _ p q en en); [lia|lia| |intros; lia|].
      { intros x Hxq _. apply Hno; [lia|by apply Hx]. }
      apply (prefix_step fl q s (fun f n s' => searchLiteral U input code f n (resetCaptureGroup s') c body (Z.of_nat skip) fl (q + 1)));
        [done|done|lia|rewrite Hpre in Hskip; simpl in Hskip; lia| |].
      * intros k c' Hk Hc. rewrite Hpre in Hc. destruct k; [|done]. simplify_eq/=. by rewrite Z.add_0_r.
      * intros s' Hs'. apply (IH (Z.to_nat (en - q))); [lia|by apply between_reset|lia|lia].
    + apply searches_none. intros q Hq. apply Hno; [lia|apply Hr; lia].
  - eapply searches_S; [|apply (searches_none _ _ _ _ s)].
    + intros f n. cbn [searchLiteral]. by rewrite Ee, (proj2 (Z.ltb_ge _ _)) by lia.
    + intros q Hq. apply Hno; [lia|]. unfold passes. by rewrite (proj2 (Z.ltb_ge _ _)) by lia.
Qed.

(** The first [n] characters of the prefix's first [i] are also the last of
    them. *)
Definition border (n i : nat) : Prop := forall k, (k < n)%nat -> pre !! k = pre !! (i - n + k)%nat.

(** The table holds the longest of the shorter borders. *)
Definition overlaps (table : list Z) : Prop :=
  forall i, (1 <= i <= length pre)%nat -> exists n, table !! (i - 1)%nat = Some (Z.of_nat n) /\ (n < i)%nat /\ border n i /\
    forall n', (n < n' < i)%nat -> ~ border n' i.

(** What is in front of [p] has no match, and the prefix goes on from its
    border. *)
Lemma border_shift i n p : (n < i <= length pre)%nat -> border n i -> (forall n', (n < n' < i)%nat -> ~ border n' i) ->
  begins i (p - Z.of_nat i) -> 0 <= p - Z.of_nat i -> p <= en ->
  begins n (p - Z.of_nat n) /\ forall q, p - Z.of_nat i < q < p - Z.of_nat n -> try_ q = None.
Proof.
  intros Hn Hb Hmax Hi Hp Hle. split.
  - intros k c Hk Hc. rewrite Hb in Hc by done. replace (p - Z.of_nat n + Z.of_nat k) with (p - Z.of_nat i + Z.of_nat (i - n + k)) by lia.
    apply Hi; [lia|done].
  - intros q Hq. destruct (try_ q) eqn:E; [|done]. destruct (Hmax (Z.to_nat (p - q))); [lia|]. intros k Hk.
    destruct (lookup_lt_is_Some_2 pre k ltac:(lia)) as [c Ec].
    destruct (lookup_lt_is_Some_2 pre (i - Z.to_nat (p - q) + k) ltac:(lia)) as [c' Ec']. rewrite Ec, Ec'. f_equal.
    assert (passes input en (fun ch => ch =? c) (q + Z.of_nat k) = true) as H1 by (apply (pf_match P q ltac:(lia) ltac:(cbv beta in *; congruence) k c); [lia|done]).
    assert (passes input en (fun ch => ch =? c') (q + Z.of_nat k) = true) as H2.
    { replace (q + Z.of_nat k) with (p - Z.of_nat i + Z.of_nat (i - Z.to_nat (p - q) + k)) by lia. apply Hi; [lia|done]. }
    unfold passes in H1, H2. destruct (chAt input (q + Z.of_nat k)) as [ch|]; [|by rewrite andb_false_r in H1].
    apply andb_true_iff in H1 as [_ H1%Z.eqb_eq], H2 as [_ H2%Z.eqb_eq]. congruence.
Qed.

(** No match starts where the prefix does not. *)
Lemma not_begins q k : 0 <= q <= en -> (k < length pre)%nat -> en <= q + Z.of_nat k -> try_ q = None.
Proof.
  intros Hq Hk Hge. destruct (lookup_lt_is_Some_2 pre k Hk) as [c Ec]. apply (no_prefix q k c); [done|done|].
  unfold passes. by rewrite (proj2 (Z.ltb_ge _ _)) by lia.
Qed.

Section Overlap.
Context (table : list Z) (prefix fl : Z) (Ht : overlaps table) (Hc : codeAt code prefix (pre ++ table)) (Hlen : (2 <= length pre)%nat).
Context (Hlit : Z.land fl SreInfoLiteral <> 0 -> skip = length pre /\ b = PEmpty).
Notation go f n s p i := (searchPrefix U input code f n s prefix (len pre) (Z.of_nat skip) body fl p i).

Lemma prefix_at k c : pre !! k = Some c -> at_ code (prefix + Z.of_nat k) = Ret c.
Proof. intros Hk. eapply codeAt_lookup; [exact Hc|]. by apply lookup_app_l_Some. Qed.

Lemma table_at i n : (1 <= i <= length pre)%nat -> table !! (i - 1)%nat = Some n -> at_ code (prefix + len pre - 1 + Z.of_nat i) = Ret n.
Proof.
  intros Hi Hn. replace (prefix + len pre - 1 + Z.of_nat i) with (prefix + Z.of_nat (length pre + (i - 1))) by (unfold len; lia).
  eapply codeAt_lookup; [exact Hc|]. rewrite lookup_app_r by lia. by replace (length pre + (i - 1) - length pre)%nat with (i - 1)%nat by lia.
Qed.

(** The search goes on at the border. *)
Lemma fall_back i s p (m : nat -> nat -> state -> Z -> Z -> outcome) : (1 <= i <= length pre)%nat -> begins i (p - Z.of_nat i) ->
  0 <= p - Z.of_nat i -> p <= en ->
  (forall n, (n < i)%nat -> begins n (p - Z.of_nat n) -> searches en try_ (p - Z.of_nat n) en (fun f k => m f k s p (Z.of_nat n))) ->
  searches en try_ (p - Z.of_nat i + 1) en (fun f k => j <- at_ code (prefix + len pre - 1 + Z.of_nat i) ;; m f k s p j).
Proof.
  intros Hi Hb Hp Hle Hm. destruct (Ht i Hi) as (n & En & Hn & Hbd & Hmax). rewrite (table_at i _ Hi En). cbn [rbind].
  destruct (border_shift i n p) as [Hbn Hmid]; try done; [lia|].
  apply (searches_weaken en _ _ (p - Z.of_nat n) en en); [lia|lia| |intros; lia|by apply Hm]. intros q Hq _.
  apply Hmid. lia.
Qed.

Lemma searchPrefix_zero s p : end_ s = en -> 0 <= p < en -> between_ s ->
  (forall q, p <= q -> q + 1 < en -> begins 1 q -> searches en try_ q en (fun f n => go f n (mayStay s) (q + 1) 1)) ->
  searches en try_ p en (fun f n => go f n s p 0).
Proof.
  intros Ee Hp Hs Hgo. destruct (lookup_lt_is_Some_2 pre 0 ltac:(lia)) as [c0 E0].
  destruct (findChar_spec c0 (Z.to_nat (en - p)) s p Ee ltac:(lia) ltac:(lia) ltac:(done)) as (r & Er & Hr).
  assert (forall x, 0 <= x <= en -> passes input en (fun ch => ch =? c0) x = false -> try_ x = None) as Hno.
  { intros x Hx Hf. apply (no_prefix x 0 c0); [done|done|by rewrite Z.add_0_r]. }
  eapply searches_eq with (m' := fun f n => match n with O => NoFuel | S n => match r with None => failed s | Some q =>
    if en <=? q + 1 then failed s else go f n (mayStay s) (q + 1) 1 end end).
  { exists (Z.to_nat (en - p)). intros f [|n] Hf Hn; [done|]. cbn [searchPrefix Z.eqb]. rewrite Ee, (proj2 (Z.ltb_lt _ _)) by lia.
    pose proof (prefix_at 0 c0 E0) as Ea. rewrite Z.add_0_r in Ea. rewrite Ea. cbn [rbind]. rewrite (prefix_point 0 c0 E0), Er by done. done. }
  eapply searches_S; [intros; reflexivity|]. cbv beta iota. destruct r as [q|].
  - destruct Hr as (Hq & Eq & Hx). apply (searches_weaken en _ p q en en); [lia|lia| |intros; lia|].
    { intros x Hxq _. apply Hno; [lia|by apply Hx]. }
    destruct (Z.leb_spec en (q + 1)).
    + apply searches_none. intros x Hx'. apply (not_begins x 1); lia.
    + apply Hgo; [lia|lia|]. intros k c Hk Ec. assert (k = 0%nat) as -> by lia. simplify_eq. by rewrite Z.add_0_r.
  - apply searches_none. intros q Hq. apply Hno; [lia|apply Hr; lia].
Qed.

Lemma searchPrefix_spec N : forall s p i, 2 * (en - p) + Z.of_nat i < Z.of_nat N -> between_ s -> 0 <= p - Z.of_nat i -> p < en ->
  (i < length pre)%nat -> begins i (p - Z.of_nat i) -> searches en try_ (p - Z.of_nat i) en (fun f n => go f n s p (Z.of_nat i)).
Proof.
  induction N as [|N IH]; intros s p i HN Hs Hp Hlt Hi Hb; [lia|]. pose proof (between_end s Hs) as Ee. pose proof (pf_skip P) as Hskip.
  destruct i as [|i'].
  { replace (p - Z.of_nat 0) with p by lia. apply searchPrefix_zero; [done|lia|done|]. intros q Hq Hq' Hbq.
    specialize (IH (mayStay s) (q + 1) 1%nat). replace (q + 1 - Z.of_nat 1) with q in IH by lia.
    apply IH; try done; try lia. destruct Hs as [st Hs]. by eapply mayStay_between. }
  set (i := S i') in *. assert (1 <= i)%nat as Hi1 by lia. clearbody i. clear i'.
  destruct (lookup_lt_is_Some_2 pre i Hi) as [c Ec]. destruct (passes_in input (wp_input W) en Hen p (fun ch => ch =? c)) as (ch & Ech & Ep); [lia|].
  set (q0 := p - Z.of_nat i) in *.
  assert (forall f n, go f (S n) s p (Z.of_nat i) =
    if ch =? c then
      if negb (Z.of_nat i + 1 =? len pre) then if en <=? p + 1 then failed s else go f n s (p + 1) (Z.of_nat i + 1)
      else if negb (Z.land fl SreInfoLiteral =? 0) then matched (startAt s q0 (q0 + Z.of_nat skip))
           else orElse (match_ U input code f (startAt s q0 (q0 + Z.of_nat skip)) (body + 2 * Z.of_nat skip) false) (fun s =>
             if end_ s <=? p + 1 then failed s
             else j <- at_ code (prefix + len pre - 1 + Z.of_nat (S i)) ;; go f n (resetCaptureGroup s) (p + 1) j)
    else j <- at_ code (prefix + len pre - 1 + Z.of_nat i) ;; go f n s p j) as E.
  { intros f n. cbn [searchPrefix]. rewrite (proj2 (Z.eqb_neq _ 0)), Ech, (prefix_at i c Ec) by lia. cbn [rbind].
    rewrite (prefix_point i c Ec), Ee. destruct (ch =? c); [|done]. destruct (Z.eqb_spec (Z.of_nat i + 1) (len pre)) as [El|_]; cbn [negb]; [|done].
    replace (p - (len pre - 1)) with q0 by lia. replace (p - (len pre - Z.of_nat skip - 1)) with (q0 + Z.of_nat skip) by lia.
    replace (Z.of_nat i + 1) with (Z.of_nat (S i)) by lia. done. }
  eapply searches_S; [exact E|]. clear E. cbv beta. destruct (ch =? c) eqn:Em.
  - assert (begins (S i) q0) as Hb'.
    { intros k c' Hk Hc'. destruct (decide (k = i)) as [->|]; [|apply Hb; [lia|done]]. simplify_eq. by replace (q0 + Z.of_nat i) with p by lia. }
    destruct (Z.eqb_spec (Z.of_nat i + 1) (len pre)) as [El|El]; cbn [negb]; unfold len in El.
    + assert (length pre = S i) as Elen by lia. apply prefix_step; [done|done|lia|lia|by rewrite Elen|]. intros s' Hs'. rewrite (between_end s' Hs').
      destruct (Z.leb_spec en (p + 1)).
      * apply searches_none. intros q Hq. apply (not_begins q i); lia.
      * replace (q0 + 1) with (p + 1 - Z.of_nat (S i) + 1) by lia.
        apply (fall_back (S i) (resetCaptureGroup s') (p + 1) (fun f n s p i => go f n s p i)); [lia| |lia|lia|].
        -- by replace (p + 1 - Z.of_nat (S i)) with q0 by lia.
        -- intros n Hn Hbn. apply IH; [lia|by apply between_reset|lia|lia|lia|done].
    + destruct (Z.leb_spec en (p + 1)).
      * apply searches_none. intros q Hq. apply (not_begins q (S i)); lia.
      * replace (Z.of_nat i + 1) with (Z.of_nat (S i)) by lia. replace q0 with (p + 1 - Z.of_nat (S i)) in Hb' |- * by lia.
        apply IH; [lia|done|lia|lia|lia|done].
  - apply (searches_weaken en _ q0 (q0 + 1) en en); [lia|lia| |intros; lia|].
    { intros q Hq _. assert (q = q0) as -> by lia. apply (no_prefix q0 i c); [lia|done|]. by replace (q0 + Z.of_nat i) with p by lia. }
    apply (fall_back i s p (fun f n s p i => go f n s p i)); [lia|done|lia|lia|]. intros n Hn Hbn. apply IH; [lia|done|lia|lia|lia|done].
Qed.
End Overlap.
End Prefix.

(** *** The whole search *)

(** What the INFO block tells the search, and that it is true of the pattern.
    With a prefix or a set [mustAdvance] is ignored; none of the callers sets
    it. *)
Inductive wfHead (mu : bool) : Prop :=
  | HeadNone : h = None -> wfHead mu
  | HeadPlain i : h = Some i -> Z.land (flags i) SreInfoPrefix = 0 -> Z.land (flags i) SreInfoCharset = 0 -> wfHead mu
  | HeadCharset i maxw negated items : h = Some i -> Z.land (flags i) SreInfoPrefix = 0 -> Z.land (flags i) SreInfoCharset <> 0 ->
      mu = false -> infoRest i = maxw :: encodeSet negated items -> forallb wfItem items = true -> startsIn (setTest U negated items) -> wfHead mu
  | HeadPrefix i maxw pre skip b table : h = Some i -> Z.land (flags i) SreInfoPrefix <> 0 -> mu = false ->
      infoRest i = maxw :: len pre :: Z.of_nat skip :: pre ++ table -> prefixed pre skip b -> (1 <= length pre)%nat -> overlaps pre table ->
      (Z.land (flags i) SreInfoLiteral <> 0 -> skip = length pre /\ b = PEmpty) -> wfHead mu.

(** Too little text for the least width. *)
Lemma narrow st mu top q : 0 <= q <= en -> en < q + minWidth a -> attempt st en false mu top q = None.
Proof.
  intros Hq Hw. destruct (attempt st en false mu top q) eqn:E; [|done].
  apply (den_takes U input en groups a (wp_pat W)) in E as (q' & Hq' & _); lia.
Qed.

Lemma firstTry_narrow st mu q : 0 <= q <= en -> en < q + minWidth a -> firstTry st mu q = None.
Proof. intros Hq Hw. unfold firstTry. destruct (q =? st) eqn:E; [|by apply narrow]. apply Z.eqb_eq in E as ->. by apply narrow. Qed.

Lemma firstTry_stay st q : firstTry st false q = try_ q.
Proof. unfold firstTry. by destruct (Z.eqb_spec q st) as [->|]. Qed.

(** What the search does with an INFO block. *)
Definition searchInfo (f : nat) (s : state) (i : info) : outcome :=
  let p := start s in
  let last := if 1 <? minw i then Z.max p (en - (minw i - 1)) else en in
  if negb (Z.land (flags i) SreInfoPrefix =? 0) then
    prefixLen <- at_ code 5 ;;
    prefixSkip <- at_ code 6 ;;
    if prefixLen =? 1 then c <- at_ code 7 ;; searchLiteral U input code f f (mayStay s) (int32 c) body prefixSkip (flags i) p
    else if 1 <? prefixLen then
      if en - p <? prefixLen then failed s else searchPrefix U input code f f s 7 prefixLen prefixSkip body (flags i) p 0
    else searchAll U input code f s body p last
  else if negb (Z.land (flags i) SreInfoCharset =? 0) then searchCharset U input code f f (mayStay s) 5 body p
  else searchAll U input code f s body p last.

Lemma search_info f s i : h = Some i -> end_ s = en -> start s <= en -> search U input code f s 0 =
  if negb (minw i =? 0) && ((en - start s) mod 2 ^ 32 <? minw i) then failed s else searchInfo f s i.
Proof.
  intros Hi Ee Hle.
  assert (codeAt code 0 [word OpInfo; 3 + len (infoRest i); flags i; minw i]) as Hc.
  { exists [], (infoRest i ++ encode a ++ [word OpSuccess]). unfold program. by rewrite Hi. }
  assert (body = 0 + (1 + (3 + len (infoRest i)))) as Eb by (unfold body; rewrite Hi; unfold len; simpl length; lia).
  pose proof (codeAt_bounds _ _ _ Hc) as [_ Hl]. simpl length in Hl.
  apply codeAt_cons in Hc as [E0 [E1 [E2 [E3 _]%codeAt_cons]%codeAt_cons]%codeAt_cons]. change (0 + 1) with 1 in *.
  change (1 + 1) with 2 in *. change (2 + 1) with 3 in *.
  unfold search. rewrite Ee, (proj2 (Z.ltb_ge _ _)), (proj2 (Z.leb_gt _ 0)), E0 by lia. cbn [rbind]. rewrite Z.eqb_refl.
  change (0 + 1) with 1. change (0 + 2) with 2. change (0 + 3) with 3. rewrite E1, E2, E3. cbn [rbind].
  destruct (_ && _); [done|]. unfold searchInfo. by rewrite Eb.
Qed.

Lemma searches_fuel t lo hi (m : nat -> nat -> outcome) : searches en t lo hi m -> searches en t lo hi (fun f _ => m f f).
Proof. intros (F & o & r & E & Hr & Ho). exists F, o, r. split_and!; [intros f n Hf _; by apply E|done|done]. Qed.

Lemma search_spec st mu s : good groups st en false mu s -> 0 <= st <= en -> wfHead mu ->
  searches en (firstTry st mu) st en (fun f _ => search U input code f s 0).
Proof.
  intros Hs Hst Hh. pose proof (g_start _ _ _ _ _ s Hs) as Es. pose proof (g_end _ _ _ _ _ s Hs) as Ee.
  assert (forall i, h = Some i -> searches en (firstTry st mu) st en (fun f _ => searchInfo f s i) ->
    searches en (firstTry st mu) st en (fun f _ => search U input code f s 0)) as Hinfo.
  { intros i Hi Hgo. eapply searches_eq; [exists 0%nat; intros f n _ _; rewrite (search_info f s i Hi Ee) by lia; reflexivity|].
    cbv beta. rewrite Es, Z.mod_small by (pose proof (wp_length W); lia). destruct (_ && _) eqn:Ew; [|exact Hgo].
    apply andb_true_iff in Ew as [_ Ew%Z.ltb_lt]. pose proof (wp_info W) as Hw. unfold wfInfo in Hw. rewrite Hi in Hw.
    apply andb_true_iff in Hw as [_ Hw%Z.leb_le]. apply searches_none. intros q Hq. apply firstTry_narrow; lia. }
  assert (forall i, h = Some i -> searches en (firstTry st mu) st en (fun f _ =>
    searchAll U input code f s body st (if 1 <? minw i then Z.max st (en - (minw i - 1)) else en))) as Hall.
  { intros i Hi. pose proof (wp_info W) as Hw. unfold wfInfo in Hw. rewrite Hi in Hw. apply andb_true_iff in Hw as [_ Hw%Z.leb_le].
    set (last := if 1 <? minw i then Z.max st (en - (minw i - 1)) else en).
    assert (st <= last <= en) as Hlast by (unfold last; destruct (Z.ltb_spec 1 (minw i)); lia).
    apply (searches_weaken en _ st st en last); [lia|lia|intros; lia| |].
    - intros q Hq Hq'. apply firstTry_narrow; [lia|]. unfold last in Hq'. destruct (Z.ltb_spec 1 (minw i)); lia.
    - destruct (searchAll_spec st mu s last Hs ltac:(lia) ltac:(lia)) as (F & o & r & E & Hr & Ho). exists F, o, r. done. }
  assert (between_ (mayStay s)) as Hb by by eapply mayStay_between.
  destruct Hh as [Hi|i Hi Hp Hc|i maxw neg items Hi Hp Hc -> Hrest Hw Ht|i maxw pre skip b table Hi Hp -> Hrest Hpf Hlen Hov Hlit].
  - destruct program_notInfo as (op & Eop & Hop & _). unfold body in Eop. rewrite Hi in Eop. change (len (encodeInfo None)) with 0 in Eop.
    assert (forall f, search U input code f s 0 = searchAll U input code f s 0 st en) as E.
    { intros f. unfold search. rewrite Es, Ee, (proj2 (Z.ltb_ge _ _)), Hi, Eop by lia. cbn [rbind]. rewrite (proj2 (Z.eqb_neq _ _) Hop).
      rewrite (proj2 (Z.leb_gt _ 0)); [done|]. unfold program. rewrite !length_app. simpl. lia. }
    eapply searches_eq; [exists 0%nat; intros f n _ _; apply E|]. assert (0 = body) as -> by (unfold body; by rewrite Hi).
    apply searchAll_spec; [done|lia|lia].
  - apply (Hinfo i Hi). unfold searchInfo. rewrite Hp, Hc. cbn [Z.eqb negb]. rewrite Es. by apply Hall.
  - apply (Hinfo i Hi). unfold searchInfo. rewrite Hp, (proj2 (Z.eqb_neq _ 0) Hc). cbn [Z.eqb negb]. rewrite Es.
    eapply searches_ext; [intros q _; symmetry; apply firstTry_stay|]. apply (searches_fuel _ _ _ (fun f n => searchCharset U input code f n (mayStay s) 5 body st)).
    apply (searchCharset_spec 5 neg items) with (m := Z.to_nat (en + 1 - st)); [|done|done|done|lia|lia].
    exists [word OpInfo; 3 + len (infoRest i); flags i; minw i; maxw], (encode a ++ [word OpSuccess]). split; [|done].
    unfold program. rewrite Hi. cbn [encodeInfo]. by rewrite Hrest.
  - apply (Hinfo i Hi). unfold searchInfo. rewrite (proj2 (Z.eqb_neq _ 0) Hp). cbn [negb]. rewrite Es.
    assert (codeAt code 5 (len pre :: Z.of_nat skip :: pre ++ table)) as Hcode.
    { exists [word OpInfo; 3 + len (infoRest i); flags i; minw i; maxw], (encode a ++ [word OpSuccess]). split; [|done].
      unfold program. rewrite Hi. cbn [encodeInfo]. rewrite Hrest. simpl. by rewrite <- !app_assoc. }
    apply codeAt_cons in Hcode as [E5 [E6 Hcode]%codeAt_cons]. change (5 + 1) with 6 in *. change (6 + 1) with 7 in *. rewrite E5, E6. cbn [rbind].
    eapply searches_ext; [intros q _; symmetry; apply firstTry_stay|]. destruct (Z.eqb_spec (len pre) 1) as [E1|E1].
    + destruct pre as [|c [|c' pre]]; try (unfold len in E1; simpl in E1; lia). pose proof Hcode as [E7 _]%codeAt_cons. rewrite E7. cbn [rbind].
      rewrite (prefix_point _ _ _ Hpf 0 c eq_refl).
      apply (searches_fuel _ _ _ (fun f n => searchLiteral U input code f n (mayStay s) c body (Z.of_nat skip) (flags i) st)).
      apply (searchLiteral_spec [c] skip b Hpf c (flags i) (Z.to_nat (en + 1 - st)) eq_refl Hlit); [done|lia|lia].
    + unfold len in E1. assert (2 <= length pre)%nat as Hlen2 by lia. rewrite (proj2 (Z.ltb_lt 1 _)) by (unfold len; lia).
      destruct (Z.ltb_spec (en - st) (len pre)) as [Hsh|Hsh]; unfold len in Hsh.
      * apply searches_none. intros q Hq. apply (not_begins pre skip b Hpf q (length pre - 1)%nat); lia.
      * apply (searches_fuel _ _ _ (fun f n => searchPrefix U input code f n s 7 (len pre) (Z.of_nat skip) body (flags i) st 0)).
        apply (searchPrefix_zero pre skip b Hpf table 7 (flags i) Hcode Hlen2 Hlit); [done|lia|by exists st|].
        intros q Hq Hq' Hbq. replace q with (q + 1 - Z.of_nat 1) by lia.
        pose proof (searchPrefix_spec pre skip b Hpf table 7 (flags i) Hov Hcode Hlen2 Hlit (Z.to_nat (2 * en + 2)) (mayStay s) (q + 1) 1) as Hsp.
        replace (q + 1 - Z.of_nat 1) with q in * by lia. apply Hsp; try done; lia.
Qed.
End Searching.
End Run.

(** ** The entry points *)

Lemma search_program U input groups h a pos endpos mu : wfProgram U input groups h a ->
  let st := clip 0 pos (len input) in let en := clip 0 endpos (len input) in st <= en -> wfHead U input h a en mu ->
  exists F r o, (forall fuel, (F <= fuel)%nat -> Search U input (program h a) fuel groups pos endpos mu = Ret r) /\
    leftmost (firstTry U input a en st mu) st en o /\
    match o with
    | Some (q, e) => Matched r = true /\ take 2 (Locs r) = [q; e]
    | None => r = mkResult false [] 0
    end.
Proof.
  intros W st en Hle Hh. assert (0 <= len input) as Hl by (unfold len; lia). pose proof (clip_bounds pos (len input) Hl) as Hst.
  pose proof (clip_bounds endpos (len input) Hl) as Hen. fold st in Hst. fold en in Hen.
  destruct (search_spec U input groups h a W en Hen st mu _ (newState_good input groups pos endpos false mu) ltac:(lia) Hh) as (F & [s v] & o & E & Hr & Ho).
  assert (forall f, (F <= f)%nat -> Search U input (program h a) f groups pos endpos mu = resultOf groups (Ret (s, v))) as Es.
  { intros f Hf. unfold Search. f_equal. by apply (E f f). }
  destruct o as [[q e]|].
  - destruct Ho as (Hv & Hq & He). simpl in Hv, Hq, He. subst v. eexists F, _, (Some (q, e)). split; [exact Es|].
    split_and!; [done..|]. simpl. by rewrite Hq, He.
  - simpl in Ho. subst v. by exists F, (mkResult false [] 0), None.
Qed.

(** C7: [Match] on the program of a pattern ends, without a panic, in the match at
    [pos] that Python's order of trying the alternatives finds first, and in no
    match when there is none: from some fuel on its result is that of the meaning of
    the pattern ([den], a backtracking search with continuations), for match and
    fullmatch, with and without [mustAdvance], whenever [pos] is not behind
    [endpos]. The program is the bytecode re._compiler writes ([wfProgram]) for a
    pattern of characters, sets, sequences, branches, marks, positions, greedy, lazy
    and possessive repeats, atomic groups and lookarounds, so without
    back-references and group conditions; its INFO block claims no more than the
    pattern's least width, its counts and marks are in range, and no big set uses a
    block above 127 ([high_block]). The text is shorter than 2^32 code points, and
    Go's lower case maps code points to code points; the tests of one character are
    the engine's own. Of the result the theorem gives the span of the whole match;
    the spans of groups are not claimed ([stale_group]). *)
Theorem match_finds U input groups h a pos endpos ma mu : wfProgram U input groups h a ->
  let st := clip 0 pos (len input) in let en := clip 0 endpos (len input) in st <= en ->
  exists F r, (forall fuel, (F <= fuel)%nat -> Match U input (program h a) fuel groups pos endpos ma mu = Ret r) /\
    match den U input en a (accept st en ma mu true) st with
    | Some e => Matched r = true /\ take 2 (Locs r) = [st; e]
    | None => r = mkResult false [] 0
    end.
Proof. intros W st en Hle. exact (match_program U input groups h a W pos endpos ma mu Hle). Qed.

(** C8: [Search] ends in the leftmost match, and in no match when there is none:
    stepping over the start positions with the prefix and its overlap table, with
    the set of first characters, or one by one, it returns the first start, from
    [pos] on, at which the pattern matches, with the end that Python's order finds
    first there; with [mustAdvance] the attempt at [pos] itself has to move. This is
    for the programs, texts and windows of [match_finds] whose INFO block is true of
    the pattern ([wfHead]): every match begins with the prefix, the pattern with its
    skipped literals (all of it, when the block says it is literal), the table holds
    the longest border of each beginning of the prefix, and every match begins in
    the charset; the last two kinds of block are for searches without [mustAdvance].
    Of the result the theorem gives the span of the whole match. *)
Theorem search_leftmost U input groups h a pos endpos mu : wfProgram U input groups h a ->
  let st := clip 0 pos (len input) in let en := clip 0 endpos (len input) in st <= en -> wfHead U input h a en mu ->
  exists F r o, (forall fuel, (F <= fuel)%nat -> Search U input (program h a) fuel groups pos endpos mu = Ret r) /\
    leftmost (firstTry U input a en st mu) st en o /\
    match o with
    | Some (q, e) => Matched r = true /\ take 2 (Locs r) = [q; e]
    | None => r = mkResult false [] 0
    end.
Proof. intros W st en Hle Hh. exact (search_program U input groups h a pos endpos mu W Hle Hh). Qed.

(** *** Examples *)

Definition ascii : unicode :=
  mkUnicode sreLowerAscii sreUpperLocale (fun ch => between 65 ch 90 || between 97 ch 122) sreIsDigit sreIsDigit sreIsSpace.

Lemma ascii_wf : wfUnicode ascii.
Proof. split. exact lower_ascii_point. Qed.

Definition lit (c : Z) : pat := PChar (CLiteral OpLiteral c).

(** [((a|ba)*c] with the least width in its INFO block, and the text abac. *)
Definition exPat : pat := PSeq (PRepeat true 0 MaxRepeat (PSeq (PMark 0) (PSeq (PAlt [lit 97; PSeq (lit 98) (lit 97)]) (PMark 1)))) (lit 99).
Definition exInfo : option info := Some (mkInfo 0 1 [MaxRepeat]).

Lemma match_finds_witness : exists F r,
  (forall fuel, (F <= fuel)%nat -> Match ascii [97; 98; 97; 99] (program exInfo exPat) fuel 1 0 9 false false = Ret r) /\
  Matched r = true /\ take 2 (Locs r) = [0; 4].
Proof.
  apply (match_finds ascii [97; 98; 97; 99] 1 exInfo exPat 0 9 false false); [|done].
  split; [exact ascii_wf|reflexivity..].
Defined.

(** A pattern that begins with all of its prefix. *)
Lemma lits_prefixed U input groups h a en pre b : wfProgram U input groups h a -> 0 <= en <= len input -> forallb codePoint pre = true ->
  a = lits pre b -> prefixed U input a en pre (length pre) b.
Proof.
  intros W Hen Hpre Ha. split; [done|done|by rewrite firstn_all|]. intros q Hq Ht k c Hk Hc. unfold attempt in Ht. rewrite Ha in Ht.
  clear Hpre Ha Hk. assert (exists k', den U input en (lits pre b) k' q <> None) as [k' Hk'] by by exists (accept q en false false false). clear Ht.
  revert q k k' Hq Hc Hk'. induction pre as [|c' pre IH]; intros q k k' Hq Hc Ht; [done|].
  change (den U input en (lits (c' :: pre) b) k' q) with (denChar U input en (CLiteral OpLiteral c') (den U input en (lits pre b) k') q) in Ht.
  unfold denChar in Ht. change (oneTest U (CLiteral OpLiteral c')) with (fun ch => ch =? c') in Ht.
  destruct (passes input en (fun ch => ch =? c') q) eqn:Ep; [|done]. destruct k as [|k].
  - simplify_eq/=. by rewrite Z.add_0_r.
  - apply passes_end in Ep. replace (q + Z.of_nat (S k)) with (q + 1 + Z.of_nat k) by lia. by apply (IH (q + 1) k k'); [lia|..].
Qed.

(** [aabc+], whose prefix aab has the overlaps 0, 1, 0, and the text aabaabcc. *)
Definition exPrefix : list Z := [97; 97; 98].
Definition exRest : pat := PRepeatOne true 1 MaxRepeat (CLiteral OpLiteral 99).
Definition exSearchInfo : option info := Some (mkInfo SreInfoPrefix 4 (MaxRepeat :: 3 :: 3 :: exPrefix ++ [0; 1; 0])).
Definition exText : list Z := [97; 97; 98; 97; 97; 98; 99; 99].

Lemma exPrefix_overlaps : overlaps exPrefix [0; 1; 0].
Proof.
  intros i Hi. unfold border. destruct i as [|[|[|[|i]]]]; simpl in Hi; try lia.
  - exists 0%nat. split_and!; [done|lia|intros k Hk; lia|intros n Hn; lia].
  - exists 1%nat. split_and!; [done|lia|intros [|k] Hk; [done|lia]|intros n Hn; lia].
  - exists 0%nat. split_and!; [done|lia|intros k Hk; lia|]. intros [|[|[|n]]] Hn Hb; try lia.
    + by specialize (Hb 0%nat ltac:(lia)).
    + by specialize (Hb 1%nat ltac:(lia)).
Qed.

Lemma exSearch_wf : wfProgram ascii exText 0 exSearchInfo (lits exPrefix exRest).
Proof. split; [exact ascii_wf|reflexivity..]. Qed.

Lemma exSearch_head : wfHead ascii exText exSearchInfo (lits exPrefix exRest) 8 false.
Proof.
  apply (HeadPrefix ascii exText exSearchInfo (lits exPrefix exRest) 8 false (mkInfo SreInfoPrefix 4 (MaxRepeat :: 3 :: 3 :: exPrefix ++ [0; 1; 0]))
    MaxRepeat exPrefix 3 exRest [0; 1; 0]); [done|done|done|done| |simpl; lia|exact exPrefix_overlaps|by intros []].
  apply (lits_prefixed ascii exText 0 exSearchInfo _ 8 exPrefix exRest exSearch_wf); [by vm_compute|done|done].
Qed.

Lemma search_leftmost_witness : exists F r o,
  (forall fuel, (F <= fuel)%nat -> Search ascii exText (program exSearchInfo (lits exPrefix exRest)) fuel 0 0 8 false = Ret r) /\
  leftmost (firstTry ascii exText (lits exPrefix exRest) 8 0 false) 0 8 o /\
  match o with Some (q, e) => Matched r = true /\ take 2 (Locs r) = [q; e] | None => r = mkResult false [] 0 end.
Proof.
  apply (search_leftmost ascii exText 0 exSearchInfo (lits exPrefix exRest) 0 8 false exSearch_wf); [done|exact exSearch_head].
Defined.

(** *** Groups that were left *)

(** [locsFrom] copies the marks of all groups: of one whose alternative was
    given up too, whose marks [lastmark] no longer counts.  Here the text ac is
    matched by the second alternative of [(?:(a)b|ac)], and the first group is
    reported at 0 to 1. *)
Lemma stale_group : Match ascii [97; 99]
  (program None (PAlt [PSeq (PMark 0) (PSeq (lit 97) (PSeq (PMark 1) (lit 98))); PSeq (lit 97) (lit 99)])) 50 1 0 2 false false
  = Ret (mkResult true [0; 2; 0; 1] (-1)).
Proof. vm_compute. reflexivity. Qed.

(** The block number of a character is read as a signed byte: block 128 is never
    looked at. *)
Lemma high_block : let bits := List.repeat 0 8 in
  let it := IBigcharset (List.repeat 128 256) (List.repeat bits 128 ++ [List.repeat 4294967295 8]) in
  charset ascii (encodeSet false [it]) 0 97 = Ret false /\ setTest ascii false [it] 97 = true.
Proof. by vm_compute. Qed.
