(* ===== verification/SreLang.v ===== *)
(** * SreLang: the text a pattern stands for

    A declarative meaning for the patterns without atomic groups and possessive
    repeats: the spans of the text they match, in no order and without
    backtracking.  The engine's fullmatch answers whether the window is such a
    span. *)

From S2P Require Import Prelude Sre SreSem SreSound SreMatch.
Local Open Scope Z_scope.
Local Open Scope sre_scope.

(** [n] times in a row. *)
Fixpoint iterated (R : Z -> Z -> Prop) (n : nat) (i j : Z) : Prop :=
  match n with O => i = j | S n => exists m, R i m /\ iterated R n m j end.

(** As often as the bounds allow. *)
Definition repeated (R : Z -> Z -> Prop) (lo hi i j : Z) : Prop :=
  exists n : nat, lo <= Z.of_nat n /\ (Z.of_nat n <= hi \/ hi = MaxRepeat) /\ iterated R n i j.

(** No part whose way of matching is chosen once. *)
Fixpoint plain (a : pat) : bool :=
  match a with
  | PEmpty | PFail | PChar _ | PMark _ | PAt _ | PRepeatOne _ _ _ _ => true
  | PSeq a b => plain a && plain b
  | PAlt l => forallb plain l
  | PRepeat _ _ _ a | PLook _ _ a => plain a
  | PPossessive _ _ _ | PPossessiveOne _ _ _ | PAtomic _ => false
  end.

Section Lang.
Context (U : unicode) (input : list Z) (en : Z).

Definition oneSpan (c : char1) (i j : Z) : Prop := passes input en (oneTest U c) i = true /\ j = i + 1.

Fixpoint spans (a : pat) (i j : Z) : Prop :=
  match a with
  | PEmpty | PMark _ => i = j
  | PFail => False
  | PChar c => oneSpan c i j
  | PSeq a b => exists m, spans a i m /\ spans b m j
  | PAlt l => foldr (fun a r => spans a i j \/ r) False l
  | PAt w => positionTest U input en w i = true /\ i = j
  | PRepeat _ lo hi a => repeated (spans a) lo hi i j
  | PRepeatOne _ lo hi c => repeated (oneSpan c) lo hi i j
  | PLook negative back a =>
      i = j /\ if negative then ~ (back <= i /\ exists m, spans a (i - back) m) else back <= i /\ exists m, spans a (i - back) m
  | PPossessive _ _ _ | PPossessiveOne _ _ _ | PAtomic _ => False
  end.

(** A matcher that finds a way through the spans of [R] when there is one. *)
Record decides (m : (Z -> option Z) -> Z -> option Z) (R : Z -> Z -> Prop) : Prop := {
  d_bounds : forall p q, 0 <= p <= en -> R p q -> p <= q <= en;
  d_sound : forall k p e, 0 <= p <= en -> m k p = Some e -> exists q, R p q /\ k q = Some e;
  d_complete : forall k p q, 0 <= p <= en -> R p q -> k q <> None -> m k p <> None
}.

Lemma iterated_bounds R : (forall p q, 0 <= p <= en -> R p q -> p <= q <= en) -> forall n p q, 0 <= p <= en -> iterated R n p q -> p <= q <= en.
Proof.
  intros H n. induction n as [|n IH]; intros p q Hp; simpl; [intros <-; lia|]. intros (m & Hm & Hi). apply H in Hm; [|done]. apply IH in Hi; lia.
Qed.

(** Turns that stay can be left out. *)
Lemma iterated_moves R n : forall p q, iterated R n p q -> exists n', (n' <= n)%nat /\ iterated (fun i j => R i j /\ i <> j) n' p q.
Proof.
  induction n as [|n IH]; intros p q; simpl; [intros <-; by exists 0%nat|]. intros (m & Hm & (n' & Hn & Hi)%IH).
  destruct (Z.eq_dec p m) as [<-|Hne]; [exists n'; split; [lia|done]|]. exists (S n'). split; [lia|]. by exists m.
Qed.

Lemma orElse_left x y : x <> None -> orElse_ x y <> None.
Proof. by destruct x. Qed.
Lemma orElse_right x y : y <> None -> orElse_ x y <> None.
Proof. by destruct x. Qed.

Section Turns.
Context (greedy : bool) (m : (Z -> option Z) -> Z -> option Z) (R : Z -> Z -> Prop) (D : decides m R) (lo hi : Z) (Hlo : 0 <= lo <= hi).

Lemma turns_sound N : forall cnt last k p e, 0 <= p <= en -> (cnt <= hi \/ hi = MaxRepeat) -> turns N greedy m lo hi cnt last k p = Some e ->
  exists n q, iterated R n p q /\ lo <= cnt + Z.of_nat n /\ (cnt + Z.of_nat n <= hi \/ hi = MaxRepeat) /\ k q = Some e.
Proof.
  induction N as [|N IH]; intros cnt last k p e Hp Hc E; [done|]. cbn [turns] in E.
  assert (forall last', (cnt + 1 <= hi \/ hi = MaxRepeat) -> m (turns N greedy m lo hi (cnt + 1) last' k) p = Some e ->
    exists n q, iterated R n p q /\ lo <= cnt + Z.of_nat n /\ (cnt + Z.of_nat n <= hi \/ hi = MaxRepeat) /\ k q = Some e) as Hturn.
  { intros last' Hc' E'. apply (d_sound _ _ D) in E' as (q & Hq & E'); [|done]. pose proof (d_bounds _ _ D p q Hp Hq).
    apply IH in E' as (n & q' & Hi & Hl & Hh & Ek); [|lia|done]. exists (S n), q'. split_and!; [by exists q|lia|lia|done]. }
  destruct (Z.ltb_spec cnt lo); [apply (Hturn last); [lia|done]|].
  assert (forall e', k p = Some e' -> Some e' = Some e ->
    exists n q, iterated R n p q /\ lo <= cnt + Z.of_nat n /\ (cnt + Z.of_nat n <= hi \/ hi = MaxRepeat) /\ k q = Some e) as Hk.
  { intros e' Ek [= ->]. exists 0%nat, p. split_and!; [done|lia|lia|done]. }
  set (more := if canMore cnt hi && _ then _ else None) in E.
  assert (more = Some e -> exists n q, iterated R n p q /\ lo <= cnt + Z.of_nat n /\ (cnt + Z.of_nat n <= hi \/ hi = MaxRepeat) /\ k q = Some e) as Hmore.
  { unfold more. destruct (canMore cnt hi && _) eqn:Em; [|done]. apply Hturn. apply andb_true_iff in Em as [Em _]. unfold canMore in Em.
    apply orb_true_iff in Em as [Em%Z.ltb_lt|Em%Z.eqb_eq]; [lia|by right]. }
  destruct greedy, more as [x|], (k p) as [e'|] eqn:Ek; cbn [orElse_] in E; solve [auto|by eapply Hk|done].
Qed.

Lemma turns_optional N : forall cnt last k p n q, 0 <= p <= en -> lo <= cnt -> (cnt + Z.of_nat n <= hi \/ hi = MaxRepeat) ->
  2 * (en - p) < Z.of_nat N -> last <> Some p -> iterated (fun i j => R i j /\ i <> j) n p q -> k q <> None ->
  turns N greedy m lo hi cnt last k p <> None.
Proof.
  induction N as [|N IH]; intros cnt last k p n q Hp Hc Hn HN Hl Hi Hk; [lia|]. cbn [turns]. rewrite (proj2 (Z.ltb_ge _ _)) by lia. cbv zeta.
  destruct n as [|n].
  - simpl in Hi. subst q. destruct greedy; [by apply orElse_right|by apply orElse_left].
  - destruct Hi as (x & [Hx Hne] & Hi). pose proof (d_bounds _ _ D p x Hp Hx).
    assert (canMore cnt hi && bool_decide (last <> Some p) = true) as ->.
    { apply andb_true_iff. split; [|by apply bool_decide_eq_true]. unfold canMore. apply orb_true_iff. rewrite Z.ltb_lt, Z.eqb_eq. lia. }
    assert (m (turns N greedy m lo hi (cnt + 1) (Some p) k) p <> None) as Hm.
    { apply (d_complete _ _ D _ p x Hp Hx). apply (IH _ _ _ _ n q); try done; [lia|lia|lia|lia|congruence]. }
    destruct greedy; [by apply orElse_left|by apply orElse_right].
Qed.

Lemma turns_complete N : forall cnt k p n q, 0 <= p <= en -> 0 <= cnt -> lo <= cnt + Z.of_nat n -> (cnt + Z.of_nat n <= hi \/ hi = MaxRepeat) ->
  Z.max 0 (lo - cnt) + 2 * (en - p) < Z.of_nat N -> iterated R n p q -> k q <> None ->
  turns N greedy m lo hi cnt None k p <> None.
Proof.
  induction N as [|N IH]; intros cnt k p n q Hp Hc Hl Hn HN Hi Hk; [lia|]. destruct (Z.ltb_spec cnt lo) as [Hlt|Hge].
  - cbn [turns]. rewrite (proj2 (Z.ltb_lt _ _)) by lia. destruct n as [|n]; [lia|]. destruct Hi as (x & Hx & Hi).
    pose proof (d_bounds _ _ D p x Hp Hx). apply (d_complete _ _ D _ p x Hp Hx). apply (IH _ _ _ n q); try done; lia.
  - apply iterated_moves in Hi as (n' & Hn' & Hi). apply (turns_optional (S N) cnt None k p n' q); try done; lia.
Qed.

Lemma turns_decides : decides (fun k p => turns (budget en lo p) greedy m lo hi 0 None k p) (repeated R lo hi).
Proof.
  split.
  - intros p q Hp (n & _ & _ & Hi). by apply (iterated_bounds R (d_bounds _ _ D) n).
  - intros k p e Hp E. apply turns_sound in E as (n & q & Hi & Hl & Hh & Ek); [|done|lia]. exists q. split; [|done].
    exists n. split_and!; [lia|lia|done].
  - intros k p q Hp (n & Hl & Hh & Hi) Hk. apply (turns_complete _ 0 k p n q); try done; try lia. unfold budget. lia.
Qed.
End Turns.

Lemma denChar_decides c : decides (denChar U input en c) (oneSpan c).
Proof.
  split; unfold oneSpan, denChar.
  - intros p q Hp [Ht%passes_end ->]. lia.
  - intros k p e Hp E. destruct (passes _ _ _ p); [by exists (p + 1)|done].
  - by intros k p q Hp [-> ->] Hk.
Qed.

Lemma den_decides groups a : wfPat groups a = true -> plain a = true -> decides (den U input en a) (spans a).
Proof.
  induction a as [ | |c|a b IHa IHb|l IH|i|w|greedy lo hi a IH|greedy lo hi c|lo hi a IH|lo hi c|a IH|neg back a IH] using pat_induction; intros Hw Hp;
    cbn [wfPat plain] in *; try done.
  - split; cbn [den spans]; [intros p q ? <-; lia|eauto|by intros k p q ? <- ?].
  - apply denChar_decides.
  - apply andb_true_iff in Hw as [Hwa Hwb], Hp as [Hpa Hpb]. specialize (IHa Hwa Hpa). specialize (IHb Hwb Hpb). split; cbn [den spans].
    + intros p q Hp' (m & H1 & H2). apply (d_bounds _ _ IHa) in H1; [|done]. apply (d_bounds _ _ IHb) in H2; lia.
    + intros k p e Hp' (q & Hq & E)%(d_sound _ _ IHa); [|done]. pose proof (d_bounds _ _ IHa p q Hp' Hq).
      apply (d_sound _ _ IHb) in E as (q' & Hq' & E); [|lia]. exists q'. split; [by exists q|done].
    + intros k p q Hp' (m & H1 & H2) Hk. pose proof (d_bounds _ _ IHa p m Hp' H1). apply (d_complete _ _ IHa _ p m); try done.
      apply (d_complete _ _ IHb _ m q); [lia|done|done].
  - induction IH as [|a l Ha _ IH]; cbn [forallb] in Hw, Hp; [by split|]. apply andb_true_iff in Hw as [Hwa Hw], Hp as [Hpa Hp].
    specialize (Ha Hwa Hpa). specialize (IH Hw Hp). destruct IH as [IHb IHs IHc]. cbn [den spans] in IHb, IHs, IHc. split; cbn [den spans foldr].
    + intros p q Hp' [H|H]; [by apply (d_bounds _ _ Ha)|by apply IHb].
    + intros k p e Hp' E. destruct (den _ _ _ a k p) as [e'|] eqn:Ea; cbn [orElse_] in E.
      * simplify_eq. apply (d_sound _ _ Ha) in Ea as (q & Hq & Ek); [|done]. exists q. auto.
      * apply IHs in E as (q & Hq & Ek); [|done]. exists q. auto.
    + intros k p q Hp' [H|H] Hk; [apply orElse_left; by apply (d_complete _ _ Ha k p q)|apply orElse_right; by apply (IHc k p q)].
  - split; cbn [den spans]; [intros p q ? <-; lia|eauto|by intros k p q ? <- ?].
  - split; cbn [den spans].
    + intros p q ? [_ <-]. lia.
    + intros k p e _ E. exists p. by destruct (positionTest _ _ _ _ _).
    + by intros k p q _ [-> <-].
  - apply andb_true_iff in Hw as [Hc Hw]. apply wfCounts_spec in Hc. apply turns_decides; [by apply IH|lia].
  - apply andb_true_iff in Hw as [Hc Hw]. apply wfCounts_spec in Hc. apply turns_decides; [apply denChar_decides|lia].
  - apply andb_true_iff in Hw as [Hb%Z.leb_le Hw]. specialize (IH Hw Hp).
    assert (forall p, 0 <= p <= en -> (if p <? back then false else match den U input en a Some (p - back) with Some _ => true | None => false end) = true
      <-> back <= p /\ exists m, spans a (p - back) m) as Hf.
    { intros p Hp'. destruct (Z.ltb_spec p back); [split; [done|lia]|]. destruct (den _ _ _ a Some (p - back)) as [e|] eqn:E; (split; [|]).
      - intros _. split; [lia|]. apply (d_sound _ _ IH) in E as (q & Hq & _); [by exists q|lia].
      - done.
      - done.
      - intros (_ & q & Hq). exfalso. by apply (d_complete _ _ IH Some (p - back) q ltac:(lia) Hq). }
    split; cbn [den spans].
    + intros p q ? [<- _]. lia.
    + intros k p e Hp' E. exists p. specialize (Hf p Hp'). destruct (if p <? back then _ else _), neg; cbn [Bool.eqb] in E; try done; split; try done; split; try done;
        [by apply Hf|]. intros H. by apply Hf in H.
    + intros k p q Hp' [<- H] Hk. specialize (Hf p Hp'). destruct (if p <? back then _ else _), neg; cbn [Bool.eqb]; try done.
      * exfalso. by apply H, Hf.
      * by apply Hf in H.
Qed.
End Lang.

(** ** Fullmatch *)

(** C9: for a pattern without possessive and atomic parts, fullmatch answers whether
    the window as a whole is a span of the pattern, in a meaning without
    backtracking or order ([spans]): the engine's backtracking, the optional turns
    that are cut off when they do not move, and its shortcuts lose no match and make
    none. The programs, texts and windows are those of [match_finds]. *)
Theorem fullmatch_language U input groups h a pos endpos : wfProgram U input groups h a -> plain a = true ->
  let st := clip 0 pos (len input) in let en := clip 0 endpos (len input) in st <= en ->
  exists F r, (forall fuel, (F <= fuel)%nat -> Match U input (program h a) fuel groups pos endpos true false = Ret r) /\
    (Matched r = true <-> spans U input en a st en).
Proof.
  intros W Hp st en Hle. destruct (match_program U input groups h a W pos endpos true false Hle) as (F & r & E & Hr). exists F, r. split; [done|].
  assert (0 <= len input) as Hl by (unfold len; lia). pose proof (clip_bounds pos (len input) Hl) as Hst.
  pose proof (clip_bounds endpos (len input) Hl) as Hen. fold st in Hst, Hr. fold en in Hen, Hr.
  pose proof (den_decides U input en groups a (wp_pat _ _ _ _ _ W) Hp) as D. unfold attempt in Hr.
  destruct (den U input en a _ st) as [e|] eqn:Ed; (split; [intros Hm|intros Hs]).
  - apply (d_sound _ _ _ D) in Ed as (q & Hq & Ek); [|lia]. unfold accept in Ek. cbn [andb orb] in Ek. rewrite orb_false_r in Ek.
    by destruct (Z.eqb_spec q en) as [->|].
  - by destruct Hr.
  - by rewrite Hr in Hm.
  - exfalso. apply (d_complete _ _ _ D (accept st en true false true) st en) in Ed; [done|lia|done|]. unfold accept. cbn [andb orb].
    by rewrite Z.eqb_refl.
Qed.

(** [((a|ba)*c] and the text abac. *)
Lemma fullmatch_language_witness : exists F r,
  (forall fuel, (F <= fuel)%nat -> Match ascii [97; 98; 97; 99] (program exInfo exPat) fuel 1 0 4 true false = Ret r) /\
  (Matched r = true <-> spans ascii [97; 98; 97; 99] 4 exPat 0 4).
Proof.
  apply (fullmatch_language ascii [97; 98; 97; 99] 1 exInfo exPat 0 4); [|done|done].
  split; [exact ascii_wf|reflexivity..].
Defined.

(** ** Search *)

(** For such a pattern search returns a span of the pattern, and no span starts in
    front of it; when it returns none there is none in the window. *)
Theorem search_language U input groups h a pos endpos : wfProgram U input groups h a -> plain a = true ->
  let st := clip 0 pos (len input) in let en := clip 0 endpos (len input) in st <= en -> wfHead U input h a en false ->
  exists F r, (forall fuel, (F <= fuel)%nat -> Search U input (program h a) fuel groups pos endpos false = Ret r) /\
    ((exists q e, Matched r = true /\ take 2 (Locs r) = [q; e] /\ spans U input en a q e /\
        forall q' j, st <= q' < q -> ~ spans U input en a q' j) \/
     (Matched r = false /\ forall q' j, st <= q' <= en -> ~ spans U input en a q' j)).
Proof.
  intros W Hp st en Hle Hh. destruct (search_program U input groups h a pos endpos false W Hle Hh) as (F & r & o & E & Hl & Ho).
  exists F, r. split; [done|]. assert (0 <= len input) as Hlen by (unfold len; lia). pose proof (clip_bounds pos (len input) Hlen) as Hst.
  pose proof (clip_bounds endpos (len input) Hlen) as Hen. fold st in Hst, Hl. fold en in Hen, Hl.
  pose proof (den_decides U input en groups a (wp_pat _ _ _ _ _ W) Hp) as D.
  assert (forall q, firstTry U input a en st false q = den U input en a Some q) as Ef.
  { intros q. rewrite firstTry_stay. done. }
  assert (forall q' j, 0 <= q' <= en -> firstTry U input a en st false q' = None -> ~ spans U input en a q' j) as Hno.
  { intros q' j Hq' Hn Hs. rewrite Ef in Hn. by apply (d_complete _ _ _ D Some q' j) in Hs. }
  destruct o as [[q e]|]; simpl in Hl.
  - destruct Hl as (Hq & Eq & Hn), Ho as [Hm Hlocs]. rewrite Ef in Eq. apply (d_sound _ _ _ D) in Eq as (q' & Hs & [= ->]); [|lia].
    left. exists q, e. split_and!; [done|done|done|]. intros q' j Hq'. apply Hno; [lia|by apply Hn].
  - right. subst r. split; [done|]. intros q' j Hq'. apply Hno; [lia|by apply Hl].
Qed.

(** [aabc+] and the text aabaabcc. *)
Lemma search_language_witness : exists F r,
  (forall fuel, (F <= fuel)%nat -> Search ascii exText (program exSearchInfo (lits exPrefix exRest)) fuel 0 0 8 false = Ret r) /\
  ((exists q e, Matched r = true /\ take 2 (Locs r) = [q; e] /\ spans ascii exText 8 (lits exPrefix exRest) q e /\
      forall q' j, 0 <= q' < q -> ~ spans ascii exText 8 (lits exPrefix exRest) q' j) \/
   (Matched r = false /\ forall q' j, 0 <= q' <= 8 -> ~ spans ascii exText 8 (lits exPrefix exRest) q' j)).
Proof.
  apply (search_language ascii exText 0 exSearchInfo (lits exPrefix exRest) 0 8 exSearch_wf); [done|done|exact exSearch_head].
Defined.
